(* ===== verification/_CoqProject ===== *)
-Q . S2P
Prelude.v
GoText.v
GoFloat.v
GoNumber.v
GoDuration.v
SkipList.v
SkipInv.v
SkipOps.v
SkipSpec.v
ZSet.v
ZSetView.v
ZSetOps.v
ZSetThms.v
Chord.v
ChordStore.v
ChordInv.v
ChordThms.v
ChordProps.v
ChordDispatch.v
ChordDispatchThms.v
ChordDispatchLive.v
ChordCodec.v
ChordDispatchProps.v
Base64.v
ChordRedis.v
ChordRedisInv.v
ChordRedisHist.v
ChordRedisIndex.v
ChordRedisStep.v
ChordRedisScan.v
ChordRedisProps.v
ReliableQueue.v
ReliableInv.v
ReliableThms.v
ReliableHist.v
ReliableClaim.v
ReliableProps.v
ReliableKeys.v
LocalCache.v
LocalCacheThms.v
LocalCacheProps.v
IoBuffer.v
IoBufferThms.v
IoBufferProps.v
IoPool.v
IoPoolProps.v
IoPipeProps.v
Calendar.v
CronSpec.v
CronNext.v
CronParse.v
CronSyntax.v
CronProps.v
Atomic.v
LKQueue.v
LKQueueThms.v
LKQueueProps.v
Wyhash.v
SkipSet.v
SkipSetInv.v
SkipSetHeap.v
SkipSetMoves.v
SkipSetSteps.v
SkipSetLin.v
SkipSetThms.v
SkipSetKeys.v
SkipSetProps.v
SkipMap.v
SkipMapInv.v
SkipMapSolo.v
SkipMapAlone.v
SkipMapSeq.v
SkipMapKeys.v
SkipMapHist.v
SkipMapProps.v
Snowflake.v
Utf8.v
Match.v
ConnPool.v
RollingStat.v
