(* ===== verification/Prelude.v ===== *)
(** * gkit: a verification library

    gkit is a collection of Go packages for services: data structures, caches,
    rate limiting, and a distributed task system (signatures, brokers over
    Redis, result backends, chords, periodic schedules).  This library models
    the packages whose correctness rests on algorithms rather than on I/O, one
    group of files per component, and proves what each promises.  Every
    definition is executable; a panic, an error and an exhausted loop budget are
    values, so that a theorem that an operation answers says that it does not
    panic and that its loops end.

    ** Foundations

    - [Prelude] (this file): the notations' scope, the tactics, Go's integers
      with their wrap-around, lists, counted loops whose body may panic.
    - [GoText], [Utf8]: the functions of strings, strconv and unicode/utf8 that
      the code calls, on strings of bytes, with the round trips of decimal
      numerals and of splitting and joining.
    - [GoFloat]: float64 and its comparisons (IEEE 754 binary64 of SpecFloat).
      [GoNumber]: integers below 2^53 survive the way through a float64, and their
      sums below 2^53 are exact.
    - [Atomic]: calls and returns of concurrent operations, atomic objects, and
      the backward simulations that show linearizability.
    - [GoDuration]: time.ParseDuration.  [Calendar]: dates, instants and zones.

    ** Sorted sets: src/structure/zset

    [SkipList] translates skiplist.go and oparry.go function by function over a
    heap of nodes (levels, spans, back pointers, the optional array of links,
    random levels drawn from an explicit list); [ZSet] translates zset.go: a map
    of scores beside the list.  The mutex makes each method one function of the
    state.  [SkipInv] states when a heap represents a sequence of elements,
    [SkipOps] and [SkipSpec] show that every list operation keeps
    it and computes the obvious function of the sequence, [ZSetView] and
    [ZSetOps] relate the set to its map of scores alone.  [ZSetThms]: the
    invariant of all reachable states; Add, Remove, IncrBy, Rank, Range, the
    queries and removals by score and rank, Union and Inter compute the result
    of the abstract set and never panic.  Loop budgets are the length of the
    list and its height, and the theorems show that they suffice.

    ** Chords: src/distributed/backend and backend_db

    A chord is a group of tasks whose callback is published when all have
    succeeded.  [Chord] translates the aggregate and the transitions of
    backend/durable_chord.go, [ChordStore] the SQL store of backend_db, where a
    transaction applies a transition to the locked row.  [ChordInv] abstracts
    the operations to a step relation, on which the invariant and the orders of
    [ChordThms] are proved.  [ChordProps]: the callback is ready exactly when
    every member has succeeded and carries their results; identities, receipts
    and payloads are stable; leases fence members and callback; failures
    suppress a callback that is not delivered yet, and nothing else does (an
    outcome recorded before the callback is ready delivers it, and an example
    shows the failure that then has no effect); members and callbacks are
    recovered; retention; registration.  JSON and the hash are parameters.
    Versions and numbers of attempts, which grow by one at a time, are unbounded.

    ** Chords at work: src/distributed

    [ChordDispatch] translates the sending of a durable chord
    (durable_chord.go, validateGroupCallback and bindDefaultRouter of service.go),
    the set-up of groups and statuses (ReconcileChord of backend_db), the
    publication of members and callback, and the worker's recordDurableTerminal
    (worker.go) on top of [ChordStore]: any number of dispatchers claim, publish, record and
    crash between any two of these steps, the broker accepts, rejects or answers
    with an error of unknown effect, workers run what the broker has, as often as
    they like, and others change the tables of groups and statuses.  [ChordDispatchThms] holds the invariant of all
    interleavings, [ChordDispatchLive] drives any of them to its end,
    [ChordCodec] is a concrete encoder.  [ChordDispatchProps]: the callback is
    published only when every member was published and has succeeded, always
    with the same arguments; and a chord in which nothing failed can always be
    completed, unless a row of somebody else is under its identifiers, which
    the set-up refuses, or a result contains nil, which cannot be an argument.

    ** Chords in Redis: src/distributed/backend/backend_redis

    [ChordRedis] translates durable_chord.go of backend_redis: the scripts on the
    indexes as functions of the store, and every method of the backend as a
    program whose steps are single Redis commands, run by any number of clients
    in any interleaving ([sys_step]); a client may stop anywhere, a record may
    expire, an answer may be lost.  History variables record the tokens drawn
    and the registrations that created and committed a record.  [ChordRedisInv]
    shows which commands write records and that an optimistic transaction
    writes what it computed from the record it replaces; [ChordRedisHist] that
    every record is a history of the SQL store.  [ChordRedisIndex] and
    [ChordRedisStep] hold the invariant of the index protocol, [ChordRedisScan]
    the analysis of scans, [Base64] the encoding of their cursors.
    [ChordRedisProps]: the store refines the SQL store, so the properties of
    chords carry over; committed chords stay indexed in every calm run, one in
    which no chord is registered anew while a client that found its record
    missing is about to drop its entry; scans are complete; and two runs, not
    calm, on which such a removal, which is not fenced, loses the entry of a live
    chord.  These runs remove a record only after its registration has
    committed.  Values that others left under the keys of the records do not
    decode as chords.  Scans
    and their pages end: the measure is the set of keys above the cursor.

    ** Reliable delivery: src/distributed/controller/controller_redis

    [ReliableQueue] translates the five Lua scripts of reliable_queue.go command
    by command, and their Go callers; [ReliableKeys] the hash tags and cluster
    slots of reliable_keys.go.  A script returns its writes, so histories
    ([ReliableHist]) may cut any operation off after any of them.
    [ReliableProps]: no payload is lost, a reservation is honoured until its
    deadline and its holder changes nothing from then on, a claim
    respects other reservations, what is returned is what is reserved, claims
    make progress, acknowledgements stay on record for their retention, retries
    are delayed as configured.  [ReliableInv], [ReliableThms] and
    [ReliableClaim] hold the lemmas.  The attempts and reconciliations of
    the callers are bounded by the source's own constants.  HSCAN goes through a
    hash in one order, and numbers in the scripts are integers.

    ** The local cache: src/cache/local_cache

    [LocalCache] translates cache.go: one function per critical section, with
    the clock, and the interference of other goroutines between two sections of
    a method, as arguments.  [LocalCacheThms] and [LocalCacheProps]: the cache
    refines a map whose values become stale at their deadline, with all answers,
    errors and captures; it removes only what expired or was deleted and reports each removal once, and its counters wrap at the width
    of the stored type.

    ** I/O buffers: src/cache/buffer

    [IoBuffer] translates byte_pool.go and iobuffer.go: slices with length and
    capacity over an array, the pool by size class (a sync.Pool gives any item it
    keeps, or nothing), the buffer with its offsets, and its readers and writers
    as interfaces with the contracts of package io.  [IoPool] translates
    iobuffer_pool.go over a heap of shared buffers, and the pipe: readers block
    in a condition variable, and every critical section is a step.
    [IoBufferThms] holds the effect of each operation;
    [IoBufferProps]: a buffer is a queue of bytes with the promised results and
    errors, and the pool keeps its size classes; [IoPoolProps]: no buffer has two
    holders as long as nobody puts back a buffer that another client holds; [IoPipeProps]: a pipe is first in, first out in every interleaving,
    and a closed pipe drains and then fails.  Offsets and counts of callers wrap
    at 64 bits, and an allocation above 2^48 bytes panics; the theorems hold for
    buffers of up to 2^40 bytes.  Loops have the number of bytes left as budget,
    which the theorems show to be enough.

    ** Schedules: src/distributed/schedule

    [CronParse] translates parser.go and option.go, [CronSpec] spec.go and
    constantdelay.go: the loop of Next is one step function, run for up to 2^31
    steps.  [CronNext] shows that each step skips only seconds that do not
    match and that fewer steps than that are ever needed (a measure of the
    seconds left until the end of the fifth year bounds them).  [CronSyntax]
    gives the bit sets of a field and the grammar of specs.
    [CronProps]: Next returns the first matching second, for zones of constant
    offset; parsing ends in an error or a well-formed schedule, and panics on
    one kind of input only; written specs parse to their meaning.

    ** The lock-free queue: src/sys/queue

    [LKQueue] translates queue.go into atomic steps run by any number of
    goroutines in any interleaving, and states the atomic queue.  [LKQueueThms]
    holds the invariant and a backward simulation, [LKQueueProps]
    linearizability and that a goroutine which runs alone finishes.

    ** The concurrent set: src/structure/skipset

    [SkipSet] translates skipset.go (and flag.go, oparry.go, util.go): Add,
    Contains and Remove as programs whose steps are single loads, stores,
    compare-and-swaps, lockings and unlockings, run by any number of goroutines in
    any interleaving with nodes of any level, over a class [SkipKey] of types of
    values with their comparisons.  [SkipSetKeys] gives the instances for the sets
    of types.go, which are copies of that code: ascending and descending integers,
    floating-point numbers, among which NaN is not equal to itself and is refused,
    and strings, compared by hash first.  [SkipSetInv] holds
    the invariant (sorted levels, marks, locks, what each goroutine knows),
    [SkipSetHeap] the heap and what a step may do to it, [SkipSetMoves],
    [SkipSetSteps] and [SkipSetLin] that every step keeps the invariant and is
    simulated, [SkipSetThms] their composition.
    [SkipSetProps]: the set is linearizable, the methods of the sets of all types
    never panic and never deadlock, and Range visits the values in order.

    ** The concurrent map: src/structure/skipmap

    [SkipMap] translates skipmap.go: Store, Load, LoadAndDelete, LoadOrStore,
    LoadOrStoreLazy and Delete as programs of the same kind of steps.  The nodes,
    flags and links, the searches for a deletion, and the code that locks, checks,
    links, unlinks and unlocks are those of the set and are its definitions; the
    values of the nodes are a list beside them.  The function given to
    LoadOrStoreLazy returns a value or panics; the locks are then released.
    [SkipMapKeys] gives the maps of types.go.  [SkipMapInv] relates every place
    in the code of the map to one in the code of the set, and shows that every
    step keeps the invariant of the set there and that waiting goroutines wait for
    one that can go on.  [SkipMapSolo] defines the map from keys to values that
    the nodes make up; it and [SkipMapAlone] follow a goroutine that runs alone, with a measure that gets
    smaller with every step, [SkipMapSeq] composes its operations, [SkipMapHist]
    follows the values through all interleavings.  [SkipMapProps]: no method of a
    map of any type panics or deadlocks; operations one after the other are those
    of a map; a value that is found was given with that key.  The map is not
    linearizable: an execution loses the value of a Store that overlaps with a
    deletion.

    ** The pool of connections: src/container/pool

    [ConnPool] translates list.go and pool.go: the sections of the mutex, the
    creation and the shutdown of a resource, the clock and the waiting are the
    steps of Get, Put, Shutdown, Reload, New, Init and the cleaner, and any number
    of goroutines interleave.  No resource is with two callers, shut down twice or
    lost, and the counter counts them; without Reload the capacity holds and no
    wake-up is lost.  With Reload one can be: an execution leaves a goroutine
    waiting beside an idle resource.

    ** Rolling statistics: src/internal/stat

    [RollingStat] translates the ring of buckets, its policy, iterator and
    aggregates, with the instants at which the clock is read as arguments.  For
    any values added at instants that do not decrease, the aggregates are those
    of what was added in the window, and the value of a counter is the exact sum
    while it is below 2^53 ([GoNumber]).  The loops over an iterator have the
    number of its buckets as budget, which the theorems show to be enough.

    ** Hashes: src/internal/wyhash

    [Wyhash] translates wyhash.go and digest.go, on machines of both byte orders;
    a read outside the bytes gives nothing.  Hashing in pieces gives the hash of
    the whole, and no read leaves its buffer.

    ** Identifiers and patterns: src/generator, src/tools/match

    [Snowflake]: identifiers are strictly increasing, whatever the clock does,
    and decompose into what they were made of.  [Match]: the wildcard matcher,
    on bytes and on runes, decides the declarative notion of matching; its
    recursion is given twice the length of its inputs as fuel, which the theorem
    shows to be enough.

    ** Assumptions

    Code outside the repository is a parameter or an argument: the JSON library
    and SHA-256, the readers and writers of callers, HSCAN and the number
    formatting of Redis's Lua, the database of time zones, the decoder of gob,
    random numbers, the function that creates a connection, and the clock.  Random
    tokens of 128 bits are distinct.  What the JSON library encoded it decodes to
    what [ChordCodec] of [ChordDispatchLive] says: ASCII text comes back,
    and the integers of the metadata as float64.  int and
    uint have 64 bits.  Atomic operations are sequentially consistent.  Specs of
    schedules are ASCII.

    ** Not modelled

    - The goroutines, timers and contexts around the reliable queue, the delayed
      tasks, the worker and the server of src/distributed, and their ordinary
      tasks, groups and chains: the transitions and scripts they call and the
      publication of chords are modelled, their scheduling is not.
    - The MongoDB store of chords: the same transitions behind other I/O.  The
      statuses of tasks and the groups that the Redis store also keeps, and the
      pending status that a claim of the callback inserts.
    - The queue of src/structure/lscq (double-width compare-and-swap).
    - Sliding windows and adaptive limiters (src/window, src/overload), the CoDel
      queue, the goroutine pool and the channel combinators: their behaviour is
      that of timers, schedulers and the load of the machine.
    - Helpers generated once per type or of a few lines each (src/structure/hashset,
      src/ternary, src/tools/pointer and the like).
    - Packages that wrap a library, an encoder, the network, the operating system
      or reflection (src/coding, src/net, src/log, src/trace, src/watching,
      src/tools/bind, src/parser and the like). *)

From Stdlib Require Export ZArith Lia.
From stdpp Require Export base gmap sets list strings numbers option.

(** ** Notations *)

Declare Scope go_scope.
Delimit Scope go_scope with go.

Open Scope go_scope.

(** ** Tactics *)

(** Break the conjunctions, existentials and pairs of the context. *)
Ltac destr_hyps :=
  repeat match goal with
  | H : _ /\ _ |- _ => destruct H
  | H : exists _, _ |- _ => destruct H
  | H : _ * _ |- _ => destruct H
  end.

(** Case analysis on the scrutinee of an [if] or a [match] of the goal. *)
Ltac case_goal :=
  match goal with
  | |- context [ if ?b then _ else _ ] => destruct b eqn:?
  | |- context [ match ?x with _ => _ end ] => destruct x eqn:?
  end.

(** The same for a hypothesis. *)
Ltac case_hyp H :=
  match type of H with
  | context [ if ?b then _ else _ ] => destruct b eqn:?
  | context [ match ?x with _ => _ end ] => destruct x eqn:?
  end.

(** Unfold the successful binds of a panicking computation in [H]. *)
Ltac inv_bind H :=
  repeat match type of H with
  | mbind _ ?e = Some _ =>
      let E := fresh "Hrun" in destruct e eqn:E; cbn [mbind option_bind] in H; [|discriminate H]
  end.

(** ** Go's integers *)

(** The value a [w]-bit unsigned (signed, two's complement) integer holds after
    an operation whose mathematical result is [x]. *)
Definition wrapu (w x : Z) : Z := x mod 2 ^ w.
Definition wraps (w x : Z) : Z := (x + 2 ^ (w - 1)) mod 2 ^ w - 2 ^ (w - 1).

(** Go's [int] and [int64] on the 64-bit targets gkit supports. *)
Definition MaxInt64 : Z := 9223372036854775807.
Definition MinInt64 : Z := -9223372036854775808.
Definition int_add (a b : Z) : Z := wraps 64 (a + b).
Definition int_sub (a b : Z) : Z := wraps 64 (a - b).

Definition is_int (x : Z) : Prop := (MinInt64 <= x <= MaxInt64)%Z.

Lemma wraps64_id (x : Z) : is_int x → wraps 64 x = x.
Proof.
  unfold is_int, MinInt64, MaxInt64, wraps. intros Hx.
  change (2 ^ (64 - 1))%Z with 9223372036854775808%Z.
  change (2 ^ 64)%Z with 18446744073709551616%Z.
  rewrite Z.mod_small; lia.
Qed.

Lemma wraps_range (w x : Z) :
  (0 < w)%Z → (- 2 ^ (w - 1) <= wraps w x < 2 ^ (w - 1))%Z.
Proof.
  intros Hw. unfold wraps.
  assert (H2 : (2 ^ w = 2 * 2 ^ (w - 1))%Z).
  { rewrite <- Z.pow_succ_r by lia. f_equal. lia. }
  pose proof (Z.mod_pos_bound (x + 2 ^ (w - 1)) (2 ^ w) ltac:(lia)). lia.
Qed.

Lemma wrapu_range (w x : Z) : (0 <= w)%Z → (0 <= wrapu w x < 2 ^ w)%Z.
Proof. intros Hw. unfold wrapu. apply Z.mod_pos_bound. lia. Qed.

(** ** Lists *)

Section lists.
Context {A : Type}.
Implicit Types l : list A.

(** The element put at index [k] by [take k l ++ x :: drop k l]. *)
Definition list_add (k : nat) (x : A) (l : list A) : list A :=
  take k l ++ x :: drop k l.

Lemma list_add_length k x l : length (list_add k x l) = S (length l).
Proof. unfold list_add. rewrite length_app. simpl. rewrite length_take, length_drop. lia. Qed.

Lemma list_add_lookup k x l i :
  k <= length l →
  list_add k x l !! i =
    if decide (i < k) then l !! i else if decide (i = k) then Some x else l !! (i - 1).
Proof.
  intros Hk. unfold list_add. repeat case_decide.
  - rewrite lookup_app_l by (rewrite length_take; lia). by apply lookup_take_lt.
  - subst. rewrite lookup_app_r by (rewrite length_take; lia).
    rewrite length_take. replace (k - k `min` length l) with 0 by lia. done.
  - rewrite lookup_app_r by (rewrite length_take; lia). rewrite length_take.
    replace (i - k `min` length l) with (S (i - k - 1)) by lia. simpl.
    rewrite lookup_drop. f_equal. lia.
Qed.

Lemma list_delete_lookup k l i :
  delete k l !! i = if decide (i < k) then l !! i else l !! (S i).
Proof.
  case_decide.
  - by apply list_lookup_delete_lt.
  - apply list_lookup_delete_ge. lia.
Qed.

Lemma filter_all (P : A → Prop) `{∀ x, Decision (P x)} l :
  (∀ x, x ∈ l → P x) → filter P l = l.
Proof.
  induction l as [|x l IH]; intros HP; [done|]. rewrite filter_cons, decide_True by set_solver.
  f_equal. apply IH. set_solver.
Qed.

Lemma filter_none (P : A → Prop) `{∀ x, Decision (P x)} l :
  (∀ x, x ∈ l → ¬ P x) → filter P l = [].
Proof.
  induction l as [|x l IH]; intros HP; [done|]. rewrite filter_cons, decide_False by set_solver.
  apply IH. set_solver.
Qed.

(** A slice in the middle of a list. *)
Lemma slice_split a m l : l = take a l ++ take m (drop a l) ++ drop (a + m) l.
Proof. by rewrite <- drop_drop, !take_drop. Qed.

Lemma list_add_perm k x l : list_add k x l ≡ₚ x :: l.
Proof.
  unfold list_add. rewrite <- Permutation_middle. by rewrite take_drop.
Qed.
End lists.

(** ** Counted loops

    [for_range i n f s] is the loop [for k := i; k < i+n; k++ { s = f k s }]
    whose body may panic. *)
Fixpoint for_range {S : Type} (i n : nat) (f : nat → S → option S) (s : S) : option S :=
  match n with
  | O => Some s
  | Datatypes.S n' => s' ← f i s; for_range (Datatypes.S i) n' f s'
  end.

(** A loop invariant holds at the end of a loop whose body never panics and
    preserves it. *)
Lemma for_range_inv {S : Type} (P : nat → S → Prop) (f : nat → S → option S) (n i : nat) (s : S) :
  P i s →
  (∀ k s', i <= k < i + n → P k s' → ∃ s'', f k s' = Some s'' ∧ P (Datatypes.S k) s'') →
  ∃ s', for_range i n f s = Some s' ∧ P (i + n) s'.
Proof.
  revert i s. induction n as [|n IH]; intros i s HP Hf; simpl.
  - exists s. by rewrite Nat.add_0_r.
  - destruct (Hf i s ltac:(lia) HP) as (s1 & -> & H1). simpl.
    destruct (IH (Datatypes.S i) s1 H1) as (s2 & Hs2 & H2).
    { intros k s' Hk. apply Hf. lia. }
    exists s2. split; [done|]. by replace (i + Datatypes.S n) with (Datatypes.S i + n) by lia.
Qed.
