(* ===== verification/GoText.v ===== *)
(** * Strings and numerals

    The functions of Go's packages strings and strconv that the components use,
    on strings of bytes, and their laws: taking strings apart, decimal numerals
    and their round trips. *)

From S2P Require Import Prelude.
From Stdlib Require Import Strings.Byte Strings.Ascii.

(** ** Taking strings apart *)

(** The string without its first [n] characters, and these. *)
Fixpoint str_drop (n : nat) (s : string) : string :=
  match n, s with
  | O, _ => s
  | S n', String _ s' => str_drop n' s'
  | S _, EmptyString => EmptyString
  end.
Fixpoint str_take (n : nat) (s : string) : string :=
  match n, s with
  | S n', String c s' => String c (str_take n' s')
  | _, _ => EmptyString
  end.

(** ** Numerals *)

(** Decimal digits: the last [k] digits of [n], most significant first. *)
Definition digit (d : Z) : ascii := ascii_of_nat (48 + Z.to_nat d).
Fixpoint digits (k : nat) (n : Z) : string :=
  match k with
  | O => EmptyString
  | S k' => digits k' (n / 10) +:+ String (digit (n mod 10)) EmptyString
  end.

Definition digit_value (c : ascii) : option Z :=
  let n := nat_of_ascii c in
  if bool_decide (48 <= n ∧ n <= 57) then Some (Z.of_nat (n - 48)) else None.
Fixpoint parse_digits (acc : Z) (s : string) : option Z :=
  match s with
  | EmptyString => Some acc
  | String c s' => d ← digit_value c; parse_digits (acc * 10 + d)%Z s'
  end.

(** [strconv.ParseUint] and [strconv.ParseInt] in base 10 for 64 bits. *)
Definition ParseUint (s : string) : option Z :=
  match s with
  | EmptyString => None
  | _ => n ← parse_digits 0 s; if (n <? 2 ^ 64)%Z then Some n else None
  end.
Definition ParseInt (s : string) : option Z :=
  let finish (neg : bool) (r : option Z) :=
    n ← r;
    if neg then if (n <=? 2 ^ 63)%Z then Some (- n)%Z else None
    else if (n <? 2 ^ 63)%Z then Some n else None in
  match s with
  | EmptyString => None
  | String c s' =>
      if Ascii.eqb c "-" then finish true (ParseUint s')
      else if Ascii.eqb c "+" then finish false (ParseUint s')
      else finish false (ParseUint s)
  end.

Fixpoint nth_char (n : nat) (s : string) : option ascii :=
  match n, s with
  | _, EmptyString => None
  | O, String c _ => Some c
  | S n', String _ s' => nth_char n' s'
  end.

(** The number of decimal digits, with fuel for the digits after the first. *)
Fixpoint width (fuel : nat) (n : Z) : nat :=
  match fuel with
  | O => 1
  | S f => if (n <? 10)%Z then 1 else S (width f (n / 10))
  end.

(** The decimal numeral of a number below 10^19, and [strconv.Atoi]. *)
Definition Itoa (n : Z) : string := digits (width 18 n) n.
Definition Atoi (s : string) : option Z := ParseInt s.

(** ** The package strings *)

(** [strings.IndexByte]. *)
Fixpoint IndexByte (s : string) (c : ascii) : option nat :=
  match s with
  | EmptyString => None
  | String d s' => if Ascii.eqb d c then Some 0 else S <$> IndexByte s' c
  end.

(** [strings.HasPrefix]. *)
Fixpoint HasPrefix (s p : string) : bool :=
  match p, s with
  | EmptyString, _ => true
  | String c p', String d s' => Ascii.eqb d c && HasPrefix s' p'
  | _, EmptyString => false
  end.

Definition cons_head (c : ascii) (l : list string) : list string :=
  match l with [] => [String c EmptyString] | w :: l => String c w :: l end.

(** [strings.Split] at a separator of one byte. *)
Fixpoint Split (s : string) (sep : ascii) : list string :=
  match s with
  | EmptyString => [EmptyString]
  | String c s' => if Ascii.eqb c sep then EmptyString :: Split s' sep else cons_head c (Split s' sep)
  end.

(** [strings.FieldsFunc]: the maximal runs of bytes that do not satisfy [f]. *)
Fixpoint FieldsFunc (s : string) (f : ascii → bool) : list string :=
  match s with
  | EmptyString => []
  | String c s' =>
      if f c then FieldsFunc s' f
      else match s' with
           | EmptyString => [String c EmptyString]
           | String d _ => if f d then String c EmptyString :: FieldsFunc s' f else cons_head c (FieldsFunc s' f)
           end
  end.

(** The white space of ASCII, [strings.Fields] and [strings.TrimSpace]. *)
Definition is_space (c : ascii) : bool :=
  let n := nat_of_ascii c in bool_decide (9 <= n <= 13 ∨ n = 32).
Definition Fields (s : string) : list string := FieldsFunc s is_space.

Fixpoint trim_left (s : string) : string :=
  match s with String c s' => if is_space c then trim_left s' else s | EmptyString => s end.
Fixpoint all_space (s : string) : bool :=
  match s with String c s' => is_space c && all_space s' | EmptyString => true end.
Fixpoint trim_right (s : string) : string :=
  match s with
  | EmptyString => EmptyString
  | String c s' => if all_space s then EmptyString else String c (trim_right s')
  end.
Definition TrimSpace (s : string) : string := trim_right (trim_left s).

(** [strings.ToLower] on ASCII. *)
Definition lower (c : ascii) : ascii :=
  let n := nat_of_ascii c in if bool_decide (65 <= n <= 90) then ascii_of_nat (n + 32) else c.
Fixpoint ToLower (s : string) : string :=
  match s with EmptyString => EmptyString | String c s' => String (lower c) (ToLower s') end.

(** [strings.Join] with a separator of one byte. *)
Fixpoint Join (l : list string) (sep : ascii) : string :=
  match l with
  | [] => EmptyString
  | [s] => s
  | s :: l => s +:+ String sep (Join l sep)
  end.

(** ** Laws *)

Lemma str_drop_app s u : str_drop (String.length s) (s +:+ u) = u.
Proof. induction s as [|c s IH]; simpl; [by destruct u|done]. Qed.
Lemma str_take_app s u : str_take (String.length s) (s +:+ u) = s.
Proof. induction s as [|c s IH]; simpl; [by destruct u|by f_equal]. Qed.
Lemma nth_char_app s c u : nth_char (String.length s) (s +:+ String c u) = Some c.
Proof. induction s as [|d s IH]; simpl; done. Qed.
Lemma str_length_app s u : String.length (s +:+ u) = String.length s + String.length u.
Proof. induction s as [|c s IH]; simpl; [done|]. by rewrite IH. Qed.

Lemma str_app_cons c s u : String c s +:+ u = String c (s +:+ u).
Proof. done. Qed.
Lemma str_app_nil u : EmptyString +:+ u = u.
Proof. done. Qed.

Lemma str_app_assoc s u v : (s +:+ u) +:+ v = s +:+ (u +:+ v).
Proof.
  induction s as [|c s IH]; [done|]. change (String c ((s +:+ u) +:+ v) = String c (s +:+ (u +:+ v))).
  by rewrite IH.
Qed.


#[local] Arguments digit : simpl never.
#[local] Arguments digit_value : simpl never.

Lemma digits_length k n : String.length (digits k n) = k.
Proof. revert n. induction k as [|k IH]; intros n; simpl; [done|]. rewrite str_length_app, IH. simpl. lia. Qed.

Lemma digit_value_digit d : (0 <= d < 10)%Z → digit_value (digit d) = Some d.
Proof.
  intros Hd. unfold digit_value, digit. rewrite nat_ascii_embedding by lia.
  rewrite bool_decide_true by lia. f_equal. lia.
Qed.

Lemma parse_digits_app acc s u :
  parse_digits acc (s +:+ u) = (a ← parse_digits acc s; parse_digits a u).
Proof.
  revert acc. induction s as [|c s IH]; intros acc; simpl; [done|].
  destruct (digit_value c) as [d|]; simpl; [apply IH|done].
Qed.

Lemma parse_digits_digits k acc n :
  (0 <= n < 10 ^ Z.of_nat k)%Z → parse_digits acc (digits k n) = Some (acc * 10 ^ Z.of_nat k + n)%Z.
Proof.
  revert n. induction k as [|k IH]; intros n Hn; cbn [digits].
  - simpl in *. f_equal. lia.
  - rewrite Nat2Z.inj_succ, Z.pow_succ_r in * by lia.
    assert (Hq : (0 <= n / 10 < 10 ^ Z.of_nat k)%Z).
    { split; [apply Z.div_pos; lia|]. apply Z.div_lt_upper_bound; lia. }
    rewrite parse_digits_app, IH by done. cbn [mbind option_bind parse_digits].
    rewrite digit_value_digit by (apply Z.mod_pos_bound; lia). cbn [mbind option_bind]. f_equal.
    pose proof (Z.div_mod n 10). lia.
Qed.

Lemma digits_head k n : (0 <= n)%Z → ∃ d s, (0 <= d < 10)%Z ∧ digits (S k) n = String (digit d) s.
Proof.
  revert n. induction k as [|k IH]; intros n Hn; cbn [digits].
  - eexists _, _. split; [|done]. apply Z.mod_pos_bound. lia.
  - destruct (IH (n / 10)%Z) as (d & s & Hd & Hs); [apply Z.div_pos; lia|].
    cbn [digits] in Hs. rewrite Hs. simpl. by eexists d, _.
Qed.

Lemma ParseUint_digits k n :
  (0 <= n < 10 ^ Z.of_nat (S k))%Z → (n < 2 ^ 64)%Z → ParseUint (digits (S k) n) = Some n.
Proof.
  intros Hn H64. pose proof (parse_digits_digits (S k) 0 n Hn) as Hp.
  destruct (digits_head k n) as (d & s & _ & Hd); [lia|]. rewrite Hd in *.
  unfold ParseUint. rewrite Hp. cbn [mbind option_bind]. rewrite Z.mul_0_l, Z.add_0_l.
  rewrite (proj2 (Z.ltb_lt _ _) H64). done.
Qed.

Lemma digit_not_sign d : (0 <= d < 10)%Z → Ascii.eqb (digit d) "-" = false ∧ Ascii.eqb (digit d) "+" = false.
Proof.
  intros Hd.
  assert (d = 0 ∨ d = 1 ∨ d = 2 ∨ d = 3 ∨ d = 4 ∨ d = 5 ∨ d = 6 ∨ d = 7 ∨ d = 8 ∨ d = 9)%Z as Hcases by lia.
  by destruct_or! Hcases; subst d.
Qed.

Lemma ParseInt_digits k n :
  (0 <= n < 10 ^ Z.of_nat (S k))%Z → (n < 2 ^ 63)%Z → ParseInt (digits (S k) n) = Some n.
Proof.
  intros Hn H63. pose proof (ParseUint_digits k n Hn) as Hp.
  destruct (digits_head k n) as (d & s & Hd & Hs); [lia|]. rewrite Hs in *.
  destruct (digit_not_sign d Hd) as [Hm Hpl]. unfold ParseInt. rewrite Hm, Hpl, Hp by lia.
  cbn [mbind option_bind]. rewrite (proj2 (Z.ltb_lt _ _) H63). done.
Qed.

#[global] Arguments digits : simpl never.

Lemma width_spec f n : (0 <= n < 10 ^ Z.of_nat (S f))%Z → 1 <= width f n <= S f ∧ (n < 10 ^ Z.of_nat (width f n))%Z.
Proof.
  revert n. induction f as [|f IH]; intros n Hn; cbn [width]; [lia|].
  destruct (Z.ltb_spec n 10); [simpl; lia|].
  rewrite (Nat2Z.inj_succ (S f)), Z.pow_succ_r in Hn by lia.
  destruct (IH (n / 10)%Z) as [Hw Hlt]; [split; [apply Z.div_pos; lia|apply Z.div_lt_upper_bound; lia]|].
  split; [lia|]. rewrite Nat2Z.inj_succ, Z.pow_succ_r by lia. pose proof (Z.div_mod n 10). pose proof (Z.mod_pos_bound n 10). lia.
Qed.

(** ** Bytes in strings *)

Fixpoint lacks (c : ascii) (s : string) : bool :=
  match s with EmptyString => true | String d s' => negb (Ascii.eqb d c) && lacks c s' end.

Lemma IndexByte_app s c u : lacks c s = true → IndexByte (s +:+ String c u) c = Some (String.length s).
Proof.
  induction s as [|d s IH]; simpl; [by rewrite Ascii.eqb_refl|].
  rewrite andb_true_iff, negb_true_iff. intros [-> Hs]. by rewrite IH.
Qed.

Lemma IndexByte_take s c k : IndexByte s c = Some k → lacks c (str_take k s) = true ∧ String.length (str_take k s) = k.
Proof.
  revert k. induction s as [|d s IH]; intros k; simpl; [done|].
  destruct (Ascii.eqb d c) eqn:Hd; [by intros [= <-]|]. destruct (IndexByte s c) as [k'|]; simpl; [|done].
  intros [= <-]. simpl. rewrite Hd. destruct (IH k' eq_refl) as [-> ->]. done.
Qed.


(** ** Splitting and joining *)

Fixpoint all_chars (P : ascii → bool) (s : string) : bool :=
  match s with EmptyString => true | String c s' => P c && all_chars P s' end.

Lemma all_chars_app P s u : all_chars P (s +:+ u) = all_chars P s && all_chars P u.
Proof. induction s as [|c s IH]; simpl; [done|]. by rewrite IH, andb_assoc. Qed.

Lemma all_chars_mono (P Q : ascii → bool) s :
  (∀ c, P c = true → Q c = true) → all_chars P s = true → all_chars Q s = true.
Proof.
  intros HPQ. induction s as [|c s IH]; simpl; [done|]. rewrite !andb_true_iff. intros [Hc Hs]. auto.
Qed.

Lemma lacks_all c s : lacks c s = all_chars (λ d, negb (Ascii.eqb d c)) s.
Proof. induction s as [|d s IH]; simpl; [done|]. by rewrite IH. Qed.

Lemma Split_lacks s c : lacks c s = true → Split s c = [s].
Proof.
  induction s as [|d s IH]; simpl; [done|]. rewrite andb_true_iff, negb_true_iff. intros [-> Hs]. by rewrite IH.
Qed.

Lemma Split_app s c u : lacks c s = true → Split (s +:+ String c u) c = s :: Split u c.
Proof.
  induction s as [|d s IH]; simpl; [by rewrite Ascii.eqb_refl|].
  rewrite andb_true_iff, negb_true_iff. intros [-> Hs]. by rewrite IH.
Qed.

(** A word followed by a separator is the first field. *)
Lemma FieldsFunc_word f s c u :
  s ≠ EmptyString → all_chars (negb ∘ f) s = true → f c = true →
  FieldsFunc (s +:+ String c u) f = s :: FieldsFunc u f.
Proof.
  intros Hs Hf Hc. induction s as [|d s IH]; [done|]. simpl in Hf. rewrite andb_true_iff, negb_true_iff in Hf.
  destruct Hf as [Hd Hf]. rewrite str_app_cons. cbn [FieldsFunc]. rewrite Hd. destruct s as [|e s].
  - rewrite str_app_nil. cbn [FieldsFunc]. by rewrite Hc.
  - rewrite IH by done. rewrite str_app_cons. simpl in Hf. rewrite andb_true_iff, negb_true_iff in Hf.
    destruct Hf as [-> _]. done.
Qed.

Lemma FieldsFunc_last f s : s ≠ EmptyString → all_chars (negb ∘ f) s = true → FieldsFunc s f = [s].
Proof.
  intros Hs Hf. induction s as [|d s IH]; [done|]. simpl in Hf. rewrite andb_true_iff, negb_true_iff in Hf.
  destruct Hf as [Hd Hf]. cbn [FieldsFunc]. rewrite Hd. destruct s as [|e s]; [done|].
  rewrite IH by done. simpl in Hf. rewrite andb_true_iff, negb_true_iff in Hf. destruct Hf as [-> _]. done.
Qed.

(** Splitting the joined words gives the words. *)
Lemma FieldsFunc_Join f sep l :
  f sep = true → Forall (λ s, s ≠ EmptyString ∧ all_chars (negb ∘ f) s = true) l →
  FieldsFunc (Join l sep) f = l.
Proof.
  intros Hsep. induction 1 as [|s l [Hs Hf] Hl IH]; [done|]. cbn [Join]. destruct l as [|s' l].
  - by apply FieldsFunc_last.
  - rewrite FieldsFunc_word by done. by rewrite IH.
Qed.

(** ** Numerals as words *)

Definition is_digit (c : ascii) : bool := bool_decide (is_Some (digit_value c)).

Lemma digits_digit k n : (0 <= n)%Z → all_chars is_digit (digits k n) = true.
Proof.
  revert n. induction k as [|k IH]; intros n Hn; [done|].
  change (digits (S k) n) with (digits k (n / 10) +:+ String (digit (n mod 10)) EmptyString).
  rewrite all_chars_app, IH by (apply Z.div_pos; lia). cbn [all_chars]. rewrite andb_true_r. cbn [andb].
  unfold is_digit. rewrite digit_value_digit by (apply Z.mod_pos_bound; lia). by rewrite bool_decide_true.
Qed.

Lemma Itoa_digit n : (0 <= n)%Z → all_chars is_digit (Itoa n) = true.
Proof. apply digits_digit. Qed.

Lemma width_pos f n : ∃ k, width f n = S k.
Proof. destruct f; cbn [width]; [by exists 0|]. case_match; eauto. Qed.

Lemma Itoa_nonempty n : Itoa n ≠ EmptyString.
Proof.
  unfold Itoa. intros H. destruct (width_pos 18 n) as [k Hk]. pose proof (digits_length (width 18 n) n) as Hl.
  rewrite H, Hk in Hl. done.
Qed.

Lemma Atoi_Itoa n : (0 <= n < 2 ^ 63)%Z → Atoi (Itoa n) = Some n.
Proof.
  intros Hn. unfold Itoa, Atoi. destruct (width_spec 18 n) as [_ Hw]; [lia|].
  destruct (width_pos 18 n) as [k Hk]. rewrite Hk in *. apply ParseInt_digits; lia.
Qed.
