(* ===== verification/GoFloat.v ===== *)
(** * Go's float64 and string comparisons

    [float64] is the IEEE 754 binary64 format of the standard library's
    [SpecFloat]: the comparison operators are Go's (every one is false on NaN)
    and [f64_add] is the rounded addition.  The file proves what the ordered
    containers rely on: [<] is a strict weak order on the numbers that are not
    NaN, and the lexicographic order of a score and a string is a strict total
    order on elements. *)

From S2P Require Import Prelude.
From Stdlib Require Import SpecFloat.

Abbreviation float64 := spec_float.

Definition isNaN (x : float64) : bool :=
  match x with S754_nan => true | _ => false end.

Definition flt (x y : float64) : bool := SFltb x y.
Definition fle (x y : float64) : bool := SFleb x y.
Definition feq (x y : float64) : bool := SFeqb x y.
Definition fgt (x y : float64) : bool := SFltb y x.
Definition fge (x y : float64) : bool := SFleb y x.

(** Addition of binary64 numbers, and two constants of the [math] package. *)
Definition f64_add (x y : float64) : float64 := SFadd 53 1024 x y.
Definition f64_sub (x y : float64) : float64 := SFsub 53 1024 x y.
Definition MaxFloat64 : float64 := S754_finite false 9007199254740991 971.
Definition f64_zero : float64 := S754_zero false.
Definition f64_neg (x : float64) : float64 := SFopp x.
Definition f64_of_Z (n : Z) : float64 := binary_normalize 53 1024 n 0 false.

(** ** The order of the numbers that are not NaN

    Each is given a triple of integers whose lexicographic order is the order
    of the numbers. *)

Definition fkey (x : float64) : Z * Z * Z :=
  match x with
  | S754_nan => (9, 0, 0)
  | S754_infinity true => (0, 0, 0)
  | S754_finite true m e => (1, - e, - Zpos m)
  | S754_zero _ => (2, 0, 0)
  | S754_finite false m e => (3, e, Zpos m)
  | S754_infinity false => (4, 0, 0)
  end%Z.

Definition klt (a b : Z * Z * Z) : Prop :=
  let '(a1, a2, a3) := a in let '(b1, b2, b3) := b in
  (a1 < b1 ∨ (a1 = b1 ∧ (a2 < b2 ∨ (a2 = b2 ∧ a3 < b3))))%Z.

Lemma pos_compare_Z (p q : positive) : Pos.compare_cont Eq p q = (Zpos p ?= Zpos q)%Z.
Proof. done. Qed.

Lemma flt_key (x y : float64) :
  isNaN x = false → isNaN y = false → flt x y = true ↔ klt (fkey x) (fkey y).
Proof.
  intros Hx Hy. unfold flt, SFltb.
  destruct x as [?|[]| |[] mx ex], y as [?|[]| |[] my ey]; try discriminate;
    cbn [SFcompare fkey klt]; try (split; [done|lia]); try (split; [lia|done]).
  all: rewrite pos_compare_Z;
    destruct (Z.compare_spec ex ey); destruct (Z.compare_spec (Zpos mx) (Zpos my));
    cbn [CompOpp]; split; (done || lia).
Qed.

Lemma feq_key (x y : float64) :
  isNaN x = false → isNaN y = false → feq x y = true ↔ fkey x = fkey y.
Proof.
  intros Hx Hy. unfold feq, SFeqb.
  destruct x as [?|[]| |[] mx ex], y as [?|[]| |[] my ey]; try discriminate;
    cbn [SFcompare fkey]; try (split; [done|intros [=]]); try (split; [intros [=]|done]); try done.
  all: rewrite pos_compare_Z;
    destruct (Z.compare_spec ex ey); destruct (Z.compare_spec (Zpos mx) (Zpos my));
    cbn [CompOpp]; split; try done; intros [=]; (lia || (f_equal; f_equal; lia)).
Qed.

Lemma flt_nn (x y : float64) : flt x y = true → isNaN x = false ∧ isNaN y = false.
Proof. unfold flt, SFltb. destruct x, y; done. Qed.

Lemma feq_nn (x y : float64) : feq x y = true → isNaN x = false ∧ isNaN y = false.
Proof. unfold feq, SFeqb. destruct x, y; done. Qed.

Lemma fle_orb (x y : float64) : fle x y = flt x y || feq x y.
Proof. unfold fle, flt, feq, SFleb, SFltb, SFeqb. by destruct (SFcompare x y) as [[]|]. Qed.

Lemma flt_key_false (x y : float64) :
  isNaN x = false → isNaN y = false → flt x y = false ↔ ¬ klt (fkey x) (fkey y).
Proof. intros. rewrite <- flt_key, not_true_iff_false by done. done. Qed.

Lemma feq_key_false (x y : float64) :
  isNaN x = false → isNaN y = false → feq x y = false ↔ fkey x ≠ fkey y.
Proof. intros. rewrite <- feq_key, not_true_iff_false by done. done. Qed.

(** Comparisons of numbers that the context shows not to be NaN become integer
    arithmetic on their keys. *)
Ltac fkeys :=
  repeat match goal with
  | H : flt ?x ?y = true |- _ =>
      lazymatch goal with
      | _ : isNaN x = false, _ : isNaN y = false |- _ => fail
      | _ => destruct (flt_nn x y H)
      end
  | H : feq ?x ?y = true |- _ =>
      lazymatch goal with
      | _ : isNaN x = false, _ : isNaN y = false |- _ => fail
      | _ => destruct (feq_nn x y H)
      end
  end;
  repeat match goal with
  | H : flt _ _ = true |- _ => rewrite flt_key in H by assumption
  | H : flt _ _ = false |- _ => rewrite flt_key_false in H by assumption
  | H : feq _ _ = true |- _ => rewrite feq_key in H by assumption
  | H : feq _ _ = false |- _ => rewrite feq_key_false in H by assumption
  | |- flt _ _ = true => apply flt_key; [assumption|assumption|]
  | |- flt _ _ = false => apply flt_key_false; [assumption|assumption|]
  | |- feq _ _ = true => apply feq_key; [assumption|assumption|]
  | |- feq _ _ = false => apply feq_key_false; [assumption|assumption|]
  end;
  repeat match goal with
  | |- context [fkey ?x] => is_var x; destruct (fkey x) as [[? ?] ?]
  | H : context [fkey ?x] |- _ => is_var x; destruct (fkey x) as [[? ?] ?]
  end;
  unfold klt in *; simplify_eq.

Lemma flt_irrefl (x : float64) : flt x x = false.
Proof.
  destruct (isNaN x) eqn:E; [by destruct x|]. fkeys. lia.
Qed.

Lemma flt_trans (x y z : float64) : flt x y = true → flt y z = true → flt x z = true.
Proof. intros. fkeys. lia. Qed.

Lemma feq_refl (x : float64) : isNaN x = false → feq x x = true.
Proof. intros. by apply feq_key. Qed.

Lemma feq_sym (x y : float64) : feq x y = true → feq y x = true.
Proof. intros. fkeys. done. Qed.

Lemma feq_comm (x y : float64) : feq x y = feq y x.
Proof.
  destruct (feq x y) eqn:H1, (feq y x) eqn:H2; try done; [apply feq_sym in H1|apply feq_sym in H2]; congruence.
Qed.

Lemma feq_trans (x y z : float64) : feq x y = true → feq y z = true → feq x z = true.
Proof. intros. fkeys. done. Qed.

Lemma flt_feq_trans (x y z : float64) : flt x y = true → feq y z = true → flt x z = true.
Proof. intros. fkeys. lia. Qed.

Lemma feq_flt_trans (x y z : float64) : feq x y = true → flt y z = true → flt x z = true.
Proof. intros. fkeys. lia. Qed.

Lemma flt_feq_false (x y : float64) : flt x y = true → feq x y = false.
Proof. intros. fkeys. intros [=]. lia. Qed.

Lemma flt_asym (x y : float64) : flt x y = true → flt y x = false.
Proof. intros. fkeys. lia. Qed.

Lemma flt_total (x y : float64) :
  isNaN x = false → isNaN y = false →
  flt x y = true ∨ feq x y = true ∨ flt y x = true.
Proof.
  intros. rewrite !flt_key, feq_key by done.
  destruct (fkey x) as [[x1 x2] x3], (fkey y) as [[y1 y2] y3]. unfold klt.
  destruct (Z.lt_trichotomy x1 y1) as [?|[->|?]]; [lia| |lia].
  destruct (Z.lt_trichotomy x2 y2) as [?|[->|?]]; [lia| |lia].
  destruct (Z.lt_trichotomy x3 y3) as [?|[->|?]]; [lia| |lia]. auto.
Qed.

(** ** Go's string order *)

Lemma string_compare_refl (s : string) : (s ?= s)%string = Eq.
Proof. induction s; simpl; [done|]. unfold Ascii.compare. by rewrite N.compare_refl. Qed.

Lemma string_ltb_irrefl (s : string) : String.ltb s s = false.
Proof. unfold String.ltb. by rewrite string_compare_refl. Qed.

Lemma string_compare_gt (s t : string) : (s ?= t)%string = Gt ↔ (t ?= s)%string = Lt.
Proof. rewrite (String.compare_antisym s t). by destruct (t ?= s)%string. Qed.

Lemma string_ltb_iff (s t : string) : String.ltb s t = true ↔ String.le s t ∧ s ≠ t.
Proof.
  unfold String.le, String.leb, String.ltb.
  destruct (s ?= t)%string eqn:E; split; try done.
  - apply String.compare_eq_iff in E as ->. intros [_ ?]. done.
  - intros _. split; [done|]. intros ->. by rewrite string_compare_refl in E.
  - intros [[] _].
Qed.

Lemma string_ltb_trans (s t u : string) :
  String.ltb s t = true → String.ltb t u = true → String.ltb s u = true.
Proof.
  rewrite !string_ltb_iff. intros [H1 N1] [H2 N2]. split; [by etrans|].
  intros <-. apply N1. by apply (anti_symm String.le).
Qed.

Lemma string_ltb_total (s t : string) :
  String.ltb s t = true ∨ s = t ∨ String.ltb t s = true.
Proof.
  unfold String.ltb. destruct (s ?= t)%string eqn:E; [|by left|].
  - right; left. by apply String.compare_eq_iff.
  - right; right. by apply string_compare_gt in E as ->.
Qed.

Lemma string_leb_orb (s t : string) : String.leb s t = String.ltb s t || String.eqb s t.
Proof.
  unfold String.leb, String.ltb. destruct (s ?= t)%string eqn:E; simpl; try done.
  - symmetry. apply String.eqb_eq. by apply String.compare_eq_iff.
  - symmetry. apply String.eqb_neq. intros ->. by rewrite string_compare_refl in E.
Qed.
