(* ===== verification/GoNumber.v ===== *)
(** * Integers through float64

    What a JSON number becomes on the way through [interface{}]: Go's conversion
    of an integer to float64 and back.  Every integer below 2^53 survives it, and
    sums that stay below 2^53 are exact. *)

From S2P Require Import Prelude GoFloat.
From Stdlib Require Import SpecFloat.

#[local] Open Scope Z_scope.

(** [int(x)] for a float64: truncation towards zero.  Out of the range of int64,
    for infinities and for NaN Go leaves the value to the machine; amd64 gives the
    least int64. *)
Definition f64_to_int (x : float64) : Z :=
  match x with
  | S754_zero _ => 0
  | S754_finite s m e =>
      let v := if 0 <=? e then Zpos m * 2 ^ e else Zpos m / 2 ^ (- e) in
      let v := if s then - v else v in
      if (MinInt64 <=? v) && (v <=? MaxInt64) then v else MinInt64
  | _ => MinInt64
  end.

Lemma digits2_pos_log2 p : Zpos (digits2_pos p) = Z.log2 (Zpos p) + 1.
Proof.
  induction p as [p IH|p IH|]; [| |done]; cbn [digits2_pos]; rewrite Pos2Z.inj_succ, IH.
  - rewrite (Pos2Z.inj_xI p), Z.log2_succ_double by lia. lia.
  - rewrite (Pos2Z.inj_xO p), Z.log2_double by lia. lia.
Qed.

Lemma iter_xO_mul p d : Zpos (Pos.iter xO p d) = Zpos p * 2 ^ Zpos d.
Proof.
  induction d as [|d IH] using Pos.peano_ind; [simpl; lia|].
  rewrite Pos.iter_succ, Pos2Z.inj_xO, IH, Pos2Z.inj_succ, Z.pow_succ_r by lia. ring.
Qed.

(** A mantissa of 53 digits with an exponent in range is kept as it is. *)
Lemma round_exact m e :
  Zpos (digits2_pos m) = 53 → -1074 <= e <= 971 →
  binary_round_aux 53 1024 false (Zpos m) e loc_Exact = S754_finite false m e.
Proof.
  intros Hd He. unfold binary_round_aux, shr_fexp, fexp, emin. cbn [Zdigits2 shr_record_of_loc]. rewrite Hd.
  replace (Z.max (53 + e - 53) (3 - 1024 - 53) - e) with 0 by lia. cbn [shr shr_m loc_of_shr_record round_nearest_even].
  cbn [Zdigits2]. rewrite Hd. replace (Z.max (53 + e - 53) (3 - 1024 - 53) - e) with 0 by lia. cbn [shr shr_m].
  by destruct (Z.leb_spec e (1024 - 53)); [|lia].
Qed.

(** Every integer from 0 to 2^53 is a float64, and is the integer it converts to. *)
Lemma f64_int_exact n : 0 <= n < 2 ^ 53 → f64_to_int (f64_of_Z n) = n.
Proof.
  intros Hn. destruct n as [|p|p]; [done| |lia]. unfold f64_of_Z, binary_normalize, binary_round.
  pose proof (digits2_pos_log2 p) as Hd. pose proof (Z.log2_nonneg (Zpos p)).
  assert (Z.log2 (Zpos p) < 53) by (apply Z.log2_lt_pow2; lia).
  unfold shl_align, fexp, emin. set (d := Zpos (digits2_pos p)) in *.
  replace (Z.max (d + 0 - 53) (3 - 1024 - 53) - 0) with (d - 53) by lia.
  assert (MaxInt64 = 9223372036854775807) as HM by done. assert (MinInt64 = -9223372036854775808) as Hm by done.
  assert (2 ^ 53 = 9007199254740992) as E53 by done.
  destruct (Z.eq_dec d 53) as [Ed|Ed].
  - rewrite Ed. change (53 - 53) with 0. cbv beta iota. rewrite round_exact by (unfold d in Ed; lia). cbn [f64_to_int].
    rewrite Z.leb_refl, Z.pow_0_r, Z.mul_1_r.
    destruct (Z.leb_spec MinInt64 (Zpos p)); [|lia]. by destruct (Z.leb_spec (Zpos p) MaxInt64); [|lia].
  - assert (∃ k, d - 53 = Zneg k) as [k Hk] by (exists (Z.to_pos (53 - d)); lia). rewrite Hk.
    replace (Z.max (d + 0 - 53) (3 - 1024 - 53)) with (Zneg k) by lia.
    rewrite round_exact; [|rewrite digits2_pos_log2, iter_xO_mul, Z.log2_mul_pow2 by lia; lia|lia].
    cbn [f64_to_int]. destruct (Z.leb_spec 0 (Zneg k)); [lia|]. rewrite iter_xO_mul.
    change (- Zneg k) with (Zpos k). rewrite Z.div_mul by (apply Z.pow_nonzero; lia).
    destruct (Z.leb_spec MinInt64 (Zpos p)); [|lia]. by destruct (Z.leb_spec (Zpos p) MaxInt64); [|lia].
Qed.

Lemma f64_int_eq n : 0 <= n < 2 ^ 53 → feq (f64_of_Z n) (f64_of_Z (f64_to_int (f64_of_Z n))) = true.
Proof.
  intros Hn. rewrite f64_int_exact by done. unfold feq, SFeqb.
  destruct (f64_of_Z n) as [s|s| |s m e] eqn:E; try done.
  - by destruct s.
  - exfalso. apply (f_equal f64_to_int) in E. rewrite f64_int_exact in E by done. cbn in E. unfold MinInt64 in E. lia.
  - cbn [SFcompare]. rewrite Z.compare_refl, !pos_compare_Z, Z.compare_refl. by destruct s.
Qed.

(** ** Sums of integers *)

Lemma shr_even k m : iter_pos shr_1 k (Build_shr_record (Zpos (Pos.iter xO m k)) false false) = Build_shr_record (Zpos m) false false.
Proof.
  assert (Hadd : ∀ a b m, Pos.iter xO m (a + b) = Pos.iter xO (Pos.iter xO m a) b).
  { intros a b n. rewrite Pos.add_comm. apply Pos.iter_add. }
  revert m. induction k as [k IH|k IH|]; intros m; cbn [iter_pos]; [| |done].
  - replace (k~1)%positive with (k + k + 1)%positive by lia. rewrite !Hadd. cbn [Pos.iter shr_1 orb]. by rewrite !IH.
  - replace (k~0)%positive with (k + k)%positive by lia. by rewrite Hadd, !IH.
Qed.

(** A mantissa of more digits whose low ones are zeros is rounded to itself. *)
Lemma normalize_down m e k :
  Zpos (digits2_pos m) = 53 → -1074 <= e <= 971 → 0 <= k →
  binary_normalize 53 1024 (Zpos m * 2 ^ k) (e - k) false = S754_finite false m e.
Proof.
  intros Hd He Hk. destruct k as [|k|]; [| |lia].
  - rewrite Z.pow_0_r, Z.mul_1_r, Z.sub_0_r. cbn [binary_normalize]. unfold binary_round, shl_align, fexp, emin. rewrite Hd.
    replace (Z.max (53 + e - 53) (3 - 1024 - 53) - e) with 0 by lia. by apply round_exact.
  - rewrite <- iter_xO_mul. cbn [binary_normalize]. unfold binary_round, shl_align, fexp, emin.
    assert (HD : Zpos (digits2_pos (Pos.iter xO m k)) = 53 + Zpos k).
    { rewrite digits2_pos_log2, iter_xO_mul, Z.log2_mul_pow2 by lia. rewrite digits2_pos_log2 in Hd. lia. }
    rewrite HD. replace (Z.max (53 + Zpos k + (e - Zpos k) - 53) (3 - 1024 - 53) - (e - Zpos k)) with (Zpos k) by lia.
    unfold binary_round_aux at 1. unfold shr_fexp at 1, fexp, emin. cbn [Zdigits2 shr_record_of_loc]. rewrite HD.
    replace (Z.max (53 + Zpos k + (e - Zpos k) - 53) (3 - 1024 - 53) - (e - Zpos k)) with (Zpos k) by lia.
    cbn [shr]. rewrite shr_even. replace (e - Zpos k + Zpos k) with e by lia.
    cbn [shr_m loc_of_shr_record round_nearest_even]. unfold shr_fexp, fexp, emin. cbn [Zdigits2 shr_record_of_loc]. rewrite Hd.
    replace (Z.max (53 + e - 53) (3 - 1024 - 53) - e) with 0 by lia. cbn [shr shr_m].
    by destruct (Z.leb_spec e (1024 - 53)); [|lia].
Qed.

(** The float64 of a positive integer below 2^53. *)
Lemma f64_of_pos p : Zpos p < 2 ^ 53 → ∃ m e, f64_of_Z (Zpos p) = S754_finite false m e ∧
  Zpos (digits2_pos m) = 53 ∧ e = Z.log2 (Zpos p) - 52 ∧ e <= 0 ∧ Zpos m = Zpos p * 2 ^ (- e).
Proof.
  intros Hp. assert (Hl : Z.log2 (Zpos p) < 53) by (apply Z.log2_lt_pow2; lia). pose proof (Z.log2_nonneg (Zpos p)).
  unfold f64_of_Z. cbn [binary_normalize]. unfold binary_round, shl_align, fexp, emin. rewrite digits2_pos_log2.
  set (d := Z.log2 (Zpos p)) in *.
  replace (Z.max (d + 1 + 0 - 53) (3 - 1024 - 53)) with (d - 52) by lia. rewrite Z.sub_0_r.
  destruct (d - 52) as [|k|k] eqn:E; [|lia|].
  - exists p, 0. rewrite round_exact by (rewrite ?digits2_pos_log2; fold d; lia).
    rewrite digits2_pos_log2, Z.pow_0_r. fold d. split_and!; done || lia.
  - assert (Hd : Zpos (digits2_pos (Pos.iter xO p k)) = 53).
    { rewrite digits2_pos_log2, iter_xO_mul, Z.log2_mul_pow2 by lia. fold d. lia. }
    exists (Pos.iter xO p k), (Zneg k). rewrite round_exact by (done || lia). rewrite iter_xO_mul. split_and!; done || lia.
Qed.

Lemma align_value m e z : z <= e → Zpos (fst (shl_align m e z)) = Zpos m * 2 ^ (e - z).
Proof.
  intros Hz. unfold shl_align. destruct (z - e) as [|d|d] eqn:E; [|lia|].
  - replace (e - z) with 0 by lia. cbn [fst]. lia.
  - cbn [fst]. rewrite iter_xO_mul. f_equal. f_equal. lia.
Qed.

(** Sums of non-negative integers below 2^53 are exact. *)
Lemma f64_add_int a b : 0 <= a → 0 <= b → a + b < 2 ^ 53 → f64_add (f64_of_Z a) (f64_of_Z b) = f64_of_Z (a + b).
Proof.
  intros Ha Hb Hab. destruct a as [|p|], b as [|q|]; try lia; [done| | |].
  - destruct (f64_of_pos q) as (m & e & E & _); [lia|]. cbn [Z.add]. by rewrite E.
  - destruct (f64_of_pos p) as (m & e & E & _); [lia|]. cbn [Z.add]. by rewrite E.
  - destruct (f64_of_pos p) as (m1 & e1 & E1 & _ & He1 & Hn1 & Hm1); [lia|].
    destruct (f64_of_pos q) as (m2 & e2 & E2 & _ & He2 & Hn2 & Hm2); [lia|].
    destruct (f64_of_pos (p + q)) as (m & e & E & Hd & He & Hn & Hm); [lia|].
    change (Zpos p + Zpos q) with (Zpos (p + q)). rewrite E, E1, E2. unfold f64_add. cbn [SFadd cond_Zopp].
    rewrite !align_value, Hm1, Hm2 by lia. set (z := Z.min e1 e2).
    assert (Hl : Z.log2 (Zpos p) <= Z.log2 (Zpos (p + q))) by (apply Z.log2_le_mono; lia).
    assert (Hscale : ∀ x f, z <= f → f <= 0 → x * 2 ^ (- f) * 2 ^ (f - z) = x * 2 ^ (- z)).
    { intros x f H1 H2. rewrite <- Z.mul_assoc, <- Z.pow_add_r by lia. f_equal. f_equal. lia. }
    rewrite !Hscale by lia. rewrite <- Z.mul_add_distr_r. change (Zpos p + Zpos q) with (Zpos (p + q)).
    rewrite <- (Hscale _ e), <- Hm by lia. replace z with (e - (e - z)) at 2 by lia.
    pose proof (Z.log2_nonneg (Zpos (p + q))). apply normalize_down; lia.
Qed.
