(* ===== verification/GoDuration.v ===== *)
(** * Durations as text

    [time.ParseDuration]: a sequence of decimal numbers with units.  The
    fraction of a number is scaled with float64 arithmetic, as the package
    does. *)

From S2P Require Import Prelude GoText GoFloat.
From Stdlib Require Import Strings.Ascii SpecFloat.

#[local] Open Scope Z_scope.

Definition f64_mul (x y : float64) : float64 := SFmul 53 1024 x y.
Definition f64_div (x y : float64) : float64 := SFdiv 53 1024 x y.

(** The conversion of a number that is not negative and fits to uint64. *)
Definition f64_to_uint (x : float64) : Z :=
  match x with
  | S754_finite false m e => Z.shiftl (Zpos m) e
  | _ => 0
  end.

(** The leading digits as an integer of at most 2^63, and the rest. *)
Fixpoint leadingInt (x : Z) (s : string) : option (Z * string) :=
  match s with
  | EmptyString => Some (x, s)
  | String c s' =>
      match digit_value c with
      | None => Some (x, s)
      | Some d =>
          if 2 ^ 63 / 10 <? x then None
          else let x := x * 10 + d in if 2 ^ 63 <? x then None else leadingInt x s'
      end
  end.

(** The leading digits as a fraction: the digits that fit, their scale, and the rest. *)
Fixpoint leadingFraction (x : Z) (scale : float64) (overflow : bool) (s : string) : Z * float64 * string :=
  match s with
  | EmptyString => (x, scale, s)
  | String c s' =>
      match digit_value c with
      | None => (x, scale, s)
      | Some d =>
          if overflow then leadingFraction x scale true s'
          else if (2 ^ 63 - 1) / 10 <? x then leadingFraction x scale true s'
          else
            let y := x * 10 + d in
            if 2 ^ 63 <? y then leadingFraction x scale true s'
            else leadingFraction y (f64_mul scale (f64_of_Z 10)) false s'
      end
  end.

(** The unit is the text up to the next digit or period. *)
Definition in_unit (c : ascii) : bool := negb (Ascii.eqb c "." || is_digit c).
Fixpoint take_unit (s : string) : string * string :=
  match s with
  | EmptyString => (EmptyString, EmptyString)
  | String c s' => if in_unit c then let '(u, r) := take_unit s' in (String c u, r) else (EmptyString, s)
  end.

(** The two micro signs are the bytes of U+00B5 and U+03BC in UTF-8. *)
Definition micro (b1 b2 : nat) : string := String (ascii_of_nat b1) (String (ascii_of_nat b2) "s").
Definition unit_ns (u : string) : option Z :=
  if bool_decide (u = "ns") then Some 1
  else if bool_decide (u = "us" ∨ u = micro 194 181 ∨ u = micro 206 188) then Some 1000
  else if bool_decide (u = "ms") then Some 1000000
  else if bool_decide (u = "s") then Some 1000000000
  else if bool_decide (u = "m") then Some 60000000000
  else if bool_decide (u = "h") then Some 3600000000000
  else None.

(** One number with its unit: the value in nanoseconds and the rest. *)
Definition duration_part (s : string) : option (Z * string) :=
  match s with
  | EmptyString => None
  | String c _ =>
      if negb (Ascii.eqb c "." || is_digit c) then None
      else
        '(v, r) ← leadingInt 0 s;
        let pre := negb (String.length s =? String.length r)%nat in
        let '(f, scale, r, post) :=
          match r with
          | String c r' =>
              if Ascii.eqb c "." then
                let '(f, scale, r'') := leadingFraction 0 (f64_of_Z 1) false r' in
                (f, scale, r'', negb (String.length r' =? String.length r'')%nat)
              else (0, f64_of_Z 1, r, false)
          | EmptyString => (0, f64_of_Z 1, r, false)
          end in
        if negb pre && negb post then None
        else
          let '(u, r) := take_unit r in
          unit ← unit_ns u;
          if 2 ^ 63 / unit <? v then None
          else
            let v := v * unit in
            let v := if 0 <? f then v + f64_to_uint (f64_mul (f64_of_Z f) (f64_div (f64_of_Z unit) scale)) else v in
            if 2 ^ 63 <? v then None else Some (v, r)
  end.

(** Each part consumes text, so the length of the text bounds their number. *)
Fixpoint duration_parts (fuel : nat) (d : Z) (s : string) : option Z :=
  match s with
  | EmptyString => Some d
  | _ =>
      match fuel with
      | O => None
      | S fuel =>
          '(v, r) ← duration_part s;
          let d := d + v in
          if 2 ^ 63 <? d then None else duration_parts fuel d r
      end
  end.

Definition ParseDuration (s : string) : option Z :=
  let '(neg, s) :=
    match s with
    | String c s' => if Ascii.eqb c "-" then (true, s') else if Ascii.eqb c "+" then (false, s') else (false, s)
    | EmptyString => (false, s)
    end in
  if bool_decide (s = "0") then Some 0
  else if bool_decide (s = EmptyString) then None
  else
    d ← duration_parts (String.length s) 0 s;
    if neg then Some (- d) else if 2 ^ 63 - 1 <? d then None else Some d.

(** ** Reading a duration *)

Example ParseDuration_examples :
  ParseDuration "1h30m" = Some 5400000000000 ∧ ParseDuration "1.5s" = Some 1500000000 ∧
  ParseDuration "-0.1ms" = Some (-100000) ∧ ParseDuration "2562048h" = None ∧ ParseDuration "5" = None.
Proof. by vm_compute. Qed.

#[local] Arguments Z.mul : simpl never.
#[local] Arguments Z.add : simpl never.

Lemma leadingInt_range x s v r : 0 <= x <= 2 ^ 63 → leadingInt x s = Some (v, r) → 0 <= v <= 2 ^ 63.
Proof.
  revert x. induction s as [|c s IH]; intros x Hx; cbn [leadingInt]; [by intros [= <- _]|].
  unfold digit_value. case_bool_decide; [|by intros [= <- _]].
  do 2 (case_match; [done|]). apply IH. rewrite Z.ltb_ge in *. lia.
Qed.

Lemma leadingInt_length x s v r : leadingInt x s = Some (v, r) → (String.length r <= String.length s)%nat.
Proof.
  revert x. induction s as [|c s IH]; intros x; cbn [leadingInt]; [by intros [= _ <-]|].
  destruct (digit_value c); [|by intros [= _ <-]].
  do 2 (case_match; [done|]). intros Hr. apply IH in Hr. simpl. lia.
Qed.

Lemma f64_to_uint_nonneg x : 0 <= f64_to_uint x.
Proof. destruct x as [| | |[]]; simpl; try lia. apply Z.shiftl_nonneg. lia. Qed.

Lemma duration_part_range s v r : duration_part s = Some (v, r) → 0 <= v <= 2 ^ 63.
Proof.
  unfold duration_part. destruct s as [|c s]; [done|]. case_match; [done|]. intros Hp. inv_bind Hp.
  destruct p as [x r0]. apply leadingInt_range in Hrun; [|lia].
  destruct (match r0 with EmptyString => _ | _ => _ end) as [[[f scale] r1] post]. case_match; [done|].
  destruct (take_unit r1) as [u r2]. inv_bind Hp.
  destruct (Z.ltb_spec (2 ^ 63 / z) x); [done|]. clear H.
  pose proof (f64_to_uint_nonneg (f64_mul (f64_of_Z f) (f64_div (f64_of_Z z) scale))) as Hfl.
  set (w := f64_to_uint _) in *. clearbody w.
  assert (0 < z) by (unfold unit_ns in *; repeat case_bool_decide; simplify_eq; lia).
  destruct (Z.ltb_spec (2 ^ 63) (if 0 <? f then x * z + w else x * z)); [done|].
  injection Hp as <- _. split; [|done]. destruct (0 <? f); nia.
Qed.

Lemma leadingFraction_length x scale o s :
  (String.length (leadingFraction x scale o s).2 <= String.length s)%nat.
Proof.
  revert x scale o. induction s as [|c s IH]; intros x scale o; cbn [leadingFraction]; [done|].
  destruct (digit_value c) as [d|]; [|done]. cbn [String.length].
  repeat case_match; etrans; [apply IH|lia|apply IH|lia|apply IH|lia|apply IH|lia].
Qed.

Lemma take_unit_length s : (String.length (take_unit s).1 + String.length (take_unit s).2 = String.length s)%nat.
Proof.
  induction s as [|c s IH]; cbn [take_unit]; [done|]. destruct (in_unit c); [|done].
  destruct (take_unit s) as [u r]. simpl in *. lia.
Qed.

(** A part consumes text, so the fuel of [ParseDuration] suffices. *)
Lemma duration_part_length s v r : duration_part s = Some (v, r) → (String.length r < String.length s)%nat.
Proof.
  unfold duration_part. destruct s as [|c s]; [done|]. case_match; [done|]. intros Hp. inv_bind Hp.
  destruct p as [x r0]. apply leadingInt_length in Hrun.
  destruct (match r0 with EmptyString => _ | _ => _ end) as [[[f scale] r1] post] eqn:Hr1.
  assert (String.length r1 <= String.length r0)%nat as Hle.
  { destruct r0 as [|d r0]; [by simplify_eq|]. destruct (Ascii.eqb d "."); [|by simplify_eq].
    pose proof (leadingFraction_length 0 (f64_of_Z 1) false r0). destruct (leadingFraction _ _ _ _) as [[f' sc'] r'].
    simplify_eq/=. lia. }
  clear Hr1. destruct (negb _ && _); [done|]. pose proof (take_unit_length r1) as Hu.
  destruct (take_unit r1) as [u r2]. inv_bind Hp. simpl in *.
  assert (String.length u ≠ 0)%nat by by destruct u.
  repeat (case_match; try done); simplify_eq; lia.
Qed.

Lemma duration_parts_fuel n m d s :
  (String.length s <= n)%nat → (String.length s <= m)%nat → duration_parts n d s = duration_parts m d s.
Proof.
  revert m d s. induction n as [|n IH]; intros [|m] d [|c s] Hn Hm; try done; try (simpl in *; lia).
  cbn [duration_parts]. destruct (duration_part (String c s)) as [[v r]|] eqn:Hp; [|done].
  apply duration_part_length in Hp. cbn [mbind option_bind]. case_match; [done|]. apply IH; simpl in *; lia.
Qed.

(** A parsed duration is an int64. *)
Lemma ParseDuration_int s d : ParseDuration s = Some d → is_int d.
Proof.
  assert (Hparts : ∀ fuel acc u v, 0 <= acc <= 2 ^ 63 → duration_parts fuel acc u = Some v → 0 <= v <= 2 ^ 63).
  { induction fuel as [|fuel IH]; intros acc u v Hacc; destruct u as [|c u]; cbn [duration_parts];
      try by intros [= <-]. intros Hp. inv_bind Hp. destruct p as [w r]. apply duration_part_range in Hrun.
    destruct (Z.ltb_spec (2 ^ 63) (acc + w)); [done|]. apply IH in Hp; [done|lia]. }
  unfold ParseDuration, is_int, MinInt64, MaxInt64. destruct (match s with EmptyString => _ | _ => _ end) as [neg u].
  case_bool_decide; [intros [= <-]; lia|]. case_bool_decide; [done|]. intros Hp. inv_bind Hp.
  apply Hparts in Hrun; [|lia]. destruct neg; [injection Hp as <-; lia|].
  destruct (Z.ltb_spec (2 ^ 63 - 1) z); [done|]. injection Hp as <-. lia.
Qed.
