(* ===== verification/SkipList.v ===== *)
(** * The skip list of [structure/zset/skiplist.go]: data and operations

    The nodes live in a heap [gmap loc float64ListNode]; a pointer is an
    [option loc], [None] being nil.  A computation is an [option]: [None] is a
    panic (nil dereference, index out of range) or an exhausted loop budget.
    The scores are [float64], the values strings, spans and ranks integers.
    The array of links of a node is the source's [optionalArray]: four inline
    slots and a block of 28 more that is allocated only for tall nodes. *)

From S2P Require Import Prelude GoFloat.
From Stdlib Require Import SpecFloat.

(** ** [oparry.go] *)

Abbreviation loc := nat.

Definition maxLevel : nat := 32.
Definition op1 : nat := 4.
Definition op2 : nat := maxLevel - op1.

Record listLevel := mkLevel { next : option loc; span : Z }.

Record optionalArray := mkArray { base : list listLevel; extra : option (list listLevel) }.

(** The zero values of Go. *)
Definition zeroLevel : listLevel := mkLevel None 0.
Definition zeroArray : optionalArray := mkArray (replicate op1 zeroLevel) None.

Module optionalArray.

Definition init (a : optionalArray) (level : nat) : optionalArray :=
  if bool_decide (op1 < level) then mkArray (base a) (Some (replicate op2 zeroLevel)) else a.

(** The slot that index [i] selects, and its replacement. *)
Definition slot (a : optionalArray) (i : nat) : option listLevel :=
  if bool_decide (i < op1) then base a !! i
  else e ← extra a; e !! (i - op1).

Definition set_slot (a : optionalArray) (i : nat) (f : listLevel → listLevel) : option optionalArray :=
  if bool_decide (i < op1) then
    c ← base a !! i; Some (mkArray (<[i := f c]> (base a)) (extra a))
  else
    e ← extra a; c ← e !! (i - op1); Some (mkArray (base a) (Some (<[i - op1 := f c]> e))).

Definition loadNext (a : optionalArray) (i : nat) : option (option loc) := next <$> slot a i.

Definition storeNext (a : optionalArray) (i : nat) (p : option loc) : option optionalArray :=
  set_slot a i (λ c, mkLevel p (span c)).

Definition loadSpan (a : optionalArray) (i : nat) : option Z := span <$> slot a i.

Definition storeSpan (a : optionalArray) (i : nat) (s : Z) : option optionalArray :=
  set_slot a i (λ c, mkLevel (next c) s).

End optionalArray.

(** ** Nodes *)

Record float64ListNode := mkNode {
  score : float64;
  value : string;
  prev : option loc;
  level : nat;
  oparr : optionalArray;
}.

Abbreviation heap := (gmap loc float64ListNode).

Definition newFloat64ListNode (s : float64) (v : string) (lv : nat) : float64ListNode :=
  mkNode s v None lv (optionalArray.init zeroArray lv).

Definition set_oparr (n : float64ListNode) (a : optionalArray) : float64ListNode :=
  mkNode (score n) (value n) (prev n) (level n) a.
Definition set_prev (n : float64ListNode) (p : option loc) : float64ListNode :=
  mkNode (score n) (value n) p (level n) (oparr n).
Definition set_score (n : float64ListNode) (s : float64) : float64ListNode :=
  mkNode s (value n) (prev n) (level n) (oparr n).

Definition lessThan (n : float64ListNode) (s : float64) (v : string) : bool :=
  if flt (score n) s then true
  else if feq (score n) s then String.ltb (value n) v
  else false.

Definition lessEqual (n : float64ListNode) (s : float64) (v : string) : bool :=
  if flt (score n) s then true
  else if feq (score n) s then String.leb (value n) v
  else false.

Definition equal (n : float64ListNode) (s : float64) (v : string) : bool :=
  String.eqb (value n) v && feq (score n) s.

(** The methods of a node, through a pointer to it. *)
Definition loadNext (h : heap) (x : loc) (i : nat) : option (option loc) :=
  n ← h !! x; optionalArray.loadNext (oparr n) i.

Definition storeNext (h : heap) (x : loc) (i : nat) (p : option loc) : option heap :=
  n ← h !! x; a ← optionalArray.storeNext (oparr n) i p; Some (<[x := set_oparr n a]> h).

Definition loadSpan (h : heap) (x : loc) (i : nat) : option Z :=
  n ← h !! x; optionalArray.loadSpan (oparr n) i.

Definition storeSpan (h : heap) (x : loc) (i : nat) (s : Z) : option heap :=
  n ← h !! x; a ← optionalArray.storeSpan (oparr n) i s; Some (<[x := set_oparr n a]> h).

Definition loadNextAndSpan (h : heap) (x : loc) (i : nat) : option (option loc * Z) :=
  p ← loadNext h x i; s ← loadSpan h x i; Some (p, s).

Definition storeNextAndSpan (h : heap) (x : loc) (i : nat) (p : option loc) (s : Z) : option heap :=
  h1 ← storeNext h x i p; storeSpan h1 x i s.

Definition storePrev (h : heap) (x : loc) (p : option loc) : option heap :=
  n ← h !! x; Some (<[x := set_prev n p]> h).

Definition storeScore (h : heap) (x : loc) (s : float64) : option heap :=
  n ← h !! x; Some (<[x := set_score n s]> h).

(** ** The list *)

Record float64List := mkList {
  mem : heap;
  header : loc;
  tail : option loc;
  llength : Z;
  highestLevel : nat;
}.

Definition set_mem (l : float64List) (h : heap) : float64List :=
  mkList h (header l) (tail l) (llength l) (highestLevel l).
Definition set_tail (l : float64List) (t : option loc) : float64List :=
  mkList (mem l) (header l) t (llength l) (highestLevel l).
Definition set_llength (l : float64List) (n : Z) : float64List :=
  mkList (mem l) (header l) (tail l) n (highestLevel l).
Definition set_highestLevel (l : float64List) (n : nat) : float64List :=
  mkList (mem l) (header l) (tail l) (llength l) n.

Definition newFloat64List : float64List :=
  mkList {[ 0%nat := newFloat64ListNode (f64_neg MaxFloat64) "__HEADER" maxLevel ]} 0 None 0 1.

(** The inner loop of every search: from node [x] of level [i], follow the
    forward pointers while the next node satisfies the loop's condition, which
    may look at the node and at the number of elements passed so far. *)
Fixpoint walk (fuel : nat) (h : heap) (i : nat) (cond : float64ListNode → Z → bool)
    (x : loc) (rank : Z) : option (loc * Z) :=
  match fuel with
  | O => None
  | S fuel' =>
      '(nxt, sp) ← loadNextAndSpan h x i;
      match nxt with
      | None => Some (x, rank)
      | Some y =>
          n ← h !! y;
          if cond n (rank + sp)%Z then walk fuel' h i cond y (rank + sp)%Z
          else Some (x, rank)
      end
  end.

(** A budget that no traversal of the nodes of [h] exceeds. *)
Definition budget (h : heap) : nat := S (size h).
#[global] Arguments budget : simpl never.

(** The outer loop: the levels [i-1], ..., [0] in turn, recording at each where
    the inner loop stopped (the arrays [update] and [rank], index 0 first). *)
Fixpoint descend (h : heap) (cond : float64ListNode → Z → bool) (i : nat) (x : loc) (rank : Z)
    (update : list (loc * Z)) : option (list (loc * Z)) :=
  match i with
  | O => Some update
  | S j =>
      '(y, r) ← walk (budget h) h j cond x rank;
      descend h cond j y r ((y, r) :: update)
  end.

Definition search (l : float64List) (cond : float64ListNode → Z → bool) : option (list (loc * Z)) :=
  descend (mem l) cond (highestLevel l) (header l) 0 [].

(** The draws are the successive results of [fastrand.Uint32n(1/probability)];
    [randomLevel] returns those it did not consume. *)
Fixpoint randomLevel_loop (level : nat) (draws : list Z) : option (nat * list Z) :=
  match draws with
  | [] => None
  | d :: draws' =>
      if (d =? 0)%Z then randomLevel_loop (S level) draws' else Some (level, draws')
  end.

Definition randomLevel (draws : list Z) : option (nat * list Z) :=
  '(level, draws') ← randomLevel_loop 1 draws;
  if bool_decide (maxLevel < level) then Some (maxLevel, draws') else Some (level, draws').

(** ** Insert *)

(** Create the levels [hl], ..., [lv - 1] of the header. *)
Definition raise_levels (l : float64List) (update : list (loc * Z)) (lv : nat)
    : option (float64List * list (loc * Z)) :=
  if bool_decide (highestLevel l < lv) then
    h ← for_range (highestLevel l) (lv - highestLevel l)
          (λ i h, storeSpan h (header l) i (llength l)) (mem l);
    Some (set_highestLevel (set_mem l h) lv,
          update ++ replicate (lv - highestLevel l) (header l, 0%Z))
  else Some (l, update).

(** Splice node [x] after [update[i]] on level [i]. *)
Definition link_level (update : list (loc * Z)) (rank0 : Z) (x : loc) (i : nat) (h : heap) : option heap :=
  '(u, r) ← update !! i;
  p ← loadNext h u i;
  h ← storeNext h x i p;
  h ← storeNext h u i (Some x);
  s ← loadSpan h u i;
  h ← storeSpan h x i (s - (rank0 - r))%Z;
  storeSpan h u i ((rank0 - r) + 1)%Z.

(** Increment the span of an untouched level. *)
Definition bump_level (update : list (loc * Z)) (i : nat) (h : heap) : option heap :=
  '(u, _) ← update !! i;
  s ← loadSpan h u i;
  storeSpan h u i (s + 1)%Z.

(** The successor of the new node [x] points back to it, or [x] is the tail. *)
Definition link_succ (l : float64List) (h : heap) (x : loc) : option float64List :=
  nxt ← loadNext h x 0;
  match nxt with
  | Some y => h ← storePrev h y (Some x); Some (set_mem l h)
  | None => Some (set_tail (set_mem l h) (Some x))
  end.

(** Thread the node [n], allocated at [x], into the list. *)
Definition insert_node (l : float64List) (update : list (loc * Z)) (lv : nat) (x : loc)
    (n : float64ListNode) : option float64List :=
  '(u0, rank0) ← update !! 0;
  h ← for_range 0 lv (link_level update rank0 x) (<[x := n]> (mem l));
  h ← for_range lv (highestLevel l - lv) (bump_level update) h;
  h ← (if bool_decide (u0 ≠ header l) then storePrev h x (Some u0) else Some h);
  l ← link_succ l h x;
  Some (set_llength l (llength l + 1)%Z).

Definition Insert (l : float64List) (draws : list Z) (s : float64) (v : string)
    : option (loc * float64List * list Z) :=
  update ← search l (λ n _, lessThan n s v);
  '(lv, draws') ← randomLevel draws;
  '(l, update) ← raise_levels l update lv;
  let x := fresh (dom (mem l)) in
  l ← insert_node l update lv x (newFloat64ListNode s v lv);
  Some (x, l, draws').

(** ** Rank *)

Fixpoint rank_loop (h : heap) (s : float64) (v : string) (i : nat) (x : loc) (rank : Z) : option Z :=
  match i with
  | O => Some 0%Z
  | S j =>
      '(y, r) ← walk (budget h) h j (λ n _, lessEqual n s v) x rank;
      n ← h !! y;
      if equal n s v then Some r else rank_loop h s v j y r
  end.

Definition Rank (l : float64List) (s : float64) (v : string) : option Z :=
  rank_loop (mem l) s v (highestLevel l) (header l) 0.

(** ** Deletion *)

(** Unlink [x] from level [i], or count it out of the span that jumps over it. *)
Definition unlink_level (x : loc) (update : list loc) (i : nat) (h : heap) : option heap :=
  u ← update !! i;
  p ← loadNext h u i;
  if bool_decide (p = Some x) then
    '(nxt, sp) ← loadNextAndSpan h x i;
    us ← loadSpan h u i;
    storeNextAndSpan h u i nxt (sp + (us - 1))%Z
  else
    us ← loadSpan h u i;
    storeSpan h u i (us - 1)%Z.

(** The successor takes over the back pointer, or the tail moves back. *)
Definition unlink_succ (l : float64List) (h : heap) (x : loc) : option float64List :=
  nxt ← loadNext h x 0;
  n ← h !! x;
  match nxt with
  | Some y => h ← storePrev h y (prev n); Some (set_mem l h)
  | None => Some (set_tail (set_mem l h) (prev n))
  end.

(** Drop the empty levels at the top; level 1 stays. *)
Fixpoint lower_levels (h : heap) (hdr : loc) (hl : nat) : option (heap * nat) :=
  match hl with
  | O => Some (h, O)
  | S m =>
      if bool_decide (m = 0) then Some (h, hl)
      else
        p ← loadNext h hdr m;
        match p with
        | None => h ← storeNextAndSpan h hdr m None 0; lower_levels h hdr m
        | Some _ => Some (h, hl)
        end
  end.

Definition deleteNode (l : float64List) (x : loc) (update : list loc) : option float64List :=
  h ← for_range 0 (highestLevel l) (unlink_level x update) (mem l);
  l ← unlink_succ l h x;
  '(h, hl) ← lower_levels (mem l) (header l) (highestLevel l);
  Some (set_llength (set_highestLevel (set_mem l h) hl) (llength l - 1)%Z).

Definition Delete (l : float64List) (s : float64) (v : string) : option (option loc * float64List) :=
  ur ← search l (λ n _, lessThan n s v);
  let update := ur.*1 in
  x ← update !! 0;
  p ← loadNext (mem l) x 0;
  match p with
  | None => Some (None, l)
  | Some y =>
      n ← mem l !! y;
      if equal n s v then
        l ← deleteNode l y update; Some (Some y, l)
      else Some (None, l)
  end.

Definition UpdateScore (l : float64List) (draws : list Z) (oldScore : float64) (v : string)
    (newScore : float64) : option (loc * float64List * list Z) :=
  ur ← search l (λ n _, lessThan n oldScore v);
  let update := ur.*1 in
  w ← update !! 0;
  p ← loadNext (mem l) w 0;
  x ← p;
  nxt ← loadNext (mem l) x 0;
  n ← mem l !! x;
  okp ← match prev n with
        | None => Some true
        | Some q => m ← mem l !! q; Some (flt (score m) newScore)
        end;
  okn ← match nxt with
        | None => Some true
        | Some q => m ← mem l !! q; Some (fgt (score m) newScore)
        end;
  if okp && okn then
    h ← storeScore (mem l) x newScore; Some (x, set_mem l h, draws)
  else
    l ← deleteNode l x update;
    Insert l draws newScore (value n).

(** ** Ranges *)

Record RangeOpt := mkOpt { ExcludeMin : bool; ExcludeMax : bool }.

Record Float64Node := mkFNode { Value : string; Score : float64 }.

Definition greaterThanMin (x min : float64) (ex : bool) : bool :=
  if ex then fgt x min else fge x min.

Definition lessThanMax (x max : float64) (ex : bool) : bool :=
  if ex then flt x max else fle x max.

(** The loop that deletes node after node from [x] while [more] holds of the
    node and of [traversed], the rank of the node. *)
Fixpoint delete_loop (fuel : nat) (more : float64ListNode → Z → bool) (l : float64List)
    (update : list loc) (x : option loc) (traversed : Z) (dict : gmap string float64)
    (removed : list Float64Node) : option (list Float64Node * float64List * gmap string float64) :=
  match fuel with
  | O => None
  | S fuel' =>
      match x with
      | None => Some (removed, l, dict)
      | Some y =>
          n ← mem l !! y;
          if more n traversed then
            nxt ← loadNext (mem l) y 0;
            l ← deleteNode l y update;
            n ← mem l !! y;
            delete_loop fuel' more l update nxt (traversed + 1) (delete (value n) dict)
              (removed ++ [mkFNode (value n) (score n)])
          else Some (removed, l, dict)
      end
  end.

Definition DeleteRangeByScore (l : float64List) (min max : float64) (opt : RangeOpt)
    (dict : gmap string float64) : option (list Float64Node * float64List * gmap string float64) :=
  ur ← search l (λ n _, negb (greaterThanMin (score n) min (ExcludeMin opt)));
  let update := ur.*1 in
  w ← update !! 0;
  x ← loadNext (mem l) w 0;
  delete_loop (budget (mem l)) (λ n _, lessThanMax (score n) max (ExcludeMax opt))
    l update x 0 dict [].

Definition DeleteRangeByRank (l : float64List) (start stop : Z) (dict : gmap string float64)
    : option (list Float64Node * float64List * gmap string float64) :=
  ur ← search l (λ _ r, r <? start)%Z;
  let update := ur.*1 in
  '(w, traversed) ← ur !! 0;
  x ← loadNext (mem l) w 0;
  delete_loop (budget (mem l)) (λ _ t, t <=? stop)%Z l update x (traversed + 1) dict [].

(** ** Positional and range lookups *)

Fixpoint byrank_loop (h : heap) (rank : Z) (i : nat) (x : loc) (traversed : Z) : option (option loc) :=
  match i with
  | O => Some None
  | S j =>
      '(y, t) ← walk (budget h) h j (λ _ r, r <=? rank)%Z x traversed;
      if (t =? rank)%Z then Some (Some y) else byrank_loop h rank j y t
  end.

Definition GetNodeByRank (l : float64List) (rank : Z) : option (option loc) :=
  if (rank <=? 0)%Z then Some None
  else byrank_loop (mem l) rank (highestLevel l) (header l) 0.

Definition IsInRange (l : float64List) (min max : float64) (opt : RangeOpt) : option bool :=
  if fgt min max || (feq min max && (ExcludeMin opt || ExcludeMax opt)) then Some false
  else
    match tail l with
    | None => Some false
    | Some t =>
        n ← mem l !! t;
        if negb (greaterThanMin (score n) min (ExcludeMin opt)) then Some false
        else
          p ← loadNext (mem l) (header l) 0;
          match p with
          | None => Some false
          | Some y =>
              m ← mem l !! y;
              Some (lessThanMax (score m) max (ExcludeMax opt))
          end
    end.

Definition FirstInRange (l : float64List) (min max : float64) (opt : RangeOpt) : option (option loc) :=
  b ← IsInRange l min max opt;
  if negb b then Some None
  else
    ur ← search l (λ n _, negb (greaterThanMin (score n) min (ExcludeMin opt)));
    '(w, _) ← ur !! 0;
    p ← loadNext (mem l) w 0;
    x ← p;
    n ← mem l !! x;
    if negb (lessThanMax (score n) max (ExcludeMax opt)) then Some None else Some (Some x).

Definition LastInRange (l : float64List) (min max : float64) (opt : RangeOpt) : option (option loc) :=
  b ← IsInRange l min max opt;
  if negb b then Some None
  else
    ur ← search l (λ n _, lessThanMax (score n) max (ExcludeMax opt));
    '(x, _) ← ur !! 0;
    n ← mem l !! x;
    if negb (greaterThanMin (score n) min (ExcludeMin opt)) then Some None else Some (Some x).
