(* ===== verification/SkipInv.v ===== *)
(** * The skip list: its invariant, and what its memory operations do

    The abstract content of a list is its [chain]: the header followed by the
    elements in order, each with its address, score, value and height.  [wf]
    says that the heap represents a chain: at every level the forward pointer
    of a node leads to the next node that is tall enough and its span counts
    the elements of that jump, the back pointers mirror level 0, the elements
    are strictly increasing and no score is NaN. *)

From S2P Require Import Prelude GoFloat SkipList.
From Stdlib Require Import SpecFloat.

(** ** Memory as cells and node fields *)

(** The link of node [x] at level [i], and the other fields of [x]. *)
Definition cell (h : heap) (x : loc) (i : nat) : option listLevel :=
  n ← h !! x; optionalArray.slot (oparr n) i.

Definition info (h : heap) (x : loc) : option (float64 * string * option loc * nat) :=
  n ← h !! x; Some (score n, value n, prev n, level n).

(** [h'] is [h] with one cell replaced. *)
Definition cell_upd (h h' : heap) (x : loc) (i : nat) (v : listLevel) : Prop :=
  (∀ y j, cell h' y j = if decide (y = x ∧ j = i) then Some v else cell h y j) ∧
  (∀ y, info h' y = info h y).

Lemma slot_set_slot (a : optionalArray) i c f :
  optionalArray.slot a i = Some c →
  ∃ a', optionalArray.set_slot a i f = Some a' ∧
    ∀ j, optionalArray.slot a' j = if decide (j = i) then Some (f c) else optionalArray.slot a j.
Proof.
  unfold optionalArray.slot, optionalArray.set_slot. intros Hc.
  case_bool_decide as Hi; [|destruct (extra a) as [e|] eqn:He; simpl in *; [|done]].
  - rewrite Hc. simpl. eexists; split; [done|]. intros j. simpl.
    apply lookup_lt_Some in Hc as Hl. repeat case_bool_decide; case_decide; subst; try done; try lia.
    + by rewrite list_lookup_insert_eq.
    + by rewrite list_lookup_insert_ne.
  - rewrite Hc. simpl. eexists; split; [done|]. intros j. simpl.
    apply lookup_lt_Some in Hc as Hl. repeat case_bool_decide; case_decide; subst; try done; try lia.
    + by rewrite list_lookup_insert_eq.
    + rewrite list_lookup_insert_ne by lia. done.
Qed.

Lemma cell_Some (h : heap) x i c :
  cell h x i = Some c → ∃ n, h !! x = Some n ∧ optionalArray.slot (oparr n) i = Some c.
Proof. unfold cell. intros H. inv_bind H. eauto. Qed.

Lemma set_oparr_upd (h : heap) x n a i c :
  h !! x = Some n →
  (∀ j, optionalArray.slot a j = if decide (j = i) then Some c else optionalArray.slot (oparr n) j) →
  cell_upd h (<[x := set_oparr n a]> h) x i c.
Proof.
  intros Hx Ha. split.
  - intros y j. unfold cell. destruct (decide (y = x)) as [->|Hy].
    + rewrite lookup_insert_eq, Hx. simpl. rewrite Ha.
      destruct (decide (j = i)) as [->|]; [by rewrite decide_True|].
      rewrite decide_False; [done|]. by intros [_ ?].
    + rewrite lookup_insert_ne by done. rewrite decide_False; [done|]. by intros [? _].
  - intros y. unfold info. destruct (decide (y = x)) as [->|Hy].
    + by rewrite lookup_insert_eq, Hx.
    + by rewrite lookup_insert_ne.
Qed.

Lemma loadNext_cell (h : heap) x i c : cell h x i = Some c → loadNext h x i = Some (next c).
Proof.
  intros (n & Hn & Hs)%cell_Some. unfold loadNext, optionalArray.loadNext.
  by rewrite Hn; simpl; rewrite Hs.
Qed.

Lemma loadSpan_cell (h : heap) x i c : cell h x i = Some c → loadSpan h x i = Some (span c).
Proof.
  intros (n & Hn & Hs)%cell_Some. unfold loadSpan, optionalArray.loadSpan.
  by rewrite Hn; simpl; rewrite Hs.
Qed.

Lemma loadNextAndSpan_cell (h : heap) x i c :
  cell h x i = Some c → loadNextAndSpan h x i = Some (next c, span c).
Proof.
  intros H. unfold loadNextAndSpan.
  by rewrite (loadNext_cell _ _ _ _ H); simpl; rewrite (loadSpan_cell _ _ _ _ H).
Qed.

Lemma storeNext_cell (h : heap) x i c p :
  cell h x i = Some c →
  ∃ h', storeNext h x i p = Some h' ∧ cell_upd h h' x i (mkLevel p (span c)).
Proof.
  intros (n & Hn & Hs)%cell_Some. unfold storeNext, optionalArray.storeNext. rewrite Hn. simpl.
  destruct (slot_set_slot _ i c (λ c, mkLevel p (span c)) Hs) as (a & -> & Ha). simpl.
  eauto using set_oparr_upd.
Qed.

Lemma storeSpan_cell (h : heap) x i c s :
  cell h x i = Some c →
  ∃ h', storeSpan h x i s = Some h' ∧ cell_upd h h' x i (mkLevel (next c) s).
Proof.
  intros (n & Hn & Hs)%cell_Some. unfold storeSpan, optionalArray.storeSpan. rewrite Hn. simpl.
  destruct (slot_set_slot _ i c (λ c, mkLevel (next c) s) Hs) as (a & -> & Ha). simpl.
  eauto using set_oparr_upd.
Qed.

Lemma cell_upd_eq h h' x i v : cell_upd h h' x i v → cell h' x i = Some v.
Proof. intros [H _]. rewrite H. by rewrite decide_True. Qed.

Lemma cell_upd_ne h h' x i v y j :
  cell_upd h h' x i v → ¬ (y = x ∧ j = i) → cell h' y j = cell h y j.
Proof. intros [H _] Hn. rewrite H. by rewrite decide_False. Qed.

Lemma cell_upd_trans h h1 h2 x i v w :
  cell_upd h h1 x i v → cell_upd h1 h2 x i w → cell_upd h h2 x i w.
Proof.
  intros [H1 I1] [H2 I2]. split; intros; [|by rewrite I2, I1].
  rewrite H2. case_decide; [done|]. rewrite H1. by rewrite decide_False.
Qed.

Lemma storeNextAndSpan_cell (h : heap) x i c p s :
  cell h x i = Some c →
  ∃ h', storeNextAndSpan h x i p s = Some h' ∧ cell_upd h h' x i (mkLevel p s).
Proof.
  intros H. unfold storeNextAndSpan.
  destruct (storeNext_cell _ _ _ _ p H) as (h1 & -> & U1). simpl.
  destruct (storeSpan_cell h1 x i (mkLevel p (span c)) s) as (h2 & -> & U2).
  { by eapply cell_upd_eq. }
  eexists. split; [done|]. by eapply cell_upd_trans.
Qed.

Lemma storePrev_info (h : heap) x s v q lv p :
  info h x = Some (s, v, q, lv) →
  ∃ h', storePrev h x p = Some h' ∧ (∀ y j, cell h' y j = cell h y j) ∧
    ∀ y, info h' y = if decide (y = x) then Some (s, v, p, lv) else info h y.
Proof.
  unfold info, storePrev. intros H. inv_bind H. simplify_eq. rename f into n. simpl.
  eexists; split; [done|]. split.
  - intros y j. unfold cell. destruct (decide (y = x)) as [->|].
    + by rewrite lookup_insert_eq, Hrun.
    + by rewrite lookup_insert_ne.
  - intros y. case_decide; subst; [by rewrite lookup_insert_eq|by rewrite lookup_insert_ne].
Qed.

Lemma storeScore_info (h : heap) x s v q lv s' :
  info h x = Some (s, v, q, lv) →
  ∃ h', storeScore h x s' = Some h' ∧ (∀ y j, cell h' y j = cell h y j) ∧
    ∀ y, info h' y = if decide (y = x) then Some (s', v, q, lv) else info h y.
Proof.
  unfold info, storeScore. intros H. inv_bind H. simplify_eq. rename f into n. simpl.
  eexists; split; [done|]. split.
  - intros y j. unfold cell. destruct (decide (y = x)) as [->|].
    + by rewrite lookup_insert_eq, Hrun.
    + by rewrite lookup_insert_ne.
  - intros y. case_decide; subst; [by rewrite lookup_insert_eq|by rewrite lookup_insert_ne].
Qed.

Lemma info_node (h : heap) x s v q lv :
  info h x = Some (s, v, q, lv) →
  ∃ n, h !! x = Some n ∧ score n = s ∧ value n = v ∧ prev n = q ∧ level n = lv.
Proof. unfold info. intros H. inv_bind H. simplify_eq. eexists. done. Qed.

(** ** Loops over the levels

    A loop whose body at level [i] turns [A i] into [B i] and changes nothing
    but the cells of level [i]. *)

Definition level_frame (i : nat) (h h' : heap) : Prop :=
  (∀ y j, j ≠ i → cell h' y j = cell h y j) ∧ (∀ y, info h' y = info h y).

Definition level_local (P : nat → heap → Prop) : Prop :=
  ∀ i h h', (∀ y, cell h' y i = cell h y i) → P i h → P i h'.

Lemma level_loop (A B : nat → heap → Prop) (f : nat → heap → option heap) (i n : nat) (h : heap) :
  level_local A → level_local B →
  (∀ j, i <= j < i + n → A j h) →
  (∀ j g, i <= j < i + n → (∀ y, info g y = info h y) → A j g →
     ∃ g', f j g = Some g' ∧ B j g' ∧ level_frame j g g') →
  ∃ h', for_range i n f h = Some h' ∧
    (∀ j, i <= j < i + n → B j h') ∧
    (∀ y j, ¬ (i <= j < i + n) → cell h' y j = cell h y j) ∧ (∀ y, info h' y = info h y).
Proof.
  intros LA LB HA Hf.
  destruct (for_range_inv (λ k g,
    (∀ j, i <= j < k → B j g) ∧ (∀ j, k <= j < i + n → A j g) ∧
    (∀ y j, ¬ (i <= j < k) → cell g y j = cell h y j) ∧ (∀ y, info g y = info h y)) f n i h)
    as (h' & Hr & HB & _ & HC & HI).
  - split_and!; intros; [lia|by apply HA|done|done].
  - intros k g Hk (HB & HA' & HC & HI).
    destruct (Hf k g Hk HI (HA' k ltac:(lia))) as (g' & Hg & HBk & FC & FI).
    exists g'. split; [done|]. split_and!; intros.
    + destruct (decide (j = k)) as [->|]; [done|].
      eapply LB; [|apply (HB j); lia]. intros. by apply FC.
    + eapply LA; [|apply (HA' j); lia]. intros. apply FC. lia.
    + rewrite FC by lia. apply HC. lia.
    + by rewrite FI.
  - exists h'. split_and!; try done.
Qed.

(** ** Chains *)

Record aelt := mkElt { a_loc : loc; a_score : float64; a_value : string; a_lvl : nat }.

(** Height and address at a position of a chain (0 and none out of range). *)
Definition lv (c : list aelt) (p : nat) : nat := from_option a_lvl 0 (c !! p).
Definition al (c : list aelt) (p : nat) : option loc := a_loc <$> c !! p.

(** [q] is the position after [p] at level [i]; the length of the chain when
    there is none. *)
Definition is_next (c : list aelt) (i p q : nat) : Prop :=
  p < q <= length c ∧ (∀ r, p < r < q → lv c r <= i) ∧ (q < length c → i < lv c q).

(** [u] is the last position before [k] that is present at level [i]. *)
Definition is_pred (c : list aelt) (i k u : nat) : Prop :=
  u < k ∧ i < lv c u ∧ (∀ r, u < r < k → lv c r <= i).

(** The link from position [p] to position [q]. *)
Definition link (c : list aelt) (p q : nat) : listLevel :=
  mkLevel (al c q) (Z.of_nat (q `min` (length c - 1)) - Z.of_nat p).

Definition level_ok (c : list aelt) (i : nat) (h : heap) : Prop :=
  ∀ p e, c !! p = Some e → i < a_lvl e →
    ∃ q, is_next c i p q ∧ cell h (a_loc e) i = Some (link c p q).

Lemma level_ok_local c : level_local (level_ok c).
Proof.
  intros i h h' Hc H p e Hp Hi. destruct (H p e Hp Hi) as (q & ? & ?).
  exists q. split; [done|]. by rewrite Hc.
Qed.

Lemma lv_lookup c p e : c !! p = Some e → lv c p = a_lvl e.
Proof. unfold lv. by intros ->. Qed.

Lemma al_lookup c p e : c !! p = Some e → al c p = Some (a_loc e).
Proof. unfold al. by intros ->. Qed.

Lemma lv_pos_lt c p i : i < lv c p → p < length c.
Proof.
  unfold lv. destruct (c !! p) eqn:E; simpl; [|lia]. intros _. by eapply lookup_lt_Some.
Qed.

Lemma al_ge c p : length c <= p → al c p = None.
Proof. intros H. unfold al. by rewrite lookup_ge_None_2. Qed.

Lemma al_inj c p q x : NoDup (a_loc <$> c) → al c p = Some x → al c q = Some x → p = q.
Proof.
  intros Hnd Hp Hq. eapply NoDup_lookup; [done| |];
    rewrite list_lookup_fmap; [apply Hp|apply Hq].
Qed.

Lemma lv_list_add k e c r :
  k <= length c →
  lv (list_add k e c) r =
    if decide (r < k) then lv c r else if decide (r = k) then a_lvl e else lv c (r - 1).
Proof. intros Hk. unfold lv. rewrite list_add_lookup by done. by repeat case_decide. Qed.

Lemma al_list_add k e c r :
  k <= length c →
  al (list_add k e c) r =
    if decide (r < k) then al c r else if decide (r = k) then Some (a_loc e) else al c (r - 1).
Proof. intros Hk. unfold al. rewrite list_add_lookup by done. by repeat case_decide. Qed.

Lemma lv_delete k (c : list aelt) r :
  lv (delete k c) r = if decide (r < k) then lv c r else lv c (S r).
Proof. unfold lv. rewrite list_delete_lookup. by case_decide. Qed.

Lemma al_delete k (c : list aelt) r :
  al (delete k c) r = if decide (r < k) then al c r else al c (S r).
Proof. unfold al. rewrite list_delete_lookup. by case_decide. Qed.

(** The predecessor of [k] jumps to [k] or beyond; every other node at the
    level stays on its side. *)
Lemma is_next_pred c i k u q : k <= length c → is_pred c i k u → is_next c i u q → k <= q.
Proof.
  intros Hk (Hu & Hlu & Hp) (Hq & Hb & Hn).
  destruct (decide (q < k)) as [Hlt|]; [|lia].
  specialize (Hp q ltac:(lia)). specialize (Hn ltac:(lia)). lia.
Qed.

Lemma is_next_before c i k u p q :
  is_pred c i k u → i < lv c p → p < k → p ≠ u → is_next c i p q → q <= u.
Proof.
  intros (Hu & Hlu & Hp) Hlp Hpk Hne (Hq & Hb & Hn).
  destruct (decide (u < p)) as [|]; [specialize (Hp p ltac:(lia)); lia|].
  destruct (decide (q <= u)); [done|]. specialize (Hb u ltac:(lia)). lia.
Qed.

(** *** Adding an element at position [k] *)

Section add.
Context (c : list aelt) (k : nat) (e : aelt) (i : nat).
Context (Hk : k <= length c).
Let c' := list_add k e c.

Lemma link_add_before p q : q < k → link c' p q = link c p q.
Proof.
  intros Hq. unfold link, c'. rewrite list_add_length, al_list_add by done.
  rewrite decide_True by done. f_equal. lia.
Qed.

Lemma link_add_after p q : k <= p → p < q <= length c → link c' (S p) (S q) = link c p q.
Proof.
  intros Hp Hq. unfold link, c'. rewrite list_add_length, al_list_add by done.
  rewrite !decide_False by lia. replace (S q - 1) with q by lia. f_equal. lia.
Qed.

Lemma is_next_add_before p q : q < k → is_next c i p q → is_next c' i p q.
Proof.
  unfold is_next, c'. rewrite list_add_length. intros Hq (H1 & H2 & H3).
  split_and!; [lia|lia| |].
  - intros r Hr. rewrite lv_list_add, decide_True by lia. apply H2. lia.
  - intros _. rewrite lv_list_add, decide_True by lia. apply H3. lia.
Qed.

Lemma is_next_add_after p q : k <= p → is_next c i p q → is_next c' i (S p) (S q).
Proof.
  unfold is_next, c'. rewrite list_add_length. intros Hp (H1 & H2 & H3).
  split_and!; [lia|lia| |].
  - intros r Hr. rewrite lv_list_add, !decide_False by lia. apply H2. lia.
  - intros Hq. rewrite lv_list_add, !decide_False by lia.
    replace (S q - 1) with q by lia. apply H3. lia.
Qed.

Lemma is_next_add_pred u : is_pred c i k u → i < a_lvl e → is_next c' i u k.
Proof.
  unfold is_next, c'. rewrite list_add_length. intros (H1 & H2 & H3) He.
  split_and!; [lia|lia| |].
  - intros r Hr. rewrite lv_list_add, decide_True by lia. apply H3. lia.
  - intros _. rewrite lv_list_add, decide_False, decide_True by lia. done.
Qed.

Lemma is_next_add_new u q :
  is_pred c i k u → is_next c i u q → is_next c' i k (S q).
Proof.
  intros Hp Hn. pose proof (is_next_pred _ _ _ _ _ Hk Hp Hn) as Hkq.
  destruct Hp as (? & ? & ?), Hn as (? & Hb & Hl).
  unfold is_next, c'. rewrite list_add_length. split_and!; [lia|lia| |].
  - intros r Hr. rewrite lv_list_add, !decide_False by lia. apply Hb. lia.
  - intros Hq. rewrite lv_list_add, !decide_False by lia.
    replace (S q - 1) with q by lia. apply Hl. lia.
Qed.

Lemma is_next_add_skip u q :
  is_pred c i k u → is_next c i u q → a_lvl e <= i → is_next c' i u (S q).
Proof.
  intros Hp Hn He. pose proof (is_next_pred _ _ _ _ _ Hk Hp Hn) as Hkq.
  destruct Hp as (? & ? & ?), Hn as (? & Hb & Hl).
  unfold is_next, c'. rewrite list_add_length. split_and!; [lia|lia| |].
  - intros r Hr. rewrite lv_list_add by lia. repeat case_decide; [apply Hb; lia|lia|apply Hb; lia].
  - intros Hq. rewrite lv_list_add, !decide_False by lia.
    replace (S q - 1) with q by lia. apply Hl. lia.
Qed.
End add.

(** *** Deleting the element at position [k] *)

Section del.
Context (c : list aelt) (k : nat) (i : nat).
Context (Hk : 0 < k < length c).
Let c' := delete k c.

Lemma length_del : length c' = length c - 1.
Proof. unfold c'. apply length_delete. apply lookup_lt_is_Some. lia. Qed.

Lemma link_del_before p q : q < k → link c' p q = link c p q.
Proof.
  intros Hq. unfold link. rewrite length_del. unfold c'. rewrite al_delete.
  rewrite decide_True by done. f_equal. lia.
Qed.

Lemma link_del_after p q : k < p → p < q → link c' (p - 1) (q - 1) = link c p q.
Proof.
  intros Hp Hq. unfold link. rewrite length_del. unfold c'. rewrite al_delete.
  rewrite decide_False by lia. replace (S (q - 1)) with q by lia. f_equal. lia.
Qed.

Lemma is_next_del_before p q : q < k → is_next c i p q → is_next c' i p q.
Proof.
  unfold is_next. rewrite length_del. unfold c'. intros Hq (H1 & H2 & H3).
  split_and!; [lia|lia| |].
  - intros r Hr. rewrite lv_delete, decide_True by lia. apply H2. lia.
  - intros _. rewrite lv_delete, decide_True by lia. apply H3. lia.
Qed.

Lemma is_next_del_after p q : k < p → is_next c i p q → is_next c' i (p - 1) (q - 1).
Proof.
  unfold is_next. rewrite length_del. unfold c'. intros Hp (H1 & H2 & H3).
  split_and!; [lia|lia| |].
  - intros r Hr. rewrite lv_delete, decide_False by lia. apply H2. lia.
  - intros Hq. rewrite lv_delete, decide_False by lia.
    replace (S (q - 1)) with q by lia. apply H3. lia.
Qed.

(** The predecessor inherits the jump of the deleted element, or keeps its
    own when the element is not on the level. *)
Lemma is_next_del_pred u q q' :
  is_pred c i k u → is_next c i u q → i < lv c k → is_next c i k q' →
  q = k ∧ is_next c' i u (q' - 1).
Proof.
  intros Hp Hn Hl Hn'. pose proof (is_next_pred c i k u q ltac:(lia) Hp Hn) as Hkq.
  destruct Hp as (Hu & _ & Hpb), Hn as (Hq & Hb & Hnl), Hn' as (Hq' & Hb' & Hnl').
  assert (q = k) as ->.
  { destruct (decide (q = k)); [done|]. specialize (Hb k ltac:(lia)). lia. }
  split; [done|]. unfold is_next. rewrite length_del. unfold c'. split_and!; [lia|lia| |].
  - intros r Hr. rewrite lv_delete. case_decide; [apply Hpb; lia|apply Hb'; lia].
  - intros Hq1. rewrite lv_delete, decide_False by lia.
    replace (S (q' - 1)) with q' by lia. apply Hnl'. lia.
Qed.

Lemma is_next_del_skip u q :
  is_pred c i k u → is_next c i u q → lv c k <= i → k < q ∧ is_next c' i u (q - 1).
Proof.
  intros Hp Hn Hl. pose proof (is_next_pred c i k u q ltac:(lia) Hp Hn) as Hkq.
  destruct Hp as (Hu & _ & Hpb), Hn as (Hq & Hb & Hnl).
  assert (q ≠ k) by (intros ->; specialize (Hnl ltac:(lia)); lia).
  split; [lia|]. unfold is_next. rewrite length_del. unfold c'. split_and!; [lia|lia| |].
  - intros r Hr. rewrite lv_delete. case_decide; apply Hb; lia.
  - intros Hq1. rewrite lv_delete, decide_False by lia.
    replace (S (q - 1)) with q by lia. apply Hnl. lia.
Qed.

Lemma is_pred_del u : is_pred c i k u → is_pred c' i k u.
Proof.
  unfold is_pred, c'. intros (H1 & H2 & H3). split_and!; [done| |].
  - by rewrite lv_delete, decide_True.
  - intros r Hr. rewrite lv_delete, decide_True by lia. by apply H3.
Qed.
End del.

(** ** The bodies of the level loops *)

Lemma NoDup_ne c p q e f :
  NoDup (a_loc <$> c) → c !! p = Some e → c !! q = Some f → p ≠ q → a_loc e ≠ a_loc f.
Proof.
  intros Hnd He Hf Hne Heq. apply Hne. eapply (al_inj c p q (a_loc e)); [done| |].
  - by apply al_lookup.
  - rewrite Heq. by apply al_lookup.
Qed.

Ltac upd_tac :=
  repeat match goal with
  | U : cell_upd ?h ?h' ?x ?i _ |- context [cell ?h' ?x ?i] => rewrite (cell_upd_eq _ _ _ _ _ U)
  | U : cell_upd ?h ?h' _ _ _ |- context [cell ?h' _ _] =>
      rewrite (cell_upd_ne _ _ _ _ _ _ _ U) by (intros [? ?]; (congruence || lia))
  end.

(** A write to the predecessor's cell (and to the new node's) turns a level of
    the old chain into a level of the new one: the other nodes keep their
    links. *)
Lemma level_ok_add c k e i h h' u eu :
  1 <= k <= length c → level_ok c i h → c !! u = Some eu → is_pred c i k u →
  (∀ p f, c !! p = Some f → p ≠ u → cell h' (a_loc f) i = cell h (a_loc f) i) →
  (∃ q, is_next (list_add k e c) i u q ∧
        cell h' (a_loc eu) i = Some (link (list_add k e c) u q)) →
  (i < a_lvl e → ∃ q, is_next (list_add k e c) i k q ∧
        cell h' (a_loc e) i = Some (link (list_add k e c) k q)) →
  level_ok (list_add k e c) i h'.
Proof.
  intros Hk Hok Hu Hp Hsame Hcu Hce p f Hpf Hif. pose proof Hp as (Huk & _).
  rewrite list_add_lookup in Hpf by lia. repeat case_decide; simplify_eq.
  - destruct (decide (p = u)) as [->|Hpu]; [by simplify_eq|].
    destruct (Hok p f Hpf Hif) as (q0 & Hq0 & Hc0).
    pose proof (is_next_before c i k u p q0 Hp) as Hq0u.
    rewrite (lv_lookup _ _ _ Hpf) in Hq0u. specialize (Hq0u Hif ltac:(lia) Hpu Hq0).
    exists q0. split; [by apply is_next_add_before; [lia|lia|]|].
    rewrite (Hsame p) by done. by rewrite link_add_before by lia.
  - by apply Hce.
  - destruct (Hok (p - 1) f Hpf Hif) as (q0 & Hq0 & Hc0).
    exists (S q0). replace p with (S (p - 1)) by lia.
    split; [by apply is_next_add_after; [lia|lia|]|].
    rewrite (Hsame (p - 1)) by (done || lia). pose proof Hq0 as ((? & ?) & _).
    rewrite link_add_after; [done|lia..].
Qed.

Lemma level_ok_del c k i h h' u eu :
  0 < k < length c → level_ok c i h → c !! u = Some eu → is_pred c i k u →
  (∀ p f, c !! p = Some f → p ≠ u → cell h' (a_loc f) i = cell h (a_loc f) i) →
  (∃ q, is_next (delete k c) i u q ∧ cell h' (a_loc eu) i = Some (link (delete k c) u q)) →
  level_ok (delete k c) i h'.
Proof.
  intros Hk Hok Hu Hp Hsame Hcu p f Hpf Hif. pose proof Hp as (Huk & _).
  rewrite list_delete_lookup in Hpf. case_decide.
  - destruct (decide (p = u)) as [->|Hpu]; [by simplify_eq|].
    destruct (Hok p f Hpf Hif) as (q0 & Hq0 & Hc0).
    pose proof (is_next_before c i k u p q0 Hp) as Hq0u.
    rewrite (lv_lookup _ _ _ Hpf) in Hq0u. specialize (Hq0u Hif ltac:(lia) Hpu Hq0).
    exists q0. split; [by apply is_next_del_before; [lia|lia|]|].
    rewrite (Hsame p) by done. by rewrite link_del_before by lia.
  - destruct (Hok (S p) f Hpf Hif) as (q0 & Hq0 & Hc0).
    exists (q0 - 1). replace p with (S p - 1) by lia.
    split; [by apply is_next_del_after; [lia|lia|]|].
    rewrite (Hsame (S p)) by (done || lia). pose proof Hq0 as ((? & ?) & _).
    rewrite link_del_after; [done|lia..].
Qed.

(** [link_level] writes two cells: the new node takes over the jump of its
    predecessor, which now leads to the new node. *)
Lemma link_level_run c k e i h ur u eu cx q :
  1 <= k <= length c → a_loc e ≠ a_loc eu →
  cell h (a_loc e) i = Some cx → cell h (a_loc eu) i = Some (link c u q) →
  is_pred c i k u → is_next c i u q →
  ur !! i = Some (a_loc eu, Z.of_nat u) →
  ∃ h', link_level ur (Z.of_nat k - 1) (a_loc e) i h = Some h' ∧
    (∀ y, info h' y = info h y) ∧
    (∀ y j, ¬ (y = a_loc e ∧ j = i) → ¬ (y = a_loc eu ∧ j = i) → cell h' y j = cell h y j) ∧
    cell h' (a_loc e) i = Some (link (list_add k e c) k (S q)) ∧
    cell h' (a_loc eu) i = Some (link (list_add k e c) u k).
Proof.
  intros Hk Hxu Hcx Hcu Hp Hq Hur. pose proof Hp as (Huk & _).
  pose proof (is_next_pred c i k u q ltac:(lia) Hp Hq) as Hkq. pose proof Hq as ((_ & Hql) & _).
  unfold link_level. rewrite Hur. simpl. rewrite (loadNext_cell _ _ _ _ Hcu). simpl.
  destruct (storeNext_cell h (a_loc e) i cx (al c q) Hcx) as (h1 & -> & U1). simpl.
  destruct (storeNext_cell h1 (a_loc eu) i (link c u q) (Some (a_loc e))) as (h2 & -> & U2).
  { by upd_tac. }
  simpl. erewrite loadSpan_cell by (by eapply cell_upd_eq). simpl.
  destruct (storeSpan_cell h2 (a_loc e) i (mkLevel (al c q) (span cx))
    (span (link c u q) - (Z.of_nat k - 1 - Z.of_nat u))) as (h3 & Hs3 & U3); [by upd_tac|].
  simpl in Hs3. rewrite Hs3. simpl.
  destruct (storeSpan_cell h3 (a_loc eu) i (mkLevel (Some (a_loc e)) (span (link c u q)))
    (Z.of_nat k - 1 - Z.of_nat u + 1)) as (h4 & -> & U4); [by upd_tac|].
  exists h4. split; [done|]. cbn [next span] in *. split_and!.
  - intros y. by rewrite (proj2 U4), (proj2 U3), (proj2 U2), (proj2 U1).
  - intros y j H1 H2. rewrite (cell_upd_ne _ _ _ _ _ _ _ U4) by done.
    rewrite (cell_upd_ne _ _ _ _ _ _ _ U3) by done.
    rewrite (cell_upd_ne _ _ _ _ _ _ _ U2) by done. by eapply cell_upd_ne.
  - upd_tac. f_equal. unfold link. cbn [span]. rewrite list_add_length, al_list_add by lia.
    rewrite !decide_False by lia. replace (S q - 1) with q by lia. f_equal. lia.
  - upd_tac. f_equal. unfold link. rewrite list_add_length, al_list_add by lia.
    rewrite decide_False, decide_True by lia. f_equal. lia.
Qed.

Lemma link_level_ok c k e i h ur u eu cx :
  1 <= k <= length c →
  NoDup (a_loc <$> c) → (∀ p f, c !! p = Some f → a_loc f ≠ a_loc e) →
  level_ok c i h → cell h (a_loc e) i = Some cx → i < a_lvl e →
  ur !! i = Some (a_loc eu, Z.of_nat u) → c !! u = Some eu → is_pred c i k u →
  ∃ h', link_level ur (Z.of_nat k - 1) (a_loc e) i h = Some h' ∧
    level_ok (list_add k e c) i h' ∧ level_frame i h h'.
Proof.
  intros Hk Hnd Hfr Hok Hcx He Hur Hu Hp.
  pose proof Hp as (Huk & Hlu & _). rewrite (lv_lookup _ _ _ Hu) in Hlu.
  destruct (Hok u eu Hu Hlu) as (q & Hq & Hcu).
  assert (Hxu : a_loc e ≠ a_loc eu) by (intros ?; by apply (Hfr u eu)).
  destruct (link_level_run c k e i h ur u eu cx q) as (h' & Hrun & HI & HC & Hce & Hcu'); try done.
  exists h'. split; [done|]. split; cycle 1.
  { split; [|done]. intros y j Hj. apply HC; intros [_ ?]; done. }
  eapply level_ok_add; [done..| | |].
  - intros p f Hpf Hpu. apply HC; intros [Heq _].
    + by apply (Hfr p f).
    + by eapply (NoDup_ne c p u f eu).
  - exists k. split; [by apply is_next_add_pred; [lia| |]|done].
  - intros _. exists (S q). split; [by eapply is_next_add_new; [lia| |]|done].
Qed.

Lemma bump_level_ok c k e i h ur u eu r :
  1 <= k <= length c → NoDup (a_loc <$> c) →
  level_ok c i h → a_lvl e <= i →
  ur !! i = Some (a_loc eu, r) → c !! u = Some eu → is_pred c i k u →
  ∃ h', bump_level ur i h = Some h' ∧ level_ok (list_add k e c) i h' ∧ level_frame i h h'.
Proof.
  intros Hk Hnd Hok He Hur Hu Hp.
  pose proof Hp as (Huk & Hlu & _). rewrite (lv_lookup _ _ _ Hu) in Hlu.
  destruct (Hok u eu Hu Hlu) as (q & Hq & Hcu).
  unfold bump_level. rewrite Hur. simpl. rewrite (loadSpan_cell _ _ _ _ Hcu). simpl.
  destruct (storeSpan_cell h (a_loc eu) i (link c u q) (span (link c u q) + 1) Hcu)
    as (h1 & Hs & U1). simpl in Hs. rewrite Hs.
  exists h1. split; [done|]. split; cycle 1.
  { split; [|apply U1]. intros y j Hj. by upd_tac. }
  pose proof (is_next_pred c i k u q ltac:(lia) Hp Hq) as Hkq. pose proof Hq as ((_ & Hql) & _).
  eapply level_ok_add; [done..| | |lia].
  - intros p f Hpf Hpu. assert (a_loc f ≠ a_loc eu) by (by eapply NoDup_ne). by upd_tac.
  - exists (S q). split; [by eapply is_next_add_skip; [lia| | |]|].
    upd_tac. f_equal. unfold link. cbn [span next]. rewrite list_add_length, al_list_add by lia.
    rewrite !decide_False by lia. replace (S q - 1) with q by lia. f_equal. lia.
Qed.

(** [unlink_level] writes one cell, the predecessor's. *)
Lemma unlink_level_run c k ex i h ups u eu q :
  0 < k < length c → NoDup (a_loc <$> c) → c !! k = Some ex → level_ok c i h →
  ups !! i = Some (a_loc eu) → is_pred c i k u →
  is_next c i u q → cell h (a_loc eu) i = Some (link c u q) →
  ∃ h' q', unlink_level (a_loc ex) ups i h = Some h' ∧
    is_next (delete k c) i u q' ∧ cell_upd h h' (a_loc eu) i (link (delete k c) u q').
Proof.
  intros Hk Hnd Hx Hok Hur Hp Hq Hcu. pose proof Hq as ((? & ?) & _).
  unfold unlink_level. rewrite Hur. simpl. rewrite (loadNext_cell _ _ _ _ Hcu). simpl.
  destruct (decide (i < a_lvl ex)) as [Hi|Hi].
  - destruct (Hok k ex Hx Hi) as (qx & Hqx & Hcx).
    destruct (is_next_del_pred c k i Hk u q qx) as [-> Hn']; [done|done| |done|].
    { by rewrite (lv_lookup _ _ _ Hx). }
    rewrite bool_decide_eq_true_2 by (by apply al_lookup).
    rewrite (loadNextAndSpan_cell _ _ _ _ Hcx). simpl.
    rewrite (loadSpan_cell _ _ _ _ Hcu). simpl.
    destruct (storeNextAndSpan_cell h (a_loc eu) i _ (al c qx)
      (Z.of_nat (qx `min` (length c - 1)) - Z.of_nat k +
       (Z.of_nat (k `min` (length c - 1)) - Z.of_nat u - 1)) Hcu) as (h' & -> & U).
    exists h', (qx - 1). split; [done|]. split; [done|].
    eassert (link (delete k c) u (qx - 1) = _) as ->; [|exact U].
    pose proof Hqx as ((? & ?) & _).
    unfold link. rewrite length_del, al_delete, decide_False by lia.
    replace (S (qx - 1)) with qx by lia. f_equal. lia.
  - destruct (is_next_del_skip c k i Hk u q) as [Hkq Hn']; [done|done| |].
    { rewrite (lv_lookup _ _ _ Hx). lia. }
    rewrite bool_decide_eq_false_2; cycle 1.
    { intros Heq. assert (q = k); [|lia].
      eapply (al_inj c); [done|done|by apply al_lookup]. }
    rewrite (loadSpan_cell _ _ _ _ Hcu). simpl.
    destruct (storeSpan_cell h (a_loc eu) i _
      (Z.of_nat (q `min` (length c - 1)) - Z.of_nat u - 1) Hcu) as (h' & -> & U).
    exists h', (q - 1). split; [done|]. split; [done|].
    eassert (link (delete k c) u (q - 1) = _) as ->; [|exact U].
    unfold link. rewrite length_del, al_delete, decide_False by lia.
    replace (S (q - 1)) with q by lia. cbn [next]. f_equal. lia.
Qed.

Lemma unlink_level_ok c k ex i h ups u eu :
  0 < k < length c → NoDup (a_loc <$> c) → c !! k = Some ex →
  level_ok c i h →
  ups !! i = Some (a_loc eu) → c !! u = Some eu → is_pred c i k u →
  ∃ h', unlink_level (a_loc ex) ups i h = Some h' ∧
    level_ok (delete k c) i h' ∧ level_frame i h h' ∧
    cell h' (a_loc ex) i = cell h (a_loc ex) i.
Proof.
  intros Hk Hnd Hx Hok Hur Hu Hp.
  pose proof Hp as (Huk & Hlu & _). rewrite (lv_lookup _ _ _ Hu) in Hlu.
  destruct (Hok u eu Hu Hlu) as (q & Hq & Hcu).
  assert (Hxu : a_loc ex ≠ a_loc eu) by (eapply NoDup_ne; [done..|lia]).
  destruct (unlink_level_run c k ex i h ups u eu q) as (h' & q' & Hun & Hq' & U); try done.
  exists h'. split; [done|]. split_and!; cycle 1.
  { split; [|apply U]. intros y j Hj. by upd_tac. }
  { by upd_tac. }
  eapply level_ok_del; [done..| |].
  - intros p f Hpf Hpu. assert (a_loc f ≠ a_loc eu) by (by eapply NoDup_ne). by upd_tac.
  - exists q'. split; [done|]. by upd_tac.
Qed.

(** ** The representation invariant *)

Definition hdr_elt (x : loc) : aelt := mkElt x (f64_neg MaxFloat64) "__HEADER" maxLevel.

(** The back pointer of position [p]: nil at the first element. *)
Definition back (c : list aelt) (p : nat) : option loc :=
  if decide (p <= 1) then None else al c (p - 1).

Record rep (l : float64List) (c : list aelt) : Prop := {
  rep_hdr : c !! 0 = Some (hdr_elt (header l));
  rep_nodup : NoDup (a_loc <$> c);
  rep_info : ∀ p e, c !! p = Some e →
    info (mem l) (a_loc e) = Some (a_score e, a_value e, back c p, a_lvl e);
  rep_levels : ∀ i, i < highestLevel l → level_ok c i (mem l);
  rep_top : ∀ i, highestLevel l <= i < maxLevel →
    ∃ s, cell (mem l) (header l) i = Some (mkLevel None s);
  rep_hl : 1 <= highestLevel l <= maxLevel;
  rep_lvl : ∀ p e, c !! p = Some e → 0 < p → 1 <= a_lvl e <= highestLevel l;
  rep_tail : tail l = back c (length c);
  rep_len : llength l = (Z.of_nat (length c) - 1)%Z;
}.

(** Score first, value second. *)
Definition elt_lt (a b : float64 * string) : bool :=
  if flt a.1 b.1 then true else if feq a.1 b.1 then String.ltb a.2 b.2 else false.

Definition akey (e : aelt) : float64 * string := (a_score e, a_value e).

Record ordered (c : list aelt) : Prop := {
  ord_lt : ∀ p q e f, 0 < p < q → c !! p = Some e → c !! q = Some f →
    elt_lt (akey e) (akey f) = true;
  ord_nn : ∀ p e, 0 < p → c !! p = Some e → isNaN (a_score e) = false;
}.

Definition wf (l : float64List) (c : list aelt) : Prop := rep l c ∧ ordered c.

(** When every element is on level 0, so is the link to its successor. *)
Lemma level_0_cell c h p e :
  (∀ p e, c !! p = Some e → 0 < a_lvl e) → level_ok c 0 h → c !! p = Some e →
  cell h (a_loc e) 0 = Some (link c p (S p)).
Proof.
  intros Hpos Hok Hp. destruct (Hok p e Hp (Hpos _ _ Hp)) as (q & (Hq & Hb & _) & ->).
  assert (q = S p) as ->; [|done].
  destruct (decide (q = S p)); [done|]. specialize (Hb (S p) ltac:(lia)).
  destruct (lookup_lt_is_Some_2 c (S p) ltac:(lia)) as [f Hf].
  rewrite (lv_lookup _ _ _ Hf) in Hb. pose proof (Hpos _ _ Hf). lia.
Qed.

Section rep_facts.
Context (l : float64List) (c : list aelt) (R : rep l c).

Lemma rep_length : 0 < length c.
Proof. eapply lookup_lt_Some. apply (rep_hdr _ _ R). Qed.

Lemma rep_node p e :
  c !! p = Some e → ∃ n, mem l !! a_loc e = Some n ∧ score n = a_score e ∧
    value n = a_value e ∧ prev n = back c p ∧ level n = a_lvl e.
Proof. intros Hp. apply info_node. by apply (rep_info _ _ R). Qed.

Lemma rep_dom p e : c !! p = Some e → a_loc e ∈ dom (mem l).
Proof. intros Hp. destruct (rep_node p e Hp) as (n & Hn & _). by eapply elem_of_dom_2. Qed.

(** The chain is no longer than the heap: the loop budgets suffice. *)
Lemma rep_budget : length c < budget (mem l).
Proof.
  unfold budget. rewrite <- (length_fmap a_loc c).
  rewrite <- (size_list_to_set (C:=gset loc) (a_loc <$> c)) by apply (rep_nodup _ _ R).
  apply Nat.lt_succ_r. rewrite <- size_dom. apply subseteq_size.
  intros x. rewrite elem_of_list_to_set, list_elem_of_fmap.
  intros (e & -> & [p Hp]%list_elem_of_lookup). by eapply rep_dom.
Qed.

Lemma rep_lvl_pos p e : c !! p = Some e → 0 < a_lvl e.
Proof.
  intros Hp. destruct p as [|p].
  - rewrite (rep_hdr _ _ R) in Hp. injection Hp as <-. simpl. unfold maxLevel. lia.
  - apply (rep_lvl _ _ R) in Hp; lia.
Qed.

Lemma rep_cell0 p e :
  c !! p = Some e → cell (mem l) (a_loc e) 0 = Some (link c p (S p)).
Proof.
  intros Hp. pose proof (rep_hl _ _ R).
  apply (level_0_cell c); [apply rep_lvl_pos|apply (rep_levels _ _ R); lia|done].
Qed.

Lemma rep_next0 p e : c !! p = Some e → loadNext (mem l) (a_loc e) 0 = Some (al c (S p)).
Proof. intros Hp. by rewrite (loadNext_cell _ _ _ _ (rep_cell0 p e Hp)). Qed.

(** At level 0 the predecessor is the position before. *)
Lemma is_pred_0 k u : k <= length c → is_pred c 0 k u → u = k - 1.
Proof.
  intros Hk (Hu & _ & Hb). destruct (decide (u = k - 1)); [done|].
  specialize (Hb (k - 1) ltac:(lia)).
  destruct (lookup_lt_is_Some_2 c (k - 1) ltac:(lia)) as [f Hf].
  rewrite (lv_lookup _ _ _ Hf) in Hb. pose proof (rep_lvl_pos _ _ Hf). lia.
Qed.
End rep_facts.

(** ** The search

    A loop condition [cond] that holds of the elements at the positions before
    [k] and of no other makes the search stop, at every level, at the
    predecessor of [k]. *)

Definition cuts (l : float64List) (c : list aelt) (cond : float64ListNode → Z → bool) (k : nat) : Prop :=
  1 <= k <= length c ∧
  ∀ p e n, 0 < p → c !! p = Some e → mem l !! a_loc e = Some n →
    cond n (Z.of_nat p) = bool_decide (p < k).

Section search.
Context (l : float64List) (c : list aelt) (R : rep l c).
Context (cond : float64ListNode → Z → bool) (k : nat) (Hcut : cuts l c cond k).

Lemma walk_spec i fuel p e :
  i < highestLevel l → c !! p = Some e → i < a_lvl e → p < k → k - p <= fuel →
  ∃ u eu, walk fuel (mem l) i cond (a_loc e) (Z.of_nat p) = Some (a_loc eu, Z.of_nat u) ∧
    c !! u = Some eu ∧ is_pred c i k u.
Proof.
  destruct Hcut as [Hk Hc]. intros Hi. revert p e.
  induction fuel as [|fuel IH]; intros p e Hp Hlp Hpk Hf; [lia|]. simpl.
  destruct (rep_levels _ _ R i Hi p e Hp Hlp) as (q & Hq & Hcell).
  rewrite (loadNextAndSpan_cell _ _ _ _ Hcell). simpl.
  pose proof Hq as (Hpq & Hbet & Hql). unfold al.
  destruct (c !! q) as [f|] eqn:Hf'; simpl.
  - apply lookup_lt_Some in Hf' as Hqlt.
    destruct (rep_node _ _ R q f Hf') as (n & Hn & _). rewrite Hn. simpl.
    replace (Z.of_nat p + (Z.of_nat (q `min` (length c - 1)) - Z.of_nat p))%Z with (Z.of_nat q) by lia.
    rewrite (Hc q f n) by (done || lia). case_bool_decide as Hqk.
    + apply IH; [done| |done|lia]. rewrite <- (lv_lookup _ _ _ Hf'). by apply Hql.
    + exists p, e. unfold is_pred. split_and!; [done|done|done| |].
      * by rewrite (lv_lookup _ _ _ Hp).
      * intros r Hr. apply Hbet. lia.
  - apply lookup_ge_None in Hf'. exists p, e. unfold is_pred. split_and!; [done|done|done| |].
    + by rewrite (lv_lookup _ _ _ Hp).
    + intros r Hr. apply Hbet. lia.
Qed.

Definition preds (ur : list (loc * Z)) (j : nat) : Prop :=
  ∃ u eu, ur !! j = Some (a_loc eu, Z.of_nat u) ∧ c !! u = Some eu ∧ is_pred c j k u.

Lemma descend_spec i p e acc :
  i <= highestLevel l → c !! p = Some e → i <= a_lvl e → p < k →
  ∃ ur, descend (mem l) cond i (a_loc e) (Z.of_nat p) acc = Some (ur ++ acc) ∧
    length ur = i ∧ ∀ j, j < i → preds ur j.
Proof.
  revert p e acc. induction i as [|i IH]; intros p e acc Hi Hp Hlp Hpk; cbn [descend].
  { exists []. split_and!; [done|done|lia]. }
  pose proof (rep_budget _ _ R). pose proof (proj1 Hcut).
  destruct (walk_spec i (budget (mem l)) p e) as (u & eu & -> & Hu & Hpred);
    [lia|done|lia|lia|lia|]. simpl.
  pose proof Hpred as (Huk & Hlu & _). rewrite (lv_lookup _ _ _ Hu) in Hlu.
  destruct (IH u eu ((a_loc eu, Z.of_nat u) :: acc)) as (ur & -> & Hlen & Hur); [lia|done|lia|lia|].
  exists (ur ++ [(a_loc eu, Z.of_nat u)]). rewrite <- app_assoc. split; [done|].
  rewrite length_app. simpl. split; [lia|]. intros j Hj.
  destruct (decide (j = i)) as [->|Hji].
  - exists u, eu. split; [|done]. rewrite lookup_app_r by lia. by rewrite Hlen, Nat.sub_diag.
  - destruct (Hur j ltac:(lia)) as (u' & eu' & ? & ? & ?).
    exists u', eu'. split; [|done]. rewrite lookup_app_l by lia. done.
Qed.

Lemma search_spec :
  ∃ ur, search l cond = Some ur ∧ length ur = highestLevel l ∧
    ∀ j, j < highestLevel l → preds ur j.
Proof.
  unfold search. destruct (descend_spec (highestLevel l) 0 (hdr_elt (header l)) [])
    as (ur & Hd & Hlen & Hur); [done|apply (rep_hdr _ _ R)|apply (rep_hl _ _ R)| |].
  { pose proof (proj1 Hcut). lia. }
  rewrite app_nil_r in Hd. exists ur. done.
Qed.
End search.

(** At level 0 the search stops at position [k - 1]. *)
Lemma preds_0 l c k ur :
  rep l c → 1 <= k <= length c → preds c k ur 0 →
  ∃ e, c !! (k - 1) = Some e ∧ ur !! 0 = Some (a_loc e, (Z.of_nat k - 1)%Z).
Proof.
  intros R Hk (u & eu & Hur & Hu & Hp).
  pose proof (is_pred_0 l c R k u ltac:(lia) Hp) as ->.
  exists eu. split; [done|]. rewrite Hur. do 2 f_equal. lia.
Qed.
