(* ===== verification/SkipOps.v ===== *)
(** * The skip list: every operation keeps the representation

    For each operation of [skiplist.go], what it returns on a list that
    represents a chain, and the chain that the list represents afterwards: no
    operation panics or runs out of its loop budget. *)

From S2P Require Import Prelude GoFloat SkipList SkipInv.
From Stdlib Require Import SpecFloat.

(** ** The empty list *)

Lemma newFloat64List_rep : rep newFloat64List [hdr_elt 0].
Proof.
  split; simpl; try done.
  - apply NoDup_singleton.
  - intros [|p] e Hp; [|done]. simpl in Hp. by injection Hp as <-.
  - intros i Hi p e Hp _. destruct p as [|p]; [|done]. simpl in Hp. injection Hp as <-.
    exists 1. assert (i = 0) as -> by lia. split; [|done].
    split; [simpl; lia|]. split; [intros; lia|simpl; lia].
  - intros i Hi. exists 0%Z.
    do 32 (destruct i as [|i]; [first [lia|reflexivity]|]). unfold maxLevel in Hi. lia.
  - unfold maxLevel. lia.
  - intros [|p] e Hp ?; [lia|done].
Qed.

(** ** Insert *)

Lemma randomLevel_range draws lv draws' :
  randomLevel draws = Some (lv, draws') → 1 <= lv <= maxLevel.
Proof.
  unfold randomLevel. intros H. inv_bind H. destruct p as [lv0 d0].
  assert (1 <= lv0).
  { revert Hrun. generalize 1. induction draws as [|d draws IH]; intros m Hm; simpl in Hm; [done|].
    case_hyp Hm; [|by simplify_eq]. apply IH in Hm. lia. }
  case_bool_decide; simplify_eq; [unfold maxLevel|]; lia.
Qed.

Section insert.
Context (l : float64List) (c : list aelt) (R : rep l c).
Context (k : nat) (Hk : 1 <= k <= length c).

(** A level above the highest holds the header alone. *)
Lemma level_ok_top i h :
  highestLevel l <= i → cell h (header l) i = Some (mkLevel None (llength l)) →
  level_ok c i h.
Proof.
  intros Hi Hc p e Hp Hlt. destruct (decide (p = 0)) as [->|Hp0].
  - rewrite (rep_hdr _ _ R) in Hp. injection Hp as <-. simpl. exists (length c).
    split.
    + split; [split; [apply (rep_length _ _ R)|lia]|]. split; [|lia].
      intros r Hr. unfold lv. destruct (c !! r) as [f|] eqn:Hf; simpl; [|lia].
      pose proof (rep_lvl _ _ R r f Hf). lia.
    + rewrite Hc. f_equal. unfold link. rewrite al_ge by lia. rewrite (rep_len _ _ R).
      pose proof (rep_length _ _ R). f_equal. lia.
  - pose proof (rep_lvl _ _ R p e Hp). lia.
Qed.

Lemma raise_levels_rep ur lv0 :
  lv0 <= maxLevel → length ur = highestLevel l →
  (∀ j, j < highestLevel l → preds c k ur j) →
  ∃ l' ur', raise_levels l ur lv0 = Some (l', ur') ∧ rep l' c ∧
    highestLevel l' = highestLevel l `max` lv0 ∧ header l' = header l ∧
    ∀ j, j < highestLevel l' → preds c k ur' j.
Proof.
  intros Hlv Hlen Hur. unfold raise_levels. case_bool_decide as Hhl; cycle 1.
  { exists l, ur. split_and!; try done. lia. }
  destruct (level_loop (λ i h, ∃ s, cell h (header l) i = Some (mkLevel None s)) (level_ok c)
    (λ i h, storeSpan h (header l) i (llength l)) (highestLevel l) (lv0 - highestLevel l) (mem l))
    as (h' & -> & HB & HC & HI).
  - intros i h h' Hc [s Hs]. exists s. by rewrite Hc.
  - apply level_ok_local.
  - intros j Hj. apply (rep_top _ _ R). lia.
  - intros j g Hj _ [s Hs]. destruct (storeSpan_cell g (header l) j _ (llength l) Hs) as (g' & Hg & U).
    exists g'. split; [done|]. split.
    + apply level_ok_top; [lia|]. by apply (cell_upd_eq _ _ _ _ _ U).
    + split; [|apply U]. intros y i Hi. apply (cell_upd_ne _ _ _ _ _ _ _ U). by intros [_ ?].
  - simpl. eexists _, _. split; [done|]. simpl. split_and!; [|lia|done|].
    + destruct R. split; simpl; try done.
      * intros p e Hp. rewrite HI. by apply rep_info.
      * intros i Hi. destruct (decide (i < highestLevel l)); [|apply HB; lia].
        eapply level_ok_local; [|by apply rep_levels]. intros; apply HC; lia.
      * intros i Hi. rewrite HC by lia. apply rep_top. lia.
      * lia.
      * intros p e Hp Hp0. pose proof (rep_lvl p e Hp Hp0). lia.
    + intros j Hj. destruct (decide (j < highestLevel l)).
      * destruct (Hur j ltac:(done)) as (u & eu & Hu & ?).
        exists u, eu. split; [|done]. rewrite lookup_app_l by lia. done.
      * exists 0, (hdr_elt (header l)). split_and!; [|apply (rep_hdr _ _ R)|].
        -- rewrite lookup_app_r by lia. rewrite lookup_replicate. split; [done|lia].
        -- split; [lia|]. rewrite (lv_lookup _ _ _ (rep_hdr _ _ R)). simpl. split; [lia|].
           intros r Hr. unfold lv. destruct (c !! r) as [f|] eqn:Hf; simpl; [|lia].
           pose proof (rep_lvl _ _ R r f Hf). lia.
Qed.
End insert.

Lemma newnode_slot s v lv0 i :
  i < lv0 → lv0 <= maxLevel →
  optionalArray.slot (oparr (newFloat64ListNode s v lv0)) i = Some zeroLevel.
Proof.
  intros Hi Hlv. unfold optionalArray.slot, newFloat64ListNode, optionalArray.init, zeroArray.
  cbn [oparr]. repeat case_bool_decide; cbn [base extra mbind option_bind]; try lia;
    apply lookup_replicate; unfold op2, op1, maxLevel in *; (split; [done|lia]).
Qed.

Lemma alloc_cell (h : heap) x n y i :
  cell (<[x := n]> h) y i = if decide (y = x) then optionalArray.slot (oparr n) i else cell h y i.
Proof.
  unfold cell. case_decide; subst; [by rewrite lookup_insert_eq|by rewrite lookup_insert_ne].
Qed.

Lemma alloc_info (h : heap) x n y :
  info (<[x := n]> h) y =
    if decide (y = x) then Some (score n, value n, prev n, level n) else info h y.
Proof.
  unfold info. case_decide; subst; [by rewrite lookup_insert_eq|by rewrite lookup_insert_ne].
Qed.

(** The two loops of [Insert] thread the new node into every level. *)
Lemma splice_levels l c k ur x s v lv0 :
  rep l c → 1 <= k <= length c → x ∉ dom (mem l) → 1 <= lv0 <= highestLevel l →
  (∀ j, j < highestLevel l → preds c k ur j) →
  let h := <[x := newFloat64ListNode s v lv0]> (mem l) in
  let c' := list_add k (mkElt x s v lv0) c in
  ∃ h1 h2, for_range 0 lv0 (link_level ur (Z.of_nat k - 1) x) h = Some h1 ∧
    for_range lv0 (highestLevel l - lv0) (bump_level ur) h1 = Some h2 ∧
    (∀ i, i < highestLevel l → level_ok c' i h2) ∧
    (∀ y i, highestLevel l <= i → cell h2 y i = cell h y i) ∧
    (∀ y, info h2 y = info h y).
Proof.
  intros R Hk Hx Hlv Hur h c'. pose proof (rep_hl _ _ R) as Hhl.
  assert (Hfr : ∀ p f, c !! p = Some f → a_loc f ≠ x).
  { intros p f Hf Heq. apply Hx. rewrite <- Heq. by eapply rep_dom. }
  assert (Hold : ∀ i, i < highestLevel l → level_ok c i h).
  { intros i Hi p e Hp Hlt. destruct (rep_levels _ _ R i Hi p e Hp Hlt) as (q & ? & ?).
    exists q. split; [done|]. unfold h. rewrite alloc_cell, decide_False; [done|]. by eapply Hfr. }
  destruct (level_loop (λ i h, level_ok c i h ∧ ∃ cx, cell h x i = Some cx) (level_ok c')
    (link_level ur (Z.of_nat k - 1) x) 0 lv0 h) as (h1 & Hr1 & HB1 & HC1 & HI1).
  - intros i g g' Hc [HA [cx Hcx]]. split; [by eapply level_ok_local|]. exists cx. by rewrite Hc.
  - apply level_ok_local.
  - intros j Hj. split; [apply Hold; lia|]. exists zeroLevel. unfold h.
    rewrite alloc_cell, decide_True by done. apply newnode_slot; lia.
  - intros j g Hj _ [HA [cx Hcx]]. destruct (Hur j ltac:(lia)) as (u & eu & Hu & Hcu & Hp).
    eapply (link_level_ok c k (mkElt x s v lv0) j g ur u eu cx); try done.
    + apply (rep_nodup _ _ R).
    + simpl. lia.
  - destruct (level_loop (level_ok c) (level_ok c') (bump_level ur) lv0 (highestLevel l - lv0) h1)
      as (h2 & Hr2 & HB2 & HC2 & HI2).
    + apply level_ok_local.
    + apply level_ok_local.
    + intros j Hj. eapply level_ok_local; [|apply Hold; lia]. intros; apply HC1; lia.
    + intros j g Hj _ HA. destruct (Hur j ltac:(lia)) as (u & eu & Hu & Hcu & Hp).
      eapply (bump_level_ok c k (mkElt x s v lv0) j g ur u eu); try done.
      * apply (rep_nodup _ _ R).
      * simpl. lia.
    + exists h1, h2. split_and!; try done.
      * intros i Hi. destruct (decide (i < lv0)); [|apply HB2; lia].
        eapply level_ok_local; [|apply HB1; lia]. intros; apply HC2; lia.
      * intros y i Hi. rewrite HC2, HC1 by lia. done.
      * intros y. by rewrite HI2, HI1.
Qed.

(** The back pointers of the chain with the new element. *)
Lemma back_add_before c k e p : k <= length c → p <= k → back (list_add k e c) p = back c p.
Proof.
  intros Hk Hp. unfold back. case_decide; [done|].
  rewrite al_list_add by lia. by rewrite decide_True by lia.
Qed.

Lemma back_add_next c k e : 1 <= k <= length c → back (list_add k e c) (S k) = Some (a_loc e).
Proof.
  intros Hk. unfold back. rewrite decide_False, al_list_add by lia.
  by rewrite decide_False, decide_True by lia.
Qed.

Lemma back_add_after c k e p :
  1 <= k <= length c → k < p → back (list_add k e c) (S p) = back c p.
Proof.
  intros Hk Hp. unfold back. rewrite !decide_False, al_list_add by lia.
  rewrite !decide_False by lia. f_equal. lia.
Qed.

(** The end of [Insert]: the back pointer of the new node, then that of its
    successor (or the tail). *)

Lemma header_pos l c p : rep l c → al c p = Some (header l) → p = 0.
Proof.
  intros R Hp. apply (al_inj c _ _ (header l)); [apply R|done|].
  by rewrite (al_lookup _ _ _ (rep_hdr _ _ R)).
Qed.

Lemma add_nodup c k e :
  NoDup (a_loc <$> c) → (∀ p f, c !! p = Some f → a_loc f ≠ a_loc e) →
  NoDup (a_loc <$> list_add k e c).
Proof.
  intros Hnd Hfr. rewrite list_add_perm. cbn [fmap list_fmap]. apply NoDup_cons_2; [|done].
  rewrite list_elem_of_fmap. intros (f & Heq & [p Hp]%list_elem_of_lookup). by apply (Hfr p f).
Qed.

Lemma insert_back l c k x s v lv0 h u0 :
  rep l c → 1 <= k <= length c → al c (k - 1) = Some u0 →
  info h x = Some (s, v, None, lv0) →
  ∃ h', (if bool_decide (u0 ≠ header l) then storePrev h x (Some u0) else Some h) = Some h' ∧
    (∀ y j, cell h' y j = cell h y j) ∧
    ∀ y, info h' y = if decide (y = x) then Some (s, v, back c k, lv0) else info h y.
Proof.
  intros R Hk Hu0 Hx. case_bool_decide as Hne.
  - destruct (storePrev_info h x s v None lv0 (Some u0) Hx) as (h' & -> & ? & HI).
    exists h'. split_and!; try done. intros y. rewrite HI. case_decide; [|done].
    unfold back. rewrite decide_False; [by rewrite Hu0|].
    intros ?. apply Hne. replace (k - 1) with 0 in Hu0 by lia.
    rewrite (al_lookup _ _ _ (rep_hdr _ _ R)) in Hu0. by injection Hu0 as <-.
  - subst u0. exists h. split_and!; try done. intros y.
    case_decide; subst; [|done]. unfold back. rewrite decide_True; [done|].
    apply (header_pos l) in Hu0; [lia|done].
Qed.

Lemma insert_succ l c k e h :
  rep l c → 1 <= k <= length c → (∀ p f, c !! p = Some f → a_loc f ≠ a_loc e) →
  let c' := list_add k e c in
  cell h (a_loc e) 0 = Some (link c' k (S k)) →
  info h (a_loc e) = Some (a_score e, a_value e, back c k, a_lvl e) →
  (∀ p f, c !! p = Some f → info h (a_loc f) = info (mem l) (a_loc f)) →
  ∃ l', link_succ l h (a_loc e) = Some l' ∧
    (∀ y j, cell (mem l') y j = cell h y j) ∧
    (∀ p f, c' !! p = Some f →
       info (mem l') (a_loc f) = Some (a_score f, a_value f, back c' p, a_lvl f)) ∧
    tail l' = back c' (length c') ∧ llength l' = llength l ∧
    highestLevel l' = highestLevel l ∧ header l' = header l.
Proof.
  intros R Hk Hfr c' Hc He Hold. unfold link_succ. rewrite (loadNext_cell _ _ _ _ Hc). cbn [mbind option_bind link next].
  assert (Hal : al c' (S k) = al c k).
  { unfold c'. rewrite al_list_add, !decide_False by lia. f_equal. lia. }
  (* the positions of the new chain other than [S k] *)
  assert (Hrest : ∀ p f, c' !! p = Some f → p ≠ S k →
    info h (a_loc f) = Some (a_score f, a_value f, back c' p, a_lvl f)).
  { intros p f Hf Hp. unfold c' in Hf. rewrite list_add_lookup in Hf by lia.
    repeat case_decide; simplify_eq.
    - unfold c'. rewrite (Hold p f Hf), back_add_before by lia. by apply (rep_info _ _ R).
    - unfold c'. by rewrite back_add_before by lia.
    - destruct p as [|p]; [lia|]. replace (S p - 1) with p in Hf by lia.
      unfold c'. rewrite (Hold p f Hf), back_add_after by lia. by apply (rep_info _ _ R). }
  rewrite Hal. unfold al. destruct (c !! k) as [f|] eqn:Hf; cbn [fmap option_fmap option_map].
  - pose proof (rep_info _ _ R k f Hf) as Hif. rewrite <- (Hold k f Hf) in Hif.
    destruct (storePrev_info h (a_loc f) _ _ _ _ (Some (a_loc e)) Hif) as (h' & -> & HC & HI).
    cbn [mbind option_bind]. eexists. split; [done|]. cbn [mem tail llength highestLevel header set_mem].
    apply lookup_lt_Some in Hf as Hlt. split_and!; try done.
    + intros p g Hg. rewrite HI. destruct (decide (p = S k)) as [->|Hp].
      * unfold c' in Hg. rewrite list_add_lookup, !decide_False in Hg by lia.
        replace (S k - 1) with k in Hg by lia. simplify_eq.
        rewrite decide_True by done. unfold c'. by rewrite back_add_next.
      * rewrite decide_False; [by apply Hrest|]. intros Heq. apply Hp.
        eapply (al_inj c' p (S k) (a_loc g)); [by apply add_nodup; [apply R|]|by apply al_lookup|].
        rewrite Hal, Heq. by apply al_lookup.
    + rewrite (rep_tail _ _ R). unfold c'. rewrite list_add_length. symmetry. by apply back_add_after.
  - apply lookup_ge_None in Hf. assert (k = length c) as -> by lia.
    eexists. split; [done|]. cbn. split_and!; try done.
    + intros p g Hg. apply Hrest; [done|]. intros ->. apply lookup_lt_Some in Hg.
      unfold c' in Hg. rewrite list_add_length in Hg. lia.
    + unfold c'. rewrite list_add_length. by rewrite back_add_next.
Qed.

(** The loops, the back pointers, the tail and the length together. *)
Lemma insert_node_rep l c k ur x s v lv0 :
  rep l c → 1 <= k <= length c → x ∉ dom (mem l) → 1 <= lv0 <= highestLevel l →
  (∀ j, j < highestLevel l → preds c k ur j) →
  ∃ l', insert_node l ur lv0 x (newFloat64ListNode s v lv0) = Some l' ∧
    rep l' (list_add k (mkElt x s v lv0) c).
Proof.
  intros R Hk Hx Hlv Hur. set (e := mkElt x s v lv0). pose proof (rep_hl _ _ R) as Hhl.
  unfold insert_node.
  destruct (preds_0 l c k ur R Hk (Hur 0 ltac:(lia))) as (e0 & He0 & ->). cbn [mbind option_bind].
  destruct (splice_levels l c k ur x s v lv0) as (h1 & h2 & -> & Hb & HL & HC & HI); [done..|].
  cbn [mbind option_bind]. rewrite Hb. cbn [mbind option_bind].
  assert (Hfr : ∀ p f, c !! p = Some f → a_loc f ≠ x).
  { intros p f Hf Heq. apply Hx. rewrite <- Heq. by eapply rep_dom. }
  destruct (insert_back l c k x s v lv0 h2 (a_loc e0)) as (h3 & -> & HC3 & HI3);
    [done|done|by apply al_lookup|by rewrite HI, alloc_info, decide_True|].
  cbn [mbind option_bind].
  assert (Hpos : ∀ p f, list_add k e c !! p = Some f → 0 < p → 1 <= a_lvl f <= highestLevel l).
  { intros p f Hf Hp. rewrite list_add_lookup in Hf by lia. repeat case_decide; simplify_eq.
    - by apply (rep_lvl _ _ R p).
    - done.
    - apply (rep_lvl _ _ R (p - 1)); [done|lia]. }
  assert (H0 : list_add k e c !! 0 = Some (hdr_elt (header l))).
  { rewrite list_add_lookup, decide_True by lia. apply (rep_hdr _ _ R). }
  assert (Hlev3 : ∀ i, i < highestLevel l → level_ok (list_add k e c) i h3).
  { intros i Hi. eapply level_ok_local; [|by apply HL]. intros y. by rewrite HC3. }
  destruct (insert_succ l c k e h3 R) as (l2 & Hsucc & HC4 & HI4 & Ht & Hl & Hh & Hd).
  - done.
  - done.
  - apply (level_0_cell (list_add k e c)).
    + intros [|p] f Hf; [|apply (Hpos (S p)); [done|lia]].
      rewrite H0 in Hf. injection Hf as <-. simpl. unfold maxLevel. lia.
    + apply Hlev3. lia.
    + by rewrite list_add_lookup, decide_False, decide_True by lia.
  - rewrite HI3, decide_True; done.
  - intros p f Hf. rewrite HI3, decide_False by (by eapply Hfr).
    rewrite HI, alloc_info, decide_False; [done|by eapply Hfr].
  - change (a_loc e) with x in Hsucc. rewrite Hsucc. cbn [mbind option_bind].
    eexists. split; [done|]. split; cbn [mem header tail llength highestLevel set_llength].
    + by rewrite Hd.
    + apply add_nodup; [apply R|done].
    + done.
    + intros i Hi. rewrite Hh in Hi. eapply level_ok_local; [|by apply Hlev3]. intros y. by rewrite HC4.
    + intros i Hi. rewrite Hh in Hi. rewrite Hd, HC4, HC3, HC by lia.
      rewrite alloc_cell, decide_False; [by apply (rep_top _ _ R)|].
      by apply (Hfr 0 (hdr_elt (header l))), (rep_hdr _ _ R).
    + by rewrite Hh.
    + intros p f Hf Hp. rewrite Hh. by apply (Hpos p).
    + done.
    + rewrite list_add_length, Hl, (rep_len _ _ R). lia.
Qed.

(** [Insert] adds the element at the position where its search stops. *)
Lemma Insert_rep l c k s v draws lv0 draws' :
  rep l c → cuts l c (λ n _, lessThan n s v) k → randomLevel draws = Some (lv0, draws') →
  ∃ x l', Insert l draws s v = Some (x, l', draws') ∧
    rep l' (list_add k (mkElt x s v lv0) c).
Proof.
  intros R Hcut Hlv. pose proof (randomLevel_range _ _ _ Hlv) as Hr.
  unfold Insert. destruct (search_spec l c R _ k Hcut) as (ur & -> & Hlen & Hur).
  cbn [mbind option_bind]. rewrite Hlv. cbn [mbind option_bind].
  pose proof (proj1 Hcut) as Hk.
  destruct (raise_levels_rep l c R k Hk ur lv0) as (l1 & ur1 & -> & R1 & Hhl & Hhd & Hur1); [lia|done|done|].
  cbn [mbind option_bind]. set (x := fresh (dom (mem l1))).
  pose proof (rep_hl _ _ R1) as Hhl1.
  destruct (insert_node_rep l1 c k ur1 x s v lv0) as (l2 & -> & R2); [done|done|apply is_fresh|lia|done|].
  by exists x, l2.
Qed.

(** ** deleteNode *)

Lemma back_del_before (c : list aelt) k p : 0 < k → p <= k → back (delete k c) p = back c p.
Proof.
  intros Hk Hp. unfold back. case_decide; [done|]. rewrite al_delete. by rewrite decide_True by lia.
Qed.

Lemma back_del_after (c : list aelt) k p : 0 < k < p → back (delete k c) p = back c (S p).
Proof.
  intros Hp. unfold back. rewrite !decide_False by lia. rewrite al_delete, decide_False by lia.
  f_equal. lia.
Qed.

(** The unlinking loop takes the node out of every level and leaves its own
    cells alone. *)
Lemma unlink_levels l c k ex ups :
  rep l c → 0 < k → c !! k = Some ex →
  (∀ j, j < highestLevel l → ∃ u eu, ups !! j = Some (a_loc eu) ∧ c !! u = Some eu ∧ is_pred c j k u) →
  ∃ h, for_range 0 (highestLevel l) (unlink_level (a_loc ex) ups) (mem l) = Some h ∧
    (∀ i, i < highestLevel l → level_ok (delete k c) i h ∧
       cell h (a_loc ex) i = cell (mem l) (a_loc ex) i) ∧
    (∀ y i, highestLevel l <= i → cell h y i = cell (mem l) y i) ∧
    (∀ y, info h y = info (mem l) y).
Proof.
  intros R Hk Hx Hur. apply lookup_lt_Some in Hx as Hlt.
  destruct (level_loop
    (λ i h, level_ok c i h ∧ cell h (a_loc ex) i = cell (mem l) (a_loc ex) i)
    (λ i h, level_ok (delete k c) i h ∧ cell h (a_loc ex) i = cell (mem l) (a_loc ex) i)
    (unlink_level (a_loc ex) ups) 0 (highestLevel l) (mem l)) as (h & Hr & HB & HC & HI).
  - intros i g g' Hc [? ?]. split; [by eapply level_ok_local|by rewrite Hc].
  - intros i g g' Hc [? ?]. split; [by eapply level_ok_local|by rewrite Hc].
  - intros j Hj. split; [apply (rep_levels _ _ R); lia|done].
  - intros j g Hj _ [HA Hcx]. destruct (Hur j ltac:(lia)) as (u & eu & Hu & Hcu & Hp).
    destruct (unlink_level_ok c k ex j g ups u eu) as (g' & ? & ? & ? & ?);
      [lia|apply R|done|done|done|done|done|].
    exists g'. split_and!; try done. congruence.
  - exists h. split_and!; [done| | |done].
    + intros i Hi. apply HB. lia.
    + intros y i Hi. apply HC. lia.
Qed.

Lemma unlink_succ_rep l c k ex h :
  rep l c → 0 < k → c !! k = Some ex →
  let c' := delete k c in
  cell h (a_loc ex) 0 = Some (link c k (S k)) → (∀ y, info h y = info (mem l) y) →
  ∃ l', unlink_succ l h (a_loc ex) = Some l' ∧
    (∀ y j, cell (mem l') y j = cell h y j) ∧
    (∀ p f, c' !! p = Some f →
       info (mem l') (a_loc f) = Some (a_score f, a_value f, back c' p, a_lvl f)) ∧
    info (mem l') (a_loc ex) = info (mem l) (a_loc ex) ∧
    tail l' = back c' (length c') ∧ llength l' = llength l ∧
    highestLevel l' = highestLevel l ∧ header l' = header l.
Proof.
  intros R Hk Hx c' Hc HI. apply lookup_lt_Some in Hx as Hlt.
  assert (Hlen : length c' = length c - 1) by (apply length_del; lia).
  unfold unlink_succ. rewrite (loadNext_cell _ _ _ _ Hc). cbn [mbind option_bind link next].
  pose proof (rep_info _ _ R k ex Hx) as Hix. rewrite <- HI in Hix.
  destruct (info_node _ _ _ _ _ _ Hix) as (n & Hn & _ & _ & Hpn & _).
  rewrite Hn. cbn [mbind option_bind]. rewrite Hpn. unfold al.
  (* the positions whose back pointer is already right *)
  assert (Hrest : ∀ p f, c' !! p = Some f → p ≠ k →
    info h (a_loc f) = Some (a_score f, a_value f, back c' p, a_lvl f)).
  { intros p f Hf Hp. unfold c' in *. rewrite list_delete_lookup in Hf. rewrite HI. case_decide.
    - rewrite back_del_before by lia. by apply (rep_info _ _ R).
    - rewrite back_del_after by lia. by apply (rep_info _ _ R). }
  destruct (c !! S k) as [f|] eqn:Hf; cbn [fmap option_fmap option_map].
  - pose proof (rep_info _ _ R (S k) f Hf) as Hif. rewrite <- HI in Hif.
    destruct (storePrev_info h (a_loc f) _ _ _ _ (back c k) Hif) as (h' & -> & HC' & HI').
    assert (Hne : ∀ p g, c !! p = Some g → p ≠ S k → a_loc g ≠ a_loc f).
    { intros p g Hg Hp. eapply NoDup_ne; [apply R|done|done|done]. }
    apply lookup_lt_Some in Hf as Hlt'.
    eexists. split; [done|]. cbn [mem tail llength highestLevel header set_mem].
    split_and!; try done.
    + intros p g Hg. rewrite HI'. destruct (decide (p = k)) as [->|Hp].
      * unfold c' in Hg. rewrite list_delete_lookup, decide_False in Hg by lia. simplify_eq.
        rewrite decide_True by done. unfold c'. by rewrite back_del_before by lia.
      * rewrite decide_False; [by apply Hrest|]. unfold c' in Hg. rewrite list_delete_lookup in Hg.
        case_decide; (eapply Hne; [done|lia]).
    + rewrite HI', decide_False; [done|]. eapply Hne; [done|lia].
    + rewrite (rep_tail _ _ R), Hlen. unfold c'.
      rewrite back_del_after by lia. f_equal. lia.
  - apply lookup_ge_None in Hf. eexists. split; [done|]. cbn. split_and!; try done.
    + intros p g Hg. apply Hrest; [done|]. intros ->. apply lookup_lt_Some in Hg. lia.
    + rewrite Hlen. unfold c'. rewrite back_del_before by lia. f_equal. lia.
Qed.

(** Dropping empty levels. *)
Lemma lower_levels_rep l c :
  rep l c →
  ∃ h hl, lower_levels (mem l) (header l) (highestLevel l) = Some (h, hl) ∧
    rep (set_highestLevel (set_mem l h) hl) c ∧ hl <= highestLevel l ∧
    (∀ y, info h y = info (mem l) y).
Proof.
  remember (highestLevel l) as hl0 eqn:Hhl. revert l Hhl.
  induction hl0 as [|m IH]; intros l Hhl R; pose proof (rep_hl _ _ R) as Hr; [lia|].
  cbn [lower_levels]. case_bool_decide as Hm.
  { exists (mem l), (S m). rewrite Hhl. split_and!; [done| |lia|done]. by destruct l. }
  pose proof (rep_hdr _ _ R) as H0. pose proof (rep_length _ _ R) as Hlen.
  destruct (rep_levels _ _ R m ltac:(lia) 0 _ H0 ltac:(simpl; lia)) as (q & Hq & Hc). simpl in Hc.
  rewrite (loadNext_cell _ _ _ _ Hc). cbn [mbind option_bind link next]. unfold al.
  destruct (c !! q) as [f|] eqn:Hf; cbn [fmap option_fmap option_map].
  { exists (mem l), (S m). rewrite Hhl. split_and!; [done| |lia|done]. by destruct l. }
  destruct (storeNextAndSpan_cell _ _ _ _ None 0 Hc) as (h1 & -> & U). cbn [mbind option_bind].
  apply lookup_ge_None in Hf. destruct Hq as (Hq & Hb & _). assert (q = length c) as -> by lia.
  set (l1 := set_highestLevel (set_mem l h1) m).
  assert (R1 : rep l1 c).
  { destruct R. split; simpl; try done.
    - intros p e Hp. rewrite (proj2 U). by apply rep_info.
    - intros i Hi. eapply level_ok_local; [|apply rep_levels; lia].
      intros y. apply (cell_upd_ne _ _ _ _ _ _ _ U). lia.
    - intros i Hi. destruct (decide (i = m)) as [->|].
      + exists 0%Z. apply (cell_upd_eq _ _ _ _ _ U).
      + rewrite (cell_upd_ne _ _ _ _ _ _ _ U) by lia. apply rep_top. lia.
    - lia.
    - intros p e Hp Hp0. pose proof (rep_lvl p e Hp Hp0).
      specialize (Hb p). rewrite (lv_lookup _ _ _ Hp) in Hb. apply lookup_lt_Some in Hp.
      specialize (Hb ltac:(lia)). lia. }
  destruct (IH l1 eq_refl R1) as (h & hl & Hlow & R' & Hle & HI). simpl in Hlow.
  exists h, hl. split_and!; [done|done|lia|]. intros y. rewrite HI. apply U.
Qed.

(** [deleteNode] removes position [k] when [update] holds its predecessors. *)
Lemma deleteNode_rep l c k ex ups :
  rep l c → 0 < k → c !! k = Some ex →
  (∀ j, j < highestLevel l → ∃ u eu, ups !! j = Some (a_loc eu) ∧ c !! u = Some eu ∧ is_pred c j k u) →
  ∃ l', deleteNode l (a_loc ex) ups = Some l' ∧ rep l' (delete k c) ∧
    highestLevel l' <= highestLevel l ∧ info (mem l') (a_loc ex) = info (mem l) (a_loc ex).
Proof.
  intros R Hk Hx Hur. apply lookup_lt_Some in Hx as Hlt. pose proof (rep_hl _ _ R) as Hhl.
  unfold deleteNode. destruct (unlink_levels l c k ex ups) as (h & -> & HL & HT & HI); [done..|].
  cbn [mbind option_bind].
  destruct (unlink_succ_rep l c k ex h R Hk Hx) as (l1 & -> & HC & HI1 & Hix & Ht & Hl & Hh & Hd);
    [|done|].
  { rewrite (proj2 (HL 0 ltac:(lia))). by apply (rep_cell0 _ _ R). }
  cbn [mbind option_bind].
  assert (R1 : rep (set_llength l1 (llength l1 - 1)) (delete k c)).
  { split; cbn [mem header tail llength highestLevel set_llength].
    - rewrite list_delete_lookup, decide_True, Hd by lia. apply (rep_hdr _ _ R).
    - rewrite list_fmap_delete. eapply sublist_NoDup; [apply R|]. apply sublist_delete.
    - done.
    - intros i Hi. rewrite Hh in Hi. eapply level_ok_local; [|apply (HL i Hi)]. intros y. by rewrite HC.
    - intros i Hi. rewrite Hh in Hi. rewrite Hd, HC, HT by lia. by apply (rep_top _ _ R).
    - by rewrite Hh.
    - intros p e Hp Hp0. rewrite Hh. rewrite list_delete_lookup in Hp.
      case_decide; eapply (rep_lvl _ _ R); [done|lia|done|lia].
    - done.
    - rewrite Hl, (rep_len _ _ R), length_del by lia. lia. }
  destruct (lower_levels_rep _ _ R1) as (h2 & hl & Hlow & R2 & Hle & HI2).
  cbn [mem header highestLevel set_llength] in *. rewrite Hlow. cbn [mbind option_bind].
  eexists. split; [done|]. split_and!; [done|simpl; lia|]. simpl. by rewrite HI2, Hix.
Qed.
