(* ===== verification/SkipSpec.v ===== *)
(** * The skip list as a sorted sequence

    [repr l E]: the list [l] holds the elements [E], pairs of a score and a
    value, in that order.  Each operation of [skiplist.go] is shown to compute
    the obvious function of the sequence. *)

From S2P Require Import Prelude GoFloat SkipList SkipInv SkipOps.
From Stdlib Require Import SpecFloat.

Abbreviation elt := (float64 * string)%type.

(** ** Sorted sequences *)

Record sortedE (E : list elt) : Prop := {
  se_lt : ∀ p q a b, p < q → E !! p = Some a → E !! q = Some b → elt_lt a b = true;
  se_nn : ∀ a, a ∈ E → isNaN a.1 = false;
}.

Lemma elt_lt_irrefl a : elt_lt a a = false.
Proof. unfold elt_lt. rewrite flt_irrefl. case_match; [apply string_ltb_irrefl|done]. Qed.

Lemma elt_lt_iff a b :
  elt_lt a b = true ↔ flt a.1 b.1 = true ∨ (feq a.1 b.1 = true ∧ String.ltb a.2 b.2 = true).
Proof.
  unfold elt_lt. destruct (flt a.1 b.1) eqn:E1; [tauto|].
  destruct (feq a.1 b.1) eqn:E2; intuition congruence.
Qed.

Lemma elt_lt_trans a b c : elt_lt a b = true → elt_lt b c = true → elt_lt a c = true.
Proof.
  rewrite !elt_lt_iff. intros [H1|[H1 H1']] [H2|[H2 H2']].
  - left. by eapply flt_trans.
  - left. by eapply flt_feq_trans.
  - left. by eapply feq_flt_trans.
  - right. split; [by eapply feq_trans|by eapply string_ltb_trans].
Qed.

Lemma elt_lt_asym a b : elt_lt a b = true → elt_lt b a = false.
Proof.
  intros H. destruct (elt_lt b a) eqn:E; [|done].
  pose proof (elt_lt_trans _ _ _ H E). by rewrite elt_lt_irrefl in *.
Qed.

(** Elements with different values are comparable. *)
Lemma elt_lt_total a b :
  isNaN a.1 = false → isNaN b.1 = false → a.2 ≠ b.2 → elt_lt a b = true ∨ elt_lt b a = true.
Proof.
  intros Ha Hb Hne. rewrite !elt_lt_iff.
  destruct (flt_total a.1 b.1) as [?|[?|?]]; [done|done|auto| |auto].
  destruct (string_ltb_total a.2 b.2) as [?|[?|?]]; [auto|done|].
  right. right. split; [by apply feq_sym|done].
Qed.

(** The number of leading elements that satisfy [P]. *)
Fixpoint lead {A} (P : A → bool) (l : list A) : nat :=
  match l with
  | [] => 0
  | a :: l' => if P a then S (lead P l') else 0
  end.

Section lead.
Context {A : Type} (P : A → bool).

Lemma lead_le l : lead P l <= length l.
Proof. induction l as [|a l IH]; simpl; [done|]. case_match; lia. Qed.

Lemma lead_lt l p a : l !! p = Some a → p < lead P l → P a = true.
Proof.
  revert p. induction l as [|b l IH]; intros p; simpl; [lia|].
  destruct (P b) eqn:Hb; [|lia]. destruct p as [|p]; simpl; [naive_solver|].
  intros ??. eapply IH; [done|lia].
Qed.

Lemma lead_at l a : l !! lead P l = Some a → P a = false.
Proof.
  induction l as [|b l IH]; simpl; [done|]. destruct (P b) eqn:Hb; simpl; [done|naive_solver].
Qed.

(** For a predicate that is closed downwards along [l], the leading elements
    are all those that satisfy it. *)
Definition down_closed (l : list A) : Prop :=
  ∀ p q a b, p < q → l !! p = Some a → l !! q = Some b → P b = true → P a = true.

Lemma lead_spec l p a : down_closed l → l !! p = Some a → P a = bool_decide (p < lead P l).
Proof.
  intros Hd Hp. case_bool_decide as Hlt; [by eapply lead_lt|].
  destruct (P a) eqn:Ha; [|done]. pose proof (lookup_lt_Some _ _ _ Hp).
  destruct (lookup_lt_is_Some_2 l (lead P l) ltac:(lia)) as [b Hb].
  pose proof (lead_at _ _ Hb). destruct (decide (lead P l = p)) as [<-|]; [naive_solver|].
  assert (P b = true) by (apply (Hd (lead P l) p b a); [lia|done..]). congruence.
Qed.

Lemma lead_filter l : down_closed l → filter (λ a, P a = true) l = take (lead P l) l.
Proof.
  induction l as [|a l IH]; intros Hd; simpl; [done|].
  rewrite filter_cons. destruct (P a) eqn:Ha.
  - rewrite decide_True by done. simpl. f_equal. apply IH.
    intros p q b c Hpq Hp Hq. by apply (Hd (S p) (S q)); [lia|..].
  - rewrite decide_False by congruence. simpl.
    assert (Hall : ∀ b, b ∈ l → P b = false).
    { intros b [p Hp]%list_elem_of_lookup. destruct (P b) eqn:Hb; [|done].
      assert (P a = true) by (apply (Hd 0 (S p) a b); [lia|done..]). congruence. }
    clear IH Hd. induction l as [|b l IH]; [done|]. rewrite filter_cons, decide_False.
    + apply IH. intros. apply Hall. set_solver.
    + rewrite Hall; [done|]. set_solver.
Qed.
End lead.

(** ** The elements of a chain *)

Definition elems (c : list aelt) : list elt := akey <$> drop 1 c.

Lemma elems_lookup c p : elems c !! p = akey <$> c !! S p.
Proof. unfold elems. by rewrite list_lookup_fmap, lookup_drop. Qed.

Lemma elems_length c : length (elems c) = length c - 1.
Proof. unfold elems. by rewrite length_fmap, length_drop. Qed.

Lemma elems_add c k e :
  1 <= k <= length c → elems (list_add k e c) = list_add (k - 1) (akey e) (elems c).
Proof.
  intros Hk. apply list_eq. intros i. rewrite elems_lookup, !list_add_lookup.
  - repeat case_decide; try lia; [by rewrite elems_lookup|done|].
    rewrite elems_lookup. do 2 f_equal. lia.
  - rewrite elems_length. lia.
  - lia.
Qed.

Lemma elems_delete c k : 0 < k → elems (delete k c) = delete (k - 1) (elems c).
Proof.
  intros Hk. apply list_eq. intros i. rewrite elems_lookup, !list_delete_lookup.
  repeat case_decide; try lia; by rewrite elems_lookup.
Qed.

Definition repr (l : float64List) (E : list elt) : Prop := ∃ c, rep l c ∧ elems c = E.

Lemma elems_at c p e : c !! p = Some e → 0 < p → elems c !! (p - 1) = Some (akey e).
Proof. intros Hp Hlt. rewrite elems_lookup. replace (S (p - 1)) with p by lia. by rewrite Hp. Qed.

(** A loop condition that is a predicate of the element, closed downwards, cuts
    the chain after the leading elements that satisfy it. *)
Lemma cuts_lead l c (P : elt → bool) (cond : float64ListNode → Z → bool) :
  rep l c → down_closed P (elems c) → (∀ n r, cond n r = P (score n, value n)) →
  cuts l c cond (S (lead P (elems c))).
Proof.
  intros R Hd Hc. split.
  - pose proof (lead_le P (elems c)) as H. rewrite elems_length in H.
    pose proof (rep_length _ _ R). lia.
  - intros p e n Hp Hpe Hn. destruct (rep_node _ _ R p e Hpe) as (n' & Hn' & Hs & Hv & _).
    simplify_eq. rewrite Hc, Hs, Hv. change (a_score e, a_value e) with (akey e).
    rewrite (lead_spec P (elems c) (p - 1) (akey e)); [|done|by apply elems_at].
    apply bool_decide_ext. lia.
Qed.

(** The predicates of the searches are closed downwards. *)
Section sorted.
Context (E : list elt) (HE : sortedE E).

Lemma sorted_score p q a b :
  p < q → E !! p = Some a → E !! q = Some b → flt a.1 b.1 = true ∨ feq a.1 b.1 = true.
Proof.
  intros Hpq Ha Hb. pose proof (se_lt _ HE p q a b Hpq Ha Hb) as H.
  apply elt_lt_iff in H. tauto.
Qed.

Lemma elt_lt_down x : down_closed (λ a, elt_lt a x) E.
Proof.
  intros p q a b Hpq Ha Hb Hlt. eapply elt_lt_trans; [|done]. by eapply (se_lt _ HE p q).
Qed.

Lemma lead_self p a : E !! p = Some a → lead (λ b, elt_lt b a) E = p.
Proof.
  intros Hp. pose proof (lookup_lt_Some _ _ _ Hp) as Hl.
  pose proof (lead_spec _ E p a (elt_lt_down a) Hp) as H. cbn in H. rewrite elt_lt_irrefl in H.
  symmetry in H. apply bool_decide_eq_false in H.
  destruct (decide (lead (λ b, elt_lt b a) E = p)); [done|].
  destruct (lookup_lt_is_Some_2 E (lead (λ b, elt_lt b a) E) ltac:(lia)) as [b Hb].
  pose proof (lead_at _ _ _ Hb) as Hf. cbn in Hf.
  rewrite (se_lt _ HE (lead (λ b, elt_lt b a) E) p b a) in Hf; [done|lia|done..].
Qed.

Lemma greaterThanMin_up min ex p q a b :
  p < q → E !! p = Some a → E !! q = Some b →
  greaterThanMin a.1 min ex = true → greaterThanMin b.1 min ex = true.
Proof.
  intros Hpq Ha Hb. unfold greaterThanMin, fgt, fge.
  change (SFltb min a.1) with (flt min a.1). change (SFltb min b.1) with (flt min b.1).
  change (SFleb min a.1) with (fle min a.1). change (SFleb min b.1) with (fle min b.1).
  rewrite !fle_orb. destruct (sorted_score p q a b Hpq Ha Hb), ex;
    rewrite ?orb_true_iff; intuition eauto using flt_trans, flt_feq_trans, feq_flt_trans, feq_trans.
Qed.

Lemma notmin_down min ex : down_closed (λ a, negb (greaterThanMin a.1 min ex)) E.
Proof.
  intros p q a b Hpq Ha Hb. rewrite !negb_true_iff. intros Hf.
  destruct (greaterThanMin a.1 min ex) eqn:Hg; [|done].
  by rewrite (greaterThanMin_up min ex p q a b) in Hf.
Qed.

Lemma lessThanMax_down max ex : down_closed (λ a, lessThanMax a.1 max ex) E.
Proof.
  intros p q a b Hpq Ha Hb. unfold lessThanMax. rewrite !fle_orb.
  destruct (sorted_score p q a b Hpq Ha Hb), ex;
    rewrite ?orb_true_iff; intuition eauto using flt_trans, flt_feq_trans, feq_flt_trans, feq_trans.
Qed.
End sorted.

(** ** Insert *)

(** The sequence with [a] inserted at its place. *)
Definition place (a : elt) (E : list elt) : list elt :=
  list_add (lead (λ b, elt_lt b a) E) a E.

Lemma Insert_repr l E s v draws lv0 draws' :
  repr l E → sortedE E → randomLevel draws = Some (lv0, draws') →
  ∃ x l', Insert l draws s v = Some (x, l', draws') ∧ repr l' (place (s, v) E).
Proof.
  intros (c & R & <-) HE Hlv.
  assert (Hcut : cuts l c (λ n _, lessThan n s v) (S (lead (λ b, elt_lt b (s, v)) (elems c)))).
  { by apply (cuts_lead l c (λ b, elt_lt b (s, v))); [|apply elt_lt_down|]. }
  destruct (Insert_rep _ _ _ _ _ _ _ _ R Hcut Hlv) as (x & l' & ? & ?).
  exists x, l'. split; [done|]. eexists. split; [done|].
  rewrite elems_add by apply Hcut. unfold place. simpl. by rewrite Nat.sub_0_r.
Qed.

(** ** Delete *)

Lemma preds_ups c k ur j :
  preds c k ur j →
  ∃ u eu, ur.*1 !! j = Some (a_loc eu) ∧ c !! u = Some eu ∧ is_pred c j k u.
Proof.
  intros (u & eu & Hur & Hu & Hp). exists u, eu. split; [|done].
  by rewrite list_lookup_fmap, Hur.
Qed.

(** The search for an element that is present stops just before it. *)
Lemma search_elem l c s v p :
  rep l c → sortedE (elems c) → elems c !! p = Some (s, v) →
  ∃ ur w ex, search l (λ n _, lessThan n s v) = Some ur ∧
    (∀ j, j < highestLevel l →
       ∃ u eu, ur.*1 !! j = Some (a_loc eu) ∧ c !! u = Some eu ∧ is_pred c j (S p) u) ∧
    ur.*1 !! 0 = Some w ∧ loadNext (mem l) w 0 = Some (Some (a_loc ex)) ∧
    c !! S p = Some ex ∧ akey ex = (s, v).
Proof.
  intros R HE Hp.
  assert (Hcut : cuts l c (λ n _, lessThan n s v) (S p)).
  { rewrite <- (lead_self _ HE p (s, v) Hp).
    by apply (cuts_lead l c (λ b, elt_lt b (s, v))); [|apply elt_lt_down|]. }
  destruct (search_spec l c R _ _ Hcut) as (ur & Hs & Hlen & Hur).
  pose proof (rep_hl _ _ R).
  destruct (preds_0 l c (S p) ur R (proj1 Hcut) (Hur 0 ltac:(lia))) as (e0 & He0 & Hur0).
  simpl in He0. rewrite Nat.sub_0_r in He0.
  rewrite elems_lookup in Hp. destruct (c !! S p) as [ex|] eqn:Hx; [|done]. simpl in Hp.
  exists ur, (a_loc e0), ex. split_and!; [done| | | |done|congruence].
  - intros j Hj. by apply preds_ups, Hur.
  - by rewrite list_lookup_fmap, Hur0.
  - rewrite (rep_next0 _ _ R p e0 He0). by rewrite (al_lookup _ _ _ Hx).
Qed.

Lemma Delete_repr l E s v p :
  repr l E → sortedE E → E !! p = Some (s, v) →
  ∃ x l', Delete l s v = Some (Some x, l') ∧ repr l' (delete p E).
Proof.
  intros (c & R & <-) HE Hp.
  destruct (search_elem l c s v p R HE Hp) as (ur & w & ex & Hs & Hur & Hw & Hn & Hx & Hk).
  injection Hk as Hks Hkv. unfold Delete. rewrite Hs. cbn [mbind option_bind].
  rewrite Hw. cbn [mbind option_bind]. rewrite Hn. cbn [mbind option_bind].
  destruct (rep_node _ _ R _ _ Hx) as (n & -> & Hns & Hnv & _). cbn [mbind option_bind].
  unfold equal. rewrite Hns, Hnv, Hks, Hkv, String.eqb_refl, feq_refl; cycle 1.
  { apply (se_nn _ HE (s, v)). apply list_elem_of_lookup. by exists p. }
  cbn [andb]. destruct (deleteNode_rep l c (S p) ex ur.*1) as (l' & -> & R' & _); [done|lia|done|done|].
  cbn [mbind option_bind]. exists (a_loc ex), l'. split; [done|]. exists (delete (S p) c).
  split; [done|]. rewrite elems_delete by lia. simpl. by rewrite Nat.sub_0_r.
Qed.

(** ** UpdateScore *)

Lemma lead_eq {A} (P : A → bool) l k :
  k <= length l → (∀ i a, i < k → l !! i = Some a → P a = true) →
  (∀ a, l !! k = Some a → P a = false) → lead P l = k.
Proof.
  revert k. induction l as [|a l IH]; intros k Hk Ht Hf; simpl in *; [lia|].
  destruct k as [|k].
  - by rewrite (Hf a).
  - rewrite (Ht 0 a) by (done || lia). f_equal. apply IH; [lia| |].
    + intros i b Hi Hb. by apply (Ht (S i)); [lia|].
    + intros b Hb. by apply Hf.
Qed.

Lemma level_ok_ext c c' i h h' :
  length c' = length c → (∀ r, lv c' r = lv c r) → (∀ r, al c' r = al c r) →
  (∀ y, cell h' y i = cell h y i) → level_ok c i h → level_ok c' i h'.
Proof.
  intros Hlen Hlv Hal Hc Hok p e' He' Hi.
  destruct (lookup_lt_is_Some_2 c p) as [e He]; [rewrite <- Hlen; by eapply lookup_lt_Some|].
  pose proof (Hlv p) as Hl. pose proof (Hal p) as Ha.
  rewrite (lv_lookup _ _ _ He), (lv_lookup _ _ _ He') in Hl.
  rewrite (al_lookup _ _ _ He), (al_lookup _ _ _ He') in Ha. injection Ha as Ha.
  destruct (Hok p e He ltac:(lia)) as (q & (Hq & Hb & Hn) & Hcell).
  exists q. split.
  - unfold is_next. rewrite Hlen. split_and!; [lia|lia| |].
    + intros r Hr. rewrite Hlv. by apply Hb.
    + rewrite Hlv. done.
  - rewrite Hc, Ha, Hcell. unfold link. by rewrite Hal, Hlen.
Qed.

Lemma storeScore_rep l c p e s :
  rep l c → 0 < p → c !! p = Some e →
  ∃ h, storeScore (mem l) (a_loc e) s = Some h ∧
    rep (set_mem l h) (<[p := mkElt (a_loc e) s (a_value e) (a_lvl e)]> c).
Proof.
  intros R Hp0 Hp. pose proof (rep_info _ _ R p e Hp) as Hi. apply lookup_lt_Some in Hp as Hlt.
  destruct (storeScore_info _ _ _ _ _ _ s Hi) as (h & Hst & HC & HI).
  exists h. split; [done|]. set (e' := mkElt _ _ _ _). set (c' := <[p := e']> c).
  assert (Hlen : length c' = length c) by apply length_insert.
  assert (Hlv : ∀ r, lv c' r = lv c r).
  { intros r. unfold lv, c'. destruct (decide (r = p)) as [->|].
    - by rewrite list_lookup_insert_eq, Hp.
    - by rewrite list_lookup_insert_ne. }
  assert (Hal : ∀ r, al c' r = al c r).
  { intros r. unfold al, c'. destruct (decide (r = p)) as [->|].
    - by rewrite list_lookup_insert_eq, Hp.
    - by rewrite list_lookup_insert_ne. }
  assert (Hback : ∀ r, back c' r = back c r) by (intros r; unfold back; by rewrite Hal).
  destruct R. split; cbn [mem header tail llength highestLevel set_mem]; try done.
  - unfold c'. by rewrite list_lookup_insert_ne by lia.
  - replace (a_loc <$> c') with (a_loc <$> c); [done|]. apply list_eq. intros r.
    rewrite !list_lookup_fmap. symmetry. apply Hal.
  - intros r f Hf. rewrite HI, Hback. destruct (decide (r = p)) as [->|Hr].
    + unfold c' in Hf. rewrite list_lookup_insert_eq in Hf by done. injection Hf as <-.
      by rewrite decide_True.
    + unfold c' in Hf. rewrite list_lookup_insert_ne in Hf by done.
      rewrite decide_False by (by eapply NoDup_ne). by apply rep_info.
  - intros i Hi'. eapply level_ok_ext; [done|done|done| |by apply rep_levels]. done.
  - intros i Hi'. rewrite HC. by apply rep_top.
  - intros r f Hf Hr. pose proof (Hlv r) as Hl. rewrite (lv_lookup _ _ _ Hf) in Hl. rewrite Hl.
    destruct (lookup_lt_is_Some_2 c r) as [g Hg]; [rewrite <- Hlen; by eapply lookup_lt_Some|].
    rewrite (lv_lookup _ _ _ Hg). by apply (rep_lvl r).
  - by rewrite Hlen, Hback.
  - by rewrite Hlen.
Qed.

(** In place is the right place when the new score lies strictly between those
    of the neighbours. *)
Lemma place_in_place E p s v s' :
  sortedE E → E !! p = Some (s, v) →
  (∀ q b, p = S q → E !! q = Some b → flt b.1 s' = true) →
  (∀ b, E !! S p = Some b → flt s' b.1 = true) →
  place (s', v) (delete p E) = <[p := (s', v)]> E.
Proof.
  intros HE Hp Hprev Hnext. apply lookup_lt_Some in Hp as Hlt.
  assert (Hlen : length (delete p E) = length E - 1) by (apply length_delete; eauto).
  assert (Hlead : lead (λ b, elt_lt b (s', v)) (delete p E) = p).
  { apply lead_eq; [lia| |].
    - intros i a Hi Ha. rewrite list_delete_lookup, decide_True in Ha by done.
      apply elt_lt_iff. left. simpl. destruct p as [|q]; [lia|].
      destruct (lookup_lt_is_Some_2 E q ltac:(lia)) as [b Hb]. specialize (Hprev q b eq_refl Hb).
      destruct (decide (i = q)) as [->|]; [by simplify_eq|].
      destruct (sorted_score _ HE i q a b) as [?|?]; [lia|done|done| |];
        eauto using flt_trans, feq_flt_trans.
    - intros a Ha. rewrite list_delete_lookup, decide_False in Ha by lia.
      specialize (Hnext a Ha). unfold elt_lt. simpl.
      rewrite (flt_asym _ _ Hnext). destruct (feq a.1 s') eqn:E'; [|done].
      apply feq_sym in E'. apply flt_feq_false in Hnext. congruence. }
  unfold place. rewrite Hlead. apply list_eq. intros i. rewrite list_add_lookup by lia.
  destruct (decide (i = p)) as [->|Hne].
  - rewrite decide_False by lia. by rewrite list_lookup_insert_eq.
  - rewrite list_lookup_insert_ne by done. rewrite list_delete_lookup.
    repeat case_decide; try lia; [done|]. rewrite list_delete_lookup, decide_False by lia. f_equal. lia.
Qed.

Lemma sortedE_delete E p : sortedE E → sortedE (delete p E).
Proof.
  intros HE. split.
  - intros i j a b Hij Ha Hb. rewrite list_delete_lookup in Ha, Hb.
    repeat case_decide; (eapply (se_lt _ HE); [|exact Ha|exact Hb]; lia).
  - intros a [i Hi]%list_elem_of_lookup. rewrite list_delete_lookup in Hi. apply (se_nn _ HE).
    apply list_elem_of_lookup. case_decide; eauto.
Qed.

(** What the fast-path test of [UpdateScore] reads. *)
Lemma prev_test l c p ex s' :
  rep l c → c !! S p = Some ex →
  ∃ b, match back c (S p) with
       | None => Some true
       | Some q => m ← mem l !! q; Some (flt (score m) s')
       end = Some b ∧
    (b = true → ∀ q a, p = S q → elems c !! q = Some a → flt a.1 s' = true).
Proof.
  intros R Hx. unfold back. case_decide; [exists true; split; [done|]; intros; lia|].
  destruct p as [|p]; [lia|].
  destruct (lookup_lt_is_Some_2 c (S p)) as [e He]; [apply lookup_lt_Some in Hx; lia|].
  replace (S (S p) - 1) with (S p) by lia. rewrite (al_lookup _ _ _ He).
  destruct (rep_node _ _ R _ _ He) as (n & -> & Hs & _). cbn [mbind option_bind].
  eexists. split; [done|]. intros Hb q a Hq Ha. injection Hq as ->.
  rewrite elems_lookup, He in Ha. simplify_eq/=. by rewrite Hs in Hb.
Qed.

Lemma next_test l c p ex s' :
  rep l c → c !! S p = Some ex →
  ∃ b, match al c (S (S p)) with
       | None => Some true
       | Some q => m ← mem l !! q; Some (fgt (score m) s')
       end = Some b ∧
    (b = true → ∀ a, elems c !! S p = Some a → flt s' a.1 = true).
Proof.
  intros R Hx. destruct (c !! S (S p)) as [e|] eqn:He.
  - rewrite (al_lookup _ _ _ He). destruct (rep_node _ _ R _ _ He) as (n & -> & Hs & _).
    cbn [mbind option_bind]. eexists. split; [done|]. intros Hb a Ha.
    rewrite elems_lookup, He in Ha. simplify_eq/=. by rewrite Hs in Hb.
  - rewrite al_ge by (by apply lookup_ge_None). exists true. split; [done|].
    intros _ a Ha. by rewrite elems_lookup, He in Ha.
Qed.

Lemma UpdateScore_repr l E s v s' p draws lv0 draws' :
  repr l E → sortedE E → E !! p = Some (s, v) → randomLevel draws = Some (lv0, draws') →
  ∃ x l' d, UpdateScore l draws s v s' = Some (x, l', d) ∧ (d = draws ∨ d = draws') ∧
    repr l' (place (s', v) (delete p E)).
Proof.
  intros (c & R & <-) HE Hp Hlv.
  destruct (search_elem l c s v p R HE Hp) as (ur & w & ex & Hs & Hur & Hw & Hn & Hx & Hk).
  injection Hk as Hks Hkv. unfold UpdateScore. rewrite Hs. cbn [mbind option_bind].
  rewrite Hw. cbn [mbind option_bind]. rewrite Hn. cbn [mbind option_bind].
  rewrite (rep_next0 _ _ R _ _ Hx). cbn [mbind option_bind].
  destruct (rep_node _ _ R _ _ Hx) as (n & Hmem & Hns & Hnv & Hnp & _).
  rewrite Hmem. cbn [mbind option_bind]. rewrite Hnp.
  destruct (prev_test l c p ex s' R Hx) as (bp & -> & Hbp). cbn [mbind option_bind].
  destruct (next_test l c p ex s' R Hx) as (bn & -> & Hbn). cbn [mbind option_bind].
  destruct (bp && bn) eqn:Hb.
  - apply andb_true_iff in Hb as [-> ->].
    destruct (storeScore_rep l c (S p) ex s' R ltac:(lia) Hx) as (h & -> & R'). cbn [mbind option_bind].
    eexists _, _, _. split; [done|]. split; [by left|].
    rewrite (place_in_place _ p s v) by (done || (by apply Hbp) || (by apply Hbn)).
    eexists. split; [done|]. apply list_eq. intros i. rewrite elems_lookup.
    destruct (decide (i = p)) as [->|].
    + rewrite !list_lookup_insert_eq; [simpl; unfold akey; simpl; by rewrite Hkv| |by eapply lookup_lt_Some].
      by eapply lookup_lt_Some.
    + rewrite !list_lookup_insert_ne by lia. by rewrite elems_lookup.
  - destruct (deleteNode_rep l c (S p) ex ur.*1) as (l1 & -> & R1 & _); [done|lia|done|done|].
    cbn [mbind option_bind]. rewrite Hnv, Hkv.
    destruct (Insert_repr l1 (delete p (elems c)) s' v draws lv0 draws') as (x & l2 & -> & R2);
      [|by apply sortedE_delete|done|].
    { eexists. split; [done|]. rewrite elems_delete by lia. simpl. by rewrite Nat.sub_0_r. }
    eexists _, _, _. split; [done|]. split; [by right|done].
Qed.

(** ** Rank *)

(** Equal elements of a sorted sequence are at the same position. *)
Lemma sorted_equal_pos E p q a b :
  sortedE E → E !! p = Some a → E !! q = Some b → feq a.1 b.1 = true → a.2 = b.2 → p = q.
Proof.
  intros HE Ha Hb Hf Hv. destruct (Nat.lt_trichotomy p q) as [Hlt|[?|Hlt]]; [|done|].
  - pose proof (se_lt _ HE p q a b Hlt Ha Hb) as H. apply elt_lt_iff in H as [H|[_ H]].
    + apply flt_feq_false in H. congruence.
    + rewrite Hv, string_ltb_irrefl in H. done.
  - pose proof (se_lt _ HE q p b a Hlt Hb Ha) as H. apply elt_lt_iff in H as [H|[_ H]].
    + apply flt_feq_false in H. apply feq_sym in Hf. congruence.
    + rewrite Hv, string_ltb_irrefl in H. done.
Qed.

Lemma lessEqual_cuts l c s v p :
  rep l c → sortedE (elems c) → elems c !! p = Some (s, v) →
  cuts l c (λ n _, lessEqual n s v) (S (S p)).
Proof.
  intros R HE Hp. assert (Hlt : p < length (elems c)) by (by eapply lookup_lt_Some).
  rewrite elems_length in Hlt. split; [lia|].
  intros q e n Hq Hqe Hn. destruct (rep_node _ _ R q e Hqe) as (n' & Hn' & Hs & Hv & _). simplify_eq.
  pose proof (elems_at c q e Hqe Hq) as Hk. unfold lessEqual. rewrite Hs, Hv.
  destruct (Nat.lt_trichotomy (q - 1) p) as [H|[H|H]].
  - rewrite bool_decide_eq_true_2 by lia.
    pose proof (se_lt _ HE _ _ _ _ H Hk Hp) as Hl. unfold elt_lt in Hl. simpl in Hl.
    destruct (flt (a_score e) s); [done|]. destruct (feq (a_score e) s); [|done].
    by rewrite string_leb_orb, Hl.
  - rewrite bool_decide_eq_true_2 by lia. rewrite H, Hp in Hk. injection Hk as <- <-.
    rewrite flt_irrefl, feq_refl, string_leb_orb, string_ltb_irrefl, String.eqb_refl; [done|].
    apply (se_nn _ HE (s, v)). apply list_elem_of_lookup. by exists p.
  - rewrite bool_decide_eq_false_2 by lia.
    pose proof (se_lt _ HE _ _ _ _ H Hp Hk) as Hl. apply elt_lt_iff in Hl. simpl in Hl.
    destruct Hl as [Hl|[Hf Hl]].
    + rewrite (flt_asym _ _ Hl). destruct (feq (a_score e) s) eqn:Hf; [|done].
      apply (flt_feq_trans _ _ _ Hl) in Hf. by rewrite flt_irrefl in Hf.
    + apply feq_sym in Hf. rewrite Hf. destruct (flt (a_score e) s) eqn:Hfl.
      { apply flt_feq_false in Hfl. congruence. }
      rewrite string_leb_orb. destruct (String.ltb (a_value e) v) eqn:Hvl; simpl.
      { pose proof (string_ltb_trans _ _ _ Hl Hvl) as Hvv. by rewrite string_ltb_irrefl in Hvv. }
      apply String.eqb_neq. intros Heq. by rewrite Heq, string_ltb_irrefl in Hl.
Qed.

(** The element that [Rank] cannot find: it equals the header. *)
Definition is_header (s : float64) (v : string) : bool :=
  String.eqb "__HEADER" v && feq (f64_neg MaxFloat64) s.

Lemma rank_loop_spec l c s v p i q e :
  rep l c → sortedE (elems c) → elems c !! p = Some (s, v) → is_header s v = false →
  1 <= i <= highestLevel l → c !! q = Some e → i <= a_lvl e → q < S (S p) →
  rank_loop (mem l) s v i (a_loc e) (Z.of_nat q) = Some (Z.of_nat (S p)).
Proof.
  intros R HE Hp Hh Hi. pose proof (lessEqual_cuts l c s v p R HE Hp) as Hcut.
  pose proof (rep_budget _ _ R) as Hbud. pose proof (proj1 Hcut) as Hk.
  revert q e. induction i as [|i IH]; intros q e Hq Hlv Hqk; [lia|]. cbn [rank_loop].
  destruct (walk_spec l c R _ _ Hcut i (budget (mem l)) q e) as (u & eu & -> & Hu & Hpred);
    [lia|done|lia|lia|lia|]. cbn [mbind option_bind].
  destruct (rep_node _ _ R u eu Hu) as (n & -> & Hs & Hv & _). cbn [mbind option_bind].
  pose proof Hpred as (Huk & Hlu & _). rewrite (lv_lookup _ _ _ Hu) in Hlu.
  destruct (equal n s v) eqn:Heq.
  - apply andb_true_iff in Heq as [Hve Hse]. apply String.eqb_eq in Hve. rewrite Hs in Hse. rewrite Hv in Hve.
    destruct u as [|u].
    + rewrite (rep_hdr _ _ R) in Hu. injection Hu as <-. cbn [a_score a_value hdr_elt] in Hse, Hve.
      unfold is_header in Hh. by rewrite Hve, String.eqb_refl, Hse in Hh.
    + rewrite (sorted_equal_pos _ u p (akey eu) (s, v) HE); [done| |done|done|done].
      rewrite elems_lookup, Hu. done.
  - destruct (decide (i = 0)) as [->|Hi0]; [|apply IH; [lia|done|lia|done]].
    exfalso. apply (is_pred_0 l c R) in Hpred; [|lia]. assert (u = S p) as -> by lia.
    rewrite elems_lookup, Hu in Hp. injection Hp as Hks Hkv.
    unfold equal in Heq. rewrite Hs, Hv, Hks, Hkv, String.eqb_refl, feq_refl in Heq; [done|].
    apply (se_nn _ HE (s, v)). apply list_elem_of_lookup. exists p. rewrite elems_lookup, Hu.
    simpl. unfold akey. by rewrite Hks, Hkv.
Qed.

Lemma Rank_repr l E s v p :
  repr l E → sortedE E → E !! p = Some (s, v) → is_header s v = false →
  Rank l s v = Some (Z.of_nat p + 1)%Z.
Proof.
  intros (c & R & <-) HE Hp Hh. pose proof (rep_hl _ _ R).
  unfold Rank. replace (Z.of_nat p + 1)%Z with (Z.of_nat (S p)) by lia.
  apply (rank_loop_spec l c s v p (highestLevel l) 0 (hdr_elt (header l)));
    [done|done|done|done|lia|apply (rep_hdr _ _ R)|simpl; lia|lia].
Qed.

(** ** GetNodeByRank *)

Lemma byrank_cuts l c (r : nat) :
  rep l c → r < length c → cuts l c (λ _ t, t <=? Z.of_nat r)%Z (S r).
Proof.
  intros R Hr. split; [lia|]. intros p e n Hp Hpe Hn.
  case_bool_decide; [apply Z.leb_le|apply Z.leb_gt]; lia.
Qed.

(** The loop finds rank [r] when the list has it; [k] bounds the walk. *)
Lemma byrank_loop_spec l c r k i q e :
  rep l c → cuts l c (λ _ t, t <=? Z.of_nat r)%Z k →
  (k = S r ∨ (k = length c ∧ length c <= r)) →
  1 <= i <= highestLevel l → c !! q = Some e → i <= a_lvl e → q < k →
  byrank_loop (mem l) (Z.of_nat r) i (a_loc e) (Z.of_nat q) = Some (al c r).
Proof.
  intros R Hcut Hkr Hi. pose proof (rep_budget _ _ R) as Hbud. pose proof (proj1 Hcut) as Hk.
  revert q e. induction i as [|i IH]; intros q e Hq Hlv Hqk; [lia|]. cbn [byrank_loop].
  destruct (walk_spec l c R _ _ Hcut i (budget (mem l)) q e) as (u & eu & -> & Hu & Hpred);
    [lia|done|lia|lia|lia|]. cbn [mbind option_bind].
  pose proof Hpred as (Huk & Hlu & _). rewrite (lv_lookup _ _ _ Hu) in Hlu.
  destruct (Z.eqb_spec (Z.of_nat u) (Z.of_nat r)) as [Heq|Hne].
  - assert (u = r) as -> by lia. by rewrite (al_lookup _ _ _ Hu).
  - destruct (decide (i = 0)) as [->|Hi0]; [|apply IH; [lia|done|lia|done]].
    apply (is_pred_0 l c R) in Hpred; [|lia]. destruct Hkr as [->|[-> Hge]]; [lia|].
    simpl. by rewrite al_ge.
Qed.

Lemma GetNodeByRank_rep l c (r : nat) :
  rep l c → 1 <= r → GetNodeByRank l (Z.of_nat r) = Some (al c r).
Proof.
  intros R Hr. unfold GetNodeByRank. destruct (Z.leb_spec (Z.of_nat r) 0); [lia|].
  pose proof (rep_hl _ _ R). pose proof (rep_hdr _ _ R) as Hhdr. pose proof (rep_length _ _ R).
  destruct (decide (r < length c)) as [Hlt|Hge].
  - apply (byrank_loop_spec l c r (S r) (highestLevel l) 0 (hdr_elt (header l)));
      [done|by apply byrank_cuts|by left|lia|done|simpl; lia|lia].
  - apply (byrank_loop_spec l c r (length c) (highestLevel l) 0 (hdr_elt (header l)));
      [done| |right; split; [done|lia]|lia|done|simpl; lia|lia].
    split; [lia|]. intros p e n Hp Hpe Hn. apply lookup_lt_Some in Hpe.
    rewrite bool_decide_eq_true_2 by done. apply Z.leb_le. lia.
Qed.

(** ** Range deletions *)

Definition node_of (a : elt) : Float64Node := mkFNode a.2 a.1.

(** The loop deletes [m] elements from position [k] on: those for which it
    continues. *)
Lemma delete_loop_rep more ups k m : ∀ fuel l c t dict removed,
  rep l c → 1 <= k → k + m <= length c → m < fuel →
  (∀ j, j < highestLevel l → ∃ u eu, ups !! j = Some (a_loc eu) ∧ c !! u = Some eu ∧ is_pred c j k u) →
  (∀ i e n, i < m → c !! (k + i) = Some e → score n = a_score e → value n = a_value e →
     more n (t + Z.of_nat i)%Z = true) →
  (∀ e n, c !! (k + m) = Some e → score n = a_score e → value n = a_value e →
     more n (t + Z.of_nat m)%Z = false) →
  ∃ l', delete_loop fuel more l ups (al c k) t dict removed =
      Some (removed ++ (node_of ∘ akey <$> take m (drop k c)), l',
            foldl (λ d e, delete (a_value e) d) dict (take m (drop k c))) ∧
    rep l' (take k c ++ drop (k + m) c).
Proof.
  induction m as [|m IH]; intros fuel l c t dict removed R Hk Hm Hfuel Hur Hmore Hstop;
    (destruct fuel as [|fuel]; [lia|]); cbn [delete_loop].
  - exists l. rewrite take_0. cbn [fmap list_fmap foldl]. rewrite app_nil_r, Nat.add_0_r, take_drop.
    split; [|done]. unfold al. destruct (c !! k) as [e|] eqn:He; cbn [fmap option_fmap option_map]; [|done].
    destruct (rep_node _ _ R k e He) as (n & -> & Hs & Hv & _). cbn [mbind option_bind].
    rewrite Z.add_0_r in Hstop. rewrite Nat.add_0_r in Hstop. by rewrite (Hstop e n).
  - destruct (lookup_lt_is_Some_2 c k ltac:(lia)) as [e He].
    rewrite (al_lookup _ _ _ He). destruct (rep_node _ _ R k e He) as (n & -> & Hs & Hv & _).
    cbn [mbind option_bind].
    pose proof (Hmore 0 e n ltac:(lia)) as Hm0. rewrite Nat.add_0_r, Z.add_0_r in Hm0.
    rewrite Hm0 by done. rewrite (rep_next0 _ _ R k e He). cbn [mbind option_bind].
    destruct (deleteNode_rep l c k e ups) as (l1 & -> & R1 & Hhl & Hi); [done|lia|done|done|].
    cbn [mbind option_bind]. rewrite (rep_info _ _ R k e He) in Hi.
    destruct (info_node _ _ _ _ _ _ Hi) as (n1 & -> & Hs1 & Hv1 & _). cbn [mbind option_bind].
    assert (Hlen : length (delete k c) = length c - 1) by (apply length_del; lia).
    assert (Hal : al c (S k) = al (delete k c) k) by (by rewrite al_delete, decide_False by lia).
    rewrite Hal, Hs1, Hv1.
    destruct (IH fuel l1 (delete k c) (t + 1)%Z (delete (a_value e) dict)
      (removed ++ [mkFNode (a_value e) (a_score e)])) as (l2 & -> & R2); [done|lia|lia|lia| | | |].
    + intros j Hj. destruct (Hur j ltac:(lia)) as (u & eu & Hu & Hcu & Hp). exists u, eu.
      pose proof Hp as (? & _). split_and!; [done| |by apply is_pred_del; [lia|]].
      by rewrite list_delete_lookup, decide_True by lia.
    + intros i f n' Hi' Hf. rewrite list_delete_lookup, decide_False in Hf by lia.
      replace (t + 1 + Z.of_nat i)%Z with (t + Z.of_nat (S i))%Z by lia.
      apply Hmore; [lia|]. by replace (k + S i) with (S (k + i)) by lia.
    + intros f n' Hf. rewrite list_delete_lookup, decide_False in Hf by lia.
      replace (t + 1 + Z.of_nat m)%Z with (t + Z.of_nat (S m))%Z by lia.
      apply Hstop. by replace (k + S m) with (S (k + m)) by lia.
    + exists l2. rewrite (drop_S c e k He).
      assert (Hd : delete k c = take k c ++ drop (S k) c) by apply delete_take_drop.
      assert (Hd1 : drop k (delete k c) = drop (S k) c).
      { rewrite Hd. rewrite drop_app_ge by (rewrite length_take; lia).
        rewrite length_take. replace (k - k `min` length c) with 0 by lia. done. }
      rewrite Hd1. split.
      * do 2 f_equal. rewrite <- app_assoc. done.
      * replace (take k c ++ drop (k + S m) c) with (take k (delete k c) ++ drop (k + m) (delete k c));
          [done|]. f_equal.
        -- rewrite Hd. rewrite take_app_le by (rewrite length_take; lia). rewrite take_take. f_equal. lia.
        -- rewrite <- (drop_drop (delete k c)), Hd1, drop_drop. f_equal. lia.
Qed.

Definition forget (dict : gmap string float64) (L : list elt) : gmap string float64 :=
  foldl (λ d a, delete a.2 d) dict L.

Lemma forget_fmap dict (L : list aelt) :
  foldl (λ d e, delete (a_value e) d) dict L = forget dict (akey <$> L).
Proof. revert dict. induction L as [|e L IH]; intros dict; simpl; [done|]. apply IH. Qed.

Lemma elems_slice c k m : 1 <= k → akey <$> take m (drop k c) = take m (drop (k - 1) (elems c)).
Proof.
  intros Hk. unfold elems. rewrite fmap_take, !fmap_drop, drop_drop. do 2 f_equal. lia.
Qed.

Lemma elems_cut c k m :
  1 <= k <= length c →
  elems (take k c ++ drop (k + m) c) = take (k - 1) (elems c) ++ drop (k - 1 + m) (elems c).
Proof.
  intros Hk. unfold elems. rewrite drop_app_le by (rewrite length_take; lia).
  rewrite fmap_app. f_equal.
  - rewrite fmap_drop, !fmap_take, fmap_drop. by rewrite skipn_firstn_comm.
  - rewrite !fmap_drop, drop_drop. f_equal. lia.
Qed.

(** The search, then the loop: [a] elements stay, the next [m] go. *)
Lemma delete_from l c (cond more : float64ListNode → Z → bool) a m dict t :
  rep l c → cuts l c cond (S a) → a + m <= length (elems c) →
  (∀ i x n, i < m → elems c !! (a + i) = Some x → (score n, value n) = x →
     more n (t + Z.of_nat i)%Z = true) →
  (∀ x n, elems c !! (a + m) = Some x → (score n, value n) = x →
     more n (t + Z.of_nat m)%Z = false) →
  ∃ ur w x l', search l cond = Some ur ∧ ur !! 0 = Some (w, Z.of_nat a) ∧
    loadNext (mem l) w 0 = Some x ∧
    delete_loop (budget (mem l)) more l ur.*1 x t dict [] =
      Some (node_of <$> take m (drop a (elems c)), l', forget dict (take m (drop a (elems c)))) ∧
    repr l' (take a (elems c) ++ drop (a + m) (elems c)).
Proof.
  intros R Hcut Ham Hmore Hstop. rewrite elems_length in Ham.
  destruct (search_spec l c R _ _ Hcut) as (ur & Hs & Hlen & Hur). pose proof (rep_hl _ _ R).
  destruct (preds_0 l c (S a) ur R (proj1 Hcut) (Hur 0 ltac:(lia))) as (e0 & He0 & Hur0).
  replace (S a - 1) with a in He0 by lia. pose proof (proj1 Hcut). pose proof (rep_budget _ _ R).
  destruct (delete_loop_rep more ur.*1 (S a) m (budget (mem l)) l c t dict []) as (l' & Hrun & R');
    [done|lia|lia|lia| | | |].
  - intros j Hj. by apply preds_ups, Hur.
  - intros i e n Hi He Hns Hnv. apply (Hmore i (akey e) n Hi).
    + rewrite elems_lookup. change (S (a + i)) with (S a + i). by rewrite He.
    + by rewrite Hns, Hnv.
  - intros e n He Hns Hnv. apply (Hstop (akey e) n).
    + rewrite elems_lookup. change (S (a + m)) with (S a + m). by rewrite He.
    + by rewrite Hns, Hnv.
  - exists ur, (a_loc e0), (al c (S a)), l'. split_and!; [done| |by apply (rep_next0 _ _ R)| |].
    + rewrite Hur0. do 2 f_equal. lia.
    + rewrite Hrun. cbn [app]. rewrite forget_fmap, list_fmap_compose, elems_slice by lia.
      by replace (S a - 1) with a by lia.
    + eexists. split; [done|]. rewrite elems_cut by lia. by replace (S a - 1) with a by lia.
Qed.

(** An element whose score lies in the range. *)
Definition in_range (min max : float64) (opt : RangeOpt) (a : elt) : bool :=
  greaterThanMin a.1 min (ExcludeMin opt) && lessThanMax a.1 max (ExcludeMax opt).

Definition range_start (min : float64) (opt : RangeOpt) (E : list elt) : nat :=
  lead (λ a, negb (greaterThanMin a.1 min (ExcludeMin opt))) E.
Definition range_count (min max : float64) (opt : RangeOpt) (E : list elt) : nat :=
  lead (λ a, lessThanMax a.1 max (ExcludeMax opt)) (drop (range_start min opt E) E).

Lemma sortedE_drop E n : sortedE E → sortedE (drop n E).
Proof.
  intros HE. split.
  - intros i j a b Hij Ha Hb. rewrite lookup_drop in Ha, Hb.
    eapply (se_lt _ HE); [|exact Ha|exact Hb]. lia.
  - intros a [i Hi]%list_elem_of_lookup. rewrite lookup_drop in Hi. apply (se_nn _ HE).
    apply list_elem_of_lookup. eauto.
Qed.

(** In a sorted sequence the elements of a score range are a slice. *)
Lemma range_slice E min max opt :
  sortedE E →
  filter (λ a, in_range min max opt a = true) E =
    take (range_count min max opt E) (drop (range_start min opt E) E) ∧
  filter (λ a, in_range min max opt a = false) E =
    take (range_start min opt E) E ++
    drop (range_start min opt E + range_count min max opt E) E.
Proof.
  intros HE. set (a := range_start min opt E). set (m := range_count min max opt E).
  assert (Hlow : ∀ x, x ∈ take a E → in_range min max opt x = false).
  { intros x [i Hi]%list_elem_of_lookup. apply lookup_take_Some in Hi as [Hi Hlt].
    apply (lead_lt _ _ _ _ Hi) in Hlt. apply negb_true_iff in Hlt. unfold in_range. by rewrite Hlt. }
  assert (Hge : ∀ x i, drop a E !! i = Some x → greaterThanMin x.1 min (ExcludeMin opt) = true).
  { intros x i Hi. rewrite lookup_drop in Hi.
    pose proof (lead_spec _ _ _ _ (notmin_down E HE min (ExcludeMin opt)) Hi) as H.
    change (lead _ E) with a in H. rewrite bool_decide_eq_false_2 in H by lia.
    by apply negb_false_iff in H. }
  pose proof (sortedE_drop E a HE) as HD.
  assert (Hmid : ∀ x, x ∈ take m (drop a E) → in_range min max opt x = true).
  { intros x [i Hi]%list_elem_of_lookup. apply lookup_take_Some in Hi as [Hi Hlt].
    unfold in_range. rewrite (Hge x i Hi). simpl.
    by apply (lead_lt (λ a, lessThanMax a.1 max (ExcludeMax opt)) _ _ _ Hi). }
  assert (Hhigh : ∀ x, x ∈ drop (a + m) E → in_range min max opt x = false).
  { intros x [i Hi]%list_elem_of_lookup. rewrite lookup_drop, <- Nat.add_assoc, <- lookup_drop in Hi.
    pose proof (lead_spec _ _ _ _ (lessThanMax_down _ HD max (ExcludeMax opt)) Hi) as H.
    change (lead _ (drop a E)) with m in H. rewrite bool_decide_eq_false_2 in H by lia.
    unfold in_range. rewrite H. apply andb_false_r. }
  split.
  - rewrite (slice_split a m E) at 1. rewrite !list.filter_app.
    rewrite (filter_none _ (take a E)) by (intros x Hx; by rewrite Hlow).
    rewrite (filter_all _ (take m (drop a E))) by done.
    rewrite (filter_none _ (drop (a + m) E)) by (intros x Hx; by rewrite Hhigh).
    by rewrite app_nil_r.
  - rewrite (slice_split a m E) at 1. rewrite !list.filter_app.
    rewrite (filter_all _ (take a E)) by done.
    rewrite (filter_none _ (take m (drop a E))) by (intros x Hx; by rewrite Hmid).
    by rewrite (filter_all _ (drop (a + m) E)) by done.
Qed.

Lemma range_count_le min max opt E :
  range_start min opt E + range_count min max opt E <= length E.
Proof.
  unfold range_count. pose proof (lead_le (λ a, lessThanMax a.1 max (ExcludeMax opt))
    (drop (range_start min opt E) E)) as H.
  rewrite length_drop in H.
  pose proof (lead_le (λ a, negb (greaterThanMin a.1 min (ExcludeMin opt))) E).
  unfold range_start in *. lia.
Qed.

Lemma DeleteRangeByScore_repr l E min max opt dict :
  repr l E → sortedE E →
  ∃ l', DeleteRangeByScore l min max opt dict =
      Some (node_of <$> filter (λ a, in_range min max opt a = true) E, l',
            forget dict (filter (λ a, in_range min max opt a = true) E)) ∧
    repr l' (filter (λ a, in_range min max opt a = false) E).
Proof.
  intros (c & R & <-) HE. destruct (range_slice (elems c) min max opt HE) as [-> ->].
  set (a := range_start min opt (elems c)). set (m := range_count min max opt (elems c)).
  assert (Hcut : cuts l c (λ n _, negb (greaterThanMin (score n) min (ExcludeMin opt))) (S a)).
  { by apply (cuts_lead l c (λ a, negb (greaterThanMin a.1 min (ExcludeMin opt)))); [|apply notmin_down|]. }
  destruct (delete_from l c _ (λ n _, lessThanMax (score n) max (ExcludeMax opt)) a m dict 0
    R Hcut (range_count_le _ _ _ _)) as (ur & w & x & l' & Hs & Hw & Hx & Hd & R').
  - intros i y n Hi Hy <-. rewrite <- lookup_drop in Hy.
    by apply (lead_lt (λ a, lessThanMax a.1 max (ExcludeMax opt)) _ _ _ Hy).
  - intros y n Hy <-. rewrite <- lookup_drop in Hy.
    by apply (lead_at (λ a, lessThanMax a.1 max (ExcludeMax opt)) _ _ Hy).
  - exists l'. split; [|done]. unfold DeleteRangeByScore. rewrite Hs. cbn [mbind option_bind].
    rewrite list_lookup_fmap, Hw. cbn [mbind option_bind fmap option_fmap option_map fst].
    rewrite Hx. cbn [mbind option_bind]. exact Hd.
Qed.

(** How many elements precede rank [start] (1-based) and how many of the
    following ones have a rank of at most [stop]. *)
Definition rank_start (start : Z) (E : list elt) : nat := Z.to_nat (start - 1) `min` length E.
Definition rank_count (start stop : Z) (E : list elt) : nat :=
  Z.to_nat (stop - Z.of_nat (rank_start start E)) `min` (length E - rank_start start E).

Lemma DeleteRangeByRank_repr l E start stop dict :
  repr l E →
  let a := rank_start start E in let m := rank_count start stop E in
  ∃ l', DeleteRangeByRank l start stop dict =
      Some (node_of <$> take m (drop a E), l', forget dict (take m (drop a E))) ∧
    repr l' (take a E ++ drop (a + m) E).
Proof.
  intros (c & R & <-) a m. pose proof (rep_length _ _ R) as Hlen.
  assert (Ha : a <= length (elems c)) by (unfold a, rank_start; lia).
  assert (Hm : a + m <= length (elems c)) by (unfold m, rank_count; lia).
  assert (Hcut : cuts l c (λ _ r, r <? start)%Z (S a)).
  { rewrite elems_length in Ha. split; [lia|]. intros p e n Hp Hpe _. apply lookup_lt_Some in Hpe.
    unfold a, rank_start. rewrite elems_length. case_bool_decide; [apply Z.ltb_lt|apply Z.ltb_ge]; lia. }
  destruct (delete_from l c _ (λ _ t, t <=? stop)%Z a m dict (Z.of_nat a + 1) R Hcut Hm)
    as (ur & w & x & l' & Hs & Hw & Hx & Hd & R').
  - intros i y n Hi _ _. apply Z.leb_le. unfold m, rank_count in Hi. fold a in Hi. lia.
  - intros y n Hy _. apply lookup_lt_Some in Hy. apply Z.leb_gt. unfold m, rank_count in *. fold a in Hy |- *. lia.
  - exists l'. split; [|done]. unfold DeleteRangeByRank. rewrite Hs. cbn [mbind option_bind].
    rewrite Hw. cbn [mbind option_bind]. rewrite Hx. cbn [mbind option_bind]. exact Hd.
Qed.

(** * Traversals of the skip list by score and by rank

    Functional specifications of [IsInRange], [FirstInRange] and
    [LastInRange] (structure/zset/skiplist.go) and of the forward and backward
    walks that the sorted set makes from a node, all stated on the sequence of
    elements the list represents. *)

(** ** FirstInRange and LastInRange *)

Lemma empty_range min max opt a :
  fgt min max || (feq min max && (ExcludeMin opt || ExcludeMax opt)) = true →
  in_range min max opt a = false.
Proof.
  intros H. destruct (in_range min max opt a) eqn:Hin; [|done]. exfalso.
  unfold in_range, greaterThanMin, lessThanMax in Hin. apply andb_true_iff in Hin as [H1 H2].
  assert (Hmin : flt min a.1 = true ∨ (ExcludeMin opt = false ∧ feq min a.1 = true)).
  { destruct (ExcludeMin opt); [by left|]. unfold fge in H1.
    change (SFleb min a.1) with (fle min a.1) in H1. rewrite fle_orb in H1.
    apply orb_true_iff in H1. tauto. }
  assert (Hmax : flt a.1 max = true ∨ (ExcludeMax opt = false ∧ feq a.1 max = true)).
  { destruct (ExcludeMax opt); [by left|]. rewrite fle_orb in H2. apply orb_true_iff in H2. tauto. }
  assert (Hlt : flt min max = true ∨ (feq min max = true ∧ ExcludeMin opt = false ∧ ExcludeMax opt = false)).
  { destruct Hmin as [Ha|[? Ha]], Hmax as [Hb|[? Hb]];
      [left; exact (flt_trans _ _ _ Ha Hb)|left; exact (flt_feq_trans _ _ _ Ha Hb)
      |left; exact (feq_flt_trans _ _ _ Ha Hb)|right; split_and!; [exact (feq_trans _ _ _ Ha Hb)|done..]]. }
  apply orb_true_iff in H as [H|H].
  - change (fgt min max) with (flt max min) in H.
    destruct Hlt as [Hlt|[Hlt _]].
    + pose proof (flt_trans _ _ _ H Hlt) as Hc. by rewrite flt_irrefl in Hc.
    + pose proof (flt_feq_trans _ _ _ H Hlt) as Hc. by rewrite flt_irrefl in Hc.
  - apply andb_true_iff in H as [Hf Hex]. destruct Hlt as [Hlt|(_ & He1 & He2)].
    + apply flt_feq_false in Hlt. congruence.
    + by rewrite He1, He2 in Hex.
Qed.

(** [IsInRange] is false only when no element is in the range; when it is true
    the bounds overlap those of the list. *)
Lemma IsInRange_rep l c min max opt :
  rep l c → sortedE (elems c) →
  ∃ b, IsInRange l min max opt = Some b ∧
    (b = false → ∀ a, a ∈ elems c → in_range min max opt a = false) ∧
    (b = true → ∃ f z, elems c !! 0 = Some f ∧ elems c !! (length (elems c) - 1) = Some z ∧
       lessThanMax f.1 max (ExcludeMax opt) = true ∧ greaterThanMin z.1 min (ExcludeMin opt) = true).
Proof.
  intros R HE. unfold IsInRange. case_match eqn:Hempty.
  { exists false. split_and!; [done| |done]. intros _ a _. by apply empty_range. }
  rewrite (rep_tail _ _ R). unfold back. case_decide as Hl.
  { exists false. split_and!; [done| |done]. intros _ a [i Hi]%list_elem_of_lookup.
    apply lookup_lt_Some in Hi. rewrite elems_length in Hi. lia. }
  destruct (lookup_lt_is_Some_2 c (length c - 1) ltac:(lia)) as [z Hz].
  destruct (lookup_lt_is_Some_2 c 1 ltac:(lia)) as [f Hf].
  rewrite (al_lookup _ _ _ Hz). destruct (rep_node _ _ R _ _ Hz) as (nz & -> & Hzs & _).
  cbn [mbind option_bind]. rewrite Hzs.
  assert (Hzk : elems c !! (length (elems c) - 1) = Some (akey z)).
  { rewrite elems_length, elems_lookup. replace (S (length c - 1 - 1)) with (length c - 1) by lia. by rewrite Hz. }
  assert (Hfk : elems c !! 0 = Some (akey f)) by (by rewrite elems_lookup, Hf).
  destruct (greaterThanMin (a_score z) min (ExcludeMin opt)) eqn:Hgz; cbn [negb].
  - change (header l) with (a_loc (hdr_elt (header l))). rewrite (rep_next0 _ _ R 0 _ (rep_hdr _ _ R)).
    cbn [mbind option_bind]. rewrite (al_lookup _ _ _ Hf).
    destruct (rep_node _ _ R _ _ Hf) as (nf & -> & Hfs & _). cbn [mbind option_bind]. rewrite Hfs.
    eexists. split_and!; [done| |].
    + intros Hb a [i Hi]%list_elem_of_lookup. unfold in_range. apply andb_false_iff. right.
      destruct (decide (i = 0)) as [->|]; [by rewrite Hfk in Hi; injection Hi as <-|].
      destruct (lessThanMax a.1 max (ExcludeMax opt)) eqn:Ha; [|done].
      rewrite <- Hb. symmetry. apply (lessThanMax_down _ HE max (ExcludeMax opt) 0 i (akey f) a); [lia|done..].
    + intros Hb. by exists (akey f), (akey z).
  - exists false. split_and!; [done| |done]. intros _ a [i Hi]%list_elem_of_lookup.
    apply lookup_lt_Some in Hi as Hlt. unfold in_range. apply andb_false_iff. left.
    destruct (decide (i = length (elems c) - 1)) as [->|]; [by rewrite Hzk in Hi; injection Hi as <-|].
    destruct (greaterThanMin a.1 min (ExcludeMin opt)) eqn:Ha; [|done].
    rewrite <- Hgz. symmetry.
    apply (greaterThanMin_up _ HE min (ExcludeMin opt) i (length (elems c) - 1) a (akey z)); [lia|done..].
Qed.

Lemma no_range E min max opt :
  sortedE E → (∀ a, a ∈ E → in_range min max opt a = false) → range_count min max opt E = 0.
Proof.
  intros HE Hno. destruct (range_slice E min max opt HE) as [Hs _].
  rewrite filter_none in Hs by (intros a Ha; by rewrite Hno). symmetry in Hs.
  apply (f_equal length) in Hs. rewrite length_take, length_drop in Hs. simpl in Hs.
  pose proof (range_count_le min max opt E). lia.
Qed.

Lemma FirstInRange_rep l c min max opt :
  rep l c → sortedE (elems c) →
  FirstInRange l min max opt =
    Some (if decide (range_count min max opt (elems c) = 0) then None
          else al c (S (range_start min opt (elems c)))).
Proof.
  intros R HE. unfold FirstInRange.
  destruct (IsInRange_rep l c min max opt R HE) as (b & -> & Hfalse & Htrue). cbn [mbind option_bind].
  destruct b; cbn [negb]; [|by rewrite decide_True by (by apply no_range; [|apply Hfalse])].
  destruct (Htrue eq_refl) as (f & z & Hf & Hz & Hfm & Hzm).
  set (a := range_start min opt (elems c)).
  assert (Ha : a < length (elems c)).
  { pose proof (lead_le (λ a, negb (greaterThanMin a.1 min (ExcludeMin opt))) (elems c)) as Hle.
    pose proof (lead_spec _ _ _ _ (notmin_down _ HE min (ExcludeMin opt)) Hz) as Hs. cbn in Hs.
    rewrite Hzm in Hs. symmetry in Hs. apply bool_decide_eq_false in Hs.
    apply lookup_lt_Some in Hz. fold (range_start min opt (elems c)) in Hle, Hs. fold a in Hle, Hs. lia. }
  assert (Hcut : cuts l c (λ n _, negb (greaterThanMin (score n) min (ExcludeMin opt))) (S a)).
  { by apply (cuts_lead l c (λ a, negb (greaterThanMin a.1 min (ExcludeMin opt)))); [|apply notmin_down|]. }
  destruct (search_spec l c R _ _ Hcut) as (ur & -> & Hlen & Hur). pose proof (rep_hl _ _ R).
  destruct (preds_0 l c (S a) ur R (proj1 Hcut) (Hur 0 ltac:(lia))) as (e0 & He0 & Hur0).
  replace (S a - 1) with a in He0 by lia. cbn [mbind option_bind]. rewrite Hur0. cbn [mbind option_bind].
  rewrite (rep_next0 _ _ R _ _ He0). cbn [mbind option_bind].
  rewrite elems_length in Ha. destruct (lookup_lt_is_Some_2 c (S a) ltac:(lia)) as [e He].
  rewrite (al_lookup _ _ _ He). cbn [mbind option_bind].
  destruct (rep_node _ _ R _ _ He) as (n & -> & Hs & _). cbn [mbind option_bind]. rewrite Hs.
  assert (Hd : drop a (elems c) = akey e :: drop (S a) (elems c)).
  { apply drop_S. rewrite elems_lookup. by rewrite He. }
  unfold range_count. fold a. rewrite Hd. cbn [lead]. cbn [akey fst].
  destruct (lessThanMax (a_score e) max (ExcludeMax opt)); cbn [negb]; by rewrite ?decide_True, ?decide_False by done.
Qed.

Lemma LastInRange_rep l c min max opt :
  rep l c → sortedE (elems c) →
  LastInRange l min max opt =
    Some (if decide (range_count min max opt (elems c) = 0) then None
          else al c (range_start min opt (elems c) + range_count min max opt (elems c))).
Proof.
  intros R HE. unfold LastInRange.
  destruct (IsInRange_rep l c min max opt R HE) as (b & -> & Hfalse & Htrue). cbn [mbind option_bind].
  destruct b; cbn [negb]; [|by rewrite decide_True by (by apply no_range; [|apply Hfalse])].
  destruct (Htrue eq_refl) as (f & z & Hf & Hz & Hfm & Hzm).
  set (P := λ a : elt, lessThanMax a.1 max (ExcludeMax opt)). set (k := lead P (elems c)).
  pose proof (lessThanMax_down _ HE max (ExcludeMax opt)) as Hdown. fold P in Hdown.
  pose proof (lead_le P (elems c)) as Hk. fold k in Hk.
  assert (Hk1 : 1 <= k).
  { pose proof (lead_spec _ _ _ _ Hdown Hf) as H. unfold P in H at 1. cbn in H. rewrite Hfm in H.
    symmetry in H. apply bool_decide_eq_true in H. fold k in H. lia. }
  assert (Hcut : cuts l c (λ n _, lessThanMax (score n) max (ExcludeMax opt)) (S k)).
  { by apply (cuts_lead l c P). }
  destruct (search_spec l c R _ _ Hcut) as (ur & -> & Hlen & Hur). pose proof (rep_hl _ _ R).
  destruct (preds_0 l c (S k) ur R (proj1 Hcut) (Hur 0 ltac:(lia))) as (e & He & Hur0).
  replace (S k - 1) with k in He by lia. cbn [mbind option_bind]. rewrite Hur0. cbn [mbind option_bind].
  destruct (rep_node _ _ R _ _ He) as (n & -> & Hs & _). cbn [mbind option_bind]. rewrite Hs.
  pose proof (elems_at _ _ _ He ltac:(lia)) as Hke.
  pose proof (lead_spec _ _ _ _ Hdown Hke) as HPe. fold k in HPe.
  rewrite bool_decide_eq_true_2 in HPe by lia. unfold P in HPe; cbn in HPe.
  destruct (range_slice (elems c) min max opt HE) as [Hin _]. pose proof (range_count_le min max opt (elems c)) as Hle.
  destruct (greaterThanMin (a_score e) min (ExcludeMin opt)) eqn:Hg; cbn [negb].
  - (* the last element below the maximum is the last of the slice *)
    pose proof (lead_spec _ _ _ _ (notmin_down _ HE min (ExcludeMin opt)) Hke) as Hst. cbn in Hst.
    rewrite Hg in Hst. symmetry in Hst. apply bool_decide_eq_false in Hst.
    fold (range_start min opt (elems c)) in Hst. set (a := range_start min opt (elems c)) in *.
    assert (Hm : range_count min max opt (elems c) = k - a).
    { unfold range_count. fold a. change (lead _ _) with (lead P (drop a (elems c))).
      apply lead_eq; [rewrite length_drop; lia| |].
      - intros i x Hi Hx. rewrite lookup_drop in Hx. apply (lead_lt _ _ _ _ Hx). fold k. lia.
      - intros x Hx. rewrite lookup_drop in Hx. replace (a + (k - a)) with k in Hx by lia.
        by apply (lead_at _ _ _ Hx). }
    rewrite decide_False by lia. rewrite Hm. replace (a + (k - a)) with k by lia.
    by rewrite (al_lookup _ _ _ He).
  - rewrite decide_True; [done|]. unfold range_count.
    set (a := range_start min opt (elems c)) in *. fold P.
    assert (Hka : k - 1 < a).
    { pose proof (lead_spec _ _ _ _ (notmin_down _ HE min (ExcludeMin opt)) Hke) as Hst. cbn in Hst.
      rewrite Hg in Hst. symmetry in Hst. by apply bool_decide_eq_true in Hst. }
    apply lead_eq; [lia| |]; [intros i x ? ?; lia|].
    intros x Hx. rewrite lookup_drop in Hx.
    rewrite (lead_spec _ _ _ _ Hdown Hx). fold k. apply bool_decide_eq_false. lia.
Qed.
