(* ===== verification/ZSet.v ===== *)
(** * The sorted set of structure/zset/zset.go

    A [Float64Set] is a map from values to scores together with the skip list
    of the same elements.  Every method runs under the set's mutex, so each is
    one atomic function of the state; [None] is a nil dereference or an index
    out of range.  The methods that insert take the random draws that the skip
    list's [randomLevel] consumes and return those that are left. *)

From S2P Require Import Prelude GoFloat SkipList.

Record Float64Set := mkSet { dict : gmap string float64; zlist : float64List }.

Definition NewFloat64 : Float64Set := mkSet ∅ newFloat64List.

Definition noOpt : RangeOpt := mkOpt false false.

Definition Len (z : Float64Set) : Z := llength (zlist z).

Definition Add (z : Float64Set) (draws : list Z) (s : float64) (v : string)
    : option (bool * Float64Set * list Z) :=
  if isNaN s then Some (false, z, draws)
  else
    match dict z !! v with
    | Some oldScore =>
        if negb (feq s oldScore) then
          '(_, l, draws) ← UpdateScore (zlist z) draws oldScore v s;
          Some (false, mkSet (<[v := s]> (dict z)) l, draws)
        else Some (false, z, draws)
    | None =>
        '(_, l, draws) ← Insert (zlist z) draws s v;
        Some (true, mkSet (<[v := s]> (dict z)) l, draws)
    end.

Definition Remove (z : Float64Set) (v : string) : option (float64 * bool * Float64Set) :=
  match dict z !! v with
  | None => Some (f64_zero, false, z)
  | Some s =>
      let d := delete v (dict z) in
      '(_, l) ← Delete (zlist z) s v;
      Some (s, true, mkSet d l)
  end.

Definition IncrBy (z : Float64Set) (draws : list Z) (incr : float64) (v : string)
    : option (float64 * bool * Float64Set * list Z) :=
  if isNaN incr then
    match dict z !! v with
    | Some oldScore => Some (oldScore, true, z, draws)
    | None => Some (f64_zero, false, z, draws)
    end
  else
    match dict z !! v with
    | None =>
        '(_, l, draws) ← Insert (zlist z) draws incr v;
        Some (incr, false, mkSet (<[v := incr]> (dict z)) l, draws)
    | Some oldScore =>
        let newScore := f64_add oldScore incr in
        if isNaN newScore then Some (oldScore, true, z, draws)
        else
          '(_, l, draws) ← UpdateScore (zlist z) draws oldScore v newScore;
          Some (newScore, true, mkSet (<[v := newScore]> (dict z)) l, draws)
    end.

(** The score of an absent value is the zero value of the map's lookup. *)
Definition ScoreOf (z : Float64Set) (v : string) : float64 * bool :=
  match dict z !! v with Some s => (s, true) | None => (f64_zero, false) end.

Definition Contains (z : Float64Set) (v : string) : bool := (ScoreOf z v).2.

Definition RankOf (z : Float64Set) (v : string) : option Z :=
  match dict z !! v with
  | None => Some (-1)%Z
  | Some s => r ← Rank (zlist z) s v; Some (r - 1)%Z
  end.

Definition RevRank (z : Float64Set) (v : string) : option Z :=
  match dict z !! v with
  | None => Some (-1)%Z
  | Some s => r ← Rank (zlist z) s v; Some (llength (zlist z) - r)%Z
  end.

Definition CountWithOpt (z : Float64Set) (min max : float64) (opt : RangeOpt) : option Z :=
  let l := zlist z in
  first ← FirstInRange l min max opt;
  match first with
  | None => Some 0%Z
  | Some x =>
      n ← mem l !! x;
      firstRank ← Rank l (score n) (value n);
      let firstRank := (firstRank - 1)%Z in
      last ← LastInRange l min max opt;
      match last with
      | None => Some (llength l - firstRank)%Z
      | Some y =>
          m ← mem l !! y;
          lastRank ← Rank l (score m) (value m);
          let lastRank := (lastRank - 1)%Z in
          Some (lastRank - firstRank + 1)%Z
      end
  end.

Definition Count (z : Float64Set) (min max : float64) : option Z := CountWithOpt z min max noOpt.

Definition normalizeRankRange (length start stop : Z) : Z * Z * bool :=
  if (length =? 0)%Z then (0, 0, false)%Z
  else
    let start := if (start <? 0)%Z then int_add start length else start in
    let stop := if (stop <? 0)%Z then int_add stop length else stop in
    let start := if (start <? 0)%Z then 0%Z else start in
    if (length <=? start)%Z || (stop <? start)%Z then (0, 0, false)%Z
    else
      let stop := if (length <=? stop)%Z then int_sub length 1 else stop in
      (start, stop, true).

(** The loops that collect elements: from [x], by the [step] given (the forward
    pointer of level 0, or the back pointer), while [more] holds of the node
    and of the counter [start]. *)
Definition step_next (h : heap) (x : loc) : option (option loc) := loadNext h x 0.
Definition step_prev (h : heap) (x : loc) : option (option loc) := n ← h !! x; Some (prev n).

Fixpoint collect (fuel : nat) (step : heap → loc → option (option loc))
    (more : float64ListNode → Z → bool) (h : heap) (x : option loc) (start : Z)
    (res : list Float64Node) : option (list Float64Node) :=
  match fuel with
  | O => None
  | S fuel' =>
      match x with
      | None => Some res
      | Some y =>
          n ← h !! y;
          if more n start then
            nxt ← step h y;
            collect fuel' step more h nxt (start + 1) (res ++ [mkFNode (value n) (score n)])
          else Some res
      end
  end.

Definition RangeOf (z : Float64Set) (start stop : Z) : option (list Float64Node) :=
  let '(start, stop, ok) := normalizeRankRange (llength (zlist z)) start stop in
  if negb ok then Some []
  else
    x ← GetNodeByRank (zlist z) (int_add start 1);
    collect (budget (mem (zlist z))) step_next (λ _ i, i <=? stop)%Z (mem (zlist z)) x start [].

Definition RangeByScoreWithOpt (z : Float64Set) (min max : float64) (opt : RangeOpt)
    : option (list Float64Node) :=
  x ← FirstInRange (zlist z) min max opt;
  collect (budget (mem (zlist z))) step_next
    (λ n _, flt (score n) max || (negb (ExcludeMax opt) && feq (score n) max))
    (mem (zlist z)) x 0 [].

Definition RangeByScore (z : Float64Set) (min max : float64) : option (list Float64Node) :=
  RangeByScoreWithOpt z min max noOpt.

Definition RevRange (z : Float64Set) (start stop : Z) : option (list Float64Node) :=
  let '(start, stop, ok) := normalizeRankRange (llength (zlist z)) start stop in
  if negb ok then Some []
  else
    x ← GetNodeByRank (zlist z) (int_sub (llength (zlist z)) start);
    collect (budget (mem (zlist z))) step_prev (λ _ i, i <=? stop)%Z (mem (zlist z)) x start [].

Definition RevRangeByScoreWithOpt (z : Float64Set) (max min : float64) (opt : RangeOpt)
    : option (list Float64Node) :=
  x ← LastInRange (zlist z) min max opt;
  collect (budget (mem (zlist z))) step_prev
    (λ n _, fgt (score n) min || (negb (ExcludeMin opt) && feq (score n) min))
    (mem (zlist z)) x 0 [].

Definition RevRangeByScore (z : Float64Set) (max min : float64) : option (list Float64Node) :=
  RevRangeByScoreWithOpt z max min noOpt.

Definition RemoveRangeByRank (z : Float64Set) (start stop : Z)
    : option (list Float64Node * Float64Set) :=
  let start := if (start <? 0)%Z then int_add (llength (zlist z)) start else start in
  let stop := if (stop <? 0)%Z then int_add (llength (zlist z)) stop else stop in
  '(removed, l, d) ← DeleteRangeByRank (zlist z) (int_add start 1) (int_add stop 1) (dict z);
  Some (removed, mkSet d l).

Definition RemoveRangeByScoreWithOpt (z : Float64Set) (min max : float64) (opt : RangeOpt)
    : option (list Float64Node * Float64Set) :=
  '(removed, l, d) ← DeleteRangeByScore (zlist z) min max opt (dict z);
  Some (removed, mkSet d l).

Definition RemoveRangeByScore (z : Float64Set) (min max : float64)
    : option (list Float64Node * Float64Set) :=
  RemoveRangeByScoreWithOpt z min max noOpt.

(** ** Union and intersection *)

(** One iteration of the inner loop of [UnionFloat64]. *)
Definition union_node (scores : gmap string float64) (n : Float64Node) : gmap string float64 :=
  let s := match scores !! Value n with
           | Some previous => f64_add (Score n) previous
           | None => Score n
           end in
  <[Value n := s]> scores.

Fixpoint union_scores (zs : list Float64Set) (scores : gmap string float64)
    : option (gmap string float64) :=
  match zs with
  | [] => Some scores
  | z :: zs' =>
      nodes ← RangeOf z 0 (-1);
      union_scores zs' (foldl union_node scores nodes)
  end.

Fixpoint add_all (dest : Float64Set) (draws : list Z) (kvs : list (string * float64))
    : option (Float64Set * list Z) :=
  match kvs with
  | [] => Some (dest, draws)
  | (v, s) :: kvs' => '(_, dest, draws) ← Add dest draws s v; add_all dest draws kvs'
  end.

(** [order] is the order in which the iteration over the map of scores visits
    it, which Go leaves unspecified. *)
Definition UnionFloat64 (order : gmap string float64 → list (string * float64))
    (draws : list Z) (zs : list Float64Set) : option (Float64Set * list Z) :=
  scores ← union_scores zs ∅;
  add_all NewFloat64 draws (order scores).

(** The inner loop of [InterFloat64]: the sum, or [None] at the first set that
    lacks the value. *)
Fixpoint inter_score (zs : list Float64Set) (v : string) (s : float64) : option float64 :=
  match zs with
  | [] => Some s
  | z :: zs' =>
      let '(otherScore, exists_) := ScoreOf z v in
      if negb exists_ then None else inter_score zs' v (f64_add s otherScore)
  end.

Fixpoint inter_loop (zs : list Float64Set) (dest : Float64Set) (draws : list Z)
    (nodes : list Float64Node) : option (Float64Set * list Z) :=
  match nodes with
  | [] => Some (dest, draws)
  | n :: nodes' =>
      match inter_score zs (Value n) (Score n) with
      | Some s => '(_, dest, draws) ← Add dest draws s (Value n); inter_loop zs dest draws nodes'
      | None => inter_loop zs dest draws nodes'
      end
  end.

Definition InterFloat64 (draws : list Z) (zs : list Float64Set) : option (Float64Set * list Z) :=
  match zs with
  | [] => Some (NewFloat64, draws)
  | z :: zs' =>
      nodes ← RangeOf z 0 (-1);
      inter_loop zs' NewFloat64 draws nodes
  end.
