(* ===== verification/ZSetView.v ===== *)
(** * The abstract sorted set

    What a sorted set promises is a function of its map of scores [d] alone:
    [view d] is the sequence of the elements of [d] by score, then by value.
    The file shows that [view d] is the one sorted sequence of the elements of
    [d], how the updates of the map change it, and defines [zset_ok], the
    relation between the state of [ZSet.v] and the abstract set. *)

From S2P Require Import Prelude GoFloat SkipList SkipInv SkipOps SkipSpec ZSet.
From stdpp Require Import sorting.

Definition flip_kv (p : string * float64) : elt := (p.2, p.1).

Definition view (d : gmap string float64) : list elt :=
  foldr place [] (flip_kv <$> map_to_list d).

Definition numbers (d : gmap string float64) : Prop := map_Forall (λ _ s, isNaN s = false) d.

(** The set's map has no NaN, and its skip list holds the view of the map. *)
Record zset_ok (z : Float64Set) : Prop := {
  ok_numbers : numbers (dict z);
  ok_list : repr (zlist z) (view (dict z));
}.

Create HintDb zset.

(** ** Sorted sequences are determined by their elements *)

Lemma place_elem a E b : b ∈ place a E ↔ b = a ∨ b ∈ E.
Proof. unfold place. by rewrite list_add_perm, elem_of_cons. Qed.

Lemma place_length a E : length (place a E) = S (length E).
Proof. apply list_add_length. Qed.

Lemma place_sorted a E :
  sortedE E → isNaN a.1 = false → (∀ b, b ∈ E → b.2 ≠ a.2) → sortedE (place a E).
Proof.
  intros HE Ha Hfresh. pose proof (lead_le (λ b, elt_lt b a) E) as Hk.
  pose proof (elt_lt_down E HE a) as Hd. split.
  - intros p q x y Hpq Hx Hy. unfold place in Hx, Hy. rewrite list_add_lookup in Hx, Hy by done.
    set (k := lead (λ b, elt_lt b a) E) in *. repeat case_decide; try lia.
    + by eapply (se_lt _ HE); [|exact Hx|exact Hy].
    + injection Hy as <-. by apply (lead_lt (λ b, elt_lt b a) _ _ _ Hx).
    + by eapply (se_lt _ HE); [|exact Hx|exact Hy]; lia.
    + injection Hx as <-. assert (Hy' : y ∈ E) by (apply list_elem_of_lookup; eauto).
      destruct (elt_lt_total a y) as [?|Hlt];
        [done|by apply (se_nn _ HE)|by apply not_eq_sym, Hfresh|done|].
      rewrite (lead_spec (λ b, elt_lt b a) _ _ _ Hd Hy) in Hlt.
      apply bool_decide_eq_true in Hlt. fold k in Hlt. lia.
    + eapply (se_lt _ HE); [|exact Hx|exact Hy]. lia.
  - intros b [->|Hb]%place_elem; [done|by apply (se_nn _ HE)].
Qed.

Definition lt_elt (a b : elt) : Prop := elt_lt a b = true.

Lemma sortedE_strongly E : sortedE E → StronglySorted lt_elt E.
Proof.
  induction E as [|a E IH]; intros HE; constructor.
  - apply IH. by apply (sortedE_drop (a :: E) 1).
  - apply Forall_forall. intros b [i Hi]%list_elem_of_lookup.
    apply (se_lt _ HE 0 (S i) a b); [lia|done..].
Qed.

#[global] Instance lt_elt_antisymm : AntiSymm (=) lt_elt.
Proof. intros a b Hab Hba. unfold lt_elt in *. apply elt_lt_asym in Hab. congruence. Qed.

Lemma sortedE_nodup E : sortedE E → NoDup E.
Proof.
  intros HE. apply NoDup_alt. intros i j a Hi Hj.
  destruct (Nat.lt_trichotomy i j) as [H|[H|H]]; [|done|];
    [pose proof (se_lt _ HE i j a a H Hi Hj) as Hlt|pose proof (se_lt _ HE j i a a H Hj Hi) as Hlt];
    by rewrite elt_lt_irrefl in Hlt.
Qed.

Lemma sortedE_unique E E' : sortedE E → sortedE E' → (∀ a, a ∈ E ↔ a ∈ E') → E = E'.
Proof.
  intros HE HE' Heq. apply (StronglySorted_unique lt_elt); [by apply sortedE_strongly..|].
  apply NoDup_Permutation; [by apply sortedE_nodup..|done].
Qed.

Lemma sortedE_nil : sortedE [].
Proof. split; [intros ???? ? H; by rewrite lookup_nil in H|set_solver]. Qed.

(** ** The view of a map *)

Lemma view_list (kvs : list (string * float64)) :
  NoDup kvs.*1 → (∀ v s, (v, s) ∈ kvs → isNaN s = false) →
  sortedE (foldr place [] (flip_kv <$> kvs)) ∧
  ∀ s v, (s, v) ∈ foldr place [] (flip_kv <$> kvs) ↔ (v, s) ∈ kvs.
Proof.
  induction kvs as [|[v s] kvs IH]; simpl; intros Hnd Hnn.
  - split; [apply sortedE_nil|]. intros. by rewrite !elem_of_nil.
  - apply NoDup_cons in Hnd as [Hv Hnd].
    destruct (IH Hnd) as [Hs Hiff]; [intros v' s' ?; apply (Hnn v'); set_solver|]. split.
    + apply place_sorted; [done|apply (Hnn v); set_solver|].
      intros [s' v'] Hin Heq. simpl in Heq. subst v'. apply Hiff in Hin. apply Hv. apply list_elem_of_fmap. by exists (v, s').
    + intros s' v'. rewrite place_elem, elem_of_cons, Hiff. unfold flip_kv. simpl.
      split; (intros [?|?]; [left; congruence|by right]).
Qed.

Lemma view_sorted d : numbers d → sortedE (view d).
Proof.
  intros Hd. apply view_list; [apply NoDup_fst_map_to_list|].
  intros v s Hin%elem_of_map_to_list. by apply (Hd v).
Qed.

Lemma view_elem d s v : numbers d → (s, v) ∈ view d ↔ d !! v = Some s.
Proof.
  intros Hd. rewrite <- elem_of_map_to_list. apply view_list; [apply NoDup_fst_map_to_list|].
  intros v' s' Hin%elem_of_map_to_list. by apply (Hd v').
Qed.

#[export] Hint Resolve view_sorted sortedE_nil : zset.

(** [view d] is the only sorted sequence of the elements of [d]. *)
Lemma view_unique d E :
  numbers d → sortedE E → (∀ s v, (s, v) ∈ E ↔ d !! v = Some s) → E = view d.
Proof.
  intros Hd HE Hiff. apply sortedE_unique; [done|by apply view_sorted|].
  intros [s v]. by rewrite Hiff, view_elem.
Qed.

Lemma view_empty : view ∅ = [].
Proof. unfold view. by rewrite map_to_list_empty. Qed.

Lemma view_length d : length (view d) = size d.
Proof.
  unfold view. rewrite <- length_map_to_list. induction (map_to_list d) as [|x l IH]; [done|].
  cbn [fmap list_fmap foldr length]. by rewrite place_length, <- IH.
Qed.

Lemma numbers_insert d v s : numbers d → isNaN s = false → numbers (<[v := s]> d).
Proof. intros. by apply map_Forall_insert_2. Qed.

Lemma numbers_delete d v : numbers d → numbers (delete v d).
Proof. intros. by apply map_Forall_delete. Qed.

Lemma numbers_empty : numbers ∅.
Proof. apply map_Forall_empty. Qed.

#[export] Hint Resolve numbers_insert numbers_delete numbers_empty : zset.

Lemma view_insert d v s :
  numbers d → isNaN s = false → d !! v = None → view (<[v := s]> d) = place (s, v) (view d).
Proof.
  intros Hd Hs Hv. symmetry. apply view_unique; [auto with zset| |].
  - apply place_sorted; [auto with zset|done|]. intros [s' v'] Hin. simpl. intros ->.
    apply view_elem in Hin; [congruence|done].
  - intros s' v'. rewrite place_elem, view_elem by done.
    destruct (decide (v = v')) as [<-|Hne].
    + rewrite lookup_insert_eq. split; [intros [?|?]; congruence|intros [= ->]; by left].
    + rewrite lookup_insert_ne by done. split; [intros [?|?]; congruence|by right].
Qed.

Lemma view_delete d p v s :
  numbers d → view d !! p = Some (s, v) → view (delete v d) = delete p (view d).
Proof.
  intros Hd Hp. pose proof (view_sorted d Hd) as HE. symmetry.
  apply view_unique; [auto with zset|by apply sortedE_delete|].
  intros s' v'. rewrite lookup_delete_Some, <- (view_elem d) by done.
  pose proof (sortedE_nodup _ HE) as Hnd. pose proof (delete_Permutation _ _ _ Hp) as Hperm.
  assert (Hin : ∀ a, a ∈ view d ↔ a = (s, v) ∨ a ∈ delete p (view d)).
  { intros a. by rewrite Hperm at 1; rewrite elem_of_cons. }
  rewrite Hperm in Hnd. apply NoDup_cons in Hnd as [Hnin _]. split.
  - intros H'. split; [|apply Hin; by right]. intros <-. apply Hnin.
    assert (H1 : (s', v) ∈ view d) by (apply Hin; by right).
    assert (H2 : (s, v) ∈ view d) by (apply Hin; by left).
    apply view_elem in H1, H2; [|done..]. congruence.
  - intros [Hne [[= -> ->]|H']%Hin]; done.
Qed.

(** Moving an element is deleting it and placing it again. *)
Lemma view_update d p v s s' :
  numbers d → isNaN s' = false → view d !! p = Some (s, v) →
  view (<[v := s']> d) = place (s', v) (delete p (view d)).
Proof.
  intros Hd Hs Hp. rewrite <- (view_delete d p v s) by done.
  rewrite <- view_insert; [by rewrite insert_delete_eq|auto with zset|done|apply lookup_delete_eq].
Qed.

Lemma view_lookup d v s : numbers d → d !! v = Some s → ∃ p, view d !! p = Some (s, v).
Proof. intros Hd Hv. by apply list_elem_of_lookup, view_elem. Qed.

(** Forgetting elements of the view leaves the others. *)
Lemma forget_lookup d L v s :
  forget d L !! v = Some s ↔ d !! v = Some s ∧ v ∉ L.*2.
Proof.
  revert d. induction L as [|[s1 v1] L IH]; intros d; simpl; [set_solver|].
  unfold forget in *. simpl. rewrite IH, lookup_delete_Some, not_elem_of_cons. naive_solver.
Qed.

Lemma numbers_forget d L : numbers d → numbers (forget d L).
Proof. intros Hd v s [Hv _]%forget_lookup. by apply (Hd v). Qed.
#[export] Hint Resolve numbers_forget : zset.

Lemma view_forget d L R :
  numbers d → sortedE R → view d ≡ₚ L ++ R → view (forget d L) = R.
Proof.
  intros Hd HR Hp. symmetry. apply view_unique; [auto with zset|done|].
  pose proof (sortedE_nodup _ (view_sorted d Hd)) as Hnd. rewrite Hp in Hnd.
  apply NoDup_app in Hnd as (_ & Hdisj & _).
  intros s v. rewrite forget_lookup, <- view_elem, Hp, elem_of_app by done. split.
  - intros Hin. split; [by right|]. intros [[s' v'] [Hv Hin']]%list_elem_of_fmap. simpl in Hv. subst v'.
    assert (H1 : (s', v) ∈ view d) by (rewrite Hp; set_solver).
    assert (H2 : (s, v) ∈ view d) by (rewrite Hp; set_solver).
    apply view_elem in H1, H2; [|done..]. apply (Hdisj (s', v)); [done|]. congruence.
  - intros [[Hin|Hin] Hv]; [|done]. destruct Hv. apply list_elem_of_fmap. by exists (s, v).
Qed.

(** Cutting out a slice. *)
Lemma cut_lookup {A} (E : list A) a m i :
  a <= length E →
  (take a E ++ drop (a + m) E) !! i = if decide (i < a) then E !! i else E !! (i + m).
Proof.
  intros Ha. case_decide.
  - rewrite lookup_app_l by (rewrite length_take; lia). by apply lookup_take_lt.
  - rewrite lookup_app_r by (rewrite length_take; lia). rewrite length_take, lookup_drop. f_equal. lia.
Qed.

Lemma sortedE_cut E a m : a <= length E → sortedE E → sortedE (take a E ++ drop (a + m) E).
Proof.
  intros Ha HE. split.
  - intros p q x y Hpq. rewrite !cut_lookup by done.
    repeat case_decide; intros Hx Hy; (eapply (se_lt _ HE); [|exact Hx|exact Hy]; lia).
  - intros x [i Hi]%list_elem_of_lookup. rewrite cut_lookup in Hi by done.
    apply (se_nn _ HE). apply list_elem_of_lookup. case_decide; eauto.
Qed.

Lemma view_cut d a m :
  numbers d → a <= length (view d) →
  view (forget d (take m (drop a (view d)))) = take a (view d) ++ drop (a + m) (view d).
Proof.
  intros Hd Ha. apply view_forget; [done|apply sortedE_cut; auto with zset|].
  rewrite (slice_split a m (view d)) at 1. by rewrite app_assoc, (comm app (take a _)), <- app_assoc.
Qed.
