(* ===== verification/ZSetOps.v ===== *)
(** * The methods of the sorted set compute functions of its map

    Specification functions of the abstract set and, for every method of
    [ZSet.v], the lemma that on a state related by [zset_ok] it does not panic,
    returns the abstract result and leaves a related state. *)

From S2P Require Import Prelude GoFloat SkipList SkipInv SkipOps SkipSpec ZSet ZSetView.

(** ** Specification functions *)

(** A rank counted from the end when it is negative. *)
Definition norm (n i : Z) : Z := if decide (i < 0)%Z then (i + n)%Z else i.

(** The inclusive slice between two ranks. *)
Definition rank_slice (start stop : Z) (E : list elt) : list elt :=
  let n := Z.of_nat (length E) in
  let s := Z.max 0 (norm n start) in
  take (Z.to_nat (norm n stop - s + 1)) (drop (Z.to_nat s) E).

Definition add_dict (d : gmap string float64) (s : float64) (v : string) : gmap string float64 :=
  if isNaN s then d
  else match d !! v with
       | Some o => if feq s o then d else <[v := s]> d
       | None => <[v := s]> d
       end.

(** The map does not hold the pair that the skip list's header carries. *)
Definition headerless (d : gmap string float64) : Prop :=
  ∀ s, d !! "__HEADER" = Some s → feq (f64_neg MaxFloat64) s = false.

(** ** Slices *)

Lemma reverse_slice {A} (E : list A) s m :
  s + m <= length E →
  take m (drop s (reverse E)) = reverse (take m (drop (length E - s - m) E)).
Proof.
  intros Hle. set (a := length E - s - m). rewrite (slice_split a m E) at 1.
  rewrite !reverse_app, <- app_assoc.
  rewrite drop_app_length' by (rewrite length_reverse, length_drop; unfold a; lia).
  rewrite take_app_length'; [done|].
  rewrite length_reverse, length_take, length_drop. unfold a. lia.
Qed.

Lemma take_long {A} (l : list A) m m' : m = m' ∨ (length l <= m ∧ length l <= m') → take m l = take m' l.
Proof. intros [->|[? ?]]; [done|]. by rewrite !take_ge. Qed.

Lemma node_of_slice c k m :
  1 <= k → node_of ∘ akey <$> take m (drop k c) = node_of <$> take m (drop (k - 1) (elems c)).
Proof. intros Hk. by rewrite list_fmap_compose, elems_slice. Qed.

(** The slice that [DeleteRangeByRank] removes, given 1-based ranks. *)
Lemma rank_slice_eq start stop E n :
  n = Z.of_nat (length E) →
  take (rank_count (norm n start + 1) (norm n stop + 1) E) (drop (rank_start (norm n start + 1) E) E) =
  rank_slice start stop E.
Proof.
  intros ->. unfold rank_slice. set (s := norm _ start). set (e := norm _ stop).
  unfold rank_count, rank_start. replace (s + 1 - 1)%Z with s by lia.
  destruct (decide (Z.to_nat s <= length E)) as [Hle|Hgt].
  - replace (Z.to_nat s `min` length E) with (Z.to_nat s) by lia.
    replace (Z.to_nat (Z.max 0 s)) with (Z.to_nat s) by lia.
    apply take_long. rewrite length_drop. lia.
  - replace (Z.to_nat s `min` length E) with (length E) by lia. rewrite !drop_ge by lia. by rewrite !take_nil.
Qed.

(** ** The collecting loops *)

Lemma collect_next_rep l c more : rep l c → ∀ m k fuel t res,
  1 <= k → k + m <= length c → m < fuel →
  (∀ i e n, i < m → c !! (k + i) = Some e → score n = a_score e → more n (t + Z.of_nat i)%Z = true) →
  (∀ e n, c !! (k + m) = Some e → score n = a_score e → more n (t + Z.of_nat m)%Z = false) →
  collect fuel step_next more (mem l) (al c k) t res =
    Some (res ++ (node_of ∘ akey <$> take m (drop k c))).
Proof.
  intros R. induction m as [|m IH]; intros k fuel t res Hk Hle Hf Hyes Hno;
    (destruct fuel as [|fuel]; [lia|]); cbn [collect].
  - rewrite take_0, app_nil_r. destruct (c !! k) as [e|] eqn:He; [|by unfold al; rewrite He].
    rewrite (al_lookup _ _ _ He). destruct (rep_node _ _ R _ _ He) as (n & -> & Hs & _).
    cbn [mbind option_bind]. replace t with (t + Z.of_nat 0)%Z by lia.
    by rewrite (Hno e n) by (rewrite ?Nat.add_0_r; done).
  - destruct (lookup_lt_is_Some_2 c k ltac:(lia)) as [e He].
    rewrite (al_lookup _ _ _ He). destruct (rep_node _ _ R _ _ He) as (n & -> & Hs & Hv & _).
    cbn [mbind option_bind]. replace t with (t + Z.of_nat 0)%Z at 1 by lia.
    rewrite (Hyes 0 e n) by (rewrite ?Nat.add_0_r; done || lia).
    change (step_next (mem l) (a_loc e)) with (loadNext (mem l) (a_loc e) 0).
    rewrite (rep_next0 _ _ R _ _ He). cbn [mbind option_bind].
    rewrite (IH (S k)); [|lia|lia|lia| |].
    + rewrite (drop_S _ _ _ He). cbn [take fmap list_fmap]. rewrite <- app_assoc. do 3 f_equal.
      cbn. unfold node_of, akey. simpl. by rewrite Hs, Hv.
    + intros i e' n' Hi He' Hs'. replace (t + 1 + Z.of_nat i)%Z with (t + Z.of_nat (S i))%Z by lia.
      apply (Hyes (S i) e' n'); [lia| |done]. by replace (k + S i) with (S k + i) by lia.
    + intros e' n' He' Hs'. replace (t + 1 + Z.of_nat m)%Z with (t + Z.of_nat (S m))%Z by lia.
      apply (Hno e' n'); [|done]. by replace (k + S m) with (S k + m) by lia.
Qed.

Lemma collect_prev_rep l c more : rep l c → ∀ m k fuel t res,
  m <= k → k < length c → m < fuel →
  (∀ i e n, i < m → c !! (k - i) = Some e → score n = a_score e → more n (t + Z.of_nat i)%Z = true) →
  (∀ e n, m < k → c !! (k - m) = Some e → score n = a_score e → more n (t + Z.of_nat m)%Z = false) →
  collect fuel step_prev more (mem l) (back c (S k)) t res =
    Some (res ++ reverse (node_of ∘ akey <$> take m (drop (S (k - m)) c))).
Proof.
  intros R. induction m as [|m IH]; intros k fuel t res Hle Hlt Hf Hyes Hno;
    (destruct fuel as [|fuel]; [lia|]); cbn [collect]; unfold back; case_decide as Hk0; try lia;
    replace (S k - 1) with k by lia.
  - by rewrite take_0, app_nil_r.
  - rewrite take_0, app_nil_r. destruct (lookup_lt_is_Some_2 c k Hlt) as [e He].
    rewrite (al_lookup _ _ _ He). destruct (rep_node _ _ R _ _ He) as (n & -> & Hs & _).
    cbn [mbind option_bind]. replace t with (t + Z.of_nat 0)%Z by lia.
    by rewrite (Hno e n) by (rewrite ?Nat.sub_0_r; done || lia).
  - destruct (lookup_lt_is_Some_2 c k Hlt) as [e He].
    rewrite (al_lookup _ _ _ He). destruct (rep_node _ _ R _ _ He) as (n & Hn & Hs & Hv & Hb & _).
    rewrite Hn. cbn [mbind option_bind]. replace t with (t + Z.of_nat 0)%Z at 1 by lia.
    rewrite (Hyes 0 e n) by (rewrite ?Nat.sub_0_r; done || lia).
    change (step_prev (mem l) (a_loc e)) with (m ← mem l !! a_loc e; Some (prev m)).
    rewrite Hn. cbn [mbind option_bind]. rewrite Hb.
    replace k with (S (k - 1)) at 1 by lia. rewrite (IH (k - 1)); [|lia|lia|lia| |].
    + replace (k - 1 - m) with (k - S m) by lia.
      rewrite (take_S_r _ _ e) by (rewrite lookup_drop; rewrite <- He; f_equal; lia).
      rewrite fmap_app, reverse_app. cbn. rewrite <- app_assoc. do 3 f_equal.
      unfold node_of, akey. simpl. by rewrite Hs, Hv.
    + intros i e' n' Hi He' Hs'. replace (t + 1 + Z.of_nat i)%Z with (t + Z.of_nat (S i))%Z by lia.
      apply (Hyes (S i) e' n'); [lia| |done]. by replace (k - S i) with (k - 1 - i) by lia.
    + intros e' n' Hmk He' Hs'. replace (t + 1 + Z.of_nat m)%Z with (t + Z.of_nat (S m))%Z by lia.
      apply (Hno e' n'); [lia| |done]. by replace (k - S m) with (k - 1 - m) by lia.
Qed.

(** ** Updates *)

Lemma repr_llength l E : repr l E → llength l = Z.of_nat (length E).
Proof. intros (c & R & <-). rewrite (rep_len _ _ R), elems_length. pose proof (rep_length _ _ R). lia. Qed.

Section updates.
Context (z : Float64Set) (ok : zset_ok z).

Lemma Insert_ok draws lv draws' s v :
  dict z !! v = None → isNaN s = false → randomLevel draws = Some (lv, draws') →
  ∃ x l, Insert (zlist z) draws s v = Some (x, l, draws') ∧ zset_ok (mkSet (<[v := s]> (dict z)) l).
Proof using ok.
  intros Hv Hs Hr. destruct ok as [Hn Hl].
  destruct (Insert_repr _ _ s v _ _ _ Hl (view_sorted _ Hn) Hr) as (x & l & Hi & Hl').
  exists x, l. split; [done|]. split; cbn [dict zlist]; [auto with zset|].
  by rewrite view_insert.
Qed.

Lemma UpdateScore_ok draws lv draws' o s v :
  dict z !! v = Some o → isNaN s = false → randomLevel draws = Some (lv, draws') →
  ∃ x l d, UpdateScore (zlist z) draws o v s = Some (x, l, d) ∧ (d = draws ∨ d = draws') ∧
    zset_ok (mkSet (<[v := s]> (dict z)) l).
Proof using ok.
  intros Hv Hs Hr. destruct ok as [Hn Hl]. destruct (view_lookup _ _ _ Hn Hv) as [p Hp].
  destruct (UpdateScore_repr _ _ _ _ s p _ _ _ Hl (view_sorted _ Hn) Hp Hr) as (x & l & d & Hu & Hd & Hl').
  exists x, l, d. split; [done|]. split; [done|]. split; cbn [dict zlist]; [auto with zset|].
  by rewrite (view_update _ p v o).
Qed.

Lemma Add_ok draws lv draws' s v :
  randomLevel draws = Some (lv, draws') →
  ∃ z' d, Add z draws s v = Some (negb (isNaN s) && bool_decide (dict z !! v = None), z', d) ∧
    (d = draws ∨ d = draws') ∧ zset_ok z' ∧ dict z' = add_dict (dict z) s v.
Proof using ok.
  intros Hr. unfold Add, add_dict. destruct (isNaN s) eqn:Hs; cbn [negb andb]; [by exists z, draws; auto|].
  destruct (dict z !! v) as [o|] eqn:Hv.
  - rewrite bool_decide_eq_false_2 by done. destruct (feq s o) eqn:Ho; cbn [negb].
    + by exists z, draws; auto.
    + destruct (UpdateScore_ok _ _ _ _ _ _ Hv Hs Hr) as (x & l & d & -> & Hd & Hok).
      cbn [mbind option_bind]. by eexists _, d.
  - rewrite bool_decide_eq_true_2 by done.
    destruct (Insert_ok _ _ _ _ _ Hv Hs Hr) as (x & l & -> & Hok).
    cbn [mbind option_bind]. eexists _, draws'. by auto.
Qed.

(** Adding a new value consumes exactly one random level. *)
Lemma Add_fresh draws lv draws' s v :
  dict z !! v = None → isNaN s = false → randomLevel draws = Some (lv, draws') →
  ∃ z', Add z draws s v = Some (true, z', draws') ∧ zset_ok z' ∧ dict z' = <[v := s]> (dict z).
Proof using ok.
  intros Hv Hs Hr. unfold Add. rewrite Hs, Hv.
  destruct (Insert_ok _ _ _ _ _ Hv Hs Hr) as (x & l & -> & Hok). cbn [mbind option_bind]. by eexists.
Qed.

Lemma Remove_ok v :
  ∃ z', Remove z v = Some (ScoreOf z v, z') ∧ zset_ok z' ∧ dict z' = delete v (dict z).
Proof using ok.
  destruct ok as [Hn Hl]. unfold Remove, ScoreOf. destruct (dict z !! v) as [s|] eqn:Hv.
  - destruct (view_lookup _ _ _ Hn Hv) as [p Hp].
    destruct (Delete_repr _ _ _ _ p Hl (view_sorted _ Hn) Hp) as (x & l & -> & Hl').
    cbn [mbind option_bind]. eexists. split; [done|]. split; [|done].
    split; cbn [dict zlist]; [auto with zset|]. by rewrite (view_delete _ p v s).
  - exists z. by rewrite delete_id.
Qed.

Lemma IncrBy_ok draws lv draws' incr v :
  randomLevel draws = Some (lv, draws') →
  let new := match dict z !! v with Some o => f64_add o incr | None => incr end in
  let rejected := isNaN incr || isNaN new in
  ∃ z' d, IncrBy z draws incr v =
      Some (if rejected then (ScoreOf z v).1 else new, (ScoreOf z v).2, z', d) ∧
    (d = draws ∨ d = draws') ∧ zset_ok z' ∧
    dict z' = if rejected then dict z else <[v := new]> (dict z).
Proof using ok.
  intros Hr new rejected. unfold IncrBy, ScoreOf. subst rejected.
  destruct (dict z !! v) as [o|] eqn:Hv; destruct (isNaN incr) eqn:Hi; cbn [orb fst snd].
  - by exists z, draws; auto.
  - fold new. destruct (isNaN new) eqn:Hs; [by exists z, draws; auto|].
    destruct (UpdateScore_ok _ _ _ _ _ _ Hv Hs Hr) as (x & l & d & -> & Hd & Hok).
    cbn [mbind option_bind]. by eexists _, d.
  - by exists z, draws; auto.
  - subst new. rewrite Hi. destruct (Insert_ok _ _ _ _ _ Hv Hi Hr) as (x & l & -> & Hok).
    cbn [mbind option_bind]. eexists _, draws'. by auto.
Qed.

Lemma RemoveRangeByScoreWithOpt_ok min max opt :
  ∃ z', RemoveRangeByScoreWithOpt z min max opt =
      Some (node_of <$> filter (λ a, in_range min max opt a = true) (view (dict z)), z') ∧
    zset_ok z' ∧ view (dict z') = filter (λ a, in_range min max opt a = false) (view (dict z)) ∧
    dict z' = forget (dict z) (filter (λ a, in_range min max opt a = true) (view (dict z))).
Proof using ok.
  destruct ok as [Hn Hl]. pose proof (view_sorted _ Hn) as HE. unfold RemoveRangeByScoreWithOpt.
  destruct (DeleteRangeByScore_repr _ _ min max opt (dict z) Hl HE) as (l & -> & Hl').
  cbn [mbind option_bind]. eexists. split; [done|]. cbn [dict].
  assert (Hv : view (forget (dict z) (filter (λ a, in_range min max opt a = true) (view (dict z)))) =
               filter (λ a, in_range min max opt a = false) (view (dict z))).
  { destruct (range_slice _ min max opt HE) as [-> ->]. apply view_cut; [done|].
    pose proof (range_count_le min max opt (view (dict z))). lia. }
  split; [|done]. split; cbn [dict zlist]; [auto with zset|]. by rewrite Hv.
Qed.

Lemma RemoveRangeByRank_ok start stop :
  is_int (Z.of_nat (size (dict z))) → is_int start → is_int stop →
  start ≠ MaxInt64 → stop ≠ MaxInt64 →
  ∃ z', RemoveRangeByRank z start stop =
      Some (node_of <$> rank_slice start stop (view (dict z)), z') ∧
    zset_ok z' ∧ dict z' = forget (dict z) (rank_slice start stop (view (dict z))).
Proof using ok.
  intros Hsz Hs1 Hs2 Hm1 Hm2. pose proof (ok_numbers _ ok) as Hn. pose proof (ok_list _ ok) as Hl.
  pose proof (repr_llength _ _ Hl) as Hlen. rewrite view_length in Hlen.
  unfold RemoveRangeByRank. rewrite Hlen. set (n := Z.of_nat (size (dict z))) in *.
  assert (Hnorm : ∀ i, is_int i → i ≠ MaxInt64 →
    int_add (if (i <? 0)%Z then int_add n i else i) 1 = (norm n i + 1)%Z).
  { intros i Hi Hm. unfold norm, int_add, is_int, MinInt64, MaxInt64 in *.
    case_decide; [rewrite (proj2 (Z.ltb_lt i 0)) by lia|rewrite (proj2 (Z.ltb_ge i 0)) by lia].
    - rewrite (wraps64_id (n + i)); [rewrite wraps64_id; [lia|]|]; unfold is_int, MinInt64, MaxInt64; lia.
    - rewrite wraps64_id; [done|]; unfold is_int, MinInt64, MaxInt64; lia. }
  rewrite !Hnorm by done. set (E := view (dict z)) in *.
  destruct (DeleteRangeByRank_repr _ _ (norm n start + 1) (norm n stop + 1) (dict z) Hl) as (l & -> & Hl').
  cbn [mbind option_bind]. rewrite (rank_slice_eq start stop E n) by (unfold n, E; by rewrite view_length).
  eexists. split; [done|]. split; [|done]. split; cbn [dict zlist]; [auto with zset|].
  rewrite <- (rank_slice_eq start stop E n) by (unfold n, E; by rewrite view_length).
  rewrite view_cut; [done|done|]. unfold rank_start. fold E. lia.
Qed.
End updates.

(** ** Reads *)

Lemma normalize_ok n start stop :
  (0 <= n)%Z → is_int n → is_int start → is_int stop →
  let s := Z.max 0 (norm n start) in let e := norm n stop in
  normalizeRankRange n start stop =
    if decide (s < n ∧ s <= e)%Z then (s, Z.min e (n - 1), true)%Z else (0, 0, false)%Z.
Proof.
  intros H0 Hn Hs He. unfold normalizeRankRange, norm, int_add, int_sub, is_int, MinInt64, MaxInt64 in *.
  destruct (Z.eqb_spec n 0) as [->|]; [rewrite decide_False; [done|repeat case_decide; lia]|].
  rewrite !(wraps64_id (n - 1)) by (unfold is_int, MinInt64, MaxInt64; lia).
  destruct (Z.ltb_spec start 0), (Z.ltb_spec stop 0);
    repeat (rewrite wraps64_id by (unfold is_int, MinInt64, MaxInt64; lia));
    rewrite ?(decide_True _ _ (P := (start < 0)%Z)), ?(decide_False _ _ (P := (start < 0)%Z)),
      ?(decide_True _ _ (P := (stop < 0)%Z)), ?(decide_False _ _ (P := (stop < 0)%Z)) by lia;
    repeat match goal with |- context [(?a <? ?b)%Z] => destruct (Z.ltb_spec a b) end;
    repeat match goal with |- context [(?a <=? ?b)%Z] => destruct (Z.leb_spec a b) end;
    cbn [orb]; case_decide; try lia; try done; repeat f_equal; lia.
Qed.

Section reads.
Context (z : Float64Set) (ok : zset_ok z).
Let E := view (dict z).

Lemma ok_sorted : sortedE E.
Proof using ok. apply view_sorted, ok. Qed.

Lemma Len_ok : Len z = Z.of_nat (size (dict z)).
Proof using ok. unfold Len. by rewrite (repr_llength _ _ (ok_list _ ok)), view_length. Qed.

Lemma not_header p s v : headerless (dict z) → E !! p = Some (s, v) → is_header s v = false.
Proof using ok.
  intros Hh Hp. unfold is_header. destruct (String.eqb_spec "__HEADER" v) as [<-|]; [|done].
  apply Hh. apply view_elem; [apply ok|]. apply list_elem_of_lookup. eauto.
Qed.

Lemma Rank_ok p s v :
  headerless (dict z) → E !! p = Some (s, v) → Rank (zlist z) s v = Some (Z.of_nat p + 1)%Z.
Proof using ok.
  intros Hh Hp. apply (Rank_repr _ E); [apply ok|apply ok_sorted|done|by eapply not_header].
Qed.

Lemma RankOf_ok v :
  headerless (dict z) →
  match dict z !! v with
  | None => RankOf z v = Some (-1)%Z ∧ RevRank z v = Some (-1)%Z
  | Some s => ∃ p : nat, E !! p = Some (s, v) ∧ RankOf z v = Some (Z.of_nat p) ∧
                reverse E !! Z.to_nat (Z.of_nat (size (dict z)) - 1 - Z.of_nat p) = Some (s, v) ∧
                RevRank z v = Some (Z.of_nat (size (dict z)) - 1 - Z.of_nat p)%Z
  end.
Proof using ok.
  intros Hh. unfold RankOf, RevRank. destruct (dict z !! v) as [s|] eqn:Hv; [|done].
  destruct (view_lookup _ _ _ (ok_numbers _ ok) Hv) as [p Hp]. exists p.
  rewrite (Rank_ok p s v Hh Hp). cbn [mbind option_bind].
  pose proof Len_ok as Hlen. unfold Len in Hlen. rewrite Hlen.
  pose proof (lookup_lt_Some _ _ _ Hp) as Hlt. rewrite view_length in Hlt.
  split; [done|]. split; [f_equal; lia|]. split; [|f_equal; lia].
  rewrite reverse_lookup by (unfold E; rewrite view_length; lia).
  unfold E. rewrite view_length, <- Hp. f_equal. lia.
Qed.

Lemma RangeOf_ok start stop :
  is_int (Z.of_nat (size (dict z))) → is_int start → is_int stop →
  RangeOf z start stop = Some (node_of <$> rank_slice start stop E) ∧
  RevRange z start stop = Some (node_of <$> rank_slice start stop (reverse E)).
Proof using ok.
  intros Hsz Hs He. destruct (ok_list _ ok) as (c & R & Hc). pose proof Len_ok as Hlen. unfold Len in Hlen.
  assert (HlE : length E = size (dict z)) by apply view_length.
  assert (Hlc : length c = S (length E)).
  { unfold E. rewrite <- Hc, elems_length. pose proof (rep_length _ _ R). lia. }
  unfold RangeOf, RevRange, rank_slice. rewrite Hlen, normalize_ok, length_reverse, HlE by (done || lia).
  set (n := Z.of_nat (size (dict z))) in *. set (s := Z.max 0 (norm n start)). set (e := norm n stop).
  pose proof (rep_budget _ _ R) as Hbud.
  case_decide as Hd; cbn [negb].
  - set (m := Z.to_nat (Z.min e (n - 1) - s + 1)).
    assert (Htake : ∀ L : list elt, length L = size (dict z) →
      take (Z.to_nat (e - s + 1)) (drop (Z.to_nat s) L) = take m (drop (Z.to_nat s) L)).
    { intros L HL. apply take_long. rewrite length_drop. unfold m. lia. }
    rewrite !Htake by (by rewrite ?length_reverse).
    assert (Hmore : ∀ i : nat, i < m → (s + Z.of_nat i <=? Z.min e (n - 1))%Z = true).
    { intros i Hi. apply Z.leb_le. unfold m in Hi. lia. }
    assert (Hstop : (s + Z.of_nat m <=? Z.min e (n - 1))%Z = false).
    { apply Z.leb_gt. unfold m. lia. }
    unfold int_add, int_sub. rewrite !wraps64_id by (unfold is_int, MinInt64, MaxInt64 in *; lia). split.
    + replace (s + 1)%Z with (Z.of_nat (S (Z.to_nat s))) by lia.
      rewrite (GetNodeByRank_rep _ _ _ R) by lia. cbn [mbind option_bind].
      rewrite (collect_next_rep _ _ _ R m) by
        first [lia | by intros; apply Hmore | by intros; apply Hstop | unfold m; lia].
      rewrite app_nil_l, node_of_slice by lia. rewrite Hc. by replace (S (Z.to_nat s) - 1) with (Z.to_nat s) by lia.
    + set (k := size (dict z) - Z.to_nat s). replace (n - s)%Z with (Z.of_nat k) by lia.
      rewrite (GetNodeByRank_rep _ _ _ R) by lia. cbn [mbind option_bind].
      replace (al c k) with (back c (S k)) by (unfold back; rewrite decide_False by lia; f_equal; lia).
      rewrite (collect_prev_rep _ _ _ R m) by
        first [lia | by intros; apply Hmore | by intros; apply Hstop | unfold m; lia].
      rewrite app_nil_l, node_of_slice by lia. rewrite <- fmap_reverse, Hc. fold E.
      rewrite reverse_slice by (unfold m; lia). do 5 f_equal. unfold k. lia.
  - assert (Hnil : ∀ L : list elt, length L = size (dict z) →
      take (Z.to_nat (e - s + 1)) (drop (Z.to_nat s) L) = []).
    { intros L HL. destruct (decide (s < n)%Z).
      - by replace (Z.to_nat (e - s + 1)) with 0 by lia.
      - rewrite drop_ge by lia. apply take_nil. }
    by rewrite !Hnil by (by rewrite ?length_reverse).
Qed.

Lemma RangeByScoreWithOpt_ok min max opt :
  RangeByScoreWithOpt z min max opt =
    Some (node_of <$> filter (λ a, in_range min max opt a = true) E) ∧
  RevRangeByScoreWithOpt z max min opt =
    Some (node_of <$> reverse (filter (λ a, in_range min max opt a = true) E)).
Proof using ok.
  destruct (ok_list _ ok) as (c & R & Hc). pose proof ok_sorted as HE. fold E in Hc.
  destruct (range_slice _ min max opt HE) as [-> _].
  pose proof (range_count_le min max opt E) as Hle.
  unfold RangeByScoreWithOpt, RevRangeByScoreWithOpt.
  rewrite (FirstInRange_rep _ c), (LastInRange_rep _ c) by (done || by rewrite Hc). rewrite Hc.
  set (a := range_start min opt E) in *. set (m := range_count min max opt E) in *.
  cbn [mbind option_bind]. pose proof (rep_budget _ _ R) as Hbud.
  assert (Hlc : length c = S (length E)).
  { rewrite <- Hc, elems_length. pose proof (rep_length _ _ R). lia. }
  assert (Hat : ∀ k e, c !! S k = Some e → E !! k = Some (akey e)).
  { intros k e Hk. rewrite <- Hc, elems_lookup. by rewrite Hk. }
  assert (Hmax : ∀ x, flt x max || (negb (ExcludeMax opt) && feq x max) = lessThanMax x max (ExcludeMax opt)).
  { intros x. unfold lessThanMax. rewrite fle_orb. destruct (ExcludeMax opt); cbn; by rewrite ?orb_false_r. }
  assert (Hmin : ∀ x, fgt x min || (negb (ExcludeMin opt) && feq x min) = greaterThanMin x min (ExcludeMin opt)).
  { intros x. unfold greaterThanMin. change (fge x min) with (fle min x). rewrite fle_orb.
    change (fgt x min) with (flt min x).
    destruct (ExcludeMin opt); cbn; rewrite ?orb_false_r; [done|]. f_equal. apply feq_comm. }
  destruct (decide (m = 0)) as [->|Hm].
  { rewrite take_0. split; by destruct (budget (mem (zlist z))) eqn:?; [lia|]. }
  split.
  - rewrite (collect_next_rep _ _ _ R m); [|lia|lia|lia| |].
    + rewrite app_nil_l, node_of_slice by lia. rewrite Hc. by replace (S a - 1) with a by lia.
    + intros i e n Hi He Hs. rewrite Hs, Hmax. apply (Hat (a + i)) in He. rewrite <- lookup_drop in He.
      by apply (lead_lt (λ a, lessThanMax a.1 max (ExcludeMax opt)) _ _ _ He).
    + intros e n He Hs. rewrite Hs, Hmax. apply (Hat (a + m)) in He. rewrite <- lookup_drop in He.
      by apply (lead_at (λ a, lessThanMax a.1 max (ExcludeMax opt)) _ _ He).
  - replace (al c (a + m)) with (back c (S (a + m))) by (unfold back; rewrite decide_False by lia; f_equal; lia).
    rewrite (collect_prev_rep _ _ _ R m); [|lia|lia|lia| |].
    + rewrite app_nil_l, node_of_slice by lia. rewrite <- fmap_reverse, Hc. do 5 f_equal. lia.
    + intros i e n Hi He Hs. rewrite Hs, Hmin.
      replace (a + m - i) with (S (a + m - i - 1)) in He by lia. apply Hat in He.
      pose proof (lead_spec _ _ _ _ (notmin_down _ HE min (ExcludeMin opt)) He) as Hst.
      fold (range_start min opt E) in Hst. fold a in Hst.
      rewrite bool_decide_eq_false_2 in Hst by lia. by apply negb_false_iff in Hst.
    + intros e n Hlt He Hs. rewrite Hs, Hmin.
      replace (a + m - m) with (S (a - 1)) in He by lia. apply Hat in He.
      apply (lead_lt (λ a, negb (greaterThanMin a.1 min (ExcludeMin opt)))) in He; [by apply negb_true_iff in He|].
      fold (range_start min opt E). fold a. lia.
Qed.

Lemma CountWithOpt_ok min max opt :
  headerless (dict z) →
  CountWithOpt z min max opt = Some (Z.of_nat (length (filter (λ a, in_range min max opt a = true) E))).
Proof using ok.
  intros Hh. destruct (ok_list _ ok) as (c & R & Hc). pose proof ok_sorted as HE. fold E in Hc.
  destruct (range_slice _ min max opt HE) as [-> _]. pose proof (range_count_le min max opt E) as Hle.
  unfold CountWithOpt.
  rewrite (FirstInRange_rep _ c), (LastInRange_rep _ c) by (done || by rewrite Hc). rewrite Hc.
  set (a := range_start min opt E) in *. set (m := range_count min max opt E) in *.
  rewrite length_take, length_drop. cbn [mbind option_bind].
  destruct (decide (m = 0)) as [->|Hm]; [done|].
  assert (Hlc : length c = S (length E)).
  { rewrite <- Hc, elems_length. pose proof (rep_length _ _ R). lia. }
  assert (Hrank : ∀ k, k < length E → ∃ e n, al c (S k) = Some (a_loc e) ∧ mem (zlist z) !! a_loc e = Some n ∧
    Rank (zlist z) (score n) (value n) = Some (Z.of_nat k + 1)%Z).
  { intros k Hk. destruct (lookup_lt_is_Some_2 c (S k) ltac:(lia)) as [e He].
    destruct (rep_node _ _ R _ _ He) as (n & Hn & Hs & Hv & _). exists e, n.
    split; [by apply al_lookup|]. split; [done|]. apply Rank_ok; [done|].
    fold E. rewrite <- Hc, elems_lookup, He, Hs, Hv. done. }
  destruct (Hrank a) as (e & n & -> & Hn & Hr); [lia|].
  destruct (Hrank (a + m - 1)) as (e' & n' & He' & Hn' & Hr'); [lia|].
  replace (a + m) with (S (a + m - 1)) by lia.
  rewrite Hn. cbn [mbind option_bind]. rewrite Hr. cbn [mbind option_bind].
  rewrite He'. rewrite Hn'. cbn [mbind option_bind]. rewrite Hr'. cbn [mbind option_bind]. f_equal. lia.
Qed.
End reads.
