(* ===== verification/ZSetThms.v ===== *)
(** * Correctness of the sorted set

    The properties of structure/zset/zset.go: the reachable states are related
    to the abstract set, every method computes the abstract result, [Union]
    and [Inter] combine scores, and the two inputs on which the code does not
    do what it documents. *)

From S2P Require Import Prelude GoFloat SkipList SkipInv SkipOps SkipSpec ZSet ZSetView ZSetOps.

(** ** Histories *)

(** The states of a set that has only been used through its methods.  Every
    insertion is given draws among which a non-zero one ends [randomLevel]. *)
Inductive reachable : Float64Set → Prop :=
  | reach_new : reachable NewFloat64
  | reach_add z draws s v b z' d :
      reachable z → is_Some (randomLevel draws) → Add z draws s v = Some (b, z', d) → reachable z'
  | reach_incr z draws s v x b z' d :
      reachable z → is_Some (randomLevel draws) → IncrBy z draws s v = Some (x, b, z', d) → reachable z'
  | reach_remove z v x b z' : reachable z → Remove z v = Some (x, b, z') → reachable z'
  | reach_by_rank z start stop ns z' :
      reachable z → RemoveRangeByRank z start stop = Some (ns, z') → reachable z'
  | reach_by_score z min max opt ns z' :
      reachable z → RemoveRangeByScoreWithOpt z min max opt = Some (ns, z') → reachable z'.

(** [n] successive calls of [randomLevel] terminate on [draws]. *)
Fixpoint supply (n : nat) (draws : list Z) : Prop :=
  match n with
  | O => True
  | S n' => ∃ lv draws', randomLevel draws = Some (lv, draws') ∧ supply n' draws'
  end.

(** The score of [v] after one more set of a union, and of an intersection. *)
Definition union_at (v : string) (acc : option float64) (z : Float64Set) : option float64 :=
  match dict z !! v with
  | Some s => Some (match acc with Some previous => f64_add s previous | None => s end)
  | None => acc
  end.

Definition inter_at (v : string) (acc : option float64) (z : Float64Set) : option float64 :=
  s ← acc; o ← dict z !! v; Some (f64_add s o).

Definition number (s : option float64) : option float64 :=
  x ← s; if isNaN x then None else Some x.

(** The values an intersection adds, with their sums. *)
Definition inter_kvs (zs : list Float64Set) (L : list elt) : list (string * float64) :=
  omap (λ a, pair a.2 <$> foldl (inter_at a.2) (Some a.1) zs) L.

(** A set of three elements used to evaluate the properties: "b" 3, "c" 4,
    "a" 5. *)
Definition sample_kvs : list (string * float64) :=
  [("a", f64_of_Z 5); ("b", f64_of_Z 3); ("c", f64_of_Z 4)].
Definition sample : Float64Set :=
  match add_all NewFloat64 [0; 0; 1; 1; 0; 1]%Z sample_kvs with
  | Some (z, _) => z
  | None => NewFloat64
  end.

(** ** Lemmas *)

Lemma NewFloat64_ok : zset_ok NewFloat64.
Proof.
  split; [apply numbers_empty|]. cbn [zlist dict NewFloat64]. rewrite view_empty.
  exists [hdr_elt 0]. split; [apply newFloat64List_rep|done].
Qed.
#[export] Hint Resolve NewFloat64_ok : zset.

(** Whatever its bounds, removing by rank keeps the set consistent. *)
Lemma RemoveRangeByRank_inv z start stop :
  zset_ok z → ∃ ns z', RemoveRangeByRank z start stop = Some (ns, z') ∧ zset_ok z'.
Proof.
  intros ok. unfold RemoveRangeByRank.
  match goal with |- context [DeleteRangeByRank _ ?a ?b _] => set (s := a); set (e := b) end.
  destruct (DeleteRangeByRank_repr _ _ s e (dict z) (ok_list _ ok)) as (l & -> & Hl).
  cbn [mbind option_bind]. eexists _, _. split; [done|]. pose proof (ok_numbers _ ok).
  split; cbn [dict zlist]; [auto with zset|]. rewrite view_cut; [done|done|]. unfold rank_start. lia.
Qed.

Lemma reachable_zset_ok z : reachable z → zset_ok z.
Proof.
  induction 1 as [|z draws s v b z' d _ IH [[lv d'] Hr] Ha|z draws s v x b z' d _ IH [[lv d'] Hr] Ha
    |z v x b z' _ IH Ha|z start stop ns z' _ IH Ha|z min max opt ns z' _ IH Ha].
  - apply NewFloat64_ok.
  - destruct (Add_ok z IH _ _ _ s v Hr) as (z1 & d1 & H1 & _ & Hok & _). congruence.
  - destruct (IncrBy_ok z IH _ _ _ s v Hr) as (z1 & d1 & H1 & _ & Hok & _). congruence.
  - destruct (Remove_ok z IH v) as (z1 & H1 & Hok & _). congruence.
  - destruct (RemoveRangeByRank_inv z start stop IH) as (ns1 & z1 & H1 & Hok). congruence.
  - destruct (RemoveRangeByScoreWithOpt_ok z IH min max opt) as (z1 & H1 & Hok & _). congruence.
Qed.

Lemma supply_le n draws : supply (S n) draws → supply n draws.
Proof.
  revert draws. induction n as [|n IH]; intros draws; [done|].
  intros (lv & d & Hr & Hs). exists lv, d. split; [done|]. by apply IH.
Qed.

Lemma rank_slice_all E : rank_slice 0 (-1) E = E.
Proof. unfold rank_slice, norm. simpl. rewrite drop_0. apply take_ge. lia. Qed.

Lemma Range_all z :
  zset_ok z → is_int (Z.of_nat (size (dict z))) → RangeOf z 0 (-1) = Some (node_of <$> view (dict z)).
Proof.
  intros ok Hsz. destruct (RangeOf_ok z ok 0 (-1)) as [-> _]; [done| | |by rewrite rank_slice_all];
    unfold is_int, MinInt64, MaxInt64; lia.
Qed.

(** Adding distinct new values one after the other. *)
Lemma add_all_ok kvs : ∀ z draws,
  zset_ok z → NoDup kvs.*1 → (∀ v, v ∈ kvs.*1 → dict z !! v = None) → supply (length kvs) draws →
  ∃ z' d, add_all z draws kvs = Some (z', d) ∧ zset_ok z' ∧
    ∀ v s, dict z' !! v = Some s ↔ dict z !! v = Some s ∨ ((v, s) ∈ kvs ∧ isNaN s = false).
Proof.
  induction kvs as [|[v s] kvs IH]; intros z draws ok Hnd Hfr Hsup; cbn [add_all].
  - exists z, draws. split; [done|]. split; [done|]. intros v s. rewrite elem_of_nil. tauto.
  - apply list.NoDup_cons in Hnd as [Hv Hnd]. cbn [length] in Hsup.
    destruct (isNaN s) eqn:Hs.
    + unfold Add. rewrite Hs. cbn [mbind option_bind].
      destruct (IH z draws) as (z' & d & -> & Hok & Hl);
        [done|done|intros; apply Hfr; by apply list_elem_of_further|by apply supply_le|].
      exists z', d. split; [done|]. split; [done|]. intros v' s'. rewrite Hl, elem_of_cons.
      intuition congruence.
    + destruct Hsup as (lv & d & Hr & Hsup).
      destruct (Add_fresh z ok _ _ _ s v (Hfr v ltac:(by apply list_elem_of_here)) Hs Hr) as (z1 & -> & ok1 & Hd1).
      cbn [mbind option_bind]. destruct (IH z1 d) as (z' & d' & -> & Hok & Hl); [done|done| |done|].
      { intros v' Hv'. rewrite Hd1, lookup_insert_ne by (intros <-; done).
        apply Hfr. by apply list_elem_of_further. }
      exists z', d'. split; [done|]. split; [done|]. intros v' s'. rewrite Hl, Hd1, elem_of_cons.
      destruct (decide (v = v')) as [<-|Hne].
      * rewrite lookup_insert_eq. rewrite (Hfr v) by (by apply list_elem_of_here). split.
        -- intros [[= <-]|[Hin _]]; [right; by auto|]. destruct Hv. apply list_elem_of_fmap. by exists (v, s').
        -- intros [?|[[[= <-]|Hin] ?]]; [done|by left|by right].
      * rewrite lookup_insert_ne by done. intuition congruence.
Qed.

Lemma union_nodes L : ∀ acc v,
  NoDup L.*2 →
  (∀ s, (s, v) ∈ L → foldl union_node acc (node_of <$> L) !! v =
     Some (match acc !! v with Some previous => f64_add s previous | None => s end)) ∧
  (v ∉ L.*2 → foldl union_node acc (node_of <$> L) !! v = acc !! v).
Proof.
  induction L as [|[s0 v0] L IH]; intros acc v Hnd; cbn [fmap list_fmap foldl].
  - split; [intros s H; by apply elem_of_nil in H|done].
  - apply list.NoDup_cons in Hnd as [Hv Hnd].
    set (x := match acc !! v0 with Some previous => f64_add s0 previous | None => s0 end).
    change (union_node acc (node_of (s0, v0))) with (<[v0 := x]> acc).
    destruct (IH (<[v0 := x]> acc) v Hnd) as [Hin Hout]. cbn [snd] in *. split.
    + intros s [[= <- <-]|H]%elem_of_cons.
      * rewrite Hout by done. by rewrite lookup_insert_eq.
      * rewrite (Hin s H). rewrite lookup_insert_ne; [done|]. intros <-. apply Hv.
        apply list_elem_of_fmap. by exists (s, v0).
    + intros [Hne H]%not_elem_of_cons. rewrite Hout by done. by rewrite lookup_insert_ne.
Qed.

Lemma view_values_nodup d : numbers d → NoDup (view d).*2.
Proof.
  intros Hd. apply NoDup_fmap_2_strong; [|by apply sortedE_nodup, view_sorted].
  intros [s v] [s' v'] H1 H2 Heq. simpl in Heq. subst v'.
  apply view_elem in H1, H2; [|done..]. congruence.
Qed.

Lemma union_scores_ok zs : ∀ acc,
  Forall (λ z, zset_ok z ∧ is_int (Z.of_nat (size (dict z)))) zs →
  ∃ scores, union_scores zs acc = Some scores ∧
    ∀ v, scores !! v = foldl (union_at v) (acc !! v) zs.
Proof.
  induction zs as [|z zs IH]; intros acc Hzs; cbn [union_scores]; [by exists acc|].
  apply list.Forall_cons in Hzs as [[ok Hsz] Hzs]. rewrite Range_all by done. cbn [mbind option_bind].
  destruct (IH (foldl union_node acc (node_of <$> view (dict z))) Hzs) as (sc & -> & Hsc).
  exists sc. split; [done|]. intros v. rewrite Hsc. cbn [foldl]. f_equal.
  pose proof (ok_numbers _ ok) as Hn.
  destruct (union_nodes (view (dict z)) acc v (view_values_nodup _ Hn)) as [Hin Hout].
  unfold union_at. destruct (dict z !! v) as [s|] eqn:Hv.
  - by apply Hin, view_elem.
  - apply Hout. intros [[s v'] [-> Hs]]%list_elem_of_fmap. apply view_elem in Hs; [|done]. simpl in Hv. congruence.
Qed.

Lemma inter_score_ok zs v s : inter_score zs v s = foldl (inter_at v) (Some s) zs.
Proof.
  revert s. induction zs as [|z zs IH]; intros s; cbn [inter_score foldl]; [done|].
  unfold ScoreOf, inter_at at 2. destruct (dict z !! v) as [o|]; cbn [mbind option_bind negb]; [apply IH|].
  clear IH. by induction zs.
Qed.

Lemma inter_at_None zs v : foldl (inter_at v) None zs = None.
Proof. by induction zs. Qed.

Lemma inter_loop_add_all zs L : ∀ dest draws,
  inter_loop zs dest draws (node_of <$> L) = add_all dest draws (inter_kvs zs L).
Proof.
  induction L as [|[s v] L IH]; intros dest draws; [done|].
  cbn [fmap list_fmap inter_loop node_of Value Score fst snd inter_kvs omap list_omap].
  rewrite inter_score_ok. destruct (foldl (inter_at v) (Some s) zs) as [x|]; [|apply IH].
  cbn [fmap option_fmap option_map add_all].
  destruct (Add dest draws x v) as [[[b z'] d]|]; [|done]. cbn [mbind option_bind]. apply IH.
Qed.

Lemma inter_kvs_elem zs L v s :
  (v, s) ∈ inter_kvs zs L ↔ ∃ s0, (s0, v) ∈ L ∧ foldl (inter_at v) (Some s0) zs = Some s.
Proof.
  unfold inter_kvs. rewrite list_elem_of_omap. split.
  - intros [[s0 v0] [Hin H]]. simpl in H. destruct (foldl _ _ zs) eqn:Hf; [|done]. simpl in H.
    injection H as -> ->. eauto.
  - intros (s0 & Hin & Hf). exists (s0, v). simpl. by rewrite Hf.
Qed.

Lemma inter_kvs_nodup zs L : NoDup L.*2 → NoDup (inter_kvs zs L).*1 ∧ length (inter_kvs zs L) <= length L.
Proof.
  induction L as [|[s v] L IH]; intros Hnd; [by split; [constructor|]|].
  apply list.NoDup_cons in Hnd as [Hv Hnd]. destruct (IH Hnd) as [H1 H2].
  unfold inter_kvs. cbn [omap list_omap fst snd]. fold (inter_kvs zs L).
  destruct (foldl _ _ zs) as [x|]; cbn [fmap option_fmap option_map list_fmap length]; [|split; [done|lia]].
  split; [|lia]. apply list.NoDup_cons. split; [|done].
  intros [[v' s'] [Heq Hin]]%list_elem_of_fmap. simpl in Heq. subst v'.
  apply inter_kvs_elem in Hin as (s0 & Hin & _). apply Hv. apply list_elem_of_fmap. by exists (s0, v).
Qed.

Lemma supply_mono n m draws : n <= m → supply m draws → supply n draws.
Proof. induction 1; [done|]. intros H'. apply IHle. by apply supply_le. Qed.

Lemma number_iff o s : number o = Some s ↔ o = Some s ∧ isNaN s = false.
Proof.
  unfold number. destruct o as [x|]; cbn [mbind option_bind]; [|split; [done|intros [? _]; done]].
  destruct (isNaN x) eqn:Hx; split; [done|intros [[= ->] ?]; congruence|intros [= <-]; done|intros [? _]; done].
Qed.

Lemma union_node_size acc n : size (union_node acc n) <= S (size acc).
Proof. unfold union_node. rewrite map_size_insert. destruct (acc !! Value n); simpl; lia. Qed.

Lemma union_scores_size zs : ∀ acc scores,
  Forall (λ z, zset_ok z ∧ is_int (Z.of_nat (size (dict z)))) zs →
  union_scores zs acc = Some scores → size scores <= size acc + sum_list ((λ z, size (dict z)) <$> zs).
Proof.
  induction zs as [|z zs IH]; intros acc scores Hzs; cbn [union_scores].
  - intros [= <-]. simpl. lia.
  - apply list.Forall_cons in Hzs as [[ok Hsz] Hzs]. rewrite Range_all by done. cbn [mbind option_bind].
    intros Hu. apply (IH _ _ Hzs) in Hu. cbn [fmap list_fmap sum_list].
    assert (Hfold : ∀ L m, size (foldl union_node m L) <= size m + length L).
    { clear. induction L as [|n L IHL]; intros m; simpl; [lia|].
      pose proof (IHL (union_node m n)). pose proof (union_node_size m n). lia. }
    pose proof (Hfold (node_of <$> view (dict z)) acc) as Hf. rewrite length_fmap, view_length in Hf.
    simpl. lia.
Qed.

Lemma reachable_all zs :
  Forall (λ z, reachable z ∧ is_int (Z.of_nat (size (dict z)))) zs →
  Forall (λ z, zset_ok z ∧ is_int (Z.of_nat (size (dict z)))) zs.
Proof. intros H. eapply list.Forall_impl; [exact H|]. intros z [? ?]. split; [by apply reachable_zset_ok|done]. Qed.

Lemma add_all_reachable kvs : ∀ z draws z' d,
  reachable z → supply (length kvs) draws → add_all z draws kvs = Some (z', d) →
  NoDup kvs.*1 → (∀ v, v ∈ kvs.*1 → dict z !! v = None) →
  Forall (λ kv, isNaN kv.2 = false) kvs → reachable z'.
Proof.
  induction kvs as [|[v s] kvs IH]; intros z draws z' d Hz Hsup Ha Hnd Hfr Hnn; cbn [add_all] in Ha; [congruence|].
  apply list.NoDup_cons in Hnd as [Hv Hnd]. apply list.Forall_cons in Hnn as [Hs Hnn].
  destruct Hsup as (lv & d1 & Hr & Hsup).
  destruct (Add_fresh z (reachable_zset_ok _ Hz) _ _ _ s v (Hfr v ltac:(by apply list_elem_of_here)) Hs Hr)
    as (z1 & Hadd & _ & Hd1).
  rewrite Hadd in Ha. cbn [mbind option_bind] in Ha.
  apply (IH z1 d1 z' d); [eapply reach_add; [exact Hz| |exact Hadd]|done|done|done| |done]; [by rewrite Hr|].
  intros v' Hv'. rewrite Hd1, lookup_insert_ne by (intros <-; done). apply Hfr. by apply list_elem_of_further.
Qed.

Lemma sample_supply : supply (length sample_kvs) [0; 0; 1; 1; 0; 1]%Z.
Proof.
  exists 3, [1; 0; 1]%Z. split; [done|]. exists 1, [0; 1]%Z. split; [done|]. by exists 2, [].
Qed.

Lemma sample_nodup : NoDup sample_kvs.*1.
Proof. apply (bool_decide_eq_true_1 _). vm_compute. reflexivity. Qed.

Lemma sample_reachable : reachable sample.
Proof.
  destruct (add_all_ok sample_kvs _ _ NewFloat64_ok sample_nodup (λ v _, lookup_empty v) sample_supply)
    as (z & d & Ha & _ & _).
  unfold sample. rewrite Ha.
  refine (add_all_reachable _ _ _ _ _ reach_new sample_supply Ha sample_nodup (λ v _, lookup_empty v) _).
  repeat constructor.
Qed.

(** ** Properties *)

(** C1: in every state reachable through the methods no score is NaN, the skip
    list (its forward pointers and spans on every level, its back pointers, tail
    and length) represents exactly the elements of the map, ordered by score
    and then by value, and [Len] is their number. *)
Theorem zset_invariant z :
  reachable z →
  numbers (dict z) ∧ repr (zlist z) (view (dict z)) ∧ sortedE (view (dict z)) ∧
  (∀ s v, (s, v) ∈ view (dict z) ↔ dict z !! v = Some s) ∧ Len z = Z.of_nat (size (dict z)).
Proof.
  intros ok%reachable_zset_ok. pose proof (ok_numbers _ ok) as Hn.
  split_and!; [done|apply ok|auto with zset|intros; by apply view_elem|by apply Len_ok].
Qed.

Lemma zset_invariant_witness : reachable sample ∧ Len sample = Z.of_nat (size (dict sample)).
Proof.
  destruct (zset_invariant sample sample_reachable) as (_ & _ & _ & _ & H).
  split; [exact sample_reachable|exact H].
Defined.

(** C26: [Add] never panics; it answers true exactly when the score is a number
    and the value is new; a NaN score and an equal score change nothing, any
    other score becomes the value's score; the new state is reachable, so it
    satisfies the invariant. *)
Theorem zset_add z draws lv draws' s v :
  reachable z → randomLevel draws = Some (lv, draws') →
  ∃ z' d, Add z draws s v = Some (negb (isNaN s) && bool_decide (dict z !! v = None), z', d) ∧
    (d = draws ∨ d = draws') ∧ reachable z' ∧ dict z' = add_dict (dict z) s v.
Proof.
  intros Hz Hr. destruct (Add_ok z (reachable_zset_ok _ Hz) _ _ _ s v Hr) as (z' & d & Ha & Hd & _ & Hdict).
  exists z', d. split_and!; [done|done|eapply reach_add; [done|by rewrite Hr|done]|done].
Qed.

Lemma zset_add_witness :
  ∃ z' d, Add sample [1]%Z (f64_of_Z 9) "b" = Some (false, z', d) ∧ reachable z'.
Proof.
  destruct (zset_add sample [1]%Z 1 [] (f64_of_Z 9) "b" sample_reachable eq_refl) as (z' & d & Ha & _ & Hz & _).
  exists z', d. split; [rewrite Ha; vm_compute; reflexivity|exact Hz].
Defined.

(** [Remove] never panics; it returns the score of the value and whether it
    was present (zero and false when it was not), and deletes that value only. *)
Theorem zset_remove z v :
  reachable z →
  ∃ z', Remove z v = Some (ScoreOf z v, z') ∧ reachable z' ∧ dict z' = delete v (dict z).
Proof.
  intros Hz. destruct (Remove_ok z (reachable_zset_ok _ Hz) v) as (z' & Hr & _ & Hd).
  exists z'. split_and!; [done| |done]. destruct (ScoreOf z v) as [x b]. by eapply reach_remove.
Qed.

Lemma zset_remove_witness : ∃ z', Remove sample "c" = Some (f64_of_Z 4, true, z') ∧ reachable z'.
Proof.
  destruct (zset_remove sample "c" sample_reachable) as (z' & Hr & Hz & _).
  exists z'. split; [rewrite Hr; vm_compute; reflexivity|exact Hz].
Defined.

(** [IncrBy] never panics; a NaN increment or sum is rejected and leaves the
    set as it was, returning the current score; otherwise the value gets the sum
    (the increment itself when it was absent), which is returned; the flag says
    whether the value was present. *)
Theorem zset_incrby z draws lv draws' incr v :
  reachable z → randomLevel draws = Some (lv, draws') →
  let new := match dict z !! v with Some o => f64_add o incr | None => incr end in
  let rejected := isNaN incr || isNaN new in
  ∃ z' d, IncrBy z draws incr v =
      Some (if rejected then (ScoreOf z v).1 else new, (ScoreOf z v).2, z', d) ∧
    (d = draws ∨ d = draws') ∧ reachable z' ∧
    dict z' = if rejected then dict z else <[v := new]> (dict z).
Proof.
  intros Hz Hr new rejected.
  destruct (IncrBy_ok z (reachable_zset_ok _ Hz) _ _ _ incr v Hr) as (z' & d & Hi & Hd & _ & Hdict).
  exists z', d. split_and!; [done|done|eapply reach_incr; [done|by rewrite Hr|done]|done].
Qed.

Lemma zset_incrby_witness :
  ∃ z' d, IncrBy sample [1]%Z (f64_of_Z 9) "b" = Some (f64_of_Z 12, true, z', d) ∧ reachable z'.
Proof.
  destruct (zset_incrby sample [1]%Z 1 [] (f64_of_Z 9) "b" sample_reachable eq_refl) as (z' & d & Ha & _ & Hz & _).
  exists z', d. split; [rewrite Ha; vm_compute; reflexivity|exact Hz].
Defined.

(** [Rank] is the position of the value in the sorted view and [RevRank] its
    position in the reversed view; both are -1 for an absent value.  The map must
    not hold "__HEADER" with the score of the skip list's header. *)
Theorem zset_rank z v :
  reachable z → headerless (dict z) →
  match dict z !! v with
  | None => RankOf z v = Some (-1)%Z ∧ RevRank z v = Some (-1)%Z
  | Some s => ∃ p : nat, view (dict z) !! p = Some (s, v) ∧ RankOf z v = Some (Z.of_nat p) ∧
      reverse (view (dict z)) !! Z.to_nat (Z.of_nat (size (dict z)) - 1 - Z.of_nat p) = Some (s, v) ∧
      RevRank z v = Some (Z.of_nat (size (dict z)) - 1 - Z.of_nat p)%Z
  end.
Proof. intros ok%reachable_zset_ok Hh. by apply RankOf_ok. Qed.

Lemma sample_headerless : headerless (dict sample).
Proof. intros s H. vm_compute in H. discriminate. Qed.

Lemma zset_rank_witness : headerless (dict sample) ∧ RankOf sample "z" = Some (-1)%Z.
Proof.
  split; [exact sample_headerless|].
  exact (proj1 (zset_rank sample "z" sample_reachable sample_headerless)).
Defined.

(** C27: [Range] and [RevRange] return the inclusive slice between two ranks of
    the sorted view, ascending and descending; negative ranks count from the end
    and ranks out of range are clipped.  No [int] overflows. *)
Theorem zset_range z start stop :
  reachable z → is_int (Z.of_nat (size (dict z))) → is_int start → is_int stop →
  RangeOf z start stop = Some (node_of <$> rank_slice start stop (view (dict z))) ∧
  RevRange z start stop = Some (node_of <$> rank_slice start stop (reverse (view (dict z)))).
Proof. intros ok%reachable_zset_ok. by apply RangeOf_ok. Qed.

Lemma sample_size : is_int (Z.of_nat (size (dict sample))).
Proof. vm_compute. split; discriminate. Qed.

Lemma zset_range_witness :
  is_int (-2) ∧ RangeOf sample (-2) 9 = Some [mkFNode "c" (f64_of_Z 4); mkFNode "a" (f64_of_Z 5)].
Proof.
  assert (H1 : is_int (-2)) by (vm_compute; split; discriminate).
  assert (H2 : is_int 9) by (vm_compute; split; discriminate).
  split; [exact H1|].
  destruct (zset_range sample (-2) 9 sample_reachable sample_size H1 H2) as [H _].
  rewrite H. vm_compute. reflexivity.
Defined.

(** [RangeByScoreWithOpt] returns the elements of the view whose score is in
    the interval, ascending, and [RevRangeByScoreWithOpt] the same descending,
    for all four kinds of interval and also for empty and NaN bounds. *)
Theorem zset_range_by_score z min max opt :
  reachable z →
  RangeByScoreWithOpt z min max opt =
    Some (node_of <$> filter (λ a, in_range min max opt a = true) (view (dict z))) ∧
  RevRangeByScoreWithOpt z max min opt =
    Some (node_of <$> reverse (filter (λ a, in_range min max opt a = true) (view (dict z)))).
Proof. intros ok%reachable_zset_ok. by apply RangeByScoreWithOpt_ok. Qed.

Lemma zset_range_by_score_witness :
  RangeByScoreWithOpt sample (f64_of_Z 3) (f64_of_Z 4) (mkOpt true false) = Some [mkFNode "c" (f64_of_Z 4)].
Proof.
  destruct (zset_range_by_score sample (f64_of_Z 3) (f64_of_Z 4) (mkOpt true false) sample_reachable) as [H _].
  rewrite H. vm_compute. reflexivity.
Defined.

(** [CountWithOpt] is the number of elements whose score is in the interval. *)
Theorem zset_count z min max opt :
  reachable z → headerless (dict z) →
  CountWithOpt z min max opt =
    Some (Z.of_nat (length (filter (λ a, in_range min max opt a = true) (view (dict z))))).
Proof. intros ok%reachable_zset_ok Hh. by apply CountWithOpt_ok. Qed.

Lemma zset_count_witness : CountWithOpt sample (f64_of_Z 3) (f64_of_Z 4) noOpt = Some 2%Z.
Proof.
  rewrite (zset_count sample (f64_of_Z 3) (f64_of_Z 4) noOpt sample_reachable sample_headerless).
  vm_compute. reflexivity.
Defined.

(** [RemoveRangeByScoreWithOpt] returns the elements in the interval in
    order and removes exactly those from the map and from the list. *)
Theorem zset_remove_by_score z min max opt :
  reachable z →
  ∃ z', RemoveRangeByScoreWithOpt z min max opt =
      Some (node_of <$> filter (λ a, in_range min max opt a = true) (view (dict z)), z') ∧
    reachable z' ∧
    view (dict z') = filter (λ a, in_range min max opt a = false) (view (dict z)).
Proof.
  intros Hz. destruct (RemoveRangeByScoreWithOpt_ok z (reachable_zset_ok _ Hz) min max opt)
    as (z' & Hr & _ & Hv & _).
  exists z'. split_and!; [done|by eapply reach_by_score|done].
Qed.

Lemma zset_remove_by_score_witness :
  ∃ z', RemoveRangeByScoreWithOpt sample (f64_of_Z 4) (f64_of_Z 9) noOpt =
    Some ([mkFNode "c" (f64_of_Z 4); mkFNode "a" (f64_of_Z 5)], z') ∧ reachable z'.
Proof.
  destruct (zset_remove_by_score sample (f64_of_Z 4) (f64_of_Z 9) noOpt sample_reachable) as (z' & H & Hz & _).
  exists z'. split; [rewrite H; vm_compute; reflexivity|exact Hz].
Defined.

(** [RemoveRangeByRank] returns and removes the inclusive slice between two
    ranks, negative ranks counting from the end, unless a bound is the largest
    [int]. *)
Theorem zset_remove_by_rank z start stop :
  reachable z → is_int (Z.of_nat (size (dict z))) → is_int start → is_int stop →
  start ≠ MaxInt64 → stop ≠ MaxInt64 →
  ∃ z', RemoveRangeByRank z start stop =
      Some (node_of <$> rank_slice start stop (view (dict z)), z') ∧
    reachable z' ∧ dict z' = forget (dict z) (rank_slice start stop (view (dict z))).
Proof.
  intros Hz Hsz Hs He H1 H2.
  destruct (RemoveRangeByRank_ok z (reachable_zset_ok _ Hz) start stop) as (z' & Hr & _ & Hd); [done..|].
  exists z'. split_and!; [done|by eapply reach_by_rank|done].
Qed.

Lemma zset_remove_by_rank_witness :
  ∃ z', RemoveRangeByRank sample 1 (-1) =
    Some ([mkFNode "c" (f64_of_Z 4); mkFNode "a" (f64_of_Z 5)], z') ∧ reachable z'.
Proof.
  assert (H1 : is_int 1) by (vm_compute; split; discriminate).
  assert (H2 : is_int (-1)) by (vm_compute; split; discriminate).
  destruct (zset_remove_by_rank sample 1 (-1) sample_reachable sample_size H1 H2) as (z' & H & Hz & _);
    [discriminate|discriminate|].
  exists z'. split; [rewrite H; vm_compute; reflexivity|exact Hz].
Defined.

(** With the largest [int] as its upper bound [RemoveRangeByRank] removes
    nothing, whatever the set holds: [stop+1] wraps to the smallest [int].  For
    the same bounds [Range] returns every element from rank [start] on. *)
Theorem zset_remove_by_rank_overflow z start :
  reachable z → is_int (Z.of_nat (size (dict z))) → (0 <= start < MaxInt64)%Z →
  RangeOf z start MaxInt64 = Some (node_of <$> drop (Z.to_nat start) (view (dict z))) ∧
  ∃ z', RemoveRangeByRank z start MaxInt64 = Some ([], z') ∧ dict z' = dict z.
Proof.
  intros ok%reachable_zset_ok Hsz Hs. split.
  - destruct (RangeOf_ok z ok start MaxInt64) as [-> _];
      [done|unfold is_int, MinInt64 in *; lia|unfold is_int, MinInt64, MaxInt64; lia|].
    unfold rank_slice, norm. rewrite !decide_False by (unfold MaxInt64 in *; lia).
    replace (Z.max 0 start) with start by lia. rewrite take_ge; [done|].
    rewrite length_drop, view_length. unfold is_int in Hsz. lia.
  - unfold RemoveRangeByRank.
    rewrite (proj2 (Z.ltb_ge start 0)) by lia. rewrite (proj2 (Z.ltb_ge MaxInt64 0)) by done.
    change (int_add MaxInt64 1) with MinInt64.
    destruct (DeleteRangeByRank_repr _ _ (int_add start 1) MinInt64 (dict z) (ok_list _ ok)) as (l & -> & _).
    replace (rank_count _ _ _) with 0; [|unfold rank_count, MinInt64; lia].
    cbn [mbind option_bind]. by eexists.
Qed.

Lemma zset_remove_by_rank_overflow_witness :
  ∃ z', RemoveRangeByRank sample 0 MaxInt64 = Some ([], z') ∧ dict z' = dict sample.
Proof.
  apply (zset_remove_by_rank_overflow sample 0 sample_reachable sample_size).
  split; [discriminate|reflexivity].
Defined.

(** An element that equals the header of the skip list, "__HEADER" with
    the score -MaxFloat64, can be added but loses its rank once a taller element
    is present: [Rank] answers -1 although [Contains] is true. *)
Theorem zset_header_rank :
  ∃ z d, add_all NewFloat64 [0; 0; 1; 1]%Z [("a", f64_of_Z 5); ("__HEADER", f64_neg MaxFloat64)] = Some (z, d) ∧
    Contains z "__HEADER" = true ∧ RankOf z "__HEADER" = Some (-1)%Z ∧ RevRank z "__HEADER" = Some 2%Z ∧
    CountWithOpt z (f64_neg MaxFloat64) MaxFloat64 noOpt = Some 3%Z ∧ Len z = 2%Z.
Proof. eexists _, _. split; [vm_compute; reflexivity|]. vm_compute. split_and!; reflexivity. Qed.

(** [UnionFloat64] gives every value the sum, in the order of the sets, of
    its scores in the sets that hold it, and omits the values whose sum is NaN.
    The order in which Go visits the map of sums does not matter: it only has to
    visit every entry once. *)
Theorem zset_union order draws zs :
  (∀ m, order m ≡ₚ map_to_list m) →
  Forall (λ z, reachable z ∧ is_int (Z.of_nat (size (dict z)))) zs →
  supply (sum_list ((λ z, size (dict z)) <$> zs)) draws →
  ∃ z d, UnionFloat64 order draws zs = Some (z, d) ∧ zset_ok z ∧
    ∀ v, dict z !! v = number (foldl (union_at v) None zs).
Proof.
  intros Hord Hzs%reachable_all Hsup. unfold UnionFloat64.
  destruct (union_scores_ok zs ∅ Hzs) as (sc & Hsc & Hl). rewrite Hsc. cbn [mbind option_bind].
  pose proof (union_scores_size _ _ _ Hzs Hsc) as Hsize. rewrite map_size_empty in Hsize.
  destruct (add_all_ok (order sc) NewFloat64 draws) as (z & d & Ha & ok & Hd).
  - apply NewFloat64_ok.
  - rewrite (Hord sc). apply NoDup_fst_map_to_list.
  - intros. apply lookup_empty.
  - eapply supply_mono; [|exact Hsup]. rewrite (Hord sc), length_map_to_list. lia.
  - exists z, d. split_and!; [done|done|]. intros v. rewrite <- (lookup_empty v), <- Hl.
    apply option_eq. intros s. rewrite number_iff, Hd, (Hord sc), elem_of_map_to_list.
    cbn [dict NewFloat64]. rewrite lookup_empty. intuition congruence.
Qed.

Lemma zset_union_witness :
  ∃ z d, UnionFloat64 map_to_list [1; 1; 1; 1; 1; 1]%Z [sample; sample] = Some (z, d) ∧
    dict z !! "b" = Some (f64_of_Z 6).
Proof.
  destruct (zset_union map_to_list [1; 1; 1; 1; 1; 1]%Z [sample; sample]) as (z & d & H & _ & Hd).
  - intros m. reflexivity.
  - repeat constructor; apply sample_reachable || (vm_compute; discriminate).
  - vm_compute. repeat (eexists _, _; split; [reflexivity|]). exact I.
  - exists z, d. split; [exact H|]. rewrite Hd. vm_compute. reflexivity.
Defined.

(** [InterFloat64] keeps the values that every set holds, each with the sum
    of its scores in the order of the sets, and omits those whose sum is NaN. *)
Theorem zset_inter draws z0 zs :
  reachable z0 → is_int (Z.of_nat (size (dict z0))) → supply (size (dict z0)) draws →
  ∃ z d, InterFloat64 draws (z0 :: zs) = Some (z, d) ∧ zset_ok z ∧
    ∀ v, dict z !! v = number (foldl (inter_at v) (dict z0 !! v) zs).
Proof.
  intros ok%reachable_zset_ok Hsz Hsup. unfold InterFloat64. rewrite Range_all by done.
  cbn [mbind option_bind]. rewrite inter_loop_add_all. pose proof (ok_numbers _ ok) as Hn.
  destruct (inter_kvs_nodup zs (view (dict z0)) (view_values_nodup _ Hn)) as [Hnd Hlen].
  rewrite view_length in Hlen.
  destruct (add_all_ok (inter_kvs zs (view (dict z0))) NewFloat64 draws) as (z & d & Ha & okz & Hd);
    [apply NewFloat64_ok|done|intros; apply lookup_empty|by eapply supply_mono|].
  exists z, d. split_and!; [done|done|]. intros v. apply option_eq. intros s.
  rewrite number_iff, Hd, inter_kvs_elem. cbn [dict NewFloat64]. rewrite lookup_empty.
  destruct (dict z0 !! v) as [s0|] eqn:Hv.
  - split.
    + intros [?|[(s1 & H1%view_elem & H2) H3]]; [done| |done]. rewrite Hv in H1. by injection H1 as ->.
    + intros [H1 H2]. right. split; [|done]. exists s0. split; [by apply view_elem|done].
  - rewrite inter_at_None. split; [|intros [? _]; done].
    intros [?|[(s1 & H1%view_elem & _) _]]; [done|congruence|done].
Qed.

Lemma zset_inter_witness :
  ∃ z d, InterFloat64 [1; 1; 1]%Z [sample; sample] = Some (z, d) ∧ dict z !! "b" = Some (f64_of_Z 6).
Proof.
  destruct (zset_inter [1; 1; 1]%Z sample [sample] sample_reachable sample_size) as (z & d & H & _ & Hd).
  - vm_compute. repeat (eexists _, _; split; [reflexivity|]). exact I.
  - exists z, d. split; [exact H|]. rewrite Hd. vm_compute. reflexivity.
Defined.
