(* ===== verification/Chord.v ===== *)
(** * Durable chords: data and transitions of distributed/backend/durable_chord.go

    A chord is a group of member tasks and a callback that is published when
    every member has succeeded.  The file translates the aggregate
    [ChordDelivery] and each transition on it.  A transition takes the record
    that the Go code mutates and returns the mutated record together with its
    result, also on the error paths, since the store looks at both.

    A [time] is the number of nanoseconds since the zero value of [time.Time],
    so [IsZero] is the comparison with 0; a duration is a number of nanoseconds.
    [wall] stands for the value that [time.Now] returns.  The versions and
    attempt counters are unbounded integers: each call adds one to them.  The
    record is always present: no caller passes a nil pointer. *)

From S2P Require Import Prelude.
From Stdlib Require Import Strings.Byte Strings.Ascii.
From coqutil Require Import Datatypes.RecordSetters.
Import DoubleBraceUpdate.

Abbreviation bytes := (list byte).
Abbreviation time := Z.

Definition IsZero (t : time) : bool := (t =? 0)%Z.
Definition After (t u : time) : bool := (u <? t)%Z.
Definition Second : Z := 1000000000.

(** ** States and outcomes

    The string types of the source; [..Other] is any string that is not one of
    the constants. *)

Inductive ChordMemberState :=
  | ChordMemberSetup | ChordMemberReady | ChordMemberLeased | ChordMemberPublished
  | ChordMemberPublishUnknown | ChordMemberTerminal | ChordMemberOther (s : string).

Inductive ChordCallbackState :=
  | ChordWaiting | ChordReady | ChordLeased | ChordPublished | ChordPublishUnknown
  | ChordDelivered | ChordSuppressed | ChordOther (s : string).

Inductive MemberTerminalOutcome :=
  | MemberTerminalSuccess | MemberTerminalFailure | MemberTerminalOther (s : string).

Inductive CallbackTerminalOutcome :=
  | CallbackTerminalNone | CallbackTerminalSuccess | CallbackTerminalFailure
  | CallbackTerminalOther (s : string).

Inductive ChordPublishOutcomeKind :=
  | ChordPublishOutcomeSucceeded | ChordPublishOutcomeUnknown | ChordPublishOutcomeRejected
  | ChordPublishOutcomeOther (s : string).

Inductive chord_error :=
  | ErrChordInvalidInput | ErrChordRegistrationConflict | ErrChordRegistrationOwnershipLost
  | ErrChordPublicationStarted | ErrChordLeaseLost | ErrChordReceiptConflict
  | ErrChordTerminalConflict | ErrChordNotFound
  | ErrUnknownMemberState | ErrUnknownCallbackState | ErrUnknownPublishOutcome
  | ErrSerializeResults | ErrDeserializeResults | ErrDecodeTemplate | ErrMarshalCallback
  | ErrMarshalDefinition | ErrDecodeCallback | ErrDecodeMember | ErrDuplicatedKey.

#[global] Instance ChordMemberState_eq_dec : EqDecision ChordMemberState.
Proof. solve_decision. Defined.
#[global] Instance ChordCallbackState_eq_dec : EqDecision ChordCallbackState.
Proof. solve_decision. Defined.
#[global] Instance MemberTerminalOutcome_eq_dec : EqDecision MemberTerminalOutcome.
Proof. solve_decision. Defined.
#[global] Instance CallbackTerminalOutcome_eq_dec : EqDecision CallbackTerminalOutcome.
Proof. solve_decision. Defined.
#[global] Instance byte_eq_dec : EqDecision byte.
Proof. intros a b. exact (Byte.byte_eq_dec a b). Defined.

(** ** Tasks

    The part of [task.Signature] that the chord reads or changes; [Rest] is the
    remainder of the structure, which it only passes through.  An interface
    value that went through JSON is a [json]. *)

Inductive json :=
  | JNull | JBool (b : bool) | JNumber (s : string) | JString (s : string)
  | JArray (l : list json) | JObject (l : list (string * json)).

Record Result := mkResult { r_Type : string; r_Value : json }.
Record Arg := mkArg { a_Type : string; a_Key : string; a_Value : json }.
Record Signature (rest : Type) := mkSignature { s_ID : string; s_Args : list Arg; s_Rest : rest }.
Arguments mkSignature {rest} _ _ _.
Arguments s_ID {rest} _.
Arguments s_Args {rest} _.
Arguments s_Rest {rest} _.

(** ** Records *)

Record ChordMemberRegistration := mkMemberReg {
  mr_Ordinal : Z;
  mr_TaskID : string;
  mr_Payload : bytes;
}.

Record ChordRegistration := mkReg {
  rg_DeliveryKey : string;
  rg_DefinitionHash : string;
  rg_GroupID : string;
  rg_GroupName : string;
  rg_Retention : Z;
  rg_Callback : bytes;
  rg_Members : list ChordMemberRegistration;
}.

Record ChordRegistrationRef := mkRef {
  rf_DeliveryKey : string;
  rf_Owner : string;
  rf_Version : Z;
  rf_Created : bool;
}.

(** A slice of results: [None] is the nil slice, which JSON writes as null and not as
    an empty array; a nil element is [None]. *)
Abbreviation results := (option (list (option Result))).

Record ChordMemberReceipt := mkReceipt {
  rc_TaskID : string;
  rc_Outcome : MemberTerminalOutcome;
  rc_Results : results;
}.

Record ChordMemberPublication := mkMember {
  m_Ordinal : Z;
  m_TaskID : string;
  m_Payload : bytes;
  m_State : ChordMemberState;
  m_Version : Z;
  m_LeaseOwner : string;
  m_LeaseExpiresAt : time;
  m_Attempts : Z;
  m_NextAttemptAt : time;
  m_ConfirmationDeadline : time;
  m_LastError : string;
  m_Receipt : option ChordMemberReceipt;
}.

Record ChordDelivery := mkDelivery {
  d_DeliveryKey : string;
  d_DefinitionHash : string;
  d_GroupID : string;
  d_GroupName : string;
  d_Retention : Z;
  d_RegistrationOwner : string;
  d_RegistrationVersion : Z;
  d_Version : Z;
  d_MemberPublicationStarted : bool;
  d_CallbackTemplate : bytes;
  d_CallbackPayload : bytes;
  d_Members : list ChordMemberPublication;
  d_CallbackState : ChordCallbackState;
  d_CallbackVersion : Z;
  d_CallbackLeaseOwner : string;
  d_CallbackLeaseExpiresAt : time;
  d_CallbackAttempts : Z;
  d_CallbackNextAttemptAt : time;
  d_CallbackConfirmationAt : time;
  d_CallbackLastError : string;
  d_TerminalOutcome : CallbackTerminalOutcome;
  d_TerminalAt : time;
  d_TerminalExpireAt : option time;
  d_CreatedAt : time;
  d_UpdatedAt : time;
}.

Record ChordMemberClaim := mkMemberClaim {
  mc_DeliveryKey : string;
  mc_Ordinal : Z;
  mc_Owner : string;
  mc_Now : time;
  mc_LeaseDuration : Z;
}.

Record ChordMemberLease := mkMemberLease {
  ml_DeliveryKey : string;
  ml_Ordinal : Z;
  ml_TaskID : string;
  ml_Payload : bytes;
  ml_Owner : string;
  ml_Version : Z;
  ml_ExpiresAt : time;
}.

Record ChordCallbackClaim := mkCallbackClaim {
  cc_DeliveryKey : string;
  cc_Owner : string;
  cc_Now : time;
  cc_LeaseDuration : Z;
}.

Record ChordCallbackLease := mkCallbackLease {
  cl_DeliveryKey : string;
  cl_Payload : bytes;
  cl_Owner : string;
  cl_Version : Z;
  cl_ExpiresAt : time;
}.

Record ChordPublishOutcome := mkPublishOutcome {
  po_Kind : ChordPublishOutcomeKind;
  po_Now : time;
  po_ConfirmationDeadline : time;
  po_NextAttemptAt : time;
  po_Error : string;
}.

(** ** Encoders and the hash

    The JSON encoders and decoders that the source calls, each [None] on an
    error, and SHA-256.  The model is parametric in them. *)
Class ChordJSON := {
  rest : Type;
  unmarshal_signature : bytes → option (Signature rest);
  marshal_signature : Signature rest → option bytes;
  marshal_receipt : ChordMemberReceipt → bytes;
  marshal_results : results → option bytes;
  unmarshal_results : bytes → option results;
  marshal_definition : ChordRegistration → option bytes;
  sha256 : bytes → bytes;
}.

(** ** Registration *)

(** [hex.EncodeToString]. *)
Definition hex_digit (n : nat) : Ascii.ascii :=
  ascii_of_nat (if bool_decide (n < 10) then 48 + n else 87 + n).
Fixpoint hex_encode (b : bytes) : string :=
  match b with
  | [] => EmptyString
  | x :: b' =>
      let n := Byte.to_nat x in
      String (hex_digit (n / 16)) (String (hex_digit (n mod 16)) (hex_encode b'))
  end.

Definition ChordDeliveryKey `{ChordJSON} (groupID callbackID : string) : string :=
  let nul := String (ascii_of_nat 0) EmptyString in
  let groupSum := sha256 (String.list_byte_of_string groupID) in
  let deliverySum := sha256 (String.list_byte_of_string ("gkit-chord-v1" +:+ nul +:+ groupID +:+ nul +:+ callbackID)) in
  "chord:v1:" +:+ hex_encode groupSum +:+ ":" +:+ hex_encode deliverySum.

Definition DefaultChordRetentionSeconds : Z := 3600.

Definition NormalizeChordRetention (value : Z) : Z :=
  if (value =? 0)%Z then DefaultChordRetentionSeconds else value.

Definition FinalizeChordRegistration `{ChordJSON} (reg : ChordRegistration) : chord_error + ChordRegistration :=
  let reg := reg {{ rg_Retention := NormalizeChordRetention (rg_Retention reg) }} in
  let finish (reg : ChordRegistration) :=
    match marshal_definition (reg {{ rg_DefinitionHash := "" }}) with
    | None => inl ErrMarshalDefinition
    | Some body => inr (reg {{ rg_DefinitionHash := hex_encode (sha256 body) }})
    end in
  if String.eqb (rg_DeliveryKey reg) "" then
    match unmarshal_signature (rg_Callback reg) with
    | None => inl ErrDecodeCallback
    | Some callback => finish (reg {{ rg_DeliveryKey := ChordDeliveryKey (rg_GroupID reg) (s_ID callback) }})
    end
  else finish reg.

Definition new_member (member : ChordMemberRegistration) : ChordMemberPublication :=
  {| m_Ordinal := mr_Ordinal member; m_TaskID := mr_TaskID member; m_Payload := mr_Payload member;
     m_State := ChordMemberSetup; m_Version := 1; m_LeaseOwner := ""; m_LeaseExpiresAt := 0;
     m_Attempts := 0; m_NextAttemptAt := 0; m_ConfirmationDeadline := 0; m_LastError := "";
     m_Receipt := None |}.

Definition NewChordDelivery (reg : ChordRegistration) (owner : string) (now : time) : ChordDelivery :=
  {| d_DeliveryKey := rg_DeliveryKey reg; d_DefinitionHash := rg_DefinitionHash reg;
     d_GroupID := rg_GroupID reg; d_GroupName := rg_GroupName reg;
     d_Retention := NormalizeChordRetention (rg_Retention reg);
     d_RegistrationOwner := owner; d_RegistrationVersion := 1; d_Version := 1;
     d_MemberPublicationStarted := false; d_CallbackTemplate := rg_Callback reg;
     d_CallbackPayload := []; d_Members := new_member <$> rg_Members reg;
     d_CallbackState := ChordWaiting; d_CallbackVersion := 1; d_CallbackLeaseOwner := "";
     d_CallbackLeaseExpiresAt := 0; d_CallbackAttempts := 0; d_CallbackNextAttemptAt := 0;
     d_CallbackConfirmationAt := 0; d_CallbackLastError := "";
     d_TerminalOutcome := CallbackTerminalNone; d_TerminalAt := 0; d_TerminalExpireAt := None;
     d_CreatedAt := now; d_UpdatedAt := now |}.

Definition ChordRegistrationMatches (delivery : ChordDelivery) (reg : ChordRegistration) : bool :=
  String.eqb (d_GroupID delivery) (rg_GroupID reg) &&
  String.eqb (d_DefinitionHash delivery) (rg_DefinitionHash reg).

Definition prepare_member (m : ChordMemberPublication) : ChordMemberPublication :=
  if bool_decide (m_State m = ChordMemberSetup)
  then m {{ m_State := ChordMemberReady; m_Version := (m_Version m + 1)%Z }}
  else m.

Definition PrepareChordMembers (delivery : ChordDelivery) (now : time) : ChordDelivery :=
  delivery {{ d_Members := prepare_member <$> d_Members delivery;
              d_Version := (d_Version delivery + 1)%Z;
              d_UpdatedAt := now }}.

(** ** Helpers *)

Definition orNow (wall now : time) : time := if IsZero now then wall else now.

Definition deadlineOrDefault (value fallback : time) : time := if IsZero value then fallback else value.

(** [strings.ToLower] on the ASCII letters. *)
Fixpoint to_lower (s : string) : string :=
  match s with
  | EmptyString => EmptyString
  | String c s' =>
      let n := nat_of_ascii c in
      String (if bool_decide (65 <= n ∧ n <= 90) then ascii_of_nat (n + 32) else c) (to_lower s')
  end.

Definition kind_string (k : ChordPublishOutcomeKind) : string :=
  match k with
  | ChordPublishOutcomeSucceeded => "PUBLISHED"
  | ChordPublishOutcomeUnknown => "UNKNOWN"
  | ChordPublishOutcomeRejected => "REJECTED"
  | ChordPublishOutcomeOther s => s
  end.

Definition chordErrorSummary (operation : string) (outcome : ChordPublishOutcome) : string :=
  if String.eqb (po_Error outcome) "" then ""
  else "operation=" +:+ operation +:+ " category=" +:+ to_lower (kind_string (po_Kind outcome)).

(** The duration of the retention is an [int64] product. *)
Definition setChordTerminalTime (wall : time) (delivery : ChordDelivery) (now : time) : ChordDelivery :=
  let now := orNow wall now in
  let delivery := delivery {{ d_TerminalAt := now }} in
  if (d_Retention delivery <? 0)%Z then delivery {{ d_TerminalExpireAt := None }}
  else delivery {{ d_TerminalExpireAt :=
    Some (now + wraps 64 (NormalizeChordRetention (d_Retention delivery) * Second))%Z }}.

Definition setChordSuppressed (wall : time) (delivery : ChordDelivery) (now : time) : ChordDelivery :=
  if bool_decide (d_CallbackState delivery = ChordDelivered) ||
     bool_decide (d_CallbackState delivery = ChordSuppressed) then delivery
  else
    let delivery := delivery {{ d_CallbackState := ChordSuppressed;
                                d_TerminalOutcome := CallbackTerminalFailure }} in
    let delivery := setChordTerminalTime wall delivery now in
    delivery {{ d_CallbackVersion := (d_CallbackVersion delivery + 1)%Z }}.

Definition leaseDuration (d : Z) : Z := if (d <=? 0)%Z then (30 * Second)%Z else d.

(** Writing through the pointer [&delivery.Members[i]]. *)
Definition store_member (delivery : ChordDelivery) (i : nat) (m : ChordMemberPublication) : ChordDelivery :=
  delivery {{ d_Members := <[i := m]> (d_Members delivery) }}.

(** The element that an ordinal selects, or none when it is out of range. *)
Definition member_at (delivery : ChordDelivery) (ordinal : Z) : option ChordMemberPublication :=
  if (ordinal <? 0)%Z || (Z.of_nat (length (d_Members delivery)) <=? ordinal)%Z then None
  else d_Members delivery !! Z.to_nat ordinal.

(** ** Member publication *)

(** The switch on the member's state: the member to go on with, or none when it
    cannot be claimed now. *)
Definition claimable_member (now : time) (m : ChordMemberPublication)
    : chord_error + option ChordMemberPublication :=
  match m_State m with
  | ChordMemberLeased =>
      if After (m_LeaseExpiresAt m) now then inr None else inr (Some (m {{ m_State := ChordMemberReady }}))
  | ChordMemberPublished | ChordMemberPublishUnknown =>
      if After (m_ConfirmationDeadline m) now then inr None
      else inr (Some (m {{ m_State := ChordMemberReady }}))
  | ChordMemberReady => inr (Some m)
  | ChordMemberSetup | ChordMemberTerminal => inr None
  | ChordMemberOther _ => inl ErrUnknownMemberState
  end.

Definition lease_member (now : time) (claim : ChordMemberClaim) (member : ChordMemberPublication)
    : ChordMemberPublication :=
  member {{ m_State := ChordMemberLeased;
            m_LeaseOwner := mc_Owner claim;
            m_LeaseExpiresAt := (now + leaseDuration (mc_LeaseDuration claim))%Z;
            m_Version := (m_Version member + 1)%Z;
            m_Attempts := (m_Attempts member + 1)%Z }}.

Definition ClaimChordMember (wall : time) (delivery : ChordDelivery) (claim : ChordMemberClaim)
    : ChordDelivery * (chord_error + option ChordMemberLease) :=
  match member_at delivery (mc_Ordinal claim) with
  | None => (delivery, inl ErrChordNotFound)
  | Some member =>
      let i := Z.to_nat (mc_Ordinal claim) in
      let now := orNow wall (mc_Now claim) in
      match claimable_member now member with
      | inl e => (delivery, inl e)
      | inr None => (delivery, inr None)
      | inr (Some member) =>
          if After (m_NextAttemptAt member) now then (store_member delivery i member, inr None)
          else
            let member := lease_member now claim member in
            let delivery := store_member delivery i member in
            let delivery := delivery {{ d_MemberPublicationStarted := true;
                                        d_Version := (d_Version delivery + 1)%Z;
                                        d_UpdatedAt := now }} in
            (delivery,
             inr (Some {| ml_DeliveryKey := d_DeliveryKey delivery; ml_Ordinal := m_Ordinal member;
                          ml_TaskID := m_TaskID member; ml_Payload := m_Payload member;
                          ml_Owner := mc_Owner claim; ml_Version := m_Version member;
                          ml_ExpiresAt := m_LeaseExpiresAt member |}))
      end
  end.

(** The lease is the one the member currently has. *)
Definition lease_current (member : ChordMemberPublication) (lease : ChordMemberLease) : bool :=
  bool_decide (m_State member = ChordMemberLeased) &&
  String.eqb (m_LeaseOwner member) (ml_Owner lease) && (m_Version member =? ml_Version lease)%Z.

Definition release_member (outcome : ChordPublishOutcome) (member : ChordMemberPublication)
    : ChordMemberPublication :=
  member {{ m_LeaseOwner := ""; m_LeaseExpiresAt := 0%Z;
            m_LastError := chordErrorSummary "member_publish" outcome }}.

(** The statements after the switch. *)
Definition finish_member_outcome (now : time) (outcome : ChordPublishOutcome) (i : nat)
    (delivery : ChordDelivery) (member : ChordMemberPublication) : ChordDelivery :=
  let member := if IsZero (po_NextAttemptAt outcome) then member
                else member {{ m_NextAttemptAt := po_NextAttemptAt outcome }} in
  let member := member {{ m_Version := (m_Version member + 1)%Z }} in
  let delivery := store_member delivery i member in
  delivery {{ d_Version := (d_Version delivery + 1)%Z; d_UpdatedAt := now }}.

Definition ApplyChordMemberPublishOutcome (wall : time) (delivery : ChordDelivery)
    (lease : ChordMemberLease) (outcome : ChordPublishOutcome) : ChordDelivery * option chord_error :=
  match member_at delivery (ml_Ordinal lease) with
  | None => (delivery, Some ErrChordNotFound)
  | Some member =>
      let i := Z.to_nat (ml_Ordinal lease) in
      if negb (lease_current member lease) then (delivery, Some ErrChordLeaseLost)
      else
        let now := orNow wall (po_Now outcome) in
        let member := release_member outcome member in
        let deadline := deadlineOrDefault (po_ConfirmationDeadline outcome) (now + 30 * Second)%Z in
        let finish d m := (finish_member_outcome now outcome i d m, None) in
        match po_Kind outcome with
        | ChordPublishOutcomeSucceeded =>
            finish delivery (member {{ m_State := ChordMemberPublished; m_ConfirmationDeadline := deadline }})
        | ChordPublishOutcomeUnknown =>
            finish delivery (member {{ m_State := ChordMemberPublishUnknown; m_ConfirmationDeadline := deadline }})
        | ChordPublishOutcomeRejected =>
            finish (setChordSuppressed wall delivery now)
              (member {{ m_State := ChordMemberTerminal;
                         m_Receipt := Some {| rc_TaskID := m_TaskID member;
                                              rc_Outcome := MemberTerminalFailure; rc_Results := None |} }})
        | ChordPublishOutcomeOther _ => (store_member delivery i member, Some ErrUnknownPublishOutcome)
        end
  end.

(** ** Member completion *)

Section json.
Context `{ChordJSON}.

Definition cloneChordResults (rs : results) : chord_error + results :=
  match marshal_results rs with
  | None => inl ErrSerializeResults
  | Some body =>
      match unmarshal_results body with
      | None => inl ErrDeserializeResults
      | Some copyResults => inr copyResults
      end
  end.

(** The arguments that the receipts add, in the order of the members; [None] is
    a nil dereference: a missing receipt or a nil result. *)
Fixpoint result_args (results : list (option Result)) : option (list Arg) :=
  match results with
  | [] => Some []
  | None :: _ => None
  | Some r :: results' =>
      args ← result_args results';
      Some ({| a_Type := r_Type r; a_Key := ""; a_Value := r_Value r |} :: args)
  end.

Fixpoint member_args (members : list ChordMemberPublication) : option (list Arg) :=
  match members with
  | [] => Some []
  | m :: members' =>
      receipt ← m_Receipt m;
      here ← result_args (default [] (rc_Results receipt));
      args ← member_args members';
      Some (here ++ args)
  end.

(** [None] is a panic. *)
Definition buildChordCallbackPayload (delivery : ChordDelivery) : option (chord_error + bytes) :=
  match unmarshal_signature (d_CallbackTemplate delivery) with
  | None => Some (inl ErrDecodeTemplate)
  | Some callback =>
      args ← member_args (d_Members delivery);
      Some (match marshal_signature (mkSignature (s_ID callback) (s_Args callback ++ args) (s_Rest callback)) with
            | None => inl ErrMarshalCallback
            | Some body => inr body
            end)
  end.

(** The loop over the members: has one no receipt, has one before that failed,
    or have all succeeded? *)
Inductive receipts_status := AwaitReceipts | FailedReceipt | AllReceipts.

Fixpoint scan_receipts (members : list ChordMemberPublication) : receipts_status :=
  match members with
  | [] => AllReceipts
  | m :: members' =>
      match m_Receipt m with
      | None => AwaitReceipts
      | Some receipt =>
          if bool_decide (rc_Outcome receipt = MemberTerminalFailure) then FailedReceipt
          else scan_receipts members'
      end
  end.

Definition receipt_member (candidate : ChordMemberReceipt) (member : ChordMemberPublication)
    : ChordMemberPublication :=
  member {{ m_State := ChordMemberTerminal; m_LeaseOwner := ""; m_LeaseExpiresAt := 0%Z;
            m_Receipt := Some candidate; m_Version := (m_Version member + 1)%Z }}.

(** Freeze the callback's payload and make it ready. *)
Definition ready_callback (payload : bytes) (delivery : ChordDelivery) : ChordDelivery :=
  let delivery := match d_CallbackPayload delivery with
                  | [] => delivery {{ d_CallbackPayload := payload }}
                  | _ => delivery
                  end in
  delivery {{ d_CallbackState := ChordReady; d_CallbackVersion := (d_CallbackVersion delivery + 1)%Z }}.

(** The statements after the receipt is recorded: suppress the callback, wait for
    the other members, or make the callback ready. *)
Definition settle_callback (wall : time) (delivery : ChordDelivery) (outcome : MemberTerminalOutcome) (now : time)
    : option (ChordDelivery * option chord_error) :=
  if bool_decide (outcome = MemberTerminalFailure) then Some (setChordSuppressed wall delivery now, None)
  else
    match scan_receipts (d_Members delivery) with
    | AwaitReceipts => Some (delivery, None)
    | FailedReceipt => Some (setChordSuppressed wall delivery now, None)
    | AllReceipts =>
        r ← buildChordCallbackPayload delivery;
        match r with
        | inl e => Some (delivery, Some e)
        | inr payload => Some (ready_callback payload delivery, None)
        end
    end.

Definition ApplyChordMemberTerminal (wall : time) (delivery : ChordDelivery) (ordinal : Z) (taskID : string)
    (outcome : MemberTerminalOutcome) (rs : results) (now : time)
    : option (ChordDelivery * option chord_error) :=
  match member_at delivery ordinal with
  | None => Some (delivery, Some ErrChordNotFound)
  | Some member =>
      let i := Z.to_nat ordinal in
      if negb (String.eqb (m_TaskID member) taskID) then Some (delivery, Some ErrChordReceiptConflict)
      else
        match cloneChordResults rs with
        | inl e => Some (delivery, Some e)
        | inr copyResults =>
            let candidate := {| rc_TaskID := taskID; rc_Outcome := outcome; rc_Results := copyResults |} in
            match m_Receipt member with
            | Some existing =>
                if bool_decide (marshal_receipt existing = marshal_receipt candidate)
                then Some (delivery, None)
                else Some (delivery, Some ErrChordReceiptConflict)
            | None =>
                let member := receipt_member candidate member in
                let delivery := store_member delivery i member in
                let delivery := delivery {{ d_Version := (d_Version delivery + 1)%Z; d_UpdatedAt := now }} in
                settle_callback wall delivery outcome now
            end
        end
  end.

End json.

(** ** Callback publication *)

Definition claimable_callback (now : time) (delivery : ChordDelivery) : chord_error + option ChordDelivery :=
  match d_CallbackState delivery with
  | ChordLeased =>
      if After (d_CallbackLeaseExpiresAt delivery) now then inr None
      else inr (Some (delivery {{ d_CallbackState := ChordReady }}))
  | ChordPublished | ChordPublishUnknown =>
      if After (d_CallbackConfirmationAt delivery) now then inr None
      else inr (Some (delivery {{ d_CallbackState := ChordReady }}))
  | ChordReady => inr (Some delivery)
  | ChordWaiting | ChordDelivered | ChordSuppressed => inr None
  | ChordOther _ => inl ErrUnknownCallbackState
  end.

Definition lease_callback (now : time) (claim : ChordCallbackClaim) (delivery : ChordDelivery) : ChordDelivery :=
  delivery {{ d_CallbackState := ChordLeased;
              d_CallbackLeaseOwner := cc_Owner claim;
              d_CallbackLeaseExpiresAt := (now + leaseDuration (cc_LeaseDuration claim))%Z;
              d_CallbackVersion := (d_CallbackVersion delivery + 1)%Z;
              d_CallbackAttempts := (d_CallbackAttempts delivery + 1)%Z;
              d_Version := (d_Version delivery + 1)%Z;
              d_UpdatedAt := now }}.

Definition ClaimChordCallback (wall : time) (delivery : ChordDelivery) (claim : ChordCallbackClaim)
    : ChordDelivery * (chord_error + option ChordCallbackLease) :=
  let now := orNow wall (cc_Now claim) in
  match claimable_callback now delivery with
  | inl e => (delivery, inl e)
  | inr None => (delivery, inr None)
  | inr (Some delivery) =>
      if After (d_CallbackNextAttemptAt delivery) now then (delivery, inr None)
      else
        let delivery := lease_callback now claim delivery in
        (delivery,
         inr (Some {| cl_DeliveryKey := d_DeliveryKey delivery; cl_Payload := d_CallbackPayload delivery;
                      cl_Owner := cc_Owner claim; cl_Version := d_CallbackVersion delivery;
                      cl_ExpiresAt := d_CallbackLeaseExpiresAt delivery |}))
  end.

Definition callback_lease_current (delivery : ChordDelivery) (lease : ChordCallbackLease) : bool :=
  bool_decide (d_CallbackState delivery = ChordLeased) &&
  String.eqb (d_CallbackLeaseOwner delivery) (cl_Owner lease) &&
  (d_CallbackVersion delivery =? cl_Version lease)%Z.

Definition ApplyChordCallbackPublishOutcome (wall : time) (delivery : ChordDelivery)
    (lease : ChordCallbackLease) (outcome : ChordPublishOutcome) : ChordDelivery * option chord_error :=
  if negb (callback_lease_current delivery lease) then (delivery, Some ErrChordLeaseLost)
  else
    let now := orNow wall (po_Now outcome) in
    let delivery := delivery {{ d_CallbackLeaseOwner := ""; d_CallbackLeaseExpiresAt := 0%Z;
                                d_CallbackLastError := chordErrorSummary "callback_publish" outcome }} in
    let deadline := deadlineOrDefault (po_ConfirmationDeadline outcome) (now + 30 * Second)%Z in
    let finish (delivery : ChordDelivery) :=
      (delivery {{ d_CallbackVersion := (d_CallbackVersion delivery + 1)%Z;
                   d_Version := (d_Version delivery + 1)%Z; d_UpdatedAt := now }}, None) in
    match po_Kind outcome with
    | ChordPublishOutcomeSucceeded =>
        finish (delivery {{ d_CallbackState := ChordPublished; d_CallbackConfirmationAt := deadline }})
    | ChordPublishOutcomeUnknown =>
        finish (delivery {{ d_CallbackState := ChordPublishUnknown; d_CallbackConfirmationAt := deadline }})
    | ChordPublishOutcomeRejected =>
        finish (delivery {{ d_CallbackState := ChordReady;
                            d_CallbackNextAttemptAt :=
                              deadlineOrDefault (po_NextAttemptAt outcome) (now + Second)%Z }})
    | ChordPublishOutcomeOther _ => (delivery, Some ErrUnknownPublishOutcome)
    end.

Definition ApplyChordCallbackTerminal (wall : time) (delivery : ChordDelivery)
    (outcome : CallbackTerminalOutcome) (now : time) : ChordDelivery * option chord_error :=
  if bool_decide (d_CallbackState delivery = ChordDelivered) then
    if bool_decide (d_TerminalOutcome delivery = outcome) then (delivery, None)
    else (delivery, Some ErrChordTerminalConflict)
  else if bool_decide (d_CallbackState delivery = ChordSuppressed) then (delivery, Some ErrChordTerminalConflict)
  else
    let delivery := delivery {{ d_CallbackState := ChordDelivered; d_TerminalOutcome := outcome }} in
    let delivery := setChordTerminalTime wall delivery now in
    (delivery {{ d_CallbackVersion := (d_CallbackVersion delivery + 1)%Z;
                 d_Version := (d_Version delivery + 1)%Z; d_UpdatedAt := now }}, None).
