(* ===== verification/ChordStore.v ===== *)
(** * Durable chords: the SQL store of distributed/backend/backend_db/durable_chord.go

    The store keeps one row per delivery.  Each method runs in a transaction
    that locks the row, applies a transition of [Chord.v] to the decoded record
    and writes it back only when the transition reported a change and no error;
    ClaimCallbackPublication reads the row in a transaction of its own before.
    The row is modelled by its decoded record, and a transaction by one atomic
    function of it; the status rows of the member and callback tasks are not
    part of the state. *)

From S2P Require Import Prelude Chord.
From coqutil Require Import Datatypes.RecordSetters.
Import DoubleBraceUpdate.

(** ** One row *)

(** The body of the transaction: keep the mutated record when [mutate] says so. *)
Definition updateChordDelivery {A} (row : ChordDelivery) (mutated : ChordDelivery) (changed : bool) (r : A)
    : ChordDelivery * A :=
  if changed then (mutated, r) else (row, r).

Definition ClaimMemberPublication (wall : time) (row : ChordDelivery) (claim : ChordMemberClaim)
    : ChordDelivery * (chord_error + option ChordMemberLease) :=
  let '(mutated, r) := ClaimChordMember wall row claim in
  updateChordDelivery row mutated (match r with inr (Some _) => true | _ => false end) r.

Definition RecordMemberPublishOutcome (wall : time) (row : ChordDelivery) (lease : ChordMemberLease)
    (outcome : ChordPublishOutcome) : ChordDelivery * option chord_error :=
  let '(mutated, err) := ApplyChordMemberPublishOutcome wall row lease outcome in
  updateChordDelivery row mutated (match err with None => true | Some _ => false end) err.

(** [None] is a panic of the transition; the transaction is rolled back. *)
Definition RecordMemberTerminal `{ChordJSON} (wall : time) (row : ChordDelivery) (ordinal : Z) (taskID : string)
    (outcome : MemberTerminalOutcome) (rs : results) : option (ChordDelivery * option chord_error) :=
  let before := d_Version row in
  '(mutated, err) ← ApplyChordMemberTerminal wall row ordinal taskID outcome rs wall;
  Some (updateChordDelivery row mutated
          (match err with None => negb (d_Version mutated =? before)%Z | Some _ => false end) err).

Definition markChordMembersReady (wall : time) (row : ChordDelivery) : ChordDelivery :=
  PrepareChordMembers row wall.

(** The row is read first: a callback payload must decode for its status row. *)
Definition check_callback `{ChordJSON} (read : ChordDelivery) : option chord_error :=
  match d_CallbackPayload read with
  | [] => None
  | payload => match unmarshal_signature payload with None => Some ErrDecodeCallback | Some _ => None end
  end.

(** The transaction that claims. *)
Definition update_callback (wall : time) (row : ChordDelivery) (claim : ChordCallbackClaim)
    : ChordDelivery * (chord_error + option ChordCallbackLease) :=
  let '(mutated, r) := ClaimChordCallback wall row claim in
  updateChordDelivery row mutated (match r with inr (Some _) => true | _ => false end) r.

(** [read] is the row that was read, [row] the one that the later transaction finds. *)
Definition ClaimCallbackPublication `{ChordJSON} (wall : time) (read row : ChordDelivery) (claim : ChordCallbackClaim)
    : ChordDelivery * (chord_error + option ChordCallbackLease) :=
  match check_callback read with
  | Some e => (row, inl e)
  | None => update_callback wall row claim
  end.

Definition RecordCallbackPublishOutcome (wall : time) (row : ChordDelivery) (lease : ChordCallbackLease)
    (outcome : ChordPublishOutcome) : ChordDelivery * option chord_error :=
  let '(mutated, err) := ApplyChordCallbackPublishOutcome wall row lease outcome in
  updateChordDelivery row mutated (match err with None => true | Some _ => false end) err.

Definition RecordCallbackTerminal (wall : time) (row : ChordDelivery) (outcome : CallbackTerminalOutcome)
    : ChordDelivery * option chord_error :=
  let before := d_Version row in
  let '(mutated, err) := ApplyChordCallbackTerminal wall row outcome wall in
  updateChordDelivery row mutated
    (match err with None => negb (d_Version mutated =? before)%Z | Some _ => false end) err.

(** ** The table *)

Abbreviation rows := (list ChordDelivery).

Definition find_group (rs : rows) (groupID : string) : option ChordDelivery :=
  head (filter (λ d, d_GroupID d = groupID) rs).
Definition find_key (rs : rows) (key : string) : option ChordDelivery :=
  head (filter (λ d, d_DeliveryKey d = key) rs).

Definition ref_of (d : ChordDelivery) (created : bool) : ChordRegistrationRef :=
  {| rf_DeliveryKey := d_DeliveryKey d; rf_Owner := d_RegistrationOwner d;
     rf_Version := d_RegistrationVersion d; rf_Created := created |}.

(** [owner] is the fresh owner that [NewChordOwner] drew.  The primary key of the
    table rejects a new row whose delivery key is taken, in every attempt, and the
    answer is the error of the database. *)
Definition RegisterChord `{ChordJSON} (owner : string) (wall : time) (rs : rows) (registration : ChordRegistration)
    : rows * (chord_error + ChordRegistrationRef) :=
  match FinalizeChordRegistration registration with
  | inl e => (rs, inl e)
  | inr registration =>
      let delivery := NewChordDelivery registration owner wall in
      match find_group rs (rg_GroupID registration) with
      | Some current =>
          if ChordRegistrationMatches current registration
          then (rs, inr (ref_of current (String.eqb (d_RegistrationOwner current) owner)))
          else (rs, inl ErrChordRegistrationConflict)
      | None =>
          match find_key rs (d_DeliveryKey delivery) with
          | Some _ => (rs, inl ErrDuplicatedKey)
          | None => (rs ++ [delivery], inr (ref_of delivery true))
          end
      end
  end.

Definition AbortRegistration (rs : rows) (ref : ChordRegistrationRef) : rows * option chord_error :=
  if negb (rf_Created ref) then (rs, Some ErrChordRegistrationOwnershipLost)
  else
    match find_key rs (rf_DeliveryKey ref) with
    | None => (rs, None)
    | Some delivery =>
        if negb (String.eqb (d_RegistrationOwner delivery) (rf_Owner ref)) ||
           negb (d_RegistrationVersion delivery =? rf_Version ref)%Z
        then (rs, Some ErrChordRegistrationOwnershipLost)
        else if d_MemberPublicationStarted delivery then (rs, Some ErrChordPublicationStarted)
        else (filter (λ d, d_DeliveryKey d ≠ rf_DeliveryKey ref) rs, None)
    end.

(** ** Histories of a row *)

Inductive chord_op :=
  | OpReady (wall : time)
  | OpClaimMember (wall : time) (claim : ChordMemberClaim)
  | OpMemberOutcome (wall : time) (lease : ChordMemberLease) (outcome : ChordPublishOutcome)
  | OpMemberTerminal (wall : time) (ordinal : Z) (taskID : string) (outcome : MemberTerminalOutcome)
      (rs : results)
  | OpClaimCallback (wall : time) (claim : ChordCallbackClaim)
  | OpCallbackOutcome (wall : time) (lease : ChordCallbackLease) (outcome : ChordPublishOutcome)
  | OpCallbackTerminal (wall : time) (outcome : CallbackTerminalOutcome).

(** The row after an operation, whatever the operation answers. *)
Definition apply_op `{ChordJSON} (op : chord_op) (row : ChordDelivery) : ChordDelivery :=
  match op with
  | OpReady wall => markChordMembersReady wall row
  | OpClaimMember wall claim => (ClaimMemberPublication wall row claim).1
  | OpMemberOutcome wall lease outcome => (RecordMemberPublishOutcome wall row lease outcome).1
  | OpMemberTerminal wall ordinal taskID outcome rs =>
      match RecordMemberTerminal wall row ordinal taskID outcome rs with
      | Some (row', _) => row'
      | None => row
      end
  | OpClaimCallback wall claim => (update_callback wall row claim).1
  | OpCallbackOutcome wall lease outcome => (RecordCallbackPublishOutcome wall row lease outcome).1
  | OpCallbackTerminal wall outcome => (RecordCallbackTerminal wall row outcome).1
  end.

Definition run_ops `{ChordJSON} (ops : list chord_op) (row : ChordDelivery) : ChordDelivery :=
  foldl (λ d op, apply_op op d) row ops.

(** The row of a registration after some history of operations, in any order,
    by any callers, with any clocks. *)
Definition history `{ChordJSON} (reg : ChordRegistration) (row : ChordDelivery) : Prop :=
  ∃ owner now ops, row = run_ops ops (NewChordDelivery reg owner now).
