(* ===== verification/ChordInv.v ===== *)
(** * Durable chords: abstract transitions and the invariant

    [cstep] is an abstract description of what an operation of the store may do
    to a row: touch members that have no receipt, record a receipt, move the
    callback between its active states, or finish it.  Every operation is
    simulated by [cstep]; the invariant and the orders that the safety theorems
    need are proved of [cstep] only. *)

From S2P Require Import Prelude Chord ChordStore.
From coqutil Require Import Datatypes.RecordSetters.
Import DoubleBraceUpdate.

(** ** Abstract transitions *)

(** The definition of the chord, which no operation changes. *)
Record same_def (d d' : ChordDelivery) : Prop := {
  sd_key : d_DeliveryKey d' = d_DeliveryKey d;
  sd_hash : d_DefinitionHash d' = d_DefinitionHash d;
  sd_group : d_GroupID d' = d_GroupID d;
  sd_retention : d_Retention d' = d_Retention d;
  sd_owner : d_RegistrationOwner d' = d_RegistrationOwner d;
  sd_regversion : d_RegistrationVersion d' = d_RegistrationVersion d;
  sd_template : d_CallbackTemplate d' = d_CallbackTemplate d;
  sd_started : d_MemberPublicationStarted d = true → d_MemberPublicationStarted d' = true;
}.

(** Everything the callback's life depends on. *)
Definition cb (d : ChordDelivery) :=
  (d_CallbackState d, d_CallbackVersion d, d_CallbackPayload d, d_CallbackLeaseOwner d,
   d_CallbackLeaseExpiresAt d, d_CallbackConfirmationAt d, d_CallbackNextAttemptAt d,
   d_TerminalOutcome d, d_TerminalAt d, d_TerminalExpireAt d).

Definition same_ids (m m' : ChordMemberPublication) : Prop :=
  m_Ordinal m' = m_Ordinal m ∧ m_TaskID m' = m_TaskID m ∧ m_Payload m' = m_Payload m.

Definition publishing (s : ChordMemberState) : Prop :=
  s = ChordMemberReady ∨ s = ChordMemberLeased ∨ s = ChordMemberPublished ∨ s = ChordMemberPublishUnknown.

Definition active (s : ChordCallbackState) : Prop :=
  s = ChordReady ∨ s = ChordLeased ∨ s = ChordPublished ∨ s = ChordPublishUnknown.

Definition finished (s : ChordCallbackState) : Prop := s = ChordDelivered ∨ s = ChordSuppressed.

(** A member is left alone, or moves between the states of its publication. *)
Definition touched (m m' : ChordMemberPublication) : Prop :=
  m' = m ∨
  (same_ids m m' ∧ m_Receipt m' = m_Receipt m ∧ m_State m ≠ ChordMemberTerminal ∧
   publishing (m_State m') ∧ (m_Version m < m_Version m')%Z).

Definition receipted (m m' : ChordMemberPublication) (r : ChordMemberReceipt) : Prop :=
  same_ids m m' ∧ m_Receipt m' = Some r ∧ m_State m' = ChordMemberTerminal ∧
  (m_Version m < m_Version m')%Z.

Definition expiry (d : ChordDelivery) : option time :=
  if (d_Retention d <? 0)%Z then None
  else Some (d_TerminalAt d + wraps 64 (NormalizeChordRetention (d_Retention d) * Second))%Z.

Definition suppression (d d' : ChordDelivery) : Prop :=
  (finished (d_CallbackState d) ∧ cb d' = cb d) ∨
  (¬ finished (d_CallbackState d) ∧ d_CallbackState d' = ChordSuppressed ∧
   d_TerminalOutcome d' = CallbackTerminalFailure ∧ d_TerminalExpireAt d' = expiry d' ∧
   d_CallbackPayload d' = d_CallbackPayload d ∧ (d_CallbackVersion d < d_CallbackVersion d')%Z).

(** A member is terminal exactly when it has a receipt. *)
Definition receipts_ok (d : ChordDelivery) : Prop :=
  ∀ i m, d_Members d !! i = Some m → m_State m = ChordMemberTerminal ↔ is_Some (m_Receipt m).

Definition failed (r : ChordMemberReceipt) : Prop := rc_Outcome r = MemberTerminalFailure.

Section steps.
Context `{ChordJSON}.

Definition becomes_ready (d d' : ChordDelivery) : Prop :=
  ∃ payload, buildChordCallbackPayload d' = Some (inr payload) ∧
    d_CallbackPayload d' = (match d_CallbackPayload d with [] => payload | p => p end) ∧
    d_CallbackState d' = ChordReady ∧ (d_CallbackVersion d < d_CallbackVersion d')%Z ∧
    d_TerminalOutcome d' = d_TerminalOutcome d ∧ d_TerminalAt d' = d_TerminalAt d ∧
    d_TerminalExpireAt d' = d_TerminalExpireAt d.

(** What the row becomes once a receipt with the outcome [o] is in it. *)
Definition settled (d d' : ChordDelivery) (o : MemberTerminalOutcome) : Prop :=
  if decide (o = MemberTerminalFailure) then suppression d d'
  else match scan_receipts (d_Members d') with
       | AwaitReceipts => cb d' = cb d
       | FailedReceipt => suppression d d'
       | AllReceipts => becomes_ready d d'
       end.

Inductive cstep (d d' : ChordDelivery) : Prop :=
  | cs_none : d' = d → cstep d d'
  | cs_members :
      same_def d d' → cb d' = cb d → Forall2 touched (d_Members d) (d_Members d') → cstep d d'
  | cs_receipt i m m' r :
      same_def d d' → d_Members d !! i = Some m →
      m_Receipt m = None → receipted m m' r →
      d_Members d' = <[i := m']> (d_Members d) →
      settled d d' (rc_Outcome r) →
      cstep d d'
  | cs_callback :
      same_def d d' → d_Members d' = d_Members d → active (d_CallbackState d) → active (d_CallbackState d') →
      (d_CallbackVersion d < d_CallbackVersion d')%Z → d_CallbackPayload d' = d_CallbackPayload d →
      d_TerminalOutcome d' = d_TerminalOutcome d → d_TerminalAt d' = d_TerminalAt d →
      d_TerminalExpireAt d' = d_TerminalExpireAt d → cstep d d'
  | cs_deliver :
      same_def d d' → d_Members d' = d_Members d → ¬ finished (d_CallbackState d) →
      d_CallbackState d' = ChordDelivered → d_CallbackPayload d' = d_CallbackPayload d →
      d_TerminalExpireAt d' = expiry d' → (d_CallbackVersion d < d_CallbackVersion d')%Z → cstep d d'.

(** ** The operations are simulated *)

Lemma same_def_refl d : same_def d d.
Proof. by split. Qed.

Lemma member_at_Some d z m :
  member_at d z = Some m → d_Members d !! Z.to_nat z = Some m ∧ z = Z.of_nat (Z.to_nat z).
Proof.
  unfold member_at. destruct (_ || _) eqn:Hb; [done|]. intros Hm. split; [done|].
  apply orb_false_iff in Hb as [Hb _]. apply Z.ltb_ge in Hb. lia.
Qed.

Lemma touched_refl m : touched m m.
Proof. by left. Qed.

Lemma touch_one d i m m' :
  d_Members d !! i = Some m → touched m m' → Forall2 touched (d_Members d) (<[i := m']> (d_Members d)).
Proof.
  intros Hm Ht. apply Forall2_same_length_lookup_2; [by rewrite length_insert|].
  intros j x y Hx Hy. destruct (decide (i = j)) as [<-|Hne].
  - rewrite list_lookup_insert_eq in Hy by (by eapply lookup_lt_Some). congruence.
  - rewrite list_lookup_insert_ne in Hy by done. assert (x = y) as -> by congruence. apply touched_refl.
Qed.

Lemma ready_cstep wall d : cstep d (markChordMembersReady wall d).
Proof.
  apply cs_members; [by split|done|].
  change (d_Members (markChordMembersReady wall d)) with (prepare_member <$> d_Members d).
  apply Forall2_same_length_lookup_2; [by rewrite length_fmap|].
  intros i m m' Hm Hm'. rewrite list_lookup_fmap, Hm in Hm'. injection Hm' as <-.
  unfold prepare_member. case_bool_decide as Hs; [|apply touched_refl].
  right. split_and!; try done; [by rewrite Hs|by left|cbn; unfold constant; lia].
Qed.

(** What a granted claim does. *)
Lemma claim_member_granted wall d c d' l :
  ClaimMemberPublication wall d c = (d', inr (Some l)) →
  ∃ m m', d_Members d !! Z.to_nat (mc_Ordinal c) = Some m ∧ mc_Ordinal c = Z.of_nat (Z.to_nat (mc_Ordinal c)) ∧
    publishing (m_State m) ∧ same_ids m m' ∧ m_Receipt m' = m_Receipt m ∧
    m_State m' = ChordMemberLeased ∧ m_LeaseOwner m' = mc_Owner c ∧ m_Version m' = (m_Version m + 1)%Z ∧
    m_LeaseExpiresAt m' = (orNow wall (mc_Now c) + leaseDuration (mc_LeaseDuration c))%Z ∧
    same_def d d' ∧ cb d' = cb d ∧ d_MemberPublicationStarted d' = true ∧
    d_Members d' = <[Z.to_nat (mc_Ordinal c) := m']> (d_Members d) ∧
    ml_Ordinal l = m_Ordinal m ∧ ml_TaskID l = m_TaskID m ∧ ml_Payload l = m_Payload m ∧
    ml_Owner l = mc_Owner c ∧ ml_Version l = m_Version m' ∧ ml_ExpiresAt l = m_LeaseExpiresAt m'.
Proof.
  unfold ClaimMemberPublication, ClaimChordMember.
  destruct (member_at d (mc_Ordinal c)) as [m|] eqn:Hm; [|discriminate].
  apply member_at_Some in Hm as [Hm Hz].
  destruct (claimable_member (orNow wall (mc_Now c)) m) as [e|[m1|]] eqn:Hc; [discriminate| |discriminate].
  destruct (After (m_NextAttemptAt m1) _); [discriminate|].
  assert (Hm1 : publishing (m_State m) ∧ m_Ordinal m1 = m_Ordinal m ∧ m_TaskID m1 = m_TaskID m ∧
    m_Payload m1 = m_Payload m ∧ m_Receipt m1 = m_Receipt m ∧ m_Version m1 = m_Version m).
  { unfold claimable_member in Hc. unfold publishing.
    destruct (m_State m); try discriminate; try (destruct (After _ _); [discriminate|]);
      injection Hc as <-; split_and!; auto. }
  destruct Hm1 as (Hp & Ho & Ht & Hpay & Hr & Hv). cbn [updateChordDelivery]. intros [= <- <-].
  exists m, (lease_member (orNow wall (mc_Now c)) c m1).
  split_and!; try assumption; try reflexivity; try (cbn; congruence);
    try (by split); try (rewrite <- Hv; reflexivity).
Qed.

Lemma claim_member_refused wall d c d' r :
  ClaimMemberPublication wall d c = (d', r) → (∀ l, r ≠ inr (Some l)) → d' = d.
Proof.
  unfold ClaimMemberPublication. destruct (ClaimChordMember wall d c) as [mutated [e|[l|]]];
    cbn [updateChordDelivery]; intros [= <- <-] Hr; try done. by destruct (Hr l).
Qed.

Lemma claim_member_cstep wall d c : cstep d (ClaimMemberPublication wall d c).1.
Proof.
  destruct (ClaimMemberPublication wall d c) as [d' r] eqn:Hc. cbn [fst].
  destruct r as [e|[l|]]; [|destruct (claim_member_granted _ _ _ _ _ Hc)
    as (m & m' & Hm & _ & Hp & Hids & Hr & Hs & _ & Hv & _ & Hdef & Hcb & _ & Hmem & _)|].
  - apply cs_none. by eapply claim_member_refused.
  - apply cs_members; [done|done|]. rewrite Hmem. eapply touch_one; [exact Hm|].
    right. split_and!; [done..| |right; by left|lia].
    unfold publishing in Hp. intros Hs'. rewrite Hs' in Hp. by intuition discriminate.
  - apply cs_none. by eapply claim_member_refused.
Qed.

Lemma suppressed_spec wall d now :
  same_def d (setChordSuppressed wall d now) ∧ d_Members (setChordSuppressed wall d now) = d_Members d ∧
  d_Version (setChordSuppressed wall d now) = d_Version d ∧ suppression d (setChordSuppressed wall d now).
Proof.
  unfold setChordSuppressed, suppression, finished.
  destruct (bool_decide (d_CallbackState d = ChordDelivered)) eqn:H1; cbn [orb].
  { apply bool_decide_eq_true in H1. split_and!; [by split|done|done|]. left. split; [by left|done]. }
  destruct (bool_decide (d_CallbackState d = ChordSuppressed)) eqn:H2.
  { apply bool_decide_eq_true in H2. split_and!; [by split|done|done|]. left. split; [by right|done]. }
  apply bool_decide_eq_false in H1, H2. unfold setChordTerminalTime.
  destruct (d_Retention d <? 0)%Z eqn:Hret; (split; [|split; [|split; [|right]]]);
    try (destruct d; cbn in *; rewrite Hret; by split).
  all: split; [tauto|]; unfold expiry; destruct d; cbn in *; unfold constant; rewrite Hret; cbn; rewrite ?Hret.
  all: split_and!; try reflexivity; lia.
Qed.

Lemma same_def_trans d1 d2 d3 : same_def d1 d2 → same_def d2 d3 → same_def d1 d3.
Proof. intros [] []. split; try congruence. auto. Qed.

Lemma suppression_frame d d1 d2 :
  suppression d d1 → cb d2 = cb d1 → same_def d1 d2 → suppression d d2.
Proof.
  intros Hs Hcb Hdef. pose proof (sd_retention _ _ Hdef) as Hret.
  destruct Hs as [[? Hc]|Hs]; [left; split; [done|congruence]|]. right.
  unfold cb in Hcb. injection Hcb as E1 E2 E3 E4 E5 E6 E7 E8 E9 E10.
  unfold expiry in *. by rewrite Hret, E1, E2, E3, E8, E9, E10.
Qed.

Lemma finish_spec now o i d m :
  let d' := finish_member_outcome now o i d m in
  ∃ m', d_Members d' = <[i := m']> (d_Members d) ∧ same_ids m m' ∧ m_Receipt m' = m_Receipt m ∧
    m_State m' = m_State m ∧ m_Version m' = (m_Version m + 1)%Z ∧ same_def d d' ∧ cb d' = cb d.
Proof.
  unfold finish_member_outcome. destruct (IsZero (po_NextAttemptAt o)); eexists;
    (split; [reflexivity|]); split_and!; try reflexivity; by split.
Qed.

(** An outcome is accepted only for the current lease. *)
Lemma member_outcome_accepted wall d l o d' :
  RecordMemberPublishOutcome wall d l o = (d', None) →
  ∃ m m', d_Members d !! Z.to_nat (ml_Ordinal l) = Some m ∧ lease_current m l = true ∧
    (m_Version m < m_Version m')%Z ∧ d_Members d' = <[Z.to_nat (ml_Ordinal l) := m']> (d_Members d) ∧
    same_def d d' ∧
    ((cb d' = cb d ∧ touched m m') ∨ ∃ r, failed r ∧ receipted m m' r ∧ suppression d d').
Proof.
  unfold RecordMemberPublishOutcome, ApplyChordMemberPublishOutcome.
  destruct (member_at d (ml_Ordinal l)) as [m|] eqn:Hm; [|discriminate].
  apply member_at_Some in Hm as [Hm _]. destruct (lease_current m l) eqn:Hl; cbn [negb]; [|discriminate].
  assert (Hst : m_State m ≠ ChordMemberTerminal).
  { unfold lease_current in Hl. rewrite !andb_true_iff in Hl. destruct Hl as [[Hl _] _].
    apply bool_decide_eq_true in Hl. by rewrite Hl. }
  set (now := orNow wall (po_Now o)). intros Hrun. exists m.
  destruct (po_Kind o); cbn [updateChordDelivery] in Hrun; try discriminate; injection Hrun as <-;
    match goal with |- context [finish_member_outcome ?n ?o ?i ?d1 ?m1] =>
      destruct (finish_spec n o i d1 m1) as (m' & Hmem & Hids & Hr & Hs & Hv & Hdef & Hcb) end;
    exists m'; (split; [done|split; [done|]]).
  3: { destruct (suppressed_spec wall d now) as (Hdef1 & Hmem1 & _ & Hsup). rewrite Hmem1 in Hmem.
       split_and!; [by rewrite Hv; apply Z.lt_succ_diag_r|done|by eapply same_def_trans|]. right. eexists.
       split_and!; [|split_and!; [exact Hids|exact Hr|exact Hs|by rewrite Hv; apply Z.lt_succ_diag_r]|];
         [done|by eapply suppression_frame]. }
  all: split_and!; [by rewrite Hv; apply Z.lt_succ_diag_r|done|done|]; left; split; [done|right].
  all: split_and!; [exact Hids|exact Hr|done|rewrite Hs; unfold publishing; cbn; tauto|by rewrite Hv; apply Z.lt_succ_diag_r].
Qed.

Lemma member_outcome_rejected wall d l o d' e :
  RecordMemberPublishOutcome wall d l o = (d', Some e) → d' = d.
Proof.
  unfold RecordMemberPublishOutcome. destruct (ApplyChordMemberPublishOutcome wall d l o) as [d1 [e1|]];
    cbn [updateChordDelivery]; [|discriminate]. by intros [= -> _].
Qed.

Lemma member_outcome_cstep wall d l o : receipts_ok d → cstep d (RecordMemberPublishOutcome wall d l o).1.
Proof.
  intros Hok. destruct (RecordMemberPublishOutcome wall d l o) as [d' [e|]] eqn:Hr; cbn [fst].
  { apply cs_none. by eapply member_outcome_rejected. }
  destruct (member_outcome_accepted _ _ _ _ _ Hr)
    as (m & m' & Hm & Hl & Hv & Hmem & Hdef & [[Hcb Ht]|(r & Hf & Hrec & Hsup)]).
  - apply cs_members; [done|done|]. rewrite Hmem. by eapply touch_one.
  - eapply cs_receipt; [done|exact Hm| |exact Hrec|exact Hmem|unfold settled; by rewrite decide_True].
    unfold lease_current in Hl. rewrite !andb_true_iff in Hl. destruct Hl as [[Hl _] _].
    apply bool_decide_eq_true in Hl. destruct (m_Receipt m) as [r'|] eqn:Hr'; [|done].
    assert (m_State m = ChordMemberTerminal) as Hc by (apply (Hok _ _ Hm); by rewrite Hr'). congruence.
Qed.

Lemma build_ext d d' :
  d_CallbackTemplate d' = d_CallbackTemplate d → d_Members d' = d_Members d →
  buildChordCallbackPayload d' = buildChordCallbackPayload d.
Proof. intros Ht Hm. unfold buildChordCallbackPayload. by rewrite Ht, Hm. Qed.

Lemma ready_callback_spec payload d :
  let d' := ready_callback payload d in
  same_def d d' ∧ d_Members d' = d_Members d ∧ d_Version d' = d_Version d ∧
  d_CallbackState d' = ChordReady ∧ d_CallbackPayload d' = (match d_CallbackPayload d with [] => payload | p => p end) ∧
  d_CallbackVersion d' = (d_CallbackVersion d + 1)%Z ∧ d_TerminalOutcome d' = d_TerminalOutcome d ∧
  d_TerminalAt d' = d_TerminalAt d ∧ d_TerminalExpireAt d' = d_TerminalExpireAt d.
Proof.
  unfold ready_callback. destruct d as [? ? ? ? ? ? ? ? ? ? payload0]; cbn.
  destruct payload0; cbn; split_and!; try reflexivity; by split.
Qed.

Lemma settle_spec wall d o now d' :
  settle_callback wall d o now = Some (d', None) →
  same_def d d' ∧ d_Members d' = d_Members d ∧ d_Version d' = d_Version d ∧ settled d d' o.
Proof.
  unfold settle_callback, settled. destruct (suppressed_spec wall d now) as (Hd & Hm & Hv & Hs).
  case_bool_decide as Ho; [rewrite decide_True by done; by intros [= <-]|]. rewrite decide_False by done.
  destruct (scan_receipts (d_Members d)) eqn:Hscan.
  - intros [= <-]. rewrite Hscan. by split_and!; [apply same_def_refl|..].
  - intros [= <-]. by rewrite Hm, Hscan.
  - destruct (buildChordCallbackPayload d) as [[e|payload]|] eqn:Hb; cbn [mbind option_bind]; [discriminate| |discriminate].
    intros [= <-]. destruct (ready_callback_spec payload d) as (Hd' & Hm' & Hv' & Hst & Hp & Hcv & H1 & H2 & H3).
    rewrite Hm', Hscan. split_and!; [done..|]. exists payload.
    split_and!; try done; [|lia]. rewrite <- Hb. apply build_ext; [apply Hd'|done].
Qed.

Lemma settled_pre d d1 d' o : cb d1 = cb d → settled d1 d' o → settled d d' o.
Proof.
  intros Hcb. unfold settled, suppression, becomes_ready. unfold cb in *.
  injection Hcb as -> -> -> -> -> -> -> -> -> ->. done.
Qed.

(** A receipt is recorded for a member that has none; every other answer leaves
    the row as it was. *)
Lemma member_terminal_spec wall d i tid o rs d' err :
  RecordMemberTerminal wall d i tid o rs = Some (d', err) →
  d' = d ∨
  (err = None ∧ ∃ m m' r, same_def d d' ∧ d_Members d !! Z.to_nat i = Some m ∧ m_Receipt m = None ∧
    m_TaskID m = tid ∧ rc_Outcome r = o ∧ receipted m m' r ∧
    d_Members d' = <[Z.to_nat i := m']> (d_Members d) ∧
    settled d d' o ∧ cloneChordResults rs = inr (rc_Results r)).
Proof.
  unfold RecordMemberTerminal, ApplyChordMemberTerminal.
  destruct (member_at d i) as [m|] eqn:Hm; cbn [mbind option_bind updateChordDelivery];
    [|intros [= <- <-]; by left].
  apply member_at_Some in Hm as [Hm _].
  destruct (String.eqb_spec (m_TaskID m) tid) as [Htid|]; cbn [negb mbind option_bind updateChordDelivery];
    [|intros [= <- <-]; by left].
  destruct (cloneChordResults rs) as [e|copy] eqn:Hclone; cbn [mbind option_bind updateChordDelivery];
    [intros [= <- <-]; by left|].
  destruct (m_Receipt m) as [ex|] eqn:Hex.
  { case_bool_decide; cbn [mbind option_bind]; rewrite ?Z.eqb_refl; cbn [negb updateChordDelivery];
      intros [= <- <-]; by left. }
  set (r := {| rc_TaskID := tid; rc_Outcome := o; rc_Results := copy |}).
  set (m' := receipt_member r m). set (d1 := (store_member d (Z.to_nat i) m') {{ d_Version := _; d_UpdatedAt := wall }}).
  assert (Hdef : same_def d d1) by (by split). assert (Hcb : cb d1 = cb d) by done.
  assert (Hmem : d_Members d1 = <[Z.to_nat i := m']> (d_Members d)) by done.
  assert (Hrec : receipted m m' r) by (split_and!; try done; apply Z.lt_succ_diag_r).
  destruct (settle_callback wall d1 o wall) as [[d2 [e|]]|] eqn:Hset; cbn [mbind option_bind updateChordDelivery];
    [intros [= <- <-]; by left| |discriminate].
  destruct (settle_spec _ _ _ _ _ Hset) as (Hd2 & Hm2 & Hv2 & Hs2).
  rewrite Hv2. change (d_Version d1) with (d_Version d + 1)%Z.
  rewrite (proj2 (Z.eqb_neq _ _)) by lia. cbn [negb updateChordDelivery]. intros [= <- <-]. right.
  split; [done|]. exists m, m', r.
  split_and!; [by eapply same_def_trans|done|done|done|done|done|by rewrite Hm2|by eapply settled_pre|done].
Qed.

Lemma claim_callback_granted wall d c d' l :
  update_callback wall d c = (d', inr (Some l)) →
  active (d_CallbackState d) ∧ same_def d d' ∧ d_Members d' = d_Members d ∧
  d_CallbackState d' = ChordLeased ∧ d_CallbackVersion d' = (d_CallbackVersion d + 1)%Z ∧
  d_CallbackLeaseOwner d' = cc_Owner c ∧
  d_CallbackLeaseExpiresAt d' = (orNow wall (cc_Now c) + leaseDuration (cc_LeaseDuration c))%Z ∧
  d_CallbackPayload d' = d_CallbackPayload d ∧ d_TerminalOutcome d' = d_TerminalOutcome d ∧
  d_TerminalAt d' = d_TerminalAt d ∧ d_TerminalExpireAt d' = d_TerminalExpireAt d ∧
  cl_DeliveryKey l = d_DeliveryKey d ∧ cl_Payload l = d_CallbackPayload d ∧ cl_Owner l = cc_Owner c ∧
  cl_Version l = d_CallbackVersion d' ∧ cl_ExpiresAt l = d_CallbackLeaseExpiresAt d'.
Proof.
  unfold update_callback. intros Hc.
  assert (Hclaim : ∃ mutated, ClaimChordCallback wall d c = (mutated, inr (Some l)) ∧ d' = mutated).
  { destruct (ClaimChordCallback wall d c) as [mu [e|[l'|]]]; cbn [updateChordDelivery] in Hc; simplify_eq; eauto. }
  destruct Hclaim as (mu & Hcl & ->). clear Hc. unfold ClaimChordCallback in Hcl.
  destruct (claimable_callback (orNow wall (cc_Now c)) d) as [e|[d1|]] eqn:Hcc; [discriminate| |discriminate].
  destruct (After (d_CallbackNextAttemptAt d1) _); [discriminate|]. injection Hcl as <- <-.
  assert (Hd1 : active (d_CallbackState d) ∧ (d1 = d ∨ d1 = d {{ d_CallbackState := ChordReady }})).
  { unfold claimable_callback in Hcc. unfold active.
    destruct (d_CallbackState d); try discriminate; try (destruct (After _ _); [discriminate|]);
      injection Hcc as <-; auto. }
  destruct Hd1 as [Hact [-> | ->]]; (split; [done|]); split_and!; try reflexivity; by split.
Qed.

Lemma claim_callback_refused wall d c d' r :
  update_callback wall d c = (d', r) → (∀ l, r ≠ inr (Some l)) → d' = d.
Proof.
  unfold update_callback. intros Hc Hr.
  destruct (ClaimChordCallback wall d c) as [mu [e|[l|]]]; cbn [updateChordDelivery] in Hc; simplify_eq; try done;
    by destruct (Hr l).
Qed.

Lemma claim_callback_cstep wall d c : cstep d (update_callback wall d c).1.
Proof.
  destruct (update_callback wall d c) as [d' r] eqn:Hc. cbn [fst].
  destruct r as [e|[l|]]; [|destruct (claim_callback_granted _ _ _ _ _ Hc)
    as (Ha & Hdef & Hm & Hs & Hv & _ & _ & Hp & H1 & H2 & H3 & _)|];
    [by apply cs_none; eapply claim_callback_refused| |by apply cs_none; eapply claim_callback_refused].
  apply cs_callback; try done; [rewrite Hs; unfold active; tauto|lia].
Qed.

Lemma callback_outcome_accepted wall d l o d' :
  RecordCallbackPublishOutcome wall d l o = (d', None) →
  callback_lease_current d l = true ∧ same_def d d' ∧ d_Members d' = d_Members d ∧
  active (d_CallbackState d') ∧ d_CallbackVersion d' = (d_CallbackVersion d + 1)%Z ∧
  d_CallbackPayload d' = d_CallbackPayload d ∧ d_TerminalOutcome d' = d_TerminalOutcome d ∧
  d_TerminalAt d' = d_TerminalAt d ∧ d_TerminalExpireAt d' = d_TerminalExpireAt d.
Proof.
  unfold RecordCallbackPublishOutcome, ApplyChordCallbackPublishOutcome.
  destruct (callback_lease_current d l); cbn [negb]; [|discriminate]. intros Hr. split; [done|].
  destruct (po_Kind o); cbn [updateChordDelivery] in Hr; try discriminate; injection Hr as <-;
    split_and!; try reflexivity; try (by split); unfold active; cbn; tauto.
Qed.

Lemma callback_outcome_rejected wall d l o d' e :
  RecordCallbackPublishOutcome wall d l o = (d', Some e) → d' = d.
Proof.
  unfold RecordCallbackPublishOutcome. destruct (ApplyChordCallbackPublishOutcome wall d l o) as [d1 [e1|]];
    cbn [updateChordDelivery]; [|discriminate]. by intros [= -> _].
Qed.

Lemma callback_current_state d l : callback_lease_current d l = true →
  d_CallbackState d = ChordLeased ∧ d_CallbackLeaseOwner d = cl_Owner l ∧ d_CallbackVersion d = cl_Version l.
Proof.
  unfold callback_lease_current. rewrite !andb_true_iff. intros [[H1 H2] H3].
  apply bool_decide_eq_true in H1. apply String.eqb_eq in H2. apply Z.eqb_eq in H3. done.
Qed.

Lemma callback_outcome_cstep wall d l o : cstep d (RecordCallbackPublishOutcome wall d l o).1.
Proof.
  destruct (RecordCallbackPublishOutcome wall d l o) as [d' [e|]] eqn:Hr; cbn [fst].
  { apply cs_none. by eapply callback_outcome_rejected. }
  destruct (callback_outcome_accepted _ _ _ _ _ Hr) as (Hl & Hdef & Hm & Ha & Hv & Hp & H1 & H2 & H3).
  apply callback_current_state in Hl as (Hs & _ & _).
  apply cs_callback; try done; [rewrite Hs; unfold active; tauto|lia].
Qed.

Lemma callback_terminal_cstep wall d o : cstep d (RecordCallbackTerminal wall d o).1.
Proof.
  unfold RecordCallbackTerminal, ApplyChordCallbackTerminal.
  case_bool_decide as H1; [case_bool_decide; cbn [updateChordDelivery]; rewrite ?Z.eqb_refl; by apply cs_none|].
  case_bool_decide as H2; [by apply cs_none|].
  set (d1 := setChordTerminalTime _ _ _).
  assert (Hd1 : same_def d d1 ∧ d_Members d1 = d_Members d ∧ d_CallbackState d1 = ChordDelivered ∧
    d_CallbackPayload d1 = d_CallbackPayload d ∧ d_TerminalExpireAt d1 = expiry d1 ∧
    d_CallbackVersion d1 = d_CallbackVersion d ∧ d_Version d1 = d_Version d).
  { subst d1. unfold setChordTerminalTime, expiry. destruct d; cbn in *; unfold constant.
    destruct (_ <? 0)%Z eqn:Hret; cbn; rewrite ?Hret; split_and!; try reflexivity; by split. }
  destruct Hd1 as (Hdef & Hm & Hs & Hp & He & Hcv & Hv).
  match goal with |- context [(d_Version ?x =? _)%Z] => change (d_Version x) with (d_Version d1 + 1)%Z end.
  rewrite Hv, (proj2 (Z.eqb_neq _ _)) by lia. cbn [negb updateChordDelivery fst].
  apply cs_deliver; try done; [destruct Hdef; by split|unfold finished; tauto|].
  match goal with |- (_ < d_CallbackVersion ?x)%Z => change (d_CallbackVersion x) with (d_CallbackVersion d1 + 1)%Z end.
  lia.
Qed.

Theorem apply_op_cstep op d : receipts_ok d → cstep d (apply_op op d).
Proof.
  intros Hok. destruct op; cbn [apply_op].
  - apply ready_cstep.
  - apply claim_member_cstep.
  - by apply member_outcome_cstep.
  - destruct (RecordMemberTerminal _ _ _ _ _ _) as [[d' err]|] eqn:Hr; [|by apply cs_none].
    destruct (member_terminal_spec _ _ _ _ _ _ _ _ Hr)
      as [->|(_ & m & m' & r & Hdef & Hm & Hn & _ & <- & Hrec & Hmem & Hs & _)]; [by apply cs_none|].
    by eapply cs_receipt.
  - apply claim_callback_cstep.
  - apply callback_outcome_cstep.
  - apply callback_terminal_cstep.
Qed.

End steps.
