(* ===== verification/ChordThms.v ===== *)
(** * Durable chords: correctness

    The invariant of every history of a row, the order between a row and its
    successors, and the properties of distributed/backend: readiness, stability
    of identities and payloads, fencing of leases, suppression, recovery,
    retention and the registration window. *)

From S2P Require Import Prelude Chord ChordStore ChordInv.
From coqutil Require Import Datatypes.RecordSetters.
Import DoubleBraceUpdate.

(** ** The invariant *)

Definition receipts (d : ChordDelivery) : list (option ChordMemberReceipt) := m_Receipt <$> d_Members d.

Definition succeeded (o : option ChordMemberReceipt) : Prop := ∃ r, o = Some r ∧ ¬ failed r.
Definition has_failed (o : option ChordMemberReceipt) : Prop := ∃ r, o = Some r ∧ failed r.

Definition known_member (s : ChordMemberState) : Prop :=
  match s with ChordMemberOther _ => False | _ => True end.
Definition known_callback (s : ChordCallbackState) : Prop :=
  match s with ChordOther _ => False | _ => True end.

Section chord.
Context `{ChordJSON}.

Record chord_inv (d : ChordDelivery) : Prop := {
  ci_receipts : receipts_ok d;
  ci_known : known_callback (d_CallbackState d) ∧ Forall (λ m, known_member (m_State m)) (d_Members d);
  ci_active : active (d_CallbackState d) → Forall succeeded (receipts d);
  ci_failed : Exists has_failed (receipts d) → finished (d_CallbackState d);
  ci_suppressed : d_CallbackState d = ChordSuppressed →
    Exists has_failed (receipts d) ∧ d_TerminalOutcome d = CallbackTerminalFailure;
  ci_expiry : finished (d_CallbackState d) → d_TerminalExpireAt d = expiry d;
  ci_payload : active (d_CallbackState d) → buildChordCallbackPayload d = Some (inr (d_CallbackPayload d));
  ci_frozen : d_CallbackPayload d ≠ [] →
    Forall succeeded (receipts d) ∧ buildChordCallbackPayload d = Some (inr (d_CallbackPayload d));
}.

(** ** Receipts *)

Lemma member_args_receipts L L' : m_Receipt <$> L' = m_Receipt <$> L → member_args L' = member_args L.
Proof.
  revert L'. induction L as [|m L IH]; intros [|m' L'] Heq; try discriminate; [done|].
  injection Heq as Hm Hl. cbn [member_args]. by rewrite Hm, (IH L' Hl).
Qed.

Lemma build_receipts d d' :
  same_def d d' → receipts d' = receipts d → buildChordCallbackPayload d' = buildChordCallbackPayload d.
Proof.
  intros Hd Hr. unfold buildChordCallbackPayload. rewrite (sd_template _ _ Hd).
  by rewrite (member_args_receipts _ _ Hr).
Qed.

Lemma touched_receipts L L' : Forall2 touched L L' → m_Receipt <$> L' = m_Receipt <$> L.
Proof.
  induction 1 as [|m m' L L' Ht HL IH]; [done|]. cbn. f_equal; [|done].
  by destruct Ht as [->|(_ & ? & _)].
Qed.

Lemma receipts_insert d d' i m m' r :
  d_Members d !! i = Some m → m_Receipt m = None → receipted m m' r →
  d_Members d' = <[i := m']> (d_Members d) →
  receipts d !! i = Some None ∧ receipts d' = <[i := Some r]> (receipts d).
Proof.
  intros Hm Hn (_ & Hr & _) Hmem. unfold receipts. rewrite list_lookup_fmap, Hm, Hmem, list_fmap_insert, Hr.
  by rewrite <- Hn.
Qed.

Lemma pending_not_succeeded R i : R !! i = Some None → ¬ Forall succeeded R.
Proof. intros Hi HF. rewrite Forall_lookup in HF. by destruct (HF _ _ Hi) as (r & ? & _). Qed.

Lemma scan_spec L :
  match scan_receipts L with
  | AwaitReceipts => ¬ Forall succeeded (m_Receipt <$> L)
  | FailedReceipt => Exists has_failed (m_Receipt <$> L)
  | AllReceipts => Forall succeeded (m_Receipt <$> L)
  end.
Proof.
  induction L as [|m L IH]; cbn; [constructor|]. destruct (m_Receipt m) as [r|] eqn:Hr.
  - case_bool_decide as Ho; [left; by exists r|]. destruct (scan_receipts L).
    + intros HF. by apply list.Forall_cons in HF as [_ ?].
    + by right.
    + constructor; [by exists r|done].
  - intros HF. apply list.Forall_cons in HF as [(r & ? & _) _]. done.
Qed.

Lemma exists_insert_failed R i r :
  R !! i = Some None → Exists has_failed (<[i := Some r]> R) → failed r ∨ Exists has_failed R.
Proof.
  intros Hi HE. apply list.Exists_exists in HE as (o & Ho & r' & -> & Hf).
  apply list_elem_of_lookup in Ho as [j Hj]. destruct (decide (i = j)) as [<-|Hne].
  - rewrite list_lookup_insert_eq in Hj by (by eapply lookup_lt_Some). left. by simplify_eq.
  - rewrite list_lookup_insert_ne in Hj by done. right. apply list.Exists_exists. exists (Some r').
    split; [apply list_elem_of_lookup; eauto|by exists r'].
Qed.

Lemma exists_insert_mono R i r :
  R !! i = Some None → Exists has_failed R → Exists has_failed (<[i := Some r]> R).
Proof.
  intros Hi HE. apply list.Exists_exists in HE as (o & Ho & Hf).
  apply list_elem_of_lookup in Ho as [j Hj]. apply list.Exists_exists. exists o. split; [|done].
  apply list_elem_of_lookup. exists j. rewrite list_lookup_insert_ne; [done|].
  intros <-. destruct Hf as (r' & -> & _). congruence.
Qed.

Lemma exists_insert_here R i r : R !! i = Some None → failed r → Exists has_failed (<[i := Some r]> R).
Proof.
  intros Hi Hf. apply list.Exists_exists. exists (Some r). split; [|by exists r].
  apply list_elem_of_lookup. exists i. apply list_lookup_insert_eq. by eapply lookup_lt_Some.
Qed.
(** ** Preservation *)

Definition members_ok (d : ChordDelivery) : Prop :=
  receipts_ok d ∧ Forall (λ m, known_member (m_State m)) (d_Members d).

Lemma touched_ok d d' :
  members_ok d → Forall2 touched (d_Members d) (d_Members d') → members_ok d'.
Proof.
  intros [Hr Hk] HT. split.
  - intros i m' Hm'. destruct (Forall2_lookup_r _ _ _ _ _ HT Hm') as (m & Hm & Ht).
    destruct Ht as [->|(_ & Hrec & Hst & Hp & _)]; [by apply (Hr i)|]. rewrite Hrec, <- (Hr i m Hm).
    unfold publishing in Hp. split; [intros Hs; rewrite Hs in Hp; intuition discriminate|done].
  - apply Forall_lookup. intros i m' Hm'. destruct (Forall2_lookup_r _ _ _ _ _ HT Hm') as (m & Hm & Ht).
    destruct Ht as [->|(_ & _ & _ & Hp & _)]; [by apply (proj1 (Forall_lookup _ _) Hk i)|].
    by unfold publishing in Hp; destruct Hp as [->|[->|[->| ->]]].
Qed.

Lemma receipted_ok d d' i m m' r :
  members_ok d → d_Members d !! i = Some m → receipted m m' r →
  d_Members d' = <[i := m']> (d_Members d) → members_ok d'.
Proof.
  intros [Hr Hk] Hm (_ & Hrec & Hst & _) Hmem. split.
  - intros j x Hx. rewrite Hmem in Hx. destruct (decide (i = j)) as [<-|Hne].
    + rewrite list_lookup_insert_eq in Hx by (by eapply lookup_lt_Some). simplify_eq.
      rewrite Hst, Hrec. by split; [eauto|].
    + rewrite list_lookup_insert_ne in Hx by done. by apply (Hr j).
  - rewrite Hmem. apply Forall_insert; [done|by rewrite Hst].
Qed.

(** Nothing but the members' publication changed. *)
Lemma inv_frame d d' :
  chord_inv d → same_def d d' → cb d' = cb d → receipts d' = receipts d → members_ok d' → chord_inv d'.
Proof.
  intros HI Hdef Hcb Hrec [Hok Hk]. pose proof (build_receipts _ _ Hdef Hrec) as Hb.
  unfold cb in Hcb. injection Hcb as E1 _ E3 _ _ _ _ E8 E9 E10.
  assert (He : expiry d' = expiry d) by (unfold expiry; by rewrite (sd_retention _ _ Hdef), E9).
  destruct HI as [_ [Hkc _] ? ? ? ? ? ?].
  split; rewrite ?E1, ?E3, ?E8, ?E10, ?Hrec, ?He, ?Hb; auto.
Qed.

(** A receipt arrived and the callback is suppressed, or was finished before. *)
Lemma inv_suppression d d' i r :
  chord_inv d → members_ok d' → receipts d !! i = Some None →
  receipts d' = <[i := Some r]> (receipts d) → Exists has_failed (receipts d') →
  same_def d d' → suppression d d' → chord_inv d'.
Proof.
  intros HI [Hok Hk] Hi Hrec HE Hdef Hsup. pose proof (pending_not_succeeded _ _ Hi) as Hpend.
  assert (Hp : d_CallbackPayload d = []).
  { destruct (d_CallbackPayload d) eqn:Hp; [done|]. destruct Hpend. apply (ci_frozen _ HI). by rewrite Hp. }
  destruct Hsup as [[Hfin Hcb]|(Hfin & Hst & Hout & He & Hpay & _)].
  - unfold cb in Hcb. injection Hcb as E1 _ E3 _ _ _ _ E8 E9 E10.
    assert (Hex : expiry d' = expiry d) by (unfold expiry; by rewrite (sd_retention _ _ Hdef), E9).
    split; rewrite ?E1, ?E3, ?E8, ?E10, ?Hex, ?Hp; try done.
    + split; [apply HI|done].
    + intros Ha. destruct Hpend. by apply (ci_active _ HI).
    + intros Hs. split; [done|]. by apply (ci_suppressed _ HI).
    + apply (ci_expiry _ HI).
    + intros Ha. destruct Hpend. by apply (ci_active _ HI).
  - split; rewrite ?Hst, ?Hpay, ?Hp; try done.
    + intros Ha. unfold active in Ha. intuition discriminate.
    + intros _. by right.
    + intros Ha. unfold active in Ha. intuition discriminate.
Qed.

Lemma inv_ready d d' i r :
  chord_inv d → members_ok d' → receipts d !! i = Some None →
  receipts d' = <[i := Some r]> (receipts d) → Forall succeeded (receipts d') →
  same_def d d' → becomes_ready d d' → chord_inv d'.
Proof.
  intros HI [Hok Hk] Hi Hrec HF Hdef (payload & Hb & Hpay & Hst & _).
  pose proof (pending_not_succeeded _ _ Hi) as Hpend.
  assert (Hp : d_CallbackPayload d = []).
  { destruct (d_CallbackPayload d) eqn:Hp; [done|]. destruct Hpend. apply (ci_frozen _ HI). by rewrite Hp. }
  rewrite Hp in Hpay. rewrite <- Hpay in Hb.
  split; rewrite ?Hst; try done.
  - intros HE. apply list.Exists_exists in HE as (o & Ho & r' & -> & Hf).
    rewrite list.Forall_forall in HF. destruct (HF _ Ho) as (r'' & [= <-] & Hn). done.
  - unfold finished. intuition discriminate.
Qed.

Lemma inv_receipt d d' i m m' r :
  chord_inv d → same_def d d' → d_Members d !! i = Some m → m_Receipt m = None → receipted m m' r →
  d_Members d' = <[i := m']> (d_Members d) → settled d d' (rc_Outcome r) → chord_inv d'.
Proof.
  intros HI Hdef Hm Hn Hrec Hmem Hset.
  assert (Hok : members_ok d') by (eapply receipted_ok; [split; [apply HI|apply HI]|done..]).
  destruct (receipts_insert _ _ _ _ _ _ Hm Hn Hrec Hmem) as [Hi HR].
  pose proof (scan_spec (d_Members d')) as Hscan. fold (receipts d') in Hscan. unfold settled in Hset.
  destruct (decide (rc_Outcome r = MemberTerminalFailure)) as [Hf|Hf].
  { eapply inv_suppression; try done. rewrite HR. by apply exists_insert_here. }
  destruct (scan_receipts (d_Members d')).
  - (* still waiting *)
    pose proof (pending_not_succeeded _ _ Hi) as Hpend.
    assert (Hp : d_CallbackPayload d = []).
    { destruct (d_CallbackPayload d) eqn:Hp; [done|]. destruct Hpend. apply (ci_frozen _ HI). by rewrite Hp. }
    unfold cb in Hset. injection Hset as E1 _ E3 _ _ _ _ E8 E9 E10.
    assert (Hex : expiry d' = expiry d) by (unfold expiry; by rewrite (sd_retention _ _ Hdef), E9).
    destruct Hok as [Hok Hk]. split; rewrite ?E1, ?E3, ?E8, ?E10, ?Hex, ?Hp; try done.
    + split; [apply HI|done].
    + intros Ha. destruct Hpend. by apply (ci_active _ HI).
    + rewrite HR. intros [?|HE]%exists_insert_failed; [done|by apply (ci_failed _ HI)|done].
    + intros Hs. destruct (ci_suppressed _ HI Hs). split; [|done]. rewrite HR. by apply exists_insert_mono.
    + apply (ci_expiry _ HI).
    + intros Ha. destruct Hpend. by apply (ci_active _ HI).
  - by eapply inv_suppression.
  - by eapply inv_ready.
Qed.

Lemma cstep_inv d d' : chord_inv d → cstep d d' → chord_inv d'.
Proof.
  intros HI Hstep. destruct Hstep as [->|Hdef Hcb HT|i m m' r Hdef Hm Hn Hrec Hmem Hset
    |Hdef Hmem Ha Ha' _ Hp Ho Hat Hex|Hdef Hmem Hnf Hst Hp Hex _].
  - done.
  - eapply inv_frame; [done|done|done|by apply touched_receipts|].
    eapply touched_ok; [split; [apply HI|apply HI]|done].
  - by eapply inv_receipt.
  - assert (Hr : receipts d' = receipts d) by (unfold receipts; by rewrite Hmem).
    pose proof (build_receipts _ _ Hdef Hr) as Hb.
    assert (Hnf : ¬ finished (d_CallbackState d')).
    { unfold active, finished in *. intuition congruence. }
    split; rewrite ?Hr, ?Hb, ?Hp; try done.
    + intros i m Hm. rewrite Hmem in Hm. by apply (ci_receipts _ HI i).
    + rewrite Hmem. split; [|apply HI]. unfold active in Ha'. by destruct Ha' as [->|[->|[->| ->]]].
    + intros _. by apply HI.
    + intros HE. apply (ci_failed _ HI) in HE. unfold active, finished in *. intuition congruence.
    + intros Hs. destruct Hnf. by right.
    + intros _. by apply HI.
    + apply HI.
  - assert (Hr : receipts d' = receipts d) by (unfold receipts; by rewrite Hmem).
    pose proof (build_receipts _ _ Hdef Hr) as Hb.
    assert (Hna : ¬ active (d_CallbackState d')).
    { rewrite Hst. unfold active. intuition discriminate. }
    split; rewrite ?Hr, ?Hb, ?Hp; try done.
    + intros i m Hm. rewrite Hmem in Hm. by apply (ci_receipts _ HI i).
    + rewrite Hmem, Hst. split; [done|apply HI].
    + intros _. rewrite Hst. by left.
    + rewrite Hst. discriminate.
    + apply HI.
Qed.

Lemma new_inv reg owner now : chord_inv (NewChordDelivery reg owner now).
Proof.
  assert (Hnone : ∀ o, o ∈ receipts (NewChordDelivery reg owner now) → o = None).
  { unfold receipts. cbn. intros o Ho. rewrite <- list_fmap_compose in Ho.
    by apply list_elem_of_fmap in Ho as (x & -> & _). }
  split; cbn.
  - intros i m Hm. cbn in Hm. rewrite list_lookup_fmap in Hm.
    destruct (rg_Members reg !! i); [|done]. injection Hm as <-. cbn. split; [done|by intros [? ?]].
  - split; [done|]. apply Forall_fmap, Forall_true. done.
  - intros Ha. unfold active in Ha. intuition discriminate.
  - intros HE. apply list.Exists_exists in HE as (o & Ho & r & Hr & _). apply Hnone in Ho. congruence.
  - discriminate.
  - unfold finished. intuition discriminate.
  - intros Ha. unfold active in Ha. intuition discriminate.
  - done.
Qed.

Lemma run_inv ops d : chord_inv d → chord_inv (run_ops ops d).
Proof.
  revert d. induction ops as [|op ops IH]; intros d HI; [done|]. cbn. apply IH.
  eapply cstep_inv; [done|]. apply apply_op_cstep. apply HI.
Qed.

Lemma history_inv reg d : history reg d → chord_inv d.
Proof. intros (owner & now & ops & ->). apply run_inv, new_inv. Qed.
(** ** The order between a row and its successors *)

Definition fence (d : ChordDelivery) :=
  (d_CallbackState d, d_CallbackVersion d, d_CallbackLeaseOwner d, d_CallbackLeaseExpiresAt d).

Definition grown (m m' : ChordMemberPublication) : Prop :=
  same_ids m m' ∧ (∀ r, m_Receipt m = Some r → m_Receipt m' = Some r) ∧
  (m' = m ∨ (m_Version m < m_Version m')%Z).

Record evolves (d d' : ChordDelivery) : Prop := {
  ev_def : same_def d d';
  ev_members : Forall2 grown (d_Members d) (d_Members d');
  ev_fence : fence d' = fence d ∨ (d_CallbackVersion d < d_CallbackVersion d')%Z;
  ev_payload : d_CallbackPayload d ≠ [] → d_CallbackPayload d' = d_CallbackPayload d;
}.

#[local] Instance grown_preorder : PreOrder grown.
Proof.
  split.
  - intros m. unfold grown, same_ids. by split_and!; auto.
  - intros m1 m2 m3 ((? & ? & ?) & Hr & Hv) ((? & ? & ?) & Hr' & Hv').
    unfold grown, same_ids. split_and!; try congruence; [auto|].
    destruct Hv as [->|?], Hv' as [->|?]; auto. right. lia.
Qed.

Lemma evolves_refl d : evolves d d.
Proof. by split; [apply same_def_refl| |left|]. Qed.

Lemma evolves_trans d1 d2 d3 : evolves d1 d2 → evolves d2 d3 → evolves d1 d3.
Proof.
  intros [Hd Hm Hf Hp] [Hd' Hm' Hf' Hp']. split.
  - by eapply same_def_trans.
  - by etrans.
  - unfold fence in *. destruct Hf as [Hf|?], Hf' as [Hf'|?]; [left; congruence|right..]; simplify_eq; lia.
  - intros H0. rewrite Hp'; rewrite Hp; done.
Qed.

Lemma touched_grown L L' : Forall2 touched L L' → Forall2 grown L L'.
Proof.
  intros HT. eapply list.Forall2_impl; [exact HT|]. intros m m' [->|(Hid & Hr & _ & _ & Hv)]; [done|].
  split; [done|]. split; [intros r; by rewrite Hr|by right].
Qed.

Lemma receipted_grown d i m m' r :
  d_Members d !! i = Some m → m_Receipt m = None → receipted m m' r →
  Forall2 grown (d_Members d) (<[i := m']> (d_Members d)).
Proof.
  intros Hm Hn (Hid & Hr & _ & Hv). apply Forall2_same_length_lookup_2; [by rewrite length_insert|].
  intros j x y Hx Hy. destruct (decide (i = j)) as [<-|Hne].
  - rewrite list_lookup_insert_eq in Hy by (by eapply lookup_lt_Some). simplify_eq.
    split; [done|]. split; [intros r'; by rewrite Hn|by right].
  - rewrite list_lookup_insert_ne in Hy by done. by assert (x = y) as -> by congruence.
Qed.

Lemma cb_fence d d' : cb d' = cb d → fence d' = fence d ∧ d_CallbackPayload d' = d_CallbackPayload d.
Proof. unfold cb, fence. intros [= ? ? ? ? ?]. split; congruence. Qed.

Lemma cstep_evolves d d' : chord_inv d → cstep d d' → evolves d d'.
Proof.
  intros HI Hstep. destruct Hstep as [->|Hdef Hcb HT|i m m' r Hdef Hm Hn Hrec Hmem Hset
    |Hdef Hmem Ha Ha' Hv Hp Ho Hat Hex|Hdef Hmem Hnf Hst Hp Hex Hv].
  - apply evolves_refl.
  - apply cb_fence in Hcb as [? ?]. split; [done|by apply touched_grown|by left|done].
  - destruct (receipts_insert _ _ _ _ _ _ Hm Hn Hrec Hmem) as [Hi _].
    pose proof (pending_not_succeeded _ _ Hi) as Hpend.
    assert (Hf : fence d' = fence d ∨ (d_CallbackVersion d < d_CallbackVersion d')%Z).
    { unfold settled, suppression, becomes_ready in Hset.
      destruct (decide _); [|destruct (scan_receipts _)];
        [destruct Hset as [[_ Hc]|(_ & _ & _ & _ & _ & ?)]| |destruct Hset as [[_ Hc]|(_ & _ & _ & _ & _ & ?)]
        |destruct Hset as (? & _ & _ & _ & ? & _)]; auto; left; by apply cb_fence. }
    split; [done|rewrite Hmem; by eapply receipted_grown|done|].
    intros Hp. destruct Hpend. by apply (ci_frozen _ HI).
  - split; [done|by rewrite Hmem|by right|done].
  - split; [done|by rewrite Hmem|by right|done].
Qed.

Lemma run_evolves ops d : chord_inv d → evolves d (run_ops ops d).
Proof.
  revert d. induction ops as [|op ops IH]; intros d HI; [apply evolves_refl|]. cbn.
  pose proof (apply_op_cstep op d (ci_receipts _ HI)) as Hstep.
  eapply evolves_trans; [by apply cstep_evolves|]. apply IH. by eapply cstep_inv.
Qed.

Lemma evolves_lookup d d' i m :
  evolves d d' → d_Members d !! i = Some m → ∃ m', d_Members d' !! i = Some m' ∧ grown m m'.
Proof. intros HE Hm. by apply (Forall2_lookup_l _ _ _ _ _ (ev_members _ _ HE)). Qed.

Lemma evolves_failed d d' : evolves d d' → Exists has_failed (receipts d) → Exists has_failed (receipts d').
Proof.
  intros HE Hf. apply list.Exists_exists in Hf as (o & Ho & r & -> & Hr).
  apply list_elem_of_fmap in Ho as (m & Hm & Hin). apply list_elem_of_lookup in Hin as [i Hi].
  destruct (evolves_lookup _ _ _ _ HE Hi) as (m' & Hm' & _ & Hrec & _).
  apply list.Exists_exists. exists (Some r). split; [|by exists r].
  apply list_elem_of_fmap. exists m'. split; [symmetry; by apply Hrec|apply list_elem_of_lookup; eauto].
Qed.

(** A suppressed callback stays suppressed; a delivered one stays delivered once
    every member has a receipt. *)
Definition settled_for_good (d : ChordDelivery) : Prop :=
  d_CallbackState d = ChordSuppressed ∨
  (d_CallbackState d = ChordDelivered ∧ Forall is_Some (receipts d)).

Lemma cstep_final d d' :
  chord_inv d → cstep d d' → settled_for_good d →
  settled_for_good d' ∧ d_CallbackState d' = d_CallbackState d ∧ d_TerminalOutcome d' = d_TerminalOutcome d ∧
  d_TerminalExpireAt d' = d_TerminalExpireAt d.
Proof.
  intros HI Hstep Hfin. assert (Hf : finished (d_CallbackState d)).
  { unfold finished. destruct Hfin as [?|[? _]]; auto. }
  destruct Hstep as [->|Hdef Hcb HT|i m m' r Hdef Hm Hn Hrec Hmem Hset
    |Hdef Hmem Ha _ _ _ _ _ _|Hdef Hmem Hnf _ _ _ _].
  - done.
  - pose proof (touched_receipts _ _ HT) as HR. unfold cb in Hcb. injection Hcb as E1 _ _ _ _ _ _ E8 _ E10.
    unfold settled_for_good, receipts. by rewrite HR, E1, E8, E10.
  - destruct (receipts_insert _ _ _ _ _ _ Hm Hn Hrec Hmem) as [Hi HR].
    destruct Hfin as [Hs|[_ HF]].
    2: { rewrite Forall_lookup in HF. destruct (HF _ _ Hi) as [? ?]. done. }
    assert (Hcb : cb d' = cb d).
    { pose proof (scan_spec (d_Members d')) as Hscan. unfold settled in Hset.
      assert (HE : Exists has_failed (receipts d')).
      { rewrite HR. apply exists_insert_mono; [done|]. by apply (ci_suppressed _ HI). }
      destruct (decide _); [|destruct (scan_receipts _)]; try done;
        [destruct Hset as [[_ ?]|[? _]]; tauto|destruct Hset as [[_ ?]|[? _]]; tauto|].
      apply list.Exists_exists in HE as (o & Ho & r' & -> & Hfr). rewrite list.Forall_forall in Hscan.
      destruct (Hscan _ Ho) as (r'' & [= <-] & ?). done. }
    unfold cb in Hcb. injection Hcb as E1 _ _ _ _ _ _ E8 _ E10. unfold settled_for_good.
    rewrite E1, E8, E10. split_and!; [by left|done..].
  - unfold active, finished in *. intuition congruence.
  - done.
Qed.

Lemma run_final ops d :
  chord_inv d → settled_for_good d →
  d_CallbackState (run_ops ops d) = d_CallbackState d ∧ d_TerminalOutcome (run_ops ops d) = d_TerminalOutcome d ∧
  d_TerminalExpireAt (run_ops ops d) = d_TerminalExpireAt d.
Proof.
  revert d. induction ops as [|op ops IH]; intros d HI Hf; [done|]. cbn.
  pose proof (apply_op_cstep op d (ci_receipts _ HI)) as Hstep.
  destruct (cstep_final _ _ HI Hstep Hf) as (Hf' & <- & <- & <-). apply IH; [by eapply cstep_inv|done].
Qed.
(** ** Leases *)

Definition well_numbered (reg : ChordRegistration) : Prop :=
  ∀ i m, rg_Members reg !! i = Some m → mr_Ordinal m = Z.of_nat i.

Lemma history_evolves reg d : history reg d →
  ∃ owner now, evolves (NewChordDelivery reg owner now) d.
Proof. intros (owner & now & ops & ->). exists owner, now. apply run_evolves, new_inv. Qed.

(** Members keep the identifier and the payload they were registered with. *)
Lemma history_member reg d i m : history reg d → d_Members d !! i = Some m →
  ∃ mr, rg_Members reg !! i = Some mr ∧ m_Ordinal m = mr_Ordinal mr ∧ m_TaskID m = mr_TaskID mr ∧
    m_Payload m = mr_Payload mr.
Proof.
  intros Hh Hm. destruct (history_evolves _ _ Hh) as (owner & now & HE).
  destruct (Forall2_lookup_r _ _ _ _ _ (ev_members _ _ HE) Hm) as (m0 & Hm0 & (Ho & Ht & Hp) & _).
  cbn in Hm0. rewrite list_lookup_fmap in Hm0. destruct (rg_Members reg !! i) as [mr|]; [|done].
  injection Hm0 as <-. exists mr. by rewrite Ho, Ht, Hp.
Qed.

Lemma history_run reg d ops : history reg d → history reg (run_ops ops d).
Proof.
  intros (owner & now & ops0 & ->). exists owner, now, (ops0 ++ ops). unfold run_ops. by rewrite foldl_app.
Qed.

(** A lease whose version is behind is refused. *)
Lemma stale_lease wall d l o m :
  d_Members d !! Z.to_nat (ml_Ordinal l) = Some m → (0 <= ml_Ordinal l)%Z →
  (ml_Version l < m_Version m)%Z → (RecordMemberPublishOutcome wall d l o).2 = Some ErrChordLeaseLost.
Proof.
  intros Hm Hz Hv. unfold RecordMemberPublishOutcome, ApplyChordMemberPublishOutcome, member_at.
  pose proof (lookup_lt_Some _ _ _ Hm) as Hlt.
  rewrite (proj2 (Z.ltb_ge _ _)), (proj2 (Z.leb_gt _ _)) by lia. cbn [orb]. rewrite Hm.
  unfold lease_current. rewrite (proj2 (Z.eqb_neq (m_Version m) _)) by lia. by rewrite andb_false_r.
Qed.

(** While the member is leased and the lease has not expired, a claim is refused. *)
Lemma held_lease wall d c m :
  d_Members d !! Z.to_nat (mc_Ordinal c) = Some m → (0 <= mc_Ordinal c)%Z →
  m_State m = ChordMemberLeased → (orNow wall (mc_Now c) < m_LeaseExpiresAt m)%Z →
  ClaimMemberPublication wall d c = (d, inr None).
Proof.
  intros Hm Hz Hs Ht. unfold ClaimMemberPublication, ClaimChordMember, member_at.
  pose proof (lookup_lt_Some _ _ _ Hm) as Hlt.
  rewrite (proj2 (Z.ltb_ge _ _)), (proj2 (Z.leb_gt _ _)) by lia. cbn [orb]. rewrite Hm.
  unfold claimable_member, After. rewrite Hs, (proj2 (Z.ltb_lt _ _)) by done. done.
Qed.

Lemma stale_callback_lease wall d l o :
  (cl_Version l < d_CallbackVersion d)%Z → (RecordCallbackPublishOutcome wall d l o).2 = Some ErrChordLeaseLost.
Proof.
  intros Hv. unfold RecordCallbackPublishOutcome, ApplyChordCallbackPublishOutcome, callback_lease_current.
  rewrite (proj2 (Z.eqb_neq (d_CallbackVersion d) _)) by lia. by rewrite andb_false_r.
Qed.

(** A claim is granted only by its second transaction, and always by it when the
    payload that was read decodes. *)
Lemma claim_callback_update wall read d c d' l :
  ClaimCallbackPublication wall read d c = (d', inr (Some l)) → update_callback wall d c = (d', inr (Some l)).
Proof. unfold ClaimCallbackPublication. by destruct (check_callback read). Qed.

Lemma held_callback_lease wall read d c :
  d_CallbackState d = ChordLeased → (orNow wall (cc_Now c) < d_CallbackLeaseExpiresAt d)%Z →
  ∀ l, (ClaimCallbackPublication wall read d c).2 ≠ inr (Some l).
Proof.
  intros Hs Ht l Hc. destruct (ClaimCallbackPublication wall read d c) as [d' r] eqn:Hr. cbn in Hc. subst r.
  apply claim_callback_update in Hr. revert Hr. unfold update_callback, ClaimChordCallback, claimable_callback, After.
  by rewrite Hs, (proj2 (Z.ltb_lt _ _)) by done.
Qed.

(** A claim late enough is granted. *)
Lemma late_claim wall d c m :
  d_Members d !! Z.to_nat (mc_Ordinal c) = Some m → (0 <= mc_Ordinal c)%Z → publishing (m_State m) →
  (m_LeaseExpiresAt m <= orNow wall (mc_Now c))%Z → (m_ConfirmationDeadline m <= orNow wall (mc_Now c))%Z →
  (m_NextAttemptAt m <= orNow wall (mc_Now c))%Z →
  ∃ d' l, ClaimMemberPublication wall d c = (d', inr (Some l)).
Proof.
  intros Hm Hz Hs H1 H2 H3. unfold ClaimMemberPublication, ClaimChordMember, member_at.
  pose proof (lookup_lt_Some _ _ _ Hm) as Hlt.
  rewrite (proj2 (Z.ltb_ge _ _)), (proj2 (Z.leb_gt _ _)) by lia. cbn [orb]. rewrite Hm.
  unfold claimable_member, After.
  destruct Hs as [->|[->|[->| ->]]]; rewrite ?(proj2 (Z.ltb_ge _ _)) by (exact H1 || exact H2);
    rewrite (proj2 (Z.ltb_ge _ _)) by exact H3; cbn [updateChordDelivery]; by do 2 eexists.
Qed.

(** After the setup is reconciled a member without a receipt is granted to a late
    claim. *)
Lemma late_member_claim reg d wall0 wall c m :
  history reg d → d_Members d !! Z.to_nat (mc_Ordinal c) = Some m → (0 <= mc_Ordinal c)%Z → m_Receipt m = None →
  (m_LeaseExpiresAt m <= orNow wall (mc_Now c))%Z → (m_ConfirmationDeadline m <= orNow wall (mc_Now c))%Z →
  (m_NextAttemptAt m <= orNow wall (mc_Now c))%Z →
  ∃ d' l, ClaimMemberPublication wall (markChordMembersReady wall0 d) c = (d', inr (Some l)) ∧
    d_Members (markChordMembersReady wall0 d) !! Z.to_nat (mc_Ordinal c) = Some (prepare_member m).
Proof.
  intros Hh Hm Hz Hn H1 H2 H3. pose proof (history_inv _ _ Hh) as HI.
  set (d1 := markChordMembersReady wall0 d).
  assert (Hm1 : d_Members d1 !! Z.to_nat (mc_Ordinal c) = Some (prepare_member m)).
  { change (d_Members d1) with (prepare_member <$> d_Members d). by rewrite list_lookup_fmap, Hm. }
  assert (Hst : m_State m ≠ ChordMemberTerminal).
  { intros Hs. apply (ci_receipts _ HI _ _ Hm) in Hs. rewrite Hn in Hs. by destruct Hs. }
  destruct (ci_known _ HI) as [_ Hk]. pose proof (proj1 (Forall_lookup _ _) Hk _ _ Hm) as Hkm. cbn in Hkm.
  destruct (late_claim wall d1 c (prepare_member m)) as (d' & l & Hc); try done; [| | | |by eauto].
  - unfold prepare_member, publishing. case_bool_decide as Hs; cbn; [by left|]. by destruct (m_State m); auto.
  - unfold prepare_member. by case_bool_decide.
  - unfold prepare_member. by case_bool_decide.
  - unfold prepare_member. by case_bool_decide.
Qed.

Lemma late_callback_claim wall read d c :
  active (d_CallbackState d) → (d_CallbackPayload read ≠ [] → unmarshal_signature (d_CallbackPayload read) ≠ None) →
  (d_CallbackLeaseExpiresAt d <= orNow wall (cc_Now c))%Z →
  (d_CallbackConfirmationAt d <= orNow wall (cc_Now c))%Z →
  (d_CallbackNextAttemptAt d <= orNow wall (cc_Now c))%Z →
  ∃ d' l, ClaimCallbackPublication wall read d c = (d', inr (Some l)).
Proof.
  intros Hs Hp H1 H2 H3.
  assert (Hcl : ∃ d' l, ClaimChordCallback wall d c = (d', inr (Some l))).
  { unfold ClaimChordCallback, claimable_callback, After.
    destruct Hs as [->|[->|[->| ->]]]; rewrite ?(proj2 (Z.ltb_ge _ _)) by (exact H1 || exact H2);
      rewrite (proj2 (Z.ltb_ge _ _)) by exact H3; by do 2 eexists. }
  destruct Hcl as (d' & l & Hcl). exists d', l. unfold ClaimCallbackPublication, check_callback, update_callback. rewrite Hcl.
  destruct (d_CallbackPayload read) as [|b p]; [done|].
  destruct (unmarshal_signature (b :: p)); [done|]. by destruct Hp.
Qed.

(** ** Orderly histories *)

(** A callback's outcome is recorded only once the callback has been made ready. *)
Definition orderly_op (op : chord_op) (d : ChordDelivery) : Prop :=
  match op with OpCallbackTerminal _ _ => active (d_CallbackState d) ∨ finished (d_CallbackState d) | _ => True end.

Fixpoint orderly (ops : list chord_op) (d : ChordDelivery) : Prop :=
  match ops with
  | [] => True
  | op :: ops => orderly_op op d ∧ orderly ops (apply_op op d)
  end.

Definition orderly_history (reg : ChordRegistration) (d : ChordDelivery) : Prop :=
  ∃ owner now ops, orderly ops (NewChordDelivery reg owner now) ∧ d = run_ops ops (NewChordDelivery reg owner now).

Lemma suppression_delivered d d' :
  suppression d d' → d_CallbackState d' = ChordDelivered → d_CallbackState d = ChordDelivered.
Proof. intros [[_ Hcb]|(_ & -> & _)]; [|done]. unfold cb in Hcb. by injection Hcb as -> _. Qed.

Lemma settled_delivered d d' o :
  settled d d' o → d_CallbackState d' = ChordDelivered → d_CallbackState d = ChordDelivered.
Proof.
  unfold settled. destruct (decide _); [apply suppression_delivered|].
  destruct (scan_receipts _); [|apply suppression_delivered|by intros (p & _ & _ & -> & _)].
  unfold cb. by intros [= -> _].
Qed.

(** Only the recording of a callback's outcome delivers it. *)
Lemma apply_op_delivered op d :
  match op with OpCallbackTerminal _ _ => False | _ => True end →
  d_CallbackState (apply_op op d) = ChordDelivered → d_CallbackState d = ChordDelivered.
Proof.
  destruct op as [wall|wall c|wall l o|wall i tid o rs|wall c|wall l o|]; intros Hop; [| | | | | |done]; cbn [apply_op]; clear Hop.
  - done.
  - destruct (ClaimMemberPublication wall d c) as [d' [e|[l|]]] eqn:Hc; cbn [fst];
      [by rewrite (claim_member_refused _ _ _ _ _ Hc)| |by rewrite (claim_member_refused _ _ _ _ _ Hc)].
    destruct (claim_member_granted _ _ _ _ _ Hc) as (? & ? & _ & _ & _ & _ & _ & _ & _ & _ & _ & _ & Hcb & _).
    unfold cb in Hcb. by injection Hcb as -> _.
  - destruct (RecordMemberPublishOutcome wall d l o) as [d' [e|]] eqn:Hr; cbn [fst];
      [by rewrite (member_outcome_rejected _ _ _ _ _ _ Hr)|].
    destruct (member_outcome_accepted _ _ _ _ _ Hr) as (? & ? & _ & _ & _ & _ & _ & [[Hcb _]|(? & _ & _ & Hsup)]);
      [unfold cb in Hcb; by injection Hcb as -> _|by apply suppression_delivered].
  - destruct (RecordMemberTerminal _ _ _ _ _ _) as [[d' err]|] eqn:Hr; [|done].
    destruct (member_terminal_spec _ _ _ _ _ _ _ _ Hr) as [->|(_ & m & m' & r & _ & _ & _ & _ & _ & _ & _ & Hs & _)]; [done|].
    by eapply settled_delivered.
  - destruct (update_callback wall d c) as [d' [e|[l|]]] eqn:Hc; cbn [fst];
      [by rewrite (claim_callback_refused _ _ _ _ _ Hc)| |by rewrite (claim_callback_refused _ _ _ _ _ Hc)].
    destruct (claim_callback_granted _ _ _ _ _ Hc) as (_ & _ & _ & -> & _). done.
  - destruct (RecordCallbackPublishOutcome wall d l o) as [d' [e|]] eqn:Hr; cbn [fst];
      [by rewrite (callback_outcome_rejected _ _ _ _ _ _ Hr)|].
    destruct (callback_outcome_accepted _ _ _ _ _ Hr) as (_ & _ & _ & Ha & _).
    intros Hd. rewrite Hd in Ha. unfold active in Ha. by intuition discriminate.
Qed.

(** A delivered callback has all its members successful. *)
Definition delivered_ok (d : ChordDelivery) : Prop :=
  d_CallbackState d = ChordDelivered → Forall succeeded (receipts d).

Lemma cstep_delivered_ok d d' :
  chord_inv d → cstep d d' → delivered_ok d →
  (d_CallbackState d' = ChordDelivered → d_CallbackState d = ChordDelivered ∨ active (d_CallbackState d)) → delivered_ok d'.
Proof.
  intros HI Hs Hok Hwhy Hd'.
  assert (Forall succeeded (receipts d)) as HF by (destruct (Hwhy Hd') as [Hd|Ha]; [by apply Hok|by apply HI]).
  assert (receipts d' = receipts d) as ->; [|done]. pose proof (ev_members _ _ (cstep_evolves _ _ HI Hs)) as HG.
  clear -HF HG. unfold receipts in *. induction HG as [|m m' L L' (_ & Hr & _) _ IH]; [done|].
  rewrite !fmap_cons in *. apply list.Forall_cons in HF as [(r & Hm & _) HF]. by rewrite Hm, (Hr r Hm), (IH HF).
Qed.

Lemma orderly_delivered_ok ops d : chord_inv d → delivered_ok d → orderly ops d → delivered_ok (run_ops ops d).
Proof.
  revert d. induction ops as [|op ops IH]; intros d HI Hok Ho; [done|]. destruct Ho as [Hop Ho].
  pose proof (apply_op_cstep op d (ci_receipts _ HI)) as Hs. cbn. apply IH; [by eapply cstep_inv| |done].
  eapply cstep_delivered_ok; [done|exact Hs|done|]. intros Hd'. destruct op; try (left; by apply (apply_op_delivered _ d) in Hd').
  destruct Hop as [?|[?|Hsup]]; [by right|by left|]. exfalso. revert Hd'. cbn [apply_op].
  unfold RecordCallbackTerminal, ApplyChordCallbackTerminal.
  rewrite bool_decide_eq_false_2, bool_decide_eq_true_2 by congruence. cbn. by rewrite Hsup.
Qed.

(** In orderly histories a failure and the suppression of the callback imply each other. *)
Lemma orderly_failed reg d :
  orderly_history reg d → (Exists has_failed (receipts d) ↔ d_CallbackState d = ChordSuppressed).
Proof.
  intros (owner & now & ops & Ho & ->). set (d0 := NewChordDelivery reg owner now) in *.
  assert (history reg (run_ops ops d0)) as HI%history_inv by (by exists owner, now, ops).
  assert (delivered_ok (run_ops ops d0)) as Hd by (apply orderly_delivered_ok; [apply new_inv|done|done]).
  split; [|apply HI]. intros HE. destruct (ci_failed _ HI HE) as [Hdel|]; [|done]. specialize (Hd Hdel).
  apply list.Exists_exists in HE as (o & Ho' & r & -> & Hf). apply list_elem_of_lookup in Ho' as [i Hi].
  destruct (list.Forall_lookup_1 _ _ _ _ Hd Hi) as (r' & [= <-] & Hnf). done.
Qed.
End chord.
