(* ===== verification/ChordProps.v ===== *)
(** * Durable chords: the properties

    The behaviours that specs/104/PRODUCT.md promises of the backend state
    machine, stated of every history of a row of the store, for every JSON
    library and every hash, with the inputs on which two of them fail. *)

From S2P Require Import Prelude Chord ChordStore ChordInv ChordThms.
From Stdlib Require Import Strings.Byte.
From coqutil Require Import Datatypes.RecordSetters.
Import DoubleBraceUpdate.

(** ** A sample chord

    A codec that is just enough to run the transitions: a signature is encoded
    by one byte per argument, results by one byte each. *)

Definition sample_result : option Result := Some {| r_Type := "int"; r_Value := JNumber "1" |}.

#[local] Instance sample_json : ChordJSON := {|
  rest := unit;
  unmarshal_signature b := Some (mkSignature "callback" [] tt);
  marshal_signature s := Some (x00 :: replicate (length (s_Args s)) x01);
  marshal_receipt r :=
    (if bool_decide (rc_Outcome r = MemberTerminalFailure) then x00 else x01) ::
    match rc_Results r with None => [x02] | Some rs => replicate (length rs) x01 end;
  marshal_results rs := Some (match rs with None => [x02] | Some rs => replicate (length rs) x01 end);
  unmarshal_results b := Some (if bool_decide (b = [x02]) then None else Some (replicate (length b) sample_result));
  marshal_definition reg := Some (String.list_byte_of_string (rg_GroupID reg));
  sha256 b := b;
|}.

Definition sample_reg : ChordRegistration :=
  {| rg_DeliveryKey := "key"; rg_DefinitionHash := "hash"; rg_GroupID := "group"; rg_GroupName := "name";
     rg_Retention := 60; rg_Callback := [x00];
     rg_Members := [{| mr_Ordinal := 0; mr_TaskID := "t0"; mr_Payload := [x01] |};
                    {| mr_Ordinal := 1; mr_TaskID := "t1"; mr_Payload := [x02] |}] |}.

Definition at_time (t : time) : time := (t * Second)%Z.
Definition sample_claim (i : Z) (owner : string) (t : time) : ChordMemberClaim :=
  {| mc_DeliveryKey := "key"; mc_Ordinal := i; mc_Owner := owner; mc_Now := at_time t;
     mc_LeaseDuration := at_time 10 |}.
Definition sample_callback_claim (owner : string) (t : time) : ChordCallbackClaim :=
  {| cc_DeliveryKey := "key"; cc_Owner := owner; cc_Now := at_time t; cc_LeaseDuration := at_time 10 |}.

(** Registered, set up, and with both members successful. *)
Definition sample_new : ChordDelivery := NewChordDelivery sample_reg "owner" (at_time 1).
Definition sample_ready : ChordDelivery := run_ops [OpReady (at_time 2)] sample_new.
Definition sample_done : ChordDelivery :=
  run_ops [OpMemberTerminal (at_time 3) 1 "t1" MemberTerminalSuccess (Some [sample_result]);
           OpMemberTerminal (at_time 4) 0 "t0" MemberTerminalSuccess (Some [sample_result])] sample_ready.
Definition sample_failed : ChordDelivery :=
  run_ops [OpMemberTerminal (at_time 3) 1 "t1" MemberTerminalFailure None] sample_ready.

Lemma sample_new_history : history sample_reg sample_new.
Proof. by exists "owner", (at_time 1), []. Qed.
Lemma sample_ready_history : history sample_reg sample_ready.
Proof. apply history_run, sample_new_history. Qed.
Lemma sample_done_history : history sample_reg sample_done.
Proof. apply history_run, sample_ready_history. Qed.
Lemma sample_failed_history : history sample_reg sample_failed.
Proof. apply history_run, sample_ready_history. Qed.
Lemma sample_numbered : well_numbered sample_reg.
Proof. intros [|[|i]] m Hm; by inversion Hm. Qed.

(** ** Properties *)

(** C8: in every history a member is terminal exactly when it has a receipt; the
    callback is ready or being published only if every member has a receipt that
    is not a failure, and then its payload is the template with the results
    appended in member order; after a failure receipt the callback is suppressed,
    or was delivered before, and it is suppressed only because of one.  If the
    outcome of the callback is recorded only once the callback has been made ready,
    a failure receipt and the suppression imply each other. *)
Theorem chord_readiness `{ChordJSON} reg d :
  history reg d →
  (∀ i m, d_Members d !! i = Some m → m_State m = ChordMemberTerminal ↔ is_Some (m_Receipt m)) ∧
  (active (d_CallbackState d) →
     Forall succeeded (receipts d) ∧ buildChordCallbackPayload d = Some (inr (d_CallbackPayload d))) ∧
  (Exists has_failed (receipts d) → finished (d_CallbackState d)) ∧
  (d_CallbackState d = ChordSuppressed → Exists has_failed (receipts d)) ∧
  (orderly_history reg d → Exists has_failed (receipts d) ↔ d_CallbackState d = ChordSuppressed).
Proof.
  intros HI%history_inv. split_and!; [apply HI|intros Ha; split; by apply HI|apply HI|apply HI|apply orderly_failed].
Qed.

Lemma chord_readiness_witness :
  active (d_CallbackState sample_done) ∧ d_CallbackPayload sample_done = [x00; x01; x01] ∧
  Forall succeeded (receipts sample_done) ∧ Exists has_failed (receipts sample_failed).
Proof.
  destruct (chord_readiness sample_reg sample_done sample_done_history) as (_ & Ha & _).
  assert (Hact : active (d_CallbackState sample_done)) by (left; vm_compute; reflexivity).
  split; [exact Hact|]. split; [vm_compute; reflexivity|]. split; [exact (proj1 (Ha Hact))|].
  destruct (chord_readiness sample_reg sample_failed sample_failed_history) as (_ & _ & _ & _ & Hf).
  apply Hf; [|vm_compute; reflexivity].
  exists "owner", (at_time 1), [OpReady (at_time 2); OpMemberTerminal (at_time 3) 1 "t1" MemberTerminalFailure None].
  split; [repeat split|reflexivity].
Defined.

(** Without that condition a delivered callback keeps its state although a member
    fails afterwards. *)
Example chord_failure_after_delivery :
  let d := run_ops [OpCallbackTerminal (at_time 3) CallbackTerminalSuccess;
                    OpMemberTerminal (at_time 4) 0 "t0" MemberTerminalFailure None] sample_ready in
  d_CallbackState d = ChordDelivered ∧ Exists has_failed (receipts d).
Proof. split; [vm_compute; reflexivity|]. left. by eexists. Qed.

(** C28: the identity of a chord never changes: its key, definition hash, owner and
    callback template, and the task identifier and payload of every member are
    those of the registration; a receipt, once recorded, and the callback payload,
    once frozen, are never replaced. *)
Theorem chord_stability `{ChordJSON} reg d ops :
  history reg d →
  let d' := run_ops ops d in
  same_def d d' ∧ d_CallbackTemplate d' = rg_Callback reg ∧
  (∀ i m', d_Members d' !! i = Some m' →
     ∃ mr, rg_Members reg !! i = Some mr ∧ m_TaskID m' = mr_TaskID mr ∧ m_Payload m' = mr_Payload mr) ∧
  (∀ i m r, d_Members d !! i = Some m → m_Receipt m = Some r →
     ∃ m', d_Members d' !! i = Some m' ∧ m_Receipt m' = Some r) ∧
  (d_CallbackPayload d ≠ [] → d_CallbackPayload d' = d_CallbackPayload d).
Proof.
  intros Hh d'. pose proof (run_evolves ops d (history_inv _ _ Hh)) as HE. fold d' in HE.
  pose proof (history_run _ _ ops Hh) as Hh'. fold d' in Hh'. split_and!.
  - apply HE.
  - destruct (history_evolves _ _ Hh') as (owner & now & HE'). apply (sd_template _ _ (ev_def _ _ HE')).
  - intros i m' Hm'. destruct (history_member _ _ _ _ Hh' Hm') as (mr & ? & _ & ? & ?). eauto.
  - intros i m r Hm Hr. destruct (evolves_lookup _ _ _ _ HE Hm) as (m' & Hm' & _ & Hrec & _). eauto.
  - apply HE.
Qed.

Lemma chord_stability_witness :
  d_CallbackPayload (run_ops [OpMemberTerminal (at_time 9) 0 "t0" MemberTerminalFailure None] sample_done) =
  d_CallbackPayload sample_done.
Proof.
  apply (chord_stability sample_reg sample_done _ sample_done_history). vm_compute. discriminate.
Defined.

(** C17: a publication lease of a member is fenced, for a registration whose
    members are numbered in order, as sending numbers them.  From the moment it is granted,
    whatever happens next, its outcome is accepted only if the member has not been
    touched since, at most once, and until it expires nobody else can claim an
    untouched member. *)
Theorem chord_member_fencing `{ChordJSON} reg d wall c d1 l ops :
  well_numbered reg → history reg d →
  ClaimMemberPublication wall d c = (d1, inr (Some l)) →
  let d2 := run_ops ops d1 in
  let i := Z.to_nat (mc_Ordinal c) in
  (∀ wall2 o d3, RecordMemberPublishOutcome wall2 d2 l o = (d3, None) →
     d_Members d2 !! i = d_Members d1 !! i ∧
     ∀ ops' wall4 o', (RecordMemberPublishOutcome wall4 (run_ops ops' d3) l o').2 = Some ErrChordLeaseLost) ∧
  (∀ wall2 c2, d_Members d2 !! i = d_Members d1 !! i → mc_Ordinal c2 = mc_Ordinal c →
     (orNow wall2 (mc_Now c2) < ml_ExpiresAt l)%Z → ClaimMemberPublication wall2 d2 c2 = (d2, inr None)).
Proof.
  intros Hnum Hh Hc d2 i. pose proof (history_inv _ _ Hh) as HI.
  assert (HI1 : chord_inv d1).
  { pose proof (claim_member_cstep wall d c) as Hs. rewrite Hc in Hs. by eapply cstep_inv. }
  destruct (claim_member_granted _ _ _ _ _ Hc)
    as (m & m1 & Hm & Hz & _ & Hids & _ & Hst & _ & _ & _ & _ & _ & _ & Hmem & Hord & _ & _ & _ & Hver & Hexp).
  destruct (history_member _ _ _ _ Hh Hm) as (mr & Hmr & Ho & _). rewrite (Hnum _ _ Hmr) in Ho.
  assert (Hli : Z.to_nat (ml_Ordinal l) = i ∧ (0 <= ml_Ordinal l)%Z) by (unfold i; lia).
  destruct Hli as [Hli Hl0].
  assert (Hm1 : d_Members d1 !! i = Some m1).
  { rewrite Hmem. apply list_lookup_insert_eq. by eapply lookup_lt_Some. }
  destruct (evolves_lookup _ _ _ _ (run_evolves ops d1 HI1) Hm1) as (m2 & Hm2 & _ & _ & Hg). fold d2 in Hm2.
  split.
  - intros wall2 o d3 Hr. destruct (member_outcome_accepted _ _ _ _ _ Hr)
      as (m2' & m3 & Hm2' & Hcur & Hv & Hmem3 & _). rewrite Hli in Hm2', Hmem3.
    assert (m2' = m2) as -> by congruence.
    unfold lease_current in Hcur. rewrite !andb_true_iff in Hcur. destruct Hcur as [_ Hcv]. apply Z.eqb_eq in Hcv.
    assert (Hv2 : m2 = m1) by (destruct Hg as [?|?]; [done|lia]). subst m2. split; [by rewrite Hm2, Hm1|].
    intros ops' wall4 o'. assert (HI3 : chord_inv d3).
    { pose proof (run_inv ops d1 HI1) as HI2. fold d2 in HI2.
      pose proof (member_outcome_cstep wall2 d2 l o (ci_receipts _ HI2)) as Hs. rewrite Hr in Hs.
      by eapply cstep_inv. }
    assert (Hm3 : d_Members d3 !! i = Some m3).
    { rewrite Hmem3. apply list_lookup_insert_eq. by eapply lookup_lt_Some. }
    destruct (evolves_lookup _ _ _ _ (run_evolves ops' d3 HI3) Hm3) as (m4 & Hm4 & _ & _ & Hg4).
    apply (stale_lease _ _ _ _ m4); [by rewrite Hli|done|]. destruct Hg4 as [->|?]; lia.
  - intros wall2 c2 Heq Hc2 Ht. apply (held_lease _ _ _ m1); rewrite ?Hc2; [fold i; by rewrite Heq|lia|done|by rewrite <- Hexp].
Qed.

Lemma chord_member_fencing_witness :
  let d1 := (ClaimMemberPublication 0 sample_ready (sample_claim 0 "a" 10)).1 in
  ClaimMemberPublication 0 d1 (sample_claim 0 "b" 15) = (d1, inr None).
Proof.
  destruct (ClaimMemberPublication 0 sample_ready (sample_claim 0 "a" 10)) as [d1 r] eqn:Hc.
  assert (Hr : ∃ l, r = inr (Some l) ∧ ml_ExpiresAt l = at_time 20).
  { vm_compute in Hc. injection Hc as _ <-. eexists. split; reflexivity. }
  destruct Hr as (l & -> & He).
  destruct (chord_member_fencing sample_reg sample_ready 0 (sample_claim 0 "a" 10) d1 l []
    sample_numbered sample_ready_history Hc) as [_ Hex].
  apply Hex; [reflexivity|reflexivity|]. rewrite He. reflexivity.
Defined.

(** The callback's publication lease is fenced in the same way by its version. *)
Theorem chord_callback_fencing `{ChordJSON} reg read d wall c d1 l ops :
  history reg d →
  ClaimCallbackPublication wall read d c = (d1, inr (Some l)) →
  let d2 := run_ops ops d1 in
  (∀ wall2 o d3, RecordCallbackPublishOutcome wall2 d2 l o = (d3, None) →
     fence d2 = fence d1 ∧
     ∀ ops' wall4 o', (RecordCallbackPublishOutcome wall4 (run_ops ops' d3) l o').2 = Some ErrChordLeaseLost) ∧
  (∀ wall2 read2 c2 l2, fence d2 = fence d1 → (orNow wall2 (cc_Now c2) < cl_ExpiresAt l)%Z →
     (ClaimCallbackPublication wall2 read2 d2 c2).2 ≠ inr (Some l2)).
Proof.
  intros Hh Hc%claim_callback_update d2. pose proof (history_inv _ _ Hh) as HI.
  assert (HI1 : chord_inv d1).
  { pose proof (claim_callback_cstep wall d c) as Hs. rewrite Hc in Hs. by eapply cstep_inv. }
  pose proof (run_inv ops d1 HI1) as HI2. fold d2 in HI2.
  pose proof (ev_fence _ _ (run_evolves ops d1 HI1)) as Hf. fold d2 in Hf.
  destruct (claim_callback_granted _ _ _ _ _ Hc)
    as (_ & _ & _ & Hst & _ & _ & _ & _ & _ & _ & _ & _ & _ & _ & Hver & Hexp).
  split.
  - intros wall2 o d3 Hr. destruct (callback_outcome_accepted _ _ _ _ _ Hr) as (Hcur & _ & _ & _ & Hv & _).
    apply callback_current_state in Hcur as (_ & _ & Hcv).
    split; [destruct Hf as [?|?]; [done|lia]|]. intros ops' wall4 o'. apply stale_callback_lease.
    assert (HI3 : chord_inv d3).
    { pose proof (callback_outcome_cstep wall2 d2 l o) as Hs. rewrite Hr in Hs. by eapply cstep_inv. }
    destruct (ev_fence _ _ (run_evolves ops' d3 HI3)) as [Hf3|?]; [|lia]. unfold fence in Hf3. simplify_eq. lia.
  - intros wall2 read2 c2 l2 Heq Ht. unfold fence in Heq. injection Heq as E1 _ _ E4.
    apply held_callback_lease; [congruence|]. by rewrite E4, <- Hexp.
Qed.

Lemma chord_callback_fencing_witness :
  let d1 := (ClaimCallbackPublication 0 sample_done sample_done (sample_callback_claim "a" 10)).1 in
  d_CallbackState d1 = ChordLeased ∧
  ∀ l2, (ClaimCallbackPublication 0 d1 d1 (sample_callback_claim "b" 15)).2 ≠ inr (Some l2).
Proof.
  destruct (ClaimCallbackPublication 0 sample_done sample_done (sample_callback_claim "a" 10)) as [d1 r] eqn:Hc.
  assert (Hr : ∃ l, r = inr (Some l) ∧ cl_ExpiresAt l = at_time 20).
  { vm_compute in Hc. injection Hc as _ <-. eexists. split; reflexivity. }
  destruct Hr as (l & -> & He).
  split; [vm_compute in Hc; injection Hc as <- _; reflexivity|]. intros l2.
  destruct (chord_callback_fencing sample_reg sample_done sample_done 0 (sample_callback_claim "a" 10) d1 l []
    sample_done_history Hc) as [_ Hex].
  apply Hex; [reflexivity|]. rewrite He. reflexivity.
Defined.

(** C29: after a failure receipt the success callback is never published again: no
    claim of it is ever granted, in any later state. *)
Theorem chord_failure_suppresses `{ChordJSON} reg d ops wall read c l :
  history reg d → Exists has_failed (receipts d) →
  (ClaimCallbackPublication wall read (run_ops ops d) c).2 ≠ inr (Some l).
Proof.
  intros Hh Hf Hc. pose proof (history_inv _ _ Hh) as HI.
  pose proof (evolves_failed _ _ (run_evolves ops d HI) Hf) as Hf'.
  pose proof (run_inv ops d HI) as HI'. apply (ci_failed _ HI') in Hf'.
  destruct (ClaimCallbackPublication wall read (run_ops ops d) c) as [d' r] eqn:Hr. cbn in Hc. subst r.
  apply claim_callback_update, claim_callback_granted in Hr as (Ha & _). unfold active, finished in *. intuition congruence.
Qed.

Lemma chord_failure_suppresses_witness :
  Exists has_failed (receipts sample_failed) ∧
  ∀ l, (ClaimCallbackPublication 0 sample_failed sample_failed (sample_callback_claim "a" 100)).2 ≠ inr (Some l).
Proof.
  assert (Hf : Exists has_failed (receipts sample_failed)).
  { apply list.Exists_exists.
    exists (Some {| rc_TaskID := "t1"; rc_Outcome := MemberTerminalFailure; rc_Results := None |}).
    split; [|eexists; split; [reflexivity|reflexivity]].
    change (receipts sample_failed) with
      [None; Some {| rc_TaskID := "t1"; rc_Outcome := MemberTerminalFailure; rc_Results := None |}].
    right. left. }
  split; [exact Hf|]. intros l.
  exact (chord_failure_suppresses sample_reg sample_failed [] 0 _ _ l sample_failed_history Hf).
Defined.

(** A suppressed delivery stays suppressed, and a delivery whose members all
    have receipts stays delivered with the same outcome and expiry, whatever
    follows. *)
Theorem chord_terminal_stability `{ChordJSON} reg d ops :
  history reg d →
  d_CallbackState d = ChordSuppressed ∨
    (d_CallbackState d = ChordDelivered ∧ Forall is_Some (receipts d)) →
  d_CallbackState (run_ops ops d) = d_CallbackState d ∧
  d_TerminalOutcome (run_ops ops d) = d_TerminalOutcome d ∧
  d_TerminalExpireAt (run_ops ops d) = d_TerminalExpireAt d.
Proof. intros HI%history_inv Hf. by apply run_final. Qed.

Lemma chord_terminal_stability_witness :
  d_CallbackState (run_ops [OpCallbackTerminal (at_time 9) CallbackTerminalSuccess] sample_failed) = ChordSuppressed.
Proof.
  destruct (chord_terminal_stability sample_reg sample_failed
    [OpCallbackTerminal (at_time 9) CallbackTerminalSuccess] sample_failed_history) as (Hs & _).
  - left. vm_compute. reflexivity.
  - rewrite Hs. vm_compute. reflexivity.
Defined.

(** Work is recoverable.  After the setup has been reconciled, a member without
    a receipt is granted to any claim made after its lease, its confirmation
    deadline and its next attempt, with the identifier and payload it was
    registered with. *)
Theorem chord_member_recovery `{ChordJSON} reg d wall0 wall c m :
  history reg d → d_Members d !! Z.to_nat (mc_Ordinal c) = Some m → (0 <= mc_Ordinal c)%Z →
  m_Receipt m = None →
  (m_LeaseExpiresAt m <= orNow wall (mc_Now c))%Z → (m_ConfirmationDeadline m <= orNow wall (mc_Now c))%Z →
  (m_NextAttemptAt m <= orNow wall (mc_Now c))%Z →
  ∃ d' l mr, ClaimMemberPublication wall (markChordMembersReady wall0 d) c = (d', inr (Some l)) ∧
    rg_Members reg !! Z.to_nat (mc_Ordinal c) = Some mr ∧
    ml_TaskID l = mr_TaskID mr ∧ ml_Payload l = mr_Payload mr.
Proof.
  intros Hh Hm Hz Hn H1 H2 H3.
  destruct (late_member_claim reg d wall0 wall c m Hh Hm Hz Hn H1 H2 H3) as (d' & l & Hc & Hm1).
  pose proof (history_run _ _ [OpReady wall0] Hh) as Hh1.
  destruct (history_member _ _ _ _ Hh1 Hm1) as (mr & Hmr & _ & Ht & Hp). exists d', l, mr.
  destruct (claim_member_granted _ _ _ _ _ Hc)
    as (m' & _ & Hm' & _ & _ & _ & _ & _ & _ & _ & _ & _ & _ & _ & _ & _ & Hlt & Hlp & _).
  rewrite Hm1 in Hm'. injection Hm' as <-. by rewrite Hlt, Hlp, Ht, Hp.
Qed.

Lemma chord_member_recovery_witness :
  ∃ d' l, ClaimMemberPublication 0 (markChordMembersReady 0 sample_new) (sample_claim 1 "a" 5) =
    (d', inr (Some l)) ∧ ml_TaskID l = "t1".
Proof.
  destruct (chord_member_recovery sample_reg sample_new 0 0 (sample_claim 1 "a" 5)
    (new_member {| mr_Ordinal := 1; mr_TaskID := "t1"; mr_Payload := [x02] |}) sample_new_history)
    as (d' & l & mr & Hc & Hmr & Ht & _);
    [reflexivity|discriminate|reflexivity|discriminate|discriminate|discriminate|].
  exists d', l. split; [exact Hc|]. rewrite Ht. injection Hmr as <-. reflexivity.
Defined.

(** A callback that is ready or being published is granted to any claim made
    late enough, with its frozen payload, provided the JSON library decodes what
    it encoded. *)
Theorem chord_callback_recovery `{ChordJSON} reg d wall c :
  (∀ s b, marshal_signature s = Some b → unmarshal_signature b ≠ None) →
  history reg d → active (d_CallbackState d) →
  (d_CallbackLeaseExpiresAt d <= orNow wall (cc_Now c))%Z →
  (d_CallbackConfirmationAt d <= orNow wall (cc_Now c))%Z →
  (d_CallbackNextAttemptAt d <= orNow wall (cc_Now c))%Z →
  ∃ d' l, ClaimCallbackPublication wall d d c = (d', inr (Some l)) ∧
    buildChordCallbackPayload d = Some (inr (cl_Payload l)).
Proof.
  intros Hrt HI%history_inv Ha H1 H2 H3. pose proof (ci_payload _ HI Ha) as Hb.
  destruct (late_callback_claim wall d d c) as (d' & l & Hc); try done.
  - intros _. unfold buildChordCallbackPayload in Hb.
    destruct (unmarshal_signature (d_CallbackTemplate d)) as [s|]; [|discriminate].
    destruct (member_args (d_Members d)) as [args|]; cbn [mbind option_bind] in Hb; [|discriminate].
    destruct (marshal_signature _) eqn:Hms; [|discriminate]. injection Hb as ->. by eapply Hrt.
  - exists d', l. split; [done|]. apply claim_callback_update in Hc.
    destruct (claim_callback_granted _ _ _ _ _ Hc) as (_ & _ & _ & _ & _ & _ & _ & _ & _ & _ & _ & _ & -> & _). done.
Qed.

Lemma chord_callback_recovery_witness :
  ∃ d' l, ClaimCallbackPublication 0 sample_done sample_done (sample_callback_claim "a" 5) = (d', inr (Some l)) ∧
    buildChordCallbackPayload sample_done = Some (inr (cl_Payload l)).
Proof.
  apply (chord_callback_recovery sample_reg sample_done 0 (sample_callback_claim "a" 5));
    [intros s b _; discriminate|exact sample_done_history|left; vm_compute; reflexivity|discriminate..].
Defined.

(** A finished delivery expires its retention after its terminal time: 3600
    seconds when the registration says zero, never when it is negative, and the
    given number of seconds up to the largest [time.Duration]. *)
Theorem chord_retention `{ChordJSON} reg d :
  history reg d → finished (d_CallbackState d) → (rg_Retention reg * Second <= MaxInt64)%Z →
  d_TerminalExpireAt d =
    if decide (rg_Retention reg < 0)%Z then None
    else Some (d_TerminalAt d + (if decide (rg_Retention reg = 0) then 3600 else rg_Retention reg) * Second)%Z.
Proof.
  intros Hh Hf Hmax. rewrite (ci_expiry _ (history_inv _ _ Hh) Hf). unfold expiry.
  destruct (history_evolves _ _ Hh) as (owner & now & HE). rewrite (sd_retention _ _ (ev_def _ _ HE)).
  cbn [d_Retention NewChordDelivery]. unfold NormalizeChordRetention, DefaultChordRetentionSeconds, Second in *.
  destruct (Z.eqb_spec (rg_Retention reg) 0) as [->|Hne]; [done|].
  rewrite (proj2 (Z.eqb_neq _ _) Hne), (decide_False (P := rg_Retention reg = 0%Z)) by done.
  case_decide as Hneg; [by rewrite (proj2 (Z.ltb_lt _ _))|]. rewrite (proj2 (Z.ltb_ge _ _)) by lia.
  rewrite wraps64_id; [done|]. unfold is_int, MinInt64, MaxInt64 in *. lia.
Qed.

Lemma chord_retention_witness :
  d_TerminalExpireAt sample_failed = Some (d_TerminalAt sample_failed + 60 * Second)%Z.
Proof.
  rewrite (chord_retention sample_reg sample_failed sample_failed_history);
    [reflexivity|right; vm_compute; reflexivity|vm_compute; discriminate].
Defined.

(** Beyond that bound the duration overflows: with a retention of 10^10 seconds
    a delivery that finishes is already expired at the moment it finishes. *)
Theorem chord_retention_overflow :
  let reg := sample_reg {{ rg_Retention := 10000000000%Z }} in
  let d := run_ops [OpReady (at_time 2); OpMemberTerminal (at_time 3) 1 "t1" MemberTerminalFailure None]
             (NewChordDelivery reg "owner" (at_time 1)) in
  d_CallbackState d = ChordSuppressed ∧
  ∃ t, d_TerminalExpireAt d = Some t ∧ (t < d_TerminalAt d)%Z.
Proof. split; [vm_compute; reflexivity|]. exists (-8446744070709551616)%Z. split; vm_compute; reflexivity. Qed.

(** A terminal outcome recorded before the members have finished does not last:
    the receipt of the last member makes a delivered callback ready again, and it
    can be claimed and published once more. *)
Theorem chord_delivered_reopens :
  let d := run_ops [OpCallbackTerminal (at_time 3) CallbackTerminalSuccess] sample_ready in
  let d' := run_ops [OpMemberTerminal (at_time 4) 0 "t0" MemberTerminalSuccess None;
                     OpMemberTerminal (at_time 5) 1 "t1" MemberTerminalSuccess None] d in
  d_CallbackState d = ChordDelivered ∧ d_TerminalOutcome d' = CallbackTerminalSuccess ∧
  d_CallbackState d' = ChordReady ∧
  ∃ d'' l, ClaimCallbackPublication 0 d' d' (sample_callback_claim "a" 6) = (d'', inr (Some l)).
Proof. split_and!; [vm_compute; reflexivity..|]. do 2 eexists. vm_compute. reflexivity. Qed.

(** Registration is idempotent: registering the same chord again attaches to the
    row that the first registration created, as a caller that did not create it,
    and leaves the table unchanged. *)
Theorem chord_registration `{ChordJSON} reg reg' owner owner2 wall wall2 rs rs' ref :
  find_group rs (rg_GroupID reg) = None → FinalizeChordRegistration reg = inr reg' →
  RegisterChord owner wall rs reg = (rs', inr ref) → owner ≠ owner2 →
  ref = {| rf_DeliveryKey := rg_DeliveryKey reg'; rf_Owner := owner; rf_Version := 1; rf_Created := true |} ∧
  find_group rs' (rg_GroupID reg) = Some (NewChordDelivery reg' owner wall) ∧
  RegisterChord owner2 wall2 rs' reg = (rs', inr (ref {{ rf_Created := false }})).
Proof.
  intros Hfind Hfin Hreg Hne.
  assert (Hg : rg_GroupID reg' = rg_GroupID reg).
  { unfold FinalizeChordRegistration in Hfin. destruct (String.eqb _ _); [destruct (unmarshal_signature _)|];
      try discriminate; destruct (marshal_definition _); try discriminate; by injection Hfin as <-. }
  unfold RegisterChord in Hreg |- *. rewrite Hfin, Hg, Hfind in Hreg. rewrite Hfin, Hg.
  destruct (find_key rs _); [discriminate|]. injection Hreg as <- <-.
  assert (Hfg : find_group (rs ++ [NewChordDelivery reg' owner wall]) (rg_GroupID reg) =
                Some (NewChordDelivery reg' owner wall)).
  { unfold find_group in *. rewrite list.filter_app. destruct (filter _ rs); [|done].
    cbn [app]. rewrite filter_cons_True; [done|by cbn]. }
  rewrite Hfg. split_and!; [done|done|].
  unfold ChordRegistrationMatches. cbn [d_GroupID d_DefinitionHash NewChordDelivery].
  rewrite Hg, !String.eqb_refl. cbn [andb d_RegistrationOwner NewChordDelivery ref_of].
  by rewrite (proj2 (String.eqb_neq _ _) Hne).
Qed.

Lemma chord_registration_witness :
  ∃ rs', RegisterChord "o2" 0 rs' sample_reg =
    (rs', inr {| rf_DeliveryKey := "key"; rf_Owner := "o1"; rf_Version := 1; rf_Created := false |}).
Proof.
  destruct (RegisterChord "o1" 0 [] sample_reg) as [rs' r] eqn:Hr.
  assert (Href : r = inr {| rf_DeliveryKey := "key"; rf_Owner := "o1"; rf_Version := 1; rf_Created := true |}).
  { vm_compute in Hr. injection Hr as _ <-. reflexivity. }
  subst r. exists rs'.
  destruct (FinalizeChordRegistration sample_reg) as [e|reg'] eqn:Hf; [vm_compute in Hf; discriminate|].
  assert (Hne : "o1" ≠ "o2") by discriminate.
  exact (proj2 (proj2 (chord_registration sample_reg reg' "o1" "o2" 0 0 [] rs' _ eq_refl Hf Hr Hne))).
Defined.

(** The grant of a member lease closes the abort window for good: in every later
    state of the row no reference to it, not even its creator's, can abort the
    registration, and the table stays as it was. *)
Theorem chord_abort_window `{ChordJSON} reg d wall c l d1 ops rs ref :
  history reg d → ClaimMemberPublication wall d c = (d1, inr (Some l)) →
  find_key rs (rf_DeliveryKey ref) = Some (run_ops ops d1) →
  ∃ e, AbortRegistration rs ref = (rs, Some e).
Proof.
  intros HI%history_inv Hc Hkey.
  assert (HI1 : chord_inv d1).
  { pose proof (claim_member_cstep wall d c) as Hs. rewrite Hc in Hs. by eapply cstep_inv. }
  destruct (claim_member_granted _ _ _ _ _ Hc) as (_ & _ & _ & _ & _ & _ & _ & _ & _ & _ & _ & _ & _ & Hst & _).
  unfold AbortRegistration. destruct (rf_Created ref); cbn [negb]; [|by eexists]. rewrite Hkey.
  destruct (_ || _); [by eexists|].
  rewrite (sd_started _ _ (ev_def _ _ (run_evolves ops d1 HI1)) Hst). by eexists.
Qed.

Lemma chord_abort_window_witness :
  let d1 := (ClaimMemberPublication 0 sample_ready (sample_claim 0 "a" 10)).1 in
  ∃ e, AbortRegistration [d1] {| rf_DeliveryKey := "key"; rf_Owner := "owner"; rf_Version := 1; rf_Created := true |} =
    ([d1], Some e).
Proof.
  destruct (ClaimMemberPublication 0 sample_ready (sample_claim 0 "a" 10)) as [d1 r] eqn:Hc.
  assert (Hr : ∃ l, r = inr (Some l)).
  { vm_compute in Hc. injection Hc as _ <-. eexists. reflexivity. }
  destruct Hr as (l & ->). cbn [fst].
  apply (chord_abort_window sample_reg sample_ready 0 (sample_claim 0 "a" 10) l d1 [] [d1] _ sample_ready_history Hc).
  vm_compute in Hc. injection Hc as <- _. vm_compute. reflexivity.
Defined.
