(* ===== verification/ChordDispatch.v ===== *)
(** * Durable chords: sending, dispatching and working

    Model of src/distributed/durable_chord.go and of the durable part of
    src/distributed/worker.go, on top of the store of [ChordStore.v] and a broker.
    A server registers a group with its callback, dispatchers of any number of
    servers publish members and callbacks under leases, and workers record what
    became of the tasks they were handed.  The steps of all of them interleave;
    between any two of them a dispatcher may crash.  The tables of the groups and of
    the statuses, which ReconcileChord (of backend_db/durable_chord.go) fills before
    members are published, are shared with everything else that uses the backend.

    The broker is known by its answers: it accepted a signature, it rejected it for
    sure, or it failed in a way that leaves open whether it has it.  A worker may be
    handed a signature that the broker has at any time and any number of times. *)

From stdpp Require Import gmap.
From S2P Require Import Prelude GoFloat GoNumber Chord ChordStore.
From Stdlib Require Import Strings.Byte.
From coqutil Require Import Datatypes.RecordSetters.
Import DoubleBraceUpdate.

(** ** Metadata *)

(** A value of [map[string]interface{}]; of [json.Number] what [Int64] gives. *)
Inductive mvalue :=
  | MBool (b : bool) | MString (s : string) | MInt (n : Z) | MInt64 (n : Z)
  | MFloat (x : float64) | MNumber (n : option Z) | MOther.

(** What json.Unmarshal gives back for it. *)
Definition json_image (v : mvalue) : mvalue :=
  match v with MInt n | MInt64 n | MNumber (Some n) => MFloat (f64_of_Z n) | _ => v end.

Definition DurableChordDeliveryKeyMeta : string := "gkit.chord_delivery_key".
Definition DurableChordMemberMeta : string := "gkit.chord_member".
Definition DurableChordMemberOrdinal : string := "gkit.chord_member_ordinal".

(** The fields of a signature beyond [ID] and [Args] that the chord reads or writes:
    of [CallbackChord] whether there is one, of [Meta] nil or its map. *)
Record sig_fields := mkFields {
  f_GroupID : string;
  f_GroupTaskCount : nat;
  f_Router : string;
  f_CallbackChord : bool;
  f_Meta : option (gmap string mvalue);
}.

(** These fields of the remainder of a signature, and the remainder with others. *)
Class ChordMeta `{ChordJSON} := {
  fields : rest → sig_fields;
  with_fields : rest → sig_fields → rest;
}.

Section fields.
Context `{HJ : ChordJSON} `{HM : !ChordMeta}.

(** [signature.Meta.Get], where the code has checked that [Meta] is not nil. *)
Definition meta_get (r : rest) (key : string) : option mvalue := m ← f_Meta (fields r); m !! key.

(** [Meta.Set], on a new map when [Meta] is nil. *)
Definition meta_set (r : rest) (key : string) (value : mvalue) : rest :=
  let f := fields r in
  with_fields r (mkFields (f_GroupID f) (f_GroupTaskCount f) (f_Router f) (f_CallbackChord f)
    (Some (<[key := value]> (default ∅ (f_Meta f))))).

Definition set_group (r : rest) (groupID : string) (count : nat) : rest :=
  let f := fields r in with_fields r (mkFields groupID count (f_Router f) false (f_Meta f)).

(** [consumeQueue] is that of the server's configuration. *)
Definition bindDefaultRouter (consumeQueue : string) (r : rest) : rest :=
  let f := fields r in
  if String.eqb (f_Router f) ""
  then with_fields r (mkFields (f_GroupID f) (f_GroupTaskCount f) consumeQueue (f_CallbackChord f) (f_Meta f))
  else r.
End fields.

Definition metadataBool (v : mvalue) : bool :=
  match v with MBool b => b | MString s => String.eqb s "true" | _ => false end.

Definition metadataInt (v : mvalue) : option Z :=
  match v with
  | MInt n | MInt64 n => Some n
  | MFloat x => if feq x (f64_of_Z (f64_to_int x)) then Some (f64_to_int x) else None
  | MNumber n => n
  | _ => None
  end.

Section dispatch.
Context `{HJ : ChordJSON} `{HM : !ChordMeta}.

Abbreviation signature := (Signature rest).

(** ** Sending *)

Record Group := mkGroup { g_ID : string; g_Name : string; g_Tasks : list (option signature) }.
Record GroupCallback := mkGroupCallback { gc_Group : option Group; gc_Callback : option signature }.

Fixpoint validate_members (seen : list string) (tasks : list (option signature)) : option chord_error :=
  match tasks with
  | [] => None
  | None :: _ => Some ErrChordInvalidInput
  | Some member :: tasks =>
      if String.eqb (s_ID member) "" then Some ErrChordInvalidInput
      else if bool_decide (s_ID member ∈ seen) then Some ErrChordInvalidInput
      else validate_members (s_ID member :: seen) tasks
  end.

Definition validateGroupCallback (groupCallback : option GroupCallback) : option chord_error :=
  match groupCallback with
  | None => Some ErrChordInvalidInput
  | Some gc =>
      match gc_Group gc, gc_Callback gc with
      | None, _ | Some _, None => Some ErrChordInvalidInput
      | Some group, Some callback =>
          if String.eqb (g_ID group) "" then Some ErrChordInvalidInput
          else if String.eqb (s_ID callback) "" then Some ErrChordInvalidInput
          else match g_Tasks group with
               | [] => Some ErrChordInvalidInput
               | tasks => validate_members [] tasks
               end
      end
  end.

Definition with_rest (s : signature) (f : rest → rest) : signature := mkSignature (s_ID s) (s_Args s) (f (s_Rest s)).

(** The loop over the members, after the pre-publish hook: the group fields, the
    metadata, the checks of the identifier, the router, and the payload. *)
Fixpoint member_registrations (hook : signature → signature) (queue key groupID : string) (count : nat) (ordinal : nat)
    (memberIDs : list string) (tasks : list signature) : chord_error + list ChordMemberRegistration :=
  match tasks with
  | [] => inr []
  | member :: tasks =>
      let member := hook member in
      let member := with_rest member (λ r,
        meta_set (meta_set (meta_set (set_group r groupID count)
          DurableChordDeliveryKeyMeta (MString key))
          DurableChordMemberMeta (MBool true))
          DurableChordMemberOrdinal (MInt (Z.of_nat ordinal))) in
      if String.eqb (s_ID member) "" then inl ErrChordInvalidInput
      else if bool_decide (s_ID member ∈ memberIDs) then inl ErrChordInvalidInput
      else
        let member := with_rest member (bindDefaultRouter queue) in
        match marshal_signature member with
        | None => inl ErrMarshalCallback
        | Some payload =>
            match member_registrations hook queue key groupID count (S ordinal) (s_ID member :: memberIDs) tasks with
            | inl e => inl e
            | inr l => inr (mkMemberReg (Z.of_nat ordinal) (s_ID member) payload :: l)
            end
        end
  end.

(** sendDurableGroupCallback up to the registration; [queue] and [resultExpire] are
    those of the configuration. *)
Definition durable_registration (hook : signature → signature) (queue : string) (resultExpire : Z) (groupID name : string)
    (tasks : list signature) (callback : signature) : chord_error + ChordRegistration :=
  let callback := hook callback in
  if String.eqb (s_ID callback) "" then inl ErrChordInvalidInput
  else
    let callback := with_rest callback (bindDefaultRouter queue) in
    let deliveryKey := ChordDeliveryKey groupID (s_ID callback) in
    let callback := with_rest callback (λ r, meta_set r DurableChordDeliveryKeyMeta (MString deliveryKey)) in
    match marshal_signature callback with
    | None => inl ErrMarshalCallback
    | Some callbackPayload =>
        match member_registrations hook queue deliveryKey groupID (length tasks) 0 [] tasks with
        | inl e => inl e
        | inr members =>
            FinalizeChordRegistration (mkReg deliveryKey "" groupID name resultExpire callbackPayload members)
        end
    end.

(** ** Setting up *)

(** The task identifiers of each group, and the group of each status. *)
Record tables := mkTables { t_groups : gmap string (list string); t_statuses : gmap string string }.

(** The loop over the members in the transaction of ReconcileChord. *)
Fixpoint create_statuses (groupID : string) (members : list ChordMemberPublication) (statuses : gmap string string)
    : chord_error + gmap string string :=
  match members with
  | [] => inr statuses
  | member :: members =>
      match unmarshal_signature (m_Payload member) with
      | None => inl ErrDecodeMember
      | Some s =>
          match statuses !! s_ID s with
          | None => create_statuses groupID members (<[s_ID s := f_GroupID (fields (s_Rest s))]> statuses)
          | Some g =>
              if negb (String.eqb g groupID) then inl ErrChordRegistrationConflict
              else create_statuses groupID members statuses
          end
      end
  end.

(** The transaction, which is rolled back on an error. *)
Definition setup_chord (delivery : ChordDelivery) (t : tables) : chord_error + tables :=
  let ids := m_TaskID <$> d_Members delivery in
  let statuses (groups : gmap string (list string)) :=
    match create_statuses (d_GroupID delivery) (d_Members delivery) (t_statuses t) with
    | inl e => inl e
    | inr st => inr (mkTables groups st)
    end in
  match t_groups t !! d_GroupID delivery with
  | None => statuses (<[d_GroupID delivery := ids]> (t_groups t))
  | Some taskIDs => if negb (bool_decide (taskIDs = ids)) then inl ErrChordRegistrationConflict else statuses (t_groups t)
  end.

Definition needs_setup (delivery : ChordDelivery) : bool :=
  existsb (λ m, bool_decide (m_State m = ChordMemberSetup)) (d_Members delivery).

(** ** Publishing *)

Definition chordPublicationLease : Z := (30 * Second)%Z.
Definition chordConfirmationTimeout : Z := (30 * Second)%Z.

(** What controller.Publish answers.  [RejectedClean]: the error says that the
    broker does not have the signature; of another error, [delivered] is what
    nobody knows. *)
Inductive answer := Accepted | RejectedClean (e : string) | Uncertain (e : string) (delivered : bool).

Definition classifyChordPublishOutcome (err : answer) (now : time) : ChordPublishOutcome :=
  match err with
  | Accepted => mkPublishOutcome ChordPublishOutcomeSucceeded now (now + chordConfirmationTimeout)%Z 0%Z ""
  | RejectedClean e => mkPublishOutcome ChordPublishOutcomeRejected now 0%Z (now + Second)%Z e
  | Uncertain e _ => mkPublishOutcome ChordPublishOutcomeUnknown now (now + chordConfirmationTimeout)%Z 0%Z e
  end.

Definition delivered (err : answer) : bool :=
  match err with Accepted => true | RejectedClean _ => false | Uncertain _ d => d end.

(** What the broker has. *)
Inductive message := MemberMsg (ordinal : Z) (s : signature) | CallbackMsg (s : signature).

(** A dispatcher within ReconcileChord, before it marks the members ready, or within
    publishChordMemberWithOwner or publishChordCallbackWithOwner: about to publish,
    or about to record. *)
Inductive job :=
  | JIdle
  | JReady
  | JMember (lease : ChordMemberLease) (s : signature)
  | JMemberRecord (lease : ChordMemberLease) (o : ChordPublishOutcome)
  | JCallback (lease : ChordCallbackLease) (s : signature)
  | JCallbackRecord (lease : ChordCallbackLease) (o : ChordPublishOutcome).

(** From the claim to the publication: a payload that does not decode is recorded
    as rejected. *)
Definition member_claimed (lease : ChordMemberLease) (now : time) : job :=
  match unmarshal_signature (ml_Payload lease) with
  | None => JMemberRecord lease (mkPublishOutcome ChordPublishOutcomeRejected now 0%Z 0%Z "decode")
  | Some s => JMember lease s
  end.

Definition callback_claimed (lease : ChordCallbackLease) (now : time) : job :=
  match unmarshal_signature (cl_Payload lease) with
  | None => JCallbackRecord lease (mkPublishOutcome ChordPublishOutcomeRejected now 0%Z (now + Second)%Z "decode")
  | Some s => JCallback lease s
  end.

Definition member_claim (row : ChordDelivery) (ordinal : Z) (owner : string) (now : time) : ChordMemberClaim :=
  mkMemberClaim (d_DeliveryKey row) ordinal owner now chordPublicationLease.
Definition callback_claim (row : ChordDelivery) (owner : string) (now : time) : ChordCallbackClaim :=
  mkCallbackClaim (d_DeliveryKey row) owner now chordPublicationLease.

(** ** Working *)

(** recordDurableTerminal after a task succeeded with [results] or failed.  [None]
    is a panic of the store.  The store has the one row [row], so it knows only its
    delivery key. *)
Inductive worker_error := InvalidMetadata | StoreError (e : chord_error).

Definition store_error (err : option chord_error) : option worker_error :=
  match err with Some e => Some (StoreError e) | None => None end.

Definition recordDurableTerminal (wall : time) (row : ChordDelivery) (s : signature) (success : bool)
    (rs : results) : option (ChordDelivery * option worker_error) :=
  match meta_get (s_Rest s) DurableChordDeliveryKeyMeta with
  | None => Some (row, None)
  | Some (MString deliveryKey) =>
      if String.eqb deliveryKey "" then Some (row, Some InvalidMetadata)
      else
        let isMember := match meta_get (s_Rest s) DurableChordMemberMeta with Some v => metadataBool v | None => false end in
        let known := String.eqb deliveryKey (d_DeliveryKey row) in
        if isMember then
          match meta_get (s_Rest s) DurableChordMemberOrdinal ≫= metadataInt with
          | None => Some (row, Some InvalidMetadata)
          | Some ordinal =>
              if negb known then Some (row, Some (StoreError ErrChordNotFound))
              else
                '(row, err) ← RecordMemberTerminal wall row ordinal (s_ID s)
                                (if success then MemberTerminalSuccess else MemberTerminalFailure)
                                (if success then rs else None);
                Some (row, store_error err)
          end
        else if negb known then Some (row, Some (StoreError ErrChordNotFound))
        else
          let '(row, err) := RecordCallbackTerminal wall row
                               (if success then CallbackTerminalSuccess else CallbackTerminalFailure) in
          Some (row, store_error err)
  | Some _ => Some (row, Some InvalidMetadata)
  end.

(** ** The steps of all *)

Record world := mkWorld { w_row : ChordDelivery; w_log : list message; w_jobs : list job; w_tables : tables }.

(** ReconcileChord uses of the row that it reads at first nothing that changes but
    whether a member is still in setup.  A claim of the callback reads the row before
    its transaction: any state [read] of it.  [ATables] is anybody else. *)
Inductive action :=
  | AReconcile (j : nat)
  | AReady (j : nat) (wall : time)
  | AClaimMember (j : nat) (wall now : time) (owner : string) (ordinal : Z)
  | AClaimCallback (j : nat) (wall now : time) (owner : string) (read : ChordDelivery)
  | APublish (j : nat) (now : time) (a : answer)
  | ARecord (j : nat) (wall : time)
  | ACrash (j : nat)
  | AWork (k : nat) (wall : time) (success : bool) (rs : results)
  | ATables (t : tables).

Definition set_job (w : world) (j : nat) (x : job) : world :=
  mkWorld (w_row w) (w_log w) (<[j := x]> (w_jobs w)) (w_tables w).
Definition set_row (w : world) (row : ChordDelivery) : world := mkWorld row (w_log w) (w_jobs w) (w_tables w).
Definition set_tables (w : world) (t : tables) : world := mkWorld (w_row w) (w_log w) (w_jobs w) t.
Definition send (w : world) (sent : bool) (x : message) : world :=
  if sent then mkWorld (w_row w) (w_log w ++ [x]) (w_jobs w) (w_tables w) else w.

Definition act (w : world) (a : action) : option world :=
  match a with
  | AReconcile j =>
      match w_jobs w !! j with
      | Some JIdle =>
          if negb (needs_setup (w_row w)) then Some w
          else match setup_chord (w_row w) (w_tables w) with
               | inl _ => Some w
               | inr t => Some (set_job (set_tables w t) j JReady)
               end
      | _ => None
      end
  | AReady j wall =>
      match w_jobs w !! j with
      | Some JReady => Some (set_job (set_row w (markChordMembersReady wall (w_row w))) j JIdle)
      | _ => None
      end
  | AClaimMember j wall now owner ordinal =>
      match w_jobs w !! j with
      | Some JIdle =>
          let '(row, r) := ClaimMemberPublication wall (w_row w) (member_claim (w_row w) ordinal owner now) in
          let w := set_row w row in
          Some (match r with inr (Some lease) => set_job w j (member_claimed lease wall) | _ => w end)
      | _ => None
      end
  | AClaimCallback j wall now owner read =>
      match w_jobs w !! j with
      | Some JIdle =>
          let '(row, r) := ClaimCallbackPublication wall read (w_row w) (callback_claim (w_row w) owner now) in
          let w := set_row w row in
          Some (match r with inr (Some lease) => set_job w j (callback_claimed lease wall) | _ => w end)
      | _ => None
      end
  | APublish j now a =>
      match w_jobs w !! j with
      | Some (JMember lease s) =>
          Some (set_job (send w (delivered a) (MemberMsg (ml_Ordinal lease) s)) j
                  (JMemberRecord lease (classifyChordPublishOutcome a now)))
      | Some (JCallback lease s) =>
          Some (set_job (send w (delivered a) (CallbackMsg s)) j
                  (JCallbackRecord lease (classifyChordPublishOutcome a now)))
      | _ => None
      end
  | ARecord j wall =>
      match w_jobs w !! j with
      | Some (JMemberRecord lease o) =>
          Some (set_job (set_row w (RecordMemberPublishOutcome wall (w_row w) lease o).1) j JIdle)
      | Some (JCallbackRecord lease o) =>
          Some (set_job (set_row w (RecordCallbackPublishOutcome wall (w_row w) lease o).1) j JIdle)
      | _ => None
      end
  | ACrash j => if bool_decide (j < length (w_jobs w)) then Some (set_job w j JIdle) else None
  | AWork k wall success rs =>
      match w_log w !! k with
      | Some (MemberMsg _ s) | Some (CallbackMsg s) =>
          '(row, _) ← recordDurableTerminal wall (w_row w) s success rs;
          Some (set_row w row)
      | None => None
      end
  | ATables t => Some (set_tables w t)
  end.

Fixpoint acts (w : world) (l : list action) : option world :=
  match l with [] => Some w | a :: l => w ← act w a; acts w l end.

(** A chord just registered, and [n] dispatchers. *)
Definition registered (reg : ChordRegistration) (owner : string) (now : time) (n : nat) (t : tables) : world :=
  mkWorld (NewChordDelivery reg owner now) [] (replicate n JIdle) t.

End dispatch.
