(* ===== verification/ChordDispatchThms.v ===== *)
(** * Durable chords: dispatchers and workers together

    The invariant of every interleaving of dispatchers, crashes, workers and the
    other users of the shared tables. *)

From S2P Require Import Prelude GoFloat GoNumber Chord ChordStore ChordInv ChordThms ChordDispatch.
From Stdlib Require Import Strings.Byte.

Section dispatch.
Context `{HJ : ChordJSON} `{HM : !ChordMeta}.

Abbreviation signature := (Signature rest).

(** ** The row *)

Definition msg_sig (x : message) : signature := match x with MemberMsg _ s | CallbackMsg s => s end.

(** Every successful receipt of [d'] was in [d], or is for the task of a message and
    has good results. *)
Definition made (log : list message) (good : results → Prop) (d d' : ChordDelivery) : Prop :=
  ∀ i m' r, d_Members d' !! i = Some m' → m_Receipt m' = Some r → ¬ failed r →
    (∃ m, d_Members d !! i = Some m ∧ m_Receipt m = Some r ∧ m_TaskID m = m_TaskID m') ∨
    (∃ x, x ∈ log ∧ s_ID (msg_sig x) = m_TaskID m' ∧ good (rc_Results r)).

Lemma made_same log good d d' : d_Members d' = d_Members d → made log good d d'.
Proof. intros Hm i m' r Hi Hr _. left. rewrite Hm in Hi. eauto. Qed.

Lemma made_touched log good d d' : Forall2 touched (d_Members d) (d_Members d') → made log good d d'.
Proof.
  intros HT i m' r Hi Hr _. destruct (Forall2_lookup_r _ _ _ _ _ HT Hi) as (m & Hm & [->|((_ & Ht & _) & Hrec & _)]); left.
  - eauto.
  - exists m. by rewrite <- Hrec, Ht.
Qed.

Lemma made_insert log good d d' i m m' r :
  d_Members d !! i = Some m → d_Members d' = <[i := m']> (d_Members d) → receipted m m' r →
  (failed r ∨ ∃ x, x ∈ log ∧ s_ID (msg_sig x) = m_TaskID m ∧ good (rc_Results r)) → made log good d d'.
Proof.
  intros Hm Hmem ((_ & Ht & _) & Hr & _) Hwhy j y q Hj Hq Hnf. rewrite Hmem in Hj. destruct (decide (i = j)) as [<-|Hne].
  - rewrite list_lookup_insert_eq in Hj by (by eapply lookup_lt_Some). simplify_eq. destruct Hwhy as [?|(x & ? & ? & ?)]; [done|].
    right. exists x. by rewrite Ht.
  - rewrite list_lookup_insert_ne in Hj by done. left. eauto.
Qed.

Lemma prepared_touched L : Forall2 touched L (prepare_member <$> L).
Proof.
  induction L as [|m L IH]; simpl; constructor; [|done]. unfold prepare_member, touched. case_bool_decide as Hs; [|by left].
  right. split_and!; try done; [by rewrite Hs|by left|]. apply Z.lt_succ_diag_r.
Qed.

Lemma callback_terminal_members wall d o : d_Members (RecordCallbackTerminal wall d o).1 = d_Members d.
Proof.
  unfold RecordCallbackTerminal, ApplyChordCallbackTerminal, updateChordDelivery.
  destruct (bool_decide (d_CallbackState d = ChordDelivered)).
  { destruct (bool_decide _); cbn [fst]; [by rewrite Z.eqb_refl|done]. }
  destruct (bool_decide (d_CallbackState d = ChordSuppressed)); [done|].
  match goal with |- d_Members (if ?c then _ else _).1 = _ => destruct c end; [|done].
  cbn [fst]. unfold setChordTerminalTime. by destruct (_ <? 0)%Z.
Qed.

(** ** One step *)

(** A step of anybody is a transition of the row, and at most one message more. *)
Lemma record_effect log wall row s success rs0 row' err :
  (∃ x, x ∈ log ∧ s_ID (msg_sig x) = s_ID s) →
  recordDurableTerminal wall row s success rs0 = Some (row', err) →
  made log (λ rs, cloneChordResults (if success then rs0 else None) = inr rs) row row' ∧ ∃ ops, row' = run_ops ops row.
Proof.
  intros (x & Hx & Hs). unfold recordDurableTerminal. intros H.
  assert (∀ good, made log good row row ∧ ∃ ops, row = run_ops ops row) as Hstay by (split; [by apply made_same|by exists []]).
  destruct (meta_get (s_Rest s) DurableChordDeliveryKeyMeta) as [[]|]; simplify_eq; try done.
  destruct (String.eqb _ ""); simplify_eq; [done|].
  destruct (match meta_get (s_Rest s) DurableChordMemberMeta with Some v => metadataBool v | None => false end).
  - destruct (_ ≫= _) as [ordinal|]; simplify_eq; [|done].
    destruct (negb _); simplify_eq; [done|].
    destruct (RecordMemberTerminal _ _ _ _ _ _) as [[d' e]|] eqn:Hr; [|done]. simpl in H. simplify_eq.
    split.
    + destruct (member_terminal_spec _ _ _ _ _ _ _ _ Hr) as [->|(_ & m & m' & r & _ & Hm & _ & Ht & _ & Hrec & Hmem & _ & Hcl)];
        [by apply made_same|]. eapply made_insert; [exact Hm|exact Hmem|exact Hrec|]. right. exists x. by rewrite Hs, Ht.
    + eexists [OpMemberTerminal wall ordinal (s_ID s) _ _]. cbn. by rewrite Hr.
  - destruct (negb _); simplify_eq; [done|].
    destruct (RecordCallbackTerminal _ _ _) as [d' e] eqn:Hr. simplify_eq. split.
    + apply made_same. pose proof (callback_terminal_members wall row (if success then CallbackTerminalSuccess else CallbackTerminalFailure)) as Hm.
      by rewrite Hr in Hm.
    + eexists [OpCallbackTerminal wall _]. cbn. by rewrite Hr.
Qed.

(** The results a worker's step leaves in a receipt. *)
Definition worked (a : action) (rs : results) : Prop :=
  match a with
  | AWork _ _ success rs0 => cloneChordResults (if success then rs0 else None) = inr rs
  | _ => False
  end.

Lemma act_effect w a w' :
  act w a = Some w' → made (w_log w) (worked a) (w_row w) (w_row w') ∧ ∃ ops, w_row w' = run_ops ops (w_row w).
Proof.
  intros H. destruct a as [j|j wall|j wall now owner ordinal|j wall now owner read|j now a|j wall|j|k wall success rs|t]; simpl in H.
  - assert (w_row w' = w_row w) as ->; [|split; [by apply made_same|by exists []]].
    repeat case_match; by simplify_eq/=.
  - destruct (w_jobs w !! j) as [[]|]; simplify_eq/=. split; [|by exists [OpReady wall]]. apply made_touched.
    apply prepared_touched.
  - destruct (w_jobs w !! j) as [[]|]; try done.
    destruct (ClaimMemberPublication wall (w_row w) _) as [row r] eqn:Hc. injection H as <-.
    assert (w_row (match r with inr (Some lease) => set_job (set_row w row) j (member_claimed lease wall)
      | _ => set_row w row end) = row) as -> by (by destruct r as [|[]]).
    split; [|exists [OpClaimMember wall (member_claim (w_row w) ordinal owner now)]; cbn; by rewrite Hc].
    destruct r as [e|[l|]]; [apply made_same; f_equal; by eapply claim_member_refused| |apply made_same; f_equal; by eapply claim_member_refused].
    destruct (claim_member_granted _ _ _ _ _ Hc) as (m & m' & Hm & _ & _ & (_ & Ht & _) & Hr & _ & _ & _ & _ & _ & _ & _ & Hmem & _).
    intros i x q Hi Hq _. left. rewrite Hmem in Hi. destruct (decide (Z.to_nat (mc_Ordinal (member_claim (w_row w) ordinal owner now)) = i)) as [<-|Hne].
    + rewrite list_lookup_insert_eq in Hi by (by eapply lookup_lt_Some). simplify_eq. exists m. by rewrite <- Hr, Ht.
    + rewrite list_lookup_insert_ne in Hi by done. eauto.
  - destruct (w_jobs w !! j) as [[]|]; try done.
    destruct (ClaimCallbackPublication wall read (w_row w) _) as [row r] eqn:Hc. injection H as <-.
    assert (w_row (match r with inr (Some lease) => set_job (set_row w row) j (callback_claimed lease wall)
      | _ => set_row w row end) = row) as -> by (by destruct r as [|[]]).
    unfold ClaimCallbackPublication in Hc. destruct (check_callback read).
    { simplify_eq. split; [by apply made_same|by exists []]. }
    split; [|exists [OpClaimCallback wall (callback_claim (w_row w) owner now)]; cbn; by rewrite Hc]. apply made_same.
    destruct r as [e|[l|]]; [f_equal; by eapply claim_callback_refused| |f_equal; by eapply claim_callback_refused].
    by destruct (claim_callback_granted _ _ _ _ _ Hc) as (_ & _ & Hmem & _).
  - assert (∀ b x, w_row (send w b x) = w_row w) as Hsend by (by intros []).
    destruct (w_jobs w !! j) as [[]|]; simplify_eq; simpl; rewrite Hsend; (split; [by apply made_same|by exists []]).
  - destruct (w_jobs w !! j) as [[| | |lease o| |lease o]|]; simplify_eq; simpl.
    + split; [|by exists [OpMemberOutcome wall lease o]].
      destruct (RecordMemberPublishOutcome wall (w_row w) lease o) as [d' [e|]] eqn:Hr; simpl.
      { apply made_same. f_equal. by eapply member_outcome_rejected. }
      destruct (member_outcome_accepted _ _ _ _ _ Hr) as (m & m' & Hm & _ & _ & Hmem & _ & [[_ Ht]|(r & Hf & Hrec & _)]).
      * apply made_touched. rewrite Hmem. by eapply touch_one.
      * eapply made_insert; [exact Hm|exact Hmem|exact Hrec|by left].
    + split; [|by exists [OpCallbackOutcome wall lease o]]. apply made_same.
      destruct (RecordCallbackPublishOutcome wall (w_row w) lease o) as [d' [e|]] eqn:Hr; simpl.
      { f_equal. by eapply callback_outcome_rejected. }
      by destruct (callback_outcome_accepted _ _ _ _ _ Hr) as (_ & _ & Hmem & _).
  - case_bool_decide; simplify_eq. split; [by apply made_same|by exists []].
  - destruct (w_log w !! k) as [x|] eqn:Hk; [|done].
    assert (∃ row err, recordDurableTerminal wall (w_row w) (msg_sig x) success rs = Some (row, err) ∧ w_row w' = row) as (row & err & Hr & ->).
    { destruct x; simpl in *; destruct (recordDurableTerminal _ _ _ _ _) as [[row err]|]; simplify_eq/=; eauto. }
    eapply record_effect; [|exact Hr]. exists x. split; [by eapply list_elem_of_lookup_2|done].
  - simplify_eq. split; [by apply made_same|by exists []].
Qed.

(** ** All interleavings *)

(** Where a signature comes from: the payload a member was registered with, or the
    template with the results of all members, which have all succeeded. *)
Definition member_src (reg : ChordRegistration) (i : Z) (s : signature) : Prop :=
  ∃ mr, rg_Members reg !! Z.to_nat i = Some mr ∧ mr_Ordinal mr = i ∧ unmarshal_signature (mr_Payload mr) = Some s.
Definition callback_src (d : ChordDelivery) (s : signature) : Prop :=
  Forall succeeded (receipts d) ∧ ∃ p, buildChordCallbackPayload d = Some (inr p) ∧ unmarshal_signature p = Some s.

Definition msg_ok (reg : ChordRegistration) (d : ChordDelivery) (x : message) : Prop :=
  match x with MemberMsg i s => member_src reg i s | CallbackMsg s => callback_src d s end.
Definition job_ok (reg : ChordRegistration) (d : ChordDelivery) (x : job) : Prop :=
  match x with JMember l s => member_src reg (ml_Ordinal l) s | JCallback _ s => callback_src d s | _ => True end.

Record safe (reg : ChordRegistration) (w : world) : Prop := {
  sf_history : history reg (w_row w);
  sf_log : Forall (msg_ok reg (w_row w)) (w_log w);
  sf_jobs : Forall (job_ok reg (w_row w)) (w_jobs w);
  sf_made i m r : d_Members (w_row w) !! i = Some m → m_Receipt m = Some r → ¬ failed r →
    ∃ x, x ∈ w_log w ∧ s_ID (msg_sig x) = m_TaskID m
}.

(** Receipts that are all there are there for good. *)
Lemma evolves_receipts d d' : evolves d d' → Forall succeeded (receipts d) → receipts d' = receipts d.
Proof.
  intros [_ HG _ _]. unfold receipts. induction HG as [|m m' L L' (_ & Hr & _) _ IH]; [done|].
  rewrite !fmap_cons. intros [(r & Hm & _) HF]%list.Forall_cons. by rewrite Hm, (Hr r Hm), (IH HF).
Qed.

Lemma callback_src_run reg d ops s : history reg d → callback_src d s → callback_src (run_ops ops d) s.
Proof.
  intros Hh [HF (p & Hb & Hs)]. pose proof (run_evolves ops d (history_inv _ _ Hh)) as HE.
  pose proof (evolves_receipts _ _ HE HF) as Hr. split; [by rewrite Hr|]. exists p. split; [|done].
  rewrite <- Hb. apply build_receipts; [apply HE|done].
Qed.

Lemma msg_ok_run reg d ops x : history reg d → msg_ok reg d x → msg_ok reg (run_ops ops d) x.
Proof. destruct x; simpl; eauto using callback_src_run. Qed.
Lemma job_ok_run reg d ops x : history reg d → job_ok reg d x → job_ok reg (run_ops ops d) x.
Proof. destruct x; simpl; eauto using callback_src_run. Qed.

(** A granted claim gives a job with a signature of the right origin. *)
Lemma member_job_ok reg d d' wall ordinal owner now l d0 :
  history reg d → well_numbered reg →
  ClaimMemberPublication wall d (member_claim d ordinal owner now) = (d', inr (Some l)) →
  job_ok reg d0 (member_claimed l wall).
Proof.
  intros Hh Hn Hc. unfold member_claimed. destruct (unmarshal_signature (ml_Payload l)) as [s|] eqn:Hs; [|done]. simpl.
  destruct (claim_member_granted _ _ _ _ _ Hc)
    as (m & m' & Hm & _ & _ & _ & _ & _ & _ & _ & _ & _ & _ & _ & _ & Ho & _ & Hp & _).
  destruct (history_member _ _ _ _ Hh Hm) as (mr & Hmr & Hor & _ & Hpay). pose proof (Hn _ _ Hmr) as Hi.
  exists mr. rewrite Ho, Hor, Hi, Nat2Z.id. split; [done|]. split; [done|]. by rewrite <- Hpay, <- Hp.
Qed.

Lemma callback_job_ok reg d d' wall read owner now l :
  history reg d → ClaimCallbackPublication wall read d (callback_claim d owner now) = (d', inr (Some l)) →
  job_ok reg d (callback_claimed l wall).
Proof.
  intros Hh Hc%claim_callback_update. unfold callback_claimed. destruct (unmarshal_signature (cl_Payload l)) as [s|] eqn:Hs; [|done]. simpl.
  destruct (claim_callback_granted _ _ _ _ _ Hc) as (Ha & _ & _ & _ & _ & _ & _ & _ & _ & _ & _ & _ & Hp & _).
  pose proof (history_inv _ _ Hh) as HI. split; [by apply HI|]. exists (cl_Payload l). rewrite Hp. split; [by apply HI|by rewrite <- Hp].
Qed.

(** The messages and the jobs of a step come from those before it. *)
Lemma act_messages reg w a w' :
  safe reg w → well_numbered reg → act w a = Some w' →
  Forall (msg_ok reg (w_row w')) (w_log w') ∧ Forall (job_ok reg (w_row w')) (w_jobs w') ∧
  (∀ x, x ∈ w_log w → x ∈ w_log w').
Proof.
  intros [Hh Hl Hj _] Hn H. destruct (act_effect _ _ _ H) as [_ [ops Hops]].
  assert (Forall (msg_ok reg (w_row w')) (w_log w)) as Hl'.
  { rewrite Hops. eapply list.Forall_impl; [exact Hl|]. intros x. by apply msg_ok_run. }
  assert (Forall (job_ok reg (w_row w')) (w_jobs w)) as Hj'.
  { rewrite Hops. eapply list.Forall_impl; [exact Hj|]. intros x. by apply job_ok_run. }
  destruct a as [j|j wall|j wall now owner ordinal|j wall now owner read|j now a|j wall|j|k wall success rs|t]; simpl in H.
  - repeat case_match; simplify_eq/=; split_and!; try done; by apply list.Forall_insert.
  - destruct (w_jobs w !! j) as [[]|]; simplify_eq/=. split_and!; try done. by apply list.Forall_insert.
  - destruct (w_jobs w !! j) as [[]|]; try done. destruct (ClaimMemberPublication _ _ _) as [row r] eqn:Hc.
    destruct r as [e|[l|]]; simplify_eq/=; try done. split_and!; try done. apply list.Forall_insert; [done|].
    by eapply member_job_ok.
  - destruct (w_jobs w !! j) as [[]|]; try done. destruct (ClaimCallbackPublication _ _ _ _) as [row r] eqn:Hc.
    destruct r as [e|[l|]]; simplify_eq/=; try done. split_and!; try done. apply list.Forall_insert; [done|].
    eapply job_ok_run; [done|]. by eapply callback_job_ok.
  - destruct (w_jobs w !! j) as [[| |lease s| |lease s|]|] eqn:Ej; simplify_eq/=;
      pose proof (list.Forall_lookup_1 _ _ _ _ Hj Ej) as Hs; (destruct (delivered a); simpl in *;
        (split_and!; [|by apply list.Forall_insert|set_solver]));
      try (apply list.Forall_app; split; [done|]; constructor; [exact Hs|constructor]); done.
  - destruct (w_jobs w !! j) as [[]|]; simplify_eq/=; split_and!; try done; by apply list.Forall_insert.
  - case_bool_decide; simplify_eq/=. split_and!; try done. by apply list.Forall_insert.
  - destruct (w_log w !! k) as [[]|]; try done; destruct (recordDurableTerminal _ _ _ _ _) as [[row err]|]; by simplify_eq/=.
  - by simplify_eq/=.
Qed.

Lemma act_safe reg w a w' : safe reg w → well_numbered reg → act w a = Some w' → safe reg w'.
Proof.
  intros Hs Hn H. destruct (act_messages _ _ _ _ Hs Hn H) as (Hl & Hj & Hin).
  destruct (act_effect _ _ _ H) as [Hmade [ops Hops]]. destruct Hs as [Hh _ _ Hm]. split; try done.
  - rewrite Hops. by apply history_run.
  - intros i m r Hi Hr Hf. destruct (Hmade i m r Hi Hr Hf) as [(m0 & Hm0 & Hr0 & Ht)|(x & Hx & Hid & _)].
    + destruct (Hm i m0 r Hm0 Hr0 Hf) as (x & Hx & Hid). exists x. rewrite <- Ht. auto.
    + exists x. auto.
Qed.

Lemma registered_safe reg owner now n t : safe reg (registered reg owner now n t).
Proof.
  split; simpl; [by exists owner, now, []|constructor|by apply list.Forall_replicate|].
  intros i m r Hi Hr. rewrite list_lookup_fmap, fmap_Some in Hi. by destruct Hi as (mr & _ & ->).
Qed.

Lemma acts_safe reg l : ∀ w w', safe reg w → well_numbered reg → acts w l = Some w' → safe reg w'.
Proof.
  induction l as [|a l IH]; intros w w' Hs Hn; simpl; [by intros [= <-]|].
  destruct (act w a) as [w1|] eqn:E; [|done]. cbn [mbind option_bind]. apply IH; [by eapply act_safe|done].
Qed.

End dispatch.
