(* ===== verification/ChordDispatchLive.v ===== *)
(** * Durable chords: the way to a delivered callback

    From any state that dispatchers, crashes and workers can reach, as long as no
    member failed and the callback is not finished, the chord can still be
    completed: pending members are claimed again, published and run, and so is the
    callback. *)

From stdpp Require Import gmap.
From S2P Require Import Prelude GoFloat GoNumber Chord ChordStore ChordInv ChordThms ChordDispatch ChordDispatchThms.
From Stdlib Require Import Strings.Byte Strings.Ascii.

(** Text of ASCII characters, which goes through JSON as it is. *)
Definition ascii_text (s : string) : Prop := Forall (λ c, nat_of_ascii c < 128) (String.list_ascii_of_string s).

(** The values of the chord's own metadata. *)
Definition plain (v : mvalue) : Prop :=
  match v with MBool _ | MInt _ => True | MString s => ascii_text s | _ => False end.

(** An argument made of a result that came out of JSON. *)
Definition decoded_arg `{ChordJSON} (a : Arg) : Prop :=
  ∃ p rs r, unmarshal_results p = Some (Some rs) ∧ Some r ∈ rs ∧
    a = {| a_Type := r_Type r; a_Key := ""; a_Value := r_Value r |}.

(** The fields of a Go struct, and what the code relies on in encoding/json: what
    was encoded decodes, with the same identifier, group and metadata where they are
    plain (integers become float64); what was decoded can be encoded again; a nil
    slice is null and a pointer that is not nil does not become one. *)
Class ChordCodec `{HJ : ChordJSON} `{HM : !ChordMeta} : Prop := {
  fields_with r f : fields (with_fields r f) = f;
  codec_decode s p : marshal_signature s = Some p →
    ∃ s', unmarshal_signature p = Some s' ∧ (ascii_text (s_ID s) → s_ID s' = s_ID s) ∧
      (ascii_text (f_GroupID (fields (s_Rest s))) → f_GroupID (fields (s_Rest s')) = f_GroupID (fields (s_Rest s))) ∧
      (∀ k v, ascii_text k → plain v → meta_get (s_Rest s) k = Some v → meta_get (s_Rest s') k = Some (json_image v)) ∧
      (∀ k, ascii_text k → meta_get (s_Rest s) k = None → meta_get (s_Rest s') k = None);
  codec_encode p t args : unmarshal_signature p = Some t → Forall decoded_arg args →
    is_Some (marshal_signature (mkSignature (s_ID t) (s_Args t ++ args) (s_Rest t)));
  codec_null : ∃ p, marshal_results None = Some p ∧ unmarshal_results p = Some None;
  codec_results rs p rs' : marshal_results rs = Some p → unmarshal_results p = Some rs' →
    Forall is_Some (default [] rs) → Forall is_Some (default [] rs')
}.

(** ** Delivery keys are ASCII *)

Lemma ascii_app s s' : ascii_text s → ascii_text s' → ascii_text (s +:+ s').
Proof.
  unfold ascii_text. intros H1 H2. induction s as [|c s IH]; simpl in *; [done|].
  apply list.Forall_cons in H1 as [Hc H1]. apply list.Forall_cons. auto.
Qed.

Lemma hex_digit_ascii n : n < 16 → nat_of_ascii (hex_digit n) < 128.
Proof. intros Hn. do 16 (destruct n as [|n]; [vm_compute; lia|]). lia. Qed.

Lemma hex_encode_ascii b : ascii_text (hex_encode b).
Proof.
  induction b as [|x b IH]; [by apply list.Forall_nil|]. unfold ascii_text in *.
  cbn [hex_encode String.list_ascii_of_string]. assert (Byte.to_nat x < 256) as Hx by (by destruct x; vm_compute; lia).
  apply list.Forall_cons. split; [apply hex_digit_ascii, Nat.Div0.div_lt_upper_bound; lia|].
  apply list.Forall_cons. split; [apply hex_digit_ascii, Nat.mod_upper_bound; lia|done].
Qed.

Ltac ascii_const := unfold ascii_text; repeat (apply list.Forall_cons; split; [vm_compute; lia|]); by apply list.Forall_nil.

Lemma delivery_key_ascii `{ChordJSON} g c : ascii_text (ChordDeliveryKey g c).
Proof.
  unfold ChordDeliveryKey. repeat apply ascii_app; try apply hex_encode_ascii; ascii_const.
Qed.

Lemma key_meta_ascii : ascii_text DurableChordDeliveryKeyMeta.
Proof. ascii_const. Qed.
Lemma member_meta_ascii : ascii_text DurableChordMemberMeta.
Proof. ascii_const. Qed.
Lemma ordinal_meta_ascii : ascii_text DurableChordMemberOrdinal.
Proof. ascii_const. Qed.

Section live.
Context `{HJ : ChordJSON} `{HM : !ChordMeta} `{HC : !ChordCodec}.

Abbreviation signature := (Signature rest).

(** ** Fields *)

Lemma meta_get_set r k v k' : meta_get (meta_set r k v) k' = if String.eqb k k' then Some v else meta_get r k'.
Proof.
  unfold meta_get, meta_set. rewrite fields_with. simpl. destruct (String.eqb_spec k k') as [->|Hne].
  - by rewrite lookup_insert_eq.
  - rewrite lookup_insert_ne by done. destruct (f_Meta (fields r)); simpl; [done|by rewrite lookup_empty].
Qed.
Lemma meta_get_group r g n k : meta_get (set_group r g n) k = meta_get r k.
Proof. unfold meta_get, set_group. by rewrite fields_with. Qed.
Lemma meta_get_router q r k : meta_get (bindDefaultRouter q r) k = meta_get r k.
Proof. unfold meta_get, bindDefaultRouter. destruct (String.eqb _ _); [|done]. by rewrite fields_with. Qed.

Lemma group_meta_set r k v : f_GroupID (fields (meta_set r k v)) = f_GroupID (fields r).
Proof. unfold meta_set. by rewrite fields_with. Qed.
Lemma group_set_group r g n : f_GroupID (fields (set_group r g n)) = g.
Proof. unfold set_group. by rewrite fields_with. Qed.
Lemma group_router q r : f_GroupID (fields (bindDefaultRouter q r)) = f_GroupID (fields r).
Proof. unfold bindDefaultRouter. destruct (String.eqb _ _); [|done]. by rewrite fields_with. Qed.

(** ** Registrations *)

(** The signature of member [i] of the chord [key], as a worker gets it. *)
Definition stamped (key : string) (i : Z) (s : signature) : Prop :=
  meta_get (s_Rest s) DurableChordDeliveryKeyMeta = Some (MString key) ∧
  meta_get (s_Rest s) DurableChordMemberMeta = Some (MBool true) ∧
  meta_get (s_Rest s) DurableChordMemberOrdinal = Some (MFloat (f64_of_Z i)).

Lemma member_registrations_ok hook queue key groupID count tasks :
  ascii_text key → ascii_text groupID → Forall (λ t, ascii_text (s_ID (hook t))) tasks → ∀ ordinal seen l,
  member_registrations hook queue key groupID count ordinal seen tasks = inr l →
  length l = length tasks ∧
  ∀ i mr, l !! i = Some mr → mr_Ordinal mr = Z.of_nat (ordinal + i) ∧
    ∃ s, unmarshal_signature (mr_Payload mr) = Some s ∧ s_ID s = mr_TaskID mr ∧
      f_GroupID (fields (s_Rest s)) = groupID ∧ stamped key (Z.of_nat (ordinal + i)) s.
Proof.
  intros Hkey Hgroup. induction tasks as [|t tasks IH]; intros Hids ordinal seen l H; simpl in H; [by simplify_eq|].
  apply list.Forall_cons in Hids as [Hid Hids].
  destruct (String.eqb _ ""); [done|]. case_bool_decide; [done|].
  destruct (marshal_signature _) as [payload|] eqn:Hp; [|done].
  destruct (member_registrations _ _ _ _ _ _ _ tasks) as [e|l'] eqn:Hl; [done|]. simplify_eq.
  destruct (IH Hids _ _ _ Hl) as [Hlen Hmem]. split; [simpl; by rewrite Hlen|]. intros [|i] mr Hi; simpl in Hi.
  - simplify_eq. simpl. rewrite Nat.add_0_r. split; [done|].
    destruct (codec_decode _ _ Hp) as (s & Hs & Hsid & Hsg & Hmeta & _). simpl in *.
    rewrite group_router, !group_meta_set, group_set_group in Hsg.
    exists s. split; [done|]. split; [by apply Hsid|]. split; [by apply Hsg|].
    split_and!; [apply (Hmeta _ (MString key) key_meta_ascii Hkey)|apply (Hmeta _ (MBool true) member_meta_ascii I)
      |apply (Hmeta _ (MInt (Z.of_nat ordinal)) ordinal_meta_ascii I)]; rewrite meta_get_router, !meta_get_set; by cbn.
  - replace (ordinal + S i) with (S ordinal + i) by lia. by apply Hmem.
Qed.

(** What a registration that was built for sending gives the workers. *)
Record sent (reg : ChordRegistration) (callbackID : string) (members : nat) : Prop := {
  st_key : rg_DeliveryKey reg ≠ "" ∧ ascii_text (rg_DeliveryKey reg);
  st_count : length (rg_Members reg) = members;
  st_member i mr : rg_Members reg !! i = Some mr → mr_Ordinal mr = Z.of_nat i ∧
    ∃ s, unmarshal_signature (mr_Payload mr) = Some s ∧ s_ID s = mr_TaskID mr ∧
      f_GroupID (fields (s_Rest s)) = rg_GroupID reg ∧ stamped (rg_DeliveryKey reg) (Z.of_nat i) s;
  st_callback : ∃ t, unmarshal_signature (rg_Callback reg) = Some t ∧ s_ID t = callbackID ∧ ascii_text callbackID ∧
    meta_get (s_Rest t) DurableChordDeliveryKeyMeta = Some (MString (rg_DeliveryKey reg)) ∧
    meta_get (s_Rest t) DurableChordMemberMeta = None
}.

(** The identifiers are text that JSON does not change. *)
Definition ascii_ids (hook : signature → signature) (groupID : string) (tasks : list signature) (callback : signature) : Prop :=
  ascii_text groupID ∧ Forall (λ t, ascii_text (s_ID (hook t))) tasks ∧ ascii_text (s_ID (hook callback)).

Lemma durable_registration_ok hook queue expire groupID name tasks callback reg :
  durable_registration hook queue expire groupID name tasks callback = inr reg →
  ascii_ids hook groupID tasks callback →
  meta_get (s_Rest (hook callback)) DurableChordMemberMeta = None →
  sent reg (s_ID (hook callback)) (length tasks).
Proof.
  unfold durable_registration. intros H (Hgid & Hids & Hcid) Hm. destruct (String.eqb _ ""); [done|].
  pose proof (delivery_key_ascii groupID (s_ID (hook callback))) as Hka.
  set (key := ChordDeliveryKey _ _) in *. assert (key ≠ "") as Hkey by discriminate. clearbody key.
  destruct (marshal_signature _) as [payload|] eqn:Hp; [|done].
  destruct (member_registrations _ _ _ _ _ _ _ tasks) as [e|l] eqn:Hl; [done|].
  unfold FinalizeChordRegistration in H. cbn in H. apply String.eqb_neq in Hkey as Hk. rewrite Hk in H.
  destruct (marshal_definition _) as [body|]; [|done]. simplify_eq.
  destruct (member_registrations_ok _ _ _ _ _ _ Hka Hgid Hids _ _ _ Hl) as [Hlen Hmem].
  destruct (codec_decode _ _ Hp) as (t & Ht & Hid & _ & Hmeta & Hnone). simpl in *. split; cbn; try done.
  exists t. split; [done|]. split; [by apply Hid|]. split; [done|]. split.
  - apply (Hmeta _ (MString key) key_meta_ascii Hka). by rewrite meta_get_set.
  - apply Hnone; [apply member_meta_ascii|]. rewrite meta_get_set, meta_get_router, Hm. by cbn.
Qed.

Lemma sent_numbered reg c n : sent reg c n → well_numbered reg.
Proof. intros Hs i mr Hi. by destruct (st_member _ _ _ Hs i mr Hi). Qed.

(** ** Results without holes *)

Definition whole (d : ChordDelivery) : Prop :=
  ∀ i m r, d_Members d !! i = Some m → m_Receipt m = Some r → ¬ failed r →
    Forall is_Some (default [] (rc_Results r)) ∧ ∃ p, unmarshal_results p = Some (rc_Results r).

(** The rows that other users of the tables must leave to the chord. *)
Definition compatible (reg : ChordRegistration) (t : tables) : Prop :=
  (∀ ids, t_groups t !! rg_GroupID reg = Some ids → ids = mr_TaskID <$> rg_Members reg) ∧
  (∀ mr g, mr ∈ rg_Members reg → t_statuses t !! mr_TaskID mr = Some g → g = rg_GroupID reg).

(** A worker's results, and with them the receipts, have no nil, and others do not
    put rows of their own under the identifiers of the chord. *)
Definition clean (reg : ChordRegistration) (a : action) : Prop :=
  match a with
  | AWork _ _ _ rs => Forall is_Some (default [] rs)
  | ATables t => compatible reg t
  | _ => True
  end.

Lemma clone_none : cloneChordResults None = inr None.
Proof. unfold cloneChordResults. destruct codec_null as (p & -> & ->). done. Qed.

Lemma clone_whole rs rs' : cloneChordResults rs = inr rs' → Forall is_Some (default [] rs) →
  Forall is_Some (default [] rs') ∧ ∃ p, unmarshal_results p = Some rs'.
Proof.
  unfold cloneChordResults. destruct (marshal_results rs) as [p|] eqn:Hp; [|done].
  destruct (unmarshal_results p) as [x|] eqn:Hx; [|done]. intros [= ->] Hrs.
  split; [by eapply codec_results|by exists p].
Qed.

Lemma act_whole reg w a w' : whole (w_row w) → clean reg a → act w a = Some w' → whole (w_row w').
Proof.
  intros Hw Hc H i m r Hi Hr Hf. destruct (act_effect _ _ _ H) as [Hmade _].
  destruct (Hmade i m r Hi Hr Hf) as [(m0 & Hm0 & Hr0 & _)|(x & _ & _ & Hg)]; [by eapply Hw|].
  destruct a as [| | | | | | |k wall success rs|]; try done. simpl in *. apply clone_whole in Hg; [done|].
  destruct success; [done|by apply list.Forall_nil].
Qed.

Lemma result_args_whole l :
  Forall is_Some l → (∀ r, Some r ∈ l → decoded_arg {| a_Type := r_Type r; a_Key := ""; a_Value := r_Value r |}) →
  ∃ args, result_args l = Some args ∧ Forall decoded_arg args.
Proof.
  induction 1 as [|r l [x ->] _ IH]; intros Hd; simpl; [by exists []; split; [|apply list.Forall_nil]|].
  destruct IH as (args & -> & Ha); [intros r Hr; apply Hd; by apply elem_of_cons; right|]. simpl.
  eexists. split; [done|]. apply list.Forall_cons. split; [|done]. apply Hd. by apply elem_of_cons; left.
Qed.

Lemma receipt_args rs p : Forall is_Some (default [] rs) → unmarshal_results p = Some rs →
  ∃ args, result_args (default [] rs) = Some args ∧ Forall decoded_arg args.
Proof.
  intros Hs Hp. apply result_args_whole; [done|]. destruct rs as [rs|]; [|by intros r ?%not_elem_of_nil].
  intros r Hr. by exists p, rs, r.
Qed.

(** The callback's payload can be built once all members have succeeded. *)
Lemma build_whole d t :
  unmarshal_signature (d_CallbackTemplate d) = Some t → Forall succeeded (receipts d) → whole d →
  ∃ args p, member_args (d_Members d) = Some args ∧ buildChordCallbackPayload d = Some (inr p) ∧
    marshal_signature (mkSignature (s_ID t) (s_Args t ++ args) (s_Rest t)) = Some p.
Proof.
  intros Ht HF Hw. unfold buildChordCallbackPayload. rewrite Ht.
  assert (∃ args, member_args (d_Members d) = Some args ∧ Forall decoded_arg args) as (args & Hargs & Hd).
  { unfold receipts, whole in *. clear Ht. revert HF Hw.
    induction (d_Members d) as [|m L IH]; intros HF Hw; simpl; [by exists []; split; [|apply list.Forall_nil]|].
    rewrite fmap_cons in HF. apply list.Forall_cons in HF as [(r & Hr & Hnf) HF]. rewrite Hr. simpl.
    destruct (Hw 0 m r eq_refl Hr Hnf) as (Hsome & p & Hp).
    destruct (receipt_args _ _ Hsome Hp) as (here & -> & Hhere). simpl.
    destruct (IH HF) as (args & -> & Hargs); [intros i x q Hi; by apply (Hw (S i))|]. simpl.
    exists (here ++ args). split; [done|]. by apply list.Forall_app. }
  rewrite Hargs. cbn [mbind option_bind].
  destruct (codec_encode _ _ args Ht Hd) as [p Hp]. rewrite Hp. eauto.
Qed.

(** ** Complete chords are active *)

Definition complete (d : ChordDelivery) : Prop :=
  d_Members d ≠ [] → Forall succeeded (receipts d) → ¬ finished (d_CallbackState d) → active (d_CallbackState d).

Lemma suppression_finished d d' : suppression d d' → finished (d_CallbackState d').
Proof.
  intros [[Hf Hcb]|(_ & -> & _)]; [|by right]. unfold cb in Hcb. by injection Hcb as -> _.
Qed.

Lemma cstep_complete d d' : cstep d d' → complete d → complete d'.
Proof.
  intros Hstep Hc. destruct Hstep as [->|Hdef Hcb HT|i m m' r Hdef Hm Hn Hrec Hmem Hset
    |Hdef Hmem Ha Ha' Hv Hp Ho Hat Hex|Hdef Hmem Hnf Hst Hp Hex Hv]; intros Hne HF Hnfin.
  - by apply Hc.
  - unfold cb in Hcb. injection Hcb as Hs _ _ _ _ _ _ _ _ _. rewrite Hs in *. apply Hc; [|unfold receipts in *; by rewrite <- (touched_receipts _ _ HT)|done].
    intros E. rewrite E in HT. inversion HT. congruence.
  - pose proof (scan_spec (d_Members d')) as Hscan. unfold settled in Hset.
    destruct (decide _); [by apply suppression_finished in Hset|].
    destruct (scan_receipts (d_Members d')); [done|by apply suppression_finished in Hset|].
    destruct Hset as (p & _ & _ & Hs & _). rewrite Hs. by left.
  - done.
  - destruct Hnfin. rewrite Hst. by left.
Qed.

Lemma act_complete reg w a w' : safe reg w → act w a = Some w' → complete (w_row w) → complete (w_row w').
Proof.
  intros Hs H Hc. destruct (act_effect _ _ _ H) as [_ [ops ->]]. pose proof (history_inv _ _ (sf_history _ _ Hs)) as HI.
  clear -HI Hc. revert HI Hc. generalize (w_row w). induction ops as [|op ops IH]; intros d HI Hc; [done|]. cbn.
  pose proof (apply_op_cstep op d (ci_receipts _ HI)) as Hstep. apply IH; [by eapply cstep_inv|by eapply cstep_complete].
Qed.

(** ** A worker's success *)

Lemma template_decodes reg c n d : history reg d → sent reg c n →
  ∃ t, unmarshal_signature (d_CallbackTemplate d) = Some t ∧ (s_ID t = c ∧ ascii_text c) ∧ d_DeliveryKey d = rg_DeliveryKey reg ∧
    meta_get (s_Rest t) DurableChordDeliveryKeyMeta = Some (MString (d_DeliveryKey d)) ∧
    meta_get (s_Rest t) DurableChordMemberMeta = None.
Proof.
  intros Hh Hs. destruct (history_evolves _ _ Hh) as (owner & now & HE). destruct (ev_def _ _ HE) as [Hk _ _ _ _ _ Ht _].
  simpl in Hk, Ht. rewrite Ht, Hk. destruct (st_callback _ _ _ Hs) as (t & ? & ? & ? & ? & ?). eauto 10.
Qed.

(** A success for a member without a receipt is recorded. *)
Lemma terminal_ok reg c n wall d i m :
  history reg d → sent reg c n → d_Members d !! i = Some m → m_Receipt m = None →
  ¬ Exists has_failed (receipts d) → whole d →
  ∃ d' m', RecordMemberTerminal wall d (Z.of_nat i) (m_TaskID m) MemberTerminalSuccess None = Some (d', None) ∧
    d_Members d' !! i = Some m' ∧ is_Some (m_Receipt m') ∧
    ¬ Exists has_failed (receipts d') ∧ (¬ finished (d_CallbackState d) → ¬ finished (d_CallbackState d')).
Proof.
  intros Hh Hs Hm Hn Hnf Hw. unfold RecordMemberTerminal, ApplyChordMemberTerminal, member_at.
  pose proof (lookup_lt_Some _ _ _ Hm) as Hlt. rewrite (proj2 (Z.ltb_ge _ _)), (proj2 (Z.leb_gt _ _)) by lia.
  cbn [orb]. rewrite Nat2Z.id, Hm, String.eqb_refl. cbn [negb]. rewrite clone_none, Hn.
  set (r := {| rc_TaskID := m_TaskID m; rc_Outcome := MemberTerminalSuccess; rc_Results := None |}).
  match goal with |- context [settle_callback _ ?x _ _] => set (d1 := x) end.
  assert (d_Members d1 = <[i := receipt_member r m]> (d_Members d)) as Hmem by done.
  assert (d_Members d1 !! i = Some (receipt_member r m)) as Hi1 by (rewrite Hmem; by apply list_lookup_insert_eq).
  assert (receipted m (receipt_member r m) r) as Hrec by (split_and!; try done; apply Z.lt_succ_diag_r).
  destruct (receipts_insert _ _ _ _ _ _ Hm Hn Hrec Hmem) as [Hri Hr1].
  assert (¬ failed r) as Hr by discriminate.
  assert (¬ Exists has_failed (receipts d1)) as Hnf1.
  { rewrite Hr1. intros HE. by destruct (exists_insert_failed _ _ _ Hri HE). }
  assert (whole d1) as Hw1.
  { intros j x q Hj Hq Hf. rewrite Hmem in Hj. destruct (decide (i = j)) as [<-|Hne].
    - rewrite list_lookup_insert_eq in Hj by done. injection Hj as <-. injection Hq as <-.
      split; [by apply list.Forall_nil|]. destruct codec_null as (p & _ & Hp). by exists p.
    - rewrite list_lookup_insert_ne in Hj by done. by eapply Hw. }
  unfold settle_callback. cbn [bool_decide]. rewrite bool_decide_eq_false_2 by discriminate.
  pose proof (scan_spec (d_Members d1)) as Hscan. destruct (scan_receipts (d_Members d1)); [|done|].
  - cbn [mbind option_bind updateChordDelivery]. change (d_Version d1) with (d_Version d + 1)%Z.
    rewrite (proj2 (Z.eqb_neq _ _)) by lia. cbn [negb updateChordDelivery]. exists d1, (receipt_member r m). by split_and!.
  - destruct (template_decodes _ _ _ _ Hh Hs) as (t & Ht & _).
    destruct (build_whole d1 t Ht Hscan Hw1) as (args & p & _ & -> & _). cbn [mbind option_bind].
    destruct (ready_callback_spec p d1) as (_ & Hm2 & Hv2 & Hst & _). rewrite Hv2.
    change (d_Version d1) with (d_Version d + 1)%Z.
    rewrite (proj2 (Z.eqb_neq _ _)) by lia. cbn [negb updateChordDelivery].
    exists (ready_callback p d1), (receipt_member r m). unfold receipts in *. rewrite Hm2, Hst.
    split_and!; try done. intros _ [?|?]; discriminate.
Qed.

(** The worker finds the row of a stamped signature. *)
Lemma work_member wall d i m s :
  stamped (d_DeliveryKey d) (Z.of_nat i) s → d_DeliveryKey d ≠ "" → (Z.of_nat i < 2 ^ 53)%Z → s_ID s = m_TaskID m →
  recordDurableTerminal wall d s true None =
    '(d', err) ← RecordMemberTerminal wall d (Z.of_nat i) (m_TaskID m) MemberTerminalSuccess None; Some (d', store_error err).
Proof.
  intros (Hk & Hm & Ho) Hne Hi Hid. unfold recordDurableTerminal. rewrite Hk, Hm, Ho, String.eqb_refl, Hid.
  rewrite (proj2 (String.eqb_neq _ _)) by done. cbn [metadataBool negb mbind option_bind metadataInt].
  rewrite f64_int_eq, f64_int_exact by lia. done.
Qed.

Lemma work_callback wall d s :
  meta_get (s_Rest s) DurableChordDeliveryKeyMeta = Some (MString (d_DeliveryKey d)) → d_DeliveryKey d ≠ "" →
  meta_get (s_Rest s) DurableChordMemberMeta = None → d_CallbackState d = ChordLeased →
  ∃ d', recordDurableTerminal wall d s true None = Some (d', None) ∧
    d_CallbackState d' = ChordDelivered ∧ d_TerminalOutcome d' = CallbackTerminalSuccess.
Proof.
  intros Hk Hne Hm Hst. unfold recordDurableTerminal. rewrite Hk, Hm, String.eqb_refl.
  rewrite (proj2 (String.eqb_neq _ _)) by done. cbn [negb].
  unfold RecordCallbackTerminal, ApplyChordCallbackTerminal. rewrite Hst.
  rewrite !bool_decide_eq_false_2 by discriminate. unfold setChordTerminalTime.
  destruct (_ <? 0)%Z;
    match goal with |- context [(d_Version ?x =? _)%Z] => change (d_Version x) with (d_Version d + 1)%Z end;
    rewrite (proj2 (Z.eqb_neq _ _)) by lia; cbn [negb updateChordDelivery]; eexists; by split_and!.
Qed.

(** ** Driving a chord to its end *)

Record sound (reg : ChordRegistration) (w : world) : Prop := {
  so_safe : safe reg w;
  so_jobs : 0 < length (w_jobs w);
  so_whole : whole (w_row w);
  so_complete : complete (w_row w);
  so_tables : compatible reg (w_tables w)
}.

Lemma act_jobs w a w' : act w a = Some w' → length (w_jobs w') = length (w_jobs w).
Proof.
  intros H. unfold act, set_job, set_row, set_tables, send, mbind, option_bind in H.
  repeat case_match; simplify_eq/=; by rewrite ?length_insert.
Qed.

Lemma history_ids reg d : history reg d →
  m_TaskID <$> d_Members d = mr_TaskID <$> rg_Members reg ∧ d_GroupID d = rg_GroupID reg.
Proof.
  intros Hh. destruct (history_evolves _ _ Hh) as (owner & now & HE). split; [|apply (sd_group _ _ (ev_def _ _ HE))].
  pose proof (ev_members _ _ HE) as HG. simpl in HG. clear -HG. revert HG. generalize (d_Members d).
  induction (rg_Members reg) as [|mr L IH]; intros L' HG; inversion HG as [|x y l k Hg HG']; subst; [done|].
  rewrite !fmap_cons. rewrite (IH _ HG'). destruct Hg as ((_ & -> & _) & _). done.
Qed.

(** The statuses that the set-up creates belong to the group. *)
Lemma create_statuses_ok reg c n L : ∀ st,
  sent reg c n → (∀ m, m ∈ L → ∃ mr, mr ∈ rg_Members reg ∧ m_Payload m = mr_Payload mr) →
  (∀ mr g, mr ∈ rg_Members reg → st !! mr_TaskID mr = Some g → g = rg_GroupID reg) →
  ∃ st', create_statuses (rg_GroupID reg) L st = inr st' ∧
    ∀ mr g, mr ∈ rg_Members reg → st' !! mr_TaskID mr = Some g → g = rg_GroupID reg.
Proof.
  induction L as [|m L IH]; intros st Hs HL Hst; [by exists st|]. cbn [create_statuses].
  destruct (HL m) as (mr & Hmr & ->); [by apply elem_of_cons; left|]. apply list_elem_of_lookup in Hmr as [i Hi].
  destruct (st_member _ _ _ Hs _ _ Hi) as (_ & s & -> & Hid & Hg & _).
  assert (∀ m, m ∈ L → ∃ mr, mr ∈ rg_Members reg ∧ m_Payload m = mr_Payload mr) as HL'
    by (intros x Hx; apply HL; by apply elem_of_cons; right).
  destruct (st !! s_ID s) as [g|] eqn:Eg.
  - rewrite Hid in Eg. rewrite (Hst mr g) by (done || by eapply list_elem_of_lookup_2). rewrite String.eqb_refl. by apply IH.
  - apply IH; [done..|]. intros mr' g Hin Hl. rewrite Hg in Hl.
    apply lookup_insert_Some in Hl as [[_ <-]|[_ Hl]]; [done|by eapply Hst].
Qed.

Lemma setup_ok reg c n d t : history reg d → sent reg c n → compatible reg t →
  ∃ t', setup_chord d t = inr t' ∧ compatible reg t'.
Proof.
  intros Hh Hs [Hg Hst]. destruct (history_ids _ _ Hh) as [Hids Hgid]. unfold setup_chord. rewrite Hgid, Hids.
  destruct (create_statuses_ok reg c n (d_Members d) (t_statuses t) Hs) as (st' & -> & Hst'); [|done|].
  { intros m Hm. apply list_elem_of_lookup in Hm as [i Hi]. destruct (history_member _ _ _ _ Hh Hi) as (mr & Hmr & _ & _ & Hp).
    exists mr. split; [by eapply list_elem_of_lookup_2|done]. }
  destruct (t_groups t !! rg_GroupID reg) as [ids|] eqn:Eg.
  - rewrite (bool_decide_eq_true_2 (ids = _)) by (by apply Hg). eexists. split; [done|]. split; [|done]. simpl. by rewrite Eg.
  - eexists. split; [done|]. split; [|done]. simpl. intros ids. rewrite lookup_insert_eq. by intros [= <-].
Qed.

Lemma act_compatible reg c n w a w' :
  sent reg c n → history reg (w_row w) → clean reg a → act w a = Some w' → compatible reg (w_tables w) →
  compatible reg (w_tables w').
Proof.
  intros Hs Hh Hc H Ht. destruct a as [j|j wall|j wall now owner ordinal|j wall now owner read|j now a|j wall|j|k wall success rs|t]; simpl in H.
  1: { destruct (setup_ok _ _ _ _ _ Hh Hs Ht) as (t' & Et & Ht'). rewrite Et in H. repeat case_match; simplify_eq/=; done. }
  8: by simplify_eq.
  all: unfold set_job, set_row, send, mbind, option_bind in H; repeat case_match; simplify_eq/=; done.
Qed.

Lemma act_sound reg c n w a w' : sound reg w → sent reg c n → clean reg a → act w a = Some w' → sound reg w'.
Proof.
  intros [Hs Hj Hw Hc Ht] Hn Ha H.
  split; [eapply act_safe; [done|by eapply sent_numbered|done]|by rewrite (act_jobs _ _ _ H)|by eapply act_whole
    |by eapply act_complete|by eapply act_compatible; [|apply Hs|..]].
Qed.

Lemma acts_sound reg c n l : ∀ w w', sound reg w → sent reg c n → Forall (clean reg) l → acts w l = Some w' → sound reg w'.
Proof.
  induction l as [|a l IH]; intros w w' Hs Hn Hc; simpl; [by intros [= <-]|]. apply list.Forall_cons in Hc as [Ha Hc].
  destruct (act w a) as [w1|] eqn:E; [|done]. cbn [mbind option_bind]. apply IH; [by eapply act_sound|done|done].
Qed.

Lemma registered_sound reg owner now n t : 0 < n → compatible reg t → sound reg (registered reg owner now n t).
Proof.
  intros Hn Ht. split; [apply registered_safe|simpl; by rewrite length_replicate| | |done].
  - intros i m r Hi Hr. simpl in Hi. rewrite list_lookup_fmap, fmap_Some in Hi. by destruct Hi as (mr & _ & ->).
  - intros Hne HF. destruct (d_Members _) as [|m L] eqn:E; [done|]. unfold receipts in HF. rewrite E in HF.
    apply list.Forall_cons in HF as [(r & Hr & _) _]. simpl in E. destruct (rg_Members reg); [done|].
    injection E as <- _. done.
Qed.

Lemma acts_app w l l' w1 w2 : acts w l = Some w1 → acts w1 l' = Some w2 → acts w (l ++ l') = Some w2.
Proof.
  revert w. induction l as [|a l IH]; intros w; simpl; [by intros [= ->]|].
  destruct (act w a) as [w0|]; [|done]. cbn [mbind option_bind]. apply IH.
Qed.

(** A moment after every deadline, which is not the zero time. *)
Definition late (d : ChordDelivery) (m : ChordMemberPublication) : time :=
  Z.max 1 (Z.max (m_LeaseExpiresAt m) (Z.max (m_ConfirmationDeadline m) (Z.max (m_NextAttemptAt m)
    (Z.max (d_CallbackLeaseExpiresAt d) (Z.max (d_CallbackConfirmationAt d) (d_CallbackNextAttemptAt d)))))).

Lemma orNow_late d m : orNow (late d m) (late d m) = late d m.
Proof. unfold orNow. by destruct (IsZero _). Qed.

(** A step of the dispatchers, the broker and the workers. *)
Definition own (a : action) : Prop := match a with ATables _ => False | _ => True end.

Lemma member_publishing reg d i m :
  history reg d → d_Members d !! i = Some m → m_Receipt m = None → m_State m ≠ ChordMemberSetup → publishing (m_State m).
Proof.
  intros Hh Hm Hr Hs. pose proof (history_inv _ _ Hh) as HI.
  assert (m_State m ≠ ChordMemberTerminal) as Ht.
  { intros Hst. apply (ci_receipts _ HI _ _ Hm) in Hst. rewrite Hr in Hst. by destruct Hst. }
  destruct (ci_known _ HI) as [_ Hk]. pose proof (list.Forall_lookup_1 _ _ _ _ Hk Hm) as Hkm. cbn in Hkm.
  unfold publishing. destruct (m_State m); auto; done.
Qed.

(** A dispatcher that was reset sets the chord up if a member still needs it. *)
Lemma drive_ready reg c n w i m (T : time) :
  sent reg c n → sound reg w → d_Members (w_row w) !! i = Some m → m_Receipt m = None →
  ∃ l w1 m1, acts w l = Some w1 ∧ Forall own l ∧ sound reg w1 ∧ w_log w1 = w_log w ∧ w_jobs w1 !! 0 = Some JIdle ∧
    d_Members (w_row w1) !! i = Some m1 ∧ publishing (m_State m1) ∧ m_Receipt m1 = None ∧
    (m_LeaseExpiresAt m1, m_ConfirmationDeadline m1, m_NextAttemptAt m1) =
      (m_LeaseExpiresAt m, m_ConfirmationDeadline m, m_NextAttemptAt m) ∧
    receipts (w_row w1) = receipts (w_row w) ∧ cb (w_row w1) = cb (w_row w).
Proof.
  intros Hs Hw Hm Hr. pose proof (so_jobs _ _ Hw) as Hj. pose proof (sf_history _ _ (so_safe _ _ Hw)) as Hh.
  destruct (decide (m_State m = ChordMemberSetup)) as [Hset|Hset].
  - destruct (setup_ok _ _ _ _ _ Hh Hs (so_tables _ _ Hw)) as (t & Et & _).
    assert (needs_setup (w_row w) = true) as Hneed.
    { apply existsb_exists. exists m. split; [by eapply list_elem_of_In, list_elem_of_lookup_2|by apply bool_decide_eq_true]. }
    set (d1 := markChordMembersReady T (w_row w)).
    assert (acts w [ACrash 0; AReconcile 0; AReady 0 T] = Some (mkWorld d1 (w_log w)
      (<[0 := JIdle]> (<[0 := JReady]> (<[0 := JIdle]> (w_jobs w)))) t)) as E.
    { cbn [acts act]. rewrite bool_decide_true by done. cbn [mbind option_bind acts act set_job w_row w_log w_jobs w_tables].
      rewrite list_lookup_insert_eq by done. rewrite Hneed. cbn [negb]. rewrite Et.
      cbn [mbind option_bind acts act set_job set_tables w_row w_log w_jobs w_tables].
      rewrite list_lookup_insert_eq by (rewrite length_insert; done). reflexivity. }
    eexists _, _, (prepare_member m). split; [exact E|]. split; [by repeat constructor|].
    split; [refine (acts_sound reg c n _ _ _ Hw Hs _ E); by repeat constructor|]. cbn [w_log w_jobs w_row].
    split; [done|]. split; [apply list_lookup_insert_eq; rewrite !length_insert; done|].
    change (d_Members d1) with (prepare_member <$> d_Members (w_row w)). rewrite list_lookup_fmap, Hm.
    split; [done|]. unfold prepare_member at 1 2 3 4 5. rewrite bool_decide_true by done.
    split; [by left|]. split; [done|]. split; [done|]. split; [|done]. exact (touched_receipts _ _ (prepared_touched _)).
  - exists [ACrash 0], (set_job w 0 JIdle), m. assert (acts w [ACrash 0] = Some (set_job w 0 JIdle)) as E.
    { cbn [acts act]. by rewrite bool_decide_true by done. }
    split; [exact E|]. split; [by repeat constructor|].
    split; [refine (acts_sound reg c n _ _ _ Hw Hs _ E); by repeat constructor|]. simpl.
    split_and!; try done; [by apply list_lookup_insert_eq|by eapply member_publishing].
Qed.

(** It claims a pending member and publishes it. *)
Lemma drive_publish reg c n w i m :
  sent reg c n → sound reg w → d_Members (w_row w) !! i = Some m → m_Receipt m = None →
  ∃ l w' m' s, acts w l = Some w' ∧ Forall own l ∧ sound reg w' ∧ w_log w' = w_log w ++ [MemberMsg (Z.of_nat i) s] ∧
    d_Members (w_row w') !! i = Some m' ∧ m_Receipt m' = None ∧ m_TaskID m' = s_ID s ∧
    receipts (w_row w') = receipts (w_row w) ∧ cb (w_row w') = cb (w_row w) ∧ stamped (rg_DeliveryKey reg) (Z.of_nat i) s.
Proof.
  intros Hs Hw Hm Hr. set (T := late (w_row w) m). assert (orNow T T = T) as HT by apply orNow_late.
  destruct (drive_ready reg c n w i m T Hs Hw Hm Hr) as (l0 & w1 & m1 & E0 & Ho0 & Hw1 & Hlog & Hj & Hm1 & Hpub & Hr1 & Ht & Hrec & Hcb).
  injection Ht as Ht1 Ht2 Ht3. pose proof (sf_history _ _ (so_safe _ _ Hw1)) as Hh.
  destruct (late_claim T (w_row w1) (member_claim (w_row w1) (Z.of_nat i) "" T) m1) as (d2 & l & Hc);
    [simpl; by rewrite Nat2Z.id|simpl; lia|done|simpl; rewrite HT, ?Ht1, ?Ht2, ?Ht3; unfold T, late; lia..|].
  destruct (claim_member_granted _ _ _ _ _ Hc)
    as (x & m2 & Hx & _ & _ & (Ho2 & Ht2' & Hp2) & Hr2 & _ & _ & _ & _ & _ & Hcb2 & _ & Hmem & Ho & _ & Hp & _).
  cbn [member_claim mc_Ordinal] in Hx, Hmem. rewrite Nat2Z.id in *. rewrite Hm1 in Hx. injection Hx as <-.
  destruct (history_member _ _ _ _ Hh Hm1) as (mr & Hmr & Hor & Htr & Hpr).
  destruct (st_member _ _ _ Hs _ _ Hmr) as (Hord & s & Hdec & Hid & _ & Hst).
  assert (acts w1 [AClaimMember 0 T T "" (Z.of_nat i); APublish 0 T Accepted] =
    Some (mkWorld d2 (w_log w1 ++ [MemberMsg (Z.of_nat i) s])
      (<[0 := JMemberRecord l (classifyChordPublishOutcome Accepted T)]> (<[0 := JMember l s]> (w_jobs w1))) (w_tables w1))) as E.
  { cbn [acts act]. rewrite Hj, Hc. unfold member_claimed. rewrite Hp, Hpr, Hdec.
    cbn [mbind option_bind acts act set_job set_row w_row w_log w_jobs].
    rewrite list_lookup_insert_eq by (by eapply lookup_lt_Some). cbn [mbind option_bind delivered send set_job w_row w_log w_jobs w_tables].
    by rewrite Ho, Hor, Hord. }
  pose proof (acts_app _ _ _ _ _ E0 E) as E'. eexists _, _, m2, s. split; [exact E'|].
  split; [apply list.Forall_app; split; [done|by repeat constructor]|].
  split; [refine (acts_sound reg c n _ _ _ Hw1 Hs _ E); by repeat constructor|].
  simpl. split; [by rewrite Hlog|]. rewrite Hmem, list_lookup_insert_eq by (by eapply lookup_lt_Some).
  split; [done|]. split; [by rewrite Hr2|]. split; [by rewrite Ht2', Hid, <- Htr|]. split.
  - rewrite <- Hrec. unfold receipts. rewrite Hmem, list_fmap_insert, Hr2. apply list_insert_id. by rewrite list_lookup_fmap, Hm1.
  - split; [by rewrite Hcb2|done].
Qed.

(** The members without a receipt. *)
Definition pending (R : list (option ChordMemberReceipt)) : nat := length (filter (λ o, o = None) R).

Lemma pending_grown L L' : Forall2 grown L L' → pending (m_Receipt <$> L') <= pending (m_Receipt <$> L).
Proof.
  unfold pending. induction 1 as [|m m' L L' (_ & Hr & _) _ IH]; [done|]. rewrite !fmap_cons, !filter_cons.
  destruct (m_Receipt m) as [r|] eqn:E; [rewrite (Hr r eq_refl)|]; repeat destruct (decide _); simpl in *; try done; lia.
Qed.

Lemma pending_less L L' i m m' :
  Forall2 grown L L' → L !! i = Some m → m_Receipt m = None → L' !! i = Some m' → is_Some (m_Receipt m') →
  pending (m_Receipt <$> L') < pending (m_Receipt <$> L).
Proof.
  intros HG. revert i. induction HG as [|x x' L L' (Hid & Hr & Hv) HG IH]; intros i Hm Hn Hm' Hs; [done|].
  pose proof (pending_grown _ _ HG) as Hle. rewrite !fmap_cons. unfold pending in *. rewrite !filter_cons.
  destruct i as [|i]; simpl in Hm, Hm'.
  - simplify_eq. destruct Hs as [r Hs]. rewrite Hn, Hs. simpl. lia.
  - specialize (IH i Hm Hn Hm' Hs). destruct (m_Receipt x) as [r|] eqn:E; [rewrite (Hr r eq_refl)|];
      repeat destruct (decide _); simpl in *; try done; lia.
Qed.

Lemma pending_zero R : pending R = 0 → ¬ Exists has_failed R → Forall succeeded R.
Proof.
  unfold pending. induction R as [|[r|] R IH]; rewrite ?filter_cons; simpl; intros Hp Hf; [constructor| |done].
  constructor; [|apply IH; [done|intros HE; apply Hf; by right]]. exists r. split; [done|]. intros Hr. apply Hf. left. by exists r.
Qed.

Lemma history_length reg c n d : history reg d → sent reg c n → length (d_Members d) = n.
Proof.
  intros Hh Hs. destruct (history_evolves _ _ Hh) as (owner & now & HE).
  pose proof (list.Forall2_length _ _ _ (ev_members _ _ HE)) as Hl. simpl in Hl. rewrite length_fmap, (st_count _ _ _ Hs) in Hl. done.
Qed.

Lemma history_key reg d : history reg d → d_DeliveryKey d = rg_DeliveryKey reg.
Proof. intros Hh. destruct (history_evolves _ _ Hh) as (owner & now & HE). by rewrite (sd_key _ _ (ev_def _ _ HE)). Qed.

(** Nothing failed, and the callback is still to come. *)
Definition open (w : world) : Prop :=
  ¬ Exists has_failed (receipts (w_row w)) ∧ ¬ finished (d_CallbackState (w_row w)).

Lemma drive_member reg c n w i m :
  sent reg c n → (Z.of_nat n < 2 ^ 53)%Z → sound reg w → open w → d_Members (w_row w) !! i = Some m → m_Receipt m = None →
  ∃ l w', acts w l = Some w' ∧ Forall own l ∧ sound reg w' ∧ open w' ∧ pending (receipts (w_row w')) < pending (receipts (w_row w)).
Proof.
  intros Hs Hn Hw [Hnf Hnfin] Hm Hr.
  destruct (drive_publish reg c n w i m Hs Hw Hm Hr) as (l & w1 & m1 & s & E1 & Ho1 & Hw1 & Hlog & Hm1 & Hr1 & Ht1 & Hrec1 & Hcb1 & Hst).
  pose proof (sf_history _ _ (so_safe _ _ Hw1)) as Hh1. pose proof (history_key _ _ Hh1) as Hkey.
  destruct (terminal_ok reg c n 1%Z (w_row w1) i m1) as (d' & m' & Hterm & Hm' & Hsome & Hnf' & Hfin');
    [done|done|done|done|by rewrite Hrec1|apply Hw1|].
  assert (i < n) as Hin by (rewrite <- (history_length _ _ _ _ Hh1 Hs); by eapply lookup_lt_Some).
  assert (act w1 (AWork (length (w_log w)) 1%Z true None) = Some (set_row w1 d')) as E2.
  { cbn [act]. rewrite Hlog, lookup_app_r, Nat.sub_diag by done. cbn [lookup list_lookup].
    rewrite (work_member 1%Z (w_row w1) i m1 s), Hterm; [done|by rewrite Hkey|rewrite Hkey; apply (st_key _ _ _ Hs)|lia|done]. }
  exists (l ++ [AWork (length (w_log w)) 1%Z true None]), (set_row w1 d').
  split; [eapply acts_app; [exact E1|]; cbn [acts]; rewrite E2; done|].
  split; [apply list.Forall_app; split; [done|by repeat constructor]|].
  split; [eapply act_sound; [exact Hw1|exact Hs| |exact E2]; by apply list.Forall_nil|].
  split; [split; [done|]; apply Hfin'; unfold cb in Hcb1; by injection Hcb1 as -> _|].
  destruct (act_effect _ _ _ E2) as [_ [ops Hops]]. simpl in Hops. rewrite <- Hrec1. simpl.
  eapply pending_less; [|exact Hm1|done|exact Hm'|done]. rewrite Hops. apply run_evolves. by eapply history_inv.
Qed.

Lemma drive_all reg c n k : ∀ w,
  sent reg c n → (Z.of_nat n < 2 ^ 53)%Z → sound reg w → open w → pending (receipts (w_row w)) <= k →
  ∃ l w', acts w l = Some w' ∧ Forall own l ∧ sound reg w' ∧ open w' ∧ Forall succeeded (receipts (w_row w')).
Proof.
  induction k as [|k IH]; intros w Hs Hn Hw Ho Hk.
  { exists [], w. split_and!; try done. apply pending_zero; [lia|apply Ho]. }
  destruct (decide (pending (receipts (w_row w)) = 0)) as [E|E].
  { exists [], w. split_and!; try done. apply pending_zero; [done|apply Ho]. }
  assert (∃ i m, d_Members (w_row w) !! i = Some m ∧ m_Receipt m = None) as (i & m & Hm & Hr).
  { unfold pending in E. destruct (filter _ _) as [|o R] eqn:EF; [done|].
    assert (o ∈ filter (λ o, o = None) (receipts (w_row w))) as Hin by (rewrite EF; apply elem_of_cons; by left).
    apply list_elem_of_filter in Hin as [-> Hin]. apply list_elem_of_fmap in Hin as (m & Hm & Hin).
    apply list_elem_of_lookup in Hin as [i Hi]. eauto. }
  destruct (drive_member reg c n w i m Hs Hn Hw Ho Hm Hr) as (l & w1 & E1 & Hl1 & Hw1 & Ho1 & Hlt).
  destruct (IH w1 Hs Hn Hw1 Ho1) as (l2 & w2 & E2 & Hl2 & ?); [lia|]. exists (l ++ l2), w2.
  split; [by eapply acts_app|]. split; [by apply list.Forall_app|done].
Qed.

(** With all members successful a dispatcher publishes the callback and a worker
    runs it. *)
Lemma drive_callback reg c n w :
  sent reg c n → n ≠ 0 → sound reg w → open w → Forall succeeded (receipts (w_row w)) →
  ∃ l w' s, acts w l = Some w' ∧ Forall own l ∧ CallbackMsg s ∈ w_log w' ∧ s_ID s = c ∧
    d_CallbackState (w_row w') = ChordDelivered ∧ d_TerminalOutcome (w_row w') = CallbackTerminalSuccess.
Proof.
  intros Hs Hn Hw [_ Hfin] HF. pose proof (sf_history _ _ (so_safe _ _ Hw)) as Hh. pose proof (history_inv _ _ Hh) as HI.
  assert (active (d_CallbackState (w_row w))) as Ha.
  { apply (so_complete _ _ Hw); [|done|done]. intros E. pose proof (history_length _ _ _ _ Hh Hs) as Hl. rewrite E in Hl. done. }
  destruct (template_decodes _ _ _ _ Hh Hs) as (t & Ht & [Hid Hca] & Hkey & Hmk & Hmm).
  destruct (build_whole (w_row w) t Ht HF (so_whole _ _ Hw)) as (args & p & _ & Hb & Hp).
  rewrite (ci_payload _ HI Ha) in Hb. injection Hb as Hpay. destruct (codec_decode _ _ Hp) as (s & Hdec & Hsid & _ & Hmeta & Hnone). simpl in *.
  set (T := late (w_row w) (new_member (mkMemberReg 0 "" []))). assert (orNow T T = T) as HT by apply orNow_late.
  destruct (late_callback_claim T (w_row w) (w_row w) (callback_claim (w_row w) "" T)) as (d2 & l & Hc);
    [done|by rewrite Hpay, Hdec|simpl; rewrite HT; unfold T, late; lia..|]. pose proof (claim_callback_update _ _ _ _ _ _ Hc) as Hcu.
  destruct (claim_callback_granted _ _ _ _ _ Hcu) as (_ & Hdef & _ & Hst & _ & _ & _ & _ & _ & _ & _ & _ & Hlp & _).
  assert (meta_get (s_Rest s) DurableChordDeliveryKeyMeta = Some (MString (d_DeliveryKey d2))) as Hk2.
  { rewrite (sd_key _ _ Hdef). apply (Hmeta _ (MString _) key_meta_ascii); [|done]. rewrite Hkey. apply (st_key _ _ _ Hs). }
  destruct (work_callback T d2 s Hk2) as (d3 & Hwork & Hd3 & Ho3);
    [rewrite (sd_key _ _ Hdef), Hkey; apply (st_key _ _ _ Hs)|by apply Hnone; [apply member_meta_ascii|]|done|].
  pose proof (so_jobs _ _ Hw) as Hj.
  eexists [ACrash 0; AClaimCallback 0 T T "" (w_row w); APublish 0 T Accepted; AWork (length (w_log w)) T true None], _, s. split.
  { cbn [acts act]. rewrite bool_decide_true by done. cbn [mbind option_bind acts act set_job w_row w_log w_jobs].
    rewrite list_lookup_insert_eq, Hc by done. unfold callback_claimed. rewrite Hlp, Hpay, Hdec.
    cbn [mbind option_bind acts act set_job set_row w_row w_log w_jobs].
    rewrite list_lookup_insert_eq by (rewrite length_insert; done).
    cbn [mbind option_bind delivered send set_job set_row acts act w_log w_row w_jobs].
    rewrite lookup_app_r, Nat.sub_diag by done. cbn [lookup list_lookup]. rewrite Hwork. reflexivity. }
  cbn [w_log w_row set_row set_job send]. split; [by repeat constructor|].
  split; [apply elem_of_app; right; apply elem_of_cons; by left|]. rewrite Hsid, Hid by (by rewrite Hid). done.
Qed.
End live.
