(* ===== verification/ChordCodec.v ===== *)
(** * Durable chords: a codec

    An encoding of signatures and results that satisfies everything the dispatcher
    relies on in encoding/json, so that its theorems can be run: values are
    numbered, and a number is written as bytes, one bit each. *)

From stdpp Require Import gmap countable.
From S2P Require Import Prelude GoFloat Chord ChordDispatch ChordDispatchLive.
From Stdlib Require Import Strings.Byte SpecFloat.

(** ** Numbering the values *)

#[global] Instance spec_float_eq_dec : EqDecision spec_float.
Proof. solve_decision. Defined.

#[global] Instance spec_float_countable : Countable spec_float.
Proof.
  refine (inj_countable'
    (λ x, match x with
          | S754_zero s => inl (inl s) | S754_infinity s => inl (inr s)
          | S754_nan => inr (inl tt) | S754_finite s m e => inr (inr (s, m, e)) end)
    (λ y, match y with
          | inl (inl s) => S754_zero s | inl (inr s) => S754_infinity s
          | inr (inl _) => S754_nan | inr (inr (s, m, e)) => S754_finite s m e end) _).
  by intros [].
Defined.

#[global] Instance mvalue_eq_dec : EqDecision mvalue.
Proof. solve_decision. Defined.

#[global] Instance mvalue_countable : Countable mvalue.
Proof.
  refine (inj_countable'
    (λ v, match v with
          | MBool b => inl (inl (inl b)) | MString s => inl (inl (inr s))
          | MInt n => inl (inr (inl n)) | MInt64 n => inl (inr (inr n))
          | MFloat x => inr (inl (inl x)) | MNumber n => inr (inl (inr n)) | MOther => inr (inr tt) end)
    (λ y, match y with
          | inl (inl (inl b)) => MBool b | inl (inl (inr s)) => MString s
          | inl (inr (inl n)) => MInt n | inl (inr (inr n)) => MInt64 n
          | inr (inl (inl x)) => MFloat x | inr (inl (inr n)) => MNumber n | inr (inr _) => MOther end) _).
  by intros [].
Defined.

(** A JSON value as a tree: the label says what the node is. *)
Fixpoint json_tree (j : json) : gen_tree (bool + string) :=
  match j with
  | JNull => GenNode 0 []
  | JBool b => GenLeaf (inl b)
  | JNumber s => GenNode 1 [GenLeaf (inr s)]
  | JString s => GenLeaf (inr s)
  | JArray l => GenNode 2 (json_tree <$> l)
  | JObject l => GenNode 3 ((λ '(k, v), GenNode 0 [GenLeaf (inr k); json_tree v]) <$> l)
  end.

Fixpoint tree_json (t : gen_tree (bool + string)) : json :=
  match t with
  | GenLeaf (inl b) => JBool b
  | GenLeaf (inr s) => JString s
  | GenNode 0 _ => JNull
  | GenNode 1 [GenLeaf (inr s)] => JNumber s
  | GenNode 2 l => JArray (tree_json <$> l)
  | GenNode 3 l =>
      JObject ((λ t, match t with GenNode 0 [GenLeaf (inr k); v] => (k, tree_json v) | _ => (EmptyString, JNull) end) <$> l)
  | _ => JNull
  end.

Fixpoint json_size (j : json) : nat :=
  match j with
  | JArray l => S (sum_list (json_size <$> l))
  | JObject l => S (sum_list ((λ '(_, v), json_size v) <$> l))
  | _ => 0
  end.

Lemma tree_json_tree n : ∀ j, json_size j <= n → tree_json (json_tree j) = j.
Proof.
  induction n as [|n IH]; intros [| | | |l|l] Hn; simpl in *; try done; try lia; f_equal.
  - assert (sum_list (json_size <$> l) <= n) as Hl by lia. clear Hn.
    induction l as [|j l IHl]; [done|]. rewrite !fmap_cons in *. cbn [sum_list sum_list_with id] in Hl. f_equal; [apply IH; lia|apply IHl; lia].
  - assert (sum_list ((λ '(_, v), json_size v) <$> l) <= n) as Hl by lia. clear Hn.
    induction l as [|[k v] l IHl]; [done|]. rewrite !fmap_cons in *. cbn [sum_list sum_list_with id] in Hl.
    f_equal; [f_equal; apply IH; lia|apply IHl; lia].
Qed.

#[global] Instance json_eq_dec : EqDecision json.
Proof.
  intros x y. destruct (decide (json_tree x = json_tree y)) as [E|E]; [left|right; congruence].
  by rewrite <- (tree_json_tree _ x (le_n _)), <- (tree_json_tree _ y (le_n _)), E.
Defined.

#[global] Instance json_countable : Countable json.
Proof. refine (inj_countable' json_tree tree_json _). intros j. by apply (tree_json_tree (json_size j)). Defined.

#[global] Instance Arg_eq_dec : EqDecision Arg.
Proof. solve_decision. Defined.
#[global] Instance Arg_countable : Countable Arg.
Proof.
  refine (inj_countable' (λ a, (a_Type a, a_Key a, a_Value a)) (λ '(t, k, v), mkArg t k v) _). by intros [].
Defined.

#[global] Instance Result_eq_dec : EqDecision Result.
Proof. solve_decision. Defined.
#[global] Instance Result_countable : Countable Result.
Proof. refine (inj_countable' (λ r, (r_Type r, r_Value r)) (λ '(t, v), mkResult t v) _). by intros []. Defined.

(** ** Numbers as bytes *)

Fixpoint pos_bytes (p : positive) : bytes :=
  match p with xH => [] | xO p => x00 :: pos_bytes p | xI p => x01 :: pos_bytes p end.
Fixpoint bytes_pos (b : bytes) : positive :=
  match b with [] => xH | x00 :: b => xO (bytes_pos b) | _ :: b => xI (bytes_pos b) end.

Lemma bytes_pos_bytes p : bytes_pos (pos_bytes p) = p.
Proof. induction p as [p IH|p IH|]; simpl; by rewrite ?IH. Qed.

(** ** The codec *)

(** The remainder of a signature is the fields that the chord uses. *)
#[global] Instance sig_fields_eq_dec : EqDecision sig_fields.
Proof. solve_decision. Defined.
#[global] Instance sig_fields_countable : Countable sig_fields.
Proof.
  refine (inj_countable' (λ f, (f_GroupID f, f_GroupTaskCount f, f_Router f, f_CallbackChord f, f_Meta f))
    (λ '(g, n, r, c, m), mkFields g n r c m) _). by intros [].
Defined.

Definition json_fields (f : sig_fields) : sig_fields :=
  mkFields (f_GroupID f) (f_GroupTaskCount f) (f_Router f) (f_CallbackChord f)
    ((λ m : gmap string mvalue, json_image <$> m) <$> f_Meta f).

#[global] Instance numbered_json : ChordJSON := {|
  rest := sig_fields;
  unmarshal_signature b := (λ '(id, args, f), mkSignature id args f) <$> decode (bytes_pos b);
  marshal_signature s := Some (pos_bytes (encode (s_ID s, s_Args s, json_fields (s_Rest s))));
  marshal_receipt r :=
    (if bool_decide (rc_Outcome r = MemberTerminalFailure) then x00 else x01) :: pos_bytes (encode (rc_TaskID r, rc_Results r));
  marshal_results rs := Some (pos_bytes (encode rs));
  unmarshal_results b := decode (bytes_pos b);
  marshal_definition reg := Some [];
  sha256 b := b;
|}.

#[global] Instance numbered_meta : ChordMeta := {|
  fields (r : @rest numbered_json) := (r : sig_fields);
  with_fields _ f := f;
|}.

#[global] Instance numbered_codec : ChordCodec.
Proof.
  split; simpl; try done.
  - intros s p [= <-]. rewrite bytes_pos_bytes, decode_encode. simpl. eexists. split; [done|]. simpl.
    split; [done|]. split; [done|]. unfold meta_get. simpl. destruct (f_Meta (s_Rest s)) as [m|]; simpl; [|done].
    split; [intros k v _ _ Hk|intros k _ Hk]; simpl in *; by rewrite lookup_fmap, Hk.
  - eexists. split; [done|]. reflexivity.
  - intros rs p rs' [= <-]. rewrite bytes_pos_bytes, decode_encode. by intros [= <-].
Qed.
