(* ===== verification/ChordDispatchProps.v ===== *)
(** * Durable chords: the properties of dispatchers and workers together

    Whatever the dispatchers, the crashes, the broker and the workers do, the
    callback is published only when every member was published and has succeeded,
    always with the same arguments; and a chord in which nothing failed can always
    be completed. *)

From stdpp Require Import gmap.
From S2P Require Import Prelude Chord ChordStore ChordInv ChordThms ChordDispatch ChordDispatchThms ChordDispatchLive ChordCodec.
From Stdlib Require Import Strings.Byte.

(** C4: let a chord be registered with its members numbered in order, as sending
    numbers them.  In every interleaving of dispatchers, crashes, uncertain
    publications, workers and changes of the shared tables, every member signature the broker has is the one
    that was registered for its ordinal; a member has a successful receipt only if
    the broker had a signature with its task identifier; and if the broker has the
    callback, every member has succeeded and the callback is the template with the
    results of all members in member order, so that all its copies are equal. *)
Theorem chord_dispatch_safe `{HJ : ChordJSON} `{HM : !ChordMeta} reg owner now n tables l w :
  well_numbered reg → acts (registered reg owner now n tables) l = Some w →
  (∀ i s, MemberMsg i s ∈ w_log w →
     ∃ mr, rg_Members reg !! Z.to_nat i = Some mr ∧ mr_Ordinal mr = i ∧ unmarshal_signature (mr_Payload mr) = Some s) ∧
  (∀ i m r, d_Members (w_row w) !! i = Some m → m_Receipt m = Some r → rc_Outcome r ≠ MemberTerminalFailure →
     ∃ x, x ∈ w_log w ∧ s_ID (msg_sig x) = m_TaskID m) ∧
  (∀ s, CallbackMsg s ∈ w_log w →
     Forall succeeded (receipts (w_row w)) ∧
     ∃ t args p, unmarshal_signature (rg_Callback reg) = Some t ∧ member_args (d_Members (w_row w)) = Some args ∧
       marshal_signature (mkSignature (s_ID t) (s_Args t ++ args) (s_Rest t)) = Some p ∧ unmarshal_signature p = Some s) ∧
  (∀ s s', CallbackMsg s ∈ w_log w → CallbackMsg s' ∈ w_log w → s' = s).
Proof.
  intros Hn H. destruct (acts_safe reg l _ _ (registered_safe reg owner now n tables) Hn H) as [Hh Hl _ Hm].
  rewrite list.Forall_forall in Hl.
  assert (∀ s, CallbackMsg s ∈ w_log w → callback_src (w_row w) s) as Hcb by (intros s Hs; exact (Hl _ Hs)).
  split_and!.
  - intros i s Hs. exact (Hl _ Hs).
  - intros i m r Hi Hr Hf. by eapply Hm.
  - intros s Hs. destruct (Hcb s Hs) as [HF (p & Hb & Hp)]. split; [done|]. unfold buildChordCallbackPayload in Hb.
    destruct (history_evolves _ _ Hh) as (o & t0 & HE). rewrite (sd_template _ _ (ev_def _ _ HE)) in Hb. simpl in Hb.
    destruct (unmarshal_signature (rg_Callback reg)) as [t|]; [|done].
    destruct (member_args (d_Members (w_row w))) as [args|]; [|done]. cbn [mbind option_bind] in Hb.
    destruct (marshal_signature _) as [p'|] eqn:Ep; [|done]. injection Hb as <-. by exists t, args, p'.
  - intros s s' Hs Hs'. destruct (Hcb s Hs) as [_ (p & Hb & Hp)]. destruct (Hcb s' Hs') as [_ (p' & Hb' & Hp')]. congruence.
Qed.

(** C14: a chord is never stuck.  A group has been registered for sending: fewer than
    2^53 members, identifiers in ASCII, a callback that is not marked as a member.
    Whatever the dispatchers, their crashes, the broker and the workers have done so
    far, as long as the workers' results contain no nil, no other user of the backend
    keeps a group or a status under the chord's identifiers that is not the chord's
    (ReconcileChord answers ErrChordRegistrationConflict to those for as long as they
    are there), no member failed and the callback is not finished: there is a way on,
    in which the other users of the tables have no part, to a callback that the
    broker has and a worker has run, recorded as delivered with success.  Nothing
    that was set up in part, claimed, half published or lost blocks it. *)
Theorem chord_never_stuck `{HJ : ChordJSON} `{HM : !ChordMeta} `{HC : !ChordCodec}
    hook queue expire groupID name tasks callback reg owner now n t l w :
  durable_registration hook queue expire groupID name tasks callback = inr reg →
  tasks ≠ [] → (Z.of_nat (length tasks) < 2 ^ 53)%Z → ascii_ids hook groupID tasks callback →
  meta_get (s_Rest (hook callback)) DurableChordMemberMeta = None →
  0 < n → compatible reg t → Forall (clean reg) l → acts (registered reg owner now n t) l = Some w →
  ¬ Exists has_failed (receipts (w_row w)) → ¬ finished (d_CallbackState (w_row w)) →
  ∃ l' w' s, acts w l' = Some w' ∧ Forall own l' ∧ CallbackMsg s ∈ w_log w' ∧ s_ID s = s_ID (hook callback) ∧
    d_CallbackState (w_row w') = ChordDelivered ∧ d_TerminalOutcome (w_row w') = CallbackTerminalSuccess.
Proof.
  intros Hreg Hne Hlen Hids Hm Hn Ht Hc H Hf Hfin. pose proof (durable_registration_ok _ _ _ _ _ _ _ _ Hreg Hids Hm) as Hs.
  pose proof (acts_sound reg _ _ l _ _ (registered_sound reg owner now n t Hn Ht) Hs Hc H) as Hw.
  destruct (drive_all reg _ _ _ w Hs Hlen Hw (conj Hf Hfin) (le_n _)) as (l1 & w1 & E1 & Hl1 & Hw1 & Ho1 & HF).
  destruct (drive_callback reg _ _ w1 Hs) as (l2 & w2 & s & E2 & Hl2 & ?); [by destruct tasks|done|done|done|].
  exists (l1 ++ l2), w2, s. split; [by eapply acts_app|]. split; [by apply list.Forall_app|done].
Qed.

(** A status of another group under a member's identifier holds the set-up up: the
    dispatcher finds the conflict and changes nothing. *)
Theorem chord_conflict_blocks `{HJ : ChordJSON} `{HM : !ChordMeta} w j e :
  w_jobs w !! j = Some JIdle → setup_chord (w_row w) (w_tables w) = inl e → act w (AReconcile j) = Some w.
Proof. intros Hj He. simpl. rewrite Hj, He. by destruct (negb _). Qed.

(** ** Witnesses *)

Definition sample_fields : sig_fields := mkFields "-" 0 "" false None.
Definition sample_task (id : string) : Signature rest := mkSignature id [] sample_fields.
Definition sample_tasks : list (Signature rest) := [sample_task "a"; sample_task "b"].

(** A status that a former set-up left behind, and rows of other groups. *)
Definition sample_tables : tables :=
  mkTables {[ "others" := ["x"] ]} {[ "a" := "group"; "x" := "others" ]}.

Lemma sample_sent :
  ∃ reg, durable_registration (λ s, s) "queue" 60 "group" "name" sample_tasks (sample_task "callback") = inr reg ∧
    rg_GroupID reg = "group" ∧ mr_TaskID <$> rg_Members reg = ["a"; "b"].
Proof. eexists. split; [reflexivity|]. split; reflexivity. Qed.

Lemma sample_ids : ascii_ids (λ s, s) "group" sample_tasks (sample_task "callback").
Proof.
  unfold ascii_ids. split; [ascii_const|]. split; [|ascii_const].
  repeat (apply list.Forall_cons; split; [ascii_const|]). by apply list.Forall_nil.
Qed.

Lemma sample_compatible reg :
  rg_GroupID reg = "group" → mr_TaskID <$> rg_Members reg = ["a"; "b"] → compatible reg sample_tables.
Proof.
  intros Hg Hm. split; rewrite Hg.
  - intros ids. vm_compute. discriminate.
  - intros mr g Hin. assert (mr_TaskID mr ∈ ["a"; "b"]) as Hid by (rewrite <- Hm; by apply list_elem_of_fmap_2).
    rewrite !elem_of_cons in Hid. destruct Hid as [->|[->|Hid]]; [| |by apply not_elem_of_nil in Hid].
    + intros [= <-]. done.
    + vm_compute. discriminate.
Qed.

Lemma sample_open reg :
  sent reg "callback" 2 → open (registered reg "owner" 1 1 sample_tables).
Proof.
  intros _. split; [|intros [?|?]; discriminate]. intros HE. apply list.Exists_exists in HE as (o & Ho & r & -> & _).
  apply list_elem_of_fmap in Ho as (m & Hm & Hin). apply list_elem_of_fmap in Hin as (mr & -> & _). discriminate.
Qed.

(** A run that publishes and completes every member and then the callback. *)
Lemma driven_run reg :
  sent reg "callback" 2 → compatible reg sample_tables →
  ∃ l w s, acts (registered reg "owner" 1 1 sample_tables) l = Some w ∧ CallbackMsg s ∈ w_log w.
Proof.
  intros Hs Ht.
  destruct (drive_all reg _ _ _ _ Hs eq_refl (registered_sound reg "owner" 1 1 _ (le_n 1) Ht) (sample_open reg Hs) (le_n _))
    as (l1 & w1 & E1 & _ & Hw1 & Ho1 & HF).
  destruct (drive_callback reg _ _ w1 Hs) as (l2 & w2 & s & E2 & _ & Hin & _); [done|done|done|done|].
  exists (l1 ++ l2), w2, s. split; [by eapply acts_app|done].
Qed.

Lemma chord_dispatch_safe_witness :
  ∃ reg l w s,
    durable_registration (λ s, s) "queue" 60 "group" "name" sample_tasks (sample_task "callback") = inr reg ∧
    acts (registered reg "owner" 1 1 sample_tables) l = Some w ∧ CallbackMsg s ∈ w_log w ∧ Forall succeeded (receipts (w_row w)).
Proof.
  destruct sample_sent as (reg & E & Hg & Hm). pose proof (durable_registration_ok _ _ _ _ _ _ _ _ E sample_ids eq_refl) as Hs.
  destruct (driven_run reg Hs (sample_compatible reg Hg Hm)) as (l & w & s & Hw & Hin). exists reg, l, w, s.
  split; [exact E|]. split; [exact Hw|]. split; [exact Hin|].
  destruct (chord_dispatch_safe reg "owner" 1 1 sample_tables l w (sent_numbered _ _ _ Hs) Hw) as (_ & _ & H & _).
  exact (proj1 (H s Hin)).
Defined.

Lemma chord_never_stuck_witness :
  ∃ reg l' w',
    durable_registration (λ s, s) "queue" 60 "group" "name" sample_tasks (sample_task "callback") = inr reg ∧
    acts (registered reg "owner" 1 1 sample_tables) l' = Some w' ∧ d_CallbackState (w_row w') = ChordDelivered.
Proof.
  destruct sample_sent as (reg & E & Hg & Hm). pose proof (durable_registration_ok _ _ _ _ _ _ _ _ E sample_ids eq_refl) as Hs.
  destruct (chord_never_stuck (λ s, s) "queue" 60 "group" "name" sample_tasks (sample_task "callback")
    reg "owner" 1 1 sample_tables [] (registered reg "owner" 1 1 sample_tables)) as (l' & w' & s & H & _ & _ & _ & Hd & _).
  - exact E.
  - discriminate.
  - reflexivity.
  - exact sample_ids.
  - reflexivity.
  - lia.
  - exact (sample_compatible reg Hg Hm).
  - constructor.
  - reflexivity.
  - exact (proj1 (sample_open reg Hs)).
  - exact (proj2 (sample_open reg Hs)).
  - exists reg, l', w'. split; [exact E|]. split; [exact H|exact Hd].
Defined.
