(* ===== verification/Base64.v ===== *)
(** * encoding/base64: the unpadded URL alphabet

    [RawURLEncoding] with its [EncodeToString] and its non-strict
    [DecodeString], which skips carriage returns and line feeds and ignores the
    unused bits of a last, partial group.  The cursors of the Redis chord store
    are encoded with it. *)

From S2P Require Import Prelude.
From Stdlib Require Import Strings.Ascii ZifyNat.

(** ** The alphabet *)

Definition sextet_char (n : nat) : ascii :=
  ascii_of_nat (if bool_decide (n < 26) then 65 + n
                else if bool_decide (n < 52) then 71 + n
                else if bool_decide (n < 62) then n - 4
                else if bool_decide (n = 62) then 45 else 95).

Definition char_sextet (c : ascii) : option nat :=
  let n := nat_of_ascii c in
  if bool_decide (65 <= n <= 90) then Some (n - 65)
  else if bool_decide (97 <= n <= 122) then Some (n - 71)
  else if bool_decide (48 <= n <= 57) then Some (n + 4)
  else if bool_decide (n = 45) then Some 62
  else if bool_decide (n = 95) then Some 63 else None.

(** ** Groups of three bytes *)

Fixpoint sextets (l : list nat) : list nat :=
  match l with
  | [] => []
  | [a] => [a / 4; a mod 4 * 16]
  | [a; b] => [a / 4; a mod 4 * 16 + b / 16; b mod 16 * 4]
  | a :: b :: c :: l' =>
      a / 4 :: a mod 4 * 16 + b / 16 :: b mod 16 * 4 + c / 64 :: c mod 64 :: sextets l'
  end.

Fixpoint unsextets (l : list nat) : option (list nat) :=
  match l with
  | [] => Some []
  | [_] => None
  | [x; y] => Some [x * 4 + y / 16]
  | [x; y; z] => Some [x * 4 + y / 16; y mod 16 * 16 + z / 4]
  | x :: y :: z :: w :: l' =>
      rest ← unsextets l';
      Some (x * 4 + y / 16 :: y mod 16 * 16 + z / 4 :: z mod 4 * 64 + w :: rest)
  end.

(** ** Texts *)

Definition codes (s : string) : list nat := nat_of_ascii <$> String.list_ascii_of_string s.
Definition of_codes (l : list nat) : string := String.string_of_list_ascii (ascii_of_nat <$> l).

Definition EncodeToString (s : string) : string :=
  String.string_of_list_ascii (sextet_char <$> sextets (codes s)).

Definition is_newline (c : ascii) : bool := bool_decide (nat_of_ascii c = 10 ∨ nat_of_ascii c = 13).

Definition DecodeString (s : string) : option string :=
  of_codes <$> (mapM char_sextet (filter (λ c, is_newline c = false) (String.list_ascii_of_string s)) ≫= unsextets).

(** ** The round trip *)

(** Induction by groups of three. *)
Lemma group_ind {A} (P : list A → Prop) :
  P [] → (∀ a, P [a]) → (∀ a b, P [a; b]) → (∀ a b c l, P l → P (a :: b :: c :: l)) → ∀ l, P l.
Proof.
  intros H0 H1 H2 H3. enough (∀ n l, length l < n → P l) by (intros l; eauto).
  induction n as [|n IH]; intros [|a [|b [|c l]]] Hl; cbn in Hl; try lia; auto.
  apply H3, IH. lia.
Qed.

Ltac div_lia := cbv beta in *; zify; Z.to_euclidean_division_equations; lia.

Lemma sextets_range l : Forall (λ n, n < 256) l → Forall (λ n, n < 64) (sextets l).
Proof.
  induction l as [|a|a b|a b c l IH] using group_ind; intros Hl; cbn [sextets]; [done|..];
    repeat match goal with H : Forall _ (_ :: _) |- _ => apply list.Forall_cons in H as [? ?] end;
    rewrite ?list.Forall_cons, ?list.Forall_nil; split_and?; auto; div_lia.
Qed.

Lemma unsextets_sextets l : Forall (λ n, n < 256) l → unsextets (sextets l) = Some l.
Proof.
  induction l as [|a|a b|a b c l IH] using group_ind; intros Hl; cbn [sextets unsextets]; [done|..];
    repeat match goal with H : Forall _ (_ :: _) |- _ => apply list.Forall_cons in H as [? ?] end;
    [..|rewrite IH by done; cbn [mbind option_bind]]; repeat f_equal; div_lia.
Qed.

Lemma char_sextet_char n : n < 64 → char_sextet (sextet_char n) = Some n ∧ is_newline (sextet_char n) = false.
Proof. intros Hn. do 64 (destruct n as [|n]; [by vm_compute|]). lia. Qed.

Lemma decode_sextets l : Forall (λ n, n < 64) l →
  mapM char_sextet (filter (λ c, is_newline c = false) (sextet_char <$> l)) = Some l.
Proof.
  induction 1 as [|n l Hn Hl IH]; [done|]. destruct (char_sextet_char n Hn) as [Hc Hnl].
  rewrite fmap_cons, filter_cons, decide_True by done. cbn [mapM]. by rewrite Hc, IH.
Qed.

Lemma codes_range s : Forall (λ n, n < 256) (codes s).
Proof. apply Forall_fmap, Forall_true. intros c. apply nat_ascii_bounded. Qed.

Lemma of_codes_codes s : of_codes (codes s) = s.
Proof.
  unfold of_codes, codes. rewrite <- list_fmap_compose.
  rewrite (list_fmap_ext _ id) by (intros; apply ascii_nat_embedding).
  rewrite list_fmap_id. apply String.string_of_list_ascii_of_string.
Qed.

Lemma Decode_Encode s : DecodeString (EncodeToString s) = Some s.
Proof.
  unfold DecodeString, EncodeToString. rewrite String.list_ascii_of_string_of_list_ascii.
  pose proof (codes_range s) as Hr. rewrite decode_sextets by by apply sextets_range.
  cbn [mbind option_bind]. rewrite unsextets_sextets by done. cbn [fmap option_fmap option_map].
  by rewrite of_codes_codes.
Qed.
