(* ===== verification/ChordRedis.v ===== *)
(** * Durable chords: the Redis store of distributed/backend/backend_redis/durable_chord.go

    A record per group under its own key, and three shared structures that name
    the records by delivery key: the index that scans walk, the index of
    terminal chords that the cleanup walks, and a hash that fences both with a
    state per delivery key.  A record and its index entries live under different
    keys, so no operation is atomic: every command or script that reaches Redis
    is one step, and a method of the backend is a program over these steps whose
    position is a [pc].  [run] executes the command at a position.

    The records are kept decoded ([Garbage] is a body that does not decode).
    [WATCH] is modelled by a counter of the writes of a record key.  A client
    that crashes, that is cancelled or that fails on a network error does not
    go on from its position; the two commands after whose failure the source
    goes on with another command take the failure as an argument.  The keys of
    the member and callback statuses are not part of the state. *)

From S2P Require Import Prelude GoText Base64 Chord ChordStore.
From Stdlib Require Import Strings.Ascii.
From stdpp Require Import sorting.
From coqutil Require Import Datatypes.RecordSetters.
Import DoubleBraceUpdate.

(** ** The data in Redis *)

Inductive body :=
  | Body (d : ChordDelivery)
  | Garbage.

(** The values ["pending:" + owner], ["committed:" + owner] and
    ["deleting:" + token] of the hash; a missing field reads as [""]. *)
Inductive index_state :=
  | Pending (owner : string)
  | Committed (owner : string)
  | Deleting (token : string).

#[global] Instance index_state_eq_dec : EqDecision index_state.
Proof. solve_decision. Defined.

Record redis := mkRedis {
  records : gmap string body;
  revs : gmap string nat;
  deliveries : gset string;
  terminals : gmap string Z;
  states : gmap string index_state;
}.

Definition revision (st : redis) (key : string) : nat := default 0 (revs st !! key).
Definition bump (key : string) (st : redis) : redis := st {{ revs := <[key := S (revision st key)]> (revs st) }}.

Definition set_record (key : string) (b : body) (st : redis) : redis :=
  bump key (st {{ records := <[key := b]> (records st) }}).
Definition del_record (key : string) (st : redis) : redis :=
  bump key (st {{ records := delete key (records st) }}).
Definition set_state (k : string) (s : index_state) (st : redis) : redis :=
  st {{ states := <[k := s]> (states st) }}.

(** [ZADD] and [ZREM] on the two indexes. *)
Definition add_delivery (k : string) (st : redis) : redis := st {{ deliveries := {[k]} ∪ deliveries st }}.
Definition add_terminal (k : string) (score : Z) (st : redis) : redis :=
  st {{ terminals := <[k := score]> (terminals st) }}.
Definition rem_terminal (k : string) (st : redis) : redis := st {{ terminals := delete k (terminals st) }}.

(** ** The scripts *)

Definition prepareChordIndex (k owner : string) (st : redis) : option index_state * redis :=
  match states st !! k with
  | Some (Deleting token) => (Some (Deleting token), st)
  | current =>
      let st := add_delivery k st in
      match current with
      | Some (Committed _) => (None, st)
      | _ => (None, set_state k (Pending owner) st)
      end
  end.

Definition commitChordIndex (k expectedOwner recordOwner : string) (st : redis) : redis :=
  let st := add_delivery k st in
  match states st !! k with
  | None => set_state k (Committed recordOwner) st
  | Some current =>
      if bool_decide (current = Pending expectedOwner) then set_state k (Committed recordOwner) st else st
  end.

Definition forceCommitChordIndex (k recordOwner : string) (st : redis) : redis :=
  set_state k (Committed recordOwner) (add_delivery k st).

Definition ensureChordIndex (k recordOwner : string) (st : redis) : redis :=
  let st := add_delivery k st in
  match states st !! k with
  | None => set_state k (Committed recordOwner) st
  | Some _ => st
  end.

Definition chordIndexState (k : string) (st : redis) : option index_state := states st !! k.

Definition removeChordIndexes (k : string) (st : redis) : redis :=
  st {{ deliveries := deliveries st ∖ {[k]}; terminals := delete k (terminals st);
        states := delete k (states st) }}.

Definition removeChordIndexesIfState (k : string) (expected : option index_state) (st : redis) : redis :=
  if bool_decide (states st !! k = expected) then removeChordIndexes k st else st.

Definition beginChordDelete (k recordOwner deleteToken : string) (st : redis) : bool * redis :=
  match states st !! k with
  | Some (Pending _) | Some (Deleting _) => (false, st)
  | Some (Committed owner) =>
      if String.eqb owner recordOwner then (true, set_state k (Deleting deleteToken) st) else (false, st)
  | None => (true, set_state k (Deleting deleteToken) st)
  end.

Definition restoreChordIndex (k deleteToken recordOwner : string) (st : redis) : redis :=
  if bool_decide (states st !! k = Some (Deleting deleteToken))
  then set_state k (Committed recordOwner) st else st.

Definition deleteChordRecordIfOwner (key recordOwner : string) (st : redis) : Z * redis :=
  match records st !! key with
  | Some (Body record) =>
      if String.eqb (d_RegistrationOwner record) recordOwner then (1%Z, del_record key st) else (0%Z, st)
  | _ => (0%Z, st)
  end.

(** ** Keys *)

Definition redisChordKeyPrefix : string := "gkit:chord:".

Definition redisChordRecordKey (deliveryKey : string) : option string :=
  match Split deliveryKey ":"%char with
  | [a; b; c; _] =>
      if String.eqb a "chord" && String.eqb b "v1" && negb (String.eqb c "")
      then Some (redisChordKeyPrefix +:+ "{" +:+ c +:+ "}:record") else None
  | _ => None
  end.

Definition validateRedisUserKey (key : string) : bool := negb (HasPrefix key redisChordKeyPrefix).

Definition redisChordCursorPrefix : string := "chord-index-v1.".

Definition encodeRedisChordCursor (lastKey : string) : string :=
  redisChordCursorPrefix +:+ EncodeToString lastKey.

(** The cursor without the prefix is [strings.TrimPrefix]. *)
Definition decodeRedisChordCursor (cursor : string) : option string :=
  if String.eqb cursor "" then Some ""
  else if negb (HasPrefix cursor redisChordCursorPrefix) then None
  else
    lastKey ← DecodeString (str_drop (String.length redisChordCursorPrefix) cursor);
    _ ← redisChordRecordKey lastKey;
    Some lastKey.

(** ** Records *)

Inductive redis_error :=
  | EChord (e : chord_error)
  | EInvalidKey
  | EInvalidRecord
  | ENil
  | EBlocked
  | EInvalidCursor
  | ENetwork
  | ETxFailed
  | EPanic.

Definition loadChordDelivery (key : string) (st : redis) : redis_error + ChordDelivery :=
  match records st !! key with
  | None => inl ENil
  | Some Garbage => inl EInvalidRecord
  | Some (Body d) => inr d
  end.

Definition validRedisChordRecord (delivery : ChordDelivery) (recordKey : string) : bool :=
  if String.eqb (d_DeliveryKey delivery) "" || String.eqb (d_GroupID delivery) "" ||
     String.eqb (d_RegistrationOwner delivery) "" || (d_RegistrationVersion delivery <=? 0)%Z
  then false
  else bool_decide (redisChordRecordKey (d_DeliveryKey delivery) = Some recordKey).

(** ** Answers *)

Record ChordDeliveryPage := mkPage {
  pg_Deliveries : list ChordDelivery;
  pg_NextCursor : string;
}.

Inductive answer :=
  | AError (e : redis_error)
  | ANone
  | ARef (ref : ChordRegistrationRef)
  | AMemberLease (lease : option ChordMemberLease)
  | ACallbackLease (lease : option ChordCallbackLease)
  | APage (page : ChordDeliveryPage)
  | ACount (removed : Z).

(** ** Updates *)

(** What the function given to [updateChordDelivery] makes of a record: an
    error, or the record it leaves behind, whether it is to be written, and the
    results it leaves in the variables of the method. *)
Inductive mutation :=
  | MFail (e : redis_error)
  | MDone (delivery : ChordDelivery) (changed : bool) (a : answer).

Definition claim_mutation {A} (ans : option A → answer) (r : ChordDelivery * (chord_error + option A)) : mutation :=
  match r with
  | (_, inl e) => MFail (EChord e)
  | (d, inr claimed) => MDone d (match claimed with Some _ => true | None => false end) (ans claimed)
  end.
Definition outcome_mutation (r : ChordDelivery * option chord_error) : mutation :=
  match r with
  | (_, Some e) => MFail (EChord e)
  | (d, None) => MDone d true ANone
  end.
Definition terminal_mutation (before : Z) (r : ChordDelivery * option chord_error) : mutation :=
  match r with
  | (_, Some e) => MFail (EChord e)
  | (d, None) => MDone d (negb (d_Version d =? before)%Z) ANone
  end.

(** The functions that the seven methods pass, by the operation they stand for. *)
Definition mutate `{ChordJSON} (op : chord_op) (delivery : ChordDelivery) : mutation :=
  match op with
  | OpReady wall => MDone (PrepareChordMembers delivery wall) true ANone
  | OpClaimMember wall claim => claim_mutation AMemberLease (ClaimChordMember wall delivery claim)
  | OpMemberOutcome wall lease outcome =>
      outcome_mutation (ApplyChordMemberPublishOutcome wall delivery lease outcome)
  | OpMemberTerminal wall ordinal taskID outcome results =>
      match ApplyChordMemberTerminal wall delivery ordinal taskID outcome results wall with
      | None => MFail EPanic
      | Some r => terminal_mutation (d_Version delivery) r
      end
  | OpClaimCallback wall claim => claim_mutation ACallbackLease (ClaimChordCallback wall delivery claim)
  | OpCallbackOutcome wall lease outcome =>
      outcome_mutation (ApplyChordCallbackPublishOutcome wall delivery lease outcome)
  | OpCallbackTerminal wall outcome =>
      terminal_mutation (d_Version delivery) (ApplyChordCallbackTerminal wall delivery outcome wall)
  end.

(** ** Positions *)

(** What a running registration holds. *)
Record registration_job := mkJob {
  j_registration : ChordRegistration;
  j_delivery : ChordDelivery;
  j_key : string;
}.

(** The loop of a scan: the page so far and the candidates left. *)
Record scan_frame := mkScan {
  sf_limit : Z;
  sf_count : Z;
  sf_todo : list string;
  sf_page : list ChordDelivery;
  sf_last : string;
}.

(** The loop of a cleanup. *)
Record clean_frame := mkClean {
  cf_now : time;
  cf_todo : list string;
  cf_removed : Z;
}.

(** The command a client is about to send, with the local variables that are
    still used. *)
Inductive pc :=
  | Done (a : answer)
  (* RegisterChord *)
  | RegPrepare (j : registration_job) (attempt : nat)
  | RegBlocked (j : registration_job) (attempt : nat) (state : index_state)
  | RegClear (j : registration_job) (attempt : nat) (state : index_state)
  | RegCreate (j : registration_job)
  | RegForce (j : registration_job)
  | RegExisting (j : registration_job)
  | RegCommit (j : registration_job) (existing : ChordDelivery)
  | RegEnsure (j : registration_job) (existing : ChordDelivery)
  | RegDrop (j : registration_job) (existing : ChordDelivery)
  | RegReject (j : registration_job)
  (* AbortRegistration *)
  | AbWatch (key : string) (ref : ChordRegistrationRef) (attempt : nat)
  | AbLoad (key : string) (ref : ChordRegistrationRef) (attempt : nat) (token : string) (rv : nat)
  | AbBegin (key : string) (ref : ChordRegistrationRef) (attempt : nat) (token : string) (rv : nat)
      (delivery : ChordDelivery)
  | AbExec (key : string) (ref : ChordRegistrationRef) (attempt : nat) (token : string) (rv : nat)
      (delivery : ChordDelivery)
  | AbRestore (key : string) (ref : ChordRegistrationRef) (attempt : nat) (token : string)
      (delivery : ChordDelivery) (conflict : bool)
  | AbRestoreAgain (key : string) (ref : ChordRegistrationRef) (attempt : nat) (token : string)
  | AbRemove (ref : ChordRegistrationRef) (state : index_state)
  (* updateChordDelivery *)
  | UpWatch (key : string) (op : chord_op) (attempt : nat)
  | UpLoad (key : string) (op : chord_op) (attempt : nat) (rv : nat)
  | UpExec (key : string) (op : chord_op) (attempt : nat) (rv : nat) (delivery : ChordDelivery) (a : answer)
  | UpIndex (deliveryKey : string) (expireAt : time) (a : answer)
  (* ClaimCallbackPublication and ReconcileChord before they update *)
  | CbLoad (key : string) (wall : time) (claim : ChordCallbackClaim)
  | RcLoad (key : string) (wall : time)
  (* ScanChordDeliveries *)
  | ScanList (limit : Z) (lastKey : string)
  | ScanMalformed (f : scan_frame) (deliveryKey : string)
  | ScanGet (f : scan_frame) (deliveryKey key : string)
  | ScanState (f : scan_frame) (deliveryKey key : string)
  | ScanRecheck (f : scan_frame) (deliveryKey key : string) (state : option index_state)
  | ScanRemove (f : scan_frame) (deliveryKey : string) (state : option index_state)
  | ScanEnsure (f : scan_frame) (deliveryKey : string) (delivery : ChordDelivery)
  | ScanForeign (f : scan_frame) (deliveryKey : string)
  | ScanForeignRemove (f : scan_frame) (deliveryKey : string) (state : option index_state)
  (* CleanupTerminalChordDeliveries *)
  | CleanList (now : time) (limit : Z)
  | CleanMalformed (f : clean_frame) (deliveryKey : string)
  | CleanGet (f : clean_frame) (deliveryKey key : string)
  | CleanState (f : clean_frame) (deliveryKey : string)
  | CleanRemove (f : clean_frame) (deliveryKey : string) (state : option index_state)
  | CleanUnindex (f : clean_frame) (deliveryKey : string)
  | CleanReindex (f : clean_frame) (deliveryKey : string) (expireAt : time)
  | CleanBegin (f : clean_frame) (deliveryKey key : string) (delivery : ChordDelivery) (token : string)
  | CleanDelete (f : clean_frame) (deliveryKey key : string) (delivery : ChordDelivery) (token : string)
  | CleanRestore (f : clean_frame) (deliveryKey : string) (delivery : ChordDelivery) (token : string)
  | CleanDrop (f : clean_frame) (deliveryKey token : string) (deleted : Z).

(** The answer of a command that may fail: it came, the command ran and the
    answer was lost, or the command did not run. *)
Inductive reply := Replied | Lost | Down.

(** ** The methods up to their first command *)

Section methods.
Context `{ChordJSON}.

Fixpoint validate_members (members : list (string * bytes)) : option redis_error :=
  match members with
  | [] => None
  | (taskID, payload) :: members =>
      if negb (validateRedisUserKey taskID) then Some (EChord ErrChordInvalidInput)
      else match unmarshal_signature payload with
           | None => Some (EChord ErrChordInvalidInput)
           | Some signature =>
               if negb (String.eqb (s_ID signature) taskID) then Some (EChord ErrChordInvalidInput)
               else if negb (validateRedisUserKey (s_ID signature)) then Some (EChord ErrChordInvalidInput)
               else validate_members members
           end
  end.

Definition validateRedisChordRegistration (registration : ChordRegistration) : option redis_error :=
  if negb (validateRedisUserKey (rg_GroupID registration)) then Some (EChord ErrChordInvalidInput)
  else match validate_members ((λ m, (mr_TaskID m, mr_Payload m)) <$> rg_Members registration) with
       | Some e => Some e
       | None =>
           match unmarshal_signature (rg_Callback registration) with
           | None => Some (EChord ErrChordInvalidInput)
           | Some callback =>
               if negb (validateRedisUserKey (s_ID callback)) then Some (EChord ErrChordInvalidInput) else None
           end
       end.

Definition validateRedisChordDeliverySetup (delivery : ChordDelivery) : option redis_error :=
  if negb (validateRedisUserKey (d_GroupID delivery)) then Some (EChord ErrChordInvalidInput)
  else validate_members ((λ m, (m_TaskID m, m_Payload m)) <$> d_Members delivery).

(** [owner] is what [NewChordOwner] drew. *)
Definition RegisterChord (owner : string) (wall : time) (registration : ChordRegistration) : pc :=
  match FinalizeChordRegistration registration with
  | inl e => Done (AError (EChord e))
  | inr registration =>
      match validateRedisChordRegistration registration with
      | Some e => Done (AError e)
      | None =>
          match redisChordRecordKey (rg_DeliveryKey registration) with
          | None => Done (AError EInvalidKey)
          | Some key =>
              RegPrepare {| j_registration := registration;
                            j_delivery := NewChordDelivery registration owner wall; j_key := key |} 0
          end
      end
  end.

Definition AbortRegistration (ref : ChordRegistrationRef) : pc :=
  if negb (rf_Created ref) then Done (AError (EChord ErrChordRegistrationOwnershipLost))
  else match redisChordRecordKey (rf_DeliveryKey ref) with
       | None => Done (AError EInvalidKey)
       | Some key => AbWatch key ref 0
       end.

Definition update_key (deliveryKey : string) (op : chord_op) : pc :=
  match redisChordRecordKey deliveryKey with
  | None => Done (AError EInvalidKey)
  | Some key => UpWatch key op 0
  end.

Definition ClaimMemberPublication (wall : time) (claim : ChordMemberClaim) : pc :=
  update_key (mc_DeliveryKey claim) (OpClaimMember wall claim).
Definition RecordMemberPublishOutcome (wall : time) (lease : ChordMemberLease) (outcome : ChordPublishOutcome) : pc :=
  update_key (ml_DeliveryKey lease) (OpMemberOutcome wall lease outcome).
Definition RecordMemberTerminal (wall : time) (deliveryKey : string) (ordinal : Z) (taskID : string)
    (outcome : MemberTerminalOutcome) (rs : results) : pc :=
  update_key deliveryKey (OpMemberTerminal wall ordinal taskID outcome rs).
Definition RecordCallbackPublishOutcome (wall : time) (lease : ChordCallbackLease) (outcome : ChordPublishOutcome) : pc :=
  update_key (cl_DeliveryKey lease) (OpCallbackOutcome wall lease outcome).
Definition RecordCallbackTerminal (wall : time) (deliveryKey : string) (outcome : CallbackTerminalOutcome) : pc :=
  update_key deliveryKey (OpCallbackTerminal wall outcome).

Definition ClaimCallbackPublication (wall : time) (claim : ChordCallbackClaim) : pc :=
  match redisChordRecordKey (cc_DeliveryKey claim) with
  | None => Done (AError EInvalidKey)
  | Some key => CbLoad key wall claim
  end.

Definition ReconcileChord (wall : time) (deliveryKey : string) : pc :=
  match redisChordRecordKey deliveryKey with
  | None => Done (AError EInvalidKey)
  | Some key => RcLoad key wall
  end.

Definition ScanChordDeliveries (limit : Z) (cursor : string) : pc :=
  let limit := if (limit <=? 0)%Z then 100%Z else limit in
  match decodeRedisChordCursor cursor with
  | None => Done (AError EInvalidCursor)
  | Some lastKey => ScanList limit lastKey
  end.

Definition CleanupTerminalChordDeliveries (now : time) (limit : Z) : pc :=
  CleanList now (if (limit <=? 0)%Z then 100%Z else limit).

(** ** The commands *)

(** The answer to a registration that found the record of its group. *)
Definition attached (j : registration_job) (existing : ChordDelivery) : pc :=
  if ChordRegistrationMatches existing (j_registration j) then Done (ARef (ref_of existing false))
  else Done (AError (EChord ErrChordRegistrationConflict)).

Definition j_owner (j : registration_job) : string := d_RegistrationOwner (j_delivery j).
Definition j_delivery_key (j : registration_job) : string := d_DeliveryKey (j_delivery j).

Definition run_register (p : pc) (st : redis) : redis * pc :=
  match p with
  | RegPrepare j attempt =>
      let '(state, st') := prepareChordIndex (j_delivery_key j) (j_owner j) st in
      match state with
      | Some state => (st', RegBlocked j attempt state)
      | None => (st', RegCreate j)
      end
  | RegBlocked j attempt state =>
      match loadChordDelivery (j_key j) st with
      | inl ENil => (st, RegClear j attempt state)
      | inl e => (st, Done (AError e))
      | inr _ => if bool_decide (attempt = 15) then (st, Done (AError EBlocked))
                 else (st, RegPrepare j (S attempt))
      end
  | RegClear j attempt state =>
      (removeChordIndexesIfState (j_delivery_key j) (Some state) st, RegPrepare j (S attempt))
  | RegCreate j =>
      match records st !! j_key j with
      | None => (set_record (j_key j) (Body (j_delivery j)) st, RegForce j)
      | Some _ => (st, RegExisting j)
      end
  | RegForce j =>
      (forceCommitChordIndex (j_delivery_key j) (j_owner j) st, Done (ARef (ref_of (j_delivery j) true)))
  | RegExisting j =>
      match loadChordDelivery (j_key j) st with
      | inl EInvalidRecord => (st, RegReject j)
      | inl e => (st, Done (AError e))
      | inr existing =>
          if negb (validRedisChordRecord existing (j_key j)) then (st, RegReject j)
          else if String.eqb (d_DeliveryKey existing) (j_delivery_key j) then (st, RegCommit j existing)
          else (st, RegEnsure j existing)
      end
  | RegCommit j existing =>
      (commitChordIndex (d_DeliveryKey existing) (j_owner j) (d_RegistrationOwner existing) st,
       attached j existing)
  | RegEnsure j existing =>
      (ensureChordIndex (d_DeliveryKey existing) (d_RegistrationOwner existing) st, RegDrop j existing)
  | RegDrop j existing =>
      (removeChordIndexesIfState (j_delivery_key j) (Some (Pending (j_owner j))) st, attached j existing)
  | RegReject j =>
      (removeChordIndexesIfState (j_delivery_key j) (Some (Pending (j_owner j))) st,
       Done (AError (EChord ErrChordRegistrationConflict)))
  | p => (st, p)
  end.

Definition abort_retry (key : string) (ref : ChordRegistrationRef) (attempt : nat) : pc :=
  if bool_decide (S attempt < 8) then AbWatch key ref (S attempt) else Done (AError ETxFailed).

(** [token] is what [NewChordOwner] draws when the command is the first of an
    attempt. *)
Definition run_abort (token : string) (net : reply) (p : pc) (st : redis) : redis * pc :=
  match p with
  | AbWatch key ref attempt => (st, AbLoad key ref attempt token (revision st key))
  | AbLoad key ref attempt token rv =>
      match loadChordDelivery key st with
      | inl ENil => (st, AbRemove ref (Committed (rf_Owner ref)))
      | inl e => (st, Done (AError e))
      | inr delivery =>
          if negb (String.eqb (d_RegistrationOwner delivery) (rf_Owner ref)) ||
             negb (d_RegistrationVersion delivery =? rf_Version ref)%Z
          then (st, Done (AError (EChord ErrChordRegistrationOwnershipLost)))
          else if d_MemberPublicationStarted delivery
          then (st, Done (AError (EChord ErrChordPublicationStarted)))
          else (st, AbBegin key ref attempt token rv delivery)
      end
  | AbBegin key ref attempt token rv delivery =>
      let '(acquired, st') :=
        beginChordDelete (d_DeliveryKey delivery) (d_RegistrationOwner delivery) token st in
      if (acquired : bool) then (st', AbExec key ref attempt token rv delivery)
      else (st', abort_retry key ref attempt)
  | AbExec key ref attempt token rv delivery =>
      let ran := if bool_decide (revision st key = rv)
                 then Some (deleteChordRecordIfOwner key (d_RegistrationOwner delivery) st).2 else None in
      match net, ran with
      | Replied, Some st' => (st', AbRemove ref (Deleting token))
      | Replied, None => (st, AbRestore key ref attempt token delivery true)
      | Lost, Some st' => (st', AbRestore key ref attempt token delivery false)
      | _, _ => (st, AbRestore key ref attempt token delivery false)
      end
  | AbRestore key ref attempt token delivery conflict =>
      (restoreChordIndex (d_DeliveryKey delivery) token (d_RegistrationOwner delivery) st,
       if conflict then AbRestoreAgain key ref attempt token else Done (AError ENetwork))
  | AbRestoreAgain key ref attempt token =>
      (restoreChordIndex (rf_DeliveryKey ref) token (rf_Owner ref) st, abort_retry key ref attempt)
  | AbRemove ref state =>
      (removeChordIndexesIfState (rf_DeliveryKey ref) (Some state) st, Done ANone)
  | p => (st, p)
  end.

(** After the transaction: index the chord if it is terminal. *)
Definition update_finish (delivery : ChordDelivery) (a : answer) : pc :=
  match d_TerminalExpireAt delivery with
  | Some t => UpIndex (d_DeliveryKey delivery) t a
  | None => Done a
  end.

Definition update_retry (key : string) (op : chord_op) (attempt : nat) : pc :=
  if bool_decide (S attempt < 16) then UpWatch key op (S attempt) else Done (AError ETxFailed).

(** [Time.UnixMilli]; the Unix epoch is 62135596800 seconds after the zero time. *)
Definition UnixMilli (t : time) : Z := ((t - 62135596800 * Second) / 1000000)%Z.

Definition updateChordDelivery (p : pc) (st : redis) : redis * pc :=
  match p with
  | UpWatch key op attempt => (st, UpLoad key op attempt (revision st key))
  | UpLoad key op attempt rv =>
      match loadChordDelivery key st with
      | inl ENil => (st, Done (AError (EChord ErrChordNotFound)))
      | inl e => (st, Done (AError e))
      | inr delivery =>
          match mutate op delivery with
          | MFail e => (st, Done (AError e))
          | MDone delivery true a => (st, UpExec key op attempt rv delivery a)
          | MDone delivery false a => (st, update_finish delivery a)
          end
      end
  | UpExec key op attempt rv delivery a =>
      if bool_decide (revision st key = rv) then (set_record key (Body delivery) st, update_finish delivery a)
      else (st, update_retry key op attempt)
  | UpIndex deliveryKey expireAt a => (add_terminal deliveryKey (UnixMilli expireAt) st, Done a)
  | p => (st, p)
  end.

(** The reads that precede an update.  The commands on the group and on the
    statuses of the members and of the callback are left out. *)
Definition claim_callback_load (key : string) (wall : time) (claim : ChordCallbackClaim) (st : redis) : pc :=
  match loadChordDelivery key st with
  | inl e => Done (AError e)
  | inr delivery =>
      match d_CallbackPayload delivery with
      | [] => UpWatch key (OpClaimCallback wall claim) 0
      | payload =>
          match unmarshal_signature payload with
          | None => Done (AError (EChord ErrDecodeCallback))
          | Some callback =>
              if negb (validateRedisUserKey (s_ID callback)) then Done (AError (EChord ErrChordInvalidInput))
              else UpWatch key (OpClaimCallback wall claim) 0
          end
      end
  end.

Definition reconcile_load (key : string) (wall : time) (st : redis) : pc :=
  match loadChordDelivery key st with
  | inl e => Done (AError e)
  | inr delivery =>
      match validateRedisChordDeliverySetup delivery with
      | Some e => Done (AError e)
      | None =>
          if existsb (λ m, bool_decide (m_State m = ChordMemberSetup)) (d_Members delivery)
          then UpWatch key (OpReady wall) 0 else Done ANone
      end
  end.

Definition run_prepare (p : pc) (st : redis) : redis * pc :=
  match p with
  | CbLoad key wall claim => (st, claim_callback_load key wall claim st)
  | RcLoad key wall => (st, reconcile_load key wall st)
  | p => (st, p)
  end.

(** [ZRANGEBYLEX] with equal scores: the members above [lastKey] in byte order. *)
Definition lex_le (x y : string) : Prop := String.leb x y = true.
#[global] Instance lex_le_dec : RelDecision lex_le.
Proof. intros x y. unfold lex_le. apply _. Defined.
Definition zrange_by_lex (st : redis) (lastKey : string) (count : Z) : list string :=
  take (Z.to_nat count)
    (filter (λ k, lastKey = "" ∨ String.ltb lastKey k = true) (merge_sort lex_le (elements (deliveries st)))).

Definition scan_finish (f : scan_frame) (hasMore : bool) : pc :=
  let hasMore := hasMore || (sf_count f =? sf_limit f + 1)%Z in
  Done (APage {| pg_Deliveries := sf_page f;
                 pg_NextCursor := if hasMore && negb (String.eqb (sf_last f) "")
                                  then encodeRedisChordCursor (sf_last f) else "" |}).

(** The head of the loop. *)
Definition scan_next (f : scan_frame) : pc :=
  match sf_todo f with
  | [] => scan_finish f false
  | deliveryKey :: todo =>
      if (Z.of_nat (length (sf_page f)) =? sf_limit f)%Z then scan_finish f true
      else
        let f := f {{ sf_todo := todo; sf_last := deliveryKey }} in
        match redisChordRecordKey deliveryKey with
        | None => ScanMalformed f deliveryKey
        | Some key => ScanGet f deliveryKey key
        end
  end.

Definition run_scan (p : pc) (st : redis) : redis * pc :=
  match p with
  | ScanList limit lastKey =>
      let candidates := zrange_by_lex st lastKey (limit + 1) in
      (st, scan_next {| sf_limit := limit; sf_count := Z.of_nat (length candidates); sf_todo := candidates;
                        sf_page := []; sf_last := lastKey |})
  | ScanMalformed f deliveryKey => (removeChordIndexes deliveryKey st, scan_next f)
  | ScanGet f deliveryKey key =>
      match loadChordDelivery key st with
      | inl ENil => (st, ScanState f deliveryKey key)
      | inl e => (st, Done (AError e))
      | inr delivery => (st, ScanEnsure f deliveryKey delivery)
      end
  | ScanState f deliveryKey key =>
      match chordIndexState deliveryKey st with
      | Some (Pending _) | Some (Deleting _) => (st, scan_next f)
      | state => (st, ScanRecheck f deliveryKey key state)
      end
  | ScanRecheck f deliveryKey key state =>
      match loadChordDelivery key st with
      | inl ENil => (st, ScanRemove f deliveryKey state)
      | inl e => (st, Done (AError e))
      | inr delivery => (st, ScanEnsure f deliveryKey delivery)
      end
  | ScanRemove f deliveryKey state => (removeChordIndexesIfState deliveryKey state st, scan_next f)
  | ScanEnsure f deliveryKey delivery =>
      (ensureChordIndex (d_DeliveryKey delivery) (d_RegistrationOwner delivery) st,
       if String.eqb (d_DeliveryKey delivery) deliveryKey
       then scan_next (f {{ sf_page := sf_page f ++ [delivery] }}) else ScanForeign f deliveryKey)
  | ScanForeign f deliveryKey => (st, ScanForeignRemove f deliveryKey (chordIndexState deliveryKey st))
  | ScanForeignRemove f deliveryKey state => (removeChordIndexesIfState deliveryKey state st, scan_next f)
  | p => (st, p)
  end.

(** [ZRANGEBYSCORE] up to [max]: by score, then by member. *)
Definition score_le (x y : string * Z) : Prop := (x.2 < y.2)%Z ∨ x.2 = y.2 ∧ lex_le x.1 y.1.
#[global] Instance score_le_dec : RelDecision score_le.
Proof. intros x y. unfold score_le. apply _. Defined.
Definition zrange_by_score (st : redis) (max count : Z) : list string :=
  take (Z.to_nat count)
    (fst <$> filter (λ x, (x.2 <= max)%Z) (merge_sort score_le (map_to_list (terminals st)))).

Definition clean_next (f : clean_frame) : pc :=
  match cf_todo f with
  | [] => Done (ACount (cf_removed f))
  | deliveryKey :: todo =>
      let f := f {{ cf_todo := todo }} in
      match redisChordRecordKey deliveryKey with
      | None => CleanMalformed f deliveryKey
      | Some key => CleanGet f deliveryKey key
      end
  end.

(** [token] is what [NewChordOwner] draws before a deletion is fenced. *)
Definition run_clean (token : string) (net : reply) (p : pc) (st : redis) : redis * pc :=
  match p with
  | CleanList now limit =>
      (st, clean_next {| cf_now := now; cf_todo := zrange_by_score st (UnixMilli now) limit; cf_removed := 0 |})
  | CleanMalformed f deliveryKey => (removeChordIndexes deliveryKey st, clean_next f)
  | CleanGet f deliveryKey key =>
      match loadChordDelivery key st with
      | inl ENil => (st, CleanState f deliveryKey)
      | inl e => (st, Done (AError e))
      | inr delivery =>
          match d_TerminalExpireAt delivery with
          | None => (st, CleanUnindex f deliveryKey)
          | Some expireAt =>
              if After expireAt (cf_now f) then (st, CleanReindex f deliveryKey expireAt)
              else (st, CleanBegin f deliveryKey key delivery token)
          end
      end
  | CleanState f deliveryKey =>
      match chordIndexState deliveryKey st with
      | Some (Pending _) => (st, clean_next f)
      | state => (st, CleanRemove f deliveryKey state)
      end
  | CleanRemove f deliveryKey state => (removeChordIndexesIfState deliveryKey state st, clean_next f)
  | CleanUnindex f deliveryKey => (rem_terminal deliveryKey st, clean_next f)
  | CleanReindex f deliveryKey expireAt =>
      (add_terminal deliveryKey (UnixMilli expireAt) st, clean_next f)
  | CleanBegin f deliveryKey key delivery token =>
      let '(acquired, st') := beginChordDelete deliveryKey (d_RegistrationOwner delivery) token st in
      if (acquired : bool) then (st', CleanDelete f deliveryKey key delivery token) else (st', clean_next f)
  | CleanDelete f deliveryKey key delivery token =>
      let '(deleted, st') := deleteChordRecordIfOwner key (d_RegistrationOwner delivery) st in
      match net with
      | Replied => (st', CleanDrop f deliveryKey token deleted)
      | Lost => (st', CleanRestore f deliveryKey delivery token)
      | Down => (st, CleanRestore f deliveryKey delivery token)
      end
  | CleanRestore f deliveryKey delivery token =>
      (restoreChordIndex deliveryKey token (d_RegistrationOwner delivery) st, Done (AError ENetwork))
  | CleanDrop f deliveryKey token deleted =>
      (removeChordIndexesIfState deliveryKey (Some (Deleting token)) st,
       clean_next (if (0 <? deleted)%Z then f {{ cf_removed := (cf_removed f + 1)%Z }} else f))
  | p => (st, p)
  end.

Definition run (token : string) (net : reply) (p : pc) (st : redis) : redis * pc :=
  match p with
  | Done _ => (st, p)
  | RegPrepare _ _ | RegBlocked _ _ _ | RegClear _ _ _ | RegCreate _ | RegForce _ | RegExisting _
  | RegCommit _ _ | RegEnsure _ _ | RegDrop _ _ | RegReject _ => run_register p st
  | AbWatch _ _ _ | AbLoad _ _ _ _ _ | AbBegin _ _ _ _ _ _ | AbExec _ _ _ _ _ _ | AbRestore _ _ _ _ _ _
  | AbRestoreAgain _ _ _ _ | AbRemove _ _ => run_abort token net p st
  | UpWatch _ _ _ | UpLoad _ _ _ _ | UpExec _ _ _ _ _ _ | UpIndex _ _ _ => updateChordDelivery p st
  | CbLoad _ _ _ | RcLoad _ _ => run_prepare p st
  | ScanList _ _ | ScanMalformed _ _ | ScanGet _ _ _ | ScanState _ _ _ | ScanRecheck _ _ _ _
  | ScanRemove _ _ _ | ScanEnsure _ _ _ | ScanForeign _ _ | ScanForeignRemove _ _ _ => run_scan p st
  | CleanList _ _ | CleanMalformed _ _ | CleanGet _ _ _ | CleanState _ _ | CleanRemove _ _ _
  | CleanUnindex _ _ | CleanReindex _ _ _ | CleanBegin _ _ _ _ _ | CleanDelete _ _ _ _ _
  | CleanRestore _ _ _ _ | CleanDrop _ _ _ _ => run_clean token net p st
  end.

(** ** Any number of clients *)

Inductive method :=
  | CallRegister (owner : string) (wall : time) (registration : ChordRegistration)
  | CallAbort (ref : ChordRegistrationRef)
  | CallClaimMember (wall : time) (claim : ChordMemberClaim)
  | CallMemberOutcome (wall : time) (lease : ChordMemberLease) (outcome : ChordPublishOutcome)
  | CallMemberTerminal (wall : time) (deliveryKey : string) (ordinal : Z) (taskID : string)
      (outcome : MemberTerminalOutcome) (rs : results)
  | CallClaimCallback (wall : time) (claim : ChordCallbackClaim)
  | CallCallbackOutcome (wall : time) (lease : ChordCallbackLease) (outcome : ChordPublishOutcome)
  | CallCallbackTerminal (wall : time) (deliveryKey : string) (outcome : CallbackTerminalOutcome)
  | CallReconcile (wall : time) (deliveryKey : string)
  | CallScan (limit : Z) (cursor : string)
  | CallCleanup (now : time) (limit : Z).

Definition start (m : method) : pc :=
  match m with
  | CallRegister owner wall registration => RegisterChord owner wall registration
  | CallAbort ref => AbortRegistration ref
  | CallClaimMember wall claim => ClaimMemberPublication wall claim
  | CallMemberOutcome wall lease outcome => RecordMemberPublishOutcome wall lease outcome
  | CallMemberTerminal wall deliveryKey ordinal taskID outcome results =>
      RecordMemberTerminal wall deliveryKey ordinal taskID outcome results
  | CallClaimCallback wall claim => ClaimCallbackPublication wall claim
  | CallCallbackOutcome wall lease outcome => RecordCallbackPublishOutcome wall lease outcome
  | CallCallbackTerminal wall deliveryKey outcome => RecordCallbackTerminal wall deliveryKey outcome
  | CallReconcile wall deliveryKey => ReconcileChord wall deliveryKey
  | CallScan limit cursor => ScanChordDeliveries limit cursor
  | CallCleanup now limit => CleanupTerminalChordDeliveries now limit
  end.

(** The store and the positions of the clients.  The remaining fields record
    the past: the tokens drawn, the record key under which each owner created a
    record, the owners whose registration has committed its index, and the owner
    whose record each deletion token is drawn for. *)
Record sys := mkSys {
  store : redis;
  clients : list pc;
  used : gset string;
  born : gmap string string;
  forced : gset string;
  fences : gmap string string;
}.

(** A call begins, a client sends its next command, or a record whose time to
    live has passed disappears, which makes a transaction that watches it fail. *)
Inductive event :=
  | ECall (m : method)
  | ERun (i : nat) (token : string) (net : reply)
  | EExpire (key : string).

(** The tokens are 128 random bits, taken to be distinct, and a reference whose
    [Created] is set comes from a registration that returned it: its owner has
    committed a record under its key. *)
Definition may_call (m : method) (s : sys) : bool :=
  match m with
  | CallRegister owner _ _ => bool_decide (owner ∉ used s)
  | CallAbort ref =>
      negb (rf_Created ref) ||
      bool_decide (rf_Owner ref ∈ forced s ∧ born s !! rf_Owner ref = redisChordRecordKey (rf_DeliveryKey ref))
  | _ => true
  end.

Definition drawn (m : method) : gset string :=
  match m with CallRegister owner _ _ => {[owner]} | _ => ∅ end.

Definition births (p : pc) (s : sys) : gmap string string :=
  match p with
  | RegCreate j =>
      match records (store s) !! j_key j with
      | None => <[j_owner j := j_key j]> (born s)
      | Some _ => born s
      end
  | _ => born s
  end.

Definition commits (p : pc) (s : sys) : gset string :=
  match p with RegForce j => {[j_owner j]} ∪ forced s | _ => forced s end.

Definition draws (token : string) (p : pc) (s : sys) : gmap string string :=
  match p with
  | AbWatch _ ref _ => <[token := rf_Owner ref]> (fences s)
  | CleanGet _ _ key =>
      match loadChordDelivery key (store s) with
      | inr delivery => <[token := d_RegistrationOwner delivery]> (fences s)
      | inl _ => fences s
      end
  | _ => fences s
  end.

Definition expire (key : string) (st : redis) : option redis :=
  match records st !! key with
  | Some (Body d) =>
      match d_TerminalExpireAt d with
      | Some _ => Some (del_record key st)
      | None => None
      end
  | _ => None
  end.

Definition sys_step (e : event) (s : sys) : option sys :=
  match e with
  | ECall m =>
      if may_call m s
      then Some (s {{ clients := clients s ++ [start m]; used := drawn m ∪ used s }}) else None
  | ERun i token net =>
      p ← clients s !! i;
      if bool_decide (token ∈ used s) then None
      else
        let '(st', p') := run token net p (store s) in
        Some {| store := st'; clients := <[i := p']> (clients s); used := {[token]} ∪ used s;
                born := births p s; forced := commits p s; fences := draws token p s |}
  | EExpire key => st' ← expire key (store s); Some (s {{ store := st' }})
  end.

Fixpoint sys_run (es : list event) (s : sys) : option sys :=
  match es with
  | [] => Some s
  | e :: es => s' ← sys_step e s; sys_run es s'
  end.

(** *** Orderly runs

    A record is removed only after its registration committed the index, and
    the two removals of index entries that are not preceded by a look at the
    record (of a hole by the cleanup, of the entry of another delivery key by
    the scan) do not meet a record registered in between. *)

Definition removed_key (e : event) (s : sys) : option string :=
  match e with
  | EExpire key => Some key
  | ERun i _ _ =>
      match clients s !! i with
      | Some (AbExec key _ _ _ _ _) | Some (CleanDelete _ _ key _ _) => Some key
      | _ => None
      end
  | ECall _ => None
  end.

Definition prompt (e : event) (s s' : sys) : bool :=
  match removed_key e s with
  | None => true
  | Some key =>
      match records (store s) !! key, records (store s') !! key with
      | Some (Body d), None => bool_decide (d_RegistrationOwner d ∈ forced s)
      | _, _ => true
      end
  end.

(** No record carries the delivery key [k]. *)
Definition vacant (st : redis) (k : string) : bool :=
  match redisChordRecordKey k ≫= (λ key, records st !! key) with
  | Some (Body d) => negb (String.eqb (d_DeliveryKey d) k)
  | _ => true
  end.

Definition unraced (e : event) (s : sys) : bool :=
  match e with
  | ERun i _ _ =>
      match clients s !! i with
      | Some (ScanForeignRemove _ k _) | Some (CleanRemove _ k _) => vacant (store s) k
      | _ => true
      end
  | _ => true
  end.

(** *** Calm runs

    The same without a condition on the removals: instead no chord is registered
    anew while a client that has found its record missing (a cleanup) or another
    chord in its place (a scan) is on the way to dropping its entry. *)

(** The client has read that there is no record of the chord [k], and will drop its entry. *)
Definition dropping (k : string) (p : pc) : bool :=
  match p with
  | CleanState _ k' | CleanRemove _ k' _ | ScanForeign _ k' | ScanForeignRemove _ k' _ => String.eqb k' k
  | ScanEnsure _ k' d => String.eqb k' k && negb (String.eqb (d_DeliveryKey d) k')
  | _ => false
  end.

Definition calm (e : event) (s : sys) : bool :=
  match e with
  | ERun i _ _ =>
      match clients s !! i with
      | Some (RegCreate j) =>
          match records (store s) !! j_key j with
          | None => negb (existsb (dropping (j_delivery_key j)) (clients s))
          | Some _ => true
          end
      | _ => true
      end
  | _ => true
  end.

Fixpoint calm_run (es : list event) (s : sys) : option sys :=
  match es with
  | [] => Some s
  | e :: es =>
      s' ← sys_step e s;
      if prompt e s s' && calm e s then calm_run es s' else None
  end.

Fixpoint orderly_run (es : list event) (s : sys) : option sys :=
  match es with
  | [] => Some s
  | e :: es =>
      s' ← sys_step e s;
      if prompt e s s' && unraced e s then orderly_run es s' else None
  end.

(** Nothing of the store's own; data of other programs may occupy record keys, none
    of which decodes as a chord. *)
Definition sys_init (foreign : list string) : sys :=
  {| store := {| records := list_to_map ((λ k, (k, Garbage)) <$> foreign); revs := ∅; deliveries := ∅;
                 terminals := ∅; states := ∅ |};
     clients := []; used := ∅; born := ∅; forced := ∅; fences := ∅ |}.

End methods.
