(* ===== verification/ChordRedisInv.v ===== *)
(** * The Redis chord store: writes of the records

    Which commands write a record, that a transaction under [WATCH] writes what
    it computed from the record it replaces, and that therefore every record is
    at every moment the row of a history of the store of [ChordStore.v]. *)

From S2P Require Import Prelude GoText Chord ChordStore ChordInv ChordThms ChordRedis.
From coqutil Require Import Datatypes.RecordSetters.
Import DoubleBraceUpdate.

Create HintDb chord_redis.

(** ** The commands that write records *)

Section writes.
Context `{ChordJSON}.

Inductive wrote (p : pc) (st : redis) (key : string) : option body → Prop :=
  | w_create j :
      p = RegCreate j → key = j_key j → records st !! key = None → wrote p st key (Some (Body (j_delivery j)))
  | w_update op attempt d a :
      p = UpExec key op attempt (revision st key) d a → wrote p st key (Some (Body d))
  | w_abort ref attempt token d d1 :
      p = AbExec key ref attempt token (revision st key) d → records st !! key = Some (Body d1) →
      d_RegistrationOwner d1 = d_RegistrationOwner d → wrote p st key None
  | w_clean f k token d d1 :
      p = CleanDelete f k key d token → records st !! key = Some (Body d1) →
      d_RegistrationOwner d1 = d_RegistrationOwner d → wrote p st key None.

(** The part of the store that the scripts on the indexes leave alone. *)
Definition same_records (st st' : redis) : Prop := records st' = records st ∧ revs st' = revs st.

Lemma prepare_same k o st : same_records st (prepareChordIndex k o st).2.
Proof. unfold prepareChordIndex. by destruct (states st !! k) as [[]|]. Qed.
Lemma commit_same k o r st : same_records st (commitChordIndex k o r st).
Proof. unfold commitChordIndex. by repeat case_match. Qed.
Lemma ensure_same k r st : same_records st (ensureChordIndex k r st).
Proof. unfold ensureChordIndex. by repeat case_match. Qed.
Lemma remove_same k x st : same_records st (removeChordIndexesIfState k x st).
Proof. unfold removeChordIndexesIfState. by case_match. Qed.
Lemma begin_same k o t st : same_records st (beginChordDelete k o t st).2.
Proof. unfold beginChordDelete. by repeat case_match. Qed.
Lemma restore_same k t o st : same_records st (restoreChordIndex k t o st).
Proof. unfold restoreChordIndex. by case_match. Qed.
Lemma same_refl st : same_records st st.
Proof. done. Qed.

Lemma revision_bump key key' st :
  revision (bump key st) key' = if decide (key = key') then S (revision st key) else revision st key'.
Proof. unfold revision, bump. cbn. unfold constant. rewrite lookup_insert. by repeat case_decide; subst. Qed.

Lemma same_unchanged st st' key :
  same_records st st' → records st' !! key = records st !! key ∧ revision st' key = revision st key.
Proof. intros [Hr Hv]. unfold revision. by rewrite Hr, Hv. Qed.

Lemma set_record_spec key b st key' :
  (records (set_record key b st) !! key' = records st !! key' ∧ revision (set_record key b st) key' = revision st key') ∨
  (key' = key ∧ records (set_record key b st) !! key = Some b ∧
   revision (set_record key b st) key = S (revision st key)).
Proof.
  unfold set_record. rewrite !revision_bump. destruct (decide (key = key')) as [<-|Hne].
  - right. rewrite decide_True by done. cbn. unfold constant. by rewrite lookup_insert_eq.
  - left. cbn. unfold constant. by rewrite lookup_insert_ne.
Qed.

Lemma del_record_spec key st key' :
  (records (del_record key st) !! key' = records st !! key' ∧ revision (del_record key st) key' = revision st key') ∨
  (key' = key ∧ records (del_record key st) !! key = None ∧
   revision (del_record key st) key = S (revision st key)).
Proof.
  unfold del_record. rewrite !revision_bump. destruct (decide (key = key')) as [<-|Hne].
  - right. rewrite decide_True by done. cbn. unfold constant. by rewrite lookup_delete_eq.
  - left. cbn. unfold constant. by rewrite lookup_delete_ne.
Qed.

Lemma delete_spec key o st key' st' n :
  deleteChordRecordIfOwner key o st = (n, st') →
  (records st' !! key' = records st !! key' ∧ revision st' key' = revision st key') ∨
  (key' = key ∧ records st' !! key = None ∧ revision st' key = S (revision st key) ∧
   ∃ d, records st !! key = Some (Body d) ∧ d_RegistrationOwner d = o).
Proof.
  unfold deleteChordRecordIfOwner. destruct (records st !! key) as [[d|]|] eqn:Hr; intros Heq; try (simplify_eq; by left).
  destruct (String.eqb_spec (d_RegistrationOwner d) o); simplify_eq; [|by left].
  destruct (del_record_spec key st key') as [?|(? & ? & ?)]; [by left|right]. eauto 7.
Qed.

Ltac same_tac Hrun :=
  apply (f_equal fst) in Hrun; cbn [fst] in Hrun; subst; left; apply same_unchanged; repeat case_goal; cbn [fst];
  lazymatch goal with
  | |- same_records _ (commitChordIndex _ _ _ _) => apply commit_same
  | |- same_records _ (ensureChordIndex _ _ _) => apply ensure_same
  | |- same_records _ (removeChordIndexesIfState _ _ _) => apply remove_same
  | |- same_records _ (restoreChordIndex _ _ _ _) => apply restore_same
  | |- _ => by split
  end.

(** A command leaves a record and its counter alone, or writes it and counts. *)
Lemma run_records token net p st st' p' key :
  run token net p st = (st', p') →
  (records st' !! key = records st !! key ∧ revision st' key = revision st key) ∨
  (wrote p st key (records st' !! key) ∧ revision st' key = S (revision st key)).
Proof.
  destruct p; cbn [run run_register run_abort updateChordDelivery run_prepare run_scan run_clean]; intros Hrun.
  all: try same_tac Hrun.
  - pose proof (prepare_same (j_delivery_key j) (j_owner j) st) as Hs.
    destruct (prepareChordIndex _ _ _) as [[x|] st1]; simplify_eq; left; by apply same_unchanged.
  - destruct (records st !! j_key j) eqn:Hk; simplify_eq; [by left|].
    destruct (set_record_spec (j_key j) (Body (j_delivery j)) st key) as [?|(-> & Hr & Hv)]; [by left|right].
    rewrite Hr. split; [by eapply w_create|done].
  - pose proof (begin_same (d_DeliveryKey delivery) (d_RegistrationOwner delivery) token0 st) as Hs.
    destruct (beginChordDelete _ _ _ _) as [[] st1]; simplify_eq; left; by apply same_unchanged.
  - destruct (deleteChordRecordIfOwner _ _ _) as [n st1] eqn:Hd. cbn [snd] in Hrun.
    case_bool_decide as Hrv; [|destruct net; simplify_eq; by left].
    destruct (delete_spec _ _ _ key _ _ Hd) as [?|(-> & Hr & Hv & d1 & Hd1 & Ho)]; destruct net; simplify_eq; try by left.
    all: right; rewrite Hr; split; [by eapply w_abort|done].
  - case_bool_decide as Hrv; simplify_eq; [|by left].
    destruct (set_record_spec key0 (Body delivery) st key) as [?|(-> & Hr & Hv)]; [by left|right].
    rewrite Hr. split; [by eapply w_update|done].
  - pose proof (begin_same deliveryKey (d_RegistrationOwner delivery) token0 st) as Hs.
    destruct (beginChordDelete _ _ _ _) as [[] st1]; simplify_eq; left; by apply same_unchanged.
  - destruct (deleteChordRecordIfOwner _ _ _) as [n st1] eqn:Hd.
    destruct (delete_spec _ _ _ key _ _ Hd) as [?|(-> & Hr & Hv & d1 & Hd1 & Ho)]; destruct net; simplify_eq; try by left.
    all: right; rewrite Hr; split; [by eapply w_clean|done].
Qed.

(** ** The two stores apply the same transitions *)

Lemma mutate_apply op d d' a : mutate op d = MDone d' true a → apply_op op d = d'.
Proof.
  intros Hm. destruct op; cbn in Hm |- *.
  - by simplify_eq.
  - unfold ChordStore.ClaimMemberPublication. destruct (ClaimChordMember _ _ _) as [d1 [|[]]]; by simplify_eq/=.
  - unfold ChordStore.RecordMemberPublishOutcome.
    destruct (ApplyChordMemberPublishOutcome _ _ _ _) as [d1 []]; by simplify_eq/=.
  - unfold ChordStore.RecordMemberTerminal.
    destruct (ApplyChordMemberTerminal _ _ _ _ _ _ _) as [[d1 []]|]; try discriminate.
    injection Hm as <- Hc <-. cbn. by rewrite Hc.
  - unfold update_callback. destruct (ClaimChordCallback _ _ _) as [d1 [|[]]]; by simplify_eq/=.
  - unfold ChordStore.RecordCallbackPublishOutcome.
    destruct (ApplyChordCallbackPublishOutcome _ _ _ _) as [d1 []]; by simplify_eq/=.
  - unfold ChordStore.RecordCallbackTerminal.
    destruct (ApplyChordCallbackTerminal _ _ _ _) as [d1 []]; try discriminate.
    injection Hm as <- Hc <-. cbn. by rewrite Hc.
Qed.

(** ** What the clients know of the records *)

(** Counters grow, and a record whose counter stands still is unchanged. *)
Definition later (st st' : redis) : Prop :=
  ∀ key, revision st key <= revision st' key ∧
         (revision st' key = revision st key → records st' !! key = records st !! key).

Lemma run_later token net p st st' p' : run token net p st = (st', p') → later st st'.
Proof.
  intros Hrun key. destruct (run_records _ _ _ _ _ _ key Hrun) as [[Hr Hv]|[_ Hv]]; rewrite Hv; split; auto; lia.
Qed.

Lemma del_later key st : later st (del_record key st).
Proof. intros key'. destruct (del_record_spec key st key') as [[? ->]|(-> & _ & ->)]; split; auto; lia. Qed.

(** A transaction has read the record [P] holds of, if nothing was written since. *)
Definition watched (st : redis) (key : string) (rv : nat) (P : ChordDelivery → Prop) : Prop :=
  rv <= revision st key ∧ (revision st key = rv → ∃ d, records st !! key = Some (Body d) ∧ P d).

Lemma watched_later st st' key rv P : later st st' → watched st key rv P → watched st' key rv P.
Proof.
  intros Hl [Hle Heq]. destruct (Hl key) as [Hv Hr]. split; [lia|]. intros He.
  rewrite Hr by lia. apply Heq. lia.
Qed.

(** The record that an abort may delete. *)
Definition abortable (ref : ChordRegistrationRef) (d : ChordDelivery) : Prop :=
  d_RegistrationOwner d = rf_Owner ref ∧ d_RegistrationVersion d = rf_Version ref ∧
  d_MemberPublicationStarted d = false.

Definition pc_watched (st : redis) (p : pc) : Prop :=
  match p with
  | UpLoad key _ _ rv | AbLoad key _ _ _ rv => rv <= revision st key
  | UpExec key op _ rv d' a => watched st key rv (λ d, mutate op d = MDone d' true a)
  | AbBegin key ref _ _ rv d | AbExec key ref _ _ rv d =>
      watched st key rv (λ d', d' = d) ∧ abortable ref d
  | _ => True
  end.

Lemma pc_watched_later st st' p : later st st' → pc_watched st p → pc_watched st' p.
Proof.
  intros Hl Hp. destruct p; cbn in Hp |- *; try done; try (by eapply watched_later).
  all: try (destruct Hp; split; [by eapply watched_later|done]).
  all: destruct (Hl key); lia.
Qed.

(** The positions that hold nothing of a record. *)
Lemma scan_next_watched st f : pc_watched st (scan_next f).
Proof. unfold scan_next, scan_finish. by repeat case_match. Qed.
Lemma clean_next_watched st f : pc_watched st (clean_next f).
Proof. unfold clean_next. by repeat case_match. Qed.
Lemma finish_watched st d a : pc_watched st (update_finish d a).
Proof. unfold update_finish. by case_match. Qed.
Lemma retry_watched st key op n : pc_watched st (update_retry key op n).
Proof. unfold update_retry. by case_match. Qed.
Lemma abort_retry_watched st key ref n : pc_watched st (abort_retry key ref n).
Proof. unfold abort_retry. by case_match. Qed.
Lemma callback_load_watched st key wall claim st0 : pc_watched st (claim_callback_load key wall claim st0).
Proof. unfold claim_callback_load. by repeat case_goal. Qed.
Lemma reconcile_load_watched st key wall st0 : pc_watched st (reconcile_load key wall st0).
Proof. unfold reconcile_load. by repeat case_goal. Qed.
Lemma attached_watched st j d : pc_watched st (attached j d).
Proof. unfold attached. by case_match. Qed.
#[local] Hint Resolve scan_next_watched clean_next_watched finish_watched retry_watched abort_retry_watched
  attached_watched callback_load_watched reconcile_load_watched : chord_redis.

Lemma load_inv key st d : loadChordDelivery key st = inr d → records st !! key = Some (Body d).
Proof. unfold loadChordDelivery. by destruct (records st !! key) as [[]|]; intros; simplify_eq. Qed.

Ltac watched_tac Hrun :=
  apply (f_equal snd) in Hrun; cbn [snd] in Hrun; subst; repeat case_goal; cbn [snd];
  first [done | solve [auto with chord_redis]].

Lemma run_watched token net p st st' p' :
  run token net p st = (st', p') → pc_watched st p → pc_watched st' p'.
Proof.
  intros Hrun Hp. pose proof (run_later _ _ _ _ _ _ Hrun) as Hl.
  destruct p; cbn [run run_register run_abort updateChordDelivery run_prepare run_scan run_clean] in Hrun.
  all: try watched_tac Hrun.
  - simplify_eq. cbn. lia.
  - destruct (loadChordDelivery key st) as [[]|d] eqn:Hd; try by simplify_eq.
    apply load_inv in Hd. destruct (String.eqb_spec (d_RegistrationOwner d) (rf_Owner ref)) as [Ho|];
      cbn [negb orb] in Hrun; [|by simplify_eq].
    destruct (Z.eqb_spec (d_RegistrationVersion d) (rf_Version ref)) as [Hv|];
      cbn [negb] in Hrun; [|by simplify_eq].
    destruct (d_MemberPublicationStarted d) eqn:Hs; simplify_eq; [done|].
    split; [|done]. split; [done|eauto].
  - destruct (beginChordDelete _ _ _ _) as [[] st1]; simplify_eq; [|auto with chord_redis].
    by apply (pc_watched_later st st' (AbExec key ref attempt token0 rv delivery)).
  - simplify_eq. cbn. lia.
  - destruct (loadChordDelivery key st) as [[]|d] eqn:Hd; try by simplify_eq.
    apply load_inv in Hd. destruct (mutate op d) as [|d' [] a] eqn:Hm; simplify_eq; try done; [|auto with chord_redis].
    split; [done|eauto].
Qed.

Lemma start_watched st m : pc_watched st (start m).
Proof.
  destruct m; cbn [start]; unfold RegisterChord, AbortRegistration, ClaimMemberPublication,
    RecordMemberPublishOutcome, RecordMemberTerminal, RecordCallbackPublishOutcome, RecordCallbackTerminal,
    ClaimCallbackPublication, ReconcileChord, ScanChordDeliveries, update_key; by repeat case_match.
Qed.

End writes.
