(* ===== verification/ChordRedisHist.v ===== *)
(** * The Redis chord store: every record is a row of the SQL store

    The invariant of every run of any number of clients: a record is what a
    registration wrote, changed by operations of the SQL store one after
    another.  What is proved of the histories of a row therefore holds of the
    records of this store. *)

From S2P Require Import Prelude GoText Chord ChordStore ChordInv ChordThms ChordRedis ChordRedisInv.
From coqutil Require Import Datatypes.RecordSetters.
Import DoubleBraceUpdate.

Section hist.
Context `{ChordJSON}.

Lemma sys_run_app es1 es2 s : sys_run (es1 ++ es2) s = sys_run es1 s ≫= sys_run es2.
Proof.
  revert s. induction es1 as [|e es1 IH]; intros s; [done|]. cbn [sys_run app].
  destruct (sys_step e s) as [s'|]; [apply IH|done].
Qed.

(** ** The registrations in progress *)

Definition pc_job (p : pc) : option registration_job :=
  match p with
  | RegPrepare j _ | RegBlocked j _ _ | RegClear j _ _ | RegCreate j | RegForce j | RegExisting j
  | RegCommit j _ | RegEnsure j _ | RegDrop j _ | RegReject j => Some j
  | _ => None
  end.

Lemma no_job_scan f : pc_job (scan_next f) = None.
Proof. unfold scan_next, scan_finish. by repeat case_match. Qed.
Lemma no_job_clean f : pc_job (clean_next f) = None.
Proof. unfold clean_next. by repeat case_match. Qed.
Lemma no_job_finish d a : pc_job (update_finish d a) = None.
Proof. unfold update_finish. by case_match. Qed.
Lemma no_job_retry key op n : pc_job (update_retry key op n) = None.
Proof. unfold update_retry. by case_match. Qed.
Lemma no_job_abort key ref n : pc_job (abort_retry key ref n) = None.
Proof. unfold abort_retry. by case_match. Qed.
Lemma no_job_callback key wall claim st : pc_job (claim_callback_load key wall claim st) = None.
Proof. unfold claim_callback_load. by repeat case_goal. Qed.
Lemma no_job_reconcile key wall st : pc_job (reconcile_load key wall st) = None.
Proof. unfold reconcile_load. by repeat case_goal. Qed.
Lemma no_job_attached j d : pc_job (attached j d) = None.
Proof. unfold attached. by case_match. Qed.
#[local] Hint Resolve no_job_scan no_job_clean no_job_finish no_job_retry no_job_abort no_job_attached
  no_job_callback no_job_reconcile : chord_redis.

Lemma run_job token net p st st' p' :
  run token net p st = (st', p') → pc_job p' = pc_job p ∨ pc_job p' = None.
Proof.
  intros Hrun. apply (f_equal snd) in Hrun. cbn [snd] in Hrun. subst p'.
  destruct p; cbn [run run_register run_abort updateChordDelivery run_prepare run_scan run_clean];
    repeat case_goal; cbn [snd]; auto with chord_redis.
Qed.

(** The call that drew [owner] registers [reg]. *)
Definition registered (es : list event) (owner : string) (wall : time) (reg : ChordRegistration) : Prop :=
  ∃ reg0, ECall (CallRegister owner wall reg0) ∈ es ∧ FinalizeChordRegistration reg0 = inr reg.

Lemma registered_app es e owner wall reg : registered es owner wall reg → registered (es ++ [e]) owner wall reg.
Proof. intros (reg0 & Hin & Hf). exists reg0. split; [set_solver|done]. Qed.

Definition job_ok (es : list event) (j : registration_job) : Prop :=
  redisChordRecordKey (j_delivery_key j) = Some (j_key j) ∧
  ∃ wall reg, registered es (j_owner j) wall reg ∧ j_delivery j = NewChordDelivery reg (j_owner j) wall.

Lemma start_job es m j : pc_job (start m) = Some j →
  job_ok (es ++ [ECall m]) j ∧ drawn m = {[j_owner j]} ∧ start m = RegPrepare j 0.
Proof.
  destruct m; cbn [start]; unfold RegisterChord, AbortRegistration, ClaimMemberPublication,
    RecordMemberPublishOutcome, RecordMemberTerminal, RecordCallbackPublishOutcome, RecordCallbackTerminal,
    ClaimCallbackPublication, ReconcileChord, ScanChordDeliveries, update_key.
  2-11: by repeat case_goal.
  destruct (FinalizeChordRegistration registration) as [|reg] eqn:Hf; [done|].
  destruct (validateRedisChordRegistration reg); [done|].
  destruct (redisChordRecordKey _) as [key|] eqn:Hk; [|done]. intros [= <-]. cbn. split_and!; [|done..].
  split; [done|]. exists wall, reg. split; [|done]. exists registration. split; [set_solver|done].
Qed.

(** ** The records *)

Definition record_ok (es : list event) (key : string) (d : ChordDelivery) : Prop :=
  redisChordRecordKey (d_DeliveryKey d) = Some key ∧
  ∃ wall reg ops, registered es (d_RegistrationOwner d) wall reg ∧
    d = run_ops ops (NewChordDelivery reg (d_RegistrationOwner d) wall).

Lemma record_history es key d : record_ok es key d → ∃ reg, history reg d.
Proof. intros (_ & wall & reg & ops & _ & Hd). exists reg. unfold history. eauto. Qed.

Lemma run_ops_def reg owner wall ops :
  same_def (NewChordDelivery reg owner wall) (run_ops ops (NewChordDelivery reg owner wall)).
Proof. apply ev_def, run_evolves, new_inv. Qed.

(** An operation keeps the key and the owner. *)
Lemma mutate_ok es key op d d' a :
  record_ok es key d → mutate op d = MDone d' true a →
  record_ok es key d' ∧ same_def d d' ∧ apply_op op d = d'.
Proof.
  intros Hok Hm. destruct (record_history _ _ _ Hok) as [reg0 Hh].
  apply mutate_apply in Hm. subst d'.
  assert (Hd : same_def d (apply_op op d)) by apply (ev_def _ _ (run_evolves [op] d (history_inv _ _ Hh))).
  split_and!; [|done..]. destruct Hok as (Hk & wall & reg & ops & Hr & Hrun).
  split; [by rewrite (sd_key _ _ Hd)|]. exists wall, reg, (ops ++ [op]). rewrite (sd_owner _ _ Hd).
  split; [done|]. unfold run_ops in *. rewrite foldl_app. cbn. by rewrite <- Hrun.
Qed.

(** ** The invariant *)

Record hist_inv (es : list event) (s : sys) : Prop := {
  hi_records : ∀ key d, records (store s) !! key = Some (Body d) → record_ok es key d;
  hi_watched : Forall (pc_watched (store s)) (clients s);
  hi_jobs : ∀ i p j, clients s !! i = Some p → pc_job p = Some j → job_ok es j;
}.

Lemma record_ok_app es e key d : record_ok es key d → record_ok (es ++ [e]) key d.
Proof.
  intros (Hk & wall & reg & ops & Hr & Hd). split; [done|]. exists wall, reg, ops.
  split; [by apply registered_app|done].
Qed.
Lemma job_ok_app es e j : job_ok es j → job_ok (es ++ [e]) j.
Proof.
  intros (Hk & wall & reg & Hr & Hd). split; [done|]. exists wall, reg.
  split; [by apply registered_app|done].
Qed.

Lemma job_record es j : job_ok es j → record_ok es (j_key j) (j_delivery j).
Proof.
  intros (Hk & wall & reg & Hr & Hd). split; [done|]. exists wall, reg, []. split; [done|]. done.
Qed.

Lemma wrote_ok es s i p key b :
  hist_inv es s → clients s !! i = Some p → wrote p (store s) key (Some (Body b)) → record_ok es key b.
Proof.
  intros [HR HW HJ] Hp Hw. inversion Hw as [j -> -> Hn|op n d a ->| |]; subst.
  - by apply job_record, (HJ i (RegCreate j)).
  - destruct (proj1 (list.Forall_forall _ _) HW _ (list_elem_of_lookup_2 _ _ _ Hp)) as [_ Hd].
    destruct (Hd eq_refl) as (d & Hd0 & Hm). by apply (mutate_ok _ _ _ _ _ _ (HR _ _ Hd0) Hm).
Qed.

Lemma hist_run es s i p token net st' p' e :
  hist_inv es s → clients s !! i = Some p → run token net p (store s) = (st', p') →
  (∀ key d, records st' !! key = Some (Body d) → record_ok (es ++ [e]) key d) ∧
  Forall (pc_watched st') (<[i := p']> (clients s)) ∧
  (∀ i' p0 j, <[i := p']> (clients s) !! i' = Some p0 → pc_job p0 = Some j → job_ok (es ++ [e]) j).
Proof.
  intros HI Hp Hrun. pose proof HI as [HR HW HJ]. rewrite list.Forall_forall in HW. split_and!.
  - intros key d Hd. apply record_ok_app. destruct (run_records _ _ _ _ _ _ key Hrun) as [[Hr _]|[Hw _]].
    + apply HR. congruence.
    + rewrite Hd in Hw. by eapply wrote_ok.
  - apply list.Forall_forall. intros p0 Hin. apply list_elem_of_lookup in Hin as [i' Hi'].
    apply list_lookup_insert_Some in Hi' as [(<- & -> & _)|[_ Hi']].
    + eapply run_watched; [done|]. by eapply HW, list_elem_of_lookup_2.
    + eapply pc_watched_later; [by eapply run_later|]. by eapply HW, list_elem_of_lookup_2.
  - intros i' p0 j Hi' Hj. apply job_ok_app. apply list_lookup_insert_Some in Hi' as [(<- & -> & _)|[_ Hi']].
    + destruct (run_job _ _ _ _ _ _ Hrun) as [He|He]; rewrite He in Hj; [by eapply HJ|done].
    + by eapply HJ.
Qed.

Lemma hist_step es s e s' : hist_inv es s → sys_step e s = Some s' → hist_inv (es ++ [e]) s'.
Proof.
  intros HI Hstep. destruct e as [m|i token net|key]; cbn in Hstep.
  - destruct HI as [HR HW HJ]. case_match; [|done]. injection Hstep as <-. cbn. unfold constant. split; cbn.
    + intros key d Hd. apply record_ok_app. by apply HR.
    + apply list.Forall_app. split; [done|]. apply list.Forall_singleton, start_watched.
    + intros i p j Hi Hj. apply lookup_app_Some in Hi as [Hi|[_ Hi]]; [by eapply job_ok_app, HJ|].
      apply list_lookup_singleton_Some in Hi as [_ <-]. by apply start_job.
  - destruct (clients s !! i) as [p|] eqn:Hp; [|done]. cbn in Hstep. case_bool_decide; [done|].
    destruct (run token net p (store s)) as [st' p'] eqn:Hrun. injection Hstep as <-.
    by destruct (hist_run _ _ _ _ _ _ _ _ (ERun i token net) HI Hp Hrun) as (? & ? & ?).
  - destruct HI as [HR HW HJ]. unfold expire in Hstep.
    destruct (records (store s) !! key) as [[d|]|] eqn:Hk; try done.
    destruct (d_TerminalExpireAt d); [|done]. remember (del_record key (store s)) as st' eqn:Hst.
    injection Hstep as <-. cbn. unfold constant. split; cbn [store clients]; subst st'.
    + intros key' d' Hd. apply record_ok_app, HR.
      destruct (del_record_spec key (store s) key') as [[Hr _]|(-> & Hr & _)]; congruence.
    + eapply list.Forall_impl; [done|]. intros p. apply pc_watched_later, del_later.
    + intros i p j Hi Hj. by eapply job_ok_app, HJ.
Qed.

Lemma hist_init foreign : hist_inv [] (sys_init foreign).
Proof.
  split; cbn; [|constructor|done]. intros key d Hd. exfalso. apply elem_of_list_to_map_2 in Hd.
  apply list_elem_of_fmap in Hd as (k & [=] & _).
Qed.

Lemma hist_reach es foreign s : sys_run es (sys_init foreign) = Some s → hist_inv es s.
Proof.
  revert s. induction es as [|e es IH] using rev_ind; intros s Hrun; cbn in Hrun.
  - injection Hrun as <-. apply hist_init.
  - rewrite sys_run_app in Hrun. destruct (sys_run es _) as [s0|]; [|done]. cbn in Hrun.
    destruct (sys_step e s0) eqn:Hs; [|done]. injection Hrun as <-. by eapply hist_step; [apply IH|].
Qed.

End hist.
