(* ===== verification/ChordRedisIndex.v ===== *)
(** * The Redis chord store: committed records stay indexed

    The protocol of the index states.  A command changes the indexes by at most
    one script; an invariant says what each position of a client knows of the
    states it will test, and that an entry of a live, committed record is
    removed by no script.  It is preserved by every step of an orderly run. *)

From S2P Require Import Prelude GoText Chord ChordStore ChordInv ChordThms ChordRedis ChordRedisInv ChordRedisHist.
From coqutil Require Import Datatypes.RecordSetters.
Import DoubleBraceUpdate.

(** ** The script of a position *)

Inductive action :=
  | ActNone
  | ActPrepare (k owner : string)
  | ActCommit (k expected owner : string)
  | ActForce (k owner : string)
  | ActEnsure (k owner : string)
  | ActRemoveIf (k : string) (x : option index_state)
  | ActRemove (k : string)
  | ActBegin (k owner token : string)
  | ActRestore (k token owner : string).

Definition do_action (a : action) (st : redis) : redis :=
  match a with
  | ActNone => st
  | ActPrepare k o => (prepareChordIndex k o st).2
  | ActCommit k e o => commitChordIndex k e o st
  | ActForce k o => forceCommitChordIndex k o st
  | ActEnsure k o => ensureChordIndex k o st
  | ActRemoveIf k x => removeChordIndexesIfState k x st
  | ActRemove k => removeChordIndexes k st
  | ActBegin k o t => (beginChordDelete k o t st).2
  | ActRestore k t o => restoreChordIndex k t o st
  end.

Definition pc_action (p : pc) : action :=
  match p with
  | RegPrepare j _ => ActPrepare (j_delivery_key j) (j_owner j)
  | RegClear j _ x => ActRemoveIf (j_delivery_key j) (Some x)
  | RegForce j => ActForce (j_delivery_key j) (j_owner j)
  | RegCommit j d => ActCommit (d_DeliveryKey d) (j_owner j) (d_RegistrationOwner d)
  | RegEnsure j d => ActEnsure (d_DeliveryKey d) (d_RegistrationOwner d)
  | RegDrop j _ | RegReject j => ActRemoveIf (j_delivery_key j) (Some (Pending (j_owner j)))
  | AbBegin _ _ _ t _ d => ActBegin (d_DeliveryKey d) (d_RegistrationOwner d) t
  | AbRestore _ _ _ t d _ => ActRestore (d_DeliveryKey d) t (d_RegistrationOwner d)
  | AbRestoreAgain _ ref _ t => ActRestore (rf_DeliveryKey ref) t (rf_Owner ref)
  | AbRemove ref x => ActRemoveIf (rf_DeliveryKey ref) (Some x)
  | ScanMalformed _ k | CleanMalformed _ k => ActRemove k
  | ScanRemove _ k x | ScanForeignRemove _ k x | CleanRemove _ k x => ActRemoveIf k x
  | ScanEnsure _ _ d => ActEnsure (d_DeliveryKey d) (d_RegistrationOwner d)
  | CleanBegin _ k _ d t => ActBegin k (d_RegistrationOwner d) t
  | CleanRestore _ k d t => ActRestore k t (d_RegistrationOwner d)
  | CleanDrop _ k t _ => ActRemoveIf k (Some (Deleting t))
  | _ => ActNone
  end.

Section index.
Context `{ChordJSON}.

Definition same_index (st st' : redis) : Prop := deliveries st' = deliveries st ∧ states st' = states st.

Lemma delete_index key o st : same_index st (deleteChordRecordIfOwner key o st).2.
Proof. unfold deleteChordRecordIfOwner. by repeat case_match. Qed.

Lemma run_action token net p st st' p' :
  run token net p st = (st', p') → same_index (do_action (pc_action p) st) st'.
Proof.
  intros Hrun. apply (f_equal fst) in Hrun. cbn [fst] in Hrun. subst st'.
  destruct p; cbn [run run_register run_abort updateChordDelivery run_prepare run_scan run_clean pc_action do_action].
  all: try solve [repeat case_goal; cbn [fst]; by split].
  - pose proof (delete_index key (d_RegistrationOwner delivery) st) as Hd.
    destruct net; repeat case_bool_decide; cbn [fst]; first [done|by split].
  - pose proof (delete_index key (d_RegistrationOwner delivery) st) as Hd.
    destruct (deleteChordRecordIfOwner _ _ _). destruct net; cbn [fst]; first [done|by split].
Qed.
(** ** What the states mean *)

(** The owner created its record, and the record is gone. *)
Definition dead (s : sys) (o : string) : Prop :=
  ∃ key, born s !! o = Some key ∧ ∀ d, records (store s) !! key = Some (Body d) → d_RegistrationOwner d ≠ o.

(** The owner created its record under the record key of [k]. *)
Definition placed (s : sys) (k o : string) : Prop :=
  ∃ key, redisChordRecordKey k = Some key ∧ born s !! o = Some key.

(** A state was written for a record under the key [key]. *)
Definition known (s : sys) (key : string) (x : option index_state) : Prop :=
  match x with
  | Some (Committed o) => born s !! o = Some key
  | Some (Deleting t) => ∃ o, fences s !! t = Some o ∧ born s !! o = Some key
  | _ => True
  end.

(** A state that no entry of a live record has. *)
Definition stale (s : sys) (x : option index_state) : Prop :=
  match x with
  | Some (Committed o) => dead s o
  | Some (Deleting t) => ∃ o, fences s !! t = Some o ∧ dead s o
  | _ => True
  end.

Lemma known_stale s key x : known s key x → records (store s) !! key = None → stale s x.
Proof.
  intros Hk Hn. assert (Hd : ∀ o, born s !! o = Some key → dead s o).
  { intros o Ho. exists key. split; [done|]. intros d Hd. congruence. }
  destruct x as [[o|o|t]|]; cbn in *; auto. destruct Hk as (o & ? & ?). eauto.
Qed.

(** The entry of [k] is in place for the record of [o]. *)
Definition guarded (F : gmap string string) (st : redis) (k o : string) : Prop :=
  k ∈ deliveries st ∧
  (states st !! k = Some (Committed o) ∨ ∃ t, states st !! k = Some (Deleting t) ∧ F !! t = Some o).

Definition states_ok (s : sys) (st : redis) : Prop :=
  ∀ k x, states st !! k = Some x → ∃ key, redisChordRecordKey k = Some key ∧ known s key (Some x).

(** What a script may rely on; [k0] is the entry of a live record of [o0]. *)
Definition action_ok (s : sys) (a : action) : Prop :=
  match a with
  | ActNone => True
  | ActPrepare k _ => is_Some (redisChordRecordKey k)
  | ActCommit k _ o | ActForce k o | ActEnsure k o => placed s k o
  | ActRemoveIf _ _ | ActRemove _ => True
  | ActBegin k o t => placed s k o ∧ fences s !! t = Some o
  | ActRestore _ t o => fences s !! t = Some o
  end.

Lemma add_delivery_states k st : states (add_delivery k st) = states st.
Proof. done. Qed.

Lemma set_state_ok s st k x key :
  states_ok s st → redisChordRecordKey k = Some key → known s key (Some x) → states_ok s (set_state k x st).
Proof.
  intros Hs Hk Hx k' x'. cbn. unfold constant. rewrite lookup_insert_Some. intros [[<- <-]|[_ Hx']]; eauto.
Qed.

Lemma action_states s a st : action_ok s a → states_ok s st → states_ok s (do_action a st).
Proof.
  intros Ha Hs. destruct a; cbn [action_ok do_action] in Ha |- *; try done.
  - unfold prepareChordIndex. destruct Ha as [key Hk].
    destruct (states st !! k) as [[]|]; cbn [snd]; try done; by eapply set_state_ok.
  - destruct Ha as (key & Hk & Ho). unfold commitChordIndex. rewrite add_delivery_states.
    repeat case_match; try done; by eapply set_state_ok.
  - destruct Ha as (key & Hk & Ho). by eapply set_state_ok.
  - destruct Ha as (key & Hk & Ho). unfold ensureChordIndex. rewrite add_delivery_states.
    repeat case_match; try done; by eapply set_state_ok.
  - unfold removeChordIndexesIfState. case_match; [|done]. intros k' x'. cbn. unfold constant.
    rewrite lookup_delete_Some. intros [_ ?]. eauto.
  - intros k' x'. cbn. unfold constant. rewrite lookup_delete_Some. intros [_ ?]. eauto.
  - destruct Ha as [(key & Hk & Ho) Hf]. unfold beginChordDelete.
    repeat case_match; cbn [snd]; try done; eapply set_state_ok; cbn; eauto.
  - unfold restoreChordIndex. case_bool_decide as Hx; [|done]. destruct (Hs _ _ Hx) as (key & Hk & o & Hf & Ho).
    eapply set_state_ok; [done..|]. cbn. congruence.
Qed.

(** A script keeps the entry of a live record, unless it removes it. *)
Definition spares (s : sys) (a : action) (k : string) : Prop :=
  match a with
  | ActForce k' _ | ActRemove k' => k' ≠ k
  | ActRemoveIf k' x => k' = k → stale s x
  | _ => True
  end.

Lemma guarded_add F st k o k' : guarded F st k o → guarded F (add_delivery k' st) k o.
Proof. intros [Hd Hx]. split; [|done]. cbn. unfold constant. set_solver. Qed.

Lemma guarded_set F st k o k' x :
  guarded F st k o →
  (k' = k → x = Committed o ∨ ∃ t, x = Deleting t ∧ F !! t = Some o) → guarded F (set_state k' x st) k o.
Proof.
  intros [Hd Hx] Hk. split; [done|]. cbn. unfold constant. destruct (decide (k' = k)) as [->|Hne].
  - rewrite lookup_insert_eq. destruct (Hk eq_refl) as [->|(t & -> & Ht)]; eauto.
  - by rewrite lookup_insert_ne.
Qed.

Lemma guarded_remove F st k o k' : guarded F st k o → k' ≠ k → guarded F (removeChordIndexes k' st) k o.
Proof.
  intros [Hd Hx] Hne. split; cbn; unfold constant; [set_solver|]. by rewrite lookup_delete_ne.
Qed.

Lemma stale_guarded s st k o x :
  guarded (fences s) st k o → states st !! k = x → stale s x → dead s o.
Proof.
  intros [_ [Hc|(t & Hc & Ht)]] <- Hs; rewrite Hc in Hs; cbn in Hs; [done|].
  destruct Hs as (o' & Ho' & Hd). congruence.
Qed.

Lemma action_guarded s a st k o :
  action_ok s a → spares s a k → ¬ dead s o →
  guarded (fences s) st k o → guarded (fences s) (do_action a st) k o.
Proof.
  intros Ha Hsp Hlive Hg. pose proof Hg as [_ Hx]. destruct a as [|k' o'|k' e o'|k' o'|k' o'|k' x|k'|k' o' t'|k' t' o'];
    cbn [action_ok spares do_action] in Ha, Hsp |- *; try done.
  - unfold prepareChordIndex. destruct (states st !! k') as [[]|] eqn:Hk'; cbn [snd]; auto using guarded_add;
      apply guarded_set; auto using guarded_add; intros ->; destruct Hx as [?|(? & ? & _)]; congruence.
  - unfold commitChordIndex. rewrite add_delivery_states. destruct (states st !! k') as [x|] eqn:Hk'; [case_bool_decide|];
      auto using guarded_add; apply guarded_set; auto using guarded_add; intros ->;
      destruct Hx as [?|(? & ? & _)]; congruence.
  - apply guarded_set; [by apply guarded_add|done].
  - unfold ensureChordIndex. rewrite add_delivery_states. destruct (states st !! k') as [x|] eqn:Hk';
      auto using guarded_add; apply guarded_set; auto using guarded_add; intros ->;
      destruct Hx as [?|(? & ? & _)]; congruence.
  - unfold removeChordIndexesIfState. case_bool_decide as Hk'; [|done]. apply guarded_remove; [done|].
    intros ->. by eapply Hlive, stale_guarded, Hsp.
  - by apply guarded_remove.
  - destruct Ha as [_ Hf]. unfold beginChordDelete. destruct (states st !! k') as [[o1|o1|t1]|] eqn:Hk'; try done.
    + destruct (String.eqb_spec o1 o') as [->|]; [|done]. apply guarded_set; [done|]. intros ->. right.
      destruct Hx as [?|(? & ? & _)]; [|congruence]. exists t'. split; [done|]. congruence.
    + apply guarded_set; [done|]. intros ->. destruct Hx as [?|(? & ? & _)]; congruence.
  - unfold restoreChordIndex. case_bool_decide as Hk'; [|done]. apply guarded_set; [done|]. intros ->. left.
    destruct Hx as [?|(t & ? & ?)]; [congruence|]. f_equal. congruence.
Qed.

End index.
