(* ===== verification/ChordRedisStep.v ===== *)
(** * The Redis chord store: the invariant of the index protocol

    What each client knows of the owners, tokens and states it holds, and that
    every step of an orderly run preserves it; a run in which no chord is registered
    anew while a client is about to drop its entry is orderly. *)

From S2P Require Import Prelude GoText Chord ChordStore ChordInv ChordThms ChordRedis ChordRedisInv ChordRedisHist ChordRedisIndex.
From coqutil Require Import Datatypes.RecordSetters.
Import DoubleBraceUpdate.

Section protocol.
Context `{ChordJSON}.

(** ** The knowledge of a position *)

Definition pc_index (s : sys) (p : pc) : Prop :=
  match p with
  | RegBlocked j _ x => known s (j_key j) (Some x)
  | RegClear _ _ x => stale s (Some x)
  | RegCommit _ d | RegEnsure _ d | ScanEnsure _ _ d => placed s (d_DeliveryKey d) (d_RegistrationOwner d)
  | AbWatch key ref _ => born s !! rf_Owner ref = Some key
  | AbLoad key ref _ t _ | AbRestoreAgain key ref _ t =>
      born s !! rf_Owner ref = Some key ∧ fences s !! t = Some (rf_Owner ref)
  | AbBegin key ref _ t _ d | AbExec key ref _ t _ d | AbRestore key ref _ t d _ =>
      born s !! rf_Owner ref = Some key ∧ fences s !! t = Some (rf_Owner ref) ∧
      d_RegistrationOwner d = rf_Owner ref ∧ redisChordRecordKey (d_DeliveryKey d) = Some key
  | AbRemove _ x => stale s (Some x)
  | ScanMalformed _ k | CleanMalformed _ k => redisChordRecordKey k = None
  | ScanGet _ k key | ScanState _ k key | CleanGet _ k key => redisChordRecordKey k = Some key
  | ScanRecheck _ k key x => redisChordRecordKey k = Some key ∧ known s key x
  | ScanRemove _ _ x => stale s x
  | CleanBegin _ k key d t | CleanDelete _ k key d t =>
      redisChordRecordKey k = Some key ∧ born s !! d_RegistrationOwner d = Some key ∧
      fences s !! t = Some (d_RegistrationOwner d)
  | CleanRestore _ _ d t => fences s !! t = Some (d_RegistrationOwner d)
  | CleanDrop _ _ t _ => stale s (Some (Deleting t))
  | _ => True
  end.

(** A registration that has not created its record, or is about to commit it. *)
Definition pc_fresh (s : sys) (p : pc) : Prop :=
  match p with
  | RegForce j =>
      (j_owner j ∉ forced s) ∧
      ∃ d, records (store s) !! j_key j = Some (Body d) ∧ d_DeliveryKey d = j_delivery_key j ∧
           d_RegistrationOwner d = j_owner j
  | p => ∀ j, pc_job p = Some j → born s !! j_owner j = None
  end.

Record index_inv (s : sys) : Prop := {
  ii_born : ∀ key d, records (store s) !! key = Some (Body d) → born s !! d_RegistrationOwner d = Some key;
  ii_states : states_ok s (store s);
  ii_live : ∀ key d, records (store s) !! key = Some (Body d) → d_RegistrationOwner d ∈ forced s →
    guarded (fences s) (store s) (d_DeliveryKey d) (d_RegistrationOwner d);
  ii_forced : ∀ o, o ∈ forced s → is_Some (born s !! o);
  ii_born_used : ∀ o key, born s !! o = Some key → o ∈ used s;
  ii_fences_used : ∀ t o, fences s !! t = Some o → t ∈ used s;
  ii_unique : ∀ i i' p p' j j', clients s !! i = Some p → clients s !! i' = Some p' →
    pc_job p = Some j → pc_job p' = Some j' → j_owner j = j_owner j' → i = i';
  ii_job : ∀ i p j, clients s !! i = Some p → pc_job p = Some j → j_owner j ∈ used s;
  ii_fresh : ∀ i p, clients s !! i = Some p → pc_fresh s p;
  ii_pc : ∀ i p, clients s !! i = Some p → pc_index s p;
}.

(** ** What persists *)

Record extends (s s' : sys) : Prop := {
  ex_born : born s ⊆ born s';
  ex_fences : fences s ⊆ fences s';
  ex_used : used s ⊆ used s';
  ex_dead : ∀ o, dead s o → dead s' o;
}.

Section extension.
Context (s s' : sys) (Hx : extends s s').

Lemma born_ext o key : born s !! o = Some key → born s' !! o = Some key.
Proof. intros Ho. by eapply lookup_weaken, ex_born. Qed.
Lemma fences_ext t o : fences s !! t = Some o → fences s' !! t = Some o.
Proof. intros Ho. by eapply lookup_weaken, ex_fences. Qed.
Lemma known_ext key x : known s key x → known s' key x.
Proof.
  destruct x as [[o|o|t]|]; cbn [known]; [done|apply born_ext| |done].
  intros (o & ? & ?). eauto using born_ext, fences_ext.
Qed.
Lemma stale_ext x : stale s x → stale s' x.
Proof.
  destruct x as [[o|o|t]|]; cbn [stale]; [done|by apply (ex_dead _ _ Hx)| |done].
  intros (o & ? & ?). exists o. split; [by apply fences_ext|by apply (ex_dead _ _ Hx)].
Qed.
Lemma placed_ext k o : placed s k o → placed s' k o.
Proof. intros (key & ? & ?). exists key. auto using born_ext. Qed.

Lemma pc_index_ext p : pc_index s p → pc_index s' p.
Proof.
  destruct p; cbn [pc_index]; intros; destr_hyps; split_and?;
    auto using born_ext, fences_ext, placed_ext, known_ext, stale_ext.
Qed.

Lemma states_ext st : states_ok s st → states_ok s' st.
Proof. intros Hs k x Hk. destruct (Hs k x Hk) as (key & ? & ?). eauto using known_ext. Qed.

Lemma guarded_ext st k o : guarded (fences s) st k o → guarded (fences s') st k o.
Proof. intros [? [?|(t & ? & ?)]]; split; auto. right. eauto using fences_ext. Qed.
End extension.

(** ** A command *)

Section command.
Context (es : list event) (s : sys) (i : nat) (p : pc) (token : string) (net : reply) (st' : redis) (p' : pc).
Context (HH : hist_inv es s) (HI : index_inv s) (Hp : clients s !! i = Some p) (Htok : token ∉ used s)
  (Hrun : run token net p (store s) = (st', p')).
Let s' : sys :=
  {| store := st'; clients := <[i := p']> (clients s); used := {[token]} ∪ used s; born := births p s;
     forced := commits p s; fences := draws token p s |}.

Lemma watched_here : pc_watched (store s) p.
Proof. by eapply (proj1 (list.Forall_forall _ _) (hi_watched _ _ HH)), list_elem_of_lookup_2. Qed.

(** Where a record comes from. *)
Lemma record_back key d' : records st' !! key = Some (Body d') →
  (∃ d, records (store s) !! key = Some (Body d) ∧ same_def d d') ∨
  (∃ j, p = RegCreate j ∧ key = j_key j ∧ d' = j_delivery j ∧ records (store s) !! key = None).
Proof.
  intros Hd'. destruct (run_records _ _ _ _ _ _ key Hrun) as [[Hr _]|[Hw _]].
  - left. exists d'. split; [congruence|apply same_def_refl].
  - rewrite Hd' in Hw. inversion Hw as [j Ej Ek Hn Eb|op n d a Ep Eb| |].
    + right. by exists j.
    + left. pose proof watched_here as Hwt. rewrite Ep in Hwt. destruct Hwt as [_ Hd].
      destruct (Hd eq_refl) as (d0 & Hd0 & Hm). exists d0. split; [done|].
      apply (mutate_ok _ _ _ _ _ _ (hi_records _ _ HH _ _ Hd0) Hm).
Qed.

(** What becomes of a record. *)
Lemma record_forth key d : records (store s) !! key = Some (Body d) →
  (∃ d', records st' !! key = Some (Body d') ∧ same_def d d') ∨
  (records st' !! key = None ∧ removed_key (ERun i token net) s = Some key).
Proof.
  intros Hd. destruct (run_records _ _ _ _ _ _ key Hrun) as [[Hr _]|[Hw _]].
  - left. exists d. split; [congruence|apply same_def_refl].
  - cbn. rewrite Hp. inversion Hw as [j Ej Ek Hn Eb|op n d' a Ep Eb|ref n t d1 d2 Ep _ _ Eb|f k t d1 d2 Ep _ _ Eb].
    + congruence.
    + left. exists d'. split; [done|]. pose proof watched_here as Hwt. rewrite Ep in Hwt. destruct Hwt as [_ Hd1].
      destruct (Hd1 eq_refl) as (d0 & Hd0 & Hm). assert (d0 = d) as -> by congruence.
      apply (mutate_ok _ _ _ _ _ _ (hi_records _ _ HH _ _ Hd0) Hm).
    + right. by rewrite Ep.
    + right. by rewrite Ep.
Qed.

Lemma births_cases :
  births p s = born s ∨
  ∃ j, p = RegCreate j ∧ born s !! j_owner j = None ∧ births p s = <[j_owner j := j_key j]> (born s).
Proof.
  destruct p; cbn [births]; auto. destruct (records (store s) !! j_key j) eqn:Hk; auto.
  right. exists j. split_and!; auto. by apply (ii_fresh _ HI i (RegCreate j)).
Qed.

Lemma draws_cases : draws token p s = fences s ∨ ∃ o, draws token p s = <[token := o]> (fences s).
Proof. destruct p; cbn [draws]; eauto. case_match; eauto. Qed.

Lemma fences_token : fences s !! token = None.
Proof. destruct (fences s !! token) eqn:Ht; [|done]. by apply (ii_fences_used _ HI) in Ht. Qed.

Lemma command_extends : extends s s'.
Proof.
  split; cbn.
  - destruct births_cases as [->|(j & _ & Hn & ->)]; [done|by apply insert_subseteq].
  - destruct draws_cases as [->|(o & ->)]; [done|]. apply insert_subseteq, fences_token.
  - set_solver.
  - intros o (key & Hb & Hd). exists key. cbn. split.
    + destruct births_cases as [->|(j & _ & Hn & ->)]; [done|]. rewrite lookup_insert_ne; [done|]. congruence.
    + intros d' Hd'. destruct (record_back _ _ Hd') as [(d & Hd0 & Hs)|(j & -> & -> & -> & Hn)].
      * rewrite (sd_owner _ _ Hs). by apply Hd.
      * pose proof (ii_fresh _ HI _ _ Hp) as Hf. intros Ho. specialize (Hf j eq_refl). unfold j_owner in Hf. congruence.
Qed.

Lemma command_born key d : records st' !! key = Some (Body d) → births p s !! d_RegistrationOwner d = Some key.
Proof.
  intros Hd. destruct (record_back _ _ Hd) as [(d0 & Hd0 & Hs)|(j & -> & -> & -> & Hn)].
  - rewrite (sd_owner _ _ Hs). apply (born_ext s s' command_extends). by apply (ii_born _ HI).
  - cbn [births]. rewrite Hn. apply lookup_insert_eq.
Qed.

(** *** The indexes *)

Lemma job_here j : pc_job p = Some j → redisChordRecordKey (j_delivery_key j) = Some (j_key j).
Proof. intros Hj. by destruct (hi_jobs _ _ HH _ _ _ Hp Hj). Qed.

Lemma command_action_ok : action_ok s (pc_action p).
Proof.
  pose proof (ii_pc _ HI _ _ Hp) as Hi. pose proof (ii_fresh _ HI _ _ Hp) as Hf. pose proof job_here as Hj.
  destruct p; cbn [pc_action action_ok pc_index pc_fresh pc_job] in *; auto.
  - by rewrite (Hj j).
  - destruct Hf as (_ & d & Hd & Hk & Ho). exists (j_key j). split; [auto|]. rewrite <- Ho. by apply (ii_born _ HI).
  - destruct Hi as (? & ? & Ho & ?). rewrite Ho. split; [by eexists|done].
  - destruct Hi as (? & ? & Ho & ?). by rewrite Ho.
  - tauto.
  - destruct Hi as (? & ? & ?). split; [by eexists|done].
Qed.

Lemma live_here key d : records (store s) !! key = Some (Body d) → ¬ dead s (d_RegistrationOwner d).
Proof.
  intros Hd (key' & Hb & Hdead). rewrite (ii_born _ HI _ _ Hd) in Hb. injection Hb as <-. by eapply Hdead.
Qed.

Lemma record_key_here key d :
  records (store s) !! key = Some (Body d) → redisChordRecordKey (d_DeliveryKey d) = Some key.
Proof. intros Hd. apply (hi_records _ _ HH _ _ Hd). Qed.

Lemma command_spares key d :
  unraced (ERun i token net) s = true → records (store s) !! key = Some (Body d) →
  d_RegistrationOwner d ∈ forced s → spares s (pc_action p) (d_DeliveryKey d).
Proof.
  intros Hu Hd Hf. cbn in Hu. rewrite Hp in Hu. pose proof (record_key_here _ _ Hd) as Hk.
  pose proof (ii_pc _ HI _ _ Hp) as Hi. pose proof (ii_fresh _ HI _ _ Hp) as Hfr. pose proof job_here as Hj.
  assert (Hv : ∀ k, vacant (store s) k = true → k ≠ d_DeliveryKey d).
  { intros k Hv ->. unfold vacant in Hv. rewrite Hk in Hv. cbn in Hv. by rewrite Hd, String.eqb_refl in Hv. }
  destruct p; cbn [pc_action spares pc_index pc_fresh pc_job] in *; auto; try congruence.
  - destruct Hfr as (Hn & d0 & Hd0 & Hk0 & Ho0). intros Heq. rewrite <- Heq, (Hj j eq_refl) in Hk.
    injection Hk as <-. assert (d0 = d) as -> by congruence. congruence.
  - intros Heq. by apply Hv in Hu.
  - intros Heq. by apply Hv in Hu.
Qed.

Lemma commits_cases o : o ∈ commits p s → o ∈ forced s ∨ ∃ j, p = RegForce j ∧ o = j_owner j.
Proof. destruct p; cbn [commits]; auto. rewrite elem_of_union, elem_of_singleton. naive_solver. Qed.

Lemma same_index_guarded F st st1 k o : same_index st st1 → guarded F st k o → guarded F st1 k o.
Proof. unfold guarded. by intros [-> ->]. Qed.

Lemma command_live key d :
  unraced (ERun i token net) s = true → records st' !! key = Some (Body d) →
  d_RegistrationOwner d ∈ commits p s → guarded (draws token p s) st' (d_DeliveryKey d) (d_RegistrationOwner d).
Proof.
  intros Hu Hd Hf. pose proof (run_action _ _ _ _ _ _ Hrun) as Ha.
  apply (guarded_ext s s' command_extends). eapply same_index_guarded; [exact Ha|].
  destruct (record_back _ _ Hd) as [(d0 & Hd0 & Hs)|(j & -> & -> & -> & Hn)].
  - rewrite (sd_owner _ _ Hs), (sd_key _ _ Hs) in *. destruct (commits_cases _ Hf) as [Hf0|(j & -> & Ho)].
    + apply action_guarded; [apply command_action_ok|by eapply command_spares|by eapply live_here|].
      by eapply (ii_live _ HI).
    + destruct (ii_fresh _ HI _ _ Hp) as (_ & d1 & Hd1 & Hk1 & Ho1).
      assert (Heq : key = j_key j).
      { apply (ii_born _ HI) in Hd0, Hd1. rewrite Ho, <- Ho1 in Hd0. congruence. }
      subst key. assert (d1 = d0) as -> by congruence. rewrite Hk1, Ho. cbn [pc_action do_action].
      unfold forceCommitChordIndex. split; cbn; unfold constant; [set_solver|left]. by rewrite lookup_insert_eq.
  - exfalso. cbn [commits] in Hf. destruct (ii_forced _ HI _ Hf) as [key Hb].
    pose proof (ii_fresh _ HI _ _ Hp j eq_refl) as Hfr. unfold j_owner in Hfr. congruence.
Qed.

(** *** The client that runs *)

Lemma scan_next_index f : pc_index s' (scan_next f).
Proof. unfold scan_next, scan_finish. by repeat case_goal. Qed.
Lemma clean_next_index f : pc_index s' (clean_next f).
Proof. unfold clean_next. by repeat case_goal. Qed.
Lemma finish_index d a : pc_index s' (update_finish d a).
Proof. unfold update_finish. by case_goal. Qed.
Lemma retry_index key op n : pc_index s' (update_retry key op n).
Proof. unfold update_retry. by case_goal. Qed.
Lemma attached_index j d : pc_index s' (attached j d).
Proof. unfold attached. by case_goal. Qed.
Lemma abort_retry_index key ref n : born s !! rf_Owner ref = Some key → pc_index s' (abort_retry key ref n).
Proof. unfold abort_retry. case_goal; [apply (born_ext s s' command_extends)|done]. Qed.
#[local] Hint Resolve scan_next_index clean_next_index finish_index retry_index attached_index
  abort_retry_index : chord_redis.

Lemma load_placed key d : loadChordDelivery key (store s) = inr d →
  born s !! d_RegistrationOwner d = Some key ∧ redisChordRecordKey (d_DeliveryKey d) = Some key.
Proof. intros Hd. apply load_inv in Hd. split; [by apply (ii_born _ HI)|by apply record_key_here]. Qed.

Lemma load_nil key : loadChordDelivery key (store s) = inl ENil → records (store s) !! key = None.
Proof. unfold loadChordDelivery. by repeat case_match. Qed.

Lemma state_known k key : redisChordRecordKey k = Some key → known s key (states (store s) !! k).
Proof.
  intros Hk. destruct (states (store s) !! k) as [x|] eqn:Hs; [|done].
  destruct (ii_states _ HI _ _ Hs) as (key' & Hk' & Hx). by assert (key' = key) as -> by congruence.
Qed.

Lemma dead_gone o key : born s !! o = Some key →
  (∀ d, records st' !! key = Some (Body d) → d_RegistrationOwner d ≠ o) → dead s' o.
Proof. intros Hb Hd. exists key. split; [by apply (born_ext s s' command_extends)|done]. Qed.

(** Reading positions keep what they knew. *)
Lemma index_here : pc_index s' p.
Proof. apply (pc_index_ext s s' command_extends). by apply (ii_pc _ HI i). Qed.

Lemma deleted_record key st : records (del_record key st) !! key = None.
Proof. cbn. unfold constant. apply lookup_delete_eq. Qed.

Lemma abort_exec_index key ref n t rv d :
  p = AbExec key ref n t rv d → pc_index s' p'.
Proof.
  intros Ep. pose proof command_extends as Hx. pose proof dead_gone as Hg. pose proof index_here as Hi. pose proof (ii_pc _ HI _ _ Hp) as Hi0. pose proof watched_here as Hw.
  pose proof Hrun as Hr. rewrite Ep in Hi, Hi0, Hw, Hr. cbn [run run_abort] in Hr. destruct Hw as [[_ Hw] _].
  case_bool_decide as Hrv; [|by destruct net; injection Hr as _ Hpc; rewrite <- Hpc].
  destruct (Hw Hrv) as (d0 & Hd0 & ->). unfold deleteChordRecordIfOwner in Hr. rewrite Hd0, String.eqb_refl in Hr.
  cbn [snd] in Hr. destruct net; injection Hr as Hst Hpc; rewrite <- Hpc; try done. destruct Hi0 as (Hb & Hf & _ & _).
  exists (rf_Owner ref). split; [by apply (fences_ext s s' Hx)|]. eapply Hg; [done|].
  intros d1 Hd1. by rewrite <- Hst, deleted_record in Hd1.
Qed.

Lemma clean_delete_index f k key d t :
  p = CleanDelete f k key d t → pc_index s' p'.
Proof.
  intros Ep. pose proof command_extends as Hx. pose proof dead_gone as Hg. pose proof index_here as Hi. pose proof (ii_pc _ HI _ _ Hp) as Hi0.
  pose proof Hrun as Hr. rewrite Ep in Hi, Hi0, Hr. cbn [run run_clean] in Hr. destruct Hi as (Hk & Hb & Hf).
  destruct (deleteChordRecordIfOwner _ _ _) as [n st1] eqn:Hdel. destruct net; injection Hr as Hst Hpc; rewrite <- Hpc; try done.
  destruct Hi0 as (_ & Hb0 & _). exists (d_RegistrationOwner d). split; [done|]. eapply Hg; [done|].
  intros d1 Hd1. rewrite <- Hst in Hd1. unfold deleteChordRecordIfOwner in Hdel.
  destruct (records (store s) !! key) as [[d2|]|] eqn:Hrec; [|injection Hdel as _ <-; congruence..].
  destruct (String.eqb_spec (d_RegistrationOwner d2) (d_RegistrationOwner d)); injection Hdel as _ <-; [|congruence].
  by rewrite deleted_record in Hd1.
Qed.

Lemma command_index : pc_index s' p'.
Proof.
  pose proof command_extends as Hx. pose proof index_here as Hi. pose proof (ii_pc _ HI _ _ Hp) as Hi0.
  pose proof job_here as Hj. pose proof abort_exec_index as HAE. pose proof clean_delete_index as HCD.
  pose proof scan_next_index as Hscan. pose proof clean_next_index as Hclean. pose proof finish_index as Hfin.
  pose proof retry_index as Hret. pose proof attached_index as Hatt. pose proof abort_retry_index as Habt.
  pose proof (born_ext s s' Hx) as Hbx. pose proof (fences_ext s s' Hx) as Hfx.
  pose proof (known_ext s s' Hx) as Hkx. pose proof (stale_ext s s' Hx) as Hsx.
  pose proof Hrun as Hr. apply (f_equal snd) in Hr. cbn [snd] in Hr. rewrite <- Hr.
  destruct p eqn:Ep; cbn [run run_register run_abort updateChordDelivery run_prepare run_scan run_clean] in Hr |- *.
  all: try solve [unfold claim_callback_load, reconcile_load; repeat case_goal; cbn [snd]; first [exact I|by auto]].
  - unfold prepareChordIndex. pose proof (state_known _ _ (Hj j eq_refl)) as Hk.
    destruct (states (store s) !! _) as [[| |t]|]; try exact I. by apply (Hkx _ (Some (Deleting t))).
  - destruct (loadChordDelivery _ _) as [[]|] eqn:Hl; try exact I; [|by case_goal].
    apply (Hsx (Some state)). eapply known_stale; [exact Hi0|by apply load_nil].
  - destruct (loadChordDelivery _ _) as [[]|d] eqn:Hl; try exact I. apply load_placed in Hl as [Hb Hk].
    repeat case_goal; try exact I; exists (j_key j); auto.
  - split; [exact Hi|apply lookup_insert_eq].
  - destruct Hi0 as [Hb Hf]. destruct (loadChordDelivery _ _) as [[]|d] eqn:Hl; try exact I.
    + apply (Hsx (Some (Committed _))). eapply known_stale; [exact Hb|by apply load_nil].
    + apply load_placed in Hl as [Hb' Hk].
      destruct (String.eqb_spec (d_RegistrationOwner d) (rf_Owner ref)); [|exact I].
      repeat case_goal; try exact I. cbn [snd]. split_and!; auto.
  - destruct (beginChordDelete _ _ _ _) as [[] st1]; [exact Hi|apply Habt, Hi0].
  - rewrite Hr. by eapply HAE.
  - destruct conflict; [|exact I]. destruct Hi as (? & ? & _). by split.
  - apply Habt, Hi0.
  - destruct (loadChordDelivery _ _) as [[]|d] eqn:Hl; try exact I; [exact Hi|].
    apply load_placed in Hl as [Hb Hk]. exists key. auto.
  - pose proof (state_known _ _ Hi0) as Hk. unfold chordIndexState.
    destruct (states (store s) !! _) as [[o|o|t]|]; cbn [snd]; [apply Hscan| |apply Hscan|by split].
    split; [exact Hi0|]. by apply (Hkx _ (Some (Committed o))).
  - destruct (loadChordDelivery _ _) as [[]|d] eqn:Hl; try exact I.
    + apply Hsx. eapply known_stale; [apply Hi0|by apply load_nil].
    + apply load_placed in Hl as [Hb Hk]. exists key. auto.
  - destruct (loadChordDelivery _ _) as [[]|d] eqn:Hl; try exact I. pose proof (load_placed _ _ Hl) as [Hb Hk].
    repeat case_goal; try exact I. cbn [snd]. split_and!; auto. cbn [fences draws]. subst s'. cbn [fences draws].
    rewrite Hl. apply lookup_insert_eq.
  - rewrite Hr. by eapply HCD.
Qed.

(** *** The registrations *)

Lemma no_job_fresh s0 q : pc_job q = None → pc_fresh s0 q.
Proof. destruct q; cbn; intros; simplify_eq; done. Qed.

Lemma owner_not_forced j : born s !! j_owner j = None → j_owner j ∉ forced s.
Proof. intros Hn Hf. apply (ii_forced _ HI) in Hf as [key Hk]. congruence. Qed.

Lemma created_fresh j : p = RegCreate j → pc_fresh s' p'.
Proof.
  intros Ep. pose proof (ii_fresh _ HI _ _ Hp) as Hf. pose proof Hrun as Hr. rewrite Ep in Hf, Hr.
  specialize (Hf j eq_refl). cbn [run run_register] in Hr.
  destruct (records (store s) !! j_key j) eqn:Hk; injection Hr as Hst Hpc; rewrite <- Hpc; cbn [pc_fresh].
  - intros j' [= <-]. unfold s'. rewrite Ep. cbn [born births]. by rewrite Hk.
  - unfold s'. rewrite Ep. cbn [forced commits store]. split; [by apply owner_not_forced|].
    exists (j_delivery j). rewrite <- Hst. split; [|done]. cbn. unfold constant. apply lookup_insert_eq.
Qed.

Lemma command_fresh : pc_fresh s' p'.
Proof.
  pose proof created_fresh as Hcr. pose proof (ii_fresh _ HI _ _ Hp) as Hf. pose proof Hrun as Hr.
  destruct (run_job _ _ _ _ _ _ Hrun) as [He|He]; [|by apply no_job_fresh].
  apply (f_equal snd) in Hr. cbn [snd] in Hr.
  destruct p eqn:Ep; cbn [pc_job] in He; try (by apply no_job_fresh); try (by eapply Hcr).
  all: cbn [run run_register] in Hr; rewrite <- Hr in He |- *.
  all: repeat case_goal; cbn [snd] in *; try exact Hf; try discriminate He.
  all: try (intros j' Hj'; rewrite He in Hj'; by apply Hf).
  all: unfold attached in *; repeat case_goal; discriminate He.
Qed.

Lemma other_fresh i' q : i' ≠ i → clients s !! i' = Some q →
  prompt (ERun i token net) s s' = true → pc_fresh s' q.
Proof.
  intros Hne Hq Hpr. pose proof (ii_fresh _ HI _ _ Hq) as Hf.
  assert (Hb : ∀ j, pc_job q = Some j → born s !! j_owner j = None → births p s !! j_owner j = None).
  { intros j Hj Hn. destruct births_cases as [->|(j0 & Ep & _ & ->)]; [done|].
    rewrite lookup_insert_ne; [done|]. intros He. apply Hne. symmetry.
    eapply (ii_unique _ HI i i' p q j0 j); auto. by rewrite Ep. }
  destruct q; try exact I; try (intros j' Hj'; apply Hb; [done|by apply Hf]).
  destruct Hf as (Hn & d & Hd & Hk & Ho). split; cbn [forced s'].
  - intros Hc. destruct (commits_cases _ Hc) as [?|(j0 & Ep & He)]; [done|]. apply Hne. symmetry.
    eapply (ii_unique _ HI i i' p (RegForce j) j0 j); auto. by rewrite Ep.
  - destruct (record_forth _ _ Hd) as [(d' & Hd' & Hs)|[Hr Hrm]].
    + exists d'. split; [done|]. by rewrite (sd_key _ _ Hs), (sd_owner _ _ Hs).
    + exfalso. unfold prompt in Hpr. rewrite Hrm, Hd in Hpr. cbn [store s'] in Hpr. rewrite Hr in Hpr.
      apply bool_decide_eq_true in Hpr. congruence.
Qed.

Lemma client_cases i' q : clients s' !! i' = Some q → (i' = i ∧ q = p') ∨ (i' ≠ i ∧ clients s !! i' = Some q).
Proof. cbn. intros Hq. apply list_lookup_insert_Some in Hq as [(<- & -> & _)|[? ?]]; auto. Qed.

(** The registration of a client was there before. *)
Lemma job_before i' q j : clients s' !! i' = Some q → pc_job q = Some j →
  ∃ q0, clients s !! i' = Some q0 ∧ pc_job q0 = Some j.
Proof.
  intros Hq Hj. destruct (client_cases _ _ Hq) as [[-> ->]|[_ Hq0]]; [|eauto].
  exists p. split; [done|]. destruct (run_job _ _ _ _ _ _ Hrun); congruence.
Qed.

Lemma command_inv :
  prompt (ERun i token net) s s' = true → unraced (ERun i token net) s = true → index_inv s'.
Proof.
  intros Hpr Hu. pose proof command_extends as Hx. split.
  - apply command_born.
  - intros k x Hk. destruct (run_action _ _ _ _ _ _ Hrun) as [_ Hst].
    eapply states_ext; [done|apply (action_states s (pc_action p) (store s))|by rewrite <- Hst].
    + apply command_action_ok.
    + apply (ii_states _ HI).
  - intros key d Hd Hf. by eapply command_live.
  - intros o Ho. destruct (commits_cases _ Ho) as [Hf|(j & Ep & ->)].
    + destruct (ii_forced _ HI _ Hf) as [key Hk]. exists key. by apply (born_ext s s' Hx).
    + pose proof (ii_fresh _ HI _ _ Hp) as Hf. rewrite Ep in Hf. destruct Hf as (_ & d & Hd & _ & <-).
      exists (j_key j). by apply (born_ext s s' Hx), (ii_born _ HI).
  - intros o key Ho. cbn in Ho |- *. apply elem_of_union_r. destruct births_cases as [He|(j & Ep & _ & He)]; rewrite He in Ho.
    + by eapply (ii_born_used _ HI).
    + apply lookup_insert_Some in Ho as [[<- _]|[_ Ho]]; [|by eapply (ii_born_used _ HI)].
      eapply (ii_job _ HI i p); [done|]. by rewrite Ep.
  - intros t o Ht. cbn in Ht |- *. destruct draws_cases as [He|(o' & He)]; rewrite He in Ht.
    + apply elem_of_union_r. by eapply (ii_fences_used _ HI).
    + apply lookup_insert_Some in Ht as [[<- _]|[_ Ht]]; [set_solver|].
      apply elem_of_union_r. by eapply (ii_fences_used _ HI).
  - intros i1 i2 q1 q2 j1 j2 H1 H2 Hj1 Hj2 He. destruct (job_before _ _ _ H1 Hj1) as (? & ? & ?).
    destruct (job_before _ _ _ H2 Hj2) as (? & ? & ?). by eapply (ii_unique _ HI).
  - intros i' q j Hq Hj. destruct (job_before _ _ _ Hq Hj) as (? & ? & ?). cbn. apply elem_of_union_r.
    by eapply (ii_job _ HI).
  - intros i' q Hq. destruct (client_cases _ _ Hq) as [[-> ->]|[Hne Hq0]]; [apply command_fresh|by eapply other_fresh].
  - intros i' q Hq. destruct (client_cases _ _ Hq) as [[-> ->]|[Hne Hq0]]; [apply command_index|].
    apply (pc_index_ext s s' Hx). by eapply (ii_pc _ HI).
Qed.

End command.

(** ** Calls and expiry *)

Lemma start_index s m : may_call m s = true → pc_index s (start m).
Proof.
  destruct m; cbn [start may_call]; unfold RegisterChord, AbortRegistration, ClaimMemberPublication,
    RecordMemberPublishOutcome, RecordMemberTerminal, RecordCallbackPublishOutcome, RecordCallbackTerminal,
    ClaimCallbackPublication, ReconcileChord, ScanChordDeliveries, CleanupTerminalChordDeliveries, update_key.
  2: { intros Hm. destruct (rf_Created ref); [|exact I]. cbn [negb orb] in *. apply bool_decide_eq_true in Hm as [_ Hb].
       destruct (redisChordRecordKey _) as [key|]; [exact Hb|exact I]. }
  all: intros _; by repeat case_goal.
Qed.

Lemma new_job s m : may_call m s = true → ∀ j, pc_job (start m) = Some j →
  j_owner j ∈ drawn m ∧ (j_owner j ∉ used s) ∧ start m = RegPrepare j 0.
Proof.
  intros Hm j Hj. destruct (start_job [] m j Hj) as (_ & Hd & Hs). rewrite Hd. split; [by apply elem_of_singleton|].
  split; [|done]. destruct m; cbn in Hd; try by apply symmetry, non_empty_singleton_L in Hd.
  apply singleton_inj in Hd as ->. by apply bool_decide_eq_true in Hm.
Qed.

Lemma call_inv s m :
  index_inv s → may_call m s = true →
  index_inv (s {{ clients := clients s ++ [start m]; used := drawn m ∪ used s }}).
Proof.
  intros HI Hm. destruct HI as [Hb Hst Hl Hf Hbu Hfu Hu Hj Hfr Hpc].
  pose proof (new_job s m Hm) as Hnew.
  assert (Hcl : ∀ i p, (clients s ++ [start m]) !! i = Some p →
    clients s !! i = Some p ∨ i = length (clients s) ∧ p = start m).
  { intros i p Hi. apply lookup_app_Some in Hi as [Hi|[Hle Hi]]; [by left|right].
    apply list_lookup_singleton_Some in Hi as [Hi <-]. split; [lia|done]. }
  split; cbn; unfold constant; try done.
  - intros o key Ho. apply elem_of_union_r. eauto.
  - intros t o Ho. apply elem_of_union_r. eauto.
  - intros i1 i2 q1 q2 j1 j2 H1 H2 Hj1 Hj2 He. apply Hcl in H1 as [H1|[-> ->]]; apply Hcl in H2 as [H2|[-> ->]]; eauto.
    + exfalso. destruct (Hnew _ Hj2) as (_ & Hn & _). apply Hn. rewrite <- He. eauto.
    + exfalso. destruct (Hnew _ Hj1) as (_ & Hn & _). apply Hn. rewrite He. eauto.
  - intros i q j Hq Hqj. apply Hcl in Hq as [Hq|[-> ->]]; [apply elem_of_union_r; eauto|].
    apply elem_of_union_l. by apply Hnew.
  - intros i q Hq. apply Hcl in Hq as [Hq|[-> ->]]; [by apply (Hfr i)|].
    destruct (pc_job (start m)) as [j|] eqn:Hsj; [|by apply no_job_fresh].
    destruct (Hnew _ eq_refl) as (_ & Hn & ->). intros j' [= <-].
    destruct (born s !! j_owner j) eqn:Hbj; [|done]. by apply Hbu in Hbj.
  - intros i q Hq. apply Hcl in Hq as [Hq|[-> ->]]; [by apply (Hpc i)|exact (start_index s m Hm)].
Qed.

Lemma expire_inv s key d :
  index_inv s → records (store s) !! key = Some (Body d) → d_RegistrationOwner d ∈ forced s →
  index_inv (mkSys (del_record key (store s)) (clients s) (used s) (born s) (forced s) (fences s)).
Proof.
  intros HI Hd Hfo. set (s' := mkSys _ _ _ _ _ _).
  assert (Hback : ∀ key' d', records (store s') !! key' = Some (Body d') → records (store s) !! key' = Some (Body d')).
  { intros key' d'. destruct (del_record_spec key (store s) key') as [[Hr _]|(-> & Hr & _)]; cbn [store s']; congruence. }
  assert (Hx : extends s s').
  { split; try done. intros o (key' & Hb & Hn). exists key'. split; [done|]. intros d' Hd'. exact (Hn _ (Hback _ _ Hd')). }
  split; try apply HI.
  - intros key' d' Hd'. by apply (ii_born _ HI), Hback.
  - intros key' d' Hd' Hf'. by apply (ii_live _ HI key' d'); [apply Hback|].
  - intros i q Hq. pose proof (ii_fresh _ HI _ _ Hq) as Hfr. destruct q; try exact Hfr.
    destruct Hfr as (Hn & d0 & Hd0 & Hk & Ho). split; [done|]. exists d0. split; [|done].
    destruct (del_record_spec key (store s) (j_key j)) as [[Hr _]|(He & Hr & _)]; cbn [store s']; [congruence|].
    exfalso. rewrite He in Hd0. assert (d0 = d) as -> by congruence. congruence.
  - intros i q Hq. apply (pc_index_ext s s' Hx). by apply (ii_pc _ HI i).
Qed.

(** ** Orderly runs *)

Lemma step_inv es s e s' :
  hist_inv es s → index_inv s → sys_step e s = Some s' → prompt e s s' = true → unraced e s = true → index_inv s'.
Proof.
  intros HH HI Hstep Hpr Hu. destruct e as [m|i token net|key]; cbn in Hstep.
  - destruct (may_call m s) eqn:Hm; [|done]. injection Hstep as <-. by apply call_inv.
  - destruct (clients s !! i) as [p|] eqn:Hp; [|done]. cbn in Hstep. case_bool_decide as Ht; [done|].
    destruct (run token net p (store s)) as [st' p'] eqn:Hrun. injection Hstep as <-. by eapply command_inv.
  - unfold expire in Hstep. destruct (records (store s) !! key) as [[d|]|] eqn:Hk; try done.
    destruct (d_TerminalExpireAt d); [|done]. unfold prompt in Hpr. cbn [removed_key] in Hpr.
    remember (del_record key (store s)) as st' eqn:Hst. injection Hstep as <-. cbn in Hpr. unfold constant in Hpr.
    rewrite Hk in Hpr. subst st'. rewrite deleted_record in Hpr. apply bool_decide_eq_true in Hpr.
    by eapply (expire_inv s key d).
Qed.

Lemma orderly_run_app es1 es2 s : orderly_run (es1 ++ es2) s = orderly_run es1 s ≫= orderly_run es2.
Proof.
  revert s. induction es1 as [|e es1 IH]; intros s; [done|]. cbn [orderly_run app].
  destruct (sys_step e s) as [s'|]; [|done]. cbn. case_goal; [apply IH|done].
Qed.

Lemma orderly_sys_run es s s' : orderly_run es s = Some s' → sys_run es s = Some s'.
Proof.
  revert s. induction es as [|e es IH]; intros s; [done|]. cbn [orderly_run sys_run].
  destruct (sys_step e s) as [s1|]; [|done]. cbn. case_goal; [apply IH|done].
Qed.

Lemma init_inv foreign : index_inv (sys_init foreign).
Proof.
  split; cbn; try done. intros key d Hd.
  by destruct (hi_records _ _ (hist_init foreign) key d Hd) as (_ & wall & reg & ops & (reg0 & Hin & _) & _);
    inversion Hin.
Qed.

Lemma orderly_inv es foreign s : orderly_run es (sys_init foreign) = Some s → hist_inv es s ∧ index_inv s.
Proof.
  intros Hrun. split; [by eapply hist_reach, orderly_sys_run|]. revert s Hrun.
  induction es as [|e es IH] using rev_ind; intros s Hrun; [injection Hrun as <-; apply init_inv|].
  rewrite orderly_run_app in Hrun. destruct (orderly_run es _) as [s0|] eqn:H0; [|done]. cbn in Hrun.
  destruct (sys_step e s0) as [s1|] eqn:Hs; [|done]. cbn in Hrun.
  destruct (prompt e s0 s1 && unraced e s0) eqn:Hc; [|done]. apply andb_true_iff in Hc as [Hc1 Hc2].
  injection Hrun as <-. eapply step_inv; eauto. by eapply hist_reach, orderly_sys_run.
Qed.

(** ** Calm runs are orderly *)

(** A client that will drop an entry knows that the chord has no record. *)
Definition drop_inv (s : sys) : Prop :=
  ∀ i p k, clients s !! i = Some p → dropping k p = true → vacant (store s) k = true.

Lemma vacant_spec st k :
  vacant st k = true ↔ ∀ key d, redisChordRecordKey k = Some key → records st !! key = Some (Body d) → d_DeliveryKey d ≠ k.
Proof.
  unfold vacant. destruct (redisChordRecordKey k) as [key|]; cbn; [|by split].
  destruct (records st !! key) as [[d|]|] eqn:Hr; [|split; [|done]; intros _ ? ? [= <-]; congruence..].
  destruct (String.eqb_spec (d_DeliveryKey d) k) as [Heq|Hne]; cbn; split; try done.
  - intros Hv. by destruct (Hv key d).
  - intros _ key' d' [= <-]. congruence.
Qed.

(** Only a registration fills a vacant place. *)
Lemma vacant_step es s i p token net st' p' k :
  hist_inv es s → clients s !! i = Some p → run token net p (store s) = (st', p') →
  (∀ j, p = RegCreate j → records (store s) !! j_key j = None → j_delivery_key j ≠ k) →
  vacant (store s) k = true → vacant st' k = true.
Proof.
  intros HH Hp Hrun Hno Hv. apply vacant_spec. intros key d' Hk Hd'.
  destruct (record_back es s i p token net st' p' HH Hp Hrun key d' Hd') as [(d & Hd & Hs)|(j & -> & -> & -> & Hn)].
  - rewrite (sd_key _ _ Hs). by apply (proj1 (vacant_spec _ _) Hv key).
  - by apply Hno.
Qed.

Lemma dropping_scan k f : dropping k (scan_next f) = false.
Proof. unfold scan_next, scan_finish. by repeat case_goal. Qed.
Lemma dropping_clean k f : dropping k (clean_next f) = false.
Proof. unfold clean_next. by repeat case_goal. Qed.
Lemma dropping_finish k d a : dropping k (update_finish d a) = false.
Proof. unfold update_finish. by case_goal. Qed.
Lemma dropping_retry k key op n : dropping k (update_retry key op n) = false.
Proof. unfold update_retry. by case_goal. Qed.
Lemma dropping_abort k key ref n : dropping k (abort_retry key ref n) = false.
Proof. unfold abort_retry. by case_goal. Qed.
Lemma dropping_callback k key wall claim st : dropping k (claim_callback_load key wall claim st) = false.
Proof. unfold claim_callback_load. by repeat case_goal. Qed.
Lemma dropping_reconcile k key wall st : dropping k (reconcile_load key wall st) = false.
Proof. unfold reconcile_load. by repeat case_goal. Qed.
Lemma dropping_attached k j d : dropping k (attached j d) = false.
Proof. unfold attached. by case_goal. Qed.

(** A client begins to drop an entry when it reads that the record is missing or another's. *)
Lemma dropping_begins s p token net st' p' k :
  pc_index s p → run token net p (store s) = (st', p') → dropping k p' = true →
  dropping k p = true ∨ vacant (store s) k = true.
Proof.
  intros Hi Hrun Hd. apply (f_equal snd) in Hrun. cbn [snd] in Hrun. subst p'. revert Hd.
  destruct p; cbn [run run_register run_abort updateChordDelivery run_prepare run_scan run_clean pc_index] in *;
    repeat case_goal; cbn [snd];
    rewrite ?dropping_scan, ?dropping_clean, ?dropping_finish, ?dropping_retry, ?dropping_abort, ?dropping_callback,
      ?dropping_reconcile, ?dropping_attached; try discriminate; auto; cbn [dropping];
    rewrite ?andb_true_iff, ?negb_true_iff; intros Hd.
  1-2: right; destruct Hd as [->%String.eqb_eq Hne%String.eqb_neq]; destr_hyps;
    match goal with Hl : loadChordDelivery _ _ = inr _ |- _ => apply load_inv in Hl end;
    apply vacant_spec; intros key' d'; congruence.
  - left. split; [done|]. by match goal with Hl : String.eqb _ _ = false |- _ => rewrite Hl end.
  - right. apply String.eqb_eq in Hd as ->. apply vacant_spec. intros key' d' Hk Hr. unfold loadChordDelivery in *.
    assert (key' = key) as -> by congruence.
    match goal with Hl : match records _ !! _ with _ => _ end = _ |- _ => by rewrite Hr in Hl end.
Qed.

Lemma drop_step es s e s' :
  hist_inv es s → index_inv s → sys_step e s = Some s' → calm e s = true → drop_inv s → drop_inv s'.
Proof.
  intros HH HI Hstep Hc HD i' q k Hq Hk. destruct e as [m|i token net|key]; cbn in Hstep.
  - destruct (may_call m s); [|done]. injection Hstep as <-. cbn in Hq |- *. unfold constant in *.
    apply lookup_app_Some in Hq as [Hq|[_ Hq]]; [by eapply HD|]. apply list_lookup_singleton_Some in Hq as [_ <-].
    exfalso. revert Hk. destruct m; cbn [start]; unfold RegisterChord, AbortRegistration, ClaimMemberPublication,
      RecordMemberPublishOutcome, RecordMemberTerminal, RecordCallbackPublishOutcome, RecordCallbackTerminal,
      ClaimCallbackPublication, ReconcileChord, ScanChordDeliveries, CleanupTerminalChordDeliveries, update_key;
      by repeat case_goal.
  - destruct (clients s !! i) as [p|] eqn:Hp; [|done]. cbn in Hstep. case_bool_decide; [done|].
    destruct (run token net p (store s)) as [st' p'] eqn:Hrun. injection Hstep as <-. cbn [store clients] in *.
    cbn [calm] in Hc. rewrite Hp in Hc.
    apply list_lookup_insert_Some in Hq as [(<- & <- & _)|[_ Hq]]; (eapply (vacant_step es s i p); [done|done|exact Hrun|..]).
    + intros j -> Hn. cbn in Hrun. rewrite Hn in Hrun. by injection Hrun as _ <-.
    + destruct (dropping_begins _ _ _ _ _ _ _ (ii_pc _ HI _ _ Hp) Hrun Hk); [by eapply HD|done].
    + intros j -> Hn <-. rewrite Hn in Hc. apply negb_true_iff, not_true_iff_false in Hc. apply Hc, existsb_exists.
      exists q. split; [by apply list_elem_of_In; eapply list_elem_of_lookup_2|done].
    + by eapply HD.
  - unfold expire in Hstep. destruct (records (store s) !! key) as [[d|]|] eqn:Hr; try done.
    destruct (d_TerminalExpireAt d); [|done]. remember (del_record key (store s)) as st' eqn:Hst.
    injection Hstep as <-. cbn in Hq |- *. unfold constant in *. subst st'. pose proof (HD _ _ _ Hq Hk) as Hv.
    apply vacant_spec. intros key' d' Hkey Hd'. rewrite vacant_spec in Hv. apply (Hv key'); [done|].
    destruct (del_record_spec key (store s) key') as [[<- _]|(-> & Hn & _)]; [done|congruence].
Qed.

Lemma drop_unraced e s : drop_inv s → unraced e s = true.
Proof.
  intros HD. destruct e as [m|i token net|key]; cbn; try done. destruct (clients s !! i) as [p|] eqn:Hp; [|done].
  destruct p; try done; (eapply HD; [exact Hp|]); cbn; apply String.eqb_refl.
Qed.

Lemma calm_run_app es1 es2 s : calm_run (es1 ++ es2) s = calm_run es1 s ≫= calm_run es2.
Proof.
  revert s. induction es1 as [|e es1 IH]; intros s; [done|]. cbn [calm_run app].
  destruct (sys_step e s) as [s'|]; [|done]. cbn. case_goal; [apply IH|done].
Qed.

Lemma calm_orderly es foreign s :
  calm_run es (sys_init foreign) = Some s → orderly_run es (sys_init foreign) = Some s ∧ drop_inv s.
Proof.
  revert s. induction es as [|e es IH] using rev_ind; intros s Hrun; [by injection Hrun as <-|].
  rewrite calm_run_app in Hrun. destruct (calm_run es _) as [s0|] eqn:H0; [|done]. cbn in Hrun.
  destruct (sys_step e s0) as [s1|] eqn:Hs; [|done]. cbn in Hrun.
  destruct (prompt e s0 s1 && calm e s0) eqn:Hc; [|done]. apply andb_true_iff in Hc as [Hc1 Hc2]. injection Hrun as <-.
  destruct (IH s0 eq_refl) as [Ho HD]. destruct (orderly_inv _ _ _ Ho) as [HH HI]. split; [|by eapply drop_step].
  rewrite orderly_run_app, Ho. cbn. rewrite Hs. cbn. by rewrite Hc1, drop_unraced.
Qed.

End protocol.
