(* ===== verification/ChordRedisScan.v ===== *)
(** * The Redis chord store: scans

    A client that scans page by page, while no other client runs, comes to the
    end and has then seen every indexed chord once, in the order of the delivery
    keys.  With the invariant of the index protocol: every committed chord. *)

From S2P Require Import Prelude GoText GoFloat Base64 Chord ChordStore ChordInv ChordThms ChordRedis ChordRedisInv ChordRedisHist ChordRedisIndex ChordRedisStep.
From stdpp Require Import sorting.
From Stdlib Require Import Strings.Ascii.
From coqutil Require Import Datatypes.RecordSetters.
Import DoubleBraceUpdate.

(** ** Cursors *)

Lemma HasPrefix_prefix p s : HasPrefix (p +:+ s) p = true.
Proof. induction p as [|c p IH]; [by destruct s|]. rewrite str_app_cons. cbn. by rewrite Ascii.eqb_refl, IH. Qed.

(** The cursor of a delivery key is decoded to it. *)
Lemma cursor_roundtrip k key :
  redisChordRecordKey k = Some key → decodeRedisChordCursor (encodeRedisChordCursor k) = Some k.
Proof.
  intros Hk. unfold decodeRedisChordCursor, encodeRedisChordCursor.
  rewrite HasPrefix_prefix, str_drop_app, Decode_Encode. cbn [negb mbind option_bind]. by rewrite Hk.
Qed.

Lemma record_key_nonempty k key : redisChordRecordKey k = Some key → k ≠ "".
Proof. by intros Hk ->. Qed.

(** ** The order of the index *)

Definition lex_lt (x y : string) : Prop := String.ltb x y = true.

#[local] Instance lex_le_trans : Transitive lex_le.
Proof.
  intros x y z. unfold lex_le. rewrite !string_leb_orb, !orb_true_iff, !String.eqb_eq.
  intros [Hxy| ->] [Hyz| ->]; auto. left. by eapply string_ltb_trans.
Qed.
#[local] Instance lex_le_total : Total lex_le.
Proof.
  intros x y. unfold lex_le. rewrite !string_leb_orb, !orb_true_iff, !String.eqb_eq.
  destruct (string_ltb_total x y) as [?|[?|?]]; auto.
Qed.

(** Filtering keeps a list sorted, and a sorted list without duplicates is
    strictly sorted. *)
Lemma sorted_filter {A} (R : relation A) (P : A → Prop) `{∀ x, Decision (P x)} l :
  StronglySorted R l → StronglySorted R (filter P l).
Proof.
  induction 1 as [|x l Hl IH HF]; [constructor|]. rewrite filter_cons. case_decide; [|done].
  constructor; [done|]. rewrite list.Forall_forall in HF |- *. intros y [_ Hy]%list_elem_of_filter. auto.
Qed.

Lemma sorted_strict l : StronglySorted lex_le l → NoDup l → StronglySorted lex_lt l.
Proof.
  induction 1 as [|x l Hl IH HF]; intros Hn; [constructor|]. apply list.NoDup_cons in Hn as [Hx Hn].
  constructor; [auto|]. rewrite list.Forall_forall in HF |- *. intros y Hy.
  specialize (HF y Hy). unfold lex_le in HF. rewrite string_leb_orb, orb_true_iff, String.eqb_eq in HF.
  destruct HF as [?| ->]; done.
Qed.

Definition above (lastKey k : string) : Prop := lastKey = "" ∨ String.ltb lastKey k = true.
#[global] Instance above_dec lastKey k : Decision (above lastKey k).
Proof. unfold above. apply _. Defined.

Definition entries (st : redis) (lastKey : string) : list string :=
  filter (above lastKey) (merge_sort lex_le (elements (deliveries st))).

Lemma entries_elem st lastKey k : k ∈ entries st lastKey ↔ k ∈ deliveries st ∧ above lastKey k.
Proof.
  unfold entries. rewrite list_elem_of_filter, merge_sort_Permutation, elem_of_elements. tauto.
Qed.

Lemma entries_sorted st lastKey : StronglySorted lex_lt (entries st lastKey).
Proof.
  apply sorted_filter, sorted_strict; [apply (StronglySorted_merge_sort lex_le)|].
  rewrite merge_sort_Permutation. apply NoDup_elements.
Qed.

(** ** Running alone *)

Section scans.
Context `{ChordJSON}.

Fixpoint alone (n : nat) (p : pc) (st : redis) : redis * pc :=
  match n with
  | O => (st, p)
  | S n => let '(st', p') := run "" Replied p st in alone n p' st'
  end.

(** Page after page, with at most [steps] commands for a page. *)
Fixpoint scan_pages (pages steps : nat) (limit : Z) (cursor : string) (st : redis) : option (list ChordDelivery) :=
  match pages with
  | O => None
  | S pages =>
      match alone steps (ScanChordDeliveries limit cursor) st with
      | (st', Done (APage page)) =>
          if String.eqb (pg_NextCursor page) "" then Some (pg_Deliveries page)
          else rest ← scan_pages pages steps limit (pg_NextCursor page) st'; Some (pg_Deliveries page ++ rest)
      | _ => None
      end
  end.

Lemma alone_step n p st st' p' : run "" Replied p st = (st', p') → alone (S n) p st = alone n p' st'.
Proof. intros Hr. cbn [alone]. by rewrite Hr. Qed.

Lemma alone_done n a st : alone n (Done a) st = (st, Done a).
Proof. induction n as [|n IH]; [done|exact IH]. Qed.

Lemma alone_app n m p st : alone (n + m) p st = let '(st', p') := alone n p st in alone m p' st'.
Proof.
  revert p st. induction n as [|n IH]; intros p st; [done|]. cbn [alone Nat.add].
  destruct (run _ _ _ _) as [st' p']. apply IH.
Qed.

Lemma alone_more n m p st st' a : alone n p st = (st', Done a) → n <= m → alone m p st = (st', Done a).
Proof.
  intros Hn Hle. replace m with (n + (m - n)) by lia. rewrite alone_app, Hn. apply alone_done.
Qed.

(** ** The chords that a scan reports *)

(** The chord whose delivery key is [k]. *)
Definition live (st : redis) (k : string) : option ChordDelivery :=
  match redisChordRecordKey k ≫= (λ key, records st !! key) with
  | Some (Body d) => if String.eqb (d_DeliveryKey d) k then Some d else None
  | _ => None
  end.

(** Every record decodes and lies under the key of its chord. *)
Definition records_clean (st : redis) : Prop :=
  ∀ key b, records st !! key = Some b →
    ∃ d, b = Body d ∧ redisChordRecordKey (d_DeliveryKey d) = Some key.

Definition valid_key (k : string) : Prop := is_Some (redisChordRecordKey k).

Lemma live_key st k d : live st k = Some d → d_DeliveryKey d = k.
Proof. unfold live. repeat case_match; intros; simplify_eq. by apply String.eqb_eq. Qed.

(** What a scan does to the store: entries of chords stay, and only entries of
    chords are added. *)
Record tidied (st st' : redis) : Prop := {
  ti_records : records st' = records st;
  ti_keeps : ∀ k, is_Some (live st k) → k ∈ deliveries st → k ∈ deliveries st';
  ti_adds : ∀ k, k ∈ deliveries st' → k ∈ deliveries st ∨ is_Some (live st k);
}.

Lemma live_records st st' k : records st' = records st → live st' k = live st k.
Proof. unfold live. by intros ->. Qed.

Lemma tidied_refl st : tidied st st.
Proof. by split; auto. Qed.

Lemma tidied_trans st1 st2 st3 : tidied st1 st2 → tidied st2 st3 → tidied st1 st3.
Proof.
  intros [R1 K1 A1] [R2 K2 A2]. split; [congruence| |]; intros k; setoid_rewrite (live_records _ _ _ R1) in K2;
    setoid_rewrite (live_records _ _ _ R1) in A2; [auto|]. intros Hk. destruct (A2 _ Hk); auto.
Qed.

Lemma remove_tidied k x st : live st k = None → tidied st (removeChordIndexesIfState k x st).
Proof.
  intros Hl. unfold removeChordIndexesIfState. case_bool_decide; [|apply tidied_refl].
  split; cbn; unfold constant; [done| |set_solver].
  intros k' [d Hd] Hk. apply elem_of_difference. split; [done|]. rewrite elem_of_singleton. intros ->. congruence.
Qed.

Lemma ensure_tidied k o st : is_Some (live st k) → tidied st (ensureChordIndex k o st).
Proof.
  intros Hl. unfold ensureChordIndex. case_match; split; cbn; unfold constant; try done; try set_solver.
  all: intros k' [->%elem_of_singleton|?]%elem_of_union; auto.
Qed.

(** The iteration for one candidate. *)
Lemma candidate st f k key :
  records_clean st → redisChordRecordKey k = Some key →
  ∃ n st', tidied st st' ∧
    alone n (ScanGet f k key) st =
      (st', scan_next (f {{ sf_page := sf_page f ++ option_list (live st k) }})).
Proof.
  intros Hc Hk. destruct (records st !! key) as [b|] eqn:Hr.
  - destruct (Hc _ _ Hr) as (d & -> & Hd).
    assert (Hl : live st (d_DeliveryKey d) = Some d) by (unfold live; rewrite Hd; cbn; by rewrite Hr, String.eqb_refl).
    destruct (String.eqb_spec (d_DeliveryKey d) k) as [<-|Hne].
    + exists 2, (ensureChordIndex (d_DeliveryKey d) (d_RegistrationOwner d) st). split; [by apply ensure_tidied|].
      cbn [alone run run_scan]. unfold loadChordDelivery. rewrite Hr, Hl. cbn [run run_scan]. by rewrite String.eqb_refl.
    + assert (Hn : live st k = None).
      { unfold live. rewrite Hk. cbn. rewrite Hr. by apply String.eqb_neq in Hne as ->. }
      set (st1 := ensureChordIndex (d_DeliveryKey d) (d_RegistrationOwner d) st).
      assert (H1 : tidied st st1) by by apply ensure_tidied.
      exists 4, (removeChordIndexesIfState k (chordIndexState k st1) st1). split.
      * eapply tidied_trans; [done|]. apply remove_tidied. by rewrite (live_records _ _ _ (ti_records _ _ H1)).
      * cbn [alone run run_scan]. unfold loadChordDelivery. rewrite Hr. cbn [run run_scan].
        apply String.eqb_neq in Hne as ->. cbn [run run_scan]. rewrite Hn. cbn [option_list]. rewrite app_nil_r.
        by destruct f.
  - assert (Hn : live st k = None) by (unfold live; rewrite Hk; cbn; by rewrite Hr).
    rewrite Hn. cbn [option_list]. rewrite app_nil_r.
    assert (Hload : loadChordDelivery key st = inl ENil) by (unfold loadChordDelivery; by rewrite Hr).
    destruct (states st !! k) as [[o|o|t]|] eqn:Hs.
    all: first [ match type of Hs with _ = Some (Pending _) => idtac | _ = Some (Deleting _) => idtac end;
                 exists 2, st; split; [apply tidied_refl|]
               | exists 4, (removeChordIndexesIfState k (states st !! k) st); split; [by apply remove_tidied|] ].
    all: cbn [alone run run_scan]; rewrite Hload; cbn [run run_scan]; unfold chordIndexState; rewrite Hs;
      cbn [run run_scan]; rewrite ?Hload; cbn [run run_scan]; by destruct f.
Qed.

(** ** A page *)

Lemma records_clean_tidied st st' : tidied st st' → records_clean st → records_clean st'.
Proof. intros Ht Hc key b. rewrite (ti_records _ _ Ht). apply Hc. Qed.

Definition next_cursor (more : bool) (lastKey : string) : string :=
  if more && negb (String.eqb lastKey "") then encodeRedisChordCursor lastKey else "".

(** The loop looks at a first part [P] of the candidates, all of them unless the
    page is full. *)
Lemma page_loop todo : ∀ limit count page lastKey st,
  records_clean st → Forall valid_key todo → (Z.of_nat (length page) <= limit)%Z →
  ∃ n st' P Q, todo = P ++ Q ∧ tidied st st' ∧
    alone n (scan_next (mkScan limit count todo page lastKey)) st =
      (st', Done (APage (mkPage (page ++ omap (live st) P)
              (next_cursor (negb (bool_decide (Q = [])) || (count =? limit + 1)%Z) (default lastKey (last P)))))) ∧
    (P = [] → todo = [] ∨ Z.of_nat (length page) = limit).
Proof.
  induction todo as [|k todo IH]; intros limit count page lastKey st Hc Hv Hle.
  - exists 0, st, [], []. split_and!; [done|apply tidied_refl| |by left]. cbn. by rewrite app_nil_r.
  - apply list.Forall_cons in Hv as [[key Hk] Hv]. unfold scan_next at 1. cbn [sf_todo sf_page sf_limit].
    destruct (Z.eqb_spec (Z.of_nat (length page)) limit) as [Hfull|Hroom].
    + exists 0, st, [], (k :: todo). split_and!; [done|apply tidied_refl| |by right]. cbn. by rewrite app_nil_r.
    + rewrite Hk. destruct (candidate st (mkScan limit count todo page k) k key Hc Hk) as (n1 & st1 & Ht1 & H1).
      destruct (IH limit count (page ++ option_list (live st k)) k st1) as (n2 & st2 & P & Q & -> & Ht2 & H2 & _).
      * by eapply records_clean_tidied.
      * done.
      * rewrite length_app. destruct (live st k); cbn; lia.
      * exists (n1 + n2), st2, (k :: P), Q. split_and!; [done|by eapply tidied_trans| |done].
        rewrite alone_app. cbn in H1 |- *. unfold constant in *. rewrite H1, H2. do 4 f_equal.
        -- rewrite (list_omap_ext _ (live st) P P) by
             (apply Forall_Forall2_diag, Forall_true; intros x; by apply live_records, ti_records).
           rewrite <- app_assoc. f_equal. by destruct (live st k).
        -- f_equal. rewrite last_cons. by destruct (last P).
Qed.

(** ** All pages *)

(** The delivery keys that a scan can meet. *)
Definition reach (st : redis) : gset string :=
  deliveries st ∪ list_to_set (omap (λ x, match x.2 with Body d => Some (d_DeliveryKey d) | Garbage => None end)
                                    (map_to_list (records st))).

Lemma live_reach st k : is_Some (live st k) → k ∈ reach st.
Proof.
  intros [d Hd]. apply elem_of_union_r, elem_of_list_to_set, list_elem_of_omap.
  pose proof (live_key _ _ _ Hd) as Hk. unfold live in Hd.
  destruct (redisChordRecordKey k) as [key|]; [|done]. cbn in Hd.
  destruct (records st !! key) as [[d'|]|] eqn:Hr; try done. case_match; simplify_eq.
  exists (key, Body d). split; [by apply elem_of_map_to_list|done].
Qed.

Lemma tidied_reach st st' : tidied st st' → reach st' ⊆ reach st.
Proof.
  intros Ht k [Hk|Hk]%elem_of_union.
  - destruct (ti_adds _ _ Ht _ Hk) as [?|?]; [by apply elem_of_union_l|by apply live_reach].
  - rewrite (ti_records _ _ Ht) in Hk. by apply elem_of_union_r.
Qed.

Lemma omap_keys st (P : list string) : d_DeliveryKey <$> omap (live st) P = filter (λ k, is_Some (live st k)) P.
Proof.
  induction P as [|k P IH]; [done|]. rewrite filter_cons. cbn. destruct (live st k) as [d|] eqn:Hd.
  - rewrite decide_True by done. rewrite fmap_cons, IH. by rewrite (live_key _ _ _ Hd).
  - rewrite decide_False by (by intros [? ?]). exact IH.
Qed.

Definition cursor_of (lastKey : string) : string :=
  if String.eqb lastKey "" then "" else encodeRedisChordCursor lastKey.

Lemma scan_start limit lastKey :
  (0 < limit)%Z → lastKey = "" ∨ valid_key lastKey →
  ScanChordDeliveries limit (cursor_of lastKey) = ScanList limit lastKey.
Proof.
  intros Hl Hk. unfold ScanChordDeliveries, cursor_of. rewrite (proj2 (Z.leb_gt _ _) Hl).
  destruct Hk as [->|[key Hk]]; [done|]. rewrite (proj2 (String.eqb_neq _ _)) by by eapply record_key_nonempty.
  by erewrite cursor_roundtrip.
Qed.

(** A page: the chords of a first part of the entries, and the cursor of the
    last of them if there may be more. *)
Lemma scan_page limit lastKey st :
  (0 < limit)%Z → lastKey = "" ∨ valid_key lastKey → records_clean st → Forall valid_key (entries st lastKey) →
  ∃ n st' P R, entries st lastKey = P ++ R ∧ tidied st st' ∧
    ((R = [] ∧ alone n (ScanChordDeliveries limit (cursor_of lastKey)) st =
               (st', Done (APage (mkPage (omap (live st) P) "")))) ∨
     (∃ k, last P = Some k ∧ alone n (ScanChordDeliveries limit (cursor_of lastKey)) st =
               (st', Done (APage (mkPage (omap (live st) P) (encodeRedisChordCursor k)))))).
Proof.
  intros Hl Hk Hc Hv. rewrite scan_start by done. set (C := zrange_by_lex st lastKey (limit + 1)).
  assert (HC : entries st lastKey = C ++ drop (Z.to_nat (limit + 1)) (entries st lastKey))
    by (symmetry; apply take_drop).
  assert (HCv : Forall valid_key C) by (rewrite HC in Hv; by apply list.Forall_app in Hv as [? _]).
  destruct (page_loop C limit (Z.of_nat (length C)) [] lastKey st Hc HCv) as (n & st' & P & Q & HPQ & Ht & Hn & HP);
    [cbn; lia|].
  exists (S n), st', P, (Q ++ drop (Z.to_nat (limit + 1)) (entries st lastKey)).
  split; [by rewrite HC, HPQ, app_assoc at 1|]. split; [done|].
  rewrite (alone_step _ _ _ st (scan_next (mkScan limit (Z.of_nat (length C)) C [] lastKey))) by done.
  rewrite Hn. cbn [app]. unfold next_cursor.
  assert (HP' : P = [] → Q = [] ∧ C = []).
  { intros HPn. destruct (HP HPn) as [HCn|Hlim]; [|cbn in Hlim; lia]. by rewrite HPn, HCn in HPQ; cbn in HPQ; subst Q. }
  destruct (negb (bool_decide (Q = [])) || (Z.of_nat (length C) =? limit + 1)%Z) eqn:Hmore.
  - right. destruct (last P) as [k|] eqn:Hlast.
    + exists k. split; [done|]. cbn [default andb].
      assert (Hkv : valid_key k).
      { rewrite HPQ in HCv. apply list.Forall_app in HCv as [HCv _]. apply last_Some in Hlast as [P' ->].
        apply list.Forall_app in HCv as [_ HCv]. by apply list.Forall_cons in HCv as [? _]. }
      destruct Hkv as [key Hkey]. by rewrite (proj2 (String.eqb_neq _ _)) by by eapply record_key_nonempty.
    + exfalso. apply last_None in Hlast. destruct (HP' Hlast) as [-> HCn]. rewrite HCn in Hmore. cbn in Hmore.
      apply Z.eqb_eq in Hmore. lia.
  - left. apply orb_false_iff in Hmore as [Hq Hcount]. apply negb_false_iff, bool_decide_eq_true in Hq as ->.
    split; [|done]. cbn [app]. apply drop_ge. apply Z.eqb_neq in Hcount. revert Hcount. unfold C, zrange_by_lex.
    change (filter _ (merge_sort lex_le (elements (deliveries st)))) with (entries st lastKey).
    rewrite length_take. lia.
Qed.

Lemma above_trans lastKey k k' : above lastKey k → lex_lt k k' → above lastKey k'.
Proof. intros [->|Hk] Hk'; [by left|right]. by eapply string_ltb_trans. Qed.

Section page.
Context (st : redis) (lastKey : string) (P R : list string) (HE : entries st lastKey = P ++ R).

Lemma page_entry k : k ∈ P → k ∈ deliveries st ∧ above lastKey k.
Proof. intros Hk. apply entries_elem. rewrite HE. apply elem_of_app. by left. Qed.

Lemma page_sorted : StronglySorted lex_lt (d_DeliveryKey <$> omap (live st) P).
Proof.
  rewrite omap_keys. apply sorted_filter. pose proof (entries_sorted st lastKey) as Hs. rewrite HE in Hs.
  by eapply StronglySorted_app_1_l.
Qed.

Lemma page_sound d : d ∈ omap (live st) P → live st (d_DeliveryKey d) = Some d ∧ d_DeliveryKey d ∈ P.
Proof.
  intros (k & Hk & Hd)%list_elem_of_omap. by rewrite (live_key _ _ _ Hd).
Qed.

Lemma page_found k d : live st k = Some d → k ∈ P → d ∈ omap (live st) P.
Proof. intros Hd Hk. apply list_elem_of_omap. eauto. Qed.

Context (k : string) (Hlast : last P = Some k).

Lemma page_last x : x ∈ P → x = k ∨ lex_lt x k.
Proof.
  intros Hx. pose proof (entries_sorted st lastKey) as Hs. rewrite HE in Hs. apply StronglySorted_app_1_l in Hs.
  apply last_Some in Hlast as [P' HP]. rewrite HP in Hx, Hs.
  apply elem_of_app in Hx as [Hx|Hx%list_elem_of_singleton]; [right|by left].
  eapply StronglySorted_app_1_elem_of; [done..|]. by apply list_elem_of_singleton.
Qed.

Lemma page_last_in : k ∈ P.
Proof. clear HE. apply last_Some in Hlast as [P' ->]. apply elem_of_app. right. by apply list_elem_of_singleton. Qed.

Lemma page_rest x : x ∈ R → lex_lt k x.
Proof.
  pose proof (entries_sorted st lastKey) as Hs. rewrite HE in Hs.
  intros Hx. eapply StronglySorted_app_1_elem_of; [done|apply page_last_in|done].
Qed.

(** The next page has fewer keys before it. *)
Lemma page_measure st' : tidied st st' → k ≠ "" →
  size (filter (above k) (reach st')) < size (filter (above lastKey) (reach st)).
Proof.
  intros Ht Hne. destruct (page_entry k page_last_in) as [Hd Ha]. apply subset_size. split.
  - intros x [Hx Hr]%elem_of_filter. apply elem_of_filter. split; [|by eapply tidied_reach].
    destruct Hx as [?|Hx]; [done|]. by eapply above_trans.
  - intros Hsub. assert (Hk : k ∈ filter (above k) (reach st')).
    { apply Hsub, elem_of_filter. split; [done|]. by apply elem_of_union_l. }
    apply elem_of_filter in Hk as [[?|Hk] _]; [done|]. by rewrite string_ltb_irrefl in Hk.
Qed.
End page.

Lemma tidied_valid st st' :
  tidied st st' → (∀ k, k ∈ deliveries st → valid_key k) → ∀ k, k ∈ deliveries st' → valid_key k.
Proof.
  intros Ht Hv k Hk. destruct (ti_adds _ _ Ht _ Hk) as [?|[d Hd]]; [auto|]. unfold live in Hd.
  destruct (redisChordRecordKey k) eqn:Hr; [by eexists|done].
Qed.

(** Pages until the cursor is empty. *)
Lemma scan_all m : ∀ limit lastKey st,
  size (filter (above lastKey) (reach st)) < m → (0 < limit)%Z → lastKey = "" ∨ valid_key lastKey →
  records_clean st → (∀ k, k ∈ deliveries st → valid_key k) →
  ∃ pages steps L,
    (∀ steps', steps <= steps' → scan_pages pages steps' limit (cursor_of lastKey) st = Some L) ∧
    StronglySorted lex_lt (d_DeliveryKey <$> L) ∧
    (∀ d, d ∈ L → live st (d_DeliveryKey d) = Some d ∧ above lastKey (d_DeliveryKey d)) ∧
    (∀ k d, live st k = Some d → k ∈ deliveries st → above lastKey k → d ∈ L).
Proof.
  induction m as [|m IH]; intros limit lastKey st Hm Hl Hk Hc Hv; [lia|].
  destruct (scan_page limit lastKey st Hl Hk Hc) as (n & st' & P & R & HE & Ht & Hpage).
  { apply list.Forall_forall. intros x [Hx _]%entries_elem. auto. }
  destruct Hpage as [[-> Hpage]|(k & Hlast & Hpage)].
  - exists 1, n, (omap (live st) P). split_and!.
    + intros steps' Hs. cbn [scan_pages]. by rewrite (alone_more _ _ _ _ _ _ Hpage Hs).
    + by eapply page_sorted.
    + intros d Hd. destruct (page_sound st P d Hd) as [? HdP]. split; [done|]. by eapply page_entry.
    + intros k d Hd Hin Ha. eapply page_found; [done|].
      assert (Hkin : k ∈ entries st lastKey) by by apply entries_elem. by rewrite HE, app_nil_r in Hkin.
  - destruct (page_entry _ _ _ _ HE k (page_last_in _ _ Hlast)) as [Hkd Hka].
    destruct (Hv k Hkd) as [key Hkey]. pose proof (record_key_nonempty _ _ Hkey) as Hne.
    destruct (IH limit k st') as (pages & steps & L & HL & HS & Hsound & Hcompl); [|done|by right; eexists|..].
    { pose proof (page_measure _ _ _ _ HE k Hlast st' Ht Hne). lia. }
    { by eapply records_clean_tidied. }
    { by eapply tidied_valid. }
    setoid_rewrite (live_records _ _ _ (ti_records _ _ Ht)) in Hsound.
    setoid_rewrite (live_records _ _ _ (ti_records _ _ Ht)) in Hcompl.
    exists (S pages), (n `max` steps), (omap (live st) P ++ L). split_and!.
    + intros steps' Hs. cbn [scan_pages]. rewrite (alone_more _ _ _ _ _ _ Hpage) by lia. cbn [pg_NextCursor pg_Deliveries].
      specialize (HL steps' ltac:(lia)). unfold cursor_of in HL. rewrite (proj2 (String.eqb_neq _ _) Hne) in HL.
      rewrite HL. done.
    + rewrite fmap_app. apply StronglySorted_app_2; [|by eapply page_sorted|done].
      intros x y Hx (d & -> & Hd)%list_elem_of_fmap. apply Hsound in Hd as [_ [?|Hd]]; [done|].
      apply list_elem_of_fmap in Hx as (d' & -> & Hd'). destruct (page_sound st P d' Hd') as [_ HdP].
      destruct (page_last _ _ _ _ HE k Hlast _ HdP) as [->|Hlt]; [done|]. by eapply string_ltb_trans.
    + intros d [Hd|Hd]%elem_of_app.
      * destruct (page_sound st P d Hd) as [? HdP]. split; [done|]. by eapply page_entry.
      * destruct (Hsound d Hd) as [? [?|Hd']]; [done|]. split; [done|]. by eapply above_trans.
    + intros x d Hd Hin Ha. apply elem_of_app. assert (Hx : x ∈ entries st lastKey) by by apply entries_elem.
      rewrite HE in Hx. apply elem_of_app in Hx as [Hx|Hx]; [left; by eapply page_found|right].
      apply (Hcompl x d Hd); [by eapply (ti_keeps _ _ Ht); eauto|right]. by eapply page_rest.
Qed.

(** ** The stores that runs reach *)

Lemma action_entries s a st k :
  action_ok s a → k ∈ deliveries (do_action a st) → k ∈ deliveries st ∨ valid_key k.
Proof.
  assert (Hadd : ∀ k' st1, valid_key k' → k ∈ deliveries (add_delivery k' st1) → k ∈ deliveries st1 ∨ valid_key k).
  { intros k' st1 Hk'. cbn. unfold constant. intros [->%elem_of_singleton|?]%elem_of_union; auto. }
  assert (Hplaced : ∀ k' o, placed s k' o → valid_key k') by (intros k' o (key & ? & _); by eexists).
  intros Ha. destruct a; cbn [action_ok do_action] in Ha |- *; auto.
  - unfold prepareChordIndex. repeat case_goal; cbn [snd]; auto; by apply Hadd.
  - unfold commitChordIndex. repeat case_goal; by apply Hadd, (Hplaced _ owner).
  - by apply Hadd, (Hplaced _ owner).
  - unfold ensureChordIndex. repeat case_goal; by apply Hadd, (Hplaced _ owner).
  - unfold removeChordIndexesIfState. case_goal; auto. cbn. unfold constant.
    intros [? _]%elem_of_difference; auto.
  - cbn. unfold constant. intros [? _]%elem_of_difference; auto.
  - unfold beginChordDelete. repeat case_goal; auto.
  - unfold restoreChordIndex. case_goal; auto.
Qed.

Lemma step_garbage e s s' key :
  sys_step e s = Some s' → records (store s') !! key = Some Garbage → records (store s) !! key = Some Garbage.
Proof.
  intros Hstep Hg. destruct e as [m|i token net|key']; cbn in Hstep.
  - case_match; [|done]. by injection Hstep as <-.
  - destruct (clients s !! i) as [p|] eqn:Hp; [|done]. cbn in Hstep. case_bool_decide; [done|].
    destruct (run token net p (store s)) as [st' p'] eqn:Hr. injection Hstep as <-. cbn [store] in Hg.
    destruct (run_records _ _ _ _ _ _ key Hr) as [[He _]|[Hw _]]; [congruence|]. rewrite Hg in Hw. inversion Hw.
  - unfold expire in Hstep. destruct (records (store s) !! key') as [[d|]|] eqn:Hk; try done.
    destruct (d_TerminalExpireAt d); [|done]. remember (del_record key' (store s)) as st' eqn:Hst.
    injection Hstep as <-. cbn in Hg. unfold constant in Hg. subst st'.
    destruct (del_record_spec key' (store s) key) as [[He _]|(-> & He & _)]; congruence.
Qed.


Lemma step_entries es foreign s e s' k :
  orderly_run es (sys_init foreign) = Some s → sys_step e s = Some s' →
  k ∈ deliveries (store s') → k ∈ deliveries (store s) ∨ valid_key k.
Proof.
  intros Hrun Hstep Hk. destruct (orderly_inv _ _ _ Hrun) as [HH HI].
  destruct e as [m|i token net|key']; cbn in Hstep.
  - case_match; [|done]. left. by injection Hstep as <-.
  - destruct (clients s !! i) as [p|] eqn:Hp; [|done]. cbn in Hstep. case_bool_decide; [done|].
    destruct (run token net p (store s)) as [st' p'] eqn:Hr. injection Hstep as <-. cbn [store] in Hk.
    destruct (run_action _ _ _ _ _ _ Hr) as [Hd _]. rewrite Hd in Hk.
    by eapply action_entries, Hk; eapply command_action_ok.
  - unfold expire in Hstep. repeat case_match; try done. left. by injection Hstep as <-.
Qed.

Lemma orderly_clean es s : orderly_run es (sys_init []) = Some s →
  records_clean (store s) ∧ ∀ k, k ∈ deliveries (store s) → valid_key k.
Proof.
  intros Hrun. assert (HG : (∀ key, records (store s) !! key ≠ Some Garbage) ∧
                            ∀ k, k ∈ deliveries (store s) → valid_key k).
  { revert s Hrun. induction es as [|e es IH] using rev_ind; intros s Hrun; [injection Hrun as <-; done|].
    rewrite orderly_run_app in Hrun. destruct (orderly_run es _) as [s0|] eqn:H0; [|done]. cbn in Hrun.
    destruct (sys_step e s0) as [s1|] eqn:Hs; [|done]. cbn in Hrun. case_match; [|done]. injection Hrun as <-.
    destruct (IH _ eq_refl) as [IH1 IH2]. split.
    - intros key Hg. by eapply IH1, step_garbage.
    - intros k Hk. destruct (step_entries _ _ _ _ _ _ H0 Hs Hk); auto. }
  destruct HG as [HG1 HG2]. split; [|done]. intros key [d|] Hr; [|by apply HG1 in Hr].
  exists d. split; [done|]. destruct (orderly_inv _ _ _ Hrun) as [HH _]. by apply (hi_records _ _ HH).
Qed.

End scans.
