(* ===== verification/ChordRedisProps.v ===== *)
(** * The Redis chord store: the properties

    Refinement of the SQL store, the protocol of the indexes, the completeness of
    scans, and the runs on which the two unfenced removals lose the entry of a
    live chord. *)

From S2P Require Import Prelude GoText Chord ChordStore ChordInv ChordThms ChordRedis ChordRedisInv ChordRedisHist ChordRedisIndex ChordRedisStep ChordRedisScan.
From stdpp Require Import sorting.
From Stdlib Require Import Strings.Byte Strings.Ascii.
From coqutil Require Import Datatypes.RecordSetters.
Import DoubleBraceUpdate.

(** ** Rows *)

Definition row (st : redis) (key : string) : option ChordDelivery :=
  match records st !! key with
  | Some (Body d) => Some d
  | _ => None
  end.

Section rows.
Context `{ChordJSON}.

(** What a step may do to a record, in the terms of the SQL store. *)
Inductive row_step (es : list event) (e : event) (s : sys) (key : string)
    : option ChordDelivery → option ChordDelivery → Prop :=
  | row_same r : row_step es e s key r r
  | row_insert owner wall reg :
      registered es owner wall reg → redisChordRecordKey (rg_DeliveryKey reg) = Some key →
      row_step es e s key None (Some (NewChordDelivery reg owner wall))
  | row_op op d : row_step es e s key (Some d) (Some (apply_op op d))
  | row_abort i token net ref n t rv d :
      e = ERun i token net → clients s !! i = Some (AbExec key ref n t rv d) → abortable ref d →
      row_step es e s key (Some d) None
  | row_clean i token net f k d0 t d :
      e = ERun i token net → clients s !! i = Some (CleanDelete f k key d0 t) →
      d_RegistrationOwner d = d_RegistrationOwner d0 → row_step es e s key (Some d) None
  | row_expire t d : e = EExpire key → d_TerminalExpireAt d = Some t → row_step es e s key (Some d) None.

Lemma row_Some st key d : row st key = Some d ↔ records st !! key = Some (Body d).
Proof. unfold row. destruct (records st !! key) as [[]|]; split; intros; by simplify_eq. Qed.

Lemma wrote_row es s i p token net key st' :
  hist_inv es s → clients s !! i = Some p → wrote p (store s) key (records st' !! key) →
  row_step es (ERun i token net) s key (row (store s) key) (row st' key).
Proof.
  intros HI Hp Hw. pose proof (proj1 (list.Forall_forall _ _) (hi_watched _ _ HI) _ (list_elem_of_lookup_2 _ _ _ Hp)) as Hwt.
  unfold row. destruct Hw as [j -> -> Hn|op n d a ->|ref n t d d1 -> Hd Ho|f k t d d1 -> Hd Ho].
  - rewrite Hn. destruct (hi_jobs _ _ HI _ _ _ Hp eq_refl) as (Hk & wall & reg & Hreg & Hj).
    unfold j_delivery_key in Hk. rewrite Hj in Hk |- *. by apply row_insert.
  - destruct Hwt as [_ Hd0]. destruct (Hd0 eq_refl) as (d0 & Hr0 & Hm). rewrite Hr0.
    destruct (mutate_ok _ _ _ _ _ _ (hi_records _ _ HI _ _ Hr0) Hm) as (_ & _ & <-). apply row_op.
  - destruct Hwt as [[_ Hd0] Hab]. destruct (Hd0 eq_refl) as (d0 & Hr0 & ->). rewrite Hr0. by eapply row_abort.
  - rewrite Hd. by eapply row_clean.
Qed.

(** C9: the Redis store refines the SQL store.  In every interleaving of the
    commands of any number of clients, every record is what the SQL store makes
    of the same registration by some sequence of its operations; and every
    single command leaves a record as it is, inserts the record of a
    registration under a free key, applies one operation of the SQL store to the
    record as it is at that moment, or removes it: by an abort of its own
    registration, whose members have not begun to be published, by a cleanup
    that holds its owner, or by the expiry of a terminal chord.  The optimistic
    transactions therefore lose no update. *)
Theorem redis_refines es foreign s e s' key :
  sys_run es (sys_init foreign) = Some s → sys_step e s = Some s' →
  row_step es e s key (row (store s) key) (row (store s') key) ∧
  (∀ d, row (store s) key = Some d →
     ∃ wall reg ops, registered es (d_RegistrationOwner d) wall reg ∧
       redisChordRecordKey (rg_DeliveryKey reg) = Some key ∧
       d = run_ops ops (NewChordDelivery reg (d_RegistrationOwner d) wall)).
Proof.
  intros Hrun Hstep. pose proof (hist_reach _ _ _ Hrun) as HI. split.
  - destruct e as [m|i token net|key']; cbn in Hstep.
    + case_match; [|done]. injection Hstep as <-. apply row_same.
    + destruct (clients s !! i) as [p|] eqn:Hp; [|done]. cbn in Hstep. case_bool_decide; [done|].
      destruct (run token net p (store s)) as [st' p'] eqn:Hr. injection Hstep as <-. cbn [store].
      destruct (run_records _ _ _ _ _ _ key Hr) as [[He _]|[Hw _]]; [|by eapply wrote_row].
      unfold row. rewrite He. apply row_same.
    + unfold expire in Hstep. destruct (records (store s) !! key') as [[d|]|] eqn:Hk; try done.
      destruct (d_TerminalExpireAt d) as [t|] eqn:Ht; [|done]. remember (del_record key' (store s)) as st' eqn:Hst.
      injection Hstep as <-. cbn. unfold constant, row. subst st'.
      destruct (del_record_spec key' (store s) key) as [[-> _]|(-> & -> & _)]; [apply row_same|].
      rewrite Hk. by eapply row_expire.
  - intros d Hd%row_Some. destruct (hi_records _ _ HI _ _ Hd) as (Hk & wall & reg & ops & Hreg & He).
    exists wall, reg, ops. split_and!; [done| |done]. rewrite He in Hk.
    by rewrite (sd_key _ _ (run_ops_def reg _ wall ops)) in Hk.
Qed.

(** C10: in every interleaving in which no record is removed before its registration
    has committed the index, and no chord is registered anew while a cleanup that
    has found its record missing, or a scan that has found another chord in its
    place, is on the way to dropping its entry: the chord of a registration that
    has committed its index stays, as long as its record exists, in the index
    that scans walk, with the state of that registration or of a deletion fenced
    for it.  Clients may stop anywhere.  Without the second condition the entry
    of a live chord can be lost ([redis_cleanup_race], [redis_scan_race]). *)
Theorem redis_index_complete es foreign s key d :
  calm_run es (sys_init foreign) = Some s →
  row (store s) key = Some d → d_RegistrationOwner d ∈ forced s →
  d_DeliveryKey d ∈ deliveries (store s) ∧
  (states (store s) !! d_DeliveryKey d = Some (Committed (d_RegistrationOwner d)) ∨
   ∃ t, states (store s) !! d_DeliveryKey d = Some (Deleting t) ∧ fences s !! t = Some (d_RegistrationOwner d)).
Proof.
  intros Hrun Hd%row_Some Hf. destruct (orderly_inv _ _ _ (proj1 (calm_orderly _ _ _ Hrun))) as [_ HI]. by apply (ii_live _ HI key d).
Qed.

Lemma scan_pages_default pages steps limit cursor st :
  (limit <= 0)%Z → scan_pages pages steps limit cursor st = scan_pages pages steps 100 cursor st.
Proof.
  intros Hl. revert cursor st. induction pages as [|pages IH]; intros cursor st; [done|]. cbn [scan_pages].
  replace (ScanChordDeliveries limit cursor) with (ScanChordDeliveries 100 cursor)
    by (unfold ScanChordDeliveries; by rewrite (proj2 (Z.leb_le _ _) Hl)).
  repeat case_goal; try done. by rewrite IH.
Qed.

(** C25: whatever orderly run precedes it, a scan that is then carried on from
    cursor to cursor with any limit, while no other client runs, ends; it
    reports every chord at most once, in the order of the delivery keys, only
    chords that exist, and every chord whose registration has committed, the
    dangling entries that it meets and clears notwithstanding. *)
Theorem redis_scan_complete es s limit :
  orderly_run es (sys_init []) = Some s →
  ∃ pages steps L,
    scan_pages pages steps limit "" (store s) = Some L ∧
    StronglySorted lex_lt (d_DeliveryKey <$> L) ∧
    (∀ d, d ∈ L → ∃ key, row (store s) key = Some d) ∧
    (∀ key d, row (store s) key = Some d → d_RegistrationOwner d ∈ forced s → d ∈ L).
Proof.
  intros Hrun. destruct (orderly_clean _ _ Hrun) as [Hc Hv].
  destruct (orderly_inv _ _ _ Hrun) as [HH HI].
  set (limit' := if (limit <=? 0)%Z then 100%Z else limit).
  assert (Hl : (0 < limit')%Z) by (unfold limit'; destruct (Z.leb_spec limit 0); lia).
  destruct (scan_all (S (size (filter (above "") (reach (store s))))) limit' "" (store s))
    as (pages & steps & L & HL & Hs & Hsound & Hcompl); [lia|done|by left|done..|].
  exists pages, steps, L. split_and!; [|done| |].
  - rewrite <- (HL steps) by lia. unfold limit'. destruct (Z.leb_spec limit 0); [by apply scan_pages_default|done].
  - intros d Hd. destruct (Hsound d Hd) as [Hlive _]. unfold live in Hlive.
    destruct (redisChordRecordKey _) as [key|]; [|done]. exists key. cbn in Hlive. apply row_Some.
    repeat case_match; congruence.
  - intros key d Hd%row_Some Hf. destruct (ii_live _ HI _ _ Hd Hf) as [Hin _].
    apply (Hcompl (d_DeliveryKey d) d); [|done|by left]. unfold live.
    destruct (hi_records _ _ HH _ _ Hd) as [-> _]. cbn. by rewrite Hd, String.eqb_refl.
Qed.

End rows.

(** ** A sample run

    One chord of one member; a signature is one byte whatever it is. *)

#[local] Instance tiny_json : ChordJSON := {|
  rest := unit;
  unmarshal_signature b := Some (mkSignature "task" [] tt);
  marshal_signature s := Some [x00];
  marshal_receipt r := [x00];
  marshal_results rs := Some [];
  unmarshal_results b := Some None;
  marshal_definition reg := Some [x02];
  sha256 b := b;
|}.

Definition tiny_key : string := "chord:v1:g:d".
Definition tiny_reg : ChordRegistration :=
  {| rg_DeliveryKey := tiny_key; rg_DefinitionHash := ""; rg_GroupID := "group"; rg_GroupName := "name";
     rg_Retention := 60; rg_Callback := [x00];
     rg_Members := [{| mr_Ordinal := 0; mr_TaskID := "task"; mr_Payload := [x01] |}] |}.

Definition token (n : nat) : string := String (ascii_of_nat (65 + n)) EmptyString.

(** [n] commands of the client [i], with tokens from [t] on. *)
Definition commands (i t n : nat) : list event := (λ k, ERun i (token k) Replied) <$> seq t n.

(** Client 0 registers the chord and client 1 records the failure of its
    member, which ends it. *)
Definition ended : list event :=
  ECall (CallRegister "a" 1000 tiny_reg) :: commands 0 0 3 ++
  ECall (CallMemberTerminal 2000 tiny_key 0 "task" MemberTerminalFailure None) :: commands 1 3 4.

Definition tiny_record : string := "gkit:chord:{g}:record".

(** A decidable fact of the state that a run reaches. *)
Lemma run_checks (r : option sys) (f : sys → bool) :
  match r with Some s => f s | None => false end = true → ∃ s, r = Some s ∧ f s = true.
Proof. destruct r as [s|]; [by exists s|done]. Qed.

Definition row_check (f : ChordDelivery → bool) (s : sys) : bool :=
  match row (store s) tiny_record with Some d => f d | None => false end.

Lemma row_checks f s : row_check f s = true → ∃ d, row (store s) tiny_record = Some d ∧ f d = true.
Proof. unfold row_check. destruct (row _ _) as [d|]; [by exists d|done]. Qed.

(** The commit of the transaction that ends the chord. *)
Lemma redis_refines_witness :
  ∃ s s' d, sys_run (take 7 ended) (sys_init []) = Some s ∧ sys_step (ERun 1 (token 5) Replied) s = Some s' ∧
    row (store s) tiny_record = Some d ∧ row_check (λ d', bool_decide (d_CallbackState d' = ChordSuppressed)) s' = true ∧
    ∃ wall reg ops, registered (take 7 ended) (d_RegistrationOwner d) wall reg ∧
      redisChordRecordKey (rg_DeliveryKey reg) = Some tiny_record ∧
      d = run_ops ops (NewChordDelivery reg (d_RegistrationOwner d) wall).
Proof.
  destruct (run_checks (sys_run (take 7 ended) (sys_init [])) (λ s,
    row_check (λ _, true) s &&
    match sys_step (ERun 1 (token 5) Replied) s with
    | Some s' => row_check (λ d', bool_decide (d_CallbackState d' = ChordSuppressed)) s'
    | None => false
    end)) as (s & Hs & Hc); [vm_compute; reflexivity|].
  apply andb_true_iff in Hc as [Hd Hc]. destruct (sys_step _ s) as [s'|] eqn:Hs'; [|done].
  destruct (row_checks _ _ Hd) as (d & Hr & _). exists s, s', d.
  split; [exact Hs|]. split; [exact Hs'|]. split; [exact Hr|]. split; [exact Hc|].
  by apply (proj2 (redis_refines (take 7 ended) [] s _ s' tiny_record Hs Hs')).
Defined.

(** The chord registered above is indexed while it ends. *)
Lemma redis_index_complete_witness :
  ∃ s, calm_run ended (sys_init []) = Some s ∧ tiny_key ∈ deliveries (store s).
Proof.
  destruct (run_checks (calm_run ended (sys_init [])) (λ s,
    row_check (λ d, bool_decide (d_DeliveryKey d = tiny_key ∧ d_RegistrationOwner d ∈ forced s)) s))
    as (s & Hs & Hc); [vm_compute; reflexivity|].
  destruct (row_checks _ _ Hc) as (d & Hr & Hd). apply bool_decide_eq_true in Hd as [Hk Hf].
  exists s. split; [done|]. rewrite <- Hk. by apply (redis_index_complete ended [] s tiny_record d Hs Hr).
Defined.

(** The chord is on the pages of a scan with one chord per page. *)
Lemma redis_scan_complete_witness :
  ∃ s pages steps L d, orderly_run ended (sys_init []) = Some s ∧
    scan_pages pages steps 1 "" (store s) = Some L ∧ d ∈ L ∧ d_DeliveryKey d = tiny_key.
Proof.
  destruct (run_checks (orderly_run ended (sys_init [])) (λ s,
    row_check (λ d, bool_decide (d_DeliveryKey d = tiny_key ∧ d_RegistrationOwner d ∈ forced s)) s))
    as (s & Hs & Hc); [vm_compute; reflexivity|].
  destruct (row_checks _ _ Hc) as (d & Hr & Hd). apply bool_decide_eq_true in Hd as [Hk Hf].
  destruct (redis_scan_complete ended s 1 Hs) as (pages & steps & L & HL & _ & _ & Hall).
  exists s, pages, steps, L, d. split; [exact Hs|]. split; [exact HL|]. split; [exact (Hall _ _ Hr Hf)|exact Hk].
Defined.

(** ** Losing the entry of a live chord *)

(** The chord has ended and its record has expired.  A cleanup (client 2) finds
    the record gone; the chord is registered anew (client 3) before the cleanup
    reads the state of the entry, which it then removes. *)
Definition cleanup_race : list event :=
  ended ++ EExpire tiny_record ::
  ECall (CallCleanup (100000000000 * Second) 10) :: commands 2 7 2 ++
  ECall (CallRegister "b" 3000 tiny_reg) :: commands 3 9 3 ++ commands 2 12 2.

Definition returned (p : option pc) : bool :=
  match p with Some (Done (ARef ref)) => rf_Created ref && String.eqb (rf_Owner ref) "b" | _ => false end.

(** The record of the second registration exists and its registration has
    returned, but no scan finds it: the branch does not look at the record again
    after it has read the state.  Up to its last step the run is orderly. *)
Theorem redis_cleanup_race :
  ∃ s d, sys_run cleanup_race (sys_init []) = Some s ∧
    row (store s) tiny_record = Some d ∧ d_RegistrationOwner d = "b" ∧
    returned (clients s !! 3) = true ∧ zrange_by_lex (store s) "" 100 = [] ∧
    is_Some (orderly_run (removelast cleanup_race) (sys_init [])).
Proof.
  destruct (run_checks (orderly_run (removelast cleanup_race) (sys_init [])) (λ _, true)) as (s0 & Hs0 & _);
    [vm_compute; reflexivity|].
  destruct (run_checks (sys_run cleanup_race (sys_init [])) (λ s,
    row_check (λ d, bool_decide (d_RegistrationOwner d = "b")) s &&
    (returned (clients s !! 3) && bool_decide (zrange_by_lex (store s) "" 100 = []))))
    as (s & Hs & Hc); [vm_compute; reflexivity|].
  apply andb_true_iff in Hc as [Hd Hc]. apply andb_true_iff in Hc as [Hret Hz].
  destruct (row_checks _ _ Hd) as (d & Hr & Ho). apply bool_decide_eq_true in Ho, Hz. exists s, d. eauto 10.
Qed.

(** Two chords of one group share a record key.  Client 1 registers the second
    one while the first exists; a scan (client 2) has read the record of the
    first under the entry of the second when the first is aborted (client 3) and
    the second registration creates its record. *)
Definition other_key : string := "chord:v1:g:e".
Definition other_reg : ChordRegistration := tiny_reg {{ rg_DeliveryKey := other_key }}.

Definition scan_race : list event :=
  ECall (CallRegister "a" 1000 tiny_reg) :: commands 0 0 3 ++
  ECall (CallRegister "b" 2000 other_reg) :: commands 1 3 1 ++
  ECall (CallScan 10 "") :: commands 2 4 5 ++
  ECall (CallAbort {| rf_DeliveryKey := tiny_key; rf_Owner := "a"; rf_Version := 1; rf_Created := true |}) ::
  commands 3 9 5 ++ commands 1 14 2 ++ commands 2 16 2.

(** The scan removes the entry that the registration committed after the scan
    had read the record. *)
Theorem redis_scan_race :
  ∃ s d, sys_run scan_race (sys_init []) = Some s ∧
    row (store s) tiny_record = Some d ∧ d_DeliveryKey d = other_key ∧
    returned (clients s !! 1) = true ∧ zrange_by_lex (store s) "" 100 = [] ∧
    is_Some (orderly_run (removelast scan_race) (sys_init [])).
Proof.
  destruct (run_checks (orderly_run (removelast scan_race) (sys_init [])) (λ _, true)) as (s0 & Hs0 & _);
    [vm_compute; reflexivity|].
  destruct (run_checks (sys_run scan_race (sys_init [])) (λ s,
    row_check (λ d, bool_decide (d_DeliveryKey d = other_key)) s &&
    (returned (clients s !! 1) && bool_decide (zrange_by_lex (store s) "" 100 = []))))
    as (s & Hs & Hc); [vm_compute; reflexivity|].
  apply andb_true_iff in Hc as [Hd Hc]. apply andb_true_iff in Hc as [Hret Hz].
  destruct (row_checks _ _ Hd) as (d & Hr & Ho). apply bool_decide_eq_true in Ho, Hz. exists s, d. eauto 10.
Qed.
