(* ===== verification/ReliableQueue.v ===== *)
(** * Reliable delivery over Redis: the scripts and their callers

    Model of distributed/controller/controller_redis/reliable_queue.go.  The
    state is what the five Lua scripts read and write: the ready list, the hash
    of reserved envelopes, the visibility deadlines, the acknowledgement
    outcomes, the repair cursor and the repair backlog, with the times at which
    the last three keys expire.  The keys have the types the scripts check.
    A script is a function of the state and of the server's time; it returns
    its reply and the sequence of its write commands, so that a script that is
    cut off after some of its writes can be described.  Times are milliseconds,
    scores are integers.

    Parameters: the [HSCAN] command and the text of a score ([ZSCORE]), Lua's
    [tonumber], [tostring] and [string.format('%010d', _)] on integers, and
    SHA-256.  A caller's network failures, where it learns nothing of what the
    script did, are not values of the callers' results. *)

From S2P Require Import Prelude GoText.
From Stdlib Require Import Strings.Byte Strings.Ascii.
From stdpp Require Import sorting.

(** ** The state and its commands *)

Record redis := mkRedis {
  ready : list string;
  inflight : gmap string string;
  visibility : gmap string Z;
  outcomes : gmap string Z;
  outcomes_expire : option Z;
  cursor : option string;
  cursor_expire : option Z;
  backlog : gmap string Z;
  backlog_expire : option Z;
}.

Definition set_ready (l : list string) (st : redis) : redis :=
  mkRedis l (inflight st) (visibility st) (outcomes st) (outcomes_expire st) (cursor st) (cursor_expire st)
    (backlog st) (backlog_expire st).
Definition set_inflight (m : gmap string string) (st : redis) : redis :=
  mkRedis (ready st) m (visibility st) (outcomes st) (outcomes_expire st) (cursor st) (cursor_expire st)
    (backlog st) (backlog_expire st).
Definition set_visibility (z : gmap string Z) (st : redis) : redis :=
  mkRedis (ready st) (inflight st) z (outcomes st) (outcomes_expire st) (cursor st) (cursor_expire st)
    (backlog st) (backlog_expire st).
Definition set_outcomes (z : gmap string Z) (e : option Z) (st : redis) : redis :=
  mkRedis (ready st) (inflight st) (visibility st) z e (cursor st) (cursor_expire st)
    (backlog st) (backlog_expire st).
Definition set_cursor (c : option string) (e : option Z) (st : redis) : redis :=
  mkRedis (ready st) (inflight st) (visibility st) (outcomes st) (outcomes_expire st) c e
    (backlog st) (backlog_expire st).
Definition set_backlog (z : gmap string Z) (e : option Z) (st : redis) : redis :=
  mkRedis (ready st) (inflight st) (visibility st) (outcomes st) (outcomes_expire st) (cursor st)
    (cursor_expire st) z e.

Inductive write :=
  | RPUSH (payload : string)
  | LPOP
  | HSET (token envelope : string)
  | HDEL (token : string)
  | ZADD_visibility (score : Z) (token : string)
  | ZREM_visibility (token : string)
  | ZADD_outcomes (score : Z) (token : string)
  | ZREM_outcomes (tokens : list string)
  | PEXPIRE_outcomes (ttl : Z)
  | ZADD_backlog_NX (tokens : list string)
  | ZREM_backlog (tokens : list string)
  | PEXPIRE_backlog (ttl : Z)
  | SET_cursor (c : string) (ttl : Z)
  | PEXPIRE_cursor (ttl : Z).

(** A sorted set that loses its last member disappears with its expiry, and a
    key that does not exist cannot be given one. *)
Definition expire_of (z : gmap string Z) (e : option Z) : option Z := if bool_decide (z = ∅) then None else e.

Definition del_all {A} (ts : list string) (z : gmap string A) : gmap string A := foldr delete z ts.
Definition add_missing (ts : list string) (z : gmap string Z) : gmap string Z :=
  foldr (λ t z, match z !! t with Some _ => z | None => <[t := 0%Z]> z end) z ts.

Definition exec (now : Z) (w : write) (st : redis) : redis :=
  match w with
  | RPUSH p => set_ready (ready st ++ [p]) st
  | LPOP => set_ready (tail (ready st)) st
  | HSET t e => set_inflight (<[t := e]> (inflight st)) st
  | HDEL t => set_inflight (delete t (inflight st)) st
  | ZADD_visibility s t => set_visibility (<[t := s]> (visibility st)) st
  | ZREM_visibility t => set_visibility (delete t (visibility st)) st
  | ZADD_outcomes s t => set_outcomes (<[t := s]> (outcomes st)) (outcomes_expire st) st
  | ZREM_outcomes ts =>
      let z := del_all ts (outcomes st) in
      set_outcomes z (expire_of z (outcomes_expire st)) st
  | PEXPIRE_outcomes ttl => set_outcomes (outcomes st) (expire_of (outcomes st) (Some (now + ttl)%Z)) st
  | ZADD_backlog_NX ts => set_backlog (add_missing ts (backlog st)) (backlog_expire st) st
  | ZREM_backlog ts =>
      let z := del_all ts (backlog st) in
      set_backlog z (expire_of z (backlog_expire st)) st
  | PEXPIRE_backlog ttl => set_backlog (backlog st) (expire_of (backlog st) (Some (now + ttl)%Z)) st
  | SET_cursor c ttl => set_cursor (Some c) (Some (now + ttl)%Z) st
  | PEXPIRE_cursor ttl =>
      match cursor st with None => st | Some c => set_cursor (Some c) (Some (now + ttl)%Z) st end
  end.

Definition exec_all (now : Z) (ws : list write) (st : redis) : redis := foldl (λ st w, exec now w st) st ws.

(** Keys whose expiry has passed are gone when a script starts. *)
Definition passed (now : Z) (e : option Z) : bool := match e with Some t => (t <=? now)%Z | None => false end.
Definition purge_outcomes (now : Z) (st : redis) : redis :=
  if passed now (outcomes_expire st) then set_outcomes ∅ None st else st.
Definition purge_cursor (now : Z) (st : redis) : redis :=
  if passed now (cursor_expire st) then set_cursor None None st else st.
Definition purge_backlog (now : Z) (st : redis) : redis :=
  if passed now (backlog_expire st) then set_backlog ∅ None st else st.
Definition purge (now : Z) (st : redis) : redis := purge_backlog now (purge_cursor now (purge_outcomes now st)).

(** A sorted set in the order of its scores, then of its members. *)
Definition zle (a b : string * Z) : Prop := (a.2 < b.2)%Z ∨ (a.2 = b.2 ∧ String.leb a.1 b.1 = true).
#[global] Instance zle_dec a b : Decision (zle a b).
Proof. unfold zle. apply _. Defined.
Definition zsorted (z : gmap string Z) : list (string * Z) := merge_sort zle (map_to_list z).

(** [ZRANGEBYSCORE key -inf max LIMIT 0 n] and [ZRANGE key 0 n-1]. *)
Definition zrange_by_score (z : gmap string Z) (max : Z) (n : nat) : list string :=
  take n (fst <$> filter (λ p, (p.2 <= max)%Z) (zsorted z)).
Definition zrange (z : gmap string Z) (n : nat) : list string := take n (fst <$> zsorted z).

(** ** Envelopes *)

Definition header_size : nat := 11.

(** [string.sub(e, 12)]. *)
Definition payload_of (envelope : string) : string := str_drop header_size envelope.

Definition decodeReliableEnvelope (envelope : string) : option (Z * string) :=
  if bool_decide (String.length envelope < header_size) || negb (bool_decide (nth_char 10 envelope = Some ":"%char))
  then None
  else
    failures ← ParseUint (str_take 10 envelope);
    Some (failures, str_drop header_size envelope).

(** ** The scripts *)

Inductive rval := VInt (n : Z) | VStr (s : string).
Abbreviation reply := (string + list rval)%type.

(** What the scripts use of Redis and of Lua. *)
Class RedisLua := {
  HSCAN : gmap string string → string → nat → string * list string;
  tonumber : string → option Z;
  tostring : Z → string;
  format_010d : Z → string;
  score_text : Z → string;
}.

Section scripts.
Context `{RedisLua}.

(** A running script: the state it sees and the writes it has made. *)
Record run := mkRun { r_st : redis; r_log : list write }.
Definition emit (now : Z) (w : write) (r : run) : run :=
  mkRun (exec now w (r_st r)) (r_log r ++ [w]).
Definition emit_if (now : Z) (b : bool) (w : write) (r : run) : run := if b then emit now w r else r.

Definition valid_envelope (e : string) : bool :=
  negb (bool_decide (String.length e < 11)) && bool_decide (nth_char 10 e = Some ":"%char) &&
  bool_decide (is_Some (tonumber (str_take 10 e))).

(** An envelope that is absent is not checked. *)
Definition valid_opt (e : option string) : bool := match e with None => true | Some e => valid_envelope e end.

Definition mem {A} (t : string) (m : gmap string A) : bool := bool_decide (is_Some (m !! t)).

(** The token occurs in the reservations, the outcomes or the repair backlog. *)
Definition token_taken (st : redis) (t : string) : bool :=
  mem t (inflight st) || mem t (visibility st) || mem t (outcomes st) || mem t (backlog st).

Record repair_entry := mkRepair {
  re_token : string; re_envelope : option string; re_outcome : option Z; re_visibility : option Z }.

Definition repair_of (st : redis) (t : string) : repair_entry :=
  mkRepair t (inflight st !! t) (outcomes st !! t) (visibility st !! t).

Definition live_outcome (now : Z) (o : option Z) : bool := match o with Some s => (now <? s)%Z | None => false end.

(** One iteration of the repair loop; the flag is [reconciled]. *)
Definition repair_step (now : Z) (p : run * bool) (e : repair_entry) : run * bool :=
  let '(r, reconciled) := p in
  match re_envelope e with
  | None =>
      match re_visibility e with
      | Some _ => (emit now (ZREM_visibility (re_token e)) r, true)
      | None => (r, reconciled)
      end
  | Some envelope =>
      if live_outcome now (re_outcome e) then
        (emit now (HDEL (re_token e)) (emit now (ZREM_visibility (re_token e)) r), true)
      else
        match re_visibility e with
        | None => (emit now (HDEL (re_token e)) (emit now (RPUSH (payload_of envelope)) r), true)
        | Some _ => (r, reconciled)
        end
  end.

(** One iteration over the visible tokens: drop a deadline without an envelope. *)
Definition visible_step (now : Z) (p : run * bool) (t : string) : run * bool :=
  let '(r, reconciled) := p in
  if mem t (inflight (r_st r)) then (r, reconciled) else (emit now (ZREM_visibility t) r, true).

Fixpoint all_digits (s : string) : bool :=
  match s with EmptyString => true | String c s' => is_digit c && all_digits s' end.
Definition is_cursor (s : string) : bool := negb (String.eqb s "") && all_digits s.

(** The fields of a scan page, which alternates fields and values. *)
Fixpoint fields (entries : list string) : list string :=
  match entries with
  | field :: _ :: rest => field :: fields rest
  | [field] => [field]
  | [] => []
  end.

(** What the claim script reads before its first write. *)
Record claim_view := mkView {
  v_expired : list string; v_ttl_missing : bool; v_newest : option Z; v_draining : bool;
  v_odd_page : bool;
  v_backlog : list string; v_next_cursor : string; v_repair : list repair_entry; v_overflow : list string;
  v_visible : list string; v_due : option string; v_payload : option string }.

Definition read_claim (now : Z) (st : redis) : claim_view :=
  let repair_cursor := default "0" (cursor st) in
  let backlog_tokens := zrange (backlog st) 128 in
  let draining := negb (bool_decide (backlog_tokens = [])) in
  let '(next_cursor, entries) := HSCAN (inflight st) repair_cursor 128 in
  let scanned := if draining then backlog_tokens else fields (take 256 entries) in
  {| v_expired := zrange_by_score (outcomes st) now 128;
     v_ttl_missing := negb (bool_decide (outcomes st = ∅)) && bool_decide (outcomes_expire st = None);
     v_newest := snd <$> last (zsorted (outcomes st));
     v_draining := draining;
     v_odd_page := negb draining && Nat.odd (length entries);
     v_backlog := backlog_tokens;
     v_next_cursor := if draining then repair_cursor else next_cursor;
     v_repair := repair_of st <$> scanned;
     v_overflow := if draining then [] else fields (drop 256 entries);
     v_visible := zrange (visibility st) (128 - length scanned);
     v_due := head (zrange_by_score (visibility st) now 1);
     v_payload := head (ready st) |}.

(** The writes that precede the claim proper; the flag is [reconciled]. *)
Definition housekeeping (now outcome_ttl : Z) (v : claim_view) (r : run) : run * bool :=
  let reconciled := negb (bool_decide (v_expired v = [])) in
  let r := emit_if now reconciled (ZREM_outcomes (v_expired v)) r in
  let ttl := match v_newest v with
             | Some s => Z.max 1 (s - now + 3600000)
             | None => outcome_ttl
             end in
  let r := emit_if now (v_ttl_missing v) (PEXPIRE_outcomes ttl) r in
  let r := if v_draining v then emit now (PEXPIRE_cursor outcome_ttl) r
           else emit_if now (negb (bool_decide (v_overflow v = []))) (ZADD_backlog_NX (v_overflow v)) r in
  let '(r, reconciled) := foldl (repair_step now) (r, reconciled) (v_repair v) in
  let r := emit_if now (v_draining v) (ZREM_backlog (v_backlog v)) r in
  let '(r, reconciled) := foldl (visible_step now) (r, reconciled) (v_visible v) in
  let r := emit_if now (negb (v_draining v)) (SET_cursor (v_next_cursor v) outcome_ttl) r in
  let r := emit_if now (negb (bool_decide (backlog (r_st r) = ∅))) (PEXPIRE_backlog outcome_ttl) r in
  (r, reconciled).

(** Move an expired reservation to the new token. *)
Definition reclaim (now lease : Z) (token oldtoken : string) (outcome : option Z) (envelope : option string)
    (r : run) : reply * run :=
  if live_outcome now outcome then
    (inr [VInt 3], emit now (HDEL oldtoken) (emit now (ZREM_visibility oldtoken) r))
  else
    match envelope with
    | None => (inr [VInt 3], emit now (ZREM_visibility oldtoken) r)
    | Some e =>
        let deadline := (now + lease)%Z in
        let r := emit now (HSET token e) r in
        let r := emit now (ZADD_visibility deadline token) r in
        let r := emit now (ZREM_visibility oldtoken) r in
        let r := emit now (HDEL oldtoken) r in
        (inr [VInt 1; VStr token; VStr e; VStr (tostring now); VStr (tostring deadline)], r)
    end.

Definition zero_header : string := "0000000000:".

(** Reserve the first ready payload. *)
Definition reserve (now lease : Z) (token payload : string) (r : run) : reply * run :=
  let envelope := zero_header +:+ payload in
  let deadline := (now + lease)%Z in
  let r := emit now (HSET token envelope) r in
  let r := emit now (ZADD_visibility deadline token) r in
  let removed := head (ready (r_st r)) in
  let r := emit now LPOP r in
  if bool_decide (removed = Some payload)
  then (inr [VInt 1; VStr token; VStr envelope; VStr (tostring now); VStr (tostring deadline)], r)
  else (inl "reliable claim: ready payload changed", r).

Definition claim_script (now : Z) (token : string) (lease outcome_ttl : Z) (st : redis) : reply * run :=
  let st := purge now st in
  let r0 := mkRun st [] in
  if String.eqb token "" || (lease <=? 0)%Z || (outcome_ttl <=? 0)%Z then
    (inl "reliable claim: invalid argument", r0)
  else if token_taken st token then (inr [VInt 2], r0)
  else if negb (is_cursor (default "0" (cursor st))) then (inl "reliable claim: invalid repair cursor", r0)
  else
    let v := read_claim now st in
    let old := v_due v in
    let oldoutcome := t ← old; outcomes st !! t in
    let oldenvelope := t ← old; inflight st !! t in
    if v_odd_page v then (inl "reliable claim: invalid repair scan page", r0)
    else if negb (forallb (λ e, valid_opt (re_envelope e)) (v_repair v)) then
      (inl "reliable claim: invalid orphan envelope", r0)
    else if negb (valid_opt oldenvelope) then (inl "reliable claim: invalid envelope", r0)
    else
      let '(r, reconciled) := housekeeping now outcome_ttl v r0 in
      if reconciled then (inr [VInt 3], r)
      else
        match old with
        | Some oldtoken => reclaim now lease token oldtoken oldoutcome oldenvelope r
        | None =>
            match v_payload v with
            | None => (inr [VInt 0; VStr (tostring now)], r)
            | Some payload => reserve now lease token payload r
            end
        end.

(** The envelope of a token whose deadline has not passed. *)
Definition reserved (now : Z) (st : redis) (token : string) : option string :=
  e ← inflight st !! token;
  s ← visibility st !! token;
  if (s <=? now)%Z then None else Some e.

Definition renew_script (now : Z) (token : string) (lease : Z) (st : redis) : reply * run :=
  let st := purge now st in
  let r := mkRun st [] in
  if String.eqb token "" || (lease <=? 0)%Z then (inl "reliable renew: invalid argument", r)
  else
    match reserved now st token with
    | None => (inr [VInt 0; VStr (tostring now)], r)
    | Some _ =>
        let deadline := (now + lease)%Z in
        (inr [VInt 1; VStr (tostring now); VStr (tostring deadline)],
         emit now (ZADD_visibility deadline token) r)
    end.

(** Record the acknowledgement of a token whose reservation is current. *)
Definition ack_reserved (now : Z) (token : string) (retention ttl : Z) (expired : list string)
    (r : run) : reply * run :=
  match reserved now (r_st r) token with
  | None => (inr [VInt 0; VInt 0; VStr (tostring now)], r)
  | Some _ =>
      let r := emit_if now (negb (bool_decide (expired = []))) (ZREM_outcomes expired) r in
      let outcome := (now + retention)%Z in
      let r := emit now (ZADD_outcomes outcome token) r in
      let r := emit now (PEXPIRE_outcomes ttl) r in
      let r := emit now (ZREM_visibility token) r in
      let r := emit now (HDEL token) r in
      let r := emit now (ZREM_backlog [token]) r in
      (inr [VInt 1; VInt 0; VStr (tostring now); VStr (tostring outcome)], r)
  end.

Definition ack_script (now : Z) (token : string) (retention ttl : Z) (st : redis) : reply * run :=
  let st := purge now st in
  let r := mkRun st [] in
  if String.eqb token "" || (retention <=? 0)%Z || (ttl <=? retention)%Z then
    (inl "reliable ack: invalid argument", r)
  else
    let prior := outcomes st !! token in
    let expired := zrange_by_score (outcomes st) now 128 in
    if live_outcome now prior then
      let r := emit now (ZREM_visibility token) r in
      let r := emit now (HDEL token) r in
      let r := emit now (PEXPIRE_outcomes ttl) r in
      let r := emit now (ZREM_backlog [token]) r in
      (inr [VInt 1; VInt 1; VStr (tostring now); VStr (score_text (default 0%Z prior))], r)
    else ack_reserved now token retention ttl expired r.

Definition release_script (now : Z) (token : string) (st : redis) : reply * run :=
  let st := purge now st in
  let r := mkRun st [] in
  if String.eqb token "" then (inl "reliable release: invalid token", r)
  else
    match reserved now st token with
    | None => (inr [VInt 0; VStr (tostring now)], r)
    | Some envelope =>
        if negb (valid_envelope envelope) then (inl "reliable release: invalid envelope", r)
        else
          let r := emit now (RPUSH (payload_of envelope)) r in
          let r := emit now (ZREM_visibility token) r in
          let r := emit now (HDEL token) r in
          let r := emit now (ZREM_backlog [token]) r in
          (inr [VInt 1; VStr (tostring now)], r)
    end.

Definition defer_script (now : Z) (oldtoken newtoken : string) (delay : Z) (st : redis) : reply * run :=
  let st := purge now st in
  let r := mkRun st [] in
  if String.eqb oldtoken "" || String.eqb newtoken "" || (delay <? 0)%Z then
    (inl "reliable retry: invalid argument", r)
  else if token_taken st newtoken then (inr [VInt 2], r)
  else
    match reserved now st oldtoken with
    | None => (inr [VInt 0; VStr (tostring now)], r)
    | Some envelope =>
        if bool_decide (String.length envelope < 11) || negb (bool_decide (nth_char 10 envelope = Some ":"%char))
        then (inl "reliable retry: invalid envelope", r)
        else
          match tonumber (str_take 10 envelope) with
          | None => (inl "reliable retry: invalid failure count", r)
          | Some failure =>
              let failure := if (failure <? 9999999999)%Z then (failure + 1)%Z else failure in
              let newenvelope := format_010d failure +:+ ":" +:+ payload_of envelope in
              let deadline := (now + delay)%Z in
              let r := emit now (HSET newtoken newenvelope) r in
              let r := emit now (ZADD_visibility deadline newtoken) r in
              let r := emit now (ZREM_visibility oldtoken) r in
              let r := emit now (HDEL oldtoken) r in
              let r := emit now (ZREM_backlog [oldtoken]) r in
              (inr [VInt 1; VStr newtoken; VStr newenvelope; VStr (tostring now); VStr (tostring deadline)], r)
          end
    end.

(** ** The callers *)

Inductive queue_error :=
  | ErrDeliveryLeaseLost
  | ErrDeliveryTokenUnavailable
  | ErrDeliveryTokenCollision
  | ErrRedis (operation message : string)
  | ErrResponse (message : string).

Definition defaultDeliveryLease : Z := 30 * 1000000000.
Definition ackOutcomeRetention : Z := 24 * 3600 * 1000000000.
Definition ackOutcomeKeyTTL : Z := 25 * 3600 * 1000000000.
Definition maxDeliveryTokenAttempts : nat := 4.
Definition maxClaimReconciliations : nat := 128.

(** [time.Duration.Milliseconds]. *)
Definition Milliseconds (d : Z) : Z := Z.quot d 1000000.

(** Instants: the server's in milliseconds, the client's in nanoseconds. *)
Record reliableDelivery := mkDelivery {
  d_token : string; d_payload : string; d_failures : Z;
  d_serverTime : Z; d_deadline : Z; d_confirmedUntil : Z }.

Definition updateConfirmation (requestStarted serverMillis deadlineMillis : Z) (d : reliableDelivery)
    : reliableDelivery :=
  let remaining := wraps 64 (wraps 64 (deadlineMillis - serverMillis) * 1000000)%Z in
  let remaining := if (remaining <? 0)%Z then 0%Z else remaining in
  mkDelivery (d_token d) (d_payload d) (d_failures d) serverMillis deadlineMillis (requestStarted + remaining)%Z.

Definition reliableScriptValues (vs : list rval) : queue_error + (rval * list rval) :=
  match vs with
  | [] => inl (ErrResponse "invalid script response")
  | v :: vs => inr (v, vs)
  end.
Definition reliableScriptInt (v : rval) : queue_error + Z :=
  match v with
  | VInt n => inr n
  | VStr s => match ParseInt s with Some n => inr n | None => inl (ErrResponse "invalid integer response") end
  end.
Definition reliableScriptBytes (v : rval) : queue_error + string :=
  match v with
  | VInt _ => inl (ErrResponse "invalid byte response")
  | VStr s => inr s
  end.

Definition sbind {A B} (m : queue_error + A) (f : A → queue_error + B) : queue_error + B :=
  match m with inl e => inl e | inr a => f a end.

(** The reply of a script as the callers see it: its code and its values. *)
Definition script_code (operation : string) (rep : reply) : queue_error + (Z * list rval) :=
  match rep with
  | inl msg => inl (ErrRedis operation msg)
  | inr vs =>
      sbind (reliableScriptValues vs) (λ '(v, _),
      sbind (reliableScriptInt v) (λ code, inr (code, vs)))
  end.

(** A delivery from the five values of a successful claim or retry. *)
Definition delivery_of (operation token : string) (requestStarted : Z) (vs : list rval)
    : queue_error + reliableDelivery :=
  match vs with
  | [_; _; envelope; server; deadline] =>
      sbind (reliableScriptBytes envelope) (λ e,
      match decodeReliableEnvelope e with
      | None => inl (ErrResponse "invalid envelope")
      | Some (failures, payload) =>
          sbind (reliableScriptInt server) (λ serverMillis,
          sbind (reliableScriptInt deadline) (λ deadlineMillis,
          inr (updateConfirmation requestStarted serverMillis deadlineMillis
                 (mkDelivery token payload failures 0 0 0))))
      end)
  | _ => inl (ErrResponse (operation +:+ ": invalid script response"))
  end.

(** Tokens: sixteen random bytes in hexadecimal; the reader may fail. *)
Definition hex_digit (n : Z) : ascii :=
  ascii_of_nat (if (n <? 10)%Z then 48 + Z.to_nat n else 87 + Z.to_nat n).
Fixpoint EncodeToString (bs : list Z) : string :=
  match bs with
  | [] => EmptyString
  | b :: bs => String (hex_digit (b / 16)) (String (hex_digit (b mod 16)) (EncodeToString bs))
  end.
Definition next_token (read : option (list Z)) : queue_error + string :=
  match read with
  | None => inl ErrDeliveryTokenUnavailable
  | Some bytes => inr (EncodeToString bytes)
  end.

(** What one attempt of a caller meets: the bytes read for the token, the
    client's clock, the server's clock, and what the other clients did to the
    state since the previous attempt. *)
Record attempt := mkAttempt {
  a_read : option (list Z); a_started : Z; a_now : Z; a_others : redis → redis }.

Record reliableQueue := mkQueue { lease : Z }.
Definition newReliableQueue (l : Z) : reliableQueue :=
  mkQueue (if (l <=? 0)%Z then defaultDeliveryLease else l).

(** The inner loop of [claim]: a result, or [None] to reconcile again; with the
    number of attempts made so far. *)
Fixpoint claim_attempts (q : reliableQueue) (env : nat → attempt) (i k : nat) (st : redis)
    : option (queue_error + option reliableDelivery) * nat * redis :=
  match k with
  | O => (Some (inl ErrDeliveryTokenCollision), i, st)
  | S k' =>
      let a := env i in
      match next_token (a_read a) with
      | inl e => (Some (inl e), i, st)
      | inr token =>
          let '(rep, r) := claim_script (a_now a) token (Milliseconds (lease q))
                             (Milliseconds ackOutcomeKeyTTL) (a_others a st) in
          let st := r_st r in
          match script_code "claim queued task" rep with
          | inl e => (Some (inl e), S i, st)
          | inr (code, vs) =>
              if (code =? 0)%Z then (Some (inr None), S i, st)
              else if (code =? 1)%Z then
                (Some (sbind (delivery_of "claim queued task" token (a_started a) vs) (λ d, inr (Some d))), S i, st)
              else if (code =? 2)%Z then claim_attempts q env (S i) k' st
              else if (code =? 3)%Z then (None, S i, st)
              else (Some (inl (ErrResponse "claim queued task: unknown script result")), S i, st)
          end
      end
  end.

Fixpoint claim_loop (q : reliableQueue) (env : nat → attempt) (i fuel : nat) (st : redis)
    : (queue_error + option reliableDelivery) * redis :=
  match fuel with
  | O => (inl (ErrResponse "claim queued task: reconciliation limit reached"), st)
  | S fuel' =>
      match claim_attempts q env i maxDeliveryTokenAttempts st with
      | (Some res, _, st) => (res, st)
      | (None, i, st) => claim_loop q env i fuel' st
      end
  end.

Definition claim (q : reliableQueue) (env : nat → attempt) (st : redis)
    : (queue_error + option reliableDelivery) * redis :=
  claim_loop q env 0 maxClaimReconciliations st.

Definition renew (q : reliableQueue) (started now : Z) (d : reliableDelivery) (st : redis)
    : (queue_error + reliableDelivery) * redis :=
  let '(rep, r) := renew_script now (d_token d) (Milliseconds (lease q)) st in
  (sbind (script_code "renew queued task" rep) (λ '(code, vs),
     if negb (code =? 1)%Z then inl ErrDeliveryLeaseLost
     else match vs with
          | [_; server; deadline] =>
              sbind (reliableScriptInt server) (λ serverMillis,
              sbind (reliableScriptInt deadline) (λ deadlineMillis,
              inr (updateConfirmation started serverMillis deadlineMillis d)))
          | _ => inl (ErrResponse "renew queued task: invalid script response")
          end), r_st r).

Definition confirm (operation : string) (p : reply * run) : (queue_error + unit) * redis :=
  let '(rep, r) := p in
  (sbind (script_code operation rep) (λ '(code, _),
     if negb (code =? 1)%Z then inl ErrDeliveryLeaseLost else inr tt), r_st r).

Definition acknowledge (now : Z) (d : reliableDelivery) (st : redis) : (queue_error + unit) * redis :=
  confirm "acknowledge queued task"
    (ack_script now (d_token d) (Milliseconds ackOutcomeRetention) (Milliseconds ackOutcomeKeyTTL) st).

Definition release (now : Z) (d : reliableDelivery) (st : redis) : (queue_error + unit) * redis :=
  confirm "release queued task" (release_script now (d_token d) st).

(** ** The retry delay *)

(** [binary.BigEndian.PutUint64]. *)
Fixpoint be_bytes (k : nat) (n : Z) : list Z :=
  match k with
  | O => []
  | S k' => be_bytes k' (n / 256) ++ [n mod 256]%Z
  end.
Definition bytes_of (s : string) : list Z := (λ c, Z.of_nat (nat_of_ascii c)) <$> String.list_ascii_of_string s.

Context (sha256 : list Z → list Z).

Definition reliableRetryDelay (failures : Z) (payload : string) : Z :=
  let exponent := if (6 <? failures)%Z then 6%Z else failures in
  let second := 1000000000%Z in
  let base := wraps 64 (second * Z.shiftl 1 exponent) in
  let base := if (60 * second <? base)%Z then (60 * second)%Z else base in
  let digest := sha256 (be_bytes 8 failures ++ bytes_of payload) in
  let uint16 := (nth 0 digest 0 * 256 + nth 1 digest 0)%Z in
  let basisPoints := (8000 + Z.rem uint16 4001)%Z in
  let delay := Z.quot (wraps 64 (base * basisPoints)) 10000 in
  if (60 * second <? delay)%Z then (60 * second)%Z else delay.

Fixpoint defer_attempts (env : nat → attempt) (d : reliableDelivery) (delay : Z) (i k : nat) (st : redis)
    : (queue_error + reliableDelivery) * redis :=
  match k with
  | O => (inl ErrDeliveryTokenCollision, st)
  | S k' =>
      let a := env i in
      match next_token (a_read a) with
      | inl e => (inl e, st)
      | inr newToken =>
          let '(rep, r) := defer_script (a_now a) (d_token d) newToken (Milliseconds delay) (a_others a st) in
          let st := r_st r in
          match script_code "defer queued task" rep with
          | inl e => (inl e, st)
          | inr (code, vs) =>
              if (code =? 0)%Z then (inl ErrDeliveryLeaseLost, st)
              else if (code =? 1)%Z then (delivery_of "defer queued task" newToken (a_started a) vs, st)
              else if (code =? 2)%Z then defer_attempts env d delay (S i) k' st
              else (inl (ErrResponse "defer queued task: unknown script result"), st)
          end
      end
  end.

Definition deferRetry (env : nat → attempt) (d : reliableDelivery) (st : redis)
    : (queue_error + reliableDelivery) * redis :=
  defer_attempts env d (reliableRetryDelay (d_failures d) (d_payload d)) 0 maxDeliveryTokenAttempts st.

End scripts.
