(* ===== verification/ReliableInv.v ===== *)
(** * Reliable delivery: envelopes and numbers as text

    What the scripts rely on in Lua and in [HSCAN], and the round trips of the
    texts they exchange with the Go side: ten-digit failure counts, envelopes
    and decimal times. *)

From S2P Require Import Prelude GoText ReliableQueue.
From Stdlib Require Import Strings.Byte Strings.Ascii.
From stdpp Require Import sorting.

(** ** The laws of the parameters *)

Class RedisLuaLaws `{RedisLua} := {
  (** A ten-digit decimal numeral denotes its number, and ['%010d'] prints it. *)
  tonumber_digits n : (0 <= n < 10 ^ 10)%Z → tonumber (digits 10 n) = Some n;
  format_digits n : (0 <= n < 10 ^ 10)%Z → format_010d n = digits 10 n;
  (** Integers of up to fourteen digits are printed in decimal (['%.14g']). *)
  tostring_digits n :
    (0 <= n < 10 ^ 14)%Z → ∃ k, 1 <= k <= 14 ∧ (n < 10 ^ Z.of_nat k)%Z ∧ tostring n = digits k n;
  (** A scan page alternates fields of the hash and their values, and its
      cursor is a numeral. *)
  HSCAN_even m c n : Nat.odd (length (HSCAN m c n).2) = false;
  HSCAN_fields m c n : ∀ t, t ∈ fields (HSCAN m c n).2 → is_Some (m !! t);
  HSCAN_cursor m c n : is_cursor (HSCAN m c n).1 = true;
}.

(** ** Envelopes *)

Definition envelope (failures : Z) (payload : string) : string := digits 10 failures +:+ ":" +:+ payload.
Definition envelope_ok (e : string) : Prop := ∃ n p, (0 <= n < 10 ^ 10)%Z ∧ e = envelope n p.

Lemma zero_header_envelope p : zero_header +:+ p = envelope 0 p.
Proof. reflexivity. Qed.

Lemma envelope_header n p : str_take 10 (envelope n p) = digits 10 n.
Proof. rewrite <- (digits_length 10 n) at 1. apply str_take_app. Qed.
Lemma envelope_colon n p : nth_char 10 (envelope n p) = Some ":"%char.
Proof. rewrite <- (digits_length 10 n) at 1. apply nth_char_app. Qed.
Lemma envelope_length n p : 11 <= String.length (envelope n p).
Proof. unfold envelope. rewrite !str_length_app, digits_length. simpl. lia. Qed.
Lemma envelope_payload n p : payload_of (envelope n p) = p.
Proof.
  unfold payload_of, header_size, envelope.
  replace (digits 10 n +:+ ":" +:+ p) with ((digits 10 n +:+ ":") +:+ p) by by rewrite str_app_assoc.
  replace 11 with (String.length (digits 10 n +:+ ":")) by (rewrite str_length_app, digits_length; done).
  apply str_drop_app.
Qed.

Lemma decode_envelope n p : (0 <= n < 10 ^ 10)%Z → decodeReliableEnvelope (envelope n p) = Some (n, p).
Proof.
  intros Hn. unfold decodeReliableEnvelope. pose proof (envelope_length n p).
  rewrite bool_decide_false by (unfold header_size; lia). rewrite envelope_colon, bool_decide_true by done.
  cbn [orb negb]. rewrite envelope_header, (ParseUint_digits 9 n Hn) by lia.
  cbn [mbind option_bind]. by f_equal.
Qed.

(** * Reliable delivery: accounting for payloads

    Lemmas on the scripts of [ReliableQueue]: how each write changes the number
    of live copies of a payload, what the writes of the claim script leave
    alone, and the measure that its housekeeping lowers. *)

Create HintDb queue.


(** ** Live copies of a payload *)

(** A reservation counts unless its acknowledgement is on record. *)
Definition live (now : Z) (p : string) (o : gmap string Z) (kv : string * string) : Prop :=
  payload_of kv.2 = p ∧ live_outcome now (o !! kv.1) = false.
#[global] Instance live_dec now p o kv : Decision (live now p o kv).
Proof. unfold live. apply _. Defined.

Definition count (p : string) (l : list string) : nat := length (filter (λ x, x = p) l).

Definition copies (now : Z) (p : string) (st : redis) : nat :=
  count p (ready st) + size (filter (live now p (outcomes st)) (inflight st)).

Definition same_evidence (now : Z) (z z' : gmap string Z) : Prop :=
  ∀ t, live_outcome now (z !! t) = live_outcome now (z' !! t).

#[global] Arguments count : simpl never.

Lemma count_app p l k : count p (l ++ k) = count p l + count p k.
Proof. unfold count. by rewrite list.filter_app, length_app. Qed.
Lemma count_cons p x l : count p (x :: l) = (if decide (x = p) then 1 else 0) + count p l.
Proof. unfold count. rewrite filter_cons. by destruct (decide (x = p)). Qed.
Lemma count_tail p l :
  count p l = count p (tail l) + match head l with Some x => if decide (x = p) then 1 else 0 | None => 0 end.
Proof. destruct l as [|x l]; simpl; [done|]. rewrite count_cons. lia. Qed.

Lemma copies_ext now p st st' :
  ready st' = ready st → inflight st' = inflight st → same_evidence now (outcomes st) (outcomes st') →
  copies now p st' = copies now p st.
Proof.
  intros Hr Hi Ho. unfold copies. rewrite Hr, Hi. f_equal. f_equal.
  apply map_filter_ext. intros t e _. unfold live. simpl. by rewrite Ho.
Qed.

(** One reservation more or less. *)
Definition unit_live (now : Z) (p : string) (o : gmap string Z) (t e : string) : nat :=
  if decide (live now p o (t, e)) then 1 else 0.

Lemma size_filter_insert_new now p o (m : gmap string string) t e :
  m !! t = None →
  size (filter (live now p o) (<[t := e]> m)) = size (filter (live now p o) m) + unit_live now p o t e.
Proof.
  intros Ht. unfold unit_live. rewrite map_filter_insert. case_decide as Hl.
  - rewrite map_size_insert_None; [lia|]. apply map_lookup_filter_None. by left.
  - rewrite map_filter_delete, delete_id; [lia|]. apply map_lookup_filter_None. by left.
Qed.

Lemma size_filter_delete now p o (m : gmap string string) t e :
  m !! t = Some e →
  size (filter (live now p o) m) = size (filter (live now p o) (delete t m)) + unit_live now p o t e.
Proof.
  intros Ht. rewrite <- (insert_delete_id m t e Ht) at 1.
  apply size_filter_insert_new. apply lookup_delete_eq.
Qed.

Lemma copies_RPUSH now p st x :
  copies now p (exec now (RPUSH x) st) = copies now p st + if decide (x = p) then 1 else 0.
Proof. unfold copies. simpl. rewrite count_app, count_cons. change (count p []) with 0. lia. Qed.

Lemma copies_LPOP now p st :
  copies now p st =
    copies now p (exec now LPOP st) +
    match head (ready st) with Some x => if decide (x = p) then 1 else 0 | None => 0 end.
Proof. unfold copies. simpl. rewrite (count_tail p (ready st)). lia. Qed.

Lemma copies_HSET now p st t e :
  inflight st !! t = None →
  copies now p (exec now (HSET t e) st) = copies now p st + unit_live now p (outcomes st) t e.
Proof. intros Ht. unfold copies. simpl. rewrite size_filter_insert_new by done. lia. Qed.

Lemma copies_HDEL now p st t :
  copies now p st =
    copies now p (exec now (HDEL t) st) +
    match inflight st !! t with Some e => unit_live now p (outcomes st) t e | None => 0 end.
Proof.
  unfold copies. simpl. destruct (inflight st !! t) as [e|] eqn:Ht.
  - rewrite (size_filter_delete now p _ _ t e Ht). lia.
  - rewrite delete_id by done. lia.
Qed.

(** ** Every prefix of a script's writes *)

(** The run started at [st0], and [P] holds after each of its writes. *)
Definition along (now : Z) (P : redis → Prop) (st0 : redis) (r : run) : Prop :=
  r_st r = exec_all now (r_log r) st0 ∧ ∀ n, P (exec_all now (take n (r_log r)) st0).

Lemma exec_all_app now l k st : exec_all now (l ++ k) st = exec_all now k (exec_all now l st).
Proof. unfold exec_all. by rewrite foldl_app. Qed.

Lemma along_start now (P : redis → Prop) st0 : P st0 → along now P st0 (mkRun st0 []).
Proof. intros HP. split; [done|]. intros n. by destruct n. Qed.

Lemma along_here now P st0 r : along now P st0 r → P (r_st r).
Proof. intros [-> HP]. rewrite <- (take_ge (r_log r) (length (r_log r))) by done. apply HP. Qed.

Lemma along_emit now (P : redis → Prop) st0 r w :
  along now P st0 r → P (exec now w (r_st r)) → along now P st0 (emit now w r).
Proof.
  intros [Hr HP] Hw. split; simpl.
  - by rewrite exec_all_app, Hr.
  - intros n. destruct (decide (n ≤ length (r_log r))) as [Hn|Hn].
    + rewrite take_app_le by done. apply HP.
    + rewrite take_ge by (rewrite length_app; simpl; lia). rewrite exec_all_app, <- Hr. apply Hw.
Qed.

Lemma along_emit_if now (P : redis → Prop) st0 r b w :
  along now P st0 r → (b = true → P (exec now w (r_st r))) → along now P st0 (emit_if now b w r).
Proof. destruct b; simpl; [|done]. intros Hr Hw. apply along_emit; auto. Qed.

Lemma along_impl now (P Q : redis → Prop) st0 r :
  (∀ st, P st → Q st) → along now P st0 r → along now Q st0 r.
Proof. intros HPQ [Hr HP]. split; [done|]. auto. Qed.

(** ** What housekeeping may change *)

Record kept (now : Z) (st0 st : redis) : Prop := {
  k_inflight : inflight st ⊆ inflight st0;
  k_visibility : visibility st ⊆ visibility st0;
  k_outcomes : outcomes st ⊆ outcomes st0;
  k_evidence : same_evidence now (outcomes st0) (outcomes st);
  k_copies : ∀ p, copies now p st0 ≤ copies now p st;
  k_reserved : ∀ t e s, inflight st0 !! t = Some e → visibility st0 !! t = Some s →
    live_outcome now (outcomes st0 !! t) = false →
    inflight st !! t = Some e ∧ visibility st !! t = Some s }.

Lemma kept_refl now st : kept now st st.
Proof. by split. Qed.

Lemma del_all_lookup {A} ts (z : gmap string A) t :
  del_all ts z !! t = if decide (t ∈ ts) then None else z !! t.
Proof.
  induction ts as [|u ts IH]; simpl; [done|]. rewrite lookup_delete.
  destruct (decide (u = t)) as [->|Hne].
  - rewrite decide_True by set_solver. done.
  - fold (del_all ts z). rewrite IH. destruct (decide (t ∈ ts)).
    + rewrite decide_True by set_solver. done.
    + rewrite decide_False by (apply not_elem_of_cons; auto). done.
Qed.

Lemma del_all_subseteq {A} ts (z : gmap string A) : del_all ts z ⊆ z.
Proof. apply map_subseteq_spec. intros t s. rewrite del_all_lookup. by case_decide. Qed.

Lemma elem_zrange_by_score z now n t :
  t ∈ zrange_by_score z now n → ∃ s, z !! t = Some s ∧ (s <= now)%Z.
Proof.
  unfold zrange_by_score. intros Ht%elem_of_take. destruct Ht as (i & Hi & _).
  apply list_elem_of_lookup_2, list_elem_of_fmap in Hi as ([u s] & -> & Hf).
  apply list_elem_of_filter in Hf as [Hs Hm]. exists s. split; [|done].
  apply elem_of_map_to_list. unfold zsorted in Hm. by rewrite merge_sort_Permutation in Hm.
Qed.

(** Dropping outcomes whose time has passed leaves the evidence as it is. *)
Lemma evidence_del_all now z z0 ts :
  (∀ t, t ∈ ts → ∃ s, z0 !! t = Some s ∧ (s <= now)%Z) → z ⊆ z0 →
  same_evidence now z (del_all ts z).
Proof.
  intros Hts Hz t. rewrite del_all_lookup. case_decide as Ht; [|done].
  destruct (Hts t Ht) as (s & Hs & Hle). destruct (z !! t) as [s'|] eqn:Hz'; [|done].
  rewrite (lookup_weaken _ _ _ _ Hz' Hz) in Hs. injection Hs as ->. simpl. by apply Z.ltb_ge.
Qed.

(** No reservation under [t] has to stay. *)
Definition droppable (now : Z) (st0 : redis) (t : string) : Prop :=
  inflight st0 !! t = None ∨ visibility st0 !! t = None ∨ live_outcome now (outcomes st0 !! t) = true.

Section kept.
Context (now : Z) (st0 st : redis) (Hk : kept now st0 st).

Lemma kept_inert st' :
  ready st' = ready st → inflight st' = inflight st → visibility st' = visibility st → outcomes st' = outcomes st →
  kept now st0 st'.
Proof using Hk.
  intros Hr Hi Hv Ho. destruct Hk. split; rewrite ?Hr, ?Hi, ?Hv, ?Ho; try done.
  intros p. rewrite (copies_ext now p st st'); try done. by rewrite Ho.
Qed.

Lemma kept_evict ts :
  (∀ t, t ∈ ts → ∃ s, outcomes st0 !! t = Some s ∧ (s <= now)%Z) → kept now st0 (exec now (ZREM_outcomes ts) st).
Proof using Hk.
  intros Hts. pose proof (evidence_del_all now (outcomes st) (outcomes st0) ts Hts (k_outcomes _ _ _ Hk)) as He.
  destruct Hk. split; simpl; try done.
  - etrans; [apply del_all_subseteq|done].
  - intros t. rewrite k_evidence0. apply He.
  - intros p. change (copies now p st0 ≤ copies now p (exec now (ZREM_outcomes ts) st)).
    by rewrite (copies_ext now p st (exec now (ZREM_outcomes ts) st)).
Qed.

Lemma kept_drop_visibility t : droppable now st0 t → kept now st0 (exec now (ZREM_visibility t) st).
Proof using Hk.
  intros Ht. destruct Hk. split; simpl; try done.
  - etrans; [apply delete_subseteq|done].
  - intros u e s Hu Hs Ho. rewrite lookup_delete_ne; [eauto|]. intros ->.
    destruct Ht as [|[|]]; congruence.
Qed.

Lemma kept_drop_envelope t :
  live_outcome now (outcomes st0 !! t) = true → kept now st0 (exec now (HDEL t) st).
Proof using Hk.
  intros Ht. destruct Hk. split; simpl; try done.
  - etrans; [apply delete_subseteq|done].
  - intros p. etrans; [apply k_copies0|]. rewrite (copies_HDEL now p st t).
    destruct (inflight st !! t) as [e|]; [|simpl; lia]. unfold unit_live.
    rewrite decide_False; [simpl; lia|]. intros [_ Hl]. rewrite <- k_evidence0 in Hl. simpl in Hl. congruence.
  - intros u e s Hu Hs Ho. rewrite lookup_delete_ne; [eauto|]. intros ->. congruence.
Qed.

Lemma kept_push x : kept now st0 (exec now (RPUSH x) st).
Proof using Hk.
  destruct Hk. split; simpl; try done.
  intros p. pose proof (copies_RPUSH now p st x) as Hp. simpl in Hp. rewrite Hp.
  specialize (k_copies0 p). lia.
Qed.

(** An envelope without a deadline goes back to the ready list. *)
Lemma kept_requeue t e :
  inflight st0 !! t = Some e → visibility st0 !! t = None →
  kept now st0 (exec now (HDEL t) (exec now (RPUSH (payload_of e)) st)).
Proof using Hk.
  intros He Hv. destruct Hk. split; simpl; try done.
  - etrans; [apply delete_subseteq|done].
  - intros p. etrans; [apply k_copies0|].
    pose proof (copies_RPUSH now p st (payload_of e)) as H1.
    pose proof (copies_HDEL now p (exec now (RPUSH (payload_of e)) st) t) as H2.
    simpl in H1, H2 |- *. destruct (inflight st !! t) as [e'|] eqn:He'; [|lia].
    rewrite (lookup_weaken _ _ _ _ He' k_inflight0) in He. injection He as ->.
    unfold unit_live in H2. destruct (decide (live _ _ _ _)) as [[Hp _]|_]; [|lia].
    simpl in Hp. rewrite decide_True in H1 by done. lia.
  - intros u e' s Hu Hs Ho. rewrite lookup_delete_ne; [eauto|]. intros ->. congruence.
Qed.
End kept.

(** ** Progress of housekeeping *)

Definition entries (st : redis) : nat := size (outcomes st) + size (visibility st) + size (inflight st).

(** [b] tells whether the state has shrunk; otherwise the script still sees the
    state it read. *)
Definition progress (st0 : redis) (r : run) (b : bool) : Prop :=
  if b then entries (r_st r) < entries st0
  else ready (r_st r) = ready st0 ∧ inflight (r_st r) = inflight st0 ∧
       visibility (r_st r) = visibility st0 ∧ outcomes (r_st r) = outcomes st0.

Lemma kept_entries now st0 st : kept now st0 st → entries st ≤ entries st0.
Proof.
  intros [Hi Hv Ho _ _ _]. unfold entries.
  apply map_subseteq_size in Hi, Hv, Ho. lia.
Qed.

(** A run of housekeeping, with its flag. *)
Definition tidy (now : Z) (st0 : redis) (p : run * bool) : Prop :=
  along now (kept now st0) st0 p.1 ∧ progress st0 p.1 p.2.

Lemma foldl_inv {A B} (I : A → Prop) (f : A → B → A) (l : list B) (a : A) :
  (∀ x a, x ∈ l → I a → I (f a x)) → I a → I (foldl f a l).
Proof.
  revert a. induction l as [|x l IH]; intros a Hf Ha; simpl; [done|].
  apply IH; [|apply Hf; [set_solver|done]]. intros y b Hy. apply Hf. set_solver.
Qed.

Lemma delete_smaller {A} (m : gmap string A) t : is_Some (m !! t) → size (delete t m) < size m.
Proof.
  intros Ht. rewrite (map_size_delete_Some _ _ Ht). destruct Ht as [x Hx].
  enough (size m ≠ 0) by lia. intros Hz%map_size_empty_iff. subst. by rewrite lookup_empty in Hx.
Qed.

(** A write that keeps what it must keep and, the first time, shrinks the state. *)
Lemma tidy_shrink now st0 r b w :
  tidy now st0 (r, b) → kept now st0 (exec now w (r_st r)) →
  entries (exec now w (r_st r)) ≤ entries (r_st r) →
  (b = false → entries (exec now w (r_st r)) < entries st0) →
  tidy now st0 (emit now w r, true).
Proof.
  intros [Ha Hp] Hw Hle Hlt. split; simpl; [by apply along_emit|].
  destruct b; simpl in Hp; [lia|auto].
Qed.

(** A write that touches neither the payloads nor their bookkeeping. *)
Lemma tidy_inert now st0 r b w :
  tidy now st0 (r, b) →
  ready (exec now w (r_st r)) = ready (r_st r) → inflight (exec now w (r_st r)) = inflight (r_st r) →
  visibility (exec now w (r_st r)) = visibility (r_st r) → outcomes (exec now w (r_st r)) = outcomes (r_st r) →
  tidy now st0 (emit now w r, b).
Proof.
  intros [Ha Hp] Hr Hi Hv Ho. split; simpl.
  - apply along_emit; [done|]. apply (kept_inert now st0 (r_st r)); try done. by apply (along_here now (kept now st0) st0).
  - destruct b; simpl in *; unfold entries; rewrite Hi, Hv, Ho, ?Hr; done.
Qed.

Lemma tidy_inert_if now st0 r b c w :
  tidy now st0 (r, b) →
  ready (exec now w (r_st r)) = ready (r_st r) → inflight (exec now w (r_st r)) = inflight (r_st r) →
  visibility (exec now w (r_st r)) = visibility (r_st r) → outcomes (exec now w (r_st r)) = outcomes (r_st r) →
  tidy now st0 (emit_if now c w r, b).
Proof. destruct c; simpl; [apply tidy_inert|done]. Qed.

Lemma tidy_kept now st0 r b : tidy now st0 (r, b) → kept now st0 (r_st r).
Proof. intros [Ha _]. by apply (along_here now (kept now st0) st0). Qed.

Lemma entries_ZREM_visibility now t st : entries (exec now (ZREM_visibility t) st) ≤ entries st.
Proof. unfold entries. simpl. pose proof (map_subseteq_size _ _ (delete_subseteq (visibility st) t)). lia. Qed.
Lemma entries_HDEL now t st : entries (exec now (HDEL t) st) ≤ entries st.
Proof. unfold entries. simpl. pose proof (map_subseteq_size _ _ (delete_subseteq (inflight st) t)). lia. Qed.

(** One repair entry, read from the state the script started from. *)
Lemma tidy_repair now st0 t p : tidy now st0 p → tidy now st0 (repair_step now p (repair_of st0 t)).
Proof.
  destruct p as [r b]. intros Ht. pose proof (tidy_kept _ _ _ _ Ht) as Hk. unfold repair_step, repair_of. simpl.
  destruct (inflight st0 !! t) as [e|] eqn:He; [destruct (live_outcome now (outcomes st0 !! t)) eqn:Ho|].
  - assert (Hv : kept now st0 (exec now (ZREM_visibility t) (r_st r))).
    { apply kept_drop_visibility; [done|]. right. by right. }
    apply (along_emit now _ _ _ _ (proj1 Ht)) in Hv as Ha.
    split; simpl.
    + apply along_emit; [done|]. by apply kept_drop_envelope.
    + pose proof (entries_ZREM_visibility now t (r_st r)) as H1.
      pose proof (entries_HDEL now t (exec now (ZREM_visibility t) (r_st r))) as H2.
      destruct Ht as [_ Hp]. destruct b; simpl in Hp; [simpl in *; lia|].
      destruct Hp as (_ & Hi & Hvis & Hout). unfold entries in *. simpl in *.
      assert (size (delete t (inflight (r_st r))) < size (inflight st0)).
      { rewrite Hi. apply delete_smaller. by rewrite He. }
      rewrite Hvis, Hout in *. lia.
  - destruct (visibility st0 !! t) as [s|] eqn:Hv; [done|].
    pose proof (kept_push now st0 (r_st r) Hk (payload_of e)) as Hp1.
    pose proof (kept_requeue now st0 (r_st r) Hk t e He Hv) as Hp2.
    split; simpl; [by repeat (apply along_emit; [|done]); apply Ht|].
    pose proof (entries_HDEL now t (r_st r)) as H1.
    destruct Ht as [_ Hp]. destruct b; simpl in Hp; unfold entries in *; simpl in *; [lia|].
    destruct Hp as (_ & Hi & Hvis & Hout).
    assert (size (delete t (inflight (r_st r))) < size (inflight st0)).
    { rewrite Hi. apply delete_smaller. by rewrite He. }
    rewrite Hvis, Hout in *. lia.
  - destruct (visibility st0 !! t) as [s|] eqn:Hv; [|done].
    apply (tidy_shrink now st0 r b); [done|apply kept_drop_visibility; [done|by left]|apply entries_ZREM_visibility|].
    intros ->. destruct Ht as [_ (_ & Hi & Hvis & Hout)]. unfold entries. simpl in *. rewrite Hi, Hvis, Hout.
    pose proof (delete_smaller (visibility st0) t (mk_is_Some _ _ Hv)). lia.
Qed.

Lemma elem_zrange z n t : t ∈ zrange z n → is_Some (z !! t).
Proof.
  unfold zrange. intros (i & Hi & _)%elem_of_take.
  apply list_elem_of_lookup_2, list_elem_of_fmap in Hi as ([u s] & -> & Hm).
  unfold zsorted in Hm. rewrite merge_sort_Permutation in Hm. exists s. by apply elem_of_map_to_list.
Qed.

Lemma mem_true {A} t (m : gmap string A) : mem t m = true ↔ is_Some (m !! t).
Proof. unfold mem. apply bool_decide_eq_true. Qed.
Lemma mem_false {A} t (m : gmap string A) : mem t m = false ↔ m !! t = None.
Proof. unfold mem. rewrite bool_decide_eq_false. symmetry. apply eq_None_not_Some. Qed.

(** One deadline of the first page. *)
Lemma tidy_visible now st0 n t p :
  t ∈ zrange (visibility st0) n → tidy now st0 p → tidy now st0 (visible_step now p t).
Proof.
  destruct p as [r b]. intros Hz%elem_zrange Ht. pose proof (tidy_kept _ _ _ _ Ht) as Hk. simpl.
  destruct (mem t (inflight (r_st r))) eqn:Hm; [done|]. apply mem_false in Hm.
  apply (tidy_shrink now st0 r b); [done| |apply entries_ZREM_visibility|].
  - apply kept_drop_visibility; [done|]. unfold droppable.
    destruct (inflight st0 !! t) as [e|] eqn:He; [|by left].
    destruct (visibility st0 !! t) as [s|] eqn:Hs; [|by right; left].
    destruct (live_outcome now (outcomes st0 !! t)) eqn:Ho; [by right; right|].
    destruct (k_reserved _ _ _ Hk t e s He Hs Ho). congruence.
  - intros ->. destruct Ht as [_ (_ & Hi & Hvis & Hout)]. unfold entries. simpl in *. rewrite Hi, Hvis, Hout.
    pose proof (delete_smaller (visibility st0) t Hz). lia.
Qed.

(** The first write: outcomes whose time has passed. *)
Lemma tidy_evict now st0 n :
  let ts := zrange_by_score (outcomes st0) now n in
  let b := negb (bool_decide (ts = [])) in
  tidy now st0 (emit_if now b (ZREM_outcomes ts) (mkRun st0 []), b).
Proof.
  intros ts b. assert (Hts : ∀ t, t ∈ ts → ∃ s, outcomes st0 !! t = Some s ∧ (s <= now)%Z)
    by (intros t; apply elem_zrange_by_score).
  pose proof (kept_refl now st0) as Hk. split; simpl.
  - apply along_emit_if; [by apply along_start|]. intros _. by apply kept_evict.
  - subst b. case_bool_decide as Hb; simpl; [done|].
    destruct ts as [|t ts']; [done|]. destruct (Hts t) as (s & Hs & _); [set_solver|].
    unfold entries. simpl. fold (del_all ts' (outcomes st0)).
    enough (size (delete t (del_all ts' (outcomes st0))) < size (outcomes st0)) by lia.
    eapply Nat.le_lt_trans; [|apply (delete_smaller (outcomes st0) t); by rewrite Hs].
    apply map_subseteq_size, delete_mono, del_all_subseteq.
Qed.

Section housekeeping.
Context `{RedisLua}.

Lemma read_claim_views now st0 :
  let v := read_claim now st0 in
  v_expired v = zrange_by_score (outcomes st0) now 128 ∧
  (∀ e, e ∈ v_repair v → ∃ t, e = repair_of st0 t) ∧
  (∃ n, v_visible v = zrange (visibility st0) n) ∧
  v_due v = head (zrange_by_score (visibility st0) now 1) ∧
  v_payload v = head (ready st0).
Proof.
  unfold read_claim. destruct (HSCAN _ _ _) as [next page]. simpl. split_and!; try done; [|by eexists].
  intros e (t & -> & _)%list_elem_of_fmap. by exists t.
Qed.

(** Housekeeping keeps every payload and every current reservation at each of
    its writes, and it has shrunk the state when it asks for a fresh claim. *)
Lemma housekeeping_tidy now ttl st0 :
  tidy now st0 (housekeeping now ttl (read_claim now st0) (mkRun st0 [])).
Proof.
  destruct (read_claim_views now st0) as (He & Hr & [n Hv] & _).
  unfold housekeeping. rewrite He. destruct (read_claim now st0) as [ex tm nw dr odd bk nc rp ov vi du pl]. simpl in *.
  clear He. match goal with |- context [PEXPIRE_outcomes ?x] => generalize x end. intros x.
  set (b := negb (bool_decide (zrange_by_score _ _ _ = []))).
  set (r2 := emit_if now tm _ _).
  assert (H2 : tidy now st0 (r2, b)) by (apply tidy_inert_if; [apply tidy_evict|done..]).
  clearbody r2 b. match goal with |- context [foldl (repair_step now) (?r, b)] => set (r3 := r) end.
  assert (H3 : tidy now st0 (r3, b)).
  { subst r3. destruct dr; [|by apply tidy_inert_if].
    apply tidy_inert; [done|..]; simpl; by destruct (cursor (r_st r2)). }
  clearbody r3. destruct (foldl (repair_step now) (r3, b) _) as [r4 b4] eqn:E4.
  assert (H4 : tidy now st0 (r4, b4)).
  { rewrite <- E4. apply foldl_inv; [|done]. intros e p (t & ->)%Hr. apply tidy_repair. }
  clear E4. match goal with |- context [foldl (visible_step now) (?r, b4)] => set (r5 := r) end.
  assert (H5 : tidy now st0 (r5, b4)) by by apply tidy_inert_if.
  clearbody r5. destruct (foldl (visible_step now) (r5, b4) _) as [r6 b6] eqn:E6.
  assert (H6 : tidy now st0 (r6, b6)).
  { rewrite <- E6. apply foldl_inv; [|done]. intros t p Ht. rewrite Hv in Ht. by eapply tidy_visible. }
  apply tidy_inert_if; [|done..]. by apply tidy_inert_if.
Qed.
End housekeeping.
