(* ===== verification/ReliableThms.v ===== *)
(** * Reliable delivery: what every script keeps

    Each script, cut off after any number of its writes, keeps a copy of every
    payload but the one it acknowledges and leaves current reservations of
    others alone; whole scripts keep the acknowledgement outcomes until their
    retention ends.  Histories of operations at increasing times. *)

From S2P Require Import Prelude GoText ReliableQueue ReliableInv.

(** ** Copies of a payload *)

Lemma copies_mono now now' p st st' :
  ready st' = ready st → inflight st' = inflight st →
  (∀ t, live_outcome now' (outcomes st' !! t) = true → live_outcome now (outcomes st !! t) = true) →
  copies now p st ≤ copies now' p st'.
Proof.
  intros Hr Hi Ho. unfold copies. rewrite Hr, Hi. apply Nat.add_le_mono_l, map_subseteq_size.
  apply map_filter_subseteq_ext. intros t e _ [Hp Hl]. split; [done|]. simpl in *.
  destruct (live_outcome now' (outcomes st' !! t)) eqn:E; [|done]. apply Ho in E. congruence.
Qed.

Lemma purge_same now st :
  ready (purge now st) = ready st ∧ inflight (purge now st) = inflight st ∧ visibility (purge now st) = visibility st.
Proof.
  unfold purge, purge_backlog, purge_cursor, purge_outcomes.
  by do 3 match goal with |- context [if passed ?a ?b then _ else _] => destruct (passed a b); simpl end.
Qed.

Lemma purge_outcomes_eq now st :
  outcomes (purge now st) = if passed now (outcomes_expire st) then ∅ else outcomes st.
Proof.
  unfold purge, purge_backlog, purge_cursor, purge_outcomes.
  by do 3 match goal with |- context [if passed ?a ?b then _ else _] => destruct (passed a b); simpl end.
Qed.

Lemma purge_expire_eq now st :
  outcomes_expire (purge now st) = if passed now (outcomes_expire st) then None else outcomes_expire st.
Proof.
  unfold purge, purge_backlog, purge_cursor, purge_outcomes.
  by do 3 match goal with |- context [if passed ?a ?b then _ else _] => destruct (passed a b); simpl end.
Qed.

Lemma purge_copies now now' p st : (now <= now')%Z → copies now p st ≤ copies now' p (purge now' st).
Proof.
  intros Hle. destruct (purge_same now' st) as (Hr & Hi & _). apply copies_mono; try done.
  intros t. rewrite purge_outcomes_eq. destruct (passed _ _); [by rewrite lookup_empty|].
  destruct (outcomes st !! t) as [s|]; simpl; [|done]. rewrite !Z.ltb_lt. lia.
Qed.

Definition envelopes_ok (st : redis) : Prop := ∀ t e, inflight st !! t = Some e → envelope_ok e.

Lemma purge_envelopes_ok now st : envelopes_ok st → envelopes_ok (purge now st).
Proof. intros Hok t e. destruct (purge_same now st) as (_ & -> & _). apply Hok. Qed.

(** ** A script at any of its writes *)

(** [lost p] copies of [p] may go; current reservations outside [own] stay. *)
Record safe (now : Z) (lost : string → nat) (own : string → Prop) (st0 st : redis) : Prop := {
  s_copies : ∀ p, copies now p st0 ≤ copies now p st + lost p;
  s_envelopes : envelopes_ok st;
  s_reserved : ∀ t e s, inflight st0 !! t = Some e → visibility st0 !! t = Some s → (now < s)%Z →
    live_outcome now (outcomes st0 !! t) = false → ¬ own t →
    inflight st !! t = Some e ∧ visibility st !! t = Some s }.

Lemma safe_refl now lost own st : envelopes_ok st → safe now lost own st st.
Proof. intros Hok. split; [intros; lia|done|done]. Qed.

Lemma kept_safe now st0 st lost own : envelopes_ok st0 → kept now st0 st → safe now lost own st0 st.
Proof.
  intros Hok [Hi _ _ _ Hc Hr]. split.
  - intros p. specialize (Hc p). lia.
  - intros t e Ht. apply (Hok t). by eapply lookup_weaken.
  - intros t e s Ht Hs _ Ho _. by apply Hr.
Qed.

(** The change of one write to a state that is safe so far. *)
Section writes.
Context (now : Z) (lost : string → nat) (own : string → Prop) (st0 st : redis).
Context (Hs : safe now lost own st0 st).

Lemma safe_inert st' :
  inflight st' = inflight st → visibility st' = visibility st → (∀ p, copies now p st ≤ copies now p st') →
  safe now lost own st0 st'.
Proof using Hs.
  intros Hi Hv Hc. destruct Hs as [Hcopies Henv Hres]. split.
  - intros p. specialize (Hcopies p). specialize (Hc p). lia.
  - intros t e. rewrite Hi. apply Henv.
  - intros. rewrite Hi, Hv. by eapply Hres.
Qed.

Lemma safe_ZADD_visibility s t :
  inflight st0 !! t = None ∨ own t → safe now lost own st0 (exec now (ZADD_visibility s t) st).
Proof using Hs.
  intros Ht. destruct Hs as [Hcopies Henv Hres]. split; simpl; [done|done|].
  intros u e s' Hu Hs' Hlt Ho Hown. rewrite lookup_insert_ne; [by eapply Hres|].
  intros ->. destruct Ht; [congruence|done].
Qed.

Lemma safe_ZREM_visibility t :
  (∀ s, visibility st0 !! t = Some s → (s <= now)%Z) ∨ own t →
  safe now lost own st0 (exec now (ZREM_visibility t) st).
Proof using Hs.
  intros Ht. destruct Hs as [Hcopies Henv Hres]. split; simpl; [done|done|].
  intros u e s' Hu Hs' Hlt Ho Hown. rewrite lookup_delete_ne; [by eapply Hres|].
  intros ->. destruct Ht as [Ht|]; [|done]. apply Ht in Hs'. lia.
Qed.

Lemma safe_HSET t e :
  inflight st0 !! t = None → inflight st !! t = None → envelope_ok e →
  safe now lost own st0 (exec now (HSET t e) st).
Proof using Hs.
  intros Ht0 Ht He. destruct Hs as [Hcopies Henv Hres]. split.
  - intros p. rewrite copies_HSET by done. specialize (Hcopies p). lia.
  - intros u e'. simpl. intros [[-> <-]|[_ Hu]]%lookup_insert_Some; [done|by eapply Henv].
  - intros u e' s' Hu Hs' Hlt Ho Hown. simpl. rewrite lookup_insert_ne; [by eapply Hres|]. congruence.
Qed.

(** Deleting a reservation whose payload is counted elsewhere. *)
Lemma safe_HDEL t :
  (∀ s, visibility st0 !! t = Some s → (s <= now)%Z) ∨ own t →
  (∀ p, copies now p st0 + match inflight st !! t with Some e => unit_live now p (outcomes st) t e | None => 0 end
        ≤ copies now p st + lost p) →
  safe now lost own st0 (exec now (HDEL t) st).
Proof using Hs.
  intros Ht Hc. destruct Hs as [Hcopies Henv Hres]. split.
  - intros p. specialize (Hc p). rewrite (copies_HDEL now p st t) in Hc. lia.
  - intros u e'. simpl. intros [_ Hu]%lookup_delete_Some. by eapply Henv.
  - intros u e' s' Hu Hs' Hlt Ho Hown. simpl. rewrite lookup_delete_ne; [by eapply Hres|].
    intros ->. destruct Ht as [Ht|]; [|done]. apply Ht in Hs'. lia.
Qed.

(** Taking the first ready payload when it is counted elsewhere. *)
Lemma safe_LPOP :
  (∀ p, copies now p st0 + match head (ready st) with Some x => if decide (x = p) then 1 else 0 | None => 0 end
        ≤ copies now p st + lost p) →
  safe now lost own st0 (exec now LPOP st).
Proof using Hs.
  intros Hc. destruct Hs as [Hcopies Henv Hres]. split; [|done|done].
  intros p. specialize (Hc p). rewrite (copies_LPOP now p st) in Hc. lia.
Qed.
End writes.

Lemma unit_live_payload now p o t e : unit_live now p o t e ≤ if decide (payload_of e = p) then 1 else 0.
Proof. unfold unit_live. destruct (decide (live _ _ _ _)) as [[Hp _]|_]; [|lia]. simpl in Hp. by rewrite decide_True. Qed.

Lemma unit_live_fresh now p o t e :
  o !! t = None → unit_live now p o t e = if decide (payload_of e = p) then 1 else 0.
Proof.
  intros Ht. unfold unit_live. destruct (decide (payload_of e = p)) as [Hp|Hp].
  - rewrite decide_True; [done|]. split; [done|]. simpl. by rewrite Ht.
  - rewrite decide_False; [done|]. by intros [? _].
Qed.

Lemma unit_live_dead now p o t e : live_outcome now (o !! t) = true → unit_live now p o t e = 0.
Proof. intros Ht. unfold unit_live. rewrite decide_False; [done|]. intros [_ Hl]. simpl in Hl. congruence. Qed.

(** ** The scripts *)

(** The state still holds what the script read. *)
Definition agree (st0 st : redis) : Prop :=
  ready st = ready st0 ∧ inflight st = inflight st0 ∧ visibility st = visibility st0 ∧ outcomes st = outcomes st0.

Lemma agree_copies now p st0 st : agree st0 st → copies now p st = copies now p st0.
Proof. intros (Hr & Hi & _ & Ho). apply copies_ext; [done|done|]. intros t. by rewrite Ho. Qed.

Lemma token_taken_false st t :
  token_taken st t = false →
  inflight st !! t = None ∧ visibility st !! t = None ∧ outcomes st !! t = None ∧ backlog st !! t = None.
Proof. unfold token_taken. rewrite !orb_false_iff, !mem_false. tauto. Qed.

Section move.
Context (now : Z) (own : string → Prop) (st0 : redis) (r : run) (old new e e' : string) (deadline : Z).
Context (Ha : agree st0 (r_st r)).
Context (Hr : along now (safe now (λ _, 0) own st0) st0 r).
Context (Hnew : inflight st0 !! new = None) (Hout : outcomes st0 !! new = None).
Context (Hold : inflight st0 !! old = Some e) (Hdue : (∀ s, visibility st0 !! old = Some s → (s <= now)%Z) ∨ own old).
Context (He : envelope_ok e') (Hp : payload_of e' = payload_of e).

(** A reservation moves to a new token, its envelope first. *)
Lemma along_move :
  along now (safe now (λ _, 0) own st0) st0
    (emit now (HDEL old) (emit now (ZREM_visibility old) (emit now (ZADD_visibility deadline new)
      (emit now (HSET new e') r)))).
Proof using All.
  pose proof (along_here _ _ _ _ Hr) as Hs. pose proof Ha as (Hready & Hi & Hv & Ho).
  assert (Hnew' : inflight (r_st r) !! new = None) by by rewrite Hi.
  pose proof (safe_HSET _ _ _ _ _ Hs new e' Hnew Hnew' He) as H1.
  pose proof (safe_ZADD_visibility _ _ _ _ _ H1 deadline new (or_introl Hnew)) as H2.
  pose proof (safe_ZREM_visibility _ _ _ _ _ H2 old Hdue) as H3.
  repeat apply along_emit; try done.
  apply safe_HDEL; [done|done|]. intros p.
  assert (new ≠ old) by congruence.
  pose proof (copies_HSET now p (r_st r) new e' Hnew') as Hc.
  rewrite (agree_copies now p st0 (r_st r) Ha), Ho, unit_live_fresh, Hp in Hc by done.
  pose proof (unit_live_payload now p (outcomes st0) old e) as Hu.
  change (copies now p (r_st (emit now (ZREM_visibility old) _))) with (copies now p (exec now (HSET new e') (r_st r))).
  rewrite Hc. simpl. rewrite Hi, Ho, lookup_insert_ne, Hold by done. lia.
Qed.
End move.

Section scripts.
Context `{RedisLuaLaws}.

Lemma valid_envelope_ok e : envelope_ok e → valid_envelope e = true.
Proof.
  intros (n & p & Hn & ->). unfold valid_envelope. pose proof (envelope_length n p).
  rewrite bool_decide_false by lia. rewrite envelope_colon, envelope_header, tonumber_digits by done.
  rewrite !bool_decide_true; [done|by eexists|done].
Qed.

(** The first ready payload moves to a new token, its envelope first. *)
Lemma along_reserve now own st0 r lease token p :
  agree st0 (r_st r) → along now (safe now (λ _, 0) own st0) st0 r →
  inflight st0 !! token = None → outcomes st0 !! token = None → head (ready st0) = Some p →
  along now (safe now (λ _, 0) own st0) st0 (reserve now lease token p r).2.
Proof.
  intros Ha Hr Hti Hto Hhead. pose proof Ha as (Hready & Hi & Hv & Ho).
  unfold reserve. rewrite zero_header_envelope.
  assert (Hti' : inflight (r_st r) !! token = None) by by rewrite Hi.
  assert (He : envelope_ok (envelope 0 p)) by by exists 0%Z, p.
  pose proof (safe_HSET _ _ _ _ _ (along_here _ _ _ _ Hr) token _ Hti Hti' He) as H1.
  pose proof (safe_ZADD_visibility _ _ _ _ _ H1 (now + lease) token (or_introl Hti)) as H2.
  rewrite bool_decide_true by (simpl; by rewrite Hready). cbn [snd].
  repeat apply along_emit; try done. apply safe_LPOP; [done|]. intros x.
  pose proof (copies_HSET now x (r_st r) token (envelope 0 p) Hti') as Hc.
  rewrite (agree_copies now x st0 (r_st r) Ha), Ho, unit_live_fresh, envelope_payload in Hc by done.
  change (copies now x (r_st (emit now (ZADD_visibility _ token) _)))
    with (copies now x (exec now (HSET token (envelope 0 p)) (r_st r))).
  rewrite Hc. simpl. rewrite Hready, Hhead. lia.
Qed.

(** The claim script touches no current reservation and loses no payload. *)
Lemma claim_safe now token lease ttl st :
  envelopes_ok st →
  along now (safe now (λ _, 0) (λ _, False) (purge now st)) (purge now st) (claim_script now token lease ttl st).2.
Proof.
  intros Hok%(purge_envelopes_ok now). unfold claim_script. set (st0 := purge now st) in *. clearbody st0.
  assert (Hstart : along now (safe now (λ _, 0) (λ _, False) st0) st0 (mkRun st0 []))
    by by apply along_start, safe_refl.
  repeat (case_match; [done|]). rename select (token_taken _ _ = false) into Htok.
  apply token_taken_false in Htok as (Hti & _ & Hto & _).
  pose proof (housekeeping_tidy now ttl st0) as Ht. destruct (housekeeping _ _ _ _) as [r b].
  destruct Ht as [Hr Hp]. simpl in *.
  apply (along_impl _ _ (safe now (λ _, 0) (λ _, False) st0)) in Hr; [|intros; by apply kept_safe].
  destruct b; [done|]. destruct (read_claim_views now st0) as (_ & _ & _ & -> & ->).
  destruct (head (zrange_by_score _ _ _)) as [old|] eqn:Hdue.
  - apply head_Some_elem_of, elem_zrange_by_score in Hdue as (s & Hs & Hle).
    assert (Hold : ∀ s, visibility st0 !! old = Some s → (s <= now)%Z) by (intros s' ?; congruence).
    unfold reclaim. simpl. destruct (live_outcome now (outcomes st0 !! old)) eqn:Ho; simpl.
    + pose proof (safe_ZREM_visibility _ _ _ _ _ (along_here _ _ _ _ Hr) old (or_introl Hold)) as Hv.
      repeat apply along_emit; try done. apply safe_HDEL; [done|by left|]. intros p.
      change (copies now p (r_st (emit now (ZREM_visibility old) r))) with (copies now p (r_st r)).
      rewrite (agree_copies now p st0 (r_st r) Hp). destruct Hp as (_ & Hi & _ & Hout). simpl.
      rewrite Hi, Hout. case_match; rewrite ?unit_live_dead by done; lia.
    + destruct (inflight st0 !! old) as [e|] eqn:He; simpl.
      * apply (along_move now _ st0 r old token e e); auto. by apply (Hok old).
      * apply along_emit; [done|]. apply safe_ZREM_visibility; [by apply (along_here _ _ _ _ Hr)|by left].
  - destruct (head (ready st0)) as [p|] eqn:Hhead; [|done]. by apply along_reserve.
Qed.

Lemma reserved_Some now st t e :
  reserved now st t = Some e → inflight st !! t = Some e ∧ ∃ s, visibility st !! t = Some s ∧ (now < s)%Z.
Proof.
  unfold reserved. intros He. inv_bind He. case_match; [done|]. injection He as <-.
  split; [done|]. eexists. split; [done|]. by apply Z.leb_gt.
Qed.

Lemma renew_safe now token lease st :
  envelopes_ok st →
  along now (safe now (λ _, 0) (λ t, t = token) (purge now st)) (purge now st) (renew_script now token lease st).2.
Proof.
  intros Hok%(purge_envelopes_ok now). unfold renew_script. set (st0 := purge now st) in *. clearbody st0.
  assert (Hs : safe now (λ _, 0) (λ t, t = token) st0 st0) by by apply safe_refl.
  repeat (case_match; [by apply along_start|]).
  case_match; [|by apply along_start]. cbn [snd]. apply along_emit; [by apply along_start|].
  apply safe_ZADD_visibility; [done|by right].
Qed.

Lemma release_safe now token st :
  envelopes_ok st →
  along now (safe now (λ _, 0) (λ t, t = token) (purge now st)) (purge now st) (release_script now token st).2.
Proof.
  intros Hok%(purge_envelopes_ok now). unfold release_script. set (st0 := purge now st) in *. clearbody st0.
  assert (Hs : safe now (λ _, 0) (λ t, t = token) st0 st0) by by apply safe_refl.
  case_match; [by apply along_start|]. destruct (reserved now st0 token) as [e|] eqn:Hr; [|by apply along_start].
  apply reserved_Some in Hr as [He _]. case_match; [by apply along_start|]. cbn [snd].
  set (st1 := exec now (RPUSH (payload_of e)) st0).
  assert (Hw1 : safe now (λ _, 0) (λ t, t = token) st0 st1).
  { apply (safe_inert _ _ _ _ _ Hs); [done|done|]. intros p. unfold st1. rewrite copies_RPUSH. lia. }
  pose proof (safe_ZREM_visibility _ _ _ _ _ Hw1 token (or_intror eq_refl)) as Hw2.
  assert (Hw3 : safe now (λ _, 0) (λ t, t = token) st0 (exec now (HDEL token) (exec now (ZREM_visibility token) st1))).
  { apply safe_HDEL; [done|by right|]. intros p.
    change (copies now p (exec now (ZREM_visibility token) st1)) with (copies now p st1).
    unfold st1. rewrite copies_RPUSH. simpl. rewrite He.
    pose proof (unit_live_payload now p (outcomes st0) token e). lia. }
  repeat apply along_emit; try done; [by apply along_start|].
  by apply (safe_inert _ _ _ _ _ Hw3).
Qed.

Lemma defer_safe now old new delay st :
  envelopes_ok st →
  along now (safe now (λ _, 0) (λ t, t = old) (purge now st)) (purge now st) (defer_script now old new delay st).2.
Proof.
  intros Hok%(purge_envelopes_ok now). unfold defer_script. set (st0 := purge now st) in *. clearbody st0.
  assert (Hs : along now (safe now (λ _, 0) (λ t, t = old) st0) st0 (mkRun st0 [])) by by apply along_start, safe_refl.
  repeat (case_match; [done|]). rename select (token_taken _ _ = false) into Htok.
  apply token_taken_false in Htok as (Hti & _ & Hto & _).
  destruct (reserved now st0 old) as [e|] eqn:Hr; [|done]. apply reserved_Some in Hr as [He _].
  case_match; [done|]. destruct (Hok old e He) as (n & p & Hn & ->).
  rewrite envelope_header, tonumber_digits by done. cbn [snd]. rewrite envelope_payload.
  set (n' := if (n <? 9999999999)%Z then (n + 1)%Z else n).
  assert (Hn' : (0 <= n' < 10 ^ 10)%Z) by (unfold n'; case_match; lia). rewrite format_digits by done.
  change (digits 10 n' +:+ ":" +:+ p) with (envelope n' p).
  assert (Hm : along now (safe now (λ _, 0) (λ t, t = old) st0) st0
    (emit now (HDEL old) (emit now (ZREM_visibility old) (emit now (ZADD_visibility (now + delay) new)
      (emit now (HSET new (envelope n' p)) (mkRun st0 [])))))).
  { apply (along_move now _ st0 _ old new (envelope n p)); auto; [done|by exists n', p]. }
  apply along_emit; [done|]. by apply (safe_inert _ _ _ _ _ (along_here _ _ _ _ Hm)).
Qed.

(** What an acknowledgement takes away: the payload reserved under its token. *)
Definition acked (now : Z) (token : string) (st : redis) (p : string) : nat :=
  match reserved now st token with
  | Some e => if decide (payload_of e = p) then 1 else 0
  | None => 0
  end.

Lemma copies_evidence now p st t e z x :
  inflight st !! t = Some e → (∀ u, u ≠ t → live_outcome now (z !! u) = live_outcome now (outcomes st !! u)) →
  copies now p st ≤ copies now p (set_outcomes z x st) + if decide (payload_of e = p) then 1 else 0.
Proof.
  intros He Hz. unfold copies. simpl.
  rewrite !(size_filter_delete now p _ (inflight st) t e He).
  assert (Hf : filter (live now p (outcomes st)) (delete t (inflight st)) = filter (live now p z) (delete t (inflight st))).
  { apply map_filter_ext. intros u e' [Hu _]%lookup_delete_Some. unfold live. simpl. by rewrite Hz. }
  rewrite Hf. pose proof (unit_live_payload now p (outcomes st) t e). lia.
Qed.

(** The writes of an acknowledgement, after its checks. *)
Lemma along_ack_writes now token retention ttl st0 lost e n :
  along now (safe now lost (λ t, t = token) st0) st0 (mkRun st0 []) → (0 < retention)%Z →
  inflight st0 !! token = Some e → (∀ p, lost p = if decide (payload_of e = p) then 1 else 0) →
  let expired := zrange_by_score (outcomes st0) now n in
  along now (safe now lost (λ t, t = token) st0) st0
    (emit now (ZREM_backlog [token]) (emit now (HDEL token) (emit now (ZREM_visibility token)
      (emit now (PEXPIRE_outcomes ttl) (emit now (ZADD_outcomes (now + retention) token)
        (emit_if now (negb (bool_decide (expired = []))) (ZREM_outcomes expired) (mkRun st0 []))))))).
Proof.
  intros Hs Hret He Hlost expired. set (r1 := emit_if _ _ _ _).
  assert (Hev : same_evidence now (outcomes st0) (outcomes (r_st r1)) ∧
    ∀ z x, set_outcomes z x (r_st r1) = set_outcomes z x st0).
  { subst r1. destruct (negb _); simpl; [|done]. split; [|done].
    apply (evidence_del_all now _ (outcomes st0)); [|done]. intros t. apply elem_zrange_by_score. }
  destruct Hev as [Hev Hst].
  assert (H1 : along now (safe now lost (λ t, t = token) st0) st0 r1).
  { apply along_emit_if; [done|]. intros Hb. subst r1. rewrite Hb in Hev. simpl in Hev.
    apply (safe_inert _ _ _ _ _ (along_here _ _ _ _ Hs)); [done|done|]. intros p.
    apply Nat.eq_le_incl. symmetry. by apply copies_ext. }
  set (z := <[token := (now + retention)%Z]> (outcomes (r_st r1))).
  assert (H2 : safe now lost (λ t, t = token) st0 (exec now (ZADD_outcomes (now + retention) token) (r_st r1))).
  { destruct (along_here _ _ _ _ H1) as [_ Henv Hres]. split; [|done|done]. intros p. rewrite Hlost. simpl.
    rewrite Hst. apply (copies_evidence now p st0 token e); [done|]. intros u Hu. rewrite lookup_insert_ne by done. by rewrite Hev. }
  assert (H3 : safe now lost (λ t, t = token) st0
    (exec now (PEXPIRE_outcomes ttl) (exec now (ZADD_outcomes (now + retention) token) (r_st r1))))
    by by apply (safe_inert _ _ _ _ _ H2).
  pose proof (safe_ZREM_visibility _ _ _ _ _ H3 token (or_intror eq_refl)) as H4.
  assert (H5 : safe now lost (λ t, t = token) st0
    (exec now (HDEL token) (exec now (ZREM_visibility token) (exec now (PEXPIRE_outcomes ttl)
      (exec now (ZADD_outcomes (now + retention) token) (r_st r1)))))).
  { apply safe_HDEL; [done|by right|]. intros p. pose proof (s_copies _ _ _ _ _ H4 p) as Hc.
    case_match; [|lia]. rewrite unit_live_dead; [lia|]. simpl. rewrite lookup_insert_eq. simpl. apply Z.ltb_lt. lia. }
  repeat apply along_emit; try done. by apply (safe_inert _ _ _ _ _ H5).
Qed.

Lemma ack_safe now token retention ttl st :
  envelopes_ok st →
  along now (safe now (acked now token (purge now st)) (λ t, t = token) (purge now st)) (purge now st)
    (ack_script now token retention ttl st).2.
Proof.
  intros Hok%(purge_envelopes_ok now). unfold ack_script. set (st0 := purge now st) in *. clearbody st0.
  set (lost := acked now token st0).
  assert (Hs : along now (safe now lost (λ t, t = token) st0) st0 (mkRun st0 [])) by by apply along_start, safe_refl.
  case_match; [done|]. destruct (live_outcome now (outcomes st0 !! token)) eqn:Ho; cbn [snd].
  - pose proof (safe_ZREM_visibility _ _ _ _ _ (along_here _ _ _ _ Hs) token (or_intror eq_refl)) as Hw1.
    assert (Hw2 : safe now lost (λ t, t = token) st0 (exec now (HDEL token) (exec now (ZREM_visibility token) st0))).
    { apply safe_HDEL; [done|by right|]. intros p. simpl.
      change (copies now p (set_visibility _ _)) with (copies now p st0).
      case_match; rewrite ?unit_live_dead by done; lia. }
    repeat apply along_emit; try done; by apply (safe_inert _ _ _ _ _ Hw2).
  - unfold ack_reserved. cbn [r_st]. destruct (reserved now st0 token) as [e|] eqn:Hr; [|done].
    apply reserved_Some in Hr as Hr'. destruct Hr' as [He _].
    assert (Hlost : ∀ p, lost p = if decide (payload_of e = p) then 1 else 0).
    { intros p. unfold lost, acked. by rewrite Hr. }
    cbn [snd]. apply (along_ack_writes now token retention ttl st0 lost e); try done. lia.
Qed.
End scripts.
