(* ===== verification/ReliableHist.v ===== *)
(** * Reliable delivery: histories

    Sequences of operations by any number of clients at increasing times, each
    run to its end or cut off after some of its writes; the number of copies of
    a payload along a history, and the outcomes along a history of whole
    operations. *)

From S2P Require Import Prelude GoText ReliableQueue ReliableInv ReliableThms.
From stdpp Require Import sorting.

Inductive qop :=
  | Publish (payload : string)
  | Claim (token : string)
  | Renew (token : string)
  | Ack (token : string)
  | Release (token : string)
  | Defer (oldtoken newtoken : string) (delay : Z).

(** An operation, when it ran, and the number of writes it made if it was cut off. *)
Record event := mkEvent { ev_now : Z; ev_op : qop; ev_cut : option nat }.

(** The token occurs in the operation. *)
Definition names (t : string) (op : qop) : Prop :=
  match op with
  | Publish _ => False
  | Claim u | Renew u | Ack u | Release u => u = t
  | Defer u v _ => u = t ∨ v = t
  end.

Definition retention_ms : Z := Milliseconds ackOutcomeRetention.
Definition key_ttl_ms : Z := Milliseconds ackOutcomeKeyTTL.

Lemma retention_lt : (0 <= retention_ms < key_ttl_ms)%Z.
Proof. done. Qed.

Section history.
Context `{RedisLua}.
Context (lease_ms : Z).

Definition run_op (now : Z) (op : qop) (st : redis) : run :=
  match op with
  | Publish p => emit now (RPUSH p) (mkRun (purge now st) [])
  | Claim t => (claim_script now t lease_ms key_ttl_ms st).2
  | Renew t => (renew_script now t lease_ms st).2
  | Ack t => (ack_script now t retention_ms key_ttl_ms st).2
  | Release t => (release_script now t st).2
  | Defer o n d => (defer_script now o n d st).2
  end.

Definition step (e : event) (st : redis) : redis :=
  let r := run_op (ev_now e) (ev_op e) st in
  match ev_cut e with
  | None => r_st r
  | Some n => exec_all (ev_now e) (take n (r_log r)) (purge (ev_now e) st)
  end.

Fixpoint history (evs : list event) (st : redis) : redis :=
  match evs with
  | [] => st
  | e :: evs => history evs (step e st)
  end.

Fixpoint ordered (t0 : Z) (evs : list event) : Prop :=
  match evs with
  | [] => True
  | e :: evs => (t0 <= ev_now e)%Z ∧ ordered (ev_now e) evs
  end.
Fixpoint last_time (t0 : Z) (evs : list event) : Z :=
  match evs with
  | [] => t0
  | e :: evs => last_time (ev_now e) evs
  end.

(** Copies of [p] that an event adds and takes away. *)
Definition published (p : string) (e : event) : nat :=
  match ev_op e, ev_cut e with
  | Publish _, Some O => 0
  | Publish q, _ => if decide (q = p) then 1 else 0
  | _, _ => 0
  end.
Definition acknowledged (p : string) (e : event) (st : redis) : nat :=
  match ev_op e with
  | Ack t => acked (ev_now e) t (purge (ev_now e) st) p
  | _ => 0
  end.
Definition all_published (p : string) (evs : list event) : nat := sum_list_with (published p) evs.
Fixpoint all_acknowledged (p : string) (evs : list event) (st : redis) : nat :=
  match evs with
  | [] => 0
  | e :: evs => acknowledged p e st + all_acknowledged p evs (step e st)
  end.
End history.

Lemma ordered_last t0 evs : ordered t0 evs → (t0 <= last_time t0 evs)%Z.
Proof.
  revert t0. induction evs as [|e evs IH]; intros t0; simpl; [lia|]. intros [Ht Ho]. apply IH in Ho. lia.
Qed.

Section copies.
Context `{RedisLuaLaws}.
Context (lease_ms : Z).

(** An operation other than a publication, at any of its writes. *)
Lemma run_op_safe now op st :
  envelopes_ok st →
  match op with Publish _ => True | _ =>
    ∃ own, (∀ t, own t → names t op) ∧
      along now (safe now (λ p, acknowledged p (mkEvent now op None) st) own (purge now st)) (purge now st)
        (run_op lease_ms now op st)
  end.
Proof.
  intros Hok. destruct op; [done|..]; eexists; simpl; unfold acknowledged; simpl.
  - split; [|by apply claim_safe]. done.
  - split; [|by apply renew_safe]. done.
  - split; [|by apply ack_safe]. done.
  - split; [|by apply release_safe]. done.
  - split; [|by apply defer_safe]. by left.
Qed.

Lemma step_copies e st p t0 :
  envelopes_ok st → (t0 <= ev_now e)%Z →
  copies t0 p st + published p e ≤ copies (ev_now e) p (step lease_ms e st) + acknowledged p e st ∧
  envelopes_ok (step lease_ms e st).
Proof.
  intros Hok Ht. pose proof (purge_copies t0 (ev_now e) p st Ht) as Hc.
  destruct e as [now op cut]. cbn [ev_now] in *. pose proof (purge_envelopes_ok now st Hok) as Hok'.
  pose proof (run_op_safe now op st Hok) as Hs.
  assert (Hcut : (∃ q, op = Publish q) ∨ published p (mkEvent now op cut) = 0 ∧ ∃ own,
    safe now (λ p, acknowledged p (mkEvent now op None) st) own (purge now st) (step lease_ms (mkEvent now op cut) st)).
  { destruct op; [left; by eexists|..]; right; (split; [done|]); destruct Hs as (own & _ & Hs); exists own; unfold step; cbn [ev_now ev_op ev_cut];
      (destruct cut as [n|]; [apply Hs|by apply (along_here _ _ _ _ Hs)]). }
  destruct Hcut as [[q ->]|(Hpub & own & [Hcopies Henv _])].
  - unfold step, published, acknowledged. cbn [ev_now ev_op ev_cut run_op emit r_st r_log].
    pose proof (copies_RPUSH now p (purge now st) q) as Hp.
    destruct cut as [[|n]|]; simpl in *; rewrite ?take_nil; simpl; (split; [lia|done]).
  - split; [|done]. specialize (Hcopies p). rewrite Hpub.
    change (acknowledged p (mkEvent now op cut) st) with (acknowledged p (mkEvent now op None) st). lia.
Qed.

Lemma history_copies evs st p t0 :
  envelopes_ok st → ordered t0 evs →
  copies t0 p st + all_published p evs ≤
    copies (last_time t0 evs) p (history lease_ms evs st) + all_acknowledged lease_ms p evs st ∧
  envelopes_ok (history lease_ms evs st).
Proof.
  revert st t0. induction evs as [|e evs IH]; intros st t0 Hok Ho; [simpl; split; [lia|done]|].
  destruct Ho as [Ht Ho]. destruct (step_copies e st p t0 Hok Ht) as [Hc Hok'].
  destruct (IH _ _ Hok' Ho) as [Hc' Hok'']. split; [|done]. unfold all_published in *. simpl in *. lia.
Qed.
End copies.

(** ** Outcomes along a history of whole operations *)

Definition outs (st : redis) : gmap string Z * option Z := (outcomes st, outcomes_expire st).

(** No outcome lies further ahead than the retention, and none outlives its key. *)
Definition ev_ok (now : Z) (p : gmap string Z * option Z) : Prop :=
  (∀ t s, p.1 !! t = Some s → (s <= now + retention_ms)%Z) ∧
  (∀ t s x, p.1 !! t = Some s → p.2 = Some x → (s < x)%Z).

(** From [p] to [p'] the outcomes stay in order and none that is still ahead goes. *)
Definition ev_step (now : Z) (p p' : gmap string Z * option Z) : Prop :=
  ev_ok now p → ev_ok now p' ∧ ∀ t s, (now < s)%Z → p.1 !! t = Some s → p'.1 !! t = Some s.

Lemma ev_step_refl now p : ev_step now p p.
Proof. by intros Hp. Qed.
Lemma ev_step_trans now p p' p'' : ev_step now p p' → ev_step now p' p'' → ev_step now p p''.
Proof.
  intros H1 H2 Hp. destruct (H1 Hp) as [Hp' Hk1]. destruct (H2 Hp') as [Hp'' Hk2]. split; [done|]. auto.
Qed.

Lemma expire_of_Some z e x : expire_of z e = Some x → e = Some x.
Proof. unfold expire_of. by case_bool_decide. Qed.

Lemma ev_purge last now st :
  ev_ok last (outs st) → (last <= now)%Z →
  ev_ok now (outs (purge now st)) ∧
  ∀ t s, (now < s)%Z → outcomes st !! t = Some s → outcomes (purge now st) !! t = Some s.
Proof.
  intros [Hs Hx] Hle. unfold outs, ev_ok in *. simpl in *. rewrite purge_outcomes_eq, purge_expire_eq.
  unfold passed. destruct (outcomes_expire st) as [x|] eqn:Ex.
  - destruct (Z.leb_spec x now).
    + split; [split; intros t s; by rewrite lookup_empty|]. intros t s Hlt Ht. specialize (Hx t s x Ht eq_refl). lia.
    + split; [|done]. split; [|done]. intros t s Ht. apply Hs in Ht. lia.
  - split; [|done]. split; [|done]. intros t s Ht. apply Hs in Ht. lia.
Qed.

Lemma ev_evict now z z0 x n :
  z ⊆ z0 → let ts := zrange_by_score z0 now n in
  ev_step now (z, x) (del_all ts z, expire_of (del_all ts z) x).
Proof.
  intros Hz ts [Hs Hx]. simpl in *.
  assert (Hd : ∀ t s, del_all ts z !! t = Some s → z !! t = Some s).
  { intros t s. rewrite del_all_lookup. by case_decide. }
  split; [split; simpl|].
  - intros t s Ht. by apply (Hs t), Hd.
  - intros t s y Ht Hy. apply (Hx t s); [by apply Hd|by eapply expire_of_Some].
  - intros t s Hlt Ht. simpl in *. rewrite del_all_lookup, decide_False; [done|].
    intros (s' & Hs' & Hle)%elem_zrange_by_score. rewrite (lookup_weaken _ _ _ _ Ht Hz) in Hs'. injection Hs' as ->. lia.
Qed.

Lemma ev_pexpire now z x ttl :
  (ev_ok now (z, x) → ∀ t s, z !! t = Some s → (s < now + ttl)%Z) →
  ev_step now (z, x) (z, expire_of z (Some (now + ttl)%Z)).
Proof.
  intros Hz Hok. specialize (Hz Hok). destruct Hok as [Hs Hx]. split; [split; simpl in *; [done|]|done].
  intros t s y Ht [= <-]%expire_of_Some. by apply (Hz t).
Qed.

Lemma ev_zadd now z x token ttl :
  live_outcome now (z !! token) = false → (retention_ms < ttl)%Z → (0 <= retention_ms)%Z →
  ev_step now (z, x) (<[token := (now + retention_ms)%Z]> z,
                      expire_of (<[token := (now + retention_ms)%Z]> z) (Some (now + ttl)%Z)).
Proof.
  intros Hl Httl Hr [Hs Hx]. simpl in *.
  assert (Hz : ∀ t s, <[token := (now + retention_ms)%Z]> z !! t = Some s → (s <= now + retention_ms)%Z).
  { intros t s [[-> <-]|[_ Ht]]%lookup_insert_Some; [lia|by apply (Hs t)]. }
  split; [split; simpl; [done|]|].
  - intros t s y Ht [= <-]%expire_of_Some. apply Hz in Ht. lia.
  - intros t s Hlt Ht. simpl in *. rewrite lookup_insert_ne; [done|]. intros ->. rewrite Ht in Hl. simpl in Hl.
    apply Z.ltb_ge in Hl. lia.
Qed.

(** The last member of a sorted set has its greatest score. *)
Lemma zsorted_last z t s : last (zsorted z) = Some (t, s) → ∀ t' s', z !! t' = Some s' → (s' <= s)%Z.
Proof.
  intros Hl t' s' Ht'. apply elem_of_map_to_list in Ht'.
  assert (Htot : Total zle).
  { intros [a x] [b y]. unfold zle. simpl. destruct (Z.lt_trichotomy x y) as [|[->|]]; [by left; left| |by right; left].
    destruct (String.leb_total a b); [left|right]; by right. }
  assert (Hsorted : Sorted (λ a b, (a.2 <= b.2)%Z) (zsorted z)).
  { pose proof (Sorted_merge_sort zle (map_to_list z)) as Hm. fold (zsorted z) in Hm.
    clear Hl. induction Hm as [|p l Hm IH Hd]; [constructor|]. constructor; [done|].
    destruct Hd as [|q l Hd]; constructor. unfold zle in Hd. lia. }
  apply Sorted_StronglySorted in Hsorted; [|intros ???; lia].
  rewrite <- (merge_sort_Permutation zle) in Ht'. fold (zsorted z) in Ht'.
  apply last_Some in Hl as [l' Hl]. rewrite Hl in *. clear Hl Htot.
  induction l' as [|p l' IH]; simpl in *.
  - apply list_elem_of_singleton in Ht'. injection Ht' as -> ->. lia.
  - apply StronglySorted_inv in Hsorted as [Hss Hall]. apply elem_of_cons in Ht' as [<-|Ht']; [|by apply IH].
    rewrite list.Forall_forall in Hall. apply (Hall (t, s)). set_solver.
Qed.

(** ** The outcomes after each script *)

Section outcomes.
Context `{RedisLua}.

(** A write that leaves the outcomes alone. *)
Definition outs_inert (w : write) : bool :=
  match w with ZADD_outcomes _ _ | ZREM_outcomes _ | PEXPIRE_outcomes _ => false | _ => true end.

Lemma outs_exec now w st : outs_inert w = true → outs (exec now w st) = outs st.
Proof. destruct w; try done. intros _. unfold outs. simpl. by destruct (cursor st). Qed.

Lemma outs_emit now w r : outs_inert w = true → outs (r_st (emit now w r)) = outs (r_st r).
Proof. apply outs_exec. Qed.
Lemma outs_emit_if now b w r : outs_inert w = true → outs (r_st (emit_if now b w r)) = outs (r_st r).
Proof. destruct b; [apply outs_exec|done]. Qed.

Lemma outs_repair now e p : outs (r_st (repair_step now p e).1) = outs (r_st p.1).
Proof. destruct p as [r b]. unfold repair_step. repeat case_match; simpl; by rewrite ?outs_exec. Qed.
Lemma outs_visible now t p : outs (r_st (visible_step now p t).1) = outs (r_st p.1).
Proof. destruct p as [r b]. unfold visible_step. repeat case_match; simpl; by rewrite ?outs_exec. Qed.

Lemma outs_foldl {A} (f : run * bool → A → run * bool) l p :
  (∀ x p, outs (r_st (f p x).1) = outs (r_st p.1)) → outs (r_st (foldl f p l).1) = outs (r_st p.1).
Proof. intros Hf. revert p. induction l as [|x l IH]; intros p; simpl; [done|]. by rewrite IH, Hf. Qed.

Lemma housekeeping_outcomes now ttl st0 :
  (0 < ttl)%Z → ev_step now (outs st0) (outs (r_st (housekeeping now ttl (read_claim now st0) (mkRun st0 [])).1)).
Proof.
  intros Httl. destruct (read_claim_views now st0) as (He & _).
  assert (Hn : v_newest (read_claim now st0) = snd <$> last (zsorted (outcomes st0)))
    by (unfold read_claim; by destruct (HSCAN _ _ _)).
  unfold housekeeping. rewrite He. destruct (read_claim now st0) as [ex tm nw dr odd bk nc rp ov vi du pl]. simpl in *.
  set (r1 := emit_if now _ (ZREM_outcomes _) _). set (x := match nw with Some _ => _ | None => _ end).
  set (r2 := emit_if now tm _ r1). set (r3 := if dr then _ else _).
  destruct (foldl (repair_step now) _ rp) as [r4 b4] eqn:E4.
  destruct (foldl (visible_step now) _ vi) as [r6 b6] eqn:E6. simpl.
  assert (H4 : outs (r_st r4) = outs (r_st r2)).
  { change r4 with (r4, b4).1. rewrite <- E4, outs_foldl by (intros; apply outs_repair). simpl.
    unfold r3. destruct dr; [by apply outs_emit|by apply outs_emit_if]. }
  assert (H6 : outs (r_st r6) = outs (r_st r2)).
  { change r6 with (r6, b6).1. rewrite <- E6, outs_foldl by (intros; apply outs_visible). simpl.
    by rewrite outs_emit_if. }
  rewrite !outs_emit_if, H6 by done. clear E4 E6 H4 H6 r4 r6 r3. unfold r2, r1.
  assert (H1 : ev_step now (outs st0) (outs (r_st r1)) ∧ outcomes (r_st r1) ⊆ outcomes st0).
  { unfold r1. destruct (negb _); simpl; [|split; [apply ev_step_refl|done]].
    split; [by apply ev_evict|apply del_all_subseteq]. }
  destruct H1 as [H1 Hsub]. destruct tm; simpl; [|done]. eapply ev_step_trans; [exact H1|].
  apply ev_pexpire. intros _ t s Ht. pose proof (lookup_weaken _ _ _ _ Ht Hsub) as Ht0.
  unfold x. rewrite Hn. destruct (last (zsorted (outcomes st0))) as [[t' s']|] eqn:El; simpl.
  - pose proof (zsorted_last _ _ _ El t s Ht0). lia.
  - apply last_None in El. exfalso. apply elem_of_map_to_list in Ht0.
    rewrite <- (merge_sort_Permutation zle) in Ht0. unfold zsorted in El. rewrite El in Ht0.
    by apply not_elem_of_nil in Ht0.
Qed.

Lemma claim_outcomes now token lease ttl st :
  ev_step now (outs (purge now st)) (outs (r_st (claim_script now token lease ttl st).2)).
Proof.
  unfold claim_script. set (st0 := purge now st). clearbody st0.
  destruct (_ || _ || _) eqn:Hargs; [apply ev_step_refl|].
  do 4 (case_match; [apply ev_step_refl|]).
  case_match; [apply ev_step_refl|].
  assert (Httl : (0 < ttl)%Z) by lia. pose proof (housekeeping_outcomes now ttl st0 Httl) as Ht.
  destruct (housekeeping _ _ _ _) as [r b]. simpl in *. destruct b; [done|].
  unfold reclaim, reserve. repeat case_match; simpl; by rewrite ?outs_exec.
Qed.

Lemma ack_outcomes now token st :
  ev_step now (outs (purge now st)) (outs (r_st (ack_script now token retention_ms key_ttl_ms st).2)).
Proof.
  unfold ack_script. set (st0 := purge now st). clearbody st0.
  case_match; [apply ev_step_refl|]. destruct (live_outcome now (outcomes st0 !! token)) eqn:Ho.
  - apply (ev_pexpire now (outcomes st0) (outcomes_expire st0)). intros [Hs _] t s Ht. apply Hs in Ht.
    pose proof retention_lt. simpl in *. lia.
  - unfold ack_reserved. cbn [r_st]. destruct (reserved now st0 token) as [e|]; [|apply ev_step_refl].
    set (ts := zrange_by_score (outcomes st0) now 128). set (r1 := emit_if now _ (ZREM_outcomes ts) _).
    assert (H1 : ev_step now (outs st0) (outs (r_st r1)) ∧ live_outcome now (outcomes (r_st r1) !! token) = false).
    { unfold r1. destruct (negb _); simpl; [|split; [apply ev_step_refl|done]].
      split; [by apply ev_evict|]. rewrite del_all_lookup. by case_decide. }
    destruct H1 as [H1 Hl]. eapply ev_step_trans; [exact H1|].
    apply (ev_zadd now (outcomes (r_st r1)) (outcomes_expire (r_st r1)) token key_ttl_ms); [done|apply retention_lt..].
Qed.

Lemma run_op_outcomes lease_ms now op st : ev_step now (outs (purge now st)) (outs (r_st (run_op lease_ms now op st))).
Proof.
  destruct op; simpl.
  - apply ev_step_refl.
  - apply claim_outcomes.
  - unfold renew_script. repeat case_match; apply ev_step_refl.
  - apply ack_outcomes.
  - unfold release_script. repeat case_match; apply ev_step_refl.
  - unfold defer_script. repeat case_match; apply ev_step_refl.
Qed.

Definition complete (evs : list event) : Prop := Forall (λ e, ev_cut e = None) evs.

Lemma history_outcomes lease_ms evs st t0 :
  complete evs → ordered t0 evs → ev_ok t0 (outs st) →
  ev_ok (last_time t0 evs) (outs (history lease_ms evs st)) ∧
  ∀ t s, (last_time t0 evs < s)%Z → outcomes st !! t = Some s → outcomes (history lease_ms evs st) !! t = Some s.
Proof.
  revert st t0. induction evs as [|e evs IH]; intros st t0 Hc Ho Hok; [done|].
  apply list.Forall_cons in Hc as [He Hc]. destruct Ho as [Ht Ho]. simpl.
  destruct (ev_purge t0 (ev_now e) st Hok Ht) as [Hok1 Hk1].
  destruct (run_op_outcomes lease_ms (ev_now e) (ev_op e) st Hok1) as [Hok2 Hk2].
  assert (Hstep : step lease_ms e st = r_st (run_op lease_ms (ev_now e) (ev_op e) st)) by (unfold step; by rewrite He).
  rewrite <- Hstep in *. destruct (IH _ _ Hc Ho Hok2) as [Hok3 Hk3]. split; [done|].
  intros t s Hlt Hs. apply Hk3; [done|]. assert (ev_now e <= last_time (ev_now e) evs)%Z by by apply ordered_last.
  apply (Hk2 t s); [lia|]. simpl. apply Hk1; [lia|done].
Qed.

End outcomes.
