(* ===== verification/ReliableClaim.v ===== *)
(** * Reliable delivery: the claim script and the Go callers

    The replies of the claim script with what each says of the state, what a
    history leaves of a reservation while its lease lasts, and the loops of [claim] and [deferRetry] around the scripts. *)

From S2P Require Import Prelude GoText ReliableQueue ReliableInv ReliableThms ReliableHist.
From stdpp Require Import sorting.

Section claim.
Context `{RedisLua}.

(** The values of a successful claim or retry. *)
Definition delivered (token e : string) (now deadline : Z) : list rval :=
  [VInt 1; VStr token; VStr e; VStr (tostring now); VStr (tostring deadline)].

Definition none_due (now : Z) (st : redis) : Prop := ∀ t s, visibility st !! t = Some s → (now < s)%Z.

(** What a reply of the claim script says of the state it leaves. *)
Definition claim_post (now : Z) (token : string) (lease : Z) (st0 : redis) (rep : reply) (st : redis) : Prop :=
  (∃ m, rep = inl m ∧ st = st0) ∨
  (rep = inr [VInt 2] ∧ token_taken st0 token = true ∧ st = st0) ∨
  (rep = inr [VInt 3] ∧ entries st < entries st0) ∨
  (rep = inr [VInt 0; VStr (tostring now)] ∧ ready st = [] ∧ none_due now st) ∨
  (∃ e, rep = inr (delivered token e now (now + lease)) ∧ (0 < lease)%Z ∧
        inflight st !! token = Some e ∧ visibility st !! token = Some (now + lease)%Z).

Lemma zrange_none z now : head (zrange_by_score z now 1) = None → ∀ t s, z !! t = Some s → (now < s)%Z.
Proof.
  unfold zrange_by_score, zsorted. intros Hh t s Ht. apply elem_of_map_to_list in Ht.
  rewrite <- (merge_sort_Permutation zle) in Ht. destruct (Z.lt_ge_cases now s) as [|Hle]; [done|]. exfalso.
  assert (Hin : (t, s) ∈ filter (λ p, (p.2 <= now)%Z) (merge_sort zle (map_to_list z)))
    by by apply list_elem_of_filter.
  destruct (filter _ _); [by apply not_elem_of_nil in Hin|done].
Qed.

Lemma claim_script_post now token lease ttl st rep r :
  claim_script now token lease ttl st = (rep, r) → claim_post now token lease (purge now st) rep (r_st r).
Proof.
  unfold claim_script. set (st0 := purge now st). clearbody st0. unfold claim_post.
  destruct (_ || _ || _) eqn:Hargs; [intros [= <- <-]; left; by eexists|].
  destruct (token_taken st0 token) eqn:Htok; [intros [= <- <-]; by right; left|].
  do 4 (case_match; [intros [= <- <-]; left; by eexists|]).
  pose proof (housekeeping_tidy now ttl st0) as Ht. destruct (housekeeping _ _ _ _) as [r1 b]. destruct Ht as [_ Hp].
  simpl in Hp. destruct b; [intros [= <- <-]; by right; right; left|].
  apply token_taken_false in Htok as (Hti & Htv & _). destruct Hp as (Hr & Hi & Hv & Ho).
  destruct (read_claim_views now st0) as (_ & _ & _ & -> & ->).
  destruct (head (zrange_by_score _ _ _)) as [old|] eqn:Hdue.
  - apply head_Some_elem_of, elem_zrange_by_score in Hdue as (s & Hs & _). unfold reclaim. simpl.
    assert (Hdel : entries (exec now (ZREM_visibility old) (r_st r1)) < entries st0).
    { unfold entries. simpl. rewrite Hi, Hv, Ho. pose proof (delete_smaller _ old (mk_is_Some _ _ Hs)). lia. }
    case_match; [|destruct (inflight st0 !! old) as [e|] eqn:He]; intros [= <- <-]; simpl.
    + right; right; left. split; [done|].
      pose proof (entries_HDEL now old (exec now (ZREM_visibility old) (r_st r1))). simpl in *. lia.
    + do 4 right. exists e. split_and!; [done|lia|rewrite lookup_delete_ne, lookup_insert_eq by congruence; done|].
      rewrite lookup_delete_ne, lookup_insert_eq by congruence. done.
    + by right; right; left.
  - destruct (head (ready st0)) as [p|] eqn:Hh.
    + unfold reserve. simpl. rewrite Hr, bool_decide_true by done. intros [= <- <-]. simpl. do 4 right.
      exists (zero_header +:+ p). rewrite !lookup_insert_eq. split_and!; [done|lia|done|done].
    + intros [= <- <-]. right; right; right; left. apply head_None in Hh. rewrite Hr. split_and!; [done|done|].
      intros t u. rewrite Hv. by apply zrange_none.
Qed.

(** The token of a successful claim was free. *)
Lemma claim_token_free now token lease ttl st :
  ∀ e deadline, (claim_script now token lease ttl st).1 = inr (delivered token e now deadline) →
  token_taken (purge now st) token = false.
Proof.
  intros e deadline. unfold claim_script. destruct (_ || _ || _); [done|].
  by destruct (token_taken (purge now st) token).
Qed.

(** ** The loop of [claim] *)

(** A result of [claim] is that of one of its script calls. *)
Lemma claim_attempts_call q env k i st res j st' :
  claim_attempts q env i k st = (Some (inr res), j, st') →
  ∃ n st0 token rep r,
    next_token (a_read (env n)) = inr token ∧
    claim_script (a_now (env n)) token (Milliseconds (lease q)) (Milliseconds ackOutcomeKeyTTL) st0 = (rep, r) ∧
    st' = r_st r ∧ ∃ code vs, script_code "claim queued task" rep = inr (code, vs) ∧
    match res with
    | None => code = 0%Z
    | Some d => code = 1%Z ∧ delivery_of "claim queued task" token (a_started (env n)) vs = inr d
    end.
Proof.
  revert i st. induction k as [|k IH]; intros i st; simpl; [done|].
  destruct (next_token (a_read (env i))) as [e|token] eqn:Htok; [done|].
  destruct (claim_script _ _ _ _ _) as [rep r] eqn:Hcl.
  destruct (script_code _ rep) as [e|[code vs]] eqn:Hcode; [done|].
  destruct (Z.eqb_spec code 0) as [->|]; [|destruct (Z.eqb_spec code 1) as [->|]; [|destruct (Z.eqb_spec code 2)]].
  - intros [= <- <- <-]. eexists i, _, token, rep, r. split_and!; try done. by eexists _, _.
  - destruct (delivery_of _ _ _ _) as [e|d] eqn:Hd; [done|]. simpl. intros [= <- <- <-].
    eexists i, _, token, rep, r. split_and!; try done. by eexists _, _.
  - apply IH.
  - destruct (code =? 3)%Z; done.
Qed.

Lemma claim_loop_call q env fuel i st res st' :
  claim_loop q env i fuel st = (inr res, st') →
  ∃ n st0 token rep r,
    next_token (a_read (env n)) = inr token ∧
    claim_script (a_now (env n)) token (Milliseconds (lease q)) (Milliseconds ackOutcomeKeyTTL) st0 = (rep, r) ∧
    st' = r_st r ∧ ∃ code vs, script_code "claim queued task" rep = inr (code, vs) ∧
    match res with
    | None => code = 0%Z
    | Some d => code = 1%Z ∧ delivery_of "claim queued task" token (a_started (env n)) vs = inr d
    end.
Proof.
  revert i st. induction fuel as [|fuel IH]; intros i st; cbn [claim_loop]; [done|].
  destruct (claim_attempts _ _ _ _ _) as [[[out|] j] st1] eqn:Ha; [|apply IH].
  intros [= -> ->]. by eapply claim_attempts_call.
Qed.
End claim.

(** ** The repair backlog and its cursor *)

Section backlog.
Context `{RedisLuaLaws}.

(** A write puts only tokens of [P] in the backlog and only numerals in the cursor. *)
Definition sane (P : string → Prop) (w : write) : Prop :=
  match w with
  | ZADD_backlog_NX ts => ∀ t, t ∈ ts → P t
  | SET_cursor c _ => is_cursor c = true
  | _ => True
  end.

Definition sane_state (P : string → Prop) (st : redis) : Prop :=
  (∀ t, is_Some (backlog st !! t) → P t) ∧ is_cursor (default "0" (cursor st)) = true.

Lemma add_missing_is_Some ts z t : is_Some (add_missing ts z !! t) → is_Some (z !! t) ∨ t ∈ ts.
Proof.
  induction ts as [|u ts IH]; simpl; [by left|]. fold (add_missing ts z).
  destruct (add_missing ts z !! u).
  - intros [|]%IH; [by left|right; set_solver].
  - rewrite lookup_insert. case_decide as Hu; [subst; right; set_solver|].
    intros [|]%IH; [by left|right; set_solver].
Qed.

Lemma sane_exec now P w st : sane P w → sane_state P st → sane_state P (exec now w st).
Proof.
  unfold sane_state. intros Hw [Hb Hc]. destruct w; simpl in *; try done.
  - split; [|done]. intros t [|]%add_missing_is_Some; auto.
  - split; [|done]. intros t Ht. apply Hb. rewrite del_all_lookup in Ht. case_decide; [by destruct Ht|done].
  - destruct (cursor st) as [c|] eqn:E; simpl; [done|]. by rewrite E.
Qed.

(** A run whose state is sane so far. *)
Lemma sane_emit_if now P b w r :
  (b = true → sane P w) → sane_state P (r_st r) → sane_state P (r_st (emit_if now b w r)).
Proof. destruct b; simpl; [|done]. intros Hw. by apply sane_exec, Hw. Qed.

Lemma sane_repair now P e p : sane_state P (r_st p.1) → sane_state P (r_st (repair_step now p e).1).
Proof. destruct p as [r b]. unfold repair_step. by repeat case_match. Qed.
Lemma sane_visible now P t p : sane_state P (r_st p.1) → sane_state P (r_st (visible_step now p t).1).
Proof. destruct p as [r b]. unfold visible_step. by repeat case_match. Qed.

Lemma fields_drop n l t : t ∈ fields (drop (2 * n) l) → t ∈ fields l.
Proof.
  revert l. induction n as [|n IH]; intros l; [done|].
  replace (2 * S n) with (S (S (2 * n))) by lia. destruct l as [|a [|b l]]; simpl; [done|set_solver|].
  intros Ht%IH. set_solver.
Qed.

Lemma housekeeping_sane now ttl P st0 :
  sane_state P st0 → (∀ t, is_Some (inflight st0 !! t) → P t) →
  sane_state P (r_st (housekeeping now ttl (read_claim now st0) (mkRun st0 [])).1).
Proof.
  intros Hs HP.
  assert (Hov : ∀ t, t ∈ v_overflow (read_claim now st0) → P t).
  { unfold read_claim. pose proof (HSCAN_fields (inflight st0) (default "0" (cursor st0)) 128) as Hf.
    destruct (HSCAN _ _ _) as [c es]. simpl in *. intros t. case_match; [by intros ?%not_elem_of_nil|].
    intros Ht%(fields_drop 128). auto. }
  assert (Hcu : v_draining (read_claim now st0) = false → is_cursor (v_next_cursor (read_claim now st0)) = true).
  { unfold read_claim. pose proof (HSCAN_cursor (inflight st0) (default "0" (cursor st0)) 128) as Hf.
    destruct (HSCAN _ _ _) as [c es]. simpl in *. by intros ->. }
  unfold housekeeping. destruct (read_claim now st0) as [ex tm nw dr odd bk nc rp ov vi du pl]. simpl in *.
  destruct (foldl (repair_step now) _ rp) as [r4 b4] eqn:E4.
  assert (H4 : sane_state P (r_st (r4, b4).1)).
  { rewrite <- E4. apply (foldl_inv (λ p, sane_state P (r_st p.1))); [intros; by apply sane_repair|]. cbn [fst].
    destruct dr; [apply (sane_exec now P (PEXPIRE_cursor ttl)); [done|]|apply sane_emit_if; [done|]];
      by do 2 (apply sane_emit_if; [done|]). }
  destruct (foldl (visible_step now) _ vi) as [r6 b6] eqn:E6.
  assert (H6 : sane_state P (r_st (r6, b6).1)).
  { rewrite <- E6. apply (foldl_inv (λ p, sane_state P (r_st p.1))); [intros; by apply sane_visible|].
    by apply sane_emit_if. }
  apply sane_emit_if; [done|]. apply sane_emit_if; [|done]. intros Hdr. apply Hcu. by destruct dr.
Qed.

(** ** A claim that asks to be repeated *)

Lemma purge_sane now P st : sane_state P st → sane_state P (purge now st).
Proof.
  unfold sane_state, purge, purge_backlog, purge_cursor, purge_outcomes. intros [Hb Hc].
  repeat match goal with |- context [if passed ?a ?b then _ else _] => destruct (passed a b); simpl end;
    try done; (split; [|done]); intros t; rewrite lookup_empty; by intros [].
Qed.

(** What a state needs for [claim] to make its way: tokens that nobody holds,
    well-formed envelopes and a repair cursor that is a numeral. *)
Definition claimable (fresh : string → Prop) (st : redis) : Prop :=
  (∀ t, fresh t → token_taken st t = false) ∧ envelopes_ok st ∧ is_cursor (default "0" (cursor st)) = true.

Lemma claimable_alt fresh st :
  claimable fresh st ↔
  (∀ t, fresh t → inflight st !! t = None ∧ visibility st !! t = None ∧ outcomes st !! t = None) ∧
  envelopes_ok st ∧ sane_state (λ t, ¬ fresh t) st.
Proof.
  unfold claimable, sane_state. split.
  - intros (Hf & He & Hc). split_and!; try done.
    + intros t Ht. by destruct (token_taken_false st t (Hf t Ht)) as (? & ? & ? & _).
    + intros t Hb Ht. destruct (token_taken_false st t (Hf t Ht)) as (_ & _ & _ & Hn). rewrite Hn in Hb. by destruct Hb.
  - intros (Hf & He & Hb & Hc). split_and!; try done. intros t Ht. destruct (Hf t Ht) as (Hi & Hv & Ho).
    unfold token_taken. rewrite !orb_false_iff, !mem_false. split_and!; try done.
    apply eq_None_not_Some. intros Hs. by apply (Hb t).
Qed.

Lemma purge_claimable now fresh st : claimable fresh st → claimable fresh (purge now st).
Proof.
  rewrite !claimable_alt. intros (Hf & He & Hs). split_and!; [|by apply purge_envelopes_ok|by apply purge_sane].
  intros t Ht. destruct (purge_same now st) as (_ & -> & ->). rewrite purge_outcomes_eq.
  destruct (Hf t Ht) as (? & ? & ?). split_and!; try done. by case_match.
Qed.

Lemma purge_entries now st : entries (purge now st) ≤ entries st.
Proof.
  unfold entries. destruct (purge_same now st) as (_ & -> & ->). rewrite purge_outcomes_eq.
  case_match; [rewrite map_size_empty|]; lia.
Qed.

Lemma claimable_ZREM now fresh t st : claimable fresh st → claimable fresh (exec now (ZREM_visibility t) st).
Proof.
  rewrite !claimable_alt. intros (Hf & He & Hs). split_and!; [|done|done]. intros u Hu. simpl.
  destruct (Hf u Hu) as (? & Hv & ?). split_and!; try done. apply lookup_delete_None. by right.
Qed.
Lemma claimable_HDEL now fresh t st : claimable fresh st → claimable fresh (exec now (HDEL t) st).
Proof.
  rewrite !claimable_alt. intros (Hf & He & Hs). split_and!; [| |done].
  - intros u Hu. simpl. destruct (Hf u Hu) as (? & ? & ?). split_and!; try done. apply lookup_delete_None. by right.
  - intros u e. simpl. intros [_ Hu]%lookup_delete_Some. by apply (He u).
Qed.

Lemma housekeeping_claimable now ttl fresh st0 :
  claimable fresh st0 → claimable fresh (r_st (housekeeping now ttl (read_claim now st0) (mkRun st0 [])).1).
Proof.
  rewrite !claimable_alt. intros (Hf & Hok & Hs).
  pose proof (housekeeping_tidy now ttl st0) as [Ha _].
  destruct (along_here _ _ _ _ Ha) as [Hi Hv Ho _ _ _]. split_and!.
  - intros t Ht. destruct (Hf t Ht) as (Hti & Htv & Hto).
    split_and!; eauto using lookup_weaken_None.
  - intros t e Ht. apply (Hok t). by eapply lookup_weaken.
  - apply housekeeping_sane; [done|]. intros t [e He] Ht. destruct (Hf t Ht) as (? & _). congruence.
Qed.

(** With a free token the script replies nothing but 0, 1 or 3, and after 3 the
    state is claimable still. *)
Lemma claim_script_claimable now token lease ttl fresh st rep r :
  claimable fresh st → fresh token → token ≠ "" → (0 < lease)%Z → (0 < ttl)%Z →
  claim_script now token lease ttl st = (rep, r) →
  (∃ vs, rep = inr vs) ∧ rep ≠ inr [VInt 2] ∧ (rep = inr [VInt 3] → claimable fresh (r_st r)).
Proof.
  intros Hst%(purge_claimable now) Hfresh Htok Hlease Httl. unfold claim_script.
  set (st0 := purge now st) in *. clearbody st0.
  assert (Hargs : String.eqb token "" || (lease <=? 0)%Z || (ttl <=? 0)%Z = false).
  { rewrite (proj2 (String.eqb_neq _ _) Htok). simpl. lia. }
  pose proof Hst as (Hf & Hok & Hc). rewrite Hargs, (Hf token Hfresh), Hc. cbn [negb].
  assert (Hodd : v_odd_page (read_claim now st0) = false).
  { unfold read_claim. pose proof (HSCAN_even (inflight st0) (default "0" (cursor st0)) 128) as He.
    destruct (HSCAN _ _ _) as [c es]. simpl in *. rewrite He. apply andb_false_r. }
  assert (Hopt : ∀ t, valid_opt (inflight st0 !! t) = true).
  { intros t. destruct (inflight st0 !! t) as [e|] eqn:He; [|done]. by apply valid_envelope_ok, (Hok t). }
  destruct (read_claim_views now st0) as (_ & Hrep & _ & _ & Hpay).
  rewrite Hodd. rewrite (proj2 (forallb_forall _ _)).
  2:{ intros e He%list_elem_of_In. destruct (Hrep e He) as [t ->]. apply Hopt. }
  assert (Hold : valid_opt (t ← v_due (read_claim now st0); inflight st0 !! t) = true)
    by (destruct (v_due _); [apply Hopt|done]).
  rewrite Hold. cbn [negb].
  pose proof (housekeeping_claimable now ttl fresh st0 Hst) as Hr.
  pose proof (housekeeping_tidy now ttl st0) as [_ Hp].
  destruct (housekeeping _ _ _ _) as [r1 b]. simpl in Hr, Hp.
  destruct b; [intros [= <- <-]; split_and!; [by eexists|done|done]|]. destruct Hp as [Hready _].
  destruct (v_due (read_claim now st0)) as [old|].
  - unfold reclaim. simpl. repeat case_match; intros [= <- <-]; (split_and!; [by eexists|done|]); intros Heq; try done.
    + by apply claimable_HDEL, claimable_ZREM.
    + by apply claimable_ZREM.
  - rewrite Hpay. destruct (head (ready st0)) as [p|] eqn:Hh; [|intros [= <- <-]; split_and!; [by eexists|done|done]].
    unfold reserve. simpl. rewrite Hready, bool_decide_true by done. intros [= <- <-]. split_and!; [by eexists|done|done].
Qed.

(** ** What the caller makes of a delivery *)

Lemma reliableScriptInt_tostring n : (0 <= n < 10 ^ 14)%Z → reliableScriptInt (VStr (tostring n)) = inr n.
Proof.
  intros Hn. destruct (tostring_digits n Hn) as (k & Hk & Hlt & Ht). simpl. rewrite Ht.
  destruct k as [|k]; [lia|]. rewrite ParseInt_digits; [done|lia|lia].
Qed.

Definition in_range (now deadline : Z) : Prop := (0 <= now <= deadline)%Z ∧ (deadline < 10 ^ 12 * 9)%Z.

Lemma delivery_of_delivered op token e now deadline started n p :
  in_range now deadline → decodeReliableEnvelope e = Some (n, p) →
  delivery_of op token started (delivered token e now deadline) =
    inr (mkDelivery token p n now deadline (started + (deadline - now) * 1000000)).
Proof.
  intros [Hr Hmax] He. unfold delivery_of, delivered. cbn [reliableScriptBytes sbind]. rewrite He.
  rewrite !reliableScriptInt_tostring by lia. cbn [sbind]. unfold updateConfirmation. simpl.
  rewrite (wraps64_id (deadline - now)) by (unfold is_int, MinInt64, MaxInt64; lia).
  rewrite wraps64_id by (unfold is_int, MinInt64, MaxInt64; lia).
  destruct (Z.ltb_spec ((deadline - now) * 1000000) 0); [lia|done].
Qed.

Lemma delivery_of_decodes op token e now deadline started d :
  delivery_of op token started (delivered token e now deadline) = inr d →
  decodeReliableEnvelope e = Some (d_failures d, d_payload d) ∧ d_token d = token.
Proof.
  unfold delivery_of, delivered. cbn [reliableScriptBytes sbind].
  destruct (decodeReliableEnvelope e) as [[n p]|]; [|done].
  destruct (reliableScriptInt _); [done|]. cbn [sbind]. destruct (reliableScriptInt _); [done|]. by intros [= <-].
Qed.

Lemma script_code_delivered op token e now deadline :
  script_code op (inr (delivered token e now deadline)) = inr (1%Z, delivered token e now deadline).
Proof. done. Qed.

(** ** [claim] with no other client about *)

Section alone.
Context (q : reliableQueue) (env : nat → attempt) (fresh : string → Prop).
Context (Hothers : ∀ i st, a_others (env i) st = st).
Context (Htokens : ∀ i, ∃ token, next_token (a_read (env i)) = inr token ∧ fresh token ∧ token ≠ "").
Context (Hlease : (0 < Milliseconds (lease q))%Z).
Context (Htimes : ∀ i, in_range (a_now (env i)) (a_now (env i) + Milliseconds (lease q))).

Lemma claim_attempts_alone i k st :
  claimable fresh st →
  match claim_attempts q env i (S k) st with
  | (Some res, _, st') => ∃ od, res = inr od ∧ (od = None → ready st' = [] ∧ none_due (a_now (env i)) st')
  | (None, _, st') => claimable fresh st' ∧ entries st' < entries st
  end.
Proof using All.
  intros Hst. cbn [claim_attempts]. destruct (Htokens i) as (token & -> & Hfresh & Hne). rewrite Hothers.
  pose proof (claim_safe (a_now (env i)) token (Milliseconds (lease q)) (Milliseconds ackOutcomeKeyTTL) st) as Hsafe.
  destruct (claim_script _ _ _ _ _) as [rep r] eqn:Hcl. simpl in Hsafe.
  pose proof (claim_script_claimable _ _ _ (Milliseconds ackOutcomeKeyTTL) fresh st rep r Hst Hfresh Hne Hlease eq_refl Hcl) as ([vs Hvs] & H2 & H3).
  pose proof (purge_entries (a_now (env i)) st) as Hle.
  destruct (claim_script_post _ _ _ _ _ _ _ Hcl) as [(m & Hm & _)|[(Hm & _)|[[Hm Hlt]|[(Hm & Hr & Hd)|(e & Hm & _ & Hi & _)]]]];
    try congruence; clear vs Hvs; subst rep.
  - simpl. split; [by apply H3|lia].
  - simpl. exists None. done.
  - rewrite script_code_delivered. cbn [Z.eqb Pos.eqb].
    destruct Hst as (_ & Hok & _). destruct (s_envelopes _ _ _ _ _ (along_here _ _ _ _ (Hsafe Hok)) token e Hi) as (n & p & Hn & ->).
    rewrite (delivery_of_delivered _ _ _ _ _ _ n p) by (auto using decode_envelope). simpl. by eexists.
Qed.

Lemma claim_loop_alone fuel i st :
  claimable fresh st → entries st < fuel →
  ∃ od st', claim_loop q env i fuel st = (inr od, st') ∧
    (od = None → ready st' = [] ∧ ∃ j, none_due (a_now (env j)) st').
Proof using All.
  revert i st. induction fuel as [|fuel IH]; intros i st Hst Hlt; [lia|]. cbn [claim_loop].
  pose proof (claim_attempts_alone i 3 st Hst) as Ha. change maxDeliveryTokenAttempts with 4.
  destruct (claim_attempts q env i 4 st) as [[[res|] j] st'].
  - destruct Ha as (od & -> & Ho). eexists od, st'. split; [done|]. intros Hod. destruct (Ho Hod). split; [done|]. by eexists.
  - destruct Ha as [Hst' Hlt']. apply IH; [done|lia].
Qed.
End alone.
End backlog.

(** ** Deferred retries *)

Section retry.
Context (sha256 : list Z → list Z) (Hsha : ∀ m, Forall (λ b, (0 <= b < 256)%Z) (sha256 m)).

(** The delay before jitter, in seconds: 1, 2, 4, ..., 32, 60, 60, ... *)
Definition base_seconds (failures : Z) : Z := Z.min (2 ^ Z.min failures 6) 60.

Lemma nth_byte (l : list Z) i : Forall (λ b, (0 <= b < 256)%Z) l → (0 <= nth i l 0 < 256)%Z.
Proof.
  intros Hl. destruct (nth_in_or_default i l 0%Z) as [Hin| ->]; [|lia].
  rewrite list.Forall_forall in Hl. by apply Hl, list_elem_of_In.
Qed.

Lemma retry_delay_bounds failures payload :
  (0 <= failures)%Z →
  (800000000 * base_seconds failures <= reliableRetryDelay sha256 failures payload <=
   Z.min (1200000000 * base_seconds failures) 60000000000)%Z.
Proof using Hsha.
  intros Hf. unfold reliableRetryDelay. set (digest := sha256 _).
  pose proof (nth_byte digest 0 (Hsha _)). pose proof (nth_byte digest 1 (Hsha _)).
  set (u := (nth 0 digest 0 * 256 + nth 1 digest 0)%Z). assert (Hu : (0 <= u)%Z) by lia.
  pose proof (Z.rem_bound_pos u 4001 Hu ltac:(lia)) as Hm. set (m := Z.rem u 4001) in *. clearbody m.
  assert (Hb : (if (60 * 1000000000 <? wraps 64 (1000000000 * Z.shiftl 1 (if (6 <? failures)%Z then 6 else failures)))%Z
     then (60 * 1000000000)%Z
     else wraps 64 (1000000000 * Z.shiftl 1 (if (6 <? failures)%Z then 6 else failures))) = (1000000000 * base_seconds failures)%Z).
  { unfold base_seconds. destruct (Z.ltb_spec 6 failures).
    - rewrite (Z.min_r failures 6) by lia. reflexivity.
    - assert (failures = 0 ∨ failures = 1 ∨ failures = 2 ∨ failures = 3 ∨ failures = 4 ∨ failures = 5 ∨ failures = 6)%Z
        as Hc by lia. by destruct_or! Hc; subst failures. }
  rewrite Hb. assert (Hbase : (1 <= base_seconds failures <= 60)%Z).
  { unfold base_seconds. pose proof (Z.pow_pos_nonneg 2 (Z.min failures 6)). lia. }
  clear Hb. rewrite wraps64_id by (unfold is_int, MinInt64, MaxInt64; nia).
  rewrite Z.quot_div_nonneg by nia. set (b := base_seconds failures) in *. clearbody b.
  assert (Hq : (800000000 * b <= 1000000000 * b * (8000 + m) / 10000 <= 1200000000 * b)%Z).
  { split; [apply Z.div_le_lower_bound; nia|apply Z.div_le_upper_bound; nia]. }
  destruct (Z.ltb_spec (60 * 1000000000) (1000000000 * b * (8000 + m) / 10000)); lia.
Qed.

Context `{RedisLuaLaws}.

Lemma defer_script_post now old new delay st rep r vs :
  envelopes_ok st → defer_script now old new delay st = (rep, r) → script_code "defer queued task" rep = inr (1%Z, vs) →
  ∃ n p, let n' := Z.min (n + 1) 9999999999 in
    (0 <= n < 10 ^ 10)%Z ∧ reserved now (purge now st) old = Some (envelope n p) ∧
    vs = delivered new (envelope n' p) now (now + delay) ∧
    inflight (r_st r) = delete old (<[new := envelope n' p]> (inflight (purge now st))) ∧
    visibility (r_st r) = delete old (<[new := (now + delay)%Z]> (visibility (purge now st))).
Proof.
  intros Hok%(purge_envelopes_ok now). unfold defer_script. set (st0 := purge now st) in *. clearbody st0.
  do 2 (case_match; [by intros [= <- <-]|]).
  destruct (reserved now st0 old) as [e|] eqn:Hr; [|by intros [= <- <-]]. case_match; [by intros [= <- <-]|].
  destruct (reserved_Some _ _ _ _ Hr) as [He _]. destruct (Hok _ _ He) as (n & p & Hn & ->).
  rewrite envelope_header, tonumber_digits, envelope_payload by done.
  assert (Hmin : (if (n <? 9999999999)%Z then (n + 1)%Z else n) = Z.min (n + 1) 9999999999).
  { destruct (Z.ltb_spec n 9999999999); lia. }
  rewrite Hmin, format_digits by lia. change (digits 10 ?x +:+ ":" +:+ p) with (envelope x p).
  intros [= <- <-] [= <-]. by exists n, p.
Qed.

Lemma defer_attempts_call env d delay k i st d' st' :
  (∀ i st, envelopes_ok st → envelopes_ok (a_others (env i) st)) → envelopes_ok st →
  defer_attempts env d delay i k st = (inr d', st') →
  ∃ j st0 new rep r vs, envelopes_ok st0 ∧
    defer_script (a_now (env j)) (d_token d) new (Milliseconds delay) st0 = (rep, r) ∧ st' = r_st r ∧
    script_code "defer queued task" rep = inr (1%Z, vs) ∧
    delivery_of "defer queued task" new (a_started (env j)) vs = inr d'.
Proof.
  intros Hothers. revert i st. induction k as [|k IH]; intros i st Hok; simpl; [done|].
  destruct (next_token (a_read (env i))) as [e|token] eqn:Htok; [done|].
  pose proof (defer_safe (a_now (env i)) (d_token d) token (Milliseconds delay) _ (Hothers i st Hok)) as Hsafe.
  destruct (defer_script _ _ _ _ _) as [rep r] eqn:Hcl. simpl in Hsafe.
  destruct (script_code _ rep) as [e|[code vs]] eqn:Hcode; [done|].
  destruct (Z.eqb_spec code 0) as [->|]; [done|].
  destruct (Z.eqb_spec code 1) as [->|]; [|destruct (Z.eqb_spec code 2)]; [| |done].
  - intros [= Hd <-]. exists i, (a_others (env i) st), token, rep, r, vs. split_and!; try done. by apply Hothers.
  - apply IH. by apply (s_envelopes _ _ _ _ _ (along_here _ _ _ _ Hsafe)).
Qed.
End retry.

(** ** A lease along a history *)

(** The writes that reserve a token of [res] or record an outcome of one of [ack]. *)
Definition bounded (res ack : string → Prop) (w : write) : Prop :=
  match w with
  | HSET t _ | ZADD_visibility _ t => res t
  | ZADD_outcomes _ t => ack t
  | _ => True
  end.

Section lease.
Context `{RedisLua}.
Implicit Types (res ack : string → Prop) (r : run).

Lemma bounded_emit res ack now w r :
  bounded res ack w → Forall (bounded res ack) (r_log r) → Forall (bounded res ack) (r_log (emit now w r)).
Proof. intros Hw Hr. by apply Forall_app_2, Forall_singleton. Qed.
Lemma bounded_emit_if res ack now b w r :
  bounded res ack w → Forall (bounded res ack) (r_log r) → Forall (bounded res ack) (r_log (emit_if now b w r)).
Proof. destruct b; [apply bounded_emit|done]. Qed.

Lemma bounded_housekeeping res ack now ttl v r :
  Forall (bounded res ack) (r_log r) → Forall (bounded res ack) (r_log (housekeeping now ttl v r).1).
Proof.
  intros Hr. unfold housekeeping. set (I := λ p : run * bool, Forall (bounded res ack) (r_log p.1)).
  set (r2 := emit_if now (v_ttl_missing v) _ _).
  assert (H2 : Forall (bounded res ack) (r_log r2)) by by repeat apply bounded_emit_if.
  set (r3 := if v_draining v then _ else _).
  assert (H3 : Forall (bounded res ack) (r_log r3))
    by (unfold r3; destruct (v_draining v); [by apply bounded_emit|by apply bounded_emit_if]).
  assert (H4 : I (foldl (repair_step now) (r3, negb (bool_decide (v_expired v = []))) (v_repair v))).
  { apply foldl_inv; [|done]. intros x [r' b] _ Hb. unfold I, repair_step in *. cbn [fst] in Hb.
    repeat case_match; cbn [fst]; auto; repeat apply bounded_emit; done. }
  clearbody r3. destruct (foldl (repair_step now) _ _) as [r4 b4]. unfold I in H4. cbn [fst] in H4.
  assert (H5 : I (foldl (visible_step now) (emit_if now (v_draining v) (ZREM_backlog (v_backlog v)) r4, b4) (v_visible v))).
  { apply foldl_inv; [|by apply bounded_emit_if]. intros x [r' b] _ Hb. unfold I, visible_step in *. cbn [fst] in Hb.
    case_match; cbn [fst]; auto. by apply bounded_emit. }
  destruct (foldl (visible_step now) _ _) as [r5 b5]. cbn [fst]. by repeat apply bounded_emit_if.
Qed.

(** Each operation reserves only the token it is given, and only an
    acknowledgement records an outcome, that of its own token. *)
Lemma bounded_run_op lease_ms now op st :
  Forall (bounded (λ t, names t op) (λ t, op = Ack t)) (r_log (run_op lease_ms now op st)).
Proof.
  destruct op; cbn [run_op].
  - by apply bounded_emit.
  - unfold claim_script. repeat (case_match; [done|]).
    pose proof (bounded_housekeeping (λ t, names t (Claim token)) (λ t, Claim token = Ack t) now key_ttl_ms
      (read_claim now (purge now st)) (mkRun (purge now st) []) (Forall_nil_2 _)) as Hh.
    destruct (housekeeping _ _ _ _) as [r b]. cbn [fst] in Hh.
    unfold reclaim, reserve. repeat case_match; cbn [snd]; auto; repeat apply bounded_emit; done.
  - unfold renew_script. repeat case_match; cbn [snd]; auto; by apply bounded_emit.
  - unfold ack_script, ack_reserved. repeat case_match; cbn [snd]; auto;
      repeat (apply bounded_emit; [done|]); try done; by apply bounded_emit_if.
  - unfold release_script. repeat case_match; cbn [snd]; auto; repeat apply bounded_emit; done.
  - unfold defer_script. repeat case_match; cbn [snd]; auto; repeat apply bounded_emit; simpl; auto.
Qed.

(** Writes that do not reserve [t] leave its deadline or remove it; likewise its outcome. *)
Lemma exec_all_bounded res ack now ws st t :
  Forall (bounded res ack) ws →
  (¬ res t → ∀ s, visibility (exec_all now ws st) !! t = Some s → visibility st !! t = Some s) ∧
  (¬ ack t → ∀ s, outcomes (exec_all now ws st) !! t = Some s → outcomes st !! t = Some s).
Proof.
  intros Hw. revert st. induction Hw as [|w ws Hw _ IH]; intros st; [done|]. cbn [exec_all foldl].
  destruct (IH (exec now w st)) as [IHv IHo]. split; intros Ht s Hs.
  - specialize (IHv Ht s Hs). destruct w; simpl in *; try done;
      [by apply lookup_insert_Some in IHv as [[-> _]|[_ ?]]|by apply lookup_delete_Some in IHv as [_ ?]| |..].
    by destruct (cursor st).
  - specialize (IHo Ht s Hs). destruct w; simpl in *; try done;
      [by apply lookup_insert_Some in IHo as [[-> _]|[_ ?]]| |].
    + rewrite del_all_lookup in IHo. by case_decide.
    + by destruct (cursor st).
Qed.
End lease.

Section held.
Context `{RedisLuaLaws}.
Context (lease_ms : Z) (t e : string) (deadline : Z).

(** The reservation of [t] with its deadline: nothing else is recorded of [t],
    and it is in place while the deadline is ahead. *)
Record held (now : Z) (st : redis) : Prop := {
  h_envelopes : envelopes_ok st;
  h_outcome : outcomes st !! t = None;
  h_deadline : ∀ s, visibility st !! t = Some s → s = deadline;
  h_current : (now < deadline)%Z → inflight st !! t = Some e ∧ visibility st !! t = Some deadline }.

Lemma held_purge now now' st : (now <= now')%Z → held now st → held now' (purge now' st).
Proof.
  intros Hle [Hok Ho Hd Hc]. destruct (purge_same now' st) as (_ & Hi & Hv). split.
  - by apply purge_envelopes_ok.
  - rewrite purge_outcomes_eq. case_match; [by rewrite lookup_empty|done].
  - by rewrite Hv.
  - rewrite Hi, Hv. intros Hlt. apply Hc. lia.
Qed.

Lemma held_step ev now st :
  (now <= ev_now ev)%Z → ¬ names t (ev_op ev) → held now st → held (ev_now ev) (step lease_ms ev st).
Proof.
  intros Hle Hn Hh. pose proof (h_envelopes _ _ Hh) as Hok0. apply (held_purge _ (ev_now ev)) in Hh; [|done].
  assert (Hk : ∃ k, step lease_ms ev st =
    exec_all (ev_now ev) (take k (r_log (run_op lease_ms (ev_now ev) (ev_op ev) st))) (purge (ev_now ev) st)).
  { unfold step. destruct (ev_cut ev) as [k|]; [by exists k|]. eexists (length _). rewrite take_ge by done.
    pose proof (run_op_safe lease_ms (ev_now ev) (ev_op ev) st Hok0) as Hs.
    destruct (ev_op ev); [done|..]; destruct Hs as (own & _ & [Hs _]); exact Hs. }
  destruct Hk as [k Hk]. pose proof (Forall_take _ k _ (bounded_run_op lease_ms (ev_now ev) (ev_op ev) st)) as Hb.
  apply (exec_all_bounded _ _ (ev_now ev) _ (purge (ev_now ev) st) t) in Hb as [Hv Ho]. rewrite <- Hk in Hv, Ho.
  destruct Hh as [Hok Hout Hd Hc]. split.
  - apply (step_copies lease_ms ev st "" now); done.
  - destruct (outcomes (step lease_ms ev st) !! t) as [s|] eqn:Hs; [|done].
    rewrite (Ho ltac:(intros Heq; apply Hn; by rewrite Heq) s eq_refl) in Hout. done.
  - intros s Hs. by apply Hd, Hv.
  - intros Hlt. destruct (Hc Hlt) as [Hi Hvis].
    pose proof (run_op_safe lease_ms (ev_now ev) (ev_op ev) st Hok0) as Hs. destruct (ev_op ev) eqn:Hop.
    { rewrite Hk. simpl. destruct k as [|k]; simpl; rewrite ?take_nil; done. }
    all: destruct Hs as (own & Hown & [_ Hs]); rewrite Hk; apply (s_reserved _ _ _ _ _ (Hs k)); try done;
      [by rewrite Hout|by intros ?%Hown].
Qed.

Lemma held_history evs now st :
  ordered now evs → Forall (λ ev, ¬ names t (ev_op ev)) evs → held now st →
  held (last_time now evs) (history lease_ms evs st).
Proof.
  revert now st. induction evs as [|ev evs IH]; intros now st Ho Hn Hh; [done|].
  destruct Ho as [Hle Ho]. apply Forall_cons in Hn as [Hn Hns]. apply IH; [done..|]. by apply (held_step _ now).
Qed.

Lemma held_reserved now st :
  held now st → reserved now st t = if (now <? deadline)%Z then Some e else None.
Proof.
  intros [_ _ Hd Hc]. unfold reserved. destruct (Z.ltb_spec now deadline) as [Hlt|Hge].
  - destruct (Hc Hlt) as [-> ->]. simpl. destruct (Z.leb_spec deadline now); [lia|done].
  - destruct (inflight st !! t); [|done]. simpl. destruct (visibility st !! t) as [x|] eqn:Hs; [|done]. simpl.
    rewrite (Hd x eq_refl). destruct (Z.leb_spec deadline now); [done|lia].
Qed.
End held.

(** A claim that delivers leaves its token held until the end of its lease. *)
Lemma claim_held `{RedisLuaLaws} now token lease st e d r :
  envelopes_ok st → claim_script now token lease key_ttl_ms st = (inr (delivered token e now d), r) →
  held token e (now + lease) now (r_st r) ∧ token ≠ "" ∧ (0 < lease)%Z.
Proof.
  intros Hok Hcl. pose proof (claim_safe now token lease key_ttl_ms st Hok) as Hs.
  pose proof (claim_token_free now token lease key_ttl_ms st) as Hfree.
  pose proof (bounded_run_op lease now (Claim token) st) as Hb. cbn [run_op] in Hb.
  assert (Htok : token ≠ "").
  { intros ->. unfold claim_script in Hcl. simpl in Hcl. by injection Hcl. }
  rewrite Hcl in Hs, Hfree, Hb. cbn [fst snd] in *. specialize (Hfree _ _ eq_refl).
  apply token_taken_false in Hfree as (_ & _ & Hto & _).
  apply claim_script_post in Hcl as [(m & Hm & _)|[(Hm & _)|[[Hm _]|[(Hm & _)|(e' & Hm & Hl & Hi & Hv)]]]]; try done.
  assert (e' = e) as -> by by injection Hm. split_and!; [|done..]. split.
  - by apply (s_envelopes _ _ _ _ _ (along_here _ _ _ _ Hs)).
  - destruct Hs as [Hst _]. apply (exec_all_bounded _ _ now _ (purge now st) token) in Hb as [_ Ho]. rewrite <- Hst in Ho.
    destruct (outcomes (r_st r) !! token) as [s|]; [|done]. specialize (Ho ltac:(done) s eq_refl). congruence.
  - intros s Hs'. congruence.
  - done.
Qed.
