(* ===== verification/ReliableProps.v ===== *)
(** * Reliable delivery: the properties

    The guarantees of the queue, each with an instance: no payload is lost, a
    reservation holds until its deadline and a stale token changes nothing, a claim respects current reservations, what
    [claim] returns is what is reserved, [claim] makes progress,
    acknowledgements stay on record, and deferred retries. *)

From S2P Require Import Prelude GoText ReliableQueue ReliableInv ReliableThms ReliableHist ReliableClaim.

(** ** A concrete store *)

(** A hash small enough to be scanned in one page. *)
Definition sample_scan (m : gmap string string) (_ : string) (_ : nat) : string * list string :=
  ("0", concat ((λ p : string * string, [p.1; p.2]) <$> map_to_list m)).

#[local] Instance sample_redis : RedisLua := {|
  HSCAN := sample_scan;
  tonumber := ParseUint;
  tostring n := digits (width 13 n) n;
  format_010d := digits 10;
  score_text n := digits (width 13 n) n |}.

#[local] Instance sample_laws : RedisLuaLaws.
Proof.
  split.
  - intros n Hn. apply (ParseUint_digits 9); [done|lia].
  - done.
  - intros n Hn. exists (width 13 n). destruct (width_spec 13 n Hn) as [Hw Hlt]. split; [lia|]. split; [exact Hlt|reflexivity].
  - intros m c n. simpl. induction (map_to_list m) as [|p l IH]; simpl; done.
  - intros m c n t. simpl. intros Ht.
    enough (t ∈ (map_to_list m).*1) as ([u e] & -> & Hin)%list_elem_of_fmap
      by (exists e; by apply elem_of_map_to_list).
    revert Ht. induction (map_to_list m) as [|p l IH]; simpl; [done|]. rewrite !elem_of_cons.
    intros [->|Hin]; [by left|right; by apply IH].
  - done.
Qed.

Definition empty_store : redis := mkRedis [] ∅ ∅ ∅ None None None ∅ None.

Lemma empty_envelopes_ok : envelopes_ok empty_store.
Proof. intros t e He. simpl in He. by rewrite lookup_empty in He. Qed.

(** ** No payload is lost *)

(** C2: along any history of publications, claims, renewals, acknowledgements,
    releases and deferred retries at increasing times, in which any operation
    may have been cut off after any number of its writes, the copies of a
    payload (in the ready list, or in a reservation whose acknowledgement is
    not on record) never number fewer than those at the start and those
    published, less those acknowledged by the holder of a current reservation. *)
Theorem queue_no_loss `{RedisLuaLaws} (lease_ms t0 : Z) (evs : list event) (st : redis) (p : string) :
  envelopes_ok st → ordered t0 evs →
  copies t0 p st + all_published p evs ≤
    copies (last_time t0 evs) p (history lease_ms evs st) + all_acknowledged lease_ms p evs st.
Proof. intros Hok Ho. by apply history_copies. Qed.

(** A claim that is cut off between reserving and taking, a second claim after
    the first has expired, and the acknowledgement of that one. *)
Definition sample_events : list event :=
  [mkEvent 100 (Publish "job") None; mkEvent 100 (Claim "a") (Some 3); mkEvent 200 (Claim "b") None;
   mkEvent 210 (Ack "b") None; mkEvent 300 (Claim "c") None].

Lemma queue_no_loss_witness :
  copies 0 "job" empty_store + all_published "job" sample_events ≤
    copies (last_time 0 sample_events) "job" (history 50 sample_events empty_store) +
    all_acknowledged 50 "job" sample_events empty_store ∧
  all_published "job" sample_events = 1 ∧
  copies (last_time 0 sample_events) "job" (history 50 sample_events empty_store) = 1.
Proof.
  split; [|split; vm_compute; reflexivity].
  apply (queue_no_loss 50 0 sample_events empty_store "job" empty_envelopes_ok). simpl. lia.
Defined.

(** ** Fencing *)

(** What the holder of a current reservation can do, and that of an expired one cannot. *)
Lemma reservation_accepted `{RedisLuaLaws} q started now d st e :
  String.eqb (d_token d) "" = false → (0 < Milliseconds (lease q))%Z →
  envelopes_ok (purge now st) → outcomes (purge now st) !! d_token d = None →
  reserved now (purge now st) (d_token d) = Some e →
  reserved now (purge now st) (d_token d) = Some e ∧
  visibility (renew q started now d st).2 !! d_token d = Some (now + Milliseconds (lease q))%Z ∧
  (release now d st).1 = inr () ∧ (acknowledge now d st).1 = inr ().
Proof.
  intros Htok Hlease Hok Hout Hres. split_and!; [done|..].
  - unfold renew, renew_script. rewrite Htok, (proj2 (Z.leb_gt _ _) Hlease), Hres. simpl. by rewrite lookup_insert_eq.
  - unfold release, release_script. rewrite Htok, Hres. apply reserved_Some in Hres as [Hi _].
    rewrite (valid_envelope_ok e) by by apply (Hok (d_token d)). done.
  - unfold acknowledge, ack_script. rewrite Htok, Hout. cbn [live_outcome orb Z.leb]. unfold ack_reserved. cbn [r_st].
    by rewrite Hres.
Qed.

Lemma reservation_refused `{RedisLua} q started now d st :
  String.eqb (d_token d) "" = false → (0 < Milliseconds (lease q))%Z →
  live_outcome now (outcomes (purge now st) !! d_token d) = false →
  reserved now (purge now st) (d_token d) = None →
  renew q started now d st = (inl ErrDeliveryLeaseLost, purge now st) ∧
  release now d st = (inl ErrDeliveryLeaseLost, purge now st) ∧
  acknowledge now d st = (inl ErrDeliveryLeaseLost, purge now st) ∧
  ∀ new delay, r_log (defer_script now (d_token d) new delay st).2 = [] ∧
    ∀ op vs, script_code op (defer_script now (d_token d) new delay st).1 ≠ inr (1%Z, vs).
Proof.
  intros Htok Hlease Hout Hres. split_and!.
  - unfold renew, renew_script. rewrite Htok, (proj2 (Z.leb_gt _ _) Hlease), Hres. done.
  - unfold release, release_script. rewrite Htok, Hres. done.
  - unfold acknowledge, ack_script. rewrite Htok, Hout. unfold ack_reserved. cbn [r_st]. rewrite Hres. done.
  - intros new delay. unfold defer_script. rewrite Htok, Hres. by repeat case_match.
Qed.

(** C16: a claim's reservation is honoured exactly until its deadline. After a
    claim has delivered a token, let any other operations run, each of them
    whole or cut off after any of its writes (claims that take the payload over
    included), none of which uses this token. While the lease lasts the
    reservation is in place with the envelope that was delivered: it can be
    renewed, released and acknowledged. From the deadline on, whether or not
    another client has taken the payload over, the holder is told that the
    lease is lost and writes nothing: it can neither renew, release nor
    acknowledge, and a deferred retry does not succeed either. *)
Theorem queue_fencing `{RedisLuaLaws} (q : reliableQueue) (lease_ms t0 started now deadline : Z) (d : reliableDelivery)
    (e : string) (st : redis) (r : run) (evs : list event) :
  envelopes_ok st →
  claim_script t0 (d_token d) (Milliseconds (lease q)) key_ttl_ms st = (inr (delivered (d_token d) e t0 deadline), r) →
  ordered t0 evs → Forall (λ ev, ¬ names (d_token d) (ev_op ev)) evs → (last_time t0 evs <= now)%Z →
  let st' := history lease_ms evs (r_st r) in
  if (now <? t0 + Milliseconds (lease q))%Z then
    reserved now (purge now st') (d_token d) = Some e ∧
    visibility (renew q started now d st').2 !! d_token d = Some (now + Milliseconds (lease q))%Z ∧
    (release now d st').1 = inr () ∧ (acknowledge now d st').1 = inr ()
  else
    renew q started now d st' = (inl ErrDeliveryLeaseLost, purge now st') ∧
    release now d st' = (inl ErrDeliveryLeaseLost, purge now st') ∧
    acknowledge now d st' = (inl ErrDeliveryLeaseLost, purge now st') ∧
    ∀ new delay, r_log (defer_script now (d_token d) new delay st').2 = [] ∧
      ∀ op vs, script_code op (defer_script now (d_token d) new delay st').1 ≠ inr (1%Z, vs).
Proof.
  intros Hok Hcl Ho Hn Hle st'. destruct (claim_held _ _ _ _ _ _ _ Hok Hcl) as (Hh & Htok & Hlease).
  apply (held_history lease_ms _ _ _ evs) in Hh; [|done..]. apply (held_purge _ _ _ _ now) in Hh; [|done].
  fold st' in Hh. pose proof (held_reserved _ _ _ _ _ Hh) as Hres. apply String.eqb_neq in Htok.
  destruct (now <? t0 + Milliseconds (lease q))%Z.
  - apply reservation_accepted; try done; apply Hh.
  - apply reservation_refused; try done. by rewrite (h_outcome _ _ _ _ _ Hh).
Qed.

(** A reservation of "b" that has expired at 250. *)
Definition sample_store : redis := history 50 (take 3 sample_events) empty_store.
Lemma sample_envelopes_ok : envelopes_ok sample_store.
Proof.
  apply (history_copies 50 (take 3 sample_events) empty_store "" 0); [exact empty_envelopes_ok|simpl; lia].
Qed.
Lemma sample_start_ok : envelopes_ok (history 50 (take 2 sample_events) empty_store).
Proof.
  apply (history_copies 50 (take 2 sample_events) empty_store "" 0); [exact empty_envelopes_ok|simpl; lia].
Qed.
Definition sample_delivery : reliableDelivery := mkDelivery "b" "job" 0 200 250 250.

(** Another claim finds nothing, and the holder comes back in time. A claim by
    "c" after the deadline takes the payload over, and the holder is refused. *)
Definition sample_others : list event := [mkEvent 210 (Publish "other") None; mkEvent 220 (Claim "c") (Some 2)].
Definition sample_takeover : list event := [mkEvent 255 (Claim "c") None].

Lemma sample_claim_b :
  claim_script 200 "b" 50 key_ttl_ms (history 50 (take 2 sample_events) empty_store)
  = (inr (delivered "b" (envelope 0 "job") 200 250), (claim_script 200 "b" 50 key_ttl_ms (history 50 (take 2 sample_events) empty_store)).2).
Proof. vm_compute. reflexivity. Qed.

Lemma queue_fencing_witness :
  (acknowledge 240 sample_delivery (history 50 sample_others sample_store)).1 = inr () ∧
  renew (mkQueue 50000000) 0 260 sample_delivery (history 50 sample_takeover sample_store)
  = (inl ErrDeliveryLeaseLost, purge 260 (history 50 sample_takeover sample_store)).
Proof.
  split.
  - apply (queue_fencing (mkQueue 50000000) 50 200 0 240 250 sample_delivery (envelope 0 "job")
      (history 50 (take 2 sample_events) empty_store) _ sample_others sample_start_ok sample_claim_b);
      [simpl; lia|repeat (constructor; [intros Hx; by simpl in Hx|]); constructor|simpl; lia].
  - apply (queue_fencing (mkQueue 50000000) 50 200 0 260 250 sample_delivery (envelope 0 "job")
      (history 50 (take 2 sample_events) empty_store) _ sample_takeover sample_start_ok sample_claim_b);
      [simpl; lia|repeat (constructor; [intros Hx; by simpl in Hx|]); constructor|simpl; lia].
Defined.

(** ** Claims respect reservations *)

(** C24: whatever the state, a claim leaves a reservation that has not expired
    and has not been acknowledged as it is, envelope and deadline, after each
    of its writes; and it never hands that reservation's token out. *)
Theorem queue_exclusive `{RedisLuaLaws} (now lease_ms ttl : Z) (token : string) (st : redis) (t e : string) (s : Z) (n : nat) :
  envelopes_ok st → inflight st !! t = Some e → visibility st !! t = Some s → (now < s)%Z →
  live_outcome now (outcomes (purge now st) !! t) = false →
  let '(rep, r) := claim_script now token lease_ms ttl st in
  let st' := exec_all now (take n (r_log r)) (purge now st) in
  inflight st' !! t = Some e ∧ visibility st' !! t = Some s ∧
  ∀ e' deadline, rep = inr (delivered token e' now deadline) → token ≠ t.
Proof.
  intros Hok Hi Hv Hlt Ho. pose proof (claim_safe now token lease_ms ttl st Hok) as [_ Hs].
  pose proof (claim_token_free now token lease_ms ttl st) as Hfree.
  destruct (claim_script _ _ _ _ _) as [rep r]. destruct (purge_same now st) as (_ & Hpi & Hpv).
  destruct (s_reserved _ _ _ _ _ (Hs n) t e s) as [H1 H2]; try done; [by rewrite Hpi|by rewrite Hpv|tauto|].
  split_and!; [done|done|]. intros e' deadline -> ->.
  specialize (Hfree _ _ eq_refl). apply token_taken_false in Hfree as (Hn & _). congruence.
Qed.

Lemma queue_exclusive_witness :
  let '(rep, r) := claim_script 220 "c" 50 90000000 sample_store in
  let st' := exec_all 220 (take 9 (r_log r)) (purge 220 sample_store) in
  inflight st' !! "b" = Some (envelope 0 "job") ∧ visibility st' !! "b" = Some 250%Z ∧
  ∀ e' deadline, rep = inr (delivered "c" e' 220 deadline) → "c" ≠ "b".
Proof.
  apply (queue_exclusive 220 50 90000000 "c" sample_store "b" (envelope 0 "job") 250 9);
    [apply sample_envelopes_ok|vm_compute; done..].
Defined.

(** ** What [claim] returns *)

(** When [claim] returns a delivery, whatever the other clients do in the
    meantime, its token is the one drawn in the successful attempt; in the
    state that attempt leaves, the token's reservation is current, its envelope
    decodes to the delivery's failure count and payload, and its deadline is
    the delivery's; and the client's own confirmation ends one lease after it
    sent the request, never later than the server's deadline. *)
Theorem queue_claim_delivery `{RedisLuaLaws} (q : reliableQueue) (env : nat → attempt) (st st' : redis) (d : reliableDelivery) :
  (∀ i, in_range (a_now (env i)) (a_now (env i) + Milliseconds (lease q))) →
  claim q env st = (inr (Some d), st') →
  ∃ i e, let a := env i in
    next_token (a_read a) = inr (d_token d) ∧
    reserved (a_now a) st' (d_token d) = Some e ∧
    decodeReliableEnvelope e = Some (d_failures d, d_payload d) ∧
    visibility st' !! d_token d = Some (d_deadline d) ∧
    d_serverTime d = a_now a ∧ d_deadline d = (a_now a + Milliseconds (lease q))%Z ∧
    d_confirmedUntil d = (a_started a + (d_deadline d - a_now a) * 1000000)%Z.
Proof.
  intros Htimes Hcl. destruct (claim_loop_call _ _ _ _ _ _ _ Hcl) as (i & st0 & token & rep & r & Htok & Hsc & -> & code & vs & Hcode & -> & Hd).
  destruct (claim_script_post _ _ _ _ _ _ _ Hsc) as [(m & -> & _)|[(-> & _)|[[-> _]|[(-> & _)|(e & -> & Hpos & Hi & Hv)]]]]; try done.
  injection Hcode as <-. destruct (delivery_of_decodes _ _ _ _ _ _ _ Hd) as [He Ht].
  rewrite (delivery_of_delivered _ _ _ _ _ _ _ _ (Htimes i) He) in Hd. injection Hd as <-. simpl in *.
  exists i, e. split_and!; try done. unfold reserved. rewrite Hi, Hv. simpl. by rewrite (proj2 (Z.leb_gt _ _)) by lia.
Qed.

(** Attempts a second apart with tokens drawn from a counter. *)
Definition sample_env (i : nat) : attempt :=
  mkAttempt (Some (repeat (Z.of_nat i) 16)) (5 + Z.of_nat i) (1000 + 1000 * Z.of_nat i) (λ st, st).
Definition sample_ready : redis := set_ready ["job"] empty_store.
Definition sample_queue : reliableQueue := newReliableQueue 0.
Definition sample_token : string := "00000000000000000000000000000000".

Lemma sample_in_range i :
  i < 600 → in_range (a_now (sample_env i)) (a_now (sample_env i) + Milliseconds (lease sample_queue)).
Proof. intros Hi. unfold in_range. change (Milliseconds (lease sample_queue)) with 30000%Z. simpl. lia. Qed.

Lemma sample_claim :
  claim sample_queue (λ i, sample_env (i mod 600)) sample_ready =
    (inr (Some (mkDelivery sample_token "job" 0 1000 31000 30000000005)),
     snd (claim sample_queue (λ i, sample_env (i mod 600)) sample_ready)).
Proof. vm_compute. reflexivity. Qed.

Lemma queue_claim_delivery_witness :
  ∃ i e, let a := sample_env (i mod 600) in
    next_token (a_read a) = inr sample_token ∧
    reserved (a_now a) (snd (claim sample_queue (λ i, sample_env (i mod 600)) sample_ready)) sample_token = Some e ∧
    decodeReliableEnvelope e = Some (0%Z, "job").
Proof.
  destruct (queue_claim_delivery sample_queue (λ i, sample_env (i mod 600)) sample_ready _ _
    (λ i, sample_in_range (i mod 600) (Nat.mod_upper_bound i 600 ltac:(lia))) sample_claim)
    as (i & e & Htok & Hres & Hdec & _).
  exists i, e. split; [exact Htok|]. split; [exact Hres|exact Hdec].
Defined.

(** ** Progress *)

(** C30: with no other client about, tokens that nobody holds, well-formed
    envelopes and fewer than 128 entries in the outcomes, the deadlines and the
    reservations together, [claim] never gives up: it returns a delivery, or it
    returns that there is none, and then the ready list is empty and no
    reservation has expired at the time of the last attempt. *)
Theorem queue_claim_progress `{RedisLuaLaws} (q : reliableQueue) (env : nat → attempt) (fresh : string → Prop) (st : redis) :
  (∀ i st, a_others (env i) st = st) →
  (∀ i, ∃ token, next_token (a_read (env i)) = inr token ∧ fresh token ∧ token ≠ "") →
  (0 < Milliseconds (lease q))%Z →
  (∀ i, in_range (a_now (env i)) (a_now (env i) + Milliseconds (lease q))) →
  claimable fresh st → entries st < maxClaimReconciliations →
  ∃ od st', claim q env st = (inr od, st') ∧
    (od = None → ready st' = [] ∧ ∃ j, none_due (a_now (env j)) st').
Proof. intros Hothers Htokens Hlease Htimes Hst Hlt. by apply (claim_loop_alone q env fresh). Qed.

(** An expired reservation without an envelope, to be repaired first. *)
Definition sample_repair : redis := set_visibility {[ "x" := 7%Z ]} sample_ready.

Lemma queue_claim_progress_witness :
  ∃ od st', claim sample_queue (λ i, sample_env (i mod 600)) sample_repair = (inr od, st') ∧
    (od = None → ready st' = [] ∧ ∃ j, none_due (a_now (sample_env (j mod 600))) st').
Proof.
  apply (queue_claim_progress sample_queue (λ i, sample_env (i mod 600)) (λ t, t ≠ "" ∧ t ≠ "x") sample_repair).
  - intros i st. reflexivity.
  - intros i. eexists. split; [reflexivity|]. split; [split|]; discriminate.
  - vm_compute. reflexivity.
  - intros i. apply sample_in_range, Nat.mod_upper_bound. lia.
  - split; [|split; [intros t e; simpl; by rewrite lookup_empty|reflexivity]].
    intros t [_ Hx]. unfold token_taken. rewrite !orb_false_iff, !mem_false. simpl.
    rewrite !lookup_empty, lookup_singleton_ne by done. done.
  - vm_compute. lia.
Defined.

(** ** Acknowledgements stay on record *)

Lemma acknowledge_records `{RedisLua} now d st e :
  d_token d ≠ "" → reserved now (purge now st) (d_token d) = Some e →
  live_outcome now (outcomes (purge now st) !! d_token d) = false →
  acknowledge now d st = (inr tt, r_st (ack_script now (d_token d) retention_ms key_ttl_ms st).2) ∧
  outcomes (r_st (ack_script now (d_token d) retention_ms key_ttl_ms st).2) !! d_token d = Some (now + retention_ms)%Z.
Proof.
  intros Htok%String.eqb_neq Hres Hout. unfold acknowledge, ack_script. rewrite Htok, Hout.
  change (Milliseconds ackOutcomeRetention) with retention_ms. change (Milliseconds ackOutcomeKeyTTL) with key_ttl_ms.
  unfold ack_reserved. cbn [r_st orb]. rewrite Hres. split; [done|].
  destruct (negb _); simpl; apply lookup_insert_eq.
Qed.

(** Once the holder of a current reservation has acknowledged it, then
    through any later history of whole operations at increasing times, at every
    moment within the retention of 24 hours, acknowledging again succeeds
    again and the token is not given to anybody else: a claim that draws it is
    told of the collision. *)
Theorem queue_ack_evidence `{RedisLuaLaws} (lease_ms t0 now t : Z) (d : reliableDelivery) (st : redis) (e : string) (evs : list event) :
  ev_ok t0 (outs st) → (t0 <= now)%Z → d_token d ≠ "" →
  reserved now (purge now st) (d_token d) = Some e →
  live_outcome now (outcomes (purge now st) !! d_token d) = false →
  complete evs → ordered now evs → (last_time now evs <= t < now + retention_ms)%Z → (0 < lease_ms)%Z →
  fst (acknowledge now d st) = inr tt ∧
  let st' := history lease_ms evs (snd (acknowledge now d st)) in
  fst (acknowledge t d st') = inr tt ∧ (claim_script t (d_token d) lease_ms key_ttl_ms st').1 = inr [VInt 2].
Proof.
  intros Hev Ht0 Htok Hres Hout Hc Ho Ht Hl.
  destruct (acknowledge_records now d st e Htok Hres Hout) as [-> Hrec]. split; [done|]. intros st'.
  destruct (ev_purge t0 now st Hev Ht0) as [Hev1 _]. destruct (ack_outcomes now (d_token d) st Hev1) as [Hev2 _].
  destruct (history_outcomes lease_ms evs _ now Hc Ho Hev2) as [Hev3 Hkeep]. fold st' in Hev3.
  pose proof (Hkeep (d_token d) (now + retention_ms)%Z ltac:(lia) Hrec) as Hrec'. fold st' in Hrec'.
  destruct (ev_purge _ t st' Hev3 (proj1 Ht)) as [_ Hkeep']. pose proof (Hkeep' _ _ (proj2 Ht) Hrec') as Hrec''.
  apply String.eqb_neq in Htok. split.
  - unfold acknowledge, ack_script. rewrite Htok, Hrec''. simpl. by rewrite (proj2 (Z.ltb_lt _ _) (proj2 Ht)).
  - unfold claim_script. rewrite Htok, (proj2 (Z.leb_gt _ _) Hl). unfold token_taken.
    rewrite (proj2 (mem_true _ (outcomes _))) by by eexists. by rewrite orb_true_r.
Qed.

Lemma queue_ack_evidence_witness :
  fst (acknowledge 220 sample_delivery sample_store) = inr tt ∧
  let st' := history 50 [mkEvent 300 (Claim "c") None; mkEvent 310 (Release "c") None]
               (snd (acknowledge 220 sample_delivery sample_store)) in
  fst (acknowledge 400 sample_delivery st') = inr tt ∧ (claim_script 400 "b" 50 key_ttl_ms st').1 = inr [VInt 2].
Proof.
  apply (queue_ack_evidence 50 200 220 400 sample_delivery sample_store (envelope 0 "job")).
  - change (outs sample_store) with (outs empty_store). split; simpl; intros t s; rewrite lookup_empty; discriminate.
  - lia.
  - discriminate.
  - vm_compute. reflexivity.
  - vm_compute. reflexivity.
  - repeat constructor.
  - simpl. lia.
  - vm_compute. split; [discriminate|reflexivity].
  - lia.
Defined.

(** ** Deferred retries *)

(** When [deferRetry] returns a delivery, the old token's reservation was
    current, with failure count [n] and payload [p]; now the old token is gone
    and the new one holds exactly [p] with the count one higher (up to
    9999999999); and it becomes claimable after a delay between 0.8 and 1.2
    times 2^failures seconds, the exponent capped at 6, the base at 60 s, and
    the delay itself at 60 s. *)
Theorem queue_retry `{RedisLuaLaws} (sha256 : list Z → list Z) (env : nat → attempt) (d d' : reliableDelivery) (st st' : redis) :
  (∀ m, Forall (λ b, (0 <= b < 256)%Z) (sha256 m)) →
  (∀ i st, envelopes_ok st → envelopes_ok (a_others (env i) st)) → envelopes_ok st → (0 <= d_failures d)%Z →
  deferRetry sha256 env d st = (inr d', st') →
  ∃ now st0 n p delay,
    reserved now st0 (d_token d) = Some (envelope n p) ∧
    d_payload d' = p ∧ d_failures d' = Z.min (n + 1) 9999999999 ∧
    inflight st' = delete (d_token d) (<[d_token d' := envelope (d_failures d') p]> (inflight st0)) ∧
    visibility st' = delete (d_token d) (<[d_token d' := (now + delay)%Z]> (visibility st0)) ∧
    (800 * base_seconds (d_failures d) <= delay <= Z.min (1200 * base_seconds (d_failures d)) 60000)%Z.
Proof.
  intros Hsha Hothers Hok Hf Hd.
  destruct (defer_attempts_call _ _ _ _ _ _ _ _ Hothers Hok Hd)
    as (j & st0 & new & rep & r & vs & Hok0 & Hsc & -> & Hcode & Hdel).
  destruct (defer_script_post _ _ _ _ _ _ _ _ Hok0 Hsc Hcode) as (n & p & Hn & Hres & -> & Hi & Hv).
  destruct (delivery_of_decodes _ _ _ _ _ _ _ Hdel) as [Hdec Htok]. rewrite decode_envelope in Hdec by lia.
  injection Hdec as Hfail Hpay. rewrite <- Hfail, <- Hpay, Htok in *.
  exists (a_now (env j)), (purge (a_now (env j)) st0), n, p, (Milliseconds (reliableRetryDelay sha256 (d_failures d) (d_payload d))).
  split_and!; try done; unfold Milliseconds;
    pose proof (retry_delay_bounds sha256 Hsha (d_failures d) (d_payload d) Hf) as Hb;
    assert (0 <= base_seconds (d_failures d))%Z by (unfold base_seconds; pose proof (Z.pow_nonneg 2 (Z.min (d_failures d) 6)); lia);
    rewrite Z.quot_div_nonneg by lia.
  - apply Z.div_le_lower_bound; lia.
  - apply Z.min_glb; apply Z.div_le_upper_bound; lia.
Qed.

Definition sample_sha (_ : list Z) : list Z := repeat 255%Z 32.
Definition sample_deferred : reliableDelivery * redis :=
  match deferRetry sample_sha (λ _, mkAttempt (Some (repeat 1%Z 16)) 0 220 (λ st, st)) sample_delivery sample_store with
  | (inr d, st) => (d, st)
  | (inl _, st) => (sample_delivery, st)
  end.

Lemma queue_retry_witness :
  d_failures sample_deferred.1 = 1%Z ∧
  ∃ now st0 n p delay,
    reserved now st0 "b" = Some (envelope n p) ∧
    d_payload sample_deferred.1 = p ∧ d_failures sample_deferred.1 = Z.min (n + 1) 9999999999 ∧
    inflight sample_deferred.2 =
      delete "b" (<[d_token sample_deferred.1 := envelope (d_failures sample_deferred.1) p]> (inflight st0)) ∧
    visibility sample_deferred.2 = delete "b" (<[d_token sample_deferred.1 := (now + delay)%Z]> (visibility st0)) ∧
    (800 * base_seconds 0 <= delay <= Z.min (1200 * base_seconds 0) 60000)%Z.
Proof.
  split; [vm_compute; reflexivity|].
  apply (queue_retry sample_sha (λ _, mkAttempt (Some (repeat 1%Z 16)) 0 220 (λ st, st)) sample_delivery sample_deferred.1 sample_store).
  - intros m. apply list.Forall_forall. intros b Hb%list_elem_of_In%repeat_spec. lia.
  - intros i st Hst. exact Hst.
  - exact sample_envelopes_ok.
  - simpl. lia.
  - vm_compute. reflexivity.
Defined.
