(* ===== verification/ReliableKeys.v ===== *)
(** * Reliable delivery: the keys of a queue

    Model of distributed/controller/controller_redis/reliable_keys.go: the hash
    tag and the cluster slot of a key, the search for a tag of a given slot
    with its cache, and the derivation of the six keys.  A panic is [None].
    SHA-256 is a parameter. *)

From S2P Require Import Prelude GoText ReliableQueue ReliableInv.
From Stdlib Require Import Strings.Byte Strings.Ascii.

Definition redisHashTag (key : string) : option string :=
  match IndexByte key "{" with
  | None => None
  | Some open =>
      if bool_decide (String.length key <= open + 1) then None
      else
        let rest := str_drop (open + 1) key in
        match IndexByte rest "}" with
        | None | Some O => None
        | Some closeOffset => Some (str_take closeOffset rest)
        end
  end.

Definition crc_bit (crc : Z) : Z :=
  if negb (Z.land crc 32768 =? 0)%Z then Z.lxor (wrapu 16 (Z.shiftl crc 1)) 4129 else wrapu 16 (Z.shiftl crc 1).
Definition crc_byte (crc b : Z) : Z := Nat.iter 8 crc_bit (Z.lxor crc (wrapu 16 (Z.shiftl b 8))).
Definition redisCRC16 (data : list Z) : Z := foldl crc_byte 0%Z data.

Definition redisClusterSlot (key : string) : Z :=
  let key := default key (redisHashTag key) in
  (redisCRC16 (bytes_of key) mod 16384)%Z.

(** ['%x'] of a non-negative number. *)
Fixpoint hex_number (fuel : nat) (n : Z) (acc : string) : string :=
  match fuel with
  | O => acc
  | S f =>
      let acc := String (hex_digit (n mod 16)) acc in
      if (n <? 16)%Z then acc else hex_number f (n / 16) acc
  end.
Definition tag_of (candidate : Z) : string := "gkit-" +:+ hex_number 8 candidate "".

Fixpoint find_tag (fuel : nat) (candidate slot : Z) : option string :=
  match fuel with
  | O => None
  | S f =>
      let tag := tag_of candidate in
      if (redisCRC16 (bytes_of tag) mod 16384 =? slot)%Z then Some tag else find_tag f (candidate + 1) slot
  end.
Definition findReliableTagForSlot (slot : Z) : option string := find_tag (Z.to_nat 131072) 0 slot.

Definition reliableTagForSlot (slot : Z) (tags : gmap Z string) : option (string * gmap Z string) :=
  if (slot <? 0)%Z || (16384 <=? slot)%Z then None
  else
    let cached := default "" (tags !! slot) in
    if negb (String.eqb cached "") then Some (cached, tags)
    else
      tag ← findReliableTagForSlot slot;
      if (16384 <=? Z.of_nat (size tags))%Z then None else Some (tag, <[slot := tag]> tags).

Record reliableQueueKeys := mkKeys {
  k_ready : string; k_inflight : string; k_visibility : string; k_outcomes : string;
  k_repairCursor : string; k_repairBacklog : string; k_prefix : string }.

Section derive.
Context (sha256 : list Z → list Z).

Definition keys_of (queue tag : string) : reliableQueueKeys :=
  let prefix := "{" +:+ tag +:+ "}:gkit:" +:+ EncodeToString (sha256 (bytes_of queue)) in
  mkKeys queue (prefix +:+ ":inflight") (prefix +:+ ":visibility") (prefix +:+ ":ack-outcomes")
    (prefix +:+ ":repair-cursor") (prefix +:+ ":repair-backlog") prefix.

Definition deriveReliableQueueKeys (queue : string) (tags : gmap Z string)
    : option (reliableQueueKeys * gmap Z string) :=
  match redisHashTag queue with
  | Some tag => Some (keys_of queue tag, tags)
  | None =>
      '(tag, tags) ← reliableTagForSlot (redisClusterSlot queue) tags;
      Some (keys_of queue tag, tags)
  end.
End derive.

(** ** Hash tags *)

(** A tag in braces at the front of a key is the key's tag. *)
Definition good_tag (tag : string) : Prop := tag ≠ "" ∧ lacks "}" tag = true.

Lemma redisHashTag_braces tag rest :
  good_tag tag → redisHashTag ("{" +:+ tag +:+ String "}" rest) = Some tag.
Proof.
  intros [Hne Hl]. unfold redisHashTag.
  assert (IndexByte ("{" +:+ tag +:+ String "}" rest) "{" = Some 0) as -> by done.
  rewrite bool_decide_false by (rewrite !str_length_app; simpl; lia).
  cbv zeta. change (str_drop (0 + 1) ("{" +:+ tag +:+ String "}" rest)) with (str_drop 0 (tag +:+ String "}" rest)).
  cbn [str_drop]. rewrite IndexByte_app by done.
  destruct (String.length tag) as [|n] eqn:Hn; [by destruct tag|]. rewrite <- Hn. by rewrite str_take_app.
Qed.

Lemma redisHashTag_good key tag : redisHashTag key = Some tag → good_tag tag.
Proof.
  unfold redisHashTag. destruct (IndexByte key "{"); [|done]. case_bool_decide; [done|].
  destruct (IndexByte (str_drop _ key) "}") as [[|k]|] eqn:Hi; [done| |done]. intros Ht.
  destruct (IndexByte_take _ _ _ Hi) as [Hl Hn]. set (u := str_take (S k) _) in *. clearbody u.
  injection Ht as ->. split; [|done]. intros ->. done.
Qed.

Lemma hex_digit_not_brace n : (0 <= n < 16)%Z → Ascii.eqb (hex_digit n) "}" = false.
Proof.
  intros Hn. assert (n = 0 ∨ n = 1 ∨ n = 2 ∨ n = 3 ∨ n = 4 ∨ n = 5 ∨ n = 6 ∨ n = 7 ∨ n = 8 ∨ n = 9 ∨
    n = 10 ∨ n = 11 ∨ n = 12 ∨ n = 13 ∨ n = 14 ∨ n = 15)%Z as Hc by lia. by destruct_or! Hc; subst n.
Qed.

Lemma lacks_hex fuel n acc : lacks "}" acc = true → lacks "}" (hex_number fuel n acc) = true.
Proof.
  revert n acc. induction fuel as [|f IH]; intros n acc Hacc; cbn [hex_number]; [done|].
  assert (Hl : lacks "}" (String (hex_digit (n mod 16)) acc) = true).
  { cbn [lacks]. rewrite hex_digit_not_brace, Hacc by (apply Z.mod_pos_bound; lia). done. }
  case_match; [done|by apply IH].
Qed.

(** ** Slots *)

(** The tags that the search finds and the cache holds. *)
Definition tag_for (slot : Z) (tag : string) : Prop :=
  good_tag tag ∧ (redisCRC16 (bytes_of tag) mod 16384)%Z = slot.
Definition tags_ok (tags : gmap Z string) : Prop := ∀ slot tag, tags !! slot = Some tag → tag_for slot tag.

Lemma tag_of_good n : good_tag (tag_of n).
Proof. split; [done|]. change (lacks "}" (hex_number 8 n "") = true). by apply lacks_hex. Qed.

Lemma find_tag_spec fuel n slot tag : find_tag fuel n slot = Some tag → tag_for slot tag.
Proof.
  revert n. induction fuel as [|f IH]; intros n; cbn [find_tag]; [done|].
  destruct (Z.eqb_spec (redisCRC16 (bytes_of (tag_of n)) mod 16384) slot); [|apply IH].
  intros [= <-]. split; [apply tag_of_good|done].
Qed.

Lemma findReliableTagForSlot_spec slot tag : findReliableTagForSlot slot = Some tag → tag_for slot tag.
Proof. unfold findReliableTagForSlot. generalize (Z.to_nat 131072). intros fuel. apply find_tag_spec. Qed.

Lemma reliableTagForSlot_spec slot tags tag tags' :
  tags_ok tags → reliableTagForSlot slot tags = Some (tag, tags') → tag_for slot tag ∧ tags_ok tags'.
Proof.
  intros Hok. unfold reliableTagForSlot. case_match; [done|].
  destruct (negb (String.eqb (default "" (tags !! slot)) "")) eqn:Hc.
  - intros [= <- <-]. split; [|done]. destruct (tags !! slot) as [t|] eqn:Ht; [|done]. by apply Hok.
  - intros He. inv_bind He. case_match; [done|]. injection He as -> <-.
    assert (Hf : tag_for slot tag) by by apply findReliableTagForSlot_spec.
    split; [done|]. intros s t [[<- <-]|[_ Ht]]%lookup_insert_Some; [done|by apply Hok].
Qed.

Lemma slot_braces tag rest slot :
  tag_for slot tag → redisClusterSlot ("{" +:+ tag +:+ String "}" rest) = slot.
Proof. intros [Hg Hs]. unfold redisClusterSlot. by rewrite redisHashTag_braces. Qed.

Lemma keys_of_slots sha256 queue tag :
  tag_for (redisClusterSlot queue) tag →
  Forall (λ key, redisClusterSlot key = redisClusterSlot queue)
    [k_ready (keys_of sha256 queue tag); k_inflight (keys_of sha256 queue tag); k_visibility (keys_of sha256 queue tag);
     k_outcomes (keys_of sha256 queue tag); k_repairCursor (keys_of sha256 queue tag); k_repairBacklog (keys_of sha256 queue tag)].
Proof.
  intros Ht. unfold keys_of. simpl. repeat (apply list.Forall_cons; split); [done|..|by apply list.Forall_nil].
  all: rewrite !str_app_assoc; by apply slot_braces.
Qed.

(** The six keys of a queue lie in one cluster slot, that of the queue's
    own key, whether the queue's name carries a hash tag or a tag of its slot
    is searched for or found in the cache; the cache stays correct; and a
    queue with a hash tag of its own always has its keys, without a search. *)
Theorem keys_same_slot (sha256 : list Z → list Z) (queue : string) (tags : gmap Z string) :
  tags_ok tags →
  (∀ k tags', deriveReliableQueueKeys sha256 queue tags = Some (k, tags') →
    tags_ok tags' ∧ k_ready k = queue ∧
    Forall (λ key, redisClusterSlot key = redisClusterSlot queue)
      [k_ready k; k_inflight k; k_visibility k; k_outcomes k; k_repairCursor k; k_repairBacklog k]) ∧
  (is_Some (redisHashTag queue) → is_Some (deriveReliableQueueKeys sha256 queue tags)).
Proof.
  intros Hok. unfold deriveReliableQueueKeys. destruct (redisHashTag queue) as [tag|] eqn:Htag.
  - split; [|by eexists]. intros k tags' [= <- <-]. split_and!; [done|done|]. apply keys_of_slots. split.
    + by eapply redisHashTag_good.
    + unfold redisClusterSlot. by rewrite Htag.
  - split; [|by intros []]. intros k tags'.
    destruct (reliableTagForSlot (redisClusterSlot queue) tags) as [[tag tags1]|] eqn:He; simpl; [|done].
    intros [= <- <-]. apply reliableTagForSlot_spec in He as [Ht Hok']; [|done]. split_and!; [done|done|by apply keys_of_slots].
Qed.

Lemma keys_same_slot_witness :
  redisClusterSlot "{1}:gkit:00:inflight" = redisClusterSlot "jobs{1}" ∧
  is_Some (deriveReliableQueueKeys (λ _, [0%Z]) "jobs{1}" ∅).
Proof.
  assert (Hok : tags_ok ∅) by (intros slot tag Ht; rewrite lookup_empty in Ht; discriminate).
  destruct (keys_same_slot (λ _, [0%Z]) "jobs{1}" ∅ Hok) as [Hkeys Htag].
  split; [|apply Htag; by eexists].
  destruct (Hkeys _ _ eq_refl) as (_ & _ & Hall). apply list.Forall_cons in Hall as [_ Hall].
  apply list.Forall_cons in Hall as [Hin _]. exact Hin.
Defined.
