(* ===== verification/LocalCache.v ===== *)
(** * The local cache

    Model of cache/local_cache: entries with an expiry in nanoseconds (0 for
    none), kept in a map under a lock.  Every critical section is one function
    of the state and of the clock; operations that take the lock more than once
    ([Get], [GetWithExpire], [Iterator]) also take what other goroutines do in
    between.  An operation returns its result, the new state and the calls of
    the capture function it makes, in order, after releasing the lock.  Where
    the code ranges over the map the order of the keys is an argument.  Gob
    encoding is a parameter: [Load] takes what the decoder gives. *)

From S2P Require Import Prelude GoFloat.
From Stdlib Require Import Floats.SpecFloat.

(** ** Values *)

Inductive ikind := KInt | KInt8 | KInt16 | KInt32 | KInt64 | KUint | KUintptr | KUint8 | KUint16 | KUint32 | KUint64.

Definition isigned (k : ikind) : bool :=
  match k with KInt | KInt8 | KInt16 | KInt32 | KInt64 => true | _ => false end.
Definition iwidth (k : ikind) : Z :=
  match k with
  | KInt8 | KUint8 => 8
  | KInt16 | KUint16 => 16
  | KInt32 | KUint32 => 32
  | _ => 64
  end.

(** Conversion to an integer type. *)
Definition conv (k : ikind) (n : Z) : Z := if isigned k then wraps (iwidth k) n else wrapu (iwidth k) n.

(** [VOther] stands for the values of all other types. *)
Inductive val := VI (k : ikind) (n : Z) | VF32 (x : spec_float) | VF64 (x : spec_float) | VOther (v : string).

Definition f32_add (x y : spec_float) : spec_float := SFadd 24 128 x y.
Definition f32_sub (x y : spec_float) : spec_float := SFsub 24 128 x y.
Definition f32_of_Z (n : Z) : spec_float := binary_normalize 24 128 n 0 false.
Definition f32_of_f64 (x : spec_float) : spec_float :=
  match x with
  | S754_finite s m e => binary_normalize 24 128 (if s then Zneg m else Zpos m) e s
  | _ => x
  end.

Inductive cache_error := CacheExist | CacheNoExist | CacheExpire | CacheTypeErr.

(** ** The state *)

Record Iterator := mkIter { Val : val; Expire : Z }.

(** [Expired] at the time [now]. *)
Definition Expired (now : Z) (i : Iterator) : bool := if (Expire i =? 0)%Z then false else (Expire i <? now)%Z.

(** [capture] is the function installed, by number, or nil. *)
Record cache := mkCache { defaultExpire : Z; member : gmap string Iterator; capture : option nat }.
Definition set_member (m : gmap string Iterator) (c : cache) : cache := mkCache (defaultExpire c) m (capture c).

(** A call of a capture function with a key and a value. *)
Record call := mkCall { call_fn : nat; call_key : string; call_val : val }.

Definition NoExpire : Z := -1.
Definition DefaultExpire : Z := 0.

(** The [UnixNano] of a time later by [d]. *)
Definition expire_at (now d : Z) : Z := wraps 64 (now + d).

Record Config := mkConfig { c_defaultExpire : Z; c_capture : option nat; c_member : option (gmap string Iterator) }.
Definition SetDefaultExpire (expire : Z) (c : Config) : Config := mkConfig expire (c_capture c) (c_member c).
Definition SetCapture (capture : option nat) (c : Config) : Config := mkConfig (c_defaultExpire c) capture (c_member c).
Definition SetMember (m : option (gmap string Iterator)) (c : Config) : Config := mkConfig (c_defaultExpire c) (c_capture c) m.
Definition NewCache (options : list (Config → Config)) : cache :=
  let c := foldl (λ c option, option c) (mkConfig 0 (Some 0) None) options in
  mkCache (c_defaultExpire c) (default ∅ (c_member c)) (c_capture c).

(** ** Storing *)

Definition expire_for (now d : Z) (c : cache) : Z :=
  if (d =? NoExpire)%Z then 0
  else if (d =? DefaultExpire)%Z then
    if (0 <? defaultExpire c)%Z then expire_at now (defaultExpire c) else 0
  else if (0 <? d)%Z then expire_at now d else 0.

Definition set (now : Z) (k : string) (v : val) (d : Z) (c : cache) : cache :=
  set_member (<[k := mkIter v (expire_for now d c)]> (member c)) c.
Definition Set_ (now : Z) (k : string) (v : val) (d : Z) (c : cache) : cache := set now k v d c.
Definition SetDefault (now : Z) (k : string) (v : val) (c : cache) : cache := Set_ now k v DefaultExpire c.
Definition SetNoExpire (now : Z) (k : string) (v : val) (c : cache) : cache := Set_ now k v NoExpire c.

(** ** Removing *)

Definition delete_ (k : string) (c : cache) : option val * cache :=
  match member c !! k with
  | Some v => (Some (Val v), set_member (delete k (member c)) c)
  | None => (None, c)
  end.

Definition captured (c : cache) (k : string) (v : option val) : list call :=
  match v, capture c with
  | Some v, Some f => [mkCall f k v]
  | _, _ => []
  end.

Definition Delete (k : string) (c : cache) : cache * list call :=
  let '(v, c') := delete_ k c in (c', captured c k v).
Definition expireEvictUnlock (k : string) (c : cache) : cache * list call :=
  let '(v, c') := delete_ k c in (c', captured c k v).

Definition deleteExpired (now : Z) (k : string) (c : cache) : cache * list call :=
  match member c !! k with
  | Some v => if Expired now v then (set_member (delete k (member c)) c, captured c k (Some (Val v))) else (c, [])
  | None => (c, [])
  end.

Definition DeleteExpire (now : Z) (keys : list string) (c : cache) : cache * list call :=
  foldl (λ '(c, calls) k,
    match member c !! k with
    | Some v =>
        if Expired now v then
          let '(vv, c') := delete_ k c in (c', calls ++ captured c k vv)
        else (c, calls)
    | None => (c, calls)
    end) (c, []) keys.

(** ** Reading *)

Definition get (now : Z) (k : string) (c : cache) : option val :=
  match member c !! k with
  | None => None
  | Some v => if Expired now v then None else Some (Val v)
  end.

(** The second critical section of [Get] and [GetWithExpire]. *)
Definition evict_if_expired (now : Z) (k : string) (c : cache) : cache * list call :=
  match member c !! k with
  | Some cur => if Expired now cur then expireEvictUnlock k c else (c, [])
  | None => (c, [])
  end.

(** [others] is what happens between the sections, [now'] the clock in the second. *)
Definition Get (now : Z) (others : cache → cache) (now' : Z) (k : string) (c : cache)
    : option val * cache * list call :=
  match member c !! k with
  | None => (None, c, [])
  | Some v =>
      if negb (Expired now v) then (Some (Val v), c, [])
      else let '(c', calls) := evict_if_expired now' k (others c) in (None, c', calls)
  end.

(** The time is [None] for the zero time. *)
Definition GetWithExpire (now : Z) (others : cache → cache) (now' : Z) (k : string) (c : cache)
    : option (val * option Z) * cache * list call :=
  match member c !! k with
  | None => (None, c, [])
  | Some v =>
      if negb (Expired now v) then
        (Some (Val v, if (0 <? Expire v)%Z then Some (Expire v) else None), c, [])
      else let '(c', calls) := evict_if_expired now' k (others c) in (None, c', calls)
  end.

Definition Add (now : Z) (k : string) (x : val) (d : Z) (c : cache) : option cache_error * cache :=
  match get now k c with
  | Some _ => (Some CacheExist, c)
  | None => (None, set now k x d c)
  end.
Definition Replace (now : Z) (k : string) (x : val) (d : Z) (c : cache) : option cache_error * cache :=
  match get now k c with
  | None => (Some CacheNoExist, c)
  | Some _ => (None, set now k x d c)
  end.

Definition Count (c : cache) : nat := size (member c).
Definition Flush (c : cache) : cache := set_member ∅ c.
Definition ChangeCapture (f : option nat) (c : cache) : cache := mkCache (defaultExpire c) (member c) f.
Definition Shutdown (c : cache) : cache := Flush c.

(** The valid entries, then the eviction of the others one by one: [now] is the
    clock when a key is looked at, [nows] and [others] the clock and the
    interference before each eviction. *)
Definition iterate (now : string → Z) (c : cache) : gmap string Iterator :=
  filter (λ p, Expired (now p.1) p.2 = false) (member c).
Fixpoint evict_all (nows : nat → Z) (others : nat → cache → cache) (i : nat) (keys : list string) (c : cache)
    : cache * list call :=
  match keys with
  | [] => (c, [])
  | k :: keys =>
      let '(c, calls) := deleteExpired (nows i) k (others i c) in
      let '(c, calls') := evict_all nows others (S i) keys c in
      (c, calls ++ calls')
  end.
Definition Iterator_ (now : string → Z) (range : list string) (nows : nat → Z) (others : nat → cache → cache) (c : cache)
    : gmap string Iterator * cache * list call :=
  let keys := filter (λ k, is_Some (v ← member c !! k; if Expired (now k) v then Some tt else None)) range in
  let '(c', calls) := evict_all nows others 0 keys c in
  (iterate now c, c', calls).

(** ** Saving and loading *)

Definition Save_snapshot (c : cache) : gmap string Iterator := member c.

(** [now] is the clock when a key is looked at. *)
Definition Load (now : string → Z) (decoded : gmap string Iterator) (c : cache) : cache :=
  set_member
    (map_imap (λ k i, match member c !! k with
                      | Some v => if Expired (now k) v then Some i else Some v
                      | None => Some i
                      end) decoded ∪ member c) c.

(** ** Counters *)

(** The common part of the counters: look the entry up, evict it when it has
    expired, otherwise compute. *)
Definition counter {R} (now : Z) (k : string) (f : val → option (val * R)) (c : cache)
    : (cache_error + R) * cache * list call :=
  match member c !! k with
  | None => (inl CacheNoExist, c, [])
  | Some v =>
      if Expired now v then
        let '(c', calls) := expireEvictUnlock k c in (inl CacheExpire, c', calls)
      else
        match f (Val v) with
        | None => (inl CacheTypeErr, c, [])
        | Some (x, ret) => (inr ret, set_member (<[k := mkIter x (Expire v)]> (member c)) c, [])
        end
  end.

Inductive arith := Plus | Minus.
Definition iop (a : arith) (x y : Z) : Z := match a with Plus => x + y | Minus => x - y end.
Definition f32op (a : arith) (x y : spec_float) : spec_float := match a with Plus => f32_add x y | Minus => f32_sub x y end.
Definition f64op (a : arith) (x y : spec_float) : spec_float := match a with Plus => f64_add x y | Minus => f64_sub x y end.

(** The type switch of [Increment] and [Decrement]. *)
Definition numeric (a : arith) (n : Z) (v : val) : option (val * unit) :=
  match v with
  | VI k i => Some (VI k (conv k (iop a i (conv k n))), tt)
  | VF32 x => Some (VF32 (f32op a x (f32_of_Z n)), tt)
  | VF64 x => Some (VF64 (f64op a x (f64_of_Z n)), tt)
  | VOther _ => None
  end.
Definition Increment (now : Z) (k : string) (n : Z) := counter now k (numeric Plus n).
Definition Decrement (now : Z) (k : string) (n : Z) := counter now k (numeric Minus n).

Definition floating (a : arith) (n : spec_float) (v : val) : option (val * unit) :=
  match v with
  | VF32 x => Some (VF32 (f32op a x (f32_of_f64 n)), tt)
  | VF64 x => Some (VF64 (f64op a x n), tt)
  | _ => None
  end.
Definition IncrementFloat (now : Z) (k : string) (n : spec_float) := counter now k (floating Plus n).
Definition DecrementFloat (now : Z) (k : string) (n : spec_float) := counter now k (floating Minus n).

#[global] Instance ikind_eq_dec : EqDecision ikind.
Proof. solve_decision. Defined.

(** The counters of one integer type: the stored value has that very type. *)
Definition typed (t : ikind) (a : arith) (n : Z) (v : val) : option (val * Z) :=
  match v with
  | VI k i => if decide (k = t) then let ret := conv t (iop a i n) in Some (VI t ret, ret) else None
  | _ => None
  end.
Definition typed32 (a : arith) (n : spec_float) (v : val) : option (val * spec_float) :=
  match v with VF32 x => let ret := f32op a x n in Some (VF32 ret, ret) | _ => None end.
Definition typed64 (a : arith) (n : spec_float) (v : val) : option (val * spec_float) :=
  match v with VF64 x => let ret := f64op a x n in Some (VF64 ret, ret) | _ => None end.

Definition IncrementInt (now : Z) (k : string) (n : Z) := counter now k (typed KInt Plus n).
Definition IncrementInt8 (now : Z) (k : string) (n : Z) := counter now k (typed KInt8 Plus n).
Definition IncrementInt16 (now : Z) (k : string) (n : Z) := counter now k (typed KInt16 Plus n).
Definition IncrementInt32 (now : Z) (k : string) (n : Z) := counter now k (typed KInt32 Plus n).
Definition IncrementInt64 (now : Z) (k : string) (n : Z) := counter now k (typed KInt64 Plus n).
Definition IncrementUint (now : Z) (k : string) (n : Z) := counter now k (typed KUint Plus n).
Definition IncrementUint8 (now : Z) (k : string) (n : Z) := counter now k (typed KUint8 Plus n).
Definition IncrementUint16 (now : Z) (k : string) (n : Z) := counter now k (typed KUint16 Plus n).
Definition IncrementUint32 (now : Z) (k : string) (n : Z) := counter now k (typed KUint32 Plus n).
Definition IncrementUint64 (now : Z) (k : string) (n : Z) := counter now k (typed KUint64 Plus n).
Definition IncrementUintPtr (now : Z) (k : string) (n : Z) := counter now k (typed KUintptr Plus n).
Definition IncrementFloat32 (now : Z) (k : string) (n : spec_float) := counter now k (typed32 Plus n).
Definition IncrementFloat64 (now : Z) (k : string) (n : spec_float) := counter now k (typed64 Plus n).

Definition DecrementInt (now : Z) (k : string) (n : Z) := counter now k (typed KInt Minus n).
Definition DecrementInt8 (now : Z) (k : string) (n : Z) := counter now k (typed KInt8 Minus n).
Definition DecrementInt16 (now : Z) (k : string) (n : Z) := counter now k (typed KInt16 Minus n).
Definition DecrementInt32 (now : Z) (k : string) (n : Z) := counter now k (typed KInt32 Minus n).
Definition DecrementInt64 (now : Z) (k : string) (n : Z) := counter now k (typed KInt64 Minus n).
Definition DecrementUint (now : Z) (k : string) (n : Z) := counter now k (typed KUint Minus n).
Definition DecrementUint8 (now : Z) (k : string) (n : Z) := counter now k (typed KUint8 Minus n).
Definition DecrementUint16 (now : Z) (k : string) (n : Z) := counter now k (typed KUint16 Minus n).
Definition DecrementUint32 (now : Z) (k : string) (n : Z) := counter now k (typed KUint32 Minus n).
Definition DecrementUint64 (now : Z) (k : string) (n : Z) := counter now k (typed KUint64 Minus n).
Definition DecrementUintPtr (now : Z) (k : string) (n : Z) := counter now k (typed KUintptr Minus n).
Definition DecrementFloat32 (now : Z) (k : string) (n : spec_float) := counter now k (typed32 Minus n).
Definition DecrementFloat64 (now : Z) (k : string) (n : spec_float) := counter now k (typed64 Minus n).

