(* ===== verification/LocalCacheThms.v ===== *)
(** * The local cache: refinement, evictions and counters

    The cache behaves as a map of values that become stale at their deadline and
    stay until they are collected, stored over or deleted; what is removed behind the caller's back had expired, and is handed
    to the capture function exactly once; the counters compute modulo the width
    of the stored type. *)

From S2P Require Import Prelude GoFloat LocalCache.
From Stdlib Require Import Floats.SpecFloat.

(** ** The entries that count *)

Definition liveb (now : Z) (p : string * Iterator) : Prop := Expired now p.2 = false.
#[global] Instance liveb_dec now p : Decision (liveb now p).
Proof. unfold liveb. apply _. Defined.

Definition view (now : Z) (c : cache) : gmap string Iterator := filter (liveb now) (member c).

Lemma Expired_mono now now' i : (now <= now')%Z → Expired now i = true → Expired now' i = true.
Proof. unfold Expired. case_match; [done|]. rewrite !Z.ltb_lt. lia. Qed.

Lemma view_later now now' c : (now <= now')%Z → view now' c = filter (liveb now') (view now c).
Proof.
  intros Hle. unfold view. rewrite map_filter_filter. apply map_filter_ext. intros k i _. unfold liveb. simpl.
  split; [|tauto]. intros Hl. split; [done|]. destruct (Expired now i) eqn:E; [|done].
  apply (Expired_mono now now') in E; [congruence|done].
Qed.

Lemma live_lookup now (m : gmap string Iterator) k :
  filter (liveb now) m !! k = i ← m !! k; if Expired now i then None else Some i.
Proof.
  rewrite map_lookup_filter. destruct (m !! k) as [i|]; simpl; [|done].
  destruct (Expired now i) eqn:E.
  - rewrite option_guard_False; [done|]. unfold liveb. simpl. congruence.
  - rewrite option_guard_True; done.
Qed.

Lemma cview_lookup now c k : view now c !! k = i ← member c !! k; if Expired now i then None else Some i.
Proof. apply live_lookup. Qed.

Lemma get_view now k c : get now k c = Val <$> view now c !! k.
Proof. rewrite cview_lookup. unfold get. destruct (member c !! k) as [i|]; simpl; [|done]. by destruct (Expired now i). Qed.

Lemma cview_delete now k c : view now (set_member (delete k (member c)) c) = delete k (view now c).
Proof. apply map_filter_delete. Qed.

Lemma cview_insert now k i c :
  Expired now i = false → view now (set_member (<[k := i]> (member c)) c) = <[k := i]> (view now c).
Proof. intros Hi. unfold view. simpl. by rewrite map_filter_insert_True. Qed.

(** Removing an entry that has expired does not show. *)
Lemma view_evict now k i c :
  member c !! k = Some i → Expired now i = true → view now (set_member (delete k (member c)) c) = view now c.
Proof.
  intros Hk Hi. rewrite cview_delete. apply delete_id. rewrite cview_lookup, Hk. simpl. by rewrite Hi.
Qed.

(** ** The operations *)

(** The counters, by the type that they insist on. *)
Inductive ctr :=
  | CtrAny (a : arith) (n : Z)
  | CtrFloat (a : arith) (n : spec_float)
  | CtrInt (t : ikind) (a : arith) (n : Z)
  | CtrF32 (a : arith) (n : spec_float)
  | CtrF64 (a : arith) (n : spec_float).

Inductive cop :=
  | CSet (k : string) (v : val) (d : Z)
  | CAdd (k : string) (v : val) (d : Z)
  | CReplace (k : string) (v : val) (d : Z)
  | CGet (k : string)
  | CGetWithExpire (k : string)
  | CCounter (k : string) (f : ctr)
  | CDelete (k : string)
  | CDeleteExpire (keys : list string)
  | CLoad (decoded : gmap string Iterator)
  | CIterator (range : list string)
  | CCount
  | CChangeCapture (f : option nat)
  | CFlush.

Inductive cresult :=
  | RUnit
  | RVal (v : option val)
  | RTimed (v : option (val * option Z))
  | RErr (e : option cache_error)
  | RCounted (r : cache_error + option val)
  | RMap (m : gmap string Iterator)
  | RSize (n : nat).

(** The functions of each integer type. *)
Definition increment_of (t : ikind) : Z → string → Z → cache → (cache_error + Z) * cache * list call :=
  match t with
  | KInt => IncrementInt | KInt8 => IncrementInt8 | KInt16 => IncrementInt16 | KInt32 => IncrementInt32
  | KInt64 => IncrementInt64 | KUint => IncrementUint | KUintptr => IncrementUintPtr | KUint8 => IncrementUint8
  | KUint16 => IncrementUint16 | KUint32 => IncrementUint32 | KUint64 => IncrementUint64
  end.
Definition decrement_of (t : ikind) : Z → string → Z → cache → (cache_error + Z) * cache * list call :=
  match t with
  | KInt => DecrementInt | KInt8 => DecrementInt8 | KInt16 => DecrementInt16 | KInt32 => DecrementInt32
  | KInt64 => DecrementInt64 | KUint => DecrementUint | KUintptr => DecrementUintPtr | KUint8 => DecrementUint8
  | KUint16 => DecrementUint16 | KUint32 => DecrementUint32 | KUint64 => DecrementUint64
  end.

Lemma increment_of_typed t now k n c : increment_of t now k n c = counter now k (typed t Plus n) c.
Proof. by destruct t. Qed.
Lemma decrement_of_typed t now k n c : decrement_of t now k n c = counter now k (typed t Minus n) c.
Proof. by destruct t. Qed.

(** What a counter answers: an error, or the new value if it returns one. *)
Definition answer {R} (ret : R → option val) (x : (cache_error + R) * cache * list call) : cresult * cache * list call :=
  let '(r, c, calls) := x in (RCounted (match r with inl e => inl e | inr y => inr (ret y) end), c, calls).

Definition count_step (now : Z) (k : string) (f : ctr) (c : cache) : cresult * cache * list call :=
  match f with
  | CtrAny Plus n => answer (λ _, None) (Increment now k n c)
  | CtrAny Minus n => answer (λ _, None) (Decrement now k n c)
  | CtrFloat Plus n => answer (λ _, None) (IncrementFloat now k n c)
  | CtrFloat Minus n => answer (λ _, None) (DecrementFloat now k n c)
  | CtrInt t Plus n => answer (λ y, Some (VI t y)) (increment_of t now k n c)
  | CtrInt t Minus n => answer (λ y, Some (VI t y)) (decrement_of t now k n c)
  | CtrF32 Plus n => answer (λ y, Some (VF32 y)) (IncrementFloat32 now k n c)
  | CtrF32 Minus n => answer (λ y, Some (VF32 y)) (DecrementFloat32 now k n c)
  | CtrF64 Plus n => answer (λ y, Some (VF64 y)) (IncrementFloat64 now k n c)
  | CtrF64 Minus n => answer (λ y, Some (VF64 y)) (DecrementFloat64 now k n c)
  end.

(** One operation of the cache at the time [now], with nobody else about: its
    result, the cache after it, and the calls of the capture function. *)
Definition cstep (now : Z) (op : cop) (c : cache) : cresult * cache * list call :=
  match op with
  | CSet k v d => (RUnit, Set_ now k v d c, [])
  | CAdd k v d => let '(e, c') := Add now k v d c in (RErr e, c', [])
  | CReplace k v d => let '(e, c') := Replace now k v d c in (RErr e, c', [])
  | CGet k => let '(v, c', calls) := Get now id now k c in (RVal v, c', calls)
  | CGetWithExpire k => let '(v, c', calls) := GetWithExpire now id now k c in (RTimed v, c', calls)
  | CCounter k f => count_step now k f c
  | CDelete k => let '(c', calls) := Delete k c in (RUnit, c', calls)
  | CDeleteExpire keys => let '(c', calls) := DeleteExpire now keys c in (RUnit, c', calls)
  | CLoad decoded => (RUnit, Load (λ _, now) decoded c, [])
  | CIterator range =>
      let '(m, c', calls) := Iterator_ (λ _, now) range (λ _, now) (λ _, id) c in (RMap m, c', calls)
  | CCount => (RSize (Count c), c, [])
  | CChangeCapture f => (RUnit, ChangeCapture f c, [])
  | CFlush => (RUnit, Flush c, [])
  end.

(** ** The abstract cache *)

(** The values that can be read, with their deadlines; the values whose deadline
    has passed and that have not been collected yet; the capture function. *)
Record acache := mkA { fresh : gmap string Iterator; stale : gmap string val; hook : option nat }.

(** Time passes: what reaches its deadline becomes stale. *)
Definition tick (now : Z) (a : acache) : acache :=
  mkA (filter (liveb now) (fresh a)) ((Val <$> filter (λ p, ¬ liveb now p) (fresh a)) ∪ stale a) (hook a).

(** The deadline that a duration stands for. *)
Definition deadline (now dflt d : Z) : Z :=
  if (d =? -1)%Z then 0
  else let d := if (d =? 0)%Z then dflt else d in
       if (0 <? d)%Z then now + d else 0.

Definition store (k : string) (i : Iterator) (a : acache) : acache :=
  mkA (<[k := i]> (fresh a)) (delete k (stale a)) (hook a).

Definition notify (a : acache) (k : string) (v : val) : list call :=
  match hook a with Some f => [mkCall f k v] | None => [] end.

(** Collecting a key: a stale value is handed to the capture function and is gone. *)
Definition collect (k : string) (a : acache) : acache * list call :=
  match stale a !! k with
  | Some v => (mkA (fresh a) (delete k (stale a)) (hook a), notify a k v)
  | None => (a, [])
  end.
Fixpoint collect_all (keys : list string) (a : acache) : acache * list call :=
  match keys with
  | [] => (a, [])
  | k :: keys =>
      let '(a, calls) := collect k a in
      let '(a, calls') := collect_all keys a in (a, calls ++ calls')
  end.

(** The new value and what is returned of it, if the value is of the right type. *)
Definition ctr_fun (f : ctr) (v : val) : option (val * option val) :=
  match f with
  | CtrAny a n => '(x, _) ← numeric a n v; Some (x, None)
  | CtrFloat a n => '(x, _) ← floating a n v; Some (x, None)
  | CtrInt t a n => '(x, _) ← typed t a n v; Some (x, Some x)
  | CtrF32 a n => '(x, _) ← typed32 a n v; Some (x, Some x)
  | CtrF64 a n => '(x, _) ← typed64 a n v; Some (x, Some x)
  end.

Definition astep (now dflt : Z) (op : cop) (a : acache) : cresult * acache * list call :=
  match op with
  | CSet k v d => (RUnit, store k (mkIter v (deadline now dflt d)) a, [])
  | CAdd k v d =>
      match fresh a !! k with
      | Some _ => (RErr (Some CacheExist), a, [])
      | None => (RErr None, store k (mkIter v (deadline now dflt d)) a, [])
      end
  | CReplace k v d =>
      match fresh a !! k with
      | Some _ => (RErr None, store k (mkIter v (deadline now dflt d)) a, [])
      | None => (RErr (Some CacheNoExist), a, [])
      end
  | CGet k => let '(a', calls) := collect k a in (RVal (Val <$> fresh a !! k), a', calls)
  | CGetWithExpire k =>
      let '(a', calls) := collect k a in
      (RTimed ((λ i, (Val i, if (0 <? Expire i)%Z then Some (Expire i) else None)) <$> fresh a !! k), a', calls)
  | CCounter k f =>
      match fresh a !! k with
      | Some i =>
          match ctr_fun f (Val i) with
          | None => (RCounted (inl CacheTypeErr), a, [])
          | Some (x, ret) => (RCounted (inr ret), store k (mkIter x (Expire i)) a, [])
          end
      | None =>
          let '(a', calls) := collect k a in
          (RCounted (inl (match stale a !! k with Some _ => CacheExpire | None => CacheNoExist end)), a', calls)
      end
  | CDelete k =>
      (RUnit, mkA (delete k (fresh a)) (delete k (stale a)) (hook a),
       match fresh a !! k, stale a !! k with
       | Some i, _ => notify a k (Val i)
       | None, Some v => notify a k v
       | None, None => []
       end)
  | CDeleteExpire keys => let '(a', calls) := collect_all keys a in (RUnit, a', calls)
  | CLoad decoded =>
      (RUnit, mkA (fresh a ∪ filter (liveb now) decoded)
                  ((Val <$> filter (λ p, ¬ liveb now p) decoded ∖ fresh a) ∪ filter (λ p, decoded !! p.1 = None) (stale a)) (hook a), [])
  | CIterator range => let '(a', calls) := collect_all range a in (RMap (fresh a), a', calls)
  | CCount => (RSize (size (fresh a) + size (stale a)), a, [])
  | CChangeCapture f => (RUnit, mkA (fresh a) (stale a) f, [])
  | CFlush => (RUnit, mkA ∅ ∅ (hook a), [])
  end.

(** Both machines over operations at given times: the results, and the calls of
    the capture function. *)
Fixpoint crun (evs : list (Z * cop)) (c : cache) : list (cresult * list call) :=
  match evs with
  | [] => []
  | (now, op) :: evs => let '(r, c, calls) := cstep now op c in (r, calls) :: crun evs c
  end.
Fixpoint arun (dflt : Z) (evs : list (Z * cop)) (a : acache) : list (cresult * list call) :=
  match evs with
  | [] => []
  | (now, op) :: evs => let '(r, a, calls) := astep now dflt op (tick now a) in (r, calls) :: arun dflt evs a
  end.

(** Times go up from [t0], and no deadline leaves the range of an int64. *)
Definition duration_of (op : cop) : Z :=
  match op with CSet _ _ d | CAdd _ _ d | CReplace _ _ d => d | _ => 0 end.
Fixpoint times_ok (t0 dflt : Z) (evs : list (Z * cop)) : Prop :=
  match evs with
  | [] => True
  | (now, op) :: evs =>
      (0 < now)%Z ∧ (t0 <= now)%Z ∧ (now + Z.max dflt (duration_of op) <= MaxInt64)%Z ∧ times_ok now dflt evs
  end.

(** ** The simulation *)

(** The abstract cache that a cache stands for. *)
Definition abs (now : Z) (c : cache) : acache :=
  mkA (view now c) (Val <$> filter (λ p, ¬ liveb now p) (member c)) (capture c).

Lemma guard_old now k i :
  Val <$> (guard (¬ liveb now (k, i)) ≫= λ _, Some i) = if Expired now i then Some (Val i) else None.
Proof.
  destruct (Expired now i) eqn:E; [rewrite option_guard_True|rewrite option_guard_False]; try done; unfold liveb; simpl; rewrite E; auto.
Qed.

Lemma old_lookup now (m : gmap string Iterator) k :
  (Val <$> filter (λ p, ¬ liveb now p) m) !! k = i ← m !! k; if Expired now i then Some (Val i) else None.
Proof. rewrite lookup_fmap, map_lookup_filter. destruct (m !! k) as [i|]; simpl; [apply guard_old|done]. Qed.

Lemma stale_lookup now c k : stale (abs now c) !! k = i ← member c !! k; if Expired now i then Some (Val i) else None.
Proof. apply old_lookup. Qed.
Lemma fresh_lookup now c k : fresh (abs now c) !! k = i ← member c !! k; if Expired now i then None else Some i.
Proof. apply cview_lookup. Qed.

(** Two abstract caches are equal when their lookups are. *)
Lemma acache_eq a b : (∀ k, fresh a !! k = fresh b !! k) → (∀ k, stale a !! k = stale b !! k) → hook a = hook b → a = b.
Proof. destruct a, b. simpl. intros H1 H2 ->. f_equal; by apply map_eq. Qed.

Ltac at_keys :=
  repeat match goal with
  | |- context [<[?k := _]> _ !! ?j] =>
      destruct (decide (k = j)) as [<-|]; [rewrite ?lookup_insert_eq, ?lookup_delete_eq|rewrite ?lookup_insert_ne, ?lookup_delete_ne by done]
  | |- context [delete ?k _ !! ?j] =>
      destruct (decide (k = j)) as [<-|]; [rewrite ?lookup_delete_eq|rewrite ?lookup_delete_ne by done]
  end.

Lemma abs_later now now' c : (now <= now')%Z → abs now' c = tick now' (abs now c).
Proof.
  intros Hle. apply acache_eq; [..|done]; intros k; simpl.
  - by rewrite (view_later now now').
  - rewrite lookup_union, !old_lookup, cview_lookup. destruct (member c !! k) as [i|]; simpl; [|done].
    destruct (Expired now i) eqn:E; simpl; [by rewrite (Expired_mono now now') by done|by destruct (Expired now' i)].
Qed.

Lemma abs_store now k i c :
  Expired now i = false → abs now (set_member (<[k := i]> (member c)) c) = store k i (abs now c).
Proof.
  intros Hi. apply acache_eq; [..|done]; intros j; unfold store; cbn [fresh stale].
  - rewrite !fresh_lookup. cbn [member set_member]. at_keys; cbn [mbind option_bind]; by rewrite ?Hi, ?fresh_lookup.
  - rewrite !stale_lookup. cbn [member set_member]. at_keys; cbn [mbind option_bind]; by rewrite ?Hi, ?stale_lookup.
Qed.

Lemma abs_delete now k c :
  abs now (set_member (delete k (member c)) c) = mkA (delete k (fresh (abs now c))) (delete k (stale (abs now c))) (capture c).
Proof.
  apply acache_eq; [..|done]; intros j; cbn [fresh stale].
  - rewrite !fresh_lookup. cbn [member set_member]. at_keys; by rewrite ?fresh_lookup.
  - rewrite !stale_lookup. cbn [member set_member]. at_keys; by rewrite ?stale_lookup.
Qed.

(** The removal of an expired entry collects it; without one there is nothing to collect. *)
Lemma abs_collect now k i c :
  member c !! k = Some i → Expired now i = true →
  collect k (abs now c) = (abs now (set_member (delete k (member c)) c), captured c k (Some (Val i))).
Proof.
  intros Hk Hi. unfold collect. rewrite stale_lookup, Hk. simpl. rewrite Hi. f_equal. rewrite abs_delete. f_equal.
  symmetry. apply delete_id. rewrite cview_lookup, Hk. simpl. by rewrite Hi.
Qed.

Lemma abs_none now k c : member c !! k = None → collect k (abs now c) = (abs now c, []).
Proof. intros H. unfold collect. by rewrite stale_lookup, H. Qed.

Lemma abs_keep now k i c : member c !! k = Some i → Expired now i = false → collect k (abs now c) = (abs now c, []).
Proof. intros H Hi. unfold collect. rewrite stale_lookup, H. simpl. by rewrite Hi. Qed.

Lemma expire_for_deadline now d c :
  (0 < now)%Z → (now + Z.max (defaultExpire c) d <= MaxInt64)%Z →
  expire_for now d c = deadline now (defaultExpire c) d ∧ ∀ v, Expired now (mkIter v (expire_for now d c)) = false.
Proof.
  intros Hnow Hmax.
  assert (He : ∀ x, (0 < x)%Z → (now + x <= MaxInt64)%Z → expire_at now x = (now + x)%Z).
  { intros x Hx Hm. unfold expire_at. apply wraps64_id. unfold is_int, MinInt64. lia. }
  assert (expire_for now d c = deadline now (defaultExpire c) d) as Heq.
  { unfold expire_for, deadline, NoExpire, DefaultExpire. destruct (Z.eqb_spec d (-1)); [done|].
    destruct (Z.eqb_spec d 0); (destruct (Z.ltb_spec 0 (defaultExpire c)); destruct (Z.ltb_spec 0 d));
      try done; try lia; apply He; lia. }
  split; [done|]. intros v. rewrite Heq. unfold Expired, deadline. simpl.
  repeat case_match; try done; try lia; apply Z.ltb_ge; lia.
Qed.

Lemma abs_set now k v d c :
  (0 < now)%Z → (now + Z.max (defaultExpire c) d <= MaxInt64)%Z →
  abs now (set now k v d c) = store k (mkIter v (deadline now (defaultExpire c) d)) (abs now c).
Proof.
  intros Hnow Hmax. destruct (expire_for_deadline now d c Hnow Hmax) as [He Hl].
  unfold set. rewrite abs_store by apply Hl. by rewrite He.
Qed.

Lemma get_fresh now k c : get now k c = Val <$> fresh (abs now c) !! k.
Proof. apply get_view. Qed.

Lemma deleteExpired_abs now k c :
  collect k (abs now c) = (abs now (deleteExpired now k c).1, (deleteExpired now k c).2) ∧
  defaultExpire (deleteExpired now k c).1 = defaultExpire c.
Proof.
  unfold deleteExpired. destruct (member c !! k) as [i|] eqn:Hk; [|split; [by apply abs_none|done]].
  destruct (Expired now i) eqn:Hi; simpl; (split; [|done]); [by rewrite (abs_collect now k i)|by eapply abs_keep].
Qed.

(** The second section of Get and GetWithExpire. *)
Lemma evict_abs now k c :
  collect k (abs now c) = (abs now (evict_if_expired now k c).1, (evict_if_expired now k c).2) ∧
  defaultExpire (evict_if_expired now k c).1 = defaultExpire c.
Proof.
  assert (H : evict_if_expired now k c = deleteExpired now k c); [|rewrite H; apply deleteExpired_abs].
  unfold evict_if_expired, deleteExpired, expireEvictUnlock, delete_. destruct (member c !! k) as [i|]; [|done]. by destruct (Expired now i).
Qed.

Lemma evict_all_abs now i keys c :
  let '(c', calls) := evict_all (λ _, now) (λ _, id) i keys c in
  collect_all keys (abs now c) = (abs now c', calls) ∧ defaultExpire c' = defaultExpire c.
Proof.
  revert i c. induction keys as [|k keys IH]; intros i c; simpl; [done|]. change (id c) with c.
  destruct (deleteExpired_abs now k c) as [Hv Hd]. rewrite Hv. destruct (deleteExpired now k c) as [c1 calls]. simpl in *.
  specialize (IH (S i) c1). destruct (evict_all _ _ _ keys c1) as [c2 calls2]. destruct IH as [-> ->]. done.
Qed.

(** Collecting only the keys that are stale is collecting all. *)
Lemma collect_filter now c keys :
  collect_all (filter (λ k, is_Some (v ← member c !! k; if Expired now v then Some tt else None)) keys) (abs now c)
  = collect_all keys (abs now c).
Proof.
  assert (H : ∀ a, (∀ k v, stale a !! k = Some v → is_Some (stale (abs now c) !! k)) →
    collect_all (filter (λ k, is_Some (v ← member c !! k; if Expired now v then Some tt else None)) keys) a = collect_all keys a);
    [|apply H; eauto].
  induction keys as [|k keys IH]; intros a Ha; [done|]. rewrite filter_cons.
  assert (Hc : ∀ a' calls, collect k a = (a', calls) → ∀ j v, stale a' !! j = Some v → is_Some (stale (abs now c) !! j)).
  { intros a' calls E j v Hj. apply (Ha j v). unfold collect in E. destruct (stale a !! k); simplify_eq/=; [|done].
    by apply lookup_delete_Some in Hj as [_ ?]. }
  case_decide as Hk; simpl.
  - destruct (collect k a) as [a' calls] eqn:E. by rewrite (IH a') by eauto.
  - assert (E : stale a !! k = None).
    { destruct (stale a !! k) as [v|] eqn:E; [|done]. exfalso. apply Hk. destruct (Ha k v E) as [w Hw]. rewrite stale_lookup in Hw.
      destruct (member c !! k) as [i|]; simpl in *; [|done]. destruct (Expired now i); [eauto|done]. }
    unfold collect. rewrite E, IH by done. by destruct (collect_all keys a).
Qed.

Lemma DeleteExpire_abs now keys c :
  let '(c', calls) := DeleteExpire now keys c in
  collect_all keys (abs now c) = (abs now c', calls) ∧ defaultExpire c' = defaultExpire c.
Proof.
  unfold DeleteExpire. match goal with |- context [foldl ?g _ _] => set (f := g) end.
  assert (H : ∀ calls c, (foldl f (c, calls) keys).2 = calls ++ (collect_all keys (abs now c)).2 ∧
    abs now (foldl f (c, calls) keys).1 = (collect_all keys (abs now c)).1 ∧ defaultExpire (foldl f (c, calls) keys).1 = defaultExpire c).
  { induction keys as [|k keys IH]; intros calls c0; cbn [foldl collect_all]; [by rewrite app_nil_r|].
    destruct (deleteExpired_abs now k c0) as [Hv Hd]. rewrite Hv.
    replace (f (c0, calls) k) with ((deleteExpired now k c0).1, calls ++ (deleteExpired now k c0).2).
    - destruct (deleteExpired now k c0) as [c1 calls1]. cbn [fst snd] in *. destruct (IH (calls ++ calls1) c1) as (-> & -> & ->).
      destruct (collect_all keys (abs now c1)). simpl. by rewrite app_assoc.
    - unfold f, deleteExpired, delete_. destruct (member c0 !! k) as [i|]; [|by rewrite app_nil_r].
      destruct (Expired now i); [done|by rewrite app_nil_r]. }
  destruct (H [] c) as (H1 & H2 & H3). destruct (foldl f (c, []) keys) as [c' calls]. simpl in *.
  split; [|done]. rewrite H1, H2. by destruct (collect_all keys (abs now c)).
Qed.

Lemma Load_abs now decoded c :
  abs now (Load (λ _, now) decoded c)
  = mkA (fresh (abs now c) ∪ filter (liveb now) decoded)
        ((Val <$> filter (λ p, ¬ liveb now p) decoded ∖ fresh (abs now c)) ∪ filter (λ p, decoded !! p.1 = None) (stale (abs now c))) (capture c).
Proof.
  apply acache_eq; [..|done]; intros k; cbn [fresh stale];
    [rewrite lookup_union, !fresh_lookup, live_lookup|rewrite lookup_union, lookup_fmap, lookup_difference, map_lookup_filter, map_lookup_filter, !stale_lookup, fresh_lookup];
    simpl; rewrite lookup_union, map_lookup_imap; destruct (decoded !! k) as [j|], (member c !! k) as [i|]; simpl; try done.
  all: try (destruct (Expired now i) eqn:Hi; simpl; rewrite ?Hi; simpl); rewrite ?guard_old; try (by destruct (Expired now j)); done.
Qed.

(** The parts of the cache are disjoint, and together are its entries. *)
Lemma abs_size now c : Count c = (size (fresh (abs now c)) + size (stale (abs now c)))%nat.
Proof.
  unfold Count. simpl. unfold view. rewrite map_size_fmap. rewrite <- map_size_disj_union by apply map_disjoint_filter_complement.
  by rewrite map_filter_union_complement.
Qed.

Lemma counter_abs {R} now k (f : val → option (val * R)) (g : ctr) (ret : R → option val) c :
  (∀ v, ctr_fun g v = '(x, r) ← f v; Some (x, ret r)) →
  let '(r, c', calls) := answer ret (counter now k f c) in
  astep now (defaultExpire c) (CCounter k g) (abs now c) = (r, abs now c', calls) ∧ defaultExpire c' = defaultExpire c.
Proof.
  intros Hg. unfold counter, answer. cbn [astep]. rewrite fresh_lookup, stale_lookup.
  destruct (member c !! k) as [i|] eqn:Hk; simpl; [|split; [|done]; by rewrite abs_none].
  destruct (Expired now i) eqn:Hi; simpl.
  - unfold expireEvictUnlock, delete_. rewrite Hk. split; [|done]. by rewrite (abs_collect now k i).
  - rewrite Hg. destruct (f (Val i)) as [[x r]|]; simpl; [|done]. split; [|done]. rewrite abs_store; [done|]. exact Hi.
Qed.

Lemma count_step_abs now k f c :
  let '(r, c', calls) := count_step now k f c in
  astep now (defaultExpire c) (CCounter k f) (abs now c) = (r, abs now c', calls) ∧ defaultExpire c' = defaultExpire c.
Proof.
  destruct f as [[] n|[] n|t [] n|[] n|[] n]; cbn [count_step]; rewrite ?increment_of_typed, ?decrement_of_typed;
    apply counter_abs; intros [t' i|x|x|w]; simpl; try done; by case_decide.
Qed.

Lemma cstep_astep now op c :
  (0 < now)%Z → (now + Z.max (defaultExpire c) (duration_of op) <= MaxInt64)%Z →
  let '(r, c', calls) := cstep now op c in
  astep now (defaultExpire c) op (abs now c) = (r, abs now c', calls) ∧ defaultExpire c' = defaultExpire c.
Proof.
  intros Hnow Hmax. destruct op; cbn [cstep astep duration_of] in *.
  - split; [|done]. by rewrite <- abs_set.
  - unfold Add. rewrite get_fresh. destruct (fresh (abs now c) !! k); simpl; [done|]. split; [|done]. by rewrite <- abs_set.
  - unfold Replace. rewrite get_fresh. destruct (fresh (abs now c) !! k); simpl; [|done]. split; [|done]. by rewrite <- abs_set.
  - unfold Get. change (id c) with c. destruct (evict_abs now k c) as [He Hd]. rewrite fresh_lookup.
    destruct (member c !! k) as [i|] eqn:Hk; simpl; [|by rewrite abs_none].
    destruct (Expired now i) eqn:Hi; simpl; [|by rewrite (abs_keep now k i)].
    rewrite He. destruct (evict_if_expired now k c). done.
  - unfold GetWithExpire. change (id c) with c. destruct (evict_abs now k c) as [He Hd]. rewrite fresh_lookup.
    destruct (member c !! k) as [i|] eqn:Hk; simpl; [|by rewrite abs_none].
    destruct (Expired now i) eqn:Hi; simpl; [|by rewrite (abs_keep now k i)].
    rewrite He. destruct (evict_if_expired now k c). done.
  - apply count_step_abs.
  - unfold Delete, delete_, captured, notify. rewrite fresh_lookup, stale_lookup. destruct (member c !! k) as [i|] eqn:Hk; simpl.
    + split; [|done]. rewrite abs_delete. by destruct (Expired now i).
    + split; [|done]. repeat f_equal. apply acache_eq; [..|done]; intros j; cbn [fresh stale]; at_keys; try done;
        [by rewrite fresh_lookup, Hk|by rewrite stale_lookup, Hk].
  - pose proof (DeleteExpire_abs now keys c) as H. destruct (DeleteExpire now keys c) as [c' calls]. destruct H as [-> ->]. done.
  - split; [|done]. by rewrite Load_abs.
  - unfold Iterator_. pose proof (evict_all_abs now 0 (filter (λ k, is_Some (v ← member c !! k; if Expired now v then Some tt else None)) range) c) as H.
    destruct (evict_all _ _ 0 _ c) as [c1 calls]. destruct H as [H Hd]. rewrite collect_filter in H. rewrite H. done.
  - split; [|done]. by rewrite (abs_size now).
  - done.
  - split; [|done]. replace (abs now (Flush c)) with (mkA ∅ ∅ (capture c)); [done|].
    apply acache_eq; [..|done]; intros j; by rewrite ?fresh_lookup, ?stale_lookup.
Qed.
