(* ===== verification/LocalCacheProps.v ===== *)
(** * The local cache: the properties

    Refinement of the abstract cache, exactness of the evictions and of the
    capture calls, and the arithmetic of the counters. *)

From S2P Require Import Prelude GoFloat LocalCache LocalCacheThms.
From Stdlib Require Import Floats.SpecFloat.

(** ** Refinement *)

Lemma crun_arun evs t0 c :
  times_ok t0 (defaultExpire c) evs → crun evs c = arun (defaultExpire c) evs (abs t0 c).
Proof.
  revert t0 c. induction evs as [|[now op] evs IH]; intros t0 c; [done|].
  intros (Hpos & Hle & Hmax & Hrest). cbn [crun arun].
  pose proof (cstep_astep now op c Hpos Hmax) as Hstep.
  destruct (cstep now op c) as [[r c'] calls]. destruct Hstep as [Ha Hd].
  rewrite <- (abs_later t0 now c Hle), Ha. f_equal. rewrite <- Hd in Hrest |- *. by apply IH.
Qed.

(** C12: over any sequence of operations at increasing times, without other
    goroutines in between, the cache answers exactly as an abstract cache whose
    values become stale at their deadline and stay stale until they are collected,
    stored over or deleted, and makes the same calls of the capture function: a
    value can be read until its deadline and not after, [Add] succeeds only for a
    key that cannot be read, [Replace] and the counters only for one that can,
    loading never overwrites such a value, a counter tells a stale key
    ([CacheExpire]) from a missing one ([CacheNoExist]) and returns the value it
    stores, [Count] counts the stale keys too, and each stale value is handed to
    the capture function once, when it is collected. *)
Theorem cache_refines (evs : list (Z * cop)) (t0 : Z) (c : cache) :
  times_ok t0 (defaultExpire c) evs → crun evs c = arun (defaultExpire c) evs (abs t0 c).
Proof. apply crun_arun. Qed.

Definition sample_cache : cache := NewCache [].

Lemma cache_refines_witness :
  crun [(10%Z, CSet "a" (VI KInt 1) 5); (15%Z, CGet "a"); (16%Z, CCounter "a" (CtrInt KInt Plus 1));
        (16%Z, CCounter "a" (CtrInt KInt Plus 1)); (16%Z, CAdd "a" (VI KInt 2) 0)] sample_cache
  = [(RUnit, []); (RVal (Some (VI KInt 1)), []); (RCounted (inl CacheExpire), [mkCall 0 "a" (VI KInt 1)]);
     (RCounted (inl CacheNoExist), []); (RErr None, [])].
Proof.
  rewrite (cache_refines _ 0 sample_cache); [vm_compute; reflexivity|]. vm_compute. intuition discriminate.
Defined.

(** ** Evictions and captures *)

(** What a critical section removes on its own account: only entries that have
    expired, each handed to the capture function. *)
Record evicts (now : Z) (c c' : cache) (calls : list call) : Prop := {
  e_sub : member c' ⊆ member c;
  e_live : ∀ k i, member c !! k = Some i → Expired now i = false → member c' !! k = Some i;
  e_config : defaultExpire c' = defaultExpire c ∧ capture c' = capture c;
  e_calls : calls ≡ₚ match capture c with
                     | None => []
                     | Some f => (λ p : string * Iterator, mkCall f p.1 (Val p.2)) <$> map_to_list (member c ∖ member c')
                     end }.

Lemma evicts_refl now c : evicts now c c [].
Proof. split; try done. rewrite map_difference_diag, map_to_list_empty. by destruct (capture c). Qed.

Lemma difference_delete (m : gmap string Iterator) k i :
  m !! k = Some i → m ∖ delete k m = {[ k := i ]}.
Proof.
  intros Hk. apply map_eq. intros j. rewrite lookup_difference. destruct (decide (j = k)) as [->|Hne].
  - by rewrite lookup_delete_eq, lookup_singleton_eq.
  - rewrite lookup_delete_ne, lookup_singleton_ne by done. by destruct (m !! j).
Qed.

Lemma evicts_delete now c k i :
  member c !! k = Some i → Expired now i = true →
  evicts now c (set_member (delete k (member c)) c) (captured c k (Some (Val i))).
Proof.
  intros Hk Hi. split; simpl; [apply delete_subseteq| |done|].
  - intros j u Hj Hu. rewrite lookup_delete_ne; [done|]. intros ->. congruence.
  - rewrite (difference_delete _ _ _ Hk), map_to_list_singleton. unfold captured. by destruct (capture c).
Qed.

Lemma deleteExpired_evicts now k c : evicts now c (deleteExpired now k c).1 (deleteExpired now k c).2.
Proof.
  unfold deleteExpired. destruct (member c !! k) as [i|] eqn:Hk; [|apply evicts_refl].
  destruct (Expired now i) eqn:Hi; [by apply evicts_delete|apply evicts_refl].
Qed.

Lemma evict_if_expired_evicts now k c : evicts now c (evict_if_expired now k c).1 (evict_if_expired now k c).2.
Proof.
  unfold evict_if_expired, expireEvictUnlock, delete_. destruct (member c !! k) as [i|] eqn:Hk; [|apply evicts_refl].
  destruct (Expired now i) eqn:Hi; [by apply evicts_delete|apply evicts_refl].
Qed.

Lemma map_to_list_disj_union (m1 m2 : gmap string Iterator) :
  m1 ##ₘ m2 → map_to_list (m1 ∪ m2) ≡ₚ map_to_list m1 ++ map_to_list m2.
Proof.
  intros Hd. apply NoDup_Permutation; [apply NoDup_map_to_list| |].
  - apply list.NoDup_app. split_and!; [apply NoDup_map_to_list| |apply NoDup_map_to_list].
    intros [k i]. rewrite !elem_of_map_to_list. intros H1 H2. by apply (map_disjoint_spec m1 m2) with k i i.
  - intros [k i]. rewrite elem_of_app, !elem_of_map_to_list. by apply lookup_union_Some.
Qed.

(** One eviction after others. *)
Lemma evicts_trans now c1 c2 c3 calls calls' :
  evicts now c1 c2 calls → evicts now c2 c3 calls' → evicts now c1 c3 (calls ++ calls').
Proof.
  intros [S1 L1 [D1 F1] C1] [S2 L2 [D2 F2] C2]. split; [by etrans|by eauto|split; congruence|].
  rewrite C1, C2, F1. destruct (capture c1) as [f|]; [|done]. rewrite <- fmap_app. f_equiv.
  rewrite <- map_to_list_disj_union.
  - f_equiv. apply map_eq. intros k. rewrite lookup_union, !lookup_difference.
    destruct (member c1 !! k) as [i|] eqn:H1, (member c2 !! k) as [j|] eqn:H2, (member c3 !! k) as [l|] eqn:H3; try done.
    all: try (pose proof (lookup_weaken _ _ _ _ H2 S1); assert (i = j) as -> by congruence; done).
    all: try (pose proof (lookup_weaken _ _ _ _ H2 S1); congruence).
    all: try (pose proof (lookup_weaken _ _ _ _ H3 S2); congruence).
  - apply map_disjoint_spec. intros k i j. rewrite !lookup_difference_Some. intros [_ Hn] [Hs _]. congruence.
Qed.

Lemma DeleteExpire_evicts now keys c :
  evicts now c (DeleteExpire now keys c).1 (DeleteExpire now keys c).2 ∧
  ∀ k i, k ∈ keys → member (DeleteExpire now keys c).1 !! k = Some i → Expired now i = false.
Proof.
  unfold DeleteExpire. match goal with |- context [foldl ?f _ _] => set (g := f) end.
  induction keys as [|k keys IH] using rev_ind; [split; [apply evicts_refl|by intros k i ?%not_elem_of_nil]|].
  rewrite foldl_app. simpl. destruct (foldl g (c, []) keys) as [c1 calls]. destruct IH as [He Hk]. simpl in *.
  destruct (member c1 !! k) as [i|] eqn:Hi; simpl.
  - destruct (Expired now i) eqn:Hx; simpl.
    + unfold delete_. rewrite Hi. simpl. split.
      * eapply evicts_trans; [exact He|by apply evicts_delete].
      * intros k' i' Hin [Hne Hi']%lookup_delete_Some. apply elem_of_app in Hin as [Hin|Hin]; [by eapply Hk|].
        apply list_elem_of_singleton in Hin. congruence.
    + split; [done|]. intros k' i' [Hin| ->%list_elem_of_singleton]%elem_of_app Hi'; [by eapply Hk|congruence].
  - split; [done|]. intros k' i' [Hin| ->%list_elem_of_singleton]%elem_of_app Hi'; [by eapply Hk|congruence].
Qed.

(** Entries leave the cache behind the caller's back only when they have
    expired at the moment they are removed, even when other goroutines replace
    them in between, and each is passed to the capture function in force
    exactly once: by [Get] and [GetWithExpire] under the second lock, by a
    counter, and by [DeleteExpire], which leaves no expired entry behind;
    [Delete] removes exactly its key and captures it if it was there. *)
Theorem cache_evictions (now now' : Z) (others : cache → cache) (k : string) (range : list string) (c : cache) :
  (let '(_, c', calls) := Get now others now' k c in ∃ c1, (c1 = c ∨ c1 = others c) ∧ evicts now' c1 c' calls) ∧
  (let '(_, c', calls) := GetWithExpire now others now' k c in ∃ c1, (c1 = c ∨ c1 = others c) ∧ evicts now' c1 c' calls) ∧
  (∀ R (f : val → option (val * R)),
    let '(r, c', calls) := counter now k f c in r = inl CacheExpire → evicts now c c' calls) ∧
  (let '(c', calls) := DeleteExpire now range c in
   evicts now c c' calls ∧ (range ≡ₚ (map_to_list (member c)).*1 → member c' = view now c)) ∧
  (let '(c', calls) := Delete k c in
   member c' = delete k (member c) ∧ calls = captured c k (Val <$> member c !! k)).
Proof.
  split_and!.
  - unfold Get. destruct (member c !! k) as [i|]; [|exists c; split; [by left|apply evicts_refl]].
    destruct (Expired now i); simpl; [|exists c; split; [by left|apply evicts_refl]].
    pose proof (evict_if_expired_evicts now' k (others c)) as He.
    destruct (evict_if_expired now' k (others c)) as [c' calls]. exists (others c). split; [by right|done].
  - unfold GetWithExpire. destruct (member c !! k) as [i|]; [|exists c; split; [by left|apply evicts_refl]].
    destruct (Expired now i); simpl; [|exists c; split; [by left|apply evicts_refl]].
    pose proof (evict_if_expired_evicts now' k (others c)) as He.
    destruct (evict_if_expired now' k (others c)) as [c' calls]. exists (others c). split; [by right|done].
  - intros R f. unfold counter, expireEvictUnlock, delete_. destruct (member c !! k) as [i|] eqn:Hk; [|done].
    destruct (Expired now i) eqn:Hi; [intros _; by apply evicts_delete|by destruct (f (Val i)) as [[]|]].
  - pose proof (DeleteExpire_evicts now range c) as [He Hall]. destruct (DeleteExpire now range c) as [c' calls].
    split; [done|]. intros Hrange. simpl in *. destruct He as [Hsub Hlive _ _]. apply map_eq. intros j. rewrite cview_lookup.
    destruct (member c !! j) as [i|] eqn:Hj; simpl; [|by eapply lookup_weaken_None].
    destruct (Expired now i) eqn:Hi; [|by apply Hlive].
    destruct (member c' !! j) as [i'|] eqn:Hj'; [|done]. pose proof (lookup_weaken _ _ _ _ Hj' Hsub) as Hj''.
    assert (i' = i) as -> by congruence. rewrite (Hall j i) in Hi; [done| |done].
    rewrite Hrange. apply list_elem_of_fmap. exists (j, i). split; [done|by apply elem_of_map_to_list].
  - unfold Delete, delete_. destruct (member c !! k) as [i|] eqn:Hk; [done|]. split; [by rewrite delete_id|done].
Qed.

(** An expired entry that another goroutine replaces between the two locks of [Get]. *)
Definition stale_cache : cache := Set_ 10 "a" (VI KInt 1) 5 sample_cache.

Example cache_evictions_example :
  Get 20 (Set_ 21 "a" (VI KInt 2) 5) 22 "a" stale_cache = (None, Set_ 21 "a" (VI KInt 2) 5 stale_cache, []) ∧
  (Get 20 id 22 "a" stale_cache).2 = [mkCall 0 "a" (VI KInt 1)].
Proof. split; vm_compute; reflexivity. Qed.

(** ** Counters *)

Definition in_type (t : ikind) (x : Z) : Prop :=
  if isigned t then (- 2 ^ (iwidth t - 1) <= x < 2 ^ (iwidth t - 1))%Z else (0 <= x < 2 ^ iwidth t)%Z.

Lemma iwidth_pos t : (0 < iwidth t)%Z.
Proof. by destruct t. Qed.

Lemma conv_spec t x : in_type t (conv t x) ∧ (conv t x mod 2 ^ iwidth t = x mod 2 ^ iwidth t)%Z.
Proof.
  unfold in_type, conv. pose proof (iwidth_pos t). destruct (isigned t).
  - pose proof (wraps_range (iwidth t) x ltac:(lia)). split; [done|]. unfold wraps.
    rewrite Zminus_mod_idemp_l. f_equal. lia.
  - pose proof (wrapu_range (iwidth t) x ltac:(lia)). split; [done|]. unfold wrapu. apply Zmod_mod.
Qed.

(** A number of the type is determined by its residue. *)
Lemma in_type_unique t x y :
  in_type t x → in_type t y → (x mod 2 ^ iwidth t = y mod 2 ^ iwidth t)%Z → x = y.
Proof.
  unfold in_type. pose proof (iwidth_pos t) as Hw. intros Hx Hy Hm.
  assert (Hp : (2 ^ iwidth t = 2 * 2 ^ (iwidth t - 1))%Z)
    by (rewrite <- Z.pow_succ_r by lia; f_equal; lia).
  pose proof (Z.pow_pos_nonneg 2 (iwidth t - 1) ltac:(lia) ltac:(lia)) as Hpos.
  pose proof (Z.div_mod x (2 ^ iwidth t) ltac:(lia)) as Dx. pose proof (Z.div_mod y (2 ^ iwidth t) ltac:(lia)) as Dy.
  rewrite Hm in Dx. set (a := (x / 2 ^ iwidth t)%Z) in *. set (b := (y / 2 ^ iwidth t)%Z) in *.
  assert (Hd : (x - y = 2 ^ iwidth t * (a - b))%Z) by lia.
  assert (Hlt : (- 2 ^ iwidth t < x - y < 2 ^ iwidth t)%Z) by (destruct (isigned t); lia).
  assert (a = b) by nia. nia.
Qed.

Lemma conv_id t x : in_type t x → conv t x = x.
Proof. intros Hx. destruct (conv_spec t x) as [Hc Hm]. by apply (in_type_unique t). Qed.

Lemma conv_cong t x y : (x mod 2 ^ iwidth t = y mod 2 ^ iwidth t)%Z → conv t x = conv t y.
Proof.
  intros Hm. destruct (conv_spec t x) as [Hx Hmx], (conv_spec t y) as [Hy Hmy]. apply (in_type_unique t); congruence.
Qed.

Lemma conv_add t x y : conv t (x + conv t y) = conv t (x + y).
Proof.
  apply conv_cong. rewrite Zplus_mod, (proj2 (conv_spec t y)). symmetry. apply Zplus_mod.
Qed.

(** Adding and taking away again, modulo the width. *)
Lemma conv_sub_add t x n : in_type t x → conv t (conv t (x + n) - n) = x.
Proof.
  intros Hx. rewrite <- (conv_id t x Hx) at 2. apply conv_cong.
  rewrite Zminus_mod, (proj2 (conv_spec t (x + n))), <- Zminus_mod. f_equal. lia.
Qed.

Lemma counter_present {R} now k (f : val → option (val * R)) c i :
  member c !! k = Some i → Expired now i = false →
  counter now k f c =
    match f (Val i) with
    | None => (inl CacheTypeErr, c, [])
    | Some (x, ret) => (inr ret, set_member (<[k := mkIter x (Expire i)]> (member c)) c, [])
    end.
Proof. intros Hk Hi. unfold counter. by rewrite Hk, Hi. Qed.

(** On a valid entry of an integer type, the increment of that type and
    the untyped one both store the sum modulo the width of the type, in its
    range and exact when the sum fits, and keep the deadline; the decrement of
    that type by the same amount gives the cache back as it was; the
    increments of all other types report a type error and change nothing. *)
Theorem cache_counters (t : ikind) (now : Z) (k : string) (n x e : Z) (c : cache) :
  member c !! k = Some (mkIter (VI t x) e) → Expired now (mkIter (VI t x) e) = false → in_type t x →
  let y := conv t (x + n) in
  let c' := set_member (<[k := mkIter (VI t y) e]> (member c)) c in
  increment_of t now k n c = (inr y, c', []) ∧
  Increment now k n c = (inr tt, c', []) ∧
  in_type t y ∧ (y mod 2 ^ iwidth t = (x + n) mod 2 ^ iwidth t)%Z ∧ (in_type t (x + n) → y = (x + n)%Z) ∧
  decrement_of t now k n c' = (inr x, c, []) ∧
  ∀ t', t' ≠ t → increment_of t' now k n c = (inl CacheTypeErr, c, []).
Proof.
  intros Hk Hi Hx y c'. destruct (conv_spec t (x + n)) as [Hy Hm]. split_and!; try done.
  - rewrite increment_of_typed, (counter_present _ _ _ _ _ Hk Hi). simpl. by rewrite decide_True.
  - unfold Increment. rewrite (counter_present _ _ _ _ _ Hk Hi). simpl. by rewrite conv_add.
  - apply conv_id.
  - assert (Hk' : member c' !! k = Some (mkIter (VI t y) e)) by apply lookup_insert_eq.
    rewrite decrement_of_typed, (counter_present _ _ _ _ _ Hk') by done. simpl.
    rewrite decide_True by done. unfold y. rewrite conv_sub_add by done. unfold c', set_member. simpl.
    rewrite insert_insert_eq, insert_id by done. by destruct c.
  - intros t' Ht. rewrite increment_of_typed, (counter_present _ _ _ _ _ Hk Hi). simpl. by rewrite decide_False.
Qed.

Lemma cache_counters_witness :
  increment_of KInt8 20 "a" 100 (Set_ 10 "a" (VI KInt8 100) 0 sample_cache) =
    (inr (-56)%Z, set_member (<["a" := mkIter (VI KInt8 (-56)) 0]> (member (Set_ 10 "a" (VI KInt8 100) 0 sample_cache)))
                    (Set_ 10 "a" (VI KInt8 100) 0 sample_cache), []).
Proof.
  apply (cache_counters KInt8 20 "a" 100 100 0 (Set_ 10 "a" (VI KInt8 100) 0 sample_cache));
    vm_compute; intuition discriminate.
Defined.

(** Storing with the longest duration: the deadline wraps around into the past
    and the entry has expired at once. *)
Theorem cache_duration_overflow :
  (Get 1700000000000000001 id 1700000000000000001 "a"
     (Set_ 1700000000000000000 "a" (VI KInt 1) MaxInt64 sample_cache)).1.1 = None.
Proof. vm_compute. reflexivity. Qed.
