(* ===== verification/IoBuffer.v ===== *)
(** * I/O buffers

    Model of src/cache/buffer: byte_pool.go (the pool of byte slices by size
    class) and iobuffer.go (the growable buffer drawn from it).  A slice starts
    at the base of its array, which is the case for every slice of these files;
    its capacity is the length of the array.  A slice expression out of range, a
    [make] of a negative or too large size and an explicit [panic] are [None].  A
    sum of lengths of slices does not wrap, a sum with an offset or a count that a
    caller gives does.  Running out of memory is not modelled. *)

From S2P Require Import Prelude.

Open Scope Z_scope.

Definition bytes : Type := list Z.

Definition zlen (l : bytes) : Z := Z.of_nat (length l).
Definition ztake (n : Z) (l : bytes) : bytes := take (Z.to_nat n) l.
Definition zdrop (n : Z) (l : bytes) : bytes := drop (Z.to_nat n) l.

(** ** Slices *)

Record slice : Type := Slice { arr : bytes; len : Z; isnil : bool }.

Definition nullByte : slice := Slice [] 0 true.
Definition cap (s : slice) : Z := zlen (arr s).
(** [s[:n]], [s[n:]] and [s[a:b]], the last two as the bytes they show. *)
Definition reslice (s : slice) (n : Z) : option slice :=
  if (0 <=? n) && (n <=? cap s) then Some (Slice (arr s) n (isnil s)) else None.
Definition from (s : slice) (n : Z) : option bytes :=
  if (0 <=? n) && (n <=? len s) then Some (zdrop n (ztake (len s) (arr s))) else None.
Definition between (s : slice) (a b : Z) : option bytes :=
  if (0 <=? a) && (a <=? b) && (b <=? cap s) then Some (zdrop a (ztake b (arr s))) else None.
(** [copy(s[a:b], src)]: the slice after it and the number of bytes copied. *)
Definition copy_to (s : slice) (a b : Z) (src : bytes) : option (slice * Z) :=
  if (0 <=? a) && (a <=? b) && (b <=? cap s) then
    let d := ztake (b - a) src in
    Some (Slice (ztake a (arr s) ++ d ++ zdrop (a + zlen d) (arr s)) (len s) (isnil s), zlen d)
  else None.
(** [s[j] = x] *)
Definition set_at (s : slice) (j x : Z) : option slice :=
  if (0 <=? j) && (j <? len s) then Some (Slice (<[Z.to_nat j := x]> (arr s)) (len s) (isnil s)) else None.

(** ** byte_pool.go *)

Definition minShift : Z := 6.
Definition maxShift : Z := 18.
Definition errSlot : Z := -1.

(** [kept] is what a sync.Pool holds. *)
Record byteSlot : Type := ByteSlot { defaultSize : Z; kept : list slice }.

(** [gets] is what the next calls of sync.Pool's Get give: the position of an
    item among the kept ones, or nothing. *)
Record bytePool : Type := BytePool {
  pool_minShift : Z; minSize : Z; maxSize : Z; pool : list byteSlot; gets : list (option nat)
}.

Fixpoint shift_loop (fuel : nat) (size shift : Z) : Z :=
  match fuel with
  | O => shift
  | S fuel => if 0 <? size then shift_loop fuel (Z.shiftr size 1) (shift + 1) else shift
  end.

Definition slot (b : bytePool) (size : Z) : Z :=
  if maxSize b <? size then errSlot
  else if minSize b <? size then shift_loop 64 (size - 1) 0 - pool_minShift b
  else 0.

(** The largest allocation of the runtime on 64-bit machines: [make] panics on a
    larger or a negative size.  No slice is larger, so that only sums with a number
    that a caller chooses can wrap around. *)
Definition maxAlloc : Z := 2 ^ 48.

Definition newBytes (size : Z) : option slice :=
  if (0 <=? size) && (size <=? maxAlloc) then Some (Slice (replicate (Z.to_nat size) 0) size false) else None.

Definition at_slot (b : bytePool) (k : Z) : option byteSlot := if 0 <=? k then pool b !! Z.to_nat k else None.
Definition set_kept (b : bytePool) (k : Z) (l : list slice) : bytePool :=
  BytePool (pool_minShift b) (minSize b) (maxSize b)
    (alter (λ s, ByteSlot (defaultSize s) l) (Z.to_nat k) (pool b)) (gets b).

(** sync.Pool's Get on slot [k], which holds [s]. *)
Definition pool_get (b : bytePool) (k : Z) (s : byteSlot) : option slice * bytePool :=
  let b' := BytePool (pool_minShift b) (minSize b) (maxSize b) (pool b) (tail (gets b)) in
  match head (gets b) ≫= (λ choice, choice) with
  | Some j => match kept s !! j with Some v => (Some v, set_kept b' k (delete j (kept s))) | None => (None, b') end
  | None => (None, b')
  end.

Definition get (b : bytePool) (size : Z) : option (slice * bytePool) :=
  let slot := slot b size in
  if slot =? errSlot then ret ← newBytes size; Some (ret, b)
  else
    s ← at_slot b slot;
    match pool_get b slot s with
    | (None, b) => ret ← newBytes (defaultSize s); ret ← reslice ret size; Some (ret, b)
    | (Some v, b) => ret ← reslice v size; Some (ret, b)
    end.

Definition put (b : bytePool) (buf : option slice) : option bytePool :=
  match buf with
  | None => Some b
  | Some buf =>
      let size := cap buf in
      let slot := slot b size in
      if slot =? errSlot then Some b
      else
        s ← at_slot b slot;
        if negb (size =? defaultSize s) then Some b else Some (set_kept b slot (buf :: kept s))
  end.

Definition newBytePool (gets : list (option nat)) : bytePool :=
  BytePool minShift (Z.shiftl 1 minShift) (Z.shiftl 1 maxShift)
    (map (λ i, ByteSlot (Z.shiftl 1 (Z.of_nat i + minShift)) []) (seq 0 (Z.to_nat (maxShift - minShift) + 1))) gets.

Record BytePoolContainer : Type := { held : list (option slice); container_pool : bytePool }.

Fixpoint put_all (b : bytePool) (l : list (option slice)) : option bytePool :=
  match l with [] => Some b | buf :: l => b ← put b buf; put_all b l end.
Definition container_Reset (B : BytePoolContainer) : option BytePoolContainer :=
  b ← put_all (container_pool B) (held B); Some {| held := []; container_pool := b |}.
Definition container_Get (B : BytePoolContainer) (size : Z) : option (slice * BytePoolContainer) :=
  '(buf, b) ← get (container_pool B) size; Some (buf, {| held := held B ++ [Some buf]; container_pool := b |}).

(** ** iobuffer.go: the buffer *)

Definition AutoExpand : Z := -1.
Definition ResetOffMark : Z := -1.
Definition MinRead : Z := 2 ^ 9.
Definition MaxRead : Z := 2 ^ 17.
Definition DefaultSize : Z := 2 ^ 4.
Definition MaxBufferLength : Z := 2 ^ 20.
Definition MaxThreshold : Z := 2 ^ 22.

Inductive error : Type := IoEOF | ErrNegativeCount | ErrClosedPipeWrite | ErrDuplicate | ErrOther (what : Z).

#[export] Instance error_eq_dec : EqDecision error.
Proof. solve_decision. Defined.

(** [b] is the length of the pooled slice [*i.b], whose array is the array of
    [buffer] whenever [i.b] is not nil. *)
Record ioBuffer : Type := IoBuffer {
  buffer : slice; off : Z; offMark : Z; count : Z; eof : bool; b : option Z
}.

Definition set_buffer (i : ioBuffer) (s : slice) : ioBuffer := IoBuffer s (off i) (offMark i) (count i) (eof i) (b i).
Definition set_off (i : ioBuffer) (o : Z) : ioBuffer := IoBuffer (buffer i) o (offMark i) (count i) (eof i) (b i).
Definition set_mark (i : ioBuffer) (o : Z) : ioBuffer := IoBuffer (buffer i) (off i) o (count i) (eof i) (b i).
Definition set_b (i : ioBuffer) (p : option Z) : ioBuffer := IoBuffer (buffer i) (off i) (offMark i) (count i) (eof i) p.

(** [*i.b] *)
Definition pooled (i : ioBuffer) : option slice := (λ l, Slice (arr (buffer i)) l false) <$> b i.

Definition Len (i : ioBuffer) : Z := len (buffer i) - off i.
Definition Cap (i : ioBuffer) : Z := cap (buffer i).
Definition Bytes (i : ioBuffer) : option bytes := from (buffer i) (off i).
Definition String (i : ioBuffer) : option bytes := from (buffer i) (off i).
Definition Mark (i : ioBuffer) : ioBuffer := set_mark i (off i).
Definition Restore (i : ioBuffer) : ioBuffer :=
  if negb (offMark i =? ResetOffMark) then set_mark (set_off i (offMark i)) ResetOffMark else i.
Definition Reset (i : ioBuffer) : ioBuffer :=
  IoBuffer (Slice (arr (buffer i)) 0 (isnil (buffer i))) 0 ResetOffMark (count i) false (b i).
Definition Count (i : ioBuffer) (n : Z) : Z * ioBuffer :=
  let c := wraps 32 (count i + n) in (c, IoBuffer (buffer i) (off i) (offMark i) c (eof i) (b i)).
Definition EOF (i : ioBuffer) : bool := eof i.
Definition SetEOF (i : ioBuffer) (e : bool) : ioBuffer :=
  IoBuffer (buffer i) (off i) (offMark i) (count i) e (b i).

Definition Peek (i : ioBuffer) (n : Z) : option (option bytes) :=
  if n <? 0 then Some None
  else if len (buffer i) - off i <? n then Some None
  else Some <$> between (buffer i) (off i) (off i + n).

Definition Drain (i : ioBuffer) (offset : Z) : ioBuffer :=
  if offset <? 0 then i
  else if len (buffer i) <? int_add (off i) offset then i
  else set_mark (set_off i (int_add (off i) offset)) ResetOffMark.

(** The zero value of the fields that the composite literal leaves out is what
    the new buffer has for [offMark] and [count]. *)
Definition Cup (i : ioBuffer) (offset : Z) : option (option ioBuffer * ioBuffer) :=
  if len (buffer i) <? int_add (off i) offset then Some (None, i)
  else
    buf ← newBytes offset;
    d ← between (buffer i) (off i) (int_add (off i) offset);
    '(buf, _) ← copy_to buf 0 (len buf) d;
    Some (Some (IoBuffer buf 0 0 0 false None), set_mark (set_off i (int_add (off i) offset)) ResetOffMark).

(** [n] bytes wanted; the bytes copied to the caller. *)
Definition Read (i : ioBuffer) (n : Z) : option (bytes * option error * ioBuffer) :=
  if len (buffer i) <=? off i then
    let i := if 0 <? off i then Reset i else i in
    if n =? 0 then Some ([], None, i) else Some ([], Some IoEOF, i)
  else
    d ← from (buffer i) (off i);
    let d := ztake n d in
    Some (d, None, set_off i (off i + zlen d)).

(** *** Room for more *)

Definition copy (bp : bytePool) (i : ioBuffer) (expand : Z) : option (bytePool * ioBuffer) :=
  if (0 <? expand) || (expand =? AutoExpand) then
    let cap_ := cap (buffer i) in
    let cap_ :=
      if cap_ <? 2 * MinRead then 2 * MinRead
      else if cap_ <? MaxThreshold then 2 * cap_
      else cap_ + cap_ / 4 in
    let expand := if expand =? AutoExpand then 0 else expand in
    '(bufferP, bp) ← get bp (int_add cap_ expand);
    src ← from (buffer i) (off i);
    '(newBuf, _) ← copy_to bufferP 0 (len bufferP) src;
    bp ← put bp (pooled i);
    newBuf' ← reslice newBuf (len (buffer i) - off i);
    Some (bp, set_off (set_buffer (set_b i (Some (len bufferP))) newBuf') 0)
  else
    src ← from (buffer i) (off i);
    '(newBuf, _) ← copy_to (buffer i) 0 (len (buffer i)) src;
    newBuf' ← reslice newBuf (len (buffer i) - off i);
    Some (bp, set_off (set_buffer i newBuf') 0).

Definition tryGrowByRelies (i : ioBuffer) (n : Z) : option (option Z * ioBuffer) :=
  let l := len (buffer i) in
  if int_add l n <=? cap (buffer i) then s ← reslice (buffer i) (int_add l n); Some (Some l, set_buffer i s)
  else Some (None, i).

Definition grow (bp : bytePool) (i : ioBuffer) (n : Z) : option (Z * bytePool * ioBuffer) :=
  let m := Len i in
  let i := if (m =? 0) && negb (off i =? 0) then Reset i else i in
  '(ret, i) ← tryGrowByRelies i n;
  match ret with
  | Some ret => Some (ret, bp, i)
  | None =>
      '(bp, i) ← (if int_add m n <=? cap (buffer i) / 2 then copy bp i 0 else copy bp i n);
      let i := set_off i 0 in
      s ← reslice (buffer i) (int_add m n);
      Some (m, bp, set_buffer i s)
  end.

(** The first lines of Grow and of every Write: room for [n] bytes, and where. *)
Definition room (bp : bytePool) (i : ioBuffer) (n : Z) : option (Z * bytePool * ioBuffer) :=
  '(m, i) ← tryGrowByRelies i n;
  match m with Some m => Some (m, bp, i) | None => grow bp i n end.

Fixpoint zero_from (fuel : nat) (s : slice) (j : Z) : option slice :=
  if j <? len s then
    match fuel with O => None | S fuel => s ← set_at s j 0; zero_from fuel s (j + 1) end
  else Some s.

Definition Grow (bp : bytePool) (i : ioBuffer) (n : Z) : option (option error * bytePool * ioBuffer) :=
  if n <? 0 then Some (Some ErrNegativeCount, bp, i)
  else
    '(start, bp, i) ← room bp i n;
    if 0 <? n then
      s ← zero_from (Z.to_nat (len (buffer i) - start)) (buffer i) start; Some (None, bp, set_buffer i s)
    else Some (None, bp, i).

Definition Write (bp : bytePool) (i : ioBuffer) (p : bytes) : option (Z * option error * bytePool * ioBuffer) :=
  '(m, bp, i) ← room bp i (zlen p);
  '(s, n) ← copy_to (buffer i) m (len (buffer i)) p;
  Some (n, None, bp, set_buffer i s).

Definition WriteString (bp : bytePool) (i : ioBuffer) (s : bytes) : option (Z * option error * bytePool * ioBuffer) :=
  '(m, bp, i) ← room bp i (zlen s);
  '(s, n) ← copy_to (buffer i) m (len (buffer i)) s;
  Some (n, None, bp, set_buffer i s).

Definition WriteByte (bp : bytePool) (i : ioBuffer) (p : Z) : option (option error * bytePool * ioBuffer) :=
  '(m, bp, i) ← room bp i 1;
  s ← set_at (buffer i) m p;
  Some (None, bp, set_buffer i s).

(** binary.BigEndian: the bytes of [v], the most significant first. *)
Fixpoint big_endian (k : nat) (v : Z) : bytes :=
  match k with O => [] | S k => wrapu 8 (Z.shiftr v (8 * Z.of_nat k)) :: big_endian k v end.
(** binary.BigEndian.PutUint16/32/64 on [i.buffer[m:]], which panics when the
    slice is too short. *)
Definition put_uint (k : nat) (s : slice) (m v : Z) : option slice :=
  if (0 <=? m) && (m + Z.of_nat k <=? len s) then fst <$> copy_to s m (m + Z.of_nat k) (big_endian k v) else None.

Definition WriteUint16 (bp : bytePool) (i : ioBuffer) (p : Z) : option (option error * bytePool * ioBuffer) :=
  '(m, bp, i) ← room bp i 2;
  s ← put_uint 2 (buffer i) m p;
  Some (None, bp, set_buffer i s).
Definition WriteUint32 (bp : bytePool) (i : ioBuffer) (p : Z) : option (option error * bytePool * ioBuffer) :=
  '(m, bp, i) ← room bp i 4;
  s ← put_uint 4 (buffer i) m p;
  Some (None, bp, set_buffer i s).
Definition WriteUint64 (bp : bytePool) (i : ioBuffer) (p : Z) : option (option error * bytePool * ioBuffer) :=
  '(m, bp, i) ← room bp i 8;
  s ← put_uint 8 (buffer i) m p;
  Some (None, bp, set_buffer i s).

Definition Append (bp : bytePool) (i : ioBuffer) (data : bytes) : option (option error * bytePool * ioBuffer) :=
  let i := if (0 <? off i) && (len (buffer i) <=? off i) then Reset i else i in
  let dataLen := zlen data in
  let free := cap (buffer i) - len (buffer i) in
  '(bp, i) ← (if free <? dataLen then
                if dataLen <? off i + free then copy bp i 0 else copy bp i dataLen
              else Some (bp, i));
  '(s, m) ← copy_to (buffer i) (len (buffer i)) (len (buffer i) + dataLen) data;
  s ← reslice s (len s + m);
  Some (None, bp, set_buffer i s).

Definition AppendByte (bp : bytePool) (i : ioBuffer) (data : Z) : option (option error * bytePool * ioBuffer) :=
  Append bp i [data].

(** *** Storage *)

Definition putSlice (bp : bytePool) (i : ioBuffer) : option (bytePool * ioBuffer) :=
  match b i with
  | Some _ => bp ← put bp (pooled i); Some (bp, set_buffer (set_b i None) nullByte)
  | None => Some (bp, i)
  end.

Definition Free (bp : bytePool) (i : ioBuffer) : option (bytePool * ioBuffer) := putSlice bp (Reset i).

Definition Alloc (bp : bytePool) (i : ioBuffer) (size : Z) : option (bytePool * ioBuffer) :=
  '(bp, i) ← (if negb (isnil (buffer i)) then Free bp i else Some (bp, i));
  let size := if size <=? 0 then DefaultSize else size in
  '(s, bp) ← get bp size;
  s' ← reslice s 0;
  Some (bp, set_buffer (set_b i (Some (len s))) s').

Definition newIoBuffer (bp : bytePool) (size : Z) : option (bytePool * ioBuffer) :=
  let size := if size <=? 0 then DefaultSize else size in
  '(s, bp) ← get bp size;
  s' ← reslice s 0;
  Some (bp, IoBuffer s' 0 ResetOffMark 1 false (Some (len s))).

Definition NewIoBufferBytes (bp : bytePool) (s : slice) : option (bytePool * ioBuffer) :=
  if isnil s then newIoBuffer bp 0 else Some (bp, IoBuffer s 0 ResetOffMark 1 false None).

(** The bytes of a string that is not empty, and the slice made of them: its
    capacity is its length or more, [extra] bytes more. *)
Definition NewIoBufferString (bp : bytePool) (s : bytes) (extra : nat) : option (bytePool * ioBuffer) :=
  if zlen s =? 0 then newIoBuffer bp 0
  else Some (bp, IoBuffer (Slice (s ++ replicate extra 0) (zlen s) false) 0 ResetOffMark 1 false None).

Definition NewIoBufferEOF (bp : bytePool) : option (bytePool * ioBuffer) :=
  '(bp, i) ← newIoBuffer bp 0; Some (bp, SetEOF i true).

(** *** Readers and writers *)

(** io.Reader: a read into [n] bytes gives the bytes read and an error.  The
    contract of the interface bounds them by [n]; [left] bounds the bytes the
    reader still has, so that a loop over it ends. *)
Class Reader (R : Type) : Type := {
  read : R → Z → bytes * option error * R;
  left : R → nat;
  read_bound r n : 0 ≤ n → zlen (read r n).1.1 ≤ n;
  read_left r n : (left (read r n).2 + length (read r n).1.1 ≤ left r)%nat
}.

(** io.Writer: the number of bytes taken and an error. *)
Class Writer (W : Type) : Type := {
  write : W → bytes → Z * option error * W;
  write_bound w p : 0 ≤ (write w p).1.1 ≤ zlen p
}.

(** [m, err = r.Read(i.buffer[len(i.buffer):cap(i.buffer)])] and the slice with
    the bytes that were read. *)
Definition fill `{Reader R} (i : ioBuffer) (r : R) : option (Z * option error * ioBuffer * R) :=
  let '(d, e, r) := read r (cap (buffer i) - len (buffer i)) in
  '(s, _) ← copy_to (buffer i) (len (buffer i)) (cap (buffer i)) d;
  s ← reslice s (len s + zlen d);
  Some (zlen d, e, set_buffer i s, r).

Definition ReadOnce `{Reader R} (bp : bytePool) (i : ioBuffer) (r : R)
  : option (Z * option error * bytePool * ioBuffer * R) :=
  let i := if (0 <? off i) && (len (buffer i) <=? off i) then Reset i else i in
  '(bp, i) ← (if cap (buffer i) - len (buffer i) <=? off i then copy bp i 0 else Some (bp, i));
  '(bp, i) ← (if (off i =? len (buffer i)) && (MaxBufferLength <? cap (buffer i)) then
                '(bp, i) ← Free bp i; Alloc bp i MaxRead
              else Some (bp, i));
  let l := cap (buffer i) - len (buffer i) in
  '(m, e, i, r) ← fill i r;
  '(bp, i) ← (if l =? m then copy bp i AutoExpand else Some (bp, i));
  Some (m, e, bp, i, r).

Fixpoint read_loop `{Reader R} (fuel : nat) (bp : bytePool) (i : ioBuffer) (r : R) (n : Z)
  : option (Z * option error * bytePool * ioBuffer * R) :=
  match fuel with
  | O => None
  | S fuel =>
      let free := cap (buffer i) - len (buffer i) in
      '(bp, i) ← (if free <? MinRead then
                    if off i + free <? MinRead then copy bp i MinRead else copy bp i 0
                  else Some (bp, i));
      '(m, e, i, r) ← fill i r;
      let n := n + m in
      match e with
      | Some IoEOF => Some (n, None, bp, i, r)
      | Some e => Some (n, Some e, bp, i, r)
      | None => if m =? 0 then Some (n, None, bp, i, r) else read_loop fuel bp i r n
      end
  end.

Definition ReadFrom `{Reader R} (bp : bytePool) (i : ioBuffer) (r : R)
  : option (Z * option error * bytePool * ioBuffer * R) :=
  let i := if (0 <? off i) && (len (buffer i) <=? off i) then Reset i else i in
  read_loop (S (left r)) bp i r 0.

Fixpoint write_loop `{Writer W} (fuel : nat) (i : ioBuffer) (w : W) (n : Z)
  : option (Z * option error * ioBuffer * W) :=
  if off i <? len (buffer i) then
    match fuel with
    | O => None
    | S fuel =>
        let nBytes := Len i in
        d ← from (buffer i) (off i);
        let '(m, e, w) := write w d in
        if nBytes <? m then None
        else
          let i := set_off i (off i + m) in
          let n := n + m in
          match e with
          | Some e => Some (n, Some e, i, w)
          | None => if (m =? 0) || (m =? nBytes) then Some (n, None, i, w) else write_loop fuel i w n
          end
    end
  else Some (n, None, i, w).

Definition WriteTo `{Writer W} (i : ioBuffer) (w : W) : option (Z * option error * ioBuffer * W) :=
  write_loop (Z.to_nat (Len i)) i w 0.
