(* ===== verification/IoBufferThms.v ===== *)
(** * I/O buffers: the operations one by one

    The pool hands out slices of the length asked for, in the smallest size
    class that holds it; every operation of a buffer keeps its offsets within
    its slice, does not panic, and acts on the unread bytes as the same operation
    acts on a queue. *)

From S2P Require Import Prelude IoBuffer.

Open Scope Z_scope.


(** ** Lists by integer positions *)

Lemma zlen_app l k : zlen (l ++ k) = zlen l + zlen k.
Proof. unfold zlen. rewrite length_app. lia. Qed.

Lemma zlen_nonneg l : 0 ≤ zlen l.
Proof. unfold zlen. lia. Qed.

Lemma zlen_take n l : 0 ≤ n → zlen (ztake n l) = Z.min n (zlen l).
Proof. intros. unfold zlen, ztake. rewrite length_take. lia. Qed.

Lemma zlen_drop n l : 0 ≤ n → zlen (zdrop n l) = Z.max 0 (zlen l - n).
Proof. intros. unfold zlen, zdrop. rewrite length_drop. lia. Qed.

Lemma zlen_nil l : zlen l = 0 ↔ l = [].
Proof. unfold zlen. split; [intros H; apply length_zero_iff_nil; lia|intros ->; done]. Qed.

Lemma ztake_all n l : zlen l ≤ n → ztake n l = l.
Proof. intros. unfold ztake. apply take_ge. unfold zlen in *. lia. Qed.

Lemma ztake_nonpos n l : n ≤ 0 → ztake n l = [].
Proof. intros. unfold ztake. by replace (Z.to_nat n) with 0%nat by lia. Qed.

Lemma zdrop_all n l : zlen l ≤ n → zdrop n l = [].
Proof. intros. unfold zdrop. apply drop_ge. unfold zlen in *. lia. Qed.

Lemma zdrop_nonpos n l : n ≤ 0 → zdrop n l = l.
Proof. intros. unfold zdrop. by replace (Z.to_nat n) with 0%nat by lia. Qed.

Lemma ztake_app n l k : n = zlen l → ztake n (l ++ k) = l.
Proof. intros ->. unfold ztake, zlen. rewrite Nat2Z.id. apply take_app_length. Qed.

Lemma ztake_app_ge n l k : zlen l ≤ n → ztake n (l ++ k) = l ++ ztake (n - zlen l) k.
Proof. intros. unfold ztake, zlen in *. rewrite take_app, take_ge by lia. do 2 f_equal. lia. Qed.

Lemma zdrop_app n l k : n ≤ zlen l → zdrop n (l ++ k) = zdrop n l ++ k.
Proof. intros. unfold zdrop, zlen in *. apply drop_app_le. lia. Qed.

Lemma zdrop_zdrop a n l : 0 ≤ a → 0 ≤ n → zdrop a (zdrop n l) = zdrop (n + a) l.
Proof. intros. unfold zdrop. rewrite drop_drop. f_equal. lia. Qed.

Lemma zdrop_ztake a n l : 0 ≤ a → 0 ≤ n → zdrop a (ztake (a + n) l) = ztake n (zdrop a l).
Proof. intros. unfold zdrop, ztake. rewrite take_drop_commute. do 2 f_equal. lia. Qed.

Lemma ztake_ztake a n l : a ≤ n → ztake a (ztake n l) = ztake a l.
Proof. intros. unfold ztake. rewrite take_take. f_equal. lia. Qed.

Lemma ztake_zdrop n l : ztake n l ++ zdrop n l = l.
Proof. apply take_drop. Qed.

Lemma int_add_small a b : 0 ≤ a → 0 ≤ b → a + b ≤ 2 ^ 50 → int_add a b = a + b.
Proof. intros. apply wraps64_id. unfold is_int, MinInt64, MaxInt64. lia. Qed.

(** ** The byte pool *)

Lemma shift_loop_spec fuel x acc :
  0 ≤ x < 2 ^ Z.of_nat fuel → shift_loop fuel x acc = acc + (if 0 <? x then Z.log2 x + 1 else 0).
Proof.
  revert x acc. induction fuel as [|fuel IH]; intros x acc Hx.
  { simpl in Hx. replace x with 0 by lia. simpl. lia. }
  cbn [shift_loop]. destruct (Z.ltb_spec 0 x); [|lia].
  rewrite Nat2Z.inj_succ, Z.pow_succ_r in Hx by lia.
  rewrite Z.shiftr_div_pow2 by lia. change (2 ^ 1) with 2.
  rewrite IH by (split; [apply Z.div_pos; lia|apply Z.div_lt_upper_bound; lia]).
  destruct (Z.ltb_spec 0 (x / 2)) as [Hp|Hp].
  - assert (2 ≤ x) by (destruct (Z.lt_ge_cases x 2); [rewrite Z.div_small in Hp by lia; lia|done]).
    assert (Z.log2 (x / 2) = Z.log2 x - 1) as ->; [|lia].
    replace (x / 2) with (Z.shiftr x 1) by (rewrite Z.shiftr_div_pow2; [done|lia]).
    rewrite Z.log2_shiftr by lia. assert (1 ≤ Z.log2 x) by (apply Z.log2_le_pow2; lia). lia.
  - assert (x = 1) as -> by (pose proof (Z.div_mod x 2 ltac:(lia)); pose proof (Z.mod_pos_bound x 2 ltac:(lia)); lia).
    simpl. lia.
Qed.

Definition slot_ok (k : nat) (s : byteSlot) : Prop :=
  defaultSize s = 2 ^ (Z.of_nat k + 6) ∧ Forall (λ v, cap v = defaultSize s ∧ isnil v = false) (kept s).

Record pool_ok (b : bytePool) : Prop := {
  ok_shift : pool_minShift b = 6;
  ok_min : minSize b = 2 ^ 6;
  ok_max : maxSize b = 2 ^ 18;
  ok_length : length (pool b) = 13%nat;
  ok_slots k s : pool b !! k = Some s → slot_ok k s
}.

Lemma newBytePool_ok l : pool_ok (newBytePool l).
Proof.
  split; try done. intros k s Hk. simpl in Hk.
  do 13 (destruct k as [|k]; [simpl in Hk; injection Hk as <-; split; [done|constructor]|]).
  done.
Qed.

(** The class of a size: none above 2^18, the smallest that holds it otherwise. *)
Lemma slot_spec b size :
  pool_ok b → 0 ≤ size →
  (2 ^ 18 < size ∧ slot b size = errSlot) ∨
  (size ≤ 2 ^ 18 ∧ 0 ≤ slot b size ≤ 12 ∧ size ≤ 2 ^ (slot b size + 6) ∧
   (slot b size = 0 ∨ 2 ^ (slot b size + 5) < size)).
Proof.
  intros Hb Hs. unfold slot. rewrite (ok_max _ Hb), (ok_min _ Hb), (ok_shift _ Hb).
  destruct (Z.ltb_spec (2 ^ 18) size); [by left|right].
  destruct (Z.ltb_spec (2 ^ 6) size); [|simpl; lia].
  assert (2 ^ 6 = 64) as E6 by done. assert (2 ^ 18 = 262144) as E18 by done.
  rewrite shift_loop_spec by (change (2 ^ Z.of_nat 64) with 18446744073709551616; lia).
  destruct (Z.ltb_spec 0 (size - 1)); [|lia].
  pose proof (Z.log2_spec (size - 1) ltac:(lia)) as [Hl Hu].
  assert (6 ≤ Z.log2 (size - 1)) by (apply Z.log2_le_pow2; lia).
  assert (Z.log2 (size - 1) < 18) by (apply Z.log2_lt_pow2; lia).
  set (k := Z.log2 (size - 1)) in *.
  replace (0 + (k + 1) - 6 + 6) with (Z.succ k) by lia. replace (0 + (k + 1) - 6 + 5) with k by lia. lia.
Qed.

Lemma at_slot_ok b k : pool_ok b → 0 ≤ k ≤ 12 → ∃ s, at_slot b k = Some s ∧ slot_ok (Z.to_nat k) s.
Proof.
  intros Hb Hk. unfold at_slot. destruct (Z.leb_spec 0 k); [|lia].
  destruct (lookup_lt_is_Some_2 (pool b) (Z.to_nat k)) as [s Hs]; [rewrite (ok_length _ Hb); lia|].
  exists s. split; [done|]. by apply (ok_slots _ Hb).
Qed.

Lemma set_kept_ok b k l :
  pool_ok b → 0 ≤ k → Forall (λ v, cap v = 2 ^ (k + 6) ∧ isnil v = false) l → pool_ok (set_kept b k l).
Proof.
  intros Hb Hk Hl. split; simpl; try apply Hb.
  - rewrite length_alter. apply Hb.
  - intros j s Hj. destruct (decide (j = Z.to_nat k)) as [->|Hne].
    + rewrite list_lookup_alter_eq, fmap_Some in Hj. destruct Hj as (s0 & E & ->). destruct (ok_slots _ Hb _ _ E) as [Hd _].
      split; [done|]. simpl. rewrite Hd, Z2Nat.id by lia. done.
    + rewrite list_lookup_alter_ne in Hj by done. by apply (ok_slots _ Hb).
Qed.

Lemma newBytes_spec n : 0 ≤ n ≤ maxAlloc → ∃ s, newBytes n = Some s ∧ len s = n ∧ cap s = n ∧ isnil s = false.
Proof.
  intros. unfold newBytes. destruct (Z.leb_spec 0 n); [|lia]. destruct (Z.leb_spec n maxAlloc); [|lia]. eexists. split; [done|].
  simpl. split; [done|]. split; [|done]. unfold cap, zlen. simpl. rewrite length_replicate. lia.
Qed.

Lemma reslice_ok s n : 0 ≤ n ≤ cap s → reslice s n = Some (Slice (arr s) n (isnil s)).
Proof. intros. unfold reslice. destruct (Z.leb_spec 0 n); [|lia]. by destruct (Z.leb_spec n (cap s)); [|lia]. Qed.

Lemma pool_get_ok b k s :
  pool_ok b → 0 ≤ k ≤ 12 → slot_ok (Z.to_nat k) s →
  ∃ v b', pool_get b k s = (v, b') ∧ pool_ok b' ∧
    ∀ x, v = Some x → cap x = defaultSize s ∧ isnil x = false.
Proof.
  intros Hb Hk [Hd Hs]. unfold pool_get.
  set (b' := BytePool _ _ _ _ _). assert (pool_ok b') as Hb' by (split; apply Hb).
  destruct (head (gets b) ≫= _) as [j|]; [|by eexists None, _; split_and!].
  destruct (kept s !! j) as [v|] eqn:E; [|by eexists None, _; split_and!].
  eexists (Some v), _. split; [done|]. split.
  - apply set_kept_ok; [done|lia|]. rewrite Z2Nat.id in Hd by lia.
    apply list.Forall_delete. rewrite <- Hd. done.
  - intros x [= ->]. rewrite list.Forall_lookup in Hs. eauto.
Qed.

(** A slice from the pool has the length asked for and a capacity that holds it. *)
Lemma get_spec b size :
  pool_ok b → 0 ≤ size ≤ maxAlloc →
  ∃ s b', get b size = Some (s, b') ∧ pool_ok b' ∧ len s = size ∧ isnil s = false ∧
    (2 ^ 18 < size ∧ cap s = size ∨ size ≤ 2 ^ 18 ∧ cap s = 2 ^ (slot b size + 6) ∧ size ≤ cap s).
Proof.
  intros Hb Hs. unfold get. destruct (slot_spec b size Hb ltac:(lia)) as [[Hbig ->]|(Hle & Hk & Hfit & _)].
  - destruct (newBytes_spec size Hs) as (s & -> & ? & ? & ?). exists s, b. simpl. eauto 10.
  - destruct (Z.eqb_spec (slot b size) errSlot) as [E|_]; [unfold errSlot in E; lia|].
    destruct (at_slot_ok b _ Hb Hk) as (s & -> & Hok). cbn [mbind option_bind].
    destruct (pool_get_ok b _ s Hb Hk Hok) as (v & b' & -> & Hb' & Hv).
    destruct Hok as [Hd _]. rewrite Z2Nat.id in Hd by lia.
    destruct v as [v|].
    + destruct (Hv v eq_refl) as [Hc Hn]. rewrite reslice_ok by lia. simpl. eexists _, b'.
      split; [done|]. unfold cap in *. simpl. rewrite Hc, Hd. eauto 10.
    + destruct (newBytes_spec (defaultSize s)) as (x & -> & ? & Hc & ?).
      { rewrite Hd. split; [lia|]. apply Z.pow_le_mono_r; lia. } cbn [mbind option_bind].
      rewrite reslice_ok by lia. simpl. eexists _, b'. split; [done|]. unfold cap in *. simpl. rewrite Hc, Hd. eauto 10.
Qed.

Lemma put_spec b x :
  pool_ok b → (∀ s, x = Some s → isnil s = true → cap s = 0) → ∃ b', put b x = Some b' ∧ pool_ok b'.
Proof.
  intros Hb Hx. unfold put. destruct x as [s|]; [|by exists b].
  destruct (slot_spec b (cap s) Hb (zlen_nonneg _)) as [[Hbig ->]|(Hle & Hk & Hfit & _)]; [by exists b|].
  destruct (Z.eqb_spec (slot b (cap s)) errSlot) as [E|_]; [unfold errSlot in E; lia|].
  destruct (at_slot_ok b _ Hb Hk) as (t & -> & Hok). cbn [mbind option_bind].
  destruct (Z.eqb_spec (cap s) (defaultSize t)) as [E|]; simpl; [|by exists b].
  eexists. split; [done|]. destruct Hok as [Hd Ht]. rewrite Z2Nat.id in Hd by lia.
  apply set_kept_ok; [done|lia|]. constructor; [|by rewrite <- Hd]. split; [congruence|].
  destruct (isnil s) eqn:Hn; [|done]. specialize (Hx s eq_refl Hn).
  pose proof (Z.pow_pos_nonneg 2 (slot b (cap s) + 6) ltac:(lia) ltac:(lia)). lia.
Qed.

(** ** The buffer *)

(** The capacities in use, and the bytes that a buffer holds at a time: the
    capacity is at most about five times the most bytes it held. *)
Abbreviation wide := (2 ^ 44).
Abbreviation most := (2 ^ 40).

Definition wf (i : ioBuffer) : Prop :=
  0 ≤ off i ≤ len (buffer i) ∧ len (buffer i) ≤ cap (buffer i) ≤ wide ∧ (isnil (buffer i) = true → cap (buffer i) = 0).
(** What has been written and not read: [buffer[off:]]. *)
Definition unread (i : ioBuffer) : bytes := zdrop (off i) (ztake (len (buffer i)) (arr (buffer i))).
(** The fields no movement of the bytes touches. *)
Definition kept_fields (i j : ioBuffer) : Prop := offMark j = offMark i ∧ count j = count i ∧ eof j = eof i.

Lemma from_ok i : wf i → from (buffer i) (off i) = Some (unread i).
Proof.
  intros [[H1 H2] _]. unfold from. destruct (Z.leb_spec 0 (off i)); [|lia].
  by destruct (Z.leb_spec (off i) (len (buffer i))); [|lia].
Qed.

Lemma unread_len i : wf i → zlen (unread i) = Len i.
Proof.
  intros [H1 H2]. unfold unread, Len. rewrite zlen_drop by lia. rewrite zlen_take by lia.
  unfold cap in H2. lia.
Qed.

Lemma copy_to_ok s a n d :
  0 ≤ a ≤ n → n ≤ cap s → zlen d ≤ n - a →
  copy_to s a n d = Some (Slice (ztake a (arr s) ++ d ++ zdrop (a + zlen d) (arr s)) (len s) (isnil s), zlen d).
Proof.
  intros Ha Hn Hd. unfold copy_to. destruct (Z.leb_spec 0 a); [|lia]. destruct (Z.leb_spec a n); [|lia].
  destruct (Z.leb_spec n (cap s)); [|lia]. cbn [andb]. by rewrite (ztake_all (n - a) d Hd).
Qed.

Lemma splice_cap s a n d k :
  0 ≤ a ≤ n → n ≤ cap s → zlen d ≤ n - a →
  cap (Slice (ztake a (arr s) ++ d ++ zdrop (a + zlen d) (arr s)) k (isnil s)) = cap s.
Proof.
  intros Ha Hn Hd. unfold cap in *. simpl. pose proof (zlen_nonneg d).
  rewrite !zlen_app, zlen_take, zlen_drop by lia. lia.
Qed.

Lemma Reset_ok i :
  wf i → wf (Reset i) ∧ unread (Reset i) = [] ∧ off (Reset i) = 0 ∧ cap (buffer (Reset i)) = cap (buffer i).
Proof.
  intros Hi. split; [unfold wf, cap in *; simpl; pose proof (zlen_nonneg (arr (buffer i))); split_and!; try lia; apply Hi|].
  unfold unread. simpl. rewrite ztake_nonpos, zdrop_nonpos by lia. by split_and!.
Qed.

Lemma unread_nil i : wf i → len (buffer i) ≤ off i → unread i = [].
Proof. intros Hi H. apply zlen_nil. rewrite unread_len by done. unfold Len. destruct Hi. lia. Qed.

(** Moving the unread bytes to the start of a slice that holds them. *)
Lemma moved_ok (i : ioBuffer) (s : slice) :
  wf i → Len i ≤ cap s →
  let s' := Slice (unread i ++ zdrop (zlen (unread i)) (arr s)) (len (buffer i) - off i) (isnil s) in
  0 ≤ len s' ≤ cap s' ∧ cap s' = cap s ∧ zdrop 0 (ztake (len s') (arr s')) = unread i.
Proof.
  intros Hi Hs s'. pose proof (unread_len i Hi) as Hl. unfold s', cap, Len in *. simpl.
  rewrite zlen_app, zlen_drop by apply zlen_nonneg. rewrite zdrop_nonpos by lia.
  rewrite ztake_app by lia. destruct Hi. pose proof (zlen_nonneg (unread i)). split_and!; [lia|lia|lia|done].
Qed.

Lemma copy_0 bp i :
  wf i →
  ∃ i', copy bp i 0 = Some (bp, i') ∧ wf i' ∧ unread i' = unread i ∧ off i' = 0 ∧
    cap (buffer i') = cap (buffer i) ∧ kept_fields i i'.
Proof.
  intros Hi. unfold copy. cbn [Z.ltb Z.compare Z.eqb orb AutoExpand]. rewrite from_ok by done. cbn [mbind option_bind].
  pose proof (unread_len i Hi) as Hl. pose proof (moved_ok i (buffer i) Hi) as Hm. destruct Hi as [H1 H2]. unfold Len in *.
  rewrite copy_to_ok by lia. cbn [mbind option_bind].
  rewrite ztake_nonpos, app_nil_l, Z.add_0_l by lia.
  destruct Hm as (Ha & Hc & Hu); [lia|]. rewrite reslice_ok; [|unfold cap in *; simpl in *; lia].
  cbn [mbind option_bind]. eexists. split; [done|]. unfold wf, unread, kept_fields in *. simpl in *.
  split; [unfold cap in *; simpl in *; split_and!; try lia; intros; rewrite Hc; by apply H2|].
  split; [exact Hu|]. split; [done|]. split; [exact Hc|done].
Qed.

Lemma copy_expand bp i e :
  wf i → pool_ok bp → 0 < e ∨ e = AutoExpand → 2 * cap (buffer i) + 1024 + Z.max 0 e ≤ wide →
  ∃ bp' i', copy bp i e = Some (bp', i') ∧ pool_ok bp' ∧ wf i' ∧ unread i' = unread i ∧ off i' = 0 ∧
    cap (buffer i) + Z.max 0 e + 1 ≤ cap (buffer i') ∧ kept_fields i i'.
Proof.
  intros Hi Hb He Hw. unfold copy.
  replace ((0 <? e) || (e =? AutoExpand)) with true
    by (destruct He as [He| ->]; [by destruct (Z.ltb_spec 0 e); [|lia]|done]).
  set (c := if cap (buffer i) <? 2 * MinRead then _ else _).
  assert (cap (buffer i) < c ≤ 2 * cap (buffer i) + 1024) as Hc.
  { unfold c, MinRead, MaxThreshold. pose proof (zlen_nonneg (arr (buffer i))). fold (cap (buffer i)) in *.
    repeat case_match; rewrite ?Z.ltb_lt, ?Z.ltb_ge in *; try lia.
    assert (1 ≤ cap (buffer i) / 4 ≤ cap (buffer i)); [|lia].
    split; [apply Z.div_le_lower_bound; lia|apply Z.div_le_upper_bound; lia]. }
  set (e' := if e =? AutoExpand then 0 else e).
  assert (e' = Z.max 0 e) as -> by (unfold e', AutoExpand in *; case_match; rewrite ?Z.eqb_eq, ?Z.eqb_neq in *; lia).
  pose proof (unread_len i Hi) as Hl. pose proof Hi as [H1 H2]. unfold Len in *.
  pose proof (zlen_nonneg (arr (buffer i))). fold (cap (buffer i)) in *.
  rewrite int_add_small by lia.
  destruct (get_spec bp (c + Z.max 0 e) Hb ltac:(unfold maxAlloc; lia)) as (s & bp1 & -> & Hb1 & Hs & Hn & Hcap0).
  assert (cap s ≤ wide ∧ c + Z.max 0 e ≤ cap s) as Hcap.
  { destruct Hcap0 as [[? ->]|(Hle & -> & Hge)]; [lia|]. split; [|done].
    destruct (slot_spec bp (c + Z.max 0 e) Hb ltac:(lia)) as [[? _]|(_ & ? & _ & _)]; [lia|]. apply Z.pow_le_mono_r; lia. }
  clear Hcap0.
  cbn [mbind option_bind]. rewrite from_ok by done. cbn [mbind option_bind].
  rewrite copy_to_ok by lia. cbn [mbind option_bind].
  destruct (put_spec bp1 (pooled i) Hb1) as (bp2 & -> & Hb2).
  { intros x. unfold pooled. rewrite fmap_Some. by intros (? & ? & ->). }
  cbn [mbind option_bind]. rewrite ztake_nonpos, app_nil_l, Z.add_0_l by lia.
  destruct (moved_ok i s Hi) as (Ha & Hm & Hu); [unfold Len; lia|].
  rewrite reslice_ok; [|unfold cap in *; simpl in *; lia].
  cbn [mbind option_bind]. eexists bp2, _. split; [done|]. split; [done|]. unfold wf, unread, kept_fields in *. simpl in *.
  split; [unfold cap in *; simpl in *; split_and!; [lia..|congruence]|].
  split; [exact Hu|]. split; [done|]. split; [|done]. unfold cap in *. simpl in *. lia.
Qed.

(** Room for [n] bytes after the unread ones. *)
Definition roomy (i : ioBuffer) (n : Z) (m : Z) (j : ioBuffer) : Prop :=
  wf j ∧ len (buffer j) = m + n ∧ off j ≤ m ≤ len (buffer i) ∧
  zdrop (off j) (ztake m (arr (buffer j))) = unread i.

Lemma tryGrow_spec i n :
  wf i → 0 ≤ n ≤ most →
  (tryGrowByRelies i n = Some (None, i) ∧ cap (buffer i) < len (buffer i) + n) ∨
  ∃ j, tryGrowByRelies i n = Some (Some (len (buffer i)), j) ∧ roomy i n (len (buffer i)) j.
Proof.
  intros Hi Hn. unfold tryGrowByRelies. rewrite int_add_small by (unfold wf in Hi; lia).
  destruct (Z.leb_spec (len (buffer i) + n) (cap (buffer i))); [right|by left].
  pose proof Hi as [H1 H2]. rewrite reslice_ok by lia. eexists. split; [done|].
  unfold roomy, wf, unread, cap in *. simpl. split_and!; try lia; [apply Hi|done].
Qed.

Lemma grow_spec bp i n :
  wf i → pool_ok bp → 0 < n → len (buffer i) + n ≤ most →
  ∃ m bp' j, grow bp i n = Some (m, bp', j) ∧ pool_ok bp' ∧ roomy i n m j.
Proof.
  intros Hi Hb Hn Hm. unfold grow.
  set (i0 := if _ && _ then Reset i else i).
  assert (wf i0 ∧ unread i0 = unread i ∧ Len i0 = Len i ∧ len (buffer i0) ≤ len (buffer i)) as (Hi0 & Hu & HL & Hle).
  { unfold i0. destruct (Z.eqb_spec (Len i) 0) as [E|]; [|done]. simpl. destruct (negb _); [|done].
    destruct (Reset_ok i Hi) as (H1 & H2 & _). split; [done|]. split.
    - rewrite H2, unread_nil; [done|done|unfold Len in E; lia].
    - split; [by rewrite E, <- unread_len, H2 by done|]. destruct Hi. simpl. lia. }
  destruct (tryGrow_spec i0 n Hi0) as [[-> Hc]|(j & -> & Hr)]; [unfold wf in *; lia| |].
  2:{ cbn [mbind option_bind]. eexists _, bp, j. split; [done|]. split; [done|].
      unfold roomy in *. rewrite <- Hu. destruct Hr as (? & ? & ? & ?). split_and!; try done; lia. }
  cbn [mbind option_bind]. rewrite <- HL. rewrite int_add_small by (unfold Len, wf in *; lia).
  assert (∃ bp' j, (if Len i0 + n <=? cap (buffer i0) / 2 then copy bp i0 0 else copy bp i0 n) = Some (bp', j) ∧
    pool_ok bp' ∧ wf j ∧ unread j = unread i0 ∧ off j = 0 ∧ Len i0 + n ≤ cap (buffer j)) as (bp' & j & -> & Hb' & Hj & Hju & Ho & Hcj).
  { destruct (Z.leb_spec (Len i0 + n) (cap (buffer i0) / 2)) as [Hh|].
    - destruct (copy_0 bp i0 Hi0) as (j & -> & ? & ? & ? & Hcj & _). exists bp, j. split_and!; try done.
      rewrite Hcj. unfold Len in *. destruct Hi0. assert (cap (buffer i0) / 2 ≤ cap (buffer i0)); [|lia].
      apply Z.div_le_upper_bound; lia.
    - destruct (copy_expand bp i0 n Hi0 Hb) as (bp' & j & -> & ? & ? & ? & ? & Hcj & _); [lia| |].
      { assert (cap (buffer i0) < 2 * (Len i0 + n) + 2); [|unfold Len, wf in *; lia].
        pose proof (Z.div_mod (cap (buffer i0)) 2 ltac:(lia)). pose proof (Z.mod_pos_bound (cap (buffer i0)) 2 ltac:(lia)). lia. }
      exists bp', j. split_and!; try done. unfold Len in *. destruct Hi0. lia. }
  cbn [mbind option_bind]. pose proof (unread_len i0 Hi0) as Hl. pose proof (zlen_nonneg (unread i0)).
  rewrite reslice_ok by (simpl; lia). cbn [mbind option_bind]. eexists _, bp', _. split; [done|]. split; [done|].
  pose proof (unread_len j Hj) as Hlj. rewrite Hju, Hl in Hlj. unfold Len in Hlj. rewrite Ho in Hlj.
  unfold roomy, wf, cap, Len in *. simpl. split_and!; try lia; [apply Hj|].
  rewrite <- Hu, <- Hju. unfold unread, Len. rewrite Ho. do 2 f_equal. lia.
Qed.

Lemma room_spec bp i n :
  wf i → pool_ok bp → 0 ≤ n → len (buffer i) + n ≤ most → ∃ m bp' j, room bp i n = Some (m, bp', j) ∧ pool_ok bp' ∧ roomy i n m j.
Proof.
  intros Hi Hb Hn Hm. unfold room.
  destruct (tryGrow_spec i n Hi) as [[-> Hc]|(j & -> & Hr)]; [unfold wf in Hi; lia|cbn [mbind option_bind]..].
  - apply grow_spec; [done|done| |done]. destruct Hi. lia.
  - eauto 10.
Qed.

(** What an operation leaves: a pool and a buffer as they should be, with [q]
    unread and at most [k] more bytes in its slice. *)
Record becomes (i : ioBuffer) (q : bytes) (k : Z) (bp' : bytePool) (i' : ioBuffer) : Prop := {
  became_pool : pool_ok bp';
  became_wf : wf i';
  became_unread : unread i' = q;
  became_len : len (buffer i') ≤ len (buffer i) + k
}.

(** Slice [s] is the one of [j] with [p] from position [m]. *)
Definition stored (j : ioBuffer) (m : Z) (p : bytes) (s : slice) : Prop :=
  arr s = ztake m (arr (buffer j)) ++ p ++ zdrop (m + zlen p) (arr (buffer j)) ∧ len s = len (buffer j) ∧
  isnil s = isnil (buffer j).

Lemma stored_becomes bp i n m j p s :
  pool_ok bp → roomy i n m j → zlen p = n → stored j m p s → becomes i (unread i ++ p) n bp (set_buffer j s).
Proof.
  intros Hb (Hj & Hl & Ho & Hu) Hn (Ha & Hs & Hnil). pose proof (zlen_nonneg p). unfold wf, cap in Hj.
  assert (zlen (ztake m (arr (buffer j))) = m) as Hm by (rewrite zlen_take by lia; lia).
  split; [done| | |simpl; lia].
  - unfold wf, cap. simpl. rewrite Hs, Ha, Hnil, !zlen_app, Hm, zlen_drop by lia. split_and!; try lia.
    intros E. apply Hj in E. lia.
  - unfold unread at 1. simpl. rewrite Hs, Ha, Hl, ztake_app_ge by lia.
    rewrite (ztake_app (m + n - _)) by lia. rewrite zdrop_app by lia. by rewrite Hu.
Qed.

Lemma store_copy i n m j p :
  roomy i n m j → zlen p = n → ∃ s, copy_to (buffer j) m (len (buffer j)) p = Some (s, n) ∧ stored j m p s.
Proof.
  intros (Hj & Hl & Ho & Hu) Hn. unfold wf, cap in Hj. pose proof (zlen_nonneg p).
  rewrite copy_to_ok by (unfold cap; lia). rewrite Hn. eexists. split; [done|]. split_and!; simpl; by rewrite ?Hn.
Qed.

Lemma big_endian_len k v : zlen (big_endian k v) = Z.of_nat k.
Proof. unfold zlen. induction k as [|k IH]; [done|]. simpl. lia. Qed.

Lemma store_uint i k m j v :
  roomy i (Z.of_nat k) m j → ∃ s, put_uint k (buffer j) m v = Some s ∧ stored j m (big_endian k v) s.
Proof.
  intros Hr. destruct (store_copy _ _ _ _ (big_endian k v) Hr (big_endian_len k v)) as (s & Hs & Hst).
  destruct Hr as (Hj & Hl & Ho & _). unfold wf in Hj. unfold put_uint. rewrite <- Hl, Hs.
  destruct (Z.leb_spec 0 m); [|lia]. destruct (Z.leb_spec (len (buffer j)) (len (buffer j))); [|lia]. by exists s.
Qed.

Lemma store_at j m x :
  0 ≤ m < len (buffer j) → len (buffer j) ≤ cap (buffer j) →
  ∃ s, set_at (buffer j) m x = Some s ∧ stored j m [x] s.
Proof.
  intros Hm Hc. unfold set_at. destruct (Z.leb_spec 0 m); [|lia]. destruct (Z.ltb_spec m (len (buffer j))); [|lia].
  eexists. split; [done|]. split; [|done]. simpl. unfold cap, zlen, ztake, zdrop in *.
  unfold bytes. rewrite insert_take_drop by lia. simpl. do 2 f_equal. f_equal. lia.
Qed.

Lemma zero_from_ok k s j :
  len s - j = Z.of_nat k → 0 ≤ j → len s ≤ cap s →
  ∃ s', zero_from k s j = Some s' ∧ len s' = len s ∧ isnil s' = isnil s ∧
    arr s' = ztake j (arr s) ++ replicate k 0 ++ zdrop (len s) (arr s).
Proof.
  revert s j. induction k as [|k IH]; intros s j Hk Hj Hc; cbn [zero_from].
  - destruct (Z.ltb_spec j (len s)); [lia|]. exists s. replace (len s) with j by lia.
    split_and!; try done. simpl. by rewrite ztake_zdrop.
  - destruct (Z.ltb_spec j (len s)); [|lia].
    destruct (store_at (IoBuffer s 0 0 0 false None) j 0) as (s1 & E & Ha & Hl & Hn); [simpl in *; lia|simpl in *; lia|].
    cbn [buffer] in *. rewrite E. cbn [mbind option_bind]. unfold cap in *.
    assert (zlen (ztake j (arr s)) = j) as Hz by (rewrite zlen_take by lia; lia).
    destruct (IH s1 (j + 1)) as (s' & -> & Hl' & Hn' & Ha'); [lia|lia| |].
    { rewrite Ha, !zlen_app, Hz, zlen_drop by (unfold zlen; simpl; lia). change (zlen [0]) with 1. lia. }
    exists s'. split; [done|]. split; [lia|]. split; [by rewrite Hn', Hn|]. rewrite Ha', Ha, Hl. change (zlen [0]) with 1.
    rewrite ztake_app_ge by lia. rewrite Hz. replace (j + 1 - j) with 1 by lia.
    rewrite (ztake_app 1 [0]) by done. rewrite <- app_assoc. f_equal. simpl. f_equal. f_equal.
    change (0 :: zdrop (j + 1) (arr s)) with ([0] ++ zdrop (j + 1) (arr s)). rewrite (assoc_L (++)).
    unfold zdrop. unfold zlen in *. rewrite drop_app_ge by (rewrite length_app; simpl; lia).
    rewrite drop_drop, length_app. simpl. f_equal. lia.
Qed.

(** ** Writing *)

(** [room] for [n] bytes, then the continuation on what it leaves. *)
Ltac make_room bp i n :=
  let m := fresh "m" in let bp' := fresh "bp'" in let j := fresh "j" in
  destruct (room_spec bp i n) as (m & bp' & j & -> & ? & ?); [done|done|try apply zlen_nonneg; lia|try lia|];
  cbn [mbind option_bind].

Section writing.
Context (bp : bytePool) (i : ioBuffer) (Hi : wf i) (Hb : pool_ok bp).

Lemma Write_ok p :
  len (buffer i) + zlen p ≤ most →
  ∃ bp' i', Write bp i p = Some (zlen p, None, bp', i') ∧ becomes i (unread i ++ p) (zlen p) bp' i'.
Proof using Hi Hb.
  intros Hm. unfold Write. pose proof (zlen_nonneg p). make_room bp i (zlen p).
  destruct (store_copy i (zlen p) m j p) as (s & -> & Hs); [done|done|].
  cbn [mbind option_bind]. eauto using stored_becomes.
Qed.

Lemma WriteString_ok p :
  len (buffer i) + zlen p ≤ most →
  ∃ bp' i', WriteString bp i p = Some (zlen p, None, bp', i') ∧ becomes i (unread i ++ p) (zlen p) bp' i'.
Proof using Hi Hb. apply Write_ok. Qed.

Lemma WriteByte_ok x :
  len (buffer i) + 1 ≤ most →
  ∃ bp' i', WriteByte bp i x = Some (None, bp', i') ∧ becomes i (unread i ++ [x]) 1 bp' i'.
Proof using Hi Hb.
  intros Hm. unfold WriteByte. make_room bp i 1. pose proof H0 as (Hj & Hl & Ho & _). unfold wf in Hj.
  destruct (store_at j m x) as (s & -> & Hs); [lia|lia|].
  cbn [mbind option_bind]. eauto using stored_becomes.
Qed.

Lemma uint_ok k v :
  len (buffer i) + Z.of_nat k ≤ most →
  ∃ bp' i', ('(m, bp, i) ← room bp i (Z.of_nat k); s ← put_uint k (buffer i) m v; Some (@None error, bp, set_buffer i s))
            = Some (None, bp', i') ∧ becomes i (unread i ++ big_endian k v) (Z.of_nat k) bp' i'.
Proof using Hi Hb.
  intros Hm. make_room bp i (Z.of_nat k). destruct (store_uint i k m j v) as (s & -> & Hs); [done|].
  cbn [mbind option_bind]. eauto using stored_becomes, big_endian_len.
Qed.

Lemma WriteUint16_ok v :
  len (buffer i) + 2 ≤ most →
  ∃ bp' i', WriteUint16 bp i v = Some (None, bp', i') ∧ becomes i (unread i ++ big_endian 2 v) 2 bp' i'.
Proof using Hi Hb. apply (uint_ok 2). Qed.

Lemma WriteUint32_ok v :
  len (buffer i) + 4 ≤ most →
  ∃ bp' i', WriteUint32 bp i v = Some (None, bp', i') ∧ becomes i (unread i ++ big_endian 4 v) 4 bp' i'.
Proof using Hi Hb. apply (uint_ok 4). Qed.

Lemma WriteUint64_ok v :
  len (buffer i) + 8 ≤ most →
  ∃ bp' i', WriteUint64 bp i v = Some (None, bp', i') ∧ becomes i (unread i ++ big_endian 8 v) 8 bp' i'.
Proof using Hi Hb. apply (uint_ok 8). Qed.

Lemma Grow_neg n : n < 0 → Grow bp i n = Some (Some ErrNegativeCount, bp, i).
Proof. intros. unfold Grow. by destruct (Z.ltb_spec n 0); [|lia]. Qed.

Lemma Grow_ok n :
  0 ≤ n → len (buffer i) + n ≤ most → ∃ bp' i', Grow bp i n = Some (None, bp', i') ∧ becomes i (unread i ++ replicate (Z.to_nat n) 0) n bp' i'.
Proof using Hi Hb.
  intros Hn Hm. unfold Grow. destruct (Z.ltb_spec n 0); [lia|]. make_room bp i n.
  pose proof H1 as (Hj & Hl & Ho & Hu). unfold wf in Hj.
  destruct (zero_from_ok (Z.to_nat n) (buffer j) m) as (s & Es & Hls & Hns & Has); [lia|lia|lia|].
  assert (zlen (replicate (Z.to_nat n) 0) = n) as Hz by (unfold zlen; rewrite length_replicate; lia).
  destruct (Z.ltb_spec 0 n).
  - replace (Z.to_nat (len (buffer j) - m)) with (Z.to_nat n) by lia. rewrite Es. cbn [mbind option_bind].
    eexists _, _. split; [done|]. eapply stored_becomes; [done|done|exact Hz|].
    split; [|done]. by rewrite Has, Hz, Hl.
  - assert (n = 0) as -> by lia. eexists _, _. split; [done|].
    replace j with (set_buffer j (buffer j)) by (by destruct j).
    eapply stored_becomes; [done|done|exact Hz|]. split; [|done]. simpl. rewrite Z.add_0_r. by rewrite ztake_zdrop.
Qed.

(** Emptying a buffer that has been read to its end, as Append, ReadOnce and
    ReadFrom do first. *)
Lemma drained_ok :
  let j := if (0 <? off i) && (len (buffer i) <=? off i) then Reset i else i in
  wf j ∧ unread j = unread i ∧ len (buffer j) ≤ len (buffer i).
Proof using Hi.
  simpl. destruct (Z.ltb_spec 0 (off i)); [|done]. destruct (Z.leb_spec (len (buffer i)) (off i)); [|done]. simpl.
  destruct (Reset_ok i Hi) as (H1 & H2 & _). rewrite H2, unread_nil by done. split_and!; try done. destruct Hi. lia.
Qed.

End writing.

(** The bytes [d] after the unread ones, where the slice has room for them. *)
Lemma append_stored bp i d n :
  wf i → pool_ok bp → zlen d ≤ n → len (buffer i) + n ≤ cap (buffer i) →
  ∃ s s', copy_to (buffer i) (len (buffer i)) (len (buffer i) + n) d = Some (s, zlen d) ∧
    reslice s (len s + zlen d) = Some s' ∧ becomes i (unread i ++ d) (zlen d) bp (set_buffer i s') ∧
    len s' = len (buffer i) + zlen d ∧ cap s' = cap (buffer i).
Proof.
  intros Hi Hb Hd Hc. pose proof Hi as [H1 H2]. pose proof (zlen_nonneg d). rewrite copy_to_ok by lia.
  eexists _, _. split; [done|]. split.
  - apply reslice_ok. rewrite (splice_cap (buffer i) _ (len (buffer i) + zlen d)) by lia. simpl. lia.
  - split; [|split; [done|by apply (splice_cap (buffer i) _ (len (buffer i) + zlen d)); lia]].
    simpl. pose proof (stored_becomes bp i (zlen d) (len (buffer i))
      (set_buffer i (Slice (arr (buffer i)) (len (buffer i) + zlen d) (isnil (buffer i)))) d) as Hst.
    apply Hst; [done| |done|by split]. unfold roomy, wf, unread, cap in *. simpl. split_and!; try lia; [apply Hi|done].
Qed.

Lemma Append_ok bp i d :
  wf i → pool_ok bp → len (buffer i) + zlen d ≤ most →
  ∃ bp' i', Append bp i d = Some (None, bp', i') ∧ becomes i (unread i ++ d) (zlen d) bp' i'.
Proof.
  intros Hi Hb Hm. unfold Append. destruct (drained_ok i Hi) as (Hj & Hu & Hl).
  set (j := if _ && _ then Reset i else i) in *. clearbody j. pose proof (zlen_nonneg d). rewrite <- Hu.
  assert (∃ bp' k, (if cap (buffer j) - len (buffer j) <? zlen d then
                      if zlen d <? off j + (cap (buffer j) - len (buffer j)) then copy bp j 0 else copy bp j (zlen d)
                    else Some (bp, j)) = Some (bp', k) ∧
      becomes j (unread j) 0 bp' k ∧ len (buffer k) + zlen d ≤ cap (buffer k)) as (bp' & k & -> & [Hb' Hk Hku Hkl] & Hr).
  { pose proof (unread_len j Hj). unfold Len in *. pose proof Hj as [??].
    destruct (Z.ltb_spec (cap (buffer j) - len (buffer j)) (zlen d)); [|exists bp, j; split_and!; [done|by split; [| | |lia]|lia]].
    destruct (Z.ltb_spec (zlen d) (off j + (cap (buffer j) - len (buffer j)))).
    - destruct (copy_0 bp j Hj) as (k & -> & Hk & Hku & Ho & Hc & _). exists bp, k. split; [done|].
      pose proof (unread_len k Hk). rewrite Hku in *. unfold Len in *. split; [split; [done..|lia]|lia].
    - destruct (copy_expand bp j (zlen d) Hj Hb) as (bp' & k & -> & Hb' & Hk & Hku & Ho & Hc & _); [lia|unfold wf in *; lia|].
      exists bp', k. split; [done|]. pose proof (unread_len k Hk). rewrite Hku in *. unfold Len in *.
      split; [split; [done..|lia]|lia]. }
  cbn [mbind option_bind]. destruct (append_stored bp' k d (zlen d) Hk Hb') as (s & s' & -> & E & [? ? ? ?] & _); [lia|lia|].
  cbn [mbind option_bind]. rewrite E. cbn [mbind option_bind]. eexists _, _. split; [done|].
  split; [done|done|congruence|lia].
Qed.

(** * I/O buffers: a queue of bytes

    What the IoBuffer interface of src/cache/buffer/iobuffer_.go promises, as a
    queue of unread bytes and the effect of every operation on it, errors
    included, and the lemmas that the buffer keeps those promises. *)

Open Scope Z_scope.

(** ** Reading *)

Section reading.
Context (i : ioBuffer) (Hi : wf i).

(** Reading [n] bytes from a buffer with something to read, and from an empty one. *)
Lemma Read_ok n :
  0 ≤ n → unread i ≠ [] →
  ∃ i', Read i n = Some (ztake n (unread i), None, i') ∧ wf i' ∧ unread i' = zdrop n (unread i) ∧ buffer i' = buffer i.
Proof using Hi.
  intros Hn Hq. pose proof (unread_len i Hi) as Hl. unfold Len in Hl.
  assert (0 < zlen (unread i)) by (pose proof (zlen_nonneg (unread i)); rewrite <- zlen_nil in Hq; lia).
  unfold Read. destruct (Z.leb_spec (len (buffer i)) (off i)); [lia|]. rewrite from_ok by done. cbn [mbind option_bind].
  eexists. split; [done|]. destruct Hi as [H1 H2]. rewrite zlen_take by lia. unfold wf. simpl.
  split; [split_and!; [lia..|apply H2]|]. split; [|done]. unfold unread at 1. simpl.
  rewrite <- zdrop_zdrop by lia. fold (unread i). destruct (Z.le_ge_cases n (zlen (unread i))).
  - by rewrite Z.min_l by lia.
  - by rewrite Z.min_r, !zdrop_all by lia.
Qed.

Lemma Read_empty n :
  unread i = [] →
  ∃ i', Read i n = Some ([], if n =? 0 then None else Some IoEOF, i') ∧ wf i' ∧ unread i' = [] ∧
    len (buffer i') ≤ len (buffer i).
Proof using Hi.
  intros Hq. pose proof (unread_len i Hi) as Hl. rewrite Hq in Hl. unfold Len, zlen in Hl. simpl in Hl.
  unfold Read. destruct (Z.leb_spec (len (buffer i)) (off i)); [|lia].
  exists (if 0 <? off i then Reset i else i). destruct Hi as [H1 H2]. split; [by destruct (n =? 0)|].
  destruct (Z.ltb_spec 0 (off i)); [|done]. destruct (Reset_ok i Hi) as (? & ? & _). split_and!; try done. simpl. lia.
Qed.

Lemma Peek_ok n :
  Peek i n = Some (if (0 <=? n) && (n <=? zlen (unread i)) then Some (ztake n (unread i)) else None).
Proof using Hi.
  rewrite unread_len by done. unfold Peek, Len. destruct (Z.ltb_spec n 0).
  { by destruct (Z.leb_spec 0 n); [lia|]. }
  destruct (Z.leb_spec 0 n); [|lia]. destruct (Z.ltb_spec (len (buffer i) - off i) n).
  { by destruct (Z.leb_spec n (len (buffer i) - off i)); [lia|]. }
  destruct (Z.leb_spec n (len (buffer i) - off i)); [|lia]. destruct Hi as [H3 H4]. unfold between.
  destruct (Z.leb_spec 0 (off i)); [|lia]. destruct (Z.leb_spec (off i) (off i + n)); [|lia].
  destruct (Z.leb_spec (off i + n) (cap (buffer i))); [|lia]. simpl. do 2 f_equal.
  unfold unread. rewrite zdrop_ztake by lia. replace (len (buffer i)) with (off i + (len (buffer i) - off i)) by lia.
  rewrite zdrop_ztake by lia. by rewrite ztake_ztake by lia.
Qed.

(** The offset after consuming [n] bytes. *)
Lemma consume_ok n j :
  0 ≤ n ≤ zlen (unread i) → off j = off i + n → buffer j = buffer i →
  wf j ∧ unread j = zdrop n (unread i).
Proof using Hi.
  intros Hn Ho Hs. rewrite unread_len in Hn by done. unfold Len in Hn. destruct Hi as [H1 H2].
  unfold wf, unread. rewrite Ho, Hs. split; [split_and!; [lia..|apply H2]|]. by rewrite zdrop_zdrop by lia.
Qed.

Lemma off_add n : 0 ≤ n ≤ MaxInt64 - len (buffer i) → int_add (off i) n = off i + n.
Proof using Hi. intros Hn. destruct Hi. apply wraps64_id. unfold is_int, MinInt64, MaxInt64 in *. lia. Qed.

Lemma Drain_ok n :
  n ≤ MaxInt64 - len (buffer i) →
  wf (Drain i n) ∧ buffer (Drain i n) = buffer i ∧
  unread (Drain i n) = if (0 <=? n) && (n <=? zlen (unread i)) then zdrop n (unread i) else unread i.
Proof using Hi.
  intros Hn. unfold Drain. destruct (Z.ltb_spec n 0).
  { by destruct (Z.leb_spec 0 n); [lia|]. }
  rewrite off_add by lia. destruct (Z.leb_spec 0 n); [|lia]. pose proof (unread_len i Hi) as Hl. unfold Len in Hl.
  destruct (Z.ltb_spec (len (buffer i)) (off i + n)).
  { by destruct (Z.leb_spec n (zlen (unread i))); [lia|]. }
  destruct (Z.leb_spec n (zlen (unread i))); [|lia]. simpl.
  destruct (consume_ok n (set_mark (set_off i (off i + n)) ResetOffMark)) as [? ?]; [lia|done|done|]. done.
Qed.

Lemma Cup_none n : zlen (unread i) < n ≤ MaxInt64 - len (buffer i) → Cup i n = Some (None, i).
Proof using Hi.
  intros Hn. unfold Cup. pose proof (zlen_nonneg (unread i)). rewrite off_add by lia.
  pose proof (unread_len i Hi) as Hl. unfold Len in Hl.
  by destruct (Z.ltb_spec (len (buffer i)) (off i + n)); [|lia].
Qed.

Lemma Cup_some n :
  0 ≤ n ≤ zlen (unread i) → n ≤ MaxInt64 - len (buffer i) →
  ∃ j i', Cup i n = Some (Some j, i') ∧ wf j ∧ unread j = ztake n (unread i) ∧
    wf i' ∧ unread i' = zdrop n (unread i) ∧ buffer i' = buffer i.
Proof using Hi.
  intros Hn Hm. pose proof (unread_len i Hi) as Hl. unfold Len in Hl. pose proof Hi as [H1 H2].
  unfold Cup. rewrite off_add by lia. destruct (Z.ltb_spec (len (buffer i)) (off i + n)); [lia|].
  destruct (newBytes_spec n) as (s & -> & Hs & Hc & Hnil); [unfold maxAlloc; lia|]. cbn [mbind option_bind].
  pose proof (Peek_ok n) as Hp. unfold Peek in Hp. destruct (Z.ltb_spec n 0); [lia|].
  destruct (Z.ltb_spec (len (buffer i) - off i) n); [lia|]. destruct (Z.leb_spec 0 n); [|lia].
  destruct (Z.leb_spec n (zlen (unread i))); [|lia]. simpl in Hp.
  destruct (between (buffer i) (off i) (off i + n)) as [d|]; [|done]. simpl in Hp. injection Hp as ->.
  cbn [mbind option_bind]. assert (zlen (ztake n (unread i)) = n) as Hz by (rewrite zlen_take by lia; lia).
  rewrite copy_to_ok by lia. cbn [mbind option_bind]. eexists _, _. split; [done|].
  rewrite ztake_nonpos, app_nil_l, Hz by lia.
  destruct (consume_ok n (set_mark (set_off i (off i + n)) ResetOffMark)) as [? ?]; [lia|done|done|].
  split_and!; try done; unfold wf, unread, cap in *; simpl.
  - rewrite zlen_app, Hz, zlen_drop by lia. split_and!; [lia..|congruence].
  - rewrite zdrop_nonpos by lia. by rewrite ztake_app by lia.
Qed.

End reading.

(** ** Storage *)

Lemma putSlice_ok bp i :
  wf i → pool_ok bp → unread i = [] → off i = 0 →
  ∃ bp' i', putSlice bp i = Some (bp', i') ∧ becomes i [] 0 bp' i' ∧ off i' = 0.
Proof.
  intros Hi Hb Hu Ho. unfold putSlice. destruct (b i) as [l|] eqn:E.
  - destruct (put_spec bp (pooled i) Hb) as (bp' & -> & Hb').
    { intros x. unfold pooled. rewrite fmap_Some. by intros (? & ? & ->). }
    cbn [mbind option_bind]. eexists _, _. split; [done|]. split; [|done]. destruct Hi as [H1 H2].
    split; [done| | |simpl; lia]; unfold wf, unread, cap; simpl; rewrite Ho; [done|]. by destruct (Z.to_nat 0).
  - eexists _, _. split; [done|]. split; [by split; [| | |lia]|done].
Qed.

Lemma Free_ok bp i :
  wf i → pool_ok bp → ∃ bp' i', Free bp i = Some (bp', i') ∧ becomes i [] 0 bp' i' ∧ off i' = 0.
Proof.
  intros Hi Hb. destruct (Reset_ok i Hi) as (Hr & Hu & Ho & _).
  destruct (putSlice_ok bp (Reset i) Hr Hb Hu Ho) as (bp' & i' & E & [? ? ? Hl] & ?). exists bp', i'.
  split; [done|]. split; [|done]. split; try done. destruct Hi. simpl in Hl. lia.
Qed.

(** A slice of length 0 from the pool. *)
Lemma fresh_ok bp n :
  pool_ok bp → n ≤ most →
  ∃ s bp' s', get bp (if n <=? 0 then DefaultSize else n) = Some (s, bp') ∧ reslice s 0 = Some s' ∧
    pool_ok bp' ∧ len s' = 0 ∧ 0 < cap s' ≤ wide ∧ isnil s' = false.
Proof.
  intros Hb Hn. set (m := if n <=? 0 then DefaultSize else n).
  assert (0 < m ≤ most) as Hm by (unfold m, DefaultSize; destruct (Z.leb_spec n 0); lia).
  destruct (get_spec bp m Hb ltac:(unfold maxAlloc; lia)) as (s & bp' & E & Hb' & Hl & Hnil & Hc).
  exists s, bp', (Slice (arr s) 0 (isnil s)). split; [done|]. split; [apply reslice_ok; lia|].
  split_and!; [done|done| | |done]; unfold cap in *; simpl; [lia|]. destruct Hc as [?|(_ & -> & _)]; [lia|].
  destruct (slot_spec bp m Hb ltac:(lia)) as [?|(_ & ? & _)]; [unfold errSlot in *|]; apply Z.pow_le_mono_r; lia.
Qed.

Lemma empty_ok s o m c e p :
  len s = 0 → cap s ≤ wide → o = 0 → isnil s = false → wf (IoBuffer s o m c e p) ∧ unread (IoBuffer s o m c e p) = [].
Proof.
  intros Hl Hw -> Hn. unfold wf, unread, cap in *. simpl. rewrite Hl, Hn. pose proof (zlen_nonneg (arr s)).
  split; [split_and!; [lia..|done]|].
  by rewrite ztake_nonpos, zdrop_nonpos by lia.
Qed.

Lemma nil_empty i : wf i → isnil (buffer i) = true → unread i = [] ∧ off i = 0 ∧ len (buffer i) = 0.
Proof. intros Hi Hn. pose proof Hi as (H1 & H2 & H3). specialize (H3 Hn). split; [apply unread_nil; [done|lia]|lia]. Qed.

Lemma Alloc_ok bp i n :
  wf i → pool_ok bp → n ≤ most → ∃ bp' i', Alloc bp i n = Some (bp', i') ∧ becomes i [] 0 bp' i' ∧ len (buffer i') = 0.
Proof.
  intros Hi Hb Hm. unfold Alloc.
  assert (∃ bp' j, (if negb (isnil (buffer i)) then Free bp i else Some (bp, i)) = Some (bp', j) ∧
    becomes i [] 0 bp' j ∧ off j = 0) as (bp' & j & -> & [Hb' Hj Hju Hjl] & Ho).
  { destruct (isnil (buffer i)) eqn:E; simpl; [|by apply Free_ok].
    destruct (nil_empty i Hi E) as (? & ? & ?). exists bp, i. split; [done|]. split; [|done]. by split; [| | |lia]. }
  cbn [mbind option_bind]. destruct (fresh_ok bp' n Hb' Hm) as (s & bp'' & s' & -> & E & Hb'' & Hl & Hc & Hn).
  cbn [mbind option_bind]. rewrite E. cbn [mbind option_bind]. eexists _, _. split; [done|]. simpl. split; [|done].
  destruct (empty_ok s' (off j) (offMark j) (count j) (eof j) (Some (len s))) as [? ?]; [done|lia|done|by rewrite Hn|].
  destruct Hi. split; simpl; try done. lia.
Qed.

Lemma newIoBuffer_ok bp n :
  pool_ok bp → n ≤ most → ∃ bp' i, newIoBuffer bp n = Some (bp', i) ∧ pool_ok bp' ∧ wf i ∧ unread i = [] ∧
    offMark i = ResetOffMark ∧ count i = 1 ∧ eof i = false ∧ len (buffer i) = 0.
Proof.
  intros Hb Hm. unfold newIoBuffer. destruct (fresh_ok bp n Hb Hm) as (s & bp' & s' & -> & E & Hb' & Hl & Hc & Hn).
  cbn [mbind option_bind]. rewrite E. cbn [mbind option_bind]. eexists _, _. split; [done|]. split; [done|].
  destruct (empty_ok s' 0 ResetOffMark 1 false (Some (len s))) as [? ?]; [done|lia|done|by rewrite Hn|done].
Qed.

(** A slice that a caller hands over. *)
Definition slice_ok (s : slice) : Prop := 0 ≤ len s ≤ cap s ∧ cap s ≤ wide ∧ (isnil s = true → cap s = 0).

Lemma NewIoBufferBytes_ok bp s :
  pool_ok bp → slice_ok s →
  ∃ bp' i, NewIoBufferBytes bp s = Some (bp', i) ∧ pool_ok bp' ∧ wf i ∧ unread i = ztake (len s) (arr s) ∧
    len (buffer i) = len s.
Proof.
  intros Hb (Hs & Hw & Hn). unfold NewIoBufferBytes. destruct (isnil s) eqn:E.
  - destruct (newIoBuffer_ok bp 0 Hb ltac:(lia)) as (bp' & i & -> & ? & ? & Hu & _ & _ & _ & Hl). exists bp', i.
    specialize (Hn eq_refl). rewrite Hu, ztake_nonpos by lia. split_and!; try done. lia.
  - eexists _, _. split; [done|]. unfold wf, unread. simpl. rewrite zdrop_nonpos, E by lia. split_and!; try done; lia.
Qed.

(** ** Readers and writers *)

Section streams.
Context {R W : Type} `{HR : Reader R} `{HW : Writer W}.

(** What reader [r] gives, call after call, until an error or nothing at all. *)
Inductive pulls : R → bytes → option error → R → Prop :=
| pulls_last r n d e r' : read r n = (d, e, r') → e ≠ None ∨ d = [] → pulls r d e r'
| pulls_more r n d r1 data e r2 :
    read r n = (d, None, r1) → d ≠ [] → pulls r1 data e r2 → pulls r (d ++ data) e r2.

(** How writer [w] takes the bytes [q]: how many, and the error that stopped it. *)
Inductive pushes : W → bytes → Z → option error → W → Prop :=
| pushes_none w : pushes w [] 0 None w
| pushes_last w q m e w' :
    q ≠ [] → write w q = (m, e, w') → e ≠ None ∨ m = 0 ∨ m = zlen q → pushes w q m e w'
| pushes_more w q m w1 n e w2 :
    write w q = (m, None, w1) → 0 < m < zlen q → pushes w1 (zdrop m q) n e w2 → pushes w q (m + n) e w2.

Lemma fill_ok bp i r :
  wf i → pool_ok bp →
  ∃ d e r' i', read r (cap (buffer i) - len (buffer i)) = (d, e, r') ∧ fill i r = Some (zlen d, e, i', r') ∧
    becomes i (unread i ++ d) (zlen d) bp i' ∧ (left r' + length d ≤ left r)%nat ∧
    len (buffer i') = len (buffer i) + zlen d ∧ cap (buffer i') = cap (buffer i).
Proof using Type.
  intros Hi Hb. unfold fill. pose proof Hi as [H1 H2]. set (k := cap (buffer i) - len (buffer i)).
  pose proof (read_bound r k ltac:(unfold k; lia)) as Hn. pose proof (read_left r k) as Hl.
  destruct (read r k) as [[d e] r']. simpl in Hn, Hl. exists d, e, r'.
  destruct (append_stored bp i d k Hi Hb Hn) as (s & s' & Es & E & Hs & Hls & Hcs); [unfold k; lia|].
  replace (len (buffer i) + k) with (cap (buffer i)) in Es by (unfold k; lia).
  rewrite Es. cbn [mbind option_bind]. rewrite E. cbn [mbind option_bind]. eauto 10.
Qed.

(** ReadFrom's first lines in each round: room for 512 bytes. *)
Lemma read_room_ok bp i :
  wf i → pool_ok bp → len (buffer i) ≤ most →
  ∃ bp' i', (if cap (buffer i) - len (buffer i) <? MinRead then
               if off i + (cap (buffer i) - len (buffer i)) <? MinRead then copy bp i MinRead else copy bp i 0
             else Some (bp, i)) = Some (bp', i') ∧ becomes i (unread i) 0 bp' i'.
Proof using Type.
  intros Hi Hb Hm. destruct (Z.ltb_spec (cap (buffer i) - len (buffer i)) MinRead).
  2:{ exists bp, i. split; [done|]. by split; [| | |lia]. }
  destruct (Z.ltb_spec (off i + (cap (buffer i) - len (buffer i))) MinRead).
  - destruct (copy_expand bp i MinRead Hi Hb) as (bp' & k & -> & Hb' & Hk & Hku & Ho & Hc & _);
      [left; done|unfold wf, MinRead in *; lia|].
    exists bp', k. split; [done|]. pose proof (unread_len k Hk) as E. rewrite Hku, unread_len in E by done.
    unfold Len in E. destruct Hi. split; try done. lia.
  - destruct (copy_0 bp i Hi) as (k & -> & Hk & Hku & Ho & Hc & _).
    exists bp, k. split; [done|]. pose proof (unread_len k Hk) as E. rewrite Hku, unread_len in E by done.
    unfold Len in E. destruct Hi. split; try done. lia.
Qed.

Definition masked (e : option error) : option error :=
  match e with Some IoEOF => None | _ => e end.

Lemma read_loop_ok fuel bp i r n :
  wf i → pool_ok bp → (left r < fuel)%nat → len (buffer i) + Z.of_nat (left r) ≤ most →
  ∃ d e r' bp' i', read_loop fuel bp i r n = Some (n + zlen d, masked e, bp', i', r') ∧
    pulls r d e r' ∧ becomes i (unread i ++ d) (zlen d) bp' i' ∧ (length d ≤ left r)%nat.
Proof using Type.
  revert bp i r n. induction fuel as [|fuel IH]; intros bp i r n Hi Hb Hf Hm; [lia|]. cbn [read_loop].
  destruct (read_room_ok bp i Hi Hb ltac:(lia)) as (bp1 & i1 & -> & [Hb1 Hi1 Hu1 Hl1]). cbn [mbind option_bind].
  destruct (fill_ok bp1 i1 r Hi1 Hb1) as (d & e & r1 & i2 & Er & -> & [_ Hi2 Hu2 Hl2] & Hl & _). cbn [mbind option_bind].
  rewrite Hu1 in Hu2. assert (becomes i (unread i ++ d) (zlen d) bp1 i2) as Hbec by (split; try done; lia).
  destruct e as [e|].
  { exists d, (Some e), r1, bp1, i2. split; [by destruct e|].
    split; [by eapply pulls_last; [exact Er|left]|]. split; [done|lia]. }
  destruct (Z.eqb_spec (zlen d) 0) as [E|E].
  { exists d, None, r1, bp1, i2. split; [done|]. apply zlen_nil in E.
    split; [by eapply pulls_last; [exact Er|right]|]. split; [done|lia]. }
  destruct (IH bp1 i2 r1 (n + zlen d) Hi2 Hb1) as (d' & e' & r' & bp' & i' & -> & Hp & [Hb' Hi' Hu' Hl'] & Hd').
  { rewrite zlen_nil in E. destruct d; [done|]. simpl in Hl. lia. }
  { unfold zlen in Hl2. lia. }
  exists (d ++ d'), e', r', bp', i'. rewrite zlen_app, Z.add_assoc. split; [done|].
  split; [eapply pulls_more; [exact Er|by rewrite zlen_nil in E|done]|]. rewrite length_app. split; [|lia].
  split; try done; [|lia]. by rewrite Hu', Hu2, (assoc_L (++)).
Qed.

Lemma ReadFrom_ok bp i r :
  wf i → pool_ok bp → len (buffer i) + Z.of_nat (left r) ≤ most →
  ∃ d e r' bp' i', ReadFrom bp i r = Some (zlen d, masked e, bp', i', r') ∧
    pulls r d e r' ∧ becomes i (unread i ++ d) (zlen d) bp' i' ∧ (length d ≤ left r)%nat.
Proof using Type.
  intros Hi Hb Hm. unfold ReadFrom. destruct (drained_ok i Hi) as (Hj & Hu & Hl).
  destruct (read_loop_ok (S (left r)) bp _ r 0 Hj Hb) as (d & e & r' & bp' & i' & -> & Hp & [? ? Hu' ?] & Hd); [lia|lia|].
  exists d, e, r', bp', i'. split; [done|]. split; [done|]. split; [|done]. split; try done; [|lia].
  by rewrite Hu', Hu.
Qed.

Lemma ReadOnce_ok bp i r :
  wf i → pool_ok bp → len (buffer i) + Z.of_nat (left r) ≤ most →
  ∃ n d e r' bp' i', 0 ≤ n ∧ read r n = (d, e, r') ∧ ReadOnce bp i r = Some (zlen d, e, bp', i', r') ∧
    becomes i (unread i ++ d) (zlen d) bp' i' ∧ (length d ≤ left r)%nat.
Proof using Type.
  intros Hi Hb Hm. unfold ReadOnce. destruct (drained_ok i Hi) as (Hj & Hu & Hl).
  set (j := if _ && _ then Reset i else i) in *. clearbody j.
  assert (∃ k, (if cap (buffer j) - len (buffer j) <=? off j then copy bp j 0 else Some (bp, j)) = Some (bp, k) ∧
    becomes j (unread j) 0 bp k) as (k & -> & [_ Hk Hku Hkl]).
  { destruct (Z.leb_spec (cap (buffer j) - len (buffer j)) (off j)).
    - destruct (copy_0 bp j Hj) as (k & -> & Hk & Hku & Ho & Hc & _). exists k. split; [done|].
      pose proof (unread_len k Hk) as E. rewrite Hku, unread_len in E by done. unfold Len in E. destruct Hj.
      split; try done. lia.
    - exists j. split; [done|]. by split; [| | |lia]. }
  cbn [mbind option_bind].
  assert (∃ bp' x, (if (off k =? len (buffer k)) && (MaxBufferLength <? cap (buffer k)) then
                      '(bp, i) ← Free bp k; Alloc bp i MaxRead else Some (bp, k)) = Some (bp', x) ∧
    becomes k (unread k) 0 bp' x) as (bp1 & x & -> & [Hb1 Hx Hxu Hxl]).
  { destruct (Z.eqb_spec (off k) (len (buffer k))) as [E|]; [|exists bp, k; split; [done|by split; [| | |lia]]].
    destruct (MaxBufferLength <? cap (buffer k)); [|exists bp, k; split; [done|by split; [| | |lia]]]. cbn [andb].
    destruct (Free_ok bp k Hk Hb) as (bp1 & y & -> & [Hb1 Hy Hyu Hyl] & _). cbn [mbind option_bind].
    destruct (Alloc_ok bp1 y MaxRead Hy Hb1 ltac:(unfold MaxRead; lia)) as (bp2 & x & -> & [Hb2 Hx Hxu Hxl] & _). exists bp2, x. split; [done|].
    split; try done; [|lia]. rewrite Hxu, unread_nil by (done || lia). done. }
  cbn [mbind option_bind].
  destruct (fill_ok bp1 x r Hx Hb1) as (d & e & r' & i' & Er & -> & [_ Hi' Hu' Hl'] & Hd & Hln & Hcp). cbn [mbind option_bind].
  exists (cap (buffer x) - len (buffer x)), d, e, r'. destruct (Z.eqb_spec (cap (buffer x) - len (buffer x)) (zlen d)) as [Hfull|].
  - destruct (copy_expand bp1 i' AutoExpand Hi' Hb1) as (bp2 & z & -> & Hb2 & Hz & Hzu & Ho & _ & _);
      [by right|unfold AutoExpand, zlen in *; lia|].
    cbn [mbind option_bind]. exists bp2, z. split; [destruct Hx; lia|]. split; [exact Er|]. split; [done|]. split; [|lia].
    pose proof (unread_len z Hz) as E. rewrite Hzu, unread_len in E by done. unfold Len in E. destruct Hi'.
    split; try done; [congruence|lia].
  - cbn [mbind option_bind]. exists bp1, i'. split; [destruct Hx; lia|]. split; [exact Er|]. split; [done|]. split; [|lia].
    split; try done; [congruence|lia].
Qed.

Lemma write_loop_ok fuel i w n :
  wf i → (Z.to_nat (Len i) ≤ fuel)%nat →
  ∃ m e w' i', write_loop fuel i w n = Some (n + m, e, i', w') ∧ pushes w (unread i) m e w' ∧
    wf i' ∧ unread i' = zdrop m (unread i) ∧ buffer i' = buffer i.
Proof using Type.
  revert i w n. induction fuel as [|fuel IH]; intros i w n Hi Hf; cbn [write_loop].
  all: pose proof (unread_len i Hi) as Hl; unfold Len in Hl.
  all: destruct (Z.ltb_spec (off i) (len (buffer i))) as [Hlt|Hge].
  1: unfold Len in Hf; lia.
  1,3: exists 0, None, w, i; rewrite Z.add_0_r, unread_nil by done; split_and!; try done; constructor.
  rewrite from_ok by done. cbn [mbind option_bind]. pose proof (write_bound w (unread i)) as Hm.
  destruct (write w (unread i)) as [[m e] w1] eqn:Ew. simpl in Hm. unfold Len.
  destruct (Z.ltb_spec (len (buffer i) - off i) m); [lia|].
  destruct (consume_ok i Hi m (set_off i (off i + m))) as [Hj Hju]; [lia|done|done|].
  assert (unread i ≠ []) as Hne by (rewrite <- zlen_nil; lia).
  destruct e as [e|]; [exists m, (Some e), w1, (set_off i (off i + m)); split_and!; try done; by eapply pushes_last; eauto|].
  destruct (Z.eqb_spec m 0) as [E|E].
  { exists m, None, w1, (set_off i (off i + m)); split_and!; try done; by eapply pushes_last; eauto. }
  destruct (Z.eqb_spec m (len (buffer i) - off i)) as [E'|E'].
  { exists m, None, w1, (set_off i (off i + m)); split_and!; try done. eapply pushes_last; eauto. right. right. lia. }
  cbn [orb]. destruct (IH (set_off i (off i + m)) w1 (n + m) Hj) as (m' & e' & w' & i' & -> & Hp & Hi' & Hu' & Hs').
  { unfold Len in *. simpl. lia. }
  exists (m + m'), e', w', i'. rewrite Z.add_assoc. split; [done|]. rewrite Hju in Hp, Hu'.
  split; [eapply pushes_more; [exact Ew|lia|done]|]. split; [done|]. split; [|done].
  assert (0 ≤ m') by (clear -Hp HW; induction Hp; [lia| |lia]; pose proof (write_bound w q) as Hq; rewrite H0 in Hq; simpl in Hq; lia).
  rewrite Hu', zdrop_zdrop by lia. done.
Qed.

End streams.

(** ** Counts *)

(** No operation on storage changes the reference count. *)
Lemma Free_count bp i bp' i' : Free bp i = Some (bp', i') → count i' = count i.
Proof.
  unfold Free, putSlice. destruct (b (Reset i)); [|by intros [= _ <-]].
  destruct (put bp _); [|done]. by intros [= _ <-].
Qed.

Lemma Alloc_count bp i n bp' i' : Alloc bp i n = Some (bp', i') → count i' = count i.
Proof.
  unfold Alloc. destruct (negb _).
  - destruct (Free bp i) as [[bp1 j]|] eqn:E; [|done]. cbn [mbind option_bind]. apply Free_count in E.
    destruct (get _ _) as [[s bp2]|]; [|done]. cbn [mbind option_bind]. destruct (reslice s 0); [|done]. by intros [= _ <-].
  - cbn [mbind option_bind].
    destruct (get _ _) as [[s bp2]|]; [|done]. cbn [mbind option_bind]. destruct (reslice s 0); [|done]. by intros [= _ <-].
Qed.

Lemma copy_count bp i e bp' i' : copy bp i e = Some (bp', i') → count i' = count i.
Proof. unfold copy, mbind, option_bind. intros H. repeat case_match; by simplify_eq/=. Qed.

Lemma grow_count bp i n m bp' i' : grow bp i n = Some (m, bp', i') → count i' = count i.
Proof.
  unfold grow, tryGrowByRelies, mbind, option_bind. intros H.
  repeat case_match; simplify_eq/=; try done.
  all: repeat match goal with H : copy _ _ _ = Some _ |- _ => apply copy_count in H end; done.
Qed.

Lemma Write_count bp i d n e bp' i' : Write bp i d = Some (n, e, bp', i') → count i' = count i.
Proof.
  unfold Write, room, tryGrowByRelies, mbind, option_bind. intros H. repeat case_match; simplify_eq/=; try done.
  all: match goal with H : grow _ _ _ = Some _ |- _ => by apply grow_count in H end.
Qed.
