(* ===== verification/IoBufferProps.v ===== *)
(** * I/O buffers: the properties

    A buffer is a queue of bytes: every sequence of operations of the IoBuffer
    interface returns, and gives what the same sequence gives on a queue, with
    the errors the interface documents; the byte pool keeps its size classes. *)

From S2P Require Import Prelude IoBuffer IoBufferThms.

Open Scope Z_scope.

(** ** The interface *)

Section interface.
Context {R W : Type} `{HR : Reader R} `{HW : Writer W}.














(** C15: the errors of a buffer.  Read fails exactly when bytes are wanted and
    none is unread, with io.EOF and no byte; Grow fails exactly on a negative
    count, with ErrNegativeCount and the buffer as it was; ReadFrom keeps every
    byte the reader gave, gives the error that stopped the reader, and never
    io.EOF; WriteTo gives the writer's error and consumes exactly the bytes the
    writer took.  The bytes asked for and read are at most 2^40 with those in the
    slice. *)
Theorem iobuffer_errors (bp : bytePool) (i : ioBuffer) :
  wf i → pool_ok bp →
  (∀ n, 0 ≤ n → ∃ d e i', Read i n = Some (d, e, i') ∧ unread i = d ++ unread i' ∧
     (e = Some IoEOF ↔ 0 < n ∧ unread i = []) ∧ (e ≠ None → e = Some IoEOF ∧ d = [])) ∧
  (∀ n, len (buffer i) + n ≤ most → ∃ e bp' i', Grow bp i n = Some (e, bp', i') ∧
     (e = Some ErrNegativeCount ↔ n < 0) ∧ (e ≠ None → e = Some ErrNegativeCount ∧ i' = i ∧ bp' = bp)) ∧
  (∀ r, len (buffer i) + Z.of_nat (left r) ≤ most → ∃ d stop e bp' i' r', ReadFrom bp i r = Some (zlen d, e, bp', i', r') ∧ pulls r d stop r' ∧
     unread i' = unread i ++ d ∧ e ≠ Some IoEOF ∧ (e = stop ∨ e = None ∧ stop = Some IoEOF)) ∧
  (∀ w, ∃ n e i' w', WriteTo i w = Some (n, e, i', w') ∧ pushes w (unread i) n e w' ∧
     unread i' = zdrop n (unread i)).
Proof using Type.
  intros Hi Hb. split_and!.
  - intros n Hn. destruct (decide (unread i = [])) as [E|E].
    + destruct (Read_empty i Hi n E) as (i' & -> & _ & Hq & _). eexists _, _, i'. split; [done|]. rewrite Hq, E.
      split; [done|]. destruct (Z.eqb_spec n 0); (split; [|done]); split; try done; [intros [? _]; lia|split; [lia|done]].
    + destruct (Read_ok i Hi n Hn E) as (i' & -> & _ & Hq & _). eexists _, _, i'. split; [done|]. rewrite Hq.
      split; [by rewrite ztake_zdrop|]. split; [|done]. split; [done|]. by intros [_ ?].
  - intros n Hm. destruct (Z.lt_ge_cases n 0).
    + rewrite Grow_neg by done. eexists _, _, _. split; [done|]. by split.
    + destruct (Grow_ok bp i Hi Hb n) as (bp' & i' & -> & _); [done|done|]. eexists _, _, _. split; [done|]. split; [|done].
      split; [done|lia].
  - intros r Hm. destruct (ReadFrom_ok bp i r Hi Hb Hm) as (d & e & r' & bp' & i' & -> & Hp & [_ _ Hq _] & _).
    exists d, e, (masked e), bp', i', r'. split_and!; try done; destruct e as [[]|]; simpl; auto.
  - intros w. destruct (write_loop_ok (Z.to_nat (Len i)) i w 0 Hi) as (m & e & w' & i' & E & ? & _ & ? & _); [lia|].
    unfold WriteTo. rewrite E. eauto 10.
Qed.

End interface.

(** ** The byte pool *)

Lemma get_panics b size : pool_ok b → size < 0 ∨ maxAlloc < size → get b size = None.
Proof.
  intros Hb Hs. unfold get, slot. rewrite (ok_max _ Hb), (ok_min _ Hb). unfold maxAlloc in *.
  assert (newBytes size = None) as Hn.
  { unfold newBytes, maxAlloc. destruct (Z.leb_spec 0 size); [|done]. by destruct (Z.leb_spec size (2 ^ 48)); [lia|]. }
  destruct (Z.ltb_spec (2 ^ 18) size); [by rewrite Hn|].
  destruct (Z.ltb_spec (2 ^ 6) size); [lia|]. cbn [Z.eqb errSlot].
  destruct (at_slot_ok b 0 Hb) as (s & -> & _); [lia|]. cbn [mbind option_bind].
  assert (∀ v, reslice v size = None) as Hr by (intros v; unfold reslice; by destruct (Z.leb_spec 0 size); [lia|]).
  destruct (pool_get b 0 s) as [[v|] b']; cbn [mbind option_bind]; [by rewrite Hr|].
  destruct (newBytes (defaultSize s)) as [x|]; cbn [mbind option_bind]; [by rewrite Hr|reflexivity].
Qed.

(** The pools that any sequence of calls leads to; what is put may come from
    anywhere. *)
Inductive served : bytePool → Prop :=
| served_new choices : served (newBytePool choices)
| served_get b size s b' : served b → get b size = Some (s, b') → served b'
| served_put b x b' : served b → (∀ s, x = Some s → isnil s = true → cap s = 0) → put b x = Some b' → served b'.

Lemma served_ok b : served b → pool_ok b.
Proof.
  induction 1 as [|b size s b' _ IH E|b x b' _ IH Hx E]; [apply newBytePool_ok| |].
  - destruct (decide (0 ≤ size ≤ maxAlloc)) as [Hs|]; [|rewrite get_panics in E; [done|done|lia]].
    destruct (get_spec b size IH Hs) as (s0 & b0 & E0 & ? & _). by rewrite E0 in E; simplify_eq.
  - destruct (put_spec b x IH Hx) as (b0 & E0 & ?). by rewrite E0 in E; simplify_eq.
Qed.

(** C31: whatever was got from the byte pool and put back, a slice of any length
    can be had from it: it has the length asked for; up to 256 KiB its capacity is
    the least power of two, from 64 on, that holds it, and beyond that the length
    itself; a length that is negative or that the runtime cannot allocate panics;
    and putting back any slice, of the pool's or not, does not panic. *)
Theorem bytepool_classes (b : bytePool) (size : Z) :
  served b →
  (0 ≤ size ≤ maxAlloc → ∃ s b', get b size = Some (s, b') ∧ len s = size ∧
     if size <=? 2 ^ 18 then
       ∃ k, 6 ≤ k ≤ 18 ∧ cap s = 2 ^ k ∧ size ≤ 2 ^ k ∧ (k = 6 ∨ 2 ^ (k - 1) < size)
     else cap s = size) ∧
  (size < 0 ∨ maxAlloc < size → get b size = None) ∧
  (∀ x, (∀ s, x = Some s → isnil s = true → cap s = 0) → ∃ b', put b x = Some b').
Proof.
  intros Hb. apply served_ok in Hb. split_and!.
  - intros Hs. destruct (get_spec b size Hb Hs) as (s & b' & -> & _ & Hl & _ & Hc). exists s, b'. split; [done|]. split; [done|].
    destruct (slot_spec b size Hb) as [[Hbig _]|(Hle & Hk & Hfit & Hleast)]; [lia| |].
    + destruct (Z.leb_spec size (2 ^ 18)); [lia|]. destruct Hc as [[_ ?]|[? _]]; [done|lia].
    + destruct (Z.leb_spec size (2 ^ 18)); [|lia]. exists (slot b size + 6). split; [lia|].
      destruct Hc as [[? _]|(_ & Hc & _)]; [lia|]. split; [done|]. split; [done|].
      replace (slot b size + 6 - 1) with (slot b size + 5) by lia. lia.
  - apply get_panics; done.
  - intros x Hx. destruct (put_spec b x Hb Hx) as (b' & E & _). eauto.
Qed.

(** ** Witnesses *)

(** A reader over bytes in memory, and a writer that takes at most two bytes at a
    time. *)
#[export, refine] Instance bytes_reader : Reader bytes := {|
  read l n := (ztake n l, if decide (l = []) then Some IoEOF else None, zdrop n l);
  left l := length l
|}.
Proof.
  - intros r n Hn. simpl. rewrite zlen_take by done. lia.
  - intros r n. simpl. unfold ztake, zdrop. rewrite length_take, length_drop. lia.
Defined.

#[export, refine] Instance slow_writer : Writer bytes := {|
  write w p := (Z.min 2 (zlen p), None, w ++ ztake 2 p)
|}.
Proof. intros w p. simpl. pose proof (zlen_nonneg p). lia. Defined.

Definition sample_slice : slice := Slice [1; 2; 3; 4; 0; 0] 4 false.


Lemma iobuffer_errors_witness :
  ∃ e bp' i', Grow (newBytePool []) (IoBuffer sample_slice 0 ResetOffMark 1 false None) (-1) = Some (e, bp', i').
Proof.
  destruct (iobuffer_errors (R := bytes) (W := bytes) (newBytePool []) (IoBuffer sample_slice 0 ResetOffMark 1 false None))
    as (_ & Hg & _).
  - split_and!; vm_compute; congruence.
  - apply newBytePool_ok.
  - destruct (Hg (-1)) as (e & bp' & i' & H & _); [vm_compute; congruence|]. exists e, bp', i'. exact H.
Defined.

Lemma bytepool_classes_witness :
  ∃ s b', get (newBytePool []) 65 = Some (s, b') ∧ len s = 65 ∧ cap s ≤ 2 ^ 18.
Proof.
  destruct (bytepool_classes (newBytePool []) 65) as [Hg _].
  - constructor.
  - destruct Hg as (s & b' & H & Hl & k & Hk & Hc & _); [unfold maxAlloc; lia|].
    exists s, b'. split; [exact H|]. split; [exact Hl|]. rewrite Hc. apply Z.pow_le_mono_r; lia.
Defined.

(** ** A mark and a wrapped offset *)

(** Mark and Restore with a write between them: the write moved the unread bytes
    to the start of a new slice, Restore goes back to where they were in the old
    one, and the bytes 4, 5 and 6 are lost. *)
Example restore_after_move :
  ('(_, _, i) ← Read (IoBuffer (Slice [1; 2; 3; 4] 4 false) 0 ResetOffMark 1 false None) 3;
   '(_, _, _, i) ← Write (newBytePool []) (Mark i) [5; 6];
   d ← Bytes i; d' ← Bytes (Restore i); Some (d, d')) = Some ([4; 5; 6], []).
Proof. vm_compute. reflexivity. Qed.

(** Draining the largest integer after a byte was read: the sum wraps, passes the
    check, and the buffer has a negative offset, on which Bytes panics. *)
Example drain_wraps :
  ('(_, _, i) ← Read (IoBuffer (Slice [1; 2; 3; 4] 4 false) 0 ResetOffMark 1 false None) 1;
   Some (off (Drain i MaxInt64), Bytes (Drain i MaxInt64))) = Some (MinInt64, None).
Proof. vm_compute. reflexivity. Qed.

(** The buffer that Cup cuts off has a mark at 0 that nobody set: Restore gives
    back bytes that were read from it. *)
Example cup_marked :
  ('(j, _) ← Cup (IoBuffer (Slice [1; 2; 3; 4] 4 false) 0 ResetOffMark 1 false None) 2;
   j ← j; '(d, _, j) ← Read j 2; d' ← Bytes (Restore j); Some (d, d')) = Some ([1; 2], [1; 2]).
Proof. vm_compute. reflexivity. Qed.

(** ReadOnce into a buffer that its writers filled to the last byte: the reader is
    asked for no bytes and none are read, and the buffer is grown only after. *)
Example read_once_full :
  ('(n, e, _, i, r) ← ReadOnce (newBytePool []) (IoBuffer (Slice [1; 2; 3; 4] 4 false) 0 ResetOffMark 1 false None) [9; 9];
   Some (n, e, r, cap (buffer i))) = Some (0, None, [9; 9], 1024).
Proof. vm_compute. reflexivity. Qed.

(** ReadOnce hands on the reader's io.EOF. *)
Example read_once_eof :
  ('(n, e, _, _, _) ← ReadOnce (newBytePool []) (IoBuffer (Slice [1; 2; 3; 4] 2 false) 0 ResetOffMark 1 false None) ([] : bytes);
   Some (n, e)) = Some (0, Some IoEOF).
Proof. vm_compute. reflexivity. Qed.

(** Grow with a count that cannot be had panics, in the slice expression when the
    sum with the length wraps and in [make] when it does not. *)
Example grow_panics :
  (Grow (newBytePool []) (IoBuffer (Slice [1; 2; 3; 4] 4 false) 0 ResetOffMark 1 false None) MaxInt64,
   Grow (newBytePool []) (IoBuffer (Slice [1; 2; 3; 4] 4 false) 0 ResetOffMark 1 false None) (2 ^ 62)) = (None, None).
Proof. vm_compute. reflexivity. Qed.
