(* ===== verification/IoPool.v ===== *)
(** * Pooled buffers and pipes

    Model of src/cache/buffer/iobuffer_pool.go, of [Clone], and of the pipe of
    src/cache/buffer/iobuffer.go.  The pool of buffers is a heap of buffers by
    identity, the identities a sync.Pool keeps, and what its next calls of Get
    give.  A pipe runs every operation under its mutex, so a step is a whole
    critical section: a round of the loop in Read, a Write with the reader its
    Signal wakes, a close with its Broadcast. *)

From stdpp Require Import gmap.
From S2P Require Import Prelude IoBuffer IoBufferThms.

Open Scope Z_scope.

(** ** iobuffer_pool.go *)

Record IoPool : Type := MkIoPool {
  heap : gmap nat ioBuffer; free_list : list nat; io_gets : list (option nat); bytes_pool : bytePool
}.

Definition newIoPool (io_gets : list (option nat)) (bp : bytePool) : IoPool := MkIoPool ∅ [] io_gets bp.

(** An identity that no buffer has yet. *)
Definition fresh_id (p : IoPool) : nat := fresh (dom (heap p)).

Definition io_get (p : IoPool) (size : Z) : option (nat * IoPool) :=
  let p' := MkIoPool (heap p) (free_list p) (tail (io_gets p)) (bytes_pool p) in
  match (head (io_gets p) ≫= (λ choice, choice)) ≫= (λ j, pair j <$> free_list p !! j) with
  | None =>
      '(bp, i) ← newIoBuffer (bytes_pool p) size;
      Some (fresh_id p, MkIoPool (<[fresh_id p := i]> (heap p)) (free_list p) (io_gets p') bp)
  | Some (j, id) =>
      i ← heap p !! id;
      '(bp, i) ← Alloc (bytes_pool p) i size;
      let i := (Count i 1).2 in
      Some (id, MkIoPool (<[id := i]> (heap p)) (delete j (free_list p)) (io_gets p') bp)
  end.

Definition io_put (p : IoPool) (id : nat) : option IoPool :=
  i ← heap p !! id;
  '(bp, i) ← Free (bytes_pool p) i;
  Some (MkIoPool (<[id := i]> (heap p)) (id :: free_list p) (io_gets p) bp).

Definition GetIoPool (p : IoPool) (size : Z) : option (nat * IoPool) := io_get p size.

(** A pipe counts with its buffer's Count and its buffer is what goes back, so
    that PutIoPool of a pipe is PutIoPool of its buffer. *)
Definition PutIoPool (p : IoPool) (id : nat) : option (option error * IoPool) :=
  i ← heap p !! id;
  let '(count, i) := Count i (-1) in
  let p := MkIoPool (<[id := i]> (heap p)) (free_list p) (io_gets p) (bytes_pool p) in
  if 0 <? count then Some (None, p)
  else if count <? 0 then Some (Some ErrDuplicate, p)
  else p ← io_put p id; Some (None, p).

(** A Write to the buffer [id] of the heap. *)
Definition write_id (p : IoPool) (id : nat) (d : bytes) : option IoPool :=
  i ← heap p !! id;
  '(_, _, bp, i) ← Write (bytes_pool p) i d;
  Some (MkIoPool (<[id := i]> (heap p)) (free_list p) (io_gets p) bp).

Definition set_eof_id (p : IoPool) (id : nat) (e : bool) : option IoPool :=
  i ← heap p !! id; Some (MkIoPool (<[id := SetEOF i e]> (heap p)) (free_list p) (io_gets p) (bytes_pool p)).

Definition Clone (p : IoPool) (id : nat) : option (nat * IoPool) :=
  i ← heap p !! id;
  '(buf, p) ← GetIoPool p (Len i);
  d ← Bytes i;
  p ← write_id p buf d;
  p ← set_eof_id p buf (EOF i);
  Some (buf, p).

(** ** The pipe *)

Record pipe : Type := Pipe { IoBuf : ioBuffer; err : option error }.

Definition pipe_Len (p : pipe) : Z := Len (IoBuf p).

(** A round of the loop in Read for [n] bytes: [None] for the answer when the
    reader has to wait. *)
Definition pipe_round (p : pipe) (n : Z) : option (option (bytes * option error) * pipe) :=
  if 0 <? Len (IoBuf p) then '(d, e, i) ← Read (IoBuf p) n; Some (Some (d, e), Pipe i (err p))
  else match err p with Some e => Some (Some ([], Some e), p) | None => Some (None, p) end.

Definition pipe_Write (bp : bytePool) (p : pipe) (d : bytes) : option (Z * option error * bytePool * pipe) :=
  match err p with
  | Some _ => Some (0, Some ErrClosedPipeWrite, bp, p)
  | None => '(e, bp, i) ← Append bp (IoBuf p) d; Some (zlen d, e, bp, Pipe i (err p))
  end.

Definition pipe_CloseWithError (p : pipe) (e : option error) : pipe :=
  Pipe (IoBuf p) (Some (match e with Some e => e | None => IoEOF end)).

Definition NewPipe (bp : bytePool) (size : Z) : option (bytePool * pipe) :=
  '(bp, i) ← newIoBuffer bp size; Some (bp, Pipe i None).

(** Goroutines that read: not reading, about to run a round, or in [c.Wait]. *)
Inductive thread : Type := Idle | Reading (n : Z) | Waiting (n : Z).

Definition waiting (t : thread) : bool := match t with Waiting _ => true | _ => false end.
Definition wake (t : thread) : thread := match t with Waiting n => Reading n | _ => t end.

(** What has happened, under [p.mu]'s order. *)
Inductive event : Type :=
| Got (g : nat) (d : bytes) (e : option error)
| Put (d : bytes) (n : Z) (e : option error)
| Closed (e : error).

Record system : Type := System { the_pipe : pipe; the_pool : bytePool; threads : list thread; log : list event }.

Inductive action : Type :=
| StartRead (g : nat) (n : Z)
| Round (g : nat)
| DoWrite (d : bytes) (woken : option nat)
| DoClose (e : option error).

(** [c.Signal()]: one of the goroutines that wait, if there is one. *)
Definition signal (ts : list thread) (woken : option nat) : option (list thread) :=
  match woken with
  | None => if existsb waiting ts then None else Some ts
  | Some g => match ts !! g with Some (Waiting n) => Some (<[g := Reading n]> ts) | _ => None end
  end.

Definition act (s : system) (a : action) : option system :=
  match a with
  | StartRead g n =>
      match threads s !! g with
      | Some Idle =>
          if n =? 0 then Some (System (the_pipe s) (the_pool s) (threads s) (log s ++ [Got g [] None]))
          else if 0 <? n then Some (System (the_pipe s) (the_pool s) (<[g := Reading n]> (threads s)) (log s))
          else None
      | _ => None
      end
  | Round g =>
      match threads s !! g with
      | Some (Reading n) =>
          '(a, p) ← pipe_round (the_pipe s) n;
          match a with
          | Some (d, e) => Some (System p (the_pool s) (<[g := Idle]> (threads s)) (log s ++ [Got g d e]))
          | None => Some (System p (the_pool s) (<[g := Waiting n]> (threads s)) (log s))
          end
      | _ => None
      end
  | DoWrite d woken =>
      '(n, e, bp, p) ← pipe_Write (the_pool s) (the_pipe s) d;
      ts ← signal (threads s) woken;
      Some (System p bp ts (log s ++ [Put d n e]))
  | DoClose e =>
      let p := pipe_CloseWithError (the_pipe s) e in
      Some (System p (the_pool s) (map wake (threads s)) (log s ++ [Closed (default IoEOF e)]))
  end.

Fixpoint acts (s : system) (l : list action) : option system :=
  match l with [] => Some s | a :: l => s ← act s a; acts s l end.

Definition new_system (choices : list (option nat)) (size : Z) (readers : nat) : option system :=
  '(bp, p) ← NewPipe (newBytePool choices) size; Some (System p bp (replicate readers Idle) []).
