(* ===== verification/IoPoolProps.v ===== *)
(** * Pooled buffers and pipes: the properties

    No buffer of the pool has two holders as long as nobody puts back a buffer
    that another client holds; a pipe gives its readers exactly the bytes its
    writers put in, in their order, and after a close nobody waits. *)

From stdpp Require Import gmap.
From S2P Require Import Prelude IoBuffer IoBufferThms IoPool.

Open Scope Z_scope.

(** ** The pool *)

(** Whose a buffer is: the client that got it, and the buffer. *)
Abbreviation holding := (nat * nat)%type.

(** The pools that calls of any number of clients lead to, in which nobody puts
    back a buffer that another client holds, with the buffers [out] that clients
    hold, [k] Puts answered with ErrDuplicate, and [t] bytes written in all.  A
    client may put back what it holds, and again what it has put back as long as
    nobody else has got it since. *)
Inductive calls : nat → Z → list holding → IoPool → Prop :=
| calls_new choices io_choices : calls 0 0 [] (newIoPool io_choices (newBytePool choices))
| calls_get k t out p c size id p' :
    calls k t out p → size ≤ most → GetIoPool p size = Some (id, p') → calls k t ((c, id) :: out) p'
| calls_put k t out p c id p' :
    calls k t out p → (∀ c', (c', id) ∈ out → c' = c) → PutIoPool p id = Some (None, p') →
    calls k t (filter (.≠ (c, id)) out) p'
| calls_duplicate k t out p c id e p' :
    calls k t out p → (∀ c', (c', id) ∈ out → c' = c) → PutIoPool p id = Some (Some e, p') →
    calls (S k) t out p'
| calls_write k t out p c id d p' :
    calls k t out p → (c, id) ∈ out → write_id p id d = Some p' → calls k (t + zlen d) out p'
| calls_clone k t out p c id id' p' :
    calls k t out p → (c, id) ∈ out → Clone p id = Some (id', p') → calls k t ((c, id') :: out) p'.

Definition owned (k : nat) (t : Z) (p : IoPool) (cnt : Z) (id : nat) : Prop :=
  ∃ i, heap p !! id = Some i ∧ wf i ∧ cnt - Z.of_nat k ≤ count i ≤ cnt ∧ len (buffer i) ≤ t.

Record pool_inv (k : nat) (t : Z) (out : list nat) (p : IoPool) : Prop := {
  inv_apart : NoDup (out ++ free_list p);
  inv_out id : id ∈ out → owned k t p 1 id;
  inv_free id : id ∈ free_list p → owned k t p 0 id;
  inv_heap id i : heap p !! id = Some i → id ∈ out ++ free_list p;
  inv_bytes : pool_ok (bytes_pool p)
}.

Lemma owned_le k k' t t' p cnt id : (k ≤ k')%nat → t ≤ t' → owned k t p cnt id → owned k' t' p cnt id.
Proof. intros Hk Ht (i & ? & ? & ? & ?). exists i. split_and!; try done; lia. Qed.

Lemma owned_insert k k' t t' p p' id i cnt x :
  (k ≤ k')%nat → t ≤ t' →
  heap p' = <[id := i]> (heap p) → len (buffer i) ≤ t' → wf i →
  (x = id → cnt - Z.of_nat k' ≤ count i ≤ cnt) → (x ≠ id → owned k t p cnt x) → owned k' t' p' cnt x.
Proof.
  intros Hk Ht Hh Hl Hi Hc Ho. destruct (decide (x = id)) as [->|Hne].
  - exists i. rewrite Hh, lookup_insert_eq. specialize (Hc eq_refl). done.
  - destruct (Ho Hne) as (j & ? & ? & ? & ?). exists j. rewrite Hh, lookup_insert_ne by done. split_and!; try done; lia.
Qed.

(** A buffer from the pool: empty, of nobody else, with one reference more than it
    had in the pool. *)
Lemma get_ok k t out p size :
  pool_inv k t out p → Z.of_nat k < 2 ^ 31 - 1 → size ≤ most → 0 ≤ t →
  ∃ id p' i, GetIoPool p size = Some (id, p') ∧ id ∉ out ∧ heap p' !! id = Some i ∧ unread i = [] ∧
    len (buffer i) = 0 ∧ pool_inv k t (id :: out) p'.
Proof.
  intros [Ha Ho Hf Hh Hb] Hk Hsz Ht. unfold GetIoPool, io_get.
  destruct (_ ≫= _) as [[j id]|] eqn:E.
  - rewrite bind_Some in E. destruct E as (j' & _ & E). rewrite fmap_Some in E. destruct E as (x & Ej & E). simplify_eq.
    destruct (Hf x) as (i & Ei & Hi & Hc & _); [by eapply list_elem_of_lookup_2|]. rewrite Ei. cbn [mbind option_bind].
    destruct (Alloc_ok (bytes_pool p) i size Hi Hb Hsz) as (bp & i' & Ea & [Hbp Hi' Hu _] & Hl). rewrite Ea. cbn [mbind option_bind].
    assert (count i' = count i) as Hcnt by (by eapply Alloc_count).
    pose proof (delete_Permutation (free_list p) j' x Ej) as Hperm.
    eexists x, _, _. split; [done|]. simpl. rewrite lookup_insert_eq.
    assert (NoDup (x :: out ++ delete j' (free_list p))) as Hnd.
    { rewrite Hperm, <- Permutation_middle in Ha. exact Ha. }
    assert (wraps 32 (count i' + 1) = count i + 1) as Hw.
    { rewrite Hcnt. unfold wraps. rewrite Z.mod_small; lia. }
    split; [apply list.NoDup_cons in Hnd as [Hx _]; rewrite elem_of_app in Hx; tauto|]. split; [done|]. split; [exact Hu|]. split; [exact Hl|].
    split; simpl; try done.
    + intros y [->|Hy]%elem_of_cons; (eapply (owned_insert k _ t _ _ _ _ _ 1 _); [lia|lia|done|simpl; lia|exact Hi'|intros _; simpl; rewrite Hw; lia|]); [done|].
      intros _. by apply Ho.
    + intros y Hy. apply list.NoDup_cons in Hnd as [Hx Hnd]. assert (y ≠ x) by (intros ->; apply Hx, elem_of_app; by right).
      eapply (owned_insert k _ t _ _ _ _ _ 0 _); [lia|lia|done|simpl; lia|exact Hi'|done|]. intros _. apply Hf.
      rewrite Hperm. by apply elem_of_cons; right.
    + intros y i0. destruct (decide (y = x)) as [->|]; [intros _; by apply elem_of_cons; left|].
      rewrite lookup_insert_ne by done. intros Hy%Hh. rewrite Hperm, <- Permutation_middle in Hy. exact Hy.
  - destruct (newIoBuffer_ok (bytes_pool p) size Hb Hsz) as (bp & i & En & Hbp & Hi & Hu & _ & Hc & _ & Hl). rewrite En.
    cbn [mbind option_bind]. assert (heap p !! fresh_id p = None) as Hfr by (apply not_elem_of_dom; unfold fresh_id; apply is_fresh).
    assert (fresh_id p ∉ out ++ free_list p) as Hno.
    { intros [Hx|Hx]%elem_of_app; [apply Ho in Hx|apply Hf in Hx]; destruct Hx as (? & Hx & _); congruence. }
    eexists (fresh_id p), _, i. split; [done|]. simpl. rewrite lookup_insert_eq. rewrite elem_of_app in Hno.
    split; [tauto|]. split; [done|]. split; [done|]. split; [done|]. split; simpl; try done.
    + apply list.NoDup_cons. rewrite elem_of_app. done.
    + intros y [->|Hy]%elem_of_cons; (eapply (owned_insert k _ t _ _ _ _ _ 1 _); [lia|lia|done|simpl; lia|exact Hi|intros _; lia|]); [done|]. intros _. by apply Ho.
    + intros y Hy. eapply (owned_insert k _ t _ _ _ _ _ 0 _); [lia|lia|done|simpl; lia|exact Hi|intros ->; tauto|]. intros _. by apply Hf.
    + intros y i0. destruct (decide (y = fresh_id p)) as [->|]; [intros _; by apply elem_of_cons; left|].
      rewrite lookup_insert_ne by done. intros Hy%Hh. by apply elem_of_cons; right.
Qed.

(** Putting a buffer back: taken by the pool when its count falls to zero. *)
Lemma put_ok k t out p id i :
  pool_inv k t out p → Z.of_nat k < 2 ^ 31 - 1 → 0 ≤ t → heap p !! id = Some i →
  ∃ e p', PutIoPool p id = Some (e, p') ∧ (e = None ↔ count i = 1) ∧
    (e ≠ None → e = Some ErrDuplicate ∧ free_list p' = free_list p) ∧
    (e = None → id ∈ free_list p' ∧ pool_inv k t (filter (.≠ id) out) p') ∧
    (e ≠ None → pool_inv (S k) t out p') ∧ (k = 0%nat → id ∈ out → e = None).
Proof.
  intros [Ha Ho Hf Hh Hb] Hk Ht Ei. unfold PutIoPool. rewrite Ei. cbn [mbind option_bind Count].
  assert (wf i ∧ len (buffer i) ≤ t ∧ - Z.of_nat k ≤ count i ≤ 1) as (Hi & Hli & Hc).
  { pose proof (Hh _ _ Ei) as [(j & Ej & ? & ? & ?)%Ho|(j & Ej & ? & ? & ?)%Hf]%elem_of_app;
      assert (j = i) as -> by congruence; split_and!; (done || lia). }
  assert (id ∈ out → 1 - Z.of_nat k ≤ count i) as Hout by (intros (j & Ej & _ & ? & _)%Ho; simplify_eq; lia).
  assert (id ∈ free_list p → - Z.of_nat k ≤ count i ≤ 0) as Hfree by (intros (j & Ej & _ & ? & _)%Hf; simplify_eq; lia).
  assert (wraps 32 (count i + -1) = count i - 1) as -> by (unfold wraps; rewrite Z.mod_small; lia).
  destruct (Z.ltb_spec 0 (count i - 1)); [lia|].
  destruct (Z.ltb_spec (count i - 1) 0) as [Hneg|].
  - eexists (Some ErrDuplicate), _. split; [done|]. split; [split; [done|lia]|]. split; [done|]. split; [done|].
    split; [|intros -> ?%Hout; lia]. intros _. split; simpl; try done.
    + intros x Hx. eapply (owned_insert k _ t _ _ _ _ _ 1 _); [lia|lia|done|simpl; lia|exact Hi|intros ->; simpl; specialize (Hout Hx); lia|]. intros _. by apply Ho.
    + intros x Hx. eapply (owned_insert k _ t _ _ _ _ _ 0 _); [lia|lia|done|simpl; lia|exact Hi|intros ->; simpl; specialize (Hfree Hx); lia|]. intros _. by apply Hf.
    + intros x j. destruct (decide (x = id)) as [->|]; [intros _; by eapply Hh|]. rewrite lookup_insert_ne by done. apply Hh.
  - assert (count i = 1) as Hc1 by lia. unfold io_put. simpl. rewrite lookup_insert_eq. cbn [mbind option_bind].
    set (i1 := IoBuffer _ _ _ _ _ _). assert (wf i1) as Hi1 by exact Hi.
    destruct (Free_ok (bytes_pool p) i1 Hi1 Hb) as (bp & i2 & Ef & [Hbp Hi2 _ Hl2] & _). simpl in Hl2. rewrite Ef. cbn [mbind option_bind].
    apply Free_count in Ef. simpl in Ef. eexists None, _. split; [done|]. split; [done|]. split; [done|].
    split; [|done]. intros _. rewrite insert_insert_eq. split; [by apply elem_of_cons; left|].
    assert (id ∉ free_list p) as Hnf by (intros Hin%Hfree; lia).
    split; simpl; try done.
    + apply list.NoDup_app in Ha as (Ha1 & Ha2 & Ha3). rewrite <- Permutation_middle. apply list.NoDup_cons. split.
      * rewrite elem_of_app, list_elem_of_filter. tauto.
      * apply list.NoDup_app. split; [by apply list.NoDup_filter|]. split; [|done]. intros x [_ Hx]%list_elem_of_filter. by apply Ha2.
    + intros x [Hne Hx]%list_elem_of_filter. eapply (owned_insert k _ t _ _ _ _ _ 1 _); [lia|lia|done|simpl; lia|exact Hi2|done|].
      intros _. by apply Ho.
    + intros x [->|Hx]%elem_of_cons; (eapply (owned_insert k _ t _ _ _ _ _ 0 _); [lia|lia|done|simpl; lia|exact Hi2|intros _; lia|]); [done|].
      intros _. by apply Hf.
    + intros x j. rewrite <- Permutation_middle, elem_of_cons, elem_of_app, list_elem_of_filter.
      destruct (decide (x = id)) as [->|]; [by left|]. rewrite lookup_insert_ne by done. intros Hx%Hh. rewrite elem_of_app in Hx. tauto.
Qed.

(** A change of a buffer that somebody owns which keeps its count. *)
Lemma change_ok k t t' out p id i i' bp :
  pool_inv k t out p → t ≤ t' → len (buffer i') ≤ t' →
  id ∈ out → heap p !! id = Some i → wf i' → count i' = count i → pool_ok bp →
  pool_inv k t' out (MkIoPool (<[id := i']> (heap p)) (free_list p) (io_gets p) bp).
Proof.
  intros [Ha Ho Hf Hh Hb] Ht Hl Hin Ei Hi' Hc Hbp. destruct (Ho _ Hin) as (j & Ej & _ & Hj & _). simplify_eq.
  apply list.NoDup_app in Ha as Ha'. destruct Ha' as (_ & Hd & _). split; simpl; try done.
  - intros x Hx. eapply (owned_insert k _ t _ _ _ _ _ 1 _); [lia|lia|done|simpl; lia|exact Hi'|intros ->; lia|]. intros _. by apply Ho.
  - intros x Hx. assert (x ≠ id) by (intros ->; by eapply Hd).
    eapply (owned_insert k _ t _ _ _ _ _ 0 _); [lia|lia|done|simpl; lia|exact Hi'|intros ->; lia|]. intros _. by apply Hf.
  - intros x y. destruct (decide (x = id)) as [->|]; [intros _; by eapply Hh|]. rewrite lookup_insert_ne by done. apply Hh.
Qed.

Lemma write_id_ok k t t' out p id i d :
  pool_inv k t out p → t ≤ t' → len (buffer i) + zlen d ≤ t' → t' ≤ most → id ∈ out → heap p !! id = Some i →
  ∃ p' i', write_id p id d = Some p' ∧ heap p' = <[id := i']> (heap p) ∧ unread i' = unread i ++ d ∧
    len (buffer i') ≤ t' ∧ pool_inv k t' out p'.
Proof.
  intros Hp Ht Hl Hm Hin Ei. pose proof Hp as [_ Ho _ _ Hb]. destruct (Ho _ Hin) as (j & Ej & Hi & _). simplify_eq.
  unfold write_id. rewrite Ei. cbn [mbind option_bind].
  destruct (Write_ok (bytes_pool p) i Hi Hb d) as (bp & i' & E & [? ? Hu ?]); [lia|]. rewrite E. cbn [mbind option_bind].
  eexists _, i'. split; [done|]. split; [done|]. split; [done|]. split; [lia|]. apply Write_count in E.
  eapply change_ok; [exact Hp|done|lia|done|exact Ei|done|done|done].
Qed.

Lemma get_other p size id p' x : GetIoPool p size = Some (id, p') → id ≠ x → heap p' !! x = heap p !! x.
Proof.
  unfold GetIoPool, io_get, mbind, option_bind. intros H Hne. repeat case_match; simplify_eq/=; by rewrite lookup_insert_ne.
Qed.

Lemma clone_ok k t out p id :
  pool_inv k t out p → Z.of_nat k < 2 ^ 31 - 1 → 0 ≤ t ≤ most → id ∈ out →
  ∃ i id' p' j, heap p !! id = Some i ∧ Clone p id = Some (id', p') ∧ id' ∉ out ∧ heap p' !! id' = Some j ∧
    unread j = unread i ∧ eof j = eof i ∧ heap p' !! id = Some i ∧ pool_inv k t (id' :: out) p'.
Proof.
  intros Hp Hk Ht Hin. pose proof Hp as [_ Ho _ _ _]. destruct (Ho _ Hin) as (i & Ei & Hi & _ & Hli).
  assert (0 ≤ Len i ≤ t) as HL by (unfold Len, wf in *; lia). unfold Clone. rewrite Ei. cbn [mbind option_bind].
  destruct (get_ok k t out p (Len i) Hp Hk) as (id' & p1 & j1 & E1 & Hno & Ej1 & Hu1 & Hl1 & Hp1); [lia|lia|].
  assert (id' ≠ id) as Hne by (by intros ->). assert (id' ∈ id' :: out) as Hin' by (apply elem_of_cons; by left).
  assert (heap p1 !! id = Some i) as Ei1 by (by rewrite (get_other _ _ _ _ _ E1 Hne)).
  rewrite E1. cbn [mbind option_bind]. unfold Bytes. rewrite from_ok by done. cbn [mbind option_bind].
  destruct (write_id_ok k t t _ p1 id' j1 (unread i) Hp1) as (p2 & j2 & -> & Hh2 & Hu2 & Hl2 & Hp2);
    [lia|rewrite unread_len by done; lia|lia|done|done|]. cbn [mbind option_bind].
  assert (heap p2 !! id' = Some j2) as Ej2 by (by rewrite Hh2, lookup_insert_eq).
  unfold set_eof_id. rewrite Ej2. cbn [mbind option_bind]. eexists i, id', _, _.
  split; [done|]. split; [done|]. split; [done|]. simpl. rewrite lookup_insert_eq, lookup_insert_ne by done.
  assert (heap p2 !! id = Some i) as -> by (by rewrite Hh2, lookup_insert_ne).
  split; [done|]. split; [unfold unread in *; simpl; by rewrite Hu2, Hu1|]. split; [done|]. split; [done|].
  pose proof Hp2 as [_ Ho2 _ _ Hb2]. destruct (Ho2 _ Hin') as (x & Ex & Hx & _). simplify_eq.
  eapply change_ok; [exact Hp2|done|exact Hl2|done|exact Ej2|exact Hx|done|done].
Qed.

Lemma calls_nonneg k t out p : calls k t out p → 0 ≤ t.
Proof. induction 1; try done. pose proof (zlen_nonneg d). lia. Qed.

Lemma holders_filter (out : list holding) c id :
  (∀ c', (c', id) ∈ out → c' = c) → (filter (.≠ (c, id)) out).*2 = filter (.≠ id) out.*2.
Proof.
  induction out as [|[c1 id1] out IH]; intros Hc; [done|]. cbn [fmap list_fmap snd]. rewrite !filter_cons. simpl.
  rewrite <- IH by (intros c' Hin; apply Hc, elem_of_cons; by right).
  destruct (decide (id1 = id)) as [->|Hne].
  - rewrite (Hc c1) by (apply elem_of_cons; by left). by rewrite !decide_False by tauto.
  - by rewrite !decide_True by congruence.
Qed.

Lemma elem_holding (out : list holding) c id : (c, id) ∈ out → id ∈ out.*2.
Proof. intros Hin. apply list_elem_of_fmap. by exists (c, id). Qed.

Lemma holder_unique (out : list holding) c c' id :
  NoDup out.*2 → (c, id) ∈ out → (c', id) ∈ out → c = c'.
Proof.
  intros Hnd. induction out as [|[c1 id1] out IH]; [by intros ?%not_elem_of_nil|]. cbn [fmap list_fmap snd] in Hnd.
  apply list.NoDup_cons in Hnd as [Hno Hnd]. rewrite !elem_of_cons.
  intros [[= -> ->]|H1] [[=]|H2]; subst; [done| | |by apply IH]; exfalso; apply Hno; by eapply elem_holding.
Qed.

Lemma calls_inv k t out p : calls k t out p → Z.of_nat k < 2 ^ 31 - 1 → t ≤ most → pool_inv k t out.*2 p.
Proof.
  induction 1 as [choices io|k t out p c size id p' Hc IH Hs E|k t out p c id p' Hc IH Hown E|
    k t out p c id e p' Hc IH Hown E|k t out p c id d p' Hc IH Hin E|k t out p c id id' p' Hc IH Hin E];
    intros Hk Ht; try pose proof (calls_nonneg _ _ _ _ Hc) as H0; try pose proof (elem_holding _ _ _ Hin) as Hin'.
  - split; simpl; try done; try (intros ? []%not_elem_of_nil); [constructor|apply newBytePool_ok].
  - destruct (get_ok k t _ p size (IH ltac:(lia) Ht)) as (id1 & p1 & i & E1 & _ & _ & _ & _ & Hp); [lia|lia|lia|]. by simplify_eq.
  - destruct (heap p !! id) as [i|] eqn:Ei; [|by unfold PutIoPool in E; rewrite Ei in E].
    destruct (put_ok k t _ p id i (IH ltac:(lia) Ht)) as (e1 & p1 & E1 & _ & _ & Hp & _); [lia|lia|done|]. simplify_eq.
    rewrite holders_filter by done. by apply Hp.
  - destruct (heap p !! id) as [i|] eqn:Ei; [|by unfold PutIoPool in E; rewrite Ei in E].
    destruct (put_ok k t _ p id i (IH ltac:(lia) Ht)) as (e1 & p1 & E1 & _ & _ & _ & Hp & _); [lia|lia|done|]. simplify_eq.
    by apply Hp.
  - pose proof (zlen_nonneg d). specialize (IH ltac:(lia) ltac:(lia)). pose proof IH as [_ Ho _ _ _].
    destruct (Ho _ Hin') as (i & Ei & _ & _ & Hl).
    destruct (write_id_ok k t (t + zlen d) _ p id i d IH) as (p1 & i' & E1 & _ & _ & _ & Hp); [lia|lia|done|done|done|].
    by simplify_eq.
  - destruct (clone_ok k t _ p id (IH ltac:(lia) Ht)) as (i & id1 & p1 & j & _ & E1 & _ & _ & _ & _ & _ & Hp); [lia|lia|done|].
    by simplify_eq.
Qed.

(** C32: let clients get buffers from the pool, write, clone and put them back,
    where nobody puts back a buffer that another client holds.  Then no buffer
    has two holders: Get always gives an empty buffer that nobody holds, and so
    does Clone, with the unread bytes and the EOF flag of the old buffer, which
    keeps its own.  Put takes a buffer back when its count is one and reports
    ErrDuplicate, leaving the pool as it was, for any other; as long as no
    duplicate has been reported, every holder's Put is taken.  This holds up to
    2^31 - 2 reported duplicates, which the counts can hold, and 2^40 bytes. *)
Theorem iopool_exclusive (k : nat) (t : Z) (out : list holding) (p : IoPool) :
  calls k t out p → Z.of_nat k < 2 ^ 31 - 1 → t ≤ most →
  (∀ c c' id, (c, id) ∈ out → (c', id) ∈ out → c = c') ∧
  (∀ size, size ≤ most →
     ∃ id p' i, GetIoPool p size = Some (id, p') ∧ (∀ c, (c, id) ∉ out) ∧ heap p' !! id = Some i ∧ unread i = []) ∧
  (∀ id i, heap p !! id = Some i →
     ∃ e p', PutIoPool p id = Some (e, p') ∧ (e = None ↔ count i = 1) ∧
       (e ≠ None → e = Some ErrDuplicate ∧ free_list p' = free_list p)) ∧
  (∀ c id, k = 0%nat → (c, id) ∈ out → ∃ p', PutIoPool p id = Some (None, p') ∧ id ∈ free_list p') ∧
  (∀ c id, (c, id) ∈ out →
     ∃ i id' p' j, heap p !! id = Some i ∧ Clone p id = Some (id', p') ∧ (∀ c', (c', id') ∉ out) ∧
       heap p' !! id' = Some j ∧ unread j = unread i ∧ eof j = eof i ∧ heap p' !! id = Some i).
Proof.
  intros Hc Hk Ht. pose proof (calls_inv k t out p Hc Hk Ht) as Hp. pose proof (calls_nonneg _ _ _ _ Hc). split_and!.
  - intros c c' id Hin Hin'. destruct Hp as [Ha _ _ _ _]. apply list.NoDup_app in Ha as [Ha _].
    by apply (holder_unique out c c' id).
  - intros size Hs. destruct (get_ok k t _ p size Hp Hk Hs) as (id & p' & i & ? & Hno & ? & ? & _); [done|].
    exists id, p', i. split_and!; try done. by intros c Hin%elem_holding.
  - intros id i Ei. destruct (put_ok k t _ p id i Hp Hk) as (e & p' & ? & ? & ? & _); [done|done|]. eauto 10.
  - intros c id H0 Hin%elem_holding. pose proof Hp as [_ Ho _ _ _]. destruct (Ho _ Hin) as (i & Ei & _).
    destruct (put_ok k t _ p id i Hp Hk) as (e & p' & ? & _ & _ & Hf & _ & He); [done|done|].
    rewrite (He H0 Hin) in *. exists p'. split; [done|]. by apply Hf.
  - intros c id Hin%elem_holding.
    destruct (clone_ok k t _ p id Hp Hk) as (i & id' & p' & j & ? & ? & Hno & ? & ? & ? & ? & _); [done|done|].
    exists i, id', p', j. split_and!; try done. by intros c' Hin'%elem_holding.
Qed.

Lemma iopool_exclusive_witness :
  ∃ id p id' p', GetIoPool (newIoPool [] (newBytePool [])) 10 = Some (id, p) ∧ Clone p id = Some (id', p') ∧ (7%nat, id') ∉ [(7%nat, id)].
Proof.
  destruct (GetIoPool (newIoPool [] (newBytePool [])) 10) as [[id p]|] eqn:E; [|vm_compute in E; discriminate].
  destruct (iopool_exclusive 0 0 [(7%nat, id)] p) as (_ & _ & _ & _ & Hc).
  - eapply calls_get; [constructor| |exact E]. lia.
  - reflexivity.
  - lia.
  - destruct (Hc 7%nat id) as (i & id' & p' & j & _ & H & Hn & _); [apply elem_of_cons; by left|].
    exists id, p, id', p'. split; [reflexivity|]. split; [exact H|apply Hn].
Defined.

(** A buffer put back twice keeps the count -1 in the pool, so its next owner gets
    it with count 0 and its only Put is called a duplicate. *)
Example put_twice_poisons :
  ('(id, p) ← GetIoPool (newIoPool [None; Some 0%nat] (newBytePool [])) 10;
   '(e1, p) ← PutIoPool p id; '(e2, p) ← PutIoPool p id;
   '(id', p) ← GetIoPool p 10; '(e3, p) ← PutIoPool p id';
   Some (bool_decide (id' = id), [e1; e2; e3])) = Some (true, [None; Some ErrDuplicate; Some ErrDuplicate]).
Proof. vm_compute. reflexivity. Qed.

(** Without the condition a buffer gets two holders: A gets and puts a buffer, B
    gets it, A puts it again, which is not reported, and C gets the buffer that B
    still holds. *)
Example stale_put_shares :
  ('(a, p) ← GetIoPool (newIoPool [None; Some 0%nat; Some 0%nat] (newBytePool [])) 10;
   '(e1, p) ← PutIoPool p a; '(b, p) ← GetIoPool p 10;
   '(e2, p) ← PutIoPool p a; '(c, p) ← GetIoPool p 10;
   Some ([e1; e2], bool_decide (b = c))) = Some ([None; None], true).
Proof. vm_compute. reflexivity. Qed.
