(* ===== verification/IoPipeProps.v ===== *)
(** * Pipes: the properties

    In every interleaving of readers, writers and closes, the bytes that the
    readers of a pipe have had are the bytes that were written, in order, up to
    those still in the buffer; and a closed pipe drains, then gives the error it
    was closed with, to everybody. *)

From S2P Require Import Prelude IoBuffer IoBufferThms IoPool.

Open Scope Z_scope.

Definition received (l : list event) : bytes :=
  concat (map (λ x, match x with Got _ d _ => d | _ => [] end) l).
(** The bytes of the writes that were accepted. *)
Definition sent (l : list event) : bytes :=
  concat (map (λ x, match x with Put d _ None => d | _ => [] end) l).

(** The error of the last close. *)
Definition closed_with (l : list event) : option error :=
  foldl (λ a x, match x with Closed e => Some e | _ => a end) None l.

Definition wants (t : thread) : Prop := match t with Idle => True | Reading n | Waiting n => 0 < n end.

Record pipe_inv (s : system) : Prop := {
  pi_wf : wf (IoBuf (the_pipe s));
  pi_pool : pool_ok (the_pool s);
  pi_len : len (buffer (IoBuf (the_pipe s))) ≤ zlen (sent (log s));
  pi_fifo : sent (log s) = received (log s) ++ unread (IoBuf (the_pipe s));
  pi_err : err (the_pipe s) = closed_with (log s);
  pi_wants : Forall wants (threads s);
  pi_awake : err (the_pipe s) ≠ None → Forall (λ t, waiting t = false) (threads s)
}.

Lemma received_snoc l x : received (l ++ [x]) = received l ++ match x with Got _ d _ => d | _ => [] end.
Proof. unfold received. rewrite map_app, concat_app. simpl. by rewrite app_nil_r. Qed.

Lemma sent_snoc l x : sent (l ++ [x]) = sent l ++ match x with Put d _ None => d | _ => [] end.
Proof. unfold sent. rewrite map_app, concat_app. simpl. by rewrite app_nil_r. Qed.

Lemma closed_snoc l x : closed_with (l ++ [x]) = match x with Closed e => Some e | _ => closed_with l end.
Proof. unfold closed_with. by rewrite foldl_app. Qed.

Create Rewrite HintDb pipe_log.
#[local] Hint Rewrite received_snoc sent_snoc closed_snoc app_nil_r : pipe_log.

(** A round of Read: bytes if there are some, the error of a close otherwise, and
    waiting if there is neither. *)
Lemma round_ok p n :
  wf (IoBuf p) → 0 < n →
  ∃ a p', pipe_round p n = Some (a, p') ∧ wf (IoBuf p') ∧ err p' = err p ∧
    buffer (IoBuf p') = buffer (IoBuf p) ∧
    if decide (unread (IoBuf p) = []) then p' = p ∧ a = (λ e, ([], Some e)) <$> err p
    else a = Some (ztake n (unread (IoBuf p)), None) ∧ unread (IoBuf p') = zdrop n (unread (IoBuf p)).
Proof.
  intros Hp Hn. unfold pipe_round. rewrite <- (unread_len _ Hp).
  destruct (decide (unread (IoBuf p) = [])) as [E|E].
  - rewrite E. simpl. destruct (err p) eqn:Ee; eexists _, _; split_and!; by rewrite ?Ee.
  - assert (0 < zlen (unread (IoBuf p))) by (pose proof (zlen_nonneg (unread (IoBuf p))); rewrite <- zlen_nil in E; lia).
    destruct (Z.ltb_spec 0 (zlen (unread (IoBuf p)))); [|lia].
    destruct (Read_ok _ Hp n) as (i' & -> & ? & ? & ?); [lia|done|]. cbn [mbind option_bind]. eexists _, _. by split_and!.
Qed.

Lemma Write_pipe_ok bp p d :
  wf (IoBuf p) → pool_ok bp → (err p = None → len (buffer (IoBuf p)) + zlen d ≤ most) →
  ∃ n e bp' p', pipe_Write bp p d = Some (n, e, bp', p') ∧ wf (IoBuf p') ∧ pool_ok bp' ∧ err p' = err p ∧
    match err p with
    | Some _ => n = 0 ∧ e = Some ErrClosedPipeWrite ∧ p' = p
    | None => n = zlen d ∧ e = None ∧ unread (IoBuf p') = unread (IoBuf p) ++ d ∧
              len (buffer (IoBuf p')) ≤ len (buffer (IoBuf p)) + zlen d
    end.
Proof.
  intros Hp Hb Hm. unfold pipe_Write. destruct (err p) as [x|] eqn:E; [eexists _, _, _, _; by split_and!|].
  destruct (Append_ok bp _ d Hp Hb (Hm eq_refl)) as (bp' & i' & -> & [? ? ? ?]). cbn [mbind option_bind]. eexists _, _, _, _. by split_and!.
Qed.

Lemma signal_ok ts woken ts' :
  signal ts woken = Some ts' → Forall wants ts →
  Forall wants ts' ∧ (Forall (λ t, waiting t = false) ts → Forall (λ t, waiting t = false) ts').
Proof.
  unfold signal. intros H Hw. repeat case_match; simplify_eq; try done. split; intros.
  - apply list.Forall_insert; [done|]. by eapply (list.Forall_lookup_1 _ _ _ (Waiting _) Hw).
  - by apply list.Forall_insert.
Qed.

Lemma signal_some ts : ∃ woken ts', signal ts woken = Some ts'.
Proof.
  destruct (existsb waiting ts) eqn:E; [|exists None, ts; simpl; by rewrite E].
  apply existsb_exists in E as (t & Hin & Ht). destruct t as [| |n]; try done.
  apply list_elem_of_In, list_elem_of_lookup in Hin as [g Hg]. exists (Some g). simpl. rewrite Hg. eauto.
Qed.

Lemma act_sent s a s' : act s a = Some s' → ∃ x, sent (log s') = sent (log s) ++ x.
Proof.
  intros H. assert (∃ y, log s' = log s ++ y) as [y ->].
  { destruct a; simpl in H; unfold mbind, option_bind in H; repeat case_match; simplify_eq/=; eauto;
      exists []; by rewrite app_nil_r. }
  unfold sent. rewrite map_app, concat_app. eauto.
Qed.

Lemma acts_sent l : ∀ s s', acts s l = Some s' → zlen (sent (log s)) ≤ zlen (sent (log s')).
Proof.
  induction l as [|a l IH]; intros s s'; simpl; [by intros [= <-]|].
  destruct (act s a) as [s1|] eqn:E; [|done]. cbn [mbind option_bind]. intros H%IH.
  destruct (act_sent _ _ _ E) as [x Hx]. rewrite Hx, zlen_app in H. pose proof (zlen_nonneg x). lia.
Qed.

(** The bytes of a write that is accepted count as sent. *)
Lemma write_sent s d woken s' :
  act s (DoWrite d woken) = Some s' → err (the_pipe s) = None → sent (log s') = sent (log s) ++ d.
Proof.
  simpl. unfold pipe_Write. intros H Ee. rewrite Ee in H. unfold Append, mbind, option_bind in H.
  repeat case_match; simplify_eq/=; by rewrite sent_snoc.
Qed.

Lemma act_inv s a s' : pipe_inv s → act s a = Some s' → zlen (sent (log s')) ≤ most → pipe_inv s'.
Proof.
  intros [Hp Hb Hlen Hf He Hw Ha] H Hm. pose proof H as Hact. destruct a as [g n|g|d woken|e]; simpl in H.
  - destruct (threads s !! g) as [[]|] eqn:Eg; try done. destruct (Z.eqb_spec n 0); [simplify_eq|].
    { split; simpl; autorewrite with pipe_log; try done. }
    destruct (Z.ltb_spec 0 n); [|done]. simplify_eq. split; simpl; try done; [by apply list.Forall_insert|].
    intros Hn. apply list.Forall_insert; [by apply Ha|done].
  - destruct (threads s !! g) as [[|n|]|] eqn:Eg; try done.
    pose proof (list.Forall_lookup_1 _ _ _ _ Hw Eg) as Hn. simpl in Hn.
    destruct (round_ok (the_pipe s) n Hp Hn) as (a & p' & Er & Hp' & Hep & Hbuf & Hu). rewrite Er in H. cbn [mbind option_bind] in H.
    destruct (decide _) as [E|E]; destruct Hu as [Hu1 Hu2].
    + subst p' a. destruct (err (the_pipe s)) as [x|] eqn:Ee; simpl in H; simplify_eq.
      * split; simpl; autorewrite with pipe_log; rewrite ?Ee; try done; [by apply list.Forall_insert|].
        intros _. apply list.Forall_insert; [by apply Ha|done].
      * split; simpl; rewrite ?Ee; try done. by apply list.Forall_insert.
    + subst a. simplify_eq. split; simpl; autorewrite with pipe_log; rewrite ?Hep, ?Hbuf; try done.
      * by rewrite Hf, Hu2, <- (assoc_L (++)), ztake_zdrop.
      * by apply list.Forall_insert.
      * intros Hne. apply list.Forall_insert; [by apply Ha|done].
  - destruct (Write_pipe_ok (the_pool s) (the_pipe s) d Hp Hb) as (n & e & bp' & p' & Ew & Hp' & Hb' & Hep & Hu).
    { intros Ee. rewrite (write_sent _ _ _ _ Hact Ee), zlen_app in Hm. lia. }
    rewrite Ew in H. cbn [mbind option_bind] in H. destruct (signal _ _) as [ts|] eqn:Es; [|done]. simpl in H. simplify_eq.
    destruct (signal_ok _ _ _ Es Hw) as [Hw' Ha'].
    split; simpl; autorewrite with pipe_log; rewrite ?Hep; try done; [| |by intros ?%Ha%Ha'].
    + destruct (err (the_pipe s)); destruct Hu as (_ & -> & Hu).
      * subst p'. by rewrite app_nil_r.
      * rewrite zlen_app. lia.
    + rewrite Hf. destruct (err (the_pipe s)); destruct Hu as (_ & -> & Hu).
      * subst p'. by rewrite app_nil_r.
      * by rewrite (proj1 Hu), (assoc_L (++)).
  - simplify_eq. split; simpl; autorewrite with pipe_log; try done.
    + apply list.Forall_fmap. eapply list.Forall_impl; [exact Hw|]. by intros [].
    + intros _. apply list.Forall_fmap, list.Forall_true. by intros [].
Qed.

Lemma acts_inv l : ∀ s s', pipe_inv s → acts s l = Some s' → zlen (sent (log s')) ≤ most → pipe_inv s'.
Proof.
  induction l as [|a l IH]; intros s s' Hs; simpl; [by intros [= <-]|].
  destruct (act s a) as [s1|] eqn:E; [|done]. cbn [mbind option_bind]. intros H Hm.
  eapply IH; [|exact H|done]. eapply act_inv; [exact Hs|exact E|]. pose proof (acts_sent _ _ _ H). lia.
Qed.

Lemma new_system_ok choices size readers :
  size ≤ most → ∃ s, new_system choices size readers = Some s ∧ pipe_inv s.
Proof.
  intros Hs. unfold new_system, NewPipe.
  destruct (newIoBuffer_ok (newBytePool choices) size (newBytePool_ok _) Hs) as (bp & i & -> & Hb & Hi & Hu & _ & _ & _ & Hl).
  cbn [mbind option_bind]. eexists. split; [done|]. split; simpl; try done; [by rewrite Hl|].
  by apply list.Forall_replicate.
Qed.

(** C33: in every interleaving of readers, writers and closes on a new pipe, what
    the readers have received, in the order of their critical sections, followed
    by what is still in the buffer, is what was written and accepted, in order: no
    byte is lost, doubled or reordered.  No step panics: a reader that is not
    waiting can run its round, a writer can write and a close can happen at any
    time.  The pipe's size and the bytes sent are at most 2^40. *)
Theorem pipe_fifo (choices : list (option nat)) (size : Z) (readers : nat) :
  size ≤ most → ∃ s0, new_system choices size readers = Some s0 ∧
  ∀ l s, acts s0 l = Some s → zlen (sent (log s)) ≤ most →
    sent (log s) = received (log s) ++ unread (IoBuf (the_pipe s)) ∧
    pipe_Len (the_pipe s) = zlen (unread (IoBuf (the_pipe s))) ∧
    (∀ g n, threads s !! g = Some (Reading n) → is_Some (act s (Round g))) ∧
    (∀ d, zlen (sent (log s)) + zlen d ≤ most → ∃ woken, is_Some (act s (DoWrite d woken))) ∧
    (∀ e, is_Some (act s (DoClose e))).
Proof.
  intros Hsz. destruct (new_system_ok choices size readers Hsz) as (s0 & E & Hs0). exists s0. split; [done|]. intros l s Hl Hm.
  pose proof (acts_inv l s0 s Hs0 Hl Hm) as [Hp Hb Hlen Hf He Hw Ha]. split_and!; try done.
  - symmetry. by apply unread_len.
  - intros g n Hg. pose proof (list.Forall_lookup_1 _ _ _ _ Hw Hg) as Hn. simpl in *. rewrite Hg.
    destruct (round_ok (the_pipe s) n Hp Hn) as (a & p' & -> & _). cbn [mbind option_bind]. destruct a as [[]|]; eauto.
  - intros d Hd. destruct (signal_some (threads s)) as (woken & ts & Es). exists woken. simpl.
    destruct (Write_pipe_ok (the_pool s) (the_pipe s) d Hp Hb) as (n & e & bp' & p' & -> & _); [intros _; lia|]. cbn [mbind option_bind].
    rewrite Es. simpl. eauto.
Qed.

(** C34: a pipe closed with an error (io.EOF when none is given) strands nobody and
    loses nothing: no reader waits; a reader gets what is still in the buffer
    without an error, and the error of the last close once the buffer is empty; a
    writer gets ErrClosedPipeWrite and zero bytes written, and the pipe is as it
    was.  The pipe's size and the bytes sent are at most 2^40. *)
Theorem pipe_closed (choices : list (option nat)) (size : Z) (readers : nat) :
  size ≤ most → ∃ s0, new_system choices size readers = Some s0 ∧
  ∀ l s e, acts s0 l = Some s → zlen (sent (log s)) ≤ most → closed_with (log s) = Some e →
    (∀ g n, threads s !! g ≠ Some (Waiting n)) ∧
    (∀ g n, threads s !! g = Some (Reading n) →
       ∃ s' d x, act s (Round g) = Some s' ∧ log s' = log s ++ [Got g d x] ∧ threads s' !! g = Some Idle ∧
         d = ztake n (unread (IoBuf (the_pipe s))) ∧
         x = if decide (unread (IoBuf (the_pipe s)) = []) then Some e else None) ∧
    (∀ d, ∃ s', act s (DoWrite d None) = Some s' ∧ the_pipe s' = the_pipe s ∧
       log s' = log s ++ [Put d 0 (Some ErrClosedPipeWrite)]).
Proof.
  intros Hsz. destruct (new_system_ok choices size readers Hsz) as (s0 & E & Hs0). exists s0. split; [done|].
  intros l s e Hl Hm Hc. pose proof (acts_inv l s0 s Hs0 Hl Hm) as [Hp Hb Hlen Hf He Hw Ha]. rewrite Hc in He. rewrite He in Ha. specialize (Ha ltac:(done)).
  split_and!.
  - intros g n Hg. by pose proof (list.Forall_lookup_1 _ _ _ _ Ha Hg).
  - intros g n Hg. pose proof (list.Forall_lookup_1 _ _ _ _ Hw Hg) as Hn. simpl in *. rewrite Hg.
    destruct (round_ok (the_pipe s) n Hp Hn) as (a & p' & -> & _ & _ & _ & Hu). cbn [mbind option_bind]. rewrite He in Hu.
    assert (<[g := Idle]> (threads s) !! g = Some Idle) by (apply list_lookup_insert_eq; by eapply lookup_lt_Some).
    destruct (decide _) as [Eu|Eu]; destruct Hu as [-> Hu].
    + rewrite Hu, Eu. simpl. eexists _, _, _. split; [done|]. simpl. split_and!; try done. unfold ztake. by destruct (Z.to_nat n).
    + eexists _, _, _. split; [done|]. simpl. by split_and!.
  - intros d. simpl. unfold pipe_Write. rewrite He. cbn [mbind option_bind].
    assert (existsb waiting (threads s) = false) as ->.
    { apply not_true_iff_false. rewrite existsb_exists. intros (t & Hin & Ht). rewrite list.Forall_forall in Ha.
      apply list_elem_of_In, Ha in Hin. congruence. }
    simpl. eexists. split; [done|]. by split_and!.
Qed.

(** Two readers of one byte each wait; a write of two bytes wakes one of them,
    which takes one byte.  The other reader still waits, with a byte in the buffer
    and nobody to wake it but a further write or a close. *)
Example pipe_stranded :
  (s ← new_system [] 16 2;
   s ← acts s [StartRead 0 1; StartRead 1 1; Round 0; Round 1; DoWrite [7; 8] (Some 0%nat); Round 0];
   Some (threads s, pipe_Len (the_pipe s))) = Some ([Idle; Waiting 1], 1).
Proof. vm_compute. reflexivity. Qed.

Lemma pipe_fifo_witness :
  ∃ s0 s, new_system [] 16 2 = Some s0 ∧ acts s0 [StartRead 0 2; DoWrite [7; 8; 9] None; Round 0] = Some s ∧
    sent (log s) = received (log s) ++ unread (IoBuf (the_pipe s)).
Proof.
  destruct (pipe_fifo [] 16 2) as (s0 & E & H); [lia|].
  assert (∃ s, acts s0 [StartRead 0 2; DoWrite [7; 8; 9] None; Round 0] = Some s ∧ sent (log s) = [7; 8; 9]) as (s & Hs & Hl).
  { vm_compute in E. injection E as <-. eexists. split; vm_compute; reflexivity. }
  exists s0, s. split; [exact E|]. split; [exact Hs|]. apply (H _ s Hs). rewrite Hl. vm_compute. discriminate.
Defined.

Lemma pipe_closed_witness :
  ∃ s0 s, new_system [] 16 2 = Some s0 ∧ acts s0 [StartRead 0 2; Round 0; DoClose None] = Some s ∧
    (∀ g n, threads s !! g ≠ Some (Waiting n)).
Proof.
  destruct (pipe_closed [] 16 2) as (s0 & E & H); [lia|].
  assert (∃ s, acts s0 [StartRead 0 2; Round 0; DoClose None] = Some s ∧ sent (log s) = [] ∧ closed_with (log s) = Some IoEOF)
    as (s & Hs & Hl & Hc).
  { vm_compute in E. injection E as <-. eexists. split; [|split]; vm_compute; reflexivity. }
  exists s0, s. split; [exact E|]. split; [exact Hs|]. apply (H _ s IoEOF Hs); [|exact Hc].
  rewrite Hl. vm_compute. discriminate.
Defined.
