(* ===== verification/Calendar.v ===== *)
(** * Time: the Gregorian calendar and time zones

    What the schedules use of Go's package time.  An instant is a number of
    seconds since 1 January of the year 1, midnight UTC, with nanoseconds, as
    in [time.Time]; a zone gives the offset in force at a Unix time and the
    times between which it is.  [Date] resolves a local time the way the
    library does, by looking the offset up twice. *)

From S2P Require Import Prelude.

#[local] Open Scope Z_scope.

(** ** Days *)

Definition is_leap (y : Z) : bool := (y mod 4 =? 0) && (negb (y mod 100 =? 0) || (y mod 400 =? 0)).

(** Days before 1 January of the year [y], counted from the year 1. *)
Definition days_before_year (y : Z) : Z := 365 * (y - 1) + (y - 1) / 4 - (y - 1) / 100 + (y - 1) / 400.

(** The year of a day and the day's place in it, by cycles of 400, 100 and 4 years. *)
Definition year_yday (day : Z) : Z * Z :=
  let n400 := day / 146097 in
  let d := day - 146097 * n400 in
  let n100 := d / 36524 in
  let n100 := n100 - n100 / 4 in
  let d := d - 36524 * n100 in
  let n4 := d / 1461 in
  let d := d - 1461 * n4 in
  let n := d / 365 in
  let n := n - n / 4 in
  (400 * n400 + 100 * n100 + 4 * n4 + n + 1, d - 365 * n).

(** Days before the month [m], from 1, in a year; 13 stands for the year's end. *)
Definition days_before_month (leap : bool) (m : Z) : Z :=
  (if m <=? 1 then 0 else if m =? 2 then 31 else if m =? 3 then 59 else if m =? 4 then 90 else if m =? 5 then 120
   else if m =? 6 then 151 else if m =? 7 then 181 else if m =? 8 then 212 else if m =? 9 then 243
   else if m =? 10 then 273 else if m =? 11 then 304 else if m =? 12 then 334 else 365) +
  (if leap && (2 <? m) then 1 else 0).

Definition month_of_yday (leap : bool) (yday : Z) : Z :=
  let before m := yday <? days_before_month leap m in
  if before 2 then 1 else if before 3 then 2 else if before 4 then 3 else if before 5 then 4
  else if before 6 then 5 else if before 7 then 6 else if before 8 then 7 else if before 9 then 8
  else if before 10 then 9 else if before 11 then 10 else if before 12 then 11 else 12.

Definition year_of (day : Z) : Z := (year_yday day).1.
Definition yday_of (day : Z) : Z := (year_yday day).2.
Definition month_of (day : Z) : Z := month_of_yday (is_leap (year_of day)) (yday_of day).
Definition mday_of (day : Z) : Z := yday_of day - days_before_month (is_leap (year_of day)) (month_of day) + 1.
Definition weekday_of (day : Z) : Z := (day + 1) mod 7.

(** The first day of a month; the month may lie outside 1..12. *)
Definition month_start (y m : Z) : Z :=
  let y := y + (m - 1) / 12 in
  let m := (m - 1) mod 12 + 1 in
  days_before_year y + days_before_month (is_leap y) m.

(** ** Instants *)

Record zone := mkZone { lookup_zone : Z → Z * Z * Z }.
Record time := mkTime { t_sec : Z; t_nsec : Z; t_loc : zone }.

(** Seconds from the year 1 to 1970. *)
Definition unix_epoch : Z := 62135596800.

Definition offset_at (z : zone) (sec : Z) : Z := (lookup_zone z (sec - unix_epoch)).1.1.
Definition local_sec (t : time) : Z := t_sec t + offset_at (t_loc t) (t_sec t).
Definition local_day (t : time) : Z := local_sec t / 86400.

Definition Year (t : time) : Z := year_of (local_day t).
Definition Month (t : time) : Z := month_of (local_day t).
Definition Day (t : time) : Z := mday_of (local_day t).
Definition Weekday (t : time) : Z := weekday_of (local_day t).
Definition Hour (t : time) : Z := local_sec t mod 86400 / 3600.
Definition Minute (t : time) : Z := local_sec t mod 3600 / 60.
Definition Second (t : time) : Z := local_sec t mod 60.
Definition Nanosecond (t : time) : Z := t_nsec t.

Definition In (t : time) (loc : zone) : time := mkTime (t_sec t) (t_nsec t) loc.

(** [Add] of a duration in nanoseconds. *)
Definition Add (t : time) (d : Z) : time :=
  let n := t_nsec t + d in mkTime (t_sec t + n / 1000000000) (n mod 1000000000) (t_loc t).

Definition Date (year month day hour min sec nsec : Z) (loc : zone) : time :=
  let local := (month_start year month + (day - 1)) * 86400 + hour * 3600 + min * 60 + sec in
  let unix := local - unix_epoch in
  let '(offset, start, end_) := lookup_zone loc unix in
  let unix :=
    if offset =? 0 then unix
    else
      let utc := unix - offset in
      let offset := if (utc <? start) || (end_ <=? utc) then (lookup_zone loc utc).1.1 else offset in
      unix - offset in
  mkTime (unix + unix_epoch) nsec loc.

Definition AddDate (t : time) (years months days : Z) : time :=
  Date (Year t + years) (Month t + months) (Day t + days) (Hour t) (Minute t) (Second t) (t_nsec t) (t_loc t).

(** [Truncate] to a multiple of [d] nanoseconds since the year 1, for the
    durations of whole seconds that are used. *)
Definition Truncate (t : time) (d : Z) : time :=
  let s := d / 1000000000 in mkTime (t_sec t - t_sec t mod s) 0 (t_loc t).

(** ** The calendar is right *)

Lemma days_before_year_succ y :
  days_before_year (y + 1) = days_before_year y + (if is_leap y then 366 else 365).
Proof.
  unfold days_before_year, is_leap. replace (y + 1 - 1) with y by lia.
  destruct (Z.eqb_spec (y mod 4) 0), (Z.eqb_spec (y mod 100) 0), (Z.eqb_spec (y mod 400) 0); simpl;
    Z.to_euclidean_division_equations; lia.
Qed.

Lemma year_yday_spec day :
  day = days_before_year (year_of day) + yday_of day ∧
  0 <= yday_of day < (if is_leap (year_of day) then 366 else 365).
Proof.
  unfold year_of, yday_of, year_yday. simpl.
  set (n400 := day / 146097). set (d1 := day - 146097 * n400).
  assert (H1 : 0 <= d1 < 146097) by (unfold d1, n400; Z.to_euclidean_division_equations; lia).
  set (c := d1 / 36524 - d1 / 36524 / 4). set (d2 := d1 - 36524 * c).
  assert (H2 : 0 <= c <= 3 ∧ 0 <= d2 <= 36524 ∧ (d2 = 36524 → c = 3))
    by (unfold d2, c; Z.to_euclidean_division_equations; lia).
  set (q := d2 / 1461). set (d3 := d2 - 1461 * q).
  assert (H3 : 0 <= q <= 24 ∧ 0 <= d3 < 1461 ∧ (q = 24 → d3 <= 1460 ∧ (d3 = 1460 → c = 3)))
    by (unfold d3, q; Z.to_euclidean_division_equations; lia).
  set (n := d3 / 365 - d3 / 365 / 4).
  assert (H4 : 0 <= n <= 3 ∧ 0 <= d3 - 365 * n <= 365 ∧ (d3 - 365 * n = 365 → n = 3))
    by (unfold n; Z.to_euclidean_division_equations; lia).
  assert (Hday : day = 146097 * n400 + 36524 * c + 1461 * q + d3) by (unfold d3, d2, d1; lia).
  clearbody n q c n400. unfold days_before_year, is_leap.
  replace (400 * n400 + 100 * c + 4 * q + n + 1 - 1) with (400 * n400 + 100 * c + 4 * q + n) by lia.
  assert (E4 : (400 * n400 + 100 * c + 4 * q + n) / 4 = 100 * n400 + 25 * c + q) by (Z.to_euclidean_division_equations; lia).
  assert (E100 : (400 * n400 + 100 * c + 4 * q + n) / 100 = 4 * n400 + c) by (Z.to_euclidean_division_equations; lia).
  assert (E400 : (400 * n400 + 100 * c + 4 * q + n) / 400 = n400) by (Z.to_euclidean_division_equations; lia).
  rewrite E4, E100, E400. split; [lia|]. split; [lia|].
  set (y := 400 * n400 + 100 * c + 4 * q + n + 1).
  destruct (Z.eqb_spec (y mod 4) 0), (Z.eqb_spec (y mod 100) 0), (Z.eqb_spec (y mod 400) 0); simpl; try lia;
    (assert (d3 - 365 * n ≠ 365); [|lia]); intros Hd; unfold y in *; Z.to_euclidean_division_equations; lia.
Qed.

Lemma days_before_year_mono y y' : y <= y' → days_before_year y <= days_before_year y'.
Proof. intros Hy. unfold days_before_year. Z.to_euclidean_division_equations. lia. Qed.

Lemma year_of_unique y day : days_before_year y <= day < days_before_year (y + 1) → year_of day = y.
Proof.
  intros Hd. destruct (year_yday_spec day) as [He Hr].
  pose proof (days_before_year_succ (year_of day)) as Hs.
  destruct (Z.lt_trichotomy (year_of day) y) as [Hlt|[Heq|Hgt]]; [|done|].
  - pose proof (days_before_year_mono (year_of day + 1) y ltac:(lia)). lia.
  - pose proof (days_before_year_mono (y + 1) (year_of day) ltac:(lia)). lia.
Qed.

Lemma days_before_month_13 leap : days_before_month leap 13 = if leap then 366 else 365.
Proof. by destruct leap. Qed.

Lemma month_of_yday_spec leap yday :
  0 <= yday < days_before_month leap 13 →
  1 <= month_of_yday leap yday <= 12 ∧
  days_before_month leap (month_of_yday leap yday) <= yday < days_before_month leap (month_of_yday leap yday + 1).
Proof.
  unfold month_of_yday. intros Hy.
  repeat match goal with |- context [?a <? ?b] => destruct (Z.ltb_spec a b) end;
    (split; [lia|]); destruct leap; unfold days_before_month in *; simpl in *; lia.
Qed.

(** The months of a year follow one another. *)
Lemma days_before_month_mono leap m m' :
  1 <= m → m <= m' <= 13 → days_before_month leap m <= days_before_month leap m'.
Proof.
  intros Hm Hm'.
  assert (∀ k, 1 <= k <= 12 → days_before_month leap k <= days_before_month leap (k + 1)) as Hs.
  { intros k Hk. assert (k = 1 ∨ k = 2 ∨ k = 3 ∨ k = 4 ∨ k = 5 ∨ k = 6 ∨ k = 7 ∨ k = 8 ∨ k = 9 ∨ k = 10 ∨ k = 11 ∨ k = 12)
      as Hc by lia. destruct_or! Hc; subst k; destruct leap; done. }
  assert (Hi : ∀ n : nat, m + Z.of_nat n <= 13 → days_before_month leap m <= days_before_month leap (m + Z.of_nat n)).
  { induction n as [|n IH]; intros Hn; [rewrite Z.add_0_r; lia|].
    specialize (Hs (m + Z.of_nat n) ltac:(lia)). replace (m + Z.of_nat (S n)) with (m + Z.of_nat n + 1) by lia. lia. }
  specialize (Hi (Z.to_nat (m' - m))). replace (m + Z.of_nat (Z.to_nat (m' - m))) with m' in Hi by lia. lia.
Qed.

Lemma month_start_in y m : 1 <= m <= 12 → month_start y m = days_before_year y + days_before_month (is_leap y) m.
Proof.
  intros Hm. unfold month_start. rewrite Z.div_small, Z.mod_small by lia.
  replace (y + 0) with y by lia. by replace (m - 1 + 1) with m by lia.
Qed.

Lemma month_start_next y m :
  1 <= m <= 12 → month_start y (m + 1) = days_before_year y + days_before_month (is_leap y) (m + 1).
Proof.
  intros Hm. destruct (decide (m = 12)) as [->|].
  - change (12 + 1) with 13. rewrite days_before_month_13. unfold month_start.
    change ((13 - 1) / 12) with 1. change ((13 - 1) mod 12 + 1) with 1. rewrite days_before_year_succ.
    change (days_before_month (is_leap (y + 1)) 1) with (0 + if is_leap (y + 1) && false then 1 else 0).
    rewrite andb_false_r. lia.
  - apply month_start_in. lia.
Qed.

Lemma month_start_13 y : month_start y 13 = month_start (y + 1) 1.
Proof.
  unfold month_start. change ((13 - 1) / 12) with 1. change ((13 - 1) mod 12 + 1) with 1.
  change ((1 - 1) / 12) with 0. change ((1 - 1) mod 12 + 1) with 1. by rewrite Z.add_0_r.
Qed.

(** A day lies in its month. *)
Lemma month_of_spec day :
  1 <= month_of day <= 12 ∧
  day = month_start (year_of day) (month_of day) + (mday_of day - 1) ∧ 1 <= mday_of day ∧
  day < month_start (year_of day) (month_of day + 1).
Proof.
  destruct (year_yday_spec day) as [He Hr]. rewrite <- days_before_month_13 in Hr.
  destruct (month_of_yday_spec _ _ Hr) as [Hm Hb]. unfold mday_of. fold (month_of day) in *.
  rewrite month_start_in, month_start_next by done. lia.
Qed.

(** Days between the starts of two successive months are in the first. *)
Lemma month_of_unique y m day :
  1 <= m <= 12 → month_start y m <= day < month_start y (m + 1) → year_of day = y ∧ month_of day = m.
Proof.
  intros Hm Hd. rewrite month_start_in, month_start_next in Hd by done.
  pose proof (days_before_month_mono (is_leap y) 1 m ltac:(lia) ltac:(lia)) as H1.
  pose proof (days_before_month_mono (is_leap y) (m + 1) 13 ltac:(lia) ltac:(lia)) as H13.
  rewrite days_before_month_13 in H13.
  assert (days_before_month (is_leap y) 1 = 0) as H0 by by destruct (is_leap y).
  pose proof (days_before_year_succ y) as Hs.
  assert (Hy : year_of day = y) by (apply year_of_unique; lia). split; [done|].
  destruct (year_yday_spec day) as [He Hr]. rewrite <- days_before_month_13, Hy in *.
  destruct (month_of_yday_spec (is_leap y) (yday_of day)) as [Hm' Hb]; [done|].
  unfold month_of. rewrite Hy. set (k := month_of_yday _ _) in *.
  destruct (Z.lt_trichotomy k m) as [Hlt|[Heq|Hgt]]; [|done|].
  - pose proof (days_before_month_mono (is_leap y) (k + 1) m ltac:(lia) ltac:(lia)). lia.
  - pose proof (days_before_month_mono (is_leap y) (m + 1) k ltac:(lia) ltac:(lia)). lia.
Qed.

Lemma month_start_lt y m : 1 <= m <= 12 → month_start y m < month_start y (m + 1).
Proof.
  intros Hm. rewrite month_start_in, month_start_next by done.
  assert (m = 1 ∨ m = 2 ∨ m = 3 ∨ m = 4 ∨ m = 5 ∨ m = 6 ∨ m = 7 ∨ m = 8 ∨ m = 9 ∨ m = 10 ∨ m = 11 ∨ m = 12)
    as Hc by lia. destruct_or! Hc; subst m; destruct (is_leap y); unfold days_before_month; simpl; lia.
Qed.

Lemma month_length y m : 1 <= m <= 12 → month_start y (m + 1) <= month_start y m + 31.
Proof.
  intros Hm. rewrite month_start_next, month_start_in by done.
  assert (m = 1 ∨ m = 2 ∨ m = 3 ∨ m = 4 ∨ m = 5 ∨ m = 6 ∨ m = 7 ∨ m = 8 ∨ m = 9 ∨ m = 10 ∨ m = 11 ∨ m = 12)
    as Hc by lia. destruct_or! Hc; subst m; destruct (is_leap y); unfold days_before_month; simpl; lia.
Qed.

(** The day after: the next of the month, or the first of the next month. *)
Lemma mday_of_first y m : 1 <= m <= 12 → mday_of (month_start y m) = 1.
Proof.
  intros Hm. pose proof (month_start_lt y m Hm). destruct (month_of_unique y m (month_start y m) Hm ltac:(lia)) as [Hy Hm'].
  destruct (month_of_spec (month_start y m)) as (_ & He & _). rewrite Hy, Hm' in He. lia.
Qed.

Lemma year_of_mono day day' : day <= day' → year_of day <= year_of day'.
Proof.
  intros Hd. destruct (year_yday_spec day) as [He Hr], (year_yday_spec day') as [He' Hr'].
  destruct (Z.le_gt_cases (year_of day) (year_of day')) as [|Hgt]; [done|].
  pose proof (days_before_year_succ (year_of day')) as Hs.
  pose proof (days_before_year_mono (year_of day' + 1) (year_of day) ltac:(lia)). lia.
Qed.
