(* ===== verification/CronSpec.v ===== *)
(** * Cron schedules: the next activation

    Model of distributed/schedule/spec.go and constantdelay.go.  The bit sets
    of a schedule are uint64; [Next] is the loop of the source with its label
    and its five inner loops as phases of one step function, and the result is
    [None] for the zero time.  The loop runs for up to 2^31 steps, more than
    the seconds of the six years that it can visit allow. *)

From S2P Require Import Prelude Calendar.

#[local] Open Scope Z_scope.

Definition starBit : Z := 2 ^ 63.

(** A location of [None] is [time.Local]. *)
Record SpecSchedule := mkSpec {
  s_second : Z; s_minute : Z; s_hour : Z; s_dom : Z; s_month : Z; s_dow : Z; s_location : option zone }.

(** [1<<i & bits != 0] *)
Definition bit_set (bits i : Z) : bool := negb (Z.land (Z.shiftl 1 i) bits =? 0).

Definition dayMatches (s : SpecSchedule) (t : time) : bool :=
  let domMatch := bit_set (s_dom s) (Day t) in
  let dowMatch := bit_set (s_dow s) (Weekday t) in
  if (0 <? Z.land (s_dom s) starBit) || (0 <? Z.land (s_dow s) starBit) then domMatch && dowMatch
  else domMatch || dowMatch.

(** Where the loop is: at the label or in one of the inner loops. *)
Inductive phase := WRAP | MONTH | DAY | HOUR | MINUTE | SECOND.
Record nstate := mkState { n_phase : phase; n_t : time; n_added : bool }.

Definition nanos (seconds : Z) : Z := seconds * 1000000000.

(** DST: back to midnight when a day was added across a change of offset. *)
Definition to_midnight (t : time) : time :=
  if Hour t =? 0 then t
  else if 12 <? Hour t then Add t (nanos ((24 - Hour t) * 3600))
  else Add t (nanos (- Hour t * 3600)).

Definition next_step (s : SpecSchedule) (loc : zone) (yearLimit : Z) (st : nstate) : nstate + option time :=
  let t := n_t st in
  let added := n_added st in
  match n_phase st with
  | WRAP => if yearLimit <? Year t then inr None else inl (mkState MONTH t added)
  | MONTH =>
      if negb (bit_set (s_month s) (Month t)) then
        let t := if added then t else Date (Year t) (Month t) 1 0 0 0 0 loc in
        let t := AddDate t 0 1 0 in
        inl (mkState (if Month t =? 1 then WRAP else MONTH) t true)
      else inl (mkState DAY t added)
  | DAY =>
      if negb (dayMatches s t) then
        let t := if added then t else Date (Year t) (Month t) (Day t) 0 0 0 0 loc in
        let t := to_midnight (AddDate t 0 0 1) in
        inl (mkState (if Day t =? 1 then WRAP else DAY) t true)
      else inl (mkState HOUR t added)
  | HOUR =>
      if negb (bit_set (s_hour s) (Hour t)) then
        let t := if added then t else Date (Year t) (Month t) (Day t) (Hour t) 0 0 0 loc in
        let t := Add t (nanos 3600) in
        inl (mkState (if Hour t =? 0 then WRAP else HOUR) t true)
      else inl (mkState MINUTE t added)
  | MINUTE =>
      if negb (bit_set (s_minute s) (Minute t)) then
        let t := if added then t else Truncate t (nanos 60) in
        let t := Add t (nanos 60) in
        inl (mkState (if Minute t =? 0 then WRAP else MINUTE) t true)
      else inl (mkState SECOND t added)
  | SECOND =>
      if negb (bit_set (s_second s) (Second t)) then
        let t := if added then t else Truncate t (nanos 1) in
        let t := Add t (nanos 1) in
        inl (mkState (if Second t =? 0 then WRAP else SECOND) t true)
      else inr (Some t)
  end.

(** Up to 2^n steps. *)
Fixpoint run_steps {S R : Type} (step : S → S + R) (n : nat) (st : S) : S + R :=
  match n with
  | O => step st
  | S n => match run_steps step n st with inl st => run_steps step n st | inr r => inr r end
  end.

(** [inl] means that the steps did not suffice. *)
Definition Next (s : SpecSchedule) (t : time) : nstate + option time :=
  let origLocation := t_loc t in
  let loc := match s_location s with None => t_loc t | Some z => z end in
  let t := match s_location s with None => t | Some z => In t z end in
  let t := Add t (nanos 1 - Nanosecond t) in
  let yearLimit := Year t + 5 in
  match run_steps (next_step s loc yearLimit) 31 (mkState WRAP t false) with
  | inl st => inl st
  | inr r => inr ((λ t, In t origLocation) <$> r)
  end.

(** ** Constant delays *)

Record ConstantDelaySchedule := mkDelay { Delay : Z }.
Definition Every (duration : Z) : ConstantDelaySchedule :=
  let duration := if duration <? nanos 1 then nanos 1 else duration in
  mkDelay (duration - Z.rem duration (nanos 1)).
Definition delay_Next (d : ConstantDelaySchedule) (t : time) : time := Add t (Delay d - Nanosecond t).

(** ** The reference: seconds of local time that match *)

Definition day_matches (s : SpecSchedule) (day : Z) : bool :=
  let domMatch := bit_set (s_dom s) (mday_of day) in
  let dowMatch := bit_set (s_dow s) (weekday_of day) in
  if (0 <? Z.land (s_dom s) starBit) || (0 <? Z.land (s_dow s) starBit) then domMatch && dowMatch
  else domMatch || dowMatch.

Definition month_ok (s : SpecSchedule) (l : Z) : bool := bit_set (s_month s) (month_of (l / 86400)).
Definition day_ok (s : SpecSchedule) (l : Z) : bool := day_matches s (l / 86400).
Definition hour_ok (s : SpecSchedule) (l : Z) : bool := bit_set (s_hour s) (l mod 86400 / 3600).
Definition minute_ok (s : SpecSchedule) (l : Z) : bool := bit_set (s_minute s) (l mod 3600 / 60).
Definition second_ok (s : SpecSchedule) (l : Z) : bool := bit_set (s_second s) (l mod 60).

Definition matches (s : SpecSchedule) (l : Z) : bool :=
  month_ok s l && day_ok s l && hour_ok s l && minute_ok s l && second_ok s l.

(** ** Local time in a zone of constant offset *)

Definition fixed (z : zone) (off : Z) : Prop := ∀ u, (lookup_zone z u).1.1 = off.
Definition at_local (z : zone) (off l : Z) : time := mkTime (l - off) 0 z.

Section fixed.
Context (z : zone) (off : Z) (Hz : fixed z off) (Hoff : off mod 60 = 0).

Lemma local_at l : local_sec (at_local z off l) = l.
Proof using Hz. unfold local_sec, offset_at. simpl. rewrite Hz. lia. Qed.

Lemma Date_fixed y m d h mi s :
  Date y m d h mi s 0 z = at_local z off ((month_start y m + (d - 1)) * 86400 + h * 3600 + mi * 60 + s).
Proof using Hz.
  unfold Date, at_local. set (l := (month_start y m + (d - 1)) * 86400 + h * 3600 + mi * 60 + s).
  clearbody l. destruct (lookup_zone z (l - unix_epoch)) as [[o a] b] eqn:Hl.
  assert (o = off) as -> by (pose proof (Hz (l - unix_epoch)) as H; by rewrite Hl in H).
  f_equal. generalize unix_epoch. intros u. destruct (Z.eqb_spec off 0); [lia|]. case_match; [rewrite Hz|]; lia.
Qed.

Lemma Add_at l s : Add (at_local z off l) (nanos s) = at_local z off (l + s).
Proof. unfold Add, at_local, nanos. cbn [t_nsec t_sec t_loc]. rewrite Z.add_0_l, Z.div_mul, Z.mod_mul by lia. f_equal. lia. Qed.

Lemma Truncate_at l s : 0 < s → off mod s = 0 → Truncate (at_local z off l) (nanos s) = at_local z off (l - l mod s).
Proof.
  intros Hs Ho. unfold Truncate, at_local, nanos. cbn [t_nsec t_sec t_loc]. rewrite Z.div_mul by lia. f_equal.
  assert ((l - off) mod s = l mod s) as ->; [|lia].
  rewrite Zminus_mod, Ho, Z.sub_0_r. apply Z.mod_mod. lia.
Qed.
End fixed.
