(* ===== verification/CronNext.v ===== *)
(** * Cron schedules: [Next] finds the first matching second

    In a zone of constant offset the loop of [Next] only ever skips seconds that
    do not match: each of its steps either passes a field that matches or moves
    to the start of the next month, day, hour, minute or second. *)

From S2P Require Import Prelude Calendar CronSpec.

#[local] Open Scope Z_scope.

(** ** Units of time *)

(** The starts of the month, the day, the hour and the minute after [l]. *)
Definition next_month (l : Z) : Z := month_start (year_of (l / 86400)) (month_of (l / 86400) + 1) * 86400.
Definition next_day (l : Z) : Z := (l / 86400 + 1) * 86400.
Definition next_hour (l : Z) : Z := l - l mod 3600 + 3600.
Definition next_minute (l : Z) : Z := l - l mod 60 + 60.

Definition this_month (l : Z) : Z := month_start (year_of (l / 86400)) (month_of (l / 86400)) * 86400.

Lemma month_bounds l : this_month l <= l < next_month l.
Proof.
  unfold this_month, next_month. destruct (month_of_spec (l / 86400)) as (_ & He & Hd & Hlt).
  pose proof (Z.div_mod l 86400). pose proof (Z.mod_pos_bound l 86400). lia.
Qed.

Lemma next_day_bounds l : l < next_day l <= next_month l.
Proof.
  unfold next_month, next_day. destruct (month_of_spec (l / 86400)) as (_ & _ & _ & Hlt).
  pose proof (Z.div_mod l 86400). pose proof (Z.mod_pos_bound l 86400). lia.
Qed.

Lemma next_hour_bounds l : l < next_hour l <= next_day l.
Proof. unfold next_hour, next_day. Z.to_euclidean_division_equations. lia. Qed.

Lemma next_minute_bounds l : l < next_minute l <= next_hour l.
Proof. unfold next_hour, next_minute. Z.to_euclidean_division_equations. lia. Qed.

Lemma next_second_bounds l : l < l + 1 <= next_minute l.
Proof. unfold next_minute. Z.to_euclidean_division_equations. lia. Qed.

(** Within a unit, the fields of that unit and of the larger ones do not change. *)
Lemma same_month l x :
  this_month l <= x < next_month l → year_of (x / 86400) = year_of (l / 86400) ∧ month_of (x / 86400) = month_of (l / 86400).
Proof.
  unfold this_month, next_month. intros Hx. destruct (month_of_spec (l / 86400)) as (Hm & _).
  apply month_of_unique; [done|]. split; [apply Z.div_le_lower_bound; lia|apply Z.div_lt_upper_bound; lia].
Qed.

Lemma same_day l x : l - l mod 86400 <= x < next_day l → x / 86400 = l / 86400.
Proof. unfold next_day. intros Hx. Z.to_euclidean_division_equations. lia. Qed.

Lemma same_hour l x : l - l mod 3600 <= x < next_hour l → x mod 86400 / 3600 = l mod 86400 / 3600 ∧ x / 86400 = l / 86400.
Proof. unfold next_hour. intros Hx. Z.to_euclidean_division_equations. lia. Qed.

Lemma same_minute l x :
  l - l mod 60 <= x < next_minute l →
  x mod 3600 / 60 = l mod 3600 / 60 ∧ x mod 86400 / 3600 = l mod 86400 / 3600 ∧ x / 86400 = l / 86400.
Proof. unfold next_minute. intros Hx. Z.to_euclidean_division_equations. lia. Qed.

(** A field that does not match rules its unit out. *)
Section skip.
Context (s : SpecSchedule).

Lemma skip_month l x : month_ok s l = false → l <= x < next_month l → matches s x = false.
Proof.
  unfold matches. intros Hm Hx. pose proof (month_bounds l). destruct (same_month l x) as [_ He]; [lia|].
  unfold month_ok in *. by rewrite He, Hm.
Qed.
Lemma skip_day l x : day_ok s l = false → l <= x < next_day l → matches s x = false.
Proof.
  unfold matches. intros Hm Hx. pose proof (Z.mod_pos_bound l 86400). unfold day_ok in *.
  rewrite (same_day l x), Hm by lia. by rewrite andb_false_r.
Qed.
Lemma skip_hour l x : hour_ok s l = false → l <= x < next_hour l → matches s x = false.
Proof.
  unfold matches. intros Hm Hx. pose proof (Z.mod_pos_bound l 3600). destruct (same_hour l x) as [He _]; [lia|].
  unfold hour_ok in *. rewrite He, Hm. by rewrite !andb_false_r.
Qed.
Lemma skip_minute l x : minute_ok s l = false → l <= x < next_minute l → matches s x = false.
Proof.
  unfold matches. intros Hm Hx. pose proof (Z.mod_pos_bound l 60). destruct (same_minute l x) as [He _]; [lia|].
  unfold minute_ok in *. rewrite He, Hm. by rewrite !andb_false_r.
Qed.
Lemma skip_second l : second_ok s l = false → matches s l = false.
Proof. unfold matches. intros ->. apply andb_false_r. Qed.
End skip.

(** ** The starts of units *)

Definition month_first (l : Z) : Prop := l = this_month l.

Lemma next_month_first l : month_first (next_month l).
Proof.
  unfold month_first, next_month, this_month. rewrite Z.div_mul by lia. destruct (month_of_spec (l / 86400)) as (Hm & _).
  set (y := year_of (l / 86400)). set (m := month_of (l / 86400)) in *.
  destruct (decide (m = 12)) as [->|].
  - change (month_start y (12 + 1)) with (month_start y 13).
    rewrite month_start_13.
    pose proof (month_start_lt (y + 1) 1 ltac:(lia)).
    destruct (month_of_unique (y + 1) 1 (month_start (y + 1) 1)) as [-> ->]; [lia|lia|done].
  - pose proof (month_start_lt y (m + 1) ltac:(lia)).
    destruct (month_of_unique y (m + 1) (month_start y (m + 1))) as [-> ->]; [lia|lia|done].
Qed.

Lemma this_month_first l : month_first (this_month l).
Proof.
  pose proof (month_bounds l) as Hb. destruct (same_month l (this_month l) ltac:(lia)) as [Hy Hm].
  unfold month_first. set (x := this_month l) in *. unfold this_month. rewrite Hy, Hm. reflexivity.
Qed.

(** ** The steps of the loop *)

Section steps.
Context (s : SpecSchedule) (z : zone) (off limit : Z) (Hz : fixed z off) (Hoff : off mod 60 = 0).
#[local] Abbreviation at_ := (at_local z off).

Lemma at_fields l :
  Year (at_ l) = year_of (l / 86400) ∧ Month (at_ l) = month_of (l / 86400) ∧ Day (at_ l) = mday_of (l / 86400) ∧
  Hour (at_ l) = l mod 86400 / 3600 ∧ Minute (at_ l) = l mod 3600 / 60 ∧ Second (at_ l) = l mod 60 ∧
  Weekday (at_ l) = weekday_of (l / 86400).
Proof using Hz.
  unfold Year, Month, Day, Hour, Minute, Second, Weekday, local_day. by rewrite !(local_at z off Hz).
Qed.

Ltac fields l :=
  let H := fresh in
  destruct (at_fields l) as (?HY & ?HM & ?HD & ?Hh & ?Hmi & ?Hs & ?Hw).

Lemma midnight_clock l : l mod 86400 = 0 → l mod 86400 / 3600 = 0 ∧ l mod 3600 / 60 = 0 ∧ l mod 60 = 0.
Proof. intros Hl. Z.to_euclidean_division_equations. lia. Qed.

(** From midnight on the first, a month on. *)
Lemma month_first_midnight l : month_first l → l mod 86400 = 0 ∧ mday_of (l / 86400) = 1.
Proof.
  unfold month_first, this_month. intros Hl. destruct (month_of_spec (l / 86400)) as (_ & He & _).
  set (x := month_start (year_of (l / 86400)) (month_of (l / 86400))) in *.
  assert (l mod 86400 = 0 ∧ l / 86400 = x) as [H0 Hq] by (clearbody x; subst l; by rewrite Z.mod_mul, Z.div_mul).
  split; [done|lia].
Qed.

Lemma AddDate_month l : month_first l → AddDate (at_ l) 0 1 0 = at_ (next_month l).
Proof using Hz.
  intros [Hl Hd]%month_first_midnight. fields l. destruct (midnight_clock l Hl) as (E1 & E2 & E3).
  unfold AddDate. rewrite HY, HM, HD, Hh, Hmi, Hs, E1, E2, E3, Hd. cbn [t_nsec t_loc at_local].
  rewrite (Date_fixed z off Hz). unfold next_month. f_equal. rewrite !Z.add_0_r. lia.
Qed.

(** From midnight, a day on: midnight again. *)
Lemma AddDate_day_midnight l : l mod 86400 = 0 → AddDate (at_ l) 0 0 1 = at_ (next_day l).
Proof using Hz.
  intros Hl. fields l. destruct (midnight_clock l Hl) as (E1 & E2 & E3).
  unfold AddDate. rewrite HY, HM, HD, Hh, Hmi, Hs, E1, E2, E3. cbn [t_nsec t_loc at_local].
  rewrite (Date_fixed z off Hz). unfold next_day. f_equal. destruct (month_of_spec (l / 86400)) as (_ & He & _).
  rewrite !Z.add_0_r. lia.
Qed.

Lemma AddDate_day l : l mod 86400 = 0 → to_midnight (AddDate (at_ l) 0 0 1) = at_ (next_day l).
Proof using Hz.
  intros Hl. rewrite (AddDate_day_midnight l Hl). fields (next_day l).
  assert (H0 : next_day l mod 86400 = 0) by (unfold next_day; apply Z.mod_mul; lia).
  unfold to_midnight. rewrite Hh, H0. reflexivity.
Qed.

(** Each loop moves to the start of the next unit, whether it truncates first
    or starts at the start of one. *)
Lemma step_month l added :
  month_ok s l = false → (added = true → month_first l) →
  next_step s z limit (mkState MONTH (at_ l) added) =
    inl (mkState (if month_of (next_month l / 86400) =? 1 then WRAP else MONTH) (at_ (next_month l)) true).
Proof using Hz.
  intros Hm Ha. fields l. unfold next_step. cbn [n_phase n_t n_added].
  rewrite HM. unfold month_ok in Hm. rewrite Hm. cbn [negb].
  assert (Ht : AddDate (if added then at_ l else Date (Year (at_ l)) (Month (at_ l)) 1 0 0 0 0 z) 0 1 0 = at_ (next_month l)).
  { destruct added; [by apply AddDate_month, Ha|].
    rewrite HY, HM, (Date_fixed z off Hz).
    assert (Hl : (month_start (year_of (l / 86400)) (month_of (l / 86400)) + (1 - 1)) * 86400 + 0 * 3600 + 0 * 60 + 0 = this_month l)
      by (unfold this_month; lia).
    rewrite Hl. pose proof (month_bounds l) as Hb. destruct (same_month l (this_month l) ltac:(lia)) as [Hy' Hm'].
    rewrite (AddDate_month _ (this_month_first l)). unfold next_month. by rewrite Hy', Hm'. }
  rewrite HM in Ht. rewrite Ht. fields (next_month l). by rewrite HM0.
Qed.

Lemma step_day l added :
  day_ok s l = false → (added = true → l mod 86400 = 0) →
  next_step s z limit (mkState DAY (at_ l) added) =
    inl (mkState (if mday_of (next_day l / 86400) =? 1 then WRAP else DAY) (at_ (next_day l)) true).
Proof using Hz.
  intros Hm Ha. fields l. unfold next_step. cbn [n_phase n_t n_added].
  unfold dayMatches. rewrite HD, Hw. fold (day_matches s (l / 86400)). unfold day_ok in Hm. rewrite Hm. cbn [negb].
  assert (Ht : to_midnight (AddDate (if added then at_ l else Date (Year (at_ l)) (Month (at_ l)) (mday_of (l / 86400)) 0 0 0 0 z) 0 0 1) =
    at_ (next_day l)).
  { destruct added; [by apply AddDate_day, Ha|]. rewrite HY, HM, (Date_fixed z off Hz).
    destruct (month_of_spec (l / 86400)) as (_ & He & _).
    assert (Hl : (month_start (year_of (l / 86400)) (month_of (l / 86400)) + (mday_of (l / 86400) - 1)) * 86400 + 0 * 3600 + 0 * 60 + 0 = l / 86400 * 86400) by lia.
    rewrite Hl, AddDate_day by (apply Z.mod_mul; lia). unfold next_day. by rewrite Z.div_mul. }
  rewrite Ht. fields (next_day l). by rewrite HD0.
Qed.

Lemma step_hour l added :
  hour_ok s l = false → (added = true → l mod 3600 = 0) →
  next_step s z limit (mkState HOUR (at_ l) added) =
    inl (mkState (if next_hour l mod 86400 / 3600 =? 0 then WRAP else HOUR) (at_ (next_hour l)) true).
Proof using Hz.
  intros Hm Ha. fields l. unfold next_step. cbn [n_phase n_t n_added].
  rewrite HY, HM, HD, Hh. unfold hour_ok in Hm. rewrite Hm. cbn [negb].
  set (t1 := if added then _ else _). assert (Ht : t1 = at_ (l - l mod 3600)).
  { subst t1. destruct added; [rewrite Ha by done; by rewrite Z.sub_0_r|]. rewrite (Date_fixed z off Hz). f_equal.
    destruct (month_of_spec (l / 86400)) as (_ & He & _). Z.to_euclidean_division_equations. lia. }
  rewrite Ht, (Add_at z off). fold (next_hour l). fields (next_hour l). by rewrite Hh0.
Qed.

Lemma step_minute l added :
  minute_ok s l = false → (added = true → l mod 60 = 0) →
  next_step s z limit (mkState MINUTE (at_ l) added) =
    inl (mkState (if next_minute l mod 3600 / 60 =? 0 then WRAP else MINUTE) (at_ (next_minute l)) true).
Proof using Hz Hoff.
  intros Hm Ha. fields l. unfold next_step. cbn [n_phase n_t n_added].
  rewrite Hmi. unfold minute_ok in Hm. rewrite Hm. cbn [negb].
  set (t1 := if added then _ else _). assert (Ht : t1 = at_ (l - l mod 60)).
  { subst t1. destruct added; [rewrite Ha by done; by rewrite Z.sub_0_r|]. by apply Truncate_at. }
  rewrite Ht, (Add_at z off). fold (next_minute l). fields (next_minute l). by rewrite Hmi0.
Qed.

Lemma step_second l added :
  second_ok s l = false →
  next_step s z limit (mkState SECOND (at_ l) added) =
    inl (mkState (if (l + 1) mod 60 =? 0 then WRAP else SECOND) (at_ (l + 1)) true).
Proof using Hz.
  intros Hm. fields l. unfold next_step. cbn [n_phase n_t n_added].
  rewrite Hs. unfold second_ok in Hm. rewrite Hm. cbn [negb].
  set (t1 := if added then _ else _). assert (Ht : t1 = at_ l).
  { subst t1. destruct added; [done|]. rewrite Truncate_at; [|lia|apply Z.mod_1_r]. by rewrite Z.mod_1_r, Z.sub_0_r. }
  rewrite Ht, (Add_at z off). fields (l + 1). by rewrite Hs0.
Qed.

(** ** The invariant of the loop *)

(** What the loop returns: the first second from [l0] on that matches, or
    nothing when none matches up to the end of the year [limit]. *)
Definition first_match (l0 : Z) (r : option time) : Prop :=
  match r with
  | Some t => ∃ l, t = at_ l ∧ l0 <= l ∧ matches s l = true ∧ year_of (l / 86400) <= limit ∧
                   ∀ x, l0 <= x < l → matches s x = false
  | None => ∀ x, l0 <= x → year_of (x / 86400) <= limit → matches s x = false
  end.

Definition year_end : Z := days_before_year (limit + 1) * 86400.

Definition aligned (l : Z) : Prop :=
  (month_ok s l = true ∨ month_first l) ∧ (day_ok s l = true ∨ l mod 86400 = 0) ∧
  (hour_ok s l = true ∨ l mod 3600 = 0) ∧ (minute_ok s l = true ∨ l mod 60 = 0).

(** The fields that a phase has behind it match. *)
Definition passed (p : phase) (l : Z) : Prop :=
  match p with
  | WRAP => True
  | MONTH => year_of (l / 86400) <= limit
  | DAY => year_of (l / 86400) <= limit ∧ month_ok s l = true
  | HOUR => year_of (l / 86400) <= limit ∧ month_ok s l = true ∧ day_ok s l = true
  | MINUTE => year_of (l / 86400) <= limit ∧ month_ok s l = true ∧ day_ok s l = true ∧ hour_ok s l = true
  | SECOND => year_of (l / 86400) <= limit ∧ month_ok s l = true ∧ day_ok s l = true ∧ hour_ok s l = true ∧
              minute_ok s l = true
  end.

Record loop_inv (l0 : Z) (p : phase) (l : Z) (added : bool) : Prop := {
  i_range : l0 <= l <= year_end;
  i_skipped : ∀ x, l0 <= x < l → matches s x = false;
  i_aligned : added = true → aligned l;
  i_passed : passed p l }.

Lemma year_end_spec l : year_of (l / 86400) <= limit ↔ l < year_end.
Proof.
  unfold year_end. destruct (year_yday_spec (l / 86400)) as [He Hr].
  pose proof (days_before_year_succ (year_of (l / 86400))) as Hs. split; intros Hl.
  - pose proof (days_before_year_mono (year_of (l / 86400) + 1) (limit + 1) ltac:(lia)).
    pose proof (Z.div_mod l 86400). pose proof (Z.mod_pos_bound l 86400). lia.
  - destruct (Z.le_gt_cases (year_of (l / 86400)) limit) as [|Hgt]; [done|].
    pose proof (days_before_year_mono (limit + 1) (year_of (l / 86400)) ltac:(lia)).
    pose proof (Z.div_mod l 86400). pose proof (Z.mod_pos_bound l 86400). lia.
Qed.

Lemma next_month_end l : year_of (l / 86400) <= limit → next_month l <= year_end.
Proof.
  intros Hl. unfold next_month, year_end. destruct (month_of_spec (l / 86400)) as (Hm & _).
  set (y := year_of (l / 86400)) in *. set (m := month_of (l / 86400)) in *.
  rewrite month_start_next by done.
  pose proof (days_before_month_mono (is_leap y) (m + 1) 13 ltac:(lia) ltac:(lia)) as H13.
  rewrite days_before_month_13 in H13. pose proof (days_before_year_succ y).
  pose proof (days_before_year_mono (y + 1) (limit + 1) ltac:(lia)). lia.
Qed.

(** A unit that matches still does, or a new one starts. *)
Lemma carry_month l l' : month_ok s l = true → l <= l' <= next_month l → month_ok s l' = true ∨ month_first l'.
Proof.
  intros Hm Hl. destruct (decide (l' = next_month l)) as [->|Hne]; [right; apply next_month_first|left].
  pose proof (month_bounds l). destruct (same_month l l') as [_ He]; [lia|]. unfold month_ok in *. by rewrite He.
Qed.
Lemma carry_day l l' : day_ok s l = true → l <= l' <= next_day l → day_ok s l' = true ∨ l' mod 86400 = 0.
Proof.
  intros Hm Hl. destruct (decide (l' = next_day l)) as [->|Hne]; [right; unfold next_day; apply Z.mod_mul; lia|left].
  pose proof (Z.mod_pos_bound l 86400). unfold day_ok in *. by rewrite (same_day l l') by lia.
Qed.
Lemma carry_hour l l' : hour_ok s l = true → l <= l' <= next_hour l → hour_ok s l' = true ∨ l' mod 3600 = 0.
Proof.
  intros Hm Hl. destruct (decide (l' = next_hour l)) as [->|Hne].
  - right. unfold next_hour. Z.to_euclidean_division_equations. lia.
  - left. pose proof (Z.mod_pos_bound l 3600). destruct (same_hour l l') as [He _]; [lia|]. unfold hour_ok in *. by rewrite He.
Qed.
Lemma carry_minute l l' : minute_ok s l = true → l <= l' <= next_minute l → minute_ok s l' = true ∨ l' mod 60 = 0.
Proof.
  intros Hm Hl. destruct (decide (l' = next_minute l)) as [->|Hne].
  - right. unfold next_minute. Z.to_euclidean_division_equations. lia.
  - left. pose proof (Z.mod_pos_bound l 60). destruct (same_minute l l') as [He _]; [lia|]. unfold minute_ok in *. by rewrite He.
Qed.

Lemma inv_move l0 p l added p' l' :
  loop_inv l0 p l added → year_of (l / 86400) <= limit → l < l' <= next_month l →
  (∀ x, l <= x < l' → matches s x = false) → aligned l' → passed p' l' → loop_inv l0 p' l' true.
Proof.
  intros [Hr Hs Ha Hp] Hy Hl Hskip Hal Hp'. pose proof (next_month_end l Hy). split; [lia| |done|done].
  intros x Hx. destruct (Z.lt_ge_cases x l); [apply Hs; lia|apply Hskip; lia].
Qed.

Lemma inv_pass l0 p l added p' : loop_inv l0 p l added → passed p' l → loop_inv l0 p' l added.
Proof. intros [Hr Hs Ha Hp] Hp'. by split. Qed.

(** The same year within a month. *)
Lemma year_in_month l l' : year_of (l / 86400) <= limit → l <= l' < next_month l → year_of (l' / 86400) <= limit.
Proof. intros Hy Hl. pose proof (month_bounds l). destruct (same_month l l') as [He _]; [lia|]. by rewrite He. Qed.

Lemma next_hour_mod l : next_hour l mod 3600 = 0 ∧ next_hour l mod 60 = 0.
Proof. unfold next_hour. Z.to_euclidean_division_equations. lia. Qed.
Lemma next_minute_mod l : next_minute l mod 60 = 0.
Proof. unfold next_minute. Z.to_euclidean_division_equations. lia. Qed.
Lemma day_mod l : l mod 86400 = 0 → l mod 3600 = 0 ∧ l mod 60 = 0.
Proof. intros Hl. Z.to_euclidean_division_equations. lia. Qed.
Lemma next_day_mod l : next_day l mod 86400 = 0.
Proof. unfold next_day. apply Z.mod_mul. lia. Qed.

Definition idx (p : phase) : Z :=
  match p with WRAP => 0 | MONTH => 1 | DAY => 2 | HOUR => 3 | MINUTE => 4 | SECOND => 5 end.
Definition fuel (p : phase) (l : Z) : Z := 7 * (year_end - l) + 6 - idx p.

Definition good_step (l0 : Z) (p : phase) (l : Z) (o : nstate + option time) : Prop :=
  match o with
  | inl st' => ∃ p' l' added', st' = mkState p' (at_ l') added' ∧ loop_inv l0 p' l' added' ∧ fuel p' l' < fuel p l
  | inr r => first_match l0 r
  end.

Lemma good_move l0 p l added p' l' :
  loop_inv l0 p l added → year_of (l / 86400) <= limit → l < l' <= next_month l →
  (∀ x, l <= x < l' → matches s x = false) → aligned l' → passed p' l' →
  good_step l0 p l (inl (mkState p' (at_ l') true)).
Proof.
  intros Hi Hy Hl Hs Hal Hp. exists p', l', true. split_and!; [done|by eapply inv_move|].
  unfold fuel. destruct p, p'; simpl; lia.
Qed.

Lemma good_pass l0 p l added p' :
  loop_inv l0 p l added → passed p' l → idx p < idx p' → good_step l0 p l (inl (mkState p' (at_ l) added)).
Proof. intros Hi Hp Hlt. exists p', l, added. split_and!; [done|by eapply inv_pass|unfold fuel; lia]. Qed.

Lemma good_WRAP l0 l added :
  loop_inv l0 WRAP l added → good_step l0 WRAP l (next_step s z limit (mkState WRAP (at_ l) added)).
Proof using Hz.
  intros Hi. fields l. unfold next_step. cbn [n_phase n_t n_added]. rewrite HY.
  destruct (Z.ltb_spec limit (year_of (l / 86400))) as [Hgt|Hle].
  - intros x Hx Hy. destruct Hi as [Hr Hsk _ _]. apply Hsk. split; [done|]. apply year_end_spec in Hy.
    assert (¬ l < year_end) by (rewrite <- year_end_spec; lia). lia.
  - by apply good_pass.
Qed.

Lemma good_MONTH l0 l added :
  loop_inv l0 MONTH l added → good_step l0 MONTH l (next_step s z limit (mkState MONTH (at_ l) added)).
Proof using Hz.
  intros Hi. pose proof (i_passed _ _ _ _ Hi) as Hy. simpl in Hy. destruct (month_ok s l) eqn:Hm.
  - fields l. unfold next_step. cbn [n_phase n_t n_added]. unfold month_ok in Hm. rewrite HM, Hm. by apply good_pass.
  - rewrite step_month; [|done|intros ->; destruct (i_aligned _ _ _ _ Hi eq_refl) as [[|] _]; congruence].
    pose proof (month_bounds l). pose proof (next_month_first l) as Hf. destruct (month_first_midnight _ Hf) as [H0 _].
    destruct (day_mod _ H0). apply (good_move l0 MONTH l added); [done|done|lia|intros; by eapply skip_month| |].
    + split_and!; by right.
    + destruct (Z.eqb_spec (month_of (next_month l / 86400)) 1) as [|Hne]; [done|]. simpl.
      unfold next_month in *. rewrite Z.div_mul in * by lia. destruct (month_of_spec (l / 86400)) as (Hr & _).
      destruct (decide (month_of (l / 86400) = 12)) as [E|E].
      * rewrite E in Hne. change (12 + 1) with 13 in Hne. rewrite month_start_13 in Hne.
        pose proof (month_start_lt (year_of (l / 86400) + 1) 1 ltac:(lia)).
        destruct (month_of_unique (year_of (l / 86400) + 1) 1 (month_start (year_of (l / 86400) + 1) 1)); [lia|lia|congruence].
      * pose proof (month_start_lt (year_of (l / 86400)) (month_of (l / 86400) + 1) ltac:(lia)).
        destruct (month_of_unique (year_of (l / 86400)) (month_of (l / 86400) + 1)
          (month_start (year_of (l / 86400)) (month_of (l / 86400) + 1))) as [-> _]; [lia|lia|done].
Qed.

Lemma good_DAY l0 l added :
  loop_inv l0 DAY l added → good_step l0 DAY l (next_step s z limit (mkState DAY (at_ l) added)).
Proof using Hz.
  intros Hi. pose proof (i_passed _ _ _ _ Hi) as (Hy & Hm). destruct (day_ok s l) eqn:Hd.
  - fields l. unfold next_step. cbn [n_phase n_t n_added]. unfold dayMatches. rewrite HD, Hw.
    fold (day_matches s (l / 86400)). unfold day_ok in Hd. rewrite Hd. by apply good_pass.
  - rewrite step_day; [|done|intros ->; destruct (i_aligned _ _ _ _ Hi eq_refl) as (_ & [|] & _); congruence].
    pose proof (next_day_bounds l). pose proof (next_day_mod l) as H0. destruct (day_mod _ H0).
    pose proof (carry_month l (next_day l) Hm ltac:(lia)) as Hc.
    apply (good_move l0 DAY l added); [done|done|lia|intros; by eapply skip_day|by split_and!; [|right..]|].
    destruct (Z.eqb_spec (mday_of (next_day l / 86400)) 1) as [|Hne]; [done|].
    destruct Hc as [Hc|Hc]; [|by apply month_first_midnight in Hc as [_ Hc]]. split; [|done].
    apply (year_in_month l); [done|]. destruct (decide (next_day l = next_month l)) as [E|]; [|lia].
    pose proof (next_month_first l) as Hf. rewrite <- E in Hf. by apply month_first_midnight in Hf as [_ ?].
Qed.

Lemma good_HOUR l0 l added :
  loop_inv l0 HOUR l added → good_step l0 HOUR l (next_step s z limit (mkState HOUR (at_ l) added)).
Proof using Hz.
  intros Hi. pose proof (i_passed _ _ _ _ Hi) as (Hy & Hm & Hd). destruct (hour_ok s l) eqn:Hh0.
  - fields l. unfold next_step. cbn [n_phase n_t n_added]. unfold hour_ok in Hh0. rewrite Hh, Hh0. by apply good_pass.
  - rewrite step_hour; [|done|intros ->; destruct (i_aligned _ _ _ _ Hi eq_refl) as (_ & _ & [|] & _); congruence].
    pose proof (next_hour_bounds l). pose proof (next_day_bounds l). destruct (next_hour_mod l).
    pose proof (carry_month l (next_hour l) Hm ltac:(lia)) as Hcm. pose proof (carry_day l (next_hour l) Hd ltac:(lia)) as Hcd.
    apply (good_move l0 HOUR l added); [done|done|lia|intros; by eapply skip_hour|by split_and!; [| |right..]|].
    destruct (Z.eqb_spec (next_hour l mod 86400 / 3600) 0) as [|Hne]; [done|].
    assert (next_hour l < next_day l).
    { destruct (decide (next_hour l = next_day l)) as [E|]; [|lia]. rewrite E, next_day_mod in Hne. done. }
    destruct Hcd as [Hcd|Hcd]; [|by rewrite Hcd in Hne].
    destruct Hcm as [Hcm|Hcm]; [|by apply month_first_midnight in Hcm as [Hcm _]; rewrite Hcm in Hne].
    split_and!; [apply (year_in_month l); [done|lia]|done|done].
Qed.

Lemma good_MINUTE l0 l added :
  loop_inv l0 MINUTE l added → good_step l0 MINUTE l (next_step s z limit (mkState MINUTE (at_ l) added)).
Proof using Hz Hoff.
  intros Hi. pose proof (i_passed _ _ _ _ Hi) as (Hy & Hm & Hd & Hh0). destruct (minute_ok s l) eqn:Hmi0.
  - fields l. unfold next_step. cbn [n_phase n_t n_added]. unfold minute_ok in Hmi0. rewrite Hmi, Hmi0. by apply good_pass.
  - rewrite step_minute; [|done|intros ->; destruct (i_aligned _ _ _ _ Hi eq_refl) as (_ & _ & _ & [|]); congruence].
    pose proof (next_minute_bounds l). pose proof (next_hour_bounds l). pose proof (next_day_bounds l).
    pose proof (next_minute_mod l).
    pose proof (carry_month l (next_minute l) Hm ltac:(lia)) as Hcm. pose proof (carry_day l (next_minute l) Hd ltac:(lia)) as Hcd.
    pose proof (carry_hour l (next_minute l) Hh0 ltac:(lia)) as Hch.
    apply (good_move l0 MINUTE l added); [done|done|lia|intros; by eapply skip_minute|by split_and!; [| | |right]|].
    destruct (Z.eqb_spec (next_minute l mod 3600 / 60) 0) as [|Hne]; [done|].
    assert (Hn : next_minute l mod 3600 ≠ 0) by (intros E; by rewrite E in Hne).
    assert (Hnd : next_minute l mod 86400 ≠ 0) by (intros E; by destruct (day_mod _ E)).
    destruct Hch as [Hch|]; [|done]. destruct Hcd as [Hcd|]; [|done].
    destruct Hcm as [Hcm|Hcm]; [|by apply month_first_midnight in Hcm as [Hcm _]].
    assert (next_minute l < next_hour l).
    { destruct (decide (next_minute l = next_hour l)) as [E|]; [|lia]. destruct (next_hour_mod l). congruence. }
    split_and!; [apply (year_in_month l); [done|lia]|done..].
Qed.

Lemma good_SECOND l0 l added :
  loop_inv l0 SECOND l added → good_step l0 SECOND l (next_step s z limit (mkState SECOND (at_ l) added)).
Proof using Hz.
  clear Hoff. intros Hi. pose proof (i_passed _ _ _ _ Hi) as (Hy & Hm & Hd & Hh0 & Hmi0). destruct (second_ok s l) eqn:Hs0.
  - fields l. unfold next_step. cbn [n_phase n_t n_added].
    assert (Hmatch : matches s l = true) by (unfold matches; by rewrite Hm, Hd, Hh0, Hmi0, Hs0).
    unfold second_ok in Hs0. rewrite Hs, Hs0. exists l. destruct Hi as [Hr Hsk _ _]. split_and!; try done. lia.
  - rewrite step_second by done. pose proof (next_second_bounds l) as Hb.
    pose proof (next_minute_bounds l). pose proof (next_hour_bounds l). pose proof (next_day_bounds l).
    pose proof (carry_month l (l + 1) Hm ltac:(lia)) as Hcm. pose proof (carry_day l (l + 1) Hd ltac:(lia)) as Hcd.
    pose proof (carry_hour l (l + 1) Hh0 ltac:(lia)) as Hch. pose proof (carry_minute l (l + 1) Hmi0 ltac:(lia)) as Hcmi.
    apply (good_move l0 SECOND l added); [done|done|lia| |done|].
    { intros x Hx. assert (x = l) as -> by lia. by apply skip_second. }
    destruct (Z.eqb_spec ((l + 1) mod 60) 0) as [|Hne]; [done|].
    assert (Hnh : (l + 1) mod 3600 ≠ 0) by (intros E; apply Hne; Z.to_euclidean_division_equations; lia).
    assert (Hnd : (l + 1) mod 86400 ≠ 0) by (intros E; by destruct (day_mod _ E)).
    destruct Hcmi as [Hcmi|]; [|done]. destruct Hch as [Hch|]; [|done]. destruct Hcd as [Hcd|]; [|done].
    destruct Hcm as [Hcm|Hcm]; [|by apply month_first_midnight in Hcm as [Hcm _]].
    assert (l + 1 < next_minute l).
    { destruct (decide (l + 1 = next_minute l)) as [E|]; [|lia]. pose proof (next_minute_mod l). congruence. }
    split_and!; [apply (year_in_month l); [done|lia]|done..].
Qed.

Lemma good_next_step l0 p l added :
  loop_inv l0 p l added → good_step l0 p l (next_step s z limit (mkState p (at_ l) added)).
Proof using Hz Hoff.
  destruct p; [apply good_WRAP|apply good_MONTH|apply good_DAY|apply good_HOUR|apply good_MINUTE|apply good_SECOND].
Qed.
End steps.

(** ** Running the loop *)

(** Steps that lower a measure, under an invariant, end within it. *)
Lemma run_steps_ends {S R} (step : S → S + R) (I : Z → S → Prop) (Q : R → Prop) n m st :
  (∀ m st, I m st → 0 <= m ∧ match step st with inl st' => ∃ m', I m' st' ∧ m' < m | inr r => Q r end) →
  I m st → m < 2 ^ Z.of_nat n → ∃ r, run_steps step n st = inr r ∧ Q r.
Proof.
  intros Hstep HI Hm.
  assert (H : ∀ n m st, I m st →
    match run_steps step n st with inl st' => ∃ m', I m' st' ∧ m' <= m - 2 ^ Z.of_nat n | inr r => Q r end).
  { clear n m st HI Hm. induction n as [|n IH]; intros m st HI; cbn [run_steps].
    - destruct (Hstep m st HI) as [_ Hs]. destruct (step st) as [st'|r]; [|done].
      destruct Hs as (m' & HI' & Hlt). exists m'. split; [done|]. simpl. lia.
    - pose proof (IH m st HI) as H1. destruct (run_steps step n st) as [st1|r]; [|done].
      destruct H1 as (m1 & HI1 & Hm1). pose proof (IH m1 st1 HI1) as H2.
      destruct (run_steps step n st1) as [st2|r]; [|done]. destruct H2 as (m2 & HI2 & Hm2).
      exists m2. split; [done|]. rewrite Nat2Z.inj_succ, Z.pow_succ_r by lia. lia. }
  specialize (H n m st HI). destruct (run_steps step n st) as [st'|r]; [|by exists r].
  destruct H as (m' & HI' & Hlt). destruct (Hstep m' st' HI') as [Hpos _]. lia.
Qed.

(** From any start whose year is at most five years before the limit, the loop
    ends within 2^31 steps with the first match. *)
Lemma loop_first_match s z off limit l0 :
  fixed z off → off mod 60 = 0 → limit = year_of (l0 / 86400) + 5 →
  ∃ r, run_steps (next_step s z limit) 31 (mkState WRAP (at_local z off l0) false) = inr r ∧
       first_match s z off limit l0 r.
Proof.
  intros Hz Hoff Hlimit.
  set (I := λ m st, ∃ p l added, st = mkState p (at_local z off l) added ∧ loop_inv s limit l0 p l added ∧ m = fuel limit p l).
  assert (Hlt : l0 < year_end limit) by (apply year_end_spec; lia).
  apply (run_steps_ends _ I _ 31 (fuel limit WRAP l0)).
  - intros m st (p & l & added & -> & Hi & ->). split.
    + unfold fuel. destruct Hi as [Hr _ _ _]. destruct p; simpl; lia.
    + pose proof (good_next_step s z off limit Hz Hoff l0 p l added Hi) as Hg. unfold good_step in Hg.
      destruct (next_step _ _ _ _) as [st'|r]; [|done]. destruct Hg as (p' & l' & added' & -> & Hi' & Hf).
      exists (fuel limit p' l'). split; [|done]. by exists p', l', added'.
  - exists WRAP, l0, false. split_and!; [done| |done]. split; [lia|lia|done|done].
  - unfold fuel, year_end in *. subst limit. set (y := year_of (l0 / 86400)) in *.
    destruct (year_yday_spec (l0 / 86400)) as [He Hr]. fold y in He.
    assert (Hd : days_before_year (y + 5 + 1) <= days_before_year y + 2196).
    { unfold days_before_year. clear. Z.to_euclidean_division_equations. lia. }
    pose proof (Z.div_mod l0 86400). pose proof (Z.mod_pos_bound l0 86400).
    change (2 ^ Z.of_nat 31) with 2147483648. simpl idx. lia.
Qed.
