(* ===== verification/CronParse.v ===== *)
(** * Cron schedules: parsing

    Model of distributed/schedule/parser.go and option.go.  A spec is a string
    of ASCII bytes.  A computation returns an error of the source or a value,
    and [None] when the source panics (or a loop does not end).  The database
    of time zones behind [time.LoadLocation] is a parameter. *)

From S2P Require Import Prelude GoText GoDuration Calendar CronSpec.
From Stdlib Require Import Strings.Ascii.

#[local] Open Scope Z_scope.

(** ** Errors *)

Inductive cron_error :=
  | EmptySpec
  | BadLocation (name : string)
  | DescriptorRefused (spec : string)
  | BadDuration (descriptor : string)
  | UnknownDescriptor (descriptor : string)
  | MultipleOptionals
  | FieldCount (min max count : Z)
  | UnknownOptional
  | TooManyHyphens (expr : string)
  | TooManySlashes (expr : string)
  | BelowMinimum (start min : Z) (expr : string)
  | AboveMaximum (end_ max : Z) (expr : string)
  | BeyondEnd (start end_ : Z) (expr : string)
  | ZeroStep (expr : string)
  | NotInt (expr : string)
  | Negative (num : Z) (expr : string).

Definition result (A : Type) : Type := option (cron_error + A).
Definition ok {A} (a : A) : result A := Some (inr a).
Definition fail {A} (e : cron_error) : result A := Some (inl e).
Definition panic {A} : result A := None.
Definition rbind {A B} (r : result A) (f : A → result B) : result B :=
  match r with None => None | Some (inl e) => Some (inl e) | Some (inr a) => f a end.
Notation "x <- e ;; k" := (rbind e (λ x, k)) (at level 20, e at level 99, k at level 200) : go_scope.
Notation "' x <- e ;; k" := (rbind e (λ x, k)) (at level 20, x pattern, e at level 99, k at level 200) : go_scope.

(** ** Bounds *)

Record bounds := mkBounds { b_min : Z; b_max : Z; b_names : option (list (string * Z)) }.

Definition seconds : bounds := mkBounds 0 59 None.
Definition minutes : bounds := mkBounds 0 59 None.
Definition hours : bounds := mkBounds 0 23 None.
Definition dom : bounds := mkBounds 1 31 None.
Definition months : bounds := mkBounds 1 12 (Some
  [("jan", 1); ("feb", 2); ("mar", 3); ("apr", 4); ("may", 5); ("jun", 6);
   ("jul", 7); ("aug", 8); ("sep", 9); ("oct", 10); ("nov", 11); ("dec", 12)]%string).
Definition dow : bounds := mkBounds 0 6 (Some
  [("sun", 0); ("mon", 1); ("tue", 2); ("wed", 3); ("thu", 4); ("fri", 5); ("sat", 6)]%string).

(** ** Options *)

Module Interval.
Definition Second : Z := 1.
Definition SecondOptional : Z := 2.
Definition Minute : Z := 4.
Definition Hour : Z := 8.
Definition Dom : Z := 16.
Definition Month : Z := 32.
Definition Dow : Z := 64.
Definition DowOptional : Z := 128.
Definition Descriptor : Z := 256.
End Interval.

Definition places : list Z :=
  [Interval.Second; Interval.Minute; Interval.Hour; Interval.Dom; Interval.Month; Interval.Dow].
Definition defaults : list string := ["0"; "0"; "0"; "*"; "*"; "*"]%string.

(** [interval&place > 0] *)
Definition has (interval place : Z) : bool := 0 <? Z.land interval place.

(** The option of [NewParse], applied to a configuration whose interval it
    replaces; [None] is the panic on two optional fields. *)
Definition WithInterval (options : Z) (config : Z) : option Z :=
  let optionals := (if has options Interval.DowOptional then 1 else 0) in
  let optionals := (if has options Interval.SecondOptional then optionals + 1 else optionals) in
  if 1 <? optionals then None else Some options.

Fixpoint NewParse_from (config : Z) (ops : list (Z → option Z)) : option Z :=
  match ops with [] => Some config | op :: ops => config ← op config; NewParse_from config ops end.
Definition NewParse (ops : list (Z → option Z)) : option Z := NewParse_from 0 ops.

Definition standardParser : option Z :=
  NewParse [WithInterval (Z.lor Interval.Minute (Z.lor Interval.Hour (Z.lor Interval.Dom
    (Z.lor Interval.Month (Z.lor Interval.Dow Interval.Descriptor)))))].
Definition secondParser : option Z :=
  NewParse [WithInterval (Z.lor Interval.Second (Z.lor Interval.Minute (Z.lor Interval.Hour (Z.lor Interval.Dom
    (Z.lor Interval.Month (Z.lor Interval.DowOptional Interval.Descriptor))))))].

(** ** Bits *)

Definition MaxUint64 : Z := 2 ^ 64 - 1.
(** Shift and complement of uint64; a shift by 64 or more gives 0. *)
Definition shl64 (x n : Z) : Z := if 64 <=? n then 0 else wrapu 64 (Z.shiftl x n).
Definition not64 (x : Z) : Z := MaxUint64 - x.

Fixpoint getBits_loop (fuel : nat) (i max step bits : Z) : option Z :=
  if i <=? max then
    match fuel with
    | O => None
    | S fuel => getBits_loop fuel (wrapu 64 (i + step)) max step (Z.lor bits (shl64 1 i))
    end
  else Some bits.

(** The loop visits each place of the range at most once. *)
Definition getBits (min max step : Z) : option Z :=
  if step =? 1 then Some (Z.land (not64 (shl64 MaxUint64 (wrapu 64 (max + 1)))) (shl64 MaxUint64 min))
  else getBits_loop (Z.to_nat (max - min + 1)) min max step 0.

Definition all (r : bounds) : option Z := bits ← getBits (b_min r) (b_max r) 1; Some (Z.lor bits starBit).

(** ** Ranges and fields *)

Definition mustParseInt (expr : string) : result Z :=
  match Atoi expr with
  | None => fail (NotInt expr)
  | Some num => if num <? 0 then fail (Negative num expr) else ok num
  end.

Definition lookup_name (names : option (list (string * Z))) (key : string) : option Z :=
  names ← names; snd <$> List.find (λ p, bool_decide (p.1 = key)) names.
Definition parseIntOrName (expr : string) (names : option (list (string * Z))) : result Z :=
  match lookup_name names (ToLower expr) with
  | Some namedInt => ok namedInt
  | None => mustParseInt expr
  end.

(** The start, the end and the star bit of the part before the slash. *)
Definition low_high (expr : string) (lowAndHigh : list string) (r : bounds) : result (Z * Z * Z) :=
  match lowAndHigh with
  | [] => panic
  | low :: rest =>
      if bool_decide (low = "*"%string ∨ low = "?"%string) then ok (b_min r, b_max r, starBit)
      else
        start <- parseIntOrName low (b_names r);;
        match rest with
        | [] => ok (start, start, 0)
        | [high] => end_ <- parseIntOrName high (b_names r);; ok (start, end_, 0)
        | _ => fail (TooManyHyphens expr)
        end
  end.

(** The end, the step and the star bit after the part behind the slash. *)
Definition range_step (expr : string) (steps : list string) (singleDigit : bool) (r : bounds) (end_ extra : Z) :
  result (Z * Z * Z) :=
  match steps with
  | [] => ok (end_, 1, extra)
  | [step] =>
      step <- mustParseInt step;;
      ok (if singleDigit then b_max r else end_, step, if 1 <? step then 0 else extra)
  | _ => fail (TooManySlashes expr)
  end.

Definition getRange (expr : string) (r : bounds) : result Z :=
  let rangeAndStep := Split expr "/" in
  match rangeAndStep with
  | [] => panic
  | range :: steps =>
      let lowAndHigh := Split range "-" in
      let singleDigit := (length lowAndHigh =? 1)%nat in
      '(start, end_, extra) <- low_high expr lowAndHigh r;;
      '(end_, step, extra) <- range_step expr steps singleDigit r end_ extra;;
      if start <? b_min r then fail (BelowMinimum start (b_min r) expr)
      else if b_max r <? end_ then fail (AboveMaximum end_ (b_max r) expr)
      else if end_ <? start then fail (BeyondEnd start end_ expr)
      else if step =? 0 then fail (ZeroStep expr)
      else match getBits start end_ step with None => panic | Some bits => ok (Z.lor bits extra) end
  end.

Fixpoint getRanges (ranges : list string) (r : bounds) (bits : Z) : result Z :=
  match ranges with
  | [] => ok bits
  | expr :: ranges => bit <- getRange expr r;; getRanges ranges r (Z.lor bits bit)
  end.
Definition getField (field : string) (r : bounds) : result Z :=
  getRanges (FieldsFunc field (λ c, Ascii.eqb c ",")) r 0.

(** ** Fields of a spec *)

(** The fields of the interval in their places, the defaults elsewhere. *)
Fixpoint expand (interval : Z) (places : list Z) (defaults fields : list string) : option (list string) :=
  match places, defaults with
  | place :: places, default :: defaults =>
      if has interval place then
        match fields with
        | [] => None
        | f :: fields => rest ← expand interval places defaults fields; Some (f :: rest)
        end
      else rest ← expand interval places defaults fields; Some (default :: rest)
  | [], _ => Some []
  | _, [] => None
  end.

Definition normalizeFields (fields : list string) (interval : Z) : result (list string) :=
  let '(interval, optionals) :=
    if has interval Interval.SecondOptional then (Z.lor interval Interval.Second, 1) else (interval, 0) in
  let '(interval, optionals) :=
    if has interval Interval.DowOptional then (Z.lor interval Interval.Dow, optionals + 1) else (interval, optionals) in
  if 1 <? optionals then fail MultipleOptionals
  else
    let max := Z.of_nat (length (List.filter (has interval) places)) in
    let min := max - optionals in
    let count := Z.of_nat (length fields) in
    if (count <? min) || (max <? count) then fail (FieldCount min max count)
    else
      fields <-
        (if (min <? max) && (count =? min) then
           if has interval Interval.DowOptional then ok (fields ++ ["*"%string])
           else if has interval Interval.SecondOptional then ok ("0"%string :: fields)
           else fail UnknownOptional
         else ok fields);;
      match expand interval places defaults fields with None => panic | Some fields => ok fields end.

(** ** Specs *)

Inductive Schedule :=
  | Spec (s : SpecSchedule)
  | ConstantDelay (d : ConstantDelaySchedule).

Section parse.
(** The zones by name. *)
Context (zoneinfo : string → option zone).

Definition UTC : zone := mkZone (λ _, (0, MinInt64, MaxInt64)).

(** [time.LoadLocation]; [Some None] is [time.Local]. *)
Definition LoadLocation (name : string) : option (option zone) :=
  if bool_decide (name = ""%string ∨ name = "UTC"%string) then Some (Some UTC)
  else if bool_decide (name = "Local"%string) then Some None
  else Some <$> zoneinfo name.

Definition at_min (r : bounds) : Z := shl64 1 (b_min r).

Definition parseDescriptor (descriptor : string) (loc : option zone) : result Schedule :=
  let spec hour dom_ month dow_ :=
    match hour, dom_, month, dow_ with
    | Some hour, Some dom_, Some month, Some dow_ =>
        ok (Spec (mkSpec (at_min seconds) (at_min minutes) hour dom_ month dow_ loc))
    | _, _, _, _ => panic
    end in
  if bool_decide (descriptor = "@yearly"%string ∨ descriptor = "@annually"%string) then
    spec (Some (at_min hours)) (Some (at_min dom)) (Some (at_min months)) (all dow)
  else if bool_decide (descriptor = "@monthly"%string) then
    spec (Some (at_min hours)) (Some (at_min dom)) (all months) (all dow)
  else if bool_decide (descriptor = "@weekly"%string) then
    spec (Some (at_min hours)) (all dom) (all months) (Some (at_min dow))
  else if bool_decide (descriptor = "@daily"%string ∨ descriptor = "@midnight"%string) then
    spec (Some (at_min hours)) (all dom) (all months) (all dow)
  else if bool_decide (descriptor = "@hourly"%string) then
    spec (all hours) (all dom) (all months) (all dow)
  else if HasPrefix descriptor "@every " then
    match ParseDuration (str_drop (String.length "@every ") descriptor) with
    | None => fail (BadDuration descriptor)
    | Some duration => ok (ConstantDelay (Every duration))
    end
  else fail (UnknownDescriptor descriptor).

(** The six fields, in order; the first error is the result. *)
Definition parseFields (fields : list string) (loc : option zone) : result Schedule :=
  match fields with
  | [f0; f1; f2; f3; f4; f5] =>
      second <- getField f0 seconds;;
      minute <- getField f1 minutes;;
      hour <- getField f2 hours;;
      dayofmonth <- getField f3 dom;;
      month <- getField f4 months;;
      dayofweek <- getField f5 dow;;
      ok (Spec (mkSpec second minute hour dayofmonth month dayofweek loc))
  | _ => panic
  end.

(** The zone in front of a spec, and the rest; [spec[eq+1 : i]] panics when
    there is no space. *)
Definition takeLocation (spec : string) : result (option zone * string) :=
  if HasPrefix spec "TZ=" || HasPrefix spec "CRON_TZ=" then
    match IndexByte spec " ", IndexByte spec "=" with
    | Some i, Some eq =>
        if (i <? eq + 1)%nat then panic
        else
          let name := str_take (i - (eq + 1)) (str_drop (eq + 1) spec) in
          match LoadLocation name with
          | None => fail (BadLocation name)
          | Some loc => ok (loc, TrimSpace (str_drop i spec))
          end
    | _, _ => panic
    end
  else ok (None, spec).

Definition Parse (interval : Z) (spec : string) : result Schedule :=
  if (String.length spec =? 0)%nat then fail EmptySpec
  else
    '(loc, spec) <- takeLocation spec;;
    if HasPrefix spec "@" then
      if negb (has interval Interval.Descriptor) then fail (DescriptorRefused spec)
      else parseDescriptor spec loc
    else
      fields <- normalizeFields (Fields spec) interval;;
      parseFields fields loc.

Definition NewParseWithStandard (spec : string) : result Schedule :=
  match standardParser with None => panic | Some interval => Parse interval spec end.
Definition NewParseWithSecondParser (spec : string) : result Schedule :=
  match secondParser with None => panic | Some interval => Parse interval spec end.
End parse.

(** [Next] of the interface. *)
Definition schedule_Next (s : Schedule) (t : time) : nstate + option time :=
  match s with
  | Spec s => Next s t
  | ConstantDelay d => inr (Some (delay_Next d t))
  end.
