(* ===== verification/CronSyntax.v ===== *)
(** * Cron schedules: the bit sets

    The bits that [getBits], [getRange] and [getField] return: membership in a
    range with a step, and that every field stays within its bounds. *)

From S2P Require Import Prelude GoText Calendar CronSpec CronParse.
From Stdlib Require Import Strings.Ascii Btauto.

#[local] Open Scope Z_scope.

(** ** Single bits *)

Lemma bit_set_testbit bits i : 0 <= i → bit_set bits i = Z.testbit bits i.
Proof.
  intros Hi. unfold bit_set. destruct (Z.testbit bits i) eqn:Hb.
  - apply negb_true_iff, Z.eqb_neq. intros H0. apply (f_equal (λ z, Z.testbit z i)) in H0. revert H0.
    by rewrite Z.land_spec, Hb, Z.shiftl_spec, Z.sub_diag, Z.bits_0.
  - apply negb_false_iff, Z.eqb_eq. apply Z.bits_inj'. intros n Hn.
    rewrite Z.land_spec, Z.shiftl_spec, Z.bits_0 by done. destruct (Z.eq_dec n i) as [->|].
    + by rewrite Hb, andb_false_r.
    + change 1 with (2 ^ 0). by rewrite Z.pow2_bits_eqb, (proj2 (Z.eqb_neq _ _)) by lia.
Qed.

Lemma land_starBit bits : (0 <? Z.land bits starBit) = Z.testbit bits 63.
Proof.
  unfold starBit. assert (Z.land bits (2 ^ 63) = if Z.testbit bits 63 then 2 ^ 63 else 0) as ->.
  { apply Z.bits_inj'. intros n Hn. rewrite Z.land_spec, Z.pow2_bits_eqb by lia.
    destruct (Z.eqb_spec 63 n) as [<-|].
    - rewrite andb_true_r. by destruct (Z.testbit bits 63).
    - rewrite andb_false_r. destruct (Z.testbit bits 63); [|by rewrite Z.bits_0].
      rewrite Z.pow2_bits_false by lia. done. }
  by destruct (Z.testbit bits 63).
Qed.

Lemma testbit_starBit i : 0 <= i → Z.testbit starBit i = (i =? 63).
Proof. intros. unfold starBit. rewrite Z.pow2_bits_eqb by lia. apply Z.eqb_sym. Qed.

Lemma testbit_wrapu w x i : 0 <= i → 0 <= w → Z.testbit (wrapu w x) i = (i <? w) && Z.testbit x i.
Proof.
  intros Hi Hw. unfold wrapu. rewrite <- Z.land_ones, Z.land_spec, andb_comm by done. f_equal.
  destruct (Z.ltb_spec i w); [by apply Z.ones_spec_low|apply Z.ones_spec_high; lia].
Qed.

Lemma MaxUint64_ones : MaxUint64 = Z.ones 64.
Proof. done. Qed.

Lemma testbit_MaxUint64 i : 0 <= i → Z.testbit MaxUint64 i = (i <? 64).
Proof.
  intros Hi. rewrite MaxUint64_ones. destruct (Z.ltb_spec i 64); [by apply Z.ones_spec_low|apply Z.ones_spec_high; lia].
Qed.

Lemma testbit_shl64 x n i : 0 <= n → 0 <= i →
  Z.testbit (shl64 x n) i = (i <? 64) && ((n <=? i) && Z.testbit x (i - n)).
Proof.
  intros Hn Hi. unfold shl64. destruct (Z.leb_spec 64 n).
  - rewrite Z.bits_0. destruct (Z.ltb_spec i 64), (Z.leb_spec n i); try done. lia.
  - rewrite testbit_wrapu, Z.shiftl_spec by lia. f_equal. destruct (Z.leb_spec n i); [done|].
    rewrite Z.testbit_neg_r by lia. done.
Qed.

Lemma shl64_range x n : 0 <= shl64 x n < 2 ^ 64.
Proof. unfold shl64. destruct (64 <=? n); [lia|]. by apply wrapu_range. Qed.

Lemma testbit_not64 x i : 0 <= x < 2 ^ 64 → 0 <= i → Z.testbit (not64 x) i = (i <? 64) && negb (Z.testbit x i).
Proof.
  intros Hx Hi. unfold not64.
  assert (MaxUint64 - x = Z.ldiff MaxUint64 x) as ->.
  { rewrite Z.sub_nocarry_ldiff; [done|]. apply Z.bits_inj'. intros n Hn.
    rewrite Z.ldiff_spec, testbit_MaxUint64, Z.bits_0 by done. destruct (Z.ltb_spec n 64); simpl.
    - apply andb_false_r.
    - rewrite andb_true_r. destruct (Z.eq_dec x 0) as [->|]; [apply Z.bits_0|].
      apply Z.bits_above_log2; [lia|]. assert (Z.log2 x < 64); [|lia]. apply Z.log2_lt_pow2; lia. }
  rewrite Z.ldiff_spec, testbit_MaxUint64 by done. done.
Qed.

(** ** Ranges with a step *)

Definition stepped (min max step i : Z) : bool := (min <=? i) && (i <=? max) && ((i - min) mod step =? 0).

Lemma getBits_one min max i :
  0 <= min → max < 64 → -1 <= max → 0 <= i →
  Z.testbit (Z.land (not64 (shl64 MaxUint64 (wrapu 64 (max + 1)))) (shl64 MaxUint64 min)) i = stepped min max 1 i.
Proof.
  intros Hmin Hmax Hm Hi. unfold stepped. rewrite Z.mod_1_r, andb_true_r.
  assert (wrapu 64 (max + 1) = max + 1) as -> by (apply Z.mod_small; lia).
  rewrite Z.land_spec, testbit_not64, !testbit_shl64 by (apply shl64_range || lia).
  destruct (Z.leb_spec min i), (Z.leb_spec (max + 1) i), (Z.leb_spec i max), (Z.ltb_spec i 64); try lia; try done.
  all: cbn [andb negb]; rewrite ?testbit_MaxUint64 by lia.
  all: repeat match goal with |- context [?a <? ?b] => destruct (Z.ltb_spec a b) end; try done; lia.
Qed.

Lemma stepped_next i max step n :
  0 < step → stepped i max step n = (i <=? max) && ((n =? i) || stepped (i + step) max step n).
Proof.
  intros Hs. unfold stepped. replace (n - (i + step)) with (n - i + (-1) * step) by lia. rewrite Z.mod_add by lia.
  destruct (Z.eqb_spec n i) as [->|Hne].
  - rewrite Z.sub_diag, Z.mod_0_l, Z.leb_refl by lia. simpl. by rewrite andb_true_r.
  - simpl. destruct (Z.eqb_spec ((n - i) mod step) 0) as [Hm|]; rewrite ?andb_true_r, ?andb_false_r; [|done].
    apply Z.mod_divide in Hm as [q Hq]; [|lia].
    assert (q * step <= 0 ∨ step <= q * step) by (destruct (Z.le_gt_cases q 0); [left|right]; nia).
    destruct (Z.leb_spec i n), (Z.leb_spec (i + step) n), (Z.leb_spec n max), (Z.leb_spec i max); done || lia.
Qed.

Lemma getBits_loop_spec fuel i max step bits :
  0 <= i → max < 64 → 1 <= step < 2 ^ 63 → i < 2 ^ 63 + 64 → Z.of_nat fuel >= max - i + 1 →
  ∃ bits', getBits_loop fuel i max step bits = Some bits' ∧
    ∀ n, 0 <= n → Z.testbit bits' n = Z.testbit bits n || stepped i max step n.
Proof.
  revert i bits. induction fuel as [|fuel IH]; intros i bits Hi Hmax Hs Hw Hf; cbn [getBits_loop].
  - destruct (Z.leb_spec i max); [lia|]. eexists. split; [done|]. intros n Hn.
    rewrite stepped_next, (proj2 (Z.leb_gt _ _)) by lia. by rewrite orb_false_r.
  - destruct (Z.leb_spec i max).
    + assert (wrapu 64 (i + step) = i + step) as -> by (apply Z.mod_small; lia).
      destruct (IH (i + step) (Z.lor bits (shl64 1 i))) as (bits' & Hl & Hb); try lia.
      exists bits'. split; [done|]. intros n Hn. rewrite Hb, Z.lor_spec, testbit_shl64, (stepped_next i) by lia.
      rewrite (proj2 (Z.leb_le i max)) by done. rewrite <- orb_assoc. cbn [andb]. f_equal. f_equal.
      change 1 with (2 ^ 0). destruct (Z.eqb_spec n i) as [->|].
      * rewrite Z.sub_diag, Z.leb_refl, (proj2 (Z.ltb_lt i 64)) by lia. done.
      * destruct (Z.leb_spec i n); rewrite ?andb_false_r; [|done].
        rewrite Z.pow2_bits_false by lia. by rewrite !andb_false_r.
    + eexists. split; [done|]. intros n Hn.
      rewrite stepped_next, (proj2 (Z.leb_gt _ _)) by lia. by rewrite orb_false_r.
Qed.

(** [getBits] returns the places of the range that the step reaches. *)
Lemma getBits_spec min max step :
  0 <= min → -1 <= max < 64 → 1 <= step < 2 ^ 63 → min < 2 ^ 63 →
  ∃ bits, getBits min max step = Some bits ∧ ∀ i, 0 <= i → Z.testbit bits i = stepped min max step i.
Proof.
  intros Hmin Hmax Hs Hm. unfold getBits. destruct (Z.eqb_spec step 1) as [->|].
  - eexists. split; [done|]. intros i Hi. apply getBits_one; lia.
  - destruct (getBits_loop_spec (Z.to_nat (max - min + 1)) min max step 0) as (bits & Hb & Ht); try lia.
    exists bits. split; [done|]. intros i Hi. by rewrite Ht, Z.bits_0.
Qed.

(** ** Fields stay within their bounds *)

Definition wf_bounds (r : bounds) : Prop :=
  0 <= b_min r <= b_max r ∧ b_max r < 63 ∧
  match b_names r with None => True | Some l => Forall (λ p, 0 <= p.2 < 2 ^ 63) l end.

Definition within (r : bounds) (bits : Z) : Prop :=
  ∀ i, 0 <= i → Z.testbit bits i = true → i = 63 ∨ b_min r <= i <= b_max r.

Lemma wf_seconds : wf_bounds seconds.
Proof. unfold wf_bounds. simpl. lia. Qed.
Lemma wf_minutes : wf_bounds minutes.
Proof. exact wf_seconds. Qed.
Lemma wf_hours : wf_bounds hours.
Proof. unfold wf_bounds. simpl. lia. Qed.
Lemma wf_dom : wf_bounds dom.
Proof. unfold wf_bounds. simpl. lia. Qed.
Lemma wf_months : wf_bounds months.
Proof. unfold wf_bounds. simpl. split; [lia|]. split; [lia|]. repeat constructor; simpl; lia. Qed.
Lemma wf_dow : wf_bounds dow.
Proof. unfold wf_bounds. simpl. split; [lia|]. split; [lia|]. repeat constructor; simpl; lia. Qed.

Create HintDb cron.
#[export] Hint Resolve wf_seconds wf_minutes wf_hours wf_dom wf_months wf_dow : cron.

(** A bit set is a uint64. *)
Lemma within_range r bits : wf_bounds r → within r bits → 0 <= bits < 2 ^ 64.
Proof.
  intros (Hmin & Hmax & _) Hw.
  assert (Hhigh : ∀ i, 64 <= i → Z.testbit bits i = false).
  { intros i Hi. destruct (Z.testbit bits i) eqn:Hb; [|done]. apply Hw in Hb; lia. }
  assert (bits = wrapu 64 bits) as ->; [|by apply wrapu_range].
  apply Z.bits_inj'. intros n Hn. rewrite testbit_wrapu by lia.
  destruct (Z.ltb_spec n 64); [done|]. by rewrite Hhigh.
Qed.

Lemma within_lor r a b : within r a → within r b → within r (Z.lor a b).
Proof. intros Ha Hb i Hi. rewrite Z.lor_spec, orb_true_iff. intros [|]; auto. Qed.

Lemma within_zero r : within r 0.
Proof. intros i Hi. by rewrite Z.bits_0. Qed.

(** ** Numbers *)

Lemma parse_digits_nonneg acc s n : 0 <= acc → parse_digits acc s = Some n → 0 <= n.
Proof.
  revert acc. induction s as [|c s IH]; intros acc Hacc; simpl; [by intros [= <-]|].
  intros Hp. inv_bind Hp. apply IH in Hp; [done|]. revert Hrun. unfold digit_value.
  case_bool_decide; [|done]. intros [= <-]. lia.
Qed.

Lemma ParseUint_range s n : ParseUint s = Some n → 0 <= n < 2 ^ 64.
Proof.
  unfold ParseUint. destruct s; [done|]. intros Hp. inv_bind Hp. apply parse_digits_nonneg in Hrun; [|lia].
  destruct (Z.ltb_spec z (2 ^ 64)); [|done]. by injection Hp as <-.
Qed.

Lemma Atoi_range s n : Atoi s = Some n → is_int n.
Proof.
  unfold Atoi, ParseInt, is_int, MinInt64, MaxInt64. destruct s as [|c s]; [done|].
  assert (Hfin : ∀ (neg : bool) u, (m ← ParseUint u;
    if neg then if m <=? 2 ^ 63 then Some (- m) else None else if m <? 2 ^ 63 then Some m else None) = Some n →
    -9223372036854775808 <= n <= 9223372036854775807).
  { intros neg u Hp. inv_bind Hp. apply ParseUint_range in Hrun.
    destruct neg; [destruct (Z.leb_spec z (2 ^ 63))|destruct (Z.ltb_spec z (2 ^ 63))]; simplify_eq; lia. }
  destruct (Ascii.eqb c "-"); [apply (Hfin true)|]. destruct (Ascii.eqb c "+"); apply (Hfin false).
Qed.

(** A number of an expression is an error or a uint that is not negative as an int. *)
Lemma mustParseInt_cases s :
  (∃ e, mustParseInt s = fail e) ∨ (∃ n, mustParseInt s = ok n ∧ 0 <= n < 2 ^ 63).
Proof.
  unfold mustParseInt. destruct (Atoi s) as [n|] eqn:Hn; [|eauto]. apply Atoi_range in Hn.
  destruct (Z.ltb_spec n 0); [eauto|]. right. exists n. split; [done|]. unfold is_int, MaxInt64 in *. lia.
Qed.

Lemma parseIntOrName_cases r s : wf_bounds r →
  (∃ e, parseIntOrName s (b_names r) = fail e) ∨ (∃ n, parseIntOrName s (b_names r) = ok n ∧ 0 <= n < 2 ^ 63).
Proof.
  intros (_ & _ & Hn). unfold parseIntOrName. destruct (lookup_name (b_names r) (ToLower s)) as [n|] eqn:Hl;
    [|apply mustParseInt_cases]. right. exists n. split; [done|]. unfold lookup_name in Hl.
  destruct (b_names r) as [l|]; [|done]. cbn [mbind option_bind] in Hl.
  destruct (List.find _ l) as [p|] eqn:Hf; [|done]. injection Hl as <-. apply find_some in Hf as [Hin _].
  rewrite list.Forall_forall in Hn. by apply Hn, list_elem_of_In.
Qed.

(** ** Ranges *)

Lemma low_high_cases expr l r : wf_bounds r → l ≠ [] →
  (∃ e, low_high expr l r = fail e) ∨
  (∃ start end_ extra, low_high expr l r = ok (start, end_, extra) ∧
     0 <= start < 2 ^ 63 ∧ 0 <= end_ ∧ (extra = 0 ∨ extra = starBit)).
Proof.
  intros Hr Hl. unfold low_high. destruct l as [|low rest]; [done|]. case_bool_decide.
  - right. exists (b_min r), (b_max r), starBit. split; [done|]. destruct Hr as (? & ? & _). split_and!; try lia; by right.
  - destruct (parseIntOrName_cases r low Hr) as [[e He]|(n & Hn & Hrng)]; [left; exists e; by rewrite He|].
    rewrite Hn. simpl. destruct rest as [|high [|]]; [|destruct (parseIntOrName_cases r high Hr) as [[e He]|(m & Hm & Hrng')]|eauto].
    + right. exists n, n, 0. split_and!; auto; lia.
    + left. exists e. by rewrite He.
    + right. exists n, m, 0. rewrite Hm. split_and!; auto; lia.
Qed.

Lemma range_step_cases expr steps single r end_ extra : extra = 0 ∨ extra = starBit →
  (∃ e, range_step expr steps single r end_ extra = fail e) ∨
  (∃ end' step extra', range_step expr steps single r end_ extra = ok (end', step, extra') ∧
     0 <= step < 2 ^ 63 ∧ (extra' = 0 ∨ extra' = starBit)).
Proof.
  intros Hx. unfold range_step.
  destruct steps as [|step [|]]; [right|destruct (mustParseInt_cases step) as [[e ->]|(n & -> & Hn)]|left; eauto].
  - exists end_, 1, extra. split; [done|]. split; [lia|done].
  - left. by exists e.
  - right. eexists _, n, _. split; [done|]. split; [done|]. destruct (1 <? n); [by left|done].
Qed.

Lemma Split_nonempty s c : Split s c ≠ [].
Proof. destruct s; simpl; [done|]. case_match; [done|]. by destruct (Split s c). Qed.

(** Every expression has an error or bits within the bounds; none panics. *)
Lemma getRange_cases expr r : wf_bounds r →
  (∃ e, getRange expr r = fail e) ∨ (∃ bits, getRange expr r = ok bits ∧ within r bits).
Proof.
  intros Hr. pose proof Hr as (Hmin & Hmax & _). unfold getRange.
  destruct (Split expr "/") as [|range steps] eqn:Hsp; [by apply Split_nonempty in Hsp|].
  destruct (low_high_cases expr (Split range "-") r Hr (Split_nonempty _ _))
    as [[e ->]|(start & end_ & extra & -> & Hs & He & Hx)]; [by left; exists e|]. cbn [rbind ok].
  destruct (range_step_cases expr steps (length (Split range "-") =? 1)%nat r end_ extra Hx)
    as [[e ->]|(end' & step & extra' & -> & Hst & Hx')]; [by left; exists e|]. cbn [rbind ok].
  do 4 (case_match; [left; eauto|]).
  repeat match goal with H : (_ <? _) = false |- _ => apply Z.ltb_ge in H | H : (_ =? _) = false |- _ => apply Z.eqb_neq in H end.
  destruct (getBits_spec start end' step) as (bits & -> & Hb); try lia. right. eexists. split; [done|].
  apply within_lor.
  - intros i Hi. rewrite Hb by done. unfold stepped. rewrite !andb_true_iff, !Z.leb_le. lia.
  - destruct Hx' as [->| ->]; [apply within_zero|]. intros i Hi. rewrite testbit_starBit, Z.eqb_eq by done. auto.
Qed.

Lemma getField_cases field r : wf_bounds r →
  (∃ e, getField field r = fail e) ∨ (∃ bits, getField field r = ok bits ∧ within r bits).
Proof.
  intros Hr. unfold getField. generalize (within_zero r). generalize 0.
  induction (FieldsFunc field _) as [|expr l IH]; intros b Hb; cbn [getRanges]; [right; eauto|].
  destruct (getRange_cases expr r Hr) as [[e ->]|(bits & -> & Hw)]; [left; by exists e|]. cbn [rbind ok].
  by apply IH, within_lor.
Qed.

(** * Cron schedules: the grammar

    The expressions a spec is made of, as syntax: how they are written and
    which times they mean.  Parsing a written expression gives exactly the bits
    of its meaning. *)

#[local] Open Scope Z_scope.

(** ** Syntax *)

Inductive atom := Num (n : Z) | Name (s : string).
Inductive base := Star | Question | Single (a : atom) | Span (low high : atom).
Record item := mkItem { i_base : base; i_step : option Z }.

Definition print_atom (a : atom) : string := match a with Num n => Itoa n | Name s => s end.
Definition print_base (b : base) : string :=
  match b with
  | Star => "*"
  | Question => "?"
  | Single a => print_atom a
  | Span low high => print_atom low +:+ String "-" (print_atom high)
  end.
Definition print_item (it : item) : string :=
  match i_step it with
  | None => print_base (i_base it)
  | Some k => print_base (i_base it) +:+ String "/" (Itoa k)
  end.
Definition print_field (l : list item) : string := Join (print_item <$> l) ",".

(** ** Meaning *)

Definition atom_value (r : bounds) (a : atom) : option Z :=
  match a with
  | Num n => if (0 <=? n) && (n <? 2 ^ 63) then Some n else None
  | Name s => lookup_name (b_names r) (ToLower s)
  end.

(** First place, last place and step.  A single number with a step runs to the
    end of the bounds. *)
Definition item_range (r : bounds) (it : item) : option (Z * Z * Z) :=
  let step := default 1 (i_step it) in
  match i_base it with
  | Star | Question => Some (b_min r, b_max r, step)
  | Single a => v ← atom_value r a; Some (v, match i_step it with Some _ => b_max r | None => v end, step)
  | Span low high => a ← atom_value r low; b ← atom_value r high; Some (a, b, step)
  end.

Definition item_ok (r : bounds) (it : item) : bool :=
  match item_range r it with
  | Some (a, b, k) => (b_min r <=? a) && (a <=? b) && (b <=? b_max r) && (1 <=? k) && (k <? 2 ^ 63)
  | None => false
  end.
Definition item_has (r : bounds) (it : item) (i : Z) : bool :=
  match item_range r it with Some (a, b, k) => stepped a b k i | None => false end.

(** A star restricts nothing, unless it has a step. *)
Definition item_star (it : item) : bool :=
  match i_base it with
  | Star | Question => default 1 (i_step it) <=? 1
  | _ => false
  end.

Definition field_ok (r : bounds) (l : list item) : bool := negb (bool_decide (l = [])) && forallb (item_ok r) l.
Definition field_has (r : bounds) (l : list item) (i : Z) : bool := existsb (λ it, item_has r it i) l.
Definition field_star (l : list item) : bool := existsb item_star l.

(** ** The characters of written expressions *)

Definition is_letter (c : ascii) : bool :=
  let n := nat_of_ascii c in bool_decide (65 <= n <= 90 ∨ 97 <= n <= 122)%nat.
Definition is_lower (c : ascii) : bool := bool_decide (97 <= nat_of_ascii c <= 122)%nat.
Definition alnum (c : ascii) : bool := is_digit c || is_letter c.
(** The characters of an expression in a list. *)
Definition in_item (c : ascii) : bool :=
  alnum c || Ascii.eqb c "*" || Ascii.eqb c "?" || Ascii.eqb c "-" || Ascii.eqb c "/".

(** A property of every character, by computation. *)
Ltac every_char := intros [[] [] [] [] [] [] [] []]; vm_compute; (done || intros [=]; done).

Lemma alnum_not_special c : alnum c = true →
  negb (Ascii.eqb c "/") && negb (Ascii.eqb c "-") && negb (Ascii.eqb c "*") && negb (Ascii.eqb c "?") = true.
Proof. revert c. every_char. Qed.
Lemma in_item_word c : in_item c = true →
  negb (Ascii.eqb c ",") && negb (is_space c) && negb (Ascii.eqb c "=") && negb (Ascii.eqb c "@") = true.
Proof. revert c. every_char. Qed.
Lemma lower_digit c : is_digit c = true → is_lower (lower c) = false.
Proof. revert c. every_char. Qed.
Lemma lower_letter c : is_lower (lower c) = true → alnum c = true.
Proof. revert c. every_char. Qed.

Definition names_ok (r : bounds) : Prop :=
  match b_names r with None => True | Some l => Forall (λ p, p.1 ≠ EmptyString ∧ all_chars is_lower p.1 = true) l end.

Lemma names_months : names_ok months.
Proof. unfold names_ok. cbn [b_names months dow]. repeat (apply list.Forall_cons; split; [by split|]). by constructor. Qed.
Lemma names_dow : names_ok dow.
Proof. unfold names_ok. cbn [b_names months dow]. repeat (apply list.Forall_cons; split; [by split|]). by constructor. Qed.
Lemma names_none mn mx : names_ok (mkBounds mn mx None).
Proof. done. Qed.
#[export] Hint Resolve names_months names_dow names_none : cron.

Lemma alnum_lacks s : all_chars alnum s = true → lacks "/" s = true ∧ lacks "-" s = true.
Proof.
  intros Hs. rewrite !lacks_all. split; (eapply all_chars_mono; [|exact Hs]); intros c Hc;
    apply alnum_not_special in Hc; rewrite !andb_true_iff in Hc; tauto.
Qed.

Lemma all_chars_ToLower s : all_chars is_lower (ToLower s) = true → all_chars alnum s = true.
Proof.
  induction s as [|c s IH]; simpl; [done|]. rewrite !andb_true_iff. intros [Hc Hs]. split; [by apply lower_letter|auto].
Qed.

Section bounds.
Context (r : bounds) (Hr : wf_bounds r) (Hnames : names_ok r).

Lemma lookup_name_in key v : lookup_name (b_names r) key = Some v → key ≠ EmptyString ∧ all_chars is_lower key = true.
Proof using Hnames.
  unfold lookup_name, names_ok in *. destruct (b_names r) as [l|]; [|done]. cbn [mbind option_bind].
  destruct (List.find _ l) as [p|] eqn:Hf; [|done]. intros _. apply find_some in Hf as [Hin Hk].
  apply bool_decide_eq_true in Hk as <-. rewrite list.Forall_forall in Hnames. by apply Hnames, list_elem_of_In.
Qed.

Lemma lookup_name_digits s :
  s ≠ EmptyString → all_chars is_digit s = true → lookup_name (b_names r) (ToLower s) = None.
Proof using Hnames.
  intros Hs Hd. destruct (lookup_name _ _) as [v|] eqn:Hl; [|done]. apply lookup_name_in in Hl as [_ Hl].
  destruct s as [|c s]; [done|]. simpl in *. rewrite andb_true_iff in *. destruct Hd as [Hd _], Hl as [Hl _].
  apply lower_digit in Hd. congruence.
Qed.

Lemma atom_alnum a v : atom_value r a = Some v → all_chars alnum (print_atom a) = true ∧ print_atom a ≠ EmptyString.
Proof using Hnames Hr.
  destruct a as [n|s]; simpl.
  - destruct (Z.leb_spec 0 n); [|done]. intros _. split; [|apply Itoa_nonempty].
    eapply all_chars_mono; [|by apply Itoa_digit]. intros c Hc. unfold alnum. by rewrite Hc.
  - intros [Hne Hl]%lookup_name_in. split; [by apply all_chars_ToLower|]. by intros ->.
Qed.

Lemma parse_atom a v : atom_value r a = Some v → parseIntOrName (print_atom a) (b_names r) = ok v.
Proof using Hnames.
  unfold parseIntOrName. destruct a as [n|s]; cbn [atom_value print_atom]; [|by intros ->].
  destruct (Z.leb_spec 0 n), (Z.ltb_spec n (2 ^ 63)); try done. intros [= <-].
  rewrite lookup_name_digits by (apply Itoa_nonempty || by apply Itoa_digit).
  unfold mustParseInt. rewrite Atoi_Itoa by done. by rewrite (proj2 (Z.ltb_ge _ _)).
Qed.

Lemma atom_not_star a v : atom_value r a = Some v → print_atom a ≠ "*"%string ∧ print_atom a ≠ "?"%string.
Proof using Hnames Hr. intros [Ha _]%atom_alnum. split; intros He; by rewrite He in Ha. Qed.

Lemma low_high_atom expr a v rest : atom_value r a = Some v →
  low_high expr (print_atom a :: rest) r =
    match rest with
    | [] => ok (v, v, 0)
    | [high] => end_ <- parseIntOrName high (b_names r);; ok (v, end_, 0)
    | _ => fail (TooManyHyphens expr)
    end.
Proof using Hnames Hr.
  intros Ha. unfold low_high. destruct (atom_not_star a v Ha). rewrite bool_decide_false by tauto.
  by rewrite (parse_atom a v).
Qed.

Lemma base_lacks b x : item_range r (mkItem b x) ≠ None → lacks "/" (print_base b) = true.
Proof using Hnames Hr.
  destruct b as [| |a|low high]; cbn [item_range i_base print_base]; try done.
  - destruct (atom_value r a) as [v|] eqn:Ha; [|done]. intros _. by apply atom_alnum in Ha as [[? _]%alnum_lacks _].
  - destruct (atom_value r low) as [v|] eqn:Ha; [|done]. destruct (atom_value r high) as [w|] eqn:Hb; [|done].
    intros _. apply atom_alnum in Ha as [[Ha _]%alnum_lacks _], Hb as [[Hb _]%alnum_lacks _].
    rewrite lacks_all in *. rewrite all_chars_app, Ha. exact Hb.
Qed.

Definition star_of (b : base) : Z := match b with Star | Question => starBit | _ => 0 end.

(** The part before the slash: its range, its star bit, and whether it has no hyphen. *)
Lemma low_high_base expr b x a e k : item_range r (mkItem b x) = Some (a, e, k) →
  ∃ e', low_high expr (Split (print_base b) "-") r =
ok (a, e', star_of b) ∧
    e = match x with Some _ => if (length (Split (print_base b) "-") =? 1)%nat then b_max r else e' | None => e' end.
Proof using Hnames Hr.
  destruct b as [| |at_|low high]; cbn [item_range i_base i_step print_base].
  - intros [= <- <- _]. exists (b_max r). split; [done|]. by destruct x.
  - intros [= <- <- _]. exists (b_max r). split; [done|]. by destruct x.
  - destruct (atom_value r at_) as [v|] eqn:Ha; [|done]. intros [= <- <- _]. exists v.
    rewrite Split_lacks by by apply atom_alnum in Ha as [[_ ?]%alnum_lacks _].
    split; [by rewrite (low_high_atom expr at_ v [])|]. by destruct x.
  - destruct (atom_value r low) as [v|] eqn:Ha; [|done]. destruct (atom_value r high) as [w|] eqn:Hb; [|done].
    intros [= <- <- _]. exists w.
    rewrite Split_app by by apply atom_alnum in Ha as [[_ ?]%alnum_lacks _].
    rewrite Split_lacks by by apply atom_alnum in Hb as [[_ ?]%alnum_lacks _].
    split; [|by destruct x]. rewrite (low_high_atom expr low v) by done. by rewrite (parse_atom high w).
Qed.

Lemma Split_print b x : lacks "/" (print_base b) = true → (∀ k, x = Some k → 0 <= k) →
  Split (print_item (mkItem b x)) "/" = print_base b :: match x with None => [] | Some k => [Itoa k] end.
Proof.
  intros Hb Hk. unfold print_item. cbn [i_base i_step]. destruct x as [k|]; [|by apply Split_lacks].
  rewrite Split_app by done. rewrite Split_lacks; [done|]. apply alnum_lacks.
  eapply all_chars_mono; [|apply Itoa_digit; by apply Hk]. intros c Hc. unfold alnum. by rewrite Hc.
Qed.

Lemma range_step_print expr x single e extra : (∀ k, x = Some k → 0 <= k < 2 ^ 63) →
  range_step expr (match x with None => [] | Some k => [Itoa k] end) single r e extra =
  ok (match x with Some _ => if single then b_max r else e | None => e end, default 1 x,
      if default 1 x <=? 1 then extra else 0).
Proof.
  intros Hx. destruct x as [k|]; [|done]. cbn [range_step default]. unfold mustParseInt.
  rewrite Atoi_Itoa by by apply Hx. rewrite (proj2 (Z.ltb_ge k 0)) by by apply Hx. cbn [rbind ok].
  by rewrite Z.leb_antisym, if_negb.
Qed.

(** A written expression gives the bits of its meaning. *)
Lemma getRange_print it : item_ok r it = true →
  ∃ bits, getRange (print_item it) r = ok bits ∧
    ∀ i, 0 <= i → Z.testbit bits i = item_has r it i || (i =? 63) && item_star it.
Proof using Hnames Hr.
  unfold item_ok, item_has. destruct (item_range r it) as [[[a e] k]|] eqn:Hit; [|done].
  rewrite !andb_true_iff, !Z.leb_le, Z.ltb_lt. intros ((((Hmin & Hae) & Hmax) & Hk) & Hk63).
  destruct it as [b x]. assert (Hlk : lacks "/" (print_base b) = true) by (eapply base_lacks; by rewrite Hit).
  assert (k = default 1 x) as ->.
  { destruct b; cbn [item_range i_base i_step] in Hit; inv_bind Hit; by simplify_eq. }
  pose proof Hr as (Hb & Hb' & _). destruct (getBits_spec a e (default 1 x)) as (bits & Hbits & Htest); try lia.
  assert (Hx : ∀ k, x = Some k → 0 <= k < 2 ^ 63) by (intros k ->; simpl in *; lia).
  unfold getRange. rewrite Split_print by (done || intros; by apply Hx).
  destruct (low_high_base (print_item (mkItem b x)) b x a e _ Hit) as (e' & -> & He). cbn [rbind ok].
  rewrite range_step_print by done. rewrite <- He. cbn [rbind ok].
  rewrite !(proj2 (Z.ltb_ge _ _)), (proj2 (Z.eqb_neq _ _)), Hbits by lia.
  eexists. split; [done|]. intros i Hi. rewrite Z.lor_spec, Htest by done. f_equal. unfold item_star, star_of.
  destruct b, (Z.leb_spec (default 1 x) 1); cbn [i_base i_step];
    rewrite ?(proj2 (Z.leb_le _ _)), ?(proj2 (Z.leb_gt _ _)) by done;
    rewrite ?testbit_starBit, ?Z.bits_0, ?andb_true_r, ?andb_false_r by done; done.
Qed.

(** ** Lists *)

Lemma atom_chars a v : atom_value r a = Some v → all_chars in_item (print_atom a) = true.
Proof using Hnames Hr.
  intros [Ha _]%atom_alnum. eapply all_chars_mono; [|done]. intros c Hc. unfold in_item. by rewrite Hc.
Qed.

Lemma str_app_nonempty s u : s ≠ EmptyString → s +:+ u ≠ EmptyString.
Proof. by destruct s. Qed.

Lemma base_chars b x : item_range r (mkItem b x) ≠ None →
  print_base b ≠ EmptyString ∧ all_chars in_item (print_base b) = true.
Proof using Hnames Hr.
  destruct b as [| |a|low high]; cbn [item_range i_base print_base]; try done.
  - destruct (atom_value r a) as [v|] eqn:Ha; [|done]. intros _.
    split; [apply (atom_alnum a v Ha)|by eapply atom_chars].
  - destruct (atom_value r low) as [v|] eqn:Ha; [|done]. destruct (atom_value r high) as [w|] eqn:Hb; [|done].
    intros _. split; [apply str_app_nonempty, (atom_alnum low v Ha)|].
    rewrite all_chars_app. rewrite (atom_chars low v Ha). exact (atom_chars high w Hb).
Qed.

Lemma item_chars it : item_ok r it = true → print_item it ≠ EmptyString ∧ all_chars in_item (print_item it) = true.
Proof using Hnames Hr.
  unfold item_ok. destruct it as [b x]. destruct (item_range r (mkItem b x)) as [[[a e] k]|] eqn:Hit; [|done].
  destruct (base_chars b x) as [Hne Hb]; [by rewrite Hit|]. unfold print_item. cbn [i_base i_step].
  destruct x as [n|]; [|done]. intros Hok. split; [by apply str_app_nonempty|].
  assert (k = n) as -> by (destruct b; cbn [item_range i_base i_step] in Hit; inv_bind Hit; by simplify_eq).
  rewrite !andb_true_iff, !Z.leb_le in Hok. rewrite all_chars_app, Hb. cbn [andb all_chars].
  eapply all_chars_mono; [|apply Itoa_digit; lia]. intros c Hc. unfold in_item, alnum. by rewrite Hc.
Qed.

Lemma getRanges_print l bits0 : forallb (item_ok r) l = true →
  ∃ bits, getRanges (print_item <$> l) r bits0 = ok bits ∧
    ∀ i, 0 <= i → Z.testbit bits i = Z.testbit bits0 i || field_has r l i || (i =? 63) && field_star l.
Proof using Hnames Hr.
  revert bits0. induction l as [|it l IH]; intros bits0 Hl.
  - exists bits0. split; [done|]. intros i Hi. simpl. by rewrite andb_false_r, !orb_false_r.
  - cbn [forallb] in Hl. apply andb_true_iff in Hl as [Hit Hl].
    destruct (getRange_print it Hit) as (b & Hb & Htb). destruct (IH (Z.lor bits0 b) Hl) as (bits & Hbits & Ht).
    exists bits. split; [by rewrite fmap_cons; cbn [getRanges]; rewrite Hb|]. intros i Hi.
    rewrite Ht, Z.lor_spec, Htb by done. unfold field_has, field_star. cbn [existsb].
    rewrite andb_orb_distrib_r. btauto.
Qed.

(** A written list gives the bits of its members. *)
Lemma getField_print l : field_ok r l = true →
  ∃ bits, getField (print_field l) r = ok bits ∧
    ∀ i, 0 <= i → Z.testbit bits i = field_has r l i || (i =? 63) && field_star l.
Proof using Hnames Hr.
  unfold field_ok. rewrite andb_true_iff. intros [_ Hl]. unfold getField, print_field.
  rewrite FieldsFunc_Join; [|done|].
  - destruct (getRanges_print l 0 Hl) as (bits & Hb & Ht). exists bits. split; [done|]. intros i Hi.
    rewrite Ht by done. by rewrite Z.bits_0.
  - apply Forall_fmap. rewrite forallb_forall in Hl. apply list.Forall_forall. intros it Hin%list_elem_of_In.
    destruct (item_chars it (Hl it Hin)) as [Hne Hc]. split; [done|]. eapply all_chars_mono; [|exact Hc].
    intros c Hw%in_item_word. rewrite !andb_true_iff in Hw. simpl. tauto.
Qed.
End bounds.

(** ** Specs *)

Record cron := mkCron {
  c_second : list item; c_minute : list item; c_hour : list item; c_dom : list item; c_month : list item; c_dow : list item }.

Definition cron_ok (c : cron) : bool :=
  field_ok seconds (c_second c) && field_ok minutes (c_minute c) && field_ok hours (c_hour c) &&
  field_ok dom (c_dom c) && field_ok months (c_month c) && field_ok dow (c_dow c).

(** Six fields for the parser with seconds, five for the standard one. *)
Definition print_six (c : cron) : string :=
  Join [print_field (c_second c); print_field (c_minute c); print_field (c_hour c);
        print_field (c_dom c); print_field (c_month c); print_field (c_dow c)] " ".
Definition print_five (c : cron) : string :=
  Join [print_field (c_minute c); print_field (c_hour c);
        print_field (c_dom c); print_field (c_month c); print_field (c_dow c)] " ".

(** The seconds of local time that a spec means.  A day has to satisfy both day
    fields when one of them is a star, and one of them otherwise. *)
Definition cron_day (c : cron) (day : Z) : bool :=
  let d := field_has dom (c_dom c) (mday_of day) in
  let w := field_has dow (c_dow c) (weekday_of day) in
  if field_star (c_dom c) || field_star (c_dow c) then d && w else d || w.
Definition cron_means (c : cron) (l : Z) : bool :=
  field_has months (c_month c) (month_of (l / 86400)) && cron_day c (l / 86400) &&
  field_has hours (c_hour c) (l mod 86400 / 3600) && field_has minutes (c_minute c) (l mod 3600 / 60) &&
  field_has seconds (c_second c) (l mod 60).
