(* ===== verification/CronProps.v ===== *)
(** * Cron schedules: the properties

    Parsing ends in an error or a well-formed schedule, written specs parse to
    their meaning, and [Next] finds the first second that a schedule means. *)

From S2P Require Import Prelude GoText GoDuration Calendar CronSpec CronNext CronParse CronSyntax.
From Stdlib Require Import Strings.Ascii Btauto.

#[local] Open Scope Z_scope.

(** ** The fields of a spec *)

Lemma expand_total interval ps ds fields :
  (length ps <= length ds)%nat → length fields = length (List.filter (has interval) ps) →
  ∃ l, expand interval ps ds fields = Some l ∧ length l = length ps.
Proof.
  revert ds fields. induction ps as [|p ps IH]; intros [|d ds] fields Hl Hf; cbn [expand]; simpl in Hl;
    try lia; try (by eexists). cbn [List.filter] in Hf. destruct (has interval p).
  - destruct fields as [|f fields]; [done|]. destruct (IH ds fields) as (l & -> & Hlen); [lia|simpl in Hf; lia|].
    eexists. split; [done|]. simpl. lia.
  - destruct (IH ds fields) as (l & -> & Hlen); [lia|done|]. eexists. split; [done|]. simpl. lia.
Qed.

(** Counting the fields leaves six of them or an error. *)
Lemma normalizeFields_cases fields interval :
  (∃ e, normalizeFields fields interval = fail e) ∨
  (∃ l, normalizeFields fields interval = ok l ∧ length l = 6%nat).
Proof.
  unfold normalizeFields.
  destruct (if has interval Interval.SecondOptional then _ else _) as [i1 n1] eqn:H1.
  destruct (if has i1 Interval.DowOptional then _ else _) as [i2 n2] eqn:H2.
  destruct (Z.ltb_spec 1 n2); [by left; eexists|].
  set (max := length (List.filter (has i2) places)).
  destruct (Z.ltb_spec (Z.of_nat (length fields)) (Z.of_nat max - n2));
    [by left; eexists|]. destruct (Z.ltb_spec (Z.of_nat max) (Z.of_nat (length fields))); [by left; eexists|].
  cbn [orb]. assert (0 <= n2 <= 1) by (repeat case_match; simplify_eq; lia).
  assert (Hexp : ∀ fs, length fs = max → ∃ l,
    match expand i2 places defaults fs with None => panic | Some fields => ok fields end = ok l ∧ length l = 6%nat).
  { intros fs Hfs. destruct (expand_total i2 places defaults fs) as (l & -> & Hl); [done|done|]. by exists l. }
  destruct (Z.ltb_spec (Z.of_nat max - n2) (Z.of_nat max)), (Z.eqb_spec (Z.of_nat (length fields)) (Z.of_nat max - n2));
    cbn [andb].
  - destruct (has i2 Interval.DowOptional).
    { right. apply Hexp. rewrite length_app. simpl. lia. }
    destruct (has i2 Interval.SecondOptional); [|by left; eexists]. right. apply Hexp. simpl. lia.
  - right. apply Hexp. lia.
  - right. apply Hexp. lia.
  - right. apply Hexp. lia.
Qed.

(** ** Well-formed schedules *)

Definition wf_spec (s : SpecSchedule) : Prop :=
  within seconds (s_second s) ∧ within minutes (s_minute s) ∧ within hours (s_hour s) ∧
  within dom (s_dom s) ∧ within months (s_month s) ∧ within dow (s_dow s).

Definition wf_schedule (s : Schedule) : Prop :=
  match s with
  | Spec s => wf_spec s
  | ConstantDelay d => nanos 1 <= Delay d <= MaxInt64 ∧ Delay d mod nanos 1 = 0
  end.

Definition good_result (r : result Schedule) : Prop :=
  (∃ e, r = fail e) ∨ (∃ s, r = ok s ∧ wf_schedule s).

Lemma parseFields_good fields loc : length fields = 6%nat → good_result (parseFields fields loc).
Proof.
  intros Hl. destruct fields as [|f0 [|f1 [|f2 [|f3 [|f4 [|f5 [|]]]]]]]; try done. unfold parseFields.
  destruct (getField_cases f0 seconds) as [[e ->]|(b0 & -> & H0)]; [auto with cron|by left; eexists|].
  destruct (getField_cases f1 minutes) as [[e ->]|(b1 & -> & H1)]; [auto with cron|by left; eexists|].
  destruct (getField_cases f2 hours) as [[e ->]|(b2 & -> & H2)]; [auto with cron|by left; eexists|].
  destruct (getField_cases f3 dom) as [[e ->]|(b3 & -> & H3)]; [auto with cron|by left; eexists|].
  destruct (getField_cases f4 months) as [[e ->]|(b4 & -> & H4)]; [auto with cron|by left; eexists|].
  destruct (getField_cases f5 dow) as [[e ->]|(b5 & -> & H5)]; [auto with cron|by left; eexists|].
  right. eexists. split; [done|]. by split_and!.
Qed.

(** A delay is a whole number of seconds, at least one. *)
Lemma Every_wf d : d <= MaxInt64 → wf_schedule (ConstantDelay (Every d)).
Proof.
  intros Hd. unfold wf_schedule, Every, nanos. cbn [Delay]. rewrite Z.mul_1_l. unfold MaxInt64 in *.
  destruct (Z.ltb_spec d 1000000000).
  - vm_compute. split; [split; intros [=]|done].
  - rewrite Z.rem_mod_nonneg by lia. Z.to_euclidean_division_equations. lia.
Qed.

Lemma all_within r : wf_bounds r → ∃ bits, all r = Some bits ∧ within r bits.
Proof.
  intros (Hmin & Hmax & _). unfold all.
  destruct (getBits_spec (b_min r) (b_max r) 1) as (bits & -> & Hb); try lia. eexists. split; [done|].
  apply within_lor.
  - intros i Hi. rewrite Hb by done. unfold stepped. rewrite !andb_true_iff, !Z.leb_le. lia.
  - intros i Hi. rewrite testbit_starBit, Z.eqb_eq by done. auto.
Qed.

Lemma at_min_within r : wf_bounds r → within r (at_min r).
Proof.
  intros (Hmin & Hmax & _) i Hi. unfold at_min. rewrite testbit_shl64 by lia. rewrite !andb_true_iff.
  intros (_ & Hle & Hb). apply Z.leb_le in Hle. right. destruct (Z.eq_dec i (b_min r)); [lia|]. exfalso. revert Hb.
  change 1 with (2 ^ 0). rewrite Z.pow2_bits_false by lia. done.
Qed.

Lemma parseDescriptor_good descriptor loc : good_result (parseDescriptor descriptor loc).
Proof.
  unfold parseDescriptor.
  destruct (all_within hours wf_hours) as (bh & -> & Hh), (all_within dom wf_dom) as (bd & -> & Hd),
    (all_within months wf_months) as (bm & -> & Hm), (all_within dow wf_dow) as (bw & -> & Hw).
  pose proof (at_min_within _ wf_seconds). pose proof (at_min_within _ wf_minutes). pose proof (at_min_within _ wf_hours).
  pose proof (at_min_within _ wf_dom). pose proof (at_min_within _ wf_months). pose proof (at_min_within _ wf_dow).
  do 5 (case_bool_decide; [right; eexists; split; [done|]; by split_and!|]).
  destruct (HasPrefix descriptor "@every "); [|by left; eexists].
  destruct (ParseDuration _) as [d|] eqn:Hp; [|by left; eexists]. right. eexists. split; [done|].
  apply Every_wf. by apply ParseDuration_int in Hp as [_ ?].
Qed.

Lemma lacks_IndexByte s c : lacks c s = true ↔ IndexByte s c = None.
Proof.
  induction s as [|d s IH]; simpl; [done|]. destruct (Ascii.eqb d c); simpl; [by split|].
  rewrite IH. destruct (IndexByte s c); by split.
Qed.

Lemma IndexByte_skip p u c : lacks c p = true → IndexByte (p +:+ u) c = Nat.add (String.length p) <$> IndexByte u c.
Proof.
  induction p as [|d p IH]; simpl; [rewrite str_app_nil; by destruct (IndexByte u c)|]. rewrite andb_true_iff, negb_true_iff.
  intros [Hd Hp]. rewrite Hd, IH by done. by destruct (IndexByte u c).
Qed.

Lemma HasPrefix_app s p : HasPrefix s p = true → ∃ u, s = p +:+ u.
Proof.
  revert s. induction p as [|c p IH]; intros s Hp; [by exists s|]. destruct s as [|d s]; [done|]. simpl in Hp.
  apply andb_true_iff in Hp as [->%Ascii.eqb_eq Hp]. destruct (IH s Hp) as [u ->]. by exists u.
Qed.

Lemma takeLocation_cases zoneinfo spec :
  if (HasPrefix spec "TZ=" || HasPrefix spec "CRON_TZ=") && lacks " " spec then takeLocation zoneinfo spec = panic
  else (∃ e, takeLocation zoneinfo spec = fail e) ∨ ∃ p, takeLocation zoneinfo spec = ok p.
Proof.
  unfold takeLocation. destruct (HasPrefix spec "TZ=" || HasPrefix spec "CRON_TZ=") eqn:Hp; [|right; by eexists].
  destruct (lacks " " spec) eqn:Hl; [by apply lacks_IndexByte in Hl as ->|]. cbn [andb].
  destruct (IndexByte spec " ") as [i|] eqn:Hi; [|apply lacks_IndexByte in Hi; congruence].
  assert (∃ eq, IndexByte spec "=" = Some eq ∧ eq < i)%nat as (eq & -> & Hlt).
  { apply orb_true_iff in Hp as [[u ->]%HasPrefix_app|[u ->]%HasPrefix_app]; rewrite IndexByte_skip in Hi by done;
      (destruct (IndexByte u " ") as [k|]; [|done]); injection Hi as <-.
    - change ("TZ=" +:+ u) with ("TZ" +:+ String "=" u). rewrite IndexByte_app by done. eexists. split; [done|simpl; lia].
    - change ("CRON_TZ=" +:+ u) with ("CRON_TZ" +:+ String "=" u). rewrite IndexByte_app by done.
      eexists. split; [done|simpl; lia]. }
  destruct (Nat.ltb_spec i (eq + 1)); [lia|]. destruct (LoadLocation _ _); [right|left]; by eexists.
Qed.

(** C35: parsing a spec panics exactly when it starts with a time zone prefix
    and has no space; otherwise it ends in an error or a schedule, whose bit
    sets contain only places within the bounds of their fields and the star
    bit, or whose delay is a positive whole number of seconds. *)
Theorem cron_parse_total (zoneinfo : string → option zone) (interval : Z) (spec : string) :
  if (HasPrefix spec "TZ=" || HasPrefix spec "CRON_TZ=") && lacks " " spec
  then Parse zoneinfo interval spec = panic
  else good_result (Parse zoneinfo interval spec).
Proof.
  pose proof (takeLocation_cases zoneinfo spec) as Ht. unfold Parse. destruct spec as [|c spec]; [by left; eexists|].
  set (sp := String c spec) in *. change (String.length sp =? 0)%nat with false. cbn iota.
  destruct (_ && lacks " " sp); [by rewrite Ht|].
  destruct Ht as [[e ->]|[[loc rest] ->]]; [by left; eexists|]. cbn [rbind ok].
  destruct (HasPrefix rest "@").
  - destruct (has interval Interval.Descriptor); [apply parseDescriptor_good|by left; eexists].
  - destruct (normalizeFields_cases (Fields rest) interval) as [[e ->]|(l & -> & Hl)]; [by left; eexists|].
    by apply parseFields_good.
Qed.

(** ** Written specs *)

Definition at_zero : list item := [mkItem (Single (Num 0)) None].

Lemma all_chars_Join P l sep :
  P sep = true → Forall (λ s, all_chars P s = true) l → all_chars P (Join l sep) = true.
Proof.
  intros Hsep. induction 1 as [|s l Hs Hl IH]; [done|]. cbn [Join]. destruct l as [|s' l]; [done|].
  rewrite all_chars_app, Hs. cbn [all_chars andb]. by rewrite Hsep.
Qed.

(** The characters of a field. *)
Definition in_field (c : ascii) : bool := in_item c || Ascii.eqb c ",".

Lemma in_field_word c : in_field c = true → negb (is_space c) && negb (Ascii.eqb c "=") && negb (Ascii.eqb c "@") = true.
Proof.
  unfold in_field. rewrite orb_true_iff. intros [Hc%in_item_word| ->%Ascii.eqb_eq]; [|done].
  rewrite !andb_true_iff in *. tauto.
Qed.

Lemma print_field_chars r l : wf_bounds r → names_ok r → field_ok r l = true →
  print_field l ≠ EmptyString ∧ all_chars in_field (print_field l) = true.
Proof.
  intros Hr Hn. unfold field_ok. rewrite andb_true_iff, negb_true_iff, bool_decide_eq_false. intros [Hne Hl].
  rewrite forallb_forall in Hl. split.
  - destruct l as [|it l]; [done|]. destruct (item_chars r Hr Hn it) as [Hit _]; [apply Hl; by left|].
    unfold print_field. rewrite fmap_cons. cbn [Join]. destruct (print_item <$> l); [done|by apply str_app_nonempty].
  - apply all_chars_Join; [done|]. apply Forall_fmap, list.Forall_forall. intros it Hin%list_elem_of_In.
    eapply all_chars_mono; [|apply (item_chars r Hr Hn it); auto]. intros c Hc. unfold in_field. by rewrite Hc.
Qed.

(** A text of fields has no zone and no descriptor in front, and splits into them. *)
Lemma Parse_fields zoneinfo interval l :
  l ≠ [] → Forall (λ s, s ≠ EmptyString ∧ all_chars in_field s = true) l →
  Parse zoneinfo interval (Join l " ") = (fields <- normalizeFields l interval;; parseFields fields None).
Proof.
  intros Hl Hf. assert (Hall : all_chars (λ c, negb (Ascii.eqb c "=") && negb (Ascii.eqb c "@")) (Join l " ") = true).
  { apply all_chars_Join; [done|]. eapply list.Forall_impl; [exact Hf|]. intros s [_ Hs]. eapply all_chars_mono; [|exact Hs].
    intros c Hc%in_field_word. rewrite !andb_true_iff in *. tauto. }
  assert (Hpre : ∀ p, all_chars (λ c, negb (Ascii.eqb c "=") && negb (Ascii.eqb c "@")) p = false →
    HasPrefix (Join l " ") p = false).
  { intros p Hp. destruct (HasPrefix _ p) eqn:Hpp; [|done]. apply HasPrefix_app in Hpp as [u Hu]. revert Hall.
    by rewrite Hu, all_chars_app, Hp. }
  unfold Parse. rewrite (proj2 (Nat.eqb_neq _ _)).
  - unfold takeLocation. rewrite !Hpre by done. cbn [orb rbind ok]. rewrite Hpre by done.
    unfold Fields. rewrite FieldsFunc_Join; [done|done|]. eapply list.Forall_impl; [exact Hf|]. intros s [Hs Hc].
    split; [done|]. eapply all_chars_mono; [|exact Hc]. intros c Hw%in_field_word. rewrite !andb_true_iff in Hw. simpl. tauto.
  - destruct Hf as [|s l [Hs _] _]; [done|]. cbn [Join]. destruct l; [by destruct s|].
    rewrite str_length_app. by destruct s.
Qed.

(** The bits of a field mean the expressions of a list. *)
Definition field_bits (r : bounds) (l : list item) (bits : Z) : Prop :=
  ∀ i, 0 <= i → Z.testbit bits i = field_has r l i || (i =? 63) && field_star l.

Lemma field_bits_at r l bits i : field_bits r l bits → 0 <= i → i ≠ 63 → bit_set bits i = field_has r l i.
Proof.
  intros Hb Hi Hne. rewrite bit_set_testbit, Hb, (proj2 (Z.eqb_neq _ _)) by done. by rewrite orb_false_r.
Qed.

Lemma field_bits_star r l bits : b_max r < 63 → field_ok r l = true → field_bits r l bits →
  (0 <? Z.land bits starBit) = field_star l.
Proof.
  intros Hr Hok Hb. rewrite land_starBit, Hb by lia. assert (field_has r l 63 = false) as ->; [|done].
  unfold field_ok in Hok. apply andb_true_iff in Hok as [_ Hok]. unfold field_has. clear Hb.
  induction l as [|it l IH]; [done|]. cbn [forallb existsb] in *. apply andb_true_iff in Hok as [Hit Hl].
  rewrite IH by done. rewrite orb_false_r. unfold item_ok, item_has, stepped in *.
  destruct (item_range r it) as [[[a e] k]|]; [|done]. rewrite !andb_true_iff, !Z.leb_le in Hit.
  rewrite (proj2 (Z.leb_gt 63 e)) by lia. by rewrite andb_false_r.
Qed.

(** A schedule whose bits mean the fields of a spec matches the times the spec means. *)
Lemma matches_means s c :
  cron_ok c = true →
  field_bits seconds (c_second c) (s_second s) → field_bits minutes (c_minute c) (s_minute s) →
  field_bits hours (c_hour c) (s_hour s) → field_bits dom (c_dom c) (s_dom s) →
  field_bits months (c_month c) (s_month s) → field_bits dow (c_dow c) (s_dow s) →
  ∀ l, matches s l = cron_means c l.
Proof.
  unfold cron_ok. rewrite !andb_true_iff. intros (((((_ & _) & _) & Hdom) & _) & Hdow) Hs Hm Hh Hd Hmo Hw l.
  unfold matches, cron_means, month_ok, day_ok, hour_ok, minute_ok, second_ok, day_matches, cron_day.
  destruct (month_of_spec (l / 86400)) as (Hmon & Hday & Hday1 & Hday2).
  assert (mday_of (l / 86400) ≠ 63).
  { intros He. pose proof (month_length (year_of (l / 86400)) (month_of (l / 86400)) Hmon). lia. }
  assert (0 <= weekday_of (l / 86400) < 7) by (apply Z.mod_pos_bound; lia).
  rewrite (field_bits_star dom _ _ ltac:(done) Hdom Hd), (field_bits_star dow _ _ ltac:(done) Hdow Hw).
  rewrite (field_bits_at months _ _ _ Hmo), (field_bits_at dom _ _ _ Hd), (field_bits_at dow _ _ _ Hw),
    (field_bits_at hours _ _ _ Hh), (field_bits_at minutes _ _ _ Hm), (field_bits_at seconds _ _ _ Hs);
    try done; clear Hday Hday2; try lia; Z.to_euclidean_division_equations; lia.
Qed.

Lemma parseFields_print c : cron_ok c = true →
  ∃ s, parseFields [print_field (c_second c); print_field (c_minute c); print_field (c_hour c);
                    print_field (c_dom c); print_field (c_month c); print_field (c_dow c)] None = ok (Spec s) ∧
    s_location s = None ∧ ∀ l, matches s l = cron_means c l.
Proof.
  intros Hok. pose proof Hok as Hok'. unfold cron_ok in Hok'. rewrite !andb_true_iff in Hok'.
  destruct Hok' as (((((Hs & Hm) & Hh) & Hd) & Hmo) & Hw). unfold parseFields.
  destruct (getField_print seconds wf_seconds ltac:(done) _ Hs) as (b0 & -> & H0).
  destruct (getField_print minutes wf_minutes ltac:(done) _ Hm) as (b1 & -> & H1).
  destruct (getField_print hours wf_hours ltac:(done) _ Hh) as (b2 & -> & H2).
  destruct (getField_print dom wf_dom ltac:(done) _ Hd) as (b3 & -> & H3).
  destruct (getField_print months wf_months names_months _ Hmo) as (b4 & -> & H4).
  destruct (getField_print dow wf_dow names_dow _ Hw) as (b5 & -> & H5).
  eexists. split; [done|]. split; [done|]. by apply matches_means.
Qed.

Lemma cron_fields_chars c : cron_ok c = true →
  Forall (λ s, s ≠ EmptyString ∧ all_chars in_field s = true)
    [print_field (c_second c); print_field (c_minute c); print_field (c_hour c);
     print_field (c_dom c); print_field (c_month c); print_field (c_dow c)].
Proof.
  unfold cron_ok. rewrite !andb_true_iff. intros (((((Hs & Hm) & Hh) & Hd) & Hmo) & Hw).
  repeat (apply list.Forall_cons; split; [eapply print_field_chars; [| |eassumption]; (done || auto with cron)|]). by constructor.
Qed.

(** C18: a written spec parses to its meaning.  The parser with seconds accepts
    the six fields of any spec whose numbers are within their bounds, the
    standard parser the five fields without the seconds, which stand for second
    0; the schedule has the local zone and matches exactly the seconds that the
    expressions mean. *)
Theorem cron_roundtrip (zoneinfo : string → option zone) (c : cron) :
  cron_ok c = true →
  (∃ s, NewParseWithSecondParser zoneinfo (print_six c) = ok (Spec s) ∧
     s_location s = None ∧ ∀ l, matches s l = cron_means c l) ∧
  (c_second c = at_zero →
   ∃ s, NewParseWithStandard zoneinfo (print_five c) = ok (Spec s) ∧
     s_location s = None ∧ ∀ l, matches s l = cron_means c l).
Proof.
  intros Hok. pose proof (cron_fields_chars c Hok) as Hf. split.
  - unfold NewParseWithSecondParser, print_six. change secondParser with (Some 445). cbn iota. rewrite Parse_fields by done.
    exact (parseFields_print c Hok).
  - intros Hz. unfold NewParseWithStandard, print_five. change standardParser with (Some 380). cbn iota.
    apply list.Forall_cons in Hf as [_ Hf]. rewrite Parse_fields by done.
    destruct (parseFields_print c Hok) as (s & Hs & Hl). exists s. split; [|done]. by rewrite <- Hs, Hz.
Qed.

Lemma cron_roundtrip_witness :
  let c := mkCron at_zero [mkItem Star (Some 15)] [mkItem (Span (Num 9) (Num 17)) None]
             [mkItem Star None] [mkItem Question None] [mkItem (Span (Name "Mon") (Name "fri")) None] in
  print_five c = "*/15 9-17 * ? Mon-fri"%string ∧
  (∃ s, NewParseWithSecondParser (λ _, None) (print_six c) = ok (Spec s) ∧
     s_location s = None ∧ ∀ l, matches s l = cron_means c l) ∧
  (∃ s, NewParseWithStandard (λ _, None) (print_five c) = ok (Spec s) ∧
     s_location s = None ∧ ∀ l, matches s l = cron_means c l).
Proof.
  intros c. split; [reflexivity|].
  destruct (cron_roundtrip (λ _, None) c ltac:(vm_compute; reflexivity)) as [H6 H5].
  split; [exact H6|]. apply H5. reflexivity.
Defined.

(** ** The next activation *)

Definition schedule_zone (s : SpecSchedule) (t : time) : zone := default (t_loc t) (s_location s).

(** C11: in a zone of constant offset, a whole number of minutes from UTC,
    [Next] ends, and returns the first second after [t] that the schedule
    matches, as a whole second in [t]'s own zone, or the zero time when no
    second until the end of the fifth year after matches. *)
Theorem cron_next (s : SpecSchedule) (t : time) (off : Z) :
  fixed (schedule_zone s t) off → off mod 60 = 0 → 0 <= t_nsec t < 1000000000 →
  ∃ r, Next s t = inr r ∧
    let limit := year_of ((t_sec t + 1 + off) / 86400) + 5 in
    match r with
    | Some t' =>
        t_loc t' = t_loc t ∧ t_nsec t' = 0 ∧ t_sec t < t_sec t' ∧ year_of ((t_sec t' + off) / 86400) <= limit ∧
        matches s (t_sec t' + off) = true ∧
        ∀ x, t_sec t < x < t_sec t' → matches s (x + off) = false
    | None => ∀ x, t_sec t < x → year_of ((x + off) / 86400) <= limit → matches s (x + off) = false
    end.
Proof.
  intros Hz Hoff Hns. unfold Next. set (z := schedule_zone s t) in *.
  assert (∃ u, (match s_location s with None => t | Some z => In t z end) = mkTime (t_sec t) (t_nsec t) u ∧ u = z)
    as (u & -> & ->).
  { unfold z, schedule_zone. destruct (s_location s); eexists; split; [done|done| |done]. by destruct t. }
  assert (match s_location s with None => t_loc t | Some z => z end = z) as -> by (unfold z, schedule_zone; by destruct (s_location s)).
  assert (Add (mkTime (t_sec t) (t_nsec t) z) (nanos 1 - Nanosecond (mkTime (t_sec t) (t_nsec t) z)) =
          at_local z off (t_sec t + 1 + off)) as ->.
  { unfold Add, at_local, Nanosecond, nanos. cbn [t_nsec t_sec t_loc].
    replace (t_nsec t + (1 * 1000000000 - t_nsec t)) with 1000000000 by lia. f_equal.
    rewrite Z.div_same by lia. lia. }
  assert (Year (at_local z off (t_sec t + 1 + off)) = year_of ((t_sec t + 1 + off) / 86400)) as ->
    by (unfold Year, local_day; by rewrite (local_at z off Hz)).
  destruct (loop_first_match s z off _ (t_sec t + 1 + off) Hz Hoff eq_refl) as (r & -> & Hr).
  eexists. split; [done|]. destruct r as [t'|]; cbn [fmap option_fmap option_map].
  - destruct Hr as (l & -> & Hl & Hm & Hy & Hfirst). unfold In, at_local. cbn [t_sec t_nsec t_loc].
    replace (l - off + off) with l by lia. split_and!; try done; [lia|]. intros x Hx. apply Hfirst. lia.
  - intros x Hx Hy. apply Hr; [lia|done].
Qed.

Lemma cron_next_witness :
  let s := mkSpec 1 1 1 (2 ^ 29) (2 ^ 2) (Z.lor 127 starBit) None in
  let t := mkTime (unix_epoch + 1677628800) 5 UTC in
  ∃ r, Next s t = inr r ∧
    let limit := year_of ((t_sec t + 1 + 0) / 86400) + 5 in
    match r with
    | Some t' =>
        t_loc t' = t_loc t ∧ t_nsec t' = 0 ∧ t_sec t < t_sec t' ∧ year_of ((t_sec t' + 0) / 86400) <= limit ∧
        matches s (t_sec t' + 0) = true ∧
        ∀ x, t_sec t < x < t_sec t' → matches s (x + 0) = false
    | None => ∀ x, t_sec t < x → year_of ((x + 0) / 86400) <= limit → matches s (x + 0) = false
    end.
Proof. intros s t. apply (cron_next s t 0); [intros u; reflexivity|reflexivity|split; [discriminate|reflexivity]]. Defined.

(** The leap day that this schedule waits for. *)
Example cron_next_leap_day :
  Next (mkSpec 1 1 1 (2 ^ 29) (2 ^ 2) (Z.lor 127 starBit) None) (mkTime (unix_epoch + 1677628800) 5 UTC) =
  inr (Some (mkTime (unix_epoch + 1709164800) 0 UTC)).
Proof. vm_compute. reflexivity. Qed.

(** A delay runs from the second that [t] is in, so the next time is a whole second. *)
Lemma delay_Next_whole d t : wf_schedule (ConstantDelay d) → 0 <= t_nsec t < 1000000000 →
  delay_Next d t = mkTime (t_sec t + Delay d / 1000000000) 0 (t_loc t) ∧ t_sec t < t_sec (delay_Next d t).
Proof.
  unfold wf_schedule, nanos, delay_Next, Add, Nanosecond. cbn [t_sec]. intros [Hd Hm] Hns.
  replace (t_nsec t + (Delay d - t_nsec t)) with (Delay d) by lia. rewrite Z.mul_1_l in *. rewrite Hm.
  split; [done|]. Z.to_euclidean_division_equations. lia.
Qed.

(** ** What the parser accepts *)

(** A zone without a spec panics. *)
Example parse_zone_alone : NewParseWithStandard (λ _, None) "TZ=UTC" = panic.
Proof. reflexivity. Qed.

(** A field of separators only is accepted and matches nothing. *)
Example parse_empty_list :
  ∃ s, NewParseWithStandard (λ _, None) ", * * * *" = ok (Spec s) ∧ ∀ l, matches s l = false.
Proof.
  eexists. split; [vm_compute; reflexivity|]. intros l. unfold matches, minute_ok, bit_set.
  cbn [s_minute]. rewrite Z.land_0_r. by rewrite !andb_false_r.
Qed.

(** Whatever follows the hyphen of a star is ignored. *)
Example parse_star_hyphen : getRange "*-x" minutes = getRange "*" minutes.
Proof. vm_compute. reflexivity. Qed.
