(* ===== verification/Atomic.v ===== *)
(** * Atomic objects

    What a concurrent object promises: that in every interleaving its calls and
    returns are those of an object whose operations take effect at one moment
    between their call and their return.  The file holds executions and the
    calls and returns they show, the atomic object of a sequential operation,
    and the steps of it that a proof by backward simulation composes. *)

From stdpp Require Import functions.
From S2P Require Import Prelude.

(** ** Executions: the calls and returns they show *)

Section exec.
Context {S L : Type} (st : S → option L → S → Prop).

Inductive exec : S → list L → S → Prop :=
  | exec_nil s : exec s [] s
  | exec_inner s s' ls s'' : st s None s' → exec s' ls s'' → exec s ls s''
  | exec_label s l s' ls s'' : st s (Some l) s' → exec s' ls s'' → exec s (l :: ls) s''.

Lemma exec_app s ls s' ls' s'' : exec s ls s' → exec s' ls' s'' → exec s (ls ++ ls') s''.
Proof. induction 1; intros; simpl; [done|eapply exec_inner|eapply exec_label]; eauto. Qed.

Definition shown (lb : option L) : list L := match lb with None => [] | Some l => [l] end.

Lemma exec_one s lb s' : st s lb s' → exec s (shown lb) s'.
Proof. intros Hst. destruct lb; [eapply exec_label|eapply exec_inner]; eauto using exec_nil. Qed.
End exec.

(** ** The atomic object *)

Section object.
Context {A O R : Type} (apply_op : O → A → A * R).

Inductive label := Call (t : nat) (o : O) | Return (t : nat) (r : R) | Panic (t : nat).
Inductive status := SIdle | SPending (o : O) | SDone (r : R).
Record aconfig := mkAbs { contents : A; statuses : nat → status }.

(** Goroutine [t] goes from one status to another, the others stay. *)
Definition moves (a a' : aconfig) (t : nat) (s s' : status) : Prop :=
  statuses a t = s ∧ statuses a' t = s' ∧ ∀ t', t' ≠ t → statuses a' t' = statuses a t'.

Inductive astep : aconfig → option label → aconfig → Prop :=
  | astep_call a a' t o :
      moves a a' t SIdle (SPending o) → contents a' = contents a → astep a (Some (Call t o)) a'
  | astep_apply a a' t o r :
      moves a a' t (SPending o) (SDone r) → (contents a', r) = apply_op o (contents a) → astep a None a'
  | astep_return a a' t r :
      moves a a' t (SDone r) SIdle → contents a' = contents a → astep a (Some (Return t r)) a'.

(** States with the same contents and statuses have the same executions. *)
Definition same (a b : aconfig) : Prop := contents a = contents b ∧ ∀ t, statuses a t = statuses b t.

(** ** Operations that only look

    Any number of goroutines whose operation leaves the contents alone may take
    effect at the same moment. *)

Definition looks (x : A) (s s' : status) : Prop :=
  s = s' ∨ ∃ o r, s = SPending o ∧ s' = SDone r ∧ apply_op o x = (x, r).

Lemma look_exec (n : nat) (a a' : aconfig) :
  contents a' = contents a → (∀ t, looks (contents a) (statuses a t) (statuses a' t)) →
  (∀ t, n <= t → statuses a t = statuses a' t) →
  ∃ a1, same a' a1 ∧ exec astep a [] a1.
Proof.
  revert a. induction n as [|n IH]; intros a Hc Hl Hn.
  { exists a. split; [|constructor]. split; [done|]. intros t. symmetry. apply Hn. lia. }
  destruct (Hl n) as [Heq|(o & r & Ho & Hr & Happ)].
  { apply IH; [done|done|]. intros t Ht. destruct (decide (t = n)) as [->|]; [done|]. apply Hn. lia. }
  set (b := mkAbs (contents a) (<[n := SDone r]> (statuses a))).
  destruct (IH b) as (a1 & Hsame & Hex); simpl.
  - done.
  - intros t. destruct (decide (t = n)) as [->|].
    + rewrite fn_lookup_insert, Hr. by left.
    + rewrite fn_lookup_insert_ne by done. apply Hl.
  - intros t Ht. destruct (decide (t = n)) as [->|]; [by rewrite fn_lookup_insert|].
    rewrite fn_lookup_insert_ne by done. apply Hn. lia.
  - exists a1. split; [done|]. eapply exec_inner; [|exact Hex]. eapply (astep_apply a b n o r).
    + split; [done|]. split; [apply fn_lookup_insert|]. intros t' Ht. by apply fn_lookup_insert_ne.
    + by rewrite Happ.
Qed.


Lemma moves_same a a' b t s s' : same a b → moves a a' t s s' → moves b a' t s s'.
Proof. intros [_ Hs] (H1 & H2 & H3). split_and!; [by rewrite <- Hs|done|]. intros u Hu. rewrite <- Hs. auto. Qed.

Lemma astep_same a lb a' b : same a b → astep a lb a' → astep b lb a'.
Proof.
  intros Hs Hst. assert (contents a = contents b) as Hc by apply Hs.
  destruct Hst as [a a' t o Hm He|a a' t o r Hm He|a a' t r Hm He].
  - eapply astep_call; [by eapply moves_same|congruence].
  - eapply astep_apply; [by eapply moves_same|by rewrite <- Hc].
  - eapply astep_return; [by eapply moves_same|congruence].
Qed.

Lemma exec_same a ls a' b : same a b → exec astep a ls a' → ∃ b', same a' b' ∧ exec astep b ls b'.
Proof.
  intros Hs Hex. destruct Hex as [a|a a1 ls a' Hst Hex|a l a1 ls a' Hst Hex].
  - exists b. split; [done|constructor].
  - exists a'. split; [done|]. eapply exec_inner; [by eapply astep_same|done].
  - exists a'. split; [done|]. eapply exec_label; [by eapply astep_same|done].
Qed.
End object.

Arguments label : clear implicits.
Arguments status : clear implicits.
Arguments aconfig : clear implicits.
