(* ===== verification/LKQueue.v ===== *)
(** * The lock-free queue

    Model of sys/queue: [Enqueue] and [Dequeue] as programs of atomic steps
    over a shared list of nodes, one step per atomic load, compare-and-swap or
    read of a node, run by any number of goroutines in any interleaving.  The
    atomic operations of Go are sequentially consistent; a node is never freed
    while a goroutine refers to it, so the places of nodes are not reused.  The
    file also states what the queue promises: an atomic queue whose operations
    take effect at one moment between their call and their return. *)

From stdpp Require Import functions.
From S2P Require Import Prelude Atomic.

Section queue.
(** The values, [interface{}] in the source, and nil. *)
Context {V : Type} (nil : V).

(** ** The shared state *)

Record node := mkNode { value : V; next : option nat }.
Record LKQueue := mkQueue { head : nat; tail : nat; nodes : list node }.

Definition NewLKQueue : LKQueue := mkQueue 0 0 [mkNode nil None].

Definition set_head (l : nat) (q : LKQueue) : LKQueue := mkQueue l (tail q) (nodes q).
Definition set_tail (l : nat) (q : LKQueue) : LKQueue := mkQueue (head q) l (nodes q).
Definition set_next (l : nat) (n : nat) (q : LKQueue) : LKQueue :=
  mkQueue (head q) (tail q) (alter (λ x, mkNode (value x) (Some n)) l (nodes q)).
Definition load_next (q : LKQueue) (l : nat) : option (option nat) := next <$> nodes q !! l.

(** ** The two operations *)

Inductive op := Enq (v : V) | Deq.
Inductive res := RUnit | RVal (v : V).

(** Where a goroutine is, with its local variables. *)
Inductive pc :=
  | Idle
  | EnqLoadTail (n : nat)
  | EnqLoadNext (n tl : nat)
  | EnqCheck (n tl : nat) (nx : option nat)
  | EnqCasNext (n tl : nat)
  | EnqSwing (n tl : nat)
  | EnqHelp (n tl nx : nat)
  | DeqLoadHead
  | DeqLoadTail (hd : nat)
  | DeqLoadNext (hd tl : nat)
  | DeqCheck (hd tl : nat) (nx : option nat)
  | DeqHelp (tl nx : nat)
  | DeqRead (hd nx : nat)
  | DeqCasHead (hd nx : nat) (v : V)
  | Returned (r : res).

(** One atomic step of an operation; [None] is the panic on a nil pointer, and
    no step for a goroutine that is not in an operation. *)
Definition thread_step (q : LKQueue) (p : pc) : option (LKQueue * pc) :=
  match p with
  | Idle | Returned _ => None
  | EnqLoadTail n => Some (q, EnqLoadNext n (tail q))
  | EnqLoadNext n tl => nx ← load_next q tl; Some (q, EnqCheck n tl nx)
  | EnqCheck n tl nx =>
      if decide (tl = tail q) then
        match nx with
        | None => Some (q, EnqCasNext n tl)
        | Some nx => Some (q, EnqHelp n tl nx)
        end
      else Some (q, EnqLoadTail n)
  | EnqCasNext n tl =>
      nx ← load_next q tl;
      match nx with
      | None => Some (set_next tl n q, EnqSwing n tl)
      | Some _ => Some (q, EnqLoadTail n)
      end
  | EnqSwing n tl => Some (if decide (tail q = tl) then set_tail n q else q, Returned RUnit)
  | EnqHelp n tl nx => Some (if decide (tail q = tl) then set_tail nx q else q, EnqLoadTail n)
  | DeqLoadHead => Some (q, DeqLoadTail (head q))
  | DeqLoadTail hd => Some (q, DeqLoadNext hd (tail q))
  | DeqLoadNext hd tl => nx ← load_next q hd; Some (q, DeqCheck hd tl nx)
  | DeqCheck hd tl nx =>
      if decide (hd = head q) then
        if decide (hd = tl) then
          match nx with
          | None => Some (q, Returned (RVal nil))
          | Some nx => Some (q, DeqHelp tl nx)
          end
        else nx ← nx; Some (q, DeqRead hd nx)
      else Some (q, DeqLoadHead)
  | DeqHelp tl nx => Some (if decide (tail q = tl) then set_tail nx q else q, DeqLoadHead)
  | DeqRead hd nx => x ← nodes q !! nx; Some (q, DeqCasHead hd nx (value x))
  | DeqCasHead hd nx v =>
      if decide (head q = hd) then Some (set_head nx q, Returned (RVal v)) else Some (q, DeqLoadHead)
  end.

(** The call of an operation: [Enqueue] allocates its node. *)
Definition start (o : op) (q : LKQueue) : LKQueue * pc :=
  match o with
  | Enq v => (mkQueue (head q) (tail q) (nodes q ++ [mkNode v None]), EnqLoadTail (length (nodes q)))
  | Deq => (q, DeqLoadHead)
  end.

(** ** Interleavings

    Goroutines are numbered. *)

Record config := mkConfig { shared : LKQueue; threads : nat → pc }.
Definition initial : config := mkConfig NewLKQueue (λ _, Idle).

Inductive step : config → option (label op res) → config → Prop :=
  | step_call c t o :
      threads c t = Idle →
      step c (Some (Call t o)) (mkConfig (start o (shared c)).1 (<[t := (start o (shared c)).2]> (threads c)))
  | step_inner c t q p :
      thread_step (shared c) (threads c t) = Some (q, p) → step c None (mkConfig q (<[t := p]> (threads c)))
  | step_panic c t :
      threads c t ≠ Idle → (∀ r, threads c t ≠ Returned r) → thread_step (shared c) (threads c t) = None →
      step c (Some (Panic t)) c
  | step_return c t r :
      threads c t = Returned r → step c (Some (Return t r)) (mkConfig (shared c) (<[t := Idle]> (threads c))).

(** ** The atomic queue *)

Definition apply_op (o : op) (l : list V) : list V * res :=
  match o, l with
  | Enq v, _ => (l ++ [v], RUnit)
  | Deq, [] => ([], RVal nil)
  | Deq, v :: l => (l, RVal v)
  end.

Definition ainitial (a : aconfig (list V) op res) : Prop := contents a = [] ∧ ∀ t, statuses a t = SIdle.
End queue.
