(* ===== verification/LKQueueThms.v ===== *)
(** * The lock-free queue: its invariant

    The nodes reached from the first dummy form a chain that only grows at its
    end; the head and the tail move along it, the head never passes the tail and
    the tail is at most one node behind.  What a goroutine remembers of the chain
    stays true whatever the others do. *)

From stdpp Require Import functions.
From S2P Require Import Prelude Atomic LKQueue.

Section inv.
Context {V : Type} (nil : V).
Implicit Types (q : LKQueue (V:=V)) (p : pc (V:=V)) (c : config (V:=V)).

(** The chain and the places of head and tail in it. *)
Record ghost := mkGhost { chain : list nat; hi : nat; ti : nat }.

Record shared_inv (g : ghost) q : Prop := {
  si_nodup : NoDup (chain g);
  si_head : chain g !! hi g = Some (head q);
  si_tail : chain g !! ti g = Some (tail q);
  si_le : hi g <= ti g;
  si_lag : length (chain g) <= ti g + 2;
  si_next : ∀ i l, chain g !! i = Some l → load_next q l = Some (chain g !! S i) }.

Definition value_of q (l : nat) : option V := value <$> nodes q !! l.

(** What a goroutine knows. *)
Definition thread_inv (g : ghost) q p : Prop :=
  match p with
  | Idle | Returned _ | EnqLoadTail _ | DeqLoadHead => True
  | EnqLoadNext _ tl | EnqCasNext _ tl => ∃ i, i <= ti g ∧ chain g !! i = Some tl
  | EnqCheck _ tl nx => ∃ i, i <= ti g ∧ chain g !! i = Some tl ∧ ∀ x, nx = Some x → chain g !! S i = Some x
  | EnqSwing x tl | EnqHelp _ tl x | DeqHelp tl x => ∃ i, chain g !! i = Some tl ∧ chain g !! S i = Some x
  | DeqLoadTail hd => ∃ i, i <= hi g ∧ chain g !! i = Some hd
  | DeqLoadNext hd tl =>
      ∃ i j, i <= hi g ∧ i <= j <= ti g ∧ chain g !! i = Some hd ∧ chain g !! j = Some tl
  | DeqCheck hd tl nx =>
      ∃ i j, i <= hi g ∧ i <= j <= ti g ∧ chain g !! i = Some hd ∧ chain g !! j = Some tl ∧
             match nx with None => i = j | Some x => chain g !! S i = Some x end
  | DeqRead hd x => ∃ i, S i <= ti g ∧ chain g !! i = Some hd ∧ chain g !! S i = Some x
  | DeqCasHead hd x v =>
      ∃ i, S i <= ti g ∧ chain g !! i = Some hd ∧ chain g !! S i = Some x ∧ value_of q x = Some v
  end.

(** The node that a goroutine has allocated and not yet linked. *)
Definition owned p : option nat :=
  match p with
  | EnqLoadTail n | EnqLoadNext n _ | EnqCheck n _ _ | EnqCasNext n _ | EnqHelp n _ _ => Some n
  | _ => None
  end.

Record Inv (g : ghost) c : Prop := {
  inv_shared : shared_inv g (shared c);
  inv_thread : ∀ t, thread_inv g (shared c) (threads c t);
  inv_owned : ∀ t n, owned (threads c t) = Some n → (n ∉ chain g) ∧ load_next (shared c) n = Some None;
  inv_distinct : ∀ t t' n, owned (threads c t) = Some n → owned (threads c t') = Some n → t = t' }.

Definition ghost0 : ghost := mkGhost [0] 0 0.

Lemma Inv_initial : Inv ghost0 (initial nil).
Proof.
  split; [split; simpl; try done; try lia|done|done|done].
  - apply NoDup_singleton.
  - intros [|i] l; simpl; [by intros [= <-]|done].
Qed.

(** ** The state only grows *)

Record ext (g g' : ghost) q q' : Prop := {
  ext_chain : chain g `prefix_of` chain g';
  ext_hi : hi g <= hi g';
  ext_ti : ti g <= ti g';
  ext_value : ∀ l v, value_of q l = Some v → value_of q' l = Some v }.

Lemma ext_refl g q : ext g g q q.
Proof. by split. Qed.

Lemma ext_lookup g g' q q' i l : ext g g' q q' → chain g !! i = Some l → chain g' !! i = Some l.
Proof. intros He Hi. eapply prefix_lookup_Some; [done|apply He]. Qed.

(** Places in the chain stay what they are. *)
Ltac lift_chain He :=
  repeat match goal with H : chain _ !! _ = Some _ |- _ => apply (ext_lookup _ _ _ _ _ _ He) in H end.

Lemma thread_inv_ext g g' q q' p : ext g g' q q' → thread_inv g q p → thread_inv g' q' p.
Proof.
  intros He. pose proof (ext_hi _ _ _ _ He). pose proof (ext_ti _ _ _ _ He).
  destruct p; simpl; try done; intros Hp; destr_hyps; lift_chain He;
    try match goal with x : nat |- _ => exists x; split_and!; (done || lia) end.
  - exists x. split_and!; [lia|done|]. intros y Hy. eapply ext_lookup; eauto.
  - exists x, x0. split_and!; (done || lia).
  - exists x, x0. split_and!; try (done || lia). destruct nx; [eapply ext_lookup; eauto|done].
  - exists x. split_and!; try (done || lia). by eapply ext_value.
Qed.

(** ** One goroutine moves *)

Lemma Inv_step g g' c t q' p' :
  Inv g c → shared_inv g' q' → ext g g' (shared c) q' → thread_inv g' q' p' →
  (∀ n, owned p' = Some n → (n ∉ chain g') ∧ load_next q' n = Some None ∧
        ∀ t', t' ≠ t → owned (threads c t') ≠ Some n) →
  (∀ t' n, t' ≠ t → owned (threads c t') = Some n → (n ∉ chain g') ∧ load_next q' n = Some None) →
  Inv g' (mkConfig q' (<[t := p']> (threads c))).
Proof.
  intros HI Hs He Ht Ho Ho'. split; simpl; [done| | |].
  - intros t'. destruct (decide (t' = t)) as [->|]; [by rewrite fn_lookup_insert|].
    rewrite fn_lookup_insert_ne by done. eapply thread_inv_ext; [done|apply HI].
  - intros t' n. destruct (decide (t' = t)) as [->|]; [rewrite fn_lookup_insert|rewrite fn_lookup_insert_ne by done].
    + intros Hn. destruct (Ho n Hn) as (? & ? & _). done.
    + by apply Ho'.
  - intros t1 t2 n. destruct (decide (t1 = t)) as [->|], (decide (t2 = t)) as [->|];
      rewrite ?fn_lookup_insert, ?fn_lookup_insert_ne by done; try done.
    + intros H1 H2. destruct (Ho n H1) as (_ & _ & Hne). by destruct (Hne t2).
    + intros H1 H2. destruct (Ho n H2) as (_ & _ & Hne). by destruct (Hne t1).
    + apply HI.
Qed.

(** ** The abstraction *)

Definition vals q (ls : list nat) : list V := omap (value_of q) ls.
Definition queued (g : ghost) q : list V := vals q (drop (S (hi g)) (chain g)).

(** A dequeue that has seen its head without successor may already have
    answered nil, as long as the head has not moved. *)
Definition match_status q p (s : status (op (V:=V)) (res (V:=V))) : Prop :=
  match p with
  | Idle => s = SIdle
  | Returned r => s = SDone r
  | EnqSwing _ _ => s = SDone RUnit
  | DeqCheck hd tl None => s = SPending Deq ∨ hd = tl ∧ head q = hd ∧ s = SDone (RVal nil)
  | DeqLoadHead | DeqLoadTail _ | DeqLoadNext _ _ | DeqCheck _ _ _ | DeqHelp _ _ | DeqRead _ _ | DeqCasHead _ _ _ =>
      s = SPending Deq
  | EnqLoadTail n | EnqLoadNext n _ | EnqCheck n _ _ | EnqCasNext n _ | EnqHelp n _ _ =>
      ∃ v, value_of q n = Some v ∧ s = SPending (Enq v)
  end.

Record abs (g : ghost) c (a : aconfig (list V) (op (V:=V)) (res (V:=V))) : Prop := {
  abs_contents : contents a = queued g (shared c);
  abs_status : ∀ t, match_status (shared c) (threads c t) (statuses a t) }.

Lemma load_value q n x : load_next q n = Some x → ∃ v, value_of q n = Some v.
Proof. unfold load_next, value_of. destruct (nodes q !! n) as [y|]; [|done]. by exists (value y). Qed.

(** The status of a goroutine that does not move, seen from before the step. *)
Lemma match_back g g' q q' p s :
  shared_inv g q → shared_inv g' q' → ext g g' q q' → thread_inv g q p →
  (∀ n, owned p = Some n → load_next q n = Some None) →
  match_status q' p s → match_status q p s.
Proof.
  intros Hs Hs' He Hp Hown.
  assert (Hval : ∀ n, owned p = Some n → (∃ v, value_of q' n = Some v ∧ s = SPending (Enq v)) →
    ∃ v, value_of q n = Some v ∧ s = SPending (Enq v)).
  { intros n Hn (v & Hv & ->). exists v. split; [|done]. destruct (load_value q n None (Hown n Hn)) as [w Hw].
    pose proof (ext_value _ _ _ _ He n w Hw). congruence. }
  destruct p as [| | | | | | | | | |hd tl [x|]| | | |]; simpl; try done; try by apply Hval.
  intros [->|(-> & Hhd & ->)]; [by left|]. right. split_and!; [done| |done]. simpl in Hp.
  destruct Hp as (i & j & Hi & _ & Hci & _ & ->). pose proof (ext_hi _ _ _ _ He) as Hhi.
  apply (ext_lookup _ _ _ _ _ _ He) in Hci as Hci'. pose proof (si_head _ _ Hs') as Hh'. rewrite Hhd in Hh'.
  assert (j = hi g') as -> by (eapply NoDup_lookup; [apply Hs'|done|done]).
  pose proof (si_head _ _ Hs) as Hh. assert (hi g' = hi g) as Heq by lia. rewrite Heq in Hci. congruence.
Qed.

Lemma abs_others g g' c q' t p' a' :
  Inv g c → shared_inv g' q' → ext g g' (shared c) q' → abs g' (mkConfig q' (<[t := p']> (threads c))) a' →
  ∀ t', t' ≠ t → match_status (shared c) (threads c t') (statuses a' t').
Proof.
  intros HI Hs He Ha t' Hne. pose proof (abs_status _ _ _ Ha t') as Hm. simpl in Hm.
  rewrite fn_lookup_insert_ne in Hm by done. eapply match_back; [apply HI|done|done|apply HI| |done].
  intros n Hn. by destruct (inv_owned _ _ HI t' n Hn).
Qed.

(** The state before, with the status [s] for the goroutine that moves. *)
Definition before (a' : aconfig (list V) (op (V:=V)) (res (V:=V))) (t : nat) (s : status op res) (l : list V) :
    aconfig (list V) op res := mkAbs l (<[t := s]> (statuses a')).

Lemma before_moves a' t s l : moves (before a' t s l) a' t s (statuses a' t).
Proof.
  split_and!; simpl; [by rewrite fn_lookup_insert|done|]. intros t' Hne. by rewrite fn_lookup_insert_ne.
Qed.

Lemma before_abs g g' c q' t p' a' s :
  Inv g c → shared_inv g' q' → ext g g' (shared c) q' → abs g' (mkConfig q' (<[t := p']> (threads c))) a' →
  match_status (shared c) (threads c t) s → abs g c (before a' t s (queued g (shared c))).
Proof.
  intros HI Hs He Ha Hm. split; [done|]. intros t'. simpl. destruct (decide (t' = t)) as [->|].
  - by rewrite fn_lookup_insert.
  - rewrite fn_lookup_insert_ne by done. by eapply abs_others.
Qed.

Lemma same_abs g g' c q' t p' a' :
  Inv g c → shared_inv g' q' → ext g g' (shared c) q' → abs g' (mkConfig q' (<[t := p']> (threads c))) a' →
  queued g' q' = queued g (shared c) →
  match_status (shared c) (threads c t) (statuses a' t) → abs g c a'.
Proof.
  intros HI Hs He Ha Hq Hm. split; [by rewrite <- Hq; apply Ha|]. intros t'.
  destruct (decide (t' = t)) as [->|]; [done|]. by eapply abs_others.
Qed.
End inv.

(** * The lock-free queue: simulation

    Every step of a goroutine preserves the invariant and corresponds to at
    most one step of the atomic queue.  The correspondence is read backwards:
    each abstract state that fits the state after a step is reached from one
    that fits the state before. *)

Section sim.
Context {V : Type} (nil : V).
Implicit Types (q : LKQueue (V:=V)) (p : pc (V:=V)) (c : config (V:=V)) (lb : option (label (op (V:=V)) (res (V:=V)))).

Definition astep_opt (a : aconfig (list V) (op (V:=V)) (res (V:=V))) lb (a' : aconfig (list V) (op (V:=V)) (res (V:=V))) : Prop :=
  match lb with None => a = a' ∨ astep (apply_op nil) a None a' | Some _ => astep (apply_op nil) a lb a' end.

Definition simulated g c lb g' c' : Prop :=
  Inv g' c' ∧ ∀ a', abs nil g' c' a' → ∃ a, abs nil g c a ∧ astep_opt a lb a'.

(** ** Facts about places *)

Section places.
Context (g : ghost) (q : LKQueue (V:=V)) (Hs : shared_inv g q).

Lemma ti_length : ti g < length (chain g).
Proof using Hs. apply lookup_lt_is_Some. eexists. apply Hs. Qed.

Lemma place_head i : chain g !! i = Some (head q) → i = hi g.
Proof using Hs. intros Hi. eapply NoDup_lookup; [apply Hs|done|apply Hs]. Qed.

Lemma place_tail i : chain g !! i = Some (tail q) → i = ti g.
Proof using Hs. intros Hi. eapply NoDup_lookup; [apply Hs|done|apply Hs]. Qed.

Lemma place_last i : i < length (chain g) → chain g !! S i = None → S i = length (chain g).
Proof using. intros Hi Hn. apply lookup_ge_None in Hn. lia. Qed.
End places.

(** ** Steps that leave the queue alone *)

Lemma quiet_step g c t p' :
  Inv g c → thread_inv g (shared c) p' → (∀ n, owned p' = Some n → owned (threads c t) = Some n) →
  (∀ s, match_status nil (shared c) p' s → match_status nil (shared c) (threads c t) s) →
  simulated g c None g (mkConfig (shared c) (<[t := p']> (threads c))).
Proof.
  intros HI Hp Ho Hm. split.
  - eapply Inv_step; [done|apply HI|apply ext_refl|done| |].
    + intros n Hn. apply Ho in Hn. destruct (inv_owned _ _ HI t n Hn). split_and!; [done|done|].
      intros t' Hne Hn'. apply Hne. by eapply (inv_distinct _ _ HI).
    + intros t' n _. apply HI.
  - intros a' Ha. exists a'. split; [|by left]. eapply same_abs; [done|apply HI|apply ext_refl|done|done|].
    apply Hm. pose proof (abs_status _ _ _ _ Ha t) as Hst. simpl in Hst. by rewrite fn_lookup_insert in Hst.
Qed.

(** ** The tail moves to the next node *)

Lemma set_tail_shared g q i x :
  shared_inv g q → chain g !! i = Some (tail q) → chain g !! S i = Some x →
  shared_inv (mkGhost (chain g) (hi g) (S i)) (set_tail x q) ∧ ext g (mkGhost (chain g) (hi g) (S i)) q (set_tail x q).
Proof.
  intros Hs Hi Hx. pose proof (place_tail _ _ Hs _ Hi) as ->. destruct Hs. split; split; simpl; try done; try lia.
Qed.

Lemma tail_step g c t i x p' :
  Inv g c → chain g !! i = Some (tail (shared c)) → chain g !! S i = Some x →
  (∀ g' q', thread_inv g' q' p') → (∀ n, owned p' = Some n → owned (threads c t) = Some n) →
  (∀ s, match_status nil (shared c) p' s → match_status nil (shared c) (threads c t) s) →
  ∃ g', simulated g c None g' (mkConfig (set_tail x (shared c)) (<[t := p']> (threads c))).
Proof.
  intros HI Hi Hx Hp Ho Hm. destruct (set_tail_shared g (shared c) i x (inv_shared _ _ HI) Hi Hx) as [Hs He].
  eexists. split.
  - eapply Inv_step; [done|exact Hs|done|apply Hp| |].
    + intros n Hn. apply Ho in Hn. destruct (inv_owned _ _ HI t n Hn). split_and!; [done|done|].
      intros t' Hne Hn'. apply Hne. by eapply (inv_distinct _ _ HI).
    + intros t' n _. apply HI.
  - intros a' Ha. exists a'. split; [|by left]. eapply same_abs; [done|exact Hs|done|done|done|].
    apply Hm. pose proof (abs_status _ _ _ _ Ha t) as Hst. simpl in Hst. rewrite fn_lookup_insert in Hst.
    by destruct p' as [| | | | | | | | | |? ? []| | | |].
Qed.

(** A compare-and-swap of the tail, whether it succeeds or not. *)
Lemma swing_step g c t i tl x p' :
  Inv g c → chain g !! i = Some tl → chain g !! S i = Some x →
  (∀ g' q', thread_inv g' q' p') → (∀ n, owned p' = Some n → owned (threads c t) = Some n) →
  (∀ s, match_status nil (shared c) p' s → match_status nil (shared c) (threads c t) s) →
  ∃ g', simulated g c None g'
    (mkConfig (if decide (tail (shared c) = tl) then set_tail x (shared c) else shared c) (<[t := p']> (threads c))).
Proof.
  intros HI Hi Hx Hp Ho Hm. case_decide as Htl.
  - eapply tail_step; [done|by rewrite Htl|done|done|done|done].
  - exists g. by apply quiet_step.
Qed.

(** ** A node is linked *)

Lemma load_next_set_next q tl n l :
  load_next (set_next tl n q) l = if decide (l = tl) then (λ _, Some n) <$> nodes q !! l else load_next q l.
Proof.
  unfold load_next, set_next. simpl. case_decide as Hl.
  - subst. rewrite list_lookup_alter, decide_True by done. by destruct (nodes q !! tl).
  - by rewrite list_lookup_alter_ne.
Qed.

Lemma value_of_set_next q tl n l : value_of (set_next tl n q) l = value_of q l.
Proof.
  unfold value_of, set_next. simpl. destruct (decide (tl = l)) as [->|].
  - rewrite list_lookup_alter, decide_True by done. by destruct (nodes q !! l).
  - by rewrite list_lookup_alter_ne.
Qed.

Lemma link_shared g q tl n i :
  shared_inv g q → i <= ti g → chain g !! i = Some tl → load_next q tl = Some None →
  (n ∉ chain g) → load_next q n = Some None →
  let g' := mkGhost (chain g ++ [n]) (hi g) (ti g) in
  i = ti g ∧ S i = length (chain g) ∧ shared_inv g' (set_next tl n q) ∧ ext g g' q (set_next tl n q).
Proof.
  intros Hs Hi Htl Hnone Hn Hnn g'. pose proof (ti_length g q Hs) as Hlen.
  rewrite (si_next _ _ Hs i tl Htl) in Hnone. injection Hnone as Hnone.
  pose proof (place_last g i ltac:(lia) Hnone) as Hlast. assert (i = ti g) as -> by lia.
  pose proof Hs as [Hnd Hhd Htail Hle Hlag Hnext]. rewrite Htl in Htail. injection Htail as Htail.
  split_and!; [done|done| |split; simpl; [by apply prefix_app_r|done|done|intros; by rewrite value_of_set_next]].
  split; simpl.
  - apply list.NoDup_app. split_and!; [done|set_solver|apply list.NoDup_singleton].
  - by apply lookup_app_l_Some.
  - rewrite <- Htail. by apply lookup_app_l_Some.
  - done.
  - rewrite length_app. simpl. lia.
  - intros k l Hk. rewrite load_next_set_next. apply lookup_app_Some in Hk as [Hk|[Hge Hk]].
    + case_decide as Hl.
      * subst l. assert (k = ti g) as -> by (eapply NoDup_lookup; done).
        destruct (nodes q !! tl) as [y|] eqn:Hy; [|apply Hnext in Hk; unfold load_next in Hk; by rewrite Hy in Hk].
        simpl. rewrite lookup_app_r, Hlast, Nat.sub_diag by lia. done.
      * rewrite (Hnext k l Hk). f_equal. destruct (chain g !! S k) as [y|] eqn:Hy; [by rewrite (lookup_app_l_Some _ _ _ _ Hy)|].
        exfalso. apply Hl. pose proof (lookup_lt_Some _ _ _ Hk). pose proof (place_last g k ltac:(done) Hy).
        assert (k = ti g) as -> by lia. congruence.
    + assert (k - length (chain g) = 0) as Hk0 by (destruct (k - length (chain g)); [done|by destruct n0]).
      rewrite Hk0 in Hk. injection Hk as <-. rewrite decide_False.
      * rewrite Hnn. f_equal. symmetry. apply lookup_ge_None. rewrite length_app. simpl. lia.
      * intros ->. apply Hn. by eapply list_elem_of_lookup_2.
Qed.

Lemma vals_cons q x ls :
  vals q (x :: ls) = match value_of q x with Some v => v :: vals q ls | None => vals q ls end.
Proof. done. Qed.

Lemma vals_set_next q tl n ls : vals (set_next tl n q) ls = vals q ls.
Proof. induction ls as [|x ls IH]; [done|]. by rewrite !vals_cons, value_of_set_next, IH. Qed.

Lemma link_step g c t n tl :
  Inv g c → threads c t = EnqCasNext n tl → load_next (shared c) tl = Some None →
  ∃ g', simulated g c None g' (mkConfig (set_next tl n (shared c)) (<[t := EnqSwing n tl]> (threads c))).
Proof.
  intros HI Ht Hnone. pose proof (inv_thread _ _ HI t) as Hp. rewrite Ht in Hp. destruct Hp as (i & Hi & Htl).
  destruct (inv_owned _ _ HI t n) as [Hn Hnn]; [by rewrite Ht|].
  destruct (link_shared g (shared c) tl n i (inv_shared _ _ HI) Hi Htl Hnone Hn Hnn) as (-> & Hlen & Hs & He).
  destruct (load_value _ _ _ Hnn) as [v Hv]. eexists. split.
  - eapply Inv_step; [done|exact Hs|done| |done|].
    + exists (ti g). simpl. split; [by apply lookup_app_l_Some|]. by rewrite lookup_app_r, Hlen, Nat.sub_diag by lia.
    + intros t' n' Hne Hn'. destruct (inv_owned _ _ HI t' n' Hn') as [Hnc Hln].
      assert (n' ≠ n) by (intros ->; apply Hne; eapply (inv_distinct _ _ HI); [done|by rewrite Ht]).
      split; [simpl; set_solver|]. rewrite load_next_set_next, decide_False; [done|].
      intros ->. apply Hnc. by eapply list_elem_of_lookup_2.
  - intros a' Ha. exists (before a' t (SPending (Enq v)) (queued g (shared c))). split.
    + eapply before_abs; [done|exact Hs|done|done|]. rewrite Ht. by exists v.
    + right. pose proof (abs_status _ _ _ _ Ha t) as Hst. simpl in Hst. rewrite fn_lookup_insert in Hst.
      eapply (astep_apply _ _ _ t (Enq v) RUnit); [rewrite <- Hst; apply before_moves|]. cbn [apply_op contents before].
      f_equal. rewrite (abs_contents _ _ _ _ Ha). unfold queued. cbn [shared chain hi].
      rewrite vals_set_next, drop_app_le by (pose proof (si_le _ _ (inv_shared _ _ HI)); lia).
      unfold vals. rewrite omap_app. f_equal. simpl. by rewrite Hv.
Qed.

(** ** The head moves *)

Lemma head_step g c t hd x v :
  Inv g c → threads c t = DeqCasHead hd x v → head (shared c) = hd →
  ∃ g', simulated g c None g' (mkConfig (set_head x (shared c)) (<[t := Returned (RVal v)]> (threads c))).
Proof.
  intros HI Ht Hhd. pose proof (inv_thread _ _ HI t) as Hp. rewrite Ht in Hp.
  destruct Hp as (i & Hi & Hci & Hcx & Hv). pose proof (inv_shared _ _ HI) as Hs. subst hd.
  pose proof (place_head _ _ Hs _ Hci) as ->.
  assert (Hs' : shared_inv (mkGhost (chain g) (S (hi g)) (ti g)) (set_head x (shared c))) by (destruct Hs; by split).
  assert (He : ext g (mkGhost (chain g) (S (hi g)) (ti g)) (shared c) (set_head x (shared c))).
  { split; simpl; [done|lia|done|done]. }
  eexists. split.
  - eapply Inv_step; [done|exact Hs'|done|done|done|]. intros t' n _. apply HI.
  - intros a' Ha. exists (before a' t (SPending Deq) (queued g (shared c))). split.
    + eapply before_abs; [done|exact Hs'|done|done|]. by rewrite Ht.
    + right. pose proof (abs_status _ _ _ _ Ha t) as Hst. simpl in Hst. rewrite fn_lookup_insert in Hst.
      eapply (astep_apply _ _ _ t Deq (RVal v)); [rewrite <- Hst; apply before_moves|]. cbn [contents before].
      rewrite (abs_contents _ _ _ _ Ha). unfold queued at 2. rewrite (drop_S _ _ _ Hcx), vals_cons. by rewrite Hv.
Qed.

(** ** The emptiness test *)

Lemma observe_step g c t hd tl nx :
  Inv g c → threads c t = DeqLoadNext hd tl → load_next (shared c) hd = Some nx →
  simulated g c None g (mkConfig (shared c) (<[t := DeqCheck hd tl nx]> (threads c))).
Proof.
  intros HI Ht Hnx. pose proof (inv_shared _ _ HI) as Hs. pose proof (inv_thread _ _ HI t) as Hp. rewrite Ht in Hp.
  destruct Hp as (i & j & Hi & Hj & Hci & Hcj). rewrite (si_next _ _ Hs i hd Hci) in Hnx. injection Hnx as Hnx.
  pose proof (ti_length _ _ Hs). split.
  - eapply Inv_step; [done|done|apply ext_refl| |done|intros t' n _; apply HI].
    exists i, j. split_and!; [done|lia|lia|done|done|]. destruct nx; [done|].
    pose proof (place_last g i ltac:(lia) Hnx). lia.
  - intros a' Ha. pose proof (abs_status _ _ _ _ Ha t) as Hst. simpl in Hst. rewrite fn_lookup_insert in Hst.
    assert (statuses a' t = SPending Deq ∨
            nx = None ∧ head (shared c) = hd ∧ statuses a' t = SDone (RVal nil)) as [Hpend|(-> & Hhd & Hdone)]
      by (destruct nx; simpl in Hst; tauto).
    + exists a'. split; [|by left]. eapply same_abs; [done|done|apply ext_refl|done|done|]. by rewrite Ht.
    + exists (before a' t (SPending Deq) (queued g (shared c))). split.
      * eapply before_abs; [done|done|apply ext_refl|done|]. by rewrite Ht.
      * right. eapply (astep_apply _ _ _ t Deq (RVal nil)); [rewrite <- Hdone; apply before_moves|].
        cbn [contents before]. rewrite (abs_contents _ _ _ _ Ha). cbn [shared].
        subst hd. pose proof (place_head _ _ Hs _ Hci) as ->. unfold queued.
        rewrite (drop_ge (chain g)) by by apply lookup_ge_None. done.
Qed.

(** ** All steps *)

Lemma enqueue_step g c t q' p' :
  Inv g c → is_Some (owned (threads c t)) ∨ (∃ n tl, threads c t = EnqSwing n tl) →
  thread_step nil (shared c) (threads c t) = Some (q', p') →
  ∃ g', simulated g c None g' (mkConfig q' (<[t := p']> (threads c))).
Proof.
  intros HI Henq Hstep. pose proof (inv_thread _ _ HI t) as Hp. pose proof (inv_shared _ _ HI) as Hs.
  destruct (threads c t) as [|n|n tl|n tl nx|n tl|n tl|n tl nx| |hd|hd tl|hd tl nx|tl nx|hd nx|hd nx v|r] eqn:Ht;
    cbn [thread_step] in Hstep; simpl in Hp; try (destruct Henq as [[? [=]]|(? & ? & [=])]; done).
  - injection Hstep as <- <-. exists g. apply quiet_step; rewrite ?Ht; try done.
    exists (ti g). split; [done|apply Hs].
  - destruct Hp as (i & Hi & Hc). rewrite (si_next _ _ Hs i tl Hc) in Hstep. injection Hstep as <- <-.
    exists g. apply quiet_step; rewrite ?Ht; try done. exists i. by split_and!.
  - destruct Hp as (i & Hi & Hc & Hx). case_decide; [destruct nx as [nx|]|]; injection Hstep as <- <-;
      exists g; apply quiet_step; rewrite ?Ht; try done; exists i; auto.
  - destruct Hp as (i & Hi & Hc). destruct (load_next (shared c) tl) as [[nx|]|] eqn:Hnx; [| |done];
      injection Hstep as <- <-; [|by apply link_step]. exists g. by apply quiet_step; rewrite ?Ht.
  - injection Hstep as <- <-. destruct Hp as (i & Hc & Hx). eapply swing_step; rewrite ?Ht; done.
  - injection Hstep as <- <-. destruct Hp as (i & Hc & Hx). eapply swing_step; rewrite ?Ht; done.
Qed.

Lemma dequeue_step g c t q' p' :
  Inv g c → owned (threads c t) = None → (∀ n tl, threads c t ≠ EnqSwing n tl) →
  thread_step nil (shared c) (threads c t) = Some (q', p') →
  ∃ g', simulated g c None g' (mkConfig q' (<[t := p']> (threads c))).
Proof.
  intros HI Hown Hne Hstep. pose proof (inv_thread _ _ HI t) as Hp. pose proof (inv_shared _ _ HI) as Hs.
  destruct (threads c t) as [|n|n tl|n tl nx|n tl|n tl|n tl nx| |hd|hd tl|hd tl nx|tl nx|hd nx|hd nx v|r] eqn:Ht;
    cbn [thread_step] in Hstep; simpl in Hp; try done; try by destruct (Hne n tl).
  - injection Hstep as <- <-. exists g. apply quiet_step; rewrite ?Ht; try done. exists (hi g). split; [done|apply Hs].
  - injection Hstep as <- <-. destruct Hp as (i & Hi & Hc). exists g. apply quiet_step; rewrite ?Ht; try done.
    pose proof (si_le _ _ Hs). exists i, (ti g). split_and!; [done|lia|lia|done|apply Hs].
  - destruct (load_next (shared c) hd) as [nx|] eqn:Hnx; [|done]. injection Hstep as <- <-. exists g. by apply observe_step.
  - destruct Hp as (i & j & Hi & Hj & Hci & Hcj & Hnx). case_decide as Hhd; [case_decide as Htl|].
    + destruct nx as [nx|]; injection Hstep as <- <-; exists g; apply quiet_step; rewrite ?Ht; try done.
      * subst tl. by exists i.
      * simpl. intros s ->. by right.
    + destruct nx as [nx|]; [|done]. injection Hstep as <- <-. exists g. apply quiet_step; rewrite ?Ht; try done.
      exists i. split_and!; try done. assert (i ≠ j) by (intros ->; congruence). lia.
    + injection Hstep as <- <-. exists g. apply quiet_step; rewrite ?Ht; try done. simpl. intros s ->. destruct nx; by left || done.
  - injection Hstep as <- <-. destruct Hp as (i & Hc & Hx). eapply swing_step; rewrite ?Ht; done.
  - destruct Hp as (i & Hi & Hc & Hx). destruct (nodes (shared c) !! nx) as [y|] eqn:Hy; [|done].
    injection Hstep as <- <-. exists g. apply quiet_step; rewrite ?Ht; try done.
    exists i. split_and!; try done. unfold value_of. by rewrite Hy.
  - case_decide as Hhd; injection Hstep as <- <-; [by apply (head_step g c t hd nx v)|].
    exists g. by apply quiet_step; rewrite ?Ht.
Qed.

(** No goroutine follows a nil pointer. *)
Lemma no_panic g c t :
  Inv g c → threads c t ≠ Idle → (∀ r, threads c t ≠ Returned r) → thread_step nil (shared c) (threads c t) ≠ None.
Proof.
  intros HI Hidle Hret. pose proof (inv_thread _ _ HI t) as Hp. pose proof (inv_shared _ _ HI) as Hs.
  destruct (threads c t) as [|n|n tl|n tl nx|n tl|n tl|n tl nx| |hd|hd tl|hd tl nx|tl nx|hd nx|hd nx v|r] eqn:Ht;
    cbn [thread_step]; simpl in Hp; try done; try by destruct (Hret r).
  - destruct Hp as (i & Hi & Hc). by rewrite (si_next _ _ Hs i tl Hc).
  - case_decide; [|done]. by destruct nx.
  - destruct Hp as (i & Hi & Hc). rewrite (si_next _ _ Hs i tl Hc). simpl. by destruct (chain g !! S i).
  - destruct Hp as (i & j & _ & _ & Hc & _). by rewrite (si_next _ _ Hs i hd Hc).
  - destruct Hp as (i & j & _ & _ & Hci & Hcj & Hnx). destruct nx as [nx|]; repeat case_decide; try done. congruence.
  - destruct Hp as (i & _ & _ & Hx). pose proof (si_next _ _ Hs (S i) nx Hx) as Hl. unfold load_next in Hl.
    by destruct (nodes (shared c) !! nx).
  - by case_decide.
Qed.

(** Calling an operation: an enqueue allocates a node that nobody else knows. *)
Lemma start_spec g c o :
  Inv g c → let q' := (start o (shared c)).1 in let p' := (start o (shared c)).2 in
  shared_inv g q' ∧ ext g g (shared c) q' ∧ thread_inv g q' p' ∧ queued g q' = queued g (shared c) ∧
  (∀ n y, load_next (shared c) n = Some y → load_next q' n = Some y) ∧
  (∀ n, owned p' = Some n → (n ∉ chain g) ∧ load_next q' n = Some None ∧ load_next (shared c) n = None) ∧
  (∀ s, match_status nil q' p' s → s = SPending o).
Proof.
  intros HI. pose proof (inv_shared _ _ HI) as Hs. destruct o as [v|]; cbn [start fst snd]; [|by split_and!].
  set (q' := mkQueue _ _ _).
  assert (Hsome : ∀ n x, nodes (shared c) !! n = Some x → nodes q' !! n = Some x).
  { intros n x Hx. by apply lookup_app_l_Some. }
  assert (Hkeep : ∀ n y, load_next (shared c) n = Some y → load_next q' n = Some y).
  { intros n y. unfold load_next. intros Hn. destruct (nodes (shared c) !! n) as [z|] eqn:Hz; [|done]. by rewrite (Hsome n z Hz). }
  assert (Hval : ∀ n w, value_of (shared c) n = Some w → value_of q' n = Some w).
  { intros n w. unfold value_of. intros Hn. destruct (nodes (shared c) !! n) as [z|] eqn:Hz; [|done]. by rewrite (Hsome n z Hz). }
  assert (Hfresh : nodes (shared c) !! length (nodes (shared c)) = None) by by apply lookup_ge_None.
  assert (Hnew : nodes q' !! length (nodes (shared c)) = Some (mkNode v None)) by (simpl; by rewrite lookup_app_r, Nat.sub_diag by lia).
  split_and!; try done.
  - destruct Hs as [Hnd Hhd Htl Hle Hlag Hnext]. split; try done. intros i x Hx. by apply Hkeep, Hnext.
  - unfold queued. assert (∀ ls, (∀ x, x ∈ ls → x ∈ chain g) → vals q' ls = vals (shared c) ls) as Hvals.
    { induction ls as [|x ls IH]; intros Hin; [done|]. rewrite !vals_cons, IH by set_solver.
      destruct (list_elem_of_lookup_1 (chain g) x) as [i Hi]; [set_solver|].
      destruct (load_value _ _ _ (si_next _ _ Hs i x Hi)) as [w Hw]. by rewrite Hw, (Hval x w Hw). }
    apply Hvals. intros x Hx. destruct (list_elem_of_lookup_1 _ _ Hx) as [i Hi]. rewrite lookup_drop in Hi.
    by eapply list_elem_of_lookup_2.
  - intros n [= <-]. split_and!; [|unfold load_next; by rewrite Hnew|unfold load_next; by rewrite Hfresh].
    intros [i Hi]%list_elem_of_lookup_1. apply (si_next _ _ Hs) in Hi. unfold load_next in Hi. by rewrite Hfresh in Hi.
  - intros s (w & Hw & ->). unfold value_of in Hw. rewrite Hnew in Hw. by injection Hw as <-.
Qed.

Lemma call_step g c t o :
  Inv g c → threads c t = Idle →
  simulated g c (Some (Call t o)) g (mkConfig (start o (shared c)).1 (<[t := (start o (shared c)).2]> (threads c))).
Proof.
  intros HI Ht. destruct (start_spec g c o HI) as (Hs & He & Hp & Hq & Hkeep & Hown & Hst).
  split.
  - eapply Inv_step; [done|done|done|done| |].
    + intros n Hn. destruct (Hown n Hn) as (Hc & Hl & Hnone). split_and!; [done|done|]. intros t' _ Hn'.
      destruct (inv_owned _ _ HI t' n Hn'). congruence.
    + intros t' n _ Hn. destruct (inv_owned _ _ HI t' n Hn). auto.
  - intros a' Ha. exists (before a' t SIdle (queued g (shared c))). split.
    + eapply before_abs; [done|exact Hs|done|done|]. by rewrite Ht.
    + pose proof (abs_status _ _ _ _ Ha t) as Hm. simpl in Hm. rewrite fn_lookup_insert in Hm. apply Hst in Hm.
      apply astep_call; [rewrite <- Hm; apply before_moves|]. cbn [contents before].
      rewrite (abs_contents _ _ _ _ Ha). exact Hq.
Qed.

Lemma return_step g c t r :
  Inv g c → threads c t = Returned r →
  simulated g c (Some (Return t r)) g (mkConfig (shared c) (<[t := Idle]> (threads c))).
Proof.
  intros HI Ht. pose proof (inv_shared _ _ HI) as Hs. split.
  - eapply Inv_step; [done|done|apply ext_refl|done|done|]. intros t' n _. apply HI.
  - intros a' Ha. exists (before a' t (SDone r) (queued g (shared c))). split.
    + eapply before_abs; [done|done|apply ext_refl|done|]. by rewrite Ht.
    + pose proof (abs_status _ _ _ _ Ha t) as Hm. simpl in Hm. rewrite fn_lookup_insert in Hm.
      apply astep_return; [rewrite <- Hm; apply before_moves|]. cbn [contents before].
      rewrite (abs_contents _ _ _ _ Ha). done.
Qed.

Lemma step_simulated g c lb c' : Inv g c → step nil c lb c' → ∃ g', simulated g c lb g' c'.
Proof.
  intros HI Hstep. destruct Hstep as [c t o Ht|c t q' p' Hp|c t Hidle Hret Hnone|c t r Ht].
  - exists g. by apply call_step.
  - destruct (decide (owned (threads c t) = None)) as [Ho|Ho].
    + destruct (threads c t) eqn:Ht; try (eapply dequeue_step; rewrite ?Ht; done).
      eapply enqueue_step; rewrite ?Ht; eauto.
    + eapply enqueue_step; [done| |done]. left. by destruct (owned (threads c t)) eqn:?.
  - by destruct (no_panic g c t).
  - exists g. by apply return_step.
Qed.

(** ** Executions *)

Lemma exec_simulated g c ls c' :
  Inv g c → exec (step nil) c ls c' →
  ∃ g', Inv g' c' ∧ ∀ a', abs nil g' c' a' → ∃ a, abs nil g c a ∧ exec (astep (apply_op nil)) a ls a'.
Proof.
  intros HI Hexec. revert g HI. induction Hexec as [c|c c1 ls c' Hst _ IH|c lb c1 ls c' Hst _ IH]; intros g HI.
  - exists g. split; [done|]. intros a' Ha. exists a'. split; [done|constructor].
  - destruct (step_simulated g c None c1 HI Hst) as (g1 & HI1 & Hsim). destruct (IH g1 HI1) as (g' & HI' & Hback).
    exists g'. split; [done|]. intros a' Ha. destruct (Hback a' Ha) as (a1 & Ha1 & Hex).
    destruct (Hsim a1 Ha1) as (a & Habs & [->|Has]); [eauto|]. exists a. split; [done|by eapply exec_inner].
  - destruct (step_simulated g c (Some lb) c1 HI Hst) as (g1 & HI1 & Hsim). destruct (IH g1 HI1) as (g' & HI' & Hback).
    exists g'. split; [done|]. intros a' Ha. destruct (Hback a' Ha) as (a1 & Ha1 & Hex).
    destruct (Hsim a1 Ha1) as (a & Habs & Has). exists a. split; [done|by eapply exec_label].
Qed.

(** Every state of the invariant has an abstraction. *)
Definition status_of q p : status op res :=
  match p with
  | Idle => SIdle
  | Returned r => SDone r
  | EnqSwing _ _ => SDone RUnit
  | EnqLoadTail n | EnqLoadNext n _ | EnqCheck n _ _ | EnqCasNext n _ | EnqHelp n _ _ =>
      match value_of q n with Some v => SPending (Enq v) | None => SPending Deq end
  | _ => SPending Deq
  end.

Lemma abs_exists g c : Inv g c → ∃ a, abs nil g c a.
Proof.
  intros HI. exists (mkAbs (queued g (shared c)) (λ t, status_of (shared c) (threads c t))).
  split; [done|]. intros t. simpl. pose proof (inv_owned _ _ HI t) as Ho.
  destruct (threads c t) as [|n|n tl|n tl nx|n tl|n tl|n tl nx| |hd|hd tl|hd tl [nx|]|tl nx|hd nx|hd nx v|r];
    simpl in *; try done; try (by left);
    destruct (Ho n eq_refl) as [_ [w Hw]%load_value]; exists w; by rewrite Hw.
Qed.

Lemma abs_initial a : abs nil ghost0 (initial nil) a → ainitial a.
Proof. intros Ha. split; [by apply Ha|]. intros t. exact (abs_status _ _ _ _ Ha t). Qed.
End sim.
