(* ===== verification/LKQueueProps.v ===== *)
(** * The lock-free queue: the properties

    Linearizability, and that a goroutine which runs alone finishes its
    operation. *)

From stdpp Require Import functions.
From S2P Require Import Prelude Atomic LKQueue LKQueueThms.

Section props.
Context {V : Type} (nil : V).
Implicit Types (q : LKQueue (V:=V)) (p : pc (V:=V)).

(** ** Running alone *)

Fixpoint run_alone (k : nat) q p : option (LKQueue * pc) :=
  match k, p with
  | O, _ | _, Returned _ => Some (q, p)
  | S k, _ => '(q, p) ← thread_step nil q p; run_alone k q p
  end.

Definition finishes (k : nat) q p : Prop := ∃ q' r, run_alone k q p = Some (q', Returned r).

Lemma finishes_returned k q r : finishes k q (Returned r).
Proof. exists q, r. by destruct k. Qed.

Lemma finishes_step k q p q' p' : thread_step nil q p = Some (q', p') → finishes k q' p' → finishes (S k) q p.
Proof.
  intros Hst (q1 & r & Hrun). exists q1, r. destruct p; cbn [run_alone]; rewrite ?Hst; try exact Hrun. done.
Qed.

Lemma finishes_mono k k' q p : k <= k' → finishes k q p → finishes k' q p.
Proof.
  revert k' q p. induction k as [|k IH]; intros k' q p Hk (q1 & r & Hrun).
  - simpl in Hrun. injection Hrun as -> ->. apply finishes_returned.
  - destruct k' as [|k']; [lia|].
    destruct p; try apply finishes_returned; cbn [run_alone] in Hrun;
      match type of Hrun with context [thread_step nil q ?p] => destruct (thread_step nil q p) as [[q2 p2]|] eqn:Hst end;
      try done; (eapply finishes_step; [exact Hst|apply IH; [lia|by exists q1, r]]).
Qed.

(** ** Enqueue *)

Section solo.
Context (g : ghost) (q : LKQueue (V:=V)) (Hs : shared_inv g q).

(** A node of [n]'s, not yet linked. *)
Definition fresh (g : ghost) q (n : nat) : Prop := (n ∉ chain g) ∧ load_next q n = Some None.

Lemma solo_link n :
  S (ti g) = length (chain g) → fresh g q n → finishes 2 q (EnqCasNext n (tail q)).
Proof using Hs.
  intros Hlast [Hn Hnn]. eapply finishes_step; [cbn [thread_step]; rewrite (si_next _ _ Hs _ _ (si_tail _ _ Hs))|].
  - rewrite lookup_ge_None_2 by lia. done.
  - eapply finishes_step; [done|]. apply finishes_returned.
Qed.

Lemma solo_enqueue_last n : S (ti g) = length (chain g) → fresh g q n → finishes 5 q (EnqLoadTail n).
Proof using Hs.
  intros Hlast Hn. eapply finishes_step; [done|].
  eapply finishes_step; [cbn [thread_step]; by rewrite (si_next _ _ Hs _ _ (si_tail _ _ Hs))|].
  rewrite lookup_ge_None_2 by lia. eapply finishes_step; [cbn [thread_step]; by rewrite decide_True|].
  by apply solo_link.
Qed.
End solo.

Lemma tail_cases g q : shared_inv g q →
  S (ti g) = length (chain g) ∨ ∃ x, chain g !! S (ti g) = Some x ∧ S (S (ti g)) = length (chain g).
Proof.
  intros Hs. pose proof (ti_length g q Hs). pose proof (si_lag _ _ Hs).
  destruct (chain g !! S (ti g)) as [x|] eqn:Hx.
  - right. exists x. split; [done|]. apply lookup_lt_Some in Hx. lia.
  - left. apply lookup_ge_None in Hx. lia.
Qed.

(** After the tail has been helped forward it is last. *)
Lemma helped g q x : shared_inv g q → chain g !! S (ti g) = Some x → S (S (ti g)) = length (chain g) →
  shared_inv (mkGhost (chain g) (hi g) (S (ti g))) (set_tail x q).
Proof. intros Hs Hx _. by destruct (set_tail_shared g q (ti g) x Hs (si_tail _ _ Hs) Hx). Qed.

Lemma solo_enqueue g q n : shared_inv g q → fresh g q n → finishes 9 q (EnqLoadTail n).
Proof.
  intros Hs Hn. destruct (tail_cases g q Hs) as [Hlast|(x & Hx & Hlen)].
  - eapply finishes_mono; [|by eapply solo_enqueue_last]. lia.
  - eapply finishes_step; [done|].
    eapply finishes_step; [cbn [thread_step]; by rewrite (si_next _ _ Hs _ _ (si_tail _ _ Hs))|].
    rewrite Hx. eapply finishes_step; [cbn [thread_step]; by rewrite decide_True|].
    eapply finishes_step; [cbn [thread_step]; by rewrite decide_True|].
    eapply solo_enqueue_last; [by eapply helped|done|exact Hn].
Qed.

(** ** Dequeue *)

Lemma solo_take g q x : shared_inv g q → chain g !! S (hi g) = Some x → finishes 2 q (DeqRead (head q) x).
Proof.
  intros Hs Hx. destruct (load_value _ _ _ (si_next _ _ Hs _ _ Hx)) as [v Hv]. unfold value_of in Hv.
  destruct (nodes q !! x) as [y|] eqn:Hy; [|done].
  eapply finishes_step; [cbn [thread_step]; by rewrite Hy|].
  eapply finishes_step; [cbn [thread_step]; by rewrite decide_True|]. apply finishes_returned.
Qed.

(** The test of a dequeue whose head is still current. *)
Lemma solo_check_behind g q : shared_inv g q → hi g < ti g → finishes 3 q (DeqCheck (head q) (tail q) (chain g !! S (hi g))).
Proof.
  intros Hs Hlt. destruct (chain g !! S (hi g)) as [x|] eqn:Hx;
    [|pose proof (ti_length g q Hs); apply lookup_ge_None in Hx; lia].
  eapply finishes_step; [cbn [thread_step]; rewrite decide_True, decide_False; [done| |done]|by eapply solo_take].
  intros Heq. pose proof (si_head _ _ Hs) as Hh. rewrite Heq in Hh. apply (place_tail _ _ Hs) in Hh. lia.
Qed.

Lemma solo_dequeue_behind g q : shared_inv g q → hi g < ti g → finishes 6 q DeqLoadHead.
Proof.
  intros Hs Hlt. do 2 (eapply finishes_step; [done|]).
  eapply finishes_step; [cbn [thread_step]; by rewrite (si_next _ _ Hs _ _ (si_head _ _ Hs))|].
  by apply solo_check_behind.
Qed.

Lemma solo_check g q : shared_inv g q → finishes 8 q (DeqCheck (head q) (tail q) (chain g !! S (hi g))).
Proof.
  intros Hs. destruct (decide (hi g < ti g)) as [Hlt|Hge].
  - eapply finishes_mono; [|by eapply solo_check_behind]. lia.
  - pose proof (si_le _ _ Hs). assert (Heq : hi g = ti g) by lia.
    assert (Hht : head q = tail q).
    { pose proof (si_head _ _ Hs) as Hh. rewrite Heq, (si_tail _ _ Hs) in Hh. by injection Hh. }
    destruct (chain g !! S (hi g)) as [x|] eqn:Hx.
    + eapply finishes_step; [cbn [thread_step]; rewrite !decide_True by done; done|].
      eapply finishes_step; [cbn [thread_step]; rewrite decide_True by done; done|].
      rewrite Heq in Hx. destruct (tail_cases g q Hs) as [Hlast|(x' & Hx' & Hlen)];
        [apply lookup_lt_Some in Hx; lia|]. simplify_eq.
      eapply solo_dequeue_behind; [by eapply helped|simpl; lia].
    + eapply finishes_mono; [|eapply finishes_step; [cbn [thread_step]; rewrite !decide_True by done; done|apply (finishes_returned 0)]]. lia.
Qed.

Lemma solo_dequeue g q : shared_inv g q → finishes 11 q DeqLoadHead.
Proof.
  intros Hs. do 2 (eapply finishes_step; [done|]).
  eapply finishes_step; [cbn [thread_step]; by rewrite (si_next _ _ Hs _ _ (si_head _ _ Hs))|].
  by apply solo_check.
Qed.

(** ** From any point of an operation *)

Lemma swung g q i tl x : shared_inv g q → chain g !! i = Some tl → chain g !! S i = Some x →
  ∃ g', chain g' = chain g ∧ shared_inv g' (if decide (tail q = tl) then set_tail x q else q).
Proof.
  intros Hs Hi Hx. case_decide as Htl; [|by exists g]. eexists. split; [|apply (set_tail_shared g q i x); [done| |done]]; [done|].
  by rewrite Htl.
Qed.

Lemma fresh_swung g g' q n tl x : chain g' = chain g → fresh g q n →
  fresh g' (if decide (tail q = tl) then set_tail x q else q) n.
Proof. intros Hc [Hn Hnn]. split; [by rewrite Hc|]. by case_decide. Qed.

Lemma solo_cas_next g q n tl : shared_inv g q → fresh g q n → thread_inv g q (EnqCasNext n tl) → finishes 10 q (EnqCasNext n tl).
Proof.
  intros Hs Hn (i & Hi & Hc). destruct (chain g !! S i) as [x|] eqn:Hx.
  - eapply finishes_step; [cbn [thread_step]; rewrite (si_next _ _ Hs _ _ Hc), Hx; done|]. by eapply solo_enqueue.
  - eapply finishes_mono; [|eapply finishes_step; [cbn [thread_step]; rewrite (si_next _ _ Hs _ _ Hc), Hx; done|]].
    2: { eapply finishes_step; [done|]. apply (finishes_returned 0). } lia.
Qed.

Lemma solo_help g q n tl x : shared_inv g q → fresh g q n → thread_inv g q (EnqHelp n tl x) → finishes 10 q (EnqHelp n tl x).
Proof.
  intros Hs Hn (i & Hc & Hx). eapply finishes_step; [done|]. destruct (swung g q i tl x Hs Hc Hx) as (g' & Hg & Hs').
  eapply solo_enqueue; [done|by eapply fresh_swung].
Qed.

Lemma solo_enq_check g q n tl nx : shared_inv g q → fresh g q n → thread_inv g q (EnqCheck n tl nx) → finishes 11 q (EnqCheck n tl nx).
Proof.
  intros Hs Hn (i & Hi & Hc & Hx). destruct (decide (tl = tail q)) as [Ht|Ht]; [destruct nx as [x|]|].
  - eapply finishes_step; [cbn [thread_step]; by rewrite decide_True by done|]. apply (solo_help g); [done|done|]. exists i. auto.
  - eapply finishes_step; [cbn [thread_step]; by rewrite decide_True by done|]. apply (solo_cas_next g); [done|done|]. by exists i.
  - eapply finishes_step; [cbn [thread_step]; by rewrite decide_False by done|].
    eapply finishes_mono; [|by eapply solo_enqueue]. lia.
Qed.

Lemma solo_deq_help g q tl x : shared_inv g q → thread_inv g q (DeqHelp tl x) → finishes 12 q (DeqHelp tl x).
Proof.
  intros Hs (i & Hc & Hx). eapply finishes_step; [done|]. destruct (swung g q i tl x Hs Hc Hx) as (g' & _ & Hs').
  by eapply solo_dequeue.
Qed.

Lemma solo_cas_head g q hd x v : shared_inv g q → finishes 12 q (DeqCasHead hd x v).
Proof.
  intros Hs. destruct (decide (head q = hd)) as [Hh|Hh].
  - eapply finishes_step; [cbn [thread_step]; by rewrite decide_True by done|]. apply finishes_returned.
  - eapply finishes_step; [cbn [thread_step]; by rewrite decide_False by done|]. by eapply solo_dequeue.
Qed.

Lemma solo_read g q hd x : shared_inv g q → thread_inv g q (DeqRead hd x) → finishes 13 q (DeqRead hd x).
Proof.
  intros Hs (i & _ & _ & Hx). destruct (load_value _ _ _ (si_next _ _ Hs _ _ Hx)) as [v Hv]. unfold value_of in Hv.
  destruct (nodes q !! x) as [y|] eqn:Hy; [|done].
  eapply finishes_step; [cbn [thread_step]; by rewrite Hy|]. by eapply solo_cas_head.
Qed.

Lemma solo_deq_check g q hd tl nx : shared_inv g q → thread_inv g q (DeqCheck hd tl nx) → finishes 14 q (DeqCheck hd tl nx).
Proof.
  intros Hs (i & j & Hi & Hj & Hci & Hcj & Hnx). destruct (decide (hd = head q)) as [Hh|Hh]; [destruct (decide (hd = tl)) as [Ht|Ht]|].
  - destruct nx as [x|]; (eapply finishes_step; [cbn [thread_step]; rewrite !decide_True by done; done|]).
    + eapply finishes_mono; [|apply (solo_deq_help g); [done|]]; [lia|]. subst tl. by exists i.
    + apply finishes_returned.
  - destruct nx as [x|]; [|subst j; congruence].
    eapply finishes_step; [cbn [thread_step]; rewrite decide_True, decide_False by done; done|].
    apply (solo_read g); [done|]. exists i. split_and!; try done. assert (i ≠ j) by (intros ->; congruence). lia.
  - eapply finishes_step; [cbn [thread_step]; by rewrite decide_False by done|].
    eapply finishes_mono; [|by eapply solo_dequeue]. lia.
Qed.

Lemma solo_deq_next g q hd tl : shared_inv g q → thread_inv g q (DeqLoadNext hd tl) → finishes 15 q (DeqLoadNext hd tl).
Proof.
  intros Hs (i & j & Hi & Hj & Hci & Hcj).
  eapply finishes_step; [cbn [thread_step]; by rewrite (si_next _ _ Hs _ _ Hci)|]. apply (solo_deq_check g); [done|].
  exists i, j. split_and!; try (done || lia). destruct (chain g !! S i) as [x|] eqn:Hx; [done|].
  pose proof (ti_length g q Hs). apply lookup_ge_None in Hx. lia.
Qed.

Lemma solo_any g q p : shared_inv g q → thread_inv g q p → (∀ n, owned p = Some n → fresh g q n) → p ≠ Idle → finishes 16 q p.
Proof.
  intros Hs Hp Hown Hidle.
  destruct p as [|n|n tl|n tl nx|n tl|n tl|n tl nx| |hd|hd tl|hd tl nx|tl nx|hd nx|hd nx v|r]; try done.
  - eapply finishes_mono; [|apply (solo_enqueue g); auto]. lia.
  - destruct Hp as (i & Hi & Hc). eapply finishes_mono; [|eapply finishes_step; [cbn [thread_step]; by rewrite (si_next _ _ Hs _ _ Hc)|]].
    2: { apply (solo_enq_check g); [done|by apply Hown|]. exists i. by split_and!. } lia.
  - eapply finishes_mono; [|apply (solo_enq_check g); auto]. lia.
  - eapply finishes_mono; [|apply (solo_cas_next g); auto]. lia.
  - eapply finishes_step; [done|]. apply finishes_returned.
  - eapply finishes_mono; [|apply (solo_help g); auto]. lia.
  - eapply finishes_mono; [|by apply (solo_dequeue g)]. lia.
  - destruct Hp as (i & Hi & Hc). eapply finishes_step; [done|]. apply (solo_deq_next g); [done|].
    pose proof (si_le _ _ Hs). exists i, (ti g). split_and!; [done|lia|lia|done|apply Hs].
  - eapply finishes_mono; [|by apply (solo_deq_next g)]. lia.
  - eapply finishes_mono; [|by apply (solo_deq_check g)]. lia.
  - eapply finishes_mono; [|by apply (solo_deq_help g)]. lia.
  - eapply finishes_mono; [|by apply (solo_read g)]. lia.
  - eapply finishes_mono; [|by apply (solo_cas_head g)]. lia.
  - apply finishes_returned.
Qed.

(** ** The properties *)

(** C5: the queue is linearizable.  In every interleaving of any number of
    goroutines the calls and returns are those of an atomic first-in first-out
    queue in which each operation takes effect at one moment between its call
    and its return, a dequeue of the empty queue returning nil; in particular
    no goroutine ever follows a nil pointer. *)
Theorem lkqueue_linearizable (ls : list (label (op (V:=V)) (res (V:=V)))) (c : config (V:=V)) :
  exec (step nil) (initial nil) ls c →
  ∃ a0 a : aconfig (list V) (op (V:=V)) (res (V:=V)), ainitial a0 ∧ exec (astep (apply_op nil)) a0 ls a.
Proof.
  intros Hex. destruct (exec_simulated nil ghost0 (initial nil) ls c (Inv_initial nil) Hex) as (g & HI & Hback).
  destruct (abs_exists nil g c HI) as [a Ha]. destruct (Hback a Ha) as (a0 & Ha0 & Hexec).
  exists a0, a. split; [by apply (abs_initial nil)|done].
Qed.

(** No goroutine can block another.  From every reachable state a goroutine
    in the middle of an operation finishes it within 16 of its own steps when
    the others pause, wherever they are. *)
Theorem lkqueue_solo (ls : list (label (op (V:=V)) (res (V:=V)))) (c : config (V:=V)) (t : nat) :
  exec (step nil) (initial nil) ls c → threads c t ≠ Idle → finishes 16 (shared c) (threads c t).
Proof.
  intros Hex Ht. destruct (exec_simulated nil ghost0 (initial nil) ls c (Inv_initial nil) Hex) as (g & HI & _).
  eapply solo_any; [apply HI|apply HI| |done]. intros n Hn. by apply (inv_owned _ _ HI t).
Qed.
End props.

(** ** Witnesses *)

(** Goroutine 1 enqueues 7 and stops before it moves the tail; goroutine 2 has
    started a dequeue. *)
Definition sample : config (V:=nat) :=
  mkConfig (mkQueue 0 0 [mkNode 0 (Some 1); mkNode 7 None])
    (<[2 := DeqLoadHead]> (<[1 := EnqSwing 1 0]> (<[1 := EnqCasNext 1 0]> (<[1 := EnqCheck 1 0 None]>
      (<[1 := EnqLoadNext 1 0]> (<[1 := EnqLoadTail 1]> (λ _, Idle))))))).

Ltac run_inner t := eapply exec_inner; [apply (step_inner _ _ t); reflexivity|].

Lemma sample_reached : exec (step 0) (initial 0) [Call 1 (Enq 7); Call 2 Deq] sample.
Proof.
  eapply exec_label; [by apply step_call|]. do 4 run_inner 1. eapply exec_label; [by apply step_call|]. apply exec_nil.
Qed.

Lemma lkqueue_linearizable_witness :
  ∃ a0 a : aconfig (list nat) (op (V:=nat)) (res (V:=nat)), ainitial a0 ∧ exec (astep (apply_op 0)) a0 [Call 1 (Enq 7); Call 2 Deq] a.
Proof. exact (lkqueue_linearizable 0 _ sample sample_reached). Defined.

Lemma lkqueue_solo_witness : threads sample 2 = DeqLoadHead ∧ finishes 0 16 (shared sample) (threads sample 2).
Proof. split; [reflexivity|]. apply (lkqueue_solo 0 _ sample 2 sample_reached). discriminate. Defined.
