(* ===== verification/Wyhash.v ===== *)
(** * Hashes

    Model of src/internal/wyhash and of the unaligned reads of
    src/internal/runtimex: the hash of a string in one call and the digest that
    takes it in pieces.  A pointer into a buffer is the bytes from there to the
    end of the buffer; a read beyond the end, which Go would not catch, is
    [None].  The two theorems: no read leaves the buffer, and a digest gives the
    hash of what was written to it, however it was cut. *)

From S2P Require Import Prelude.

(** ** Unaligned reads *)

Definition bytes : Type := list Z.

Section wyhash.
(** Whether the machine is big-endian: the files readunaligned.go and
    readunaligned_bigendian.go. *)
Context (big : bool).

Definition joined (l : list Z) : Z := foldr (λ b acc, Z.lor b (Z.shiftl acc 8)) 0%Z (if big then reverse l else l).

Definition ReadUnaligned64 (p : bytes) : option Z :=
  match p with
  | q0 :: q1 :: q2 :: q3 :: q4 :: q5 :: q6 :: q7 :: _ => Some (joined [q0; q1; q2; q3; q4; q5; q6; q7])
  | _ => None
  end.

Definition ReadUnaligned32 (p : bytes) : option Z :=
  match p with q0 :: q1 :: q2 :: q3 :: _ => Some (joined [q0; q1; q2; q3]) | _ => None end.

Definition add (p : bytes) (x : nat) : bytes := drop x p.
Definition read_byte (p : bytes) : option Z := head p.

(** ** The hash of a string *)

Definition DefaultSeed : Z := 0xa0761d6478bd642f.
Definition s1 : Z := 0xe7037ed1a0b428db.
Definition s2 : Z := 0x8ebc6af09c88c6e3.
Definition s3 : Z := 0x589965cc75374cc3.
Definition s4 : Z := 0x1d8e4e27c47d124f.

(** bits.Mul64, and the halves mixed. *)
Definition wymix (a b : Z) : Z := Z.lxor (Z.shiftr (a * b) 64) (wrapu 64 (a * b)).

(** The body of the loop over blocks of 64 bytes. *)
Definition round64 (p : bytes) (seed see1 : Z) : option (Z * Z) :=
  r0 ← ReadUnaligned64 p; r8 ← ReadUnaligned64 (add p 8); r16 ← ReadUnaligned64 (add p 16); r24 ← ReadUnaligned64 (add p 24);
  r32 ← ReadUnaligned64 (add p 32); r40 ← ReadUnaligned64 (add p 40); r48 ← ReadUnaligned64 (add p 48);
  r56 ← ReadUnaligned64 (add p 56);
  Some (Z.lxor (wymix (Z.lxor r0 s1) (Z.lxor r8 seed)) (wymix (Z.lxor r16 s2) (Z.lxor r24 seed)),
        Z.lxor (wymix (Z.lxor r32 s3) (Z.lxor r40 see1)) (wymix (Z.lxor r48 s4) (Z.lxor r56 see1))).

Fixpoint loop64 (fuel : nat) (p : bytes) (i : nat) (seed see1 : Z) : option (bytes * nat * Z * Z) :=
  if 64 <? i then
    match fuel with
    | O => None
    | S fuel => '(seed, see1) ← round64 p seed see1; loop64 fuel (add p 64) (i - 64) seed see1
    end
  else Some (p, i, seed, see1).

Fixpoint loop16 (fuel : nat) (p : bytes) (i : nat) (seed : Z) : option (bytes * nat * Z) :=
  if 16 <? i then
    match fuel with
    | O => None
    | S fuel =>
        r0 ← ReadUnaligned64 p; r8 ← ReadUnaligned64 (add p 8);
        loop16 fuel (add p 16) (i - 16) (wymix (Z.lxor r0 s1) (Z.lxor r8 seed))
    end
  else Some (p, i, seed).

(** The last 16 bytes or less. *)
Definition finish (p : bytes) (i : nat) (seed : Z) (length : nat) : option Z :=
  let last a b := Some (wymix (Z.lxor s1 (wrapu 64 (Z.of_nat length))) (wymix (Z.lxor a s1) b)) in
  if i =? 0 then Some (wymix s1 (wymix s1 seed))
  else if i <? 4 then
    a ← read_byte p; b ← read_byte (add p (i / 2)); c ← read_byte (add p (i - 1));
    last (Z.lor (Z.lor (Z.shiftl a 16) (Z.shiftl b 8)) c) seed
  else if i =? 4 then a ← ReadUnaligned32 p; last a seed
  else if i <? 8 then a ← ReadUnaligned32 p; b ← ReadUnaligned32 (add p (i - 4)); last a (Z.lxor b seed)
  else if i =? 8 then a ← ReadUnaligned64 p; last a seed
  else a ← ReadUnaligned64 p; b ← ReadUnaligned64 (add p (i - 8)); last a (Z.lxor b seed).

(** The part after the blocks of 64 bytes, which the two functions share. *)
Definition tail_sum (p : bytes) (i : nat) (seed : Z) (length : nat) : option Z :=
  '(p, i, seed) ← loop16 i p i seed; finish p i seed length.

Definition Sum64StringWithSeed (data : bytes) (seed : Z) : option Z :=
  let i := length data in
  if 64 <? i then
    '(p, i, seed, see1) ← loop64 i data i seed seed; tail_sum p i (Z.lxor seed see1) (length data)
  else tail_sum data i seed (length data).
Definition Sum64WithSeed (data : bytes) (seed : Z) : option Z := Sum64StringWithSeed data seed.
Definition Sum64String (data : bytes) : option Z := Sum64StringWithSeed data DefaultSeed.
Definition Sum64 (data : bytes) : option Z := Sum64WithSeed data DefaultSeed.

(** ** The digest *)

Record Digest := mkDigest {
  initseed : Z; seed : Z; see1 : Z;
  data : bytes; (** [64]byte *)
  dlen : nat;   (** length *)
  total : Z
}.

Definition New (s : Z) : Digest := mkDigest s s s (replicate 64 0%Z) 0 0.
Definition NewDefault : Digest := New DefaultSeed.
Definition Reset (d : Digest) : Digest := mkDigest (initseed d) (initseed d) (initseed d) (data d) 0 0.
Definition SetSeed (s : Z) (d : Digest) : Digest := mkDigest (initseed d) s s (data d) (dlen d) (total d).
Definition SetInitSeed (s : Z) (d : Digest) : Digest := mkDigest s (seed d) (see1 d) (data d) (dlen d) (total d).
Definition Seed (d : Digest) : Z := seed d.
Definition InitSeed (d : Digest) : Z := initseed d.

(** copy(dst[at:], src): as many bytes as fit. *)
Definition copy_at (dst : bytes) (at_ : nat) (src : bytes) : bytes :=
  take at_ dst ++ take (length dst - at_) src ++ drop (at_ + length src) dst.

(** The blocks of the input, and what remains of it. *)
Fixpoint write_blocks (fuel : nat) (input : bytes) (seed see1 : Z) : option (bytes * Z * Z) :=
  if 64 <? length input then
    match fuel with
    | O => None
    | S fuel => '(seed, see1) ← round64 input seed see1; write_blocks fuel (drop 64 input) seed see1
    end
  else Some (input, seed, see1).

(** [Write] with the number of bytes it reports; it never returns an error. *)
Definition Write (input : bytes) (d : Digest) : option (Digest * nat) :=
  let ilen := length input in
  let tot := int_add (total d) (Z.of_nat ilen) in
  if dlen d + ilen <=? 64 then
    Some (mkDigest (initseed d) (seed d) (see1 d) (copy_at (data d) (dlen d) input) (dlen d + ilen) tot, ilen)
  else
    '(d, input) ←
      (if dlen d =? 0 then Some (d, input)
       else
         let inputpre := 64 - dlen d in
         let dat := copy_at (data d) (dlen d) (take inputpre input) in
         '(sd, sd1) ← round64 dat (seed d) (see1 d);
         Some (mkDigest (initseed d) sd sd1 dat 0 (total d), drop inputpre input));
    '(input, sd, sd1) ← write_blocks (length input) input (seed d) (see1 d);
    Some (if 0 <? length input then mkDigest (initseed d) sd sd1 (copy_at (data d) 0 input) (length input) tot
          else mkDigest (initseed d) sd sd1 (data d) (dlen d) tot, ilen).

Definition byteToSlice (b : bytes) (n : nat) : bytes := take n b.

Definition DSum64 (d : Digest) : option Z :=
  if (total d <=? 64)%Z then Sum64WithSeed (byteToSlice (data d) (dlen d)) (seed d)
  else tail_sum (data d) (dlen d) (Z.lxor (seed d) (see1 d)) (Z.to_nat (total d)).

(** [Sum]: the hash in big-endian bytes after [b]. *)
Definition Sum (b : bytes) (d : Digest) : option bytes :=
  s ← DSum64 d; Some (b ++ map (λ k, wrapu 8 (Z.shiftr s k)) [56; 48; 40; 32; 24; 16; 8; 0]%Z).

(** ** What a function reads *)

(** [p] and [q] have [i] bytes and the same ones. *)
Definition agree (i : nat) (p q : bytes) : Prop := i <= length p ∧ i <= length q ∧ take i p = take i q.

Lemma agree_sub i p q k n : agree i p q → k + n <= i → agree n (drop k p) (drop k q).
Proof using.
  intros (Hp & Hq & He) Hk. split_and!; [rewrite length_drop; lia..|]. rewrite !take_drop_commute. f_equal.
  replace (k + n) with ((k + n) `min` i) by lia. rewrite <- !take_take. by rewrite He.
Qed.

Lemma agree_refl i p : i <= length p → agree i p p.
Proof using. done. Qed.

Lemma agree_le i n p q : agree i p q → n <= i → agree n p q.
Proof using. intros H Hn. rewrite <- (drop_0 p), <- (drop_0 q). by eapply agree_sub. Qed.

Lemma byte_agree p q : agree 1 p q → ∃ r, read_byte p = Some r ∧ read_byte q = Some r.
Proof using.
  intros (Hp & Hq & He). destruct p as [|x p]; [simpl in Hp; lia|]. destruct q as [|y q]; [simpl in Hq; lia|].
  injection He as ->. by exists y.
Qed.

Lemma read32_agree p q : agree 4 p q → ∃ r, ReadUnaligned32 p = Some r ∧ ReadUnaligned32 q = Some r.
Proof using.
  intros (Hp & Hq & He). do 4 (destruct p as [|? p]; [simpl in Hp; lia|]). do 4 (destruct q as [|? q]; [simpl in Hq; lia|]).
  injection He as -> -> -> ->. by eexists.
Qed.

Lemma read64_agree p q : agree 8 p q → ∃ r, ReadUnaligned64 p = Some r ∧ ReadUnaligned64 q = Some r.
Proof using.
  intros (Hp & Hq & He). do 8 (destruct p as [|? p]; [simpl in Hp; lia|]). do 8 (destruct q as [|? q]; [simpl in Hq; lia|]).
  injection He as -> -> -> -> -> -> -> ->. by eexists.
Qed.

(** Equal results, and there is one. *)
Definition both {A} (x y : option A) : Prop := ∃ r, x = Some r ∧ y = Some r.

Lemma both_bind {A B} (x y : option A) (f h : A → option B) : both x y → (∀ r, both (f r) (h r)) → both (x ≫= f) (y ≫= h).
Proof using. intros (r & -> & ->) Hf. apply Hf. Qed.

Lemma both_some {A} (x : A) : both (Some x) (Some x).
Proof using. by exists x. Qed.

Lemma round64_agree p q sd sd1 : agree 64 p q → both (round64 p sd sd1) (round64 q sd sd1).
Proof using.
  intros H. unfold round64, add. apply both_bind; [by apply read64_agree, (agree_le 64); [|lia]|]. intros r0.
  do 7 (apply both_bind; [apply read64_agree, (agree_sub 64); [done|lia]|]; intros ?). apply both_some.
Qed.

Lemma finish_agree p q i sd n : agree i p q → i <= 16 → both (finish p i sd n) (finish q i sd n).
Proof using.
  intros H Hi. unfold finish, add. destruct (Nat.eqb_spec i 0) as [->|H0]; [apply both_some|].
  destruct (Nat.ltb_spec i 4) as [H4|H4].
  { assert (i / 2 < i) by (apply Nat.div_lt; lia).
    apply both_bind; [apply byte_agree, (agree_le i); [done|lia]|]. intros a.
    do 2 (apply both_bind; [apply byte_agree, (agree_sub i); [done|lia]|]; intros ?). apply both_some. }
  destruct (Nat.eqb_spec i 4) as [->|H4'].
  { apply both_bind; [by apply read32_agree|]. intros a. apply both_some. }
  destruct (Nat.ltb_spec i 8) as [H8|H8].
  { apply both_bind; [apply read32_agree, (agree_le i); [done|lia]|]. intros a.
    apply both_bind; [apply read32_agree, (agree_sub i); [done|lia]|]. intros b. apply both_some. }
  destruct (Nat.eqb_spec i 8) as [->|H8'].
  { apply both_bind; [by apply read64_agree|]. intros a. apply both_some. }
  apply both_bind; [apply read64_agree, (agree_le i); [done|lia]|]. intros a.
  apply both_bind; [apply read64_agree, (agree_sub i); [done|lia]|]. intros b. apply both_some.
Qed.

Lemma tail_agree p q i sd n : agree i p q → both (tail_sum p i sd n) (tail_sum q i sd n).
Proof using.
  unfold tail_sum. assert (Hgen : ∀ fuel i p q sd, agree i p q → i <= fuel →
    both ('(p, i, seed) ← loop16 fuel p i sd; finish p i seed n) ('(p, i, seed) ← loop16 fuel q i sd; finish p i seed n)).
  { clear. induction fuel as [|fuel IH]; intros i p q sd H Hi; cbn [loop16].
    - destruct (Nat.ltb_spec 16 i); [lia|]. simpl. by apply finish_agree; [|lia].
    - destruct (Nat.ltb_spec 16 i); [|simpl; by apply finish_agree; [|lia]].
      destruct (read64_agree p q) as (r0 & -> & ->); [by apply (agree_le i); [|lia]|]. cbn [mbind option_bind].
      destruct (read64_agree (add p 8) (add q 8)) as (r8 & -> & ->); [by apply (agree_sub i); [|lia]|]. cbn [mbind option_bind].
      apply IH; [|lia]. apply (agree_sub i); [done|lia]. }
  intros H. by apply Hgen.
Qed.

(** ** Blocks *)

Fixpoint rounds (n : nat) (p : bytes) (sd sd1 : Z) : option (Z * Z) :=
  match n with O => Some (sd, sd1) | S n => '(sd, sd1) ← round64 p sd sd1; rounds n (drop 64 p) sd sd1 end.

(** The number of blocks taken from [len] bytes: at least one byte is left. *)
Definition blocks (len : nat) : nat := (len - 1) / 64.

Lemma blocks_spec len : len - 64 * blocks len <= 64 ∧ (0 < len → 64 * blocks len < len).
Proof using. unfold blocks. pose proof (Nat.div_mod (len - 1) 64). pose proof (Nat.mod_upper_bound (len - 1) 64). lia. Qed.

Lemma blocks_unique len k : 64 * k < len → len - 64 * k <= 64 → blocks len = k.
Proof using. intros H1 H2. unfold blocks. symmetry. apply (Nat.div_unique _ _ _ (len - 1 - 64 * k)); lia. Qed.

Lemma rounds_agree n p q sd sd1 : agree (64 * n) p q → both (rounds n p sd sd1) (rounds n q sd sd1).
Proof using.
  revert p q sd sd1. induction n as [|n IH]; intros p q sd sd1 H; cbn [rounds]; [apply both_some|].
  apply both_bind; [apply round64_agree, (agree_le (64 * S n)); [done|lia]|]. intros [sd' sd1'].
  apply IH, (agree_sub (64 * S n)); [done|lia].
Qed.

Lemma rounds_app n m p sd sd1 : rounds (n + m) p sd sd1 = '(sd, sd1) ← rounds n p sd sd1; rounds m (drop (64 * n) p) sd sd1.
Proof using.
  revert p sd sd1. induction n as [|n IH]; intros p sd sd1; [done|]. cbn [rounds Nat.add].
  destruct (round64 p sd sd1) as [[sd' sd1']|]; [|done]. simpl. rewrite IH. destruct (rounds n (drop 64 p) sd' sd1') as [[? ?]|]; [|done].
  cbn [mbind option_bind]. rewrite drop_drop. f_equal. f_equal. lia.
Qed.

Lemma blocks_S len : 64 < len → blocks len = S (blocks (len - 64)).
Proof using. intros H. destruct (blocks_spec (len - 64)) as [H1 H2]. apply blocks_unique; lia. Qed.

Lemma loop64_rounds fuel p i sd sd1 : i <= fuel →
  loop64 fuel p i sd sd1 = '(sd, sd1) ← rounds (blocks i) p sd sd1; Some (drop (64 * blocks i) p, i - 64 * blocks i, sd, sd1).
Proof using.
  revert p i sd sd1. induction fuel as [|fuel IH]; intros p i sd sd1 Hi; cbn [loop64].
  - assert (i = 0) as -> by lia. done.
  - destruct (Nat.ltb_spec 64 i) as [H|H].
    + rewrite (blocks_S i H). cbn [rounds]. destruct (round64 p sd sd1) as [[sd' sd1']|]; [|done]. cbn [mbind option_bind].
      rewrite IH by lia. destruct (rounds _ _ _ _) as [[? ?]|]; [|done]. cbn [mbind option_bind]. unfold add. rewrite drop_drop.
      replace (64 * S (blocks (i - 64))) with (64 + 64 * blocks (i - 64)) by lia. by rewrite Nat.sub_add_distr.
    + assert (blocks i = 0) as -> by (destruct (decide (i = 0)) as [->|]; [done|apply blocks_unique; lia]).
      simpl. by rewrite Nat.sub_0_r.
Qed.

Lemma write_blocks_rounds fuel p sd sd1 : length p <= fuel →
  write_blocks fuel p sd sd1 = '(sd, sd1) ← rounds (blocks (length p)) p sd sd1; Some (drop (64 * blocks (length p)) p, sd, sd1).
Proof using.
  revert p sd sd1. induction fuel as [|fuel IH]; intros p sd sd1 Hi; cbn [write_blocks].
  - destruct p; [done|simpl in Hi; lia].
  - destruct (Nat.ltb_spec 64 (length p)) as [H|H].
    + rewrite (blocks_S _ H). cbn [rounds]. destruct (round64 p sd sd1) as [[sd' sd1']|]; [|done]. cbn [mbind option_bind].
      rewrite IH by (rewrite length_drop; lia). rewrite length_drop. destruct (rounds _ _ _ _) as [[? ?]|]; [|done].
      cbn [mbind option_bind]. rewrite drop_drop. by replace (64 * S (blocks (length p - 64))) with (64 + 64 * blocks (length p - 64)) by lia.
    + assert (blocks (length p) = 0) as -> by (destruct (decide (length p = 0)) as [->|]; [done|apply blocks_unique; lia]). done.
Qed.

(** ** The digest of the bytes [bs] with the seed [s] *)

Record digests (s : Z) (bs : bytes) (d : Digest) : Prop := {
  dg_total : total d = Z.of_nat (length bs);
  dg_data : length (data d) = 64;
  dg_len : dlen d = length bs - 64 * blocks (length bs);
  dg_rest : take (dlen d) (data d) = drop (64 * blocks (length bs)) bs;
  dg_seeds : rounds (blocks (length bs)) bs s s = Some (seed d, see1 d)
}.

Lemma length_copy_at dst n src : n + length src <= length dst → length (copy_at dst n src) = length dst.
Proof using. intros H. unfold copy_at. rewrite !length_app, !length_take, length_drop. lia. Qed.

Lemma take_copy_at dst n src : n + length src <= length dst → take (n + length src) (copy_at dst n src) = take n dst ++ src.
Proof using.
  intros H. unfold copy_at. rewrite (take_ge src) by lia. rewrite app_assoc. apply take_app_length'.
  rewrite length_app, length_take. lia.
Qed.

Lemma digests_new s : digests s [] (New s).
Proof using. by split. Qed.

Lemma rounds_prefix n bs input s : 64 * n <= length bs → rounds n (bs ++ input) s s = rounds n bs s s.
Proof using.
  intros H. destruct (rounds_agree n (bs ++ input) bs s s) as (r & -> & ->); [|done].
  split_and!; [rewrite length_app; lia|lia|]. by rewrite take_app_le by lia.
Qed.

Lemma blocks_le len : 64 * blocks len <= len.
Proof using. destruct (decide (len = 0)) as [->|]; [done|]. pose proof (proj2 (blocks_spec len)). lia. Qed.

(** The input after the first block has been filled. *)
Lemma write_rest s bs all m sd sd1 dat tot init : 64 * m < length all → rounds m all s s = Some (sd, sd1) →
  length dat = 64 → tot = Z.of_nat (length all) → bs = drop (64 * m) all →
  ∃ d', ('(input, sd, sd1) ← write_blocks (length bs) bs sd sd1;
        Some (if 0 <? length input then mkDigest init sd sd1 (copy_at dat 0 input) (length input) tot
              else mkDigest init sd sd1 dat 0 tot)) = Some d' ∧ digests s all d' ∧ initseed d' = init.
Proof using.
  intros Hm Hr Hd Ht ->. set (len := length all). assert (Hl : length (drop (64 * m) all) = len - 64 * m) by apply length_drop.
  rewrite write_blocks_rounds by done. rewrite Hl. set (b := blocks (len - 64 * m)).
  destruct (blocks_spec (len - 64 * m)) as [Hb1 Hb2]. fold b in Hb1, Hb2.
  assert (Hbl : blocks (length all) = m + b) by (apply blocks_unique; fold len; lia).
  assert (Hall : rounds (m + b) all s s = rounds b (drop (64 * m) all) sd sd1) by by rewrite rounds_app, Hr.
  destruct (rounds_agree (m + b) all all s s) as ([sd' sd1'] & Hsd & _); [apply agree_refl; lia|].
  rewrite <- Hall, Hsd. cbn [mbind option_bind]. rewrite drop_drop. replace (64 * m + 64 * b) with (64 * (m + b)) by lia.
  assert (Hrest : length (drop (64 * (m + b)) all) = len - 64 * (m + b)) by apply length_drop.
  assert (0 < len - 64 * (m + b) <= 64) by lia. rewrite (proj2 (Nat.ltb_lt _ _)) by lia.
  eexists. split; [done|]. split; [|done]. split; cbn [total data dlen seed see1]; rewrite ?Hbl; try done.
  - rewrite length_copy_at by lia. done.
  - exact (take_copy_at dat 0 (drop (64 * (m + b)) all) ltac:(lia)).
Qed.

Lemma Write_digests s bs input d : digests s bs d → (Z.of_nat (length (bs ++ input)) <= MaxInt64)%Z →
  ∃ d', Write input d = Some (d', length input) ∧ digests s (bs ++ input) d' ∧ initseed d' = initseed d.
Proof using.
  intros [Ht Hd Hl Hr Hs] Hmax. unfold Write.
  set (len := length bs) in *. set (k := blocks len) in *. pose proof (blocks_le len) as Hk. fold k in Hk.
  destruct (blocks_spec len) as [Hk1 Hk2]. fold k in Hk1, Hk2.
  assert (Hlen : length (bs ++ input) = len + length input) by apply length_app.
  assert (Htot : int_add (total d) (Z.of_nat (length input)) = Z.of_nat (length (bs ++ input))).
  { unfold int_add. rewrite Ht, wraps64_id; unfold is_int, MinInt64; lia. }
  rewrite Htot. destruct (Nat.leb_spec (dlen d + length input) 64) as [Hle|Hgt].
  - eexists. split; [done|]. split; [|done].
    assert (Hb : blocks (length (bs ++ input)) = k).
    { rewrite Hlen. destruct (decide (len + length input = 0)) as [H0|H0]; [unfold k; f_equal; lia|].
      destruct (decide (len = 0)) as [H1|H1]; [|apply blocks_unique; lia].
      assert (k = 0) as -> by (unfold k; by rewrite H1). apply blocks_unique; lia. }
    split; cbn [total data dlen seed see1]; rewrite ?Hb; try done.
    + rewrite length_copy_at; lia.
    + rewrite Hlen. lia.
    + rewrite take_copy_at by lia. rewrite Hr, drop_app_le by lia. done.
    + by rewrite rounds_prefix by lia.
  - destruct (Nat.eqb_spec (dlen d) 0) as [H0|H0].
    + assert (len = 0) as Hl0 by (destruct (decide (len = 0)); [done|lia]). assert (bs = []) as -> by by apply nil_length_inv.
      assert (Hk0 : k = 0) by (unfold k; by rewrite Hl0). rewrite Hk0 in Hs. simpl in Hs. injection Hs as Hs1 Hs2. cbn [mbind option_bind]. rewrite <- Hs1, <- Hs2.
      destruct (write_rest s input input 0 s s (data d) (Z.of_nat (length input)) (initseed d)) as (d' & Hw & Hdg & Hi); try done.
      { lia. }
      exists d'. split; [|done]. rewrite H0. simpl in Hw.
      destruct (write_blocks _ _ _ _) as [[[? ?] ?]|]; [|done]. simpl in *. injection Hw as <-. done.
    + set (pre := 64 - dlen d). set (dat := copy_at (data d) (dlen d) (take pre input)).
      assert (Hpre : length (take pre input) = pre) by (rewrite length_take; lia).
      assert (Hdat : dat = take 64 (drop (64 * k) (bs ++ input))).
      { rewrite <- (take_ge dat 64) by (unfold dat; rewrite length_copy_at; lia).
        replace 64 with (dlen d + length (take pre input)) at 1 by lia. unfold dat. rewrite take_copy_at by lia.
        rewrite Hr, drop_app_le by lia. rewrite take_app. rewrite (take_ge (drop _ bs)) by (rewrite length_drop; lia).
        f_equal. f_equal. rewrite length_drop. lia. }
      assert (Hld : length dat = 64) by (unfold dat; rewrite length_copy_at; lia).
      destruct (round64_agree dat (drop (64 * k) (bs ++ input)) (seed d) (see1 d)) as ([sd sd1] & Hrd & Hrd').
      { split_and!; [lia|rewrite length_drop; lia|]. by rewrite Hdat, take_take, Nat.min_id. }
      rewrite Hrd. cbn [mbind option_bind].
      destruct (write_rest s (drop pre input) (bs ++ input) (S k) sd sd1 dat (Z.of_nat (length (bs ++ input))) (initseed d))
        as (d' & Hw & Hdg & Hi); try done.
      * lia.
      * replace (S k) with (k + 1) by lia. rewrite rounds_app, rounds_prefix, Hs by lia. cbn [mbind option_bind rounds]. by rewrite Hrd'.
      * rewrite drop_app_ge by lia. f_equal. lia.
      * exists d'. split; [|done]. cbn [seed see1 initseed data dlen].
        destruct (write_blocks _ _ _ _) as [[[? ?] ?]|]; [|done]. simpl in *. injection Hw as <-. done.
Qed.

(** The hash of a digest is the hash of its bytes. *)
Lemma DSum64_digests s bs d : digests s bs d → both (DSum64 d) (Sum64WithSeed bs s).
Proof using.
  intros [Ht Hd Hl Hr Hs]. unfold DSum64, Sum64WithSeed, Sum64StringWithSeed, byteToSlice.
  destruct (Z.leb_spec (total d) 64) as [Hle|Hgt].
  - assert (Hb : blocks (length bs) = 0) by (destruct (decide (length bs = 0)) as [->|]; [done|apply blocks_unique; lia]).
    rewrite Hb in *. simpl in Hs. injection Hs as Hs1 _. rewrite Nat.mul_0_r, drop_0 in Hr. rewrite <- Hs1, Hr.
    destruct (Nat.ltb_spec 64 (length bs)) as [|_]; [lia|]. by apply tail_agree, agree_refl.
  - destruct (Nat.ltb_spec 64 (length bs)) as [_|]; [|lia]. rewrite loop64_rounds, Hs by done. cbn [mbind option_bind].
    rewrite Ht, Nat2Z.id, Hl. apply tail_agree. pose proof (blocks_le (length bs)). destruct (blocks_spec (length bs)) as [? _].
    split_and!; [lia|rewrite length_drop; lia|]. rewrite <- Hl, Hr. rewrite take_ge; [done|]. rewrite length_drop. lia.
Qed.

(** Every string has a hash. *)
Lemma Sum64String_total bs s : is_Some (Sum64StringWithSeed bs s).
Proof using.
  unfold Sum64StringWithSeed. destruct (Nat.ltb_spec 64 (length bs)) as [H|H].
  - rewrite loop64_rounds by done.
    destruct (rounds_agree (blocks (length bs)) bs bs s s) as ([sd sd1] & -> & _); [apply agree_refl, blocks_le|].
    cbn [mbind option_bind].
    destruct (tail_agree (drop (64 * blocks (length bs)) bs) (drop (64 * blocks (length bs)) bs) (length bs - 64 * blocks (length bs))
                (Z.lxor sd sd1) (length bs)) as (h & -> & _); [|done]. apply agree_refl. by rewrite length_drop.
  - destruct (tail_agree bs bs (length bs) s (length bs)) as (h & -> & _); [by apply agree_refl|done].
Qed.

(** ** Sequences of operations *)

Inductive dop := DWrite (b : bytes) | DReset | DSetSeed (s : Z) | DSetInitSeed (s : Z).

Definition do_op (o : dop) (d : Digest) : option Digest :=
  match o with
  | DWrite b => '(d, n) ← Write b d; Some d
  | DReset => Some (Reset d)
  | DSetSeed s => Some (SetSeed s d)
  | DSetInitSeed s => Some (SetInitSeed s d)
  end.
Fixpoint do_ops (os : list dop) (d : Digest) : option Digest :=
  match os with [] => Some d | o :: os => d ← do_op o d; do_ops os d end.

(** What has been written since the last reset, with which seed.  The seed may
    be set until more than one block has been written. *)
Record written := mkWritten { w_init : Z; w_seed : Z; w_bytes : bytes }.
Definition spec_op (o : dop) (w : written) : option written :=
  match o with
  | DWrite b =>
      if (Z.of_nat (length (w_bytes w ++ b)) <=? MaxInt64)%Z then Some (mkWritten (w_init w) (w_seed w) (w_bytes w ++ b)) else None
  | DReset => Some (mkWritten (w_init w) (w_init w) [])
  | DSetSeed s => if length (w_bytes w) <=? 64 then Some (mkWritten (w_init w) s (w_bytes w)) else None
  | DSetInitSeed s => Some (mkWritten s (w_seed w) (w_bytes w))
  end.
Fixpoint spec_ops (os : list dop) (w : written) : option written :=
  match os with [] => Some w | o :: os => w ← spec_op o w; spec_ops os w end.

Lemma do_op_digests o w w' d : spec_op o w = Some w' → initseed d = w_init w → digests (w_seed w) (w_bytes w) d →
  ∃ d', do_op o d = Some d' ∧ initseed d' = w_init w' ∧ digests (w_seed w') (w_bytes w') d'.
Proof using.
  intros Hsp Hi Hd. destruct o as [b| |s|s]; simpl in *.
  - destruct (Z.leb_spec (Z.of_nat (length (w_bytes w ++ b))) MaxInt64) as [Hm|]; [|done]. injection Hsp as <-.
    destruct (Write_digests _ _ b d Hd Hm) as (d' & -> & Hd' & Hi'). exists d'. simpl. split_and!; [done|congruence|done].
  - injection Hsp as <-. eexists. split; [done|]. split; [done|]. destruct Hd. rewrite <- Hi. by split.
  - destruct (Nat.leb_spec (length (w_bytes w)) 64) as [Hl|]; [|done]. injection Hsp as <-. eexists. split; [done|]. split; [done|].
    destruct Hd as [Ht Hda Hle Hr Hs]. split; try done. simpl.
    assert (blocks (length (w_bytes w)) = 0) as -> by (destruct (decide (length (w_bytes w) = 0)) as [->|]; [done|apply blocks_unique; lia]).
    done.
  - injection Hsp as <-. eexists. split; [done|]. split; [done|]. destruct Hd. by split.
Qed.

Lemma do_ops_digests os w w' d : spec_ops os w = Some w' → initseed d = w_init w → digests (w_seed w) (w_bytes w) d →
  ∃ d', do_ops os d = Some d' ∧ initseed d' = w_init w' ∧ digests (w_seed w') (w_bytes w') d'.
Proof using.
  revert w d. induction os as [|o os IH]; simpl; intros w d Hsp Hi Hd; [injection Hsp as <-; eauto|].
  destruct (spec_op o w) as [w1|] eqn:Ho; [|done]. destruct (do_op_digests o w w1 d Ho Hi Hd) as (d1 & -> & Hi1 & Hd1).
  by apply (IH w1 d1).
Qed.

(** C39: hashing in pieces.  A digest with any seed, after any sequence of writes,
    resets and changes of the seed (the latter while at most 64 bytes are
    written), gives the hash that one call gives for all the bytes written since
    the last reset; neither reads outside its buffer, on machines of both byte
    orders. *)
Theorem wyhash_stream (s : Z) (os : list dop) (w : written) :
  spec_ops os (mkWritten s s []) = Some w →
  ∃ d h, do_ops os (New s) = Some d ∧ DSum64 d = Some h ∧ Sum64WithSeed (w_bytes w) (w_seed w) = Some h.
Proof using.
  intros Hsp. destruct (do_ops_digests os _ w (New s) Hsp eq_refl (digests_new s)) as (d & Hd & _ & Hdg).
  destruct (DSum64_digests _ _ _ Hdg) as (h & H1 & H2). by exists d, h.
Qed.
End wyhash.

(** ** Witnesses *)

Definition sample_bytes (n : nat) : bytes := map (λ i, wrapu 8 (Z.of_nat i * 37 + 11)) (seq 0 n).
Definition sample_ops : list dop :=
  [DWrite (sample_bytes 70); DReset; DSetSeed 5; DWrite (sample_bytes 17); DWrite (sample_bytes 48); DWrite (sample_bytes 129)].

Lemma wyhash_stream_witness :
  ∃ w, spec_ops sample_ops (mkWritten 1 1 []) = Some w ∧ w_seed w = 5%Z ∧ length (w_bytes w) = 194 ∧
  ∃ d h, do_ops false sample_ops (New 1) = Some d ∧ DSum64 false d = Some h ∧ Sum64WithSeed false (w_bytes w) (w_seed w) = Some h.
Proof.
  eexists. split; [reflexivity|]. split; [reflexivity|]. split; [reflexivity|].
  exact (wyhash_stream false 1 sample_ops _ eq_refl).
Defined.
