(* ===== verification/SkipSet.v ===== *)
(** * The concurrent skip set

    Model of src/structure/skipset/skipset.go: the set [Int64Set] over a skip list
    of nodes with a lock and two flags each, its operations [Add], [Contains] and
    [Remove] as programs of atomic steps (one load or store of a link, one read
    or update of a flag word, one acquisition or release of a lock), run by any
    number of goroutines in any interleaving.  Atomic operations are
    sequentially consistent; the plain loads and stores of the source are made
    under the lock of the node or before the node is published.  A node is never
    freed while a goroutine refers to it, so places of nodes are not reused.
    The code is over a class of types of values with their comparisons, since the
    sets of types.go are this one for other types. *)

From stdpp Require Import functions.
From S2P Require Import Prelude Atomic.

(** ** Constants and flags *)

Definition maxLevel : nat := 16.
Definition defaultHighestLevel : nat := 3.
Definition op1 : nat := 4.
Definition op2 : nat := maxLevel - op1.

Definition bitflag : Type := Z.
Definition fullyLinked : Z := 1.
Definition marked : Z := 2.

(** The loop of [SetTrue] retries until its compare-and-swap succeeds or the
    flags are set: one atomic update. *)
Definition SetTrue (f : bitflag) (flags : Z) : bitflag :=
  if (Z.land f flags =? flags)%Z then f else Z.lor f flags.
Definition SetFalse (f : bitflag) (flags : Z) : bitflag :=
  let check := Z.land f flags in if (check =? 0)%Z then f else Z.lxor f check.
Definition Get (f : bitflag) (flag : Z) : bool := negb (Z.land f flag =? 0)%Z.
Definition MGet (f : bitflag) (check expect : Z) : bool := (Z.land f check =? expect)%Z.

(** ** The optional array of links

    Four links inline and the rest behind a pointer that is nil in a low node;
    [None] is the panic on that nil pointer or an index out of range. *)

Record optionalArray := mkArray { base : list (option nat); extra : option (list (option nat)) }.

Definition load (a : optionalArray) (i : nat) : option (option nat) :=
  if i <? op1 then base a !! i else e ← extra a; e !! (i - op1).

Definition store (a : optionalArray) (i : nat) (p : option nat) : option optionalArray :=
  if i <? op1 then Some (mkArray (<[i := p]> (base a)) (extra a))
  else e ← extra a; if i - op1 <? length e then Some (mkArray (base a) (Some (<[i - op1 := p]> e))) else None.

(** ** Values

    The comparisons [n.value < value] and [n.value == value] of a type.  Values
    that do not compare with themselves compare with nothing; the others are
    ordered by their ranks, and those of the same rank are equal. *)

Class SkipKey (K C : Type) `{Countable C} := {
  vlt : K → K → bool;
  veq : K → K → bool;
  zero : K;
  rank : K → C;
  clt : relation C;
  clt_dec :: RelDecision clt;
  clt_order :: StrictOrder clt;
  clt_total :: Trichotomy clt;
  vlt_rank a b : vlt a b = veq a a && veq b b && bool_decide (clt (rank a) (rank b));
  veq_rank a b : veq a b = veq a a && veq b b && bool_decide (rank a = rank b)
}.
Infix "≺" := clt (at level 70) : go_scope.

(** The arrays preds and succs. *)
Abbreviation array := (nat → option nat).

Section keys.
Context {K C : Type} `{CC : Countable C} {HK : SkipKey K C}.

(** ** Nodes and the set *)

Record int64Node := mkNode {
  value : K;
  next : optionalArray;
  mu : option nat; (** the goroutine that holds the lock *)
  flags : bitflag;
  level : nat
}.

Definition newInt64Node (value : K) (level : nat) : int64Node :=
  mkNode value
    (mkArray (replicate op1 None) (if op1 <? level then Some (replicate op2 None) else None)) None 0%Z level.

(** Nodes are places of [nodes]; the header is place 0 for ever. *)
Record Int64Set := mkSet { nodes : list int64Node; len : Z; highestLevel : nat }.
Definition header : nat := 0.

Definition set_next (a : optionalArray) (n : int64Node) : int64Node := mkNode (value n) a (mu n) (flags n) (level n).
Definition set_mu (m : option nat) (n : int64Node) : int64Node := mkNode (value n) (next n) m (flags n) (level n).
Definition set_flags (f : bitflag) (n : int64Node) : int64Node := mkNode (value n) (next n) (mu n) f (level n).

Definition NewInt64 : Int64Set :=
  mkSet [set_flags (SetTrue 0%Z fullyLinked) (newInt64Node zero maxLevel)] 0%Z defaultHighestLevel.

Definition update (x : nat) (n : int64Node) (s : Int64Set) : Int64Set :=
  mkSet (<[x := n]> (nodes s)) (len s) (highestLevel s).

Definition atomicLoadNext (s : Int64Set) (x i : nat) : option (option nat) := n ← nodes s !! x; load (next n) i.
Definition atomicStoreNext (x i : nat) (p : option nat) (s : Int64Set) : option Int64Set :=
  n ← nodes s !! x; a ← store (next n) i p; Some (update x (set_next a n) s).
Definition lessthan (n : int64Node) (v : K) : bool := vlt (value n) v.
Definition equal (n : int64Node) (v : K) : bool := veq (value n) v.

(** ** Operations *)

Inductive op := Add (v : K) | Contains (v : K) | Remove (v : K).

Definition nils : array := λ _, None.
Definition read (P : array) (i : nat) : option nat := if i <? maxLevel then P i else None.
Definition write (P : array) (i : nat) (x : option nat) : option array :=
  if i <? maxLevel then Some (<[i := x]> P) else None.

(** A search: of [Add] with the level of its node, of [Contains], of [Remove]
    with the node it has marked and its top layer. *)
Inductive finder := FAdd (v : K) (lv : nat) | FHas (v : K) | FRem (v : K) (m : option (nat * nat)).
(** A change of the list under the locks of the predecessors. *)
Inductive work := WAdd (v : K) (lv : nat) | WRem (v : K) (n top : nat).

Definition key (f : finder) : K := match f with FAdd v _ | FHas v | FRem v _ => v end.
Definition layers (w : work) : nat := match w with WAdd _ lv => lv | WRem _ _ top => S top end.
Definition again (w : work) : finder := match w with WAdd v lv => FAdd v lv | WRem v n top => FRem v (Some (n, top)) end.

(** Where a goroutine is, with its local variables: [P] and [Q] are preds and
    succs, [hi] is highestLocked + 1, [lf] is lFound. *)
Inductive pc :=
  | Idle
  | RandLoad (v : K) (lv : nat)
  | RandCas (v : K) (lv hl : nat)
  | FindStart (f : finder) (P Q : array)
  | FindLoad (f : finder) (i x : nat) (P Q : array) (lf : option nat)
  | AddFound (v : K) (lv n : nat) (P Q : array)
  | AddWait (v : K) (n : nat)
  | HasFlags (v : K) (n : nat)
  | RemFlags (v : K) (l n : nat) (P Q : array)
  | RemLock (v : K) (l n : nat) (P Q : array)
  | RemMarked (v : K) (l n : nat) (P Q : array)
  | RemUnlock (v : K) (n : nat)
  | RemMark (v : K) (l n : nat) (P Q : array)
  | LockPred (w : work) (P Q : array) (k hi : nat)
  | CheckPred (w : work) (P Q : array) (k hi : nat)
  | CheckSucc (w : work) (P Q : array) (k hi : nat)
  | CheckNext (w : work) (P Q : array) (k hi : nat)
  | AddNew (v : K) (lv : nat) (P Q : array) (hi : nat)
  | AddInit (v : K) (lv : nat) (P Q : array) (hi nn k : nat)
  | AddLink (v : K) (lv : nat) (P Q : array) (hi nn k : nat)
  | AddFull (v : K) (lv : nat) (P Q : array) (hi nn : nat)
  | UnlinkLoad (v : K) (n top : nat) (P Q : array) (hi i : nat)
  | UnlinkStore (v : K) (n top : nat) (P Q : array) (hi i : nat) (nx : option nat)
  | UnlockNode (v : K) (n top : nat) (P Q : array) (hi : nat)
  | UnlockPred (w : work) (P Q : array) (i : nat) (valid : bool)
  | LenAdd (w : work)
  | Returned (r : bool).

(** *** Between two atomic steps *)

(** The loop over the layers: preds[layer] is locked unless it is the one
    before.  After the loop the change is made. *)
Definition next_layer (w : work) (P Q : array) (k : nat) (prevPred : option nat) (hi : nat) : pc :=
  if k <? layers w then
    if decide (P k = prevPred) then CheckPred w P Q k hi else LockPred w P Q k hi
  else
    match w with
    | WAdd v lv => AddNew v lv P Q hi
    | WRem v n top => UnlinkLoad v n top P Q hi top
    end.

(** unlockInt64, with what follows it: the retry or the end of the operation. *)
Fixpoint unlockInt64 (w : work) (P Q : array) (n : nat) (prevPred : option nat) (valid : bool) : pc :=
  match n with
  | O => if valid then LenAdd w else FindStart (again w) P Q
  | S i => if decide (P i = prevPred) then unlockInt64 w P Q i prevPred valid else UnlockPred w P Q i valid
  end.

(** The loop that links the new node. *)
Definition link_layer (v : K) (lv : nat) (P Q : array) (hi nn k : nat) : pc :=
  if k <? lv then AddInit v lv P Q hi nn k else AddFull v lv P Q hi nn.

(** The end of a search. *)
Definition found (f : finder) (P Q : array) (lf : option nat) : option pc :=
  match f with
  | FAdd v lv => Some (next_layer (WAdd v lv) P Q 0 None 0)
  | FHas _ => Some (Returned false)
  | FRem v (Some (n, top)) => Some (next_layer (WRem v n top) P Q 0 None 0)
  | FRem v None =>
      match lf with
      | None => Some (Returned false)
      | Some l => n ← Q l; Some (RemFlags v l n P Q)
      end
  end.

Definition lower (f : finder) (i x : nat) (P Q : array) (lf : option nat) : option pc :=
  match i with O => found f P Q lf | S i => Some (FindLoad f i x P Q lf) end.

(** The end of a layer in findNodeAdd, Contains and findNodeRemove; [eq] tells
    whether the successor has the value. *)
Definition layer_add (v : K) (lv i x : nat) (succ : option nat) (eq : bool) (P Q : array) : option pc :=
  P ← write P i (Some x); Q ← write Q i succ;
  if eq then n ← succ; Some (AddFound v lv n P Q) else lower (FAdd v lv) i x P Q None.
Definition layer_has (v : K) (i x : nat) (succ : option nat) (eq : bool) (P Q : array) : option pc :=
  if eq then n ← succ; Some (HasFlags v n) else lower (FHas v) i x P Q None.
Definition layer_remove (v : K) (m : option (nat * nat)) (i x : nat) (succ : option nat) (eq : bool)
    (P Q : array) (lf : option nat) : option pc :=
  P ← write P i (Some x); Q ← write Q i succ;
  lower (FRem v m) i x P Q match lf with Some _ => lf | None => if eq then Some i else None end.
Definition layer_end (f : finder) (i x : nat) (succ : option nat) (eq : bool) (P Q : array) (lf : option nat) : option pc :=
  match f with
  | FAdd v lv => layer_add v lv i x succ eq P Q
  | FHas v => layer_has v i x succ eq P Q
  | FRem v m => layer_remove v m i x succ eq P Q lf
  end.

(** *** The atomic steps

    [Add] first refuses a value that is not equal to itself; in the sets of
    integers and strings there is no such value and no such test. *)

Inductive outcome := Go (s : Int64Set) (p : pc) | Blocked | Panics.
Definition goes (o : option (Int64Set * pc)) : outcome := match o with Some (s, p) => Go s p | None => Panics end.

Definition Lock (t : nat) (s : Int64Set) (x : nat) (p : pc) : outcome :=
  match nodes s !! x with
  | None => Panics
  | Some n => match mu n with None => Go (update x (set_mu (Some t) n) s) p | Some _ => Blocked end
  end.
Definition Unlock (s : Int64Set) (x : nat) : option Int64Set :=
  n ← nodes s !! x; match mu n with None => None | Some _ => Some (update x (set_mu None n) s) end.

(** A load of a link in a search. *)
Definition search (s : Int64Set) (f : finder) (i x : nat) (P Q : array) (lf : option nat) : option pc :=
  succ ← atomicLoadNext s x i;
  match succ with
  | None => layer_end f i x None false P Q lf
  | Some y =>
      n ← nodes s !! y;
      if lessthan n (key f) then Some (FindLoad f i y P Q lf) else layer_end f i x (Some y) (equal n (key f)) P Q lf
  end.

Definition thread_step (t : nat) (s : Int64Set) (p : pc) : outcome :=
  match p with
  | Idle | Returned _ => Blocked
  | RandLoad v lv =>
      if negb (veq v v) then Go s (Returned false)
      else Go s (if lv <=? highestLevel s then FindStart (FAdd v lv) nils nils else RandCas v lv (highestLevel s))
  | RandCas v lv hl =>
      if decide (highestLevel s = hl) then Go (mkSet (nodes s) (len s) lv) (FindStart (FAdd v lv) nils nils)
      else Go s (RandLoad v lv)
  | FindStart f P Q =>
      goes (p ← match highestLevel s with O => found f P Q None | S i => Some (FindLoad f i header P Q None) end; Some (s, p))
  | FindLoad f i x P Q lf => goes (p ← search s f i x P Q lf; Some (s, p))
  | AddFound v lv n P Q =>
      goes (nd ← nodes s !! n;
            Some (s, if Get (flags nd) marked then FindStart (FAdd v lv) P Q else AddWait v n))
  | AddWait v n =>
      goes (nd ← nodes s !! n; Some (s, if Get (flags nd) fullyLinked then Returned false else AddWait v n))
  | HasFlags v n =>
      goes (nd ← nodes s !! n; Some (s, Returned (MGet (flags nd) (Z.lor fullyLinked marked) fullyLinked)))
  | RemFlags v l n P Q =>
      goes (nd ← nodes s !! n;
            Some (s, if MGet (flags nd) (Z.lor fullyLinked marked) fullyLinked && (level nd =? S l)
                     then RemLock v l n P Q else Returned false))
  | RemLock v l n P Q => Lock t s n (RemMarked v l n P Q)
  | RemMarked v l n P Q =>
      goes (nd ← nodes s !! n; Some (s, if Get (flags nd) marked then RemUnlock v n else RemMark v l n P Q))
  | RemUnlock v n => goes (s ← Unlock s n; Some (s, Returned false))
  | RemMark v l n P Q =>
      goes (nd ← nodes s !! n;
            Some (update n (set_flags (SetTrue (flags nd) marked) nd) s, next_layer (WRem v n l) P Q 0 None 0))
  | LockPred w P Q k hi =>
      match read P k with None => Panics | Some p => Lock t s p (CheckPred w P Q k (S k)) end
  | CheckPred w P Q k hi =>
      goes (p ← read P k; nd ← nodes s !! p;
            Some (s, if Get (flags nd) marked then unlockInt64 w P Q hi None false
                     else match w, Q k with WAdd _ _, Some _ => CheckSucc w P Q k hi | _, _ => CheckNext w P Q k hi end))
  | CheckSucc w P Q k hi =>
      goes (q ← read Q k; nd ← nodes s !! q;
            Some (s, if Get (flags nd) marked then unlockInt64 w P Q hi None false else CheckNext w P Q k hi))
  | CheckNext w P Q k hi =>
      goes (p ← read P k; nx ← atomicLoadNext s p k;
            Some (s, if decide (nx = Q k) then next_layer w P Q (S k) (P k) hi else unlockInt64 w P Q hi None false))
  | AddNew v lv P Q hi =>
      Go (mkSet (nodes s ++ [newInt64Node v lv]) (len s) (highestLevel s)) (link_layer v lv P Q hi (length (nodes s)) 0)
  | AddInit v lv P Q hi nn k => goes (s ← atomicStoreNext nn k (Q k) s; Some (s, AddLink v lv P Q hi nn k))
  | AddLink v lv P Q hi nn k =>
      goes (p ← read P k; s ← atomicStoreNext p k (Some nn) s; Some (s, link_layer v lv P Q hi nn (S k)))
  | AddFull v lv P Q hi nn =>
      goes (nd ← nodes s !! nn;
            Some (update nn (set_flags (SetTrue (flags nd) fullyLinked) nd) s, unlockInt64 (WAdd v lv) P Q hi None true))
  | UnlinkLoad v n top P Q hi i => goes (nx ← atomicLoadNext s n i; Some (s, UnlinkStore v n top P Q hi i nx))
  | UnlinkStore v n top P Q hi i nx =>
      goes (p ← read P i; s ← atomicStoreNext p i nx s;
            Some (s, match i with O => UnlockNode v n top P Q hi | S i => UnlinkLoad v n top P Q hi i end))
  | UnlockNode v n top P Q hi => goes (s ← Unlock s n; Some (s, unlockInt64 (WRem v n top) P Q hi None true))
  | UnlockPred w P Q i valid => goes (p ← read P i; s ← Unlock s p; Some (s, unlockInt64 w P Q i (P i) valid))
  | LenAdd w =>
      Go (mkSet (nodes s) (int_add (len s) (match w with WAdd _ _ => 1 | WRem _ _ _ => -1 end)%Z) (highestLevel s))
         (Returned true)
  end.

(** The level of a new node after [k] draws that were zero. *)
Definition randomLevel (k : nat) : nat := let level := 1 + k in if maxLevel <? level then maxLevel else level.

Definition start (o : op) (k : nat) : pc :=
  match o with
  | Add v => RandLoad v (randomLevel k)
  | Contains v => FindStart (FHas v) nils nils
  | Remove v => FindStart (FRem v None) nils nils
  end.

(** *** The operations that a goroutine makes alone *)

Definition Len (s : Int64Set) : Z := len s.

(** [Range] reads the bottom list; [f] is called on each value whose node is in
    the set.  The budget bounds the number of nodes. *)
Fixpoint range_from {A} (fuel : nat) (s : Int64Set) (x : option nat) (f : A → K → A * bool) (acc : A) : option A :=
  match x, fuel with
  | None, _ => Some acc
  | Some _, O => None
  | Some x, S fuel =>
      n ← nodes s !! x; nx ← load (next n) 0;
      if MGet (flags n) (Z.lor fullyLinked marked) fullyLinked then
        let '(acc, go_on) := f acc (value n) in if go_on then range_from fuel s nx f acc else Some acc
      else range_from fuel s nx f acc
  end.
Definition Range {A} (s : Int64Set) (f : A → K → A * bool) (acc : A) : option A :=
  x ← atomicLoadNext s header 0; range_from (length (nodes s)) s x f acc.

(** ** Interleavings *)

Record config := mkConfig { shared : Int64Set; threads : nat → pc }.
Definition initial : config := mkConfig NewInt64 (λ _, Idle).

Inductive step : config → option (label op bool) → config → Prop :=
  | step_call c t o k :
      threads c t = Idle → step c (Some (Call t o)) (mkConfig (shared c) (<[t := start o k]> (threads c)))
  | step_inner c t s p :
      thread_step t (shared c) (threads c t) = Go s p → step c None (mkConfig s (<[t := p]> (threads c)))
  | step_panic c t :
      thread_step t (shared c) (threads c t) = Panics → step c (Some (Panic t)) c
  | step_return c t r :
      threads c t = Returned r → step c (Some (Return t r)) (mkConfig (shared c) (<[t := Idle]> (threads c))).

(** ** The atomic set *)

Definition okey (o : op) : K := match o with Add v | Contains v | Remove v => v end.

(** A set of ranks; a value that does not compare with itself is never in it. *)
Definition apply_op (o : op) (X : gset C) : gset C * bool :=
  let r := rank (okey o) in
  if veq (okey o) (okey o) then
    match o with
    | Add _ => ({[r]} ∪ X, bool_decide (r ∉ X))
    | Contains _ => (X, bool_decide (r ∈ X))
    | Remove _ => (X ∖ {[r]}, bool_decide (r ∈ X))
    end
  else (X, false).

Definition ainitial (a : aconfig (gset C) op bool) : Prop := contents a = ∅ ∧ ∀ t, statuses a t = SIdle.
End keys.
