(* ===== verification/SkipSetInv.v ===== *)
(** * The concurrent skip set: the invariant

    What holds of the nodes, of what each goroutine has seen and of the locks
    it holds in every reachable state.  Ghost state: the nodes linked at each
    layer; for each goroutine the nodes that have been linked since its call,
    and whether its value has been in the set and has been absent since. *)

From stdpp Require Import functions sorting.
From S2P Require Import Prelude Atomic SkipSet.

Section keys.
Context {K C : Type} `{CC : Countable C} {HK : SkipKey K C}.
#[local] Abbreviation int64Node := (@int64Node K).
#[local] Abbreviation Int64Set := (@Int64Set K).
#[local] Abbreviation op := (@op K).
#[local] Abbreviation finder := (@finder K).
#[local] Abbreviation work := (@work K).
#[local] Abbreviation pc := (@pc K).
#[local] Abbreviation config := (@config K).

(** ** Ranks *)

Lemma clt_irrefl (a : C) : ¬ a ≺ a.
Proof. apply irreflexivity, _. Qed.

Lemma clt_trans (a b c : C) : a ≺ b → b ≺ c → a ≺ c.
Proof. apply transitivity. Qed.

Lemma clt_cases (a b : C) : ¬ a ≺ b → a = b ∨ b ≺ a.
Proof. intros Hn. destruct (trichotomy clt a b) as [?|[?|?]]; auto. done. Qed.

(** ** Views of the shared state *)

Definition node_at (s : Int64Set) (x : nat) : int64Node := default (newInt64Node zero 0) (nodes s !! x).
Definition alloc (s : Int64Set) (x : nat) : Prop := x < length (nodes s).
Definition val (s : Int64Set) (x : nat) : C := rank (value (node_at s x)).
Definition ordered (v : K) : bool := veq v v.
Definition lev (s : Int64Set) (x : nat) : nat := level (node_at s x).
Definition own (s : Int64Set) (x : nat) : option nat := mu (node_at s x).
Definition fl (s : Int64Set) (x : nat) : bool := Z.testbit (flags (node_at s x)) 0.
Definition mk (s : Int64Set) (x : nat) : bool := Z.testbit (flags (node_at s x)) 1.
Definition nxt (s : Int64Set) (x j : nat) : option nat := default None (load (next (node_at s x)) j).

(** The nodes whose values are in the set, and the set. *)
Definition live (s : Int64Set) (x : nat) : Prop := alloc s x ∧ x ≠ 0 ∧ fl s x = true ∧ mk s x = false.
Definition in_set (n : int64Node) : bool := MGet (flags n) (Z.lor fullyLinked marked) fullyLinked.
Definition elems (s : Int64Set) : gset C := list_to_set ((λ n, rank (value n)) <$> filter (λ n, in_set n = true) (drop 1 (nodes s))).

(** The order of the list; the header comes first. *)
Definition nlt (s : Int64Set) (a b : nat) : Prop := b ≠ 0 ∧ (a = 0 ∨ val s a ≺ val s b).
Definition before (s : Int64Set) (a : nat) (v : C) : Prop := a = 0 ∨ val s a ≺ v.
Definition reach (s : Int64Set) (j : nat) : nat → nat → Prop := rtc (λ a b, nxt s a j = Some b).

(** ** The shared state *)

Definition node_ok (n : int64Node) : Prop :=
  length (base (next n)) = op1 ∧ match extra (next n) with Some e => length e = op2 | None => level n <= op1 end ∧
  1 <= level n <= maxLevel.

Record shared_inv (ch : nat → list nat) (s : Int64Set) : Prop := {
  si_node x : alloc s x → node_ok (node_at s x);
  si_header : alloc s 0 ∧ lev s 0 = maxLevel ∧ mk s 0 = false ∧ fl s 0 = true;
  si_high : highestLevel s <= maxLevel;
  si_lev x : alloc s x → x ≠ 0 → lev s x <= highestLevel s;
  si_next j i x : (0 :: ch j) !! i = Some x → nxt s x j = (0 :: ch j) !! S i;
  si_sorted j : StronglySorted (nlt s) (0 :: ch j);
  si_mem j x : x ∈ ch j → alloc s x ∧ j < lev s x;
  si_sub j x : x ∈ ch (S j) → x ∈ ch j;
  si_live x j : live s x → j < lev s x → x ∈ ch j;
  si_marked x : mk s x = true → fl s x = true;
  si_ordered x : alloc s x → x ≠ 0 → ordered (value (node_at s x)) = true
}.

(** ** What a goroutine has seen *)

Record ghost := mkGhost {
  chain : nat → list nat;
  recent : nat → nat → nat → Prop;
  seen : nat → bool → bool
}.

Definition linked (g : ghost) (x j : nat) : Prop := x ∈ 0 :: chain g j.

(** [n] has held the value of goroutine [t] ever since its call. *)
Definition tracked (g : ghost) (s : Int64Set) (t : nat) (v : C) (n : nat) : Prop :=
  seen g t false = false ∧ live s n ∧ val s n = v.

Record ghost_inv (g : ghost) (s : Int64Set) (t : nat) (v : C) : Prop := {
  gi_now : seen g t (bool_decide (v ∈ elems s)) = true;
  gi_linked x j : linked g x j → j < maxLevel → recent g t x j;
  gi_kept x j : recent g t x j → linked g x j ∨ mk s x = true;
  gi_alloc x j : recent g t x j → alloc s x ∧ j < lev s x;
  gi_next x j y : recent g t x j → nxt s x j = Some y → recent g t y j ∧ nlt s x y;
  gi_down x j : recent g t x (S j) → recent g t x j;
  gi_reach x j n : recent g t x j → tracked g s t v n → before s x v → j < lev s n → reach s j x n;
  gi_same x j n : recent g t x j → x ≠ 0 → val s x = v → tracked g s t v n → x = n
}.

(** ** Where a goroutine is *)

Definition wkey (w : work) : C := match w with WAdd v _ | WRem v _ _ => rank v end.
(** The rank of a value that has one. *)
Definition tkey (v : K) : option C := if ordered v then Some (rank v) else None.

Lemma tkey_ordered v : ordered v = true → tkey v = Some (rank v).
Proof. unfold tkey. by intros ->. Qed.

(** The value of the operation in progress. *)
Definition target (p : pc) : option C :=
  match p with
  | Idle | Returned _ => None
  | RandLoad v _ => tkey v
  | RandCas v _ _ | AddFound v _ _ _ _ | AddWait v _ | HasFlags v _ | RemFlags v _ _ _ _ | RemLock v _ _ _ _
  | RemMarked v _ _ _ _ | RemUnlock v _ | RemMark v _ _ _ _ | AddNew v _ _ _ _ | AddInit v _ _ _ _ _ _
  | AddLink v _ _ _ _ _ _ | AddFull v _ _ _ _ _ | UnlinkLoad v _ _ _ _ _ _ | UnlinkStore v _ _ _ _ _ _ _
  | UnlockNode v _ _ _ _ _ => Some (rank v)
  | FindStart f _ _ | FindLoad f _ _ _ _ _ => tkey (key f)
  | LockPred w _ _ _ _ | CheckPred w _ _ _ _ | CheckSucc w _ _ _ _ | CheckNext w _ _ _ _ | UnlockPred w _ _ _ _ | LenAdd w =>
      Some (wkey w)
  end.

(** The locks a goroutine holds. *)
Definition preds_below (P : array) (n x : nat) : Prop := ∃ j, j < n ∧ P j = Some x.
Definition work_node (w : work) (x : nat) : Prop := match w with WAdd _ _ => False | WRem _ n _ => x = n end.
Definition finder_node (f : finder) (x : nat) : Prop := match f with FRem _ (Some (n, _)) => x = n | _ => False end.

Definition held (p : pc) (x : nat) : Prop :=
  match p with
  | FindStart f _ _ | FindLoad f _ _ _ _ _ => finder_node f x
  | RemMarked _ _ n _ _ | RemUnlock _ n | RemMark _ _ n _ _ => x = n
  | LockPred w P _ k _ => preds_below P k x ∨ work_node w x
  | CheckPred w P _ k _ | CheckSucc w P _ k _ | CheckNext w P _ k _ => preds_below P (S k) x ∨ work_node w x
  | AddNew _ lv P _ _ | AddInit _ lv P _ _ _ _ | AddLink _ lv P _ _ _ _ | AddFull _ lv P _ _ _ => preds_below P lv x
  | UnlinkLoad _ n top P _ _ _ | UnlinkStore _ n top P _ _ _ _ | UnlockNode _ n top P _ _ => preds_below P (S top) x ∨ x = n
  | UnlockPred w P _ i valid => preds_below P (S i) x ∨ (valid = false ∧ work_node w x)
  | _ => False
  end.

(** The node a goroutine is linking. *)
Definition owned (p : pc) : option nat :=
  match p with AddInit _ _ _ _ _ nn _ | AddLink _ _ _ _ _ nn _ | AddFull _ _ _ _ _ nn => Some nn | _ => None end.

(** The node a goroutine has marked and not yet unlinked. *)
Definition work_dying (w : work) : option nat := match w with WAdd _ _ => None | WRem _ n _ => Some n end.
Definition finder_dying (f : finder) : option nat := match f with FRem _ (Some (n, _)) => Some n | _ => None end.
Definition dying (p : pc) : option nat :=
  match p with
  | FindStart f _ _ | FindLoad f _ _ _ _ _ => finder_dying f
  | LockPred w _ _ _ _ | CheckPred w _ _ _ _ | CheckSucc w _ _ _ _ | CheckNext w _ _ _ _ => work_dying w
  | UnlockPred w _ _ _ valid => if valid then None else work_dying w
  | UnlinkLoad _ n _ _ _ _ _ | UnlinkStore _ n _ _ _ _ _ _ => Some n
  | _ => None
  end.

(** What is still to be added to the length: the operation has taken effect and
    has not counted. *)
Definition work_debt (w : work) (valid : bool) : Z :=
  (match w with WAdd _ _ => if valid then 1 else 0 | WRem _ _ _ => -1 end)%Z.
Definition debt (p : pc) : Z :=
  (match p with
  | FindStart f _ _ | FindLoad f _ _ _ _ _ => match f with FRem _ (Some _) => -1 | _ => 0 end
  | LockPred w _ _ _ _ | CheckPred w _ _ _ _ | CheckSucc w _ _ _ _ | CheckNext w _ _ _ _ => work_debt w false
  | UnlockPred w _ _ _ valid => work_debt w valid
  | LenAdd w => work_debt w true
  | UnlinkLoad _ _ _ _ _ _ _ | UnlinkStore _ _ _ _ _ _ _ _ | UnlockNode _ _ _ _ _ _ => -1
  | _ => 0
  end)%Z.
Fixpoint total (ps : nat → pc) (n : nat) : Z := (match n with O => 0 | S n => total ps n + debt (ps n) end)%Z.

Section thread.
Context (g : ghost) (s : Int64Set) (t : nat).

(** What a search has found in the layers from [lo] to below [hi]. *)
Definition searched (v : C) (P Q : array) (lo hi : nat) : Prop :=
  ∀ j, lo <= j < hi → ∃ p, P j = Some p ∧ recent g t p j ∧ before s p v ∧
    ∀ q, Q j = Some q → recent g t q j ∧ q ≠ 0 ∧ ¬ val s q ≺ v.
Definition descends (P : array) (lo hi : nat) : Prop :=
  ∀ j j' p p', lo <= j → j < j' → j' < hi → P j = Some p → P j' = Some p' → p' = p ∨ nlt s p' p.
Definition strict (v : C) (Q : array) (lo hi : nat) : Prop :=
  ∀ j q, lo <= j < hi → Q j = Some q → val s q ≠ v.

(** [n] is marked by this goroutine, and linked. *)
Definition dead (v : C) (n top : nat) : Prop :=
  alloc s n ∧ n ≠ 0 ∧ val s n = v ∧ lev s n = S top ∧ mk s n = true.
Definition removing (v : C) (n top : nat) : Prop := dead v n top ∧ ∀ j, j <= top → n ∈ chain g j.

Definition level_ok (lv : nat) : Prop := 1 <= lv <= highestLevel s.
Definition adding (v : K) (lv : nat) : Prop := ordered v = true ∧ level_ok lv.
Definition finder_inv (f : finder) : Prop :=
  match f with FAdd v lv => adding v lv | FHas _ | FRem _ None => True | FRem v (Some (n, top)) => removing (rank v) n top end.
(** A search for a value without rank only looks. *)
Definition looking (f : finder) : Prop := match f with FHas _ | FRem _ None => True | _ => False end.
Definition need (f : finder) : nat :=
  match f with FAdd _ lv => lv | FHas _ | FRem _ None => 0 | FRem _ (Some (_, top)) => S top end.
Definition work_inv (w : work) : Prop :=
  match w with WAdd v lv => adding v lv | WRem v n top => ordered v = true ∧ removing (rank v) n top end.

(** lFound: not found yet in the layers above [i], or found at [l]. *)
Definition found_inv (v : C) (Q : array) (i h : nat) (lf : option nat) : Prop :=
  match lf with
  | None => strict v Q i h ∧ ∀ n, tracked g s t v n → lev s n <= i
  | Some l => i <= l < h ∧ ∃ q, Q l = Some q ∧ val s q = v ∧ ∀ n, tracked g s t v n → q = n ∧ lev s n = S l
  end.

(** A node with the value. *)
Definition hit (v : C) (n : nat) : Prop :=
  alloc s n ∧ n ≠ 0 ∧ val s n = v ∧ ∀ m, tracked g s t v m → m = n.

(** The layers below [k] have been locked and checked. *)
Definition checked (P Q : array) (lo k : nat) : Prop :=
  ∀ j, lo <= j < k → ∃ p, P j = Some p ∧ linked g p j ∧ mk s p = false ∧ nxt s p j = Q j.
Definition hi_ok (P : array) (k hi : nat) : Prop := hi <= k ∧ ∀ j, j < k → ∃ j', j' < hi ∧ P j' = P j.

Definition changing (w : work) (P Q : array) (k : nat) : Prop :=
  work_inv w ∧ searched (wkey w) P Q 0 (layers w) ∧ descends P 0 (layers w) ∧
  match w with WAdd v lv => strict (rank v) Q 0 lv | _ => True end ∧ checked P Q 0 k.

(** The new node is linked at the layers below [k]. *)
Definition linking (v : C) (lv : nat) (P Q : array) (hi nn k : nat) : Prop :=
  level_ok lv ∧ searched v P Q 0 lv ∧ descends P 0 lv ∧ strict v Q 0 lv ∧ checked P Q k lv ∧ hi_ok P lv hi ∧
  alloc s nn ∧ nn ≠ 0 ∧ val s nn = v ∧ lev s nn = lv ∧ fl s nn = false ∧ mk s nn = false ∧
  ∀ j, nn ∈ chain g j ↔ j < k.

(** The marked node is linked at the layers below [k]. *)
Definition unlinking (v : C) (n top : nat) (P : array) (hi k : nat) : Prop :=
  dead v n top ∧ descends P 0 (S top) ∧ hi_ok P (S top) hi ∧
  (∀ j, j < S top → ∃ p, P j = Some p ∧ alloc s p ∧ before s p v) ∧
  (∀ j, j < k → ∃ p, P j = Some p ∧ linked g p j ∧ mk s p = false ∧ nxt s p j = Some n) ∧
  ∀ j, n ∈ chain g j ↔ j < k.

Definition thread_inv (p : pc) : Prop :=
  match p with
  | Idle | Returned _ => True
  | LenAdd w => match w with WRem _ n _ => alloc s n | _ => True end
  | RandLoad v lv => 1 <= lv <= maxLevel
  | RandCas v lv hl => 1 <= lv <= maxLevel ∧ hl < lv ∧ ordered v = true
  | FindStart f P Q => if ordered (key f) then finder_inv f else looking f
  | FindLoad f i x P Q lf =>
      if ordered (key f) then
        finder_inv f ∧ recent g t x i ∧ before s x (rank (key f)) ∧ match f with FAdd _ _ => lf = None | _ => True end ∧
        match f with
        | FHas _ => True
        | _ => ∃ h, i < h <= maxLevel ∧ need f <= h ∧ searched (rank (key f)) P Q (S i) h ∧ descends P (S i) h ∧
                 (∀ j p, i < j < h → P j = Some p → p = x ∨ nlt s p x) ∧ found_inv (rank (key f)) Q (S i) h lf
        end
      else looking f ∧ x = 0 ∧ i < maxLevel ∧ lf = None
  | AddFound v lv n P Q => adding v lv ∧ hit (rank v) n
  | AddWait v n => hit (rank v) n ∧ (seen g t true = true ∨ (fl s n = false ∧ mk s n = false))
  | HasFlags v n => hit (rank v) n ∧ ordered v = true
  | RemFlags v l n P Q =>
      hit (rank v) n ∧ (∀ m, tracked g s t (rank v) m → lev s m = S l) ∧ searched (rank v) P Q 0 (S l) ∧ descends P 0 (S l) ∧ ordered v = true
  | RemLock v l n P Q | RemMarked v l n P Q =>
      hit (rank v) n ∧ lev s n = S l ∧ fl s n = true ∧ searched (rank v) P Q 0 (S l) ∧ descends P 0 (S l) ∧ ordered v = true
  | RemUnlock v n => seen g t false = true
  | RemMark v l n P Q =>
      hit (rank v) n ∧ lev s n = S l ∧ fl s n = true ∧ mk s n = false ∧ searched (rank v) P Q 0 (S l) ∧ descends P 0 (S l) ∧ ordered v = true
  | LockPred w P Q k hi =>
      changing w P Q k ∧ k < layers w ∧ hi_ok P k hi ∧ (k = 0 ∨ P k ≠ P (k - 1))
  | CheckPred w P Q k hi => changing w P Q k ∧ k < layers w ∧ hi_ok P (S k) hi
  | CheckSucc w P Q k hi =>
      changing w P Q k ∧ k < layers w ∧ hi_ok P (S k) hi ∧ (∀ p, P k = Some p → mk s p = false) ∧ is_Some (Q k)
  | CheckNext w P Q k hi =>
      changing w P Q k ∧ k < layers w ∧ hi_ok P (S k) hi ∧ ∀ p, P k = Some p → mk s p = false
  | AddNew v lv P Q hi => changing (WAdd v lv) P Q lv ∧ hi_ok P lv hi
  | AddInit v lv P Q hi nn k => linking (rank v) lv P Q hi nn k ∧ k < lv ∧ ordered v = true
  | AddLink v lv P Q hi nn k => linking (rank v) lv P Q hi nn k ∧ k < lv ∧ ordered v = true ∧ nxt s nn k = Q k
  | AddFull v lv P Q hi nn => linking (rank v) lv P Q hi nn lv ∧ ordered v = true
  | UnlinkLoad v n top P Q hi i => unlinking (rank v) n top P hi (S i) ∧ i <= top
  | UnlinkStore v n top P Q hi i nx => unlinking (rank v) n top P hi (S i) ∧ i <= top ∧ nx = nxt s n i
  | UnlockNode v n top P Q hi => unlinking (rank v) n top P hi 0
  | UnlockPred w P Q i valid =>
      i < maxLevel ∧ descends P 0 (S i) ∧ (∀ j, j <= i → ∃ p, P j = Some p ∧ alloc s p) ∧ (valid = false → work_inv w) ∧
      match w with WRem _ n _ => alloc s n ∧ ∀ j p, j <= i → P j = Some p → p ≠ n | _ => True end
  end.
End thread.

Record Inv (g : ghost) (c : config) : Prop := {
  inv_shared : shared_inv (chain g) (shared c);
  inv_ghost t v : target (threads c t) = Some v → ghost_inv g (shared c) t v;
  inv_thread t : thread_inv g (shared c) t (threads c t);
  inv_locks x t : own (shared c) x = Some t ↔ held (threads c t) x;
  inv_owned t t' n : owned (threads c t) = Some n → owned (threads c t') = Some n → t = t';
  inv_fresh x : alloc (shared c) x → x ≠ 0 → fl (shared c) x = false → ∃ t, owned (threads c t) = Some x;
  inv_dead x j : x ∈ chain g j → mk (shared c) x = true → ∃ t, dying (threads c t) = Some x;
  inv_finite : ∃ N, (∀ t, N <= t → threads c t = Idle) ∧
    ∃ k, (len (shared c) + total (threads c) N = Z.of_nat (size (elems (shared c))) + k * 2 ^ 64)%Z
}.
End keys.

(** Order: closes a goal that follows from comparisons of ranks. *)
Ltac korder_close :=
  repeat match goal with
  | H : ?a ≺ ?a |- _ => destruct (clt_irrefl a H)
  | H : ?a ≺ ?b, H' : ?b ≺ ?c |- _ =>
      lazymatch goal with _ : a ≺ c |- _ => fail | _ => pose proof (clt_trans a b c H H') end
  end.
Ltac korder_split :=
  repeat match goal with
  | H : ¬ ?a ≺ ?b |- _ => destruct (clt_cases a b H) as [?|?]; clear H
  end.
Ltac korder :=
  match goal with
  | |- ?a ≺ ?b => destruct (decide (a ≺ b)); [done|exfalso]
  | |- ¬ _ => intros ?
  | |- ?a = ?b => destruct (decide (a = b)); [done|exfalso]
  | |- _ => exfalso
  end; korder_split; try congruence;
  repeat match goal with
  | H : @eq ?T ?a ?b, _ : ?x ≺ _ |- _ =>
      let T' := type of x in constr_eq T T';
      repeat match goal with
      | H' : ?c ≺ ?d |- _ => first [constr_eq c a|constr_eq d a]; rewrite H in H'
      | H' : ?c = ?d |- _ => first [constr_eq c a|constr_eq d a]; lazymatch H' with H => fail | _ => rewrite H in H' end
      end; clear H
  end; korder_close; congruence.
