(* ===== verification/SkipSetHeap.v ===== *)
(** * The concurrent skip set: flags, links and order

    The flag words as two booleans, the optional array as an array, and the
    lists of the layers: their order, and which nodes reach which. *)

From stdpp Require Import functions sorting.
From S2P Require Import Prelude Atomic SkipSet SkipSetInv.

Section keys.
Context {K C : Type} `{CC : Countable C} {HK : SkipKey K C}.
#[local] Abbreviation int64Node := (@int64Node K).
#[local] Abbreviation Int64Set := (@Int64Set K).
#[local] Abbreviation op := (@op K).
#[local] Abbreviation finder := (@finder K).
#[local] Abbreviation work := (@work K).
#[local] Abbreviation pc := (@pc K).
#[local] Abbreviation config := (@config K).
Implicit Types (s : Int64Set) (w : work) (o : op).

(** ** Flags *)

Lemma land_pow2 (f : Z) (n : Z) : (0 <= n)%Z → Z.land f (2 ^ n) = if Z.testbit f n then (2 ^ n)%Z else 0%Z.
Proof.
  intros Hn. apply Z.bits_inj'. intros m Hm. rewrite Z.land_spec.
  destruct (decide (m = n)) as [->|Hne].
  - rewrite Z.pow2_bits_true by done. destruct (Z.testbit f n); [by rewrite Z.pow2_bits_true|by rewrite Z.testbit_0_l].
  - rewrite (Z.pow2_bits_false n m) by done. rewrite andb_false_r.
    destruct (Z.testbit f n); [by rewrite Z.pow2_bits_false|by rewrite Z.testbit_0_l].
Qed.

Lemma Get_fullyLinked (f : bitflag) : Get f fullyLinked = Z.testbit f 0.
Proof. unfold Get. change fullyLinked with (2 ^ 0)%Z. rewrite land_pow2 by done. by destruct (Z.testbit f 0). Qed.

Lemma Get_marked (f : bitflag) : Get f marked = Z.testbit f 1.
Proof. unfold Get. change marked with (2 ^ 1)%Z. rewrite land_pow2 by done. by destruct (Z.testbit f 1). Qed.

Lemma MGet_live (f : bitflag) :
  MGet f (Z.lor fullyLinked marked) fullyLinked = Z.testbit f 0 && negb (Z.testbit f 1).
Proof.
  unfold MGet. rewrite Z.land_lor_distr_r. change fullyLinked with (2 ^ 0)%Z. change marked with (2 ^ 1)%Z.
  rewrite !land_pow2 by done. by destruct (Z.testbit f 0), (Z.testbit f 1).
Qed.

Lemma SetTrue_testbit (f : bitflag) (m n : Z) :
  (0 <= m)%Z → (0 <= n)%Z → Z.testbit (SetTrue f (2 ^ n)) m = Z.testbit f m || (m =? n)%Z.
Proof.
  intros Hm Hn. unfold SetTrue. rewrite land_pow2 by done.
  destruct (Z.eqb_spec m n) as [->|Hne].
  - rewrite orb_true_r. destruct (Z.testbit f n) eqn:Hf.
    + by rewrite Z.eqb_refl.
    + destruct (_ =? _)%Z eqn:He; [apply Z.eqb_eq in He; pose proof (Z.pow_pos_nonneg 2 n); lia|].
      by rewrite Z.lor_spec, Z.pow2_bits_true, orb_true_r.
  - rewrite orb_false_r. destruct (_ =? _)%Z; [done|]. by rewrite Z.lor_spec, Z.pow2_bits_false, orb_false_r.
Qed.

(** ** Nodes *)

Lemma lookup_node s x : alloc s x → nodes s !! x = Some (node_at s x).
Proof. intros Hx. unfold node_at. by destruct (lookup_lt_is_Some_2 _ _ Hx) as [n ->]. Qed.

Lemma update_alloc x n s y : alloc (update x n s) y ↔ alloc s y.
Proof. unfold alloc. simpl. by rewrite length_insert. Qed.

Lemma node_at_update x n s y : alloc s x → node_at (update x n s) y = if decide (y = x) then n else node_at s y.
Proof.
  intros Hx. unfold node_at. simpl. case_decide as He.
  - subst y. by rewrite list_lookup_insert_eq.
  - by rewrite list_lookup_insert_ne.
Qed.

Lemma proj_update {A} (f : int64Node → A) x n s y :
  alloc s x → f n = f (node_at s x) → f (node_at (update x n s) y) = f (node_at s y).
Proof. intros Hx Hn. rewrite node_at_update by done. case_decide; [by subst y|done]. Qed.

Lemma unalloc_own s x : ¬ alloc s x → own s x = None.
Proof. intros Hx. unfold own, node_at. by rewrite lookup_ge_None_2 by (unfold alloc in Hx; lia). Qed.

Lemma unalloc_mk s x : ¬ alloc s x → mk s x = false.
Proof. intros Hx. unfold mk, node_at. by rewrite lookup_ge_None_2 by (unfold alloc in Hx; lia). Qed.

Lemma in_set_spec (n : int64Node) : in_set n = Z.testbit (flags n) 0 && negb (Z.testbit (flags n) 1).
Proof. apply MGet_live. Qed.

Lemma elem_of_elems s v : v ∈ elems s ↔ ∃ n, live s n ∧ val s n = v.
Proof.
  unfold elems. rewrite elem_of_list_to_set, list_elem_of_fmap. split.
  - intros (n & -> & [Hin (i & Hi)%list_elem_of_lookup_1]%list_elem_of_filter). rewrite lookup_drop in Hi.
    exists (1 + i). assert (Hn : node_at s (1 + i) = n) by (unfold node_at; by rewrite Hi).
    rewrite in_set_spec in Hin. apply andb_prop in Hin as [Hf Hm]. apply negb_true_iff in Hm.
    unfold live. split_and!; unfold fl, mk, val; rewrite ?Hn; try done. by eapply lookup_lt_Some.
  - intros (n & (Ha & H0 & Hf & Hm) & <-). exists (node_at s n). split; [done|].
    apply list_elem_of_filter. split; [rewrite in_set_spec; unfold fl, mk in *; by rewrite Hf, Hm|].
    apply list_elem_of_lookup. exists (n - 1). rewrite lookup_drop. replace (1 + (n - 1)) with n by lia.
    by apply lookup_node.
Qed.

(** ** Links *)

Lemma load_ok (n : int64Node) j : node_ok n → j < level n → load (next n) j = Some (default None (load (next n) j)).
Proof.
  intros (Hb & He & Hl) Hj. unfold load. destruct (Nat.ltb_spec j op1) as [Hlt|Hge].
  - destruct (lookup_lt_is_Some_2 (base (next n)) j) as [y ->]; [lia|done].
  - destruct (extra (next n)) as [e|]; [|lia]. simpl. destruct (lookup_lt_is_Some_2 e (j - op1)) as [y ->]; [|done].
    rewrite He. unfold op2, op1, maxLevel in *. lia.
Qed.

Lemma load_next s x j : alloc s x → node_ok (node_at s x) → j < lev s x → atomicLoadNext s x j = Some (nxt s x j).
Proof. intros Hx Hok Hj. unfold atomicLoadNext. rewrite lookup_node by done. by apply load_ok. Qed.

Lemma store_ok (n : int64Node) j p : node_ok n → j < level n →
  ∃ a, store (next n) j p = Some a ∧ length (base a) = op1 ∧
    match extra a with Some e => length e = op2 | None => level n <= op1 end ∧
    ∀ j', load a j' = if decide (j' = j) then Some p else load (next n) j'.
Proof.
  intros (Hb & He & Hl) Hj. unfold store. destruct (Nat.ltb_spec j op1) as [Hlt|Hge].
  - eexists. split_and!; [done|simpl; by rewrite length_insert|done|]. intros j'. unfold load. simpl.
    case_decide as Hjj; [subst j'|].
    + destruct (Nat.ltb_spec j op1); [|lia]. by rewrite list_lookup_insert_eq by lia.
    + destruct (Nat.ltb_spec j' op1); [|done]. by rewrite list_lookup_insert_ne.
  - destruct (extra (next n)) as [e|] eqn:Hex; [|lia]. simpl. destruct (Nat.ltb_spec (j - op1) (length e)) as [Hlt|];
      [|rewrite He in *; unfold op2, op1, maxLevel in *; lia].
    eexists. split_and!; [done|done|simpl; by rewrite length_insert|]. intros j'. unfold load. rewrite Hex. simpl.
    case_decide as Hjj; [subst j'|].
    + destruct (Nat.ltb_spec j op1); [lia|]. by rewrite list_lookup_insert_eq.
    + destruct (Nat.ltb_spec j' op1); [done|]. by rewrite list_lookup_insert_ne by lia.
Qed.

(** ** Order *)

Lemma nlt_trans s a b c : nlt s a b → nlt s b c → nlt s a c.
Proof. intros [Hb [->|Ha]] [Hc [->|Hbc]]; split; auto; try done. right. korder. Qed.

#[export] Instance nlt_transitive s : Transitive (nlt s).
Proof. intros a b c. apply nlt_trans. Qed.

Lemma nlt_irrefl s a : ¬ nlt s a a.
Proof. intros [H0 [->|H]]; [done|korder]. Qed.

Lemma before_nlt s a b : before s a (val s b) → b ≠ 0 → nlt s a b.
Proof. intros [->|H] H0; split; auto. Qed.

Lemma sorted_cmp {A} (R : A → A → Prop) (l : list A) x y :
  StronglySorted R l → x ∈ l → y ∈ l → x = y ∨ R x y ∨ R y x.
Proof.
  induction 1 as [|z l Hs IH Hz]; [by intros ?%not_elem_of_nil|]. rewrite list.Forall_forall in Hz.
  rewrite !elem_of_cons. intros [->|Hx] [->|Hy]; [by left|right; left; by apply Hz|right; right; by apply Hz|auto].
Qed.

Lemma sorted_lookup {A} (R : A → A → Prop) (l : list A) i j x y :
  StronglySorted R l → l !! i = Some x → l !! j = Some y → i < j → R x y.
Proof.
  intros Hs. revert i j. induction Hs as [|z l Hs IH Hz]; intros i j Hi Hj Hlt; [done|].
  destruct j as [|j]; [lia|]. destruct i as [|i]; simpl in *.
  - injection Hi as ->. rewrite list.Forall_forall in Hz. apply Hz. by eapply list_elem_of_lookup_2.
  - eapply IH; [done|done|lia].
Qed.

Section chains.
Context (ch : nat → list nat) (s : Int64Set) (Hs : shared_inv ch s).

Lemma mem_nonzero j x : x ∈ ch j → x ≠ 0.
Proof using Hs.
  intros Hx. pose proof (si_sorted _ _ Hs j) as Hso. inversion Hso as [|? ? _ Hf]; subst.
  rewrite list.Forall_forall in Hf. by apply Hf.
Qed.

Lemma mem_level j x : x ∈ ch j → j < maxLevel.
Proof using Hs.
  intros Hx. destruct (si_mem _ _ Hs j x Hx) as [Ha Hl]. destruct (si_node _ _ Hs x Ha) as (_ & _ & Hm).
  unfold lev in Hl. lia.
Qed.

Lemma mem_alloc j x : x ∈ 0 :: ch j → alloc s x.
Proof using Hs. intros [->|Hx]%elem_of_cons; [apply Hs|by apply (si_mem _ _ Hs) in Hx as []]. Qed.

Lemma mem_sub j x : x ∈ ch j → x ∈ ch 0.
Proof using Hs. induction j as [|j IH]; [done|]. intros Hx. by apply IH, (si_sub _ _ Hs). Qed.

Lemma mem_unique i j x y : x ∈ ch i → y ∈ ch j → val s x = val s y → x = y.
Proof using Hs.
  intros Hx%mem_sub Hy%mem_sub Hv. pose proof (si_sorted _ _ Hs 0) as Hso.
  destruct (sorted_cmp _ _ x y Hso) as [|[[H0 [->|Hlt]]|[H0 [->|Hlt]]]]; try done; try (by right); try korder;
    exfalso; by eapply (mem_nonzero 0 0).
Qed.

Lemma live_mem n : live s n → n ∈ ch 0.
Proof using Hs.
  intros Hn. eapply (si_live _ _ Hs); [done|]. destruct (si_node _ _ Hs n) as (_ & _ & ?); [by apply Hn|]. unfold lev. lia.
Qed.

Lemma live_unique n m : live s n → live s m → val s n = val s m → n = m.
Proof using Hs. intros Hn%live_mem Hm%live_mem. by apply (mem_unique 0 0). Qed.

(** The successor of a linked node. *)
Lemma next_mem x j y : x ∈ 0 :: ch j → nxt s x j = Some y → y ∈ ch j ∧ nlt s x y.
Proof using Hs.
  intros [i Hi]%list_elem_of_lookup_1 Hy. rewrite (si_next _ _ Hs j i x Hi) in Hy.
  split; [simpl in Hy; by eapply list_elem_of_lookup_2|]. eapply sorted_lookup; [apply Hs|exact Hi|exact Hy|lia].
Qed.

(** A linked node reaches every linked node after it. *)
Lemma index_reach j i k x y :
  (0 :: ch j) !! i = Some x → (0 :: ch j) !! (i + k) = Some y → reach s j x y.
Proof using Hs.
  revert i x. induction k as [|k IH]; intros i x Hi Hy.
  - rewrite Nat.add_0_r in Hy. assert (x = y) as -> by congruence. constructor.
  - assert (∃ z, (0 :: ch j) !! S i = Some z) as [z Hz].
    { apply lookup_lt_is_Some. apply lookup_lt_Some in Hy. lia. }
    eapply rtc_l; [rewrite (si_next _ _ Hs j i x Hi); exact Hz|]. apply (IH (S i)); [done|]. by rewrite <- Hy; f_equal; lia.
Qed.

Lemma mem_reach j x y : x ∈ 0 :: ch j → y ∈ ch j → nlt s x y → reach s j x y.
Proof using Hs.
  intros [i Hi]%list_elem_of_lookup_1 Hy Hlt. assert (y ∈ 0 :: ch j) as [k Hk]%list_elem_of_lookup_1 by (by right).
  destruct (decide (i <= k)) as [Hle|Hgt].
  - apply (index_reach j i (k - i)); [done|]. by replace (i + (k - i)) with k by lia.
  - exfalso. apply (nlt_irrefl s x). eapply nlt_trans; [exact Hlt|]. eapply sorted_lookup; [apply Hs|exact Hk|exact Hi|lia].
Qed.

Lemma reach_inc j a b : reach s j a b → a ∈ 0 :: ch j → a = b ∨ nlt s a b.
Proof using Hs.
  induction 1 as [|a c b Hac Hcb IH]; [by left|]. intros Ha. destruct (next_mem a j c Ha Hac) as [Hc Hl].
  right. destruct IH as [<-|]; [by right|done|by eapply nlt_trans].
Qed.

(** The successor of a linked node before the value is the first node from the
    value on. *)
Lemma next_first x j v n :
  x ∈ 0 :: ch j → before s x v → n ∈ ch j → val s n = v → ∀ q, nxt s x j = q → (∀ y, q = Some y → ¬ val s y ≺ v) → q = Some n.
Proof using Hs.
  intros Hx Hb Hn Hv q Hq Hle. assert (nlt s x n) as Hlt.
  { apply before_nlt; [by rewrite Hv|by eapply mem_nonzero]. }
  pose proof (mem_reach j x n Hx Hn Hlt) as Hr. inversion Hr as [|? y ? Hy Hyn]; subst.
  - by apply nlt_irrefl in Hlt.
  - rewrite Hy. destruct (next_mem x j y Hx Hy) as [Hmy _]. f_equal.
    pose proof (Hle y Hy) as Hge. destruct (decide (y = n)) as [|Hne]; [done|]. exfalso.
    destruct (sorted_cmp _ _ y n (si_sorted _ _ Hs j)) as [|[[H0 [->|Hl]]|[H0 [->|Hl]]]]; try done; try (by right).
    + by eapply (mem_nonzero j 0).
    + by eapply (mem_nonzero j 0).
    + inversion Hyn as [|? z ? Hz Hzn]; subst; [done|].
      destruct (reach_inc j _ _ Hyn) as [|[_ [->|]]]; [by right|done| |korder]. by eapply (mem_nonzero j 0).
Qed.
End chains.
End keys.

(** * The concurrent skip set: what a step may do

    An [effect] bounds what one step of a goroutine may change: it marks, unlinks
    and redirects only nodes whose lock it holds and links only its own new node.
    What the other goroutines know survives every effect. *)

Section keys.
Context {K C : Type} `{CC : Countable C} {HK : SkipKey K C}.
#[local] Abbreviation int64Node := (@int64Node K).
#[local] Abbreviation Int64Set := (@Int64Set K).
#[local] Abbreviation op := (@op K).
#[local] Abbreviation finder := (@finder K).
#[local] Abbreviation work := (@work K).
#[local] Abbreviation pc := (@pc K).
#[local] Abbreviation config := (@config K).
Implicit Types (s : Int64Set) (c : config) (w : work) (o : op).

(** Paths through nodes that are linked or marked. *)
Definition reach_ok (g : ghost) (s : Int64Set) (j : nat) : nat → nat → Prop :=
  rtc (λ a b, nxt s a j = Some b ∧ (linked g a j ∨ mk s a = true)).

Record effect (g : ghost) (s : Int64Set) (g' : ghost) (s' : Int64Set) (lockT ownT : nat → Prop) : Prop := {
  ef_shared : shared_inv (chain g') s';
  ef_alloc x : alloc s x → alloc s' x;
  ef_val x : alloc s x → val s' x = val s x;
  ef_lev x : alloc s x → lev s' x = lev s x;
  ef_high : highestLevel s <= highestLevel s';
  ef_mk x : alloc s x → mk s' x = mk s x ∨ (mk s x = false ∧ mk s' x = true ∧ lockT x ∧ fl s x = true);
  ef_fl x : alloc s x → fl s' x = fl s x ∨ (fl s x = false ∧ fl s' x = true ∧ ownT x);
  ef_new x : alloc s' x → ¬ alloc s x → fl s' x = false;
  ef_unlink x j : linked g x j → linked g' x j ∨ (lockT x ∧ mk s x = true);
  ef_link x j : x ∈ chain g' j → x ∈ chain g j ∨ (ownT x ∧ fl s x = false);
  ef_nxt x j : alloc s x → nxt s' x j = nxt s x j ∨ (linked g x j ∧ linked g' x j ∧ lockT x) ∨
                 (¬ linked g x j ∧ mk s x = false ∧ ownT x);
  ef_reach j x n : live s n → live s' n → reach_ok g s j x n → reach s' j x n
}.

(** Ghost states: what goroutine [t] with value [v] sees after a step. *)
Definition observes (g g' : ghost) (s' : Int64Set) (t : nat) (v : C) : Prop :=
  (∀ x j, recent g' t x j ↔ recent g t x j ∨ (linked g' x j ∧ j < maxLevel)) ∧
  (∀ b, seen g' t b = true ↔ seen g t b = true ∨ b = bool_decide (v ∈ elems s')).

Definition observe (ch : nat → list nat) (s' : Int64Set) (tg : nat → option C) (g : ghost) : ghost :=
  mkGhost ch (λ t x j, recent g t x j ∨ (x ∈ 0 :: ch j ∧ j < maxLevel))
    (λ t b, seen g t b || match tg t with Some v => Bool.eqb b (bool_decide (v ∈ elems s')) | None => false end).

Lemma observe_observes ch s' tg g t v : tg t = Some v → observes g (observe ch s' tg g) s' t v.
Proof.
  intros Ht. split; [done|]. intros b. simpl. rewrite Ht, orb_true_iff. by rewrite eqb_true_iff.
Qed.

Lemma observes_refl g s s' t v : ghost_inv g s t v → elems s' = elems s → observes g g s' t v.
Proof.
  intros Hg He. split.
  - intros x j. split; [by left|]. intros [|[? ?]]; [done|by apply Hg].
  - intros b. split; [by left|]. intros [Hb|Hb]; [done|]. rewrite Hb, He. apply Hg.
Qed.

Section ghost.
Context (g : ghost) (s : Int64Set) (g' : ghost) (s' : Int64Set) (lockT ownT : nat → Prop).
Context (Hs : shared_inv (chain g) s) (He : effect g s g' s' lockT ownT).
Context (t : nat) (v : C) (Hg : ghost_inv g s t v) (Ho : observes g g' s' t v).

Lemma mk_mono x : alloc s x → mk s x = true → mk s' x = true.
Proof using He. intros Ha Hm. destruct (ef_mk _ _ _ _ _ _ He x Ha) as [->|(? & ? & _)]; congruence. Qed.

Lemma live_back n : alloc s n → fl s n = true → live s' n → live s n.
Proof using He.
  intros Ha Hf (_ & H0 & _ & Hm). split_and!; try done. destruct (mk s n) eqn:Hmk; [|done].
  rewrite mk_mono in Hm by done. done.
Qed.

Lemma tracked_back n : tracked g' s' t v n → tracked g s t v n.
Proof using Hs He Hg Ho.
  intros (Hsn & Hl & Hv). destruct Ho as [_ Hseen].
  assert (Hs0 : seen g t false = false).
  { destruct (seen g t false) eqn:Hf; [|done]. assert (seen g' t false = true) by (apply Hseen; by left). congruence. }
  assert (v ∈ elems s) as (n0 & Hl0 & Hv0)%elem_of_elems.
  { pose proof (gi_now _ _ _ _ Hg) as Hnow. case_bool_decide; [done|congruence]. }
  assert (Ha : alloc s n).
  { destruct (decide (n < length (nodes s))) as [|Hn]; [done|]. destruct Hl as (Ha' & _ & Hf & _).
    rewrite (ef_new _ _ _ _ _ _ He n Ha' Hn) in Hf. done. }
  destruct (fl s n) eqn:Hf.
  - split_and!; [done| |by rewrite <- (ef_val _ _ _ _ _ _ He n Ha)]. by apply live_back.
  - exfalso. assert (Hn0 : n0 ∈ chain g' 0).
    { destruct (ef_unlink _ _ _ _ _ _ He n0 0) as [[->|]%elem_of_cons|[_ Hm]].
      - right. by apply (live_mem _ _ Hs).
      - by destruct Hl0 as (_ & ? & _).
      - done.
      - destruct Hl0 as (_ & _ & _ & ?). congruence. }
    pose proof (live_mem _ _ (ef_shared _ _ _ _ _ _ He) n Hl) as Hn.
    assert (n0 = n) as ->; [|destruct Hl0 as (_ & _ & ? & _); congruence].
    eapply (mem_unique _ _ (ef_shared _ _ _ _ _ _ He)); [done|done|].
    rewrite Hv, <- Hv0. apply He. apply Hl0.
Qed.

Lemma recent_alloc x j : recent g' t x j → alloc s' x ∧ j < lev s' x.
Proof using Hs He Hg Ho.
  intros [Hr|[[->|Hin]%elem_of_cons Hj]]%Ho.
  - destruct (gi_alloc _ _ _ _ Hg x j Hr) as [Ha Hl]. split; [by apply He|by rewrite (ef_lev _ _ _ _ _ _ He)].
  - destruct (si_header _ _ (ef_shared _ _ _ _ _ _ He)) as (Ha & Hl & _). split; [done|lia].
  - by apply (si_mem _ _ (ef_shared _ _ _ _ _ _ He)).
Qed.

Lemma path_recent x j n : recent g t x j → reach s j x n → reach_ok g s j x n.
Proof using Hg.
  intros Hr Hp. induction Hp as [|a b c Hab Hbc IH]; [constructor|].
  destruct (gi_next _ _ _ _ Hg a j b Hr Hab) as [Hb _]. eapply rtc_l; [|by apply IH]. split; [done|]. by apply Hg.
Qed.

(** A node seen before the step is as before, or linked. *)
Lemma recent_cases x j : recent g' t x j → (linked g' x j ∧ j < maxLevel) ∨
  (recent g t x j ∧ mk s x = true ∧ alloc s x ∧ nxt s' x j = nxt s x j).
Proof using Hs He Hg Ho.
  intros [Hr|?]%Ho; [|by left]. destruct (gi_alloc _ _ _ _ Hg x j Hr) as [Ha Hl].
  assert (j < maxLevel) by (destruct (si_node _ _ Hs x Ha) as (_ & _ & ?); unfold lev in Hl; lia).
  assert (Hm : linked g' x j ∨ mk s x = true).
  { destruct (gi_kept _ _ _ _ Hg x j Hr) as [Hlk|]; [|by right]. destruct (ef_unlink _ _ _ _ _ _ He x j Hlk) as [|[_ ?]]; auto. }
  destruct Hm as [|Hm]; [by left|].
  destruct (ef_nxt _ _ _ _ _ _ He x j Ha) as [Hn|[(_ & ? & _)|(_ & ? & _)]]; [by right|by left|congruence].
Qed.

Lemma nlt_stable a b : alloc s a → alloc s b → nlt s a b → nlt s' a b.
Proof using He. intros Ha Hb [H0 Hlt]. split; [done|]. by rewrite !(ef_val _ _ _ _ _ _ He). Qed.

Lemma before_stable a : alloc s a → before s a v ↔ before s' a v.
Proof using He. intros Ha. unfold before. by rewrite (ef_val _ _ _ _ _ _ He). Qed.

Lemma ghost_step : ghost_inv g' s' t v.
Proof using Hs He Hg Ho.
  pose proof (ef_shared _ _ _ _ _ _ He) as Hs'. split.
  - apply Ho. by right.
  - intros x j Hl Hj. apply Ho. by right.
  - intros x j [[? _]|(_ & Hm & Ha & _)]%recent_cases; [by left|right; by apply mk_mono].
  - apply recent_alloc.
  - intros x j y [[Hl Hj]|(Hr & Hm & Ha & Hn)]%recent_cases Hy.
    + destruct (next_mem _ _ Hs' x j y Hl Hy) as [Hin Hlt]. split; [|done]. apply Ho. right. split; [by right|done].
    + rewrite Hn in Hy. destruct (gi_next _ _ _ _ Hg x j y Hr Hy) as [Hr' Hlt]. split; [apply Ho; by left|].
      apply nlt_stable; [done|by apply (gi_alloc _ _ _ _ Hg) in Hr' as []|done].
  - intros x j [Hr|[[->|Hin]%elem_of_cons Hj]]%Ho; apply Ho.
    + left. by apply (gi_down _ _ _ _ Hg).
    + right. split; [by left|lia].
    + right. split; [right; by apply (si_sub _ _ Hs')|lia].
  - intros x j n Hr Ht Hb Hj. pose proof (tracked_back n Ht) as Ht0. apply Ho in Hr as [Hr|[Hl Hjm]].
    + destruct (gi_alloc _ _ _ _ Hg x j Hr) as [Ha _].
      apply (ef_reach _ _ _ _ _ _ He); [apply Ht0|apply Ht|]. apply path_recent; [done|].
      apply (gi_reach _ _ _ _ Hg); [done|done|by apply before_stable|].
      rewrite <- (ef_lev _ _ _ _ _ _ He); [done|apply Ht0].
    + destruct Ht as (_ & Hl' & Hv). apply (mem_reach _ _ Hs'); [done|by apply (si_live _ _ Hs')|].
      apply before_nlt; [by rewrite Hv|apply Hl'].
  - intros x j n Hr H0 Hv Ht. pose proof (tracked_back n Ht) as Ht0. apply Ho in Hr as [Hr|[Hl Hjm]].
    + destruct (gi_alloc _ _ _ _ Hg x j Hr) as [Ha _]. rewrite (ef_val _ _ _ _ _ _ He) in Hv by done. by eapply (gi_same _ _ _ _ Hg).
    + destruct Ht as (_ & Hl' & Hv'). apply elem_of_cons in Hl as [->|Hl]; [done|].
      eapply (mem_unique _ _ Hs'); [done|by apply (live_mem _ _ Hs')|congruence].
Qed.
End ghost.

(** ** What the other goroutines know *)

Section rely.
Context (g : ghost) (s : Int64Set) (g' : ghost) (s' : Int64Set) (lockT ownT : nat → Prop).
Context (Hs : shared_inv (chain g) s) (He : effect g s g' s' lockT ownT).

Lemma dead_stable v n top : dead s v n top → dead s' v n top.
Proof using He.
  intros (Ha & H0 & Hv & Hl & Hm). split_and!; [by apply He|done| | |by eapply mk_mono].
  - by rewrite (ef_val _ _ _ _ _ _ He).
  - by rewrite (ef_lev _ _ _ _ _ _ He).
Qed.

Lemma mem_stable n j : n ≠ 0 → ¬ lockT n → n ∈ chain g j → n ∈ chain g' j.
Proof using He.
  intros H0 Hlk Hn. destruct (ef_unlink _ _ _ _ _ _ He n j) as [[->|]%elem_of_cons|[? _]]; try done. by right.
Qed.

Lemma removing_stable v n top : ¬ lockT n → removing g s v n top → removing g' s' v n top.
Proof using He. intros Hlk [Hd Hin]. split; [by apply dead_stable|]. intros j Hj. apply mem_stable; [apply Hd|done|auto]. Qed.

Lemma level_ok_stable lv : level_ok s lv → level_ok s' lv.
Proof using He. unfold level_ok. pose proof (ef_high _ _ _ _ _ _ He). lia. Qed.

Lemma adding_stable v lv : adding s v lv → adding s' v lv.
Proof using He. intros [Ho Hl]. split; [done|by apply level_ok_stable]. Qed.

Lemma pred_stable p j : ¬ lockT p → linked g p j → mk s p = false →
  linked g' p j ∧ mk s' p = false ∧ nxt s' p j = nxt s p j.
Proof using Hs He.
  intros Hlk Hl Hm. pose proof (mem_alloc _ _ Hs j p Hl) as Ha. split_and!.
  - destruct (ef_unlink _ _ _ _ _ _ He p j Hl) as [|[? _]]; done.
  - destruct (ef_mk _ _ _ _ _ _ He p Ha) as [->|(_ & _ & ? & _)]; done.
  - destruct (ef_nxt _ _ _ _ _ _ He p j Ha) as [->|[(_ & _ & ?)|(? & _)]]; done.
Qed.

Lemma checked_stable P Q lo k :
  (∀ j p, lo <= j < k → P j = Some p → ¬ lockT p) → checked g s P Q lo k → checked g' s' P Q lo k.
Proof using Hs He.
  intros Hlk Hc j Hj. destruct (Hc j Hj) as (p & Hp & Hl & Hm & Hn). exists p.
  destruct (pred_stable p j) as (? & ? & ->); eauto.
Qed.

Lemma descends_stable P lo hi :
  (∀ j, lo <= j < hi → ∃ p, P j = Some p ∧ alloc s p) → descends s P lo hi → descends s' P lo hi.
Proof using He.
  intros Ha Hd j j' p p' Hlo Hlt Hhi Hp Hp'. destruct (Ha j) as (? & ? & Hap); [lia|]. destruct (Ha j') as (? & ? & Hap'); [lia|].
  simplify_eq. destruct (Hd j j' p p') as [|?]; [done..|by left|]. right. by eapply nlt_stable.
Qed.

Lemma new_stable nn : ¬ ownT nn → alloc s nn → nn ≠ 0 → fl s nn = false → mk s nn = false →
  alloc s' nn ∧ fl s' nn = false ∧ mk s' nn = false ∧ (∀ j, nn ∈ chain g' j ↔ nn ∈ chain g j) ∧
  ∀ j, nn ∉ chain g j → nxt s' nn j = nxt s nn j.
Proof using Hs He.
  intros Ho Ha H0 Hf Hm. split_and!.
  - by apply He.
  - destruct (ef_fl _ _ _ _ _ _ He nn Ha) as [->|(_ & _ & ?)]; done.
  - destruct (ef_mk _ _ _ _ _ _ He nn Ha) as [->|(_ & _ & _ & ?)]; congruence.
  - intros j. split.
    + intros Hin. destruct (ef_link _ _ _ _ _ _ He nn j Hin) as [|[? _]]; done.
    + intros Hin. destruct (ef_unlink _ _ _ _ _ _ He nn j) as [[->|]%elem_of_cons|[_ ?]]; [by right|done|done|congruence].
  - intros j Hj. destruct (ef_nxt _ _ _ _ _ _ He nn j Ha) as [->|[([->|?]%elem_of_cons & _)|(_ & _ & ?)]]; done.
Qed.

Lemma unlinking_stable v n top P hi k :
  (∀ x, preds_below P (S top) x ∨ x = n → ¬ lockT x) → k <= S top →
  unlinking g s v n top P hi k → unlinking g' s' v n top P hi k.
Proof using Hs He.
  intros Hlk Hk (Hd & Hde & Hhi & Hb & Hc & Hin). split_and!; [by apply dead_stable| |done| | |].
  - apply descends_stable; [|done]. intros j [_ Hj]. destruct (Hb j Hj) as (p & ? & ? & _). eauto.
  - intros j Hj. destruct (Hb j Hj) as (p & Hp & Ha & Hbe). exists p. split_and!; [done|by apply He|].
    by apply (before_stable _ _ _ _ _ _ He).
  - intros j Hj. destruct (Hc j Hj) as (p & Hp & Hl & Hm & Hn). exists p.
    destruct (pred_stable p j) as (? & ? & ->); try done. apply Hlk. left. exists j. split; [lia|done].
  - intros j. rewrite <- Hin. destruct Hd as (Ha & H0 & _ & _ & Hm). split.
    + intros Hj. destruct (ef_link _ _ _ _ _ _ He n j Hj) as [|[_ Hf]]; [done|].
      rewrite (si_marked _ _ Hs n Hm) in Hf. done.
    + intros Hj. apply mem_stable; [done|by apply Hlk; right|done].
Qed.

Section seen.
Context (t : nat) (v : C) (Hg : ghost_inv g s t v) (Ho : observes g g' s' t v).

Lemma recent_stable x j : recent g t x j → recent g' t x j.
Proof using Ho. intros Hr. apply Ho. by left. Qed.

Lemma searched_stable P Q lo hi : searched g s t v P Q lo hi → searched g' s' t v P Q lo hi.
Proof using He Hg Ho.
  intros Hse j Hj. destruct (Hse j Hj) as (p & Hp & Hr & Hb & Hq). exists p. split_and!; [done|by apply recent_stable| |].
  - apply (before_stable _ _ _ _ _ _ He); [|done]. by apply (gi_alloc _ _ _ _ Hg) in Hr as [].
  - intros q Hqj. destruct (Hq q Hqj) as (Hrq & H0 & Hle). split_and!; [by apply recent_stable|done|].
    rewrite (ef_val _ _ _ _ _ _ He); [done|]. by apply (gi_alloc _ _ _ _ Hg) in Hrq as [].
Qed.

Lemma searched_alloc P Q lo hi : searched g s t v P Q lo hi → ∀ j, lo <= j < hi → ∃ p, P j = Some p ∧ alloc s p.
Proof using Hg.
  intros Hse j Hj. destruct (Hse j Hj) as (p & Hp & Hr & _). exists p. split; [done|]. by apply (gi_alloc _ _ _ _ Hg) in Hr as [].
Qed.

Lemma searched_val P Q lo hi j q :
  searched g s t v P Q lo hi → lo <= j < hi → Q j = Some q → val s' q = val s q ∧ lev s' q = lev s q.
Proof using He Hg.
  intros Hse Hj Hq. destruct (Hse j Hj) as (p & _ & _ & _ & Hqq). destruct (Hqq q Hq) as (Hr & _).
  apply (gi_alloc _ _ _ _ Hg) in Hr as [Ha _]. split; by apply He.
Qed.

Lemma strict_stable P Q lo hi lo' hi' : searched g s t v P Q lo hi → lo <= lo' → hi' <= hi → strict s v Q lo' hi' → strict s' v Q lo' hi'.
Proof using He Hg.
  intros Hse Hlo Hhi Hst j q Hj Hq. destruct (searched_val P Q lo hi j q Hse) as [-> _]; [lia|done|]. by eapply Hst.
Qed.

Lemma hit_stable n : hit g s t v n → hit g' s' t v n.
Proof using Hs He Hg Ho.
  intros (Ha & H0 & Hv & Htr). split_and!; [by apply He|done|by rewrite (ef_val _ _ _ _ _ _ He)|].
  intros m Hm. apply Htr. by eapply tracked_back.
Qed.

Lemma tracked_lev n : tracked g' s' t v n → tracked g s t v n ∧ lev s' n = lev s n.
Proof using Hs He Hg Ho. intros Hn. assert (tracked g s t v n) as Hb by by eapply tracked_back. split; [done|]. apply He. apply Hb. Qed.

Lemma found_inv_stable P Q i h lf : searched g s t v P Q i h → found_inv g s t v Q i h lf → found_inv g' s' t v Q i h lf.
Proof using Hs He Hg Ho.
  intros Hse. destruct lf as [l|]; simpl.
  - intros (Hl & q & Hq & Hv & Htr). split; [done|]. destruct (searched_val P Q i h l q Hse Hl Hq) as [Hv' Hl'].
    exists q. split_and!; [done|congruence|]. intros n [Hn ->]%tracked_lev. auto.
  - intros [Hst Htr]. split; [by eapply strict_stable|]. intros n [Hn ->]%tracked_lev. auto.
Qed.

Lemma changing_stable w P Q k : wkey w = v → k <= layers w →
  (∀ x, preds_below P k x ∨ work_node w x → ¬ lockT x) →
  changing g s t w P Q k → changing g' s' t w P Q k.
Proof using Hs He Hg Ho.
  intros Hw Hkl Hlk (Hwi & Hse & Hde & Hst & Hc). rewrite Hw in Hse. unfold changing. rewrite Hw. split_and!.
  - destruct w as [v' lv|v' n top]; [by apply adding_stable|]. split; [apply Hwi|]. apply removing_stable; [|apply Hwi]. apply Hlk. by right.
  - by apply searched_stable.
  - apply descends_stable; [by eapply searched_alloc|done].
  - destruct w as [v' lv|]; [|done]. simpl in Hw. rewrite Hw in *. by eapply strict_stable.
  - apply checked_stable; [|done]. intros j p [_ Hj] Hp. apply Hlk. left. by exists j.
Qed.

Lemma linking_stable lv P Q hi nn k : ¬ ownT nn → (∀ x, preds_below P lv x → ¬ lockT x) →
  linking g s t v lv P Q hi nn k →
  linking g' s' t v lv P Q hi nn k ∧ ∀ j, nn ∉ chain g j → nxt s' nn j = nxt s nn j.
Proof using Hs He Hg Ho.
  intros Hon Hlk (Hlv & Hse & Hde & Hst & Hc & Hhi & Ha & H0 & Hv & Hl & Hf & Hm & Hin).
  destruct (new_stable nn Hon Ha H0 Hf Hm) as (Ha' & Hf' & Hm' & Hin' & Hn'). split; [|done]. split_and!; try done.
  - by apply level_ok_stable.
  - by apply searched_stable.
  - apply descends_stable; [by eapply searched_alloc|done].
  - by eapply strict_stable.
  - apply checked_stable; [|done]. intros j p [_ Hj] Hp. apply Hlk. by exists j.
  - by rewrite (ef_val _ _ _ _ _ _ He).
  - by rewrite (ef_lev _ _ _ _ _ _ He).
  - intros j. by rewrite Hin', Hin.
Qed.

Lemma wait_stable n : hit g s t v n → seen g t true = true ∨ (fl s n = false ∧ mk s n = false) →
  seen g' t true = true ∨ (fl s' n = false ∧ mk s' n = false).
Proof using He Ho.
  intros (Ha & H0 & Hv & _) [Hse|[Hf Hm]]; [left; apply (proj2 Ho); by left|].
  assert (Hm' : mk s' n = false) by (destruct (ef_mk _ _ _ _ _ _ He n Ha) as [->|(_ & _ & _ & ?)]; congruence).
  destruct (fl s' n) eqn:Hf'; [|by right]. left. apply (proj2 Ho). right. symmetry. apply bool_decide_eq_true_2.
  apply elem_of_elems. exists n. split; [split_and!; try done; by apply He|]. by rewrite (ef_val _ _ _ _ _ _ He).
Qed.

Lemma fl_mono n : alloc s n → fl s n = true → fl s' n = true.
Proof using He. intros Ha Hf. destruct (ef_fl _ _ _ _ _ _ He n Ha) as [->|(? & ? & _)]; congruence. Qed.

(** A search between two loads. *)
Lemma find_stable f i x P Q lf : tkey (key f) = Some v → (∀ y, finder_node f y → ¬ lockT y) →
  thread_inv g s t (FindLoad f i x P Q lf) → thread_inv g' s' t (FindLoad f i x P Q lf).
Proof using Hs He Hg Ho.
  intros Hk Hlk. cbn [thread_inv]. unfold tkey in Hk. destruct (ordered (key f)); [|done]. injection Hk as Hk.
  rewrite Hk. intros (Hf & Hr & Hb & Hlf & Hrest).
  assert (Hax : alloc s x) by by apply (gi_alloc _ _ _ _ Hg) in Hr as [].
  split_and!.
  - destruct f as [? lv| |? [[n top]|]]; simpl in *; [by apply adding_stable|done| |done].
    apply removing_stable; [by apply Hlk|done].
  - by apply recent_stable.
  - by apply (before_stable _ _ _ _ _ _ He).
  - done.
  - assert (Hmain : ∀ h, i < h ∧ h <= maxLevel → searched g s t v P Q (S i) h → descends s P (S i) h →
      (∀ j p, i < j < h → P j = Some p → p = x ∨ nlt s p x) → found_inv g s t v Q (S i) h lf →
      searched g' s' t v P Q (S i) h ∧ descends s' P (S i) h ∧
      (∀ j p, i < j < h → P j = Some p → p = x ∨ nlt s' p x) ∧ found_inv g' s' t v Q (S i) h lf).
    { intros h Hh Hse Hde Hlt Hfi. pose proof (searched_alloc _ _ _ _ Hse) as Hal. split_and!.
      - by apply searched_stable.
      - by apply descends_stable.
      - intros j p Hj Hp. destruct (Hal j) as (p' & Hp' & Ha'); [lia|]. simplify_eq.
        destruct (Hlt j p Hj Hp) as [|?]; [by left|right; by eapply nlt_stable].
      - by eapply found_inv_stable. }
    destruct f as [|?|]; [|done|]; destruct Hrest as (h & Hh & Hn & Hse & Hde & Hlt & Hfi);
      destruct (Hmain h Hh Hse Hde Hlt Hfi) as (? & ? & ? & ?); exists h; destruct Hh; by split_and!.
Qed.

Lemma searches_stable u P Q k : searched g s t v P Q 0 k ∧ descends s P 0 k ∧ ordered u = true →
  searched g' s' t v P Q 0 k ∧ descends s' P 0 k ∧ ordered u = true.
Proof using He Hg Ho.
  intros (Hse & Hde & Hor). split_and!; [by apply searched_stable| |done]. apply descends_stable; [by eapply searched_alloc|done].
Qed.
End seen.

Lemma unlock_stable t w P Q i valid : (∀ y, valid = false ∧ work_node w y → ¬ lockT y) →
  thread_inv g s t (UnlockPred w P Q i valid) → thread_inv g' s' t (UnlockPred w P Q i valid).
Proof using He.
  intros Hlk (Hi & Hd & Ha & Hw & Hn). split_and!; [done| | | |destruct w; [done|split; [apply He, Hn|apply Hn]]].
  - apply descends_stable; [|done]. intros j [_ Hj]. destruct (Ha j) as (p & ? & ?); [lia|]. eauto.
  - intros j Hj. destruct (Ha j Hj) as (p & ? & ?). exists p. split; [done|by apply He].
  - intros Hv. specialize (Hw Hv). destruct w as [? lv|? n top]; simpl in *; [by apply adding_stable|].
    split; [apply Hw|]. apply removing_stable; [by apply Hlk|apply Hw].
Qed.

Lemma check_stable t w P Q k :
  ghost_inv g s t (wkey w) → observes g g' s' t (wkey w) → (∀ x, preds_below P (S k) x ∨ work_node w x → ¬ lockT x) →
  k < layers w → changing g s t w P Q k → changing g' s' t w P Q k.
Proof using Hs He.
  intros Hg Ho Hlk Hk Hc. eapply changing_stable; eauto; [lia|].
  intros x [(j & ? & ?)|?]; apply Hlk; [left; exists j; split; [lia|done]|by right].
Qed.

Lemma check_pred_stable t w P Q k :
  ghost_inv g s t (wkey w) → (∀ x, preds_below P (S k) x ∨ work_node w x → ¬ lockT x) →
  k < layers w → changing g s t w P Q k → (∀ p, P k = Some p → mk s p = false) → ∀ p, P k = Some p → mk s' p = false.
Proof using He.
  intros Hg Hlk Hk (_ & Hse & _) Hm p Hp. destruct (searched_alloc _ _ Hg _ _ _ _ Hse k) as (p' & Hp' & Ha); [lia|].
  simplify_eq. destruct (ef_mk _ _ _ _ _ _ He p Ha) as [->|(_ & _ & ? & _)]; [auto|].
  destruct (Hlk p); [left; by exists k; split; [lia|]|done].
Qed.

Lemma thread_stable t p :
  (∀ x, held p x → ¬ lockT x) → (∀ x, owned p = Some x → ¬ ownT x) →
  (∀ v, target p = Some v → ghost_inv g s t v ∧ observes g g' s' t v) →
  thread_inv g s t p → thread_inv g' s' t p.
Proof using Hs He.
  intros Hlk Hon Htg. destruct (target p) as [v|] eqn:Hv;
    [|destruct p; simpl in Hv |- *; try done; unfold tkey in Hv; by destruct (ordered _)].
  destruct (Htg v eq_refl) as [Hg Ho]. clear Htg.
  destruct p; simpl in Hv; try done; try (injection Hv as Hv; subst); simpl in Hlk, Hon; try done.
  - cbn [thread_inv]. unfold tkey in Hv. destruct (ordered (key f)); [|done].
    destruct f as [? lv| |? [[n top]|]]; simpl in *; try done; [by apply adding_stable|]. apply removing_stable; auto.
  - by apply find_stable with v.
  - intros [? ?]. split; [by apply adding_stable|by eapply hit_stable].
  - intros [Hh Hw]. split; [by eapply hit_stable|by eapply wait_stable].
  - intros [? ?]. split; [by eapply hit_stable|done].
  - intros (Hh & Htr & Hse). split_and!; [by eapply hit_stable| |by eapply searches_stable..].
    intros m Hm. destruct (tracked_lev _ _ Hg Ho m Hm) as [? ->]. auto.
  - intros (Hh & Hl & Hf & Hse). assert (alloc s n) by apply Hh.
    split_and!; [by eapply hit_stable|by rewrite (ef_lev _ _ _ _ _ _ He)|by apply fl_mono|by eapply searches_stable..].
  - intros (Hh & Hl & Hf & Hse). assert (alloc s n) by apply Hh.
    split_and!; [by eapply hit_stable|by rewrite (ef_lev _ _ _ _ _ _ He)|by apply fl_mono|by eapply searches_stable..].
  - intros Hse. apply (proj2 Ho). by left.
  - intros (Hh & Hl & Hf & Hm & Hse). assert (alloc s n) as Ha by apply Hh.
    split_and!; [by eapply hit_stable|by rewrite (ef_lev _ _ _ _ _ _ He)|by apply fl_mono| |by eapply searches_stable..].
    destruct (ef_mk _ _ _ _ _ _ He n Ha) as [->|(_ & _ & ? & _)]; [done|]. by destruct (Hlk n).
  - intros (Hc & Hk & Hhi & Hp). split_and!; try done. eapply changing_stable; eauto. lia.
  - intros (Hc & Hk & Hhi). split_and!; try done. eapply check_stable; eauto.
  - intros (Hc & Hk & Hhi & Hp & Hq). split_and!; try done; [by eapply check_stable|by eapply check_pred_stable].
  - intros (Hc & Hk & Hhi & Hp). split_and!; try done; [by eapply check_stable|by eapply check_pred_stable].
  - intros (Hc & Hhi). split; [|done]. eapply changing_stable; eauto. intros x [?|[]]. by apply Hlk.
  - intros (Hli & Hk & Hor). split; [|done]. eapply linking_stable; eauto.
  - intros (Hli & Hk & Hor & Hn). split_and!; [by eapply linking_stable; eauto|done|done|].
    destruct (linking_stable _ _ Hg Ho _ _ _ _ _ _ (Hon _ eq_refl) Hlk Hli) as [_ Hnx]. rewrite Hnx; [done|].
    destruct Hli as (_ & _ & _ & _ & _ & _ & _ & _ & _ & _ & _ & _ & Hin). rewrite Hin. lia.
  - intros [Hli Hor]. split; [|done]. eapply linking_stable; eauto.
  - intros [Hu Hi]. split; [|done]. apply unlinking_stable; [done|lia|done].
  - intros (Hu & Hi & ->). split_and!; [apply unlinking_stable; [done|lia|done]|done|].
    destruct Hu as (Hd & _ & _ & _ & _ & Hin). assert (alloc s n) as Ha by apply Hd.
    assert (linked g n i) by (right; apply Hin; lia).
    destruct (ef_nxt _ _ _ _ _ _ He n i Ha) as [->|[(_ & _ & ?)|(? & _)]]; [done| |done]. destruct (Hlk n); [by right|done].
  - intros Hu. apply unlinking_stable; [done|lia|done].
  - intros Hu. apply unlock_stable; [|done]. intros y [? ?]. apply Hlk. by right.
  - destruct w; [done|]. apply He.
Qed.
End rely.
End keys.
