(* ===== verification/SkipSetMoves.v ===== *)
(** * The concurrent skip set: the effects of the steps

    Each step that writes to the shared state has an [effect]: locking and
    unlocking, a new node, a link written before it is published, a link, a
    flag, an unlink. *)

From stdpp Require Import functions sorting.
From S2P Require Import Prelude Atomic SkipSet SkipSetInv SkipSetHeap.

Section keys.
Context {K C : Type} `{CC : Countable C} {HK : SkipKey K C}.
#[local] Abbreviation int64Node := (@int64Node K).
#[local] Abbreviation Int64Set := (@Int64Set K).
#[local] Abbreviation op := (@op K).
#[local] Abbreviation finder := (@finder K).
#[local] Abbreviation work := (@work K).
#[local] Abbreviation pc := (@pc K).
#[local] Abbreviation config := (@config K).
Implicit Types (s : Int64Set) (c : config) (w : work) (o : op).

(** ** Lists given by a next function *)

Fixpoint links (f : nat → option nat) (L : list nat) : Prop :=
  match L with [] => True | x :: L' => f x = head L' ∧ links f L' end.

Lemma links_lookup f L : links f L ↔ ∀ i x, L !! i = Some x → f x = L !! S i.
Proof.
  induction L as [|y L IH]; simpl; [split; [by intros _ i x ?|done]|]. rewrite IH. split.
  - intros [Hy HL] [|i] x Hx; simpl in *; [injection Hx as ->; rewrite Hy; by destruct L|auto].
  - intros H. split; [rewrite (H 0 y eq_refl); by destruct L|]. intros i x Hx. apply (H (S i) x Hx).
Qed.

Lemma links_ext f f' L : (∀ x, x ∈ L → f' x = f x) → links f L → links f' L.
Proof.
  induction L as [|y L IH]; simpl; [done|]. intros He [Hy HL]. split; [rewrite He; [done|by left]|].
  apply IH; [|done]. intros x Hx. apply He. by right.
Qed.

Lemma links_tail f L p n : links f L → p ∈ L → f p = Some n → n ∈ tail L.
Proof.
  induction L as [|y L IH]; [by intros _ ?%not_elem_of_nil|]. intros [Hy HL] [->|Hp]%elem_of_cons Hn; simpl.
  - rewrite Hy in Hn. destruct L; simplify_eq/=. by left.
  - destruct L as [|z L]; [by apply not_elem_of_nil in Hp|]. right. by apply (IH HL Hp Hn).
Qed.

(** Insertion after [p]. *)
Fixpoint add_after (p n : nat) (L : list nat) : list nat :=
  match L with [] => [] | x :: L => if decide (x = p) then x :: n :: L else x :: add_after p n L end.

Lemma head_add_after p n L : head (add_after p n L) = head L.
Proof. destruct L; simpl; [done|]. by case_decide. Qed.

Lemma add_after_cons p n x L : x :: tail (add_after p n (x :: L)) = add_after p n (x :: L).
Proof. simpl. by case_decide. Qed.

Lemma elem_of_add_after p n L x : p ∈ L → x ∈ add_after p n L ↔ x = n ∨ x ∈ L.
Proof.
  induction L as [|y L IH]; [by intros ?%not_elem_of_nil|]. intros Hp. simpl. case_decide as Hy.
  - rewrite !elem_of_cons. naive_solver.
  - rewrite !elem_of_cons. apply elem_of_cons in Hp as [->|Hp]; [done|]. rewrite IH by done. naive_solver.
Qed.

Lemma links_add_after f f' p n L :
  NoDup L → n ∉ L → f' p = Some n → f' n = f p → (∀ x, x ≠ p → x ≠ n → f' x = f x) →
  links f L → links f' (add_after p n L).
Proof.
  intros Hnd Hn Hp Hfn He. induction L as [|y L IH]; simpl; [done|]. intros [Hy HL].
  apply list.NoDup_cons in Hnd as [HyL Hnd]. apply not_elem_of_cons in Hn as [Hny HnL]. case_decide as Hyp.
  - subst y. simpl. split_and!; [done|by rewrite Hfn|]. apply (links_ext f); [|done].
    intros x Hx. apply He; intros ->; done.
  - simpl. rewrite head_add_after, He by done. split; [done|]. by apply IH.
Qed.

Lemma sorted_add_after R `{!Transitive R} f p n L :
  StronglySorted R L → links f L → R p n → (∀ q, f p = Some q → R n q) → StronglySorted R (add_after p n L).
Proof.
  intros Hs Hl Hp Hq. induction L as [|y L IH]; simpl; [done|].
  apply StronglySorted_inv in Hs as [Hs Hy]. destruct Hl as [Hyn Hl]. case_decide as Hyp.
  - subst y. repeat constructor; try done. destruct L as [|z L]; [done|].
    apply StronglySorted_inv in Hs as [_ Hz]. specialize (Hq z Hyn). constructor; [done|].
    eapply list.Forall_impl; [exact Hz|]. intros x Hx. by etrans.
  - constructor; [by apply IH|]. rewrite list.Forall_forall in *. intros x Hx.
    destruct (decide (p ∈ L)) as [HpL|HpL].
    + apply elem_of_add_after in Hx as [->|Hx]; [|auto|done]. etrans; [by apply Hy|done].
    + assert (add_after p n L = L) as Heq; [|rewrite Heq in Hx; auto].
      clear -HpL. induction L as [|z L IH]; simpl; [done|]. apply not_elem_of_cons in HpL as [? ?].
      rewrite decide_False by done. by rewrite IH.
Qed.

(** Removal of [n], the successor of [p]. *)
Definition without (n : nat) (L : list nat) : list nat := filter (λ x, x ≠ n) L.

Lemma without_not_in n L : n ∉ L → without n L = L.
Proof. intros Hn. apply filter_all. intros x Hx Heq. by subst x. Qed.

Lemma links_without f f' p n L :
  NoDup L → p ∈ L → f p = Some n → head L ≠ Some n → f' p = f n → (∀ x, x ≠ p → f' x = f x) →
  links f L → links f' (without n L).
Proof.
  intros Hnd Hp Hpn Hh Hfp He. induction L as [|y L IH]; simpl; [done|]. intros [Hy HL].
  apply list.NoDup_cons in Hnd as [HyL Hnd]. unfold without in *. rewrite filter_cons. rewrite decide_True by (simpl in Hh; congruence).
  destruct (decide (y = p)) as [->|Hyp].
  - rewrite Hy in Hpn. destruct L as [|z L]; [done|]. injection Hpn as ->. apply list.NoDup_cons in Hnd as [HnL Hnd].
    rewrite filter_cons, decide_False by tauto. fold (without n L). rewrite without_not_in by done.
    destruct HL as [Hn HL]. split; [by rewrite Hfp|]. apply (links_ext f); [|done]. intros x Hx. apply He.
    intros ->. apply HyL. by right.
  - apply elem_of_cons in Hp as [->|Hp]; [done|].
    assert (Hhd : head L ≠ Some n).
    { intros Hhd. destruct L as [|z L]; [done|]. injection Hhd as ->.
      apply list.NoDup_cons in Hnd as [HnL _]. apply HnL. by apply (links_tail f (n :: L) p n). }
    split; [|by apply IH]. rewrite He, Hy by done. destruct L as [|z L]; [done|]. simpl in Hhd.
    rewrite filter_cons, decide_True by congruence. done.
Qed.

Lemma elem_of_without n L x : x ∈ without n L ↔ x ∈ L ∧ x ≠ n.
Proof. unfold without. rewrite list_elem_of_filter. tauto. Qed.

Lemma sorted_without R n L : StronglySorted R L → StronglySorted R (without n L).
Proof.
  induction 1 as [|y L Hs IH Hy]; [constructor|]. unfold without in *. rewrite filter_cons. case_decide; [|done].
  constructor; [done|]. rewrite list.Forall_forall in *. intros x [_ Hx]%list_elem_of_filter. auto.
Qed.

(** ** States that differ in links, locks and counters only *)

Record like (s s' : Int64Set) : Prop := {
  lk_alloc x : alloc s' x ↔ alloc s x;
  lk_value x : value (node_at s' x) = value (node_at s x);
  lk_lev x : lev s' x = lev s x;
  lk_fl x : fl s' x = fl s x;
  lk_mk x : mk s' x = mk s x;
  lk_ok x : alloc s x → node_ok (node_at s x) → node_ok (node_at s' x);
  lk_high : highestLevel s <= highestLevel s'
}.

Lemma lk_val s s' : like s s' → ∀ x, val s' x = val s x.
Proof. intros H x. unfold val. by rewrite (lk_value _ _ H). Qed.

Lemma like_live s s' n : like s s' → live s' n ↔ live s n.
Proof. intros H. unfold live. by rewrite (lk_alloc _ _ H), (lk_fl _ _ H), (lk_mk _ _ H). Qed.

Lemma like_elems s s' : like s s' → elems s' = elems s.
Proof.
  intros H. apply set_eq. intros v. rewrite !elem_of_elems. apply exist_proper. intros n.
  by rewrite (like_live s s'), (lk_val _ _ H).
Qed.

Lemma like_nlt s s' a b : like s s' → nlt s' a b ↔ nlt s a b.
Proof. intros H. unfold nlt. by rewrite !(lk_val _ _ H). Qed.

Lemma sorted_like s s' L : like s s' → StronglySorted (nlt s) L → StronglySorted (nlt s') L.
Proof.
  intros H. induction 1 as [|x L Hs IH Hx]; constructor; [done|]. eapply list.Forall_impl; [exact Hx|].
  intros y. by apply (like_nlt s s').
Qed.

(** The parts of the shared invariant that do not depend on links. *)
Lemma like_shared ch ch' s s' :
  shared_inv ch s → like s s' → highestLevel s' <= maxLevel →
  (∀ j, links (λ x, nxt s' x j) (0 :: ch' j)) → (∀ j, StronglySorted (nlt s) (0 :: ch' j)) →
  (∀ j x, x ∈ ch' j → alloc s x ∧ j < lev s x) → (∀ j x, x ∈ ch' (S j) → x ∈ ch' j) →
  (∀ x j, live s x → j < lev s x → x ∈ ch' j) →
  shared_inv ch' s'.
Proof.
  intros Hs H Hh Hn Hso Hm Hsub Hl. split.
  - intros x Hx%(lk_alloc _ _ H). by apply (lk_ok _ _ H), Hs.
  - by rewrite (lk_alloc _ _ H), (lk_lev _ _ H), (lk_mk _ _ H), (lk_fl _ _ H); apply Hs.
  - done.
  - intros x. rewrite (lk_alloc _ _ H), (lk_lev _ _ H). intros Ha H0. pose proof (si_lev _ _ Hs x Ha H0).
    pose proof (lk_high _ _ H). lia.
  - intros j. apply (proj1 (links_lookup _ _) (Hn j)).
  - intros j. by apply (sorted_like s s').
  - intros j x. rewrite (lk_alloc _ _ H), (lk_lev _ _ H). apply Hm.
  - done.
  - intros x j. rewrite (like_live s s'), (lk_lev _ _ H) by done. apply Hl.
  - intros x. rewrite (lk_mk _ _ H), (lk_fl _ _ H). apply Hs.
  - intros x. rewrite (lk_alloc _ _ H), (lk_value _ _ H). apply Hs.
Qed.

Lemma si_links ch s j : shared_inv ch s → links (λ x, nxt s x j) (0 :: ch j).
Proof. intros Hs. apply links_lookup. apply Hs. Qed.

Lemma si_NoDup ch s j : shared_inv ch s → NoDup (0 :: ch j).
Proof.
  intros Hs. pose proof (si_sorted _ _ Hs j) as Hso. induction Hso as [|x L Hso IH Hx]; constructor; [|done].
  intros Hin. rewrite list.Forall_forall in Hx. by apply (nlt_irrefl s x), Hx.
Qed.

Lemma effect_weaken g s g' s' (l l' o o' : nat → Prop) :
  (∀ x, l x → l' x) → (∀ x, o x → o' x) → effect g s g' s' l o → effect g s g' s' l' o'.
Proof.
  intros Hl Ho [E1 E2 E3 E4 E5 E6 E7 E8 E9 E10 E11 E12]. split; try done.
  - intros x Ha. destruct (E6 x Ha) as [|(? & ? & ? & ?)]; [by left|right; auto].
  - intros x Ha. destruct (E7 x Ha) as [|(? & ? & ?)]; [by left|right; auto].
  - intros x j Hx. destruct (E9 x j Hx) as [|[? ?]]; [by left|right; auto].
  - intros x j Hx. destruct (E10 x j Hx) as [|[? ?]]; [by left|right; auto].
  - intros x j Hx. destruct (E11 x j Hx) as [|[(? & ? & ?)|(? & ? & ?)]]; [by left|right; left; auto|right; right; auto].
Qed.

(** An effect that does not touch the flags. *)
Lemma like_effect g s g' s' (lockT ownT : nat → Prop) :
  shared_inv (chain g') s' → like s s' →
  (∀ x j, linked g x j → linked g' x j ∨ (lockT x ∧ mk s x = true)) →
  (∀ x j, x ∈ chain g' j → x ∈ chain g j ∨ (ownT x ∧ fl s x = false)) →
  (∀ x j, alloc s x → nxt s' x j = nxt s x j ∨ (linked g x j ∧ linked g' x j ∧ lockT x) ∨
                 (¬ linked g x j ∧ mk s x = false ∧ ownT x)) →
  (∀ j x n, mk s n = false → reach_ok g s j x n → reach s' j x n) →
  effect g s g' s' lockT ownT.
Proof.
  intros Hs' H Hu Hl Hn Hr. split; try done.
  - intros x. by rewrite (lk_alloc _ _ H).
  - intros x _. by apply lk_val.
  - intros x _. apply H.
  - apply H.
  - intros x _. left. apply H.
  - intros x _. left. apply H.
  - intros x Hx Hnx. by apply (lk_alloc _ _ H) in Hx.
  - intros j x n Hn' _. apply Hr, Hn'.
Qed.

(** *** Locks and counters *)

Lemma quiet_effect g s s' :
  shared_inv (chain g) s → like s s' → highestLevel s' <= maxLevel → (∀ x j, nxt s' x j = nxt s x j) →
  effect g s g s' (λ _, False) (λ _, False).
Proof.
  intros Hs H Hh Hn. apply like_effect; [|done|by left|by left| |].
  - apply (like_shared (chain g) (chain g) s); try done; try apply Hs.
    intros j. eapply links_ext; [|by apply (si_links _ s)]. intros x _. apply Hn.
  - intros x j _. left. apply Hn.
  - intros j x n _ Hr. eapply rtc_subrel; [|exact Hr]. intros a b [Hab _]. by rewrite Hn.
Qed.

(** *** A link written before it is published *)

Lemma init_effect g s s' nn k q :
  shared_inv (chain g) s → like s s' → highestLevel s' <= maxLevel →
  (∀ x j, nxt s' x j = if decide (x = nn ∧ j = k) then q else nxt s x j) →
  ¬ linked g nn k → mk s nn = false →
  effect g s g s' (λ _, False) (λ x, x = nn).
Proof.
  intros Hs H Hh Hn Hnk Hm. apply like_effect; [|done|by left|by left| |].
  - apply (like_shared (chain g) (chain g) s); try done; try apply Hs.
    intros j. eapply links_ext; [|by apply (si_links _ s)]. intros x Hx. cbn beta. rewrite Hn.
    apply decide_False. intros [-> ->]. done.
  - intros x j _. rewrite Hn. case_decide as Hd; [|by left]. destruct Hd as [-> ->]. right. right. done.
  - intros j x n _ Hr. eapply rtc_subrel; [|exact Hr]. intros a b [Hab Hok]. rewrite Hn.
    rewrite decide_False; [done|]. intros [-> ->]. destruct Hok; [done|congruence].
Qed.

(** *** Linking the new node *)

Definition link_chain (ch : nat → list nat) (p nn k : nat) : nat → list nat :=
  <[k := tail (add_after p nn (0 :: ch k))]> ch.

Lemma link_chain_cons ch p nn k j :
  0 :: link_chain ch p nn k j = if decide (j = k) then add_after p nn (0 :: ch j) else 0 :: ch j.
Proof.
  unfold link_chain. case_decide as Hj; [subst j|by rewrite fn_lookup_insert_ne].
  rewrite fn_lookup_insert. apply add_after_cons.
Qed.

Lemma elem_of_link_chain ch p nn k j x : p ∈ 0 :: ch k → nn ≠ 0 →
  x ∈ link_chain ch p nn k j ↔ x ∈ ch j ∨ (x = nn ∧ j = k).
Proof.
  intros Hp H0. unfold link_chain. destruct (decide (j = k)) as [->|Hj].
  - rewrite fn_lookup_insert. simpl. case_decide as H0p.
    + subst p. simpl. rewrite elem_of_cons. tauto.
    + simpl. apply elem_of_cons in Hp as [->|Hp]; [done|]. rewrite elem_of_add_after by done. tauto.
  - rewrite fn_lookup_insert_ne by done. tauto.
Qed.

Section link.
Context (g g' : ghost) (s s' : Int64Set) (p nn k : nat).
Context (Hs : shared_inv (chain g) s) (H : like s s') (Hh : highestLevel s' <= maxLevel).
Context (Hn : ∀ x j, nxt s' x j = if decide (x = p ∧ j = k) then Some nn else nxt s x j).
Context (Hp : linked g p k) (H0 : nn ≠ 0) (Hnk : nn ∉ chain g k) (Hlow : k = 0 ∨ nn ∈ chain g (k - 1)).
Context (Hq : nxt s nn k = nxt s p k) (Ha : alloc s nn) (Hk : k < lev s nn) (Hf : fl s nn = false) (Hm : mk s nn = false).
Context (Hpn : nlt s p nn) (Hnq : ∀ q, nxt s p k = Some q → nlt s nn q).
Context (Hg' : chain g' = link_chain (chain g) p nn k).

Lemma link_neq : nn ≠ p.
Proof using Hpn. intros Heq. apply (nlt_irrefl s p). rewrite <- Heq at 2. exact Hpn. Qed.

Lemma link_fresh : nn ∉ 0 :: chain g k.
Proof using H0 Hnk. by intros [?|?]%elem_of_cons. Qed.

Lemma linking_shared : shared_inv (chain g') s'.
Proof using All.
  rewrite Hg'. apply (like_shared (chain g) _ s); try done.
  - intros j. rewrite link_chain_cons. case_decide as Hj; [subst j|].
    + eapply links_add_after; [by eapply si_NoDup|by apply link_fresh| | | |by apply (si_links _ s)]; cbn beta.
      * rewrite Hn. by rewrite decide_True.
      * rewrite Hn, decide_False; [done|]. intros [? _]. by apply link_neq.
      * intros x Hx _. rewrite Hn, decide_False; [done|]. by intros [? _].
    + eapply links_ext; [|by apply (si_links _ s)]. intros x _. cbn beta. rewrite Hn, decide_False; [done|]. by intros [_ ?].
  - intros j. rewrite link_chain_cons. case_decide as Hj; [subst j|by apply Hs].
    eapply (sorted_add_after (nlt s)); [by apply Hs|by apply (si_links _ s)|done|done].
  - intros j x. rewrite elem_of_link_chain by done. intros [Hx|[-> ->]]; [by apply Hs|done].
  - intros j x. rewrite !elem_of_link_chain by done. intros [Hx|[-> Hj]].
    + left. by apply (si_sub _ _ Hs).
    + destruct Hlow as [->|Hl]; [lia|]. left. by replace j with (k - 1) by lia.
  - intros x j Hl Hj. rewrite elem_of_link_chain by done. left. by apply (si_live _ _ Hs).
Qed.

Lemma link_effect : effect g s g' s' (λ x, x = p) (λ x, x = nn).
Proof using All.
  pose proof linking_shared as Hsh.
  assert (Hel : ∀ x j, x ∈ chain g' j ↔ x ∈ chain g j ∨ (x = nn ∧ j = k)) by (intros; rewrite Hg'; by apply elem_of_link_chain).
  assert (Hli : ∀ x j, linked g x j → linked g' x j).
  { intros x j [->|Hx]%elem_of_cons; [by left|]. right. apply Hel. by left. }
  apply like_effect; try done.
  - intros x j Hx. left. auto.
  - intros x j [?|[-> ->]]%Hel; auto.
  - intros x j _. rewrite Hn. case_decide as Hd; [|by left]. destruct Hd as [-> ->]. right. left. auto.
  - intros j x n _ Hr. induction Hr as [|a b c [Hab Hok] Hbc IH]; [constructor|].
    destruct (decide (a = p ∧ j = k)) as [[-> ->]|Hne].
    + eapply rtc_l; [rewrite Hn, decide_True by done; done|]. eapply rtc_l; [|exact IH].
      cbn beta. rewrite Hn, decide_False, Hq; [done|]. intros [? _]. by apply link_neq.
    + eapply rtc_l; [|exact IH]. cbn beta. by rewrite Hn, decide_False.
Qed.
End link.

(** *** Unlinking a marked node *)

Definition unlink_chain (ch : nat → list nat) (n k : nat) : nat → list nat := <[k := without n (ch k)]> ch.

Lemma elem_of_unlink_chain ch n k j x : x ∈ unlink_chain ch n k j ↔ x ∈ ch j ∧ ¬ (x = n ∧ j = k).
Proof.
  unfold unlink_chain. destruct (decide (j = k)) as [->|Hj].
  - rewrite fn_lookup_insert, elem_of_without. tauto.
  - rewrite fn_lookup_insert_ne by done. tauto.
Qed.

Section unlink.
Context (g g' : ghost) (s s' : Int64Set) (p n k : nat).
Context (Hs : shared_inv (chain g) s) (H : like s s') (Hh : highestLevel s' <= maxLevel).
Context (Hn : ∀ x j, nxt s' x j = if decide (x = p ∧ j = k) then nxt s n k else nxt s x j).
Context (Hp : linked g p k) (Hpn : nxt s p k = Some n) (Htop : n ∉ chain g (S k)) (Hm : mk s n = true).
Context (Hg' : chain g' = unlink_chain (chain g) n k).

Lemma unlink_mem : n ∈ chain g k ∧ nlt s p n.
Proof using Hs Hp Hpn. by apply (next_mem _ _ Hs). Qed.

Lemma unlink_neq : n ≠ p.
Proof using Hs Hp Hpn. intros Heq. apply (nlt_irrefl s p). rewrite <- Heq at 2. apply unlink_mem. Qed.

Lemma unlink_nonzero : n ≠ 0.
Proof using Hs Hp Hpn. destruct unlink_mem as [_ [? _]]. done. Qed.

Lemma unlink_shared : shared_inv (chain g') s'.
Proof using All.
  rewrite Hg'. apply (like_shared (chain g) _ s); try done.
  - intros j. unfold unlink_chain. destruct (decide (j = k)) as [->|Hj].
    + rewrite fn_lookup_insert.
      replace (0 :: without n (chain g k)) with (without n (0 :: chain g k)).
      2: { unfold without. by rewrite filter_cons, decide_True by (symmetry; apply unlink_nonzero). }
      apply (links_without (λ x, nxt s x k) _ p); [by eapply si_NoDup|done|done| | | |by apply (si_links _ s)].
      * simpl. intros [=]. by apply unlink_nonzero.
      * cbn beta. rewrite Hn. by rewrite decide_True.
      * intros x Hx. cbn beta. rewrite Hn, decide_False; [done|]. by intros [? _].
    + rewrite fn_lookup_insert_ne by done. eapply links_ext; [|by apply (si_links _ s)].
      intros x _. cbn beta. rewrite Hn, decide_False; [done|]. by intros [_ ?].
  - intros j. unfold unlink_chain. destruct (decide (j = k)) as [->|Hj]; [|rewrite fn_lookup_insert_ne by done; apply Hs].
    rewrite fn_lookup_insert. pose proof (si_sorted _ _ Hs k) as Hso. apply StronglySorted_inv in Hso as [Hso Hfa].
    constructor; [by apply sorted_without|]. rewrite list.Forall_forall in *. intros x [Hx _]%elem_of_without. auto.
  - intros j x [Hx _]%elem_of_unlink_chain. by apply Hs.
  - intros j x. rewrite !elem_of_unlink_chain. intros [Hx Hne]. split; [by apply (si_sub _ _ Hs)|].
    intros [-> ->]. done.
  - intros x j Hl Hj. apply elem_of_unlink_chain. split; [by apply (si_live _ _ Hs)|]. intros [-> _].
    destruct Hl as (_ & _ & _ & ?). congruence.
Qed.

Lemma unlink_effect : effect g s g' s' (λ x, x = p ∨ x = n) (λ _, False).
Proof using All.
  pose proof unlink_shared as Hsh.
  assert (Hel : ∀ x j, x ∈ chain g' j ↔ x ∈ chain g j ∧ ¬ (x = n ∧ j = k)) by (intros; rewrite Hg'; apply elem_of_unlink_chain).
  assert (Hli : ∀ x j, linked g x j → linked g' x j ∨ x = n).
  { intros x j [->|Hx]%elem_of_cons; [left; by left|]. destruct (decide (x = n)); [by right|]. left. right. apply Hel. tauto. }
  assert (Hpl : linked g' p k) by (destruct (Hli p k Hp) as [|?]; [done|by destruct unlink_neq]).
  apply like_effect; try done.
  - intros x j [?| ->]%Hli; auto.
  - intros x j [? _]%Hel. by left.
  - intros x j _. rewrite Hn. case_decide as Hd; [|by left]. destruct Hd as [-> ->]. right. left. auto.
  - intros j x n' Hn' Hr. induction Hr as [|a b c [Hab Hok] Hbc IH]; [constructor|]. specialize (IH Hn').
    destruct (decide (a = p ∧ j = k)) as [[-> ->]|Hne].
    + assert (b = n) as -> by congruence. inversion IH as [|? y ? Hy Hyc]; subst; [congruence|].
      eapply rtc_l; [|exact Hyc]. cbn beta. rewrite Hn, decide_True by done. cbn beta in Hy.
      rewrite Hn, decide_False in Hy; [done|]. intros [? _]. by apply unlink_neq.
    + eapply rtc_l; [|exact IH]. cbn beta. by rewrite Hn, decide_False.
Qed.
End unlink.

(** ** The writes of the steps *)

Definition locked_by (x : nat) (m : option nat) (s : Int64Set) : Int64Set := update x (set_mu m (node_at s x)) s.
Definition flagged (x : nat) (f : Z) (s : Int64Set) : Int64Set :=
  update x (set_flags (SetTrue (flags (node_at s x)) f) (node_at s x)) s.

Lemma locked_like x m s : alloc s x → like s (locked_by x m s) ∧ (∀ y j, nxt (locked_by x m s) y j = nxt s y j) ∧
  ∀ y, own (locked_by x m s) y = if decide (y = x) then m else own s y.
Proof.
  intros Hx. unfold locked_by. split_and!.
  - split; try done.
    + intros y. apply update_alloc.
    + intros y. by apply (proj_update value).
    + intros y. by apply (proj_update level).
    + intros y. by apply (proj_update (λ n, Z.testbit (flags n) 0)).
    + intros y. by apply (proj_update (λ n, Z.testbit (flags n) 1)).
    + intros y _ Hy. rewrite node_at_update by done. case_decide; [by subst|done].
  - intros y j. by apply (proj_update (λ n, default None (load (next n) j))).
  - intros y. unfold own. rewrite node_at_update by done. by case_decide.
Qed.

Lemma store_like s x j p : alloc s x → node_ok (node_at s x) → j < lev s x →
  ∃ s', atomicStoreNext x j p s = Some s' ∧ like s s' ∧ highestLevel s' = highestLevel s ∧ len s' = len s ∧
    (∀ y i, nxt s' y i = if decide (y = x ∧ i = j) then p else nxt s y i) ∧ ∀ y, own s' y = own s y.
Proof.
  intros Hx Hok Hj. unfold atomicStoreNext. rewrite lookup_node by done. simpl.
  destruct (store_ok _ j p Hok Hj) as (a & -> & Hb & He & Hld). simpl. eexists. split; [done|]. split_and!.
  - split; try done.
    + intros y. apply update_alloc.
    + intros y. by apply (proj_update value).
    + intros y. by apply (proj_update level).
    + intros y. by apply (proj_update (λ n, Z.testbit (flags n) 0)).
    + intros y. by apply (proj_update (λ n, Z.testbit (flags n) 1)).
    + intros y _ Hy. rewrite node_at_update by done. case_decide; [|done]. by split_and!; try apply Hok.
  - done.
  - done.
  - intros y i. unfold nxt. rewrite node_at_update by done. destruct (decide (y = x)) as [->|Hne].
    + simpl. rewrite Hld. destruct (decide (i = j)) as [->|Hij]; [by rewrite decide_True|].
      rewrite decide_False; [done|]. by intros [_ ?].
    + rewrite decide_False; [done|]. by intros [? _].
  - intros y. by apply (proj_update mu).
Qed.

(** A step that changes flags. *)
Lemma flagged_spec x f n s : alloc s x → (0 <= n)%Z → f = (2 ^ n)%Z →
  let s' := flagged x f s in
  (∀ y, alloc s' y ↔ alloc s y) ∧ (∀ y, value (node_at s' y) = value (node_at s y)) ∧ (∀ y, lev s' y = lev s y) ∧ (∀ y, own s' y = own s y) ∧
  (∀ y j, nxt s' y j = nxt s y j) ∧ (∀ y, fl s' y = fl s y || (bool_decide (y = x) && (0 =? n)%Z)) ∧
  (∀ y, mk s' y = mk s y || (bool_decide (y = x) && (1 =? n)%Z)) ∧
  ∀ y, node_ok (node_at s y) → node_ok (node_at s' y).
Proof.
  intros Hx Hn -> s'. unfold s', flagged. split_and!.
  - intros y. apply update_alloc.
  - intros y. by apply (proj_update value).
  - intros y. by apply (proj_update level).
  - intros y. by apply (proj_update mu).
  - intros y j. by apply (proj_update (λ n, default None (load (next n) j))).
  - intros y. unfold fl. rewrite node_at_update by done. destruct (decide (y = x)) as [->|Hne].
    + rewrite bool_decide_true by done. cbn [flags set_flags]. by rewrite SetTrue_testbit.
    + rewrite bool_decide_false by done. by rewrite orb_false_r.
  - intros y. unfold mk. rewrite node_at_update by done. destruct (decide (y = x)) as [->|Hne].
    + rewrite bool_decide_true by done. cbn [flags set_flags]. by rewrite SetTrue_testbit.
    + rewrite bool_decide_false by done. by rewrite orb_false_r.
  - intros y Hy. rewrite node_at_update by done. case_decide; [by subst|done].
Qed.

Lemma flags_shared ch s s' :
  shared_inv ch s → (∀ y, alloc s' y ↔ alloc s y) →
  (∀ y, value (node_at s' y) = value (node_at s y)) → (∀ y, lev s' y = lev s y) →
  (∀ y j, nxt s' y j = nxt s y j) → (∀ y, node_ok (node_at s y) → node_ok (node_at s' y)) →
  highestLevel s' = highestLevel s → (mk s' 0 = false ∧ fl s' 0 = true) → (∀ x, mk s' x = true → fl s' x = true) →
  (∀ x j, live s' x → j < lev s x → x ∈ ch j) → shared_inv ch s'.
Proof.
  intros Hs Ha Hv Hl Hn Hok Hh H0 Hmf Hli. split.
  - intros x Hx%Ha. by apply Hok, Hs.
  - rewrite Ha, Hl. split_and!; [apply (si_header _ _ Hs)|apply (si_header _ _ Hs)|apply H0|apply H0].
  - rewrite Hh. apply Hs.
  - intros x. rewrite Ha, Hl, Hh. apply Hs.
  - intros j i x Hx. rewrite Hn. by apply Hs.
  - intros j. pose proof (si_sorted _ _ Hs j) as Hso. induction Hso as [|x L Hso IH Hx]; constructor; [done|].
    eapply list.Forall_impl; [exact Hx|]. intros y [? ?]. split; [done|]. unfold val. by rewrite !Hv.
  - intros j x. rewrite Ha, Hl. apply Hs.
  - apply Hs.
  - intros x j Hx. rewrite Hl. by apply Hli.
  - done.
  - intros x. rewrite Ha, Hv. apply Hs.
Qed.

Lemma reach_ok_reach g s s' j x n : (∀ y i, nxt s' y i = nxt s y i) → reach_ok g s j x n → reach s' j x n.
Proof. intros Hn Hr. eapply rtc_subrel; [|exact Hr]. intros a b [Hab _]. by rewrite Hn. Qed.

Lemma full_effect g s g' nn :
  shared_inv (chain g) s → alloc s nn → nn ≠ 0 → fl s nn = false → (∀ j, j < lev s nn → nn ∈ chain g j) →
  chain g' = chain g → effect g s g' (flagged nn fullyLinked s) (λ _, False) (λ x, x = nn).
Proof.
  intros Hs Ha H0 Hf Hin Hg'.
  destruct (flagged_spec nn fullyLinked 0 s Ha ltac:(done) eq_refl) as (Hal & Hv & Hl & Ho & Hn & Hfl & Hmk & Hok).
  set (s' := flagged nn fullyLinked s) in *.
  assert (Hmk' : ∀ y, mk s' y = mk s y) by (intros y; rewrite Hmk; by rewrite andb_false_r, orb_false_r).
  assert (Hfl' : ∀ y, fl s' y = fl s y || bool_decide (y = nn)) by (intros y; rewrite Hfl; by rewrite andb_true_r).
  assert (Hlk : ∀ x j, linked g' x j ↔ linked g x j) by (intros; unfold linked; by rewrite Hg').
  destruct (si_header _ _ Hs) as (Ha0 & Hl0 & Hm0 & Hf0). split.
  - rewrite Hg'. apply (flags_shared _ s); try done.
    + rewrite Hmk', Hfl', Hm0, Hf0. done.
    + intros x. rewrite Hmk', Hfl'. intros Hm. by rewrite (si_marked _ _ Hs).
    + intros x j (Hax & Hx0 & Hfx & Hmx) Hj. rewrite Hfl' in Hfx. rewrite Hmk' in Hmx. apply orb_true_iff in Hfx as [Hfx|Hx%bool_decide_eq_true].
      * apply (si_live _ _ Hs); [|done]. split_and!; try done. by apply Hal.
      * subst x. auto.
  - intros x. apply Hal.
  - intros x _. unfold val. by rewrite Hv.
  - intros x _. apply Hl.
  - done.
  - intros x _. left. apply Hmk'.
  - intros x _. rewrite Hfl'. destruct (fl s x) eqn:Hfx; [by left|]. simpl. case_bool_decide; [right|by left]. done.
  - intros x Hx%Hal Hnx. done.
  - intros x j. rewrite Hlk. by left.
  - intros x j. rewrite Hg'. by left.
  - intros x j _. left. apply Hn.
  - intros j x n _ _. apply reach_ok_reach, Hn.
Qed.

Lemma mark_effect g s g' n :
  shared_inv (chain g) s → alloc s n → n ≠ 0 → fl s n = true → mk s n = false →
  chain g' = chain g → effect g s g' (flagged n marked s) (λ x, x = n) (λ _, False).
Proof.
  intros Hs Ha H0 Hf Hm Hg'.
  destruct (flagged_spec n marked 1 s Ha ltac:(done) eq_refl) as (Hal & Hv & Hl & Ho & Hn & Hfl & Hmk & Hok).
  set (s' := flagged n marked s) in *.
  assert (Hfl' : ∀ y, fl s' y = fl s y) by (intros y; rewrite Hfl; by rewrite andb_false_r, orb_false_r).
  assert (Hmk' : ∀ y, mk s' y = mk s y || bool_decide (y = n)) by (intros y; rewrite Hmk; by rewrite andb_true_r).
  assert (Hlk : ∀ x j, linked g' x j ↔ linked g x j) by (intros; unfold linked; by rewrite Hg').
  destruct (si_header _ _ Hs) as (Ha0 & Hl0 & Hm0 & Hf0). split.
  - rewrite Hg'. apply (flags_shared _ s); try done.
    + rewrite Hmk', Hfl', Hm0, Hf0. by rewrite bool_decide_false.
    + intros x. rewrite Hmk', Hfl'. intros [?|Hx%bool_decide_eq_true]%orb_true_iff; [by apply (si_marked _ _ Hs)|by subst x].
    + intros x j (Hax & Hx0 & Hfx & Hmx) Hj. rewrite Hfl' in Hfx. rewrite Hmk' in Hmx. apply orb_false_iff in Hmx as [Hmx _].
      apply (si_live _ _ Hs); [|done]. split_and!; try done. by apply Hal.
  - intros x. apply Hal.
  - intros x _. unfold val. by rewrite Hv.
  - intros x _. apply Hl.
  - done.
  - intros x _. rewrite Hmk'. destruct (decide (x = n)) as [->|Hne].
    + right. rewrite bool_decide_true by done. by rewrite orb_true_r.
    + left. rewrite bool_decide_false by done. by rewrite orb_false_r.
  - intros x _. left. apply Hfl'.
  - intros x Hx%Hal Hnx. done.
  - intros x j. rewrite Hlk. by left.
  - intros x j. rewrite Hg'. by left.
  - intros x j _. left. apply Hn.
  - intros j x m _ _. apply reach_ok_reach, Hn.
Qed.

(** *** A new node *)

Definition with_new (v : K) (lv : nat) (s : Int64Set) : Int64Set :=
  mkSet (nodes s ++ [newInt64Node v lv]) (len s) (highestLevel s).

Lemma with_new_spec v lv s : let s' := with_new v lv s in let nn := length (nodes s) in
  (∀ y, alloc s y → node_at s' y = node_at s y) ∧ node_at s' nn = newInt64Node v lv ∧
  (∀ y, alloc s' y ↔ alloc s y ∨ y = nn) ∧ ∀ y, own s' y = own s y.
Proof.
  simpl. assert (Hold : ∀ y, alloc s y → node_at (with_new v lv s) y = node_at s y).
  { intros y Hy. unfold node_at. simpl. by rewrite lookup_app_l. }
  assert (Hnew : node_at (with_new v lv s) (length (nodes s)) = newInt64Node v lv).
  { unfold node_at. simpl. by rewrite lookup_app_r, Nat.sub_diag by lia. }
  assert (Hal : ∀ y, alloc (with_new v lv s) y ↔ alloc s y ∨ y = length (nodes s)).
  { intros y. unfold alloc. simpl. rewrite length_app. simpl. lia. }
  split_and!; try done. intros y. destruct (decide (y < length (nodes s))) as [Hy|Hy]; [unfold own; by rewrite Hold|].
  rewrite (unalloc_own s) by done. destruct (decide (y = length (nodes s))) as [->|Hne]; [unfold own; by rewrite Hnew|].
  apply unalloc_own. rewrite Hal. tauto.
Qed.

Lemma new_effect g s v lv :
  shared_inv (chain g) s → adding s v lv → effect g s g (with_new v lv s) (λ _, False) (λ _, False).
Proof.
  intros Hs [Hor Hlv]. destruct (with_new_spec v lv s) as (Hold & Hnew & Hal & Ho). set (s' := with_new v lv s) in *.
  assert (Hv : ∀ y, alloc s y → val s' y = val s y) by (intros y Hy; unfold val; by rewrite Hold).
  assert (Hl : ∀ y, alloc s y → lev s' y = lev s y) by (intros y Hy; unfold lev; by rewrite Hold).
  assert (Hf : ∀ y, alloc s y → fl s' y = fl s y) by (intros y Hy; unfold fl; by rewrite Hold).
  assert (Hm : ∀ y, alloc s y → mk s' y = mk s y) by (intros y Hy; unfold mk; by rewrite Hold).
  assert (Hn : ∀ y j, alloc s y → nxt s' y j = nxt s y j) by (intros y j Hy; unfold nxt; by rewrite Hold).
  assert (Hlen : level_ok s' lv) by done. destruct (si_header _ _ Hs) as (Ha0 & Hl0 & Hm0 & Hf0). split; try done.
  - split.
    + intros x [Hx| ->]%Hal; [rewrite Hold by done; by apply Hs|]. rewrite Hnew. pose proof (si_high _ _ Hs).
      unfold node_ok, newInt64Node. simpl. split_and!; try done; try (unfold level_ok in Hlv; simpl; lia).
      destruct (Nat.ltb_spec op1 lv); [done|done].
    + rewrite Hal, Hl, Hm, Hf by done. split_and!; auto.
    + apply (si_high _ _ Hs).
    + intros x [Hx| ->]%Hal H0; [rewrite Hl by done; by apply (si_lev _ _ Hs)|]. unfold lev. rewrite Hnew. simpl. apply Hlv.
    + intros j i x Hx. rewrite Hn; [by apply (si_next _ _ Hs)|]. apply (mem_alloc _ _ Hs j). by eapply list_elem_of_lookup_2.
    + intros j. pose proof (si_sorted _ _ Hs j) as Hso. pose proof (mem_alloc _ _ Hs j) as Hall. revert Hall.
      generalize (0 :: chain g j) Hso. induction 1 as [|x L Hso' IH Hx]; constructor; [apply IH; intros y Hy; apply Hall; by right|].
      rewrite list.Forall_forall in *. intros y Hy. destruct (Hx y Hy) as [? ?]. split; [done|].
      rewrite !Hv; [done|apply Hall; by right|apply Hall; by left].
    + intros j x Hx. destruct (si_mem _ _ Hs j x Hx) as [Ha ?]. rewrite Hl by done. split; [apply Hal; by left|done].
    + apply (si_sub _ _ Hs).
    + intros x j (Hx & H0 & Hfx & Hmx). apply Hal in Hx as [Hx| ->].
      * rewrite Hl by done. apply (si_live _ _ Hs). split_and!; [done|done|by rewrite <- Hf|by rewrite <- Hm].
      * unfold fl in Hfx. rewrite Hnew in Hfx. done.
    + intros x Hx. destruct (decide (x < length (nodes s))) as [Hxa|Hxa].
      * rewrite Hf by done. rewrite Hm in Hx by done. by apply (si_marked _ _ Hs).
      * exfalso. destruct (decide (x = length (nodes s))) as [->|Hne]; [unfold mk in Hx; by rewrite Hnew in Hx|].
        rewrite unalloc_mk in Hx; [done|]. rewrite Hal. tauto.
    + intros x [Hx| ->]%Hal H0; [rewrite Hold by done; by apply (si_ordered _ _ Hs)|by rewrite Hnew].
  - intros x Hx. apply Hal. by left.
  - intros x Hx. left. by apply Hm.
  - intros x Hx. left. by apply Hf.
  - intros x [Hx| ->]%Hal Hnx; [done|]. unfold fl. by rewrite Hnew.
  - by left.
  - by left.
  - intros x j Hx. left. by apply Hn.
  - intros j x n _ _ Hr. eapply rtc_subrel; [|exact Hr]. intros a b [Hab Hok]. rewrite Hn; [done|].
    destruct Hok as [Hla|Hma]; [by apply (mem_alloc _ _ Hs j)|].
    destruct (decide (a < length (nodes s))) as [|Hx]; [done|]. by rewrite unalloc_mk in Hma.
Qed.
End keys.
