(* ===== verification/SkipSetSteps.v ===== *)
(** * The concurrent skip set: simulation

    The correspondence with the atomic set, read backwards: an operation that
    finds its answer by looking may have taken effect at any moment since its
    call at which that was the answer; an [Add] takes effect when its node is
    marked as fully linked, a [Remove] when it marks the node. *)

From stdpp Require Import functions sorting.
From S2P Require Import Prelude Atomic SkipSet SkipSetInv SkipSetHeap SkipSetMoves.

Section keys.
Context {K C : Type} `{CC : Countable C} {HK : SkipKey K C}.
#[local] Abbreviation int64Node := (@int64Node K).
#[local] Abbreviation Int64Set := (@Int64Set K).
#[local] Abbreviation op := (@op K).
#[local] Abbreviation finder := (@finder K).
#[local] Abbreviation work := (@work K).
#[local] Abbreviation pc := (@pc K).
#[local] Abbreviation config := (@config K).
Implicit Types (s : Int64Set) (c : config) (w : work) (o : op).

(** ** How far an operation is *)

Inductive phase := PIdle | PPending (o : op) | PDone (r : bool).

Definition finder_phase (f : finder) : phase :=
  match f with
  | FAdd v _ => PPending (Add v)
  | FHas v => PPending (Contains v)
  | FRem v None => PPending (Remove v)
  | FRem v (Some _) => PDone true
  end.
Definition work_phase (w : work) : phase := match w with WAdd v _ => PPending (Add v) | WRem _ _ _ => PDone true end.

Definition phase_of (p : pc) : phase :=
  match p with
  | Idle => PIdle
  | RandLoad v _ | RandCas v _ _ | AddFound v _ _ _ _ | AddWait v _ | AddNew v _ _ _ _ | AddInit v _ _ _ _ _ _
  | AddLink v _ _ _ _ _ _ | AddFull v _ _ _ _ _ => PPending (Add v)
  | FindStart f _ _ | FindLoad f _ _ _ _ _ => finder_phase f
  | HasFlags v _ => PPending (Contains v)
  | RemFlags v _ _ _ _ | RemLock v _ _ _ _ | RemMarked v _ _ _ _ | RemUnlock v _ | RemMark v _ _ _ _ => PPending (Remove v)
  | LockPred w _ _ _ _ | CheckPred w _ _ _ _ | CheckSucc w _ _ _ _ | CheckNext w _ _ _ _ => work_phase w
  | UnlockPred w _ _ _ valid => if valid then PDone true else work_phase w
  | UnlinkLoad _ _ _ _ _ _ _ | UnlinkStore _ _ _ _ _ _ _ _ | UnlockNode _ _ _ _ _ _ | LenAdd _ => PDone true
  | Returned r => PDone r
  end.

Lemma phase_target p o : phase_of p = PPending o → ordered (okey o) = true → target p = Some (rank (okey o)).
Proof.
  destruct p as [| | |f| f| | | | | | | | |w|w|w|w| | | | | | | |w P Q i valid| |]; simpl; intros [=] Ho; subst; try done.
  1: unfold tkey; simpl in Ho; by rewrite Ho.
  1,2: unfold tkey; destruct f as [| |? []]; simplify_eq/=; by rewrite Ho.
  1-4: by destruct w; simplify_eq/=.
  destruct valid; [done|]. by destruct w; simplify_eq/=.
Qed.

(** The answer [r] of an operation that leaves the set alone was right at some
    moment since the call. *)
Definition looked (o : op) (sn : bool → bool) (r : bool) : Prop :=
  if ordered (okey o) then
    match o with
    | Add _ => r = false ∧ sn true = true
    | Contains _ => sn r = true
    | Remove _ => r = false ∧ sn false = true
    end
  else r = false.

Lemma looked_ordered o sn r : ordered (okey o) = true →
  match o with
  | Add _ => r = false ∧ sn true = true
  | Contains _ => sn r = true
  | Remove _ => r = false ∧ sn false = true
  end → looked o sn r.
Proof. unfold looked. by intros ->. Qed.

Lemma looked_mono o (f f' : bool → bool) r :
  (ordered (okey o) = true → ∀ b, f b = true → f' b = true) → looked o f r → looked o f' r.
Proof.
  unfold looked. destruct (ordered (okey o)); [|done]. intros Hf. specialize (Hf eq_refl). destruct o; [intros [? ?]; auto|auto|intros [? ?]; auto].
Qed.

#[export] Instance looked_dec o sn r : Decision (looked o sn r).
Proof. unfold looked. destruct (ordered (okey o)); [destruct o|]; apply _. Defined.

(** An answer that is right at this moment is that of the atomic set. *)
Lemma looks_now (X : gset C) o sn r :
  (∀ b, sn b = true → b = bool_decide (rank (okey o) ∈ X)) → looked o sn r → apply_op o X = (X, r).
Proof.
  intros Hs. unfold looked, apply_op. fold (ordered (okey o)). destruct (ordered (okey o)); [|by intros ->].
  intros Hl. destruct o as [v|v|v]; simpl in *.
  - destruct Hl as [-> Hv%Hs]. symmetry in Hv. apply bool_decide_eq_true in Hv.
    f_equal; [set_solver|]. apply bool_decide_eq_false. tauto.
  - apply Hs in Hl. by rewrite Hl.
  - destruct Hl as [-> Hv%Hs]. rewrite <- Hv. symmetry in Hv. apply bool_decide_eq_false in Hv. f_equal. set_solver.
Qed.

(** What [t] newly sees after a step is the answer at that moment. *)
Lemma looks_new g g' s' t o r :
  (ordered (okey o) = true → observes g g' s' t (rank (okey o))) → looked o (seen g' t) r → ¬ looked o (seen g t) r → apply_op o (elems s') = (elems s', r).
Proof.
  unfold looked at 1 2. destruct (ordered (okey o)) eqn:Hor; [|done].
  intros Ho Hl Hn. destruct (Ho eq_refl) as [_ Hs]. clear Ho. apply (looks_now _ _ (λ b, seen g' t b && negb (seen g t b))).
  - intros b [Hb Hb']%andb_prop. apply Hs in Hb as [Hb|]; [by rewrite Hb in Hb'|done].
  - unfold looked. rewrite Hor. destruct o; simpl in *; [destruct Hl as [-> Hl]; split; [done|]| |destruct Hl as [-> Hl]; split; [done|]];
      rewrite Hl; apply negb_true_iff, not_true_is_false; tauto.
Qed.

Definition match_status (g : ghost) (t : nat) (p : pc) (st : status op bool) : Prop :=
  match phase_of p with
  | PIdle => st = SIdle
  | PPending o => st = SPending o ∨ ∃ r, looked o (seen g t) r ∧ st = SDone r
  | PDone r => st = SDone r
  end.

Record abs (g : ghost) (c : config) (a : aconfig (gset C) op bool) : Prop := {
  abs_contents : contents a = elems (shared c);
  abs_status t : match_status g t (threads c t) (statuses a t)
}.

Definition simulated (g : ghost) (c : config) (lb : option (label op bool)) (g' : ghost) (c' : config) : Prop :=
  Inv g' c' ∧ ∀ a', abs g' c' a' → ∃ a a1, abs g c a ∧ same a' a1 ∧ exec (astep apply_op) a (shown lb) a1.

(** ** The invariant after a step *)

(** A step accounts for what it adds to the set or to the length. *)
Definition balanced (s : Int64Set) (p : pc) (s' : Int64Set) (p' : pc) : Prop :=
  ∃ k, (len s' + debt p' - Z.of_nat (size (elems s')) = len s + debt p - Z.of_nat (size (elems s)) + k * 2 ^ 64)%Z.

(** A step accounts for the nodes that are not fully linked. *)
Definition accounted (s : Int64Set) (p : pc) (s' : Int64Set) (p' : pc) : Prop :=
  ∀ x, alloc s' x → x ≠ 0 → fl s' x = false → owned p' = Some x ∨ (alloc s x ∧ fl s x = false ∧ owned p ≠ Some x).

(** A step accounts for the marked nodes that are linked. *)
Definition buries (g : ghost) (s : Int64Set) (p : pc) (g' : ghost) (s' : Int64Set) (p' : pc) : Prop :=
  ∀ x j, x ∈ chain g' j → mk s' x = true →
    dying p' = Some x ∨ (x ∈ chain g j ∧ mk s x = true ∧ dying p ≠ Some x).

Lemma buries_same g s p g' s' p' : (∀ x j, x ∈ chain g' j → mk s' x = true → x ∈ chain g j ∧ mk s x = true) →
  dying p' = dying p → buries g s p g' s' p'.
Proof.
  intros Hs Hd x j Hx Hm. destruct (Hs x j Hx Hm) as [Hx' Hm']. destruct (decide (dying p = Some x)); [left; congruence|by right].
Qed.

Lemma total_beyond (ps : nat → pc) N M : (∀ t, N <= t → ps t = Idle) → N <= M → total ps M = total ps N.
Proof.
  intros HN. induction 1 as [|M HM IH]; [done|]. simpl. rewrite IH, HN by done. simpl. lia.
Qed.

Lemma total_insert (ps : nat → pc) t p N : t < N → total (<[t := p]> ps) N = (total ps N - debt (ps t) + debt p)%Z.
Proof.
  intros Ht. assert (Hlow : ∀ n, n <= t → total (<[t := p]> ps) n = total ps n).
  { induction n as [|n IH]; [done|]. intros Hn. simpl. rewrite IH, fn_lookup_insert_ne by lia. done. }
  induction N as [|N IH]; [lia|]. simpl. destruct (decide (t = N)) as [->|Hne].
  - rewrite Hlow, fn_lookup_insert by done. lia.
  - rewrite IH, fn_lookup_insert_ne by lia. lia.
Qed.

Section step.
Context (g : ghost) (c : config) (t : nat) (g' : ghost) (s' : Int64Set) (p' : pc).
Context (HI : Inv g c).

Let lockT := held (threads c t).
Let ownT := λ x, owned (threads c t) = Some x.

Lemma held_disjoint u x : u ≠ t → held (threads c u) x → ¬ lockT x.
Proof using HI.
  intros Hne Hu%(inv_locks _ _ HI) Ht%(inv_locks _ _ HI). congruence.
Qed.

Lemma set_Inv_step :
  effect g (shared c) g' s' lockT ownT →
  (∀ u v, target (threads c u) = Some v → observes g g' s' u v) →
  thread_inv g' s' t p' → (∀ v, target p' = Some v → ghost_inv g' s' t v) →
  (∀ x u, own s' x = Some u ↔ if decide (u = t) then held p' x else own (shared c) x = Some u) →
  (∀ n, owned p' = Some n → owned (threads c t) = Some n ∨ ∀ u, owned (threads c u) ≠ Some n) →
  accounted (shared c) (threads c t) s' p' → buries g (shared c) (threads c t) g' s' p' →
  balanced (shared c) (threads c t) s' p' →
  Inv g' (mkConfig s' (<[t := p']> (threads c))).
Proof using HI.
  intros He Ho Hp Hg Hl Hw Hac Hbu Hba. split; simpl.
  - apply He.
  - intros u v. destruct (decide (u = t)) as [->|Hne]; [by rewrite fn_lookup_insert; apply Hg|].
    rewrite fn_lookup_insert_ne by done. intros Hu. eapply ghost_step; [by apply HI|done|by apply HI|by apply Ho].
  - intros u. destruct (decide (u = t)) as [->|Hne]; [by rewrite fn_lookup_insert|]. rewrite fn_lookup_insert_ne by done.
    eapply thread_stable; [by apply HI|done| | | |by apply HI].
    + intros x. by apply held_disjoint.
    + intros x Hx Hx'. apply Hne. by eapply (inv_owned _ _ HI).
    + intros v Hv. split; [by apply HI|by apply Ho].
  - intros x u. rewrite Hl. case_decide as Hu; [subst u; by rewrite fn_lookup_insert|].
    rewrite fn_lookup_insert_ne by done. apply HI.
  - intros u u' n. destruct (decide (u = t)) as [->|Hu], (decide (u' = t)) as [->|Hu'];
      rewrite ?fn_lookup_insert, ?fn_lookup_insert_ne by done; intros H1 H2; try done.
    + destruct (Hw n H1) as [H1'|H1']; [by eapply (inv_owned _ _ HI)|by destruct (H1' u')].
    + destruct (Hw n H2) as [H2'|H2']; [by eapply (inv_owned _ _ HI)|by destruct (H2' u)].
    + by eapply (inv_owned _ _ HI).
  - intros x Hx H0 Hf. destruct (Hac x Hx H0 Hf) as [Hown|(Ha & Hf' & Hno)]; [exists t; by rewrite fn_lookup_insert|].
    destruct (inv_fresh _ _ HI x Ha H0 Hf') as [u Hu]. exists u. rewrite fn_lookup_insert_ne; [done|]. intros <-. done.
  - intros x j Hx Hm. destruct (Hbu x j Hx Hm) as [Hd|(Hx' & Hm' & Hno)]; [exists t; by rewrite fn_lookup_insert|].
    destruct (inv_dead _ _ HI x j Hx' Hm') as [u Hu]. exists u. rewrite fn_lookup_insert_ne; [done|]. intros <-. done.
  - destruct (inv_finite _ _ HI) as (N & HN & k & Hk). destruct Hba as [k' Hk']. exists (S (t `max` N)). split.
    + intros u Hu. rewrite fn_lookup_insert_ne by lia. apply HN. lia.
    + exists (k + k')%Z. rewrite total_insert by lia. rewrite (total_beyond (threads c) N) by (done || lia). lia.
Qed.

(** ** The atomic set before a step *)

(** A step that leaves the set alone. *)
Definition keeps_phase (p p' : pc) : Prop :=
  phase_of p' = phase_of p ∨ ∃ o r, phase_of p = PPending o ∧ phase_of p' = PDone r ∧ looked o (seen g t) r.

Lemma seen_same u v b : elems s' = elems (shared c) → target (threads c u) = Some v → observes g g' s' u v →
  seen g' u b = true → seen g u b = true.
Proof using HI.
  intros He Hu [_ Ho] [|Hb]%Ho; [done|]. rewrite He in Hb. subst b. by apply (inv_ghost _ _ HI).
Qed.

Lemma quiet_back :
  elems s' = elems (shared c) → (∀ u v, target (threads c u) = Some v → observes g g' s' u v) →
  keeps_phase (threads c t) p' →
  ∀ a', abs g' (mkConfig s' (<[t := p']> (threads c))) a' → abs g c a'.
Proof using HI.
  intros He Ho Hk a' [Hc Hst]. simpl in *. split; [congruence|]. intros u. specialize (Hst u).
  assert (Hseen : ∀ o r, phase_of (threads c u) = PPending o → looked o (seen g' u) r → looked o (seen g u) r).
  { intros o r Hp. apply looked_mono. intros Hor b. eapply seen_same; eauto using phase_target. }
  destruct (decide (u = t)) as [->|Hne].
  - rewrite fn_lookup_insert in Hst. unfold match_status in *. destruct Hk as [Hk|(o & r & Hp & Hp' & Hlk)].
    + rewrite Hk in Hst. destruct (phase_of (threads c t)) as [|o|]; try done. destruct Hst as [|(r & Hr & ?)]; [by left|].
      right. exists r. eauto.
    + rewrite Hp' in Hst. rewrite Hp. right. eauto.
  - rewrite fn_lookup_insert_ne in Hst by done. unfold match_status in *.
    destruct (phase_of (threads c u)) as [|o|]; try done. destruct Hst as [|(r & Hr & ?)]; [by left|]. right. exists r. eauto.
Qed.

Lemma quiet_simulated lb :
  lb = None → elems s' = elems (shared c) → (∀ u v, target (threads c u) = Some v → observes g g' s' u v) →
  keeps_phase (threads c t) p' → Inv g' (mkConfig s' (<[t := p']> (threads c))) →
  simulated g c lb g' (mkConfig s' (<[t := p']> (threads c))).
Proof using HI.
  intros -> He Ho Hk HI'. split; [done|]. intros a' Ha. exists a', a'. split_and!; [by apply quiet_back|done|constructor].
Qed.

(** A step that changes the set: the other goroutines may have looked at the
    set right after it. *)
Definition status_before (o : op) (a' : aconfig (gset C) op bool) (u : nat) : status op bool :=
  if decide (u = t) then SPending o else
  match phase_of (threads c u), statuses a' u with
  | PPending ou, SDone ru => if decide (looked ou (seen g u) ru) then SDone ru else SPending ou
  | _, st => st
  end.

Lemma effect_back o r :
  phase_of (threads c t) = PPending o → phase_of p' = PDone r → apply_op o (elems (shared c)) = (elems s', r) →
  (∀ u v, target (threads c u) = Some v → observes g g' s' u v) →
  ∀ a', abs g' (mkConfig s' (<[t := p']> (threads c))) a' →
  ∃ a a1, abs g c a ∧ same a' a1 ∧ exec (astep apply_op) a [] a1.
Proof using HI.
  intros Hp Hp' Happ Ho a' [Hc Hst]. simpl in *. set (a := mkAbs (elems (shared c)) (status_before o a')).
  set (b := mkAbs (elems s') (<[t := SDone r]> (status_before o a'))).
  assert (Hst' : ∀ u, u ≠ t → match_status g' u (threads c u) (statuses a' u)).
  { intros u Hne. specialize (Hst u). by rewrite fn_lookup_insert_ne in Hst. }
  assert (Ht : statuses a' t = SDone r).
  { specialize (Hst t). rewrite fn_lookup_insert in Hst. unfold match_status in Hst. by rewrite Hp' in Hst. }
  destruct (inv_finite _ _ HI) as (N & HN & _).
  destruct (look_exec apply_op (N `max` S t) b a') as (a1 & Hsame & Hex).
  - done.
  - intros u. simpl. destruct (decide (u = t)) as [->|Hne]; [rewrite fn_lookup_insert, Ht; by left|].
    rewrite fn_lookup_insert_ne by done. unfold status_before. rewrite decide_False by done.
    specialize (Hst' u Hne). unfold match_status in Hst'. destruct (phase_of (threads c u)) as [|ou|] eqn:Hpu; [by left| |by left].
    destruct Hst' as [->|(ru & Hlu & ->)]; [by left|]. case_decide as Hl; [by left|]. right. exists ou, ru. split_and!; try done.
    eapply looks_new; [|exact Hlu|done]. intros Hor. apply Ho. by apply phase_target.
  - intros u Hu. simpl. rewrite fn_lookup_insert_ne by lia. unfold status_before. rewrite decide_False by lia.
    rewrite HN by lia. done.
  - exists a, a1. split_and!; [|done|].
    + split; [done|]. intros u. simpl. unfold status_before, match_status. case_decide as Hu.
      * subst u. rewrite Hp. by left.
      * specialize (Hst' u Hu). unfold match_status in Hst'. destruct (phase_of (threads c u)) as [|ou|] eqn:Hpu; try done.
        destruct Hst' as [->|(ru & Hlu & ->)]; [by left|]. case_decide as Hl; [right; eauto|by left].
    + eapply exec_inner; [|exact Hex]. apply (astep_apply _ a b t o r).
      * split_and!; simpl; [unfold status_before; by rewrite decide_True|apply fn_lookup_insert|].
        intros u Hu. by apply fn_lookup_insert_ne.
      * exact (eq_sym Happ).
Qed.
End step.
End keys.

(** * The concurrent skip set: the steps that only read

    Searches and checks: what they find stays true, and an answer given from
    them was right at some moment since the call. *)

Section keys.
Context {K C : Type} `{CC : Countable C} {HK : SkipKey K C}.
#[local] Abbreviation int64Node := (@int64Node K).
#[local] Abbreviation Int64Set := (@Int64Set K).
#[local] Abbreviation op := (@op K).
#[local] Abbreviation finder := (@finder K).
#[local] Abbreviation work := (@work K).
#[local] Abbreviation pc := (@pc K).
#[local] Abbreviation config := (@config K).
Implicit Types (s : Int64Set) (c : config) (w : work) (o : op).

(** What a step may change about its goroutine. *)
Record goes_to (g : ghost) (s : Int64Set) (t : nat) (p p' : pc) : Prop := {
  gt_inv : thread_inv g s t p';
  gt_target : target p' = target p ∨ target p' = None;
  gt_held x : held p' x ↔ held p x;
  gt_owned : owned p' = owned p;
  gt_debt : debt p' = debt p;
  gt_dying : dying p' = dying p;
  gt_phase : keeps_phase g t p p'
}.

(** ** Between two atomic steps *)

Section local.
Context (g : ghost) (s : Int64Set) (t : nat) (Hs : shared_inv (chain g) s).

Lemma searched_mono v P Q lo hi lo' hi' : lo <= lo' → hi' <= hi → searched g s t v P Q lo hi → searched g s t v P Q lo' hi'.
Proof using. intros Hlo Hhi H j Hj. apply H. lia. Qed.

Lemma descends_mono P lo hi lo' hi' : lo <= lo' → hi' <= hi → descends s P lo hi → descends s P lo' hi'.
Proof using. intros Hlo Hhi H j j' p p' ? ? ?. apply H; lia. Qed.

Lemma strict_mono v Q lo hi lo' hi' : lo <= lo' → hi' <= hi → strict s v Q lo hi → strict s v Q lo' hi'.
Proof using. intros Hlo Hhi H j q Hj. apply H. lia. Qed.

(** Under all locks the marked node is the successor everywhere. *)
Lemma changing_unlinking v n top P Q hi :
  ghost_inv g s t (rank v) → changing g s t (WRem v n top) P Q (S top) → hi_ok P (S top) hi →
  unlinking g s (rank v) n top P hi (S top).
Proof using Hs.
  intros Hg ([_ [Hd Hin]] & Hse & Hde & _ & Hc) Hhi. cbn [wkey layers] in *. split_and!; try done.
  - intros j Hj. destruct (Hse j) as (p & Hp & Hr & Hb & _); [lia|]. exists p. split_and!; try done. by apply (gi_alloc _ _ _ _ Hg) in Hr as [].
  - intros j Hj. destruct (Hc j) as (p & Hp & Hl & Hm & Hn); [lia|]. exists p. split_and!; try done.
    destruct (Hse j) as (p' & Hp' & _ & Hb & Hq); [lia|]. simplify_eq.
    eapply (next_first _ _ Hs); [exact Hl|exact Hb|apply Hin; lia|apply Hd|done|]. intros y Hy. rewrite Hn in Hy.
    by apply Hq.
  - intros j. split; [|intros; apply Hin; lia]. intros Hj%(si_mem _ _ Hs). destruct Hd as (_ & _ & _ & Hl & _). lia.
Qed.

Definition prev (P : array) (k : nat) : option nat := match k with O => None | S k => P k end.

Lemma next_layer_ok w P Q k hi :
  ghost_inv g s t (wkey w) → changing g s t w P Q k → k <= layers w → hi_ok P k hi →
  let p := next_layer w P Q k (prev P k) hi in
  thread_inv g s t p ∧ target p = Some (wkey w) ∧ owned p = None ∧ phase_of p = work_phase w ∧ (debt p = work_debt w false ∧ dying p = work_dying w) ∧
  ∀ x, held p x ↔ preds_below P k x ∨ work_node w x.
Proof using Hs.
  intros Hg Hc Hk Hhi. unfold next_layer. simpl. destruct (Nat.ltb_spec k (layers w)) as [Hlt|Hge].
  - assert (∃ p, P k = Some p) as [p Hp].
    { destruct Hc as (_ & Hse & _). destruct (Hse k) as (p & Hp & _); [lia|by exists p]. }
    case_decide as Hpr; [|simpl; split_and!; try done; destruct k; [by left|right; simpl in *; by rewrite Nat.sub_0_r]].
    destruct k as [|k]; [simpl in Hpr; congruence|]. simpl in Hpr.
    simpl. split_and!; try done.
    + split; [destruct Hhi; lia|]. intros j Hj. destruct (decide (j = S k)) as [->|]; [|apply Hhi; lia].
      rewrite Hpr. apply Hhi. lia.
    + intros x. split; (intros [(j & Hj & Hx)|]; [left|by right]).
      * destruct (decide (j = S k)) as [->|]; [exists k|exists j]; (split; [lia|congruence]).
      * exists j. split; [lia|done].
  - assert (k = layers w) as -> by lia. destruct w as [v lv|v n top]; simpl in *.
    + split_and!; try done. intros x. split; [by left|by intros [|[]]].
    + split_and!; try done. by eapply changing_unlinking.
Qed.

Lemma unlock_ok w P Q n pv valid :
  n <= maxLevel → descends s P 0 n → (∀ j, j < n → ∃ p, P j = Some p ∧ alloc s p) → (valid = false → work_inv g s w) →
  match w with WRem _ x _ => alloc s x ∧ ∀ j p, j < n → P j = Some p → p ≠ x | _ => True end →
  (∀ j j', P j = pv → j <= j' → j' < n → P j' = pv) →
  let p := unlockInt64 w P Q n pv valid in
  thread_inv g s t p ∧ target p = Some (wkey w) ∧ owned p = None ∧
  phase_of p = (if valid then PDone true else work_phase w) ∧ (debt p = work_debt w valid ∧ dying p = if valid then None else work_dying w) ∧
  ∀ x, held p x ↔ (preds_below P n x ∧ pv ≠ Some x) ∨ (valid = false ∧ work_node w x).
Proof using.
  intros Hn Hd Ha Hw Hx Hpv. induction n as [|i IH]; simpl.
  - destruct valid; simpl.
    + split_and!; try done; [by destruct w; [|apply Hx]|]. intros x. split; [done|]. intros [[(j & ? & _) _]|[? _]]; [lia|done].
    + specialize (Hw eq_refl). assert (Hor : ordered (key (again w)) = true) by (destruct w; apply Hw).
      rewrite Hor, tkey_ordered by done. destruct w as [v lv|v n top]; simpl in *; (split_and!; try done; try apply Hw); intros x;
        (split; [try done; by right|]); (intros [[(j & ? & _) _]|[_ ?]]; [lia|done]).
  - case_decide as Hi.
    + destruct IH as (H1 & H2 & H3 & H4 & [H6 H7] & H5); try done.
      * lia.
      * by eapply descends_mono; [..|done]; lia.
      * intros j Hj. apply Ha. lia.
      * destruct w; [done|]. split; [apply Hx|]. intros j p Hj. apply Hx. lia.
      * intros j j' Hj Hjj Hj'. apply (Hpv j j'); [done|done|lia].
      * split_and!; try done. intros x. rewrite H5. split; (intros [[(j & Hj & Hjx) Hne]|]; [left|by right]).
        -- split; [|done]. exists j. split; [lia|done].
        -- split; [|done]. exists j. split; [|done]. destruct (decide (j = i)) as [->|]; [congruence|lia].
    + simpl. split_and!; try done.
      * intros j Hj. apply Ha. lia.
      * destruct w; [done|]. split; [apply Hx|]. intros j p Hj. apply Hx. lia.
      * intros x. split; (intros [Hl|]; [left|by right]).
        -- split; [done|]. destruct Hl as (j & Hj & Hjx). intros Hpx. apply Hi. apply (Hpv j i); [congruence|lia|lia].
        -- by destruct Hl.
Qed.
End local.

(** ** Searches *)

Section search.
Context (g : ghost) (s : Int64Set) (t : nat) (v : C).
Context (Hs : shared_inv (chain g) s) (Hg : ghost_inv g s t v).

Lemma recent_reach_inc j y n : reach s j y n → recent g t y j → y = n ∨ nlt s y n.
Proof using Hg.
  induction 1 as [|a b n Hab Hbn IH]; [by left|]. intros Ha. destruct (gi_next _ _ _ _ Hg a j b Ha Hab) as [Hb Hlt].
  right. destruct (IH Hb) as [<-|]; [done|by eapply nlt_trans].
Qed.

(** A search that stops before the value at a layer of its node finds it. *)
Lemma walk_end x j n :
  tracked g s t v n → recent g t x j → before s x v → j < lev s n → (∀ y, nxt s x j = Some y → ¬ val s y ≺ v) →
  ∃ y, nxt s x j = Some y ∧ val s y = v.
Proof using Hg.
  intros Htr Hr Hb Hj Hy. pose proof (gi_reach _ _ _ _ Hg x j n Hr Htr Hb Hj) as Hp. destruct Htr as (_ & Hl & Hv).
  apply rtc_inv in Hp as [Heq|(y & Hxy & Hyn)].
  - rewrite Heq in Hb. destruct Hb as [->|]; [by destruct Hl as (_ & ? & _)|korder].
  - exists y. split; [done|]. destruct (gi_next _ _ _ _ Hg x j y Hr Hxy) as [Hry _]. specialize (Hy y Hxy).
    destruct (recent_reach_inc j y n Hyn Hry) as [->|[H0 [->|]]]; [done| |korder].
    destruct (gi_next _ _ _ _ Hg x j 0 Hr Hxy) as [_ [? _]]. done.
Qed.

(** The value has been absent, or its node is known. *)
Lemma absent_or_tracked : seen g t false = true ∨ ∃ n, tracked g s t v n.
Proof using Hg.
  destruct (seen g t false) eqn:Hf; [by left|right]. pose proof (gi_now _ _ _ _ Hg) as Hnow.
  case_bool_decide as Hin; [|congruence]. apply elem_of_elems in Hin as (n & Hl & Hv). by exists n.
Qed.

Lemma lev_pos n : alloc s n → 1 <= lev s n.
Proof using Hs. intros Ha. destruct (si_node _ _ Hs n Ha) as (_ & _ & ?). unfold lev. lia. Qed.

Lemma hit_recent y j : recent g t y j → y ≠ 0 → val s y = v → hit g s t v y.
Proof using Hg.
  intros Hr H0 Hv. split_and!; [by apply (gi_alloc _ _ _ _ Hg) in Hr as []|done|done|].
  intros m Hm. symmetry. by eapply (gi_same _ _ _ _ Hg).
Qed.

(** *** What a finished layer adds *)

Section layer.
Context (i x h : nat) (P Q : array) (succ : option nat).
Context (Hr : recent g t x i) (Hb : before s x v) (Hi : i < h).
Context (Hsucc : succ = nxt s x i) (Hy : ∀ y, succ = Some y → recent g t y i ∧ y ≠ 0 ∧ ¬ val s y ≺ v).
Context (Hse : searched g s t v P Q (S i) h) (Hde : descends s P (S i) h).
Context (Hlt : ∀ j p, i < j < h → P j = Some p → p = x ∨ nlt s p x).

Let P' : array := <[i := Some x]> P.
Let Q' : array := <[i := succ]> Q.

Lemma searched_layer : searched g s t v P' Q' i h.
Proof using Hr Hb Hi Hy Hse.
  intros j Hj. unfold P', Q'. destruct (decide (j = i)) as [->|Hne].
  - rewrite !fn_lookup_insert. exists x. split_and!; try done.
  - rewrite !fn_lookup_insert_ne by done. apply Hse. lia.
Qed.

Lemma descends_layer : descends s P' i h.
Proof using Hi Hde Hlt.
  intros j j' p p' Hj Hjj Hj'. unfold P'. rewrite (fn_lookup_insert_ne P i j') by lia.
  destruct (decide (j = i)) as [->|Hne].
  - rewrite fn_lookup_insert. intros [= <-] Hp'. apply (Hlt j'); [lia|done].
  - rewrite fn_lookup_insert_ne by done. apply Hde; lia.
Qed.

Lemma below_layer j p : i <= j < h → P' j = Some p → p = x ∨ nlt s p x.
Proof using Hi Hlt.
  intros Hj. unfold P'. destruct (decide (j = i)) as [->|Hne].
  - rewrite fn_lookup_insert. intros [= <-]. by left.
  - rewrite fn_lookup_insert_ne by done. apply Hlt. lia.
Qed.

Lemma found_layer lf (eq : bool) : (eq = true ↔ ∃ y, succ = Some y ∧ val s y = v) → found_inv g s t v Q (S i) h lf →
  found_inv g s t v Q' i h match lf with Some _ => lf | None => if eq then Some i else None end.
Proof using Hg Hr Hb Hi Hsucc Hy.
  intros Heq. destruct lf as [l|]; cbn [found_inv].
  - intros (Hl & q & Hq & Hrest). split; [lia|]. exists q. unfold Q'. rewrite fn_lookup_insert_ne by lia. done.
  - intros [Hst Htr]. destruct eq.
    + destruct Heq as [(y & Hsy & Hvy) _]; [done|]. destruct (Hy y Hsy) as (Hry & H0 & _). split; [lia|]. exists y.
      unfold Q'. rewrite fn_lookup_insert. split_and!; try done. intros n Hn.
      assert (y = n) as <- by by eapply (gi_same _ _ _ _ Hg). split; [done|].
      pose proof (Htr y Hn). apply (gi_alloc _ _ _ _ Hg) in Hry as [_ ?]. lia.
    + assert (Hno : ∀ y, succ = Some y → val s y ≠ v) by (intros y Hsy Hvy; destruct Heq as [_ Heq]; by discriminate Heq; eauto).
      split.
      * intros j q Hj. unfold Q'. destruct (decide (j = i)) as [->|]; [rewrite fn_lookup_insert; apply Hno|].
        rewrite fn_lookup_insert_ne by done. apply Hst. lia.
      * intros n Hn. destruct (decide (lev s n <= i)) as [|Hgt]; [done|]. exfalso.
        destruct (walk_end x i n Hn Hr Hb) as (y & Hsy & Hvy); [lia| |by eapply Hno; [rewrite Hsucc|]].
        intros y Hsy. apply Hy. by rewrite Hsucc.
Qed.
End layer.
End search.

(** Where a search may lead. *)
Definition arrives (g : ghost) (s : Int64Set) (t : nat) (f : finder) (p' : pc) : Prop :=
  goes_to g s t (FindStart f nils nils) p'.

Section find.
Context (g : ghost) (s : Int64Set) (t : nat) (Hs : shared_inv (chain g) s).

Lemma arrives_layer w P Q : ghost_inv g s t (wkey w) → work_inv g s w →
  searched g s t (wkey w) P Q 0 (layers w) → descends s P 0 (layers w) →
  match w with WAdd v lv => strict s (rank v) Q 0 lv | _ => True end → arrives g s t (again w) (next_layer w P Q 0 None 0).
Proof using Hs.
  intros Hg Hwi Hse Hde Hst. assert (Hor : ordered (key (again w)) = true) by (destruct w; apply Hwi).
  destruct (next_layer_ok g s t Hs w P Q 0 0) as (H1 & H2 & H3 & H4 & [H6 H7] & H5).
  - done.
  - split_and!; try done. intros j Hj. lia.
  - lia.
  - split; [lia|]. intros j Hj. lia.
  - simpl in *. split; try done.
    + left. rewrite H2. cbn [target]. rewrite tkey_ordered by done. by destruct w.
    + intros x. rewrite H5. destruct w; simpl; split; try tauto; intros [(? & ? & _)|?]; try lia; done.
    + rewrite H6. by destruct w.
    + rewrite H7. by destruct w.
    + left. rewrite H4. by destruct w.
Qed.

Definition result (f : finder) (P Q : array) (i h : nat) (lf : option nat) : Prop :=
  h <= maxLevel ∧ need f <= h ∧ searched g s t (rank (key f)) P Q i h ∧ descends s P i h ∧ found_inv g s t (rank (key f)) Q i h lf.

Lemma result_prefix f P Q h lf k : k <= h → result f P Q 0 h lf → searched g s t (rank (key f)) P Q 0 k ∧ descends s P 0 k.
Proof using.
  intros Hk (_ & _ & Hse & Hde & _).
  split; [by eapply searched_mono; [..|exact Hse]; lia|by eapply descends_mono; [..|exact Hde]; lia].
Qed.

Lemma found_ok f P Q h lf : ordered (key f) = true → ghost_inv g s t (rank (key f)) → finder_inv g s f →
  match f with FHas _ => seen g t false = true | _ => result f P Q 0 h lf end →
  match f with FAdd _ _ => lf = None | _ => True end →
  ∃ p', found f P Q lf = Some p' ∧ arrives g s t f p'.
Proof using Hs.
  intros Hor Hg Hf Hr Hlf. destruct f as [v lv|v|v [[n top]|]].
  - destruct (result_prefix _ _ _ _ _ lv ltac:(apply Hr) Hr) as [Hse Hde]. destruct Hr as (Hh & Hn & _ & _ & Hfi). subst lf.
    eexists. split; [done|]. apply (arrives_layer (WAdd v lv)); try done.
    destruct Hfi as [Hst _]. by eapply strict_mono; [..|exact Hst]; simpl in *; lia.
  - eexists. split; [done|]. split; try done; [by right|]. right. exists (Contains v), false. split_and!; [done..|by apply looked_ordered].
  - destruct (result_prefix _ _ _ _ _ (S top) ltac:(apply Hr) Hr) as [Hse Hde].
    eexists. split; [done|]. by apply (arrives_layer (WRem v n top)).
  - destruct Hr as (Hh & Hn & Hse & Hde & Hfi). cbn [key] in *. destruct lf as [l|]; simpl in Hfi |- *.
    + destruct Hfi as (Hl & q & Hq & Hv & Htr). rewrite Hq. simpl. eexists. split; [done|].
      destruct (Hse l) as (_ & _ & _ & _ & Hq'); [lia|]. destruct (Hq' q Hq) as (Hrq & H0 & _).
      split; try done; [|left; by apply eq_sym, tkey_ordered|by left]. split_and!; [| | | |done].
      * by eapply hit_recent.
      * intros m Hm. by apply Htr.
      * by eapply searched_mono; [..|exact Hse]; lia.
      * by eapply descends_mono; [..|exact Hde]; lia.
    + eexists. split; [done|]. split; try done; [by right|]. right. exists (Remove v), false. split_and!; try done.
      apply looked_ordered; [done|]. split; [done|]. destruct Hfi as [_ Htr]. destruct (absent_or_tracked g s t (rank v) Hg) as [|[n Hn']]; [done|].
      pose proof (Htr n Hn'). destruct Hn' as (_ & (Ha & _) & _). pose proof (lev_pos g s Hs n Ha). lia.
Qed.

Lemma lower_ok f i x P Q h lf : ordered (key f) = true → ghost_inv g s t (rank (key f)) → finder_inv g s f → recent g t x i → before s x (rank (key f)) →
  match f with
  | FHas _ => i = 0 → seen g t false = true
  | _ => i < h ∧ result f P Q i h lf ∧ ∀ j p, i <= j < h → P j = Some p → p = x ∨ nlt s p x
  end →
  match f with FAdd _ _ => lf = None | _ => True end →
  ∃ p', lower f i x P Q lf = Some p' ∧ arrives g s t f p'.
Proof using Hs.
  intros Hor Hg Hf Hr Hb Hres Hlf. destruct i as [|i]; cbn [lower].
  - apply (found_ok f P Q h lf); try done. destruct f; [apply Hres|by apply Hres|apply Hres].
  - eexists. split; [done|]. split; try done; [|by left|by left]. cbn [thread_inv]. rewrite Hor.
    split_and!; try done; [by apply (gi_down _ _ _ _ Hg)|].
    destruct f as [| |]; try done; destruct Hres as (Hi & (? & ? & ? & ? & ?) & ?); exists h; split_and!; try done; lia.
Qed.

Lemma layer_end_ok f i x (succ : option nat) (eq : bool) P Q lf :
  ordered (key f) = true → ghost_inv g s t (rank (key f)) → thread_inv g s t (FindLoad f i x P Q lf) → i < maxLevel → succ = nxt s x i →
  (∀ y, succ = Some y → recent g t y i ∧ y ≠ 0 ∧ ¬ val s y ≺ rank (key f)) →
  (eq = true ↔ ∃ y, succ = Some y ∧ val s y = rank (key f)) →
  ∃ p', layer_end f i x succ eq P Q lf = Some p' ∧ arrives g s t f p'.
Proof using Hs.
  intros Hor Hg. cbn [thread_inv]. rewrite Hor. intros (Hf & Hr & Hb & Hlf & Hrest) Hi Hsucc Hy Heq.
  assert (Hw : ∀ A z, write A i z = Some (<[i := z]> A)) by (intros; unfold write; by rewrite (proj2 (Nat.ltb_lt _ _))).
  assert (Hlay : ∀ h, i < h ∧ h <= maxLevel → need f <= h → searched g s t (rank (key f)) P Q (S i) h → descends s P (S i) h →
    (∀ j p, i < j < h → P j = Some p → p = x ∨ nlt s p x) → found_inv g s t (rank (key f)) Q (S i) h lf →
    result f (<[i := Some x]> P) (<[i := succ]> Q) i h (match lf with Some _ => lf | None => if eq then Some i else None end)).
  { intros h [Hih Hh] Hn Hse Hde Hlt Hfi. split_and!; [done|done|by apply searched_layer|by apply descends_layer|].
    by eapply found_layer. }
  destruct f as [v lv|v|v m]; cbn [layer_end key] in *.
  - destruct Hrest as (h & Hh & Hn & Hse & Hde & Hlt & Hfi). pose proof (Hlay h Hh Hn Hse Hde Hlt Hfi) as Hres.
    unfold layer_add. rewrite !Hw. simpl. destruct eq.
    + destruct Heq as [(y & Hsy & Hvy) _]; [done|]. rewrite Hsy. simpl. eexists. split; [done|].
      destruct (Hy y Hsy) as (Hry & H0 & _). split; try done; [|left; by apply eq_sym, tkey_ordered|by left].
      split; [done|by eapply hit_recent].
    + subst lf. apply (lower_ok (FAdd v lv) _ _ _ _ h); try done. split_and!; [lia|done|].
      intros j p. eapply below_layer; [lia|done].
  - unfold layer_has. destruct eq.
    + destruct Heq as [(y & Hsy & Hvy) _]; [done|]. rewrite Hsy. simpl. eexists. split; [done|].
      destruct (Hy y Hsy) as (Hry & H0 & _). split; try done; [|left; by apply eq_sym, tkey_ordered|by left].
      split; [by eapply hit_recent|done].
    + apply (lower_ok (FHas v) _ _ _ _ 0); try done. intros ->.
      destruct (absent_or_tracked g s t (rank v) Hg) as [|[n Hn]]; [done|]. assert (Ha : alloc s n) by apply Hn.
      destruct (walk_end g s t (rank v) Hg x 0 n Hn Hr Hb) as (y & Hsy & Hvy); [by apply (lev_pos g s Hs)| |].
      * intros y Hsy. apply Hy. by rewrite Hsucc.
      * exfalso. destruct Heq as [_ Heq]. discriminate Heq. exists y. by rewrite Hsucc.
  - destruct Hrest as (h & Hh & Hn & Hse & Hde & Hlt & Hfi). pose proof (Hlay h Hh Hn Hse Hde Hlt Hfi) as Hres.
    unfold layer_remove. rewrite !Hw. simpl. apply (lower_ok (FRem v m) _ _ _ _ h); try done.
    split_and!; [lia|done|]. intros j p. eapply below_layer; [lia|done].
Qed.

(** One load of a search. *)
Lemma search_ok f i x P Q lf :
  ordered (key f) = true → ghost_inv g s t (rank (key f)) → thread_inv g s t (FindLoad f i x P Q lf) →
  ∃ p', search s f i x P Q lf = Some p' ∧ arrives g s t f p'.
Proof using Hs.
  intros Hor Hg Hti. pose proof Hti as Hti'. cbn [thread_inv] in Hti'. rewrite Hor in Hti'.
  destruct Hti' as (Hf & Hr & Hb & Hlf & Hrest). destruct (gi_alloc _ _ _ _ Hg x i Hr) as [Ha Hl].
  pose proof (si_node _ _ Hs x Ha) as Hok. assert (Hi : i < maxLevel) by (destruct Hok as (_ & _ & ?); unfold lev in Hl; lia).
  unfold search. rewrite load_next by done. simpl. destruct (nxt s x i) as [y|] eqn:Hy.
  - destruct (gi_next _ _ _ _ Hg x i y Hr Hy) as [Hry Hxy]. destruct (gi_alloc _ _ _ _ Hg y i Hry) as [Hay _].
    rewrite lookup_node by done. simpl. unfold lessthan, equal. pose proof (si_ordered _ _ Hs y Hay ltac:(apply Hxy)) as Hoy.
    unfold ordered in Hor, Hoy. rewrite vlt_rank, (veq_rank (value (node_at s y)) (key f)), Hor, Hoy. cbn [andb]. fold (val s y).
    case_bool_decide as Hlt.
    + eexists. split; [done|]. split; try done; [|by left|by left]. cbn [thread_inv]. unfold ordered. rewrite Hor.
      split_and!; try done; [by right|].
      destruct f as [| |]; try done; destruct Hrest as (h & ? & ? & ? & ? & Hbl & ?); exists h; split_and!; try done; try lia;
        intros j p Hj Hp; right; (destruct (Hbl j p Hj Hp) as [->|]; [done|by eapply nlt_trans]).
    + apply (layer_end_ok f); try done.
      * intros y' [= <-]. split_and!; [done|apply Hxy|done].
      * rewrite bool_decide_eq_true. split; [by exists y|]. by intros (y' & [= <-] & ?).
  - apply (layer_end_ok f); try done. split; [done|]. by intros (? & ? & _).
Qed.

(** The start of a search. *)
Lemma find_start_ok f P Q : ordered (key f) = true → ghost_inv g s t (rank (key f)) → finder_inv g s f →
  ∃ p', match highestLevel s with O => found f P Q None | S i => Some (FindLoad f i header P Q None) end = Some p' ∧
    arrives g s t f p'.
Proof using Hs.
  intros Hor Hg Hf. assert (Htr : ∀ n, tracked g s t (rank (key f)) n → lev s n <= highestLevel s).
  { intros n (_ & (Ha & H0 & _) & _). by apply (si_lev _ _ Hs). }
  pose proof (si_high _ _ Hs) as Hh.
  assert (Hneed : need f <= highestLevel s).
  { destruct f as [v lv|v|v [[n top]|]]; simpl in *; [apply Hf|lia| |lia]. destruct Hf as [(Ha & H0 & _ & Hl & _) _].
    rewrite <- Hl. by apply (si_lev _ _ Hs). }
  destruct (highestLevel s) as [|i] eqn:Hhl.
  - apply (found_ok f P Q 0 None); try done; [|by destruct f].
    assert (result f P Q 0 0 None) as Hres.
    { split_and!; try done; try (intros ?; lia); simpl. split; [intros j q ?; lia|]. intros n Hn. by apply Htr. }
    destruct f as [v lv|v|v m]; try done. destruct (absent_or_tracked g s t (rank v) Hg) as [|[n Hn]]; [done|].
    pose proof (Htr n Hn). assert (Ha : alloc s n) by apply Hn. pose proof (lev_pos g s Hs n Ha). lia.
  - eexists. split; [done|]. split; try done; [|by left|by left]. cbn [thread_inv]. rewrite Hor.
    split_and!; try done; [apply (gi_linked _ _ _ _ Hg); [by left|lia]|by left|by destruct f|].
    destruct f as [| |]; try done; exists (S i); (split_and!; try done; try lia; try (intros ?; lia));
      (split; [intros j q ?; lia|]; intros n Hn; by apply Htr).
Qed.

(** A search for a value without rank finds nothing and goes down at the
    header. *)
Lemma looking_end f P Q : ordered (key f) = false → looking f →
  ∃ p', found f P Q None = Some p' ∧ arrives g s t f p'.
Proof using.
  intros Hor Hf. assert (∃ o, finder_phase f = PPending o ∧ okey o = key f ∧ found f P Q None = Some (Returned false))
    as (o & Hp & Ho & Hfo) by (destruct f as [|v|v [|]]; try done; [by exists (Contains v)|by exists (Remove v)]).
  exists (Returned false). split; [done|]. split; try done; [by right| | | |].
  - intros x. by destruct f as [| |? []].
  - by destruct f as [| |? []].
  - by destruct f as [| |? []].
  - right. exists o, false. split_and!; try done. unfold looked. by rewrite Ho, Hor.
Qed.

Lemma looking_arrives f i P Q : ordered (key f) = false → looking f → i < maxLevel →
  arrives g s t f (FindLoad f i header P Q None).
Proof using. intros Hor Hf Hi. split; try done; [|by left|by left]. cbn [thread_inv]. by rewrite Hor. Qed.

Lemma looking_start f P Q : ordered (key f) = false → looking f →
  ∃ p', match highestLevel s with O => found f P Q None | S i => Some (FindLoad f i header P Q None) end = Some p' ∧
    arrives g s t f p'.
Proof using Hs.
  intros Hor Hf. pose proof (si_high _ _ Hs) as Hh. destruct (highestLevel s) as [|i]; [by apply looking_end|].
  eexists. split; [done|]. by apply looking_arrives.
Qed.

Lemma looking_search f i x P Q lf : ordered (key f) = false → thread_inv g s t (FindLoad f i x P Q lf) →
  ∃ p', search s f i x P Q lf = Some p' ∧ arrives g s t f p'.
Proof using Hs.
  intros Hor. cbn [thread_inv]. rewrite Hor. intros (Hf & -> & Hi & ->). destruct (si_header _ _ Hs) as (Ha & Hl & _).
  assert (Hlay : ∀ q, ∃ p', layer_end f i 0 q false P Q None = Some p' ∧ arrives g s t f p').
  { intros q. destruct f as [|v|v [|]]; try done; cbn [layer_end]; unfold layer_has, layer_remove, write;
      rewrite ?(proj2 (Nat.ltb_lt _ _)) by done; cbn [mbind option_bind];
      (destruct i as [|i]; cbn [lower]; [by apply looking_end|]);
      (eexists; split; [done|]; apply looking_arrives; [done|done|lia]). }
  unfold search. rewrite load_next; [|done|by apply Hs|by rewrite Hl]. cbn [mbind option_bind].
  destruct (nxt s 0 i) as [y|] eqn:Hy; [|apply Hlay].
  assert (Hay : alloc s y) by (by destruct (next_mem _ _ Hs 0 i y ltac:(by left) Hy) as [[? _]%(si_mem _ _ Hs) _]).
  rewrite lookup_node by done. simpl. unfold lessthan, equal. unfold ordered in Hor.
  rewrite vlt_rank, (veq_rank (value (node_at s y)) (key f)), Hor, andb_false_r. apply Hlay.
Qed.
End find.
End keys.
