(* ===== verification/SkipSetLin.v ===== *)
(** * The concurrent skip set: every step

    Each step of a goroutine keeps the invariant and corresponds to steps of the
    atomic set; none panics. *)

From stdpp Require Import functions sorting.
From S2P Require Import Prelude Atomic SkipSet SkipSetInv SkipSetHeap SkipSetMoves SkipSetSteps.

(** What the invariant says about a goroutine at a given place. *)
Ltac known HI Ht :=
  let t := match type of Ht with threads _ ?t = _ => t end in
  pose proof (inv_thread _ _ HI t) as Hti; rewrite Ht in Hti;
  pose proof (inv_ghost _ _ HI t _ (f_equal target Ht)) as Hg; cbn [target] in Hg;
  pose proof (inv_shared _ _ HI) as Hs.

Section keys.
Context {K C : Type} `{CC : Countable C} {HK : SkipKey K C}.
#[local] Abbreviation int64Node := (@int64Node K).
#[local] Abbreviation Int64Set := (@Int64Set K).
#[local] Abbreviation op := (@op K).
#[local] Abbreviation finder := (@finder K).
#[local] Abbreviation work := (@work K).
#[local] Abbreviation pc := (@pc K).
#[local] Abbreviation config := (@config K).
Implicit Types (s : Int64Set) (c : config) (w : work) (o : op).

Definition progresses (g : ghost) (c : config) (t : nat) : Prop :=
  thread_step t (shared c) (threads c t) = Blocked ∨
  ∃ s' p' g', thread_step t (shared c) (threads c t) = Go s' p' ∧ simulated g c None g' (mkConfig s' (<[t := p']> (threads c))).

(** ** Shapes of steps *)

Lemma accounted_like s s' p p' : like s s' → owned p' = owned p → accounted s p s' p'.
Proof.
  intros H Ho x. rewrite (lk_alloc _ _ H), (lk_fl _ _ H), Ho. intros Ha H0 Hf.
  destruct (decide (owned p = Some x)); [by left|by right].
Qed.

Lemma balanced_same s s' p p' : len s' = len s → elems s' = elems s → debt p' = debt p → balanced s p s' p'.
Proof. intros H1 H2 H3. exists 0%Z. rewrite H1, H2, H3. lia. Qed.

Section shapes.
Context (g : ghost) (c : config) (t : nat) (HI : Inv g c).

Local Abbreviation s := (shared c).
Local Abbreviation p := (threads c t).

(** Locks held by [t] after a step. *)
Definition locks_to (s' : Int64Set) (p' : pc) : Prop :=
  ∀ x u, own s' x = Some u ↔ if decide (u = t) then held p' x else own s x = Some u.

Lemma locks_same s' p' : (∀ x, own s' x = own s x) → (∀ x, held p' x ↔ held p x) → locks_to s' p'.
Proof using HI.
  intros Ho Hh x u. rewrite Ho. case_decide as Hu; [|done]. subst u. rewrite Hh. apply HI.
Qed.

Lemma locks_acquired s' p' n : own s n = None → (∀ y, own s' y = if decide (y = n) then Some t else own s y) →
  (∀ x, held p' x ↔ held p x ∨ x = n) → locks_to s' p'.
Proof using HI.
  intros Hn Ho Hh x u. rewrite Ho. destruct (decide (u = t)) as [->|Hu].
  - rewrite Hh, <- (inv_locks _ _ HI). destruct (decide (x = n)) as [->|Hne]; [by split; [right|]|].
    split; [by left|]. by intros [|].
  - destruct (decide (x = n)) as [->|Hne]; [|done]. rewrite Hn. split; [|done]. by intros [= <-].
Qed.

Lemma locks_released s' p' n : held p n → (∀ y, own s' y = if decide (y = n) then None else own s y) →
  (∀ x, held p' x ↔ held p x ∧ x ≠ n) → locks_to s' p'.
Proof using HI.
  intros Hn%(inv_locks _ _ HI) Ho Hh x u. rewrite Ho. destruct (decide (u = t)) as [->|Hu].
  - rewrite Hh, <- (inv_locks _ _ HI). destruct (decide (x = n)) as [->|Hne]; [by split; [|intros [_ ?]]|].
    by split; [|intros [? _]].
  - destruct (decide (x = n)) as [->|Hne]; [|done]. rewrite Hn. split; [done|]. intros [= ->]. done.
Qed.

Lemma write_Inv g' s' p' lockT ownT :
  effect g s g' s' lockT ownT → (∀ x, lockT x → held p x) → (∀ x, ownT x → owned p = Some x) →
  (∀ u v, target (threads c u) = Some v → observes g g' s' u v) →
  thread_inv g' s' t p' → (target p' = target p ∨ target p' = None) → locks_to s' p' →
  (∀ n, owned p' = Some n → owned p = Some n ∨ ∀ u, owned (threads c u) ≠ Some n) →
  accounted s p s' p' → buries g s p g' s' p' → balanced s p s' p' →
  Inv g' (mkConfig s' (<[t := p']> (threads c))).
Proof using HI.
  intros He Hlk How Ho Hp Ht Hl Hw Hac Hbu Hba. apply (effect_weaken _ _ _ _ _ (held p) _ (λ x, owned p = Some x) Hlk How) in He.
  apply (set_Inv_step g c t g' s' p' HI); try done. intros v Hv. destruct Ht as [Ht|Ht]; [|congruence]. rewrite Ht in Hv.
  eapply ghost_step; [by apply HI|exact He|by apply HI|by apply Ho].
Qed.

Lemma observes_all s' : elems s' = elems s → ∀ u v, target (threads c u) = Some v → observes g g s' u v.
Proof using HI. intros He u v Hv. eapply observes_refl; [by apply HI|done]. Qed.

Lemma owned_stays (p' : pc) : owned p' = owned p →
  ∀ n, owned p' = Some n → owned p = Some n ∨ ∀ u, owned (threads c u) ≠ Some n.
Proof using. intros -> n Hn. by left. Qed.

(** A step that only reads. *)
Lemma pure_step p' : goes_to g s t p p' → simulated g c None g (mkConfig s (<[t := p']> (threads c))).
Proof using HI.
  intros [Hp Ht Hh Ho Hd Hdy Hph]. apply quiet_simulated; try done; [by apply observes_all|].
  apply (write_Inv g s p' (λ _, False) (λ _, False)); try done.
  - apply quiet_effect; try done; apply HI.
  - by apply observes_all.
  - by apply locks_same.
  - by apply owned_stays.
  - by apply accounted_like.
  - by apply buries_same.
  - by apply balanced_same.
Qed.

Lemma arrives_pure f p' : arrives g s t f p' → target p = tkey (key f) → (∀ x, held p x ↔ finder_node f x) →
  phase_of p = finder_phase f → owned p = None → debt p = debt (FindStart f nils nils) → dying p = finder_dying f →
  simulated g c None g (mkConfig s (<[t := p']> (threads c))).
Proof using HI.
  intros [Hp Ht Hh Ho Hd Hdy Hph] Hpt Hpk Hpp Hpo Hpd Hpy. apply pure_step. split; try done.
  - by rewrite Hpt.
  - intros x. by rewrite Hh, Hpk.
  - by rewrite Ho.
  - by rewrite Hd.
  - by rewrite Hdy.
  - unfold keeps_phase in *. by rewrite Hpp.
Qed.

(** A step that changes locks or counters. *)
Lemma relocking_step s' p' : like s s' → (∀ x j, nxt s' x j = nxt s x j) → highestLevel s' <= maxLevel →
  thread_inv g s' t p' → (target p' = target p ∨ target p' = None) → locks_to s' p' → owned p' = owned p →
  dying p' = dying p → balanced s p s' p' → keeps_phase g t p p' → simulated g c None g (mkConfig s' (<[t := p']> (threads c))).
Proof using HI.
  intros Hl Hn Hh Hp Ht Hlk Ho Hdy Hba Hph. pose proof (like_elems _ _ Hl) as He.
  apply quiet_simulated; try done; [by apply observes_all|].
  apply (write_Inv g s' p' (λ _, False) (λ _, False)); try done.
  - apply quiet_effect; try done. apply HI.
  - by apply observes_all.
  - by apply owned_stays.
  - by apply accounted_like.
  - apply buries_same; [|done]. intros x j Hx. by rewrite (lk_mk _ _ Hl).
Qed.

(** What [t] knows is the same after it. *)
Lemma quiet_inv s' p' : like s s' → (∀ x j, nxt s' x j = nxt s x j) → highestLevel s' <= maxLevel →
  (target p' = target p ∨ target p' = None) → thread_inv g s t p' → thread_inv g s' t p'.
Proof using HI.
  intros Hl Hn Hh Ht. apply (thread_stable g s g s' (λ _, False) (λ _, False)); try done; [apply HI| | | |].
  - apply quiet_effect; try done. apply HI.
  - tauto.
  - tauto.
  - intros v Hv. destruct Ht as [Ht|Ht]; [|congruence]. rewrite Ht in Hv.
    split; [by apply HI|]. apply observes_all; [by apply like_elems|done].
Qed.
End shapes.

(** ** Steps that only read *)

(** The step leads to [p'] and leaves the state alone. *)
Lemma pure_progress g c t p p' : Inv g c → threads c t = p → goes_to g (shared c) t p p' →
  thread_step t (shared c) p = Go (shared c) p' → progresses g c t.
Proof.
  intros HI Ht Hgo Hst. right. exists (shared c), p', g. rewrite Ht. split; [done|]. apply pure_step; [done|]. by rewrite Ht.
Qed.

Lemma find_progress g c t f p' : Inv g c → arrives g (shared c) t f p' →
  target (threads c t) = tkey (key f) → (∀ x, held (threads c t) x ↔ finder_node f x) →
  phase_of (threads c t) = finder_phase f → owned (threads c t) = None →
  debt (threads c t) = debt (FindStart f nils nils) → dying (threads c t) = finder_dying f →
  thread_step t (shared c) (threads c t) = Go (shared c) p' → progresses g c t.
Proof. intros HI Ha Htg Hh Hph Ho Hd Hdy Hst. right. exists (shared c), p', g. split; [done|]. by eapply arrives_pure. Qed.

Section reads.
Context (g : ghost) (c : config) (t : nat) (HI : Inv g c).

Lemma step_FindStart f P Q : threads c t = FindStart f P Q → progresses g c t.
Proof using HI.
  intros Ht. pose proof (inv_shared _ _ HI) as Hs. pose proof (inv_thread _ _ HI t) as Hti. rewrite Ht in Hti.
  assert (∃ p', match highestLevel (shared c) with O => found f P Q None | S i => Some (FindLoad f i header P Q None) end = Some p' ∧
    arrives g (shared c) t f p') as (p' & Hp' & Ha).
  { cbn [thread_inv] in Hti. destruct (ordered (key f)) eqn:Hor; [|by apply looking_start].
    apply find_start_ok; try done. apply (inv_ghost _ _ HI). rewrite Ht. by apply tkey_ordered. }
  eapply find_progress; rewrite ?Ht; try done. cbn [thread_step]. by rewrite Hp'.
Qed.

Lemma step_FindLoad f i x P Q lf : threads c t = FindLoad f i x P Q lf → progresses g c t.
Proof using HI.
  intros Ht. pose proof (inv_shared _ _ HI) as Hs. pose proof (inv_thread _ _ HI t) as Hti. rewrite Ht in Hti.
  assert (∃ p', search (shared c) f i x P Q lf = Some p' ∧ arrives g (shared c) t f p') as (p' & Hp' & Ha).
  { destruct (ordered (key f)) eqn:Hor; [|by apply looking_search].
    apply search_ok; try done. apply (inv_ghost _ _ HI). rewrite Ht. by apply tkey_ordered. }
  eapply find_progress; rewrite ?Ht; try done. cbn [thread_step]. by rewrite Hp'.
Qed.

Lemma step_RandLoad v lv : threads c t = RandLoad v lv → progresses g c t.
Proof using HI.
  intros Ht. pose proof (inv_thread _ _ HI t) as Hti. rewrite Ht in Hti. cbn [thread_inv] in Hti.
  destruct (ordered v) eqn:Hor.
  - eapply pure_progress; [done|exact Ht| |cbn [thread_step]; unfold ordered in Hor; by rewrite Hor].
    destruct (Nat.leb_spec lv (highestLevel (shared c))) as [Hle|Hgt].
    + split; try done; [|by left|by left]. cbn [thread_inv key]. rewrite Hor. split; [done|]. unfold level_ok. lia.
    + split; try done; [left; by apply eq_sym, tkey_ordered|by left].
  - eapply pure_progress; [done|exact Ht| |cbn [thread_step]; unfold ordered in Hor; by rewrite Hor].
    split; try done; [by right|]. right. exists (Add v), false. split_and!; try done. unfold looked. simpl. by rewrite Hor.
Qed.

(** A node with the value that is in the set shows that the value is. *)
Lemma hit_now v n : ghost_inv g (shared c) t v → hit g (shared c) t v n →
  fl (shared c) n = true → mk (shared c) n = false → seen g t true = true.
Proof using.
  intros Hg (Ha & H0 & Hv & _) Hf Hm. pose proof (gi_now _ _ _ _ Hg) as Hnow. rewrite bool_decide_true in Hnow; [done|].
  apply elem_of_elems. by exists n.
Qed.

(** One that is not shows that the value was absent. *)
Lemma hit_absent v n : ghost_inv g (shared c) t v → hit g (shared c) t v n →
  (∀ m, tracked g (shared c) t v m → fl (shared c) n = true → mk (shared c) n = false → False) → seen g t false = true.
Proof using.
  intros Hg (Ha & H0 & Hv & Htr) Hno. destruct (absent_or_tracked g (shared c) t v Hg) as [|[m Hm]]; [done|].
  exfalso. pose proof (Htr m Hm) as ->. destruct (Hm) as (_ & (_ & _ & Hf & Hk) & _). by eapply Hno.
Qed.

Lemma step_AddFound v lv n P Q : threads c t = AddFound v lv n P Q → progresses g c t.
Proof using HI.
  intros Ht. known HI Ht.
  destruct Hti as [Hlv Hhit]. assert (Ha : alloc (shared c) n) by apply Hhit.
  eapply pure_progress; [done|exact Ht| |cbn [thread_step]; rewrite lookup_node by done; done].
  rewrite Get_marked. change (Z.testbit _ 1) with (mk (shared c) n). destruct (mk (shared c) n) eqn:Hm.
  - split; try done; [| |by left]; cbn [thread_inv target key]; [by rewrite (proj1 Hlv)|].
    left. by apply tkey_ordered, Hlv.
  - split; try done; [|by left|by left]. split; [done|]. destruct (fl (shared c) n) eqn:Hf; [left|by right]. by eapply hit_now.
Qed.

Lemma step_AddWait v n : threads c t = AddWait v n → progresses g c t.
Proof using HI.
  intros Ht. known HI Ht. pose proof Hti as [Hhit Hw].
  assert (Ha : alloc (shared c) n) by apply Hhit.
  eapply pure_progress; [done|exact Ht| |cbn [thread_step]; rewrite lookup_node by done; done].
  rewrite Get_fullyLinked. change (Z.testbit _ 0) with (fl (shared c) n). destruct (fl (shared c) n) eqn:Hf.
  - split; try done; [by right|]. right. exists (Add v), false. split_and!; try done.
    unfold looked. destruct (ordered _); [|done]. split; [done|]. destruct Hw as [|[? _]]; [done|congruence].
  - split; try done; [by left|by left].
Qed.

Lemma live_flags n : MGet (flags (node_at (shared c) n)) (Z.lor fullyLinked marked) fullyLinked =
  fl (shared c) n && negb (mk (shared c) n).
Proof using. apply MGet_live. Qed.

Lemma step_HasFlags v n : threads c t = HasFlags v n → progresses g c t.
Proof using HI.
  intros Ht. known HI Ht. destruct Hti as [Hti Hor].
  assert (Ha : alloc (shared c) n) by apply Hti.
  eapply pure_progress; [done|exact Ht| |cbn [thread_step]; rewrite lookup_node by done; done].
  rewrite live_flags. split; try done; [by right|]. right. exists (Contains v). eexists. split_and!; try done.
  apply looked_ordered; [done|].
  destruct (fl (shared c) n) eqn:Hf, (mk (shared c) n) eqn:Hm; simpl;
    [|by eapply hit_now| |]; eapply hit_absent; try done; intros; congruence.
Qed.

Lemma step_RemFlags v l n P Q : threads c t = RemFlags v l n P Q → progresses g c t.
Proof using HI.
  intros Ht. known HI Ht.
  destruct Hti as (Hhit & Hlev & Hse & Hde & Hor). assert (Ha : alloc (shared c) n) by apply Hhit.
  eapply pure_progress; [done|exact Ht| |cbn [thread_step]; rewrite lookup_node by done; done].
  rewrite live_flags. change (level _) with (lev (shared c) n).
  destruct (_ && (_ =? _)) eqn:Hcond.
  - apply andb_prop in Hcond as [[Hf Hm]%andb_prop Hl%Nat.eqb_eq]. split; try done; [by left|by left].
  - split; try done; [by right|]. right. exists (Remove v), false. do 2 (split; [done|]).
    apply looked_ordered; [done|]. split; [done|].
    eapply hit_absent; [done|exact Hhit|]. intros m Hm Hf Hk.
    assert (m = n) as -> by by apply Hhit. rewrite Hf, Hk, (Hlev n Hm), Nat.eqb_refl in Hcond. done.
Qed.

Lemma step_RemMarked v l n P Q : threads c t = RemMarked v l n P Q → progresses g c t.
Proof using HI.
  intros Ht. known HI Ht.
  destruct Hti as (Hhit & Hlev & Hf & Hse & Hde). assert (Ha : alloc (shared c) n) by apply Hhit.
  eapply pure_progress; [done|exact Ht| |cbn [thread_step]; rewrite lookup_node by done; done].
  rewrite Get_marked. change (Z.testbit _ 1) with (mk (shared c) n). destruct (mk (shared c) n) eqn:Hm.
  - split; try done; [|by left|by left]. simpl. eapply hit_absent; [done|exact Hhit|]. intros. congruence.
  - split; try done; [by left|by left].
Qed.

Lemma step_UnlinkLoad v n top P Q hi i : threads c t = UnlinkLoad v n top P Q hi i → progresses g c t.
Proof using HI.
  intros Ht. known HI Ht. pose proof Hti as [Hu Hi].
  pose proof Hu as ((Ha & _ & _ & Hl & _) & _).
  eapply pure_progress; [done|exact Ht| |cbn [thread_step]; rewrite load_next; [done|done|by apply HI|lia]].
  split; try done; [by left|by left].
Qed.
End reads.

(** ** Checks under locks *)

Section checks.
Context (g : ghost) (c : config) (t : nat) (HI : Inv g c).
Local Abbreviation s := (shared c).

Lemma work_layers w : work_inv g s w → layers w <= maxLevel.
Proof using HI.
  pose proof (inv_shared _ _ HI) as Hs. destruct w as [v lv|v n top]; simpl.
  - pose proof (si_high _ _ Hs). unfold adding, level_ok. lia.
  - intros [_ [(Ha & _ & _ & Hl & _) _]]. destruct (si_node _ _ Hs n Ha) as (_ & _ & ?). unfold lev in Hl. lia.
Qed.

Lemma preds_not_node w P Q k : changing g s t w P Q k →
  match w with WRem _ n _ => ∀ j p, j < layers w → P j = Some p → p ≠ n | _ => True end.
Proof using.
  intros (Hw & Hse & _). destruct w as [|v n top]; [done|]. intros j p Hj Hp ->.
  destruct (Hse j) as (p' & Hp' & _ & Hb & _); [lia|]. simplify_eq. destruct Hw as [_ [(_ & H0 & Hv & _) _]].
  destruct Hb as [->|Hb]; [done|]. simpl in Hb. korder.
Qed.

Lemma preds_hi P k hi x : hi_ok P k hi → preds_below P hi x ↔ preds_below P k x.
Proof using.
  intros [Hle Hall]. split; intros (j & Hj & Hx); [exists j; split; [lia|done]|].
  destruct (Hall j Hj) as (j' & Hj' & Heq). exists j'. split; [done|congruence].
Qed.

(** Releasing all predecessors. *)
Lemma release_ok w P Q k hi valid :
  ghost_inv g s t (wkey w) → changing g s t w P Q k → k <= layers w → hi <= layers w →
  let p' := unlockInt64 w P Q hi None valid in
  thread_inv g s t p' ∧ target p' = Some (wkey w) ∧ owned p' = None ∧
  phase_of p' = (if valid then PDone true else work_phase w) ∧
  (debt p' = work_debt w valid ∧ dying p' = if valid then None else work_dying w) ∧
  ∀ x, held p' x ↔ preds_below P hi x ∨ (valid = false ∧ work_node w x).
Proof using HI.
  intros Hg Hc Hk Hhi. pose proof Hc as (Hw & Hse & Hde & _). pose proof (work_layers w Hw) as Hlay.
  pose proof (searched_alloc g s t (wkey w) Hg _ _ _ _ Hse) as Hal.
  destruct (unlock_ok g s t w P Q hi None valid) as (H1 & H2 & H3 & H4 & [H6 H7] & H5); try done.
  - lia.
  - by eapply descends_mono; [..|exact Hde]; lia.
  - intros j Hj. apply Hal. lia.
  - pose proof (preds_not_node _ _ _ _ Hc) as Hne. destruct w; [done|]. split; [apply Hw|]. intros j p Hj. apply Hne. lia.
  - intros j j' Hj Hjj Hj'. destruct (Hal j) as (p & Hp & _); [lia|]. congruence.
  - split_and!; try done. intros x. rewrite H5. split; intros [H|H]; auto. by destruct H as [? _]; left.
Qed.

Lemma fail_ok w P Q k hi p : target p = Some (wkey w) → (∀ x, held p x ↔ preds_below P (S k) x ∨ work_node w x) →
  phase_of p = work_phase w → owned p = None → debt p = work_debt w false → dying p = work_dying w →
  ghost_inv g s t (wkey w) → changing g s t w P Q k → k < layers w → hi_ok P (S k) hi →
  goes_to g s t p (unlockInt64 w P Q hi None false).
Proof using HI.
  intros Hpt Hph Hpp Hpo Hpd Hpy Hg Hc Hk Hhi. destruct (release_ok w P Q k hi false) as (H1 & H2 & H3 & H4 & [H6 H7] & H5); try done; try lia.
  { destruct Hhi. lia. }
  split; try done.
  - left. congruence.
  - intros x. rewrite H5, Hph. rewrite (preds_hi P (S k) hi) by done. tauto.
  - congruence.
  - congruence.
  - congruence.
  - left. congruence.
Qed.

Lemma pred_read w P Q k : ghost_inv g s t (wkey w) → changing g s t w P Q k → k < layers w →
  ∃ p, read P k = Some p ∧ P k = Some p ∧ alloc s p ∧ k < lev s p ∧ recent g t p k.
Proof using HI.
  intros Hg (Hw & Hse & _) Hk. pose proof (work_layers w Hw). destruct (Hse k) as (p & Hp & Hr & _); [lia|].
  exists p. destruct (gi_alloc _ _ _ _ Hg p k Hr). split_and!; try done. unfold read. by rewrite (proj2 (Nat.ltb_lt _ _)) by lia.
Qed.

Lemma step_CheckPred w P Q k hi : threads c t = CheckPred w P Q k hi → progresses g c t.
Proof using HI.
  intros Ht. known HI Ht. destruct Hti as (Hc & Hk & Hhi).
  destruct (pred_read w P Q k Hg Hc Hk) as (p & Hrd & Hp & Ha & _).
  eapply pure_progress; [done|exact Ht| |cbn [thread_step]; rewrite Hrd; cbn [mbind option_bind]; rewrite lookup_node by done; done].
  rewrite Get_marked. change (Z.testbit _ 1) with (mk s p). destruct (mk s p) eqn:Hm; [by eapply fail_ok|].
  assert (∀ p', P k = Some p' → mk s p' = false) by congruence.
  destruct w as [v lv|v n top]; [destruct (Q k) eqn:Hq|]; (split; try done; [by left|by left]).
Qed.

Lemma step_CheckSucc w P Q k hi : threads c t = CheckSucc w P Q k hi → progresses g c t.
Proof using HI.
  intros Ht. known HI Ht. destruct Hti as (Hc & Hk & Hhi & Hm & [q Hq]).
  pose proof Hc as (Hw & Hse & _). pose proof (work_layers w Hw). destruct (Hse k) as (_ & _ & _ & _ & Hqq); [lia|].
  destruct (Hqq q Hq) as (Hrq & _). destruct (gi_alloc _ _ _ _ Hg q k Hrq) as [Haq _].
  assert (Hrd : read Q k = Some q) by (unfold read; by rewrite (proj2 (Nat.ltb_lt _ _)) by lia).
  eapply pure_progress; [done|exact Ht| |cbn [thread_step]; rewrite Hrd; cbn [mbind option_bind]; rewrite lookup_node by done; done].
  destruct (Get _ _); [by eapply fail_ok|]. split; try done; [by left|by left].
Qed.

Lemma step_CheckNext w P Q k hi : threads c t = CheckNext w P Q k hi → progresses g c t.
Proof using HI.
  intros Ht. known HI Ht. destruct Hti as (Hc & Hk & Hhi & Hm).
  destruct (pred_read w P Q k Hg Hc Hk) as (p & Hrd & Hp & Ha & Hl & Hr).
  eapply pure_progress; [done|exact Ht| |cbn [thread_step]; rewrite Hrd; cbn [mbind option_bind]; rewrite load_next; [done|done|by apply Hs|done]].
  case_decide as Hn; [|by eapply fail_ok]. specialize (Hm p Hp).
  destruct (next_layer_ok g s t Hs w P Q (S k) hi) as (H1 & H2 & H3 & H4 & [H6 H7] & H5); try done.
  - pose proof Hc as (? & ? & ? & ? & Hch). split_and!; try done. intros j Hj. destruct (decide (j = k)) as [->|]; [|apply Hch; lia].
    exists p. split_and!; try done. destruct (gi_kept _ _ _ _ Hg p k Hr); [done|congruence].
  - split; try done; [by left|by left].
Qed.
End checks.

(** ** Locks and counters *)

Lemma wraps_shift (x : Z) : ∃ k, wraps 64 x = (x + k * 2 ^ 64)%Z.
Proof.
  exists (- ((x + 2 ^ (64 - 1)) / 2 ^ 64))%Z. unfold wraps.
  pose proof (Z.div_mod (x + 2 ^ (64 - 1)) (2 ^ 64) ltac:(lia)). lia.
Qed.

Section locks.
Context (g : ghost) (c : config) (t : nat) (HI : Inv g c).
Local Abbreviation s := (shared c).
Local Abbreviation p := (threads c t).

Lemma held_alloc u x : held (threads c u) x → alloc s x.
Proof using HI.
  intros Hx%(inv_locks _ _ HI). destruct (decide (x < length (nodes s))) as [|Hn]; [done|].
  rewrite unalloc_own in Hx; done.
Qed.

(** Knowledge that survives a change of locks. *)
Record keeps (p' : pc) : Prop := {
  kp_inv : thread_inv g s t p';
  kp_target : target p' = target p ∨ target p' = None;
  kp_owned : owned p' = owned p;
  kp_debt : debt p' = debt p;
  kp_dying : dying p' = dying p;
  kp_phase : keeps_phase g t p p'
}.

Lemma relock_simulated n m p' : alloc s n → keeps p' → locks_to c t (locked_by n m s) p' →
  simulated g c None g (mkConfig (locked_by n m s) (<[t := p']> (threads c))).
Proof using HI.
  intros Ha [Hp Ht Ho Hd Hdy Hph] Hl. destruct (locked_like n m s Ha) as (Hlk & Hn & _). pose proof (si_high _ _ (inv_shared _ _ HI)).
  apply relocking_step; try done; [by apply (quiet_inv g c t HI)|]. apply balanced_same; try done. by apply like_elems.
Qed.

Lemma lock_progress n p' : alloc s n → keeps p' → (∀ x, held p' x ↔ held p x ∨ x = n) →
  thread_step t s p = Lock t s n p' → progresses g c t.
Proof using HI.
  intros Ha Hk Hh Hst. unfold progresses. rewrite Hst. unfold Lock. rewrite lookup_node by done.
  change (mu (node_at s n)) with (own s n). destruct (own s n) as [u|] eqn:Ho; [by left|right].
  exists (locked_by n (Some t) s), p', g. split; [done|]. apply relock_simulated; try done.
  apply (locks_acquired g c t HI _ _ n); try done. by apply locked_like.
Qed.

Lemma Unlock_held n : held p n → Unlock s n = Some (locked_by n None s).
Proof using HI.
  intros Hn. pose proof (held_alloc t n Hn) as Ha. apply (inv_locks _ _ HI) in Hn. unfold Unlock.
  rewrite lookup_node by done. simpl. change (mu (node_at s n)) with (own s n). by rewrite Hn.
Qed.

Lemma unlock_progress n p' : held p n → keeps p' → (∀ x, held p' x ↔ held p x ∧ x ≠ n) →
  thread_step t s p = Go (locked_by n None s) p' → progresses g c t.
Proof using HI.
  intros Hn Hk Hh Hst. pose proof (held_alloc t n Hn) as Ha. right. exists (locked_by n None s), p', g. split; [done|].
  apply relock_simulated; try done. apply (locks_released g c t HI _ _ n); try done. by apply locked_like.
Qed.

Lemma step_RemLock v l n P Q : p = RemLock v l n P Q → progresses g c t.
Proof using HI.
  intros Ht. known HI Ht. assert (Ha : alloc s n) by apply Hti.
  eapply (lock_progress n (RemMarked v l n P Q)); [done| | |by rewrite Ht].
  - split; rewrite ?Ht; try done; [by left|by left].
  - intros x. rewrite Ht. simpl. tauto.
Qed.

Lemma step_RemUnlock v n : p = RemUnlock v n → progresses g c t.
Proof using HI.
  intros Ht. known HI Ht. assert (Hn : held p n) by by rewrite Ht.
  eapply (unlock_progress n (Returned false)); [done| | |rewrite Ht; cbn [thread_step]; by rewrite Unlock_held].
  - split; rewrite ?Ht; try done; [by right|]. right. exists (Remove v), false. split_and!; try done.
    unfold looked. by destruct (ordered _).
  - intros x. rewrite Ht. simpl. tauto.
Qed.

Lemma step_LockPred w P Q k hi : p = LockPred w P Q k hi → progresses g c t.
Proof using HI.
  intros Ht. known HI Ht. destruct Hti as (Hc & Hk & Hhi & Hne).
  destruct (pred_read g c t HI w P Q k Hg Hc Hk) as (q & Hrd & Hq & Ha & _).
  eapply (lock_progress q (CheckPred w P Q k (S k))); [done| | |rewrite Ht; cbn [thread_step]; by rewrite Hrd].
  - split; rewrite ?Ht; try done; [|by left|by left]. split_and!; try done. split; [lia|]. intros j Hj. by exists j.
  - intros x. rewrite Ht. simpl. split.
    + intros [(j & Hj & Hx)|]; [|tauto]. destruct (decide (j = k)) as [->|]; [right; congruence|]. left. left. exists j. split; [lia|done].
    + intros [[(j & Hj & Hx)|]| ->]; [|by right|]; left; [exists j|exists k]; (split; [lia|done]).
Qed.

Lemma step_UnlockNode v n top P Q hi : p = UnlockNode v n top P Q hi → progresses g c t.
Proof using HI.
  intros Ht. known HI Ht. assert (Hn : held p n) by (rewrite Ht; by right).
  destruct Hti as (Hd & Hde & Hhi & Hb & _ & _). pose proof Hd as (Ha & H0 & Hv & Hl & Hm).
  assert (Hmax : S top <= maxLevel) by (destruct (si_node _ _ Hs n Ha) as (_ & _ & ?); unfold lev in Hl; lia).
  assert (Hhi' : hi <= S top) by apply Hhi.
  assert (Hneq : ∀ j q, j < S top → P j = Some q → q ≠ n).
  { intros j q Hj Hq Heq. subst q. destruct (Hb j Hj) as (q & Hq' & _ & [->|Hlt]); simplify_eq; korder. }
  destruct (unlock_ok g s t (WRem v n top) P Q hi None true) as (H1 & H2 & H3 & H4 & [H6 H7] & H5); try done.
  - lia.
  - by eapply descends_mono; [..|exact Hde]; lia.
  - intros j Hj. destruct (Hb j) as (q & ? & ? & _); [lia|]. by exists q.
  - split; [done|]. intros j q Hj. apply Hneq. lia.
  - intros j j' Hj Hjj Hj'. destruct (Hb j) as (q & ? & _); [lia|]. congruence.
  - eapply (unlock_progress n (unlockInt64 (WRem v n top) P Q hi None true)); [done| | |rewrite Ht; cbn [thread_step]; by rewrite Unlock_held].
    + split; rewrite ?Ht; try done; [by left|]. by left.
    + intros x. rewrite H5, Ht. simpl. rewrite (preds_hi P (S top) hi) by done. split.
      * intros [[Hx _]|[? _]]; [|done]. split; [by left|]. destruct Hx as (j & Hj & Hx). by eapply Hneq.
      * intros [[Hx| ->] Hne]; [by left|done].
Qed.

Lemma step_UnlockPred w P Q i valid : p = UnlockPred w P Q i valid → progresses g c t.
Proof using HI.
  intros Ht. known HI Ht. destruct Hti as (Hi & Hde & Hal & Hw & Hne). destruct (Hal i) as (q & Hq & Haq); [lia|].
  assert (Hn : held p q) by (rewrite Ht; left; exists i; split; [lia|done]).
  assert (Hrd : read P i = Some q) by (unfold read; by rewrite (proj2 (Nat.ltb_lt _ _))).
  assert (Hsuf : ∀ j j', P j = P i → j <= j' → j' < i → P j' = P i).
  { intros j j' Hj Hjj Hj'. destruct (Hal j') as (q' & Hq' & _); [lia|].
    destruct (decide (j = j')) as [->|]; [done|].
    assert (q' = q ∨ nlt s q' q) as [->|H1] by (apply (Hde j j'); [lia|lia|lia|congruence|done]); [congruence|].
    assert (q = q' ∨ nlt s q q') as [->|H2] by (apply (Hde j' i); [lia|lia|lia|done|done]); [congruence|].
    destruct (nlt_irrefl s q). by eapply nlt_trans. }
  destruct (unlock_ok g s t w P Q i (P i) valid) as (H1 & H2 & H3 & H4 & [H6 H7] & H5); try done.
  - lia.
  - by eapply descends_mono; [..|exact Hde]; lia.
  - intros j Hj. apply Hal. lia.
  - destruct w; [done|]. split; [apply Hne|]. intros j q' Hj. apply Hne. lia.
  - eapply (unlock_progress q); [done| | |rewrite Ht; cbn [thread_step]; rewrite Hrd; cbn [mbind option_bind]; rewrite Unlock_held by done; done].
    + split; rewrite ?Ht; try done; [by left|]. left. by rewrite H4.
    + intros x. rewrite H5, Ht. simpl. rewrite Hq. split.
      * intros [[(j & Hj & Hx) Hxq]|[-> Hx]]; [split; [left; exists j; split; [lia|done]|congruence]|].
        split; [by right|]. destruct w as [|? n]; [done|]. simpl in Hx. subst x. intros ->. by eapply (proj2 Hne i q).
      * intros [[(j & Hj & Hx)|] Hxq]; [left|by right]. split; [|congruence]. exists j. split; [|done].
        destruct (decide (j = i)) as [->|]; [congruence|lia].
Qed.

Lemma step_RandCas v lv hl : p = RandCas v lv hl → progresses g c t.
Proof using HI.
  intros Ht. known HI Ht. destruct Hti as (Hlv & Hlt & Hor). destruct (decide (highestLevel s = hl)) as [He|He].
  - right. exists (mkSet (nodes s) (len s) lv), (FindStart (FAdd v lv) nils nils), g. rewrite Ht. cbn [thread_step].
    rewrite decide_True by done. split; [done|]. apply relocking_step; rewrite ?Ht; try done.
    + split; try done. simpl. lia.
    + simpl. lia.
    + cbn [thread_inv key]. rewrite Hor. split; [done|]. unfold level_ok. simpl. lia.
    + left. by apply tkey_ordered.
    + apply (locks_same g c t HI); try done. intros x. by rewrite Ht.
    + exists 0%Z. unfold elems. simpl. lia.
    + by left.
  - eapply pure_progress; [done|exact Ht| |cbn [thread_step]; by rewrite decide_False].
    split; try done; [left; by apply tkey_ordered|by left].
Qed.

Lemma step_LenAdd w : p = LenAdd w → progresses g c t.
Proof using HI.
  intros Ht. right. eexists _, (Returned true), g. rewrite Ht. split; [done|]. apply relocking_step; rewrite ?Ht; try done.
  - apply (si_high _ _ (inv_shared _ _ HI)).
  - by right.
  - apply (locks_same g c t HI); try done. intros x. by rewrite Ht.
  - destruct (wraps_shift (len s + match w with WAdd _ _ => 1 | WRem _ _ _ => -1 end)) as [k Hk]. exists k.
    unfold elems, int_add. cbn [len nodes]. rewrite Hk. destruct w; simpl; lia.
  - by left.
Qed.
End locks.
End keys.
