(* ===== verification/SkipSetThms.v ===== *)
(** * The concurrent skip set: the steps that change the list

    Allocation, linking and unlinking leave the set alone; the two flags are
    where [Add] and [Remove] take effect. *)

From stdpp Require Import functions sorting.
From S2P Require Import Prelude Atomic SkipSet SkipSetInv SkipSetHeap SkipSetMoves SkipSetSteps SkipSetLin.

Section keys.
Context {K C : Type} `{CC : Countable C} {HK : SkipKey K C}.
#[local] Abbreviation int64Node := (@int64Node K).
#[local] Abbreviation Int64Set := (@Int64Set K).
#[local] Abbreviation op := (@op K).
#[local] Abbreviation finder := (@finder K).
#[local] Abbreviation work := (@work K).
#[local] Abbreviation pc := (@pc K).
#[local] Abbreviation config := (@config K).
Implicit Types (s : Int64Set) (c : config) (w : work) (o : op).

(** ** The set after a step *)

Lemma elems_ext s s' : (∀ x, live s' x ↔ live s x) → (∀ x, live s x → val s' x = val s x) → elems s' = elems s.
Proof.
  intros Hl Hv. apply set_eq. intros v. rewrite !elem_of_elems. split; intros (n & Hn & Hvn); exists n.
  - apply Hl in Hn. split; [done|]. by rewrite <- Hv.
  - split; [by apply Hl|]. by rewrite Hv.
Qed.

Lemma elems_new v lv s : elems (with_new v lv s) = elems s.
Proof.
  destruct (with_new_spec v lv s) as (Hold & Hnew & Hal & _). apply elems_ext.
  - intros x. unfold live, fl, mk. rewrite Hal. split.
    + intros ([Hx| ->] & H0 & Hf & Hm); [by rewrite Hold in Hf, Hm|]. by rewrite Hnew in Hf.
    + intros (Hx & H0 & Hf & Hm). rewrite Hold by done. auto.
  - intros x (Hx & _). unfold val. by rewrite Hold.
Qed.

Lemma elems_full nn s : alloc s nn → nn ≠ 0 → mk s nn = false → elems (flagged nn fullyLinked s) = {[val s nn]} ∪ elems s.
Proof.
  intros Ha H0 Hm. destruct (flagged_spec nn fullyLinked 0 s Ha ltac:(done) eq_refl) as (Hal & Hvl & _ & _ & _ & Hfl & Hmk & _).
  assert (Hv : ∀ y, val (flagged nn fullyLinked s) y = val s y) by (intros y; unfold val; by rewrite Hvl).
  apply set_eq. intros v. rewrite elem_of_union, elem_of_singleton, !elem_of_elems. split.
  - intros (n & (Han & Hn0 & Hf & Hmn) & Hvn). rewrite Hv in Hvn. rewrite Hfl in Hf. rewrite Hmk, andb_false_r, orb_false_r in Hmn.
    apply orb_true_iff in Hf as [Hf|Hf]; [right; exists n; split; [|done]; split_and!; try done; by apply Hal|].
    apply andb_prop in Hf as [->%bool_decide_eq_true _]. by left.
  - intros [->|(n & (Han & Hn0 & Hf & Hmn) & Hvn)]; [exists nn|exists n]; unfold live; rewrite Hal, Hv, Hfl, Hmk.
    + rewrite bool_decide_true by done. simpl. rewrite orb_true_r, orb_false_r. done.
    + rewrite Hf, Hmn, andb_false_r. done.
Qed.

Lemma elems_mark ch n s : shared_inv ch s → live s n → elems (flagged n marked s) = elems s ∖ {[val s n]}.
Proof.
  intros Hs Hl. assert (Ha : alloc s n) by apply Hl.
  destruct (flagged_spec n marked 1 s Ha ltac:(done) eq_refl) as (Hal & Hvl & _ & _ & _ & Hfl & Hmk & _).
  assert (Hv : ∀ y, val (flagged n marked s) y = val s y) by (intros y; unfold val; by rewrite Hvl).
  assert (Hlive : ∀ m, live (flagged n marked s) m ↔ live s m ∧ m ≠ n).
  { intros m. unfold live. rewrite Hal, Hfl, Hmk, andb_false_r, orb_false_r. destruct (decide (m = n)) as [->|Hne].
    - rewrite bool_decide_true by done. rewrite orb_true_r. naive_solver.
    - rewrite bool_decide_false by done. rewrite orb_false_r. naive_solver. }
  apply set_eq. intros v. rewrite elem_of_difference, elem_of_singleton, !elem_of_elems. split.
  - intros (m & [Hm Hne]%Hlive & Hvm). rewrite Hv in Hvm. split; [by exists m|]. intros ->. apply Hne.
    by apply (live_unique _ _ Hs).
  - intros [(m & Hm & Hvm) Hne]. exists m. rewrite Hlive, Hv. split_and!; [done| |done]. intros ->. congruence.
Qed.

(** ** What goroutine [t] keeps *)

Section writes.
Context (g : ghost) (c : config) (t : nat) (HI : Inv g c).
Local Abbreviation s := (shared c).
Local Abbreviation p := (threads c t).

(** The goroutines see the state after the step. *)
Definition observed (ch : nat → list nat) (s' : Int64Set) : ghost := observe ch s' (λ u, target (threads c u)) g.

Lemma observed_all ch s' u v : target (threads c u) = Some v → observes g (observed ch s') s' u v.
Proof using. intros Hu. by apply observe_observes. Qed.

Lemma step_AddNew v lv P Q hi : p = AddNew v lv P Q hi → progresses g c t.
Proof using HI.
  intros Ht. known HI Ht. destruct Hti as [(Hlv & Hse & Hde & Hst & Hch) Hhi]. cbn [wkey layers work_inv] in *.
  set (nn := length (nodes s)). set (s' := with_new v lv s).
  destruct (with_new_spec v lv s) as (Hold & Hnew & Hal & Ho). fold s' nn in Hold, Hnew, Hal, Ho.
  pose proof (new_effect g s v lv Hs Hlv) as He. fold s' in He. pose proof (elems_new v lv s) as Hel. fold s' in Hel.
  assert (Hob : observes g g s' t (rank v)) by by apply (observes_refl g s).
  right. exists s', (AddInit v lv P Q hi nn 0), g. rewrite Ht. cbn [thread_step]. unfold link_layer.
  destruct Hlv as [Hor Hlv]. rewrite (proj2 (Nat.ltb_lt _ _)) by apply Hlv. split; [done|].
  apply quiet_simulated; rewrite ?Ht; try done; [by apply observes_all|by left|].
  apply (write_Inv g c t HI g s' _ (λ _, False) (λ _, False)); rewrite ?Ht; try done.
  - by apply observes_all.
  - split_and!; [|apply Hlv|done]. split_and!; try done.
    + by eapply searched_stable.
    + eapply descends_stable; [done|by eapply searched_alloc|done].
    + by eapply strict_stable.
    + apply (checked_stable _ _ _ _ _ _ Hs He); [tauto|done].
    + apply Hal. by right.
    + destruct (si_header _ _ Hs) as [Ha _]. unfold alloc in Ha. lia.
    + unfold val. by rewrite Hnew.
    + unfold lev. by rewrite Hnew.
    + unfold fl. by rewrite Hnew.
    + unfold mk. by rewrite Hnew.
    + intros j. split; [|lia]. intros [Ha _]%(si_mem _ _ Hs). unfold alloc in Ha. lia.
  - by left.
  - apply (locks_same g c t HI); [done|]. intros x. by rewrite Ht.
  - intros n [= <-]. right. intros u Hu. pose proof (inv_thread _ _ HI u) as Htu.
    assert (alloc s nn) as Ha; [|unfold alloc in Ha; lia].
    destruct (threads c u); simplify_eq/=; apply Htu.
  - intros x [Hx| ->]%Hal H0 Hf; [right|by left]. split_and!; [done| |done]. unfold fl in *. by rewrite Hold in Hf.
  - apply buries_same; [|done]. intros x j Hx. destruct (si_mem _ _ Hs j x Hx) as [Ha _]. unfold mk. by rewrite Hold.
  - by apply balanced_same.
Qed.

(** The new node through a step that keeps its flags. *)
Lemma linking_like g' s' v lv P Q hi nn k k' lockT ownT :
  effect g s g' s' lockT ownT → like s s' → ghost_inv g s t v → observes g g' s' t v →
  linking g s t v lv P Q hi nn k → checked g' s' P Q k' lv → (∀ j, nn ∈ chain g' j ↔ j < k') →
  linking g' s' t v lv P Q hi nn k'.
Proof using.
  intros He Hlk Hg Hob (Hlv & Hse & Hde & Hst & _ & Hhi & Ha & H0 & Hv & Hl & Hf & Hm & _) Hch Hin. split_and!; try done.
  - eapply level_ok_stable; [done|done].
  - by eapply searched_stable.
  - eapply descends_stable; [done|by eapply searched_alloc|done].
  - by eapply strict_stable.
  - by apply (lk_alloc _ _ Hlk).
  - by rewrite (lk_val _ _ Hlk).
  - by rewrite (lk_lev _ _ Hlk).
  - by rewrite (lk_fl _ _ Hlk).
  - by rewrite (lk_mk _ _ Hlk).
Qed.

Lemma link_layer_inv g' s' v lv P Q hi nn k :
  k <= lv → ordered v = true → linking g' s' t (rank v) lv P Q hi nn k → thread_inv g' s' t (link_layer v lv P Q hi nn k).
Proof using.
  intros Hk Hor Hl. unfold link_layer. destruct (Nat.ltb_spec k lv); [done|]. assert (k = lv) as -> by lia. done.
Qed.

Lemma link_layer_facts v lv P Q hi nn k : let p' := link_layer v lv P Q hi nn k in
  target p' = Some (rank v) ∧ owned p' = Some nn ∧ phase_of p' = PPending (Add v) ∧ debt p' = 0%Z ∧
  ∀ x, held p' x ↔ preds_below P lv x.
Proof using. unfold link_layer. by destruct (k <? lv). Qed.

Lemma step_AddInit v lv P Q hi nn k : p = AddInit v lv P Q hi nn k → progresses g c t.
Proof using HI.
  intros Ht. known HI Ht. destruct Hti as (Hli & Hk & Hor).
  pose proof Hli as (Hlv & Hse & Hde & Hst & Hch & Hhi & Ha & H0 & Hv & Hl & Hf & Hm & Hin).
  destruct (store_like s nn k (Q k) Ha (si_node _ _ Hs nn Ha)) as (s' & Hstore & Hlk & Hhigh & Hlen & Hn & Ho); [lia|].
  pose proof (si_high _ _ Hs) as Hmax. assert (Hnl : ¬ linked g nn k) by (intros [?|?%Hin]%elem_of_cons; [done|lia]).
  assert (He : effect g s g s' (λ _, False) (λ x, x = nn)) by (eapply init_effect; eauto; lia).
  pose proof (like_elems _ _ Hlk) as Hel. assert (Hob : observes g g s' t (rank v)) by by apply (observes_refl g s).
  right. exists s', (AddLink v lv P Q hi nn k), g. rewrite Ht. cbn [thread_step]. rewrite Hstore. split; [done|].
  apply quiet_simulated; rewrite ?Ht; try done; [by apply observes_all|by left|].
  apply (write_Inv g c t HI g s' _ (λ _, False) (λ x, x = nn)); rewrite ?Ht; try done.
  - by intros x ->.
  - by apply observes_all.
  - split_and!; [|done|done|by rewrite Hn, decide_True].
    eapply linking_like; try done. apply (checked_stable _ _ _ _ _ _ Hs He); [tauto|done].
  - by left.
  - apply (locks_same g c t HI); [done|]. intros x. by rewrite Ht.
  - by left.
  - by apply accounted_like.
  - apply buries_same; [|done]. intros x j Hx. by rewrite (lk_mk _ _ Hlk).
  - by apply balanced_same.
Qed.

Lemma step_AddLink v lv P Q hi nn k : p = AddLink v lv P Q hi nn k → progresses g c t.
Proof using HI.
  intros Ht. known HI Ht. destruct Hti as (Hli & Hk & Hor & Hnq).
  pose proof Hli as (Hlv & Hse & Hde & Hst & Hch & Hhi & Ha & H0 & Hv & Hl & Hf & Hm & Hin).
  destruct (Hch k) as (q & Hq & Hlq & Hmq & Hnx); [lia|]. destruct (Hse k) as (q' & Hq' & Hrq & Hbq & Hsq); [lia|]. simplify_eq.
  destruct (gi_alloc _ _ _ _ Hg q k Hrq) as [Haq Hkq].
  destruct (store_like s q k (Some nn) Haq (si_node _ _ Hs q Haq) Hkq) as (s' & Hstore & Hlk & Hhigh & Hlen & Hn & Ho).
  pose proof (si_high _ _ Hs) as Hmax. pose proof (like_elems _ _ Hlk) as Hel.
  set (g' := observed (link_chain (chain g) q nn k) s').
  assert (He : effect g s g' s' (λ x, x = q) (λ x, x = nn)).
  { apply (link_effect g g' s s' q nn k); try done; try lia.
    - rewrite Hin. lia.
    - destruct k; [by left|right]. apply Hin. lia.
    - congruence.
    - apply before_nlt; [by rewrite Hv|done].
    - intros y Hy. rewrite Hnx in Hy. destruct (Hsq y Hy) as (_ & Hy0 & Hle). split; [done|]. right.
      assert (val s y ≠ rank v) by (apply (Hst k); [lia|done]). korder. }
  assert (Hob : observes g g' s' t (rank v)) by (apply observed_all; by rewrite Ht).
  assert (Hrd : read P k = Some q) by (unfold read; rewrite (proj2 (Nat.ltb_lt _ _)); [done|unfold level_ok in Hlv; lia]).
  destruct (link_layer_facts v (lev s nn) P Q hi nn (S k)) as (Hf1 & Hf2 & Hf3 & Hf5 & Hf4).
  right. exists s', (link_layer v (lev s nn) P Q hi nn (S k)), g'. rewrite Ht. cbn [thread_step]. rewrite Hrd. cbn [mbind option_bind].
  rewrite Hstore. split; [done|]. apply quiet_simulated; rewrite ?Ht; try done; [by intros; apply observed_all|by left|].
  apply (write_Inv g c t HI g' s' _ (λ x, x = q) (λ x, x = nn)); rewrite ?Ht; try done.
  - intros x ->. exists k. split; [lia|done].
  - by intros x ->.
  - by intros; apply observed_all.
  - apply link_layer_inv; [lia|done|]. eapply linking_like; try done.
    + intros j Hj. destruct (Hch j) as (r & Hr & Hlr & Hmr & Hnr); [lia|]. exists r. split_and!; [done| |by rewrite (lk_mk _ _ Hlk)|].
      * apply elem_of_cons in Hlr as [->|Hlr]; [by left|]. right. simpl. apply elem_of_link_chain; auto.
      * rewrite Hn, decide_False; [done|]. intros [_ ?]. lia.
    + intros j. simpl. rewrite elem_of_link_chain by done. rewrite Hin. lia.
  - by left.
  - apply (locks_same g c t HI); [done|]. intros x. by rewrite Ht, Hf4.
  - intros n. rewrite Hf2. by left.
  - by apply accounted_like.
  - apply buries_same; [|by unfold link_layer; destruct (_ <? _)]. intros x j. simpl. rewrite elem_of_link_chain by done.
    rewrite (lk_mk _ _ Hlk). intros [Hx|[-> _]]; [done|congruence].
  - by apply balanced_same.
Qed.

(** The step where an operation takes effect. *)
Lemma effect_progress g' s' p' o r lockT ownT :
  effect g s g' s' lockT ownT → (∀ x, lockT x → held p x) → (∀ x, ownT x → owned p = Some x) →
  (∀ u v, target (threads c u) = Some v → observes g g' s' u v) → (∀ x, own s' x = own s x) →
  thread_inv g' s' t p' → target p' = target p → owned p' = None → (∀ x, held p' x ↔ held p x) →
  phase_of p = PPending o → phase_of p' = PDone r → apply_op o (elems s) = (elems s', r) →
  accounted s p s' p' → buries g s p g' s' p' → balanced s p s' p' →
  thread_step t s p = Go s' p' → progresses g c t.
Proof using HI.
  intros He Hlk Hown Hob Ho Hti Htg How Hh Hph Hph' Happ Hac Hbu Hba Hst. right. exists s', p', g'. split; [done|]. split.
  - eapply (write_Inv g c t HI); try done; [by left|by apply (locks_same g c t HI)|]. intros n Hn. congruence.
  - by eapply effect_back.
Qed.

Lemma step_AddFull v lv P Q hi nn : p = AddFull v lv P Q hi nn → progresses g c t.
Proof using HI.
  intros Ht. known HI Ht. destruct Hti as [(Hlv & Hse & Hde & Hst & Hch & Hhi & Ha & H0 & Hv & Hl & Hf & Hm & Hin) Hor].
  set (s' := flagged nn fullyLinked s). set (g' := observed (chain g) s').
  destruct (flagged_spec nn fullyLinked 0 s Ha ltac:(done) eq_refl) as (Hal' & _ & _ & Ho & _ & Hfl' & Hmk' & _). fold s' in Ho, Hal', Hfl', Hmk'.
  assert (He : effect g s g' s' (λ _, False) (λ x, x = nn)).
  { apply full_effect; try done. intros j Hj. apply Hin. lia. }
  pose proof (elems_full nn s Ha H0 Hm) as Hel. fold s' in Hel. rewrite Hv in Hel.
  assert (Hnew : rank v ∉ elems s).
  { intros (n & Hn & Hvn)%elem_of_elems. assert (n = nn) as ->; [|destruct Hn as (_ & _ & ? & _); congruence].
    apply (mem_unique _ _ Hs 0 0); [by apply (live_mem _ _ Hs)|apply Hin; unfold level_ok in Hlv; lia|congruence]. }
  pose proof (searched_alloc _ _ _ _ Hg _ _ _ _ Hse) as Hal. pose proof (si_high _ _ Hs) as Hmax.
  assert (Hhl : hi <= lv) by apply Hhi.
  destruct (unlock_ok g' s' t (WAdd v lv) P Q hi None true) as (H1 & H2 & H3 & H4 & [H6 H7] & H5); try done.
  - unfold level_ok in Hlv. lia.
  - eapply descends_stable; [exact He| |by eapply descends_mono; [..|exact Hde]; lia]. intros j Hj. apply Hal. lia.
  - intros j Hj. destruct (Hal j) as (q & Hq & Haq); [lia|]. exists q. split; [done|]. by apply He.
  - intros j j' Hj Hjj Hj'. destruct (Hal j) as (q & Hq & _); [lia|]. congruence.
  - eapply (effect_progress g' s' _ (Add v) true (λ _, False) (λ x, x = nn)); rewrite ?Ht; try done.
    + by intros x ->.
    + by intros; apply observed_all.
    + intros x. rewrite H5. simpl. rewrite (preds_hi P lv hi) by done. split; [by intros [[? _]|[? _]]|]. intros ?. by left.
    + unfold apply_op. fold (ordered (okey (Add v))). simpl. rewrite Hor, Hel. by rewrite bool_decide_true.
    + intros x Hx Hx0. rewrite Hfl'. intros [Hfx Hne]%orb_false_iff. right. split_and!; [by apply Hal'|done|].
      intros [= ->]. by rewrite bool_decide_true in Hne.
    + apply buries_same; [|done]. intros x j Hx. by rewrite Hmk', andb_false_r, orb_false_r.
    + exists 0%Z. rewrite H6, Hel, size_union, size_singleton by set_solver. simpl. change (len s') with (len s). lia.
    + cbn [thread_step]. rewrite lookup_node by done. done.
Qed.

Lemma step_RemMark v l n P Q : p = RemMark v l n P Q → progresses g c t.
Proof using HI.
  intros Ht. known HI Ht. destruct Hti as (Hhit & Hl & Hf & Hm & Hse & Hde & Hor). pose proof Hhit as (Ha & H0 & Hv & _).
  assert (Hlive : live s n) by by split_and!.
  set (s' := flagged n marked s). set (g' := observed (chain g) s').
  destruct (flagged_spec n marked 1 s Ha ltac:(done) eq_refl) as (Hal & Hvl & Hlev & Ho & _ & Hfl' & Hmk & _).
  assert (Hval : ∀ y, val (flagged n marked s) y = val s y) by (intros y; unfold val; by rewrite Hvl).
  fold s' in Hal, Hval, Hlev, Ho, Hmk, Hfl'.
  assert (He : effect g s g' s' (λ x, x = n) (λ _, False)) by by apply mark_effect.
  pose proof (elems_mark _ n s Hs Hlive) as Hel. fold s' in Hel. rewrite Hv in Hel.
  assert (Hin : rank v ∈ elems s) by (apply elem_of_elems; by exists n).
  assert (Hob : observes g g' s' t (rank v)) by (apply observed_all; by rewrite Ht).
  assert (Hg' : ghost_inv g' s' t (rank v)) by by eapply ghost_step.
  assert (Hsh : shared_inv (chain g') s') by apply He.
  destruct (next_layer_ok g' s' t Hsh (WRem v n l) P Q 0 0) as (H1 & H2 & H3 & H4 & [H6 H7] & H5).
  - done.
  - split_and!; [split; [done|split]|by eapply searched_stable|eapply descends_stable; [done|by eapply searched_alloc|done]|done|intros j ?; lia].
    + split_and!; [by apply Hal|done|by rewrite Hval|by rewrite Hlev|]. rewrite Hmk, bool_decide_true by done. apply orb_true_r.
    + intros j Hj. apply (si_live _ _ Hs); [done|lia].
  - simpl. lia.
  - split; [lia|]. intros j ?. lia.
  - apply (effect_progress g' s' (next_layer (WRem v n l) P Q 0 None 0) (Remove v) true (λ x, x = n) (λ _, False)); rewrite ?Ht; try done.
    + by intros; apply observed_all.
    + intros x. cbn [prev] in H5. rewrite H5. simpl. split; [by intros [(? & ? & _)|]; [lia|]|by right].
    + unfold apply_op. fold (ordered (okey (Remove v))). simpl. rewrite Hor, Hel. by rewrite bool_decide_true.
    + intros x Hx Hx0. rewrite Hfl', andb_false_r, orb_false_r. intros Hfx. right. split_and!; [by apply Hal|done|done].
    + intros x j Hx. rewrite Hmk, andb_true_r. intros [Hx'|Hx'%bool_decide_eq_true]%orb_true_iff; [by right|].
      left. cbn [prev] in H7. by rewrite H7, Hx'.
    + exists 0%Z. cbn [prev] in H6. rewrite H6, Hel, size_difference, size_singleton by set_solver. simpl.
      change (len s') with (len s). assert (size (elems s) ≠ 0) by (apply size_non_empty_iff; set_solver). lia.
    + cbn [thread_step]. rewrite lookup_node by done. done.
Qed.

Lemma step_UnlinkStore v n top P Q hi i nx : p = UnlinkStore v n top P Q hi i nx → progresses g c t.
Proof using HI.
  intros Ht. known HI Ht. destruct Hti as ((Hd & Hde & Hhi & Hb & Hc & Hin) & Hi & Hnx).
  pose proof Hd as (Ha & H0 & Hv & Hl & Hm). destruct (Hc i) as (q & Hq & Hlq & Hmq & Hnq); [lia|].
  destruct (next_mem _ _ Hs q i n Hlq Hnq) as [Hni Hqn].
  assert (Haq : alloc s q) by by apply (mem_alloc _ _ Hs i).
  assert (Hmax : S top <= maxLevel) by (destruct (si_node _ _ Hs n Ha) as (_ & _ & ?); unfold lev in Hl; lia).
  assert (Hiq : i < lev s q).
  { apply elem_of_cons in Hlq as [->|Hlq]; [|by apply (si_mem _ _ Hs) in Hlq as []]. destruct (si_header _ _ Hs) as (_ & -> & _). lia. }
  destruct (store_like s q i nx Haq (si_node _ _ Hs q Haq) Hiq) as (s' & Hstore & Hlk & Hhigh & Hlen & Hn & Ho).
  pose proof (si_high _ _ Hs) as Hhl. pose proof (like_elems _ _ Hlk) as Hel.
  set (g' := observed (unlink_chain (chain g) n i) s').
  assert (He : effect g s g' s' (λ x, x = q ∨ x = n) (λ _, False)).
  { apply (unlink_effect g g' s s' q n i); try done; [lia|by rewrite <- Hnx|]. rewrite Hin. lia. }
  assert (Hrd : read P i = Some q) by (unfold read; rewrite (proj2 (Nat.ltb_lt _ _)); [done|lia]).
  assert (Hun : unlinking g' s' (rank v) n top P hi i).
  { split_and!; [by eapply dead_stable| |done| | |].
    - eapply descends_stable; [exact He| |done]. intros j Hj. destruct (Hb j) as (r & ? & ? & _); [lia|]. by exists r.
    - intros j Hj. destruct (Hb j Hj) as (r & Hr & Har & Hbr). exists r. split_and!; [done|by apply He|]. by apply (before_stable _ _ _ _ _ _ He).
    - intros j Hj. destruct (Hc j) as (r & Hr & Hlr & Hmr & Hnr); [lia|]. exists r. split_and!; [done| |by rewrite (lk_mk _ _ Hlk)|].
      + apply elem_of_cons in Hlr as [->|Hlr]; [by left|]. right. simpl. apply elem_of_unlink_chain. split; [done|]. lia.
      + rewrite Hn, decide_False; [done|]. intros [_ ?]. lia.
    - intros j. simpl. rewrite elem_of_unlink_chain, Hin. split; [|lia]. intros [Hj Hne]. assert (j ≠ i) by tauto. lia. }
  set (p' := match i with O => UnlockNode v n top P Q hi | S i => UnlinkLoad v n top P Q hi i end).
  assert (Hp' : thread_inv g' s' t p' ∧ target p' = Some (rank v) ∧ owned p' = None ∧ phase_of p' = PDone true ∧ (debt p' = (-1)%Z ∧ dying p' = if decide (i = 0) then None else Some n) ∧
    ∀ x, held p' x ↔ preds_below P (S top) x ∨ x = n).
  { unfold p'. destruct i; simpl; split_and!; try done; lia. }
  destruct Hp' as (H1 & H2 & H3 & H4 & [H6 H7] & H5).
  right. exists s', p', g'. rewrite Ht. cbn [thread_step]. rewrite Hrd. cbn [mbind option_bind]. rewrite Hstore. split; [done|].
  apply quiet_simulated; rewrite ?Ht; try done; [by intros; apply observed_all|by left|].
  apply (write_Inv g c t HI g' s' _ (λ x, x = q ∨ x = n) (λ _, False)); rewrite ?Ht; try done.
  - intros x [->| ->]; [|by right]. left. exists i. split; [lia|done].
  - by intros; apply observed_all.
  - by left.
  - apply (locks_same g c t HI); [done|]. intros x. by rewrite Ht, H5.
  - intros m Hm'. congruence.
  - by apply accounted_like.
  - intros x j. simpl. rewrite elem_of_unlink_chain, (lk_mk _ _ Hlk), H7. intros [Hx Hne] Hmx.
    destruct (decide (x = n)) as [->|Hxn]; [|right; split_and!; [done|done|congruence]]. left. apply Hin in Hx.
    rewrite decide_False; [done|]. intros ->. apply Hne. split; [done|lia].
  - by apply balanced_same.
Qed.
End writes.
End keys.

(** * The concurrent skip set: executions

    Calls, returns and the initial state; every execution is simulated by the
    atomic set. *)

Section keys.
Context {K C : Type} `{CC : Countable C} {HK : SkipKey K C}.
#[local] Abbreviation int64Node := (@int64Node K).
#[local] Abbreviation Int64Set := (@Int64Set K).
#[local] Abbreviation op := (@op K).
#[local] Abbreviation finder := (@finder K).
#[local] Abbreviation work := (@work K).
#[local] Abbreviation pc := (@pc K).
#[local] Abbreviation config := (@config K).
Implicit Types (s : Int64Set) (c : config) (w : work) (o : op).

(** ** Every step of a goroutine *)

Lemma thread_progresses g c t : Inv g c → progresses g c t.
Proof.
  intros HI. destruct (threads c t) eqn:Ht; try (left; by rewrite Ht).
  - by eapply step_RandLoad.
  - by eapply step_RandCas.
  - by eapply step_FindStart.
  - by eapply step_FindLoad.
  - by eapply step_AddFound.
  - by eapply step_AddWait.
  - by eapply step_HasFlags.
  - by eapply step_RemFlags.
  - by eapply step_RemLock.
  - by eapply step_RemMarked.
  - by eapply step_RemUnlock.
  - by eapply step_RemMark.
  - by eapply step_LockPred.
  - by eapply step_CheckPred.
  - by eapply step_CheckSucc.
  - by eapply step_CheckNext.
  - by eapply step_AddNew.
  - by eapply step_AddInit.
  - by eapply step_AddLink.
  - by eapply step_AddFull.
  - by eapply step_UnlinkLoad.
  - by eapply step_UnlinkStore.
  - by eapply step_UnlockNode.
  - by eapply step_UnlockPred.
  - by eapply step_LenAdd.
Qed.

(** ** Calls *)

Section call.
Context (g : ghost) (c : config) (t : nat) (o : op) (k : nat).
Context (HI : Inv g c) (Ht : threads c t = Idle).
Local Abbreviation s := (shared c).

Definition called : ghost :=
  mkGhost (chain g) (λ u x j, if decide (u = t) then x ∈ 0 :: chain g j ∧ j < maxLevel else recent g u x j)
    (λ u b, if decide (u = t) then Bool.eqb b (bool_decide (rank (okey o) ∈ elems s)) else seen g u b).

Lemma called_recent u x j : recent called u x j ↔ if decide (u = t) then x ∈ 0 :: chain g j ∧ j < maxLevel else recent g u x j.
Proof using. done. Qed.

Lemma called_new : ghost_inv called s t (rank (okey o)).
Proof using HI.
  pose proof (inv_shared _ _ HI) as Hs.
  assert (Hr : ∀ x j, recent called t x j ↔ x ∈ 0 :: chain g j ∧ j < maxLevel) by (intros; rewrite called_recent; by rewrite decide_True).
  split.
  - simpl. rewrite decide_True by done. apply eqb_reflx.
  - intros x j Hl Hj. by apply Hr.
  - intros x j [? _]%Hr. by left.
  - intros x j [[->|Hx]%elem_of_cons Hj]%Hr; [|by apply (si_mem _ _ Hs)]. destruct (si_header _ _ Hs) as (? & -> & _). done.
  - intros x j y [Hx Hj]%Hr Hy. destruct (next_mem _ _ Hs x j y Hx Hy) as [? ?]. split; [|done]. apply Hr. split; [by right|done].
  - intros x j [[->|Hx]%elem_of_cons Hj]%Hr; apply Hr; (split; [|lia]); [by left|right; by apply (si_sub _ _ Hs)].
  - intros x j n [Hx Hj]%Hr (_ & Hl & Hv) Hb Hjl. apply (mem_reach _ _ Hs); [done|by apply (si_live _ _ Hs)|].
    apply before_nlt; [by rewrite Hv|apply Hl].
  - intros x j n [[->|Hx]%elem_of_cons Hj]%Hr H0 Hv (_ & Hl & Hvn); [done|].
    eapply (mem_unique _ _ Hs); [done|by apply (live_mem _ _ Hs)|congruence].
Qed.

Lemma effect_chain g1 s1 g2 g2' s2 l (w : nat → Prop) : chain g2' = chain g2 → effect g1 s1 g2 s2 l w → effect g1 s1 g2' s2 l w.
Proof using.
  intros Hc [E1 E2 E3 E4 E5 E6 E7 E8 E9 E10 E11 E12]. unfold linked in *. split; unfold linked; rewrite ?Hc; try done.
Qed.

Lemma randomLevel_ok : 1 <= randomLevel k <= maxLevel.
Proof using. unfold randomLevel. destruct (Nat.ltb_spec maxLevel (1 + k)); unfold maxLevel in *; lia. Qed.

Lemma call_facts : let p' := start o k in
  thread_inv called s t p' ∧ target p' = tkey (okey o) ∧ owned p' = None ∧ phase_of p' = PPending o ∧ (debt p' = 0%Z ∧ dying p' = None) ∧
  ∀ x, ¬ held p' x.
Proof using. destruct o as [v|v|v]; simpl; split_and!; try tauto; try apply randomLevel_ok; by destruct (ordered v). Qed.

Lemma call_Inv : Inv called (mkConfig s (<[t := start o k]> (threads c))).
Proof using HI Ht.
  pose proof (inv_shared _ _ HI) as Hs. destruct call_facts as (H1 & H2 & H3 & H4 & [H6 H7] & H5).
  apply (set_Inv_step g c t called s _ HI); try done.
  - eapply effect_weaken; [| |eapply effect_chain; [|apply (quiet_effect g s s Hs)]]; try done. by apply Hs.
  - intros u v Hu. assert (Hne : u ≠ t) by (intros ->; by rewrite Ht in Hu). pose proof (inv_ghost _ _ HI u v Hu) as Hg. split.
    + intros x j. rewrite called_recent, decide_False by done. split; [by left|]. intros [|[? ?]]; [done|by apply Hg].
    + intros b. simpl. rewrite decide_False by done. split; [by left|]. intros [|Hb]; [done|]. rewrite Hb. apply Hg.
  - intros v. rewrite H2. unfold tkey. destruct (ordered _); [|done]. intros [= <-]. apply called_new.
  - intros x u. case_decide as Hu; [|done]. subst u. rewrite (inv_locks _ _ HI), Ht. simpl. split; [done|]. intros []%H5.
  - intros n. by rewrite H3.
  - apply accounted_like; [done|]. by rewrite H3, Ht.
  - apply buries_same; [done|]. by rewrite H7, Ht.
  - apply balanced_same; try done. by rewrite H6, Ht.
Qed.

Lemma call_back a' : abs called (mkConfig s (<[t := start o k]> (threads c))) a' →
  ∃ a a1, abs g c a ∧ same a' a1 ∧ exec (astep apply_op) a [Call t o] a1.
Proof using HI Ht.
  destruct call_facts as (_ & _ & _ & H4 & _ & _). intros [Hc Hst]. simpl in *.
  set (a := mkAbs (elems s) (<[t := SIdle]> (statuses a'))). set (b := mkAbs (elems s) (<[t := SPending o]> (statuses a'))).
  assert (Hab : astep apply_op a (Some (Call t o)) b).
  { apply astep_call; [|done]. split_and!; simpl; [apply fn_lookup_insert|apply fn_lookup_insert|].
    intros u Hu. by rewrite !fn_lookup_insert_ne. }
  pose proof (Hst t) as Htt. rewrite fn_lookup_insert in Htt. unfold match_status in Htt. rewrite H4 in Htt.
  exists a, a'. split_and!; [|done|].
  - split; [done|]. intros u. simpl. destruct (decide (u = t)) as [->|Hne]; [by rewrite fn_lookup_insert, Ht|].
    rewrite fn_lookup_insert_ne by done. specialize (Hst u). rewrite fn_lookup_insert_ne in Hst by done.
    unfold match_status in *. destruct (phase_of (threads c u)) as [|ou|]; try done.
    destruct Hst as [|(r & Hr & Hd)]; [by left|right]. exists r. split; [|done]. eapply looked_mono; [|exact Hr].
    intros _ b'. simpl. by rewrite decide_False.
  - assert (Hsame : ∀ u, u ≠ t → statuses a' u = statuses b u) by (intros u Hu; simpl; by rewrite fn_lookup_insert_ne).
    destruct Htt as [Hp|(r & Hr & Hd)].
    + apply (exec_one (astep apply_op) a (Some (Call t o))). apply astep_call; [|done]. split_and!; simpl; [apply fn_lookup_insert|done|].
      intros u Hu. by rewrite fn_lookup_insert_ne.
    + eapply exec_label; [exact Hab|]. eapply exec_inner; [|constructor].
      eapply (astep_apply _ b a' t o r); [split_and!; [simpl; apply fn_lookup_insert|done|done]|]. rewrite Hc.
      symmetry. eapply looks_now; [|exact Hr]. intros b'. simpl. rewrite decide_True by done. apply eqb_prop.
Qed.

Lemma set_call_step : simulated g c (Some (Call t o)) called (mkConfig s (<[t := start o k]> (threads c))).
Proof using HI Ht. split; [apply call_Inv|]. intros a'. apply call_back. Qed.
End call.

(** ** Returns *)

Lemma set_return_step g c t r : Inv g c → threads c t = Returned r →
  simulated g c (Some (Return t r)) g (mkConfig (shared c) (<[t := Idle]> (threads c))).
Proof.
  intros HI Ht. pose proof (inv_shared _ _ HI) as Hs. split.
  - apply (set_Inv_step g c t g _ _ HI); try done.
    + eapply effect_weaken; [| |apply quiet_effect]; try done. apply Hs.
    + by apply observes_all.
    + intros x u. case_decide as Hu; [|done]. subst u. by rewrite (inv_locks _ _ HI), Ht.
    + apply accounted_like; [done|]. by rewrite Ht.
    + apply buries_same; [done|]. by rewrite Ht.
    + apply balanced_same; try done. by rewrite Ht.
  - intros a' [Hc Hst]. simpl in *. exists (mkAbs (elems (shared c)) (<[t := SDone r]> (statuses a'))), a'. split_and!; [|done|].
    + split; [done|]. intros u. simpl. destruct (decide (u = t)) as [->|Hne]; [by rewrite fn_lookup_insert, Ht|].
      rewrite fn_lookup_insert_ne by done. specialize (Hst u). by rewrite fn_lookup_insert_ne in Hst.
    + apply (exec_one (astep apply_op) _ (Some (Return t r))). pose proof (Hst t) as Htt. rewrite fn_lookup_insert in Htt.
      apply astep_return; [|done]. split_and!; simpl; [apply fn_lookup_insert|done|]. intros u Hu. by rewrite fn_lookup_insert_ne.
Qed.

(** ** Executions *)

Lemma set_step_simulated g c lb c' : Inv g c → step c lb c' → ∃ g', simulated g c lb g' c'.
Proof.
  intros HI Hst. destruct Hst as [c t o k Ht|c t s p Hp|c t Hp|c t r Ht].
  - eexists. by apply set_call_step.
  - destruct (thread_progresses g c t HI) as [Hb|(s' & p' & g' & Hgo & Hsim)]; [congruence|].
    rewrite Hp in Hgo. injection Hgo as -> ->. by exists g'.
  - destruct (thread_progresses g c t HI) as [Hb|(s' & p' & g' & Hgo & Hsim)]; congruence.
  - eexists. by apply set_return_step.
Qed.

Lemma set_exec_simulated g c ls c' : Inv g c → exec step c ls c' →
  ∃ g', Inv g' c' ∧ ∀ a', abs g' c' a' → ∃ a a1, abs g c a ∧ same a' a1 ∧ exec (astep apply_op) a ls a1.
Proof.
  intros HI Hex. revert g HI. induction Hex as [c|c c1 ls c' Hst Hex IH|c l c1 ls c' Hst Hex IH]; intros g HI.
  - exists g. split; [done|]. intros a' Ha. exists a', a'. split_and!; [done|done|constructor].
  - destruct (set_step_simulated g c None c1 HI Hst) as (g1 & HI1 & Hb1). destruct (IH g1 HI1) as (g' & HI' & Hb).
    exists g'. split; [done|]. intros a' Ha. destruct (Hb a' Ha) as (b & b1 & Habs & Hs1 & He1).
    destruct (Hb1 b Habs) as (a & a1 & Ha1 & Hs2 & He2). destruct (exec_same _ _ _ _ _ Hs2 He1) as (b2 & Hs3 & He3).
    exists a, b2. split_and!; [done| |by eapply (exec_app _ _ [])]. destruct Hs1, Hs3. split; congruence.
  - destruct (set_step_simulated g c (Some l) c1 HI Hst) as (g1 & HI1 & Hb1). destruct (IH g1 HI1) as (g' & HI' & Hb).
    exists g'. split; [done|]. intros a' Ha. destruct (Hb a' Ha) as (b & b1 & Habs & Hs1 & He1).
    destruct (Hb1 b Habs) as (a & a1 & Ha1 & Hs2 & He2). destruct (exec_same _ _ _ _ _ Hs2 He1) as (b2 & Hs3 & He3).
    exists a, b2. split_and!; [done| |by eapply (exec_app _ _ [l])]. destruct Hs1, Hs3. split; congruence.
Qed.

(** ** The initial state *)

Definition ghost0 : ghost := mkGhost (λ _, []) (λ _ _ _, False) (λ _ _, false).

Lemma node0 x : alloc (NewInt64 : Int64Set) x → x = 0.
Proof. unfold alloc. simpl. lia. Qed.

Lemma shared_initial : shared_inv (λ _, []) NewInt64.
Proof.
  split; try done.
  - intros x ->%node0. unfold node_ok. simpl. unfold maxLevel. split_and!; try done; lia.
  - split_and!; try done. unfold alloc. simpl. lia.
  - simpl. unfold defaultHighestLevel, maxLevel. lia.
  - intros x ->%node0. done.
  - intros j i x. destruct i; [|done]. intros [= <-]. simpl. unfold nxt, load. simpl.
    do 16 (destruct j as [|j]; [done|]). done.
  - intros j. repeat constructor.
  - by intros j x ?%not_elem_of_nil.
  - intros x j (->%node0 & ? & _). done.
  - intros x. destruct (decide (x = 0)) as [->|Hx]; [done|]. rewrite unalloc_mk; [done|]. by intros ?%node0.
  - intros x ->%node0. done.
Qed.

Lemma set_Inv_initial : Inv ghost0 initial.
Proof.
  split; try done.
  - apply shared_initial.
  - intros x t. simpl. split; [|done]. destruct (decide (x = 0)) as [->|Hx]; [done|]. rewrite unalloc_own; [done|]. by intros ?%node0.
  - intros x ->%node0. done.
  - by intros x j ?%not_elem_of_nil.
  - exists 0. split; [done|]. exists 0%Z. by vm_compute.
Qed.

Definition reachable (c : config) : Prop := ∃ ls, exec step initial ls c.

Lemma reachable_Inv c : reachable c → ∃ g, Inv g c.
Proof. intros [ls Hex]. destruct (set_exec_simulated _ _ _ _ set_Inv_initial Hex) as (g & HI & _). by exists g. Qed.

Lemma set_abs_exists g c : ∃ a, abs g c a.
Proof.
  exists (mkAbs (elems (shared c)) (λ t, match phase_of (threads c t) with PIdle => SIdle | PPending o => SPending o | PDone r => SDone r end)).
  split; [done|]. intros t. simpl. unfold match_status. destruct (phase_of (threads c t)); [done|by left|done].
Qed.

Lemma set_abs_initial a : abs ghost0 initial a → ainitial a.
Proof. intros [Hc Hst]. split; [done|]. intros t. exact (Hst t). Qed.
End keys.
