(* ===== verification/SkipSetKeys.v ===== *)
(** * The sets of the concurrent skip set

    Model of src/structure/skipset/types.go: the sets of the other types of
    values, in ascending and in descending order.  Each is the code of
    skipset.go with another type of values and other comparisons; the sets of
    floating-point numbers refuse NaN, and the set of strings compares the
    hashes of the strings first. *)

From stdpp Require Import functions lexico.
From S2P Require Import Prelude GoFloat Wyhash Atomic SkipSet.

(** ** Integers *)

#[refine] Definition ascending : SkipKey Z Z := {|
  vlt := Z.ltb; veq := Z.eqb; zero := 0%Z; rank := id; clt := Z.lt
|}.
Proof.
  - intros a b. destruct (Z.lt_trichotomy a b) as [?|[?|?]]; auto.
  - intros a b. rewrite !Z.eqb_refl. simpl. apply eq_true_iff_eq. by rewrite Z.ltb_lt, bool_decide_eq_true.
  - intros a b. rewrite !Z.eqb_refl. simpl. apply eq_true_iff_eq. by rewrite Z.eqb_eq, bool_decide_eq_true.
Defined.

(** In descending order the code compares with [>]. *)
#[refine] Definition descending_of {K C} `{Countable C} (HK : SkipKey K C) : SkipKey K C := {|
  vlt a b := vlt b a; veq := veq; zero := zero; rank := rank; clt := flip (clt (SkipKey := HK))
|}.
Proof.
  - intros a b. destruct (trichotomy clt a b) as [?|[?|?]]; auto.
  - intros a b. rewrite vlt_rank. by rewrite (andb_comm (veq b b)).
  - apply veq_rank.
Defined.

(** ** Floating-point numbers

    NaN is not equal to itself. *)

(** A float32 is compared as the float64 of the same value. *)
Abbreviation float32 := float64.

Lemma klt_lexico a b : klt a b ↔ lexico a b.
Proof.
  destruct a as [[a1 a2] a3], b as [[b1 b2] b3]. unfold lexico, prod_lexico, lexico, prod_lexico, lexico, Z_lexico. simpl.
  rewrite pair_equal_spec. lia.
Qed.

Lemma feq_self x : feq x x = negb (isNaN x).
Proof. destruct (isNaN x) eqn:Hx; [by destruct x|by apply feq_refl]. Qed.

#[refine] Definition floats : SkipKey float64 (Z * Z * Z) := {|
  vlt := flt; veq := feq; zero := f64_zero; rank := fkey; clt := lexico
|}.
Proof.
  - intros a b. rewrite !feq_self. destruct (isNaN a) eqn:Ha, (isNaN b) eqn:Hb; simpl;
      try (apply not_true_is_false; intros [? ?]%flt_nn; congruence).
    apply eq_true_iff_eq. by rewrite bool_decide_eq_true, <- klt_lexico, flt_key.
  - intros a b. rewrite !feq_self. destruct (isNaN a) eqn:Ha, (isNaN b) eqn:Hb; simpl;
      try (apply not_true_is_false; intros [? ?]%feq_nn; congruence).
    apply eq_true_iff_eq. by rewrite bool_decide_eq_true, feq_key.
Defined.

(** ** Strings *)

Section strings.
(** Whether the machine is big-endian, on which the hash depends. *)
Context (big : bool).

(** Every string has a hash: [None] does not occur. *)
Definition hash (s : bytes) : Z := default 0%Z (Sum64String big s).

Lemma hash_ok s : Sum64String big s = Some (hash s).
Proof using. unfold hash, Sum64String. by destruct (Sum64String_total big s DefaultSeed) as [h ->]. Qed.

(** runtime.cmpstring. *)
Fixpoint cmpstring (a b : bytes) : Z :=
  (match a, b with
  | [], [] => 0
  | [], _ :: _ => -1
  | _ :: _, [] => 1
  | x :: a, y :: b => if x <? y then -1 else if y <? x then 1 else cmpstring a b
  end)%Z.

(** The method [cmp] of the node of [a] on the hash of [b] and [b]. *)
Definition cmp (a b : bytes) : Z :=
  (if hash b <? hash a then 1 else if hash a =? hash b then cmpstring a b else -1)%Z.

Lemma cmpstring_spec a b :
  ((cmpstring a b < 0)%Z ↔ lexico a b) ∧ (cmpstring a b = 0%Z ↔ a = b).
Proof using.
  revert b. induction a as [|x a IH]; intros [|y b]; simpl; try (split; split; (done || lia || (by intros []))).
  specialize (IH b) as [IHl IHe]. unfold lexico, list_lexico, lexico, prod_lexico. fold (@list_lexico Z _). simpl.
  change (lexico x y) with (x < y)%Z. destruct (Z.ltb_spec x y) as [H|H]; [|destruct (Z.ltb_spec y x) as [H'|H']].
  - split; split; intros Hc; try lia; try (by left). injection Hc as -> _. lia.
  - split; split; intros Hc; try lia; try (destruct Hc as [|[-> _]]; lia). injection Hc as -> _. lia.
  - assert (x = y) as -> by lia. split.
    + rewrite IHl. split; [by right|]. intros [?|[_ ?]]; [lia|done].
    + rewrite IHe. split; [by intros ->|]. by intros [= ->].
Qed.

Lemma cmp_spec a b :
  ((cmp a b < 0)%Z ↔ lexico (hash a, a) (hash b, b)) ∧ (cmp a b = 0%Z ↔ a = b).
Proof using.
  unfold cmp, lexico, prod_lexico. simpl. change (lexico (hash a) (hash b)) with (hash a < hash b)%Z.
  destruct (cmpstring_spec a b) as [Hl He]. destruct (Z.ltb_spec (hash b) (hash a)) as [H|H].
  - split; split; intros Hc; try lia. subst. lia.
  - destruct (Z.eqb_spec (hash a) (hash b)) as [H'|H'].
    + rewrite Hl, He. split; [|done]. split; [by right|]. intros [?|[_ ?]]; [lia|done].
    + split; split; intros Hc; try lia; by subst.
Qed.

Lemma cmp_self a : (cmp a a =? 0)%Z = true.
Proof using. apply Z.eqb_eq. by apply cmp_spec. Qed.

#[refine] Definition hashed : SkipKey bytes (Z * list Z) := {|
  vlt a b := (cmp a b <? 0)%Z; veq a b := (cmp a b =? 0)%Z; zero := []; rank s := (hash s, s); clt := lexico
|}.
Proof using big.
  - intros a b. rewrite !cmp_self. simpl. apply eq_true_iff_eq.
    rewrite Z.ltb_lt, bool_decide_eq_true. apply cmp_spec.
  - intros a b. rewrite !cmp_self. simpl. apply eq_true_iff_eq.
    rewrite Z.eqb_eq, bool_decide_eq_true. rewrite (proj2 (cmp_spec a b)). split; [by intros ->|]. by intros [= _ ->].
Defined.
End strings.

(** ** The sets

    What a set type consists of: its nodes with their comparisons and the
    searches; the methods as programs of atomic steps. *)

Record nodes_of (K : Type) := mkNodes {
  new_node : K → nat → @int64Node K;
  node_lessthan : @int64Node K → K → bool;
  node_equal : @int64Node K → K → bool;
  new_set : @Int64Set K;
  find_node : @Int64Set K → @finder K → nat → nat → array → array → option nat → option (@pc K)
}.

Record methods_of (K : Type) := mkMethods {
  unlock : @work K → array → array → nat → option nat → bool → @pc K;
  call : @op K → nat → @pc K;
  perform : nat → @Int64Set K → @pc K → @outcome K;
  iterate A : @Int64Set K → (A → K → A * bool) → A → option A;
  count : @Int64Set K → Z
}.

Definition nodes_at {K C} `{Countable C} (HK : SkipKey K C) : nodes_of K :=
  mkNodes K newInt64Node lessthan equal NewInt64 search.
Definition methods_at {K C} `{Countable C} (HK : SkipKey K C) : methods_of K :=
  mkMethods K unlockInt64 start thread_step (@Range K) Len.

Definition descending : SkipKey Z Z := descending_of ascending.
Definition floats_desc : SkipKey float64 (Z * Z * Z) := descending_of floats.

Definition ByteSet_nodes : nodes_of Z := nodes_at ascending.
Definition ByteSet : methods_of Z := methods_at ascending.
Definition ByteSetDesc_nodes : nodes_of Z := nodes_at descending.
Definition ByteSetDesc : methods_of Z := methods_at descending.
Definition Float32Set_nodes : nodes_of float32 := nodes_at floats.
Definition Float32Set : methods_of float32 := methods_at floats.
Definition Float32SetDesc_nodes : nodes_of float32 := nodes_at floats_desc.
Definition Float32SetDesc : methods_of float32 := methods_at floats_desc.
Definition Float64Set_nodes : nodes_of float64 := nodes_at floats.
Definition Float64Set : methods_of float64 := methods_at floats.
Definition Float64SetDesc_nodes : nodes_of float64 := nodes_at floats_desc.
Definition Float64SetDesc : methods_of float64 := methods_at floats_desc.
Definition IntSet_nodes : nodes_of Z := nodes_at ascending.
Definition IntSet : methods_of Z := methods_at ascending.
Definition IntSetDesc_nodes : nodes_of Z := nodes_at descending.
Definition IntSetDesc : methods_of Z := methods_at descending.
Definition Int8Set_nodes : nodes_of Z := nodes_at ascending.
Definition Int8Set : methods_of Z := methods_at ascending.
Definition Int8SetDesc_nodes : nodes_of Z := nodes_at descending.
Definition Int8SetDesc : methods_of Z := methods_at descending.
Definition Int16Set_nodes : nodes_of Z := nodes_at ascending.
Definition Int16Set : methods_of Z := methods_at ascending.
Definition Int16SetDesc_nodes : nodes_of Z := nodes_at descending.
Definition Int16SetDesc : methods_of Z := methods_at descending.
Definition Int32Set_nodes : nodes_of Z := nodes_at ascending.
Definition Int32Set : methods_of Z := methods_at ascending.
Definition Int32SetDesc_nodes : nodes_of Z := nodes_at descending.
Definition Int32SetDesc : methods_of Z := methods_at descending.
Definition RuneSet_nodes : nodes_of Z := nodes_at ascending.
Definition RuneSet : methods_of Z := methods_at ascending.
Definition RuneSetDesc_nodes : nodes_of Z := nodes_at descending.
Definition RuneSetDesc : methods_of Z := methods_at descending.
Definition UintSet_nodes : nodes_of Z := nodes_at ascending.
Definition UintSet : methods_of Z := methods_at ascending.
Definition UintSetDesc_nodes : nodes_of Z := nodes_at descending.
Definition UintSetDesc : methods_of Z := methods_at descending.
Definition Uint8Set_nodes : nodes_of Z := nodes_at ascending.
Definition Uint8Set : methods_of Z := methods_at ascending.
Definition Uint8SetDesc_nodes : nodes_of Z := nodes_at descending.
Definition Uint8SetDesc : methods_of Z := methods_at descending.
Definition Uint16Set_nodes : nodes_of Z := nodes_at ascending.
Definition Uint16Set : methods_of Z := methods_at ascending.
Definition Uint16SetDesc_nodes : nodes_of Z := nodes_at descending.
Definition Uint16SetDesc : methods_of Z := methods_at descending.
Definition Uint32Set_nodes : nodes_of Z := nodes_at ascending.
Definition Uint32Set : methods_of Z := methods_at ascending.
Definition Uint32SetDesc_nodes : nodes_of Z := nodes_at descending.
Definition Uint32SetDesc : methods_of Z := methods_at descending.
Definition Uint64Set_nodes : nodes_of Z := nodes_at ascending.
Definition Uint64Set : methods_of Z := methods_at ascending.
Definition Uint64SetDesc_nodes : nodes_of Z := nodes_at descending.
Definition Uint64SetDesc : methods_of Z := methods_at descending.
Definition UintptrSet_nodes : nodes_of Z := nodes_at ascending.
Definition UintptrSet : methods_of Z := methods_at ascending.
Definition UintptrSetDesc_nodes : nodes_of Z := nodes_at descending.
Definition UintptrSetDesc : methods_of Z := methods_at descending.
Definition StringSet_nodes (big : bool) : nodes_of bytes := nodes_at (hashed big).
Definition StringSet (big : bool) : methods_of bytes := methods_at (hashed big).

(** A set type, and all of them, that of skipset.go first. *)
Record goset := mkGoset { of_values : Type; of_nodes : nodes_of of_values; of_methods : methods_of of_values }.

Definition types_go (big : bool) : list goset :=
  [mkGoset Z (nodes_at ascending) (methods_at ascending); mkGoset Z ByteSet_nodes ByteSet;
   mkGoset Z ByteSetDesc_nodes ByteSetDesc; mkGoset float32 Float32Set_nodes Float32Set;
   mkGoset float32 Float32SetDesc_nodes Float32SetDesc; mkGoset float64 Float64Set_nodes Float64Set;
   mkGoset float64 Float64SetDesc_nodes Float64SetDesc; mkGoset Z IntSet_nodes IntSet;
   mkGoset Z IntSetDesc_nodes IntSetDesc; mkGoset Z Int8Set_nodes Int8Set;
   mkGoset Z Int8SetDesc_nodes Int8SetDesc; mkGoset Z Int16Set_nodes Int16Set;
   mkGoset Z Int16SetDesc_nodes Int16SetDesc; mkGoset Z Int32Set_nodes Int32Set;
   mkGoset Z Int32SetDesc_nodes Int32SetDesc; mkGoset Z RuneSet_nodes RuneSet;
   mkGoset Z RuneSetDesc_nodes RuneSetDesc; mkGoset Z UintSet_nodes UintSet;
   mkGoset Z UintSetDesc_nodes UintSetDesc; mkGoset Z Uint8Set_nodes Uint8Set;
   mkGoset Z Uint8SetDesc_nodes Uint8SetDesc; mkGoset Z Uint16Set_nodes Uint16Set;
   mkGoset Z Uint16SetDesc_nodes Uint16SetDesc; mkGoset Z Uint32Set_nodes Uint32Set;
   mkGoset Z Uint32SetDesc_nodes Uint32SetDesc; mkGoset Z Uint64Set_nodes Uint64Set;
   mkGoset Z Uint64SetDesc_nodes Uint64SetDesc; mkGoset Z UintptrSet_nodes UintptrSet;
   mkGoset Z UintptrSetDesc_nodes UintptrSetDesc; mkGoset bytes (StringSet_nodes big) (StringSet big)].

(** Interleavings of the methods of a set type. *)
Section interleavings.
Context (S : goset).

Definition started : config := mkConfig (new_set _ (of_nodes S)) (λ _, Idle).

Inductive interleaves : config → option (label op bool) → config → Prop :=
  | interleaves_call c t o k :
      threads c t = Idle →
      interleaves c (Some (Call t o)) (mkConfig (shared c) (<[t := call _ (of_methods S) o k]> (threads c)))
  | interleaves_inner c t s p :
      perform _ (of_methods S) t (shared c) (threads c t) = Go s p →
      interleaves c None (mkConfig s (<[t := p]> (threads c)))
  | interleaves_panic c t :
      perform _ (of_methods S) t (shared c) (threads c t) = Panics → interleaves c (Some (Panic t)) c
  | interleaves_return c t r :
      threads c t = Returned r → interleaves c (Some (Return t r)) (mkConfig (shared c) (<[t := Idle]> (threads c))).
End interleavings.
