(* ===== verification/SkipSetProps.v ===== *)
(** * The concurrent skip set: the properties

    Linearizability, absence of deadlock, and what [Range] and [Len] report. *)

From stdpp Require Import functions sorting.
From Stdlib Require SpecFloat.
From S2P Require Import Prelude Atomic SkipSet SkipSetInv SkipSetHeap SkipSetMoves SkipSetSteps SkipSetLin SkipSetThms SkipSetKeys.

Section keys.
Context {K C : Type} `{CC : Countable C} {HK : SkipKey K C}.
#[local] Abbreviation int64Node := (@int64Node K).
#[local] Abbreviation Int64Set := (@Int64Set K).
#[local] Abbreviation op := (@op K).
#[local] Abbreviation finder := (@finder K).
#[local] Abbreviation work := (@work K).
#[local] Abbreviation pc := (@pc K).
#[local] Abbreviation config := (@config K).
Implicit Types (s : Int64Set) (c : config).

(** ** Waiting *)

(** A goroutine that finds its value in a node not yet linked turns in a loop. *)
Definition spins (p p' : pc) : Prop := ∃ v n, p = AddWait v n ∧ p' = AddWait v n.

Definition moves_on (c : config) (u : nat) : Prop :=
  (∃ r, threads c u = Returned r) ∨
  ∃ s' p', thread_step u (shared c) (threads c u) = Go s' p' ∧ ¬ spins (threads c u) p'.

(** The lock a goroutine waits for. *)
Definition wants (p : pc) : option nat :=
  match p with RemLock _ _ n _ _ => Some n | LockPred _ P _ k _ => read P k | _ => None end.

Section waiting.
Context (g : ghost) (c : config) (HI : Inv g c).
Local Abbreviation s := (shared c).

Lemma goes_blocked (o : option (Int64Set * pc)) : goes o ≠ Blocked.
Proof using. by destruct o as [[]|]. Qed.

Lemma Lock_blocked t x p : Lock t s x p = Blocked → ∃ u, own s x = Some u.
Proof using.
  unfold Lock. destruct (nodes s !! x) as [n|] eqn:Hn; [|done]. destruct (mu n) as [u|] eqn:Hm; [|done]. intros _.
  exists u. unfold own, node_at. by rewrite Hn.
Qed.

Lemma blocked_wants t : thread_step t s (threads c t) = Blocked → threads c t ≠ Idle → (∀ r, threads c t ≠ Returned r) →
  ∃ x u, wants (threads c t) = Some x ∧ own s x = Some u.
Proof using.
  intros Hb H0 Hr. destruct (threads c t) eqn:Ht; cbn [thread_step] in Hb; try done; try by apply goes_blocked in Hb.
  - by destruct (negb _).
  - by destruct (decide _).
  - apply Lock_blocked in Hb as [u Hu]. by exists n, u.
  - simpl. destruct (read P k) as [q|]; [|done]. apply Lock_blocked in Hb as [u Hu]. by exists q, u.
  - by destruct (Hr r).
Qed.

(** One that holds a lock moves on or waits for a lock further to the front. *)
Lemma holder_wants u x : held (threads c u) x → moves_on c u ∨
  ∃ y w, wants (threads c u) = Some y ∧ own s y = Some w ∧ nlt s y x.
Proof using HI.
  intros Hx. destruct (thread_progresses g c u HI) as [Hb|(s' & p' & g' & Hgo & _)].
  - right. destruct (blocked_wants u Hb) as (y & w & Hy & Hw); [by intros Hi; rewrite Hi in Hx|by intros r Hi; rewrite Hi in Hx|].
    exists y, w. split_and!; try done. destruct (threads c u) as [| | | | | | | | | | | | |wk P Q k hi| | | | | | | | | | | | |] eqn:Hu; try done.
    pose proof (inv_thread _ _ HI u) as Hti. rewrite Hu in Hti. destruct Hti as ((Hwi & Hse & Hde & _) & Hk & _ & Hne).
    simpl in Hy, Hx. unfold read in Hy. destruct (k <? maxLevel); [|done].
    destruct Hx as [(j & Hj & Hjx)|Hx].
    + assert (Hlt : nlt s y x ∨ y = x).
      { destruct (Hde j k x y) as [->|]; [lia|lia|lia|done|done|by right|by left]. }
      destruct Hlt as [|Heq]; [done|]. exfalso. destruct Hne as [->|Hne]; [lia|]. destruct (decide (j = k - 1)) as [Hjk|Hjk]; [apply Hne; congruence|].
      destruct (Hse (k - 1)) as (z & Hz & _); [lia|]. subst y.
      destruct (Hde j (k - 1) x z) as [Hzx|Hzx]; [lia|lia|lia|done|done|congruence|].
      destruct (Hde (k - 1) k z x) as [Hxz|Hxz]; [lia|lia|lia|done|done|congruence|].
      apply (nlt_irrefl s x). by eapply nlt_trans.
    + destruct wk as [|v n top]; [done|]. simpl in Hx. subst n. destruct Hwi as [_ [(_ & H0 & Hv & _) _]].
      destruct (Hse k) as (z & Hz & _ & Hb' & _); [simpl in *; lia|]. simpl in Hb'. simplify_eq. apply before_nlt; [by rewrite Hv|done].
  - left. right. exists s', p'. split; [done|]. intros (v & n & Hp & _). by rewrite Hp in Hx.
Qed.

#[local] Instance nlt_dec x y : Decision (nlt s x y).
Proof using. unfold nlt. apply _. Defined.

Definition depth (x : nat) : nat := length (filter (λ y, nlt s y x) (seq 0 (length (nodes s)))).

Lemma depth_lt y x : alloc s y → nlt s y x → depth y < depth x.
Proof using.
  intros Ha Hlt. unfold depth. assert (Hin : y ∈ seq 0 (length (nodes s))) by (apply elem_of_seq; unfold alloc in Ha; lia).
  revert Hin. generalize (seq 0 (length (nodes s))). induction l as [|z l IH]; [by intros ?%not_elem_of_nil|].
  assert (Hle : ∀ l, length (filter (λ z, nlt s z y) l) <= length (filter (λ z, nlt s z x) l)).
  { clear IH. induction l0 as [|z' l0 IH]; [done|]. rewrite !filter_cons.
    destruct (decide (nlt s z' y)), (decide (nlt s z' x)) as [|Hno]; simpl; try lia. destruct Hno. by eapply nlt_trans. }
  rewrite !filter_cons. intros [->|Hin]%elem_of_cons.
  - rewrite decide_False by apply nlt_irrefl. rewrite decide_True by done. simpl. specialize (Hle l). lia.
  - specialize (IH Hin). destruct (decide (nlt s z y)), (decide (nlt s z x)) as [|Hno]; simpl; try lia.
    destruct Hno. by eapply nlt_trans.
Qed.

Lemma lock_holder_moves n x u : depth x < n → own s x = Some u → ∃ w y, own s y = Some w ∧ moves_on c w.
Proof using HI.
  revert x u. induction n as [|n IH]; intros x u Hn Hu; [lia|]. pose proof Hu as Hh. apply (inv_locks _ _ HI) in Hh.
  destruct (holder_wants u x Hh) as [|(y & w & Hy & Hw & Hlt)]; [by exists u, x|]. apply (IH y w); [|done].
  assert (Ha : alloc s y) by (apply (inv_locks _ _ HI) in Hw; by apply (held_alloc g c HI w)). pose proof (depth_lt y x Ha Hlt). lia.
Qed.

Lemma lock_moves x u : own s x = Some u → ∃ w, moves_on c w.
Proof using HI. intros Hu. destruct (lock_holder_moves (S (depth x)) x u) as (w & _ & _ & ?); [lia|done|by exists w]. Qed.

(** A goroutine that links a node has all its locks. *)
Lemma owner_moves u n : owned (threads c u) = Some n → moves_on c u.
Proof using HI.
  intros Hn. right. destruct (thread_progresses g c u HI) as [Hb|(s' & p' & g' & Hgo & _)].
  - exfalso. destruct (threads c u) eqn:Hu; try done; by apply goes_blocked in Hb.
  - exists s', p'. split; [done|]. intros (v & m & Hp & _). by rewrite Hp in Hn.
Qed.

Lemma some_moves t : threads c t ≠ Idle → ∃ u, moves_on c u.
Proof using HI.
  intros H0. destruct (thread_progresses g c t HI) as [Hb|(s' & p' & g' & Hgo & _)].
  - destruct (threads c t) as [| | | | | | | | | | | | | | | | | | | | | | | | | |r] eqn:Ht; try done; try (by exists t; left; exists r);
      (destruct (blocked_wants t) as (y0 & u0 & _ & Hu); [by rewrite Ht|by rewrite Ht|by intros r; rewrite Ht|]);
      (by apply (lock_moves y0 u0)).
  - destruct (threads c t) as [| | | | | |v n| | | | | | | | | | | | | | | | | | | |] eqn:Ht;
      try (exists t; right; exists s', p'; rewrite Ht; split; [done|]; by intros (? & ? & ? & _)).
    destruct (fl s n) eqn:Hf.
    + exists t. right. exists s', p'. rewrite Ht. split; [done|]. intros (v' & n' & _ & ->).
      pose proof (inv_thread _ _ HI t) as Hti. rewrite Ht in Hti. destruct Hti as [(Ha & _) _].
      cbn [thread_step] in Hgo. rewrite lookup_node in Hgo by done. simpl in Hgo. rewrite Get_fullyLinked in Hgo.
      change (Z.testbit _ 0) with (fl s n) in Hgo. by rewrite Hf in Hgo.
    + pose proof (inv_thread _ _ HI t) as Hti. rewrite Ht in Hti. destruct Hti as [(Ha & Hn0 & _) _].
      destruct (inv_fresh _ _ HI n Ha Hn0 Hf) as [u Hu]. exists u. by eapply owner_moves.
Qed.
End waiting.

(** ** Range *)

(** The values [Range] visits, one after the other until the callback stops. *)
Fixpoint visit {A} (f : A → K → A * bool) (acc : A) (l : list K) : A :=
  match l with
  | [] => acc
  | v :: l => let '(acc, go_on) := f acc v in if go_on then visit f acc l else acc
  end.

Section range.
Context (ch : nat → list nat) (s : Int64Set) (Hs : shared_inv ch s).

Definition values (l : list nat) : list K := (λ x, value (node_at s x)) <$> filter (λ x, in_set (node_at s x) = true) l.

Lemma values_cons x l : values (x :: l) = (if in_set (node_at s x) then [value (node_at s x)] else []) ++ values l.
Proof using. unfold values. rewrite filter_cons. destruct (in_set (node_at s x)); [by rewrite decide_True|by rewrite decide_False]. Qed.

Lemma range_from_ok {A} (f : A → K → A * bool) fuel l acc :
  links (λ x, nxt s x 0) l → (∀ x, x ∈ l → alloc s x) → length l <= fuel →
  range_from fuel s (head l) f acc = Some (visit f acc (values l)).
Proof using Hs.
  revert l acc. induction fuel as [|fuel IH]; intros [|x l] acc Hl Ha Hn; simpl in *; try done; try lia.
  destruct Hl as [Hx Hl]. assert (Hax : alloc s x) by (apply Ha; by left). rewrite lookup_node by done. simpl.
  pose proof (si_node _ _ Hs x Hax) as Hok. rewrite load_ok; [|done|destruct Hok as (_ & _ & ?); lia]. simpl.
  change (default None (load (next (node_at s x)) 0)) with (nxt s x 0). rewrite Hx, values_cons.
  change (MGet _ _ _) with (in_set (node_at s x)).
  assert (Hrec : ∀ acc, range_from fuel s (head l) f acc = Some (visit f acc (values l))).
  { intros acc'. apply IH; [done| |lia]. intros y Hy. apply Ha. by right. }
  destruct (in_set (node_at s x)); [|apply Hrec]. simpl.
  destruct (f acc (value (node_at s x))) as [acc' [|]]; [apply Hrec|done].
Qed.

Lemma chain_short : length (ch 0) <= length (nodes s).
Proof using Hs.
  assert (Hnd : NoDup (ch 0)) by (pose proof (si_NoDup _ _ 0 Hs) as H; by apply list.NoDup_cons in H as [_ ?]).
  rewrite <- (length_seq (length (nodes s)) 0). apply submseteq_length, NoDup_submseteq; [done|].
  intros x Hx. apply elem_of_seq. destruct (si_mem _ _ Hs 0 x Hx) as [Ha _]. unfold alloc in Ha. lia.
Qed.

Lemma Range_ok {A} (f : A → K → A * bool) acc : Range s f acc = Some (visit f acc (values (ch 0))).
Proof using Hs.
  unfold Range. destruct (si_header _ _ Hs) as (Ha & Hl & _). unfold header.
  rewrite load_next; [|done|by apply Hs|rewrite Hl; unfold maxLevel; lia]. simpl.
  pose proof (si_links _ _ 0 Hs) as [H0 Hlk]. rewrite H0. apply range_from_ok; [done| |apply chain_short].
  intros x Hx. by apply (si_mem _ _ Hs 0).
Qed.

Lemma values_elem v : v ∈ rank <$> values (ch 0) ↔ v ∈ elems s.
Proof using Hs.
  unfold values. rewrite <- list_fmap_compose, list_elem_of_fmap, elem_of_elems. split.
  - intros (x & -> & [Hin Hx]%list_elem_of_filter). exists x. split; [|done]. rewrite in_set_spec in Hin.
    apply andb_prop in Hin as [Hf Hm%negb_true_iff]. split_and!; try done; [by apply (si_mem _ _ Hs 0)|by eapply (mem_nonzero _ _ Hs)].
  - intros (x & Hx & <-). exists x. split; [done|]. apply list_elem_of_filter. split; [|by apply (live_mem _ _ Hs)].
    rewrite in_set_spec. destruct Hx as (_ & _ & Hf & Hm). unfold fl, mk in *. by rewrite Hf, Hm.
Qed.

Lemma values_ordered v : v ∈ values (ch 0) → veq v v = true.
Proof using Hs.
  unfold values. rewrite list_elem_of_fmap. intros (x & -> & [_ Hx]%list_elem_of_filter).
  apply (si_ordered _ _ Hs); [by apply (si_mem _ _ Hs 0)|by eapply (mem_nonzero _ _ Hs)].
Qed.

Lemma values_sorted : StronglySorted clt (rank <$> values (ch 0)).
Proof using Hs.
  pose proof (si_sorted _ _ Hs 0) as Hso. apply StronglySorted_inv in Hso as [Hso Hnz]. revert Hso Hnz.
  induction (ch 0) as [|x l IH]; [constructor|]. intros Hso Hnz. apply StronglySorted_inv in Hso as [Hso Hx].
  inversion Hnz as [|? ? [H0 _] Hnz']; subst. rewrite values_cons. specialize (IH Hso Hnz').
  destruct (in_set (node_at s x)); [|done]. simpl. constructor; [done|]. apply list.Forall_forall. intros v.
  unfold values. rewrite <- list_fmap_compose, list_elem_of_fmap. intros (y & -> & [_ Hy]%list_elem_of_filter).
  rewrite list.Forall_forall in Hx. by destruct (Hx y Hy) as [_ [->|]].
Qed.

Lemma values_size : length (values (ch 0)) = size (elems s).
Proof using Hs.
  assert (Hnd : NoDup (rank <$> values (ch 0))).
  { pose proof values_sorted as Hso. induction Hso as [|v l Hso IH Hv]; constructor; [|done]. intros Hin.
    rewrite list.Forall_forall in Hv. specialize (Hv v Hin). korder. }
  rewrite <- (length_fmap rank), <- (size_list_to_set (C:=gset C)) by done. f_equal. apply set_eq. intros v. rewrite elem_of_list_to_set. apply values_elem.
Qed.
End range.

(** ** The sets of all types *)

Lemma set_no_panic c t : reachable c → thread_step t (shared c) (threads c t) ≠ Panics.
Proof. intros [g HI]%reachable_Inv. by destruct (thread_progresses g c t HI) as [->|(s' & p' & g' & -> & _)]. Qed.

Lemma interleaves_exec N M ls (c c' : config) : N = nodes_at HK → M = methods_at HK →
  exec (interleaves (mkGoset K N M)) c ls c' ↔ exec step c ls c'.
Proof.
  intros -> ->. assert (Hone : ∀ c lb c', interleaves (mkGoset K (nodes_at HK) (methods_at HK)) c lb c' ↔ step c lb c').
  { intros c1 lb c2. split; intros Hst; destruct Hst.
    1: by apply step_call. 1: by apply step_inner. 1: by apply step_panic. 1: by apply step_return.
    1: by apply (interleaves_call (mkGoset K (nodes_at HK) (methods_at HK))). 1: by apply interleaves_inner.
    1: by apply interleaves_panic. by apply interleaves_return. }
  split; (induction 1; [constructor|eapply exec_inner; [by apply Hone|done]|eapply exec_label; [by apply Hone|done]]).
Qed.

(** ** The properties *)

(** C3: the set is linearizable.  In every interleaving of any number of
    goroutines that add, look up and remove values, with any levels of the new
    nodes, the calls and returns are those of an atomic set in which each
    operation takes effect at one moment between its call and its return, and
    whose contents are the values of the fully linked, unmarked nodes; in
    particular no goroutine follows a nil pointer, indexes out of range or
    releases a lock it does not hold. *)
Theorem skipset_linearizable (ls : list (label op bool)) (c : config) :
  exec step initial ls c →
  ∃ a0 a : aconfig (gset C) op bool, ainitial a0 ∧ exec (astep apply_op) a0 ls a ∧ contents a = elems (shared c).
Proof.
  intros Hex. destruct (set_exec_simulated _ _ _ _ set_Inv_initial Hex) as (g & _ & Hb). destruct (set_abs_exists g c) as [a Ha].
  destruct (Hb a Ha) as (a0 & a1 & Ha0 & Hsame & Hex'). exists a0, a1. split_and!; [by apply set_abs_initial|done|].
  destruct Hsame as [<- _]. apply Ha.
Qed.

(** C37: [Range] and [Len].  In every reachable state [Range] by a goroutine that
    runs alone visits the values of the set in strictly increasing order until
    the callback stops it; when no operation is in progress [Len] is their
    number, modulo 2^64. *)
Theorem skipset_range (c : config) :
  reachable c → ∃ l : list K,
    (∀ (A : Type) (f : A → K → A * bool) (acc : A), Range (shared c) f acc = Some (visit f acc l)) ∧
    StronglySorted clt (rank <$> l) ∧ (∀ r, r ∈ rank <$> l ↔ r ∈ elems (shared c)) ∧ (∀ v, v ∈ l → veq v v = true) ∧
    ((∀ t, threads c t = Idle) → wraps 64 (Len (shared c)) = wraps 64 (Z.of_nat (length l))).
Proof.
  intros [g HI]%reachable_Inv. pose proof (inv_shared _ _ HI) as Hs. exists (values (shared c) (chain g 0)). split_and!.
  - intros A f acc. by apply Range_ok.
  - by apply values_sorted.
  - intros v. by apply values_elem.
  - intros v. by apply values_ordered.
  - intros Hidle. rewrite (values_size _ _ Hs). destruct (inv_finite _ _ HI) as (N & _ & k & Hk).
    assert (Htot : total (threads c) N = 0%Z) by (clear Hk; induction N as [|N IH]; simpl; [done|by rewrite IH, Hidle]).
    rewrite Htot, Z.add_0_r in Hk. unfold Len, wraps. rewrite Hk. f_equal.
    replace (_ + _ * _ + _)%Z with (Z.of_nat (size (elems (shared c))) + 2 ^ (64 - 1) + k * 2 ^ 64)%Z by lia.
    by rewrite Z.mod_add.
Qed.

(** ** Schedules *)

(** Which goroutine calls, steps or returns next. *)
Inductive event := ECall (t : nat) (o : op) (k : nat) | EStep (t n : nat) | EReturn (t : nat).

Fixpoint steps (n t : nat) (c : config) : option config :=
  match n with
  | O => Some c
  | S n =>
      match thread_step t (shared c) (threads c t) with
      | Go s p => steps n t (mkConfig s (<[t := p]> (threads c)))
      | _ => None
      end
  end.

Definition happen (e : event) (c : config) : option (config * list (label op bool)) :=
  match e with
  | ECall t o k =>
      match threads c t with Idle => Some (mkConfig (shared c) (<[t := start o k]> (threads c)), [Call t o]) | _ => None end
  | EStep t n => c ← steps n t c; Some (c, [])
  | EReturn t =>
      match threads c t with
      | Returned r => Some (mkConfig (shared c) (<[t := Idle]> (threads c)), [Return t r])
      | _ => None
      end
  end.

Fixpoint run (es : list event) (c : config) : option (config * list (label op bool)) :=
  match es with
  | [] => Some (c, [])
  | e :: es => '(c, l) ← happen e c; '(c, ls) ← run es c; Some (c, l ++ ls)
  end.

Lemma steps_exec n t c c' : steps n t c = Some c' → exec step c [] c'.
Proof.
  revert c. induction n as [|n IH]; simpl; intros c Hc; [injection Hc as ->; constructor|].
  destruct (thread_step t (shared c) (threads c t)) as [s p| |] eqn:Hst; try done.
  eapply exec_inner; [by apply step_inner|]. by apply IH.
Qed.

Lemma happen_exec e c c' ls : happen e c = Some (c', ls) → exec step c ls c'.
Proof.
  destruct e as [t o k|t n|t]; simpl; intros Hc.
  - destruct (threads c t) eqn:Ht; try done. injection Hc as <- <-. eapply exec_label; [by apply step_call|constructor].
  - destruct (steps n t c) as [c1|] eqn:Hs; [|done]. injection Hc as <- <-. by eapply steps_exec.
  - destruct (threads c t) eqn:Ht; try done. injection Hc as <- <-. eapply exec_label; [by apply step_return|constructor].
Qed.

Lemma run_exec es c c' ls : run es c = Some (c', ls) → exec step c ls c'.
Proof.
  revert c ls. induction es as [|e es IH]; simpl; intros c ls Hc; [injection Hc as <- <-; constructor|].
  destruct (happen e c) as [[c1 l1]|] eqn:He; [|done]. simpl in Hc. destruct (run es c1) as [[c2 l2]|] eqn:Hr; [|done].
  injection Hc as <- <-. eapply exec_app; [by eapply happen_exec|by apply IH].
Qed.
End keys.

(** ** The sets of all types *)

Definition set_moves (S : goset) (c : config) (u : nat) : Prop :=
  (∃ r, threads c u = Returned r) ∨
  ∃ s' p', perform _ (of_methods S) u (shared c) (threads c u) = Go s' p' ∧ ¬ spins (threads c u) p'.

Definition safe_set (S : goset) : Prop :=
  ∀ ls c, exec (interleaves S) (started S) ls c →
    (∀ t, perform _ (of_methods S) t (shared c) (threads c t) ≠ Panics) ∧
    (∀ t, threads c t ≠ Idle → ∃ u, set_moves S c u) ∧
    ∀ A (f : A → of_values S → A * bool) acc, is_Some (iterate _ (of_methods S) A (shared c) f acc).

Lemma safe_at {K C} `{Countable C} (HK : SkipKey K C) : safe_set (mkGoset K (nodes_at HK) (methods_at HK)).
Proof.
  intros ls c Hex%interleaves_exec; [|done..]. assert (Hr : reachable c) by by exists ls. split_and!.
  - intros t. by apply set_no_panic.
  - intros t Ht. destruct (reachable_Inv c Hr) as [g HI]. by apply (some_moves g c HI t).
  - intros A f acc. destruct (reachable_Inv c Hr) as [g HI]. eexists. by apply (Range_ok _ _ (inv_shared _ _ HI)).
Qed.

Lemma all_safe big : Forall safe_set (types_go big).
Proof.
  repeat (apply list.Forall_cons; split;
    [first [exact (safe_at ascending)|exact (safe_at descending)|exact (safe_at floats)|exact (safe_at floats_desc)
           |exact (safe_at (hashed big))]|]). constructor.
Qed.

(** C36: the sets of all types are safe.  In every interleaving of the methods of
    each of the sets of the package, in ascending and descending order, on
    little- and big-endian machines, no goroutine follows a nil pointer, indexes
    out of range or releases a lock that is not held; while an operation is in
    progress some goroutine can return or make a step that is not another turn of
    the loop that waits for a node to be linked, so the locks never deadlock; and
    [Range] by a goroutine that runs alone comes to an end. *)
Theorem skipset_types_safe (big : bool) (S : goset) (ls : list (label op bool)) (c : config) :
  S ∈ types_go big → exec (interleaves S) (started S) ls c →
  (∀ t, perform _ (of_methods S) t (shared c) (threads c t) ≠ Panics) ∧
  (∀ t, threads c t ≠ Idle → ∃ u, set_moves S c u) ∧
  ∀ A (f : A → of_values S → A * bool) acc, is_Some (iterate _ (of_methods S) A (shared c) f acc).
Proof. intros HS. pose proof (all_safe big) as Hall. rewrite list.Forall_forall in Hall. by apply Hall. Qed.

(** ** Witnesses *)

Section sample.
#[local] Existing Instance ascending.

(** Goroutine 1 adds 7; goroutine 2 starts to add 5 and stops holding a lock;
    goroutine 3 waits for the lock to remove 7; goroutine 1 finds 7. *)
Definition schedule : list (@event Z) :=
  [ECall 1 (Add 7) 0; EStep 1 14; EReturn 1; ECall 2 (Add 5) 1; EStep 2 6; ECall 3 (Remove 7) 0; EStep 3 8;
   ECall 1 (Contains 7) 0; EStep 1 5; EReturn 1]%Z.
Definition sample : config := match run schedule initial with Some (c, _) => c | None => initial end.
Definition sample_labels : list (label op bool) := match run schedule initial with Some (_, ls) => ls | None => [] end.

Lemma sample_run : run schedule initial = Some (sample, sample_labels).
Proof. unfold sample, sample_labels. by destruct (run schedule initial) as [[c ls]|] eqn:Hr; [|vm_compute in Hr]. Qed.

Lemma skipset_linearizable_witness :
  sample_labels = [Call 1 (Add 7); Return 1 true; Call 2 (Add 5); Call 3 (Remove 7); Call 1 (Contains 7); Return 1 false]%Z ∧
  ∃ a0 a : aconfig (gset Z) op bool, ainitial a0 ∧ exec (astep apply_op) a0 sample_labels a ∧ contents a = elems (shared sample).
Proof. split; [vm_compute; reflexivity|]. exact (skipset_linearizable _ sample (run_exec _ _ _ _ sample_run)). Defined.

Lemma skipset_range_witness :
  ∃ l : list Z,
    (∀ (A : Type) (f : A → Z → A * bool) (acc : A), Range (shared sample) f acc = Some (visit f acc l)) ∧
    StronglySorted clt (rank <$> l) ∧ (∀ r, r ∈ rank <$> l ↔ r ∈ elems (shared sample)) ∧ (∀ v, v ∈ l → veq v v = true) ∧
    ((∀ t, threads sample t = Idle) → wraps 64 (Len (shared sample)) = wraps 64 (Z.of_nat (length l))).
Proof. apply (skipset_range sample). exists sample_labels. exact (run_exec _ _ _ _ sample_run). Defined.
End sample.

Section floats.
#[local] Existing Instance floats_desc.

(** Goroutine 1 fails to add NaN and adds -0; goroutine 2 finds 0; goroutine 3
    starts to remove 0. *)
Definition float_schedule : list (@event float32) :=
  [ECall 1 (Add SpecFloat.S754_nan) 0; EStep 1 1; EReturn 1; ECall 1 (Add (SpecFloat.S754_zero true)) 0; EStep 1 14; EReturn 1;
   ECall 2 (Contains (SpecFloat.S754_zero false)) 0; EStep 2 5; EReturn 2;
   ECall 3 (Remove (SpecFloat.S754_zero false)) 0; EStep 3 8].
Definition float_sample : config := match run float_schedule initial with Some (c, _) => c | None => initial end.
Definition float_labels : list (label op bool) := match run float_schedule initial with Some (_, ls) => ls | None => [] end.

Lemma float_run : run float_schedule initial = Some (float_sample, float_labels).
Proof. unfold float_sample, float_labels. by destruct (run float_schedule initial) as [[c ls]|] eqn:Hr; [|vm_compute in Hr]. Qed.

Lemma float_reached big : exec (interleaves (mkGoset float32 Float32SetDesc_nodes Float32SetDesc))
  (started (mkGoset float32 Float32SetDesc_nodes Float32SetDesc)) float_labels float_sample ∧
  mkGoset float32 Float32SetDesc_nodes Float32SetDesc ∈ types_go big.
Proof.
  split; [|by (do 4 right; left)]. apply (interleaves_exec (HK := floats_desc)); [done..|]. exact (run_exec _ _ _ _ float_run).
Qed.

Lemma skipset_types_safe_witness :
  float_labels = [Call 1 (Add SpecFloat.S754_nan); Return 1 false; Call 1 (Add (SpecFloat.S754_zero true)); Return 1 true;
    Call 2 (Contains (SpecFloat.S754_zero false)); Return 2 true; Call 3 (Remove (SpecFloat.S754_zero false))] ∧
  (∃ u, set_moves (mkGoset float32 Float32SetDesc_nodes Float32SetDesc) float_sample u) ∧
  ∀ t, perform _ Float32SetDesc t (shared float_sample) (threads float_sample t) ≠ Panics.
Proof.
  destruct (float_reached false) as [Hex Hin].
  destruct (skipset_types_safe false (mkGoset float32 Float32SetDesc_nodes Float32SetDesc) float_labels float_sample Hin Hex) as (H1 & H2 & _).
  split; [vm_compute; reflexivity|]. split; [apply (H2 3)|exact H1].
  intros H. apply (f_equal (λ p, match p with Idle => true | _ => false end)) in H. vm_compute in H. discriminate H.
Defined.
End floats.
