(* ===== verification/SkipMap.v ===== *)
(** * The concurrent map

    Model of src/structure/skipmap/skipmap.go: a map over a skip list of nodes
    with a lock, two flags and a value pointer each.  The search for a deletion,
    the locking and checking of the predecessors, the linking, the unlinking and
    the unlocking are the code of the concurrent set and are its steps here; the
    nodes of the map are those of the set, and their values are a list beside
    them, by place.  Like there, one step is one atomic load or store, one
    update of a flag word, one acquisition or release of a lock, and any number
    of goroutines run in any interleaving. *)

From stdpp Require Import functions.
From S2P Require Import Prelude Atomic SkipSet.

Section map.
Context {K C V : Type} `{CC : Countable C} {HK : SkipKey K C}.
#[local] Abbreviation Int64Set := (@Int64Set K).
#[local] Abbreviation pc := (@pc K).

(** ** Nodes and the map *)

Record Int64Map := mkMap { nodes_part : Int64Set; vals : list V }.

Definition storeVal (x : nat) (v : V) (m : Int64Map) : option Int64Map :=
  if x <? length (vals m) then Some (mkMap (nodes_part m) (<[x := v]> (vals m))) else None.
Definition loadVal (m : Int64Map) (x : nat) : option V := vals m !! x.

(** The header holds the string "", given as [empty]. *)
Definition NewInt64Map (empty : V) : Int64Map := mkMap NewInt64 [empty].

(** ** Operations

    The function given to [LoadOrStoreLazy] returns a value or panics. *)

Inductive mop :=
  | Store (k : K) (v : V)
  | Load (k : K)
  | LoadAndDelete (k : K)
  | LoadOrStore (k : K) (v : V)
  | LoadOrStoreLazy (k : K) (f : option V)
  | Delete (k : K).

Inductive mresult := RDone | RValue (v : option V) (ok : bool) | RBool (b : bool) | RPanic.

Definition mkey (o : mop) : K :=
  match o with Store k _ | Load k | LoadAndDelete k | LoadOrStore k _ | LoadOrStoreLazy k _ | Delete k => k end.
(** What the operation puts into a new node; [None]: the function panics. *)
Definition given (o : mop) : option V :=
  match o with Store _ v | LoadOrStore _ v => Some v | LoadOrStoreLazy _ f => f | _ => None end.

(** What [nil, false] and the like are for an operation: nothing was found, or
    the key is NaN. *)
Definition nothing (o : mop) : mresult :=
  match o with Store _ _ => RDone | Delete _ => RBool false | _ => RValue None false end.
(** The result of an operation that has linked or unlinked its node. *)
Definition changed (o : mop) : mresult :=
  match o with Store _ _ => RDone | Delete _ => RBool true | _ => RValue (given o) false end.

(** The local variables of an operation: the level the random generator gives,
    [level], which is 0 until it is drawn, and [hl]. *)
Record frame := mkFrame { of_op : mop; draw : nat; flevel : nat; fhl : nat }.
Definition frame_key (fr : frame) : K := mkey (of_op fr).
Definition set_level (fr : frame) : frame := mkFrame (of_op fr) (draw fr) (draw fr) (fhl fr).

(** Where a goroutine is.  [MRun] and [MUnwind] are inside code shared with the
    set; [MUnwind] releases the locks after a panic. *)
Inductive mpc :=
  | MIdle
  | MStart (fr : frame)
  | MRandLoad (fr : frame) (P Q : array)
  | MRandCas (fr : frame) (cur : nat) (P Q : array)
  | MFindStart (fr : frame) (P Q : array)
  | MFind (fr : frame) (i x : nat) (P Q : array)
  | MFound (fr : frame) (n : nat) (P Q : array)
  | MStoreVal (fr : frame) (v : V) (n : nat)
  | MLoadVal (fr : frame) (n : nat)
  | MNext (fr : frame) (w : @work K) (P Q : array) (k hi : nat)
  | MSucc (fr : frame) (w : @work K) (P Q : array) (k hi : nat)
  | MRun (fr : frame) (p : pc)
  | MUnwind (fr : frame) (p : pc)
  | MReturned (o : mop) (r : mresult).

(** *** findNode *)

Inductive sought := Further (i x : nat) (P Q : array) | Hit (n : nat) (P Q : array) | Missing (P Q : array).

Definition below (i x : nat) (P Q : array) : sought := match i with O => Missing P Q | S i => Further i x P Q end.

(** One load of the search. *)
Definition findNode (s : Int64Set) (k : K) (i x : nat) (P Q : array) : option sought :=
  succ ← atomicLoadNext s x i;
  match succ with
  | None => P ← write P i (Some x); Q ← write Q i None; Some (below i x P Q)
  | Some y =>
      n ← nodes s !! y;
      if lessthan n k then Some (Further i y P Q)
      else
        P ← write P i (Some x); Q ← write Q i (Some y);
        Some (if equal n k then Hit y P Q else below i x P Q)
  end.

(** After a search without success: [LoadOrStore] draws its level now. *)
Definition after_find (fr : frame) (P Q : array) : mpc :=
  if flevel fr =? 0 then MRandLoad fr P Q
  else MRun fr (next_layer (WAdd (frame_key fr) (flevel fr)) P Q 0 None 0).

Definition sought_pc (fr : frame) (r : sought) : mpc :=
  match r with
  | Further i x P Q => MFind fr i x P Q
  | Hit n P Q => MFound fr n P Q
  | Missing P Q => after_find fr P Q
  end.

(** After the level is drawn: [Store] begins to search; [LoadOrStore] searches
    again if the level is higher than the levels it has searched. *)
Definition leveled (fr : frame) (P Q : array) : mpc :=
  let fr := set_level fr in
  match of_op fr with
  | Store _ _ => MFindStart fr P Q
  | _ =>
      if fhl fr <? flevel fr then MFindStart fr P Q
      else MRun fr (next_layer (WAdd (frame_key fr) (flevel fr)) P Q 0 None 0)
  end.

(** A node with the key that is not marked: [Store] replaces its value. *)
Definition present (fr : frame) (n : nat) : mpc :=
  match of_op fr with Store _ v => MStoreVal fr v n | _ => MLoadVal fr n end.

(** *** The steps *)

(** Where a step of the set leads: to the end of the operation, to another
    search, or on. [LoadOrStoreLazy] compares the link of the predecessor before
    it looks at the successor. *)
Definition resume (fr : frame) (p : pc) : mpc :=
  match p with
  | Returned b => MReturned (of_op fr) (if b then changed (of_op fr) else nothing (of_op fr))
  | FindStart (FAdd _ _) P Q => MFindStart fr P Q
  | CheckSucc w P Q k hi | CheckNext w P Q k hi =>
      match of_op fr with LoadOrStoreLazy _ _ => MNext fr w P Q k hi | _ => MRun fr p end
  | _ => MRun fr p
  end.

Definition unwind (fr : frame) (p : pc) : mpc :=
  match p with FindStart _ _ _ => MReturned (of_op fr) RPanic | _ => MUnwind fr p end.

Inductive moutcome := MGo (m : Int64Map) (p : mpc) | MBlocked | MPanics.
Definition mgoes (o : option (Int64Map * mpc)) : moutcome := match o with Some (m, p) => MGo m p | None => MPanics end.

(** A step of the code shared with the set. *)
Definition shared_step (t : nat) (m : Int64Map) (k : pc → mpc) (p : pc) : moutcome :=
  match thread_step t (nodes_part m) p with
  | Go s p => MGo (mkMap s (vals m)) (k p)
  | Blocked => MBlocked
  | Panics => MPanics
  end.

Definition run_step (t : nat) (m : Int64Map) (fr : frame) (p : pc) : moutcome :=
  let s := nodes_part m in
  match p with
  | HasFlags _ n =>
      mgoes (nd ← nodes s !! n;
             Some (m, if MGet (flags nd) (Z.lor fullyLinked marked) fullyLinked then MLoadVal fr n
                      else MReturned (of_op fr) (nothing (of_op fr))))
  | AddNew k lv P Q hi =>
      match given (of_op fr) with
      | Some v =>
          MGo (mkMap (mkSet (nodes s ++ [newInt64Node k lv]) (len s) (highestLevel s)) (vals m ++ [v]))
              (MRun fr (link_layer k lv P Q hi (length (nodes s)) 0))
      | None => MGo m (unwind fr (unlockInt64 (WAdd k lv) P Q hi None false))
      end
  | LenAdd (WRem _ n _) =>
      shared_step t m (λ p, match of_op fr with LoadAndDelete _ => MLoadVal fr n | _ => resume fr p end) p
  | _ => shared_step t m (resume fr) p
  end.

Definition map_step (t : nat) (m : Int64Map) (p : mpc) : moutcome :=
  let s := nodes_part m in
  match p with
  | MIdle | MReturned _ _ => MBlocked
  | MStart fr =>
      if negb (veq (frame_key fr) (frame_key fr)) then MGo m (MReturned (of_op fr) (nothing (of_op fr)))
      else
        MGo m match of_op fr with
              | Store _ _ => MRandLoad fr nils nils
              | _ => MFindStart (mkFrame (of_op fr) (draw fr) (flevel fr) (highestLevel s)) nils nils
              end
  | MRandLoad fr P Q =>
      MGo m (if draw fr <=? highestLevel s then leveled fr P Q else MRandCas fr (highestLevel s) P Q)
  | MRandCas fr cur P Q =>
      if decide (highestLevel s = cur) then
        MGo (mkMap (mkSet (nodes s) (len s) (draw fr)) (vals m)) (leveled fr P Q)
      else MGo m (MRandLoad fr P Q)
  | MFindStart fr P Q =>
      MGo m match highestLevel s with O => after_find fr P Q | S i => MFind fr i header P Q end
  | MFind fr i x P Q => mgoes (r ← findNode s (frame_key fr) i x P Q; Some (m, sought_pc fr r))
  | MFound fr n P Q =>
      mgoes (nd ← nodes s !! n; Some (m, if Get (flags nd) marked then MFindStart fr P Q else present fr n))
  | MStoreVal fr v n => mgoes (m ← storeVal n v m; Some (m, MReturned (of_op fr) RDone))
  | MLoadVal fr n => mgoes (v ← loadVal m n; Some (m, MReturned (of_op fr) (RValue (Some v) true)))
  | MNext fr w P Q k hi =>
      mgoes (p ← read P k; nx ← atomicLoadNext s p k;
             Some (m, if decide (nx = Q k) then
                        match Q k with
                        | Some _ => MSucc fr w P Q k hi
                        | None => MRun fr (next_layer w P Q (S k) (P k) hi)
                        end
                      else resume fr (unlockInt64 w P Q hi None false)))
  | MSucc fr w P Q k hi =>
      mgoes (q ← read Q k; nd ← nodes s !! q;
             Some (m, if Get (flags nd) marked then resume fr (unlockInt64 w P Q hi None false)
                      else MRun fr (next_layer w P Q (S k) (P k) hi)))
  | MRun fr p => run_step t m fr p
  | MUnwind fr p => shared_step t m (unwind fr) p
  end.

(** The first search of [LoadOrStore] is made before [level] is drawn. *)
Definition mstart (o : mop) (k : nat) : mpc :=
  let fr := mkFrame o (randomLevel k) 0 0 in
  match o with
  | Load x => MRun fr (FindStart (FHas x) nils nils)
  | LoadAndDelete x | Delete x => MRun fr (FindStart (FRem x None) nils nils)
  | _ => MStart fr
  end.

(** *** The operations that a goroutine makes alone *)

Definition MLen (m : Int64Map) : Z := len (nodes_part m).

(** [Range] reads the bottom list; the budget bounds the number of nodes. *)
Fixpoint mrange_from {A} (fuel : nat) (m : Int64Map) (x : option nat) (f : A → K → V → A * bool) (acc : A) : option A :=
  match x, fuel with
  | None, _ => Some acc
  | Some _, O => None
  | Some x, S fuel =>
      n ← nodes (nodes_part m) !! x; nx ← load (next n) 0;
      if MGet (flags n) (Z.lor fullyLinked marked) fullyLinked then
        v ← loadVal m x;
        let '(acc, go_on) := f acc (value n) v in if go_on then mrange_from fuel m nx f acc else Some acc
      else mrange_from fuel m nx f acc
  end.
Definition MRange {A} (m : Int64Map) (f : A → K → V → A * bool) (acc : A) : option A :=
  x ← atomicLoadNext (nodes_part m) header 0; mrange_from (length (nodes (nodes_part m))) m x f acc.

(** ** Interleavings *)

Record mconfig := mkMConfig { mshared : Int64Map; mthreads : nat → mpc }.
Definition minitial (empty : V) : mconfig := mkMConfig (NewInt64Map empty) (λ _, MIdle).

Inductive mstep : mconfig → option (label mop mresult) → mconfig → Prop :=
  | mstep_call c t o k :
      mthreads c t = MIdle → mstep c (Some (Call t o)) (mkMConfig (mshared c) (<[t := mstart o k]> (mthreads c)))
  | mstep_inner c t m p :
      map_step t (mshared c) (mthreads c t) = MGo m p → mstep c None (mkMConfig m (<[t := p]> (mthreads c)))
  | mstep_panic c t :
      map_step t (mshared c) (mthreads c t) = MPanics → mstep c (Some (Panic t)) c
  | mstep_return c t o r :
      mthreads c t = MReturned o r → mstep c (Some (Return t r)) (mkMConfig (mshared c) (<[t := MIdle]> (mthreads c))).

(** ** The map that is meant

    From ranks of keys to values.  NaN is never a key. *)

Definition found_value (M : gmap C V) (r : C) : mresult := RValue (M !! r) (bool_decide (is_Some (M !! r))).

Definition apply_mop (o : mop) (M : gmap C V) : gmap C V * mresult :=
  let r := rank (mkey o) in
  if veq (mkey o) (mkey o) then
    match o with
    | Store _ v => (<[r := v]> M, RDone)
    | Load _ => (M, found_value M r)
    | LoadAndDelete _ => (delete r M, found_value M r)
    | Delete _ => (delete r M, RBool (bool_decide (is_Some (M !! r))))
    | LoadOrStore _ _ | LoadOrStoreLazy _ _ =>
        match M !! r, given o with
        | Some w, _ => (M, RValue (Some w) true)
        | None, Some v => (<[r := v]> M, RValue (Some v) false)
        | None, None => (M, RPanic)
        end
    end
  else (M, nothing o).
End map.
