(* ===== verification/SkipMapInv.v ===== *)
(** * The concurrent map: safety

    Every step of the map is a step of the set, or a move that the invariant of
    the set allows: an operation gives up before it has locked anything, starts
    again with another level, or releases its locks.  [proj] gives the place in
    the code of the set that a place in the code of the map stands for. *)

From stdpp Require Import functions sorting.
From S2P Require Import Prelude Atomic SkipSet SkipSetInv SkipSetHeap SkipSetMoves SkipSetSteps SkipSetLin SkipSetThms SkipMap SkipSetProps.

Section keys.
Context {K C : Type} `{CC : Countable C} {HK : SkipKey K C}.
#[local] Abbreviation Int64Set := (@Int64Set K).
#[local] Abbreviation pc := (@pc K).
#[local] Abbreviation work := (@work K).
#[local] Abbreviation config := (@config K).
Implicit Types (s : Int64Set) (c : config) (w : work).

(** ** Moves that the invariant allows *)

Lemma Inv_ext g c c' : shared c' = shared c → (∀ t, threads c' t = threads c t) → Inv g c → Inv g c'.
Proof.
  intros Hs Ht HI. split; rewrite ?Hs.
  - apply HI.
  - intros t v. rewrite Ht. apply HI.
  - intros t. rewrite Ht. apply HI.
  - intros x t. rewrite Ht. apply HI.
  - intros t t' n. rewrite !Ht. apply HI.
  - intros x Ha H0 Hf. destruct (inv_fresh _ _ HI x Ha H0 Hf) as [t Hu]. exists t. by rewrite Ht.
  - intros x j Hx Hm. destruct (inv_dead _ _ HI x j Hx Hm) as [t Hu]. exists t. by rewrite Ht.
  - destruct (inv_finite _ _ HI) as (N & HN & k & Hk). exists N. split; [intros t ?; rewrite Ht; auto|]. exists k.
    assert (Heq : ∀ n, total (threads c') n = total (threads c) n) by (induction n as [|n IH]; simpl; [done|by rewrite IH, Ht]).
    by rewrite Heq.
Qed.

Definition pinv (c : config) : Prop := ∃ g, Inv g c.
Definition moved (c : config) (t : nat) (p : pc) : config := mkConfig (shared c) (<[t := p]> (threads c)).

Lemma pinv_ext c c' : shared c' = shared c → (∀ t, threads c' t = threads c t) → pinv c → pinv c'.
Proof. intros Hs Ht [g HI]. exists g. by eapply Inv_ext. Qed.

Lemma pinv_no_panic c t : pinv c → thread_step t (shared c) (threads c t) ≠ Panics.
Proof. intros [g HI]. by destruct (thread_progresses g c t HI) as [->|(s' & p' & g' & -> & _)]. Qed.

Lemma set_go c t s' p' : pinv c → thread_step t (shared c) (threads c t) = Go s' p' →
  pinv (mkConfig s' (<[t := p']> (threads c))).
Proof.
  intros [g HI] Hgo. destruct (thread_progresses g c t HI) as [Hb|(s1 & p1 & g' & Hgo' & HI' & _)]; [congruence|].
  rewrite Hgo in Hgo'. injection Hgo' as <- <-. by exists g'.
Qed.

Section moves.
Context (g : ghost) (c : config) (t : nat) (HI : Inv g c).
Local Abbreviation s := (shared c).
Local Abbreviation p := (threads c t).

Lemma pure_move p' : thread_inv g s t p' → (target p' = target p ∨ target p' = None) → (∀ x, held p' x ↔ held p x) →
  owned p' = owned p → debt p' = debt p → dying p' = dying p → Inv g (moved c t p').
Proof using HI.
  intros Hp Ht Hh Ho Hd Hdy. apply (write_Inv g c t HI g s p' (λ _, False) (λ _, False)); try done.
  - apply quiet_effect; try done; apply HI.
  - by apply observes_all.
  - by apply (locks_same g c t HI).
  - by apply owned_stays.
  - by apply accounted_like.
  - by apply buries_same.
  - by apply balanced_same.
Qed.

(** The highest level is raised. *)
Lemma raise_move lv : highestLevel s <= lv → lv <= maxLevel → Inv g (mkConfig (mkSet (nodes s) (len s) lv) (threads c)).
Proof using HI t.
  intros Hlv Hmax. set (s' := mkSet (nodes s) (len s) lv).
  assert (Hl : like s s') by by split. assert (Hel : elems s' = elems s) by done.
  assert (HI' : Inv g (mkConfig s' (<[t := p]> (threads c)))).
  { apply (write_Inv g c t HI g s' p (λ _, False) (λ _, False)); try done.
    - apply quiet_effect; try done. apply HI.
    - by apply observes_all.
    - apply (quiet_inv g c t HI); try done; [by left|]. apply HI.
    - by left.
    - by apply (locks_same g c t HI).
    - by left.
    - by apply accounted_like.
    - by apply buries_same.
    - by apply balanced_same. }
  eapply Inv_ext; [| |exact HI']; [done|]. intros u. simpl. destruct (decide (u = t)) as [->|]; [by rewrite fn_lookup_insert|].
  by rewrite fn_lookup_insert_ne.
Qed.
End moves.

(** A goroutine that holds and owes nothing. *)
Definition free (p : pc) : Prop := (∀ x, ¬ held p x) ∧ owned p = None ∧ debt p = 0%Z ∧ dying p = None.

Lemma free_lock v lv P Q : free (LockPred (WAdd v lv) P Q 0 0).
Proof. split_and!; try done. intros x [(j & Hj & _)|[]]. lia. Qed.

Lemma move_drop c t r : pinv c → free (threads c t) → pinv (moved c t (Returned r)).
Proof.
  intros [g HI] (Hh & Ho & Hd & Hdy). exists g. apply pure_move; try done; [by right|]. intros x. split; [done|]. by intros ?%Hh.
Qed.

Lemma move_return c t r : pinv c → threads c t = Returned r → pinv (moved c t Idle).
Proof. intros [g HI] Ht. exists g. apply pure_move; rewrite ?Ht; try done. by right. Qed.

Lemma move_call c t o k : pinv c → threads c t = Idle → pinv (moved c t (start o k)).
Proof. intros [g HI] Ht. eexists. by apply (call_Inv g c t o k HI Ht). Qed.

Lemma move_draw c t v lv lv' : pinv c → threads c t = RandLoad v lv → 1 <= lv' <= maxLevel → pinv (moved c t (RandLoad v lv')).
Proof. intros [g HI] Ht Hlv. exists g. apply pure_move; rewrite ?Ht; try done. by left. Qed.

Lemma move_search c t v lv P Q : pinv c → target (threads c t) = Some (rank v) → free (threads c t) →
  ordered v = true → 1 <= lv <= highestLevel (shared c) → pinv (moved c t (FindStart (FAdd v lv) P Q)).
Proof.
  intros [g HI] Ht (Hh & Ho & Hd & Hdy) Hor Hlv. exists g. apply pure_move; try done.
  - cbn [thread_inv key]. by rewrite Hor.
  - left. rewrite Ht. by apply tkey_ordered.
  - intros x. split; [done|]. by intros ?%Hh.
Qed.

(** A lower level. *)
Lemma move_lower c t v hl lv P Q : pinv c → threads c t = LockPred (WAdd v hl) P Q 0 0 → 1 <= lv <= hl →
  pinv (moved c t (next_layer (WAdd v lv) P Q 0 None 0)).
Proof.
  intros [g HI] Ht Hlv. pose proof (inv_thread _ _ HI t) as Hti. rewrite Ht in Hti.
  destruct Hti as ((Hw & Hse & Hde & Hst & _) & _). cbn [wkey layers work_inv] in *. destruct Hw as [Hor Hl].
  pose proof (inv_ghost _ _ HI t (rank v)) as Hg. rewrite Ht in Hg. specialize (Hg eq_refl).
  destruct (next_layer_ok g (shared c) t (inv_shared _ _ HI) (WAdd v lv) P Q 0 0) as (H1 & H2 & H3 & H4 & [H6 H7] & H5).
  - done.
  - split_and!.
    + split; [done|]. unfold level_ok in *. lia.
    + by eapply searched_mono; [..|exact Hse]; simpl; lia.
    + by eapply descends_mono; [..|exact Hde]; simpl; lia.
    + by eapply strict_mono; [..|exact Hst]; lia.
    + intros j Hj. lia.
  - simpl. lia.
  - split; [lia|]. intros j Hj. lia.
  - cbn [prev] in *. exists g. apply pure_move; rewrite ?Ht; try done. by left.
Qed.

Lemma move_weaken c t w P Q k hi : pinv c → threads c t = CheckSucc w P Q k hi → pinv (moved c t (CheckNext w P Q k hi)).
Proof.
  intros [g HI] Ht. pose proof (inv_thread _ _ HI t) as Hti. rewrite Ht in Hti. destruct Hti as (Hc & Hk & Hhi & Hm & _).
  exists g. apply pure_move; rewrite ?Ht; try done. by left.
Qed.

Lemma next_layer_cases w P Q k pv hi : let p := next_layer w P Q k pv hi in
  (p = LockPred w P Q k hi ∨ p = CheckPred w P Q k hi) ∨
  match w with WAdd v lv => p = AddNew v lv P Q hi | WRem v n top => p = UnlinkLoad v n top P Q hi top end.
Proof. unfold next_layer. destruct (k <? layers w); [left; case_decide; auto|right; by destruct w]. Qed.

(** The locks are released. *)
Lemma move_release c t v lv P Q k hi : pinv c →
  threads c t = LockPred (WAdd v lv) P Q k hi ∨ threads c t = CheckPred (WAdd v lv) P Q k hi ∨ threads c t = AddNew v lv P Q hi →
  pinv (moved c t (unlockInt64 (WAdd v lv) P Q hi None false)).
Proof.
  intros [g HI] Ht. set (w := WAdd v lv).
  assert (∃ j n, changing g (shared c) t w P Q j ∧ j <= lv ∧ hi_ok P n hi ∧ n <= lv ∧ target (threads c t) = Some (wkey w) ∧
    owned (threads c t) = None ∧ debt (threads c t) = 0%Z ∧ dying (threads c t) = None ∧ ∀ x, held (threads c t) x ↔ preds_below P n x)
    as (j & n & Hc & Hj & Hhi & Hn & Htg & Ho & Hd & Hdy & Hh).
  { pose proof (inv_thread _ _ HI t) as Hti. destruct Ht as [Ht|[Ht|Ht]]; rewrite Ht in Hti |- *.
    - destruct Hti as (Hc & Hk & Hhi & _). simpl in Hk. exists k, k. split_and!; try done; try lia. intros x. simpl. tauto.
    - destruct Hti as (Hc & Hk & Hhi). simpl in Hk. exists k, (S k). split_and!; try done; try lia. intros x. simpl. tauto.
    - destruct Hti as (Hc & Hhi). exists lv, lv. split_and!; try done; try lia. }
  pose proof (inv_ghost _ _ HI t _ Htg) as Hg.
  destruct (release_ok g c t HI w P Q j hi false Hg Hc) as (H1 & H2 & H3 & H4 & [H6 H7] & H5); [done|destruct Hhi; simpl; lia|].
  exists g. apply pure_move; try done.
  - left. congruence.
  - intros x. rewrite H5, Hh, (preds_hi P n hi) by done. simpl. tauto.
  - congruence.
  - rewrite H6, Hd. done.
  - rewrite H7, Hdy. done.
Qed.
End keys.

(** ** The place in the code of the set *)

Section map.
Context {K C V : Type} `{CC : Countable C} {HK : SkipKey K C}.
#[local] Abbreviation Int64Set := (@Int64Set K).
#[local] Abbreviation pc := (@pc K).
#[local] Abbreviation work := (@work K).
#[local] Abbreviation finder := (@finder K).
#[local] Abbreviation config := (@config K).
#[local] Abbreviation frame := (@frame K V).
#[local] Abbreviation mpc := (@mpc K V).
#[local] Abbreviation mop := (@mop K V).
#[local] Abbreviation Int64Map := (@Int64Map K V).
#[local] Abbreviation mconfig := (@mconfig K V).
Implicit Types (s : Int64Set) (c : mconfig) (fr : frame) (w : work).

Definition is_store (o : mop) : bool := match o with Store _ _ => true | _ => false end.
Definition inserts (o : mop) : bool :=
  match o with Store _ _ | LoadOrStore _ _ | LoadOrStoreLazy _ _ => true | _ => false end.
Definition deletes (o : mop) : bool := match o with LoadAndDelete _ | Delete _ => true | _ => false end.
Definition is_load (o : mop) : bool := match o with Load _ => true | _ => false end.

(** The level up to which a search has to be made. *)
Definition aim (fr : frame) : nat := if flevel fr =? 0 then fhl fr else flevel fr.

Definition proj (p : mpc) : pc :=
  match p with
  | MIdle => Idle
  | MStart fr => RandLoad (frame_key fr) 1
  | MRandLoad fr P Q =>
      if is_store (of_op fr) then RandLoad (frame_key fr) (draw fr) else LockPred (WAdd (frame_key fr) (fhl fr)) P Q 0 0
  | MRandCas fr cur P Q =>
      if is_store (of_op fr) then RandCas (frame_key fr) (draw fr) cur else LockPred (WAdd (frame_key fr) (fhl fr)) P Q 0 0
  | MFindStart fr P Q => FindStart (FAdd (frame_key fr) (aim fr)) P Q
  | MFind fr i x P Q => FindLoad (FAdd (frame_key fr) (aim fr)) i x P Q None
  | MFound fr n P Q => AddFound (frame_key fr) (aim fr) n P Q
  | MStoreVal _ _ _ | MLoadVal _ _ | MReturned _ _ => Returned false
  | MNext _ w P Q k hi => CheckNext w P Q k hi
  | MSucc _ w P Q k hi => next_layer w P Q (S k) (P k) hi
  | MRun _ p | MUnwind _ p => p
  end.

(** ** What else holds *)

Definition work_fits (fr : frame) (w : work) : Prop :=
  match w with
  | WAdd k lv => inserts (of_op fr) = true ∧ k = frame_key fr ∧ lv = flevel fr ∧ 0 < lv
  | WRem k _ _ => deletes (of_op fr) = true ∧ k = frame_key fr
  end.
Definition finder_fits (fr : frame) (f : finder) : Prop :=
  match f with
  | FAdd _ _ => False
  | FHas k => is_load (of_op fr) = true ∧ k = frame_key fr
  | FRem k _ => deletes (of_op fr) = true ∧ k = frame_key fr
  end.
Definition removal_fits (fr : frame) (k : K) : Prop := deletes (of_op fr) = true ∧ k = frame_key fr.

(** The places of the set's code in which an operation of the map can be. *)
Definition fits (fr : frame) (p : pc) : Prop :=
  match p with
  | Idle | RandLoad _ _ | RandCas _ _ _ | AddFound _ _ _ _ _ | AddWait _ _ | Returned _ => False
  | FindStart f _ _ | FindLoad f _ _ _ _ _ => finder_fits fr f
  | HasFlags k _ => is_load (of_op fr) = true ∧ k = frame_key fr
  | RemFlags k _ _ _ _ | RemLock k _ _ _ _ | RemMarked k _ _ _ _ | RemUnlock k _ | RemMark k _ _ _ _
  | UnlinkLoad k _ _ _ _ _ _ | UnlinkStore k _ _ _ _ _ _ _ | UnlockNode k _ _ _ _ _ => removal_fits fr k
  | LockPred w _ _ _ _ | CheckPred w _ _ _ _ | CheckSucc w _ _ _ _ | CheckNext w _ _ _ _ | UnlockPred w _ _ _ _ | LenAdd w =>
      work_fits fr w
  | AddNew k lv _ _ _ | AddInit k lv _ _ _ _ _ | AddLink k lv _ _ _ _ _ | AddFull k lv _ _ _ _ => work_fits fr (WAdd k lv)
  end.

Definition undrawn (fr : frame) : Prop := inserts (of_op fr) = true ∧ flevel fr = 0 ∧ 1 <= draw fr <= maxLevel.
Definition inserting (fr : frame) : Prop :=
  inserts (of_op fr) = true ∧ (flevel fr = 0 → is_store (of_op fr) = false ∧ 1 <= draw fr <= maxLevel).

Definition mextra (s : Int64Set) (p : mpc) : Prop :=
  match p with
  | MIdle | MReturned _ _ => True
  | MStart fr => undrawn fr
  | MRandLoad fr _ _ => undrawn fr ∧ ordered (frame_key fr) = true
  | MRandCas fr cur _ _ => undrawn fr ∧ ordered (frame_key fr) = true ∧ cur < draw fr
  | MFindStart fr _ _ | MFind fr _ _ _ _ => inserting fr ∧ ordered (frame_key fr) = true
  | MFound fr n _ _ => inserting fr ∧ ordered (frame_key fr) = true ∧ alloc s n
  | MStoreVal fr v n => of_op fr = Store (frame_key fr) v ∧ alloc s n
  | MLoadVal fr n => is_store (of_op fr) = false ∧ alloc s n
  | MNext fr w _ _ _ _ => inserts (of_op fr) = true ∧ work_fits fr w
  | MSucc fr w _ Q k _ => inserts (of_op fr) = true ∧ work_fits fr w ∧ k < layers w ∧ is_Some (Q k)
  | MRun fr p => fits fr p
  | MUnwind fr p => inserts (of_op fr) = true ∧ ∃ w P Q i, p = UnlockPred w P Q i false ∧ work_fits fr w
  end.

Definition projc (c : mconfig) : config := mkConfig (nodes_part (mshared c)) (λ t, proj (mthreads c t)).

Record MInv (c : mconfig) : Prop := {
  mi_set : pinv (projc c);
  mi_vals : length (vals (mshared c)) = length (nodes (nodes_part (mshared c)));
  mi_high : 1 <= highestLevel (nodes_part (mshared c));
  mi_extra t : mextra (nodes_part (mshared c)) (mthreads c t)
}.

Lemma mextra_mono s s' p : length (nodes s) <= length (nodes s') → mextra s p → mextra s' p.
Proof.
  intros Hle. assert (Ha : ∀ n, alloc s n → alloc s' n) by (unfold alloc; lia).
  destruct p; simpl; intros; destruct_and?; split_and?; auto.
Qed.

(** *** Steps of the set *)

Definition leads (fr : frame) (p : pc) : Prop :=
  fits fr p ∨ (∃ b, p = Returned b) ∨
  (inserts (of_op fr) = true ∧ 0 < flevel fr ∧ ∃ P Q, p = FindStart (FAdd (frame_key fr) (flevel fr)) P Q).

Lemma fits_next_layer fr w P Q k pv hi : work_fits fr w → fits fr (next_layer w P Q k pv hi).
Proof.
  intros Hw. destruct (next_layer_cases w P Q k pv hi) as [[-> | ->]|Hp]; [done..|]. destruct w; rewrite Hp; [done|exact Hw].
Qed.

Lemma leads_unlock fr w P Q n pv valid : work_fits fr w → leads fr (unlockInt64 w P Q n pv valid).
Proof.
  intros Hw. induction n as [|i IH]; simpl; [|case_decide; [done|by left]].
  destruct valid; [by left|]. destruct w as [k lv|k x top]; simpl in *; [|by left].
  destruct Hw as (? & -> & -> & ?). right. right. eauto.
Qed.

Lemma fits_link fr k lv P Q hi nn j : work_fits fr (WAdd k lv) → fits fr (link_layer k lv P Q hi nn j).
Proof. intros Hw. unfold link_layer. by destruct (j <? lv). Qed.

Lemma fits_found fr f P Q lf p : finder_fits fr f → found f P Q lf = Some p → leads fr p.
Proof.
  destruct f as [|k|k [[n top]|]]; simpl; try done.
  - intros _ [= <-]. right. left. eauto.
  - intros Hf [= <-]. left. by apply fits_next_layer.
  - intros Hf. destruct lf as [l|]; [|intros [= <-]; right; left; eauto]. destruct (Q l); [|done]. intros [= <-]. by left.
Qed.

Lemma fits_lower fr f i x P Q lf p : finder_fits fr f → lower f i x P Q lf = Some p → leads fr p.
Proof. destruct i; simpl; [apply fits_found|]. intros Hf [= <-]. by left. Qed.

Lemma fits_search fr s f i x P Q lf p : finder_fits fr f → search s f i x P Q lf = Some p → leads fr p.
Proof.
  intros Hf. unfold search. destruct (atomicLoadNext s x i) as [succ|]; [|done]. cbn [mbind option_bind].
  assert (Hend : ∀ succ eq, layer_end f i x succ eq P Q lf = Some p → leads fr p).
  { intros q eq. destruct f as [|k|k m]; [done|simpl..].
    - unfold layer_has. destruct eq; [|by apply (fits_lower fr (FHas k))]. destruct q; [|done]. intros [= <-]. by left.
    - unfold layer_remove. destruct (write P i (Some x)); [|done]. destruct (write Q i q); [|done]. cbn [mbind option_bind].
      by apply (fits_lower fr (FRem k m)). }
  destruct succ as [y|]; [|apply Hend]. destruct (nodes s !! y) as [n|]; [|done]. cbn [mbind option_bind].
  destruct (lessthan n (key f)); [|apply Hend]. intros [= <-]. by left.
Qed.

Lemma store_size x i q s s' : atomicStoreNext x i q s = Some s' →
  length (nodes s') = length (nodes s) ∧ highestLevel s' = highestLevel s.
Proof.
  unfold atomicStoreNext. destruct (nodes s !! x); [|done]. simpl. destruct (store _ _ _); [|done]. simpl. intros [= <-].
  simpl. by rewrite length_insert.
Qed.

Lemma Unlock_size x s s' : Unlock s x = Some s' → length (nodes s') = length (nodes s) ∧ highestLevel s' = highestLevel s.
Proof.
  unfold Unlock. destruct (nodes s !! x) as [n|]; [|done]. simpl. destruct (mu n); [|done]. intros [= <-].
  simpl. by rewrite length_insert.
Qed.

Lemma goes_Go (o : option (Int64Set * pc)) s p : goes o = Go s p → o = Some (s, p).
Proof. destruct o as [[? ?]|]; simpl; [|done]. by intros [= -> ->]. Qed.

Lemma Lock_Go t s x p s' p' : Lock t s x p = Go s' p' →
  p' = p ∧ length (nodes s') = length (nodes s) ∧ highestLevel s' = highestLevel s.
Proof.
  unfold Lock. destruct (nodes s !! x) as [n|]; [|done]. destruct (mu n); [done|]. intros [= <- <-]. simpl. by rewrite length_insert.
Qed.

Definition sizes (p : pc) (s s' : Int64Set) : Prop :=
  match p with AddNew _ _ _ _ _ => length (nodes s') = S (length (nodes s)) | _ => length (nodes s') = length (nodes s) end ∧
  highestLevel s' = highestLevel s.

Lemma leads_step fr t s p s' p' : fits fr p → thread_step t s p = Go s' p' → leads fr p' ∧ sizes p s s'.
Proof.
  intros Hf Hgo. unfold sizes. destruct p; simpl in Hf; try done; cbn [thread_step] in Hgo;
    try (apply goes_Go in Hgo);
    try match type of Hgo with context [read ?P ?k] => destruct (read P k); [|done]; cbn [mbind option_bind] in Hgo end;
    try match type of Hgo with context [nodes ?s !! ?n] => destruct (nodes s !! n); [|done]; cbn [mbind option_bind] in Hgo end;
    try match type of Hgo with context [atomicLoadNext ?s ?n ?i] => destruct (atomicLoadNext s n i); [|done]; cbn [mbind option_bind] in Hgo end.
  - destruct (highestLevel s) as [|i] eqn:Hh; [|injection Hgo as <- <-; rewrite Hh; split; [by left|done]].
    destruct (found f P Q None) as [p|] eqn:Hp; [|done]. injection Hgo as <- <-. rewrite Hh. split; [by eapply fits_found|done].
  - destruct (search s f i x P Q lf) as [p|] eqn:Hp; [|done]. injection Hgo as <- <-. split; [by eapply fits_search|done].
  - injection Hgo as <- <-. split; [right; left; eauto|done].
  - injection Hgo as <- <-. split; [|done]. destruct (_ && _); [by left|right; left; eauto].
  - apply Lock_Go in Hgo as (-> & ? & ?). split; [by left|done].
  - injection Hgo as <- <-. split; [|done]. by destruct (Get _ _); left.
  - destruct (Unlock s n) as [s1|] eqn:Hu; [|done]. injection Hgo as <- <-. apply Unlock_size in Hu. split; [right; left; eauto|done].
  - injection Hgo as <- <-. simpl. rewrite length_insert. split; [left; by apply fits_next_layer|done].
  - apply Lock_Go in Hgo as (-> & ? & ?). split; [by left|done].
  - injection Hgo as <- <-. split; [|done]. destruct (Get _ _); [by apply leads_unlock|].
    destruct w; [|by left]. by destruct (Q k); left.
  - injection Hgo as <- <-. split; [|done]. destruct (Get _ _); [by apply leads_unlock|by left].
  - injection Hgo as <- <-. split; [|done]. case_decide; [left; by apply fits_next_layer|by apply leads_unlock].
  - injection Hgo as <- <-. simpl. rewrite length_app. simpl. split; [left; by apply fits_link|split; [lia|done]].
  - destruct (atomicStoreNext nn k (Q k) s) as [s1|] eqn:Hst; [|done]. injection Hgo as <- <-. apply store_size in Hst. split; [by left|done].
  - destruct (atomicStoreNext _ _ _ s) as [s1|] eqn:Hst; [|done]. injection Hgo as <- <-. apply store_size in Hst.
    split; [left; by apply fits_link|done].
  - injection Hgo as <- <-. simpl. rewrite length_insert. split; [by apply leads_unlock|done].
  - injection Hgo as <- <-. split; [by left|done].
  - destruct (atomicStoreNext _ _ _ s) as [s1|] eqn:Hst; [|done]. injection Hgo as <- <-. apply store_size in Hst.
    split; [left; by destruct i|done].
  - destruct (Unlock s n) as [s1|] eqn:Hu; [|done]. injection Hgo as <- <-. apply Unlock_size in Hu. split; [by apply leads_unlock|done].
  - destruct (Unlock s _) as [s1|] eqn:Hu; [|done]. injection Hgo as <- <-. apply Unlock_size in Hu. split; [by apply leads_unlock|done].
  - injection Hgo as <- <-. split; [right; left; eauto|done].
Qed.
End map.

(** * The concurrent map: every step

    Each step of a goroutine keeps the invariant, and none panics. *)

Section map.
Context {K C V : Type} `{CC : Countable C} {HK : SkipKey K C}.
#[local] Abbreviation Int64Set := (@Int64Set K).
#[local] Abbreviation pc := (@pc K).
#[local] Abbreviation work := (@work K).
#[local] Abbreviation config := (@config K).
#[local] Abbreviation frame := (@frame K V).
#[local] Abbreviation mpc := (@mpc K V).
#[local] Abbreviation mop := (@mop K V).
#[local] Abbreviation mconfig := (@mconfig K V).
#[local] Abbreviation moutcome := (@moutcome K V).
Implicit Types (s : Int64Set) (c : mconfig) (fr : frame) (w : work).

(** ** After a step of the set *)

Lemma pinv_again (s : Int64Set) (ths : nat → pc) t p q :
  pinv (moved (mkConfig s (<[t := p]> ths)) t q) → pinv (mkConfig s (<[t := q]> ths)).
Proof.
  apply pinv_ext; [done|]. intros u. simpl. destruct (decide (u = t)) as [->|Hne]; [by rewrite !fn_lookup_insert|].
  by rewrite !fn_lookup_insert_ne.
Qed.

Lemma pinv_drop (s : Int64Set) (ths : nat → pc) t b b' :
  pinv (mkConfig s (<[t := Returned b]> ths)) → pinv (mkConfig s (<[t := Returned b']> ths)).
Proof. intros H. eapply pinv_again, move_drop; [exact H|]. cbn [threads]. rewrite fn_lookup_insert. split_and!; [intros ? []|done..]. Qed.

Lemma resume_ok fr s (ths : nat → pc) t p : leads fr p → pinv (mkConfig s (<[t := p]> ths)) →
  pinv (mkConfig s (<[t := proj (resume fr p)]> ths)) ∧ mextra s (resume fr p).
Proof.
  intros [Hf|[[b ->]|(Hi & Hl & P & Q & ->)]] Hp.
  - assert (Hnext : ∀ w P Q k hi, work_fits fr w → pinv (mkConfig s (<[t := CheckNext w P Q k hi]> ths)) →
      is_store (of_op fr) = false ∧ is_load (of_op fr) = false ∧ deletes (of_op fr) = false → 
      pinv (mkConfig s (<[t := proj (MNext fr w P Q k hi)]> ths)) ∧ mextra s (MNext fr w P Q k hi)).
    { intros w P Q k hi Hw Hpi Hop. split; [done|]. split; [|done]. by destruct (of_op fr); destruct Hop as (? & ? & ?). }
    destruct p; try done; simpl in Hf.
    + by destruct f.
    + simpl. destruct (of_op fr) eqn:Ho; try done. apply Hnext; [done| |done].
      eapply pinv_again, move_weaken; [exact Hp|]. simpl. by rewrite fn_lookup_insert.
    + simpl. destruct (of_op fr) eqn:Ho; try done. by apply Hnext.
  - split; [|done]. by eapply pinv_drop.
  - simpl. unfold aim, inserting. rewrite (proj2 (Nat.eqb_neq _ _)) by lia. split; [done|]. split; [split; [done|lia]|].
    destruct Hp as [g HI]. pose proof (inv_thread _ _ HI t) as Hti. simpl in Hti. rewrite fn_lookup_insert in Hti. simpl in Hti.
    by destruct (ordered (frame_key fr)).
Qed.

Lemma unwind_ok fr s (ths : nat → pc) t w P Q n pv : inserts (of_op fr) = true → work_fits fr w →
  pinv (mkConfig s (<[t := unlockInt64 w P Q n pv false]> ths)) →
  pinv (mkConfig s (<[t := proj (unwind fr (unlockInt64 w P Q n pv false))]> ths)) ∧
  mextra s (unwind fr (unlockInt64 w P Q n pv false)).
Proof.
  intros Hi Hw. induction n as [|n IH]; simpl.
  - intros Hp. split; [|done]. destruct w as [k lv|k x top]; [|destruct Hw as [Hw _]; by destruct (of_op fr)].
    eapply pinv_again, move_drop; [exact Hp|]. simpl. rewrite fn_lookup_insert. split_and!; [intros ? []|done..].
  - case_decide; [done|]. intros Hp. split; [done|]. split; [done|]. eauto 10.
Qed.

(** After the level is drawn. *)
Lemma leveled_store fr P Q : is_store (of_op fr) = true → leveled fr P Q = MFindStart (set_level fr) P Q.
Proof. unfold leveled. simpl. by destruct (of_op fr). Qed.

Lemma leveled_other fr P Q : is_store (of_op fr) = false →
  leveled fr P Q = if fhl fr <? draw fr then MFindStart (set_level fr) P Q
                   else MRun (set_level fr) (next_layer (WAdd (frame_key fr) (draw fr)) P Q 0 None 0).
Proof. unfold leveled. simpl. change (frame_key (set_level fr)) with (frame_key fr). by destruct (of_op fr). Qed.

Lemma aim_set_level fr : undrawn fr → aim (set_level fr) = draw fr.
Proof. intros (_ & _ & ?). unfold aim. simpl. by rewrite (proj2 (Nat.eqb_neq _ _)) by lia. Qed.

Lemma leveled_ok (cc : config) t fr P Q s : pinv cc → undrawn fr → ordered (frame_key fr) = true →
  draw fr <= highestLevel (shared cc) →
  (is_store (of_op fr) = true → target (threads cc t) = Some (rank (frame_key fr)) ∧ free (threads cc t)) →
  (is_store (of_op fr) = false → threads cc t = LockPred (WAdd (frame_key fr) (fhl fr)) P Q 0 0) →
  pinv (moved cc t (proj (leveled fr P Q))) ∧ mextra s (leveled fr P Q).
Proof.
  intros Hp Hu Hor Hd Hs Hn. pose proof Hu as (Hi & Hl & Hdr).
  assert (Hsearch : target (threads cc t) = Some (rank (frame_key fr)) → free (threads cc t) →
    pinv (moved cc t (proj (MFindStart (set_level fr) P Q))) ∧ mextra s (MFindStart (set_level fr) P Q)).
  { intros Htg Hf. split; [|split; [split; [done|simpl; lia]|done]]. simpl. rewrite aim_set_level by done. by apply move_search; try lia. }
  destruct (is_store (of_op fr)) eqn:Hst; [rewrite leveled_store by done; by apply Hsearch; apply Hs|].
  rewrite leveled_other by done. specialize (Hn eq_refl). destruct (Nat.ltb_spec (fhl fr) (draw fr)).
  - apply Hsearch; rewrite Hn; [done|apply free_lock].
  - split; [simpl; eapply move_lower; [done|done|lia]|]. apply fits_next_layer. split_and!; try done. lia.
Qed.

(** [findNode] is the search of the set. *)
Lemma findNode_search s k lv i x P Q :
  search s (FAdd k lv) i x P Q None =
  match findNode s k i x P Q with
  | None => None
  | Some (Further i x P Q) => Some (FindLoad (FAdd k lv) i x P Q None)
  | Some (Hit n P Q) => Some (AddFound k lv n P Q)
  | Some (Missing P Q) => Some (next_layer (WAdd k lv) P Q 0 None 0)
  end.
Proof.
  unfold search, findNode. destruct (atomicLoadNext s x i) as [[y|]|]; simpl; [|unfold layer_add|done].
  - destruct (nodes s !! y) as [n|]; [|done]. simpl. destruct (lessthan n k); [done|]. unfold layer_add.
    destruct (write P i (Some x)) as [P'|]; [|done]. simpl. destruct (write Q i (Some y)) as [Q'|]; [|done]. simpl.
    destruct (equal n k); [done|]. by destruct i.
  - destruct (write P i (Some x)) as [P'|]; [|done]. simpl. destruct (write Q i None) as [Q'|]; [|done]. by destruct i.
Qed.

Lemma write_first P x P' : write P 0 (Some x) = Some P' → P' 0 = Some x.
Proof. unfold write. simpl. intros [= <-]. apply fn_lookup_insert. Qed.

Lemma findNode_missing s k i x P Q P' Q' : findNode s k i x P Q = Some (Missing P' Q') → P' 0 = Some x.
Proof.
  unfold findNode. destruct (atomicLoadNext s x i) as [[y|]|]; simpl; [|unfold layer_add|done].
  - destruct (nodes s !! y) as [n|]; [|done]. simpl. destruct (lessthan n k); [done|].
    destruct (write P i (Some x)) as [P1|] eqn:Hw; [|done]. simpl. destruct (write Q i (Some y)); [|done]. simpl.
    destruct (equal n k); [done|]. destruct i; [|done]. intros [= <- _]. by eapply write_first.
  - destruct (write P i (Some x)) as [P1|] eqn:Hw; [|done]. simpl. destruct (write Q i None); [|done]. destruct i; [|done].
    intros [= <- _]. by eapply write_first.
Qed.

Lemma next_layer_first (k : K) lv P Q x : 0 < lv → P 0 = Some x →
  next_layer (WAdd k lv) P Q 0 None 0 = LockPred (WAdd k lv) P Q 0 0.
Proof.
  intros Hl Hx. unfold next_layer. simpl. rewrite (proj2 (Nat.ltb_lt _ _)) by done. by rewrite decide_False by congruence.
Qed.

(** ** The steps *)

Section steps.
Context (c : mconfig) (t : nat) (HM : MInv c).
Local Abbreviation m := (mshared c).
Local Abbreviation s := (nodes_part (mshared c)).
Local Abbreviation ths := (threads (projc c)).

Definition goes_well (o : moutcome) : Prop :=
  match o with
  | MGo m' p' => MInv (mkMConfig m' (<[t := p']> (mthreads c)))
  | MBlocked => True
  | MPanics => False
  end.

Lemma go_well m' p' : pinv (mkConfig (nodes_part m') (<[t := proj p']> ths)) →
  length (vals m') = length (nodes (nodes_part m')) → length (nodes s) <= length (nodes (nodes_part m')) →
  highestLevel s <= highestLevel (nodes_part m') → mextra (nodes_part m') p' → goes_well (MGo m' p').
Proof using HM.
  intros Hp Hv Hn Hh He. split; simpl.
  - eapply pinv_ext; [| |exact Hp]; [done|]. intros u. simpl. destruct (decide (u = t)) as [->|Hne]; [by rewrite !fn_lookup_insert|].
    by rewrite !fn_lookup_insert_ne.
  - done.
  - pose proof (mi_high _ HM). lia.
  - intros u. destruct (decide (u = t)) as [->|Hne]; [by rewrite fn_lookup_insert|]. rewrite fn_lookup_insert_ne by done.
    eapply mextra_mono; [exact Hn|]. apply HM.
Qed.

(** A step that leaves the shared state alone. *)
Lemma stay_well p' : pinv (moved (projc c) t (proj p')) → mextra s p' → goes_well (MGo m p').
Proof using HM. intros Hp He. apply go_well; try done. apply HM. Qed.

(** A step of the set. *)
Lemma shared_well fr p k : mthreads c t = MRun fr p ∨ mthreads c t = MUnwind fr p → fits fr p →
  match p with AddNew _ _ _ _ _ => False | _ => True end →
  (∀ s' p', thread_step t s p = Go s' p' → leads fr p' → pinv (mkConfig s' (<[t := p']> ths)) →
    pinv (mkConfig s' (<[t := proj (k p')]> ths)) ∧ mextra s' (k p')) →
  goes_well (shared_step t m k p).
Proof using HM.
  intros Ht Hf Hnew Hk. assert (Hp : proj (mthreads c t) = p) by by destruct Ht as [-> | ->].
  unfold shared_step. destruct (thread_step t s p) as [s' p'| |] eqn:Hgo; [|done|].
  - destruct (leads_step fr t s p s' p' Hf Hgo) as [Hl [Hsz Hh]].
    assert (Hpi : pinv (mkConfig s' (<[t := p']> ths))) by (apply (set_go (projc c) t); [apply HM|simpl; by rewrite Hp]).
    destruct (Hk s' p' eq_refl Hl Hpi) as [Hpi' He]. apply go_well; simpl; try done.
    + rewrite (mi_vals _ HM). by destruct p.
    + by destruct p; rewrite Hsz.
    + by rewrite Hh.
  - apply (pinv_no_panic (projc c) t); [apply HM|]. simpl. by rewrite Hp.
Qed.

Lemma thread_facts p : proj (mthreads c t) = p → ∃ g, Inv g (projc c) ∧ thread_inv g s t p.
Proof using HM.
  intros Hp. destruct (mi_set _ HM) as [g HI]. exists g. split; [done|]. pose proof (inv_thread _ _ HI t) as Hti.
  simpl in Hti. by rewrite Hp in Hti.
Qed.

Lemma extra_at p : mthreads c t = p → mextra s p.
Proof using HM. intros <-. apply HM. Qed.

Lemma step_MStart fr : mthreads c t = MStart fr → goes_well (map_step t m (MStart fr)).
Proof using HM.
  intros Ht. pose proof (extra_at _ Ht) as (Hi & Hl & Hd).
  assert (Hp : proj (mthreads c t) = RandLoad (frame_key fr) 1) by by rewrite Ht.
  cbn [map_step]. destruct (veq (frame_key fr) (frame_key fr)) eqn:Hor; cbn [negb].
  - destruct (is_store (of_op fr)) eqn:Hst.
    + destruct (of_op fr) eqn:Ho; try done. apply stay_well; [|by rewrite <- Ho in *].
      simpl. rewrite Ho. simpl. eapply (move_draw (projc c) t _ 1); [apply HM|exact Hp|done].
    + assert (Hgo : goes_well (MGo m (MFindStart (mkFrame (of_op fr) (draw fr) (flevel fr) (highestLevel s)) nils nils))).
      { apply stay_well; [|by split]. simpl. unfold aim. simpl. rewrite Hl. simpl.
        apply move_search; simpl; rewrite ?Hp; [apply HM|by apply tkey_ordered|split_and!; [intros ? []|done..]|done|].
        pose proof (mi_high _ HM). lia. }
      by destruct (of_op fr).
  - apply stay_well; [|done]. apply move_drop; simpl; rewrite ?Hp; [apply HM|split_and!; [intros ? []|done..]].
Qed.
Lemma step_MRandLoad fr P Q : mthreads c t = MRandLoad fr P Q → goes_well (map_step t m (MRandLoad fr P Q)).
Proof using HM.
  intros Ht. pose proof (extra_at _ Ht) as (Hu & Hor). pose proof Hu as (Hi & Hl & Hd). cbn [map_step].
  assert (Hp : proj (mthreads c t) = proj (MRandLoad fr P Q)) by by rewrite Ht.
  destruct (Nat.leb_spec (draw fr) (highestLevel s)) as [Hle|Hgt].
  - destruct (leveled_ok (projc c) t fr P Q s) as [Hpi He]; try done; [apply HM| | |].
    + intros Hst. simpl. rewrite Hp. simpl. rewrite Hst. split; [by apply tkey_ordered|]. split_and!; [intros ? []|done..].
    + intros Hst. simpl. rewrite Hp. simpl. by rewrite Hst.
    + by apply stay_well.
  - apply stay_well; [|by split_and!]. destruct (is_store (of_op fr)) eqn:Hst; simpl; rewrite Hst.
    + apply (set_go (projc c) t); [apply HM|]. simpl. rewrite Hp. simpl. rewrite Hst. cbn [thread_step].
      unfold ordered in Hor. rewrite Hor. simpl. by rewrite (proj2 (Nat.leb_gt _ _)).
    + eapply pinv_ext; [| |apply HM]; [done|]. intros u. simpl. destruct (decide (u = t)) as [->|]; [|by rewrite fn_lookup_insert_ne].
      rewrite fn_lookup_insert, Hp. simpl. by rewrite Hst.
Qed.

Lemma step_MRandCas fr cur P Q : mthreads c t = MRandCas fr cur P Q → goes_well (map_step t m (MRandCas fr cur P Q)).
Proof using HM.
  intros Ht. pose proof (extra_at _ Ht) as (Hu & Hor & Hcur). pose proof Hu as (Hi & Hl & Hd). cbn [map_step].
  assert (Hp : proj (mthreads c t) = proj (MRandCas fr cur P Q)) by by rewrite Ht. destruct (decide (highestLevel s = cur)) as [He|He].
  - set (cc := mkConfig (mkSet (nodes s) (len s) (draw fr)) ths).
    assert (Hcc : pinv cc).
    { destruct (mi_set _ HM) as [g HI]. exists g. apply (raise_move g (projc c) t HI); simpl; lia. }
    destruct (leveled_ok cc t fr P Q (shared cc)) as [Hpi Hex]; try done.
    + intros Hst. simpl. rewrite Hp. simpl. rewrite Hst. split; [done|]. split_and!; [intros ? []|done..].
    + intros Hst. simpl. rewrite Hp. simpl. by rewrite Hst.
    + apply go_well; simpl; try done; [apply HM|lia].
  - apply stay_well; [|by split_and!]. destruct (is_store (of_op fr)) eqn:Hst; simpl; rewrite Hst.
    + apply (set_go (projc c) t); [apply HM|]. simpl. rewrite Hp. simpl. rewrite Hst. cbn [thread_step]. by rewrite decide_False.
    + eapply pinv_ext; [| |apply HM]; [done|]. intros u. simpl. destruct (decide (u = t)) as [->|]; [|by rewrite fn_lookup_insert_ne].
      rewrite fn_lookup_insert, Hp. simpl. by rewrite Hst.
Qed.

Lemma step_MFindStart fr P Q : mthreads c t = MFindStart fr P Q → goes_well (map_step t m (MFindStart fr P Q)).
Proof using HM.
  intros Ht. pose proof (extra_at _ Ht) as He. cbn [map_step]. pose proof (mi_high _ HM) as Hh.
  destruct (highestLevel s) as [|i] eqn:Hhl; [lia|]. apply stay_well; [|done].
  apply (set_go (projc c) t); [apply HM|]. simpl. rewrite Ht. simpl. by rewrite Hhl.
Qed.
Lemma step_MFind fr i x P Q : mthreads c t = MFind fr i x P Q → goes_well (map_step t m (MFind fr i x P Q)).
Proof using HM.
  intros Ht. pose proof (extra_at _ Ht) as ([Hi Hun] & Hor). assert (Hp : proj (mthreads c t) = proj (MFind fr i x P Q)) by by rewrite Ht.
  destruct (thread_facts _ Hp) as (g & HI & Hti). cbn [map_step].
  assert (Hlv : 1 <= aim fr). { simpl in Hti. rewrite Hor in Hti. destruct Hti as ([_ Hl] & _). unfold level_ok in Hl. lia. }
  assert (Hst : thread_step t s (proj (mthreads c t)) =
    goes (p ← search s (FAdd (frame_key fr) (aim fr)) i x P Q None; Some (s, p))) by by rewrite Hp.
  pose proof (pinv_no_panic (projc c) t (mi_set _ HM)) as Hnp. simpl in Hnp. rewrite findNode_search in Hst.
  destruct (findNode s (frame_key fr) i x P Q) as [r|] eqn:Hfn; [|by rewrite Hst in Hnp].
  assert (Hgo : ∀ p, thread_step t s (proj (mthreads c t)) = Go s p → pinv (moved (projc c) t p)) by (intros p; apply (set_go (projc c) t), HM).
  cbn [mbind option_bind mgoes]. destruct r as [i' x' P' Q'|n P' Q'|P' Q']; cbn [sought_pc]; apply Hgo in Hst.
  - by apply stay_well.
  - apply stay_well; [done|]. split_and!; [done..|]. destruct Hst as [g' HI']. pose proof (inv_thread _ _ HI' t) as Hti'.
    simpl in Hti'. rewrite fn_lookup_insert in Hti'. apply Hti'.
  - pose proof (findNode_missing _ _ _ _ _ _ _ _ Hfn) as Hx. unfold after_find, aim in *.
    destruct (Nat.eqb_spec (flevel fr) 0) as [Hl0|Hl0].
    + destruct (Hun Hl0) as [Hns Hd]. apply stay_well; [|by split_and!]. simpl. rewrite Hns.
      by rewrite next_layer_first with (x := x) in Hst.
    + apply stay_well; [done|]. apply fits_next_layer. split_and!; try done.
Qed.

Lemma step_MFound fr n P Q : mthreads c t = MFound fr n P Q → goes_well (map_step t m (MFound fr n P Q)).
Proof using HM.
  intros Ht. pose proof (extra_at _ Ht) as (Hi & Hor & Ha). assert (Hp : proj (mthreads c t) = proj (MFound fr n P Q)) by by rewrite Ht.
  cbn [map_step]. rewrite lookup_node by done. cbn [mbind option_bind mgoes]. destruct (Get _ _) eqn:Hm.
  - apply stay_well; [|done]. apply (set_go (projc c) t); [apply HM|]. simpl. rewrite Hp. cbn [proj thread_step].
    rewrite lookup_node by done. cbn [mbind option_bind goes]. by rewrite Hm.
  - assert (Hdr : pinv (moved (projc c) t (Returned false))).
    { apply move_drop; [apply HM|]. simpl. rewrite Hp. split_and!; [intros ? []|done..]. }
    unfold present. destruct (of_op fr) eqn:Ho; apply stay_well; try done; simpl; by rewrite ?Ho; unfold frame_key; rewrite ?Ho.
Qed.

Lemma returned_well m' o r : proj (mthreads c t) = Returned false → nodes_part m' = s →
  length (vals m') = length (nodes s) → goes_well (MGo m' (MReturned o r)).
Proof using HM.
  intros Hp Hn Hv. apply go_well; rewrite ?Hn; try done. eapply pinv_ext; [| |apply HM]; [done|]. intros u. simpl.
  destruct (decide (u = t)) as [->|]; [by rewrite fn_lookup_insert|by rewrite fn_lookup_insert_ne].
Qed.

Lemma step_MStoreVal fr v n : mthreads c t = MStoreVal fr v n → goes_well (map_step t m (MStoreVal fr v n)).
Proof using HM.
  intros Ht. pose proof (extra_at _ Ht) as (_ & Ha). cbn [map_step]. unfold storeVal, alloc in *. pose proof (mi_vals _ HM) as Hv.
  rewrite (proj2 (Nat.ltb_lt _ _)) by lia. cbn [mbind option_bind mgoes]. apply returned_well; [by rewrite Ht|done|].
  simpl. by rewrite length_insert.
Qed.

Lemma step_MLoadVal fr n : mthreads c t = MLoadVal fr n → goes_well (map_step t m (MLoadVal fr n)).
Proof using HM.
  intros Ht. pose proof (extra_at _ Ht) as (_ & Ha). cbn [map_step]. unfold loadVal, alloc in *. pose proof (mi_vals _ HM) as Hv.
  destruct (lookup_lt_is_Some_2 (vals m) n) as [v ->]; [lia|]. cbn [mbind option_bind mgoes].
  apply returned_well; [by rewrite Ht|done|done].
Qed.
Lemma insert_work fr w : inserts (of_op fr) = true → work_fits fr w → ∃ lv, w = WAdd (frame_key fr) lv ∧ 0 < lv.
Proof using. destruct w as [k lv|k n top]; simpl; [intros _ (_ & -> & _ & ?); eauto|]. intros Hi [Hd _]. by destruct (of_op fr). Qed.

Lemma step_MNext fr w P Q k hi : mthreads c t = MNext fr w P Q k hi → goes_well (map_step t m (MNext fr w P Q k hi)).
Proof using HM.
  intros Ht. pose proof (extra_at _ Ht) as (Hi & Hw). assert (Hp : proj (mthreads c t) = CheckNext w P Q k hi) by by rewrite Ht.
  destruct (thread_facts _ Hp) as (g & HI & (_ & Hk & _)). pose proof (pinv_no_panic (projc c) t (mi_set _ HM)) as Hnp.
  pose proof (λ s' p', set_go (projc c) t s' p' (mi_set _ HM)) as Hgo. simpl in Hnp, Hgo. rewrite Hp in Hnp, Hgo.
  cbn [map_step thread_step] in *. destruct (read P k) as [q|]; [|done]. cbn [mbind option_bind] in *.
  destruct (atomicLoadNext s q k) as [nx|]; [|done]. cbn [mbind option_bind goes mgoes] in *. specialize (Hgo _ _ eq_refl).
  destruct (decide (nx = Q k)) as [Hn|Hn].
  - destruct (Q k) as [y|] eqn:Hq.
    + apply stay_well; [exact Hgo|]. split_and!; [done..|by rewrite Hq].
    + apply stay_well; [exact Hgo|by apply fits_next_layer].
  - destruct (resume_ok fr s ths t _ (leads_unlock fr w P Q hi None false Hw) Hgo) as [Hpi He]. by apply stay_well.
Qed.

Lemma next_layer_knows g lv v P Q k pv hi : thread_inv g s t (next_layer (WAdd v lv) P Q k pv hi) →
  (∃ j, changing g s t (WAdd v lv) P Q j) ∧ target (next_layer (WAdd v lv) P Q k pv hi) = Some (rank v).
Proof using.
  destruct (next_layer_cases (WAdd v lv) P Q k pv hi) as [[-> | ->]| ->]; intros Hti; split; try done; eexists; apply Hti.
Qed.

Lemma step_MSucc fr w P Q k hi : mthreads c t = MSucc fr w P Q k hi → goes_well (map_step t m (MSucc fr w P Q k hi)).
Proof using HM.
  intros Ht. pose proof (extra_at _ Ht) as (Hi & Hw & Hk & [q Hq]). destruct (insert_work fr w Hi Hw) as (lv & -> & Hlv).
  set (v := frame_key fr) in *. assert (Hp : proj (mthreads c t) = next_layer (WAdd v lv) P Q (S k) (P k) hi) by by rewrite Ht.
  destruct (thread_facts _ Hp) as (g & HI & Hti). destruct (next_layer_knows _ _ _ _ _ _ _ _ Hti) as [[j Hc] Htg].
  assert (Hg : ghost_inv g s t (rank v)) by (apply (inv_ghost _ _ HI); simpl; by rewrite Hp).
  pose proof Hc as ([_ Hlo] & Hse & _). pose proof (si_high _ _ (inv_shared _ _ HI)) as Hmax. simpl in Hk, Hmax. unfold level_ok in Hlo.
  destruct (Hse k) as (_ & _ & _ & _ & Hqq); [simpl; lia|]. destruct (Hqq q Hq) as (Hrq & _).
  destruct (gi_alloc _ _ _ _ Hg q k Hrq) as [Ha _]. cbn [map_step]. unfold read. rewrite (proj2 (Nat.ltb_lt _ _)) by lia.
  rewrite Hq. cbn [mbind option_bind]. rewrite lookup_node by done. cbn [mbind option_bind mgoes].
  destruct (Get _ _).
  - assert (Hpi : pinv (moved (projc c) t (unlockInt64 (WAdd v lv) P Q hi None false))).
    { apply (move_release (projc c) t v lv P Q (S k)); [apply HM|]. simpl. rewrite Hp.
      destruct (next_layer_cases (WAdd v lv) P Q (S k) (P k) hi) as [[-> | ->]| ->]; auto. }
    destruct (resume_ok fr s ths t _ (leads_unlock fr _ P Q hi None false Hw) Hpi) as [Hpi' He]. by apply stay_well.
  - apply stay_well; [|by apply fits_next_layer]. eapply pinv_ext; [| |apply HM]; [done|]. intros u. simpl.
    destruct (decide (u = t)) as [->|]; [by rewrite fn_lookup_insert|by rewrite fn_lookup_insert_ne].
Qed.

Lemma step_HasFlags_map fr k n : mthreads c t = MRun fr (HasFlags k n) → goes_well (run_step t m fr (HasFlags k n)).
Proof using HM.
  intros Ht. pose proof (extra_at _ Ht) as [Hl _]. assert (Hp : proj (mthreads c t) = HasFlags k n) by by rewrite Ht.
  destruct (thread_facts _ Hp) as (g & HI & [(Ha & _) _]). cbn [run_step]. rewrite lookup_node by done. cbn [mbind option_bind mgoes].
  assert (Hdr : pinv (moved (projc c) t (Returned false))).
  { apply move_drop; [apply HM|]. simpl. rewrite Hp. split_and!; [intros ? []|done..]. }
  destruct (MGet _ _ _); apply stay_well; try done. split; [by destruct (of_op fr)|done].
Qed.

Lemma step_AddNew_map fr k lv P Q hi : mthreads c t = MRun fr (AddNew k lv P Q hi) → goes_well (run_step t m fr (AddNew k lv P Q hi)).
Proof using HM.
  intros Ht. pose proof (extra_at _ Ht) as Hw. assert (Hp : proj (mthreads c t) = AddNew k lv P Q hi) by by rewrite Ht.
  cbn [run_step]. destruct (given (of_op fr)) as [v|].
  - apply go_well; simpl; try done.
    + apply (set_go (projc c) t); [apply HM|]. simpl. by rewrite Hp.
    + rewrite !length_app, (mi_vals _ HM). done.
    + rewrite length_app. lia.
    + by apply fits_link.
  - assert (Hpi : pinv (moved (projc c) t (unlockInt64 (WAdd k lv) P Q hi None false))).
    { apply (move_release (projc c) t k lv P Q 0); [apply HM|]. simpl. rewrite Hp. auto. }
    destruct (unwind_ok fr s ths t (WAdd k lv) P Q hi None) as [Hpi' He]; [apply Hw|done|done|]. by apply stay_well.
Qed.

Lemma step_LenAdd_map fr k n top : mthreads c t = MRun fr (LenAdd (WRem k n top)) → goes_well (run_step t m fr (LenAdd (WRem k n top))).
Proof using HM.
  intros Ht. pose proof (extra_at _ Ht) as Hw. assert (Hp : proj (mthreads c t) = LenAdd (WRem k n top)) by by rewrite Ht.
  destruct (thread_facts _ Hp) as (g & HI & Ha). cbn [run_step]. eapply shared_well; [by left|done|done|].
  intros s' p' Hgo Hl Hpi. destruct (of_op fr) eqn:Ho; try (by apply resume_ok). injection Hgo as <- <-. simpl. rewrite Ho.
  split; [by eapply pinv_drop|done].
Qed.

Lemma step_MRun fr p : mthreads c t = MRun fr p → goes_well (run_step t m fr p).
Proof using HM.
  intros Ht. pose proof (extra_at _ Ht) as Hf. simpl in Hf.
  assert (Hdef : match p with AddNew _ _ _ _ _ => False | _ => True end → goes_well (shared_step t m (resume fr) p)).
  { intros Hn. eapply shared_well; [by left|done|done|]. intros s' p' _ Hl Hpi. by apply resume_ok. }
  destruct p; try done; try (by apply Hdef).
  - by apply step_HasFlags_map.
  - by apply step_AddNew_map.
  - destruct w as [|k n top]; [by apply Hdef|]. by apply step_LenAdd_map.
Qed.

Lemma step_MUnwind fr p : mthreads c t = MUnwind fr p → goes_well (map_step t m (MUnwind fr p)).
Proof using HM.
  intros Ht. pose proof (extra_at _ Ht) as (Hi & w & P & Q & i & -> & Hw). cbn [map_step].
  eapply shared_well; [by right|done|done|]. intros s' p' Hgo Hl Hpi. cbn [thread_step] in Hgo. apply goes_Go in Hgo.
  destruct (read P i) as [q|]; [|done]. cbn [mbind option_bind] in Hgo. destruct (Unlock s q) as [s1|]; [|done].
  injection Hgo as <- <-. by apply unwind_ok.
Qed.

Lemma map_step_well : goes_well (map_step t m (mthreads c t)).
Proof using HM.
  destruct (mthreads c t) eqn:Ht.
  - done.
  - by apply step_MStart.
  - by apply step_MRandLoad.
  - by apply step_MRandCas.
  - by apply step_MFindStart.
  - by apply step_MFind.
  - by apply step_MFound.
  - by apply step_MStoreVal.
  - by apply step_MLoadVal.
  - by apply step_MNext.
  - by apply step_MSucc.
  - by apply step_MRun.
  - by apply step_MUnwind.
  - done.
Qed.
End steps.
End map.

(** * The concurrent map: every reachable state

    The invariant holds in every reachable state; a goroutine that waits for a
    lock waits for one that can go on. *)

Section map.
Context {K C V : Type} `{CC : Countable C} {HK : SkipKey K C}.
#[local] Abbreviation Int64Set := (@Int64Set K).
#[local] Abbreviation pc := (@pc K).
#[local] Abbreviation frame := (@frame K V).
#[local] Abbreviation mpc := (@mpc K V).
#[local] Abbreviation mop := (@mop K V).
#[local] Abbreviation mresult := (@mresult V).
#[local] Abbreviation Int64Map := (@Int64Map K V).
#[local] Abbreviation mconfig := (@mconfig K V).
Implicit Types (s : Int64Set) (m : Int64Map) (c : mconfig) (fr : frame).

(** ** The invariant *)

Lemma MInv_initial (e : V) : MInv (minitial e : mconfig).
Proof.
  split; try done; [|simpl; unfold defaultHighestLevel; lia]. exists ghost0. eapply Inv_ext; [| |apply set_Inv_initial]; done.
Qed.

Lemma projc_insert c t p u : threads (projc (mkMConfig (mshared c) (<[t := p]> (mthreads c)))) u = <[t := proj p]> (threads (projc c)) u.
Proof. simpl. destruct (decide (u = t)) as [->|]; [by rewrite !fn_lookup_insert|by rewrite !fn_lookup_insert_ne]. Qed.

Lemma MInv_moved c t p : MInv c → pinv (moved (projc c) t (proj p)) → mextra (nodes_part (mshared c)) p →
  MInv (mkMConfig (mshared c) (<[t := p]> (mthreads c))).
Proof. intros HM Hp He. by apply (stay_well c t HM p). Qed.

Lemma MInv_call c t o k : MInv c → mthreads c t = MIdle → MInv (mkMConfig (mshared c) (<[t := mstart o k]> (mthreads c))).
Proof.
  intros HM Ht. assert (Hp : threads (projc c) t = Idle) by (simpl; by rewrite Ht).
  pose proof (λ o' k', move_call (projc c) t o' k' (mi_set _ HM) Hp) as Hc. pose proof (randomLevel_ok k) as Hk.
  apply MInv_moved; [done| |by destruct o].
  destruct o as [x v|x|x|x v|x f|x]; first [exact (Hc (Add x) 0)|exact (Hc (Contains x) 0)|exact (Hc (Remove x) 0)].
Qed.

Lemma MInv_return c t o r : MInv c → mthreads c t = MReturned o r → MInv (mkMConfig (mshared c) (<[t := MIdle]> (mthreads c))).
Proof. intros HM Ht. apply MInv_moved; [done| |done]. apply (move_return _ _ false); [apply HM|]. simpl. by rewrite Ht. Qed.

Lemma MInv_step c lb c' : MInv c → mstep c lb c' → MInv c'.
Proof.
  intros HM Hst. destruct Hst as [c t o k Ht|c t m p Hgo|c t Hp|c t o r Ht].
  - by apply MInv_call.
  - pose proof (map_step_well c t HM) as Hw. by rewrite Hgo in Hw.
  - done.
  - by eapply MInv_return.
Qed.

Lemma MInv_exec c ls c' : MInv c → exec mstep c ls c' → MInv c'.
Proof. intros HM Hex. revert HM. induction Hex; intros HM; eauto using MInv_step. Qed.

Definition mreachable (e : V) c : Prop := ∃ ls, exec mstep (minitial e) ls c.

Lemma mreachable_MInv e c : mreachable e c → MInv c.
Proof. intros [ls Hex]. eapply MInv_exec; [apply (MInv_initial e)|exact Hex]. Qed.

(** ** Waiting *)

Lemma mgoes_blocked (o : option (Int64Map * mpc)) : mgoes o ≠ MBlocked.
Proof. by destruct o as [[]|]. Qed.

Lemma shared_blocked t m k p : shared_step t m k p = MBlocked → thread_step t (nodes_part m) p = Blocked.
Proof. unfold shared_step. by destruct (thread_step _ _ _). Qed.

Lemma map_blocked t m p : mextra (nodes_part m) p → map_step t m p = MBlocked → p ≠ MIdle → (∀ o r, p ≠ MReturned o r) →
  thread_step t (nodes_part m) (proj p) = Blocked ∧ proj p ≠ Idle ∧ ∀ r, proj p ≠ Returned r.
Proof.
  intros He Hb H0 Hr. destruct p as [| | | | | | | | | | |fr q|fr q|o r]; try done;
    try (by apply mgoes_blocked in Hb); try (by destruct (Hr o r)); simpl in Hb, He.
  - by destruct (negb _).
  - by destruct (decide _).
  - destruct q; try done; try (by apply shared_blocked in Hb); try (by apply mgoes_blocked in Hb).
    + simpl in Hb. by destruct (given (of_op fr)).
    + destruct w; by apply shared_blocked in Hb.
  - apply shared_blocked in Hb. destruct He as (_ & w & P & Q & i & -> & _). done.
Qed.

(** A goroutine that waits for a lock waits for one that has a lock and can
    make a step. *)
Lemma map_waits c t : MInv c → map_step t (mshared c) (mthreads c t) = MBlocked → mthreads c t ≠ MIdle →
  (∀ o r, mthreads c t ≠ MReturned o r) →
  ∃ u x m p, own (nodes_part (mshared c)) x = Some u ∧ map_step u (mshared c) (mthreads c u) = MGo m p.
Proof.
  intros HM Hb H0 Hr. destruct (mi_set _ HM) as [g HI].
  destruct (map_blocked _ _ _ (mi_extra _ HM t) Hb H0 Hr) as (Hb' & H0' & Hr').
  destruct (blocked_wants (projc c) t Hb' H0' Hr') as (y & w & _ & Hw).
  destruct (lock_holder_moves g _ HI (S (depth (projc c) y)) y w) as (u & x & Hu & Hm); [lia|done|].
  apply (inv_locks _ _ HI) in Hu as Hh. exists u, x. destruct Hm as [[r Hm]|(s' & p' & Hm & _)].
  { rewrite Hm in Hh. done. }
  pose proof (map_step_well c u HM) as Hw'. destruct (map_step u (mshared c) (mthreads c u)) as [m p| |] eqn:Hgo; [by exists m, p| |done].
  exfalso. simpl in Hm, Hh. destruct (map_blocked _ _ _ (mi_extra _ HM u) Hgo) as (Hb1 & _); [| |by rewrite Hb1 in Hm].
  - intros He. by rewrite He in Hh.
  - intros o r He. by rewrite He in Hh.
Qed.

Lemma map_moves c t : MInv c → mthreads c t ≠ MIdle →
  ∃ u, (∃ o r, mthreads c u = MReturned o r) ∨ ∃ m p, map_step u (mshared c) (mthreads c u) = MGo m p.
Proof.
  intros HM Ht. destruct (map_step t (mshared c) (mthreads c t)) as [m p| |] eqn:Hgo.
  - exists t. right. by exists m, p.
  - destruct (mthreads c t) as [| | | | | | | | | | | | |o r] eqn:Hp; try done; try (exists t; left; by exists o, r);
      (destruct (map_waits c t HM) as (u1 & _ & m1 & q1 & _ & Hu); [by rewrite Hp|by rewrite Hp|by rewrite Hp|]); exists u1; right; by exists m1, q1.
  - pose proof (map_step_well c t HM) as Hw. by rewrite Hgo in Hw.
Qed.
End map.
