(* ===== verification/SkipMapSolo.v ===== *)
(** * The concurrent map: its contents

    The map from ranks of keys to values that the fully linked, unmarked nodes
    make up, and what the steps that change values and flags do to it. *)

From stdpp Require Import functions sorting.
From S2P Require Import Prelude Atomic SkipSet SkipSetInv SkipSetHeap SkipSetMoves SkipSetSteps SkipSetLin SkipSetThms SkipSetProps SkipMap SkipMapInv.

Section map.
Context {K C V : Type} `{CC : Countable C} {HK : SkipKey K C}.
#[local] Abbreviation int64Node := (@int64Node K).
#[local] Abbreviation Int64Set := (@Int64Set K).
#[local] Abbreviation pc := (@pc K).
#[local] Abbreviation work := (@work K).
#[local] Abbreviation frame := (@frame K V).
#[local] Abbreviation mpc := (@mpc K V).
#[local] Abbreviation mop := (@mop K V).
#[local] Abbreviation mresult := (@mresult V).
#[local] Abbreviation Int64Map := (@Int64Map K V).
#[local] Abbreviation mconfig := (@mconfig K V).
Implicit Types (s : Int64Set) (m : Int64Map) (c : mconfig) (fr : frame) (M : gmap C V).

(** ** The contents of the map *)

Definition entry (n : int64Node) (v : V) : option (C * V) := if in_set n then Some (rank (value n), v) else None.
Definition mcontents (m : Int64Map) : gmap C V :=
  list_to_map (omap (λ nv, entry nv.1 nv.2) (drop 1 (zip (nodes (nodes_part m)) (vals m)))).

Definition holds (m : Int64Map) (M : gmap C V) : Prop :=
  ∀ r v, M !! r = Some v ↔ ∃ x, live (nodes_part m) x ∧ val (nodes_part m) x = r ∧ vals m !! x = Some v.

Lemma live_at s x n : nodes s !! x = Some n → live s x ↔ x ≠ 0 ∧ in_set n = true.
Proof.
  intros Hn. assert (Hx : node_at s x = n) by (unfold node_at; by rewrite Hn). unfold live, fl, mk, alloc.
  rewrite Hx, in_set_spec, andb_true_iff, negb_true_iff. apply lookup_lt_Some in Hn. tauto.
Qed.

Lemma elem_of_entries m r v :
  (r, v) ∈ omap (λ nv, entry nv.1 nv.2) (drop 1 (zip (nodes (nodes_part m)) (vals m))) ↔
  ∃ x, live (nodes_part m) x ∧ val (nodes_part m) x = r ∧ vals m !! x = Some v.
Proof.
  rewrite list_elem_of_omap. split.
  - intros ([n w] & (i & Hi)%list_elem_of_lookup_1 & He). rewrite lookup_drop in Hi.
    apply lookup_zip_Some in Hi as [Hn Hw]. simpl in He. unfold entry in He. destruct (in_set n) eqn:Hin; [|done]. simplify_eq.
    exists (1 + i). split_and!; [by apply (live_at _ _ n)| |done]. unfold val, node_at. by rewrite Hn.
  - intros (x & Hl & Hr & Hv). pose proof Hl as (Ha & H0 & _). pose proof (lookup_node _ _ Ha) as Hn.
    exists (node_at (nodes_part m) x, v). split.
    + apply list_elem_of_lookup. exists (x - 1). rewrite lookup_drop. replace (1 + (x - 1)) with x by lia.
      by apply lookup_zip_Some.
    + simpl. unfold entry. apply (live_at _ _ _ Hn) in Hl as [_ ->]. by rewrite <- Hr.
Qed.

Lemma contents_holds ch m : shared_inv ch (nodes_part m) → holds m (mcontents m).
Proof.
  intros Hs r v. rewrite <- elem_of_entries. unfold mcontents. symmetry. apply elem_of_list_to_map'.
  intros v'. rewrite !elem_of_entries. intros (x & Hx & Hxr & Hxv) (y & Hy & Hyr & Hyv).
  assert (x = y) as <- by (apply (live_unique _ _ Hs); congruence). congruence.
Qed.

Lemma holds_unique m M M' : holds m M → holds m M' → M = M'.
Proof. intros H H'. apply map_eq. intros r. apply option_eq. intros v. by rewrite (H r v), (H' r v). Qed.

(** *** What the steps do to the contents *)

(** Values and flags are as before. *)
Definition kept (s s' : Int64Set) : Prop :=
  length (nodes s') = length (nodes s) ∧
  ∀ x, value (node_at s' x) = value (node_at s x) ∧ flags (node_at s' x) = flags (node_at s x).

Lemma kept_nodes s s' : nodes s' = nodes s → kept s s'.
Proof. unfold kept, node_at. by intros ->. Qed.

Lemma kept_update s x n : alloc s x → value n = value (node_at s x) → flags n = flags (node_at s x) → kept s (update x n s).
Proof.
  intros Ha Hv Hf. split; [simpl; by rewrite length_insert|]. intros y. split; [by apply (proj_update value)|by apply (proj_update flags)].
Qed.

Lemma kept_store s x i q s' : atomicStoreNext x i q s = Some s' → kept s s'.
Proof.
  unfold atomicStoreNext. destruct (nodes s !! x) as [n|] eqn:Hn; [|done]. cbn [mbind option_bind].
  destruct (store (next n) i q); [|done]. intros [= <-]. assert (Hx : node_at s x = n) by (unfold node_at; by rewrite Hn).
  apply kept_update; [by eapply lookup_lt_Some|by rewrite Hx..].
Qed.

Lemma kept_Unlock s x s' : Unlock s x = Some s' → kept s s'.
Proof.
  unfold Unlock. destruct (nodes s !! x) as [n|] eqn:Hn; [|done]. cbn [mbind option_bind]. destruct (mu n); [|done].
  intros [= <-]. assert (Hx : node_at s x = n) by (unfold node_at; by rewrite Hn).
  apply kept_update; [by eapply lookup_lt_Some|by rewrite Hx..].
Qed.

(** A lock is taken: links are as before as well. *)
Lemma kept_Lock t s x p s' p' : Lock t s x p = Go s' p' →
  p' = p ∧ kept s s' ∧ (∀ y j, nxt s' y j = nxt s y j) ∧ ∀ y, lev s' y = lev s y.
Proof.
  unfold Lock. destruct (nodes s !! x) as [n|] eqn:Hn; [|done]. destruct (mu n); [done|]. intros [= <- <-].
  assert (Hx : node_at s x = n) by (unfold node_at; by rewrite Hn). assert (Ha : alloc s x) by by eapply lookup_lt_Some.
  split_and!; [done|by apply kept_update; rewrite ?Hx|..].
  - intros y j. unfold nxt. apply (proj_update (λ n, default None (load (next n) j))); by rewrite ?Hx.
  - intros y. apply (proj_update level); by rewrite ?Hx.
Qed.

Lemma kept_facts s s' x : kept s s' →
  (live s' x ↔ live s x) ∧ val s' x = val s x ∧ mk s' x = mk s x ∧ (alloc s' x ↔ alloc s x).
Proof.
  intros [Hl Hn]. destruct (Hn x) as [Hv Hf]. unfold live, val, mk, fl, alloc. rewrite Hl, Hv, Hf. done.
Qed.

Lemma holds_kept m m' M : kept (nodes_part m) (nodes_part m') → vals m' = vals m → holds m M → holds m' M.
Proof.
  intros Hk Hv H r v. rewrite (H r v), Hv. f_equiv. intros x. destruct (kept_facts _ _ x Hk) as (-> & -> & _). done.
Qed.

Lemma holds_live m M x : holds m M → live (nodes_part m) x → length (vals m) = length (nodes (nodes_part m)) →
  ∃ v, vals m !! x = Some v ∧ M !! val (nodes_part m) x = Some v.
Proof.
  intros H Hx Hl. destruct (lookup_lt_is_Some_2 (vals m) x) as [v Hv]; [rewrite Hl; apply Hx|].
  exists v. split; [done|]. apply H. by exists x.
Qed.

Lemma holds_none m M r : holds m M → length (vals m) = length (nodes (nodes_part m)) →
  (∀ x, live (nodes_part m) x → val (nodes_part m) x ≠ r) → M !! r = None.
Proof.
  intros H Hl Hn. destruct (M !! r) as [v|] eqn:Hv; [|done]. apply H in Hv as (x & Hx & Hr & _). by destruct (Hn x).
Qed.

(** The value of a live node is replaced. *)
Lemma holds_store ch m M x v : shared_inv ch (nodes_part m) → holds m M → live (nodes_part m) x → x < length (vals m) →
  holds (mkMap (nodes_part m) (<[x := v]> (vals m))) (<[val (nodes_part m) x := v]> M).
Proof.
  intros Hs H Hx Hlt r w. simpl. destruct (decide (r = val (nodes_part m) x)) as [->|Hne].
  - rewrite lookup_insert_eq. split.
    + intros [= <-]. exists x. split_and!; try done. by apply list_lookup_insert_eq.
    + intros (y & Hy & Hyv & Hw). assert (y = x) as -> by by apply (live_unique _ _ Hs).
      rewrite list_lookup_insert_eq in Hw by done. congruence.
  - rewrite lookup_insert_ne by done. rewrite (H r w). do 2 f_equiv. split; intros (Hl & Hr & Hw); split_and!; try done.
    + rewrite list_lookup_insert_ne; [done|congruence].
    + rewrite list_lookup_insert_ne in Hw; [done|congruence].
Qed.

(** A node is appended that is not linked yet. *)
Lemma holds_append m M k lv v h : length (vals m) = length (nodes (nodes_part m)) → holds m M →
  holds (mkMap (mkSet (nodes (nodes_part m) ++ [newInt64Node k lv]) h (highestLevel (nodes_part m))) (vals m ++ [v])) M.
Proof.
  intros Hl H r w. rewrite (H r w). set (s := nodes_part m) in *. f_equiv. intros x. simpl.
  destruct (decide (x < length (nodes s))) as [Hx|Hx].
  - rewrite (lookup_app_l (vals m)) by lia. unfold live, val, fl, mk, alloc, node_at. simpl.
    rewrite (lookup_app_l (nodes s)) by done. rewrite length_app. simpl. split; intros; destruct_and!; split_and!; try done; lia.
  - split; [intros ((Ha & _) & _); by destruct Hx|]. intros ((Ha & _ & Hf & _) & _). exfalso.
    unfold alloc in Ha. simpl in Ha. rewrite length_app in Ha. simpl in Ha. assert (x = length (nodes s)) as -> by lia.
    unfold fl, node_at in Hf. simpl in Hf. rewrite lookup_app_r, Nat.sub_diag in Hf by done. done.
Qed.

(** The flags of a node change. *)
Definition reflag s x f : Int64Set := update x (set_flags f (node_at s x)) s.

Lemma reflag_facts s x f y : alloc s x →
  val (reflag s x f) y = val s y ∧ (alloc (reflag s x f) y ↔ alloc s y) ∧ (y ≠ x → (live (reflag s x f) y ↔ live s y) ∧ mk (reflag s x f) y = mk s y) ∧
  (∀ j, nxt (reflag s x f) y j = nxt s y j) ∧ flags (node_at (reflag s x f) x) = f.
Proof.
  intros Ha. unfold reflag.
  assert (Hv : ∀ z, val (update x (set_flags f (node_at s x)) s) z = val s z) by (intros z; by apply (proj_update (λ n, rank (value n)))).
  split_and!; [done|apply update_alloc| |intros j; by apply (proj_update (λ n, default None (load (next n) j)))|].
  - intros Hne. unfold live, fl, mk. rewrite update_alloc, node_at_update, decide_False by done. done.
  - by rewrite node_at_update, decide_True.
Qed.

Lemma holds_link m M x v : holds m M → alloc (nodes_part m) x → x ≠ 0 → mk (nodes_part m) x = false → fl (nodes_part m) x = false →
  vals m !! x = Some v → M !! val (nodes_part m) x = None →
  holds (mkMap (reflag (nodes_part m) x (SetTrue (flags (node_at (nodes_part m) x)) fullyLinked)) (vals m)) (<[val (nodes_part m) x := v]> M).
Proof.
  intros H Ha H0 Hm Hf Hv Hn r w. set (s := nodes_part m) in *. set (f := SetTrue _ _). simpl.
  assert (Hx : live (reflag s x f) x).
  { destruct (reflag_facts s x f x Ha) as (_ & Haa & _ & _ & Hfl). unfold live, fl, mk. rewrite Hfl, Haa. subst f.
    change fullyLinked with (2 ^ 0)%Z. rewrite !SetTrue_testbit by done. unfold mk in Hm. rewrite Hm. by rewrite orb_true_r. }
  assert (Hnl : ¬ live s x) by (intros (_ & _ & Hl & _); congruence).
  destruct (decide (r = val s x)) as [->|Hne].
  - rewrite lookup_insert_eq. split.
    + intros [= <-]. exists x. split_and!; try done. by apply reflag_facts.
    + intros (y & Hy & Hyv & Hw). destruct (decide (y = x)) as [->|Hyx]; [congruence|]. exfalso.
      destruct (reflag_facts s x f y Ha) as (Hvy & _ & Hly & _). rewrite Hvy in Hyv. apply Hly in Hy; [|done].
      assert (M !! val s x = Some w) by (apply H; by exists y). congruence.
  - rewrite lookup_insert_ne by done. rewrite (H r w). f_equiv. intros y. destruct (reflag_facts s x f y Ha) as (Hvy & _ & Hly & _).
    rewrite Hvy. destruct (decide (y = x)) as [->|Hyx]; [|apply Hly in Hyx as [-> _]; done]. split; [by intros (? & _)|].
    intros (_ & ? & _). congruence.
Qed.

Lemma holds_mark ch m M x : shared_inv ch (nodes_part m) → holds m M → live (nodes_part m) x →
  holds (mkMap (reflag (nodes_part m) x (SetTrue (flags (node_at (nodes_part m) x)) marked)) (vals m)) (delete (val (nodes_part m) x) M).
Proof.
  intros Hs H Hx r w. set (s := nodes_part m) in *. set (f := SetTrue _ _). simpl. pose proof Hx as (Ha & _).
  assert (Hnl : ¬ live (reflag s x f) x).
  { destruct (reflag_facts s x f x Ha) as (_ & _ & _ & _ & Hfl). intros (_ & _ & _ & Hm). unfold mk in Hm. rewrite Hfl in Hm. subst f.
    change marked with (2 ^ 1)%Z in Hm. rewrite SetTrue_testbit, orb_true_r in Hm by done. done. }
  destruct (decide (r = val s x)) as [->|Hne].
  - rewrite lookup_delete_eq. split; [done|]. intros (y & Hy & Hyv & _). exfalso.
    destruct (decide (y = x)) as [->|Hyx]; [done|]. destruct (reflag_facts s x f y Ha) as (Hvy & _ & Hly & _).
    apply Hyx, (live_unique _ _ Hs); [by apply Hly|done|congruence].
  - rewrite lookup_delete_ne by done. rewrite (H r w). f_equiv. intros y. destruct (reflag_facts s x f y Ha) as (Hvy & _ & Hly & _).
    rewrite Hvy. destruct (decide (y = x)) as [->|Hyx]; [|apply Hly in Hyx as [-> _]; done].
    split; [intros (_ & Hr & _); by destruct Hne|by intros (? & _)].
Qed.
End map.

(** * The concurrent map: one goroutine alone

    An operation that no other goroutine disturbs comes to an end, returns what
    the map says and changes it as it should.  [solo] says what holds at each
    place in the code; a pair of numbers gets smaller with every step. *)

Section map.
Context {K C V : Type} `{CC : Countable C} {HK : SkipKey K C}.
#[local] Abbreviation Int64Set := (@Int64Set K).
#[local] Abbreviation pc := (@pc K).
#[local] Abbreviation work := (@work K).
#[local] Abbreviation frame := (@frame K V).
#[local] Abbreviation mpc := (@mpc K V).
#[local] Abbreviation mop := (@mop K V).
#[local] Abbreviation mresult := (@mresult V).
#[local] Abbreviation Int64Map := (@Int64Map K V).
#[local] Abbreviation mconfig := (@mconfig K V).
Implicit Types (s : Int64Set) (m : Int64Map) (c : mconfig) (fr : frame).

(** ** Numbers that get smaller *)

Definition gap (s : Int64Set) (x : nat) : nat := length (nodes s) - depth (mkConfig s (λ _, Idle)) x.
Definition to_search (s : Int64Set) (i x : nat) : nat := i * S (length (nodes s)) + gap s x.
Definition to_check (w : work) (k stage : nat) : nat := 6 * (layers w - k) - stage.

Definition set_rank (s : Int64Set) (p : pc) : nat * nat :=
  match p with
  | FindStart _ _ _ => (35, 0)
  | FindLoad _ i x _ _ _ => (34, to_search s i x)
  | RemFlags _ _ _ _ _ => (33, 0)
  | RemLock _ _ _ _ _ => (32, 0)
  | RemMarked _ _ _ _ _ => (31, 0)
  | RemMark _ _ _ _ _ => (30, 0)
  | LockPred w _ _ k _ => (29, to_check w k 1)
  | CheckPred w _ _ k _ => (29, to_check w k 2)
  | CheckSucc w _ _ k _ => (29, to_check w k 3)
  | CheckNext w _ _ k _ => (29, to_check w k 4)
  | AddNew _ _ _ _ _ => (28, 0)
  | AddInit _ lv _ _ _ _ k => (27, 2 * (lv - k))
  | AddLink _ lv _ _ _ _ k => (27, 2 * (lv - k) - 1)
  | UnlinkLoad _ _ _ _ _ _ i => (27, 2 * i + 1)
  | UnlinkStore _ _ _ _ _ _ i _ => (27, 2 * i)
  | AddFull _ _ _ _ _ _ | UnlockNode _ _ _ _ _ _ => (26, 0)
  | UnlockPred _ _ _ i _ => (25, i)
  | LenAdd _ => (24, 0)
  | HasFlags _ _ => (23, 0)
  | _ => (0, 0)
  end.

Definition map_rank (s : Int64Set) (p : mpc) : nat * nat :=
  match p with
  | MStart _ => (40, 0)
  | MFindStart fr _ _ => (if flevel fr =? 0 then 39 else 35, 0)
  | MFind fr i x _ _ => (if flevel fr =? 0 then 38 else 34, to_search s i x)
  | MRandLoad _ _ _ => (37, 0)
  | MRandCas _ _ _ _ => (36, 0)
  | MFound _ _ _ _ => (23, 0)
  | MStoreVal _ _ _ | MLoadVal _ _ => (22, 0)
  | MNext _ w _ _ k _ => (29, to_check w k 4)
  | MSucc _ w _ _ k _ => (29, to_check w k 5)
  | MRun _ p | MUnwind _ p => set_rank s p
  | MIdle | MReturned _ _ => (0, 0)
  end.

Definition smaller (a b : nat * nat) : Prop := a.1 < b.1 ∨ (a.1 = b.1 ∧ a.2 < b.2).

(** ** Where the goroutine is *)

Section solo.
Context (o : mop) (M0 : gmap C V).
Local Abbreviation R := (rank (mkey o)).
Local Abbreviation after := ((apply_mop o M0).1).
Local Abbreviation outcome := ((apply_mop o M0).2).

(** What a search has found in the layers from [lo] to below [hi]. *)
Definition settled (s : Int64Set) (P Q : array) (lo hi : nat) : Prop :=
  ∀ j, lo <= j < hi → ∃ p, P j = Some p ∧ mk s p = false ∧ nxt s p j = Q j.
(** No node with the key in the layers from [i] on. *)
Definition absent (s : Int64Set) (i : nat) : Prop := ∀ n, live s n → val s n = R → lev s n <= i.
Definition at_key (s : Int64Set) (n : nat) : Prop := live s n ∧ val s n = R.

Definition fresh (m : Int64Map) : Prop := holds m M0 ∧ M0 !! R = None.
Definition removed (m : Int64Map) (n : nat) : Prop :=
  holds m after ∧ ordered (mkey o) = true ∧ ∃ v, vals m !! n = Some v ∧ M0 !! R = Some v.
Definition working (m : Int64Map) (w : work) : Prop := match w with WAdd _ _ => fresh m | WRem _ n _ => removed m n end.
Definition finished (m : Int64Map) (w : work) : Prop :=
  match w with WAdd _ _ => holds m after ∧ changed o = outcome | WRem _ n _ => removed m n end.
(** What a search has found down to layer [i]. *)
Definition seen_to (s : Int64Set) (f : @finder K) (i : nat) (P Q : array) (lf : option nat) : Prop :=
  match f with
  | FRem _ None =>
      settled s P Q i (highestLevel s) ∧
      match lf with
      | None => absent s i
      | Some l => i <= l < highestLevel s ∧ ∃ n, Q l = Some n ∧ at_key s n ∧ lev s n = S l
      end
  | FHas _ => absent s i
  | _ => False
  end.
Definition only_looks (f : @finder K) : Prop := match f with FAdd _ _ | FRem _ (Some _) => False | _ => True end.

Definition solo_set (m : Int64Map) (p : pc) : Prop :=
  let s := nodes_part m in
  match p with
  | FindStart f P Q => holds m M0 ∧ only_looks f
  | FindLoad f i x P Q lf =>
      holds m M0 ∧ only_looks f ∧ (ordered (key f) = true → mk s x = false ∧ i < highestLevel s ∧ seen_to s f (S i) P Q lf)
  | HasFlags _ n => holds m M0 ∧ at_key s n
  | RemFlags _ l n P Q | RemLock _ l n P Q | RemMarked _ l n P Q | RemMark _ l n P Q =>
      holds m M0 ∧ at_key s n ∧ lev s n = S l ∧ settled s P Q 0 (S l)
  | LockPred w P Q _ _ | CheckPred w P Q _ _ | CheckNext w P Q _ _ => working m w ∧ settled s P Q 0 (layers w)
  | CheckSucc w P Q _ _ => working m w ∧ settled s P Q 0 (layers w) ∧ work_dying w = None
  | AddNew _ _ _ _ _ => fresh m
  | AddInit _ _ _ _ _ nn _ | AddLink _ _ _ _ _ nn _ | AddFull _ _ _ _ _ nn => fresh m ∧ ∃ v, vals m !! nn = Some v ∧ given o = Some v
  | UnlinkLoad _ n _ _ _ _ _ | UnlinkStore _ n _ _ _ _ _ _ | UnlockNode _ n _ _ _ _ => removed m n
  | UnlockPred w _ _ _ valid => valid = true ∧ finished m w
  | LenAdd w => finished m w
  | _ => False
  end.

Definition solo (m : Int64Map) (p : mpc) : Prop :=
  let s := nodes_part m in
  match p with
  | MIdle => False
  | MStart fr | MFindStart fr _ _ => of_op fr = o ∧ holds m M0
  | MRandLoad fr P Q => of_op fr = o ∧ holds m M0 ∧ (is_store o = false → fresh m ∧ settled s P Q 0 (fhl fr))
  | MRandCas fr cur P Q =>
      of_op fr = o ∧ holds m M0 ∧ (is_store o = false → fresh m ∧ settled s P Q 0 (fhl fr)) ∧ cur = highestLevel s
  | MFind fr i x P Q =>
      of_op fr = o ∧ holds m M0 ∧ mk s x = false ∧ i < highestLevel s ∧ settled s P Q (S i) (highestLevel s) ∧ absent s (S i)
  | MFound fr n P Q => of_op fr = o ∧ holds m M0 ∧ at_key s n
  | MStoreVal fr v n => of_op fr = o ∧ holds m M0 ∧ at_key s n ∧ ordered (mkey o) = true
  | MLoadVal fr n => of_op fr = o ∧ holds m after ∧ ∃ v, vals m !! n = Some v ∧ outcome = RValue (Some v) true
  | MNext fr w P Q k hi | MSucc fr w P Q k hi => of_op fr = o ∧ working m w ∧ settled s P Q 0 (layers w)
  | MRun fr p => of_op fr = o ∧ solo_set m p
  | MUnwind fr p => of_op fr = o ∧ holds m after ∧ outcome = RPanic
  | MReturned o' r => o' = o ∧ holds m after ∧ r = outcome
  end.

(** *** Between two steps *)

Lemma settled_mono s P Q lo hi lo' hi' : lo <= lo' → hi' <= hi → settled s P Q lo hi → settled s P Q lo' hi'.
Proof. intros Hl Hh H j Hj. apply H. lia. Qed.

Lemma settled_extend s P Q i h x q : settled s P Q (S i) h → mk s x = false → nxt s x i = q →
  settled s (<[i := Some x]> P) (<[i := q]> Q) i h.
Proof.
  intros H Hm Hn j Hj. destruct (decide (j = i)) as [->|Hne]; [rewrite !fn_lookup_insert; by exists x|].
  rewrite !fn_lookup_insert_ne by done. apply H. lia.
Qed.

Lemma settled_kept s s' P Q lo hi : kept s s' → (∀ y j, nxt s' y j = nxt s y j) → settled s P Q lo hi → settled s' P Q lo hi.
Proof.
  intros Hk Hn H j Hj. destruct (H j Hj) as (p & Hp & Hm & Hq). exists p. rewrite Hn.
  destruct (kept_facts _ _ p Hk) as (_ & _ & -> & _). done.
Qed.

Lemma at_key_kept s s' n : kept s s' → at_key s n → at_key s' n.
Proof. intros Hk. unfold at_key. destruct (kept_facts _ _ n Hk) as (-> & -> & _). done. Qed.

Lemma working_kept m m' w : kept (nodes_part m) (nodes_part m') → vals m' = vals m → working m w → working m' w.
Proof.
  intros Hk Hv. destruct w; simpl; unfold fresh, removed; rewrite ?Hv.
  - intros [H ?]. split; [by eapply holds_kept|done].
  - intros (H & ?). split; [by eapply holds_kept|done].
Qed.

Lemma finished_kept m m' w : kept (nodes_part m) (nodes_part m') → vals m' = vals m → finished m w → finished m' w.
Proof.
  intros Hk Hv. destruct w; simpl; unfold removed; rewrite ?Hv; intros (H & ?); (split; [by eapply holds_kept|done]).
Qed.

Lemma next_layer_solo m w P Q k pv hi : working m w → settled (nodes_part m) P Q 0 (layers w) → solo_set m (next_layer w P Q k pv hi).
Proof.
  intros Hw Hs. destruct (next_layer_cases w P Q k pv hi) as [[-> | ->]|Hp]; [done..|]. by destruct w; rewrite Hp.
Qed.

Lemma next_layer_rank s w P Q k pv hi : let a := set_rank s (next_layer w P Q k pv hi) in
  a.1 < 29 ∨ (a.1 = 29 ∧ k < layers w ∧ a.2 <= to_check w k 1).
Proof.
  intros a. subst a. unfold next_layer. destruct (Nat.ltb_spec k (layers w)) as [Hk|Hk]; [right|left; destruct w; simpl; lia].
  case_decide; simpl; unfold to_check; lia.
Qed.

Lemma next_layer_smaller s w P Q k pv hi stage : k < layers w → stage <= 5 →
  smaller (set_rank s (next_layer w P Q (S k) pv hi)) (29, to_check w k stage).
Proof.
  intros Hk Hst. unfold smaller. simpl. destruct (next_layer_rank s w P Q (S k) pv hi) as [?|(? & ? & ?)]; [by left|right].
  split; [done|]. unfold to_check in *. lia.
Qed.

Lemma next_layer_first_smaller s w P Q k pv hi b : 29 < b.1 → smaller (set_rank s (next_layer w P Q k pv hi)) b.
Proof. intros Hb. left. destruct (next_layer_rank s w P Q k pv hi) as [?|(? & ? & ?)]; lia. Qed.

Lemma unlock_solo m s w P Q n pv : finished m w → solo_set m (unlockInt64 w P Q n pv true) ∧
  let a := set_rank s (unlockInt64 w P Q n pv true) in a.1 < 25 ∨ (a.1 = 25 ∧ a.2 < n).
Proof.
  intros Hf. induction n as [|n [IH IH']]; simpl; [split; [done|lia]|].
  case_decide; [split; [done|]; destruct IH' as [?|[? ?]]; [left|right]; lia|]. split; [done|simpl; lia].
Qed.

Lemma resume_solo m fr p : of_op fr = o → solo_set m p → solo m (resume fr p) ∧
  ∀ b, smaller (set_rank (nodes_part m) p) b → smaller (map_rank (nodes_part m) (resume fr p)) b.
Proof.
  intros Ho Hp. pose proof (conj Ho Hp) as Hs. destruct p; try done; simpl.
  - simpl in Hp. by destruct f as [| |? [|]]; destruct Hp.
  - assert (Hle : ∀ b, smaller (29, to_check w k 3) b → smaller (29, to_check w k 4) b) by (unfold smaller, to_check; simpl; lia).
    destruct Hs as (_ & ? & ? & ?). case (of_op fr); intros; (split; [done|first [exact Hle|done]]).
  - case (of_op fr); intros; (split; [exact Hs|done]).
Qed.
End solo.
End map.
