(* ===== verification/SkipMapAlone.v ===== *)
(** * The concurrent map: the steps of a goroutine alone

    Each step keeps what [solo] says and makes the pair of numbers smaller. *)

From stdpp Require Import functions sorting.
From S2P Require Import Prelude Atomic SkipSet SkipSetInv SkipSetHeap SkipSetMoves SkipSetSteps SkipSetLin SkipSetThms SkipSetProps SkipMap SkipMapInv SkipMapSolo.

Section map.
Context {K C V : Type} `{CC : Countable C} {HK : SkipKey K C}.
#[local] Abbreviation int64Node := (@int64Node K).
#[local] Abbreviation Int64Set := (@Int64Set K).
#[local] Abbreviation pc := (@pc K).
#[local] Abbreviation work := (@work K).
#[local] Abbreviation frame := (@frame K V).
#[local] Abbreviation mpc := (@mpc K V).
#[local] Abbreviation mop := (@mop K V).
#[local] Abbreviation mresult := (@mresult V).
#[local] Abbreviation Int64Map := (@Int64Map K V).
#[local] Abbreviation mconfig := (@mconfig K V).
#[local] Abbreviation moutcome := (@moutcome K V).
Implicit Types (s : Int64Set) (fr : frame).

Lemma gap_smaller s x y : alloc s x → alloc s y → nlt s x y → gap s y < gap s x.
Proof.
  intros Hx Hy Hlt. pose proof (depth_lt (mkConfig s (λ _, Idle)) x y Hx Hlt) as Hd. unfold gap.
  assert (depth (mkConfig s (λ _, Idle)) y <= length (nodes s)); [|lia].
  unfold depth. etransitivity; [apply length_filter|]. by rewrite length_seq.
Qed.

Lemma lessthan_ranks (n : int64Node) k : ordered (value n) = true → ordered k = true → lessthan n k = bool_decide (rank (value n) ≺ rank k).
Proof. intros Hn Hk. unfold lessthan. rewrite vlt_rank. unfold ordered in *. by rewrite Hn, Hk. Qed.

Lemma equal_ranks (n : int64Node) k : ordered (value n) = true → ordered k = true → equal n k = bool_decide (rank (value n) = rank k).
Proof. intros Hn Hk. unfold equal. rewrite veq_rank. unfold ordered in *. by rewrite Hn, Hk. Qed.

Section alone.
Context (c : mconfig) (t : nat) (HM : MInv c) (Hal : ∀ u, u ≠ t → mthreads c u = MIdle) (o : mop) (M0 : gmap C V).
Local Abbreviation m := (mshared c).
Local Abbreviation s := (nodes_part (mshared c)).
Local Abbreviation R := (rank (mkey o)).

Definition well_done (out : moutcome) : Prop :=
  match out with
  | MGo m' p' => solo o M0 m' p' ∧ smaller (map_rank (nodes_part m') p') (map_rank s (mthreads c t))
  | _ => True
  end.

(** ** Nodes that are linked *)

Lemma quiet_live g x j : Inv g (projc c) → owned (proj (mthreads c t)) = None → dying (proj (mthreads c t)) = None →
  x ∈ chain g j → live s x.
Proof using Hal.
  intros HI Ho Hd Hx. pose proof (inv_shared _ _ HI) as Hs. destruct (si_mem _ _ Hs j x Hx) as [Ha _].
  pose proof (mem_nonzero _ _ Hs j x Hx) as H0. split_and!; try done.
  - destruct (fl s x) eqn:Hf; [done|]. destruct (inv_fresh _ _ HI x Ha H0 Hf) as [u Hu]. simpl in Hu.
    destruct (decide (u = t)) as [->|Hne]; [congruence|]. by rewrite Hal in Hu.
  - destruct (mk s x) eqn:Hm; [|done]. destruct (inv_dead _ _ HI x j Hx Hm) as [u Hu]. simpl in Hu.
    destruct (decide (u = t)) as [->|Hne]; [congruence|]. by rewrite Hal in Hu.
Qed.

Lemma kept_linked g v x j : ghost_inv g s t v → recent g t x j → mk s x = false → x ∈ 0 :: chain g j.
Proof using. intros Hg Hr Hm. destruct (gi_kept _ _ _ _ Hg x j Hr) as [|]; [done|congruence]. Qed.

(** What the end of a layer tells. *)
Lemma layer_facts g i x : Inv g (projc c) → owned (proj (mthreads c t)) = None → dying (proj (mthreads c t)) = None →
  x ∈ 0 :: chain g i → before s x R → absent o s (S i) → (∀ y, nxt s x i = Some y → ¬ val s y ≺ R) →
  (∀ y, nxt s x i = Some y → val s y = R → at_key o s y ∧ lev s y = S i) ∧
  ((∀ y, nxt s x i = Some y → val s y ≠ R) → absent o s i).
Proof using Hal.
  intros HI Ho Hd Hx Hb Hab Hge. pose proof (inv_shared _ _ HI) as Hs. split.
  - intros y Hy Hv. destruct (next_mem _ _ Hs x i y Hx Hy) as [Hm _]. pose proof (quiet_live g y i HI Ho Hd Hm) as Hl.
    split; [done|]. pose proof (Hab y Hl Hv). apply (si_mem _ _ Hs) in Hm as [_ ?]. simpl in *. lia.
  - intros Hne n Hn Hv. pose proof (Hab n Hn Hv). destruct (decide (lev s n = S i)) as [Hl|]; [|lia]. exfalso.
    assert (Hm : n ∈ chain g i) by (apply (si_live _ _ Hs); [done|simpl; lia]).
    assert (Hq : nxt s x i = Some n) by by eapply (next_first _ _ Hs). by destruct (Hne n Hq).
Qed.

Lemma absent_none : holds m M0 → absent o s 0 → M0 !! R = None.
Proof using HM.
  intros H Hab. apply (holds_none m); [done|apply HM|]. intros x Hx Hv. pose proof (Hab x Hx Hv) as Hl.
  destruct (mi_set _ HM) as [g HI]. destruct (si_node _ _ (inv_shared _ _ HI) x) as (_ & _ & ?); [apply Hx|]. unfold lev in Hl. simpl in *. lia.
Qed.

Lemma absent_top : absent o s (highestLevel s).
Proof using HM.
  intros n (Ha & H0 & _) _. destruct (mi_set _ HM) as [g HI]. by apply (si_lev _ _ (inv_shared _ _ HI)).
Qed.

(** ** The steps *)

Lemma solo_MStart fr : mthreads c t = MStart fr → solo o M0 m (MStart fr) → well_done (map_step t m (MStart fr)).
Proof using HM.
  intros Ht [Ho H]. pose proof (mi_extra _ HM t) as He. rewrite Ht in He. destruct He as (_ & Hl & _). cbn [map_step].
  destruct (veq (frame_key fr) (frame_key fr)) eqn:Hor; cbn [negb]; unfold well_done; rewrite Ht.
  - assert (Hst : is_store o = true → smaller (37, 0) (40, 0) ∧ solo o M0 m (MRandLoad fr nils nils)).
    { intros Hst. split; [left; simpl; lia|]. split_and!; try done. congruence. }
    assert (Hfind : smaller (if flevel fr =? 0 then 39 else 35, 0) (40, 0)) by (rewrite Hl; left; simpl; lia).
    subst o. destruct (of_op fr); (split; [|first [exact Hfind|by apply Hst]]); first [by apply Hst|done].
  - split; [|left; simpl; lia]. split_and!; [done|..]; unfold apply_mop; rewrite <- Ho; unfold frame_key in Hor; by rewrite Hor.
Qed.

Lemma leveled_solo fr P Q : of_op fr = o → undrawn fr → holds m M0 →
  (is_store o = false → fresh o M0 m ∧ settled s P Q 0 (fhl fr)) →
  solo o M0 m (leveled fr P Q) ∧ ∀ s', (map_rank s' (leveled fr P Q)).1 <= 35.
Proof using.
  intros Ho Hu H Hf. assert (Hd : (flevel (set_level fr) =? 0) = false) by (apply Nat.eqb_neq; destruct Hu as (_ & _ & ?); simpl; lia).
  destruct (is_store (of_op fr)) eqn:Hst.
  - rewrite leveled_store by done. split; [done|]. intros s'. simpl in *. by rewrite Hd.
  - rewrite leveled_other by done. rewrite Ho in Hst. destruct (Hf Hst) as [Hfr Hse].
    destruct (Nat.ltb_spec (fhl fr) (draw fr)) as [Hlt|Hge]; [split; [done|intros s'; simpl in *; by rewrite Hd]|]. split.
    + split; [done|]. apply next_layer_solo; [done|]. by eapply settled_mono; [..|exact Hse]; simpl; lia.
    + intros s'. simpl. destruct (next_layer_rank s' (WAdd (frame_key fr) (draw fr)) P Q 0 None 0) as [?|(? & _)]; lia.
Qed.

Lemma solo_MRandLoad fr P Q : mthreads c t = MRandLoad fr P Q → solo o M0 m (MRandLoad fr P Q) → well_done (map_step t m (MRandLoad fr P Q)).
Proof using HM.
  intros Ht (Ho & H & Hf). pose proof (mi_extra _ HM t) as He. rewrite Ht in He. destruct He as [Hu _]. cbn [map_step]. unfold well_done. rewrite Ht.
  destruct (Nat.leb_spec (draw fr) (highestLevel s)); [|split; [done|left; simpl; lia]].
  destruct (leveled_solo fr P Q Ho Hu H Hf) as [Hs Hr]. split; [done|]. left. specialize (Hr s). simpl. lia.
Qed.

Lemma solo_MRandCas fr cur P Q : mthreads c t = MRandCas fr cur P Q → solo o M0 m (MRandCas fr cur P Q) → well_done (map_step t m (MRandCas fr cur P Q)).
Proof using HM.
  intros Ht (Ho & H & Hf & Hcur). pose proof (mi_extra _ HM t) as He. rewrite Ht in He. destruct He as [Hu _]. cbn [map_step]. unfold well_done. rewrite Ht.
  rewrite decide_True by done. destruct (leveled_solo fr P Q Ho Hu H Hf) as [Hs Hr]. split; [|left; specialize (Hr (mkSet (nodes s) (len s) (draw fr))); simpl in *; lia].
  unfold leveled in *. destruct (of_op (set_level fr)); [exact Hs|..];
    (destruct (_ <? _); [exact Hs|]); destruct Hs as [? Hs]; (split; [done|]);
    unfold next_layer in *; (destruct (_ <? _); [case_decide|]); exact Hs.
Qed.

Lemma solo_MFindStart fr P Q : mthreads c t = MFindStart fr P Q → solo o M0 m (MFindStart fr P Q) → well_done (map_step t m (MFindStart fr P Q)).
Proof using HM.
  intros Ht (Ho & H). cbn [map_step]. unfold well_done. rewrite Ht. pose proof (mi_high _ HM) as Hh. pose proof absent_top as Hab.
  destruct (highestLevel s) as [|i] eqn:Hi; [lia|]. destruct (mi_set _ HM) as [g HI].
  split; [|left; simpl; destruct (_ =? 0); lia]. split_and!; try done; [apply (inv_shared _ _ HI)|simpl; rewrite Hi; lia|].
  intros j Hj. simpl in Hj. lia.
Qed.

Lemma solo_MFound fr n P Q : mthreads c t = MFound fr n P Q → solo o M0 m (MFound fr n P Q) → well_done (map_step t m (MFound fr n P Q)).
Proof using HM.
  intros Ht (Ho & H & Hn). pose proof (mi_extra _ HM t) as He. rewrite Ht in He. destruct He as (Hi & Hor & Ha).
  pose proof Hn as [(_ & _ & _ & Hm) Hv]. cbn [map_step]. rewrite lookup_node by done. cbn [mbind option_bind mgoes].
  rewrite Get_marked. change (Z.testbit _ 1) with (mk s n). rewrite Hm. unfold well_done. rewrite Ht.
  assert (Hl : is_store o = false → solo o M0 m (MLoadVal fr n)).
  { intros Hst. split; [done|]. destruct (holds_live _ _ n H) as (v & Hv' & Hr); [apply Hn|apply HM|]. rewrite Hv in Hr.
    destruct Hi as [Hi _]. unfold ordered in Hor. unfold frame_key in Hor. subst o. unfold apply_mop. rewrite Hor.
    destruct (of_op fr); try done; rewrite Hr; by (split; [|exists v]). }
  unfold present. unfold frame_key in Hor. subst o. destruct (of_op fr) eqn:Ho; (split; [|left; simpl; lia]); try (by apply Hl).
  simpl. rewrite Ho. done.
Qed.

Lemma solo_MStoreVal fr v n : mthreads c t = MStoreVal fr v n → solo o M0 m (MStoreVal fr v n) → well_done (map_step t m (MStoreVal fr v n)).
Proof using HM.
  intros Ht (Ho & H & [Hn Hv] & Hor). pose proof (mi_extra _ HM t) as He. rewrite Ht in He. destruct He as (Hop & Ha).
  destruct (mi_set _ HM) as [g HI]. cbn [map_step]. unfold storeVal. pose proof (mi_vals _ HM) as Hl.
  rewrite (proj2 (Nat.ltb_lt _ _)) by (rewrite Hl; exact Ha). cbn [mbind option_bind mgoes]. unfold well_done. rewrite Ht.
  split; [|left; simpl; lia]. rewrite Ho in Hop. unfold ordered in Hor. split; [done|]. unfold apply_mop. rewrite Hor, Hop.
  split; [|done]. simpl. rewrite Hop in Hv. simpl in Hv. rewrite <- Hv. eapply holds_store; [apply (inv_shared _ _ HI)|done|done|].
  simpl. rewrite Hl. exact Ha.
Qed.

Lemma solo_MLoadVal fr n : mthreads c t = MLoadVal fr n → solo o M0 m (MLoadVal fr n) → well_done (map_step t m (MLoadVal fr n)).
Proof using.
  intros Ht (Ho & H & v & Hv & Hout). cbn [map_step]. unfold loadVal. rewrite Hv. cbn [mbind option_bind mgoes]. unfold well_done. rewrite Ht.
  split; [|left; simpl; lia]. split_and!; done.
Qed.

(** *** Searches *)

Lemma find_facts f i x P Q lf : proj (mthreads c t) = FindLoad f i x P Q lf → ordered (key f) = true → finder_dying f = None →
  mk s x = false → ∃ g, Inv g (projc c) ∧ finder_inv g s f ∧ x ∈ 0 :: chain g i ∧ before s x (rank (key f)) ∧ i < maxLevel ∧
    atomicLoadNext s x i = Some (nxt s x i) ∧
    ∀ y, nxt s x i = Some y → nodes s !! y = Some (node_at s y) ∧ ordered (value (node_at s y)) = true ∧ mk s y = false ∧ gap s y < gap s x.
Proof using HM Hal.
  intros Hp Hor Hdy Hm. destruct (thread_facts c t HM _ Hp) as (g & HI & Hti). simpl in Hti. rewrite Hor in Hti.
  destruct Hti as (Hf & Hr & Hb & _). pose proof (inv_shared _ _ HI) as Hs.
  assert (Hg : ghost_inv g s t (rank (key f))) by (apply (inv_ghost _ _ HI); simpl; rewrite Hp; by apply tkey_ordered).
  pose proof (kept_linked _ _ _ _ Hg Hr Hm) as Hx. destruct (gi_alloc _ _ _ _ Hg x i Hr) as [Ha Hl].
  pose proof (si_node _ _ Hs x Ha) as Hok. exists g. split_and!; try done.
  - destruct Hok as (_ & _ & ?). unfold lev in Hl. simpl in *. lia.
  - by apply load_next.
  - intros y Hy. destruct (next_mem _ _ Hs x i y Hx Hy) as [Hmy Hlt]. assert (Hly : live s y) by (eapply quiet_live; rewrite ?Hp; done).
    destruct Hly as (Hay & H0 & _ & Hmk). split_and!; [by apply lookup_node|by apply (si_ordered _ _ Hs)|done|by apply gap_smaller].
Qed.

Lemma to_search_move i x y : gap s y < gap s x → to_search s i y < to_search s i x.
Proof using. unfold to_search. lia. Qed.
Lemma to_search_down i x : to_search s i x < to_search s (S i) x.
Proof using. unfold to_search. simpl. lia. Qed.

Lemma missing_solo fr P Q : of_op fr = o → holds m M0 → absent o s 0 →
  (flevel fr = 0 → is_store o = false) → settled s P Q 0 (highestLevel s) → aim fr <= highestLevel s →
  solo o M0 m (after_find fr P Q) ∧ (map_rank s (after_find fr P Q)).1 < (if flevel fr =? 0 then 38 else 34).
Proof using HM.
  intros Ho H Hab Hst Hse Haim. pose proof (conj H (absent_none H Hab)) as Hfr. unfold after_find, aim in *.
  destruct (Nat.eqb_spec (flevel fr) 0) as [Hl|Hl].
  - split; [|simpl; lia]. split_and!; try done. intros _. split; [done|]. by eapply settled_mono; [..|exact Hse]; lia.
  - split; [split; [done|]; apply next_layer_solo; [done|]; by eapply settled_mono; [..|exact Hse]; simpl; lia|].
    cbn [map_rank]. destruct (next_layer_rank s (WAdd (frame_key fr) (flevel fr)) P Q 0 None 0) as [?|(? & _)]; lia.
Qed.

Lemma solo_MFind fr i x P Q : mthreads c t = MFind fr i x P Q → solo o M0 m (MFind fr i x P Q) → well_done (map_step t m (MFind fr i x P Q)).
Proof using HM Hal.
  intros Ht (Ho & H & Hm & Hi & Hse & Hab). pose proof (mi_extra _ HM t) as He. rewrite Ht in He. destruct He as ((Hin & Hst) & Hor).
  assert (Hp : proj (mthreads c t) = FindLoad (FAdd (frame_key fr) (aim fr)) i x P Q None) by by rewrite Ht.
  destruct (find_facts _ _ _ _ _ _ Hp Hor eq_refl Hm) as (g & HI & [_ Hlv] & Hx & Hb & Him & Hld & Hnext).
  assert (HR : rank (frame_key fr) = R) by (unfold frame_key; by rewrite Ho). cbn [key] in Hb. rewrite HR in Hb.
  cbn [map_step]. unfold findNode. rewrite Hld. cbn [mbind option_bind]. unfold write. rewrite (proj2 (Nat.ltb_lt _ _)) by done. cbn [mbind option_bind].
  assert (Hend : (∀ y, nxt s x i = Some y → ¬ val s y ≺ R) → (∀ y, nxt s x i = Some y → val s y ≠ R) →
    well_done (MGo m (sought_pc fr (below i x (<[i := Some x]> P) (<[i := nxt s x i]> Q))))).
  { intros Hge Hne. destruct (layer_facts g i x HI) as [_ Hab']; rewrite ?Hp; try done. specialize (Hab' Hne).
    pose proof (settled_extend _ _ _ _ _ x _ Hse Hm eq_refl) as Hse'. unfold well_done. rewrite Ht. destruct i as [|i]; cbn [below sought_pc].
    - destruct (missing_solo fr (<[0 := Some x]> P) (<[0 := nxt s x 0]> Q)) as [Hs' Hr]; try done.
      + intros Hl. rewrite <- Ho. by apply Hst.
      + unfold level_ok in Hlv. lia.
      + split; [done|]. left. exact Hr.
    - split; [split_and!; try done; lia|]. right. split; [done|]. apply to_search_down. }
  destruct (nxt s x i) as [y|] eqn:Hy; [|by apply Hend].
  destruct (Hnext y eq_refl) as (Hny & Hoy & Hmy & Hgap). rewrite Hny. cbn [mbind option_bind].
  rewrite lessthan_ranks, HR by done. change (rank (value (node_at s y))) with (val s y).
  destruct (bool_decide_reflect (val s y ≺ R)) as [Hlt|Hge].
  { cbn [mbind option_bind mgoes sought_pc]. unfold well_done. rewrite Ht. split; [done|]. right. split; [done|]. by apply to_search_move. }
  assert (Hge' : ∀ z, Some y = Some z → ¬ val s z ≺ R) by (by intros z [= <-]).
  rewrite equal_ranks, HR by done. change (rank (value (node_at s y))) with (val s y). cbn [mbind option_bind mgoes].
  destruct (bool_decide_reflect (val s y = R)) as [Heq|Hne]; [|apply Hend; [done|intros z Hz; congruence]].
  destruct (layer_facts g i x HI) as [Hk _]; rewrite ?Hp, ?Hy; try done. destruct (Hk y Hy Heq) as [Hat _].
  cbn [sought_pc]. unfold well_done. rewrite Ht. split; [done|]. left. simpl. destruct (_ =? 0); lia.
Qed.

Lemma resume_good fr p s' p' : mthreads c t = MRun fr p → of_op fr = o → solo_set o M0 (mkMap s' (vals m)) p' →
  smaller (set_rank s' p') (set_rank s p) → well_done (MGo (mkMap s' (vals m)) (resume fr p')).
Proof using.
  intros Ht Ho Hs Hr. unfold well_done. rewrite Ht. destruct (resume_solo o M0 _ fr p' Ho Hs) as [? Hle]. split; [done|]. by apply Hle.
Qed.

Lemma stay_good fr p p' : mthreads c t = MRun fr p → of_op fr = o → solo_set o M0 m p' →
  smaller (set_rank s p') (set_rank s p) → well_done (MGo m (resume fr p')).
Proof using. intros. assert (Hm : m = mkMap s (vals m)) by by destruct m. rewrite Hm. by eapply resume_good; rewrite <- ?Hm. Qed.

Lemma nothing_good fr p : mthreads c t = MRun fr p → 24 <= (set_rank s p).1 → of_op fr = o → inserts o = false → holds m M0 →
  (ordered (mkey o) = true → M0 !! R = None) → well_done (MGo m (resume fr (Returned false))).
Proof using.
  intros Ht Hr Ho Hi H Hn. unfold well_done. rewrite Ht. cbn [resume]. split; [|left; simpl; lia]. rewrite Ho. split; [done|].
  unfold apply_mop, ordered in *. destruct (veq (mkey o) (mkey o)); [|done]. specialize (Hn eq_refl).
  destruct o; try done; simpl in *; unfold found_value; rewrite Hn; simpl; rewrite ?delete_id by done; done.
Qed.

Lemma looks_key fr f : only_looks f → finder_fits fr f → of_op fr = o → key f = mkey o ∧ inserts o = false ∧ finder_dying f = None.
Proof using. intros Hl Hf <-. destruct f as [| |? [|]]; simpl in *; try done; destruct Hf as [Hop ->]; unfold frame_key; by destruct (of_op fr). Qed.

(** A layer of a search is finished. *)
Lemma lower_good fr f i x P Q lf P' Q' lf' p' : mthreads c t = MRun fr (FindLoad f i x P Q lf) → of_op fr = o → finder_fits fr f →
  only_looks f → holds m M0 → (ordered (key f) = true → mk s x = false ∧ i < highestLevel s ∧ seen_to o s f i P' Q' lf') →
  (ordered (key f) = false → lf' = None) → lower f i x P' Q' lf' = Some p' → well_done (MGo m (resume fr p')).
Proof using HM.
  intros Ht Ho Hf Hl H Hs Hu Hp'. destruct (looks_key fr f Hl Hf Ho) as (Hk & Hi & _).
  assert (Hno : i = 0 → match f with FHas _ => True | _ => lf' = None end → well_done (MGo m (resume fr (Returned false)))).
  { intros -> Hlf. eapply nothing_good; [done|simpl; lia|done..|]. intros Hor. rewrite <- Hk in Hor. destruct (Hs Hor) as (_ & _ & Hse).
    apply absent_none; [done|]. destruct f as [| |? [|]]; try done. destruct Hse as [_ Hse]. by rewrite Hlf in Hse. }
  destruct i as [|i]; simpl in Hp'.
  - destruct f as [|k|k [|]]; try done; [injection Hp' as <-; by apply Hno|].
    destruct lf' as [l|]; [|injection Hp' as <-; by apply Hno].
    destruct (ordered k) eqn:Hor; [|by discriminate (Hu Hor)]. destruct (Hs Hor) as (_ & _ & Hse & Hlh & n & Hq & Hn & Hlv).
    simpl in Hp'. rewrite Hq in Hp'. injection Hp' as <-. eapply stay_good; [done..| |left; simpl; lia].
    split_and!; try done. by eapply settled_mono; [..|exact Hse]; lia.
  - injection Hp' as <-. eapply stay_good; [done..| |right; split; [done|apply to_search_down]].
    split_and!; try done. intros Hor. destruct (Hs Hor) as (? & ? & ?). split_and!; try done. lia.
Qed.

Lemma shared_good k p : (∀ s' p', thread_step t s p = Go s' p' → well_done (MGo (mkMap s' (vals m)) (k p'))) → well_done (shared_step t m k p).
Proof using. intros H. unfold shared_step. destruct (thread_step t s p) as [s' p'| |]; [by apply H|done..]. Qed.

Lemma same_map : mkMap s (vals m) = m.
Proof using. by destruct m. Qed.

Lemma solo_FindStart fr f P Q : mthreads c t = MRun fr (FindStart f P Q) → solo o M0 m (MRun fr (FindStart f P Q)) →
  well_done (run_step t m fr (FindStart f P Q)).
Proof using HM.
  intros Ht (Ho & H & Hl). cbn [run_step]. apply shared_good. intros s' p' Hgo. cbn [thread_step] in Hgo. apply goes_Go in Hgo.
  pose proof (mi_high _ HM) as Hh. pose proof absent_top as Hab. destruct (highestLevel s) as [|i] eqn:Hi; [lia|].
  injection Hgo as <- <-. rewrite same_map. eapply stay_good; [done..| |left; simpl; lia]. destruct (mi_set _ HM) as [g HI].
  split_and!; try done. intros _. split; [apply (inv_shared _ _ HI)|]. rewrite Hi. split; [lia|].
  destruct f as [| |? [|]]; try done. split; [|done]. intros j Hj. rewrite Hi in Hj. lia.
Qed.

(** The end of a layer, with the successor of its last node before the key. *)
Lemma layer_good fr f i x P Q lf q (eq : bool) p' : mthreads c t = MRun fr (FindLoad f i x P Q lf) → of_op fr = o → finder_fits fr f →
  only_looks f → holds m M0 → i < maxLevel → nxt s x i = q →
  (ordered (key f) = true → mk s x = false ∧ i < highestLevel s ∧ seen_to o s f (S i) P Q lf) →
  (ordered (key f) = true → absent o s (S i) →
    match q with Some y => if eq then at_key o s y ∧ lev s y = S i else absent o s i | None => eq = false ∧ absent o s i end) →
  (ordered (key f) = false → lf = None ∧ eq = false) →
  layer_end f i x q eq P Q lf = Some p' → well_done (MGo m (resume fr p')).
Proof using HM.
  intros Ht Ho Hf Hl H Him Hq Hs Hab Hu Hp'. destruct f as [|k|k [|]]; try done; simpl in Hp'; simpl in Hs, Hab, Hu.
  - unfold layer_has in Hp'. destruct eq.
    + destruct q as [y|]; [|done]. injection Hp' as <-. destruct (ordered k) eqn:Hor; [|by destruct (Hu eq_refl)].
      destruct (Hs eq_refl) as (_ & _ & Hse). destruct (Hab eq_refl Hse) as [Hat _]. eapply stay_good; [done..|left; simpl; lia].
    + eapply (lower_good fr (FHas k) i x P Q lf); [done..| |done|exact Hp']. intros Hor. destruct (Hs Hor) as (? & ? & Hse).
      split_and!; try done. simpl. destruct q; by apply Hab.
  - unfold layer_remove, write in Hp'. rewrite (proj2 (Nat.ltb_lt _ _)) in Hp' by done. cbn [mbind option_bind] in Hp'.
    eapply (lower_good fr (FRem k None) i x P Q lf); [done..| | |exact Hp'].
    + intros Hor. destruct (Hs Hor) as (Hm & Hi & Hse & Hlf). split_and!; try done. simpl.
      split; [by apply settled_extend|]. destruct lf as [l|].
      * destruct Hlf as (Hlh & n & Hn). split; [lia|]. exists n. rewrite fn_lookup_insert_ne by lia. done.
      * specialize (Hab Hor Hlf). destruct eq, q as [y|]; try done; try (by destruct Hab).
        split; [lia|]. exists y. by rewrite fn_lookup_insert.
    + intros Hor. by destruct (Hu Hor) as [-> ->].
Qed.

Lemma unordered_false (n : int64Node) k : ordered k = false → lessthan n k = false ∧ equal n k = false.
Proof using. intros Hk. unfold lessthan, equal. rewrite (vlt_rank (value n) k), (veq_rank (value n) k). unfold ordered in Hk. by rewrite Hk, andb_false_r. Qed.

Lemma header_facts g i : Inv g (projc c) → i < maxLevel → atomicLoadNext s 0 i = Some (nxt s 0 i) ∧
  ∀ y, nxt s 0 i = Some y → nodes s !! y = Some (node_at s y).
Proof using.
  intros HI Hi. pose proof (inv_shared _ _ HI) as Hs. destruct (si_header _ _ Hs) as (Ha & Hl & _). split.
  - apply load_next; [done|by apply (si_node _ _ Hs)|simpl in *; lia].
  - intros y Hy. apply lookup_node. destruct (next_mem _ _ Hs 0 i y) as [Hm _]; [by left|done|]. by apply (si_mem _ _ Hs) in Hm as [].
Qed.

Lemma solo_FindLoad fr f i x P Q lf : mthreads c t = MRun fr (FindLoad f i x P Q lf) → solo o M0 m (MRun fr (FindLoad f i x P Q lf)) →
  well_done (run_step t m fr (FindLoad f i x P Q lf)).
Proof using HM Hal.
  intros Ht (Ho & H & Hl & Hs). pose proof (mi_extra _ HM t) as Hf. rewrite Ht in Hf. simpl in Hf.
  destruct (looks_key fr f Hl Hf Ho) as (Hk & Hi & Hdy). cbn [run_step]. apply shared_good. intros s' p' Hgo.
  cbn [thread_step] in Hgo. apply goes_Go in Hgo. destruct (search s f i x P Q lf) as [p1|] eqn:Hsr; [|done]. injection Hgo as <- <-.
  rewrite same_map. assert (Hp : proj (mthreads c t) = FindLoad f i x P Q lf) by by rewrite Ht. unfold search in Hsr.
  destruct (ordered (key f)) eqn:Hor.
  - destruct (Hs eq_refl) as (Hm & Hih & Hse). destruct (find_facts _ _ _ _ _ _ Hp Hor Hdy Hm) as (g & HI & _ & Hx & Hb & Him & Hld & Hnext).
    rewrite Hld in Hsr. cbn [mbind option_bind] in Hsr. rewrite Hk in Hb.
    pose proof (layer_facts g i x HI) as Hfacts. rewrite Hp in Hfacts. specialize (Hfacts eq_refl Hdy Hx Hb).
    destruct (nxt s x i) as [y|] eqn:Hy.
    + destruct (Hnext y eq_refl) as (Hny & Hoy & Hmy & Hgap). rewrite Hny in Hsr. cbn [mbind option_bind] in Hsr.
      rewrite lessthan_ranks, equal_ranks, Hk in Hsr by done. change (rank (value (node_at s y))) with (val s y) in Hsr.
      destruct (bool_decide_reflect (val s y ≺ R)) as [Hlt|Hge].
      { injection Hsr as <-. eapply stay_good; [done..| |right; split; [done|by apply to_search_move]]. by split_and!. }
      eapply layer_good; [done..|exact Hy|done| |by rewrite Hor|exact Hsr]. intros _ Hab.
      destruct (Hfacts Hab) as [Hat Hno]; [by intros z [= <-]|]. destruct (bool_decide_reflect (val s y = R)) as [Heq|Hne]; [by apply Hat|].
      apply Hno. by intros z [= <-].
    + eapply layer_good; [done..|exact Hy|done| |by rewrite Hor|exact Hsr]. intros _ Hab. split; [done|].
      destruct (Hfacts Hab) as [_ Hno]; [done|]. by apply Hno.
  - destruct (thread_facts c t HM _ Hp) as (g & HI & Hti). simpl in Hti. rewrite Hor in Hti. destruct Hti as (_ & -> & Him & ->).
    destruct (header_facts g i HI Him) as [Hld Hny]. rewrite Hld in Hsr. cbn [mbind option_bind] in Hsr.
    assert (Hend : layer_end f i 0 (nxt s 0 i) false P Q None = Some p1).
    { destruct (nxt s 0 i) as [y|] eqn:Hy; [|done]. rewrite (Hny y eq_refl) in Hsr. cbn [mbind option_bind] in Hsr.
      destruct (unordered_false (node_at s y) (key f) Hor) as [Hlt Heq]. by rewrite Hlt, Heq in Hsr. }
    eapply (layer_good fr f i 0 P Q None (nxt s 0 i) false); try done; by rewrite Hor.
Qed.

(** *** Deletions: the node is marked *)

Lemma live_word n : live s n → nodes s !! n = Some (node_at s n) ∧ Get (flags (node_at s n)) marked = false ∧
  MGet (flags (node_at s n)) (Z.lor fullyLinked marked) fullyLinked = true.
Proof using.
  intros (Ha & _ & Hf & Hm). rewrite Get_marked, MGet_live. unfold fl, mk in *. rewrite Hf, Hm. split; [by apply lookup_node|done].
Qed.

Lemma solo_HasFlags fr k n : mthreads c t = MRun fr (HasFlags k n) → solo o M0 m (MRun fr (HasFlags k n)) →
  well_done (run_step t m fr (HasFlags k n)).
Proof using HM.
  intros Ht (Ho & H & Hn & Hv). pose proof (mi_extra _ HM t) as Hf. rewrite Ht in Hf. destruct Hf as [Hf ->].
  assert (Hp : proj (mthreads c t) = HasFlags (frame_key fr) n) by by rewrite Ht. destruct (thread_facts c t HM _ Hp) as (g & HI & _ & Hor).
  destruct (live_word n Hn) as (Hlk & _ & HG). cbn [run_step]. rewrite Hlk. cbn [mbind option_bind mgoes]. rewrite HG. unfold well_done. rewrite Ht.
  split; [|left; simpl; lia]. split; [done|]. destruct (holds_live _ _ n H Hn) as (v & Hv' & Hr); [apply HM|]. rewrite Hv in Hr.
  unfold ordered, frame_key in Hor. subst o. unfold apply_mop. rewrite Hor. destruct (of_op fr); try done. simpl in *.
  split; [done|]. exists v. unfold found_value. by rewrite Hr.
Qed.

Lemma solo_RemFlags fr k l n P Q : mthreads c t = MRun fr (RemFlags k l n P Q) → solo o M0 m (MRun fr (RemFlags k l n P Q)) →
  well_done (run_step t m fr (RemFlags k l n P Q)).
Proof using.
  intros Ht (Ho & Hs). pose proof Hs as (H & [Hn Hv] & Hlv & Hse). destruct (live_word n Hn) as (Hlk & _ & HG).
  cbn [run_step]. apply shared_good. intros s' p' Hgo. cbn [thread_step] in Hgo. rewrite Hlk in Hgo. cbn [mbind option_bind goes] in Hgo.
  unfold lev in Hlv. rewrite HG, Hlv, Nat.eqb_refl in Hgo. injection Hgo as <- <-. rewrite same_map.
  eapply stay_good; [done..|left; simpl; lia].
Qed.

Lemma solo_RemLock fr k l n P Q : mthreads c t = MRun fr (RemLock k l n P Q) → solo o M0 m (MRun fr (RemLock k l n P Q)) →
  well_done (run_step t m fr (RemLock k l n P Q)).
Proof using.
  intros Ht (Ho & H & Hn & Hlv & Hse). cbn [run_step]. apply shared_good. intros s' p' Hgo. cbn [thread_step] in Hgo.
  destruct (kept_Lock _ _ _ _ _ _ Hgo) as (-> & Hk & Hnx & Hlev). eapply resume_good; [done..| |left; simpl; lia].
  split_and!; [by eapply holds_kept|by eapply at_key_kept|simpl; by rewrite Hlev|by eapply settled_kept].
Qed.

Lemma solo_RemMarked fr k l n P Q : mthreads c t = MRun fr (RemMarked k l n P Q) → solo o M0 m (MRun fr (RemMarked k l n P Q)) →
  well_done (run_step t m fr (RemMarked k l n P Q)).
Proof using.
  intros Ht (Ho & Hs). pose proof Hs as (H & [Hn Hv] & Hlv & Hse). destruct (live_word n Hn) as (Hlk & HG & _).
  cbn [run_step]. apply shared_good. intros s' p' Hgo. cbn [thread_step] in Hgo. rewrite Hlk in Hgo. cbn [mbind option_bind goes] in Hgo.
  rewrite HG in Hgo. injection Hgo as <- <-. rewrite same_map. eapply stay_good; [done..|left; simpl; lia].
Qed.

Lemma solo_RemMark fr k l n P Q : mthreads c t = MRun fr (RemMark k l n P Q) → solo o M0 m (MRun fr (RemMark k l n P Q)) →
  well_done (run_step t m fr (RemMark k l n P Q)).
Proof using HM.
  intros Ht (Ho & H & [Hn Hv] & Hlv & Hse). pose proof (mi_extra _ HM t) as Hf. rewrite Ht in Hf. destruct Hf as [Hf ->].
  assert (Hp : proj (mthreads c t) = RemMark (frame_key fr) l n P Q) by by rewrite Ht.
  destruct (thread_facts c t HM _ Hp) as (g & HI & _ & _ & _ & _ & Hsr & _ & Hor). destruct (live_word n Hn) as (Hlk & _ & _).
  cbn [run_step]. apply shared_good. intros s' p' Hgo. cbn [thread_step] in Hgo. rewrite Hlk in Hgo. cbn [mbind option_bind goes] in Hgo.
  injection Hgo as <- <-. assert (HR : rank (frame_key fr) = R) by (unfold frame_key; by rewrite Ho).
  destruct (holds_live _ _ n H Hn) as (v & Hv' & Hr); [apply HM|]. rewrite Hv in Hr. pose proof Hn as (Ha & H0 & _).
  eapply resume_good; [done..| |apply next_layer_first_smaller; simpl; lia]. apply next_layer_solo.
  - pose proof (holds_mark _ _ _ n (inv_shared _ _ HI) H Hn) as Hdel. simpl in Hdel. rewrite Hv in Hdel.
    unfold frame_key in Hor. rewrite Ho in Hor. split_and!; [|done|by exists v].
    unfold apply_mop. unfold ordered in Hor. rewrite Hor. rewrite Ho in Hf. by destruct o.
  - intros j Hj. simpl in Hj. destruct (Hse j Hj) as (p & Hpj & Hm & Hq). destruct (Hsr j Hj) as (p1 & Hp1 & _ & Hb & _).
    assert (p1 = p) as -> by congruence. exists p. assert (Hne : p ≠ n).
    { intros ->. destruct Hb as [->|Hb]; [done|]. simpl in Hb. rewrite Hv, HR in Hb. korder. }
    destruct (reflag_facts s n (SetTrue (flags (node_at s n)) marked) p Ha) as (_ & _ & Hl & Hnx & _). destruct (Hl Hne) as [_ Hmk].
    unfold reflag in *. simpl. rewrite Hmk, Hnx. done.
Qed.
End alone.
End map.

(** * The concurrent map: a goroutine alone changes the list

    The locks are taken, the checks succeed, the node is linked or unlinked, and
    the locks are released. *)

Section map.
Context {K C V : Type} `{CC : Countable C} {HK : SkipKey K C}.
#[local] Abbreviation int64Node := (@int64Node K).
#[local] Abbreviation Int64Set := (@Int64Set K).
#[local] Abbreviation pc := (@pc K).
#[local] Abbreviation work := (@work K).
#[local] Abbreviation frame := (@frame K V).
#[local] Abbreviation mpc := (@mpc K V).
#[local] Abbreviation mop := (@mop K V).
#[local] Abbreviation mresult := (@mresult V).
#[local] Abbreviation Int64Map := (@Int64Map K V).
#[local] Abbreviation mconfig := (@mconfig K V).
#[local] Abbreviation moutcome := (@moutcome K V).
Implicit Types (s : Int64Set) (fr : frame).


Lemma read_Some P k p : read P k = Some p → P k = Some p.
Proof. unfold read. by destruct (k <? maxLevel). Qed.

Lemma load_Some s x i q : atomicLoadNext s x i = Some q → nxt s x i = q.
Proof.
  unfold atomicLoadNext, nxt, node_at. destruct (nodes s !! x) as [n|]; [|done]. cbn [mbind option_bind]. simpl. by intros ->.
Qed.

Lemma lookup_flags s x n : nodes s !! x = Some n → mk s x = false → Get (flags n) marked = false.
Proof. intros Hn. rewrite Get_marked. unfold mk, node_at. by rewrite Hn. Qed.

Section alone.
Context (c : mconfig) (t : nat) (HM : MInv c) (Hal : ∀ u, u ≠ t → mthreads c u = MIdle) (o : mop) (M0 : gmap C V).
Local Abbreviation m := (mshared c).
Local Abbreviation s := (nodes_part (mshared c)).
Local Abbreviation R := (rank (mkey o)).
Local Abbreviation good := (well_done c t o M0).

(** ** The locks and the checks *)

Lemma solo_LockPred fr w P Q k hi : mthreads c t = MRun fr (LockPred w P Q k hi) → solo o M0 m (MRun fr (LockPred w P Q k hi)) →
  good (run_step t m fr (LockPred w P Q k hi)).
Proof using HM.
  intros Ht (Ho & Hw & Hse). assert (Hp : proj (mthreads c t) = LockPred w P Q k hi) by by rewrite Ht.
  destruct (thread_facts c t HM _ Hp) as (g & HI & _ & Hk & _). cbn [run_step]. apply shared_good. intros s' p' Hgo. cbn [thread_step] in Hgo.
  destruct (read P k) as [p|]; [|done]. destruct (kept_Lock _ _ _ _ _ _ Hgo) as (-> & Hkp & Hnx & _).
  eapply resume_good; [done..| |right; split; [done|simpl; unfold to_check; lia]].
  split; [by eapply working_kept; [..|exact Hw]|by eapply settled_kept].
Qed.

Lemma solo_CheckPred fr w P Q k hi : mthreads c t = MRun fr (CheckPred w P Q k hi) → solo o M0 m (MRun fr (CheckPred w P Q k hi)) →
  good (run_step t m fr (CheckPred w P Q k hi)).
Proof using HM.
  intros Ht (Ho & Hs). pose proof Hs as (Hw & Hse). assert (Hp : proj (mthreads c t) = CheckPred w P Q k hi) by by rewrite Ht.
  destruct (thread_facts c t HM _ Hp) as (g & HI & _ & Hk & _). cbn [run_step]. apply shared_good. intros s' p' Hgo. cbn [thread_step] in Hgo.
  apply goes_Go in Hgo. destruct (read P k) as [p|] eqn:Hr; [|done]. apply read_Some in Hr. cbn [mbind option_bind] in Hgo.
  destruct (nodes s !! p) as [n|] eqn:Hn; [|done]. cbn [mbind option_bind] in Hgo. destruct (Hse k) as (p1 & Hp1 & Hm & _); [lia|].
  assert (p1 = p) as -> by congruence. rewrite (lookup_flags _ _ _ Hn Hm) in Hgo. injection Hgo as <- <-. rewrite same_map.
  eapply stay_good; [done..| |]; (destruct w; [destruct (Q k)|]); try done; right; (split; [done|]); simpl; unfold to_check; lia.
Qed.

(** The successor of a predecessor that is linked. *)
Lemma succ_live g w P Q k j q : Inv g (projc c) → changing g s t w P Q j → target (proj (mthreads c t)) = Some (wkey w) →
  owned (proj (mthreads c t)) = None → dying (proj (mthreads c t)) = None → settled s P Q 0 (layers w) → k < layers w →
  Q k = Some q → mk s q = false.
Proof using Hal.
  intros HI (_ & Hsr & _) Htg Hown Hdy Hse Hk Hq. destruct (Hse k) as (p & Hpk & Hm & Hn); [lia|].
  destruct (Hsr k) as (p1 & Hp1 & Hr & _); [lia|]. assert (p1 = p) as -> by congruence.
  pose proof (kept_linked c t g (wkey w) p k (inv_ghost _ _ HI t _ Htg) Hr Hm) as Hl.
  destruct (next_mem _ _ (inv_shared _ _ HI) p k q Hl) as [Hqm _]; [simpl; congruence|].
  by destruct (quiet_live c t Hal g q k HI Hown Hdy Hqm) as (_ & _ & _ & ?).
Qed.

Lemma solo_CheckSucc fr w P Q k hi : mthreads c t = MRun fr (CheckSucc w P Q k hi) → solo o M0 m (MRun fr (CheckSucc w P Q k hi)) →
  good (run_step t m fr (CheckSucc w P Q k hi)).
Proof using HM Hal.
  intros Ht (Ho & Hw & Hse & Hdy). assert (Hp : proj (mthreads c t) = CheckSucc w P Q k hi) by by rewrite Ht.
  destruct (thread_facts c t HM _ Hp) as (g & HI & Hch & Hk & _). cbn [run_step]. apply shared_good. intros s' p' Hgo. cbn [thread_step] in Hgo.
  apply goes_Go in Hgo. destruct (read Q k) as [q|] eqn:Hr; [|done]. apply read_Some in Hr. cbn [mbind option_bind] in Hgo.
  destruct (nodes s !! q) as [n|] eqn:Hn; [|done]. cbn [mbind option_bind] in Hgo.
  assert (Hm : mk s q = false) by (eapply (succ_live g w P Q k k q HI Hch); rewrite ?Hp; done).
  rewrite (lookup_flags _ _ _ Hn Hm) in Hgo. injection Hgo as <- <-. rewrite same_map.
  eapply stay_good; [done..|right; split; [done|simpl; unfold to_check; lia]].
Qed.

Lemma solo_CheckNext fr w P Q k hi : mthreads c t = MRun fr (CheckNext w P Q k hi) → solo o M0 m (MRun fr (CheckNext w P Q k hi)) →
  good (run_step t m fr (CheckNext w P Q k hi)).
Proof using HM.
  intros Ht (Ho & Hw & Hse). assert (Hp : proj (mthreads c t) = CheckNext w P Q k hi) by by rewrite Ht.
  destruct (thread_facts c t HM _ Hp) as (g & HI & _ & Hk & _). cbn [run_step]. apply shared_good. intros s' p' Hgo. cbn [thread_step] in Hgo.
  apply goes_Go in Hgo. destruct (read P k) as [p|] eqn:Hr; [|done]. apply read_Some in Hr. cbn [mbind option_bind] in Hgo.
  destruct (atomicLoadNext s p k) as [nx|] eqn:Hl; [|done]. apply load_Some in Hl. cbn [mbind option_bind] in Hgo.
  destruct (Hse k) as (p1 & Hp1 & _ & Hq); [lia|]. rewrite decide_True in Hgo by congruence. injection Hgo as <- <-. rewrite same_map.
  eapply stay_good; [done..|by apply next_layer_solo|by apply next_layer_smaller; [|lia]].
Qed.

Lemma solo_MNext fr w P Q k hi : mthreads c t = MNext fr w P Q k hi → solo o M0 m (MNext fr w P Q k hi) →
  good (map_step t m (MNext fr w P Q k hi)).
Proof using HM.
  intros Ht (Ho & Hw & Hse). assert (Hp : proj (mthreads c t) = CheckNext w P Q k hi) by by rewrite Ht.
  destruct (thread_facts c t HM _ Hp) as (g & HI & _ & Hk & _). cbn [map_step]. destruct (read P k) as [p|] eqn:Hr; [|done].
  apply read_Some in Hr. cbn [mbind option_bind]. destruct (atomicLoadNext s p k) as [nx|] eqn:Hl; [|done]. apply load_Some in Hl.
  cbn [mbind option_bind mgoes]. destruct (Hse k) as (p1 & Hp1 & _ & Hq); [lia|]. rewrite decide_True by congruence.
  unfold well_done. rewrite Ht. destruct (Q k) as [q|].
  - split; [done|]. right. split; [done|]. simpl. unfold to_check. lia.
  - split; [split; [done|by apply next_layer_solo]|]. by apply next_layer_smaller; [|lia].
Qed.

Lemma solo_MSucc fr w P Q k hi : mthreads c t = MSucc fr w P Q k hi → solo o M0 m (MSucc fr w P Q k hi) →
  good (map_step t m (MSucc fr w P Q k hi)).
Proof using HM Hal.
  intros Ht (Ho & Hw & Hse). pose proof (mi_extra _ HM t) as He. rewrite Ht in He. destruct He as (Hi & Hwf & Hk & _).
  destruct (insert_work fr w Hi Hwf) as (lv & -> & _). set (v := frame_key fr) in *.
  assert (Hp : proj (mthreads c t) = next_layer (WAdd v lv) P Q (S k) (P k) hi) by by rewrite Ht.
  destruct (thread_facts c t HM _ Hp) as (g & HI & Hti). destruct (next_layer_knows c t g lv v P Q (S k) (P k) hi Hti) as [[j Hch] Htg].
  cbn [map_step]. destruct (read Q k) as [q|] eqn:Hr; [|done]. apply read_Some in Hr. cbn [mbind option_bind].
  destruct (nodes s !! q) as [n|] eqn:Hn; [|done]. cbn [mbind option_bind mgoes].
  assert (Hm : mk s q = false).
  { eapply (succ_live g (WAdd v lv) P Q k j q HI Hch); rewrite ?Hp; try done;
      by destruct (next_layer_cases (WAdd v lv) P Q (S k) (P k) hi) as [[-> | ->]| ->]. }
  rewrite (lookup_flags _ _ _ Hn Hm). unfold well_done. rewrite Ht.
  split; [split; [done|by apply next_layer_solo]|]. by apply next_layer_smaller; [|lia].
Qed.

(** ** A node is linked *)

Lemma link_solo m' k lv P Q hi nn j : fresh o M0 m' → (∃ v, vals m' !! nn = Some v ∧ given o = Some v) →
  solo_set o M0 m' (link_layer k lv P Q hi nn j).
Proof using. intros Hf Hv. unfold link_layer. by destruct (j <? lv). Qed.

Lemma link_rank s' k lv P Q hi nn j (b : nat) : 2 * (lv - j) < b →
  smaller (set_rank s' (link_layer k lv P Q hi nn j)) (27, b).
Proof using. intros Hb. unfold link_layer, smaller. destruct (Nat.ltb_spec j lv); simpl; lia. Qed.

Lemma unwind_solo m' fr w P Q n pv : of_op fr = o → holds m' (apply_mop o M0).1 → (apply_mop o M0).2 = RPanic →
  solo o M0 m' (unwind fr (unlockInt64 w P Q n pv false)) ∧
  let a := map_rank (nodes_part m') (unwind fr (unlockInt64 w P Q n pv false)) in a.1 < 25 ∨ (a.1 = 25 ∧ a.2 < n).
Proof using.
  intros Ho H Hout. induction n as [|n [IH IH']]; simpl; [split; [done|lia]|].
  case_decide; [split; [done|]; destruct IH' as [?|[? ?]]; [left|right]; lia|]. split; [done|simpl; lia].
Qed.

Lemma solo_AddNew fr k lv P Q hi : mthreads c t = MRun fr (AddNew k lv P Q hi) → solo o M0 m (MRun fr (AddNew k lv P Q hi)) →
  good (run_step t m fr (AddNew k lv P Q hi)).
Proof using HM.
  intros Ht (Ho & H & Hn). pose proof (mi_extra _ HM t) as Hf. rewrite Ht in Hf. destruct Hf as (Hi & -> & _).
  assert (Hp : proj (mthreads c t) = AddNew (frame_key fr) lv P Q hi) by by rewrite Ht.
  destruct (thread_facts c t HM _ Hp) as (g & HI & ([Hor _] & _) & _). pose proof (mi_vals _ HM) as Hl.
  cbn [run_step]. rewrite Ho in *. unfold well_done. destruct (given o) as [v|] eqn:Hg; rewrite Ht.
  - split; [|left; unfold link_layer; simpl; destruct (_ <? _); simpl; lia]. split; [done|]. apply link_solo.
    + split; [by apply holds_append|done].
    + exists v. split; [|done]. simpl. rewrite lookup_app_r by lia. by rewrite Hl, Nat.sub_diag.
  - assert (Hout : (apply_mop o M0).2 = RPanic ∧ (apply_mop o M0).1 = M0).
    { unfold frame_key, ordered in Hor. rewrite Ho in Hor. unfold apply_mop. rewrite Hor, Hn, Hg. by destruct o. }
    destruct Hout as [Hout Haft]. destruct (unwind_solo m fr (WAdd (frame_key fr) lv) P Q hi None Ho) as [Hs Hr]; [by rewrite Haft|done|].
    split; [done|]. left. simpl in *. lia.
Qed.

Lemma solo_AddInit fr k lv P Q hi nn j : mthreads c t = MRun fr (AddInit k lv P Q hi nn j) →
  solo o M0 m (MRun fr (AddInit k lv P Q hi nn j)) → good (run_step t m fr (AddInit k lv P Q hi nn j)).
Proof using HM.
  intros Ht (Ho & Hfr & Hv). assert (Hp : proj (mthreads c t) = AddInit k lv P Q hi nn j) by by rewrite Ht.
  destruct (thread_facts c t HM _ Hp) as (g & HI & _ & Hj & _). cbn [run_step]. apply shared_good. intros s' p' Hgo. cbn [thread_step] in Hgo.
  apply goes_Go in Hgo. destruct (atomicStoreNext nn j (Q j) s) as [s1|] eqn:Hst; [|done]. injection Hgo as <- <-. apply kept_store in Hst.
  eapply resume_good; [done..| |right; split; [done|simpl; lia]]. split; [|done]. by apply (working_kept o M0 m _ (WAdd k lv)).
Qed.

Lemma solo_AddLink fr k lv P Q hi nn j : mthreads c t = MRun fr (AddLink k lv P Q hi nn j) →
  solo o M0 m (MRun fr (AddLink k lv P Q hi nn j)) → good (run_step t m fr (AddLink k lv P Q hi nn j)).
Proof using HM.
  intros Ht (Ho & Hfr & Hv). assert (Hp : proj (mthreads c t) = AddLink k lv P Q hi nn j) by by rewrite Ht.
  destruct (thread_facts c t HM _ Hp) as (g & HI & _ & Hj & _). cbn [run_step]. apply shared_good. intros s' p' Hgo. cbn [thread_step] in Hgo.
  apply goes_Go in Hgo. destruct (read P j) as [p|]; [|done]. cbn [mbind option_bind] in Hgo.
  destruct (atomicStoreNext p j (Some nn) s) as [s1|] eqn:Hst; [|done]. injection Hgo as <- <-. apply kept_store in Hst.
  eapply resume_good; [done..| |apply link_rank; lia]. apply link_solo; [|done]. by apply (working_kept o M0 m _ (WAdd k lv)).
Qed.

Lemma solo_AddFull fr k lv P Q hi nn : mthreads c t = MRun fr (AddFull k lv P Q hi nn) →
  solo o M0 m (MRun fr (AddFull k lv P Q hi nn)) → good (run_step t m fr (AddFull k lv P Q hi nn)).
Proof using HM.
  intros Ht (Ho & [H Hn] & v & Hv & Hg). pose proof (mi_extra _ HM t) as Hf. rewrite Ht in Hf. destruct Hf as (Hi & -> & _).
  assert (Hp : proj (mthreads c t) = AddFull (frame_key fr) lv P Q hi nn) by by rewrite Ht.
  destruct (thread_facts c t HM _ Hp) as (g & HI & (_ & _ & _ & _ & _ & _ & Ha & H0 & Hval & _ & Hfl & Hmk & _) & Hor).
  cbn [run_step]. apply shared_good. intros s' p' Hgo. cbn [thread_step] in Hgo. rewrite lookup_node in Hgo by done. cbn [mbind option_bind goes] in Hgo.
  injection Hgo as <- <-. assert (HR : val s nn = R) by (simpl in Hval; rewrite Hval; unfold frame_key; by rewrite Ho).
  pose proof (holds_link m M0 nn v H Ha H0 Hmk Hfl Hv) as Hl. rewrite HR in Hl. specialize (Hl Hn). unfold reflag in Hl.
  assert (Hout : (apply_mop o M0).1 = <[R := v]> M0 ∧ changed o = (apply_mop o M0).2).
  { unfold frame_key, ordered in Hor. rewrite Ho in Hor, Hi. unfold apply_mop. rewrite Hor, Hn.
    destruct o; try done; simpl in *; rewrite ?Hg; split; try done; congruence. }
  destruct Hout as [Haft Hch]. set (m' := mkMap _ (vals m)) in Hl.
  destruct (unlock_solo o M0 m' (nodes_part m') (WAdd (frame_key fr) lv) P Q hi None) as [Hs Hr]; [split; [by rewrite Haft|done]|].
  eapply resume_good; [done|done|exact Hs|]. left. simpl in *. lia.
Qed.

(** ** A node is unlinked *)

Lemma solo_UnlinkLoad fr k n top P Q hi i : mthreads c t = MRun fr (UnlinkLoad k n top P Q hi i) →
  solo o M0 m (MRun fr (UnlinkLoad k n top P Q hi i)) → good (run_step t m fr (UnlinkLoad k n top P Q hi i)).
Proof using.
  intros Ht (Ho & Hr). cbn [run_step]. apply shared_good. intros s' p' Hgo. cbn [thread_step] in Hgo. apply goes_Go in Hgo.
  destruct (atomicLoadNext s n i); [|done]. injection Hgo as <- <-. rewrite same_map.
  eapply stay_good; [done..|right; split; [done|simpl; lia]].
Qed.

Lemma solo_UnlinkStore fr k n top P Q hi i nx : mthreads c t = MRun fr (UnlinkStore k n top P Q hi i nx) →
  solo o M0 m (MRun fr (UnlinkStore k n top P Q hi i nx)) → good (run_step t m fr (UnlinkStore k n top P Q hi i nx)).
Proof using.
  intros Ht (Ho & Hr). cbn [run_step]. apply shared_good. intros s' p' Hgo. cbn [thread_step] in Hgo. apply goes_Go in Hgo.
  destruct (read P i) as [p|]; [|done]. cbn [mbind option_bind] in Hgo.
  destruct (atomicStoreNext p i nx s) as [s1|] eqn:Hst; [|done]. injection Hgo as <- <-. apply kept_store in Hst.
  assert (Hr' : removed o M0 (mkMap s1 (vals m)) n) by by apply (working_kept o M0 m _ (WRem k n top)).
  destruct i as [|i]; (eapply resume_good; [done|done|exact Hr'|]); [left|right; split; [done|]]; simpl; lia.
Qed.

Lemma solo_UnlockNode fr k n top P Q hi : mthreads c t = MRun fr (UnlockNode k n top P Q hi) →
  solo o M0 m (MRun fr (UnlockNode k n top P Q hi)) → good (run_step t m fr (UnlockNode k n top P Q hi)).
Proof using.
  intros Ht (Ho & Hr). cbn [run_step]. apply shared_good. intros s' p' Hgo. cbn [thread_step] in Hgo. apply goes_Go in Hgo.
  destruct (Unlock s n) as [s1|] eqn:Hst; [|done]. injection Hgo as <- <-. apply kept_Unlock in Hst. set (m' := mkMap s1 (vals m)).
  destruct (unlock_solo o M0 m' (nodes_part m') (WRem k n top) P Q hi None) as [Hs Hrk]; [by apply (finished_kept o M0 m m' (WRem k n top))|].
  eapply resume_good; [done|done|exact Hs|]. left. simpl in *. lia.
Qed.

(** ** The locks are released *)

Lemma solo_UnlockPred fr w P Q i valid : mthreads c t = MRun fr (UnlockPred w P Q i valid) →
  solo o M0 m (MRun fr (UnlockPred w P Q i valid)) → good (run_step t m fr (UnlockPred w P Q i valid)).
Proof using.
  intros Ht (Ho & -> & Hf). cbn [run_step]. apply shared_good. intros s' p' Hgo. cbn [thread_step] in Hgo. apply goes_Go in Hgo.
  destruct (read P i) as [p|]; [|done]. cbn [mbind option_bind] in Hgo.
  destruct (Unlock s p) as [s1|] eqn:Hst; [|done]. injection Hgo as <- <-. apply kept_Unlock in Hst. set (m' := mkMap s1 (vals m)).
  destruct (unlock_solo o M0 m' (nodes_part m') w P Q i (P i)) as [Hs Hrk]; [by apply (finished_kept o M0 m m')|].
  eapply resume_good; [done|done|exact Hs|]. unfold smaller. simpl in *. lia.
Qed.

Lemma solo_LenAdd fr w : mthreads c t = MRun fr (LenAdd w) → solo o M0 m (MRun fr (LenAdd w)) → good (run_step t m fr (LenAdd w)).
Proof using HM.
  intros Ht (Ho & Hf). pose proof (mi_extra _ HM t) as Hw. rewrite Ht in Hw. simpl in Hw. cbn [run_step].
  assert (Hk : ∀ l, finished o M0 (mkMap (mkSet (nodes s) l (highestLevel s)) (vals m)) w).
  { intros l. eapply finished_kept; [..|exact Hf]; [by apply kept_nodes|done]. }
  destruct w as [k lv|k n top]; unfold shared_step; cbn [thread_step].
  - destruct (Hk (int_add (len s) 1)) as [Hh Hch]. unfold well_done. rewrite Ht. cbn [resume].
    split; [|left; simpl; lia]. rewrite Ho. done.
  - destruct (Hk (int_add (len s) (-1))) as (Hh & Hor & v & Hv & HM0). destruct Hw as [Hd ->]. unfold well_done. rewrite Ht.
    unfold ordered in Hor. set (m' := mkMap _ _) in *.
    assert (Hout : (apply_mop o M0).2 = match o with LoadAndDelete _ => RValue (Some v) true | _ => RBool true end).
    { unfold apply_mop. rewrite Hor. rewrite Ho in Hd. destruct o; try done; simpl in *; unfold found_value; by rewrite HM0. }
    rewrite Ho in Hd |- *. split; [|left; destruct o; simpl; lia]. destruct o; try done; simpl.
    + split; [done|]. split; [done|]. by exists v.
    + rewrite Ho. split_and!; [done..|]. by rewrite Hout.
Qed.

Lemma solo_MUnwind fr p : mthreads c t = MUnwind fr p → solo o M0 m (MUnwind fr p) → good (map_step t m (MUnwind fr p)).
Proof using HM.
  intros Ht (Ho & H & Hout). pose proof (mi_extra _ HM t) as He. rewrite Ht in He. destruct He as (_ & w & P & Q & i & -> & _).
  cbn [map_step]. apply shared_good. intros s' p' Hgo. cbn [thread_step] in Hgo. apply goes_Go in Hgo.
  destruct (read P i) as [p|]; [|done]. cbn [mbind option_bind] in Hgo.
  destruct (Unlock s p) as [s1|] eqn:Hst; [|done]. injection Hgo as <- <-. apply kept_Unlock in Hst. set (m' := mkMap s1 (vals m)).
  destruct (unwind_solo m' fr w P Q i (P i) Ho) as [Hs Hrk]; [by eapply (holds_kept m m')|done|].
  unfold well_done. rewrite Ht. split; [done|]. unfold smaller. simpl in *. lia.
Qed.
End alone.
End map.
