(* ===== verification/SkipMapSeq.v ===== *)
(** * The concurrent map: operations one after the other

    A goroutine that no other disturbs runs any sequence of operations to the
    end, with the results of the map that is meant; what [Range] and [Len]
    report then. *)

From stdpp Require Import functions sorting.
From S2P Require Import Prelude Atomic SkipSet SkipSetInv SkipSetHeap SkipSetMoves SkipSetSteps SkipSetLin SkipSetThms SkipSetProps SkipMap SkipMapInv SkipMapSolo SkipMapAlone.

Section map.
Context {K C V : Type} `{CC : Countable C} {HK : SkipKey K C}.
#[local] Abbreviation int64Node := (@int64Node K).
#[local] Abbreviation Int64Set := (@Int64Set K).
#[local] Abbreviation pc := (@pc K).
#[local] Abbreviation work := (@work K).
#[local] Abbreviation frame := (@frame K V).
#[local] Abbreviation mpc := (@mpc K V).
#[local] Abbreviation mop := (@mop K V).
#[local] Abbreviation mresult := (@mresult V).
#[local] Abbreviation Int64Map := (@Int64Map K V).
#[local] Abbreviation mconfig := (@mconfig K V).
#[local] Abbreviation moutcome := (@moutcome K V).
Implicit Types (s : Int64Set) (m : Int64Map) (c : mconfig) (fr : frame).


(** ** One operation *)

Lemma smaller_wf : well_founded smaller.
Proof.
  intros [a b]. revert b. induction a as [a IHa] using lt_wf_ind. intros b. induction b as [b IHb] using lt_wf_ind.
  constructor. intros [a' b'] [Hlt|[Heq Hlt]]; simpl in *; [by apply IHa|]. subst a'. by apply IHb.
Qed.

(** A goroutine runs alone until its operation is over. *)
Fixpoint run_alone (fuel t : nat) (m : Int64Map) (p : mpc) : option (Int64Map * mresult) :=
  match p, fuel with
  | MReturned _ r, _ => Some (m, r)
  | _, O => None
  | _, S fuel => match map_step t m p with MGo m p => run_alone fuel t m p | _ => None end
  end.

Lemma run_alone_S fuel t m p m' p' : map_step t m p = MGo m' p' → run_alone (S fuel) t m p = run_alone fuel t m' p'.
Proof. intros Hgo. simpl. rewrite Hgo. by destruct p. Qed.

Lemma run_alone_more fuel n t m p x : run_alone fuel t m p = Some x → run_alone (fuel + n) t m p = Some x.
Proof.
  revert m p. induction fuel as [|fuel IH]; intros m p; [destruct p; simpl; try done; by destruct n|].
  cbn [Nat.add]. destruct p; try done; cbn [run_alone]; (destruct (map_step _ _ _); [apply IH|done..]).
Qed.

Lemma MInv_ext c c' : mshared c' = mshared c → (∀ u, mthreads c' u = mthreads c u) → MInv c → MInv c'.
Proof.
  intros Hm Ht HM. split; rewrite ?Hm; try apply HM.
  - eapply pinv_ext; [| |apply HM]; simpl; [by rewrite Hm|]. intros u. by rewrite Ht.
  - intros u. rewrite Ht. apply HM.
Qed.

Definition at_rest (m : Int64Map) : mconfig := mkMConfig m (λ _, MIdle).

Section steps.
Context (t : nat) (o : mop) (M0 : gmap C V).

Lemma solo_step c : MInv c → (∀ u, u ≠ t → mthreads c u = MIdle) → solo o M0 (mshared c) (mthreads c t) →
  well_done c t o M0 (map_step t (mshared c) (mthreads c t)).
Proof using.
  intros HM Hal Hs. destruct (mthreads c t) as [| | | | | | | | | | |fr p| |] eqn:Ht; try done.
  - by apply solo_MStart.
  - by apply solo_MRandLoad.
  - by apply solo_MRandCas.
  - by apply solo_MFindStart.
  - by apply solo_MFind.
  - by apply solo_MFound.
  - by apply solo_MStoreVal.
  - by apply solo_MLoadVal.
  - by apply solo_MNext.
  - by apply solo_MSucc.
  - cbn [map_step]. destruct p; try (by destruct Hs).
    + by apply solo_FindStart.
    + by apply solo_FindLoad.
    + by apply solo_HasFlags.
    + by apply solo_RemFlags.
    + by apply solo_RemLock.
    + by apply solo_RemMarked.
    + by apply solo_RemMark.
    + by apply solo_LockPred.
    + by apply solo_CheckPred.
    + by apply solo_CheckSucc.
    + by apply solo_CheckNext.
    + by apply solo_AddNew.
    + by apply solo_AddInit.
    + by apply solo_AddLink.
    + by apply solo_AddFull.
    + by apply solo_UnlinkLoad.
    + by apply solo_UnlinkStore.
    + by apply solo_UnlockNode.
    + by apply solo_UnlockPred.
    + by apply solo_LenAdd.
  - by apply solo_MUnwind.
Qed.

(** It never waits. *)
Lemma alone_moves c : MInv c → (∀ u, u ≠ t → mthreads c u = MIdle) → mthreads c t ≠ MIdle →
  (∃ o r, mthreads c t = MReturned o r) ∨ ∃ m p, map_step t (mshared c) (mthreads c t) = MGo m p.
Proof using.
  intros HM Hal H0. destruct (map_moves c t HM H0) as [u Hu]. destruct (decide (u = t)) as [->|Hne]; [done|].
  rewrite (Hal u Hne) in Hu. destruct Hu as [(? & ? & ?)|(? & ? & ?)]; done.
Qed.

Lemma solo_runs c : MInv c → (∀ u, u ≠ t → mthreads c u = MIdle) → solo o M0 (mshared c) (mthreads c t) →
  ∃ fuel m', run_alone fuel t (mshared c) (mthreads c t) = Some (m', (apply_mop o M0).2) ∧ holds m' (apply_mop o M0).1 ∧
    MInv (at_rest m').
Proof using.
  remember (map_rank (nodes_part (mshared c)) (mthreads c t)) as b eqn:Hb. revert c Hb.
  induction b as [b IH] using (well_founded_induction smaller_wf). intros c -> HM Hal Hs.
  destruct (alone_moves c HM Hal) as [(o' & r & Hp)|(m1 & p1 & Hgo)].
  { intros H0. by rewrite H0 in Hs. }
  - rewrite Hp in Hs |- *. destruct Hs as (-> & Hh & ->). exists 0, (mshared c). split_and!; try done.
    eapply MInv_ext; [| |by eapply MInv_return]; [done|]. intros u. simpl.
    destruct (decide (u = t)) as [->|Hu]; [by rewrite fn_lookup_insert|]. rewrite fn_lookup_insert_ne by done. symmetry. by apply Hal.
  - pose proof (solo_step c HM Hal Hs) as Hg. pose proof (map_step_well c t HM) as Hw. rewrite Hgo in Hg, Hw. destruct Hg as [Hs1 Hsm].
    destruct (IH _ Hsm (mkMConfig m1 (<[t := p1]> (mthreads c)))) as (fuel & m' & Hr & Hh & HM'); simpl; rewrite ?fn_lookup_insert; try done.
    { intros u Hu. rewrite fn_lookup_insert_ne by done. by apply Hal. }
    simpl in Hr. rewrite fn_lookup_insert in Hr. exists (S fuel), m'. split_and!; [by erewrite run_alone_S|done..].
Qed.
End steps.

(** The start of an operation. *)
Lemma start_solo t o k c M0 : mthreads c t = mstart o k → holds (mshared c) M0 → solo o M0 (mshared c) (mthreads c t).
Proof. intros -> H. by destruct o; simpl. Qed.

(** ** Sequences of operations *)

(** The operations of one goroutine, each with the draws of its level. *)
Fixpoint run_all (fuel t : nat) (m : Int64Map) (os : list (mop * nat)) : option (Int64Map * list mresult) :=
  match os with
  | [] => Some (m, [])
  | (o, k) :: os => '(m, r) ← run_alone fuel t m (mstart o k); '(m, rs) ← run_all fuel t m os; Some (m, r :: rs)
  end.

Fixpoint apply_all (os : list (mop * nat)) (M : gmap C V) : gmap C V * list mresult :=
  match os with
  | [] => (M, [])
  | (o, _) :: os => let '(M, r) := apply_mop o M in let '(M, rs) := apply_all os M in (M, r :: rs)
  end.

Lemma run_all_more fuel n t m os x : run_all fuel t m os = Some x → run_all (fuel + n) t m os = Some x.
Proof.
  revert m x. induction os as [|[o k] os IH]; intros m x; simpl; [done|].
  destruct (run_alone fuel t m (mstart o k)) as [[m1 r]|] eqn:Hr; [|done]. cbn [mbind option_bind].
  destruct (run_all fuel t m1 os) as [[m2 rs]|] eqn:Hrs; [|done]. cbn [mbind option_bind]. intros Hx.
  rewrite (run_alone_more _ _ _ _ _ _ Hr). cbn [mbind option_bind]. by rewrite (IH _ _ Hrs).
Qed.

Lemma rest_holds m : MInv (at_rest m) → holds m (mcontents m).
Proof. intros HM. destruct (mi_set _ HM) as [g HI]. exact (contents_holds _ _ (inv_shared _ _ HI)). Qed.

Lemma one_runs t o k m : MInv (at_rest m) → ∃ fuel m', run_alone fuel t m (mstart o k) = Some (m', (apply_mop o (mcontents m)).2) ∧
  mcontents m' = (apply_mop o (mcontents m)).1 ∧ MInv (at_rest m').
Proof.
  intros HM. pose proof (MInv_call _ t o k HM eq_refl) as HM1.
  set (c := mkMConfig (mshared (at_rest m)) (<[t := mstart o k]> (mthreads (at_rest m)))) in HM1.
  assert (Ht : mthreads c t = mstart o k) by (simpl; by rewrite fn_lookup_insert).
  destruct (solo_runs t o (mcontents m) c HM1) as (fuel & m' & Hr & Hh & HM').
  - intros u Hu. simpl. by rewrite fn_lookup_insert_ne.
  - eapply start_solo; [exact Ht|]. by apply rest_holds.
  - rewrite Ht in Hr. exists fuel, m'. split_and!; try done. eapply holds_unique; [|exact Hh]. by apply rest_holds.
Qed.

Lemma all_run t os m : MInv (at_rest m) → ∃ fuel m', run_all fuel t m os = Some (m', (apply_all os (mcontents m)).2) ∧
  mcontents m' = (apply_all os (mcontents m)).1 ∧ MInv (at_rest m').
Proof.
  revert m. induction os as [|[o k] os IH]; intros m HM; [by exists 0, m|].
  destruct (one_runs t o k m HM) as (f1 & m1 & Hr1 & Hc1 & HM1). destruct (IH m1 HM1) as (f2 & m2 & Hr2 & Hc2 & HM2).
  exists (f1 + f2), m2. simpl. rewrite (run_alone_more _ f2 _ _ _ _ Hr1). cbn [mbind option_bind].
  rewrite Nat.add_comm, (run_all_more _ f1 _ _ _ _ Hr2). cbn [mbind option_bind].
  destruct (apply_mop o (mcontents m)) as [M1 r1]. simpl in *. subst M1.
  destruct (apply_all os (mcontents m1)) as [M2 rs]. done.
Qed.

(** ** Range and Len *)

Fixpoint mvisit {A} (f : A → K → V → A * bool) (acc : A) (l : list (K * V)) : A :=
  match l with
  | [] => acc
  | (k, v) :: l => let '(acc, go_on) := f acc k v in if go_on then mvisit f acc l else acc
  end.

Definition binding (m : Int64Map) (x : nat) : option (K * V) :=
  let n := node_at (nodes_part m) x in if in_set n then v ← vals m !! x; Some (value n, v) else None.

Section range.
Context (m : Int64Map) (ch : nat → list nat) (Hs : shared_inv ch (nodes_part m)) (Hv : length (vals m) = length (nodes (nodes_part m))).
Local Abbreviation s := (nodes_part m).

Lemma mrange_from_ok {A} (f : A → K → V → A * bool) fuel l acc :
  links (λ x, nxt s x 0) l → (∀ x, x ∈ l → alloc s x) → length l <= fuel →
  mrange_from fuel m (head l) f acc = Some (mvisit f acc (omap (binding m) l)).
Proof using Hs Hv.
  revert l acc. induction fuel as [|fuel IH]; intros [|x l] acc Hl Ha Hn; simpl in *; try done; try lia.
  destruct Hl as [Hx Hl]. assert (Hax : alloc s x) by (apply Ha; by left). rewrite lookup_node by done. simpl.
  pose proof (si_node _ _ Hs x Hax) as Hok. rewrite load_ok; [|done|destruct Hok as (_ & _ & ?); lia]. simpl.
  change (default None (load (next (node_at s x)) 0)) with (nxt s x 0). rewrite Hx.
  assert (Hrec : ∀ acc, mrange_from fuel m (head l) f acc = Some (mvisit f acc (omap (binding m) l))).
  { intros acc'. apply IH; [done| |lia]. intros y Hy. apply Ha. by right. }
  unfold binding at 1. change (MGet _ _ _) with (in_set (node_at s x)). destruct (in_set (node_at s x)); [|apply Hrec]. unfold loadVal.
  destruct (lookup_lt_is_Some_2 (vals m) x) as [v ->]; [rewrite Hv; exact Hax|]. simpl.
  destruct (f acc (value (node_at s x)) v) as [acc' [|]]; [apply Hrec|done].
Qed.

Lemma MRange_ok {A} (f : A → K → V → A * bool) acc : MRange m f acc = Some (mvisit f acc (omap (binding m) (ch 0))).
Proof using Hs Hv.
  unfold MRange. destruct (si_header _ _ Hs) as (Ha & Hl & _). unfold header.
  rewrite load_next; [|done|by apply Hs|rewrite Hl; unfold maxLevel; lia]. simpl.
  pose proof (si_links _ _ 0 Hs) as [H0 Hlk]. rewrite H0. apply mrange_from_ok; [done| |by apply chain_short].
  intros x Hx. by apply (si_mem _ _ Hs 0).
Qed.

Lemma bindings_values l : (∀ x, x ∈ l → alloc s x) → (omap (binding m) l).*1 = values s l.
Proof using Hv.
  induction l as [|x l IH]; intros Ha; [done|]. rewrite values_cons. simpl. unfold binding at 1.
  rewrite <- IH by (intros y Hy; apply Ha; by right). destruct (in_set (node_at s x)); [|done].
  destruct (lookup_lt_is_Some_2 (vals m) x) as [v ->]; [rewrite Hv; apply Ha; by left|]. done.
Qed.

Lemma bindings_sorted : StronglySorted clt (rank <$> (omap (binding m) (ch 0)).*1).
Proof using Hs Hv. rewrite bindings_values by (intros x Hx; by apply (si_mem _ _ Hs 0)). by apply values_sorted. Qed.

Lemma bindings_contents k v : (k, v) ∈ omap (binding m) (ch 0) → mcontents m !! rank k = Some v.
Proof using Hs.
  rewrite list_elem_of_omap. intros (x & Hx & Hb). unfold binding in Hb. destruct (in_set (node_at s x)) eqn:Hin; [|done].
  destruct (vals m !! x) as [w|] eqn:Hw; [|done]. simplify_eq/=. apply (contents_holds ch m Hs). exists x. split_and!; try done.
  eapply live_at; [apply lookup_node; by apply (si_mem _ _ Hs 0)|]. split; [|done]. by eapply (mem_nonzero _ _ Hs).
Qed.

Lemma bindings_size : length (omap (binding m) (ch 0)) = size (mcontents m).
Proof using Hs Hv.
  rewrite <- (length_fmap fst), bindings_values by (intros x Hx; by apply (si_mem _ _ Hs 0)). rewrite (values_size ch s Hs).
  rewrite <- size_dom. f_equal. apply set_eq. intros r. rewrite elem_of_elems, elem_of_dom. split.
  - intros (x & Hx & <-). destruct (holds_live m _ x (contents_holds ch m Hs) Hx Hv) as (v & _ & Hr). by exists v.
  - intros [v Hr]. apply (contents_holds ch m Hs) in Hr as (x & Hx & Hr & _). by exists x.
Qed.
End range.

Lemma rest_len m : MInv (at_rest m) → wraps 64 (MLen m) = wraps 64 (Z.of_nat (size (mcontents m))).
Proof.
  intros HM. destruct (mi_set _ HM) as [g HI]. pose proof (inv_shared _ _ HI) as Hs. simpl in Hs.
  rewrite <- (bindings_size m _ Hs (mi_vals _ HM)), <- (length_fmap fst), bindings_values; [|apply HM|intros x Hx; by apply (si_mem _ _ Hs 0)].
  rewrite (values_size _ _ Hs). destruct (inv_finite _ _ HI) as (N & _ & k & Hk).
  assert (Htot : total (threads (projc (at_rest m))) N = 0%Z) by (clear Hk; induction N as [|N IH]; simpl in *; [done|by rewrite IH]).
  rewrite Htot, Z.add_0_r in Hk. unfold MLen, wraps. simpl in Hk. rewrite Hk. f_equal.
  replace (_ + _ * _ + _)%Z with (Z.of_nat (size (elems (nodes_part m))) + 2 ^ (64 - 1) + k * 2 ^ 64)%Z by (simpl; lia).
  by rewrite Z.mod_add.
Qed.
End map.
