(* ===== verification/SkipMapKeys.v ===== *)
(** * The maps of the concurrent map

    Model of src/structure/skipmap/types.go: the maps of the other types of keys,
    in ascending and in descending order.  Each is the code of skipmap.go with
    another type of keys and other comparisons; the maps of floating-point
    numbers never hold NaN, and the map of strings compares the hashes of the
    strings first. *)

From stdpp Require Import functions.
From S2P Require Import Prelude GoFloat Wyhash Atomic SkipSet SkipSetKeys SkipMap.

Section map.
Context {K C V : Type} `{CC : Countable C} {HK : SkipKey K C}.

(** The operation a goroutine is in. *)
Definition pc_op (p : @mpc K V) : option (@mop K V) :=
  match p with
  | MIdle => None
  | MStart fr | MRandLoad fr _ _ | MRandCas fr _ _ _ | MFindStart fr _ _ | MFind fr _ _ _ _ | MFound fr _ _ _
  | MStoreVal fr _ _ | MLoadVal fr _ | MNext fr _ _ _ _ _ | MSucc fr _ _ _ _ _ | MRun fr _ | MUnwind fr _ => Some (of_op fr)
  | MReturned o _ => Some o
  end.

(** The steps of some of the operations. *)
Definition steps_of (these : @mop K V → bool) (t : nat) (m : @Int64Map K V) (p : @mpc K V) : moutcome :=
  match pc_op p with Some o => if these o then map_step t m p else MBlocked | None => MBlocked end.
End map.

(** ** The parts of a map type *)

(** Its nodes with their comparisons, its constructor and its searches. *)
Record mnodes_of (K V : Type) := mkMNodes {
  mnew_node : K → nat → @int64Node K;
  mstore_val : nat → V → @Int64Map K V → option (@Int64Map K V);
  mload_val : @Int64Map K V → nat → option V;
  mnode_lessthan : @int64Node K → K → bool;
  mnode_equal : @int64Node K → K → bool;
  mnew : V → @Int64Map K V;
  mfind : @Int64Set K → K → nat → nat → array → array → option sought;
  mfind_delete : @Int64Set K → @finder K → nat → nat → array → array → option nat → option (@pc K);
  munlock : @work K → array → array → nat → option nat → bool → @pc K
}.

(** [Store] and [Load]: where they begin, and their steps. *)
Record mstores_of (K V : Type) := mkMStores {
  enter_store : K → V → nat → @mpc K V;
  enter_load : K → nat → @mpc K V;
  store_step : nat → @Int64Map K V → @mpc K V → @moutcome K V
}.

(** [LoadAndDelete] and [LoadOrStore]. *)
Record mloads_of (K V : Type) := mkMLoads {
  enter_load_and_delete : K → nat → @mpc K V;
  enter_load_or_store : K → V → nat → @mpc K V;
  load_step : nat → @Int64Map K V → @mpc K V → @moutcome K V
}.

(** [LoadOrStoreLazy], [Delete], [Range] and [Len]. *)
Record mothers_of (K V : Type) := mkMOthers {
  enter_lazy : K → option V → nat → @mpc K V;
  enter_delete : K → nat → @mpc K V;
  other_step : nat → @Int64Map K V → @mpc K V → @moutcome K V;
  miterate A : @Int64Map K V → (A → K → V → A * bool) → A → option A;
  mcount : @Int64Map K V → Z
}.

Section at_keys.
Context {K C : Type} `{CC : Countable C} (HK : SkipKey K C) (V : Type).

Definition mnodes_at : mnodes_of K V :=
  mkMNodes K V newInt64Node storeVal loadVal lessthan equal NewInt64Map findNode search unlockInt64.
Definition mstores_at : mstores_of K V :=
  mkMStores K V (λ k v, mstart (Store k v)) (λ k, mstart (Load k))
    (steps_of (λ o, match o with Store _ _ | Load _ => true | _ => false end)).
Definition mloads_at : mloads_of K V :=
  mkMLoads K V (λ k, mstart (LoadAndDelete k)) (λ k v, mstart (LoadOrStore k v))
    (steps_of (λ o, match o with LoadAndDelete _ | LoadOrStore _ _ => true | _ => false end)).
Definition mothers_at : mothers_of K V :=
  mkMOthers K V (λ k f, mstart (LoadOrStoreLazy k f)) (λ k, mstart (Delete k))
    (steps_of (λ o, match o with LoadOrStoreLazy _ _ | Delete _ => true | _ => false end)) (@MRange K V) MLen.
End at_keys.

(** ** The map types *)

Definition ByteMap_nodes (V : Type) : mnodes_of Z V := mnodes_at ascending V.
Definition ByteMap_stores (V : Type) : mstores_of Z V := mstores_at ascending V.
Definition ByteMap_loads (V : Type) : mloads_of Z V := mloads_at ascending V.
Definition ByteMap_others (V : Type) : mothers_of Z V := mothers_at ascending V.
Definition ByteMapDesc_nodes (V : Type) : mnodes_of Z V := mnodes_at descending V.
Definition ByteMapDesc_stores (V : Type) : mstores_of Z V := mstores_at descending V.
Definition ByteMapDesc_loads (V : Type) : mloads_of Z V := mloads_at descending V.
Definition ByteMapDesc_others (V : Type) : mothers_of Z V := mothers_at descending V.
Definition Float32Map_nodes (V : Type) : mnodes_of float32 V := mnodes_at floats V.
Definition Float32Map_stores (V : Type) : mstores_of float32 V := mstores_at floats V.
Definition Float32Map_loads (V : Type) : mloads_of float32 V := mloads_at floats V.
Definition Float32Map_others (V : Type) : mothers_of float32 V := mothers_at floats V.
Definition Float32MapDesc_nodes (V : Type) : mnodes_of float32 V := mnodes_at floats_desc V.
Definition Float32MapDesc_stores (V : Type) : mstores_of float32 V := mstores_at floats_desc V.
Definition Float32MapDesc_loads (V : Type) : mloads_of float32 V := mloads_at floats_desc V.
Definition Float32MapDesc_others (V : Type) : mothers_of float32 V := mothers_at floats_desc V.
Definition Float64Map_nodes (V : Type) : mnodes_of float64 V := mnodes_at floats V.
Definition Float64Map_stores (V : Type) : mstores_of float64 V := mstores_at floats V.
Definition Float64Map_loads (V : Type) : mloads_of float64 V := mloads_at floats V.
Definition Float64Map_others (V : Type) : mothers_of float64 V := mothers_at floats V.
Definition Float64MapDesc_nodes (V : Type) : mnodes_of float64 V := mnodes_at floats_desc V.
Definition Float64MapDesc_stores (V : Type) : mstores_of float64 V := mstores_at floats_desc V.
Definition Float64MapDesc_loads (V : Type) : mloads_of float64 V := mloads_at floats_desc V.
Definition Float64MapDesc_others (V : Type) : mothers_of float64 V := mothers_at floats_desc V.
Definition IntMap_nodes (V : Type) : mnodes_of Z V := mnodes_at ascending V.
Definition IntMap_stores (V : Type) : mstores_of Z V := mstores_at ascending V.
Definition IntMap_loads (V : Type) : mloads_of Z V := mloads_at ascending V.
Definition IntMap_others (V : Type) : mothers_of Z V := mothers_at ascending V.
Definition IntMapDesc_nodes (V : Type) : mnodes_of Z V := mnodes_at descending V.
Definition IntMapDesc_stores (V : Type) : mstores_of Z V := mstores_at descending V.
Definition IntMapDesc_loads (V : Type) : mloads_of Z V := mloads_at descending V.
Definition IntMapDesc_others (V : Type) : mothers_of Z V := mothers_at descending V.
Definition Int8Map_nodes (V : Type) : mnodes_of Z V := mnodes_at ascending V.
Definition Int8Map_stores (V : Type) : mstores_of Z V := mstores_at ascending V.
Definition Int8Map_loads (V : Type) : mloads_of Z V := mloads_at ascending V.
Definition Int8Map_others (V : Type) : mothers_of Z V := mothers_at ascending V.
Definition Int8MapDesc_nodes (V : Type) : mnodes_of Z V := mnodes_at descending V.
Definition Int8MapDesc_stores (V : Type) : mstores_of Z V := mstores_at descending V.
Definition Int8MapDesc_loads (V : Type) : mloads_of Z V := mloads_at descending V.
Definition Int8MapDesc_others (V : Type) : mothers_of Z V := mothers_at descending V.
Definition Int16Map_nodes (V : Type) : mnodes_of Z V := mnodes_at ascending V.
Definition Int16Map_stores (V : Type) : mstores_of Z V := mstores_at ascending V.
Definition Int16Map_loads (V : Type) : mloads_of Z V := mloads_at ascending V.
Definition Int16Map_others (V : Type) : mothers_of Z V := mothers_at ascending V.
Definition Int16MapDesc_nodes (V : Type) : mnodes_of Z V := mnodes_at descending V.
Definition Int16MapDesc_stores (V : Type) : mstores_of Z V := mstores_at descending V.
Definition Int16MapDesc_loads (V : Type) : mloads_of Z V := mloads_at descending V.
Definition Int16MapDesc_others (V : Type) : mothers_of Z V := mothers_at descending V.
Definition Int32Map_nodes (V : Type) : mnodes_of Z V := mnodes_at ascending V.
Definition Int32Map_stores (V : Type) : mstores_of Z V := mstores_at ascending V.
Definition Int32Map_loads (V : Type) : mloads_of Z V := mloads_at ascending V.
Definition Int32Map_others (V : Type) : mothers_of Z V := mothers_at ascending V.
Definition Int32MapDesc_nodes (V : Type) : mnodes_of Z V := mnodes_at descending V.
Definition Int32MapDesc_stores (V : Type) : mstores_of Z V := mstores_at descending V.
Definition Int32MapDesc_loads (V : Type) : mloads_of Z V := mloads_at descending V.
Definition Int32MapDesc_others (V : Type) : mothers_of Z V := mothers_at descending V.
Definition RuneMap_nodes (V : Type) : mnodes_of Z V := mnodes_at ascending V.
Definition RuneMap_stores (V : Type) : mstores_of Z V := mstores_at ascending V.
Definition RuneMap_loads (V : Type) : mloads_of Z V := mloads_at ascending V.
Definition RuneMap_others (V : Type) : mothers_of Z V := mothers_at ascending V.
Definition RuneMapDesc_nodes (V : Type) : mnodes_of Z V := mnodes_at descending V.
Definition RuneMapDesc_stores (V : Type) : mstores_of Z V := mstores_at descending V.
Definition RuneMapDesc_loads (V : Type) : mloads_of Z V := mloads_at descending V.
Definition RuneMapDesc_others (V : Type) : mothers_of Z V := mothers_at descending V.
Definition UintMap_nodes (V : Type) : mnodes_of Z V := mnodes_at ascending V.
Definition UintMap_stores (V : Type) : mstores_of Z V := mstores_at ascending V.
Definition UintMap_loads (V : Type) : mloads_of Z V := mloads_at ascending V.
Definition UintMap_others (V : Type) : mothers_of Z V := mothers_at ascending V.
Definition UintMapDesc_nodes (V : Type) : mnodes_of Z V := mnodes_at descending V.
Definition UintMapDesc_stores (V : Type) : mstores_of Z V := mstores_at descending V.
Definition UintMapDesc_loads (V : Type) : mloads_of Z V := mloads_at descending V.
Definition UintMapDesc_others (V : Type) : mothers_of Z V := mothers_at descending V.
Definition Uint8Map_nodes (V : Type) : mnodes_of Z V := mnodes_at ascending V.
Definition Uint8Map_stores (V : Type) : mstores_of Z V := mstores_at ascending V.
Definition Uint8Map_loads (V : Type) : mloads_of Z V := mloads_at ascending V.
Definition Uint8Map_others (V : Type) : mothers_of Z V := mothers_at ascending V.
Definition Uint8MapDesc_nodes (V : Type) : mnodes_of Z V := mnodes_at descending V.
Definition Uint8MapDesc_stores (V : Type) : mstores_of Z V := mstores_at descending V.
Definition Uint8MapDesc_loads (V : Type) : mloads_of Z V := mloads_at descending V.
Definition Uint8MapDesc_others (V : Type) : mothers_of Z V := mothers_at descending V.
Definition Uint16Map_nodes (V : Type) : mnodes_of Z V := mnodes_at ascending V.
Definition Uint16Map_stores (V : Type) : mstores_of Z V := mstores_at ascending V.
Definition Uint16Map_loads (V : Type) : mloads_of Z V := mloads_at ascending V.
Definition Uint16Map_others (V : Type) : mothers_of Z V := mothers_at ascending V.
Definition Uint16MapDesc_nodes (V : Type) : mnodes_of Z V := mnodes_at descending V.
Definition Uint16MapDesc_stores (V : Type) : mstores_of Z V := mstores_at descending V.
Definition Uint16MapDesc_loads (V : Type) : mloads_of Z V := mloads_at descending V.
Definition Uint16MapDesc_others (V : Type) : mothers_of Z V := mothers_at descending V.
Definition Uint32Map_nodes (V : Type) : mnodes_of Z V := mnodes_at ascending V.
Definition Uint32Map_stores (V : Type) : mstores_of Z V := mstores_at ascending V.
Definition Uint32Map_loads (V : Type) : mloads_of Z V := mloads_at ascending V.
Definition Uint32Map_others (V : Type) : mothers_of Z V := mothers_at ascending V.
Definition Uint32MapDesc_nodes (V : Type) : mnodes_of Z V := mnodes_at descending V.
Definition Uint32MapDesc_stores (V : Type) : mstores_of Z V := mstores_at descending V.
Definition Uint32MapDesc_loads (V : Type) : mloads_of Z V := mloads_at descending V.
Definition Uint32MapDesc_others (V : Type) : mothers_of Z V := mothers_at descending V.
Definition Uint64Map_nodes (V : Type) : mnodes_of Z V := mnodes_at ascending V.
Definition Uint64Map_stores (V : Type) : mstores_of Z V := mstores_at ascending V.
Definition Uint64Map_loads (V : Type) : mloads_of Z V := mloads_at ascending V.
Definition Uint64Map_others (V : Type) : mothers_of Z V := mothers_at ascending V.
Definition Uint64MapDesc_nodes (V : Type) : mnodes_of Z V := mnodes_at descending V.
Definition Uint64MapDesc_stores (V : Type) : mstores_of Z V := mstores_at descending V.
Definition Uint64MapDesc_loads (V : Type) : mloads_of Z V := mloads_at descending V.
Definition Uint64MapDesc_others (V : Type) : mothers_of Z V := mothers_at descending V.
Definition UintptrMap_nodes (V : Type) : mnodes_of Z V := mnodes_at ascending V.
Definition UintptrMap_stores (V : Type) : mstores_of Z V := mstores_at ascending V.
Definition UintptrMap_loads (V : Type) : mloads_of Z V := mloads_at ascending V.
Definition UintptrMap_others (V : Type) : mothers_of Z V := mothers_at ascending V.
Definition UintptrMapDesc_nodes (V : Type) : mnodes_of Z V := mnodes_at descending V.
Definition UintptrMapDesc_stores (V : Type) : mstores_of Z V := mstores_at descending V.
Definition UintptrMapDesc_loads (V : Type) : mloads_of Z V := mloads_at descending V.
Definition UintptrMapDesc_others (V : Type) : mothers_of Z V := mothers_at descending V.
Definition StringMap_nodes (big : bool) (V : Type) : mnodes_of bytes V := mnodes_at (hashed big) V.
Definition StringMap_stores (big : bool) (V : Type) : mstores_of bytes V := mstores_at (hashed big) V.
Definition StringMap_loads (big : bool) (V : Type) : mloads_of bytes V := mloads_at (hashed big) V.
Definition StringMap_others (big : bool) (V : Type) : mothers_of bytes V := mothers_at (hashed big) V.

(** A map type, and all of them, that of skipmap.go first. *)
Record gomap (V : Type) := mkGomap {
  of_keys : Type;
  of_mnodes : mnodes_of of_keys V;
  of_stores : mstores_of of_keys V;
  of_loads : mloads_of of_keys V;
  of_others : mothers_of of_keys V
}.

Definition gomap_at {K C} `{Countable C} (HK : SkipKey K C) (V : Type) : gomap V :=
  mkGomap V K (mnodes_at HK V) (mstores_at HK V) (mloads_at HK V) (mothers_at HK V).

Definition maps_go (big : bool) (V : Type) : list (gomap V) :=
  [gomap_at ascending V;
   mkGomap V Z (ByteMap_nodes V) (ByteMap_stores V) (ByteMap_loads V) (ByteMap_others V);
   mkGomap V Z (ByteMapDesc_nodes V) (ByteMapDesc_stores V) (ByteMapDesc_loads V) (ByteMapDesc_others V);
   mkGomap V float32 (Float32Map_nodes V) (Float32Map_stores V) (Float32Map_loads V) (Float32Map_others V);
   mkGomap V float32 (Float32MapDesc_nodes V) (Float32MapDesc_stores V) (Float32MapDesc_loads V) (Float32MapDesc_others V);
   mkGomap V float64 (Float64Map_nodes V) (Float64Map_stores V) (Float64Map_loads V) (Float64Map_others V);
   mkGomap V float64 (Float64MapDesc_nodes V) (Float64MapDesc_stores V) (Float64MapDesc_loads V) (Float64MapDesc_others V);
   mkGomap V Z (IntMap_nodes V) (IntMap_stores V) (IntMap_loads V) (IntMap_others V);
   mkGomap V Z (IntMapDesc_nodes V) (IntMapDesc_stores V) (IntMapDesc_loads V) (IntMapDesc_others V);
   mkGomap V Z (Int8Map_nodes V) (Int8Map_stores V) (Int8Map_loads V) (Int8Map_others V);
   mkGomap V Z (Int8MapDesc_nodes V) (Int8MapDesc_stores V) (Int8MapDesc_loads V) (Int8MapDesc_others V);
   mkGomap V Z (Int16Map_nodes V) (Int16Map_stores V) (Int16Map_loads V) (Int16Map_others V);
   mkGomap V Z (Int16MapDesc_nodes V) (Int16MapDesc_stores V) (Int16MapDesc_loads V) (Int16MapDesc_others V);
   mkGomap V Z (Int32Map_nodes V) (Int32Map_stores V) (Int32Map_loads V) (Int32Map_others V);
   mkGomap V Z (Int32MapDesc_nodes V) (Int32MapDesc_stores V) (Int32MapDesc_loads V) (Int32MapDesc_others V);
   mkGomap V Z (RuneMap_nodes V) (RuneMap_stores V) (RuneMap_loads V) (RuneMap_others V);
   mkGomap V Z (RuneMapDesc_nodes V) (RuneMapDesc_stores V) (RuneMapDesc_loads V) (RuneMapDesc_others V);
   mkGomap V Z (UintMap_nodes V) (UintMap_stores V) (UintMap_loads V) (UintMap_others V);
   mkGomap V Z (UintMapDesc_nodes V) (UintMapDesc_stores V) (UintMapDesc_loads V) (UintMapDesc_others V);
   mkGomap V Z (Uint8Map_nodes V) (Uint8Map_stores V) (Uint8Map_loads V) (Uint8Map_others V);
   mkGomap V Z (Uint8MapDesc_nodes V) (Uint8MapDesc_stores V) (Uint8MapDesc_loads V) (Uint8MapDesc_others V);
   mkGomap V Z (Uint16Map_nodes V) (Uint16Map_stores V) (Uint16Map_loads V) (Uint16Map_others V);
   mkGomap V Z (Uint16MapDesc_nodes V) (Uint16MapDesc_stores V) (Uint16MapDesc_loads V) (Uint16MapDesc_others V);
   mkGomap V Z (Uint32Map_nodes V) (Uint32Map_stores V) (Uint32Map_loads V) (Uint32Map_others V);
   mkGomap V Z (Uint32MapDesc_nodes V) (Uint32MapDesc_stores V) (Uint32MapDesc_loads V) (Uint32MapDesc_others V);
   mkGomap V Z (Uint64Map_nodes V) (Uint64Map_stores V) (Uint64Map_loads V) (Uint64Map_others V);
   mkGomap V Z (Uint64MapDesc_nodes V) (Uint64MapDesc_stores V) (Uint64MapDesc_loads V) (Uint64MapDesc_others V);
   mkGomap V Z (UintptrMap_nodes V) (UintptrMap_stores V) (UintptrMap_loads V) (UintptrMap_others V);
   mkGomap V Z (UintptrMapDesc_nodes V) (UintptrMapDesc_stores V) (UintptrMapDesc_loads V) (UintptrMapDesc_others V);
   mkGomap V bytes (StringMap_nodes big V) (StringMap_stores big V) (StringMap_loads big V) (StringMap_others big V)].

(** Interleavings of the methods of a map type. *)
Section interleavings.
Context {V : Type} (S : gomap V).
Local Abbreviation K := (of_keys V S).

Definition enter (o : @mop K V) : nat → @mpc K V :=
  match o with
  | Store k v => enter_store K V (of_stores V S) k v
  | Load k => enter_load K V (of_stores V S) k
  | LoadAndDelete k => enter_load_and_delete K V (of_loads V S) k
  | LoadOrStore k v => enter_load_or_store K V (of_loads V S) k v
  | LoadOrStoreLazy k f => enter_lazy K V (of_others V S) k f
  | Delete k => enter_delete K V (of_others V S) k
  end.

Definition perform_map (t : nat) (m : @Int64Map K V) (p : @mpc K V) : moutcome :=
  match pc_op p with
  | None => MBlocked
  | Some (Store _ _ | Load _) => store_step K V (of_stores V S) t m p
  | Some (LoadAndDelete _ | LoadOrStore _ _) => load_step K V (of_loads V S) t m p
  | Some (LoadOrStoreLazy _ _ | Delete _) => other_step K V (of_others V S) t m p
  end.

Definition mstarted (empty : V) : mconfig := mkMConfig (mnew K V (of_mnodes V S) empty) (λ _, MIdle).

Inductive minterleaves : mconfig → option (label mop mresult) → mconfig → Prop :=
  | minterleaves_call c t o k :
      mthreads c t = MIdle → minterleaves c (Some (Call t o)) (mkMConfig (mshared c) (<[t := enter o k]> (mthreads c)))
  | minterleaves_inner c t m p :
      perform_map t (mshared c) (mthreads c t) = MGo m p → minterleaves c None (mkMConfig m (<[t := p]> (mthreads c)))
  | minterleaves_panic c t :
      perform_map t (mshared c) (mthreads c t) = MPanics → minterleaves c (Some (Panic t)) c
  | minterleaves_return c t o r :
      mthreads c t = MReturned o r →
      minterleaves c (Some (Return t r)) (mkMConfig (mshared c) (<[t := MIdle]> (mthreads c))).
End interleavings.
