(* ===== verification/SkipMapHist.v ===== *)
(** * The concurrent map: where values come from

    In every interleaving a value that is found under a key has been given with
    that key by a call of [Store], [LoadOrStore] or [LoadOrStoreLazy]. *)

From stdpp Require Import functions sorting.
From S2P Require Import Prelude Atomic SkipSet SkipSetInv SkipSetHeap SkipSetMoves SkipSetSteps SkipSetLin SkipSetThms SkipSetProps SkipMap SkipMapInv SkipMapSolo SkipMapKeys.

Section map.
Context {K C V : Type} `{CC : Countable C} {HK : SkipKey K C}.
#[local] Abbreviation int64Node := (@int64Node K).
#[local] Abbreviation Int64Set := (@Int64Set K).
#[local] Abbreviation pc := (@pc K).
#[local] Abbreviation work := (@work K).
#[local] Abbreviation frame := (@frame K V).
#[local] Abbreviation mpc := (@mpc K V).
#[local] Abbreviation mop := (@mop K V).
#[local] Abbreviation mresult := (@mresult V).
#[local] Abbreviation Int64Map := (@Int64Map K V).
#[local] Abbreviation mconfig := (@mconfig K V).
#[local] Abbreviation moutcome := (@moutcome K V).
Implicit Types (s : Int64Set) (m : Int64Map) (c : mconfig) (fr : frame).



(** A call of the history gave [v] with a key of rank [r]. *)
Definition given_by (ls : list (label mop mresult)) (r : C) (v : V) : Prop :=
  ∃ u o, Call u o ∈ ls ∧ rank (mkey o) = r ∧ given o = Some v.

Lemma given_by_mono ls ls' r v : ls ⊆ ls' → given_by ls r v → given_by ls' r v.
Proof. intros Hsub (u & o & Hin & Ho). exists u, o. split; [by apply Hsub|done]. Qed.

(** ** Steps keep operations and keys *)

Lemma resume_op fr p : pc_op (resume fr p) = Some (of_op fr).
Proof. destruct p as [| | |[]| | | | | | | | | | | | | | | | | | | | | | |]; simpl; try done; by destruct (of_op fr) eqn:Ho; simpl; rewrite ?Ho. Qed.

Lemma unwind_op fr p : pc_op (unwind fr p) = Some (of_op fr).
Proof. by destruct p. Qed.

Lemma leveled_op fr P Q : pc_op (leveled fr P Q) = Some (of_op fr).
Proof. unfold leveled. simpl. destruct (of_op fr) eqn:Ho; simpl; rewrite ?Ho; try done; destruct (_ <? _); simpl; by rewrite Ho. Qed.

Lemma sought_op fr r : pc_op (sought_pc fr r) = Some (of_op fr).
Proof. destruct r; simpl; try done. unfold after_find. by destruct (_ =? 0). Qed.

Lemma mgoes_go (x : option (Int64Map * mpc)) m' p' : mgoes x = MGo m' p' → x = Some (m', p').
Proof. destruct x as [[]|]; simpl; [|done]. by intros [= -> ->]. Qed.

Lemma shared_go t m k p m' p' : shared_step t m k p = MGo m' p' →
  ∃ s1 p1, thread_step t (nodes_part m) p = Go s1 p1 ∧ m' = mkMap s1 (vals m) ∧ p' = k p1.
Proof. unfold shared_step. destruct (thread_step t (nodes_part m) p) as [s1 p1| |]; [|done..]. intros [= <- <-]. eauto. Qed.

Lemma run_op t m fr p m' p' : run_step t m fr p = MGo m' p' → pc_op p' = Some (of_op fr).
Proof.
  assert (Hsh : ∀ k, (∀ q, pc_op (k q) = Some (of_op fr)) → shared_step t m k p = MGo m' p' → pc_op p' = Some (of_op fr)).
  { intros k Hk (s1 & p1 & _ & _ & ->)%shared_go. apply Hk. }
  destruct p; simpl; try (apply Hsh; intros q; apply resume_op).
  - intros Hgo%mgoes_go. destruct (nodes (nodes_part m) !! n) as [nd|]; [|done]. cbn [mbind option_bind] in Hgo.
    injection Hgo as <- <-. by destruct (MGet _ _ _).
  - destruct (given (of_op fr)); intros [= <- <-]; [done|apply unwind_op].
  - destruct w; apply Hsh; intros q; [apply resume_op|]. pose proof (resume_op fr q). by destruct (of_op fr) eqn:Ho; simpl; rewrite ?Ho.
Qed.

Lemma step_op t m p m' p' : map_step t m p = MGo m' p' → pc_op p' = pc_op p.
Proof.
  destruct p; simpl; try done.
  - destruct (negb _); intros [= <- <-]; [done|]. by destruct (of_op fr) eqn:Ho; simpl; rewrite ?Ho.
  - intros [= <- <-]. by destruct (_ <=? _); [apply leveled_op|].
  - case_decide; intros [= <- <-]; [apply leveled_op|done].
  - intros [= <- <-]. destruct (highestLevel _); [|done]. unfold after_find. by destruct (_ =? 0).
  - intros Hgo%mgoes_go. destruct (findNode _ _ _ _ _ _) as [r|]; [|done]. injection Hgo as <- <-. apply sought_op.
  - intros Hgo%mgoes_go. destruct (nodes (nodes_part m) !! n) as [nd|]; [|done]. cbn [mbind option_bind] in Hgo.
    injection Hgo as <- <-. destruct (Get _ _); [done|]. unfold present. by destruct (of_op fr) eqn:Ho; simpl; rewrite ?Ho.
  - intros Hgo%mgoes_go. destruct (storeVal _ _ _); [|done]. by injection Hgo as <- <-.
  - intros Hgo%mgoes_go. destruct (loadVal _ _); [|done]. by injection Hgo as <- <-.
  - intros Hgo%mgoes_go. destruct (read P k); [|done]. cbn [mbind option_bind] in Hgo. destruct (atomicLoadNext _ _ _); [|done].
    injection Hgo as <- <-. case_decide; [by destruct (Q k)|apply resume_op].
  - intros Hgo%mgoes_go. destruct (read Q k); [|done]. cbn [mbind option_bind] in Hgo. destruct (nodes _ !! _); [|done].
    injection Hgo as <- <-. destruct (Get _ _); [apply resume_op|done].
  - apply run_op.
  - intros (s1 & p1 & _ & _ & ->)%shared_go. apply unwind_op.
Qed.

(** Nodes stay, with their keys. *)
Definition grows (s s' : Int64Set) : Prop := ∀ x, alloc s x → alloc s' x ∧ value (node_at s' x) = value (node_at s x).

Lemma grows_kept s s' : kept s s' → grows s s'.
Proof. intros Hk x Ha. destruct (kept_facts _ _ x Hk) as (_ & _ & _ & Hal). split; [by apply Hal|]. apply Hk. Qed.

Lemma grows_refl s : grows s s.
Proof. by intros x Ha. Qed.

Lemma grows_flags s x n f : nodes s !! x = Some n → grows s (update x (set_flags f n) s).
Proof.
  intros Hn y Ha. assert (Hx : node_at s x = n) by (unfold node_at; by rewrite Hn). split; [by apply update_alloc|].
  apply (proj_update value); [by eapply lookup_lt_Some|by rewrite Hx].
Qed.

Lemma grows_append s n l h : grows s (mkSet (nodes s ++ [n]) l h).
Proof.
  intros x Ha. unfold alloc, node_at in *. simpl. rewrite length_app, lookup_app_l by done. split; [lia|done].
Qed.

Lemma thread_grows t s p s' p' : thread_step t s p = Go s' p' → grows s s'.
Proof.
  intros Hgo. destruct p; cbn [thread_step] in Hgo; try done; try apply goes_Go in Hgo;
    try match type of Hgo with context [read ?P ?k] => destruct (read P k); [|done]; cbn [mbind option_bind] in Hgo end;
    try match type of Hgo with context [nodes ?s !! ?n] => destruct (nodes s !! n) as [nd|] eqn:Hn; [|done]; cbn [mbind option_bind] in Hgo end;
    try match type of Hgo with context [atomicLoadNext ?s ?n ?i] => destruct (atomicLoadNext s n i); [|done]; cbn [mbind option_bind] in Hgo end;
    try match type of Hgo with context [atomicStoreNext ?x ?i ?q ?s] => destruct (atomicStoreNext x i q s) as [s1|] eqn:Hst; [|done]; apply kept_store in Hst end;
    try match type of Hgo with context [Unlock ?s ?x] => destruct (Unlock s x) as [s1|] eqn:Hst; [|done]; apply kept_Unlock in Hst end;
    try (apply kept_Lock in Hgo as (_ & Hk & _); by apply grows_kept);
    try (injection Hgo as <- _; first [apply grows_refl|by apply grows_kept, kept_nodes|by apply grows_kept|by apply grows_flags|apply grows_append]).
  - destruct (negb _); injection Hgo as <- _; apply grows_refl.
  - case_decide; injection Hgo as <- _; [by apply grows_kept, kept_nodes|apply grows_refl].
  - destruct (match highestLevel s with O => _ | S i => _ end); [|done]. injection Hgo as <- _. apply grows_refl.
  - destruct (search _ _ _ _ _ _ _); [|done]. injection Hgo as <- _. apply grows_refl.
Qed.

(** ** The end of a deletion *)

(** The node that has been unlinked. *)
Definition unlinked (p : pc) : option nat :=
  match p with
  | UnlockPred (WRem _ n _) _ _ _ true | LenAdd (WRem _ n _) => Some n
  | _ => None
  end.

Lemma next_layer_unlinked (w : work) P Q k pv hi : unlinked (next_layer w P Q k pv hi) = None.
Proof. destruct (next_layer_cases w P Q k pv hi) as [[-> | ->]|Hp]; [done..|]. by destruct w; rewrite Hp. Qed.

Lemma unlock_failed (w : work) P Q n pv : unlinked (unlockInt64 w P Q n pv false) = None.
Proof. induction n as [|n IH]; simpl; [done|]. case_decide; [done|]. by destruct w. Qed.

Lemma unlock_unlinked (w : work) P Q n pv valid x : unlinked (unlockInt64 w P Q n pv valid) = Some x → valid = true ∧ ∃ k top, w = WRem k x top.
Proof.
  destruct valid; [|by rewrite unlock_failed]. induction n as [|n IH]; simpl.
  - destruct w as [|k y top]; [done|]. intros [= ->]. eauto.
  - case_decide; [done|]. simpl. destruct w as [|k y top]; [done|]. intros [= ->]. eauto.
Qed.

Lemma search_unlinked s f i x P Q lf p : search s f i x P Q lf = Some p → unlinked p = None.
Proof.
  assert (Hfound : ∀ f P Q lf p, @found K f P Q lf = Some p → unlinked p = None).
  { intros [|k|k [[n top]|]] P1 Q1 lf1 q; simpl.
    1, 3: intros [= <-]; apply next_layer_unlinked. 1: by intros [= <-].
    destruct lf1 as [l|]; [|by intros [= <-]]. destruct (Q1 l); [|done]. by intros [= <-]. }
  assert (Hlower : ∀ f i x P Q lf p, @lower K f i x P Q lf = Some p → unlinked p = None).
  { intros f1 [|j] x1 P1 Q1 lf1 q; simpl; [apply Hfound|by intros [= <-]]. }
  assert (Hend : ∀ f i x q e P Q lf p, @layer_end K f i x q e P Q lf = Some p → unlinked p = None).
  { intros f1 i1 x1 q1 e P1 Q1 lf1 q. destruct f1; simpl; unfold layer_add, layer_has, layer_remove.
    - destruct (write P1 i1 _); [|done]. cbn [mbind option_bind]. destruct (write Q1 i1 q1); [|done]. cbn [mbind option_bind].
      destruct e; [|apply Hlower]. destruct q1; [|done]. by intros [= <-].
    - destruct e; [|apply Hlower]. destruct q1; [|done]. by intros [= <-].
    - destruct (write P1 i1 _); [|done]. cbn [mbind option_bind]. destruct (write Q1 i1 q1); [|done]. apply Hlower. }
  unfold search. destruct (atomicLoadNext s x i) as [[y|]|]; cbn [mbind option_bind]; [|apply Hend|done].
  destruct (nodes s !! y); [|done]. cbn [mbind option_bind]. destruct (lessthan _ _); [by intros [= <-]|apply Hend].
Qed.

Lemma unlinked_from t s p s' p' n : thread_step t s p = Go s' p' → unlinked p' = Some n →
  (∃ k top P Q hi, p = UnlockNode k n top P Q hi) ∨ unlinked p = Some n.
Proof.
  intros Hgo Hn. destruct p; cbn [thread_step] in Hgo; try done; try apply goes_Go in Hgo;
    try match type of Hgo with context [read ?P ?k] => destruct (read P k); [|done]; cbn [mbind option_bind] in Hgo end;
    try match type of Hgo with context [nodes ?s !! ?n] => destruct (nodes s !! n) as [nd|]; [|done]; cbn [mbind option_bind] in Hgo end;
    try match type of Hgo with context [atomicLoadNext ?s ?n ?i] => destruct (atomicLoadNext s n i); [|done]; cbn [mbind option_bind] in Hgo end;
    try match type of Hgo with context [atomicStoreNext ?x ?i ?q ?s] => destruct (atomicStoreNext x i q s) as [s1|]; [|done] end;
    try match type of Hgo with context [Unlock ?s ?x] => destruct (Unlock s x) as [s1|]; [|done] end;
    try (apply kept_Lock in Hgo as (-> & _); done);
    try (injection Hgo as _ <-; rewrite ?next_layer_unlinked in Hn; done).
  - destruct (negb _); injection Hgo as _ <-; [done|]. by destruct (_ <=? _).
  - case_decide; by injection Hgo as _ <-.
  - destruct (highestLevel s) as [|i]; [|by injection Hgo as _ <-].
    destruct f as [|k|k [[x top]|]]; simpl in Hgo; injection Hgo as _ <-; try done; by rewrite next_layer_unlinked in Hn.
  - destruct (search s f i x P Q lf) as [p1|] eqn:Hp1; [|done]. injection Hgo as _ <-. by rewrite (search_unlinked _ _ _ _ _ _ _ _ Hp1) in Hn.
  - injection Hgo as _ <-. by destruct (Get _ _).
  - injection Hgo as _ <-. by destruct (Get _ _).
  - injection Hgo as _ <-. by destruct (_ && _).
  - injection Hgo as _ <-. by destruct (Get _ _).
  - injection Hgo as _ <-. destruct (Get _ _); [by rewrite unlock_failed in Hn|]. destruct w; [by destruct (Q k)|done].
  - injection Hgo as _ <-. destruct (Get _ _); [by rewrite unlock_failed in Hn|done].
  - injection Hgo as _ <-. case_decide; [by rewrite next_layer_unlinked in Hn|by rewrite unlock_failed in Hn].
  - injection Hgo as _ <-. unfold link_layer in Hn. by destruct (_ <? _).
  - injection Hgo as _ <-. unfold link_layer in Hn. by destruct (_ <? _).
  - injection Hgo as _ <-. apply unlock_unlinked in Hn as (_ & ? & ? & ?). done.
  - injection Hgo as _ <-. by destruct i.
  - injection Hgo as _ <-. apply unlock_unlinked in Hn as (_ & k1 & top1 & [= -> -> ->]). left. eauto 10.
  - injection Hgo as _ <-. apply unlock_unlinked in Hn as (-> & k1 & top1 & ->). by right.
Qed.

(** ** The invariant of the history *)

(** A node with the key of the operation. *)
Definition keyed (s : Int64Set) (fr : frame) (n : nat) : Prop := alloc s n ∧ n ≠ 0 ∧ val s n = rank (frame_key fr).

Definition near (ls : list (label mop mresult)) (s : Int64Set) (p : mpc) : Prop :=
  match p with
  | MStoreVal fr _ n | MLoadVal fr n => keyed s fr n
  | MRun fr p => ∀ n, unlinked p = Some n → keyed s fr n
  | MReturned o (RValue (Some v) _) => given_by ls (rank (mkey o)) v
  | _ => True
  end.

Record HInv (ls : list (label mop mresult)) (c : mconfig) : Prop := {
  hi_vals x v : x ≠ 0 → vals (mshared c) !! x = Some v → given_by ls (val (nodes_part (mshared c)) x) v;
  hi_given t o v : pc_op (mthreads c t) = Some o → given o = Some v → given_by ls (rank (mkey o)) v;
  hi_near t : near ls (nodes_part (mshared c)) (mthreads c t)
}.

Lemma keyed_grows s s' fr n : grows s s' → keyed s fr n → keyed s' fr n.
Proof. intros Hg (Ha & H0 & Hv). destruct (Hg n Ha) as [Ha' Hv']. split_and!; [done..|]. unfold val in *. by rewrite Hv'. Qed.

Lemma near_grows ls s s' p : grows s s' → near ls s p → near ls s' p.
Proof. intros Hg. destruct p; simpl; try done; try (by apply keyed_grows). intros H n Hn. eapply keyed_grows; [done|by apply H]. Qed.

Lemma near_mono ls ls' s p : ls ⊆ ls' → near ls s p → near ls' s p.
Proof. intros Hsub. destruct p as [| | | | | | | | | | | | |o [|[v|] ok| |]]; simpl; try done. by apply given_by_mono. Qed.

Lemma near_resume ls s fr p : (∀ v, given (of_op fr) = Some v → given_by ls (rank (mkey (of_op fr))) v) →
  (∀ n, unlinked p = Some n → keyed s fr n) → near ls s (resume fr p).
Proof.
  intros Hg Hn. destruct p as [| | |[]| | | | | | | | | | | | | | | | | | | | | | |b]; simpl; try done; try (by destruct (of_op fr)).
  destruct b; destruct (of_op fr); simpl in *; try done; [by apply Hg|]. destruct f; [by apply Hg|done].
Qed.

Lemma next_layer_near ls s fr (w : work) P Q k pv hi : near ls s (MRun fr (next_layer w P Q k pv hi)).
Proof. intros n. by rewrite next_layer_unlinked. Qed.

Lemma after_near ls s fr P Q : near ls s (after_find fr P Q).
Proof. unfold after_find. destruct (_ =? 0); [done|apply next_layer_near]. Qed.

Lemma leveled_near ls s fr P Q : near ls s (leveled fr P Q).
Proof. unfold leveled. destruct (of_op _); try done; (destruct (_ <? _); [done|apply next_layer_near]). Qed.

Section step.
Context (ls : list (label mop mresult)) (c : mconfig) (t : nat) (HM : MInv c) (HH : HInv ls c).
Local Abbreviation m := (mshared c).
Local Abbreviation s := (nodes_part (mshared c)).

(** What a step has to leave. *)
Definition tells (m' : Int64Map) (p' : mpc) : Prop :=
  grows s (nodes_part m') ∧ near ls (nodes_part m') p' ∧
  ∀ x v, x ≠ 0 → vals m' !! x = Some v → given_by ls (val (nodes_part m') x) v.

Lemma tells_kept s' p' : grows s s' → near ls s' p' → tells (mkMap s' (vals m)) p'.
Proof using HM HH.
  intros Hg Hn. split_and!; [done..|]. simpl. intros x v H0 Hv. pose proof (hi_vals _ _ HH x v H0 Hv) as Hgv.
  assert (Ha : alloc s x) by (unfold alloc; rewrite <- (mi_vals _ HM); by eapply lookup_lt_Some).
  destruct (Hg x Ha) as [_ Hval]. unfold val in *. by rewrite Hval.
Qed.

Lemma tells_stay p' : near ls s p' → tells m p'.
Proof using HM HH. intros Hn. assert (Hm : m = mkMap s (vals m)) by by destruct m. rewrite Hm. apply tells_kept; [apply grows_refl|done]. Qed.

Lemma given_here fr : pc_op (mthreads c t) = Some (of_op fr) → ∀ v, given (of_op fr) = Some v → given_by ls (rank (mkey (of_op fr))) v.
Proof using HH. intros Ho v Hv. by eapply (hi_given _ _ HH). Qed.

(** A step of the set. *)
Lemma shared_tells fr p s' p' : mthreads c t = MRun fr p → thread_step t s p = Go s' p' →
  ∀ n, unlinked p' = Some n → keyed s' fr n.
Proof using HM HH.
  intros Ht Hgo n Hn. eapply keyed_grows; [by eapply thread_grows|]. destruct (unlinked_from _ _ _ _ _ _ Hgo Hn) as [(k & top & P & Q & hi & ->)|Hu].
  - pose proof (mi_extra _ HM t) as He. rewrite Ht in He. destruct He as [_ ->].
    assert (Hp : proj (mthreads c t) = UnlockNode (frame_key fr) n top P Q hi) by by rewrite Ht.
    destruct (thread_facts c t HM _ Hp) as (g & _ & (Ha & H0 & Hv & _) & _). done.
  - pose proof (hi_near _ _ HH t) as Hne. rewrite Ht in Hne. by apply Hne.
Qed.

Lemma tells_shared fr p s' p' : mthreads c t = MRun fr p → thread_step t s p = Go s' p' → tells (mkMap s' (vals m)) (resume fr p').
Proof using HM HH.
  intros Ht Hgo. apply tells_kept; [by eapply thread_grows|]. apply near_resume; [|by eapply shared_tells].
  apply given_here. by rewrite Ht.
Qed.

Lemma run_tells fr p m' p' : mthreads c t = MRun fr p → run_step t m fr p = MGo m' p' → tells m' p'.
Proof using HM HH.
  intros Ht Hgo. assert (Hdef : shared_step t m (resume fr) p = MGo m' p' → tells m' p').
  { intros (s1 & p1 & Hst & -> & ->)%shared_go. by eapply tells_shared. }
  pose proof (mi_extra _ HM t) as He. rewrite Ht in He.
  destruct p; try (by apply Hdef); simpl in He; cbn [run_step] in Hgo.
  - destruct He as [_ ->]. assert (Hp : proj (mthreads c t) = HasFlags (frame_key fr) n) by by rewrite Ht.
    destruct (thread_facts c t HM _ Hp) as (g & _ & (Ha & H0 & Hv & _) & _). apply mgoes_go in Hgo. rewrite lookup_node in Hgo by done.
    cbn [mbind option_bind] in Hgo. injection Hgo as <- <-. apply tells_stay. destruct (MGet _ _ _); [done|]. by destruct (of_op fr).
  - destruct He as (_ & -> & _). destruct (given (of_op fr)) as [v|] eqn:Hg; injection Hgo as <- <-.
    + pose proof (grows_append s (newInt64Node (frame_key fr) lv) (len s) (highestLevel s)) as Hgr. pose proof (mi_vals _ HM) as Hl.
      split_and!; [done|simpl; unfold link_layer; by destruct (_ <? _)|]. simpl. intros x w H0 Hx.
      destruct (decide (x < length (vals m))) as [Hlt|Hge].
      * rewrite lookup_app_l in Hx by done. pose proof (hi_vals _ _ HH x w H0 Hx) as Hgv. destruct (Hgr x) as [_ Hval]; [unfold alloc; lia|].
        unfold val in *. by rewrite Hval.
      * apply lookup_lt_Some in Hx as Hlt. rewrite length_app in Hlt. simpl in Hlt. assert (x = length (nodes s)) as -> by lia.
        rewrite lookup_app_r, Hl, Nat.sub_diag in Hx by lia. injection Hx as <-. unfold val, node_at. simpl.
        rewrite lookup_app_r, Nat.sub_diag by done. simpl. apply given_here; [by rewrite Ht|done].
    + apply tells_stay. generalize (unlockInt64 (WAdd (frame_key fr) lv) P Q hi None false). by intros [].
  - destruct w as [|k n top]; [by apply Hdef|]. apply shared_go in Hgo as (s1 & p1 & Hst & -> & ->).
    pose proof (hi_near _ _ HH t) as Hne. rewrite Ht in Hne. specialize (Hne n eq_refl).
    pose proof (thread_grows _ _ _ _ _ Hst) as Hgr. pose proof (tells_shared _ _ _ _ Ht Hst) as Hts.
    destruct (of_op fr) eqn:Ho; try done. apply tells_kept; [done|]. simpl. by eapply keyed_grows.
Qed.

Lemma step_tells m' p' : map_step t m (mthreads c t) = MGo m' p' → tells m' p'.
Proof using HM HH.
  intros Hgo. pose proof (mi_extra _ HM t) as He. destruct (mthreads c t) as [|fr|fr P Q|fr cur P Q|fr P Q|fr i x P Q|fr n P Q|fr v n|fr n|fr w P Q k hi|fr w P Q k hi|fr p|fr p|o r] eqn:Ht;
    try done; cbn [map_step] in Hgo; try apply mgoes_go in Hgo.
  - destruct (negb _); injection Hgo as <- <-; apply tells_stay; by destruct (of_op fr).
  - injection Hgo as <- <-. apply tells_stay. destruct (_ <=? _); [|done]. apply leveled_near.
  - case_decide; injection Hgo as <- <-; [|by apply tells_stay]. apply tells_kept; [by apply grows_kept, kept_nodes|]. apply leveled_near.
  - injection Hgo as <- <-. apply tells_stay. destruct (highestLevel s); [apply after_near|done].
  - destruct (findNode s (frame_key fr) i x P Q) as [r|]; [|done]. injection Hgo as <- <-. apply tells_stay. destruct r; [done..|apply after_near].
  - destruct He as (_ & _ & Ha). assert (Hp : proj (mthreads c t) = AddFound (frame_key fr) (aim fr) n P Q) by by rewrite Ht.
    destruct (thread_facts c t HM _ Hp) as (g & _ & _ & (_ & H0 & Hv & _)). rewrite lookup_node in Hgo by done. injection Hgo as <- <-.
    apply tells_stay. destruct (Get _ _); [done|]. unfold present. by destruct (of_op fr).
  - destruct He as [Ho Ha]. pose proof (hi_near _ _ HH t) as Hne. rewrite Ht in Hne. destruct Hne as (_ & H0 & Hv).
    unfold storeVal in Hgo. destruct (Nat.ltb_spec n (length (vals m))) as [Hlt|]; [|done]. injection Hgo as <- <-.
    split_and!; [apply grows_refl|done|]. simpl. intros x w Hx0 Hx. destruct (decide (x = n)) as [->|Hne].
    + rewrite list_lookup_insert_eq in Hx by done. injection Hx as <-. rewrite Hv. apply given_here; [by rewrite Ht|by rewrite Ho].
    + rewrite list_lookup_insert_ne in Hx by done. by apply (hi_vals _ _ HH).
  - unfold loadVal in Hgo. pose proof (hi_near _ _ HH t) as Hne. rewrite Ht in Hne. destruct Hne as (_ & H0 & Hv).
    destruct (vals m !! n) as [v|] eqn:Hvn; [|done]. injection Hgo as <- <-. apply tells_stay. simpl.
    pose proof (hi_vals _ _ HH n v H0 Hvn) as Hgv. by rewrite Hv in Hgv.
  - destruct (read P k); [|done]. cbn [mbind option_bind] in Hgo. destruct (atomicLoadNext _ _ _); [|done]. injection Hgo as <- <-.
    apply tells_stay. case_decide; [destruct (Q k); [done|apply next_layer_near]|]. apply near_resume; [apply given_here; by rewrite Ht|].
    intros z. by rewrite unlock_failed.
  - destruct (read Q k); [|done]. cbn [mbind option_bind] in Hgo. destruct (nodes _ !! _); [|done]. injection Hgo as <- <-.
    apply tells_stay. destruct (Get _ _); [|apply next_layer_near]. apply near_resume; [apply given_here; by rewrite Ht|].
    intros z. by rewrite unlock_failed.
  - by eapply run_tells.
  - apply shared_go in Hgo as (s1 & p1 & Hst & -> & ->). apply tells_kept; [by eapply thread_grows|]. by destruct p1.
Qed.

Lemma HInv_inner m' p' : map_step t m (mthreads c t) = MGo m' p' → HInv ls (mkMConfig m' (<[t := p']> (mthreads c))).
Proof using HM HH.
  intros Hgo. destruct (step_tells m' p' Hgo) as (Hg & Hn & Hv). split; simpl; [done|..].
  - intros u o v Ho Hgv. apply (hi_given _ _ HH u o v); [|done]. destruct (decide (u = t)) as [->|Hne].
    + rewrite fn_lookup_insert, (step_op _ _ _ _ _ Hgo) in Ho. done.
    + by rewrite fn_lookup_insert_ne in Ho.
  - intros u. destruct (decide (u = t)) as [->|Hne]; [by rewrite fn_lookup_insert|]. rewrite fn_lookup_insert_ne by done.
    eapply near_grows; [exact Hg|apply HH].
Qed.
End step.

Lemma start_op o k : pc_op (mstart o k) = Some o ∧ ∀ ls s, near ls s (mstart o k).
Proof. by destruct o. Qed.

Lemma HInv_mono ls ls' c : ls ⊆ ls' → HInv ls c → HInv ls' c.
Proof.
  intros Hsub [H1 H2 H3]. split.
  - intros x v H0 Hv. eapply given_by_mono; [done|by apply H1].
  - intros t o v Ho Hg. eapply given_by_mono; [done|by eapply H2].
  - intros t. eapply near_mono; [done|apply H3].
Qed.

Lemma HInv_step ls c lb c' : MInv c → HInv ls c → mstep c lb c' → HInv (ls ++ match lb with Some l => [l] | None => [] end) c'.
Proof.
  intros HM HH Hst. assert (HH' : HInv (ls ++ match lb with Some l => [l] | None => [] end) c) by (eapply HInv_mono; [|done]; set_solver).
  destruct Hst as [c t o k Ht|c t m p Hgo|c t Hp|c t o r Ht].
  - destruct (start_op o k) as [Hop Hne]. split; simpl; [apply HH'|..].
    + intros u o' v Ho Hg. destruct (decide (u = t)) as [->|Hu].
      * rewrite fn_lookup_insert, Hop in Ho. injection Ho as <-. exists t, o. split; [set_solver|done].
      * rewrite fn_lookup_insert_ne in Ho by done. by eapply (hi_given _ _ HH').
    + intros u. destruct (decide (u = t)) as [->|Hu]; [rewrite fn_lookup_insert; apply Hne|]. rewrite fn_lookup_insert_ne by done. apply HH'.
  - rewrite app_nil_r. by apply HInv_inner.
  - done.
  - split; simpl; [apply HH'|..].
    + intros u o' v Ho Hg. destruct (decide (u = t)) as [->|Hu]; [by rewrite fn_lookup_insert in Ho|].
      rewrite fn_lookup_insert_ne in Ho by done. by eapply (hi_given _ _ HH').
    + intros u. destruct (decide (u = t)) as [->|Hu]; [by rewrite fn_lookup_insert|]. rewrite fn_lookup_insert_ne by done. apply HH'.
Qed.

Lemma HInv_exec ls0 c ls c' : MInv c → HInv ls0 c → exec mstep c ls c' → HInv (ls0 ++ ls) c'.
Proof.
  intros HM HH Hex. revert ls0 HM HH. induction Hex as [c|c c1 ls c' Hst Hex IH|c l c1 ls c' Hst Hex IH]; intros ls0 HM HH.
  - by rewrite app_nil_r.
  - apply IH; [by eapply MInv_step|]. pose proof (HInv_step _ _ _ _ HM HH Hst) as H. by rewrite app_nil_r in H.
  - replace (ls0 ++ l :: ls) with ((ls0 ++ [l]) ++ ls) by by rewrite <- app_assoc. apply IH; [by eapply MInv_step|].
    exact (HInv_step _ _ _ _ HM HH Hst).
Qed.

Lemma HInv_initial (e : V) : HInv [] (minitial e).
Proof. split; try done. intros [|x] v H0 Hv; done. Qed.
End map.
