(* ===== verification/SkipMapProps.v ===== *)
(** * The concurrent map: the properties

    No panic and no deadlock in any map type, operations one after the other,
    and where values come from. *)

From stdpp Require Import functions sorting.
From Stdlib Require SpecFloat.
From S2P Require Import Prelude Atomic SkipSet SkipSetInv SkipSetHeap SkipSetMoves SkipSetSteps SkipSetLin SkipSetThms SkipSetKeys SkipSetProps SkipMap SkipMapInv SkipMapSolo SkipMapAlone SkipMapSeq SkipMapKeys SkipMapHist.

Section map.
Context {K C V : Type} `{CC : Countable C} {HK : SkipKey K C}.
#[local] Abbreviation int64Node := (@int64Node K).
#[local] Abbreviation Int64Set := (@Int64Set K).
#[local] Abbreviation pc := (@pc K).
#[local] Abbreviation work := (@work K).
#[local] Abbreviation frame := (@frame K V).
#[local] Abbreviation mpc := (@mpc K V).
#[local] Abbreviation mop := (@mop K V).
#[local] Abbreviation mresult := (@mresult V).
#[local] Abbreviation Int64Map := (@Int64Map K V).
#[local] Abbreviation mconfig := (@mconfig K V).
#[local] Abbreviation moutcome := (@moutcome K V).
Implicit Types (s : Int64Set) (m : Int64Map) (c : mconfig) (fr : frame).



(** ** The maps of all types *)

Lemma steps_at these t m p (o : mop) : pc_op p = Some o → these o = true → steps_of these t m p = map_step t m p.
Proof. intros Ho Ht. unfold steps_of. by rewrite Ho, Ht. Qed.

Lemma perform_at t m p : perform_map (gomap_at HK V) t m p = map_step t m p.
Proof.
  unfold perform_map. destruct (pc_op p) as [o|] eqn:Ho; [|by destruct p].
  destruct o; exact (steps_at _ t m p _ Ho eq_refl).
Qed.

Lemma minterleaves_exec ls c c' : exec (minterleaves (gomap_at HK V)) c ls c' ↔ exec mstep c ls c'.
Proof.
  assert (Hone : ∀ c lb c', minterleaves (gomap_at HK V) c lb c' ↔ mstep c lb c').
  { intros c1 lb c2. split; intros Hst; destruct Hst as [c3 t o k Ht|c3 t m p Hgo|c3 t Hp|c3 t o r Ht].
    - replace (enter _ _ _) with (mstart o k) by by destruct o. by apply mstep_call.
    - apply mstep_inner. by rewrite <- perform_at.
    - apply mstep_panic. by rewrite <- perform_at.
    - by eapply mstep_return.
    - replace (mstart o k) with (enter (gomap_at HK V) o k) by by destruct o. by apply minterleaves_call.
    - apply minterleaves_inner. by rewrite perform_at.
    - apply minterleaves_panic. by rewrite perform_at.
    - by eapply minterleaves_return. }
  split; (induction 1; [constructor|eapply exec_inner; [by apply Hone|done]|eapply exec_label; [by apply Hone|done]]).
Qed.
End map.

(** The goroutine [u] holds a lock. *)
Definition locks_node {K} (s : @Int64Set K) (u : nat) : Prop := ∃ x n, nodes s !! x = Some n ∧ mu n = Some u.

Definition safe_map {V} (S : gomap V) : Prop :=
  ∀ e ls c, exec (minterleaves S) (mstarted S e) ls c →
    (∀ t, perform_map S t (mshared c) (mthreads c t) ≠ MPanics) ∧
    (∀ t, perform_map S t (mshared c) (mthreads c t) = MBlocked → mthreads c t ≠ MIdle → (∀ o r, mthreads c t ≠ MReturned o r) →
       ∃ u m p, locks_node (nodes_part (mshared c)) u ∧ perform_map S u (mshared c) (mthreads c u) = MGo m p) ∧
    ∀ A (f : A → of_keys V S → V → A * bool) acc, is_Some (miterate _ _ (of_others V S) A (mshared c) f acc).

Lemma map_core {K C} `{Countable C} {HK : SkipKey K C} {V} (e : V) ls (c : @mconfig K V) : exec mstep (minitial e) ls c →
  (∀ t, map_step t (mshared c) (mthreads c t) ≠ MPanics) ∧
  (∀ t, map_step t (mshared c) (mthreads c t) = MBlocked → mthreads c t ≠ MIdle → (∀ o r, mthreads c t ≠ MReturned o r) →
     ∃ u m p, locks_node (nodes_part (mshared c)) u ∧ map_step u (mshared c) (mthreads c u) = MGo m p) ∧
  ∀ A (f : A → K → V → A * bool) acc, is_Some (MRange (mshared c) f acc).
Proof.
  intros Hex. assert (HM : MInv c) by (apply (mreachable_MInv e); by exists ls). split_and!.
  - intros t Hp. pose proof (map_step_well c t HM) as Hw. by rewrite Hp in Hw.
  - intros t Hb H0 Hr. destruct (map_waits c t HM Hb H0 Hr) as (u & x & m & p & Hx & Hu).
    exists u, m, p. split; [|done]. unfold own, node_at in Hx.
    destruct (nodes (nodes_part (mshared c)) !! x) as [n|] eqn:Hn; [by exists x, n|done].
  - intros A f acc. destruct (mi_set _ HM) as [g HI]. eexists. apply (MRange_ok _ _ (inv_shared _ _ HI)). apply HM.
Qed.

Lemma map_safe_at {K C} `{Countable C} (HK : SkipKey K C) V : safe_map (gomap_at HK V).
Proof.
  intros e ls c Hex%minterleaves_exec. destruct (map_core e ls c Hex) as (H1 & H2 & H3). split_and!; [| |exact H3].
  - intros t. rewrite perform_at. exact (H1 t).
  - intros t. rewrite perform_at. intros Hb H0 Hr. destruct (H2 t Hb H0 Hr) as (u & m & p & Hl & Hu).
    exists u, m, p. rewrite perform_at. by split.
Qed.

Lemma all_maps_safe big V : Forall safe_map (maps_go big V).
Proof.
  repeat (apply list.Forall_cons; split;
    [first [exact (map_safe_at ascending V)|exact (map_safe_at descending V)|exact (map_safe_at floats V)
           |exact (map_safe_at floats_desc V)|exact (map_safe_at (hashed big) V)]|]). constructor.
Qed.

(** ** The properties *)

(** C7: the maps of all types are safe.  In every interleaving of the methods of
    each of the maps of the package, also when the function given to
    [LoadOrStoreLazy] panics, no goroutine follows a nil pointer, indexes out of
    range or releases a lock that is not held; a goroutine that waits for a lock
    does so while another that holds a lock can make a step, so the locks never
    deadlock; and [Range] by a goroutine that runs alone comes to an end. *)
Theorem skipmap_types_safe (V : Type) (big : bool) (S : gomap V) (e : V) (ls : list (label mop mresult)) (c : mconfig) :
  S ∈ maps_go big V → exec (minterleaves S) (mstarted S e) ls c →
  (∀ t, perform_map S t (mshared c) (mthreads c t) ≠ MPanics) ∧
  (∀ t, perform_map S t (mshared c) (mthreads c t) = MBlocked → mthreads c t ≠ MIdle → (∀ o r, mthreads c t ≠ MReturned o r) →
     ∃ u m p, locks_node (nodes_part (mshared c)) u ∧ perform_map S u (mshared c) (mthreads c u) = MGo m p) ∧
  ∀ A (f : A → of_keys V S → V → A * bool) acc, is_Some (miterate _ _ (of_others V S) A (mshared c) f acc).
Proof. intros HS. pose proof (all_maps_safe big V) as Hall. rewrite list.Forall_forall in Hall. by apply Hall. Qed.

Section map.
Context {K C V : Type} `{CC : Countable C} {HK : SkipKey K C}.

(** C6: operations one after the other.  From every state that goroutines can
    reach and in which no operation is in progress, a goroutine that runs alone
    brings any sequence of operations to an end, with any levels of the new
    nodes, and no operation waits; the results are those of a map from keys to
    values, whose bindings at the end [Range] visits in the order of the keys,
    each once, until the callback stops it, and [Len] counts modulo 2^64; a
    panic of the function of [LoadOrStoreLazy] leaves the map as it was. *)
Theorem skipmap_sequential (e : V) (c : @mconfig K V) (t : nat) (os : list (@mop K V * nat)) :
  mreachable e c → (∀ u, mthreads c u = MIdle) →
  ∃ fuel m', run_all fuel t (mshared c) os = Some (m', (apply_all os (mcontents (mshared c))).2) ∧
    mcontents m' = (apply_all os (mcontents (mshared c))).1 ∧ wraps 64 (MLen m') = wraps 64 (Z.of_nat (size (mcontents m'))) ∧
    ∃ l, (∀ A (f : A → K → V → A * bool) acc, MRange m' f acc = Some (mvisit f acc l)) ∧ StronglySorted clt (rank <$> l.*1) ∧
      (∀ k v, (k, v) ∈ l → mcontents m' !! rank k = Some v) ∧ length l = size (mcontents m').
Proof.
  intros HM%mreachable_MInv Hidle. assert (HM' : MInv (at_rest (mshared c))) by (eapply MInv_ext; [| |exact HM]; [done|]; intros u; by rewrite Hidle).
  destruct (all_run t os (mshared c) HM') as (fuel & m' & Hr & Hc & HMr). exists fuel, m'. destruct (mi_set _ HMr) as [g HI].
  pose proof (inv_shared _ _ HI) as Hs. pose proof (mi_vals _ HMr) as Hv. split_and!; [done..|by eapply rest_len|]. exists (omap (binding m') (chain g 0)). split_and!.
  - intros A f acc. by apply MRange_ok.
  - by apply bindings_sorted.
  - intros k v. by apply bindings_contents.
  - by apply bindings_size.
Qed.

(** C38: values come from calls with the same key.  In every interleaving a value
    that an operation returns, and every value bound in the map, has been given
    with an equal key by an earlier call of [Store], [LoadOrStore] or
    [LoadOrStoreLazy]. *)
Theorem skipmap_values (e : V) (ls : list (label mop mresult)) (c : @mconfig K V) :
  exec mstep (minitial e) ls c →
  (∀ t o v ok, mthreads c t = MReturned o (RValue (Some v) ok) → given_by ls (rank (mkey o)) v) ∧
  ∀ r v, mcontents (mshared c) !! r = Some v → given_by ls r v.
Proof.
  intros Hex. pose proof (HInv_exec [] _ _ _ (MInv_initial e) (HInv_initial e) Hex) as HH. split.
  - intros t o v ok Ht. pose proof (hi_near _ _ HH t) as Hn. by rewrite Ht in Hn.
  - intros r v Hr. assert (HM : MInv c) by (apply (mreachable_MInv e); by exists ls). destruct (mi_set _ HM) as [g HI].
    apply (contents_holds _ _ (inv_shared _ _ HI)) in Hr as (x & (_ & H0 & _) & <- & Hx). by apply (hi_vals _ _ HH).
Qed.

(** ** Schedules *)

(** Which goroutine calls, steps or returns next. *)
Inductive mevent := MCall (t : nat) (o : @mop K V) (k : nat) | MSteps (t n : nat) | MReturn (t : nat).

Fixpoint msteps (n t : nat) (c : @mconfig K V) : option (@mconfig K V) :=
  match n with
  | O => Some c
  | S n =>
      match map_step t (mshared c) (mthreads c t) with
      | MGo m p => msteps n t (mkMConfig m (<[t := p]> (mthreads c)))
      | _ => None
      end
  end.

Definition mhappen (e : mevent) (c : @mconfig K V) : option (@mconfig K V * list (label mop mresult)) :=
  match e with
  | MCall t o k =>
      match mthreads c t with MIdle => Some (mkMConfig (mshared c) (<[t := mstart o k]> (mthreads c)), [Call t o]) | _ => None end
  | MSteps t n => c ← msteps n t c; Some (c, [])
  | MReturn t =>
      match mthreads c t with
      | MReturned _ r => Some (mkMConfig (mshared c) (<[t := MIdle]> (mthreads c)), [Return t r])
      | _ => None
      end
  end.

Fixpoint mrun (es : list mevent) (c : @mconfig K V) : option (@mconfig K V * list (label mop mresult)) :=
  match es with
  | [] => Some (c, [])
  | e :: es => '(c, l) ← mhappen e c; '(c, ls) ← mrun es c; Some (c, l ++ ls)
  end.

Lemma msteps_exec n t c c' : msteps n t c = Some c' → exec mstep c [] c'.
Proof.
  revert c. induction n as [|n IH]; simpl; intros c Hc; [injection Hc as ->; constructor|].
  destruct (map_step t (mshared c) (mthreads c t)) as [m p| |] eqn:Hst; try done.
  eapply exec_inner; [by apply mstep_inner|]. by apply IH.
Qed.

Lemma mhappen_exec e c c' ls : mhappen e c = Some (c', ls) → exec mstep c ls c'.
Proof.
  destruct e as [t o k|t n|t]; simpl; intros Hc.
  - destruct (mthreads c t) eqn:Ht; try done. injection Hc as <- <-. eapply exec_label; [by apply mstep_call|constructor].
  - destruct (msteps n t c) as [c1|] eqn:Hs; [|done]. injection Hc as <- <-. by eapply msteps_exec.
  - destruct (mthreads c t) eqn:Ht; try done. injection Hc as <- <-. eapply exec_label; [by eapply mstep_return|constructor].
Qed.

Lemma mrun_exec es c c' ls : mrun es c = Some (c', ls) → exec mstep c ls c'.
Proof.
  revert c ls. induction es as [|e es IH]; simpl; intros c ls Hc; [injection Hc as <- <-; constructor|].
  destruct (mhappen e c) as [[c1 l1]|] eqn:He; [|done]. simpl in Hc. destruct (mrun es c1) as [[c2 l2]|] eqn:Hr; [|done].
  injection Hc as <- <-. eapply exec_app; [by eapply mhappen_exec|by apply IH].
Qed.
End map.

(** ** Witnesses *)

Section sample.
#[local] Existing Instance ascending.

Definition sample_ops : list (@mop Z Z * nat) :=
  [(Store 5%Z 50%Z, 0); (LoadOrStore 3%Z 30%Z, 2); (Store 5%Z 51%Z, 0); (Load 5%Z, 0); (LoadOrStoreLazy 9%Z None, 5);
   (LoadOrStoreLazy 9%Z (Some 90%Z), 4); (LoadAndDelete 5%Z, 0); (Load 5%Z, 0); (Delete 5%Z, 0); (Delete 3%Z, 0);
   (LoadOrStore 9%Z 91%Z, 0)].

Lemma skipmap_sequential_witness :
  (apply_all sample_ops (∅ : gmap Z Z)).2 =
    [RDone; RValue (Some 30%Z) false; RDone; RValue (Some 51%Z) true; RPanic; RValue (Some 90%Z) false;
     RValue (Some 51%Z) true; RValue None false; RBool false; RBool true; RValue (Some 90%Z) true] ∧
  ∃ fuel m', run_all fuel 1 (NewInt64Map 0%Z) sample_ops = Some (m', (apply_all sample_ops (mcontents (NewInt64Map 0%Z))).2) ∧
    mcontents m' = (apply_all sample_ops (mcontents (NewInt64Map 0%Z))).1.
Proof.
  split; [vm_compute; reflexivity|].
  destruct (skipmap_sequential 0%Z (minitial 0%Z) 1 sample_ops) as (fuel & m' & Hr & Hc & _).
  - exists []. constructor.
  - done.
  - by exists fuel, m'.
Defined.

(** A value is stored twice; the second time the goroutine has found the node
    when another deletes it with the value it had. *)
Definition lost_schedule : list (@mevent Z Z) :=
  [MCall 1 (Store 5%Z 1%Z) 0; MSteps 1 15; MReturn 1; MCall 1 (Store 5%Z 2%Z) 0; MSteps 1 7;
   MCall 2 (LoadAndDelete 5%Z) 0; MSteps 2 17; MReturn 2; MSteps 1 1; MReturn 1; MCall 2 (Load 5%Z) 0; MSteps 2 4].
Definition lost_sample : @mconfig Z Z := match mrun lost_schedule (minitial 0%Z) with Some (c, _) => c | None => minitial 0%Z end.
Definition lost_labels : list (label mop mresult) := match mrun lost_schedule (minitial 0%Z) with Some (_, ls) => ls | None => [] end.

Lemma lost_run : mrun lost_schedule (minitial 0%Z) = Some (lost_sample, lost_labels).
Proof. unfold lost_sample, lost_labels. by destruct (mrun lost_schedule (minitial 0%Z)) as [[c ls]|] eqn:Hr; [|vm_compute in Hr]. Qed.

(** The map is not linearizable: the second value is lost although no deletion
    has returned it and the store returns last. *)
Lemma lost_store : mthreads lost_sample 2 = MReturned (Load 5%Z) (RValue None false) ∧
  lost_labels = [Call 1 (Store 5 1); Return 1 RDone; Call 1 (Store 5 2); Call 2 (LoadAndDelete 5); Return 2 (RValue (Some 1) true);
    Return 1 RDone; Call 2 (Load 5)]%Z.
Proof. split; vm_compute; reflexivity. Qed.

(** Goroutine 1 has stored a value, goroutine 3 begins to store another, and
    goroutine 2 is about to return the first. *)
Definition found_schedule : list (@mevent Z Z) :=
  [MCall 1 (Store 5%Z 1%Z) 0; MSteps 1 15; MReturn 1; MCall 3 (Store 4%Z 7%Z) 1; MSteps 3 3;
   MCall 2 (LoadAndDelete 5%Z) 0; MSteps 2 17].
Definition found_sample : @mconfig Z Z := match mrun found_schedule (minitial 0%Z) with Some (c, _) => c | None => minitial 0%Z end.
Definition found_labels : list (label mop mresult) := match mrun found_schedule (minitial 0%Z) with Some (_, ls) => ls | None => [] end.

Lemma found_run : mrun found_schedule (minitial 0%Z) = Some (found_sample, found_labels).
Proof. unfold found_sample, found_labels. by destruct (mrun found_schedule (minitial 0%Z)) as [[c ls]|] eqn:Hr; [|vm_compute in Hr]. Qed.

Lemma skipmap_values_witness :
  mthreads found_sample 2 = MReturned (LoadAndDelete 5%Z) (RValue (Some 1%Z) true) ∧ given_by found_labels 5%Z 1%Z.
Proof.
  assert (Ht : mthreads found_sample 2 = MReturned (LoadAndDelete 5%Z) (RValue (Some 1%Z) true)) by (vm_compute; reflexivity).
  split; [exact Ht|]. destruct (skipmap_values 0%Z found_labels found_sample (mrun_exec _ _ _ _ found_run)) as [Hv _].
  exact (Hv 2 (LoadAndDelete 5%Z) 1%Z true Ht).
Defined.
End sample.

Section float_maps.
#[local] Existing Instance floats_desc.
Local Abbreviation inf := (SpecFloat.S754_infinity false).
Local Abbreviation zer := (SpecFloat.S754_zero false).

(** Goroutine 1 stores under NaN in vain and under 0; the function of goroutine 2
    has panicked, and it still has the lock that goroutine 3 waits for to
    delete 0. *)
Definition waiting_schedule : list (@mevent float32 Z) :=
  [MCall 1 (Store SpecFloat.S754_nan 1%Z) 0; MSteps 1 1; MReturn 1; MCall 1 (Store (SpecFloat.S754_zero true) 7%Z) 0; MSteps 1 15; MReturn 1;
   MCall 2 (LoadOrStoreLazy inf None) 1; MSteps 2 13; MCall 3 (Delete zer) 0; MSteps 3 8].
Definition waiting_sample : @mconfig float32 Z := match mrun waiting_schedule (minitial 0%Z) with Some (c, _) => c | None => minitial 0%Z end.
Definition waiting_labels : list (label mop mresult) := match mrun waiting_schedule (minitial 0%Z) with Some (_, ls) => ls | None => [] end.

Lemma waiting_run : mrun waiting_schedule (minitial 0%Z) = Some (waiting_sample, waiting_labels).
Proof. unfold waiting_sample, waiting_labels. by destruct (mrun waiting_schedule (minitial 0%Z)) as [[c ls]|] eqn:Hr; [|vm_compute in Hr]. Qed.

Definition Float32MapDesc (V : Type) : gomap V :=
  mkGomap V float32 (Float32MapDesc_nodes V) (Float32MapDesc_stores V) (Float32MapDesc_loads V) (Float32MapDesc_others V).

Lemma waiting_reached big : exec (minterleaves (Float32MapDesc Z)) (mstarted (Float32MapDesc Z) 0%Z) waiting_labels waiting_sample ∧
  Float32MapDesc Z ∈ maps_go big Z.
Proof. split; [|by (do 4 right; left)]. apply (minterleaves_exec (HK := floats_desc)). exact (mrun_exec _ _ _ _ waiting_run). Qed.

Lemma skipmap_types_safe_witness :
  waiting_labels = [Call 1 (Store SpecFloat.S754_nan 1%Z); Return 1 RDone; Call 1 (Store (SpecFloat.S754_zero true) 7%Z); Return 1 RDone;
    Call 2 (LoadOrStoreLazy inf None); Call 3 (Delete zer)] ∧
  perform_map (Float32MapDesc Z) 3 (mshared waiting_sample) (mthreads waiting_sample 3) = MBlocked ∧
  ∃ u m p, locks_node (nodes_part (mshared waiting_sample)) u ∧
    perform_map (Float32MapDesc Z) u (mshared waiting_sample) (mthreads waiting_sample u) = MGo m p.
Proof.
  destruct (waiting_reached false) as [Hex Hin].
  destruct (skipmap_types_safe Z false (Float32MapDesc Z) 0%Z waiting_labels waiting_sample Hin Hex) as (_ & Hw & _).
  assert (Hb : perform_map (Float32MapDesc Z) 3 (mshared waiting_sample) (mthreads waiting_sample 3) = MBlocked) by (vm_compute; reflexivity).
  split; [vm_compute; reflexivity|]. split; [exact Hb|]. apply (Hw 3 Hb).
  - intros H. apply (f_equal (λ p, match p with MIdle => true | _ => false end)) in H. vm_compute in H. discriminate H.
  - intros o r H. apply (f_equal (λ p, match p with MReturned _ _ => true | _ => false end)) in H. vm_compute in H. discriminate H.
Defined.
End float_maps.
