(* ===== verification/Snowflake.v ===== *)
(** * Snowflake identifiers

    Model of generator/snowflake.go.  The mutex makes [NextID] one function of
    the state; the readings of the clock, in nanoseconds since 1970, are
    arguments.  Identifiers hold 39 bits of elapsed time, 8 bits of sequence
    and 16 bits of node. *)

From S2P Require Import Prelude.
From Stdlib Require Import Sorting.Sorted.

#[local] Open Scope Z_scope.

Definition TimeBit : Z := 39.
Definition NodeBit : Z := 16.
Definition SequenceBit : Z := 8.

Inductive snow_error := OverTimeLimit | ErrStartTimeInFuture | ErrInvalidIPv4 | NoPrivateIP.

Record Snowflake := mkSnow { startTime : Z; elapsedTime : Z; sequence : Z; s_node : Z }.

Definition timeUnit : Z := 10000000.
Definition toSnowflakeTime (t : Z) : Z := Z.quot t timeUnit.
Definition currentElapsedTime (startTime now : Z) : Z := int_sub (toSnowflakeTime now) startTime.

(** The pause, in nanoseconds, with the clock read again. *)
Definition sleepTime (overtime now : Z) : Z :=
  int_sub (wraps 64 (wraps 64 (overtime * 10) * 1000000)) (Z.rem now timeUnit).

Definition toID (s : Snowflake) : snow_error + Z :=
  if Z.shiftl 1 TimeBit <=? elapsedTime s then inl OverTimeLimit
  else
    inr (Z.lor (wrapu 64 (Z.shiftl (wrapu 64 (elapsedTime s)) (SequenceBit + NodeBit)))
           (Z.lor (wrapu 64 (Z.shiftl (sequence s) NodeBit)) (s_node s))).

(** The new state, the pause, and the answer. *)
Definition NextID (now now' : Z) (s : Snowflake) : Snowflake * option Z * (snow_error + Z) :=
  let maskSequence := Z.shiftl 1 SequenceBit - 1 in
  let current := currentElapsedTime (startTime s) now in
  let '(s, pause) :=
    if elapsedTime s <? current then (mkSnow (startTime s) current 0 (s_node s), None)
    else
      let seq := Z.land (wrapu 16 (sequence s + 1)) maskSequence in
      if seq =? 0 then
        let elapsed := int_add (elapsedTime s) 1 in
        (mkSnow (startTime s) elapsed seq (s_node s), Some (sleepTime (int_sub elapsed current) now'))
      else (mkSnow (startTime s) (elapsedTime s) seq (s_node s), None) in
  (s, pause, toID s).

Record parts := mkParts { p_id : Z; p_msb : Z; p_time : Z; p_sequence : Z; p_node : Z }.
Definition Decompose (id : Z) : parts :=
  let maskSequence := Z.shiftl (Z.shiftl 1 SequenceBit - 1) NodeBit in
  let maskMachineID := Z.shiftl 1 NodeBit - 1 in
  mkParts id (Z.shiftr id 63) (Z.shiftr id (SequenceBit + NodeBit))
    (Z.shiftr (Z.land id maskSequence) NodeBit) (Z.land id maskMachineID).

(** The start of 2014-09-01 in UTC, used for the zero time. *)
Definition defaultStart : Z := 1409529600000000000.

(** [None] is the zero time, which is before every reading of the clock. *)
Definition NewSnowflakeE (start : option Z) (now nodeID : Z) : snow_error + Snowflake :=
  if match start with Some t => now <? t | None => false end then inl ErrStartTimeInFuture
  else
    let st := match start with None => toSnowflakeTime defaultStart | Some t => toSnowflakeTime t end in
    inr (mkSnow st 0 (Z.shiftl 1 SequenceBit - 1) nodeID).
Definition NewSnowflake (start : option Z) (now nodeID : Z) : option Snowflake :=
  match NewSnowflakeE start now nodeID with inl _ => None | inr s => Some s end.

(** ** Nodes from addresses

    An address is its 4 bytes, when it has an IPv4 form. *)

Definition isPrivateIPv4 (ip : option (Z * Z * Z * Z)) : bool :=
  match ip with
  | None => false
  | Some (a, b, _, _) => (a =? 10) || ((a =? 172) && ((16 <=? b) && (b <? 32))) || ((a =? 192) && (b =? 168))
  end.
Definition IpToUint16 (ip : option (Z * Z * Z * Z)) : snow_error + Z :=
  match ip with
  | None => inl ErrInvalidIPv4
  | Some (_, _, c, d) => inr (wrapu 16 (wrapu 16 (Z.shiftl c 8) + d))
  end.

(** The addresses of the interfaces, with whether they are loopback or no IP network. *)
Fixpoint localIPv4 (as_ : list (bool * option (Z * Z * Z * Z))) : snow_error + (Z * Z * Z * Z) :=
  match as_ with
  | [] => inl NoPrivateIP
  | (skip, ip) :: as_ =>
      if skip then localIPv4 as_
      else match ip with
           | Some a => if isPrivateIPv4 (Some a) then inr a else localIPv4 as_
           | None => localIPv4 as_
           end
  end.
Definition LocalIpToUint16 (as_ : list (bool * option (Z * Z * Z * Z))) : snow_error + Z :=
  match localIPv4 as_ with inl e => inl e | inr ip => IpToUint16 (Some ip) end.

(** ** Runs of a generator *)

Fixpoint run (clocks : list (Z * Z)) (s : Snowflake) : list (Snowflake * (snow_error + Z)) :=
  match clocks with
  | [] => []
  | (now, now') :: clocks => let '(s, _, r) := NextID now now' s in (s, r) :: run clocks s
  end.
Definition ids (l : list (Snowflake * (snow_error + Z))) : list Z :=
  omap (λ '(_, r), match r with inl _ => None | inr id => Some id end) l.

(** ** The parts of an identifier *)

Lemma lor_disjoint a b n : 0 <= n → 0 <= b < 2 ^ n → Z.lor (a * 2 ^ n) b = a * 2 ^ n + b.
Proof.
  intros Hn Hb. rewrite <- Z.shiftl_mul_pow2 by done. rewrite <- Z.lxor_lor, <- Z.add_nocarry_lxor; [done| |].
  all: apply Z.bits_inj'; intros i Hi; rewrite Z.land_spec, Z.shiftl_spec, Z.bits_0 by done.
  all: destruct (Z.lt_ge_cases i n); [by rewrite Z.testbit_neg_r by lia|].
  all: rewrite andb_comm; destruct (Z.eq_dec b 0) as [->|]; [by rewrite Z.bits_0|].
  all: rewrite Z.bits_above_log2; [done|lia|]; assert (Z.log2 b < n) by (apply Z.log2_lt_pow2; lia); lia.
Qed.

Definition valid (s : Snowflake) : Prop := 0 <= elapsedTime s ∧ 0 <= sequence s < 256 ∧ 0 <= s_node s < 65536.

Lemma toID_value s id : valid s → toID s = inr id →
  id = elapsedTime s * 2 ^ 24 + sequence s * 2 ^ 16 + s_node s ∧ elapsedTime s < 2 ^ 39.
Proof.
  intros (He & Hq & Hn). unfold toID, TimeBit, SequenceBit, NodeBit. rewrite Z.shiftl_1_l.
  destruct (Z.leb_spec (2 ^ 39) (elapsedTime s)); [done|]. intros [= <-]. split; [|done].
  assert (Hsmall : ∀ x, 0 <= x < 2 ^ 64 → wrapu 64 x = x) by (intros; by apply Z.mod_small).
  rewrite (Hsmall (elapsedTime s)) by lia. rewrite !Z.shiftl_mul_pow2 by lia. change (8 + 16) with 24. rewrite !Hsmall by lia.
  rewrite (lor_disjoint (sequence s)), (lor_disjoint (elapsedTime s)) by lia. lia.
Qed.

(** Taking an identifier apart gives what it was made of. *)
Lemma Decompose_toID s id : valid s → toID s = inr id →
  Decompose id = mkParts id 0 (elapsedTime s) (sequence s) (s_node s) ∧ 0 <= id < 2 ^ 63.
Proof.
  intros Hs Hid. destruct (toID_value s id Hs Hid) as [-> Hlt]. destruct Hs as (He & Hq & Hn).
  split; [|lia]. unfold Decompose, SequenceBit, NodeBit. rewrite !Z.shiftl_1_l. change (8 + 16) with 24.
  set (id := elapsedTime s * 2 ^ 24 + sequence s * 2 ^ 16 + s_node s). f_equal.
  - rewrite Z.shiftr_div_pow2 by lia. apply Z.div_small. unfold id. lia.
  - rewrite Z.shiftr_div_pow2 by lia. unfold id. Z.to_euclidean_division_equations. lia.
  - rewrite Z.shiftr_land, Z.shiftr_shiftl_l by lia. rewrite Z.sub_diag, Z.shiftl_0_r.
    change (2 ^ 8 - 1) with (Z.ones 8). rewrite Z.land_ones, Z.shiftr_div_pow2 by lia.
    unfold id. Z.to_euclidean_division_equations. lia.
  - change (2 ^ 16 - 1) with (Z.ones 16). rewrite Z.land_ones by lia. unfold id. Z.to_euclidean_division_equations. lia.
Qed.

(** ** Identifiers increase *)

(** Elapsed time and sequence as one number. *)
Definition stamp (s : Snowflake) : Z := elapsedTime s * 256 + sequence s.

(** An upper bound of the elapsed time, which keeps int64 from overflowing. *)
Definition bounded (k : Z) (s : Snowflake) : Prop :=
  valid s ∧ elapsedTime s <= 2 ^ 62 + k ∧ -(2 ^ 60) <= startTime s <= 2 ^ 60.

Lemma next_sequence q : 0 <= q < 256 → Z.land (wrapu 16 (q + 1)) (Z.shiftl 1 SequenceBit - 1) = (q + 1) mod 256.
Proof.
  intros Hq. unfold wrapu, SequenceBit. rewrite Z.shiftl_1_l. change (2 ^ 8 - 1) with (Z.ones 8).
  rewrite Z.land_ones by lia. change (2 ^ 8) with 256. rewrite (Z.mod_small _ (2 ^ 16)) by lia. done.
Qed.

Lemma NextID_step now now' s k :
  is_int now → bounded k s → 0 <= k < 2 ^ 60 →
  let '(s', _, r) := NextID now now' s in
  bounded (k + 1) s' ∧ stamp s < stamp s' ∧ r = toID s' ∧ s_node s' = s_node s.
Proof.
  unfold is_int, MinInt64, MaxInt64. intros Hnow ((He & Hq & Hn) & Hle & Hst) Hk. unfold NextID.
  assert (-(2 ^ 62) <= currentElapsedTime (startTime s) now <= 2 ^ 62) as Hcur.
  { unfold currentElapsedTime, int_sub, toSnowflakeTime, timeUnit. rewrite wraps64_id.
    all: unfold is_int, MinInt64, MaxInt64; Z.to_euclidean_division_equations; lia. }
  destruct (Z.ltb_spec (elapsedTime s) (currentElapsedTime (startTime s) now)).
  - unfold bounded, valid, stamp. cbn [startTime elapsedTime sequence s_node]. split_and!; (done || lia).
  - rewrite next_sequence by done. destruct (Z.eqb_spec ((sequence s + 1) mod 256) 0) as [Hz|Hz].
    + assert (int_add (elapsedTime s) 1 = elapsedTime s + 1) as Hadd.
      { unfold int_add. apply wraps64_id. unfold is_int, MinInt64, MaxInt64. lia. }
      unfold bounded, valid, stamp. cbn [startTime elapsedTime sequence s_node]. rewrite Hadd, Hz.
      Z.to_euclidean_division_equations. split_and!; (done || lia).
    + assert ((sequence s + 1) mod 256 = sequence s + 1) as Hs.
      { apply Z.mod_small. destruct (Z.eq_dec (sequence s) 255) as [Heq|]; [by rewrite Heq in Hz|lia]. }
      assert (sequence s + 1 ≠ 256) by (intros Heq; by rewrite Heq in Hs).
      unfold bounded, valid, stamp. cbn [startTime elapsedTime sequence s_node]. rewrite Hs. split_and!; (done || lia).
Qed.

Lemma toID_stamp s id : valid s → toID s = inr id → id = stamp s * 65536 + s_node s.
Proof. intros Hs Hid. destruct (toID_value s id Hs Hid) as [-> _]. unfold stamp. lia. Qed.

Lemma run_spec clocks s k :
  Forall (λ c, is_int c.1) clocks → bounded k s → 0 <= k → k + Z.of_nat (length clocks) < 2 ^ 60 →
  Forall (λ '(s', r), valid s' ∧ r = toID s' ∧ s_node s' = s_node s ∧ stamp s < stamp s') (run clocks s) ∧
  StronglySorted Z.lt (ids (run clocks s)) ∧ Forall (λ id, stamp s * 65536 + s_node s < id) (ids (run clocks s)).
Proof.
  intros Hint. revert s k. induction Hint as [|[now now'] clocks Hnow Hint IH]; intros s k Hb Hk Hlen.
  - split; [constructor|]. split; constructor.
  - cbn [run]. pose proof (NextID_step now now' s k Hnow Hb) as Hn. cbn [length] in Hlen.
    destruct (NextID now now' s) as [[s' pause] r]. destruct Hn as (Hb' & Hlt & -> & Hnode); [lia|].
    destruct (IH s' (k + 1) Hb') as (Hall & Hsort & Hbig); [lia|lia|]. pose proof Hb' as (Hv & _). split.
    + constructor; [by split_and!|]. eapply list.Forall_impl; [exact Hall|]. intros [s2 r] (? & ? & ? & ?).
      split_and!; [done|done|congruence|lia].
    + unfold ids. cbn [omap list_omap]. fold (ids (run clocks s')).
      destruct (toID s') as [e|id] eqn:Hid.
      * split; [done|]. eapply list.Forall_impl; [exact Hbig|]. intros id Hid'. simpl in *. lia.
      * pose proof (toID_stamp s' id Hv Hid) as ->. split; [constructor; [done|]|constructor; [lia|]].
        -- exact Hbig.
        -- eapply list.Forall_impl; [exact Hbig|]. intros id Hid'. simpl in *. lia.
Qed.

Lemma NewSnowflakeE_bounded start now0 node s :
  NewSnowflakeE start now0 node = inr s → 0 <= node < 65536 → is_int (default 0 start) → bounded 0 s ∧ s_node s = node.
Proof.
  unfold NewSnowflakeE, is_int, MinInt64, MaxInt64. case_match; [done|]. intros [= <-] Hn Hst. split; [|done].
  unfold bounded, valid. cbn [startTime elapsedTime sequence s_node].
  change (Z.shiftl 1 SequenceBit - 1) with 255. split_and!; try (done || lia).
  all: destruct start as [t|]; [|by vm_compute]; cbn [default id] in Hst; unfold toSnowflakeTime, timeUnit;
    Z.to_euclidean_division_equations; lia.
Qed.

(** C19: identifiers are unique.  Whatever the clock does between the calls, also
    when it goes back, the identifiers a generator returns are strictly
    increasing, fit in 63 bits and decompose into the elapsed time, the sequence
    and the generator's own node, so that generators with different nodes never
    return the same; a call without identifier reports the time limit. *)
Theorem snowflake_unique (start : option Z) (now0 node : Z) (s : Snowflake) (clocks : list (Z * Z)) :
  NewSnowflakeE start now0 node = inr s → 0 <= node < 65536 → is_int (default 0 start) →
  Forall (λ c, is_int c.1) clocks → Z.of_nat (length clocks) < 2 ^ 60 →
  StronglySorted Z.lt (ids (run clocks s)) ∧
  Forall (λ '(s', r), match r with
    | inr id => Decompose id = mkParts id 0 (elapsedTime s') (sequence s') node ∧ 0 <= id < 2 ^ 63
    | inl e => e = OverTimeLimit ∧ 2 ^ 39 <= elapsedTime s'
    end) (run clocks s).
Proof.
  intros Hnew Hnode Hst Hint Hlen. destruct (NewSnowflakeE_bounded start now0 node s Hnew Hnode Hst) as [Hb Hn].
  destruct (run_spec clocks s 0 Hint Hb) as (Hall & Hsort & _); [lia|lia|]. split; [done|].
  eapply list.Forall_impl; [exact Hall|]. intros [s' r] (Hv & -> & Hn' & _). destruct (toID s') as [e|id] eqn:Hid.
  - unfold toID, TimeBit in Hid. rewrite Z.shiftl_1_l in Hid. destruct (Z.leb_spec (2 ^ 39) (elapsedTime s')); [|done].
    by injection Hid as <-.
  - destruct (Decompose_toID s' id Hv Hid) as [-> Hr]. by rewrite Hn', Hn.
Qed.

Lemma snowflake_unique_witness :
  let clocks := [(1700000000000000000, 0); (1700000000000000001, 0); (1600000000000000000, 0)] in
  ∃ s, NewSnowflakeE (Some 1500000000000000000) 1600000000000000000 7 = inr s ∧
  StronglySorted Z.lt (ids (run clocks s)) ∧ length (ids (run clocks s)) = 3%nat ∧
  Forall (λ '(s', r), match r with
    | inr id => Decompose id = mkParts id 0 (elapsedTime s') (sequence s') 7 ∧ 0 <= id < 2 ^ 63
    | inl e => e = OverTimeLimit ∧ 2 ^ 39 <= elapsedTime s'
    end) (run clocks s).
Proof.
  intros clocks. eexists. split; [reflexivity|].
  match goal with |- StronglySorted _ (ids (run _ ?s)) ∧ _ =>
    destruct (snowflake_unique (Some 1500000000000000000) 1600000000000000000 7 s clocks) as [H1 H2] end.
  - reflexivity.
  - lia.
  - split; discriminate.
  - repeat (constructor; [split; discriminate|]). constructor.
  - reflexivity.
  - split; [exact H1|]. split; [vm_compute; reflexivity|exact H2].
Defined.
