(* ===== verification/Utf8.v ===== *)
(** * UTF-8

    [utf8.DecodeRuneInString] on strings of bytes: the first rune and its
    size, or [RuneError] of size 1 for bytes that are not an encoding.  A string
    is then the list of its runes. *)

From S2P Require Import Prelude GoText.
From Stdlib Require Import Strings.Ascii.

#[local] Open Scope Z_scope.

Definition RuneError : Z := 65533.
Definition byte_at (c : ascii) : Z := Z.of_nat (nat_of_ascii c).

(** The number of bytes that a first byte announces and the range of the second. *)
Definition lead (b : Z) : option (nat * Z * Z) :=
  if (194 <=? b) && (b <=? 223) then Some (2%nat, 128, 191)
  else if b =? 224 then Some (3%nat, 160, 191)
  else if b =? 237 then Some (3%nat, 128, 159)
  else if (225 <=? b) && (b <=? 239) then Some (3%nat, 128, 191)
  else if b =? 240 then Some (4%nat, 144, 191)
  else if (241 <=? b) && (b <=? 243) then Some (4%nat, 128, 191)
  else if b =? 244 then Some (4%nat, 128, 143)
  else None.

Definition continues (c : ascii) : bool := (128 <=? byte_at c) && (byte_at c <=? 191).
Definition low6 (c : ascii) : Z := Z.land (byte_at c) 63.

(** The rune of a string that is not empty, and its size. *)
Definition DecodeRune (s : string) : Z * nat :=
  match s with
  | EmptyString => (RuneError, O)
  | String c0 r =>
      let b := byte_at c0 in
      if b <? 128 then (b, 1%nat)
      else
        match lead b, r with
        | Some (n, lo, hi), String c1 r =>
            if (byte_at c1 <? lo) || (hi <? byte_at c1) then (RuneError, 1%nat)
            else
              match n, r with
              | 2%nat, _ => (Z.lor (Z.shiftl (Z.land b 31) 6) (low6 c1), 2%nat)
              | S (S (S n)), String c2 r =>
                  if negb (continues c2) then (RuneError, 1%nat)
                  else
                    match n, r with
                    | O, _ => (Z.lor (Z.lor (Z.shiftl (Z.land b 15) 12) (Z.shiftl (low6 c1) 6)) (low6 c2), 3%nat)
                    | S _, String c3 _ =>
                        if negb (continues c3) then (RuneError, 1%nat)
                        else (Z.lor (Z.lor (Z.lor (Z.shiftl (Z.land b 7) 18) (Z.shiftl (low6 c1) 12))
                                (Z.shiftl (low6 c2) 6)) (low6 c3), 4%nat)
                    | S _, EmptyString => (RuneError, 1%nat)
                    end
              | _, _ => (RuneError, 1%nat)
              end
        | _, _ => (RuneError, 1%nat)
        end
  end.

(** ** Facts about decoding *)

Lemma decode_ascii c r : byte_at c < 128 → DecodeRune (String c r) = (byte_at c, 1%nat).
Proof. intros Hc. unfold DecodeRune. by rewrite (proj2 (Z.ltb_lt _ _)). Qed.

Lemma byte_range c : 0 <= byte_at c < 256.
Proof. unfold byte_at. pose proof (nat_ascii_bounded c). lia. Qed.

Lemma lor_ge a b : 0 <= b → a <= Z.lor a b.
Proof.
  intros Hb. assert (Z.lor a b = a + Z.ldiff b a) as ->.
  { rewrite Z.add_nocarry_lxor.
    - apply Z.bits_inj'. intros n Hn. rewrite Z.lor_spec, Z.lxor_spec, Z.ldiff_spec.
      by destruct (Z.testbit a n), (Z.testbit b n).
    - apply Z.bits_inj'. intros n Hn. rewrite Z.land_spec, Z.ldiff_spec, Z.bits_0.
      by destruct (Z.testbit a n), (Z.testbit b n). }
  assert (0 <= Z.ldiff b a) by (apply Z.ldiff_nonneg; tauto). lia.
Qed.

Lemma low6_nonneg c : 0 <= low6 c.
Proof. apply Z.land_nonneg. lia. Qed.

(** A property of every byte, by computation. *)
Ltac every_byte := intros [[] [] [] [] [] [] [] []]; vm_compute; try (intros; discriminate); try done.

Lemma lead_two c : lead (byte_at c) = Some (2%nat, 128, 191) → 128 <= Z.shiftl (Z.land (byte_at c) 31) 6.
Proof. revert c. every_byte. Qed.
Lemma lead_three c lo hi : lead (byte_at c) = Some (3%nat, lo, hi) →
  4096 <= Z.shiftl (Z.land (byte_at c) 15) 12 ∨ lo = 160.
Proof. revert c. intros [[] [] [] [] [] [] [] []]; vm_compute; intros [=]; subst; auto; left; done. Qed.
Lemma lead_four c lo hi : lead (byte_at c) = Some (4%nat, lo, hi) →
  262144 <= Z.shiftl (Z.land (byte_at c) 7) 18 ∨ lo = 144.
Proof. revert c. intros [[] [] [] [] [] [] [] []]; vm_compute; intros [=]; subst; auto; left; done. Qed.
Lemma second_high c : 144 <= byte_at c → byte_at c <= 191 → 16 <= low6 c.
Proof. revert c. every_byte. Qed.
Lemma lead_cases c n lo hi : lead (byte_at c) = Some (n, lo, hi) →
  n = 2%nat ∧ lo = 128 ∧ hi = 191 ∨ n = 3%nat ∧ hi <= 191 ∨ n = 4%nat ∧ hi <= 191.
Proof. revert c. intros [[] [] [] [] [] [] [] []]; vm_compute; intros [=]; subst; intuition discriminate. Qed.

Lemma shiftl_ge a n : 16 <= a → 6 <= n → 1024 <= Z.shiftl a n.
Proof.
  intros Ha Hn. rewrite Z.shiftl_mul_pow2 by lia. assert (2 ^ 6 <= 2 ^ n) by (apply Z.pow_le_mono_r; lia). lia.
Qed.

Lemma shiftl_low6 c n : 0 <= Z.shiftl (low6 c) n.
Proof. apply Z.shiftl_nonneg, low6_nonneg. Qed.

#[local] Opaque lead byte_at low6 Z.shiftl Z.lor Z.land.

(** Bytes that are not ASCII decode to a rune that is not ASCII. *)
Lemma decode_high c s : 128 <= byte_at c →
  128 <= (DecodeRune (String c s)).1 ∧ (1 <= (DecodeRune (String c s)).2 <= String.length (String c s))%nat.
Proof.
  intros Hc. unfold DecodeRune. rewrite (proj2 (Z.ltb_ge _ _)) by done.
  assert (Herr : ∀ s, 128 <= RuneError ∧ (1 <= 1 <= String.length (String c s))%nat) by (intros; simpl; unfold RuneError; lia).
  destruct (lead (byte_at c)) as [[[n lo] hi]|] eqn:Hl; [|apply Herr]. destruct s as [|c1 s]; [apply Herr|].
  destruct (Z.ltb_spec (byte_at c1) lo), (Z.ltb_spec hi (byte_at c1)); try apply Herr. cbn [orb].
  destruct (lead_cases c n lo hi Hl) as [(-> & -> & ->)|[(-> & Hhi)|(-> & Hhi)]].
  - split; [|simpl; lia]. etrans; [apply lead_two, Hl|apply lor_ge, low6_nonneg].
  - destruct s as [|c2 s]; [apply Herr|]. destruct (negb (continues c2)); [apply Herr|]. split; [|simpl; lia].
    cbn [fst]. etrans; [|apply lor_ge, low6_nonneg]. destruct (lead_three c lo hi Hl) as [Hb| ->].
    + etrans; [|apply lor_ge, shiftl_low6]. lia.
    + rewrite Z.lor_comm. etrans; [|apply lor_ge, Z.shiftl_nonneg, Z.land_nonneg; lia].
      assert (16 <= low6 c1) by (apply second_high; lia). pose proof (shiftl_ge (low6 c1) 6). lia.
  - destruct s as [|c2 s]; [apply Herr|]. destruct (negb (continues c2)); [apply Herr|].
    destruct s as [|c3 s]; [apply Herr|]. destruct (negb (continues c3)); [apply Herr|]. split; [|simpl; lia].
    cbn [fst]. etrans; [|apply lor_ge, low6_nonneg]. etrans; [|apply lor_ge, shiftl_low6].
    destruct (lead_four c lo hi Hl) as [Hb| ->].
    + etrans; [|apply lor_ge, shiftl_low6]. lia.
    + rewrite Z.lor_comm. etrans; [|apply lor_ge, Z.shiftl_nonneg, Z.land_nonneg; lia].
      assert (16 <= low6 c1) by (apply second_high; lia). pose proof (shiftl_ge (low6 c1) 12). lia.
Qed.

#[local] Transparent lead byte_at low6 Z.shiftl Z.lor Z.land.

(** ** The runes of a string *)

Fixpoint runes_fuel (fuel : nat) (s : string) : list Z :=
  match fuel, s with
  | S fuel, String _ _ => let '(r, n) := DecodeRune s in r :: runes_fuel fuel (str_drop n s)
  | _, _ => []
  end.
Definition runes (s : string) : list Z := runes_fuel (String.length s) s.

Lemma str_drop_length n s : String.length (str_drop n s) = (String.length s - n)%nat.
Proof. revert s. induction n as [|n IH]; intros [|c s]; simpl; done. Qed.

Lemma decode_size c s : (1 <= (DecodeRune (String c s)).2 <= String.length (String c s))%nat.
Proof.
  destruct (Z.lt_ge_cases (byte_at c) 128); [|by apply decode_high]. rewrite decode_ascii by done. simpl. lia.
Qed.

Lemma runes_fuel_enough f f' s :
  (String.length s <= f)%nat → (String.length s <= f')%nat → runes_fuel f s = runes_fuel f' s.
Proof.
  revert f' s. induction f as [|f IH]; intros [|f'] [|c s] Hf Hf'; try done; try (simpl in *; lia).
  cbn [runes_fuel]. pose proof (decode_size c s). destruct (DecodeRune (String c s)) as [r n]. f_equal.
  apply IH; rewrite str_drop_length; simpl in *; lia.
Qed.

Lemma runes_cons c s :
  runes (String c s) = (DecodeRune (String c s)).1 :: runes (str_drop (DecodeRune (String c s)).2 (String c s)).
Proof.
  unfold runes at 1. cbn [String.length runes_fuel]. pose proof (decode_size c s) as Hn.
  destruct (DecodeRune (String c s)) as [r n]. cbn [fst snd] in *. f_equal.
  apply runes_fuel_enough; rewrite str_drop_length; simpl in *; lia.
Qed.

Lemma runes_ascii c s : byte_at c < 128 → runes (String c s) = byte_at c :: runes s.
Proof. intros Hc. rewrite runes_cons, decode_ascii by done. done. Qed.

(** ** Encoding, and the last rune of a string *)

Definition byte (n : Z) : ascii := ascii_of_nat (Z.to_nat n).
Definition tail_byte (r n : Z) : ascii := byte (Z.lor 128 (Z.land (Z.shiftr r n) 63)).

(** [utf8.EncodeRune]; surrogates and numbers out of range are encoded as [RuneError]. *)
Definition EncodeRune (r : Z) : string :=
  let three r := String (byte (Z.lor 224 (Z.shiftr r 12))) (String (tail_byte r 6) (String (tail_byte r 0) EmptyString)) in
  if (0 <=? r) && (r <=? 127) then String (byte r) EmptyString
  else if (0 <=? r) && (r <=? 2047) then String (byte (Z.lor 192 (Z.shiftr r 6))) (String (tail_byte r 0) EmptyString)
  else if (r <? 0) || (1114111 <? r) || ((55296 <=? r) && (r <=? 57343)) then three RuneError
  else if r <=? 65535 then three r
  else String (byte (Z.lor 240 (Z.shiftr r 18)))
         (String (tail_byte r 12) (String (tail_byte r 6) (String (tail_byte r 0) EmptyString))).

Definition rune_start (c : ascii) : bool := negb (Z.land (byte_at c) 192 =? 128).

(** The search for the start of the last rune: [k] places are looked at, from
    [start] backwards. *)
Fixpoint last_start (k : nat) (s : string) (start : nat) : nat :=
  match k, nth_char start s with
  | S k, Some c => if rune_start c then start else last_start k s (start - 1)
  | _, _ => start
  end.

(** [utf8.DecodeLastRune]. *)
Definition DecodeLastRune (s : string) : Z * nat :=
  let len := String.length s in
  match nth_char (len - 1) s with
  | None => (RuneError, 0%nat)
  | Some c =>
      if byte_at c <? 128 then (byte_at c, 1%nat)
      else
        let start := last_start (Nat.min 3 (len - 1)) s (len - 2) in
        let '(r, size) := DecodeRune (str_drop start s) in
        if (start + size =? len)%nat then (r, size) else (RuneError, 1%nat)
  end.
