(* ===== verification/Match.v ===== *)
(** * Wildcard matching

    Model of tools/match.  [deepMatch] walks over bytes until it meets one that
    is not ASCII and hands over to [deepMatchRune], which walks over runes; both
    call themselves at a star.  The functions take fuel, and [None] means that it
    ran out; [Match] gives them enough. *)

From S2P Require Import Prelude GoText Utf8.
From Stdlib Require Import Strings.Ascii.

#[local] Open Scope Z_scope.

Definition star : Z := 42.
Definition question : Z := 63.

(** The loop that reduces leading stars to one. *)
Fixpoint collapse (pattern : string) : string :=
  match pattern with
  | String c p =>
      match p with
      | String d _ => if Ascii.eqb c "*" && Ascii.eqb d "*" then collapse p else pattern
      | EmptyString => pattern
      end
  | EmptyString => pattern
  end.

Definition drop_first (s : string) : string := str_drop 1 s.

(** [a || b] when [b] is only evaluated if [a] is false. *)
Definition or_else (a : option bool) (b : option bool) : option bool :=
  match a with None => None | Some true => Some true | Some false => b end.

(** [rune_loop] is the loop of [deepMatchRune], which reads a rune of each side. *)
Fixpoint deepMatchRune (fuel : nat) (str pattern : string) : option bool :=
  match fuel with
  | O => None
  | S fuel => if String.eqb pattern "*" then Some true else rune_loop fuel str (collapse pattern)
  end
with rune_loop (fuel : nat) (str pattern : string) : option bool :=
  match fuel with
  | O => None
  | S fuel =>
      let '(sr, srsz) := DecodeRune str in
      let '(pr, prsz) := DecodeRune pattern in
      if (prsz =? 0)%nat then Some (srsz =? 0)%nat
      else if pr =? question then
        if (srsz =? 0)%nat then Some false else rune_loop fuel (str_drop srsz str) (str_drop prsz pattern)
      else if pr =? star then
        or_else (deepMatchRune fuel str (str_drop prsz pattern))
          (if (srsz =? 0)%nat then Some false else deepMatchRune fuel (str_drop srsz str) pattern)
      else if (srsz =? 0)%nat then Some false
      else if negb (sr =? pr) then Some false
      else rune_loop fuel (str_drop srsz str) (str_drop prsz pattern)
  end.

Definition not_ascii (s : string) : bool :=
  match s with EmptyString => false | String c _ => 127 <? byte_at c end.

Fixpoint deepMatch (fuel : nat) (str pattern : string) : option bool :=
  match fuel with
  | O => None
  | S fuel => if String.eqb pattern "*" then Some true else byte_loop fuel str (collapse pattern)
  end
with byte_loop (fuel : nat) (str pattern : string) : option bool :=
  match fuel with
  | O => None
  | S fuel =>
      match pattern with
      | EmptyString => Some (String.length str =? 0)%nat
      | String p ps =>
          if not_ascii pattern then deepMatchRune fuel str pattern
          else if not_ascii str then deepMatchRune fuel str pattern
          else if Ascii.eqb p "?" then
            match str with EmptyString => Some false | String _ s => byte_loop fuel s ps end
          else if Ascii.eqb p "*" then
            or_else (deepMatch fuel str ps)
              (match str with EmptyString => Some false | String _ s => deepMatch fuel s pattern end)
          else
            match str with
            | EmptyString => Some false
            | String c s => if negb (Ascii.eqb c p) then Some false else byte_loop fuel s ps
            end
      end
  end.

Definition Match (str pattern : string) : option bool :=
  deepMatch (2 * (String.length str + String.length pattern) + 4) str pattern.

(** The bytes of the largest rune. *)
Definition maxRuneBytes : string := EncodeRune 1114111.

(** The bounds of the part before the first star, and whether there is one. *)
Fixpoint bounds_before_star (pattern : string) : string * string * bool :=
  match pattern with
  | EmptyString => (EmptyString, EmptyString, false)
  | String c p =>
      if Ascii.eqb c "*" then (EmptyString, EmptyString, true)
      else
        let '(minB, maxB, wild) := bounds_before_star p in
        if Ascii.eqb c "?" then (String zero minB, maxRuneBytes +:+ maxB, wild)
        else (String c minB, String c maxB, wild)
  end.

Definition Allowable (pattern : string) : string * string :=
  match pattern with
  | EmptyString => (EmptyString, EmptyString)
  | String c _ =>
      if Ascii.eqb c "*" then (EmptyString, EmptyString)
      else
        let '(minB, maxB, wild) := bounds_before_star pattern in
        let maxB :=
          if wild then
            let '(r, n) := DecodeLastRune maxB in
            if negb (r =? RuneError) && (r <? 1114111) then
              str_take (String.length maxB - n) maxB +:+ EncodeRune (r + 1)
            else maxB
          else maxB in
        (minB, maxB)
  end.

Fixpoint IsPattern (str : string) : bool :=
  match str with
  | EmptyString => false
  | String c s => if Ascii.eqb c "*" || Ascii.eqb c "?" then true else IsPattern s
  end.

(** ** The reference *)

Inductive glob : list Z → list Z → Prop :=
  | glob_nil : glob [] []
  | glob_any r s p : glob s p → glob (r :: s) (question :: p)
  | glob_literal r s p : r ≠ star → r ≠ question → glob s p → glob (r :: s) (r :: p)
  | glob_empty s p : glob s p → glob s (star :: p)
  | glob_more r s p : glob s (star :: p) → glob (r :: s) (star :: p).

Lemma glob_star s : glob s [star].
Proof. induction s; [apply glob_empty, glob_nil|by apply glob_more]. Qed.

Lemma glob_star_inv s p : glob s (star :: p) ↔ glob s p ∨ ∃ r s', s = r :: s' ∧ glob s' (star :: p).
Proof.
  split.
  - intros H. inversion H; subst; [done|by left|right; eauto].
  - intros [H|(r & s' & -> & H)]; [by apply glob_empty|by apply glob_more].
Qed.

Lemma glob_star_star s p : glob s (star :: star :: p) ↔ glob s (star :: p).
Proof.
  split; [|by apply glob_empty].
  induction s as [|r s IH]; intros H; apply glob_star_inv in H as [H1|(r' & s' & Heq & H1)]; try done.
  injection Heq as <- <-. by apply glob_more, IH.
Qed.

Lemma glob_any_inv s p : glob s (question :: p) ↔ ∃ r s', s = r :: s' ∧ glob s' p.
Proof.
  split.
  - intros H. inversion H; subst; [eauto|done].
  - intros (r & s' & -> & H). by apply glob_any.
Qed.

Lemma glob_literal_inv s r p : r ≠ star → r ≠ question → glob s (r :: p) ↔ ∃ s', s = r :: s' ∧ glob s' p.
Proof.
  intros Hs Hq. split.
  - intros H. inversion H; subst; try done. eauto.
  - intros (s' & -> & H). by apply glob_literal.
Qed.

Lemma glob_nil_inv s : glob s [] ↔ s = [].
Proof. split; [by inversion 1|intros ->; apply glob_nil]. Qed.

(** ** The matcher decides the reference *)

Definition decides (o : option bool) (P : Prop) : Prop := ∃ b, o = Some b ∧ (b = true ↔ P).

Lemma decides_iff o P Q : (P ↔ Q) → decides o P → decides o Q.
Proof. intros HPQ (b & Hb & HP). exists b. split; [done|]. tauto. Qed.

Lemma decides_bool (b : bool) P : (b = true ↔ P) → decides (Some b) P.
Proof. intros H. by exists b. Qed.

Lemma decides_or a b P Q : decides a P → decides b Q → decides (or_else a b) (P ∨ Q).
Proof.
  intros (x & -> & HP) (y & -> & HQ). destruct x; simpl; [exists true|exists y]; (split; [done|]); [tauto|].
  rewrite HQ. split; [by right|]. intros [HPp|]; [apply HP in HPp; done|done].
Qed.

Lemma byte_star c : Ascii.eqb c "*" = true ↔ byte_at c = star.
Proof.
  rewrite Ascii.eqb_eq. split; [by intros ->|]. unfold byte_at, star. intros H.
  rewrite <- (ascii_nat_embedding c). by replace (nat_of_ascii c) with 42%nat by lia.
Qed.

Lemma byte_question c : Ascii.eqb c "?" = true ↔ byte_at c = question.
Proof.
  rewrite Ascii.eqb_eq. split; [by intros ->|]. unfold byte_at, question. intros H.
  rewrite <- (ascii_nat_embedding c). by replace (nat_of_ascii c) with 63%nat by lia.
Qed.

Lemma byte_eqb c d : Ascii.eqb c d = true ↔ byte_at c = byte_at d.
Proof.
  rewrite Ascii.eqb_eq. split; [by intros ->|]. unfold byte_at. intros H.
  rewrite <- (ascii_nat_embedding c), <- (ascii_nat_embedding d). by replace (nat_of_ascii c) with (nat_of_ascii d) by lia.
Qed.

Lemma collapse_cons c d p :
  collapse (String c (String d p)) =
  if Ascii.eqb c "*" && Ascii.eqb d "*" then collapse (String d p) else String c (String d p).
Proof. done. Qed.

Lemma collapse_spec s p : (glob s (runes (collapse p)) ↔ glob s (runes p)) ∧ (String.length (collapse p) <= String.length p)%nat.
Proof.
  induction p as [|c p [IH1 IH2]]; [done|]. destruct p as [|d p]; [done|]. rewrite collapse_cons.
  destruct (Ascii.eqb c "*" && Ascii.eqb d "*") eqn:Hcd; [|done]. apply andb_true_iff in Hcd as [Hc Hd].
  apply byte_star in Hc, Hd. split; [|simpl in *; lia]. rewrite IH1.
  rewrite !runes_ascii, Hc, Hd by (rewrite ?Hc, ?Hd; done). by rewrite glob_star_star.
Qed.

Lemma decode_empty : DecodeRune EmptyString = (RuneError, 0%nat).
Proof. done. Qed.

(** A string and its first rune. *)
Lemma runes_decode s : s ≠ EmptyString →
  let '(r, n) := DecodeRune s in
  runes s = r :: runes (str_drop n s) ∧ (0 < n)%nat ∧ (String.length (str_drop n s) < String.length s)%nat.
Proof.
  destruct s as [|c s]; [done|]. intros _. pose proof (runes_cons c s) as Hr. pose proof (decode_size c s) as Hn.
  destruct (DecodeRune (String c s)) as [r n]. cbn [fst snd] in *. split; [done|]. rewrite str_drop_length. simpl in *. lia.
Qed.

(** The same for a string that may be empty. *)
Lemma runes_first s : let '(r, n) := DecodeRune s in
  n = 0%nat ∧ runes s = [] ∨
  (n ≠ 0)%nat ∧ runes s = r :: runes (str_drop n s) ∧ (String.length (str_drop n s) < String.length s)%nat.
Proof.
  destruct s as [|c s]; [by left|]. pose proof (runes_decode (String c s) ltac:(done)) as H.
  destruct (DecodeRune (String c s)) as [r n]. right. destruct H as (? & ? & ?). split_and!; [lia|done|done].
Qed.

Lemma rune_correct fuel str pattern :
  ((2 * (String.length str + String.length pattern) + 2 <= fuel)%nat →
     decides (deepMatchRune fuel str pattern) (glob (runes str) (runes pattern))) ∧
  ((2 * (String.length str + String.length pattern) + 1 <= fuel)%nat →
     decides (rune_loop fuel str pattern) (glob (runes str) (runes pattern))).
Proof.
  revert str pattern. induction fuel as [|fuel IH]; intros str pattern; [split; lia|]. split; intros Hf.
  - cbn [deepMatchRune]. destruct (String.eqb_spec pattern "*") as [->|_].
    { apply decides_bool. split; [|done]. intros _. apply glob_star. }
    destruct (collapse_spec (runes str) pattern) as [Hg Hl]. eapply decides_iff; [exact Hg|]. apply IH. lia.
  - cbn [rune_loop]. pose proof (runes_first str) as Hs. pose proof (runes_first pattern) as Hp.
    destruct (DecodeRune str) as [sr sn], (DecodeRune pattern) as [pr pn].
    destruct Hp as [[-> Hp]|(Hpn & Hp & Hpl)]; rewrite Hp.
    { simpl. apply decides_bool. rewrite glob_nil_inv, Nat.eqb_eq. destruct Hs as [[-> Hs]|(Hsn & Hs & _)]; rewrite Hs; done || (split; done). }
    rewrite (proj2 (Nat.eqb_neq _ _) Hpn).
    destruct (Z.eqb_spec pr question) as [->|Hq]; [|destruct (Z.eqb_spec pr star) as [->|Hst]].
    + eapply decides_iff; [symmetry; apply glob_any_inv|]. destruct Hs as [[-> Hs]|(Hsn & Hs & Hsl)]; rewrite Hs.
      * apply decides_bool. split; [done|]. by intros (r & s' & [=] & _).
      * rewrite (proj2 (Nat.eqb_neq _ _) Hsn). eapply decides_iff; [|apply IH; lia].
        split; [eauto|]. intros (r & s' & [= <- <-] & H). done.
    + eapply decides_iff; [symmetry; apply glob_star_inv|]. apply decides_or; [apply IH; lia|].
      destruct Hs as [[-> Hs]|(Hsn & Hs & Hsl)]; rewrite Hs.
      * apply decides_bool. split; [done|]. by intros (r & s' & [=] & _).
      * rewrite (proj2 (Nat.eqb_neq _ _) Hsn), <- Hp. eapply decides_iff; [|apply IH; lia].
        split; [eauto|]. intros (r & s' & [= <- <-] & H). done.
    + eapply decides_iff; [symmetry; by apply glob_literal_inv|]. destruct Hs as [[-> Hs]|(Hsn & Hs & Hsl)]; rewrite Hs.
      * apply decides_bool. split; [done|]. by intros (s' & [=] & _).
      * rewrite (proj2 (Nat.eqb_neq _ _) Hsn). destruct (Z.eqb_spec sr pr) as [->|Hne]; simpl.
        -- eapply decides_iff; [|apply IH; lia]. split; [eauto|]. intros (s' & [= <-] & H). done.
        -- apply decides_bool. split; [done|]. intros (s' & [= ? _] & _). done.
Qed.

Lemma not_ascii_cons c s : not_ascii (String c s) = false → byte_at c < 128.
Proof. simpl. rewrite Z.ltb_ge. lia. Qed.

Lemma byte_correct fuel str pattern :
  ((2 * (String.length str + String.length pattern) + 4 <= fuel)%nat →
     decides (deepMatch fuel str pattern) (glob (runes str) (runes pattern))) ∧
  ((2 * (String.length str + String.length pattern) + 3 <= fuel)%nat →
     decides (byte_loop fuel str pattern) (glob (runes str) (runes pattern))).
Proof.
  revert str pattern. induction fuel as [|fuel IH]; intros str pattern; [split; lia|]. split; intros Hf.
  - cbn [deepMatch]. destruct (String.eqb_spec pattern "*") as [->|_].
    { apply decides_bool. split; [|done]. intros _. apply glob_star. }
    destruct (collapse_spec (runes str) pattern) as [Hg Hl]. eapply decides_iff; [exact Hg|]. apply IH. lia.
  - cbn [byte_loop]. destruct pattern as [|p ps].
    { apply decides_bool. rewrite Nat.eqb_eq, glob_nil_inv. destruct str as [|c str]; [done|]. rewrite runes_cons. done. }
    destruct (not_ascii (String p ps)) eqn:Hp; [apply rune_correct; lia|]. apply not_ascii_cons in Hp.
    destruct (not_ascii str) eqn:Hs; [apply rune_correct; lia|]. rewrite (runes_ascii p ps) by done.
    assert (Hrec : ∀ c s, str = String c s → runes str = byte_at c :: runes s ∧ byte_at c < 128).
    { intros c s ->. apply not_ascii_cons in Hs. by rewrite runes_ascii. }
    destruct (Ascii.eqb p "?") eqn:Hq; [apply byte_question in Hq; rewrite Hq|destruct (Ascii.eqb p "*") eqn:Hst].
    + eapply decides_iff; [symmetry; apply glob_any_inv|]. destruct str as [|c s].
      * apply decides_bool. split; [done|]. by intros (r & s' & [=] & _).
      * destruct (Hrec c s eq_refl) as [-> _]. eapply decides_iff; [|apply IH; simpl in *; lia].
        split; [eauto|]. intros (r & s' & [= <- <-] & H). done.
    + apply byte_star in Hst. rewrite Hst. eapply decides_iff; [symmetry; apply glob_star_inv|].
      apply decides_or; [apply IH; simpl in *; lia|]. destruct str as [|c s].
      * apply decides_bool. split; [done|]. by intros (r & s' & [=] & _).
      * destruct (Hrec c s eq_refl) as [-> _]. eapply decides_iff; [|apply IH; simpl in *; lia].
        rewrite (runes_ascii p ps), Hst by done. split; [eauto|]. intros (r & s' & [= <- <-] & H). done.
    + assert (byte_at p ≠ star ∧ byte_at p ≠ question) as [Hns Hnq].
      { rewrite <- byte_star, <- byte_question. by rewrite Hst, Hq. }
      eapply decides_iff; [symmetry; by apply glob_literal_inv|]. destruct str as [|c s].
      * apply decides_bool. split; [done|]. by intros (s' & [=] & _).
      * destruct (Hrec c s eq_refl) as [-> _]. destruct (Ascii.eqb c p) eqn:Hc; simpl.
        -- apply byte_eqb in Hc. rewrite Hc. eapply decides_iff; [|apply IH; simpl in *; lia].
           split; [eauto|]. intros (s' & [= <-] & H). done.
        -- apply decides_bool. split; [done|]. intros (s' & [= Heq _] & _). apply byte_eqb in Heq. congruence.
Qed.

(** C23: [Match] always answers, and for every string and pattern of bytes its
    answer is whether the runes of the string match the pattern, where a
    question mark stands for one rune and a star for any number. *)
Theorem match_correct (str pattern : string) :
  ∃ b, Match str pattern = Some b ∧ (b = true ↔ glob (runes str) (runes pattern)).
Proof. apply byte_correct. lia. Qed.

(** ** Patterns without wildcards *)

Lemma IsPattern_drop n s : IsPattern s = false → IsPattern (str_drop n s) = false.
Proof.
  revert s. induction n as [|n IH]; intros [|c s]; simpl; try done. destruct (_ || _); [done|]. apply IH.
Qed.

Lemma IsPattern_literal s : IsPattern s = false → Forall (λ r, r ≠ star ∧ r ≠ question) (runes s).
Proof.
  remember (String.length s) as n eqn:Hn. revert s Hn. induction (lt_wf n) as [n _ IH]. intros s -> Hs.
  destruct s as [|c s]; [constructor|]. destruct (Z.lt_ge_cases (byte_at c) 128) as [Hc|Hc].
  - rewrite runes_ascii by done. simpl in Hs. destruct (Ascii.eqb c "*") eqn:H1; [done|].
    destruct (Ascii.eqb c "?") eqn:H2; [done|]. constructor; [|eapply IH; [|reflexivity|done]; simpl; lia].
    split; [rewrite <- byte_star|rewrite <- byte_question]; congruence.
  - destruct (decode_high c s Hc) as [Hr Hlen]. rewrite runes_cons. constructor; [unfold star, question; lia|].
    eapply IH; [|reflexivity|by apply IsPattern_drop]. rewrite str_drop_length. simpl in *. lia.
Qed.

(** A pattern without wildcards matches the strings with its runes only. *)
Lemma literal_match str pattern : IsPattern pattern = false →
  Match str pattern = Some (bool_decide (runes str = runes pattern)).
Proof.
  intros Hp%IsPattern_literal. destruct (proj1 (byte_correct _ str pattern) (le_n _)) as (b & Hb & Hg).
  unfold Match. rewrite Hb. f_equal. apply eq_bool_prop_intro. rewrite bool_decide_spec, Is_true_true, Hg. clear Hb Hg.
  generalize (runes str). induction Hp as [|r p [Hs Hq] Hp IH]; intros s; [apply glob_nil_inv|].
  rewrite glob_literal_inv by done. split.
  - intros (s' & -> & H). f_equal. by apply IH.
  - intros ->. exists p. split; [done|]. by apply IH.
Qed.

(** ** The bounds of a pattern *)

(** With a star after a question mark the upper bound is not one: the string of
    the largest rune and a letter matches and is greater. *)
Example allowable_not_bound :
  let s := maxRuneBytes +:+ "z" in
  Match s "?*" = Some true ∧ (Allowable "?*").2 = maxRuneBytes ∧ String.compare s (Allowable "?*").2 = Gt.
Proof. by vm_compute. Qed.

Example allowable_example : Allowable "hell*" = ("hell", "helm")%string ∧ Allowable "a?c" = (String "a" (String zero "c"), "a" +:+ maxRuneBytes +:+ "c")%string.
Proof. by vm_compute. Qed.
