(* ===== verification/ConnPool.v ===== *)
(** * The pool of connections: src/container/pool

    Resources are created on demand, handed to callers, returned to a list of
    idle ones, and shut down when they expire, when too many are idle, or with
    the pool.  Every access to the pool is inside a section of its mutex, so the
    methods are programs whose atomic steps are these sections; the creation of
    a resource, its shutdown, the reading of the clock and the waiting are steps
    of their own, and any number of goroutines interleave.  The function that
    creates resources, the contexts and the clock are inputs of the steps.  The
    cleaner started by NewList is goroutine 0.

    The file holds the model, the invariant of the resources (each is in one
    place, and the counter of active ones counts them), and the theorems: no
    resource is handed out twice or shut down twice, none is lost, the capacity
    holds, and no wake-up is lost. *)

From stdpp Require Import functions.
From S2P Require Import Prelude.
Local Open Scope Z_scope.

(** ** Data *)

(** Durations and instants are nanoseconds. *)
Definition minDuration : Z := 100000000.

Inductive pool_error := ErrPoolNewFuncIsNull | ErrPoolExhausted | ErrPoolClosed | ErrNewItem | ErrContext.

Record config := mkConf { max_active : Z; max_idle : Z; idleTimeout : Z; waitTimeout : Z; wait : bool }.

Definition defaultConfig : config := mkConf 20 10 (90 * 10 ^ 9) 0 false.

Inductive Option := SetActive (active : Z) | SetIdle (idle : Z) | SetIdleTimeout (d : Z) | SetWait (wait : bool) (d : Z).

Definition set_option (c : config) (o : Option) : config :=
  match o with
  | SetActive a => mkConf (wrapu 64 a) (max_idle c) (idleTimeout c) (waitTimeout c) (wait c)
  | SetIdle i => mkConf (max_active c) (wrapu 64 i) (idleTimeout c) (waitTimeout c) (wait c)
  | SetIdleTimeout d => mkConf (max_active c) (max_idle c) d (waitTimeout c) (wait c)
  | SetWait w d => mkConf (max_active c) (max_idle c) (idleTimeout c) d w
  end.

(** A resource is an IShutdown, here a number. *)
Record item := mkItem { createdAt : Z; res : nat }.

Definition expire (i : item) (timeout now : Z) : bool :=
  if timeout <=? 0 then false else createdAt i + timeout <? now.

(** The struct List.  The channel generation is the number of channels closed
    before it: a captured channel is closed when the number has grown. *)
Record List := mkList {
  newf : bool; generation : nat;
  cleanerWake : bool; cleanerStop : bool; cleanerDone : bool;
  active : Z; conf : config; closed : bool; idles : list item }.

Definition NewList (options : list Option) : List :=
  mkList false 0 false false false 0 (foldl set_option defaultConfig options) false [].

(** ** The sections of the mutex *)

Definition notifyLocked (l : List) : List :=
  mkList (newf l) (S (generation l)) (cleanerWake l) (cleanerStop l) (cleanerDone l)
    (active l) (conf l) (closed l) (idles l).

Definition add_active (d : Z) (l : List) : List :=
  mkList (newf l) (generation l) (cleanerWake l) (cleanerStop l) (cleanerDone l)
    (wrapu 64 (active l + d)) (conf l) (closed l) (idles l).

Definition set_idles (ics : list item) (l : List) : List :=
  mkList (newf l) (generation l) (cleanerWake l) (cleanerStop l) (cleanerDone l)
    (active l) (conf l) (closed l) ics.

Definition releaseLocked (l : List) : List := notifyLocked (add_active (-1) l).

Definition wakeCleaner (l : List) : List :=
  mkList (newf l) (generation l) true (cleanerStop l) (cleanerDone l)
    (active l) (conf l) (closed l) (idles l).

Definition Reload (options : list Option) (l : List) : List :=
  let c := foldl set_option (conf l) options in
  let l' := notifyLocked (mkList (newf l) (generation l) (cleanerWake l) (cleanerStop l)
    (cleanerDone l) (active l) c (closed l) (idles l)) in
  if bool_decide (idleTimeout c = idleTimeout (conf l)) then l' else wakeCleaner l'.

Definition Init (d : Z) (l : List) : List := if d <=? 0 then l else wakeCleaner l.

Definition New (f : bool) (l : List) : List :=
  mkList f (generation l) (cleanerWake l) (cleanerStop l) (cleanerDone l)
    (active l) (conf l) (closed l) (idles l).

Inductive result := RGot (s : nat) | RErr (e : pool_error) | ROk.

Inductive pc :=
  | Idle | Done (r : result) | Panicked
  | GetEnter | GetTook (ic : item) (timeout : Z) (i n : nat) | GetExpired (ic : item) (i n : nat)
  | GetRelease (i n : nat) | GetCreate | GetFailed | GetWait (g : nat) | GetAgain
  | PutEnter (s : nat) (forceClose : bool) | PutClose (s : nat)
  | ShutEnter | ShutClose (l : list nat) | ShutWait
  | ReloadEnter (options : list Option) | NewEnter (f : bool) | InitEnter (d : Z)
  | CleanRead | CleanSelect (timeout : Z) | CleanEnter | CleanClose (l : list nat) | CleanExit | CleanDone.

(** The rest of Get's section once its loop over the idle ones has ended. *)
Definition get_rest (l : List) : List * pc :=
  if closed l then (l, Done (RErr ErrPoolClosed))
  else if (max_active (conf l) =? 0) || (active l <? max_active (conf l)) then
    if newf l then (add_active 1 l, GetCreate) else (l, Done (RErr ErrPoolNewFuncIsNull))
  else if (waitTimeout (conf l) =? 0) && negb (wait (conf l)) then (l, Done (RErr ErrPoolExhausted))
  else (l, GetWait (generation l)).

(** One turn of the loop over the idle ones, the [i]-th of [n]. *)
Definition get_scan (l : List) (i n : nat) : List * pc :=
  if (i <? n)%nat then
    match idles l with
    | [] => get_rest l
    | ic :: ics => (set_idles ics l, GetTook ic (idleTimeout (conf l)) i n)
    end
  else get_rest l.

Definition get_enter (l : List) : List * pc :=
  if closed l then (l, Done (RErr ErrPoolClosed)) else get_scan l 0 (length (idles l)).

Definition Put (s : nat) (forceClose : bool) (now : Z) (l : List) : List * pc :=
  if closed l || forceClose then (releaseLocked l, PutClose s)
  else
    let ics := mkItem now s :: idles l in
    if max_idle (conf l) <? Z.of_nat (length ics) then
      match reverse ics with
      | e :: front => (releaseLocked (set_idles (reverse front) l), PutClose (res e))
      | [] => (l, Panicked)
      end
    else (notifyLocked (set_idles ics l), Done ROk).

Definition Shutdown (l : List) : List * pc :=
  if closed l then (l, Done (RErr ErrPoolClosed))
  else if cleanerStop l then (l, Panicked)
  else
    let shutdowns := res <$> idles l in
    (notifyLocked (mkList (newf l) (generation l) (cleanerWake l) true (cleanerDone l)
       (wrapu 64 (active l - Z.of_nat (length shutdowns))) (conf l) true []),
     ShutClose shutdowns).

(** The loop of cleanExpired, on the idle ones from the back; the [k]-th call
    of [nowFunc] answers [now k]. *)
Fixpoint clean_loop (timeout : Z) (now : nat → Z) (k : nat) (back : list item) : list nat * list item :=
  match back with
  | [] => ([], [])
  | e :: rest =>
      if expire e timeout (now k) then
        let '(shutdowns, live) := clean_loop timeout now (S k) rest in (res e :: shutdowns, live)
      else ([], back)
  end.

Definition cleanExpired (now : nat → Z) (l : List) : List * pc :=
  if closed l || (idleTimeout (conf l) <=? 0) then (l, CleanRead)
  else
    let '(shutdowns, live) := clean_loop (idleTimeout (conf l)) now 0 (reverse (idles l)) in
    match shutdowns with
    | [] => (l, CleanClose [])
    | _ => (notifyLocked (add_active (- Z.of_nat (length shutdowns)) (set_idles (reverse live) l)), CleanClose shutdowns)
    end.

Definition runCleaner_read (l : List) : pc :=
  let d := idleTimeout (conf l) in
  CleanSelect (if 0 <? d then Z.max d minDuration else d).

(** ** One step of a goroutine *)

(** What the surroundings answer: the creating function, the context, and the
    case that a select of the cleaner takes. *)
Inductive env := EGo | ECreated (s : nat) | EFailed | ECtxDone | ETimer | EWake | EStop.

Inductive event := Made (s : nat) | Shut (s : nat).

Definition take_wake (l : List) : List :=
  mkList (newf l) (generation l) false (cleanerStop l) (cleanerDone l) (active l) (conf l) (closed l) (idles l).
Definition finish_cleaner (l : List) : List * pc :=
  if cleanerDone l then (l, Panicked)
  else (mkList (newf l) (generation l) (cleanerWake l) (cleanerStop l) true (active l) (conf l) (closed l) (idles l), CleanDone).

(** No result: the goroutine cannot take the step now.  The error that the
    Shutdown of a resource answers is not kept. *)
Definition thread_step (now : nat → Z) (a : env) (l : List) (p : pc) : option (List * pc * option event) :=
  match p, a with
  | GetEnter, EGo => Some (get_enter l, None)
  | GetTook ic timeout i n, EGo =>
      Some (l, if expire ic timeout (now 0%nat) then GetExpired ic i n else Done (RGot (res ic)), None)
  | GetExpired ic i n, EGo => Some (l, GetRelease i n, Some (Shut (res ic)))
  | GetRelease i n, EGo => Some (get_scan (releaseLocked l) (S i) n, None)
  | GetCreate, ECreated s => Some (l, Done (RGot s), Some (Made s))
  | GetCreate, EFailed => Some (l, GetFailed, None)
  | GetFailed, EGo => Some (releaseLocked l, Done (RErr ErrNewItem), None)
  | GetWait _, ECtxDone => Some (l, Done (RErr ErrContext), None)
  | GetWait g, EGo => if (g <? generation l)%nat then Some (l, GetAgain, None) else None
  | GetAgain, EGo => Some (get_scan l 0 (length (idles l)), None)
  | PutEnter s force, EGo => Some (Put s force (now 0%nat) l, None)
  | PutClose s, EGo => Some (l, Done ROk, Some (Shut s))
  | ShutEnter, EGo => Some (Shutdown l, None)
  | ShutClose (s :: ss), EGo => Some (l, ShutClose ss, Some (Shut s))
  | ShutClose [], EGo => Some (l, ShutWait, None)
  | ShutWait, EGo => if cleanerDone l then Some (l, Done ROk, None) else None
  | ReloadEnter os, EGo => Some (Reload os l, Done ROk, None)
  | NewEnter f, EGo => Some (New f l, Done ROk, None)
  | InitEnter d, EGo => Some (Init d l, Done ROk, None)
  | CleanRead, EGo => Some (l, runCleaner_read l, None)
  | CleanSelect d, ETimer => if 0 <? d then Some (l, CleanEnter, None) else None
  | CleanSelect _, EWake => if cleanerWake l then Some (take_wake l, CleanEnter, None) else None
  | CleanSelect _, EStop => if cleanerStop l then Some (l, CleanExit, None) else None
  | CleanEnter, EGo => Some (cleanExpired now l, None)
  | CleanClose (s :: ss), EGo => Some (l, CleanClose ss, Some (Shut s))
  | CleanClose [], EGo => Some (l, CleanRead, None)
  | CleanExit, EGo => Some (finish_cleaner l, None)
  | _, _ => None
  end.

(** ** Goroutines and their callers *)

Inductive op := OGet | OPut (s : nat) (forceClose : bool) | OShutdown | OReload (options : list Option) | ONew (f : bool) | OInit (d : Z).

Definition start (o : op) : pc :=
  match o with
  | OGet => GetEnter | OPut s force => PutEnter s force | OShutdown => ShutEnter
  | OReload os => ReloadEnter os | ONew f => NewEnter f | OInit d => InitEnter d
  end.

(** Besides the pool and the goroutines: the resources that callers hold, those
    ever created and those shut down, in the order of the calls. *)
Record system := mkSys { shared : List; threads : nat → pc; held : list nat; made : list nat; shut : list nat }.

Definition initial (options : list Option) : system :=
  mkSys (NewList options) (<[0%nat := CleanRead]> (λ _, Idle)) [] [] [].

Inductive action := ACall (t : nat) (o : op) | ARun (t : nat) (now : nat → Z) (a : env) | AReturn (t : nat).

(** A caller puts back what it holds, and then holds it no more; the creating
    function answers with resources that did not exist. *)
Definition act (c : system) (x : action) : option system :=
  match x with
  | ACall t o =>
      match threads c t with
      | Idle =>
          match o with
          | OPut s _ =>
              if decide (s ∈ held c) then
                Some (mkSys (shared c) (<[t := start o]> (threads c)) (filter (λ y, y ≠ s) (held c)) (made c) (shut c))
              else None
          | _ => Some (mkSys (shared c) (<[t := start o]> (threads c)) (held c) (made c) (shut c))
          end
      | _ => None
      end
  | ARun t now a =>
      '(l, p, ev) ← thread_step now a (shared c) (threads c t);
      match ev with
      | Some (Made s) =>
          if decide (s ∈ made c) then None
          else Some (mkSys l (<[t := p]> (threads c)) (held c) (s :: made c) (shut c))
      | Some (Shut s) => Some (mkSys l (<[t := p]> (threads c)) (held c) (made c) (s :: shut c))
      | None => Some (mkSys l (<[t := p]> (threads c)) (held c) (made c) (shut c))
      end
  | AReturn t =>
      match threads c t with
      | Done (RGot s) => Some (mkSys (shared c) (<[t := Idle]> (threads c)) (s :: held c) (made c) (shut c))
      | Done _ => Some (mkSys (shared c) (<[t := Idle]> (threads c)) (held c) (made c) (shut c))
      | _ => None
      end
  end.

Fixpoint run (c : system) (xs : list action) : option system :=
  match xs with [] => Some c | x :: xs => c' ← act c x; run c' xs end.

(** ** Counting the resources *)

Fixpoint occ (x : nat) (l : list nat) : nat :=
  match l with [] => 0 | y :: l => (if decide (x = y) then 1 else 0) + occ x l end%nat.

Lemma occ_app x l k : (occ x (l ++ k) = occ x l + occ x k)%nat.
Proof. induction l; simpl; lia. Qed.

Lemma occ_reverse x l : occ x (reverse l) = occ x l.
Proof. induction l; [done|]. rewrite reverse_cons, occ_app. simpl. lia. Qed.

Lemma occ_filter x s l : occ x (filter (λ y, y ≠ s) l) = if decide (x = s) then 0%nat else occ x l.
Proof.
  induction l as [|y l IH]; [by case_decide|]. rewrite filter_cons. simpl.
  repeat case_decide; simplify_eq/=; rewrite ?IH; repeat case_decide; lia || done.
Qed.

Lemma occ_elem x l : x ∈ l ↔ (0 < occ x l)%nat.
Proof. induction l as [|y l IH]; simpl; rewrite ?elem_of_nil, ?elem_of_cons, ?IH; [lia|]. case_decide; lia. Qed.

Lemma occ_NoDup l : (∀ x, occ x l <= 1)%nat → NoDup l.
Proof.
  induction l as [|y l IH]; intros H; constructor.
  - rewrite occ_elem. specialize (H y). simpl in H. rewrite decide_True in H by done. lia.
  - apply IH. intros x. specialize (H x). simpl in H. lia.
Qed.

Lemma filter_occ s l : (occ s l = 1)%nat → length l = S (length (filter (λ y, y ≠ s) l)).
Proof.
  induction l as [|y l IH]; simpl; [lia|]. rewrite filter_cons. intros H.
  repeat case_decide; simplify_eq/=; try (f_equal; apply IH; lia).
  f_equal. rewrite filter_all; [done|]. intros z Hz ->. apply occ_elem in Hz. lia.
Qed.

(** The resources that a goroutine has in hand, and whether the counter counts it. *)
Definition holds (p : pc) : list nat :=
  match p with
  | GetTook ic _ _ _ | GetExpired ic _ _ => [res ic]
  | PutEnter s _ | PutClose s | Done (RGot s) => [s]
  | ShutClose l | CleanClose l => l
  | _ => []
  end.

Definition weight (p : pc) : nat :=
  match p with
  | GetTook _ _ _ _ | GetExpired _ _ _ | GetRelease _ _ | GetCreate | GetFailed | PutEnter _ _ | Done (RGot _) => 1
  | _ => 0
  end.

Fixpoint sum (w : pc → nat) (ps : nat → pc) (n : nat) : nat :=
  match n with O => O | S n => sum w ps n + w (ps n) end.

Section sums.
Context (w : pc → nat).

Lemma sum_insert ps t p n : (t < n)%nat → (sum w (<[t := p]> ps) n + w (ps t) = sum w ps n + w p)%nat.
Proof.
  intros Ht. assert (Hlow : ∀ m, (m <= t)%nat → sum w (<[t := p]> ps) m = sum w ps m).
  { induction m as [|m IH]; intros Hm; simpl; [done|]. rewrite IH by lia. by rewrite fn_lookup_insert_ne by lia. }
  induction n as [|n IH]; [lia|]. simpl. destruct (decide (t = n)) as [->|].
  - rewrite Hlow by lia. rewrite fn_lookup_insert. lia.
  - rewrite fn_lookup_insert_ne by done. specialize (IH ltac:(lia)). lia.
Qed.

Lemma sum_beyond ps n m : w Idle = 0%nat → (∀ t, n <= t → ps t = Idle)%nat → (n <= m)%nat → sum w ps m = sum w ps n.
Proof.
  intros H0 Hps. induction m as [|m IH]; intros Hm; [by replace n with 0%nat by lia|].
  destruct (decide (n = S m)) as [->|]; [done|]. simpl. rewrite IH by lia. rewrite Hps by lia. lia.
Qed.

Lemma sum_ge ps t n : (t < n)%nat → (w (ps t) <= sum w ps n)%nat.
Proof. induction n as [|n IH]; intros Ht; simpl; [lia|]. destruct (decide (t = n)) as [->|]; [lia|]. specialize (IH ltac:(lia)). lia. Qed.

Lemma sum_pos ps n : (0 < sum w ps n)%nat → ∃ t, (t < n)%nat ∧ (0 < w (ps t))%nat.
Proof.
  induction n as [|n IH]; simpl; [lia|]. intros H. destruct (decide (0 < w (ps n))%nat).
  - exists n. lia.
  - destruct IH as (t & ? & ?); [lia|]. exists t. lia.
Qed.
End sums.

(** ** What a section does to the resources and to the counter *)

(** From [l], with a goroutine that has [h] in hand and is counted [w] times. *)
Definition keeps (l : List) (w : nat) (h : list nat) (l' : List) (p' : pc) : Prop :=
  (∀ x, occ x (res <$> idles l') + occ x (holds p') = occ x (res <$> idles l) + occ x h)%nat ∧
  (∀ R, active l = wrapu 64 (Z.of_nat (length (idles l)) + Z.of_nat w + R) →
        active l' = wrapu 64 (Z.of_nat (length (idles l')) + Z.of_nat (weight p') + R)).

Ltac wrap_sum :=
  intros R HR; simpl in *; rewrite ?HR; unfold wrapu; rewrite ?Zminus_mod_idemp_l, ?Zplus_mod_idemp_l; f_equal; lia.
Ltac keep := split; [intros x; csimpl; repeat case_decide; lia|wrap_sum].

Lemma get_rest_keeps l : keeps l 0 [] (get_rest l).1 (get_rest l).2.
Proof. unfold get_rest. repeat case_match; keep. Qed.

Lemma get_scan_keeps l i n : keeps l 0 [] (get_scan l i n).1 (get_scan l i n).2.
Proof.
  unfold get_scan. destruct (i <? n)%nat; [|apply get_rest_keeps].
  destruct (idles l) as [|ic ics] eqn:E; [apply get_rest_keeps|].
  unfold keeps. simpl. rewrite E. keep.
Qed.

Lemma get_enter_keeps l : keeps l 0 [] (get_enter l).1 (get_enter l).2.
Proof. unfold get_enter. destruct (closed l); [keep|apply get_scan_keeps]. Qed.

Lemma release_keeps l h p' : holds p' = h → weight p' = 0%nat → keeps l 1 h (releaseLocked l) p'.
Proof. intros <- Hw. split; [done|]. rewrite Hw. wrap_sum. Qed.

Lemma keeps_trans l w h l1 p1 l2 p2 :
  keeps l w h l1 p1 → keeps l1 (weight p1) (holds p1) l2 p2 → keeps l w h l2 p2.
Proof. intros [H1 H2] [H3 H4]. split; [intros x; by rewrite H3, H1|auto]. Qed.

Lemma reverse_last (ics front : list item) e : reverse ics = e :: front → ics = reverse front ++ [e].
Proof. intros H. by rewrite <- (reverse_involutive ics), H, reverse_cons. Qed.

Lemma Put_keeps s force now l : keeps l 1 [s] (Put s force now l).1 (Put s force now l).2.
Proof.
  unfold Put. destruct (closed l || force); [by apply release_keeps|]. case_match; [|keep].
  destruct (reverse _) as [|e front] eqn:E; apply reverse_last in E || (apply (f_equal length) in E; by rewrite length_reverse in E).
  unfold keeps. simpl. split.
  - intros x. assert (Hx := f_equal (λ k, occ x (res <$> k)) E). csimpl in Hx.
    rewrite fmap_app, occ_app in Hx. simpl in *. lia.
  - assert (Hl := f_equal length E). rewrite length_app in Hl. simpl in Hl. wrap_sum.
Qed.

Lemma Shutdown_keeps l : (closed l = cleanerStop l) → keeps l 0 [] (Shutdown l).1 (Shutdown l).2.
Proof.
  intros Hc. unfold Shutdown. destruct (closed l); [keep|]. rewrite <- Hc. split; [intros x; simpl; lia|].
  cbn [fst snd notifyLocked active idles weight]. rewrite length_fmap. wrap_sum.
Qed.

Lemma clean_loop_keeps timeout now back k :
  let '(shutdowns, live) := clean_loop timeout now k back in
  (∀ x, occ x (res <$> live) + occ x shutdowns = occ x (res <$> back))%nat ∧ (length live + length shutdowns = length back)%nat.
Proof.
  revert k. induction back as [|e rest IH]; intros k; simpl; [done|]. destruct (expire e timeout (now k)); [|simpl; split; intros; lia].
  specialize (IH (S k)). destruct (clean_loop timeout now (S k) rest) as [sh live]. destruct IH as [H1 H2].
  csimpl. split; [intros x; rewrite <- H1|]; lia.
Qed.

Lemma cleanExpired_keeps now l : keeps l 0 [] (cleanExpired now l).1 (cleanExpired now l).2.
Proof.
  unfold cleanExpired. destruct (closed l || _); [keep|].
  assert (H := clean_loop_keeps (idleTimeout (conf l)) now (reverse (idles l)) 0).
  destruct (clean_loop _ now 0 (reverse (idles l))) as [sh live]. destruct H as [H1 H2]. rewrite length_reverse in H2.
  destruct sh as [|s sh]; [keep|]. unfold keeps. cbn [fst snd holds weight idles notifyLocked add_active set_idles active]. split.
  - intros x. specialize (H1 x). rewrite fmap_reverse, occ_reverse in H1. rewrite fmap_reverse, occ_reverse. simpl in *. lia.
  - rewrite length_reverse. wrap_sum.
Qed.

Definition ev_made (x : nat) (ev : option event) : nat := match ev with Some (Made s) => if decide (x = s) then 1 else 0 | _ => 0 end.
Definition ev_shut (x : nat) (ev : option event) : nat := match ev with Some (Shut s) => if decide (x = s) then 1 else 0 | _ => 0 end.

Lemma step_keeps now a l p l' p' ev :
  closed l = cleanerStop l → thread_step now a l p = Some (l', p', ev) →
  (∀ x, occ x (res <$> idles l') + occ x (holds p') + ev_shut x ev = occ x (res <$> idles l) + occ x (holds p) + ev_made x ev)%nat ∧
  (∀ R, active l = wrapu 64 (Z.of_nat (length (idles l)) + Z.of_nat (weight p) + R) →
        active l' = wrapu 64 (Z.of_nat (length (idles l')) + Z.of_nat (weight p') + R)).
Proof.
  intros Hc Hs.
  assert (Hsec : ∀ q, keeps l (weight p) (holds p) q.1 q.2 → (q, None) = (l', p', ev) →
    (∀ x, occ x (res <$> idles l') + occ x (holds p') + ev_shut x ev = occ x (res <$> idles l) + occ x (holds p) + ev_made x ev)%nat ∧
    (∀ R, active l = wrapu 64 (Z.of_nat (length (idles l)) + Z.of_nat (weight p) + R) →
        active l' = wrapu 64 (Z.of_nat (length (idles l')) + Z.of_nat (weight p') + R))).
  { intros q [H1 H2] [= -> <-]. simpl in *. split; [intros x; rewrite <- H1; simpl; lia|done]. }
  destruct p, a; simpl in Hs; try discriminate; repeat case_match; try discriminate;
    apply (inj Some) in Hs;
    try (eapply Hsec; [|exact Hs]; clear Hsec; simpl;
         solve [ apply get_enter_keeps | apply get_scan_keeps | apply Put_keeps | by apply Shutdown_keeps
               | apply cleanExpired_keeps | by apply release_keeps
               | eapply (keeps_trans _ _ _ _ Idle); [by apply release_keeps|apply get_scan_keeps]
               | unfold Reload, Init, finish_cleaner; repeat case_match; keep ]);
    simplify_eq/=; (split; [intros x; csimpl; repeat case_decide; lia|wrap_sum]).
Qed.

(** ** The closing of the pool and the cleaner *)

Definition is_cleaner (p : pc) : bool :=
  match p with
  | CleanRead | CleanSelect _ | CleanEnter | CleanClose _ | CleanExit | CleanDone => true
  | _ => false
  end.

Definition shutting (p : pc) : bool := match p with ShutClose _ | ShutWait => true | _ => false end.

(** What a goroutine at [p] may rely on. *)
Definition flags_ok (l : List) (p : pc) : Prop :=
  closed l = cleanerStop l ∧ (closed l = true → idles l = []) ∧
  (p = CleanExit → cleanerStop l = true) ∧ (shutting p = true → closed l = true) ∧
  p ≠ Panicked ∧ (is_cleaner p = true → cleanerDone l = true ↔ p = CleanDone).

Lemma step_flags now a l p l' p' ev :
  flags_ok l p → thread_step now a l p = Some (l', p', ev) →
  flags_ok l' p' ∧ is_cleaner p' = is_cleaner p ∧ (closed l = true → closed l' = true) ∧
  (is_cleaner p = false → cleanerDone l' = cleanerDone l).
Proof.
  intros (Hs & Hi & He & Hsh & Hp & Hd) H.
  assert (Hrev : ∀ (x : item) k, reverse (x :: k) ≠ []).
  { intros x k E. apply (f_equal length) in E. by rewrite length_reverse in E. }
  destruct p, a; simpl in H; try discriminate;
    unfold get_enter, get_scan, get_rest, Put, Shutdown, cleanExpired, Reload, Init, finish_cleaner, runCleaner_read in H;
    repeat (case_match; simpl in *; try discriminate);
    simplify_eq/=; unfold flags_ok; simpl in *; try (by exfalso; eapply Hrev); clear Hrev;
    try match goal with H : closed ?l || _ = false |- _ => apply orb_false_elim in H as [] end;
    split_and!; intros; simplify_eq/=; auto; try congruence; try (split; intros; congruence); intuition congruence.
Qed.

(** Steps leave alone what they do not touch: the flags of another goroutine. *)
Lemma flags_other l l' p q :
  flags_ok l q → flags_ok l' p → (closed l = true → closed l' = true) →
  (is_cleaner q = true → cleanerDone l' = cleanerDone l) → flags_ok l' q.
Proof.
  intros (Hs & Hi & He & Hsh & Hp & Hd) (Hs' & Hi' & _) Hc Hdn. unfold flags_ok.
  split_and!; auto.
  - intros ->. rewrite <- Hs'. apply Hc. rewrite Hs. auto.
  - intros Hq. rewrite Hdn by done. auto.
Qed.

(** ** The invariant *)

Definition count (c : system) (N : nat) : nat :=
  length (idles (shared c)) + length (held c) + sum weight (threads c) N.

Record PoolInv (c : system) (N : nat) : Prop := {
  pi_pos : (0 < N)%nat;
  pi_fin t : (N <= t)%nat → threads c t = Idle;
  pi_res x : (occ x (made c) = occ x (res <$> idles (shared c)) + occ x (held c) + occ x (shut c)
               + sum (λ p, occ x (holds p)) (threads c) N)%nat;
  pi_once x : (occ x (made c) <= 1)%nat;
  pi_active : active (shared c) = wrapu 64 (Z.of_nat (count c N));
  pi_flags t : flags_ok (shared c) (threads c t);
  pi_role t : is_cleaner (threads c t) = bool_decide (t = 0%nat) }.

Lemma inv_more c N M : PoolInv c N → (N <= M)%nat → PoolInv c M.
Proof.
  intros [H1 H2 H3 H4 H5 H6 H7] HM. split; try done; try lia.
  - intros t Ht. apply H2. lia.
  - intros x. rewrite (sum_beyond (λ p, occ x (holds p)) (threads c) N M) by done. apply H3.
  - unfold count. by rewrite (sum_beyond weight (threads c) N M).
Qed.

Lemma inv_initial options : PoolInv (initial options) 1.
Proof.
  split; simpl.
  - lia.
  - intros t Ht. rewrite fn_lookup_insert_ne by lia. done.
  - done.
  - lia.
  - done.
  - intros t. destruct (decide (t = 0%nat)) as [->|]; [rewrite fn_lookup_insert|rewrite fn_lookup_insert_ne by done];
      split_and!; done.
  - intros t. destruct (decide (t = 0%nat)) as [->|]; [by rewrite fn_lookup_insert|].
    rewrite fn_lookup_insert_ne by done. by rewrite bool_decide_eq_false_2.
Qed.

Lemma inv_update c N t l' p' held' made' shut' :
  PoolInv c N → (t < N)%nat →
  (∀ x, occ x made' + (occ x (res <$> idles (shared c)) + occ x (held c) + occ x (shut c) + occ x (holds (threads c t)))
      = occ x (made c) + (occ x (res <$> idles l') + occ x held' + occ x shut' + occ x (holds p')))%nat →
  (∀ x, occ x made' <= 1)%nat →
  (∀ R, active (shared c) = wrapu 64 (Z.of_nat (length (idles (shared c)) + length (held c) + weight (threads c t)) + R) →
        active l' = wrapu 64 (Z.of_nat (length (idles l') + length held' + weight p') + R)) →
  flags_ok l' p' → is_cleaner p' = is_cleaner (threads c t) → (closed (shared c) = true → closed l' = true) →
  (is_cleaner p' = false → cleanerDone l' = cleanerDone (shared c)) →
  PoolInv (mkSys l' (<[t := p']> (threads c)) held' made' shut') N.
Proof.
  intros [H1 H2 H3 H4 H5 H6 H7] Ht Hres Honce Hact Hfl Hrole Hcl Hdn. split; simpl; try done.
  - intros u Hu. rewrite fn_lookup_insert_ne by lia. auto.
  - intros x. specialize (Hres x). specialize (H3 x).
    assert (Hsum := sum_insert (λ p, occ x (holds p)) (threads c) t p' N Ht). simpl in Hsum. lia.
  - assert (Hsum := sum_insert weight (threads c) t p' N Ht).
    assert (Hge := sum_ge weight (threads c) t N Ht). unfold count in *. simpl.
    rewrite (Hact (Z.of_nat (sum weight (threads c) N) - Z.of_nat (weight (threads c t)))); [|rewrite H5]; f_equal; lia.
  - intros u. destruct (decide (t = u)) as [<-|Hne]; [by rewrite fn_lookup_insert|]. rewrite fn_lookup_insert_ne by done.
    eapply flags_other; [apply H6|exact Hfl|done|]. intros Hu. apply Hdn. rewrite Hrole.
    rewrite H7 in Hu |- *. apply bool_decide_eq_true in Hu. subst u. by apply bool_decide_eq_false.
  - intros u. destruct (decide (t = u)) as [<-|Hne]; [by rewrite fn_lookup_insert, Hrole|by rewrite fn_lookup_insert_ne].
Qed.

Lemma inv_run c N t now a c' : PoolInv c N → (t < N)%nat → act c (ARun t now a) = Some c' → PoolInv c' N.
Proof.
  intros HI Ht H. simpl in H. apply bind_Some in H as ([[l p] ev] & Hs & H).
  destruct (step_flags _ _ _ _ _ _ _ (pi_flags c N HI t) Hs) as (Hfl & Hrole & Hcl & Hdn).
  destruct (step_keeps _ _ _ _ _ _ _ (proj1 (pi_flags c N HI t)) Hs) as (Hres & Hact).
  assert (Hact' : ∀ R, active (shared c) = wrapu 64 (Z.of_nat (length (idles (shared c)) + length (held c) + weight (threads c t)) + R) →
        active l = wrapu 64 (Z.of_nat (length (idles l) + length (held c) + weight p) + R)).
  { intros R HR. rewrite (Hact (Z.of_nat (length (held c)) + R)); [|rewrite HR]; f_equal; lia. }
  rewrite <- Hrole in Hdn. assert (Honce := pi_once c N HI).
  destruct ev as [[s|s]|]; simpl in Hres.
  - case_decide as Hm; [discriminate|]. simplify_eq. apply inv_update; try done.
    + intros x. specialize (Hres x). simpl. lia.
    + intros x. simpl. case_decide as E; [|apply Honce]. subst x. rewrite occ_elem in Hm. lia.
  - simplify_eq. apply inv_update; try done. intros x. specialize (Hres x). simpl. lia.
  - simplify_eq. apply inv_update; try done. intros x. specialize (Hres x). lia.
Qed.

Lemma inv_call c N t o c' : PoolInv c N → (t < N)%nat → act c (ACall t o) = Some c' → PoolInv c' N.
Proof.
  intros HI Ht H. simpl in H. destruct (threads c t) eqn:E; try discriminate.
  assert (Hfl := pi_flags c N HI t). assert (Honce := pi_once c N HI).
  rewrite E in Hfl. destruct Hfl as (Hs & Hi & _).
  assert (Hsame : ∀ q, holds q = [] → weight q = 0%nat → is_cleaner q = false → shutting q = false → q ≠ Panicked →
    PoolInv (mkSys (shared c) (<[t := q]> (threads c)) (held c) (made c) (shut c)) N).
  { intros q H1 H2 H3 H4 H5. apply inv_update; try done; rewrite ?E, ?H1, ?H2, ?H3; try done.
    unfold flags_ok. rewrite H3, H4. split_and!; try done. intros ->. done. }
  destruct o; try (simplify_eq; apply Hsame; done).
  case_decide as Hin; [|discriminate]. simplify_eq. assert (Hx := pi_res c N HI s). apply occ_elem in Hin.
  specialize (Honce s) as Hs1. assert (Hone : occ s (held c) = 1%nat) by lia.
  apply inv_update; try done; rewrite ?E; simpl; try done.
  - intros x. rewrite occ_filter. case_decide as Ex; [subst x|]; lia.
  - intros R HR. rewrite HR, (filter_occ s (held c)) by done. f_equal. lia.
Qed.

Lemma inv_return c N t c' : PoolInv c N → (t < N)%nat → act c (AReturn t) = Some c' → PoolInv c' N.
Proof.
  intros HI Ht H. simpl in H. assert (Hfl := pi_flags c N HI t). assert (Honce := pi_once c N HI).
  destruct (threads c t) eqn:E; try discriminate.
  destruct Hfl as (Hs & Hi & _).
  case_match; simplify_eq; apply inv_update; try done; rewrite ?E; simpl; try done.
  - intros x. lia.
  - intros R HR. rewrite HR. f_equal. lia.
Qed.

Definition actor (x : action) : nat := match x with ACall t _ | ARun t _ _ | AReturn t => t end.

Lemma inv_act c N x c' : PoolInv c N → act c x = Some c' → ∃ M, (N <= M)%nat ∧ (actor x < M)%nat ∧ PoolInv c M ∧ PoolInv c' M.
Proof.
  intros HI H. exists (N `max` S (actor x))%nat. assert (HI' := inv_more c N (N `max` S (actor x)) HI ltac:(lia)).
  split_and!; try done; try lia.
  destruct x as [t o|t now a|t]; simpl actor in *; [eapply inv_call|eapply inv_run|eapply inv_return]; try done; lia.
Qed.

Lemma inv_runs c N xs c' : PoolInv c N → run c xs = Some c' → ∃ M, PoolInv c' M.
Proof.
  revert c N. induction xs as [|x xs IH]; intros c N HI H; simpl in H; [simplify_eq; eauto|].
  apply bind_Some in H as (c1 & H1 & H2). destruct (inv_act c N x c1 HI H1) as (M & _ & _ & _ & HM). eauto.
Qed.

Lemma sum_two w ps t u n : t ≠ u → (t < n)%nat → (u < n)%nat → (w (ps t) + w (ps u) <= sum w ps n)%nat.
Proof.
  intros Hne Ht Hu. induction n as [|n IH]; [lia|]. simpl.
  destruct (decide (t = n)) as [->|], (decide (u = n)) as [->|]; try lia.
  - assert (H := sum_ge w ps u n ltac:(lia)). lia.
  - assert (H := sum_ge w ps t n ltac:(lia)). lia.
Qed.

(** ** Without Reload: the capacity and the waiters *)

Definition reloads (x : action) : bool := match x with ACall _ (OReload _) => true | _ => false end.
Definition reloading (p : pc) : bool := match p with ReloadEnter _ => true | _ => false end.

(** The pool is full, and everything it counts is with callers or under way. *)
Definition full (l : List) (n : Z) : Prop :=
  closed l = false ∧ idles l = [] ∧ 0 < max_active (conf l) ∧ n = max_active (conf l).

(** A goroutine that waits has not been woken only while the pool is full. *)
Definition waits_ok (l : List) (n : Z) (p : pc) : Prop :=
  match p with GetWait g => (g <= generation l)%nat ∧ (g = generation l → full l n) | _ => True end.

Definition fits (l : List) (n : Z) : Prop :=
  (0 < max_active (conf l) → n <= max_active (conf l)) ∧ Z.of_nat (length (idles l)) <= max_idle (conf l) ∧
  0 <= max_active (conf l) < 2 ^ 64.

(** What a step does, where [n] and [n'] are the numbers of resources counted. *)
Definition bounded (l : List) (n : Z) (l' : List) (n' : Z) (p' : pc) : Prop :=
  conf l' = conf l ∧ fits l' n' ∧ waits_ok l' n' p' ∧ (generation l <= generation l')%nat ∧
  (generation l' = generation l → full l n → full l' n').

Lemma wrapu_small n : 0 <= n < 2 ^ 64 → wrapu 64 n = n.
Proof. intros H. unfold wrapu. by rewrite Z.mod_small. Qed.

Lemma get_rest_bounded l n :
  0 <= n → idles l = [] ∨ n < max_active (conf l) ∨ max_active (conf l) = 0 → fits l n → active l = wrapu 64 n →
  bounded l n (get_rest l).1 (n + Z.of_nat (weight (get_rest l).2)) (get_rest l).2.
Proof.
  intros Hn Hi (Hcap & Hidle & Hrng) Ha.
  assert (Hact : 0 < max_active (conf l) → active l = n) by (intros H; rewrite Ha; apply wrapu_small; lia).
  unfold get_rest, bounded, fits, waits_ok, full. destruct (closed l) eqn:Ec.
  { simpl. rewrite Z.add_0_r. split_and!; try done; try lia; intros; destr_hyps; congruence. }
  destruct (Z.eqb_spec (max_active (conf l)) 0), (Z.ltb_spec (active l) (max_active (conf l))); simpl;
    [destruct (newf l)..|destruct (_ && _)]; simpl; rewrite ?Z.add_0_r, ?Ec;
    split_and!; try done; intros; destr_hyps; try lia; try (split_and!; try done; lia).
  destruct Hi; [split_and!; try done; lia|lia].
Qed.

Lemma get_scan_bounded l i n k :
  0 <= n → (i = 0 ∧ k = length (idles l))%nat ∨ n < max_active (conf l) ∨ max_active (conf l) = 0 → fits l n → active l = wrapu 64 n →
  let q := get_scan l i k in
  bounded l n q.1 (n + Z.of_nat (length (idles q.1)) - Z.of_nat (length (idles l)) + Z.of_nat (weight q.2)) q.2.
Proof.
  intros Hn Hor Hf Ha. assert (Hrest : idles l = [] ∨ n < max_active (conf l) ∨ max_active (conf l) = 0 →
    bounded l n (get_rest l).1 (n + Z.of_nat (length (idles (get_rest l).1)) - Z.of_nat (length (idles l)) + Z.of_nat (weight (get_rest l).2)) (get_rest l).2).
  { intros H. replace (idles (get_rest l).1) with (idles l) by (unfold get_rest; repeat case_match; done).
    replace (n + _ - _ + _) with (n + Z.of_nat (weight (get_rest l).2)) by lia. apply get_rest_bounded; done. }
  unfold get_scan. destruct (Nat.ltb_spec i k).
  - destruct (idles l) as [|ic ics] eqn:E; [apply Hrest; auto|]. simpl. destruct Hf as (Hc & Hid & Hr).
    unfold bounded, fits, waits_ok, full. simpl. rewrite E in *. simpl in *.
    split_and!; try done; try lia. intros _ (_ & ? & _). done.
  - apply Hrest. destruct Hor as [[-> ->]|]; [left; apply length_zero_iff_nil; lia|by right].
Qed.

Definition waiting (p : pc) : bool := match p with GetWait _ => true | _ => false end.

(** A step that notifies: only the bounds are left to show. *)
Lemma bounded_notify l n l' n' p' :
  conf l' = conf l → fits l n → n' <= n → (length (idles l') <= length (idles l))%nat ∨ Z.of_nat (length (idles l')) <= max_idle (conf l) →
  (generation l < generation l')%nat → waiting p' = false → bounded l n l' n' p'.
Proof.
  intros Hc (H1 & H2 & H3) Hn Hi Hg Hw. unfold bounded, fits. rewrite Hc.
  split_and!; try done; try lia. destruct p'; done.
Qed.

Lemma bounded_quiet l l' n n' p' :
  conf l' = conf l → generation l' = generation l → closed l' = closed l → idles l' = idles l →
  fits l n → n' = n → waiting p' = false → bounded l n l' n' p'.
Proof.
  intros H1 H2 H3 H4 Hf -> Hw. unfold bounded, fits, full. rewrite H1, H2, H3, H4.
  split_and!; try done; try apply Hf. destruct p'; done.
Qed.

Lemma bounded_same l n n' p' : fits l n → n' = n → waiting p' = false → bounded l n l n' p'.
Proof. by apply bounded_quiet. Qed.

Lemma bounded_eq l n l' n' n'' p' : bounded l n l' n' p' → n' = n'' → bounded l n l' n'' p'.
Proof. by intros H <-. Qed.

Lemma Put_bounded s force now l n R :
  n = Z.of_nat (length (idles l)) + 1 + R → fits l n → let q := Put s force now l in
  bounded l n q.1 (Z.of_nat (length (idles q.1)) + Z.of_nat (weight q.2) + R) q.2.
Proof.
  intros Hn Hf. unfold Put. destruct (closed l || force); [apply bounded_notify; simpl; auto; lia|].
  destruct (Z.ltb_spec (max_idle (conf l)) (Z.of_nat (length (mkItem now s :: idles l)))) as [Hlt|Hle].
  - destruct (reverse _) as [|e front] eqn:E.
    { apply (f_equal length) in E. by rewrite length_reverse in E. }
    apply reverse_last, (f_equal length) in E. rewrite length_app in E. simpl in E.
    apply bounded_notify; simpl; try done; try lia.
  - apply bounded_notify; simpl in *; try done; try lia.
Qed.

Lemma Shutdown_bounded l n R :
  n = Z.of_nat (length (idles l)) + R → fits l n → closed l = cleanerStop l → let q := Shutdown l in
  bounded l n q.1 (Z.of_nat (length (idles q.1)) + Z.of_nat (weight q.2) + R) q.2.
Proof.
  intros Hn Hf Hs. unfold Shutdown. destruct (closed l); [apply bounded_same; simpl; auto; lia|]. rewrite <- Hs.
  apply bounded_notify; simpl; auto; lia.
Qed.

Lemma cleanExpired_bounded now l n R :
  n = Z.of_nat (length (idles l)) + R → fits l n → let q := cleanExpired now l in
  bounded l n q.1 (Z.of_nat (length (idles q.1)) + Z.of_nat (weight q.2) + R) q.2.
Proof.
  intros Hn Hf. unfold cleanExpired. destruct (closed l || _); [apply bounded_same; simpl; auto; lia|].
  assert (H := clean_loop_keeps (idleTimeout (conf l)) now (reverse (idles l)) 0).
  destruct (clean_loop _ now 0 (reverse (idles l))) as [sh live]. destruct H as [_ H2]. rewrite length_reverse in H2.
  destruct sh as [|s sh]; [apply bounded_same; simpl; auto; lia|].
  apply bounded_notify; cbn [fst snd idles notifyLocked add_active set_idles weight conf generation]; rewrite ?length_reverse; auto; lia.
Qed.

Lemma release_scan_bounded l n i k R :
  n = Z.of_nat (length (idles l)) + 1 + R → 0 <= R → fits l n → active l = wrapu 64 n →
  let q := get_scan (releaseLocked l) (S i) k in
  bounded l n q.1 (Z.of_nat (length (idles q.1)) + Z.of_nat (weight q.2) + R) q.2.
Proof.
  intros Hn HR (H1 & H2 & H3) Ha.
  assert (Hb := get_scan_bounded (releaseLocked l) (S i) (n - 1) k). simpl in Hb.
  destruct Hb as (Hc & Hf & Hw & Hg & Hfull).
  - lia.
  - lia.
  - unfold fits. simpl. split_and!; try done; lia.
  - unfold wrapu. rewrite Ha. unfold wrapu. rewrite Zplus_mod_idemp_l. f_equal.
  - change (generation (releaseLocked l)) with (S (generation l)) in Hg.
    match type of Hf with fits _ ?m => apply (bounded_eq _ _ _ m); [|lia] end.
    unfold bounded. split_and!; [exact Hc|exact Hf|exact Hw|lia|intros; lia].
Qed.

Lemma step_bounded now a l p l' p' ev n R :
  n = Z.of_nat (length (idles l)) + Z.of_nat (weight p) + R → 0 <= R → fits l n → active l = wrapu 64 n →
  closed l = cleanerStop l → reloading p = false → thread_step now a l p = Some (l', p', ev) →
  bounded l n l' (Z.of_nat (length (idles l')) + Z.of_nat (weight p') + R) p'.
Proof.
  intros Hn HR Hf Ha Hc Hr Hs.
  assert (Hsec : ∀ q, (q, None) = (l', p', ev) →
    bounded l n q.1 (Z.of_nat (length (idles q.1)) + Z.of_nat (weight q.2) + R) q.2 →
    bounded l n l' (Z.of_nat (length (idles l')) + Z.of_nat (weight p') + R) p') by (by intros q [= -> <-]).
  assert (Hscan : weight p = 0%nat → let q := get_scan l 0 (length (idles l)) in
    bounded l n q.1 (Z.of_nat (length (idles q.1)) + Z.of_nat (weight q.2) + R) q.2).
  { intros Hw. eapply bounded_eq; [apply get_scan_bounded; auto; lia|]. lia. }
  destruct p, a; simpl in Hs; try discriminate; repeat case_match; try discriminate; apply (inj Some) in Hs; simpl in Hn;
    try (eapply Hsec; [exact Hs|]; clear Hsec;
         solve [ unfold get_enter; destruct (closed l); [apply bounded_same; simpl; auto; lia|by apply Hscan]
               | by apply Hscan | by apply release_scan_bounded | by apply Put_bounded
               | apply Shutdown_bounded; auto; lia | apply cleanExpired_bounded; auto; lia
               | apply bounded_notify; simpl; auto; lia ]);
    unfold Init, finish_cleaner in Hs; repeat case_match; simplify_eq/=;
    apply bounded_quiet; simpl; auto; lia.
Qed.

Record CapInv (cf : config) (c : system) (N : nat) : Prop := {
  ci_inv : PoolInv c N;
  ci_conf : conf (shared c) = cf;
  ci_fits : fits (shared c) (Z.of_nat (count c N));
  ci_calm t : reloading (threads c t) = false;
  ci_waits t : waits_ok (shared c) (Z.of_nat (count c N)) (threads c t) }.

Lemma cap_more cf c N M : CapInv cf c N → (N <= M)%nat → CapInv cf c M.
Proof.
  intros [HI H1 H2 H3 H4] HM. assert (Hc : count c M = count c N).
  { unfold count. rewrite (sum_beyond weight (threads c) N M); [done..| |done]. apply (pi_fin c N HI). }
  split; rewrite ?Hc; try done. by apply (inv_more c N).
Qed.

(** A step of goroutine [t] that takes the count from [n] to [n']. *)
Lemma cap_update cf c N t l' p' held' made' shut' :
  CapInv cf c N → let c' := mkSys l' (<[t := p']> (threads c)) held' made' shut' in
  PoolInv c' N → reloading p' = false →
  bounded (shared c) (Z.of_nat (count c N)) l' (Z.of_nat (count c' N)) p' → CapInv cf c' N.
Proof.
  intros [HI H1 H2 H3 H4] c' HI' Hr (Hc & Hf & Hw & Hg & Hfull). split; try done.
  - simpl. by rewrite Hc.
  - intros u. simpl. destruct (decide (t = u)) as [<-|]; [by rewrite fn_lookup_insert|by rewrite fn_lookup_insert_ne].
  - intros u. simpl. destruct (decide (t = u)) as [<-|]; [by rewrite fn_lookup_insert|]. rewrite fn_lookup_insert_ne by done.
    specialize (H4 u). unfold waits_ok in *. destruct (threads c u); try done. destruct H4 as [Hle Hwait].
    split; [lia|]. intros ->. apply Hfull; [lia|]. apply Hwait. lia.
Qed.

(** The count moves with the idle ones, those held and the acting goroutine. *)
Lemma count_update c N t l' p' held' made' shut' :
  (t < N)%nat →
  (count (mkSys l' (<[t := p']> (threads c)) held' made' shut') N + (length (idles (shared c)) + length (held c) + weight (threads c t))
   = count c N + (length (idles l') + length held' + weight p'))%nat.
Proof. intros Ht. unfold count. simpl. assert (H := sum_insert weight (threads c) t p' N Ht). lia. Qed.

Lemma step_calm now a l p l' p' ev : thread_step now a l p = Some (l', p', ev) → reloading p' = false.
Proof.
  intros H. destruct p, a; simpl in H; try discriminate;
    unfold get_enter, get_scan, get_rest, Put, Shutdown, cleanExpired, finish_cleaner in H;
    repeat (case_match; simpl in *; try discriminate); by simplify_eq/=.
Qed.

Lemma cap_run cf c N t now a c' : CapInv cf c N → (t < N)%nat → act c (ARun t now a) = Some c' → CapInv cf c' N.
Proof.
  intros HC Ht H. assert (HI := ci_inv cf c N HC). assert (HI' := inv_run c N t now a c' HI Ht H).
  simpl in H. apply bind_Some in H as ([[l p] ev] & Hs & H).
  assert (Hw := sum_ge weight (threads c) t N Ht). assert (Hcalm := step_calm _ _ _ _ _ _ _ Hs).
  assert (Hb := step_bounded now a (shared c) (threads c t) l p ev (Z.of_nat (count c N))
    (Z.of_nat (count c N) - Z.of_nat (length (idles (shared c))) - Z.of_nat (weight (threads c t))) ltac:(lia) ltac:(unfold count in *; lia)
    (ci_fits cf c N HC) (pi_active c N HI) (proj1 (pi_flags c N HI t)) (ci_calm cf c N HC t) Hs).
  destruct ev as [[s|s]|]; [case_decide; [done|]| |]; simplify_eq; apply cap_update; try done;
    (eapply bounded_eq; [exact Hb|]); (match goal with |- _ = Z.of_nat (count (mkSys ?a ?b ?d ?e ?g) _) =>
       assert (Hu := count_update c N t a p d e g Ht) end); lia.
Qed.

Lemma cap_call cf c N t o c' : CapInv cf c N → (t < N)%nat → reloads (ACall t o) = false → act c (ACall t o) = Some c' → CapInv cf c' N.
Proof.
  intros HC Ht Hr H. assert (HI := ci_inv cf c N HC). assert (HI' := inv_call c N t o c' HI Ht H). simpl in H.
  destruct (threads c t) eqn:E; try discriminate.
  destruct o; try done; try (case_decide as Hin; [|discriminate]); simplify_eq; apply cap_update; try done;
    (apply bounded_same; [apply (ci_fits cf c N HC)| |done]); (match goal with |- Z.of_nat (count (mkSys ?a (<[_ := ?q]> _) ?d ?e ?g) _) = _ =>
       assert (Hu := count_update c N t a q d e g Ht) end); rewrite E in Hu; simpl in *; try lia.
  rewrite (filter_occ s (held c)) in Hu; [lia|]. assert (H1 := pi_res c N HI s). assert (H2 := pi_once c N HI s).
  apply occ_elem in Hin. lia.
Qed.

Lemma cap_return cf c N t c' : CapInv cf c N → (t < N)%nat → act c (AReturn t) = Some c' → CapInv cf c' N.
Proof.
  intros HC Ht H. assert (HI := ci_inv cf c N HC). assert (HI' := inv_return c N t c' HI Ht H). simpl in H.
  destruct (threads c t) eqn:E; try discriminate. case_match; simplify_eq; apply cap_update; try done;
    (apply bounded_same; [apply (ci_fits cf c N HC)| |done]); (match goal with |- Z.of_nat (count (mkSys ?a (<[_ := ?q]> _) ?d ?e ?g) _) = _ =>
       assert (Hu := count_update c N t a q d e g Ht) end); rewrite E in Hu; simpl in *; lia.
Qed.

Lemma options_range os : let c := foldl set_option defaultConfig os in 0 <= max_active c < 2 ^ 64 ∧ 0 <= max_idle c.
Proof.
  assert (H : ∀ c, 0 <= max_active c < 2 ^ 64 ∧ 0 <= max_idle c →
    0 <= max_active (foldl set_option c os) < 2 ^ 64 ∧ 0 <= max_idle (foldl set_option c os)); [|by apply H].
  induction os as [|o os IH]; intros c Hc; [done|]. apply IH.
  destruct o as [a|i|d|w d]; simpl; try done; [assert (Hr := wrapu_range 64 a)|assert (Hr := wrapu_range 64 i)]; lia.
Qed.

Lemma cap_initial options : CapInv (foldl set_option defaultConfig options) (initial options) 1.
Proof.
  destruct (options_range options) as [H1 H2]. split; try done.
  - apply inv_initial.
  - unfold fits. change (count (initial options) 1) with 0%nat. simpl. lia.
  - intros t. simpl. destruct (decide (t = 0%nat)) as [->|]; [by rewrite fn_lookup_insert|by rewrite fn_lookup_insert_ne].
  - intros t. simpl. destruct (decide (t = 0%nat)) as [->|]; [by rewrite fn_lookup_insert|by rewrite fn_lookup_insert_ne].
Qed.

Lemma cap_runs cf c N xs c' :
  CapInv cf c N → run c xs = Some c' → forallb (λ x, negb (reloads x)) xs = true → ∃ M, CapInv cf c' M.
Proof.
  revert c N. induction xs as [|x xs IH]; intros c N HC H Hr; simpl in *; [simplify_eq; eauto|].
  apply bind_Some in H as (c1 & H1 & H2). apply andb_true_iff in Hr as [Hx Hr]. apply negb_true_iff in Hx.
  assert (HC' := cap_more cf c N (N `max` S (actor x)) HC ltac:(lia)).
  apply (IH c1 (N `max` S (actor x))%nat); try done.
  destruct x as [t o|t now a|t]; simpl actor in *; [eapply cap_call|eapply cap_run|eapply cap_return]; try done; lia.
Qed.

(** ** Theorems *)

(** The goroutine can go on without its context being cancelled. *)
Definition enabled (c : system) (t : nat) : Prop :=
  (∃ now a, a ≠ ECtxDone ∧ is_Some (act c (ARun t now a))) ∨ is_Some (act c (AReturn t)).

Lemma enabled_step c t a r : a ≠ ECtxDone → thread_step (λ _, 0) a (shared c) (threads c t) = Some r →
  (∀ s, r.2 ≠ Some (Made s)) → enabled c t.
Proof.
  intros Ha Hs Hm. left. exists (λ _, 0), a. split; [done|]. simpl. rewrite Hs. destruct r as [[l p] [[s|s]|]]; simpl; eauto.
  by destruct (Hm s).
Qed.

(** What a goroutine of the pool waits for when it cannot go on. *)
Lemma blocked c N t : PoolInv c N → threads c t ≠ Idle → t ≠ 0%nat →
  enabled c t ∨ threads c t = GetWait (generation (shared c)) ∨ (∃ g, threads c t = GetWait g ∧ (generation (shared c) < g)%nat) ∨
  (threads c t = ShutWait ∧ cleanerDone (shared c) = false).
Proof.
  intros HI Hne H0. assert (Hrole := pi_role c N HI t). rewrite bool_decide_eq_false_2 in Hrole by done.
  destruct (pi_flags c N HI t) as (_ & _ & _ & _ & Hp & _).
  destruct (threads c t) as [|r| | | | | | | |g| | | | |ss| | | | | | | | | |] eqn:E; try done;
    try (left; eapply (enabled_step c t EGo); [done|by rewrite E|done]);
    try (left; eapply (enabled_step c t EFailed); [done|by rewrite E|done]).
  - left. right. simpl. rewrite E. destruct r; eauto.
  - destruct (lt_eq_lt_dec g (generation (shared c))) as [[Hlt| ->]|]; [|by auto|right; right; left; by eauto].
    left. eapply (enabled_step c t EGo (shared c, GetAgain, None)); [done| |done]. rewrite E. simpl. by apply Nat.ltb_lt in Hlt as ->.
  - destruct ss; left; (eapply (enabled_step c t EGo); [done|by rewrite E|done]).
  - destruct (cleanerDone (shared c)) eqn:Ed; [|auto]. left.
    eapply (enabled_step c t EGo (shared c, Done ROk, None)); [done| |done]. rewrite E. simpl. by rewrite Ed.
Qed.

(** The cleaner goes on once the pool is closed. *)
Lemma cleaner_enabled c N : PoolInv c N → closed (shared c) = true → cleanerDone (shared c) = false → enabled c 0.
Proof.
  intros HI Hc Hd. assert (Hrole : is_cleaner (threads c 0%nat) = true) by (by rewrite (pi_role c N HI)). destruct (pi_flags c N HI 0) as (Hs & _ & _ & _ & _ & Hdone).
  destruct (threads c 0%nat) as [| | | | | | | | | | | | | | | | | | | | | |ss| |] eqn:E; try done;
    try (eapply (enabled_step c 0 EGo); [done|by rewrite E|done]).
  - eapply (enabled_step c 0 EStop (shared c, CleanExit, None)); [done| |done]. rewrite E. simpl. by rewrite <- Hs, Hc.
  - destruct ss; (eapply (enabled_step c 0 EGo); [done|by rewrite E|done]).
  - rewrite (proj2 (Hdone eq_refl)) in Hd; done.
Qed.

(** A resource is in one place: with a caller, idle, in the hand of one goroutine of the pool, or shut down. *)
Lemma places c N x : PoolInv c N →
  (occ x (res <$> idles (shared c)) + occ x (held c) + occ x (shut c) + sum (λ p, occ x (holds p)) (threads c) N <= 1)%nat ∧
  ∀ t, (x ∈ holds (threads c t) → 0 < sum (λ p, occ x (holds p)) (threads c) N)%nat.
Proof.
  intros HI. assert (H1 := pi_res c N HI x). assert (H2 := pi_once c N HI x). split; [lia|]. intros t Hx.
  apply occ_elem in Hx. destruct (decide (t < N)%nat) as [Ht|Ht].
  - assert (H := sum_ge (λ p, occ x (holds p)) (threads c) t N Ht). simpl in H. lia.
  - rewrite (pi_fin c N HI t) in Hx by lia. simpl in Hx. lia.
Qed.

(** C20: In every interleaving of calls of Get, Put, Shutdown, Reload, New and Init
    with the cleaner, whatever the creating function, the contexts and the clock
    do, provided callers put back only what they hold: no resource is with two
    callers or shut down twice; one that a caller holds is neither idle nor shut
    down, and an idle one is not shut down; what a goroutine of the pool has in
    hand is nowhere else; every created resource is with a caller, idle, in the
    hand of a goroutine, or shut down; a closed pool has no idle resource, and
    when nothing is held or in hand all its resources have been shut down; the
    counter is the number of resources modulo 2^64; and no channel is closed
    twice. *)
Theorem pool_resources options xs c : run (initial options) xs = Some c →
  let idle := res <$> idles (shared c) in
  NoDup (held c) ∧ NoDup (shut c) ∧ NoDup idle ∧
  (∀ x, x ∈ held c → x ∉ idle ∧ x ∉ shut c) ∧ (∀ x, x ∈ idle → x ∉ shut c) ∧
  (∀ t x, x ∈ holds (threads c t) → x ∉ held c ∧ x ∉ idle ∧ x ∉ shut c ∧ ∀ u, x ∈ holds (threads c u) → u = t) ∧
  (∀ x, x ∈ made c ↔ x ∈ held c ∨ x ∈ idle ∨ x ∈ shut c ∨ ∃ t, x ∈ holds (threads c t)) ∧
  (closed (shared c) = true → idle = [] ∧
    (held c = [] → (∀ t, holds (threads c t) = []) → ∀ x, x ∈ made c → x ∈ shut c)) ∧
  (∃ N, (∀ t, N <= t → threads c t = Idle)%nat ∧ active (shared c) = wrapu 64 (Z.of_nat (count c N))) ∧
  (∀ t, threads c t ≠ Panicked).
Proof.
  intros H idle. destruct (inv_runs _ _ _ _ (inv_initial options) H) as [N HI].
  assert (Hp := λ x, places c N x HI).
  assert (Hmade : ∀ x, x ∈ made c ↔ x ∈ held c ∨ x ∈ idle ∨ x ∈ shut c ∨ ∃ t, x ∈ holds (threads c t)).
  { intros x. destruct (Hp x) as [_ Hx]. assert (Hr := pi_res c N HI x). rewrite !occ_elem. split.
    - intros Hm. destruct (decide (0 < sum (λ p, occ x (holds p)) (threads c) N)%nat) as [Hs|Hs].
      + destruct (sum_pos _ _ _ Hs) as (t & _ & Ht). do 3 right. exists t. by apply occ_elem.
      + unfold idle. lia.
    - unfold idle. intros [?|[?|[?|[t Ht]]]]; try lia. specialize (Hx t Ht). lia. }
  split_and!; [apply occ_NoDup; intros x; destruct (Hp x); subst idle; lia..| | | |done| | |].
  - intros x Hx. rewrite occ_elem in Hx. rewrite !occ_elem. destruct (Hp x). subst idle. split; lia.
  - intros x Hx. rewrite occ_elem in Hx. rewrite !occ_elem. destruct (Hp x). subst idle. lia.
  - intros t x Hx. destruct (Hp x) as [H1 Hpos]. specialize (Hpos t Hx). unfold idle. rewrite !occ_elem. split_and!; try lia.
    intros u Hu. rewrite occ_elem in Hu, Hx. destruct (decide (u = t)) as [|Hne]; [done|].
    destruct (decide (t < N)%nat); [|rewrite (pi_fin c N HI t) in Hx by lia; simpl in Hx; lia].
    destruct (decide (u < N)%nat); [|rewrite (pi_fin c N HI u) in Hu by lia; simpl in Hu; lia].
    assert (H2 := sum_two (λ p, occ x (holds p)) (threads c) u t N Hne ltac:(lia) ltac:(lia)). simpl in H2. lia.
  - intros Hc. destruct (pi_flags c N HI 0) as (_ & Hi & _). assert (He : idle = []) by (unfold idle; by rewrite Hi).
    split; [done|]. intros Hh Ht x Hx. apply Hmade in Hx. rewrite Hh, He in Hx.
    destruct Hx as [Hx|[Hx|[Hx|[t Hx]]]]; [by apply elem_of_nil in Hx..|done|]. rewrite Ht in Hx. by apply elem_of_nil in Hx.
  - exists N. split; [apply (pi_fin c N HI)|apply (pi_active c N HI)].
  - intros t. by destruct (pi_flags c N HI t) as (_ & _ & _ & _ & Hpc & _).
Qed.

(** C21: While the configuration stays, the pool never counts more resources than
    its capacity, and its counter counts them exactly; it keeps at most the
    configured number idle; and no wake-up is lost: a goroutine inside an
    operation can go on without its context being cancelled, unless it waits in
    Get for a pool that is open, has no idle resource and has its whole capacity
    with callers or under way, or waits in Shutdown for the cleaner, which then
    can go on. *)
Theorem pool_progress options xs c :
  run (initial options) xs = Some c → forallb (λ x, negb (reloads x)) xs = true →
  let cf := foldl set_option defaultConfig options in
  ∃ N, (∀ t, N <= t → threads c t = Idle)%nat ∧
  (0 < max_active cf → Z.of_nat (count c N) <= max_active cf ∧ active (shared c) = Z.of_nat (count c N)) ∧
  Z.of_nat (length (idles (shared c))) <= max_idle cf ∧
  ∀ t, t ≠ 0%nat → threads c t ≠ Idle →
    enabled c t ∨ ((∃ g, threads c t = GetWait g) ∧ full (shared c) (Z.of_nat (count c N)))
    ∨ (threads c t = ShutWait ∧ enabled c 0).
Proof.
  intros H Hr cf. destruct (cap_runs _ _ _ _ _ (cap_initial options) H Hr) as [N HC]. fold cf in HC.
  assert (HI := ci_inv cf c N HC). destruct (ci_fits cf c N HC) as (H1 & H2 & H3). rewrite (ci_conf cf c N HC) in H1, H2, H3.
  exists N. split_and!; [apply (pi_fin c N HI)| |done|].
  - intros Hpos. split; [auto|]. rewrite (pi_active c N HI). apply wrapu_small. specialize (H1 Hpos). lia.
  - intros t H0 Hne. assert (Hw := ci_waits cf c N HC t).
    destruct (blocked c N t HI Hne H0) as [?|[E|[(g & E & Hg)|[E Hd]]]]; [by left|..]; rewrite E in Hw; simpl in Hw.
    + right. left. split; [eauto|]. by apply Hw.
    + lia.
    + right. right. split; [done|]. eapply cleaner_enabled; [done| |done].
      destruct (pi_flags c N HI t) as (_ & _ & _ & Hsh & _). rewrite E in Hsh. by apply Hsh.
Qed.

(** A pool of capacity one: goroutine 1 gets the only resource, goroutine 2 waits
    for it, is woken when it is put back, and gets it. *)
Definition hand_over : list action :=
  let go t := ARun t (λ _, 0) EGo in
  [ACall 1 (ONew true); go 1%nat; AReturn 1; ACall 1 OGet; go 1%nat; ARun 1 (λ _, 0) (ECreated 7); AReturn 1;
   ACall 2 OGet; go 2%nat; ACall 1 (OPut 7 false); go 1%nat; go 2%nat; go 2%nat; go 2%nat].

Definition one : list Option := [SetActive 1; SetWait true 0].

(** What a run reaches, seen through [f]. *)
Lemma run_view {V} (f : system → V) options xs v :
  f <$> run (initial options) xs = Some v → ∃ c, run (initial options) xs = Some c ∧ f c = v.
Proof. intros H. apply fmap_Some in H as (c & Hc & ->). eauto. Qed.

Lemma pool_resources_witness : ∃ c, run (initial one) hand_over = Some c ∧ threads c 2%nat = Done (RGot 7) ∧ NoDup (shut c).
Proof.
  destruct (run_view (λ c, threads c 2%nat) one hand_over (Done (RGot 7))) as (c & Hc & Ht); [vm_compute; reflexivity|].
  exists c. split; [exact Hc|]. split; [exact Ht|]. apply (pool_resources one hand_over c Hc).
Defined.

Lemma pool_progress_witness :
  ∃ c, run (initial one) (take 9 hand_over) = Some c ∧ threads c 2%nat = GetWait 0 ∧
    ∃ N, (∀ t, N <= t → threads c t = Idle)%nat ∧ Z.of_nat (count c N) <= 1.
Proof.
  destruct (run_view (λ c, threads c 2%nat) one (take 9 hand_over) (GetWait 0)) as (c & Hc & Ht); [vm_compute; reflexivity|].
  exists c. split; [exact Hc|]. split; [exact Ht|].
  destruct (pool_progress one (take 9 hand_over) c Hc eq_refl) as (N & Hfin & Hcap & _). exists N. split; [exact Hfin|].
  apply Hcap. reflexivity.
Defined.

(** With Reload a wake-up can be lost: goroutine 2 takes an expired resource, and
    before it is back in its section the capacity is lowered and another resource
    is put back.  It then waits while that resource is idle. *)
Definition lowered : list action :=
  let go t now := ARun t (λ _, now) EGo in
  [ACall 1 (ONew true); go 1%nat 0; AReturn 1;
   ACall 1 OGet; go 1%nat 0; ARun 1 (λ _, 0) (ECreated 1); AReturn 1;
   ACall 1 OGet; go 1%nat 0; ARun 1 (λ _, 0) (ECreated 2); AReturn 1;
   ACall 1 (OPut 1 false); go 1%nat 0; AReturn 1;
   ACall 2 OGet; go 2%nat 100; go 2%nat 100; go 2%nat 100;
   ACall 1 (OReload [SetActive 1]); go 1%nat 100; AReturn 1;
   ACall 1 (OPut 2 false); go 1%nat 100; AReturn 1; go 2%nat 100].

Example reload_strands_waiter : ∃ c, run (initial [SetActive 2; SetIdleTimeout 10; SetWait true 0]) lowered = Some c ∧
  threads c 2%nat = GetWait (generation (shared c)) ∧ threads c 1%nat = Idle ∧ closed (shared c) = false ∧
  idles (shared c) = [mkItem 100 2].
Proof.
  destruct (run_view (λ c, (threads c 2%nat, generation (shared c), threads c 1%nat, closed (shared c), idles (shared c)))
    [SetActive 2; SetIdleTimeout 10; SetWait true 0] lowered (GetWait 4, 4%nat, Idle, false, [mkItem 100 2]))
    as (c & Hc & Hv); [vm_compute; reflexivity|].
  exists c. split; [exact Hc|]. clear Hc. injection Hv as H1 H2 H3 H4 H5. by rewrite H1, H2, H3, H4, H5.
Qed.
