(* ===== verification/RollingStat.v ===== *)
(** * Rolling statistics: src/internal/stat

    A ring of buckets, each for a span of time: adding a value first empties the
    buckets whose time has passed, and reading aggregates the buckets that are
    still in the window.  The file translates window.go, rolling_policy.go,
    iterator.go, reduce.go and rolling_counter.go; every method holds the policy's
    lock, and the instant at which it reads the clock is an argument.  Reduce
    copies the buckets before it calls its function, so the function works on a
    snapshot.

    The theorems: whatever is added at whatever (non-decreasing) instants, Reduce
    sees, from the oldest to the newest, one bucket per span of the window up to
    the last addition, each with just what was added in that span; the aggregates
    follow, and Value is exactly the sum of what was added within the window. *)

From Stdlib Require Import SpecFloat Sorted ZifyBool.
From S2P Require Import Prelude GoFloat GoNumber.
Local Open Scope Z_scope.

Definition f64_div (x y : float64) : float64 := SFdiv 53 1024 x y.

(** ** window.go *)

(** The field next is the index of a bucket of the same slice. *)
Record Bucket := mkBucket { Points : list float64; Count : Z; next : nat }.

Definition Append (b : Bucket) (val : float64) : Bucket :=
  mkBucket (Points b ++ [val]) (wraps 64 (Count b + 1)) (next b).

Definition Add (b : Bucket) (offset : nat) (val : float64) : option Bucket :=
  p ← Points b !! offset;
  Some (mkBucket (<[offset := f64_add p val]> (Points b)) (wraps 64 (Count b + 1)) (next b)).

Definition Reset (b : Bucket) : Bucket := mkBucket [] 0 (next b).

Record Window := mkWindow { window : list Bucket; wsize : Z }.

(** [make] panics on a negative length. *)
Definition NewWindow (size : Z) : option Window :=
  if size <? 0 then None
  else Some (mkWindow ((λ offset, mkBucket [] 0 (if (S offset =? Z.to_nat size)%nat then 0%nat else S offset)) <$> seq 0 (Z.to_nat size)) size).

(** [w.window[offset]], and the write back through it. *)
Definition at_bucket (w : Window) (offset : Z) (f : Bucket → option Bucket) : option Window :=
  if offset <? 0 then None
  else b ← window w !! Z.to_nat offset; b' ← f b; Some (mkWindow (<[Z.to_nat offset := b']> (window w)) (wsize w)).

Definition ResetBucket (w : Window) (offset : Z) : option Window := at_bucket w offset (λ b, Some (Reset b)).

Fixpoint ResetBuckets (w : Window) (offsets : list Z) : option Window :=
  match offsets with [] => Some w | o :: os => w' ← ResetBucket w o; ResetBuckets w' os end.

Definition ResetWindow (w : Window) : option Window := ResetBuckets w (Z.of_nat <$> seq 0 (length (window w))).

Definition Window_Append (w : Window) (offset : Z) (val : float64) : option Window :=
  at_bucket w offset (λ b, Some (Append b val)).

Definition Window_Add (w : Window) (offset : Z) (val : float64) : option Window :=
  at_bucket w offset (λ b, if Count b =? 0 then Some (Append b val) else Add b 0 val).

(** ** iterator.go *)

Record Iterator := mkIter { buckets : list Bucket; count : Z; iteratedCount : Z; cur : nat }.

Definition Next (i : Iterator) : bool := negb (count i =? iteratedCount i).

Definition Iterator_Bucket (i : Iterator) : option (Bucket * Iterator) :=
  if negb (Next i) then None
  else b ← buckets i !! cur i; Some (b, mkIter (buckets i) (count i) (wraps 64 (iteratedCount i + 1)) (next b)).

(** ** reduce.go *)

(** The loop [for iterator.Next() { bucket := iterator.Bucket(); ... }]. *)
Fixpoint each {A} (fuel : nat) (body : A → Bucket → A) (i : Iterator) (a : A) : option A :=
  if Next i then
    match fuel with
    | O => None
    | S fuel => '(b, i') ← Iterator_Bucket i; each fuel body i' (body a b)
    end
  else Some a.

Definition loop {A} (body : A → Bucket → A) (i : Iterator) (a : A) : option A := each (length (buckets i)) body i a.

Definition Sum (i : Iterator) : option float64 := loop (λ r b, foldl f64_add r (Points b)) i f64_zero.

Definition Avg (i : Iterator) : option float64 :=
  '(result, n) ← loop (λ r b, foldl (λ '(result, n) p, (f64_add result p, f64_add n (f64_of_Z 1))) r (Points b)) i (f64_zero, f64_zero);
  Some (f64_div result n).

Definition pick (better : float64 → float64 → bool) (r : float64 * bool) (p : float64) : float64 * bool :=
  let '(result, started) := r in
  if negb started then (p, true) else if better p result then (p, true) else (result, true).

Definition Min (i : Iterator) : option float64 := fst <$> loop (λ r b, foldl (pick flt) r (Points b)) i (f64_zero, false).
Definition Max (i : Iterator) : option float64 := fst <$> loop (λ r b, foldl (pick fgt) r (Points b)) i (f64_zero, false).
Definition Count_of (i : Iterator) : option float64 := f64_of_Z <$> loop (λ r b, wraps 64 (r + Count b)) i 0.

(** ** rolling_policy.go *)

Record RollingPolicy := mkPolicy { size : Z; win : Window; offset : Z; bucketDuration : Z; lastAppendTime : Z }.

Definition NewRollingPolicy (w : Window) (d now : Z) : RollingPolicy := mkPolicy (wsize w) w 0 d now.

(** [time.Since]: the difference, saturated to a Duration. *)
Definition since (now last : Z) : Z := Z.min MaxInt64 (Z.max MinInt64 (now - last)).

(** No result: a division by zero panics. *)
Definition timespan (now : Z) (r : RollingPolicy) : option Z :=
  if bucketDuration r =? 0 then None
  else
    let v := wraps 64 (Z.quot (since now (lastAppendTime r)) (bucketDuration r)) in
    Some (if -1 <? v then v else size r).

(** [for i := from; i < to; i++ { r.window.ResetBucket(i); offset = i }] *)
Fixpoint reset_loop (n : nat) (i : Z) (w : Window) (offset : Z) : option (Window * Z) :=
  match n with
  | O => Some (w, offset)
  | S n => w' ← ResetBucket w i; reset_loop n (i + 1) w' i
  end.

Definition advance (now : Z) (r : RollingPolicy) : option RollingPolicy :=
  span ← timespan now r;
  if 0 <? span then
    let last := lastAppendTime r + wraps 64 (span * bucketDuration r) in
    let s := int_add (offset r) 1 in
    let span := if size r <? span then size r else span in
    let e := int_add s span in
    let '(e, e1) := if size r <? e then (size r, int_sub e (size r)) else (e, 0) in
    '(w, o) ← reset_loop (Z.to_nat (e - s)) s (win r) (offset r);
    '(w, o) ← reset_loop (Z.to_nat e1) 0 w o;
    Some (mkPolicy (size r) w o (bucketDuration r) last)
  else Some r.

Definition add (now : Z) (f : Window → Z → float64 → option Window) (val : float64) (r : RollingPolicy) : option RollingPolicy :=
  r ← advance now r;
  w ← f (win r) (offset r) val;
  Some (mkPolicy (size r) w (offset r) (bucketDuration r) (lastAppendTime r)).

Definition Policy_Append (now : Z) (val : float64) (r : RollingPolicy) : option RollingPolicy := add now Window_Append val r.
Definition Policy_Add (now : Z) (val : float64) (r : RollingPolicy) : option RollingPolicy := add now Window_Add val r.

(** The copies of [n] buckets from [source] on, chained one to the next. *)
Fixpoint copy_loop (n : nat) (i : nat) (w : Window) (source : nat) : option (list Bucket) :=
  match n with
  | O => Some []
  | S n =>
      b ← window w !! source;
      rest ← copy_loop n (S i) w (next b);
      Some (mkBucket (Points b) (Count b) (match n with O => 0%nat | S _ => S i end) :: rest)
  end.

Definition Reduce (now : Z) (f : Iterator → option float64) (r : RollingPolicy) : option float64 :=
  span ← timespan now r;
  let n := int_sub (size r) span in
  if 0 <? n then
    let o := int_add (int_add (offset r) span) 1 in
    let o := if size r <=? o then int_sub o (size r) else o in
    if o <? 0 then None
    else bs ← copy_loop (Z.to_nat n) 0 (win r) (Z.to_nat o); f (mkIter bs n 0 0)
  else Some f64_zero.

(** ** rolling_counter.go *)

Definition NewRollingCounter (size d now : Z) : option RollingPolicy := w ← NewWindow size; Some (NewRollingPolicy w d now).

(** A negative value panics. *)
Definition counter_Add (now val : Z) (r : RollingPolicy) : option RollingPolicy :=
  if val <? 0 then None else Policy_Add now (f64_of_Z val) r.

Definition Value (now : Z) (r : RollingPolicy) : option Z := f64_to_int <$> Reduce now Sum r.

(** ** Histories *)

Inductive kind := KAppend | KAdd.
Record entry := mkEntry { time : Z; how : kind; val : float64 }.

Definition do_entry (e : entry) (r : RollingPolicy) : option RollingPolicy :=
  match how e with KAppend => Policy_Append (time e) (val e) r | KAdd => Policy_Add (time e) (val e) r end.

Fixpoint play (r : RollingPolicy) (h : list entry) : option RollingPolicy :=
  match h with [] => Some r | e :: h => r' ← do_entry e r; play r' h end.

(** The clock does not go back, from [last] on and up to [now]. *)
Fixpoint clocked (last : Z) (h : list entry) (now : Z) : Prop :=
  match h with [] => last <= now | e :: h => last <= time e ∧ clocked (time e) h now end.

(** What a bucket holds: its points and how many values were added. *)
Abbreviation content := (list float64 * Z)%type.

Definition put (c : content) (e : entry) : content :=
  match how e, c.1 with
  | KAdd, p :: ps => (f64_add p (val e) :: ps, c.2 + 1)
  | _, ps => (ps ++ [val e], c.2 + 1)
  end.

Definition content_of (b : Bucket) : content := (Points b, Count b).

Section ring.
Context (n : nat) (d t0 : Z).
Hypothesis Hn : (0 < n)%nat.
Hypothesis Hn62 : Z.of_nat n < 2 ^ 62.
Hypothesis Hd : 0 < d.

(** The span of time, counted from the start, that an instant is in. *)
Definition slot (t : Z) : Z := (t - t0) / d.
Definition in_slot (j : Z) (e : entry) : Prop := slot (time e) = j.
#[global] Instance in_slot_dec j e : Decision (in_slot j e) := Z.eq_dec _ _.

Definition added (h : list entry) (j : Z) : content := foldl put ([], 0) (filter (in_slot j) h).

Definition last_slot (h : list entry) : Z := match reverse h with [] => 0 | e :: _ => slot (time e) end.

(** What is in the window of the last [n] spans, from the oldest. *)
Definition visible (h : list entry) (now : Z) : list content :=
  added h <$> seqZ (slot now - Z.of_nat n + 1) (last_slot h - slot now + Z.of_nat n).

(** *** The ring *)

(** The index of the bucket that is [j] spans older than that at [o]. *)
Definition pos (o j : nat) : nat := if (j <=? o)%nat then o - j else o + n - j.

Definition ring_next (i : nat) : nat := if (S i =? n)%nat then 0 else S i.

(** The policy [r] at span [k], when span [j] has the content [B j]. *)
Record Ring (r : RollingPolicy) (k : Z) (B : Z → content) : Prop := {
  rg_size : size r = Z.of_nat n;
  rg_len : length (window (win r)) = n;
  rg_dur : bucketDuration r = d;
  rg_last : lastAppendTime r = t0 + k * d;
  rg_off : 0 <= offset r < Z.of_nat n;
  rg_next p b : window (win r) !! p = Some b → next b = ring_next p;
  rg_at j : (j < n)%nat → ∃ b, window (win r) !! pos (Z.to_nat (offset r)) j = Some b ∧ content_of b = B (k - Z.of_nat j) }.

Lemma int_small x : - 2 ^ 63 <= x < 2 ^ 63 → wraps 64 x = x.
Proof using. clear Hn Hn62 Hd. intros H. apply wraps64_id. unfold is_int, MinInt64, MaxInt64. lia. Qed.

Lemma slot_mono a b : a <= b → slot a <= slot b.
Proof using Hd. clear Hn Hn62. intros H. unfold slot. apply Z.div_le_mono; lia. Qed.

Lemma timespan_slot r k B now :
  Ring r k B → k <= slot now → 0 <= k → now - t0 <= MaxInt64 → timespan now r = Some (slot now - k).
Proof.
  intros HR Hk H0 Hmax. unfold timespan, since. rewrite (rg_dur r k B HR), (rg_last r k B HR).
  destruct (Z.eqb_spec d 0); [lia|]. assert (Hlow : k * d <= now - t0).
  { unfold slot in Hk. assert (Hm := Z.mul_div_le (now - t0) d Hd). nia. }
  assert (MaxInt64 = 2 ^ 63 - 1) by done. assert (MinInt64 = - 2 ^ 63) by done.
  rewrite Z.max_r, Z.min_r by nia. replace (now - (t0 + k * d)) with (now - t0 + (- k) * d) by lia.
  rewrite Z.quot_div_nonneg, Z.div_add by lia. fold (slot now).
  assert (slot now < 2 ^ 63).
  { assert (Hm := Z.mul_div_le (now - t0) d Hd). fold (slot now) in Hm. nia. }
  rewrite int_small by lia. destruct (Z.ltb_spec (-1) (slot now + - k)); [f_equal; lia|lia].
Qed.

(** *** Emptying the buckets whose time has passed *)

Lemma reset_loop_at m i w o : (i + m <= length (window w))%nat →
  ∃ w', reset_loop m (Z.of_nat i) w o = Some (w', if (m =? 0)%nat then o else Z.of_nat (i + m - 1)) ∧
  ∀ p, window w' !! p = (λ b, if decide (i <= p < i + m)%nat then Reset b else b) <$> window w !! p.
Proof.
  revert i w o. induction m as [|m IH]; intros i w o Hm.
  - exists w. split; [done|]. intros p. destruct (window w !! p); simpl; [|done]. by rewrite decide_False by lia.
  - cbn [reset_loop]. unfold ResetBucket, at_bucket. destruct (Z.ltb_spec (Z.of_nat i) 0); [lia|]. rewrite Nat2Z.id.
    destruct (lookup_lt_is_Some_2 (window w) i) as [b Hb]; [lia|]. rewrite Hb. simpl.
    replace (Z.of_nat i + 1) with (Z.of_nat (S i)) by lia.
    destruct (IH (S i) (mkWindow (<[i := Reset b]> (window w)) (wsize w)) (Z.of_nat i)) as (w' & Hw & Hp);
      [simpl; rewrite length_insert; lia|].
    exists w'. split; [rewrite Hw; do 2 f_equal; destruct m; simpl; lia|]. intros p. rewrite Hp. simpl.
    destruct (decide (p = i)) as [->|].
    + rewrite list_lookup_insert_eq by lia. rewrite Hb. simpl.
      repeat case_decide; done || lia.
    + rewrite list_lookup_insert_ne by done. destruct (window w !! p); simpl; [|done]. f_equal.
      repeat case_decide; done || lia.
Qed.

(** The window after the two loops: the buckets of the [m] spans to come are empty. *)
Definition passed (o m p : nat) : bool := ((o <? p) && (p <? o + 1 + m))%nat || (p <? o + 1 + m - n)%nat.

Lemma passed_pos o m j : (o < n)%nat → (0 < m <= n)%nat → (j < n)%nat →
  let o' := (if o + m <? n then o + m else o + m - n)%nat in
  passed o m (pos o' j) = (j <? m)%nat ∧ (m <= j → pos o' j = pos o (j - m))%nat.
Proof.
  intros Ho Hm Hj o'. assert (Ho' : (o' = o + m ∧ o + m < n ∨ o' = o + m - n ∧ n <= o + m)%nat)
    by (unfold o'; destruct (Nat.ltb_spec (o + m) n); lia).
  unfold passed, pos. clearbody o'. destruct (Nat.leb_spec j o'); (split; [lia|]); destruct (Nat.leb_spec (j - m) o); lia.
Qed.

Lemma lookup_length {A} (f : nat → A → A) (l k : list A) : (∀ p, l !! p = f p <$> k !! p) → length l = length k.
Proof using.
  clear Hn Hn62 Hd.
  intros H. assert (Hi : ∀ p, is_Some (l !! p) ↔ is_Some (k !! p)) by (intros p; rewrite H; apply fmap_is_Some).
  setoid_rewrite lookup_lt_is_Some in Hi. destruct (lt_eq_lt_dec (length l) (length k)) as [[Hlt|]|Hlt]; [|done|]; apply Hi in Hlt; lia.
Qed.

Lemma reset_span w o m : (o < n)%nat → (0 < m <= n)%nat → length (window w) = n →
  let e := (if n <? o + 1 + m then n else o + 1 + m)%nat in let e1 := (o + 1 + m - n)%nat in
  ∃ w', ('(w1, o1) ← reset_loop (e - (o + 1)) (Z.of_nat (o + 1)) w (Z.of_nat o); reset_loop e1 0 w1 o1)
        = Some (w', Z.of_nat (if o + m <? n then o + m else o + m - n)%nat) ∧
  ∀ p, window w' !! p = (λ b, if passed o m p then Reset b else b) <$> window w !! p.
Proof.
  intros Ho Hm Hlen e e1. assert (He : (o + 1 <= e <= n)%nat) by (unfold e; destruct (Nat.ltb_spec n (o + 1 + m)); lia).
  destruct (reset_loop_at (e - (o + 1)) (o + 1) w (Z.of_nat o)) as (w1 & H1 & Hp1); [lia|].
  assert (Hlen1 : length (window w1) = length (window w)).
  { exact (lookup_length (λ p b, if decide (o + 1 <= p < o + 1 + (e - (o + 1)))%nat then Reset b else b) _ _ Hp1). }
  set (o1 := if (e - (o + 1) =? 0)%nat then Z.of_nat o else Z.of_nat (o + 1 + (e - (o + 1)) - 1)) in *.
  destruct (reset_loop_at e1 0 w1 o1) as (w2 & H2 & Hp2); [rewrite Hlen1; lia|].
  exists w2. rewrite H1. cbn [mbind option_bind]. change 0 with (Z.of_nat 0). rewrite H2. split.
  - do 2 f_equal. unfold o1, e1, e in *. destruct (Nat.ltb_spec n (o + 1 + m)), (Nat.ltb_spec (o + m) n);
      repeat match goal with |- context [(?a =? ?b)%nat] => destruct (Nat.eqb_spec a b) end; lia.
  - intros p. rewrite Hp2, Hp1. destruct (window w !! p) as [b|] eqn:Hb; [|done]. apply lookup_lt_Some in Hb. simpl. f_equal. unfold passed, e1, e in *.
    destruct (Nat.ltb_spec n (o + 1 + m)), (Nat.ltb_spec o p), (Nat.ltb_spec p (o + 1 + m)), (Nat.ltb_spec p (o + 1 + m - n));
      simpl; repeat case_decide; done || lia.
Qed.

Lemma advance_ring r k B now :
  Ring r k B → (∀ j, k < j → B j = ([], 0)) → 0 <= k → k <= slot now → now - t0 <= MaxInt64 →
  ∃ r', advance now r = Some r' ∧ Ring r' (slot now) B.
Proof.
  intros HR HB H0 Hk Hmax. unfold advance. rewrite (timespan_slot r k B now HR Hk H0 Hmax). cbn [mbind option_bind].
  destruct (Z.ltb_spec 0 (slot now - k)) as [Hpos|Hle]; [|exists r; split; [done|by replace (slot now) with k by lia]].
  destruct HR as [H1 Hlen H2 H3 H4 H5 H6].
  assert (Hmul : (slot now - k) * d <= MaxInt64).
  { assert (Hm := Z.mul_div_le (now - t0) d Hd). fold (slot now) in Hm. nia. }
  assert (MaxInt64 = 2 ^ 63 - 1) by done. rewrite int_small by nia. rewrite H1, H2, H3.
  set (o := Z.to_nat (offset r)) in *. assert (Ho : offset r = Z.of_nat o) by lia. rewrite Ho.
  set (m := if decide (Z.of_nat n < slot now - k) then n else Z.to_nat (slot now - k)).
  assert (Hm : (0 < m <= n)%nat) by (unfold m; case_decide; lia).
  replace (if Z.of_nat n <? slot now - k then Z.of_nat n else slot now - k) with (Z.of_nat m)
    by (unfold m; destruct (Z.ltb_spec (Z.of_nat n) (slot now - k)); case_decide; lia).
  unfold int_add, int_sub. rewrite (int_small (Z.of_nat o + 1)), (int_small (Z.of_nat o + 1 + Z.of_nat m)),
    (int_small (Z.of_nat o + 1 + Z.of_nat m - Z.of_nat n)) by lia.
  destruct (reset_span (win r) o m ltac:(lia) Hm Hlen) as (w' & Hw & Hp).
  set (o' := (if o + m <? n then o + m else o + m - n)%nat) in *.
  assert (Ho' : (o' < n)%nat) by (unfold o'; destruct (Nat.ltb_spec (o + m) n); lia).
  exists (mkPolicy (Z.of_nat n) w' (Z.of_nat o') d (t0 + slot now * d)). split.
  - replace (t0 + k * d + (slot now - k) * d) with (t0 + slot now * d) by lia.
    destruct (Z.ltb_spec (Z.of_nat n) (Z.of_nat o + 1 + Z.of_nat m)), (Nat.ltb_spec n (o + 1 + m)); try lia;
      [replace (Z.to_nat (Z.of_nat n - (Z.of_nat o + 1))) with (n - (o + 1))%nat by lia;
       replace (Z.to_nat (Z.of_nat o + 1 + Z.of_nat m - Z.of_nat n)) with (o + 1 + m - n)%nat by lia
      |replace (Z.to_nat (Z.of_nat o + 1 + Z.of_nat m - (Z.of_nat o + 1))) with (o + 1 + m - (o + 1))%nat by lia;
       replace (o + 1 + m - n)%nat with (Z.to_nat 0) in Hw by lia];
      replace (Z.of_nat o + 1) with (Z.of_nat (o + 1)) by lia;
      destruct (reset_loop _ _ (win r) _) as [[w1 o1]|]; cbn [mbind option_bind] in *; try done; by rewrite Hw.
  - split; simpl; try done; try lia.
    + by rewrite (lookup_length _ _ _ Hp).
    + intros p b Hb. rewrite Hp in Hb. apply fmap_Some in Hb as (b' & Hb & ->). apply H5 in Hb. by destruct (passed o m p).
    + intros j Hj. rewrite Nat2Z.id. destruct (passed_pos o m j ltac:(lia) Hm Hj) as [Hc Hsame]. fold o' in Hc, Hsame.
      destruct (Nat.ltb_spec j m) as [Hjm|Hjm].
      * assert (Hlt : (pos o' j < length (window (win r)))%nat) by (unfold pos; destruct (Nat.leb_spec j o'); lia).
        apply lookup_lt_is_Some in Hlt as [b Hb]. exists (Reset b). rewrite Hp, Hb. simpl. rewrite Hc. split; [done|].
        rewrite HB; [done|]. unfold m in Hjm. case_decide; lia.
      * rewrite Hsame by done. destruct (H6 (j - m)%nat ltac:(lia)) as (b & Hb & Hbc). exists b.
        rewrite Hp, Hb. simpl. rewrite <- Hsame, Hc by done. split; [done|]. rewrite Hbc. f_equal.
        unfold m in *. case_decide; lia.
Qed.

(** *** Adding to the newest bucket *)

(** How many values a content counts, and that it has points when it counts any. *)
Definition counted (c : content) (m : Z) : Prop := c.2 = m ∧ (c.1 = [] ↔ m = 0) ∧ 0 <= m.

Lemma put_counted c e m : counted c m → counted (put c e) (m + 1).
Proof using.
  clear Hn Hn62 Hd.
  destruct c as [ps c]. intros (H1 & H2 & H3). simpl in *. unfold counted, put. simpl.
  destruct (how e), ps; simpl; split_and!; try lia; split; intros; try discriminate; lia.
Qed.

Lemma put_bucket b e m : counted (content_of b) m → m < 2 ^ 63 - 1 →
  ∃ b', (match how e with KAppend => Some (Append b (val e)) | KAdd => if Count b =? 0 then Some (Append b (val e)) else Add b 0 (val e) end) = Some b'
  ∧ content_of b' = put (content_of b) e ∧ next b' = next b.
Proof using.
  clear Hn Hn62 Hd.
  destruct b as [ps c nx]. unfold counted, content_of, put, Append, Add. simpl. intros (-> & H2 & H3) Hm.
  destruct (how e).
  - eexists. split; [done|]. simpl. rewrite int_small by lia. done.
  - destruct (Z.eqb_spec m 0) as [E|E].
    + rewrite (proj2 H2 E). eexists. split; [done|]. simpl. rewrite int_small by lia. done.
    + destruct ps as [|p ps]; [by destruct E; apply H2|]. simpl. eexists. split; [done|]. simpl. rewrite int_small by lia. done.
Qed.

Lemma put_ring r k B e m : Ring r k B → counted (B k) m → m < 2 ^ 63 - 1 →
  ∃ w, (match how e with KAppend => Window_Append | KAdd => Window_Add end) (win r) (offset r) (val e) = Some w ∧
  Ring (mkPolicy (size r) w (offset r) (bucketDuration r) (lastAppendTime r)) k (λ j, if decide (j = k) then put (B k) e else B j).
Proof.
  intros HR Hc Hm. destruct (rg_at r k B HR 0 Hn) as (b & Hb & HBb). rewrite Z.sub_0_r in HBb.
  destruct HR as [H1 Hlen H2 H3 H4 H5 H6]. set (o := Z.to_nat (offset r)) in *.
  assert (Hpos0 : pos o 0 = o) by (unfold pos; simpl; lia). rewrite Hpos0 in Hb.
  rewrite <- HBb in Hc |- *. destruct (put_bucket b e m Hc Hm) as (b' & Hput & Hb' & Hnx).
  exists (mkWindow (<[o := b']> (window (win r))) (wsize (win r))). split.
  - transitivity (at_bucket (win r) (offset r) (λ b, match how e with KAppend => Some (Append b (val e))
      | KAdd => if Count b =? 0 then Some (Append b (val e)) else Add b 0 (val e) end)); [by destruct (how e)|].
    unfold at_bucket. destruct (Z.ltb_spec (offset r) 0); [lia|]. fold o. rewrite Hb. cbn [mbind option_bind]. by rewrite Hput.
  - assert (Ho : (o < length (window (win r)))%nat) by lia. split; simpl; try done.
    + by rewrite length_insert.
    + intros p q Hq. destruct (decide (p = o)) as [->|].
      * rewrite list_lookup_insert_eq in Hq by done. injection Hq as <-. rewrite Hnx. eauto.
      * rewrite list_lookup_insert_ne in Hq by done. eauto.
    + intros j Hj. fold o. case_decide as E.
      * replace j with 0%nat by lia. rewrite Hpos0, list_lookup_insert_eq by done. eauto.
      * rewrite list_lookup_insert_ne; [by apply H6|]. unfold pos. destruct (Nat.leb_spec j o); lia.
Qed.

(** *** Histories *)

Lemma added_snoc h e j : added (h ++ [e]) j = if decide (slot (time e) = j) then put (added h j) e else added h j.
Proof using.
  clear Hn Hn62 Hd.
  unfold added. rewrite list.filter_app, foldl_app. rewrite filter_cons, filter_nil. unfold in_slot.
  destruct (decide (slot (time e) = j)); done.
Qed.

Lemma added_counted h j : counted (added h j) (Z.of_nat (length (filter (in_slot j) h))).
Proof using.
  clear Hn Hn62 Hd.
  induction h as [|e h IH] using rev_ind; [done|]. rewrite added_snoc, list.filter_app, length_app, filter_cons, filter_nil. unfold in_slot at 2.
  destruct (decide (slot (time e) = j)); simpl.
  - replace (Z.of_nat (length (filter (in_slot j) h) + 1)) with (Z.of_nat (length (filter (in_slot j) h)) + 1) by lia. by apply put_counted.
  - by rewrite Nat.add_0_r.
Qed.

Lemma last_slot_snoc h e : last_slot (h ++ [e]) = slot (time e).
Proof using. clear Hn Hn62 Hd. unfold last_slot. by rewrite reverse_app. Qed.

Lemma Ring_ext r k B B' : (∀ j, B j = B' j) → Ring r k B → Ring r k B'.
Proof using. clear Hn Hn62 Hd. intros H [H1 H2 H3 H4 H5 H6 H7]. split; try done. intros j Hj. rewrite <- H. auto. Qed.

(** The state after the history [h], read at instant [t] at the latest. *)
Definition Reached (r : RollingPolicy) (h : list entry) (t : Z) : Prop :=
  Ring r (last_slot h) (added h) ∧ 0 <= last_slot h ∧ last_slot h <= slot t ∧ ∀ j, last_slot h < j → added h j = ([], 0).

Lemma entry_reached r h t e :
  Reached r h t → t <= time e → time e - t0 <= MaxInt64 → Z.of_nat (length h) < 2 ^ 63 - 1 →
  ∃ r', do_entry e r = Some r' ∧ Reached r' (h ++ [e]) (time e).
Proof.
  intros (HR & H0 & Ht & HB) Hle Hmax Hlen. assert (Hs := slot_mono _ _ Hle).
  destruct (advance_ring r _ _ (time e) HR HB H0 ltac:(lia) Hmax) as (r1 & Ha & HR1).
  assert (Hfl := length_filter (in_slot (slot (time e))) h).
  destruct (put_ring r1 _ _ e _ HR1 (added_counted h (slot (time e))) ltac:(lia)) as (w & Hw & HR2).
  eexists. split.
  - transitivity (add (time e) (match how e with KAppend => Window_Append | KAdd => Window_Add end) (val e) r); [by destruct e as [? [] ?]|].
    unfold add. rewrite Ha. cbn [mbind option_bind]. rewrite Hw. done.
  - unfold Reached. rewrite last_slot_snoc. split_and!; try lia.
    + eapply Ring_ext; [|exact HR2]. intros j. simpl. rewrite added_snoc.
      destruct (decide (j = slot (time e))), (decide (slot (time e) = j)); congruence.
    + intros j Hj. rewrite added_snoc. rewrite decide_False by lia. apply HB. lia.
Qed.

Lemma play_reached h' r h t now :
  Reached r h t → clocked t h' now → now - t0 <= MaxInt64 → Z.of_nat (length (h ++ h')) < 2 ^ 63 →
  ∃ r', play r h' = Some r' ∧ Reached r' (h ++ h') now.
Proof using Hn Hn62 Hd.
  revert r h t. induction h' as [|e h' IH]; intros r h t HR Hc Hmax Hlen; simpl in Hc.
  - exists r. rewrite app_nil_r. split; [done|]. destruct HR as (H1 & H2 & H3 & H4). assert (Hs := slot_mono _ _ Hc).
    split_and!; try done. lia.
  - destruct Hc as [Ht Hc]. assert (Hte : time e <= now).
    { clear -Hc. revert Hc. generalize (time e). induction h' as [|e' h' IH]; simpl; intros t Hc; [lia|]. destruct Hc as [? Hc]. apply IH in Hc. lia. }
    rewrite length_app in Hlen. simpl in Hlen.
    destruct (entry_reached r h t e HR Ht ltac:(lia) ltac:(lia)) as (r1 & Hr1 & HR1).
    destruct (IH r1 (h ++ [e]) (time e) HR1 Hc Hmax) as (r2 & Hr2 & HR2); [rewrite !length_app; simpl; lia|].
    exists r2. rewrite <- app_assoc in HR2. split; [|done]. simpl. by rewrite Hr1.
Qed.

Lemma new_reached : ∃ r, NewRollingCounter (Z.of_nat n) d t0 = Some r ∧ Reached r [] t0.
Proof using Hn.
  clear Hn62 Hd.
  unfold NewRollingCounter, NewWindow. destruct (Z.ltb_spec (Z.of_nat n) 0); [lia|]. rewrite Nat2Z.id. cbn [mbind option_bind].
  eexists. split; [done|]. assert (Hs : slot t0 = 0) by (unfold slot; by rewrite Z.sub_diag).
  unfold Reached, last_slot. simpl. split_and!; try lia; [|done]. split; simpl; try done; try lia.
  - by rewrite length_fmap, length_seq.
  - intros p b Hb. rewrite list_lookup_fmap in Hb. apply fmap_Some in Hb as (i & Hi & ->). apply lookup_seq in Hi as [-> _]. done.
  - intros j Hj. change (Z.to_nat 0) with 0%nat. unfold pos. rewrite list_lookup_fmap. destruct (Nat.leb_spec j 0).
    + rewrite lookup_seq_lt by lia. simpl. eauto.
    + rewrite lookup_seq_lt by lia. simpl. eauto.
Qed.

(** *** Reading the window *)

Lemma ring_next_pos o j : (o < n)%nat → (S j < n)%nat → ring_next (pos o (S j)) = pos o j.
Proof.
  intros Ho Hj. unfold ring_next, pos. destruct (Nat.leb_spec (S j) o), (Nat.leb_spec j o);
    match goal with |- context [(?a =? ?b)%nat] => destruct (Nat.eqb_spec a b) end; lia.
Qed.

Lemma copy_ring r k B m i : Ring r k B → (m < n)%nat →
  ∃ bs, copy_loop (S m) i (win r) (pos (Z.to_nat (offset r)) m) = Some bs ∧ length bs = S m ∧
  content_of <$> bs = B <$> seqZ (k - Z.of_nat m) (Z.of_nat (S m)) ∧
  ∀ q b, bs !! q = Some b → next b = if (q =? m)%nat then 0%nat else (i + S q)%nat.
Proof.
  intros HR Hm. revert i. induction m as [|m IH]; intros i; destruct (rg_at r k B HR _ Hm) as (b & Hb & Hc);
    remember (S _) as m1 eqn:Em in |- *; cbn [copy_loop]; rewrite Em; cbn [copy_loop]; rewrite Hb; cbn [mbind option_bind].
  - eexists. split; [done|]. rewrite Z.sub_0_r in *. split; [done|]. split.
    + rewrite seqZ_cons by lia. simpl. rewrite <- Hc. by destruct b.
    + intros q c Hq. apply list_lookup_singleton_Some in Hq as [-> <-]. done.
  - destruct (IH ltac:(lia) (S i)) as (bs & Hbs & Hlen & Hcs & Hnx).
    rewrite (rg_next r k B HR _ _ Hb), ring_next_pos by (pose proof (rg_off r k B HR); lia).
    cbn [copy_loop] in Hbs. rewrite Hbs. cbn [mbind option_bind].
    eexists. split; [done|]. split; [simpl; by rewrite Hlen|]. split.
    + rewrite seqZ_cons by lia. rewrite !fmap_cons. f_equal; [rewrite <- Hc; by destruct b|].
      rewrite Hcs. do 2 f_equal; lia.
    + intros [|q] c Hq; simpl in Hq; [injection Hq as <-; simpl; lia|].
      rewrite (Hnx q c Hq). simpl. destruct (q =? m)%nat; lia.
Qed.

(** An iterator over copies visits them in order. *)
Lemma each_copies {A} (body : A → Bucket → A) bs :
  Z.of_nat (length bs) < 2 ^ 63 → (∀ q b, bs !! q = Some b → next b = if (S q =? length bs)%nat then 0%nat else S q) →
  ∀ m q a, (q + m = length bs)%nat → (0 < length bs)%nat →
  each m body (mkIter bs (Z.of_nat (length bs)) (Z.of_nat q) (if (q =? length bs)%nat then 0%nat else q)) a = Some (foldl body a (drop q bs)).
Proof using.
  clear Hn Hn62 Hd.
  intros Hlen Hnx. induction m as [|m IH]; intros q a Hq H0; cbn [each]; unfold Next; cbn [count iteratedCount].
  - replace q with (length bs) by lia. rewrite Z.eqb_refl. simpl. by rewrite drop_all.
  - destruct (Z.eqb_spec (Z.of_nat (length bs)) (Z.of_nat q)); [lia|]. unfold Iterator_Bucket, Next. cbn [count iteratedCount negb].
    destruct (Z.eqb_spec (Z.of_nat (length bs)) (Z.of_nat q)); [lia|]. destruct (Nat.eqb_spec q (length bs)); [lia|]. cbn [negb buckets cur].
    destruct (lookup_lt_is_Some_2 bs q) as [b Hb]; [lia|]. rewrite Hb. cbn [mbind option_bind].
    rewrite int_small by lia. rewrite (drop_S bs b q Hb). cbn [foldl]. rewrite <- (IH (S q)) by lia.
    rewrite (Hnx q b Hb). do 2 f_equal. lia.
Qed.

(** Reduce, for a function that folds over the buckets. *)
Lemma reduce_reached {A} r h now f (g : A → float64) (body : A → content → A) a :
  Reached r h now → now - t0 <= MaxInt64 →
  (∀ i, f i = g <$> loop (λ x b, body x (content_of b)) i a) →
  Reduce now f r = Some (match visible h now with [] => f64_zero | _ => g (foldl body a (visible h now)) end).
Proof using Hn Hn62 Hd.
  intros (HR & H0 & Hk & _) Hmax Hf. unfold Reduce. rewrite (timespan_slot r _ _ now HR Hk H0 Hmax). cbn [mbind option_bind].
  set (k := last_slot h) in *. rewrite (rg_size r _ _ HR). unfold int_sub.
  assert (Hs : slot now < 2 ^ 63).
  { assert (Hm := Z.mul_div_le (now - t0) d Hd). fold (slot now) in Hm. unfold MaxInt64 in Hmax. nia. }
  rewrite (int_small (Z.of_nat n - (slot now - k))) by lia. unfold visible. fold k.
  destruct (Z.ltb_spec 0 (Z.of_nat n - (slot now - k))) as [Hpos|Hle].
  - destruct (rg_off r _ _ HR) as [Ho0 Ho]. set (m := Z.to_nat (Z.of_nat n - (slot now - k) - 1)).
    destruct (copy_ring r k (added h) m 0 HR ltac:(lia)) as (bs & Hbs & Hlen & Hcs & Hnx).
    unfold int_add. rewrite (int_small (offset r + (slot now - k))), (int_small (offset r + (slot now - k) + 1)) by lia.
    rewrite (int_small (offset r + (slot now - k) + 1 - Z.of_nat n)) by lia.
    set (o := if Z.of_nat n <=? _ then _ else _).
    assert (Hpo : Z.of_nat (pos (Z.to_nat (offset r)) m) = o).
    { unfold o, pos. destruct (Z.leb_spec (Z.of_nat n) (offset r + (slot now - k) + 1)), (Nat.leb_spec m (Z.to_nat (offset r))); lia. }
    destruct (Z.ltb_spec o 0); [lia|]. rewrite <- Hpo, Nat2Z.id. replace (Z.to_nat (Z.of_nat n - (slot now - k))) with (S m) by lia.
    rewrite Hbs. cbn [mbind option_bind]. replace (Z.of_nat n - (slot now - k)) with (Z.of_nat (length bs)) by lia.
    rewrite Hf. unfold loop. cbn [buckets].
    assert (He := each_copies (λ x b, body x (content_of b)) bs ltac:(lia)). rewrite Hlen in He |- *.
    assert (He0 := He Hnx (S m) 0%nat a ltac:(lia) ltac:(lia)). change (if (0 =? S m)%nat then 0%nat else 0%nat) with 0%nat in He0.
    change (Z.of_nat 0) with 0 in He0. rewrite He0. simpl drop. cbn [fmap option_fmap option_map]. f_equal.
    replace (seqZ _ _) with (seqZ (k - Z.of_nat m) (Z.of_nat (S m))) by (f_equal; lia). rewrite <- Hcs.
    replace (foldl _ a bs) with (foldl body a (content_of <$> bs)) by (by rewrite foldl_fmap).
    destruct bs; [done|]. done.
  - by rewrite seqZ_nil by lia.
Qed.

(** *** Totals over the window *)

(** The sum of the values whose instants satisfy [P]. *)
Definition tally (P : Z → bool) (h : list (Z * Z)) : Z := foldr (λ '(t, v) s, if P t then v + s else s) 0 h.

Definition total (l : list Z) : Z := foldr Z.add 0 l.

Lemma tally_ext P Q h : (∀ t, t ∈ h.*1 → P t = Q t) → tally P h = tally Q h.
Proof using.
  clear Hn Hn62 Hd.
  induction h as [|[t v] h IH]; intros H; [done|]. simpl. rewrite (H t), IH; [done| |simpl; set_solver].
  intros u Hu. apply H. simpl. set_solver.
Qed.

Lemma tally_range P h : Forall (λ x, 0 <= x.2) h → 0 <= tally P h <= tally (λ _, true) h.
Proof using. clear Hn Hn62 Hd. induction 1 as [|[t v] h Hv _ IH]; simpl in *; [lia|]. destruct (P t); lia. Qed.

Lemma seqZ_pick (f g : Z → Z) s v a m :
  (∀ j, f j = if s =? j then v + g j else g j) →
  total (f <$> seqZ a (Z.of_nat m)) = (if (a <=? s) && (s <? a + Z.of_nat m) then v else 0) + total (g <$> seqZ a (Z.of_nat m)).
Proof using.
  clear Hn Hn62 Hd.
  intros Hf. revert a. induction m as [|m IH]; intros a.
  - rewrite seqZ_nil by lia. change (Z.of_nat 0) with 0. destruct (Z.leb_spec a s), (Z.ltb_spec s (a + 0)); simpl; lia.
  - rewrite seqZ_cons by lia. replace (Z.pred (Z.of_nat (S m))) with (Z.of_nat m) by lia. unfold total in *. cbn [fmap list_fmap foldr].
    rewrite IH, Hf. destruct (Z.eqb_spec s a), (Z.leb_spec a s), (Z.leb_spec (Z.succ a) s), (Z.ltb_spec s (a + Z.of_nat (S m))),
      (Z.ltb_spec s (Z.succ a + Z.of_nat m)); simpl; lia.
Qed.

Lemma tally_slots a m h :
  total ((λ j, tally (λ t, slot t =? j) h) <$> seqZ a m) = tally (λ t, (a <=? slot t) && (slot t <? a + m)) h.
Proof using.
  clear Hn Hn62 Hd.
  destruct (Z.ltb_spec m 0) as [Hm|Hm].
  { rewrite seqZ_nil by lia. rewrite (tally_ext _ (λ _, false)); [by induction h as [|[]]|].
    intros t _. destruct (Z.leb_spec a (slot t)), (Z.ltb_spec (slot t) (a + m)); done || lia. }
  replace m with (Z.of_nat (Z.to_nat m)) by lia. generalize (Z.to_nat m) as q. clear m Hm. intros q.
  induction h as [|[t v] h IH].
  - simpl. generalize (seqZ a (Z.of_nat q)). intros l. induction l; [done|]. simpl. by rewrite Z.add_0_l.
  - cbn [tally foldr]. rewrite (seqZ_pick _ (λ j, tally (λ u, slot u =? j) h) (slot t) v) by done. rewrite IH.
    unfold tally. destruct (_ && _); lia.
Qed.

(** Every entry is in a span up to the last. *)
Lemma reached_slots r h t e : Reached r h t → e ∈ h → slot (time e) <= last_slot h.
Proof using.
  clear Hn Hn62 Hd.
  intros (_ & _ & _ & HB) He. destruct (Z.le_gt_cases (slot (time e)) (last_slot h)) as [|Hlt]; [done|]. exfalso.
  assert (Hc := added_counted h (slot (time e))). rewrite (HB _ Hlt) in Hc. destruct Hc as (Hc & _). simpl in Hc.
  assert (Hin : e ∈ filter (in_slot (slot (time e))) h) by (by apply list_elem_of_filter).
  destruct (filter (in_slot (slot (time e))) h); [by apply elem_of_nil in Hin|simpl in Hc; lia].
Qed.

(** The window of the last [n] spans at [now]. *)
Definition in_window (now t : Z) : bool := slot now - Z.of_nat n <? slot t.

Lemma visible_total r h now (f : entry → Z) (g : content → Z) :
  Reached r h now →
  (∀ j, g (added h j) = tally (λ t, slot t =? j) ((λ e, (time e, f e)) <$> h)) →
  total (g <$> visible h now) = tally (in_window now) ((λ e, (time e, f e)) <$> h).
Proof using.
  clear Hn Hn62 Hd.
  intros HR Hg. unfold visible. rewrite <- list_fmap_compose.
  replace ((g ∘ added h) <$> _) with ((λ j, tally (λ t, slot t =? j) ((λ e, (time e, f e)) <$> h)) <$>
    seqZ (slot now - Z.of_nat n + 1) (last_slot h - slot now + Z.of_nat n)) by (apply list_fmap_ext; intros; symmetry; apply Hg).
  rewrite tally_slots. apply tally_ext. intros t Ht. rewrite <- list_fmap_compose in Ht.
  apply list_elem_of_fmap in Ht as (e & -> & He). assert (Hl := reached_slots r h now e HR He). simpl. unfold in_window.
  destruct (Z.leb_spec (slot now - Z.of_nat n + 1) (slot (time e))), (Z.ltb_spec (slot now - Z.of_nat n) (slot (time e))); simpl; try lia;
    destruct (Z.ltb_spec (slot (time e)) (slot now - Z.of_nat n + 1 + (last_slot h - slot now + Z.of_nat n))); lia || done.
Qed.

Lemma added_count h j : (added h j).2 = tally (λ t, slot t =? j) ((λ e, (time e, 1)) <$> h).
Proof using.
  clear Hn Hn62 Hd.
  destruct (added_counted h j) as (-> & _). induction h as [|e h IH]; [done|]. rewrite filter_cons. unfold in_slot at 1. cbn [fmap list_fmap tally foldr].
  unfold tally in IH. simpl in IH. rewrite <- IH. destruct (decide (slot (time e) = j)) as [E|E], (Z.eqb_spec (slot (time e)) j); simpl; lia || done.
Qed.

(** *** Appended values, in order *)

Lemma filter_agree {A} (P Q : A → Prop) `{∀ x, Decision (P x)} `{∀ x, Decision (Q x)} (l : list A) :
  (∀ x, x ∈ l → P x ↔ Q x) → filter P l = filter Q l.
Proof using.
  clear Hn Hn62 Hd.
  induction l as [|x l IH]; intros H1; [done|]. rewrite !filter_cons. rewrite IH by set_solver. assert (Hx := H1 x ltac:(set_solver)).
  destruct (decide (P x)), (decide (Q x)); tauto.
Qed.

Lemma clocked_from t h now : clocked t h now → Forall (λ e, t <= time e) h ∧ t <= now.
Proof using.
  clear Hn Hn62 Hd.
  revert t. induction h as [|e h IH]; intros t H; simpl in H; [done|]. destruct H as [H1 H2]. destruct (IH _ H2) as [H3 H4].
  split; [|lia]. constructor; [done|]. eapply Forall_impl; [|exact H3]. simpl. intros. lia.
Qed.

Lemma clocked_sorted t h now : clocked t h now → StronglySorted (λ a b, slot (time a) <= slot (time b)) h.
Proof using Hd.
  clear Hn Hn62.
  revert t. induction h as [|e h IH]; intros t H; simpl in H; constructor; destruct H as [H1 H2]; [by eapply IH|].
  destruct (clocked_from _ _ _ H2) as [H3 _]. eapply Forall_impl; [|exact H3]. intros x Hx. by apply slot_mono.
Qed.

Definition between (a b : Z) (e : entry) : Prop := a <= slot (time e) < b.
#[local] Instance between_dec a b e : Decision (between a b e) := _.

Lemma filter_step a b h : StronglySorted (λ x y, slot (time x) <= slot (time y)) h → a <= b →
  filter (between a (b + 1)) h = filter (between a b) h ++ filter (in_slot b) h.
Proof using.
  clear Hn Hn62 Hd.
  intros Hs Hab. induction Hs as [|e h Hs IH Hall]; [done|]. rewrite !filter_cons, IH.
  destruct (decide (between a (b + 1) e)), (decide (between a b e)), (decide (in_slot b e)) as [E|E];
    unfold between, in_slot in *; try done; try lia.
  rewrite (filter_none (between a b) h); [done|]. intros x Hx. rewrite Forall_forall in Hall.
  specialize (Hall x (proj1 (list_elem_of_In _ _) Hx)). unfold between. lia.
Qed.

Lemma filter_slots a m h : StronglySorted (λ x y, slot (time x) <= slot (time y)) h →
  concat ((λ j, filter (in_slot j) h) <$> seqZ a (Z.of_nat m)) = filter (between a (a + Z.of_nat m)) h.
Proof using.
  clear Hn Hn62 Hd.
  intros Hs. induction m as [|m IH].
  - rewrite seqZ_nil by lia. symmetry. apply filter_none. intros x _. unfold between. lia.
  - replace (Z.of_nat (S m)) with (Z.of_nat m + 1) by lia. rewrite seqZ_app by lia. rewrite fmap_app, concat_app, IH.
    rewrite Z.add_assoc, filter_step by (done || lia). f_equal. rewrite seqZ_cons, seqZ_nil by lia. apply app_nil_r.
Qed.

Lemma added_appends h j : Forall (λ e, how e = KAppend) h → (added h j).1 = val <$> filter (in_slot j) h.
Proof using.
  clear Hn Hn62 Hd.
  induction h as [|e h IH] using rev_ind; [done|]. intros H. apply Forall_app in H as [H1 H2]. apply Forall_inv in H2. simpl in H2.
  rewrite added_snoc, list.filter_app, filter_cons, filter_nil, fmap_app. unfold in_slot at 2. specialize (IH H1).
  destruct (decide (slot (time e) = j)); simpl; [|by rewrite app_nil_r].
  unfold put. rewrite H2, IH. by destruct (val <$> _).
Qed.

Lemma visible_appends r h now : Reached r h now → clocked t0 h now → Forall (λ e, how e = KAppend) h →
  concat (visible h now).*1 = val <$> filter (λ e, in_window now (time e) = true) h.
Proof using Hd.
  clear Hn Hn62.
  intros HR Hc Ha. unfold visible. rewrite <- list_fmap_compose.
  replace ((fst ∘ added h) <$> _) with ((fmap (M:=list) val ∘ λ j, filter (in_slot j) h) <$>
    seqZ (slot now - Z.of_nat n + 1) (last_slot h - slot now + Z.of_nat n))
    by (apply list_fmap_ext; intros; symmetry; by apply added_appends).
  rewrite list_fmap_compose. set (a := slot now - Z.of_nat n + 1). set (m := last_slot h - slot now + Z.of_nat n).
  assert (Hj : ∀ l : list (list entry), concat (fmap (M:=list) val <$> l) = val <$> concat l).
  { induction l as [|x l IH]; [done|]. simpl. by rewrite fmap_app, <- IH. }
  rewrite Hj. f_equal. assert (Hin := λ e, reached_slots r h now e HR). destruct (Z.ltb_spec m 0).
  - rewrite seqZ_nil by lia. symmetry. apply filter_none. intros e He. specialize (Hin e He). unfold in_window.
    destruct (Z.ltb_spec (slot now - Z.of_nat n) (slot (time e))); lia || done.
  - replace m with (Z.of_nat (Z.to_nat m)) by lia. rewrite filter_slots by (by eapply clocked_sorted).
    apply filter_agree. intros e He. specialize (Hin e He). unfold between, in_window.
    rewrite Z.ltb_lt. unfold a, m in *. lia.
Qed.
End ring.

(** ** Folds over the points *)

Lemma foldl_points {A} (f : A → float64 → A) (vis : list content) a :
  foldl (λ r c, foldl f r c.1) a vis = foldl f a (concat vis.*1).
Proof. revert a. induction vis as [|c vis IH]; intros a; [done|]. simpl. by rewrite IH, foldl_app. Qed.

(** The point that [pick] ends with is one of them, and none is better. *)
Lemma pick_best (better : float64 → float64 → bool) (l : list float64) :
  (∀ x, better x x = false) → (∀ x y z, better x y = true → better y z = true → better x z = true) →
  ∀ r seen, (r ∈ seen ∧ ∀ q, q ∈ seen → better q r = false) →
  let m := (foldl (pick better) (r, true) l).1 in m ∈ seen ++ l ∧ ∀ q, q ∈ seen ++ l → better q m = false.
Proof.
  intros Hirr Htr. induction l as [|p l IH]; intros r seen [Hr Hb]; simpl; [by rewrite app_nil_r|].
  replace (seen ++ p :: l) with ((seen ++ [p]) ++ l) by (by rewrite <- app_assoc).
  destruct (better p r) eqn:E; apply IH; (split; [rewrite elem_of_app, list_elem_of_singleton; auto|]).
  - intros q Hq. apply elem_of_app in Hq as [Hq|Hq%list_elem_of_singleton]; [|by subst].
    destruct (better q p) eqn:E'; [|done]. assert (E2 := Htr q p r E' E). by rewrite (Hb q Hq) in E2.
  - intros q Hq. apply elem_of_app in Hq as [Hq|Hq%list_elem_of_singleton]; [auto|by subst].
Qed.

Lemma pick_all better l r0 :
  (∀ x, better x x = false) → (∀ x y z, better x y = true → better y z = true → better x z = true) → l ≠ [] →
  let m := (foldl (pick better) (r0, false) l).1 in m ∈ l ∧ ∀ q, q ∈ l → better q m = false.
Proof.
  intros Hirr Htr Hl. destruct l as [|p l]; [done|]. simpl.
  apply (pick_best better l Hirr Htr p [p]). split; [by apply list_elem_of_singleton|].
  intros q Hq%list_elem_of_singleton. by subst.
Qed.

Lemma foldl_count vis r :
  Forall (λ c : content, 0 <= c.2) vis → 0 <= r → r + total vis.*2 < 2 ^ 63 →
  foldl (λ r (c : content), wraps 64 (r + c.2)) r vis = r + total vis.*2.
Proof.
  intros Hv. unfold total. revert r. induction Hv as [|c vis Hc Hv IH]; intros r Hr Hb; csimpl in *; [lia|].
  assert (Hpos : 0 <= foldr Z.add 0 vis.*2) by (clear -Hv; induction Hv; csimpl in *; lia).
  rewrite int_small by lia. rewrite IH by lia. lia.
Qed.

Lemma foldl_avg (l : list float64) s c :
  0 <= c → c + Z.of_nat (length l) < 2 ^ 53 →
  foldl (λ '(result, n) p, (f64_add result p, f64_add n (f64_of_Z 1))) (s, f64_of_Z c) l
  = (foldl f64_add s l, f64_of_Z (c + Z.of_nat (length l))).
Proof.
  revert s c. induction l as [|p l IH]; intros s c Hc Hb; cbn [foldl length] in *; [by rewrite Z.add_0_r|].
  rewrite f64_add_int, IH by lia. do 2 f_equal. lia.
Qed.

Lemma put_points c e : Z.of_nat (length c.1) <= c.2 → Z.of_nat (length (put c e).1) <= (put c e).2.
Proof. unfold put. destruct (how e), c as [[|p ps] m]; simpl; rewrite ?length_app; simpl; lia. Qed.

Lemma added_points d t0 h j : Z.of_nat (length (added d t0 h j).1) <= (added d t0 h j).2.
Proof.
  unfold added. generalize (filter (in_slot d t0 j) h). intros l. induction l as [|e l IH] using rev_ind; [done|].
  rewrite foldl_app. by apply put_points.
Qed.

Lemma visible_bounds n d t0 h now :
  Forall (λ c : content, 0 <= c.2) (visible n d t0 h now) ∧
  Z.of_nat (length (concat (visible n d t0 h now).*1)) <= total (visible n d t0 h now).*2.
Proof.
  unfold visible. generalize (seqZ (slot d t0 now - Z.of_nat n + 1) (last_slot d t0 h - slot d t0 now + Z.of_nat n)). intros l.
  induction l as [|j l [IH1 IH2]]; [done|]. assert (Hp := added_points d t0 h j). csimpl. split; [constructor; [lia|done]|].
  unfold total in *. rewrite length_app. simpl. lia.
Qed.

(** ** Theorems *)

(** C40: A rolling counter of [n] buckets of duration [d], started at [t0], with any
    values added or appended at instants that do not decrease: reading it at [now]
    does not panic.  Sum adds, from the oldest, the points of the spans of the
    window; Count is the number of values added in the last [n] spans; Avg is the
    sum over the number of points; Max and Min are points of the window that no
    other exceeds or is below, and zero without points.  When values were only
    appended, the points are the values of the window in their order. *)
Theorem rolling_aggregates n d t0 h now :
  (0 < n)%nat → Z.of_nat n < 2 ^ 62 → 0 < d → clocked t0 h now → now - t0 <= MaxInt64 → Z.of_nat (length h) < 2 ^ 53 →
  ∃ r, (NewRollingCounter (Z.of_nat n) d t0 ≫= λ r, play r h) = Some r ∧
  let vis := visible n d t0 h now in let pts := concat vis.*1 in
  Reduce now Sum r = Some (foldl f64_add f64_zero pts) ∧
  Reduce now Count_of r = Some (f64_of_Z (Z.of_nat (length (filter (λ e, in_window n d t0 now (time e) = true) h)))) ∧
  Reduce now Avg r = Some (match vis with [] => f64_zero | _ => f64_div (foldl f64_add f64_zero pts) (f64_of_Z (Z.of_nat (length pts))) end) ∧
  (∃ m, Reduce now Max r = Some m ∧ (pts = [] → m = f64_zero) ∧ (pts ≠ [] → m ∈ pts ∧ ∀ q, q ∈ pts → fgt q m = false)) ∧
  (∃ m, Reduce now Min r = Some m ∧ (pts = [] → m = f64_zero) ∧ (pts ≠ [] → m ∈ pts ∧ ∀ q, q ∈ pts → flt q m = false)) ∧
  (Forall (λ e, how e = KAppend) h → pts = val <$> filter (λ e, in_window n d t0 now (time e) = true) h).
Proof.
  intros Hn Hn62 Hd Hc Hmax Hlen. destruct (new_reached n d t0 Hn) as (r0 & H0 & HR0).
  destruct (play_reached n d t0 Hn Hn62 Hd h r0 [] t0 now HR0 Hc Hmax ltac:(simpl; lia)) as (r & Hr & HR). simpl in HR.
  exists r. rewrite H0. split; [done|]. intros vis pts.
  assert (Hred := λ A f (g : A → float64) body a, reduce_reached n d t0 Hn Hn62 Hd r h now f g body a HR Hmax). fold vis in Hred.
  destruct (visible_bounds n d t0 h now) as [Hb1 Hb2]. fold vis in Hb1, Hb2. fold pts in Hb2.
  assert (Hcount : total vis.*2 = Z.of_nat (length (filter (λ e, in_window n d t0 now (time e) = true) h))).
  { unfold vis. rewrite (visible_total n d t0 r h now (λ _, 1) snd HR (added_count d t0 h)). clear. induction h as [|e h IH]; [done|].
    rewrite filter_cons. cbn [fmap list_fmap tally foldr]. unfold tally in IH. simpl in IH. rewrite IH.
    destruct (in_window n d t0 now (time e)); simpl; lia. }
  assert (Hle := length_filter (λ e, in_window n d t0 now (time e) = true) h).
  assert (Hnil : vis = [] → pts = []) by (by unfold pts; intros ->).
  split_and!.
  - rewrite (Hred _ Sum id (λ r c, foldl f64_add r c.1) f64_zero).
    + rewrite foldl_points. fold pts. destruct vis eqn:E; [by rewrite Hnil|done].
    + intros i. unfold Sum. by destruct (loop _ i f64_zero).
  - rewrite (Hred _ Count_of f64_of_Z (λ r c, wraps 64 (r + c.2)) 0) by done. rewrite foldl_count by (done || lia). rewrite Z.add_0_l, <- Hcount. by destruct vis.
  - rewrite (Hred _ Avg (λ '(s, c), f64_div s c) (λ r c, foldl (λ '(result, n) p, (f64_add result p, f64_add n (f64_of_Z 1))) r c.1) (f64_zero, f64_zero)).
    + rewrite foldl_points. fold pts. change (f64_zero, f64_zero) with (f64_zero, f64_of_Z 0). rewrite foldl_avg by lia. by destruct vis.
    + intros i. unfold Avg. by destruct (loop _ i _) as [[]|].
  - exists (foldl (pick fgt) (f64_zero, false) pts).1. split_and!.
    + rewrite (Hred _ Max fst (λ r c, foldl (pick fgt) r c.1) (f64_zero, false)) by done. rewrite foldl_points. fold pts.
      destruct vis eqn:E; [by rewrite Hnil|done].
    + by intros ->.
    + apply pick_all; unfold fgt; [apply flt_irrefl|]. intros x y z H1 H2. by apply (flt_trans z y x).
  - exists (foldl (pick flt) (f64_zero, false) pts).1. split_and!.
    + rewrite (Hred _ Min fst (λ r c, foldl (pick flt) r c.1) (f64_zero, false)) by done. rewrite foldl_points. fold pts.
      destruct vis eqn:E; [by rewrite Hnil|done].
    + by intros ->.
    + apply pick_all; [apply flt_irrefl|apply flt_trans].
  - intros Ha. unfold pts, vis. by eapply visible_appends.
Qed.

(** *** The counter of integers *)

Fixpoint count_play (r : RollingPolicy) (h : list (Z * Z)) : option RollingPolicy :=
  match h with [] => Some r | (t, v) :: h => r' ← counter_Add t v r; count_play r' h end.

Definition ent (x : Z * Z) : entry := mkEntry x.1 KAdd (f64_of_Z x.2).

Lemma count_play_entries h r : Forall (λ x, 0 <= x.2) h → count_play r h = play r (ent <$> h).
Proof.
  intros Hh. revert r. induction Hh as [|[t v] h Hv _ IH]; intros r; [done|]. simpl in Hv. cbn [count_play fmap list_fmap play].
  unfold counter_Add. destruct (Z.ltb_spec v 0); [lia|]. change (do_entry (ent (t, v)) r) with (Policy_Add t (f64_of_Z v) r).
  destruct (Policy_Add t (f64_of_Z v) r); [apply IH|done].
Qed.

Lemma tally_app P h k : tally P (h ++ k) = tally P h + tally P k.
Proof. induction h as [|[t v] h IH]; simpl; [done|]. unfold tally in *. destruct (P t); lia. Qed.

(** The one point of a bucket, as an integer. *)
Definition point_int (c : content) : Z := match c.1 with [] => 0 | p :: _ => f64_to_int p end.

Lemma added_ints d t0 h j : Forall (λ x, 0 <= x.2) h → tally (λ _, true) h < 2 ^ 53 →
  let s := tally (λ t, slot d t0 t =? j) h in
  (added d t0 (ent <$> h) j).1 = [] ∧ s = 0 ∨ (added d t0 (ent <$> h) j).1 = [f64_of_Z s].
Proof.
  induction h as [|[t v] h IH] using rev_ind; intros Hv Hs; [by left|].
  apply Forall_app in Hv as [Hh Hv]. apply Forall_inv in Hv. simpl in Hv. rewrite tally_app in Hs. simpl in Hs.
  rewrite fmap_app. simpl fmap. rewrite added_snoc. cbv zeta. rewrite tally_app. simpl tally. simpl time.
  assert (Hr := tally_range (λ t, slot d t0 t =? j) h Hh). specialize (IH Hh ltac:(lia)). cbv zeta in IH.
  destruct (decide (slot d t0 t = j)) as [E|E], (Z.eqb_spec (slot d t0 t) j); try done; rewrite Z.add_0_r.
  - right. unfold put. simpl. destruct IH as [[-> ->]| ->]; [done|]. simpl. by rewrite f64_add_int by lia.
  - exact IH.
Qed.

Lemma sum_points vis a : Forall (λ c : content, c.1 = [] ∨ ∃ s, 0 <= s < 2 ^ 53 ∧ c.1 = [f64_of_Z s]) vis → 0 <= a → a + total (point_int <$> vis) < 2 ^ 53 →
  foldl f64_add (f64_of_Z a) (concat vis.*1) = f64_of_Z (a + total (point_int <$> vis)).
Proof.
  intros Hv. unfold total. revert a. induction Hv as [|[ps m] vis Hc Hv IH]; intros a Ha Hb; [by rewrite Z.add_0_r|].
  assert (Hpos : 0 <= foldr Z.add 0 (point_int <$> vis)).
  { clear -Hv. induction Hv as [|[ps m] vis Hc _ IH]; [done|]. csimpl. simpl in Hc. unfold point_int at 1.
    destruct Hc as [->|(s & Hs & ->)]; simpl; rewrite ?f64_int_exact by lia; lia. }
  csimpl in *. unfold point_int at 1 in Hb. unfold point_int at 1. simpl in Hc |- *. destruct Hc as [->|(s & Hs & ->)]; simpl in *.
  - by rewrite IH by lia.
  - rewrite f64_int_exact in * by lia. rewrite f64_add_int by lia. rewrite IH by lia. f_equal. lia.
Qed.

(** C22: A rolling counter of [n] buckets of duration [d], started at [t0], to which
    non-negative integers with a sum below 2^53 are added at instants that do not
    decrease, does not panic, and its Value at [now] is exactly the sum of the
    integers added in the last [n] spans of time. *)
Theorem rolling_value n d t0 h now :
  (0 < n)%nat → Z.of_nat n < 2 ^ 62 → 0 < d → clocked t0 (ent <$> h) now → now - t0 <= MaxInt64 →
  Z.of_nat (length h) < 2 ^ 53 → Forall (λ x, 0 <= x.2) h → tally (λ _, true) h < 2 ^ 53 →
  ∃ r, (NewRollingCounter (Z.of_nat n) d t0 ≫= λ r, count_play r h) = Some r ∧
  Value now r = Some (tally (in_window n d t0 now) h).
Proof.
  intros Hn Hn62 Hd Hc Hmax Hlen Hv Hs. destruct (new_reached n d t0 Hn) as (r0 & H0 & HR0).
  destruct (play_reached n d t0 Hn Hn62 Hd (ent <$> h) r0 [] t0 now HR0 Hc Hmax ltac:(simpl; rewrite length_fmap; lia)) as (r & Hr & HR).
  simpl in HR. exists r. rewrite H0. split; [simpl; by rewrite count_play_entries|].
  assert (Hh : (λ e, (time e, f64_to_int (val e))) <$> (ent <$> h) = h).
  { clear -Hv Hs. induction Hv as [|[t v] h Hx Hv IH]; [done|]. assert (Hr := tally_range (λ _, true) h Hv). simpl in Hs, Hx.
    unfold tally in Hr, IH. csimpl. rewrite f64_int_exact by (unfold tally in Hs; lia). f_equal. apply IH. unfold tally in Hs. lia. }
  assert (Hpt : ∀ j, point_int (added d t0 (ent <$> h) j) = tally (λ t, slot d t0 t =? j) h).
  { intros j. assert (Hj := tally_range (λ t, slot d t0 t =? j) h Hv). unfold point_int.
    destruct (added_ints d t0 h j Hv Hs) as [[-> ->]| ->]; [done|]. apply f64_int_exact. lia. }
  assert (Htot := visible_total n d t0 r (ent <$> h) now (λ e, f64_to_int (val e)) point_int HR). cbv beta in Htot. rewrite Hh in Htot. specialize (Htot Hpt).
  assert (Hr2 := tally_range (in_window n d t0 now) h Hv).
  unfold Value. rewrite (reduce_reached n d t0 Hn Hn62 Hd r (ent <$> h) now Sum id (λ r c, foldl f64_add r c.1) f64_zero HR Hmax)
    by (intros i; unfold Sum; by destruct (loop _ i f64_zero)).
  rewrite foldl_points. change f64_zero with (f64_of_Z 0) at 2. rewrite sum_points; [|clear Htot|lia|lia].
  - rewrite Htot, Z.add_0_l. cbn [fmap option_fmap option_map]. f_equal.
    destruct (visible n d t0 (ent <$> h) now); [|by apply f64_int_exact; lia]. by rewrite <- Htot.
  - unfold visible. apply Forall_fmap, Forall_forall. intros j _. simpl.
    assert (Hj := tally_range (λ t, slot d t0 t =? j) h Hv). destruct (added_ints d t0 h j Hv Hs) as [[? _]|E]; [by left|right]. eexists. split; [|exact E]. lia.
Qed.

(** Three buckets of ten time units: what was added in the first of them has left
    the window at 35, the rest is in it. *)
Lemma rolling_value_witness :
  ∃ r, (NewRollingCounter 3 10 0 ≫= λ r, count_play r [(5, 1); (12, 20); (18, 300); (31, 4000)]) = Some r ∧ Value 35 r = Some 4320.
Proof.
  destruct (rolling_value 3 10 0 [(5, 1); (12, 20); (18, 300); (31, 4000)] 35) as (r & Hr & Hv).
  - lia.
  - lia.
  - lia.
  - cbn [clocked fmap list_fmap ent time fst snd]. lia.
  - unfold MaxInt64. lia.
  - cbn [length]. lia.
  - repeat constructor; cbn [snd]; lia.
  - cbn [tally foldr]. lia.
  - exists r. split; [exact Hr|]. rewrite Hv. reflexivity.
Defined.

Lemma rolling_aggregates_witness :
  let h := [mkEntry 5 KAppend (f64_of_Z 7); mkEntry 12 KAppend (f64_of_Z 9); mkEntry 13 KAdd (f64_of_Z 2)] in
  ∃ r, (NewRollingCounter 3 10 0 ≫= λ r, play r h) = Some r ∧ Reduce 15 Sum r = Some (f64_of_Z 18) ∧ Reduce 35 Sum r = Some (f64_of_Z 11).
Proof.
  intros h.
  assert (H : ∀ now, 13 <= now <= 35 → clocked 0 h now ∧ now - 0 <= MaxInt64)
    by (intros now Hnow; unfold h, MaxInt64; cbn [clocked time]; lia).
  assert (Hl : Z.of_nat (length h) < 2 ^ 53) by (unfold h; cbn [length]; lia).
  destruct (rolling_aggregates 3 10 0 h 15 ltac:(lia) ltac:(lia) ltac:(lia) (proj1 (H 15 ltac:(lia))) (proj2 (H 15 ltac:(lia))) Hl) as (r & Hr & Hs & _).
  destruct (rolling_aggregates 3 10 0 h 35 ltac:(lia) ltac:(lia) ltac:(lia) (proj1 (H 35 ltac:(lia))) (proj2 (H 35 ltac:(lia))) Hl) as (r' & Hr' & Hs' & _).
  exists r. split; [exact Hr|]. rewrite Hr' in Hr. injection Hr as ->.
  split; [rewrite Hs|rewrite Hs']; vm_compute; reflexivity.
Defined.
